(* ===== verification/_CoqProject ===== *)
-Q . S2P
Prelude.v
CxxString.v
HttpMessage.v
Router.v
RouterSpec.v
RouterProps.v
WebSocket.v
WsFrames.v
WsSession.v
WsFeed.v
Sse.v
WsHandshake.v
WsRegistry.v
Http1.v
Http1Props.v
Stomp.v
StompProps.v
StompBroker.v
StompBrokerProps.v
StompEndpoint.v
StompEndpointProps.v
CxxDouble.v
Middleware.v
RateLimit.v
RateLimitProps.v
ConcurrencyLimit.v
BrowserAuth.v
EdgeMiddleware.v
EdgeMiddlewareProps.v
Memory.v
MemoryProps.v
Multipart.v
MultipartProps.v
Transaction.v
TransactionProps.v
Migration.v
MigrationProps.v
QueryBuilder.v
QueryBuilderProps.v
Jwt.v
JwtProps.v
JwtWitness.v
Authorization.v
DiContainer.v
DiGraphProps.v
DiSafety.v
DiLifetime.v
DiBuild.v
DiScope.v
StaticResource.v
StaticResourceProps.v
Observability.v
ObservabilityProps.v
ClientHttp1.v
ClientHttp1Props.v
RestClient.v
RestClientProps.v
RestClientCalls.v
Http2.v
Http2Props.v
Http2Streams.v
Http3.v
Http3Props.v
TcpConnection.v
TcpManager.v
TcpManagerProps.v
TcpService.v
Shard.v
ShardProps.v
Quic.v
QuicProps.v
QuicStreams.v
EventLoop.v
EventLoopProps.v
EventLoopTasks.v
Drivers.v
DriversProps.v
Cancellation.v
Repository.v
RepositoryProps.v
