(* ===== verification/Prelude.v ===== *)
(** * NovaBoot: a verification library for the C++ web framework

    NovaBoot (src/) is a C++ framework for HTTP/1.1, HTTP/2 and HTTP/3 servers
    with routing, middlewares, WebSocket, server-sent events and STOMP
    messaging, dependency injection, database access and a REST client.  This
    library translates its protocol, policy and resource code into executable
    definitions and proves what makes that code correct.

    ** Parts and files

    A shard is a thread with an event loop.  The loop calls the TCP and the QUIC
    connection managers when their sockets are ready; these hand bytes to an
    HTTP/1.1, HTTP/2 or HTTP/3 session, which parses requests and calls the
    handler of the shard: the middleware pipeline around the route the router
    found.  An upgrade turns a connection, or a stream, into a WebSocket
    [Connection]; STOMP runs on its text messages, with a broker that sends to
    other sessions through their [SessionHandle]s.  Beans come from the
    dependency-injection container, data from the database layer.

    - [Prelude]: bytes, machine integers, the error sum, tactics, hints and
      list lemmas.  [CxxString]: the part of [std::string], [<cctype>] and the
      number conversions the code uses.  [CxxDouble]: [double] as binary64.
    - [HttpMessage]: http3/header_map, http3/request, http3/response,
      http3/cookie.h, router/path_params.h; a module each, and the
      specifications [HeaderMapSpec] (a multimap) and [CookieSpec].
    - [Router], [RouterSpec], [RouterProps]: router/router.*.  The tree with
      its nodes, registration and both searches; the reference table of
      patterns with its order of preference; refinement.
    - [WebSocket], [WsFrames], [WsSession], [WsFeed]:
      websocket/websocket.*.  The queue other threads write to
      ([SharedSession]), the [Session] with its output buffer, the
      [Connection] with its frame parser.  An application callback is the list
      of session calls it makes; a step relation interleaves network input,
      callbacks and other threads.  [WsHandshake]: the opening handshake, with
      OpenSSL's base64 and SHA-1 as parameters.  [WsRegistry]: handles and the
      registry over a world of sessions; the class [SessionApi] is what the
      broker knows of a session, [world_session_api] the implementation.
    - [Sse]: http/sse.h, the encoder and the bounded channel, with a client
      that follows the event-stream rules as specification.
    - [Http1], [Http1Props]: http1/http1_session.*, the incremental parser,
      keep-alive, chunked bodies, upgrades, serialization, and a handler that
      may throw out of [feed_data].
    - [Stomp], [StompProps], [StompBroker], [StompBrokerProps],
      [StompEndpoint], [StompEndpointProps]: messaging/stomp.*.  Frames and
      their decoder; [SimpleBroker], whose [publish] is both a function and
      the steps between its uses of the mutex ([pub_step]); [Endpoint] with its
      connections, and the callbacks of [RelayEndpoint].
    - [Middleware]: context/request_context.h, middleware/middleware.h and
      pipeline.*.  A middleware transforms an exchange (request, response,
      context and the rest of the world) in a state and exception monad.
      [RateLimit], [RateLimitProps]: middleware/rate_limit_middleware.*, with
      the class [RateLimitStore] between middleware and store.
      [ConcurrencyLimit]: middleware/concurrency_limit_middleware.*.
      [BrowserAuth]: session, CSRF and request-id
      middlewares, with the class [SessionStore] and its laws between manager
      and store, and [Platform] for OpenSSL's generator and comparison and the
      clock.  [EdgeMiddleware], [EdgeMiddlewareProps]: forwarded headers with
      CIDR matching ([inet_pton] a parameter), CORS, body size and security
      headers, content negotiation with [std::strtod], compression over the
      streams of zlib (a class with a law).
    - [StaticResource], [StaticResourceProps]: http/static_resource.*, with what
      the file system answers as a parameter.  [Observability],
      [ObservabilityProps]: observability/*, trace context, meters and the
      observation middleware.
    - [Jwt], [JwtProps], [JwtWitness]: middleware/jwt_middleware.*.  The token
      builder and issuer, verification, the middleware and the WebSocket
      authorizer over the classes [Openssl], [Simdjson], [HashOrder] and
      [SystemClock], whose laws [JwtProps] states and concrete instances in
      [JwtWitness] satisfy.  [Authorization]:
      middleware/authorization_middleware.* and declarative_authorization.*.
    - [Memory], [MemoryProps]: memory/arena_allocator.* and pool_allocator.h
      over an address space of mapped regions, [mmap] a class with laws.
    - [Multipart], [MultipartProps]: http/multipart.*, with the class
      [TempFiles] for the file system.
    - [Transaction], [TransactionProps]: db/transaction.h.  The database is an
      oracle that answers calls from the trace so far; an application is a
      program of SQL, exceptions, handlers, nested executions and calls that
      end the transaction of its connection behind the manager's back.
      [Migration], [MigrationProps]: db/migration.h over the class [Database].
      [QueryBuilder], [QueryBuilderProps]: db/dialect.h and query_builder.h.
      [Drivers], [DriversProps]: db/uuid.h and db/drivers/*, the text of
      parameters and columns, batches over libpq's pipeline, SQLite's
      statements and the connection pools with their condition variable, over
      the classes [Libpq] and [Engine].
      [Repository], [RepositoryProps]: db/orm_reflection.h and repository.h.  A
      reflected class is data (members, annotations, initial values, hooks), an
      object the list of its members' values, the database the class
      [Orm.Database]; [SqlUpdates] is the law of SQL's UPDATE, [Leases] that of
      the pool, and [Store] a database that reads the statements' text.
    - [DiContainer]: di/container.*, lifecycle.*, scope.h and inject.h.  The
      containers are a store with parents, objects have identities and die; a
      factory is a program that asks its container for beans and creates
      objects.  [DiGraphProps]: cycle detection and Kahn's algorithm.
      [DiSafety], [DiLifetime]: the invariant of the store and sequences of
      calls.  [DiBuild]: progress of [build].  [DiScope]: request scopes,
      witnesses and defects.

    - [Http2], [Http2Props], [Http2Streams]: http2/http2_session.*; [Http3],
      [Http3Props]: http3/http3_session.* and http3_stream.h.  The calls that
      nghttp2 and nghttp3 make are the events of a run, what the session
      submits to them is recorded; [Http3Session] is the HTTP/3 session over an
      nghttp3 that calls it back, as a QUIC connection uses it.
    - [TcpConnection], [TcpManager], [TcpManagerProps], [TcpService]:
      net/tls_tcp_stream.* and net/tcp_connection_manager.*.  The class
      [TcpSession] is what the manager knows of a connection, [TcpService]
      shows that [TcpConnection] implements it.
    - [Quic], [QuicProps], [QuicStreams]: quic/quic_connection.*,
      quic/connection_manager.* and the part of core/shard.cpp that attaches
      HTTP/3 sessions.  A call into ngtcp2 is a tree of the callbacks it makes.
      [Session] is what a connection knows of an HTTP/3 session, [SessionLaws]
      what it promises, and [QuicStreams] shows that [Http3Session] does.
    - [EventLoop], [EventLoopProps], [EventLoopTasks]:
      core/io_uring_event_loop.*.  The kernel is the completions and results
      that come in; callbacks are scripts of calls on the loop; the thread of
      the loop, with [run] and [stop], and those that post tasks are a labelled
      transition system.  [Cancellation]:
      async/cancellation.h, as such a system too.
    - [Shard], [ShardProps]: core/shard.cpp and core/error_response.h, the
      handlers the shard gives to the sessions, and a concrete application from
      the bytes of a request to those of its answer.
    - [ClientHttp1], [ClientHttp1Props], [RestClient], [RestClientProps],
      [RestClientCalls]: client/rest_client.*.  Requests, retries,
      cancellation and reconnection over the three protocols; a call is a
      coroutine known by the handle others hold.

    ** Data and effects

    Strings and byte vectors are lists of [ascii], 64-bit integers are [Z] with
    [wrap64] where the code can wrap, [std::expected] and exceptions are sums
    with the error on the left, [std::unordered_map] is a [gmap] (an order of
    iteration that is observable is a parameter, an arbitrary permutation).
    Undefined behaviour is a value of its own ([Undefined], or [None] for an
    overflowing buffer), so that it can be excluded or exhibited.  What is
    guarded by a mutex is one atomic step; a function that takes it several
    times is several steps where others can come in between.

    ** Theorems

    - Routing: both look-ups refine the reference table.
    - HTTP/1.1: pipelined requests are served in order, up to one that starts
      an event stream or whose handler throws; chunked bodies decode,
      [feed_data] terminates.
    - WebSocket: UTF-8 validation is exact, frames round-trip, sending on every
      branch, invariants of the queue and of the connection in every reachable
      state, independence of how the transport cuts the stream; handshake.
    - Server-sent events: the stream round-trips, the channel is a bounded FIFO.
    - STOMP: frames round-trip however they are cut; the broker's invariant,
      delivery, confinement and acknowledgements; the endpoint never leaks a
      subscription, whatever comes in between the steps of a publication (only
      an acknowledgement that is recorded late can stay), shuts down for good,
      and serves nothing before CONNECT.
    - Middlewares: sliding window and GCRA admit what they should, whatever
      other clients ask in between, as long as the store has room; the store
      isolates clients and stays bounded, permits balance under every
      interleaving, login rotates sessions, CSRF tokens guard, CIDRs match by
      bits, forwarded headers change only what a trusted peer may change,
      security headers are added and nothing is lost.
    - Tokens and authorization: an issued token is accepted with the claims it
      was built from; behind both middlewares a handler runs only with an
      authentic token that the policies grant.
    - Allocators: live allocations of the arena are disjoint, large enough and
      aligned; the slots of a pool are free or in use, never both.
    - Multipart: forms round-trip; temporary files are removed on every error.
    - Database: transactions whose program leaves them to the manager are ended
      once and committed only when they may be, joined failures doom the transaction, the stack of active ones is
      restored; migrations are applied once, in order, or leave no trace, and an
      inconsistent ledger is refused; the statements of the builder are well
      formed.
    - Repositories: saves of a versioned row lose no update, loading ends
      whatever cycles the entities make, connections are given back, stored
      entities read back ([connections_returned], [entity_reads_back]).
    - Dependency injection: a cycle is reported, otherwise [build] returns
      with every eager bean constructed after its dependencies; no sequence of
      calls touches a dead object, deletes one twice or before its users;
      shutdown is complete; request beans are isolated.
    - Transports: requests on interleaved HTTP/2 streams are assembled and
      answered once, a WebSocket on a stream is a byte pipe; HTTP/3 stream data
      is delivered once, events stay alive until acknowledged; what a TCP
      connection produced reaches its socket in order and it never stalls;
      QUIC connections are never used after their end and each stream byte goes
      out once.
    - Event loop: timers fire once and not after their cancellation, posted
      tasks run once, in order and without a lost wake-up, those that a turn
      finds before [run] ends; cancellation callbacks run once.
    - Shard: every request is answered as the table of routes says, exceptions
      become reports and do not end the thread, handshakes are decided the same
      way over both protocols.
    - REST client: every call is accounted for, retries are bounded, requests
      and responses of HTTP/1.1 are read back by the other side.
    - Drivers: connections of a pool are leased to one caller at a time and
      closed once, and no notification of those who wait is lost; batches return the counts or the first error, parameters
      read back, SQLite statements are finalized.
    - Static files are confined to their root; negotiation picks the best offer;
      compression is transparent below 4 GiB.
    - Header map and cookies: refinement to a multimap, no header injection,
      cookies read back.

    Lemmas beside them exhibit where the code does not do what it means to:
    [match_route_stale_params], [match_route_race], [upgrade_key_overflow],
    [chunk_size_overflow], [last_chunk_split], [negative_content_length],
    [exception_loses_answers],
    [encode_cr_injection], [heartbeat_depends_on_cut],
    [unsubscribe_forgets_acks], [late_acknowledgement_leaks],
    [heartbeat_negotiation_swapped], [raw_commit_escapes],
    [user_send_without_subscriber], [relay_drops_early_frames],
    [fresh_token_bucket_refused], [pruning_forgets_the_window],
    [empty_prefix_trusts_all], [long_prefix_overflows],
    [foreign_origin_gets_the_list], [declared_length_believed],
    [query_bypasses_policy], [padding_only_throws], [far_expiry_overflows],
    [duplicate_claim_disagrees], [large_alignment_ignored],
    [construct_leaks_on_throw], [pool_size_wraps], [owns_imprecise],
    [part_header_case_sensitive], [quoted_semicolon_cut],
    [longer_boundary_line_rejected], [stale_active_reference],
    [suspension_reorders_stack], [exemption_ignores_rollback_only],
    [concurrent_start_poisons_ledger], [quoted_question_mark_numbered],
    [offset_without_limit], [nested_request_bean_shared],
    [request_pre_destroy_twice], [lazy_pre_destroy_skipped],
    [rebuild_after_shutdown_undefined], [failed_build_leaks],
    [bound_prototype_unresolvable], [lazy_async_deadlock],
    [shard_order_unspecified], [page_offset_overflows], [metric_key_collides],
    [tcp_attempts_never_reset], [retry_on_disconnect_lost],
    [send_failure_strands_request], [second_http1_request_overwrites],
    [h3_requests_lost_on_reconnect], [cancel_after_failed_write_undefined],
    [stale_write_buffer], [stream_retry_drops_body],
    [http1_cancel_hits_other_call], [headerless_response_stalls],
    [interim_response_final], [bad_length_throws], [huge_length_wraps],
    [huge_chunk_loops], [stream_with_length_chunked],
    [request_header_injection], [upload_credit_lost],
    [rejected_connect_runs_handler], [rejected_connect_handled_twice],
    [tunnel_end_ignored], [closed_tunnel_never_ends],
    [tunnel_trailers_run_handler], [data_before_close_lost],
    [tcp_websocket_buffer_unbounded], [error_content_type_twice],
    [error_keeps_event_stream], [resume_after_cleanup_dangles],
    [idle_connection_stays], [read_error_keeps_connection],
    [blocked_stream_stops_acks], [missing_stream_never_returns],
    [modify_fd_accumulates_polls], [cancel_frees_pending_timer],
    [send_without_local_address], [stop_before_run_lost],
    [stop_leaves_task_queued], [large_body_lost],
    [failed_reconnect_shrinks_pool], [constructor_leaks],
    [batch_never_returns], [broken_pipeline_returned],
    [query_leaks_statement], [zero_byte_truncates], [small_double_is_zero],
    [placeholder_in_literal], [uuids_of_one_millisecond],
    [malformed_uuid_accepted], [ties_follow_the_header],
    [specific_refusal_ignored], [refused_gzip_used], [callback_after_reset],
    [unfetched_children_deleted], [parent_collection_empty], [short_not_read],
    [version_wraps], [missing_row_saved], [deleted_row_returns],
    [joined_prefix_stays], [cyclic_delete_never_returns].

    ** Fuel

    Loops over a buffer and the searches of the router carry as fuel its length
    plus one ([decode_loop], [feed_loop] of a WebSocket, [valid_utf8],
    [tokens], [search]): each turn consumes a byte; so do
    [split_fuel] of the scopes and the loops of the multipart parser
    ([parse_loop], [part_headers]), while [write_all] has a turn for every
    interrupted write its file system can give.  Padding base64 takes at most
    three turns.  A turn of the HTTP/1.1 loop may also only change the parser's
    state; [Http1.feed_data] gives it enough fuel for that, and
    [feed_data_terminates] proves that it never runs out.  [dfs] and
    [kahn_loop] get one more than the number of registrations; resolving a bean
    takes the depth of its dependencies, at most that number, which
    [build_constructs_all] proves enough.  [digits_of] carries
    the number of binary digits.  The event source of HTTP/2 has a turn for each
    pending event, TLS reading one for each byte that is left, [write_pending]
    one for each byte of the buffer, [segment_loop] one for each byte of a
    packet.  Resumed calls of the REST client nest at most twice.  Where the
    code can loop for ever the fuel is arbitrary and theorems say that enough of
    it gives the result, or that none does: writing of QUIC
    ([missing_stream_never_returns]), the batch of PostgreSQL
    ([batch_answered], [batch_never_returns]), loading of entities
    ([eager_loading_ends]: two more than the keys of its entities and join tables) and
    cascading deletion ([cyclic_delete_never_returns]).

    ** Not modelled

    The libraries themselves (nghttp2, nghttp3, ngtcp2, OpenSSL, libpq, SQLite,
    zlib, simdjson, the kernel), which are parameters with the laws the code
    relies on.  Code that is templates over reflected types other than entities:
    schema generation, JSON binding, validation, OpenAPI and the annotation
    scanner (compile-time reflection, for which the definitions would be those
    of the user's types); of entities, what a lazy holder loads on its first
    access and the collections a query asks for.  The creation of threads, rings and sockets
    (core/server.*, net/udp_socket.*, the constructors of the loop), TLS set-up,
    the configuration file, the actuator's reports, request logging, the HTTP/3
    and QUIC clients behind the REST client, the relay's sockets, and the
    testing clients: calls into libraries or the system with little logic of
    their own. *)

From Stdlib Require Export ZArith Ascii String Lia.
From stdpp Require Export base list numbers gmap strings sorting.

Export ListNotations.
#[global] Open Scope Z_scope.
#[global] Open Scope list_scope.

(** ** Bytes

    [std::uint8_t] and [char] are both an [ascii]; a [std::string], a
    [std::string_view] and a [std::vector<std::uint8_t>] are a list of them. *)

Abbreviation byte := ascii (only parsing).
Abbreviation bytes := (list ascii) (only parsing).

(** The unsigned value of a byte. *)
Definition byte_val (b : byte) : Z := Z.of_N (N_of_ascii b).

(** [static_cast<std::uint8_t>]: truncation modulo 256. *)
Definition byte_of_Z (z : Z) : byte := ascii_of_N (Z.to_N (z mod 256)).

(** A byte string from a literal. *)
Definition bs (s : string) : bytes := list_ascii_of_string s.
Arguments bs _%_string.

(** ** Machine integers *)

(** [std::size_t] and [std::uint64_t] arithmetic wraps modulo 2^64. *)
Definition wrap64 (z : Z) : Z := z mod 2 ^ 64.

Definition u64_max : Z := 2 ^ 64 - 1.

Definition in_u64 (z : Z) : Prop := 0 <= z < 2 ^ 64.

Definition len {A} (l : list A) : Z := Z.of_nat (length l).

(** ** Errors

    [std::expected<A, E>] and the functions that throw: a sum whose left side
    is the error. *)

Abbreviation result E A := (sum E A) (only parsing).
Abbreviation Err := inl (only parsing).
Abbreviation Ok := inr (only parsing).

Declare Scope result_scope.
Delimit Scope result_scope with result.

Definition result_bind {E A B} (m : result E A) (f : A -> result E B) : result E B :=
  match m with
  | inl e => inl e
  | inr a => f a
  end.

Notation "'let!' x ':=' m 'in' k" := (result_bind m (fun x => k))
  (at level 10, x pattern, m at level 100, k at level 200) : result_scope.

(** Run a loop body over a list of elements, threading a state: the range-for
    loops of the source. *)
Definition for_each {A S} (body : S -> A -> S) (l : list A) (s : S) : S :=
  foldl body s l.

(** ** Tactics *)

(** Split on the discriminee of a [match] or an [if] of the goal. *)
Ltac case_goal :=
  match goal with
  | |- context [match ?e with _ => _ end] => destruct e eqn:?
  end.

(** The same in a hypothesis. *)
Ltac case_hyp H :=
  match type of H with
  | context [match ?e with _ => _ end] => destruct e eqn:?
  end.

(** Turn the boolean tests in the context into propositions. *)
Ltac to_prop :=
  repeat match goal with
  | H : _ && _ = true |- _ => apply andb_true_iff in H; destruct H
  | H : _ || _ = false |- _ => apply orb_false_iff in H; destruct H
  | H : negb _ = true |- _ => apply negb_true_iff in H
  | H : negb _ = false |- _ => apply negb_false_iff in H
  | H : (_ =? _) = true |- _ => apply Z.eqb_eq in H
  | H : (_ =? _) = false |- _ => apply Z.eqb_neq in H
  | H : (_ <? _) = true |- _ => apply Z.ltb_lt in H
  | H : (_ <? _) = false |- _ => apply Z.ltb_ge in H
  | H : (_ <=? _) = true |- _ => apply Z.leb_le in H
  | H : (_ <=? _) = false |- _ => apply Z.leb_gt in H
  | H : (_ =? _)%nat = true |- _ => apply Nat.eqb_eq in H
  | H : (_ =? _)%nat = false |- _ => apply Nat.eqb_neq in H
  | H : (_ <? _)%nat = true |- _ => apply Nat.ltb_lt in H
  | H : (_ <? _)%nat = false |- _ => apply Nat.ltb_ge in H
  | H : (_ <=? _)%nat = true |- _ => apply Nat.leb_le in H
  | H : (_ <=? _)%nat = false |- _ => apply Nat.leb_gt in H
  | H : bool_decide _ = true |- _ => apply bool_decide_eq_true in H
  | H : bool_decide _ = false |- _ => apply bool_decide_eq_false in H
  end.

(** Break conjunctions and existentials of the context. *)
Ltac destruct_hyps :=
  repeat match goal with
  | H : _ /\ _ |- _ => destruct H
  | H : exists _, _ |- _ => destruct H
  end.

(** Linear arithmetic with division and remainder by constants. *)
Ltac dm_lia := Z.div_mod_to_equations; lia.

Create HintDb nova.
Create Rewrite HintDb nova_len.

(** ** Byte lemmas *)

Lemma byte_val_range b : 0 <= byte_val b < 256.
Proof.
  unfold byte_val. pose proof (N_ascii_bounded b). lia.
Qed.

Lemma byte_of_val b : byte_of_Z (byte_val b) = b.
Proof.
  unfold byte_of_Z. rewrite Z.mod_small by apply byte_val_range.
  unfold byte_val. rewrite N2Z.id. apply ascii_N_embedding.
Qed.

Lemma val_of_byte z : byte_val (byte_of_Z z) = z mod 256.
Proof.
  unfold byte_val, byte_of_Z.
  pose proof (Z.mod_pos_bound z 256 ltac:(lia)).
  rewrite N_ascii_embedding by lia. rewrite Z2N.id; lia.
Qed.

Lemma val_of_byte_small z : 0 <= z < 256 -> byte_val (byte_of_Z z) = z.
Proof. intros H. rewrite val_of_byte. by apply Z.mod_small. Qed.

#[export] Instance byte_val_inj : Inj (=) (=) byte_val.
Proof. intros a b H. by rewrite <- (byte_of_val a), H, byte_of_val. Qed.

Lemma byte_eqb_val a b : bool_decide (a = b) = (byte_val a =? byte_val b).
Proof.
  destruct (Z.eqb_spec (byte_val a) (byte_val b)) as [E|E].
  - apply bool_decide_eq_true. by apply (inj byte_val).
  - apply bool_decide_eq_false. congruence.
Qed.

(** All 256 bytes, for statements checked by enumeration. *)
Definition all_bytes : list byte := map (fun n => ascii_of_nat n) (seq 0 256).

Lemma in_all_bytes b : b ∈ all_bytes.
Proof.
  unfold all_bytes. apply list_elem_of_In, in_map_iff.
  exists (nat_of_ascii b). split; [apply ascii_nat_embedding|].
  apply in_seq. pose proof (nat_ascii_bounded b). lia.
Qed.

(** A decidable statement about bytes holds when it holds of the 256. *)
Lemma byte_forall (P : byte -> bool) : forallb P all_bytes = true -> forall b, P b = true.
Proof.
  intros H b. rewrite forallb_forall in H. apply H.
  apply list_elem_of_In, in_all_bytes.
Qed.

Lemma byte_forall2 (P : byte -> byte -> bool) :
  forallb (fun a => forallb (P a) all_bytes) all_bytes = true ->
  forall a b, P a b = true.
Proof.
  intros H a. apply byte_forall.
  exact (byte_forall (fun a => forallb (P a) all_bytes) H a).
Qed.

(** ** Machine-integer lemmas *)

Lemma wrap64_range z : in_u64 (wrap64 z).
Proof. unfold in_u64, wrap64. apply Z.mod_pos_bound. lia. Qed.

Lemma wrap64_small z : in_u64 z -> wrap64 z = z.
Proof. intros H. unfold wrap64. by apply Z.mod_small. Qed.

(** Shifting left and filling the low bits is multiplication and addition. *)
Lemma lor_shiftl k v x : 0 <= k -> 0 <= x < 2 ^ k -> Z.lor (Z.shiftl v k) x = v * 2 ^ k + x.
Proof.
  intros Hk Hx. rewrite Z.shiftl_mul_pow2 by lia.
  pose proof (Z.add_lor_land (v * 2 ^ k) x).
  assert (Z.land (v * 2 ^ k) x = 0); [|lia].
  apply Z.bits_inj'. intros i Hi. rewrite Z.land_spec, Z.bits_0.
  destruct (Z.lt_ge_cases i k).
  - by rewrite Z.mul_pow2_bits_low by lia.
  - destruct (Z.eq_dec x 0) as [->|]; [by rewrite Z.bits_0, andb_false_r|].
    rewrite (Z.bits_above_log2 x i), andb_false_r; [done|lia|].
    apply Z.log2_lt_pow2; [lia|]. eapply Z.lt_le_trans; [apply Hx|].
    apply Z.pow_le_mono_r; lia.
Qed.

(** ** List lemmas *)

Lemma len_nonneg {A} (l : list A) : 0 <= len l.
Proof. unfold len. lia. Qed.

Lemma len_app {A} (l k : list A) : len (l ++ k) = len l + len k.
Proof. unfold len. rewrite length_app. lia. Qed.

Lemma len_cons {A} (x : A) l : len (x :: l) = len l + 1.
Proof. unfold len. cbn [length]. lia. Qed.

Lemma len_nil {A} : len (@nil A) = 0.
Proof. reflexivity. Qed.

Lemma len_take {A} n (l : list A) : len (take n l) = Z.min (Z.of_nat n) (len l).
Proof. unfold len. rewrite length_take. lia. Qed.

Lemma len_drop {A} n (l : list A) : len (drop n l) = Z.max 0 (len l - Z.of_nat n).
Proof. unfold len. rewrite length_drop. lia. Qed.

Lemma len_map {A B} (f : A -> B) l : len (map f l) = len l.
Proof. unfold len. by rewrite length_map. Qed.

#[export] Hint Rewrite @len_app @len_cons @len_nil @len_take @len_drop @len_map : nova_len.

(** Arithmetic on list lengths. *)
Ltac len_lia :=
  autorewrite with nova_len in *;
  repeat match goal with
  | |- context [len ?l] =>
      lazymatch goal with
      | _ : 0 <= len l |- _ => fail
      | _ => pose proof (len_nonneg l)
      end
  | _ : context [len ?l] |- _ =>
      lazymatch goal with
      | _ : 0 <= len l |- _ => fail
      | _ => pose proof (len_nonneg l)
      end
  end; lia.

Lemma forallb_Forall {A} (p : A -> bool) l : forallb p l = true <-> Forall (fun x => p x = true) l.
Proof. rewrite forallb_forall, List.Forall_forall. done. Qed.
