(* ===== verification/CxxString.v ===== *)
(** * The C++ standard-library operations on strings the framework calls

    [std::string_view::find], [substr], [starts_with], the [<cctype>]
    predicates of the "C" locale, [std::stoull], [std::from_chars],
    [std::to_string] and the scanning loops the components share.  A position
    is a [nat]; [std::string_view::npos] is [None]. *)

From S2P Require Import Prelude.

(** ** Searching *)

(** [s.find(c)] *)
Fixpoint find_char (c : byte) (s : bytes) : option nat :=
  match s with
  | [] => None
  | x :: r => if bool_decide (x = c) then Some 0%nat else S <$> find_char c r
  end.

(** [s.find(c, pos)] *)
Definition find_char_from (c : byte) (pos : nat) (s : bytes) : option nat :=
  Nat.add pos <$> find_char c (drop pos s).

(** [s.rfind(c)] *)
Definition rfind_char (c : byte) (s : bytes) : option nat :=
  (fun i => length s - 1 - i)%nat <$> find_char c (rev s).

(** [s.starts_with(p)] *)
Fixpoint starts_with (p s : bytes) : bool :=
  match p, s with
  | [], _ => true
  | x :: p', y :: s' => bool_decide (x = y) && starts_with p' s'
  | _ :: _, [] => false
  end.

(** [s.ends_with(p)] *)
Definition ends_with (p s : bytes) : bool := starts_with (rev p) (rev s).

(** [s.find(p)] for a string [p]; the empty pattern is found at 0. *)
Fixpoint find_sub (p s : bytes) : option nat :=
  if starts_with p s then Some 0%nat
  else match s with
       | [] => None
       | _ :: r => S <$> find_sub p r
       end.

(** [std::string::contains(c)] *)
Definition contains_char (c : byte) (s : bytes) : bool :=
  match find_char c s with Some _ => true | None => false end.

(** [s.find_first_not_of(set)], with the set as a predicate. *)
Fixpoint find_first_not (p : byte -> bool) (s : bytes) : option nat :=
  match s with
  | [] => None
  | x :: r => if p x then S <$> find_first_not p r else Some 0%nat
  end.

(** [s.find_last_not_of(set)] *)
Definition find_last_not (p : byte -> bool) (s : bytes) : option nat :=
  (fun i => length s - 1 - i)%nat <$> find_first_not p (rev s).

(** ** Characters, in the "C" locale *)

Definition tolower (b : byte) : byte :=
  let v := byte_val b in
  if (65 <=? v) && (v <=? 90) then byte_of_Z (v + 32) else b.

Definition toupper (b : byte) : byte :=
  let v := byte_val b in
  if (97 <=? v) && (v <=? 122) then byte_of_Z (v - 32) else b.

Definition isspace (b : byte) : bool :=
  let v := byte_val b in ((9 <=? v) && (v <=? 13)) || (v =? 32).

Definition isdigit (b : byte) : bool :=
  let v := byte_val b in (48 <=? v) && (v <=? 57).

Definition isalnum (b : byte) : bool :=
  let v := byte_val b in
  isdigit b || ((65 <=? v) && (v <=? 90)) || ((97 <=? v) && (v <=? 122)).

Definition lower (s : bytes) : bytes := map tolower s.
Definition upper (s : bytes) : bytes := map toupper s.
#[global] Arguments lower : simpl never.
#[global] Arguments upper : simpl never.

(** Blank: a space or a tab, the set [" \t"]. *)
Definition blank (b : byte) : bool :=
  let v := byte_val b in (v =? 32) || (v =? 9).

(** The longest prefix of characters that satisfy [p]. *)
Fixpoint take_while (p : byte -> bool) (s : bytes) : bytes :=
  match s with
  | x :: r => if p x then x :: take_while p r else []
  | [] => []
  end.

(** ** Trimming *)

Fixpoint drop_while (p : byte -> bool) (s : bytes) : bytes :=
  match s with
  | x :: r => if p x then drop_while p r else s
  | [] => []
  end.

(** The [remove_prefix] / [remove_suffix] loops. *)
Definition trim_loops (p : byte -> bool) (s : bytes) : bytes :=
  rev (drop_while p (rev (drop_while p s))).

(** The [find_first_not_of] / [find_last_not_of] form. *)
Definition trim_find (p : byte -> bool) (s : bytes) : bytes :=
  match find_first_not p s with
  | None => []
  | Some first =>
      match find_last_not p s with
      | None => []
      | Some last => take (last - first + 1) (drop first s)
      end
  end.

(** ** Case-insensitive comparison: the [tolower] loops of the source. *)
Fixpoint iequals (a b : bytes) : bool :=
  match a, b with
  | [], [] => true
  | x :: a', y :: b' => bool_decide (tolower x = tolower y) && iequals a' b'
  | _, _ => false
  end.

(** ** Scanning loops

    [while (!rest.empty()) { i = rest.find(sep); tok = rest.substr(0, i); ...
     if (i == npos) break; rest.remove_prefix(i + 1); }]
    visits the tokens below; the empty token after a final separator is not
    visited. *)
Fixpoint tokens_fuel (fuel : nat) (sep : byte) (s : bytes) : list bytes :=
  match fuel with
  | O => []
  | S fuel' =>
      match s with
      | [] => []
      | _ =>
          match find_char sep s with
          | None => [s]
          | Some i => take i s :: tokens_fuel fuel' sep (drop (i + 1) s)
          end
      end
  end.

Definition tokens (sep : byte) (s : bytes) : list bytes :=
  tokens_fuel (S (length s)) sep s.
#[global] Arguments tokens : simpl never.

(** ** Numbers *)

Definition digit_val (base : Z) (b : byte) : option Z :=
  let v := byte_val b in
  let d := if isdigit b then v - 48
           else if (97 <=? v) && (v <=? 122) then v - 87
           else if (65 <=? v) && (v <=? 90) then v - 55
           else base in
  if d <? base then Some d else None.

(** The longest run of digits: its value and what follows. *)
Fixpoint digits_run (base acc : Z) (s : bytes) : Z * bytes :=
  match s with
  | x :: r =>
      match digit_val base x with
      | Some d => digits_run base (acc * base + d) r
      | None => (acc, s)
      end
  | [] => (acc, [])
  end.

Inductive number_error := NoDigits | OutOfRange.

(** [std::from_chars] into a [std::uint64_t] or a [std::size_t], base 10: no
    blank and no sign is skipped.  The value and the unread rest. *)
Definition from_chars_u64 (s : bytes) : result number_error (Z * bytes) :=
  match s with
  | x :: _ =>
      if isdigit x then
        let '(v, rest) := digits_run 10 0 s in
        if v <=? u64_max then inr (v, rest) else inl OutOfRange
      else inl NoDigits
  | [] => inl NoDigits
  end.

(** [std::stoull(s, &pos, base)]: [strtoull] skips leading white space, takes
    an optional sign, for base 16 an optional [0x], then the digits; a negative
    number is negated modulo 2^64.  [std::invalid_argument] without digits,
    [std::out_of_range] over 2^64 - 1.  The value and the unread rest. *)
Definition strip_sign (s : bytes) : bool * bytes :=
  match s with
  | "-"%char :: r => (true, r)
  | "+"%char :: r => (false, r)
  | _ => (false, s)
  end.

Definition strip_0x (base : Z) (s : bytes) : bytes :=
  if base =? 16 then
    match s with
    | "0"%char :: x :: d :: r =>
        if (bool_decide (x = "x"%char) || bool_decide (x = "X"%char)) &&
           bool_decide (is_Some (digit_val 16 d))
        then d :: r else s
    | _ => s
    end
  else s.

Definition stoull (base : Z) (s : bytes) : result number_error (Z * bytes) :=
  let '(neg, r) := strip_sign (drop_while isspace s) in
  match strip_0x base r with
  | d :: r' =>
      match digit_val base d with
      | None => inl NoDigits
      | Some _ =>
          let '(v, rest) := digits_run base 0 (d :: r') in
          if v <=? u64_max
          then inr ((if neg : bool then wrap64 (- v) else v), rest)
          else inl OutOfRange
      end
  | [] => inl NoDigits
  end.

Definition digit_char (d : Z) : byte :=
  if d <? 10 then byte_of_Z (48 + d) else byte_of_Z (87 + d).

(** Digits, most significant first; [fuel] bounds their number. *)
Fixpoint digits_of (fuel : nat) (base n : Z) (acc : bytes) : bytes :=
  match fuel with
  | O => acc
  | S fuel' =>
      let acc' := digit_char (n mod base) :: acc in
      if n <? base then acc' else digits_of fuel' base (n / base) acc'
  end.

Definition digits_fuel (n : Z) : nat := S (Z.to_nat (Z.log2 n)).

(** [std::to_string] of an unsigned number. *)
Definition to_dec (n : Z) : bytes := digits_of (digits_fuel n) 10 n [].

(** [std::to_string] of a signed number. *)
Definition to_dec_signed (n : Z) : bytes :=
  if n <? 0 then "-"%char :: to_dec (- n) else to_dec n.

(** [std::format("{:x}", n)] *)
Definition to_hex (n : Z) : bytes := digits_of (digits_fuel n) 16 n [].

(** ** Lemmas *)

Lemma find_char_None c s : find_char c s = None <-> c ∉ s.
Proof.
  induction s as [|x s IH]; cbn.
  - split; [intros _; apply not_elem_of_nil|done].
  - rewrite not_elem_of_cons. case_bool_decide as E.
    + subst. split; [done|]. by intros [? _].
    + rewrite fmap_None, IH. naive_solver.
Qed.

Lemma find_char_app c a b : c ∉ a -> find_char c (a ++ c :: b) = Some (length a).
Proof.
  induction a as [|x a IH]; cbn; intros H.
  - by rewrite bool_decide_true.
  - apply not_elem_of_cons in H as [Hx Ha].
    rewrite bool_decide_false by congruence. by rewrite IH.
Qed.

(** The first occurrence splits the string. *)
Lemma find_char_Some c s i :
  find_char c s = Some i ->
  s = take i s ++ c :: drop (S i) s /\ c ∉ take i s /\ (i < length s)%nat.
Proof.
  revert i. induction s as [|x s IH]; cbn; intros i H; [done|].
  case_bool_decide as E.
  - injection H as <-. subst. cbn. split_and!; [done|apply not_elem_of_nil|lia].
  - destruct (find_char c s) as [j|] eqn:F; cbn in H; [|done].
    injection H as <-. destruct (IH j eq_refl) as (H1 & H2 & H3).
    cbn. split_and!; [by f_equal| |lia].
    apply not_elem_of_cons. split; [congruence|done].
Qed.

Lemma starts_with_spec p s : starts_with p s = true <-> exists r, s = p ++ r.
Proof.
  revert s. induction p as [|x p IH]; intros s; cbn.
  - split; [intros _; by exists s|done].
  - destruct s as [|y s].
    + split; [done|]. by intros [r Hr].
    + rewrite andb_true_iff, bool_decide_eq_true, IH. split.
      * intros [-> [r ->]]. by exists r.
      * intros [r [= -> ->]]. split; [done|by exists r].
Qed.

Lemma starts_with_app p r : starts_with p (p ++ r) = true.
Proof. apply starts_with_spec. by exists r. Qed.

Lemma ends_with_spec p s : ends_with p s = true <-> exists r, s = r ++ p.
Proof.
  unfold ends_with. rewrite starts_with_spec. split; intros [r Hr].
  - exists (rev r). apply (f_equal (@rev ascii)) in Hr.
    by rewrite rev_involutive, rev_app_distr, rev_involutive in Hr.
  - exists (rev r). by rewrite Hr, rev_app_distr.
Qed.

Lemma iequals_lower a b : iequals a b = bool_decide (lower a = lower b).
Proof.
  unfold lower. revert b. induction a as [|x a IH]; destruct b as [|y b]; cbn; try done.
  rewrite IH. destruct (decide (tolower x = tolower y)) as [E|E].
  - rewrite bool_decide_true by done. cbn. apply bool_decide_ext. split; congruence.
  - rewrite bool_decide_false by done. cbn. symmetry. apply bool_decide_eq_false. congruence.
Qed.

Lemma tolower_idemp b : tolower (tolower b) = tolower b.
Proof.
  apply (bool_decide_eq_true (tolower (tolower b) = tolower b)). revert b.
  apply (byte_forall (fun b => bool_decide (tolower (tolower b) = tolower b))).
  vm_compute. reflexivity.
Qed.

Lemma lower_idemp s : lower (lower s) = lower s.
Proof. unfold lower. rewrite List.map_map. apply map_ext, tolower_idemp. Qed.

(** *** Tokens *)

Lemma tokens_fuel_enough sep f s :
  (length s < f)%nat -> tokens_fuel f sep s = tokens sep s.
Proof.
  unfold tokens.
  cut (forall f g s, (length s < f)%nat -> (length s < g)%nat ->
       tokens_fuel f sep s = tokens_fuel g sep s); [intros H L; apply H; lia|].
  clear f s. induction f as [|f IH]; intros g s Hf Hg; [lia|].
  destruct g as [|g]; [lia|]. cbn. destruct s as [|x s]; [done|].
  destruct (find_char sep (x :: s)) as [i|] eqn:E; [|done].
  f_equal. apply IH; rewrite length_drop; cbn in *; lia.
Qed.

Lemma tokens_nil sep : tokens sep [] = [].
Proof. reflexivity. Qed.

Lemma tokens_last sep s : s <> [] -> sep ∉ s -> tokens sep s = [s].
Proof.
  intros Hne Hs. unfold tokens. cbn. destruct s; [done|].
  by rewrite (proj2 (find_char_None _ _) Hs).
Qed.

Lemma tokens_cons sep a b : sep ∉ a -> tokens sep (a ++ sep :: b) = a :: tokens sep b.
Proof.
  intros Ha. unfold tokens at 1. cbn [tokens_fuel].
  rewrite find_char_app by done.
  destruct (a ++ sep :: b) as [|x l] eqn:E; [by destruct a|]. rewrite <- E.
  rewrite take_app_length.
  replace (drop (length a + 1) (a ++ sep :: b)) with b.
  - f_equal. apply tokens_fuel_enough. rewrite length_app. cbn. lia.
  - rewrite drop_app_ge by lia. by replace (length a + 1 - length a)%nat with 1%nat by lia.
Qed.

(** *** Trimming *)

Lemma find_first_not_drop p s :
  drop_while p s = match find_first_not p s with Some i => drop i s | None => [] end.
Proof.
  induction s as [|x s IH]; cbn; [done|].
  destruct (p x); [|done]. rewrite IH. by destruct (find_first_not p s).
Qed.

Lemma find_first_not_None p s : find_first_not p s = None <-> Forall (fun x => p x = true) s.
Proof.
  induction s as [|x s IH]; cbn; [split; [constructor|done]|].
  rewrite Forall_cons. destruct (p x); [|split; [done|by intros []]].
  rewrite fmap_None, IH. naive_solver.
Qed.

Lemma find_first_not_Some p s i :
  find_first_not p s = Some i ->
  (i < length s)%nat /\ Forall (fun x => p x = true) (take i s) /\
  exists x, s !! i = Some x /\ p x = false.
Proof.
  revert i. induction s as [|x s IH]; cbn; intros i H; [done|].
  destruct (p x) eqn:E.
  - destruct (find_first_not p s) as [j|]; cbn in H; [|done]. injection H as <-.
    destruct (IH j eq_refl) as (H1 & H2 & H3). cbn. split_and!; [lia| |done].
    by constructor.
  - injection H as <-. cbn. split_and!; [lia|constructor|eauto].
Qed.

Lemma take_drop_while p s : take_while p s ++ drop_while p s = s.
Proof. induction s as [|x s IH]; cbn; [done|]. destruct (p x); cbn; [by rewrite IH|done]. Qed.

Lemma drop_while_length p s : (length (drop_while p s) <= length s)%nat.
Proof. induction s as [|x s IH]; cbn; [done|]. destruct (p x); cbn; lia. Qed.

(** Leading white space does not change what a trim from the right removes,
    unless there is nothing else. *)
Lemma find_first_not_app_l p a b i :
  find_first_not p a = Some i -> find_first_not p (a ++ b) = Some i.
Proof.
  revert i. induction a as [|x a IH]; cbn; intros i H; [done|].
  destruct (p x); [|done].
  destruct (find_first_not p a) as [j|]; cbn in *; [|done].
  by rewrite (IH j).
Qed.

(** The two ways the source trims agree. *)
Lemma trim_find_loops p s : trim_find p s = trim_loops p s.
Proof.
  unfold trim_find, trim_loops, find_last_not.
  rewrite !find_first_not_drop.
  destruct (find_first_not p s) as [first|] eqn:F; [|done].
  destruct (find_first_not_Some _ _ _ F) as (Hlt & _ & x & Hx & Px).
  destruct (find_first_not p (rev (drop first s))) as [j|] eqn:G.
  - assert (rev s = rev (drop first s) ++ rev (take first s)) as E
      by (by rewrite <- rev_app_distr, take_drop).
    rewrite E, (find_first_not_app_l _ _ _ _ G). cbn.
    destruct (find_first_not_Some _ _ _ G) as (Hj & _ & _).
    rewrite length_rev, length_drop in Hj.
    rewrite skipn_rev, rev_involutive, length_drop. f_equal. lia.
  - apply find_first_not_None in G.
    rewrite List.Forall_forall in G. specialize (G x).
    rewrite <- in_rev in G. rewrite G in Px; [done|].
    apply list_elem_of_In, list_elem_of_lookup. exists 0%nat.
    by rewrite lookup_drop, Nat.add_0_r.
Qed.

Lemma drop_while_id p x s : p x = false -> drop_while p (x :: s) = x :: s.
Proof. intros H. cbn. by rewrite H. Qed.

(** A string with no trimmed character at either end is unchanged. *)
Lemma trim_loops_id p s :
  (forall x, head s = Some x -> p x = false) ->
  (forall x, last s = Some x -> p x = false) ->
  trim_loops p s = s.
Proof.
  intros H1 H2. unfold trim_loops.
  assert (drop_while p s = s) as ->.
  { destruct s as [|x s]; [done|]. apply drop_while_id. by apply H1. }
  destruct (rev s) as [|x r] eqn:E.
  - cbn. by rewrite <- (rev_involutive s), E.
  - rewrite drop_while_id; [by rewrite <- E, rev_involutive|].
    apply H2. rewrite <- (rev_involutive s), E. cbn. apply last_snoc.
Qed.

(** *** Numbers *)

Lemma digits_run_app base acc s rest :
  Forall (fun x => is_Some (digit_val base x)) s ->
  digits_run base acc (s ++ rest) =
  digits_run base (fst (digits_run base acc s)) rest.
Proof.
  revert acc. induction s as [|x s IH]; intros acc H; cbn; [done|].
  apply Forall_cons in H as [[d Hd] H]. rewrite Hd. by apply IH.
Qed.

Lemma digit_char_val base d :
  2 <= base <= 16 -> 0 <= d < base -> digit_val base (digit_char d) = Some d.
Proof.
  intros Hb Hd. unfold digit_char, digit_val, isdigit.
  destruct (d <? 10) eqn:E; to_prop; rewrite val_of_byte_small by lia.
  - replace ((48 <=? 48 + d) && (48 + d <=? 57)) with true by (symmetry; apply andb_true_iff; lia).
    replace (48 + d - 48) with d by lia. by rewrite (proj2 (Z.ltb_lt d base)) by lia.
  - replace ((48 <=? 87 + d) && (87 + d <=? 57)) with false by (symmetry; apply andb_false_iff; lia).
    replace ((97 <=? 87 + d) && (87 + d <=? 122)) with true by (symmetry; apply andb_true_iff; lia).
    replace (87 + d - 87) with d by lia. by rewrite (proj2 (Z.ltb_lt d base)) by lia.
Qed.

Lemma digits_of_spec base fuel n acc :
  2 <= base <= 16 -> 0 <= n < base ^ Z.of_nat fuel ->
  exists ds, digits_of fuel base n acc = ds ++ acc /\
    (fuel <> 0%nat -> ds <> []) /\
    Forall (fun x => is_Some (digit_val base x)) ds /\
    fst (digits_run base 0 ds) = n.
Proof.
  intros Hb. revert n acc. induction fuel as [|fuel IH]; intros n acc Hn.
  - cbn in Hn. exists []. cbn. split_and!; try done. lia.
  - cbn [digits_of]. pose proof (Z.mod_pos_bound n base ltac:(lia)) as Hm.
    assert (is_Some (digit_val base (digit_char (n mod base)))) as Hdc
      by (rewrite digit_char_val by lia; eauto).
    destruct (n <? base) eqn:E; to_prop.
    + exists [digit_char (n mod base)]. split_and!; try done; [by repeat constructor|].
      cbn. rewrite digit_char_val by lia. cbn. apply Z.mod_small. lia.
    + destruct (IH (n / base) (digit_char (n mod base) :: acc)) as (ds & E1 & E2 & E3 & E4).
      { rewrite Nat2Z.inj_succ, Z.pow_succ_r in Hn by lia. split; [apply Z.div_pos; lia|].
        apply Z.div_lt_upper_bound; lia. }
      exists (ds ++ [digit_char (n mod base)]). split_and!.
      * by rewrite E1, <- app_assoc.
      * intros _. by destruct ds.
      * apply Forall_app. split; [done|by repeat constructor].
      * rewrite digits_run_app, E4 by done. cbn. rewrite digit_char_val by lia. cbn.
        rewrite (Z.div_mod n base) at 3 by lia. lia.
Qed.

Lemma digits_fuel_enough base n : 2 <= base -> 0 <= n -> n < base ^ Z.of_nat (digits_fuel n).
Proof.
  intros Hb Hn. unfold digits_fuel.
  rewrite Nat2Z.inj_succ, Z2Nat.id by apply Z.log2_nonneg.
  destruct (Z.eq_dec n 0) as [->|Hz].
  - cbn. lia.
  - pose proof (Z.log2_spec n ltac:(lia)) as [_ H].
    eapply Z.lt_le_trans; [exact H|]. apply Z.pow_le_mono_l. pose proof (Z.log2_nonneg n). lia.
Qed.

Lemma to_dec_spec n : 0 <= n ->
  to_dec n <> [] /\ Forall (fun x => is_Some (digit_val 10 x)) (to_dec n) /\
  fst (digits_run 10 0 (to_dec n)) = n.
Proof.
  intros Hn. unfold to_dec.
  destruct (digits_of_spec 10 (digits_fuel n) n []) as (ds & E1 & E2 & E3 & E4); [lia| |].
  - split; [done|]. by apply digits_fuel_enough.
  - rewrite E1, app_nil_r. split_and!; [by apply E2|done|done].
Qed.

Lemma digits_run_all base acc s :
  Forall (fun x => is_Some (digit_val base x)) s -> snd (digits_run base acc s) = [].
Proof.
  revert acc. induction s as [|x s IH]; intros acc H; cbn; [done|].
  apply Forall_cons in H as [[d Hd] H]. rewrite Hd. by apply IH.
Qed.

Lemma digit_val_10 x : is_Some (digit_val 10 x) <-> isdigit x = true.
Proof.
  unfold digit_val. destruct (isdigit x) eqn:E.
  - split; [done|]. intros _. unfold isdigit in E. to_prop.
    rewrite (proj2 (Z.ltb_lt _ _)) by lia. eauto.
  - split; [|done]. intros [d Hd].
    destruct ((97 <=? byte_val x) && (byte_val x <=? 122)) eqn:E1; to_prop;
      [rewrite (proj2 (Z.ltb_ge _ _)) in Hd by lia; done|].
    destruct ((65 <=? byte_val x) && (byte_val x <=? 90)) eqn:E2; to_prop;
      [rewrite (proj2 (Z.ltb_ge _ _)) in Hd by lia; done|].
    done.
Qed.

(** Printing then parsing a number. *)
Lemma from_chars_to_dec n : 0 <= n <= u64_max -> from_chars_u64 (to_dec n) = inr (n, []).
Proof.
  intros Hn. destruct (to_dec_spec n ltac:(lia)) as (H1 & H2 & H3).
  pose proof (digits_run_all 10 0 _ H2) as H4.
  unfold from_chars_u64. destruct (to_dec n) as [|x r] eqn:E; [done|].
  rewrite (proj1 (digit_val_10 x)) by (by apply Forall_cons in H2 as [? _]).
  destruct (digits_run 10 0 (x :: r)) as [v rest] eqn:E2. cbn in H3, H4. subst.
  by rewrite (proj2 (Z.leb_le _ _)) by lia.
Qed.

Lemma from_chars_range s v rest : from_chars_u64 s = inr (v, rest) -> 0 <= v <= u64_max.
Proof.
  assert (forall t acc, 0 <= acc -> 0 <= fst (digits_run 10 acc t)) as Hpos.
  { induction t as [|x t IH]; cbn; intros acc Ha; [done|].
    destruct (digit_val 10 x) as [d|] eqn:E; [|done]. apply IH.
    assert (0 <= d); [|lia].
    assert (isdigit x = true) as D by (apply digit_val_10; eauto).
    unfold digit_val in E. rewrite D in E. case_hyp E; [|done]. injection E as <-.
    unfold isdigit in D. to_prop. lia. }
  unfold from_chars_u64. destruct s as [|x r]; [done|]. destruct (isdigit x); [|done].
  specialize (Hpos (x :: r) 0 ltac:(lia)).
  destruct (digits_run 10 0 (x :: r)) as [w t]. cbn in Hpos.
  destruct (w <=? u64_max) eqn:E; [|done]. intros [= <- <-]. to_prop. lia.
Qed.

(** The decimal digits of a number hold no other character. *)
Lemma to_dec_isdigit n : 0 <= n -> Forall (fun x => isdigit x = true) (to_dec n).
Proof.
  intros Hn. destruct (to_dec_spec n Hn) as (_ & H & _).
  eapply Forall_impl; [exact H|]. intros x. apply digit_val_10.
Qed.

(** ** Splitting at every separator

    The [while (start <= size)] loops: the pieces between the separators,
    the last one included even when it is empty. *)
Fixpoint split_on (sep : byte) (s : bytes) : list bytes :=
  match s with
  | [] => [[]]
  | c :: r =>
      if bool_decide (c = sep) then [] :: split_on sep r
      else match split_on sep r with
           | [] => [[c]]
           | p :: ps => (c :: p) :: ps
           end
  end.

Fixpoint join_with (sep : bytes) (ps : list bytes) : bytes :=
  match ps with
  | [] => []
  | [p] => p
  | p :: ps => p ++ sep ++ join_with sep ps
  end.

Lemma split_on_cons sep s : exists p ps, split_on sep s = p :: ps.
Proof.
  induction s as [|c s (p & ps & IH)]; cbn; [by eexists _, _|].
  rewrite IH. case_bool_decide; by eexists _, _.
Qed.

Lemma join_with_cons sep p ps : join_with sep (p :: ps) = p ++ match ps with [] => [] | _ => sep ++ join_with sep ps end.
Proof. destruct ps; cbn; by rewrite ?app_nil_r. Qed.

Lemma join_with_snoc sep ts t :
  join_with sep (ts ++ [t]) = (if bool_decide (ts = []) then [] else join_with sep ts ++ sep) ++ t.
Proof.
  induction ts as [|x ts IH]; [done|]. rewrite (bool_decide_false (x :: ts = [])) by done. destruct ts as [|y ts]; [by cbn; rewrite <- app_assoc|].
  rewrite bool_decide_false in IH by done. cbn [app join_with] in *. rewrite IH. by rewrite <- !app_assoc.
Qed.

Lemma join_split sep s : join_with [sep] (split_on sep s) = s.
Proof.
  induction s as [|c s IH]; cbn; [done|]. destruct (split_on_cons sep s) as (p & ps & E).
  rewrite E in *. case_bool_decide as C; [subst c|].
  - cbn in *. by rewrite IH.
  - rewrite <- IH. by destruct ps.
Qed.

Lemma split_on_no_sep sep s : Forall (fun p => sep ∉ p) (split_on sep s).
Proof.
  induction s as [|c s IH]; cbn; [repeat constructor; apply not_elem_of_nil|].
  destruct (split_on_cons sep s) as (p & ps & E). rewrite E in *.
  case_bool_decide as C; [constructor; [apply not_elem_of_nil|done]|].
  inversion IH; subst. constructor; [|done]. apply not_elem_of_cons. split; congruence || done.
Qed.

Lemma split_on_subset sep s (P : byte -> Prop) : Forall P s -> Forall (Forall P) (split_on sep s).
Proof.
  induction 1 as [|c s Hc H IH]; cbn; [by repeat constructor|].
  destruct (split_on_cons sep s) as (p & ps & E). rewrite E in *.
  case_bool_decide; [by constructor|]. inversion IH; subst. by repeat constructor.
Qed.

Lemma contains_char_false c s : contains_char c s = false <-> c ∉ s.
Proof. unfold contains_char. rewrite <- find_char_None. by destruct (find_char c s). Qed.

(** ** [std::stoull] reads what was printed *)

Lemma to_base_spec base n : 2 <= base <= 16 -> 0 <= n ->
  digits_of (digits_fuel n) base n [] <> [] /\
  Forall (fun x => is_Some (digit_val base x)) (digits_of (digits_fuel n) base n []) /\
  fst (digits_run base 0 (digits_of (digits_fuel n) base n [])) = n.
Proof.
  intros Hb Hn.
  destruct (digits_of_spec base (digits_fuel n) n []) as (ds & E1 & E2 & E3 & E4); [lia| |].
  - split; [done|]. apply digits_fuel_enough; lia.
  - rewrite E1, app_nil_r. split_and!; [by apply E2|done|done].
Qed.

(** A digit of a base up to 16 is no blank, no sign and no [x]. *)
Lemma hex_digit_plain x : is_Some (digit_val 16 x) ->
  isspace x = false /\ x <> "-"%char /\ x <> "+"%char /\ x <> "x"%char /\ x <> "X"%char.
Proof.
  intros H. assert (implb (bool_decide (is_Some (digit_val 16 x)))
    (negb (isspace x) && negb (bool_decide (x = "-"%char)) && negb (bool_decide (x = "+"%char)) &&
     negb (bool_decide (x = "x"%char)) && negb (bool_decide (x = "X"%char))) = true) as G.
  { revert x H. intros x _. revert x. apply byte_forall. by vm_compute. }
  rewrite (bool_decide_true (is_Some (digit_val 16 x))) in G by done. cbn in G. to_prop. by split_and!.
Qed.

Lemma digit_val_mono base x : base <= 16 -> is_Some (digit_val base x) -> is_Some (digit_val 16 x).
Proof.
  intros Hb [d Hd]. unfold digit_val in *. cbn zeta in *.
  repeat case_hyp Hd; simplify_eq; to_prop; try lia; rewrite (proj2 (Z.ltb_lt _ _)) by lia; eauto.
Qed.

Lemma strip_0x_digits base s : Forall (fun x => is_Some (digit_val 16 x)) s -> strip_0x base s = s.
Proof.
  intros H. unfold strip_0x. destruct (base =? 16); [|done].
  destruct s as [|c [|x [|d r]]]; try by repeat case_goal.
  apply Forall_cons in H as [_ H]. apply Forall_cons in H as [H _].
  apply hex_digit_plain in H as (_ & _ & _ & H1 & H2).
  rewrite (bool_decide_false (x = "x"%char)), (bool_decide_false (x = "X"%char)) by done.
  by repeat case_goal.
Qed.

Lemma strip_sign_digits x r : is_Some (digit_val 16 x) -> strip_sign (x :: r) = (false, x :: r).
Proof.
  intros H. apply hex_digit_plain in H as (_ & H1 & H2 & _). unfold strip_sign.
  repeat case_goal; try done; subst; done.
Qed.

Lemma stoull_digits base s v : 2 <= base <= 16 -> s <> [] ->
  Forall (fun x => is_Some (digit_val base x)) s -> fst (digits_run base 0 s) = v -> v <= u64_max ->
  stoull base s = inr (v, []).
Proof.
  intros Hb Hs Hd Hv Hm. pose proof (digits_run_all base 0 s Hd) as Hr.
  assert (Forall (fun x => is_Some (digit_val 16 x)) s) as Hd16.
  { eapply Forall_impl; [exact Hd|]. intros x. apply digit_val_mono. lia. }
  destruct s as [|x r]; [done|]. unfold stoull.
  assert (is_Some (digit_val 16 x)) as Hx by (by apply Forall_cons in Hd16 as [? _]).
  rewrite drop_while_id by (by apply hex_digit_plain). rewrite strip_sign_digits by done.
  rewrite strip_0x_digits by done.
  assert (is_Some (digit_val base x)) as [d ->] by (by apply Forall_cons in Hd as [? _]).
  destruct (digits_run base 0 (x :: r)) as [v' rest]. cbn in Hv, Hr. subst.
  by rewrite (proj2 (Z.leb_le _ _)) by lia.
Qed.

Lemma stoull_to_dec n : 0 <= n <= u64_max -> stoull 10 (to_dec n) = inr (n, []).
Proof. intros H. destruct (to_base_spec 10 n) as (? & ? & ?); [lia..|]. apply stoull_digits; try done; lia. Qed.

Lemma stoull_to_hex n : 0 <= n <= u64_max -> stoull 16 (to_hex n) = inr (n, []).
Proof. intros H. destruct (to_base_spec 16 n) as (? & ? & ?); [lia..|]. apply stoull_digits; try done; lia. Qed.

Lemma digits_run_nonneg base acc s : 0 <= acc -> 0 <= base -> 0 <= fst (digits_run base acc s).
Proof.
  revert acc. induction s as [|x s IH]; cbn; intros acc Ha Hb; [done|].
  destruct (digit_val base x) as [d|] eqn:E; [|done]. apply IH; [|done].
  assert (0 <= d); [|nia]. unfold digit_val, isdigit in E. cbn zeta in E.
  pose proof (byte_val_range x). repeat case_hyp E; simplify_eq; to_prop; lia.
Qed.

Lemma stoull_nonneg base s v rest : 0 <= base -> stoull base s = inr (v, rest) -> 0 <= v.
Proof.
  intros Hb. unfold stoull. destruct (strip_sign _) as [neg r]. destruct (strip_0x _ _) as [|d r']; [done|].
  destruct (digit_val _ _); [|done]. pose proof (digits_run_nonneg base 0 (d :: r') ltac:(lia) Hb) as H.
  destruct (digits_run base 0 (d :: r')) as [w t]. destruct (w <=? u64_max); [|done].
  intros E. apply (inj inr), pair_equal_spec in E as [<- _]. destruct neg; [apply wrap64_range|done].
Qed.

(** ** Finding a line end *)

Lemma find_sub_crlf (cr lf : byte) line rest : cr <> lf -> lf ∉ line ->
  find_sub [cr; lf] (line ++ [cr; lf] ++ rest) = Some (length line).
Proof.
  intros N. induction line as [|c line IH]; intros H; cbn.
  - rewrite (bool_decide_true (cr = cr)), (bool_decide_true (lf = lf)) by done. done.
  - apply not_elem_of_cons in H as [H1 H2]. specialize (IH H2). cbn [app] in IH. rewrite IH.
    destruct (bool_decide (cr = c)); [|done].
    destruct line as [|c' line]; cbn; [by rewrite bool_decide_false by congruence|].
    apply not_elem_of_cons in H2 as [H2 _]. by rewrite bool_decide_false by congruence.
Qed.

Lemma find_sub_bound p s i : find_sub p s = Some i -> (i + length p <= length s)%nat.
Proof.
  revert i. induction s as [|c s IH]; intros i; cbn.
  - destruct (starts_with p []) eqn:E; [|done]. intros [= <-]. apply starts_with_spec in E as [r E].
    apply (f_equal length) in E. rewrite length_app in E. cbn in E. lia.
  - destruct (starts_with p (c :: s)) eqn:E.
    + intros [= <-]. apply starts_with_spec in E as [r E].
      apply (f_equal length) in E. rewrite length_app in E. cbn in E. lia.
    + destruct (find_sub p s) as [j|]; [|done]. intros [= <-]. specialize (IH j eq_refl). lia.
Qed.
