(* ===== verification/HttpMessage.v ===== *)
(** * HTTP messages: header map, request, response, cookies

    [http3/header_map.cpp], [http3/request.cpp], [http3/request.h],
    [http3/response.h], [http3/cookie.h] and [router/path_params.h].  The
    header map is the flat vector of the source, with its order and its
    duplicates; the theorems relate it to a multimap keyed by the lower-cased
    name. *)

From S2P Require Import Prelude CxxString.

(** ** [HeaderMap] *)

Module HeaderMap.

Record Entry := mkEntry { name : bytes; value : bytes }.

Definition t : Type := list Entry.

Definition names_equal (a b : bytes) : bool :=
  if negb (len a =? len b) then false else iequals a b.

Definition add (n v : bytes) (h : list Entry) : list Entry := h ++ [mkEntry n v].

(** The first entry with the name takes the value; without one, [add]. *)
Fixpoint set_first (n v : bytes) (h : list Entry) : option (list Entry) :=
  match h with
  | [] => None
  | e :: r =>
      if names_equal (name e) n then Some (mkEntry (name e) v :: r)
      else cons e <$> set_first n v r
  end.

Definition set (n v : bytes) (h : list Entry) : list Entry :=
  match set_first n v h with
  | Some h' => h'
  | None => add n v h
  end.

Fixpoint get (n : bytes) (h : list Entry) : option bytes :=
  match h with
  | [] => None
  | e :: r => if names_equal (name e) n then Some (value e) else get n r
  end.

Fixpoint get_all (n : bytes) (h : list Entry) : list bytes :=
  match h with
  | [] => []
  | e :: r =>
      if names_equal (name e) n then value e :: get_all n r else get_all n r
  end.

Definition has (n : bytes) (h : list Entry) : bool :=
  match get n h with Some _ => true | None => false end.

Definition remove (n : bytes) (h : list Entry) : list Entry :=
  List.filter (fun e => negb (names_equal (name e) n)) h.

Definition entries (h : list Entry) : list Entry := h.
Definition size (h : list Entry) : Z := len h.
Definition empty (h : list Entry) : bool := len h =? 0.
Definition clear (h : list Entry) : list Entry := [].

End HeaderMap.

(** ** [PathParams]: an [unordered_map<string, string>] *)

Module PathParams.

Definition set (n v : bytes) (p : gmap bytes bytes) : gmap bytes bytes := <[n := v]> p.
Definition get (n : bytes) (p : gmap bytes bytes) : option bytes := p !! n.
Definition has (n : bytes) (p : gmap bytes bytes) : bool := bool_decide (is_Some (p !! n)).
Definition size (p : gmap bytes bytes) : nat := base.size p.
Definition clear (p : gmap bytes bytes) : gmap bytes bytes := ∅.
Definition remove (n : bytes) (p : gmap bytes bytes) : gmap bytes bytes := delete n p.

(** [get_as<T>] for an unsigned 64-bit [T]: the unread rest is ignored. *)
Definition get_as_u64 (n : bytes) (p : gmap bytes bytes) : option Z :=
  match get n p with
  | None => None
  | Some v => match from_chars_u64 v with inr (z, _) => Some z | inl _ => None end
  end.

End PathParams.

(** ** [Request] *)

Module Request.

Record t := mk {
  method_ : bytes;
  path_ : bytes;
  scheme_ : bytes;
  authority_ : bytes;
  peer_address_ : bytes;
  client_address_ : bytes;
  headers_ : list HeaderMap.Entry;
  body_ : bytes;
  path_params_ : gmap bytes bytes;
  headers_complete_ : bool;
  body_complete_ : bool
}.

Definition init : t := mk [] [] [] [] [] [] [] [] ∅ false false.

Definition set_method (m : bytes) (r : t) : t :=
  mk m (path_ r) (scheme_ r) (authority_ r) (peer_address_ r) (client_address_ r)
     (headers_ r) (body_ r) (path_params_ r) (headers_complete_ r) (body_complete_ r).

Definition set_path (p : bytes) (r : t) : t :=
  mk (method_ r) p (scheme_ r) (authority_ r) (peer_address_ r) (client_address_ r)
     (headers_ r) (body_ r) (path_params_ r) (headers_complete_ r) (body_complete_ r).

Definition set_scheme (s : bytes) (r : t) : t :=
  mk (method_ r) (path_ r) s (authority_ r) (peer_address_ r) (client_address_ r)
     (headers_ r) (body_ r) (path_params_ r) (headers_complete_ r) (body_complete_ r).

Definition set_authority (a : bytes) (r : t) : t :=
  mk (method_ r) (path_ r) (scheme_ r) a (peer_address_ r) (client_address_ r)
     (headers_ r) (body_ r) (path_params_ r) (headers_complete_ r) (body_complete_ r).

(** The client address starts as the socket peer. *)
Definition set_peer_address (a : bytes) (r : t) : t :=
  mk (method_ r) (path_ r) (scheme_ r) (authority_ r) a a
     (headers_ r) (body_ r) (path_params_ r) (headers_complete_ r) (body_complete_ r).

Definition set_client_address (a : bytes) (r : t) : t :=
  mk (method_ r) (path_ r) (scheme_ r) (authority_ r) (peer_address_ r) a
     (headers_ r) (body_ r) (path_params_ r) (headers_complete_ r) (body_complete_ r).

Definition set_headers (h : list HeaderMap.Entry) (r : t) : t :=
  mk (method_ r) (path_ r) (scheme_ r) (authority_ r) (peer_address_ r) (client_address_ r)
     h (body_ r) (path_params_ r) (headers_complete_ r) (body_complete_ r).

Definition append_body (d : bytes) (r : t) : t :=
  mk (method_ r) (path_ r) (scheme_ r) (authority_ r) (peer_address_ r) (client_address_ r)
     (headers_ r) (body_ r ++ d) (path_params_ r) (headers_complete_ r) (body_complete_ r).

Definition mark_headers_complete (r : t) : t :=
  mk (method_ r) (path_ r) (scheme_ r) (authority_ r) (peer_address_ r) (client_address_ r)
     (headers_ r) (body_ r) (path_params_ r) true (body_complete_ r).

Definition mark_body_complete (r : t) : t :=
  mk (method_ r) (path_ r) (scheme_ r) (authority_ r) (peer_address_ r) (client_address_ r)
     (headers_ r) (body_ r) (path_params_ r) (headers_complete_ r) true.

Definition header (n : bytes) (r : t) : option bytes := HeaderMap.get n (headers_ r).

Definition content_length (r : t) : Z := len (body_ r).

Definition query_string (r : t) : bytes :=
  match find_char "?"%char (path_ r) with
  | None => []
  | Some q => drop (q + 1) (path_ r)
  end.

(** One pair of the query string: the key, and the value when there is [=]. *)
Definition query_pair (pair : bytes) : bytes * option bytes :=
  match find_char "="%char pair with
  | None => (pair, None)
  | Some eq => (take eq pair, Some (drop (eq + 1) pair))
  end.

(** The scan of the pairs between [&]; a key without value gives "". *)
Fixpoint query_scan (n : bytes) (pairs : list bytes) : option bytes :=
  match pairs with
  | [] => None
  | p :: r =>
      let '(k, v) := query_pair p in
      if bool_decide (k = n) then Some (default [] v) else query_scan n r
  end.

Definition query_param (n : bytes) (r : t) : option bytes :=
  query_scan n (tokens "&"%char (query_string r)).

End Request.

(** ** [Response]

    The event-stream channel is held by its identity; [None] is the null
    [shared_ptr]. *)

Module Response.

Record t := mk {
  status_code_ : Z;
  headers_ : list HeaderMap.Entry;
  body_ : bytes;
  sse_channel_ : option Z;
  submitted_ : bool;
  bytes_sent_ : Z;
  bytes_provided_ : Z
}.

Definition init : t := mk 200 [] [] None false 0 0.

Definition status (c : Z) (r : t) : t :=
  mk c (headers_ r) (body_ r) (sse_channel_ r) (submitted_ r) (bytes_sent_ r) (bytes_provided_ r).

Definition with_headers (h : list HeaderMap.Entry) (r : t) : t :=
  mk (status_code_ r) h (body_ r) (sse_channel_ r) (submitted_ r) (bytes_sent_ r) (bytes_provided_ r).

Definition header (n v : bytes) (r : t) : t :=
  with_headers (HeaderMap.add n v (headers_ r)) r.

Definition body (b : bytes) (r : t) : t :=
  mk (status_code_ r) (headers_ r) b (sse_channel_ r) (submitted_ r) (bytes_sent_ r) (bytes_provided_ r).

Definition json (j : bytes) (r : t) : t :=
  body j (with_headers (HeaderMap.set (bs "content-type") (bs "application/json") (headers_ r)) r).

Definition text (x : bytes) (r : t) : t :=
  body x (with_headers
    (HeaderMap.set (bs "content-type") (bs "text/plain; charset=utf-8") (headers_ r)) r).

(** A file-name character is kept or replaced by [_]. *)
Definition download_char (c : byte) : byte :=
  if (32 <=? byte_val c) && negb (byte_val c =? 34) && negb (byte_val c =? 92) &&
     negb (byte_val c =? 47) && negb (byte_val c =? 58)
  then c else "_"%char.

Definition download (filename content_type : bytes) (r : t) : t :=
  let safe := map download_char filename in
  let safe := if len safe =? 0 then bs "download" else safe in
  let h := HeaderMap.set (bs "content-type") content_type (headers_ r) in
  with_headers
    (HeaderMap.set (bs "content-disposition")
       (bs "attachment; filename=" ++ [byte_of_Z 34] ++ safe ++ [byte_of_Z 34]) h) r.

Definition event_stream (c : option Z) (r : t) : t :=
  mk (status_code_ r) (headers_ r) (body_ r) c (submitted_ r) (bytes_sent_ r) (bytes_provided_ r).

Definition body_size (r : t) : Z := len (body_ r).

Definition mark_submitted (r : t) : t :=
  mk (status_code_ r) (headers_ r) (body_ r) (sse_channel_ r) true (bytes_sent_ r) (bytes_provided_ r).

Definition add_bytes_sent (n : Z) (r : t) : t :=
  mk (status_code_ r) (headers_ r) (body_ r) (sse_channel_ r) (submitted_ r)
     (wrap64 (bytes_sent_ r + n)) (bytes_provided_ r).

Definition add_bytes_provided (n : Z) (r : t) : t :=
  mk (status_code_ r) (headers_ r) (body_ r) (sse_channel_ r) (submitted_ r)
     (bytes_sent_ r) (wrap64 (bytes_provided_ r + n)).

Definition is_body_complete (r : t) : bool := len (body_ r) <=? bytes_sent_ r.

End Response.

(** ** Cookies *)

Module Cookie.

Inductive SameSite := Strict | Lax | SameSiteNone.

#[export] Instance same_site_eq_dec : EqDecision SameSite.
Proof. solve_decision. Defined.

Record t := mk {
  name : bytes;
  value : bytes;
  path : bytes;
  domain : option bytes;
  max_age : option Z;
  secure : bool;
  http_only : bool;
  same_site : SameSite
}.

(** [cookie_token_character] *)
Definition token_character (c : byte) : bool :=
  let v := byte_val c in
  ((65 <=? v) && (v <=? 90)) || ((97 <=? v) && (v <=? 122)) ||
  ((48 <=? v) && (v <=? 57)) ||
  (v =? 33) || (v =? 35) || (v =? 36) || (v =? 37) || (v =? 38) || (v =? 39) ||
  (v =? 42) || (v =? 43) || (v =? 45) || (v =? 46) || (v =? 94) || (v =? 95) ||
  (v =? 96) || (v =? 124) || (v =? 126).

Definition delimiter (c : byte) : bool :=
  let v := byte_val c in
  (v <=? 31) || (v =? 127) || (v =? 59) || (v =? 44) || (v =? 13) || (v =? 10).

Definition contains_cookie_delimiter (s : bytes) : bool := existsb delimiter s.

Definition trim_cookie_whitespace (s : bytes) : bytes := trim_loops blank s.

Definition same_site_text (s : SameSite) : bytes :=
  match s with
  | Strict => bs "; SameSite=Strict"
  | Lax => bs "; SameSite=Lax"
  | SameSiteNone => bs "; SameSite=None"
  end.

Inductive Error := EmptyName | BadName | BadValue | BadPath | BadDomain | InsecureNone.

(** The text [serialize_cookie] builds once every check has passed. *)
Definition cookie_text (c : t) : bytes :=
  name c ++ bs "=" ++ value c ++ bs "; Path=" ++ path c ++
  match domain c with Some d => bs "; Domain=" ++ d | None => [] end ++
  match max_age c with Some a => bs "; Max-Age=" ++ to_dec_signed a | None => [] end ++
  (if secure c then bs "; Secure" else []) ++
  (if http_only c then bs "; HttpOnly" else []) ++
  same_site_text (same_site c).

(** [serialize_cookie]: each [throw] is an error of the sum. *)
Definition serialize_cookie (c : t) : result Error bytes :=
  if len (name c) =? 0 then inl EmptyName
  else if negb (forallb token_character (name c)) then inl BadName
  else if contains_cookie_delimiter (value c) then inl BadValue
  else if (len (path c) =? 0) || negb (bool_decide (head (path c) = Some "/"%char)) ||
          contains_cookie_delimiter (path c) then inl BadPath
  else if match domain c with
          | Some d => (len d =? 0) || contains_cookie_delimiter d
          | None => false
          end then inl BadDomain
  else if bool_decide (same_site c = SameSiteNone) && negb (secure c) then inl InsecureNone
  else
    inr (cookie_text c).

Definition set_cookie (c : t) (r : Response.t) : result Error Response.t :=
  match serialize_cookie c with
  | inl e => inl e
  | inr s => inr (Response.header (bs "set-cookie") s r)
  end.

(** One [;]-separated part of a Cookie header: the value when the name is the
    one looked for. *)
Definition cookie_part (n part : bytes) : option bytes :=
  let part := trim_cookie_whitespace part in
  match find_char "="%char part with
  | None => None
  | Some eq =>
      if bool_decide (trim_cookie_whitespace (take eq part) = n)
      then Some (drop (eq + 1) part) else None
  end.

Fixpoint first_some {A B} (f : A -> option B) (l : list A) : option B :=
  match l with
  | [] => None
  | x :: r => match f x with Some y => Some y | None => first_some f r end
  end.

Definition request_cookie (r : Request.t) (n : bytes) : option bytes :=
  first_some (fun h => first_some (cookie_part n) (tokens ";"%char h))
             (HeaderMap.get_all (bs "cookie") (Request.headers_ r)).

End Cookie.

(** ** The header map is a multimap keyed by the lower-cased name *)

Module HeaderMapSpec.
Import HeaderMap.

(** The abstract value: the list of values under a lower-cased name. *)
Definition abs (h : list Entry) (k : bytes) : list bytes :=
  map value (List.filter (fun e => bool_decide (lower (name e) = k)) h).

#[local] Arguments abs : simpl never.

Lemma names_equal_lower a b : names_equal a b = bool_decide (lower a = lower b).
Proof.
  unfold names_equal. rewrite iequals_lower. destruct (len a =? len b) eqn:E; [done|].
  cbn. symmetry. apply bool_decide_eq_false. to_prop. intros H.
  apply E. apply (f_equal len) in H. unfold lower in H. by rewrite !len_map in H.
Qed.

Lemma abs_cons e h k :
  abs (e :: h) k = if bool_decide (lower (name e) = k) then value e :: abs h k else abs h k.
Proof. unfold abs. cbn. by case_bool_decide. Qed.

Lemma abs_app h1 h2 k : abs (h1 ++ h2) k = abs h1 k ++ abs h2 k.
Proof. unfold abs. by rewrite List.filter_app, map_app. Qed.

Lemma get_all_abs n h : get_all n h = abs h (lower n).
Proof.
  induction h as [|e h IH]; [done|]. cbn. rewrite names_equal_lower, abs_cons, IH. done.
Qed.

Lemma get_abs n h : get n h = head (abs h (lower n)).
Proof.
  induction h as [|e h IH]; [done|]. cbn. rewrite names_equal_lower, abs_cons, IH.
  by case_bool_decide.
Qed.

Lemma abs_add n v h k :
  abs (add n v h) k = if bool_decide (lower n = k) then abs h k ++ [v] else abs h k.
Proof.
  unfold add. rewrite abs_app, abs_cons. cbn [name value]. case_bool_decide; [done|].
  apply app_nil_r.
Qed.

Lemma set_first_spec n v h :
  match set_first n v h with
  | Some h' => forall k, abs h' k = if bool_decide (lower n = k) then v :: tail (abs h k) else abs h k
  | None => abs h (lower n) = []
  end.
Proof.
  induction h as [|e h IH]; [done|]. cbn. rewrite names_equal_lower.
  case_bool_decide as E.
  - intros k. rewrite !abs_cons. cbn. rewrite E. by case_bool_decide.
  - destruct (set_first n v h) as [h'|]; cbn.
    + intros k. rewrite !abs_cons, IH. do 2 case_bool_decide; congruence.
    + rewrite abs_cons, bool_decide_false by done. done.
Qed.

Lemma abs_set n v h k :
  abs (set n v h) k = if bool_decide (lower n = k) then v :: tail (abs h k) else abs h k.
Proof.
  unfold set. pose proof (set_first_spec n v h) as H. destruct (set_first n v h); [done|].
  rewrite abs_add. case_bool_decide as E; [|done]. subst. by rewrite H.
Qed.

Lemma abs_remove n h k :
  abs (remove n h) k = if bool_decide (lower n = k) then [] else abs h k.
Proof.
  induction h as [|e h IH]; [by case_bool_decide|].
  unfold remove in *. cbn. rewrite names_equal_lower, abs_cons.
  destruct (decide (lower (name e) = lower n)) as [E|E].
  - rewrite bool_decide_true by done. cbn. rewrite IH, E. by case_bool_decide.
  - rewrite bool_decide_false by done. cbn. rewrite abs_cons, IH.
    do 2 case_bool_decide; congruence.
Qed.

Lemma has_abs n h : has n h = negb (bool_decide (abs h (lower n) = [])).
Proof. unfold has. rewrite get_abs. by destruct (abs h (lower n)). Qed.

(** The header map implements the multimap of values under the
    case-folded name: [get_all] reads it, [get] reads its first value, [add]
    appends one value, [set] replaces the first value and keeps the others,
    [remove] drops every value, and no operation touches another name. *)
Theorem header_map_refines h n v k :
  get_all n h = abs h (lower n) /\
  get n h = head (abs h (lower n)) /\
  abs (add n v h) k = (if bool_decide (lower n = k) then abs h k ++ [v] else abs h k) /\
  abs (set n v h) k = (if bool_decide (lower n = k) then v :: tail (abs h k) else abs h k) /\
  abs (remove n h) k = (if bool_decide (lower n = k) then [] else abs h k) /\
  has n h = negb (bool_decide (abs h (lower n) = [])).
Proof.
  auto 7 using get_all_abs, get_abs, abs_add, abs_set, abs_remove, has_abs.
Qed.

Lemma get_set_same n v h : get n (set n v h) = Some v.
Proof. rewrite get_abs, abs_set, bool_decide_true by done. done. Qed.

Lemma get_set_other n m v h : lower n <> lower m -> get m (set n v h) = get m h.
Proof. intros H. by rewrite !get_abs, abs_set, bool_decide_false by done. Qed.

Lemma has_add_same n v h : has n (add n v h) = true.
Proof.
  rewrite has_abs, abs_add, (bool_decide_true (lower n = lower n)) by done.
  by destruct (abs h (lower n)).
Qed.

End HeaderMapSpec.

(** ** Cookies are safe in a header and read back *)

Module CookieSpec.
Import Cookie.

Definition ctl (c : byte) : bool := (byte_val c <=? 31) || (byte_val c =? 127).

Definition no_ctl (s : bytes) : Prop := Forall (fun c => ctl c = false) s.

Lemma no_ctl_app a b : no_ctl (a ++ b) <-> no_ctl a /\ no_ctl b.
Proof. apply Forall_app. Qed.

Lemma no_ctl_bs s : forallb (fun c => negb (ctl c)) (bs s) = true -> no_ctl (bs s).
Proof.
  intros H. apply forallb_Forall in H. eapply Forall_impl; [exact H|].
  intros c Hc. by apply negb_true_iff.
Qed.

Lemma delimiter_no_ctl s : contains_cookie_delimiter s = false -> no_ctl s.
Proof.
  unfold contains_cookie_delimiter, no_ctl. intros H. apply List.Forall_forall. intros c Hc.
  destruct (ctl c) eqn:E; [|done].
  rewrite (proj2 (existsb_exists delimiter s)) in H; [done|].
  exists c. split; [done|]. unfold ctl in E. unfold delimiter.
  apply orb_true_iff in E as [E|E]; rewrite E; cbn; by rewrite ?orb_true_r.
Qed.

Lemma token_not_special c :
  negb (token_character c) ||
  (negb (ctl c) && negb (blank c) && negb (bool_decide (c = "="%char)) &&
   negb (bool_decide (c = ";"%char))) = true.
Proof. revert c. apply byte_forall. vm_compute. reflexivity. Qed.

Lemma token_no_ctl s : forallb token_character s = true -> no_ctl s.
Proof.
  intros H. apply forallb_Forall in H. eapply Forall_impl; [exact H|].
  intros c Hc. pose proof (token_not_special c) as T. cbn in Hc. rewrite Hc in T. cbn in T. by to_prop.
Qed.

Lemma digits_no_ctl n : 0 <= n -> no_ctl (to_dec n).
Proof.
  intros H. eapply Forall_impl; [by apply to_dec_isdigit|].
  intros c Hc. unfold isdigit in Hc. unfold ctl. to_prop. apply orb_false_iff. lia.
Qed.

Lemma signed_no_ctl n : no_ctl (to_dec_signed n).
Proof.
  unfold to_dec_signed. destruct (n <? 0) eqn:E; to_prop.
  - constructor; [done|]. apply digits_no_ctl. lia.
  - by apply digits_no_ctl.
Qed.

Ltac no_ctl_literal := apply no_ctl_bs; vm_compute; reflexivity.

(** What [serialize_cookie] has checked when it returns a value. *)
Lemma serialize_checked c s : serialize_cookie c = inr s ->
  name c <> [] /\ forallb token_character (name c) = true /\
  contains_cookie_delimiter (value c) = false /\
  contains_cookie_delimiter (path c) = false /\
  (forall d, domain c = Some d -> contains_cookie_delimiter d = false) /\
  (same_site c = SameSiteNone -> secure c = true).
Proof.
  unfold serialize_cookie. intros H.
  destruct (len (name c) =? 0) eqn:E1; [done|].
  destruct (forallb token_character (name c)) eqn:E2; [|done]. cbn in H.
  destruct (contains_cookie_delimiter (value c)) eqn:E3; [done|].
  destruct ((len (path c) =? 0) || _ || _) eqn:E4; [done|].
  destruct (match domain c with Some _ => _ | None => _ end) eqn:E5; [done|].
  destruct (bool_decide _ && _) eqn:E6; [done|].
  to_prop. split_and!; try done.
  - intros Hn. by rewrite Hn in E1.
  - intros d Hd. rewrite Hd in E5. by to_prop.
  - intros Hs. rewrite bool_decide_true in E6 by done. cbn in E6. by apply negb_false_iff.
Qed.

(** A serialized cookie cannot split or inject a header field:
    whenever [serialize_cookie] returns a text, no byte of it is a control
    character (CR and LF included), the name and the value hold no [;], and a
    [SameSite=None] cookie is [Secure]. *)
Theorem serialize_cookie_safe c s (H : serialize_cookie c = inr s) :
  no_ctl s /\ ";"%char ∉ name c /\ ";"%char ∉ value c /\
  (same_site c = SameSiteNone -> secure c = true).
Proof.
  destruct (serialize_checked _ _ H) as (H1 & H2 & H3 & H4 & H5 & H6).
  split_and!; [| | |done].
  - unfold serialize_cookie in H. repeat (case_hyp H; [done|]).
    injection H as <-. unfold cookie_text. repeat rewrite no_ctl_app. split_and!.
    + by apply token_no_ctl.
    + no_ctl_literal.
    + by apply delimiter_no_ctl.
    + no_ctl_literal.
    + by apply delimiter_no_ctl.
    + destruct (domain c) as [d|] eqn:Ed; [|constructor]. apply no_ctl_app.
      split; [no_ctl_literal|]. apply delimiter_no_ctl, H5. reflexivity.
    + destruct (max_age c); [|constructor]. apply no_ctl_app.
      split; [no_ctl_literal|apply signed_no_ctl].
    + destruct (secure c); [no_ctl_literal|constructor].
    + destruct (http_only c); [no_ctl_literal|constructor].
    + destruct (same_site c); no_ctl_literal.
  - intros Hin. apply list_elem_of_In in Hin. rewrite forallb_forall in H2.
    specialize (H2 _ Hin). by vm_compute in H2.
  - intros Hin. apply list_elem_of_In in Hin. unfold contains_cookie_delimiter in H3.
    rewrite (proj2 (existsb_exists delimiter (value c))) in H3; [done|].
    eexists. split; [exact Hin|]. by vm_compute.
Qed.

Lemma serialize_cookie_safe_witness : exists c s,
  serialize_cookie c = inr s /\ no_ctl s /\ ";"%char ∉ name c /\ ";"%char ∉ value c /\
  (same_site c = SameSiteNone -> secure c = true).
Proof.
  eexists (mk (bs "sid") (bs "abc") (bs "/") None (Some 60) true true Lax), _.
  split; [vm_compute; reflexivity|].
  apply (serialize_cookie_safe (mk (bs "sid") (bs "abc") (bs "/") None (Some 60) true true Lax)).
  vm_compute. reflexivity.
Defined.

(** A cookie pair a browser sends back: a token name, and a value without [;]
    and without a trailing blank. *)
Definition pair_ok (p : bytes * bytes) : Prop :=
  forallb token_character (fst p) = true /\ ";"%char ∉ snd p /\
  (forall x, last (snd p) = Some x -> blank x = false).

Definition pair_text (p : bytes * bytes) : bytes := fst p ++ "="%char :: snd p.

(** The Cookie header a browser builds: the pairs joined by ["; "]. *)
Fixpoint cookie_header (l : list (bytes * bytes)) : bytes :=
  match l with
  | [] => []
  | [p] => pair_text p
  | p :: r => pair_text p ++ bs "; " ++ cookie_header r
  end.

(** The reference lookup: the first pair with the name. *)
Fixpoint assoc (n : bytes) (l : list (bytes * bytes)) : option bytes :=
  match l with
  | [] => None
  | (k, v) :: r => if bool_decide (k = n) then Some v else assoc n r
  end.

Lemma token_excludes n x : forallb token_character n = true -> x ∈ n ->
  blank x = false /\ x <> "="%char /\ x <> ";"%char.
Proof.
  intros H Hx. apply list_elem_of_In in Hx. rewrite forallb_forall in H. specialize (H _ Hx).
  pose proof (token_not_special x) as T. rewrite H in T. cbn in T. by to_prop.
Qed.

Lemma token_trim n : forallb token_character n = true -> trim_loops blank n = n.
Proof.
  intros H. apply trim_loops_id; intros x Hx;
    eapply (token_excludes n); try done.
  - destruct n; [done|]. injection Hx as ->. constructor.
  - by apply last_Some_elem_of.
Qed.

Lemma pair_text_trim p pre : pair_ok p -> Forall (fun x => blank x = true) pre ->
  trim_loops blank (pre ++ pair_text p) = pair_text p.
Proof.
  intros (H1 & H2 & H3) Hpre. induction Hpre as [|x pre Hx _ IH].
  - apply trim_loops_id; intros x Hx; unfold pair_text in Hx.
    + destruct (fst p) as [|y n] eqn:E; cbn in Hx; injection Hx as <-; [done|].
      apply (token_excludes (y :: n)); [done|constructor].
    + rewrite last_app in Hx. cbn [app] in Hx. rewrite last_cons in Hx.
      destruct (last (snd p)) as [y|] eqn:E; cbn in Hx; injection Hx as <-; [by apply H3|done].
  - unfold trim_loops in *. cbn. rewrite Hx. exact IH.
Qed.

Lemma cookie_part_text n p pre : pair_ok p -> Forall (fun x => blank x = true) pre ->
  cookie_part n (pre ++ pair_text p) = if bool_decide (fst p = n) then Some (snd p) else None.
Proof.
  intros Hp Hpre. unfold cookie_part, trim_cookie_whitespace.
  rewrite pair_text_trim by done. destruct Hp as (H1 & H2 & H3). unfold pair_text.
  rewrite find_char_app.
  - rewrite take_app_length, token_trim by done.
    rewrite drop_app_ge by lia. by replace (length (fst p) + 1 - length (fst p))%nat with 1%nat by lia.
  - intros Hin. by destruct (token_excludes (fst p) "="%char H1 Hin) as (_ & ? & _).
Qed.

Lemma pair_text_no_sep p : pair_ok p -> ";"%char ∉ pair_text p.
Proof.
  intros (H1 & H2 & H3). unfold pair_text. rewrite elem_of_app, elem_of_cons.
  intros [H|[H|H]]; [|done|done]. by destruct (token_excludes _ _ H1 H) as (_ & _ & ?).
Qed.

Lemma scan_header n l pre : Forall pair_ok l -> Forall (fun x => blank x = true) pre -> l <> [] ->
  first_some (cookie_part n) (tokens ";"%char (pre ++ cookie_header l)) = assoc n l.
Proof.
  intros Hl. revert pre. induction Hl as [|p l Hp Hl IH]; intros pre Hpre Hne; [done|].
  assert (";"%char ∉ pre ++ pair_text p) as Hns.
  { rewrite elem_of_app. intros [H|H]; [|by apply (pair_text_no_sep p)].
    rewrite Forall_forall in Hpre. by specialize (Hpre _ H). }
  destruct p as [k v]. cbn [assoc]. destruct l as [|q l].
  - cbn [cookie_header]. rewrite tokens_last; [|by destruct pre, k|done].
    cbn [first_some]. rewrite cookie_part_text by done. cbn. by case_bool_decide.
  - change (cookie_header ((k, v) :: q :: l))
      with (pair_text (k, v) ++ ";"%char :: (bs " " ++ cookie_header (q :: l))).
    rewrite (app_assoc pre), tokens_cons by done. cbn [first_some].
    rewrite cookie_part_text by done. cbn [fst snd].
    case_bool_decide; [done|]. apply IH; [by repeat constructor|done].
Qed.

(** Cookies read back: for a request whose Cookie field is
    the browser's list of [name=value] pairs, [request_cookie] returns the
    value of the first pair with that name, and nothing when there is none. *)
Theorem request_cookie_roundtrip l n r
  (Hl : Forall pair_ok l) (Hne : l <> [])
  (Hr : HeaderMap.get_all (bs "cookie") (Request.headers_ r) = [cookie_header l]) :
  request_cookie r n = assoc n l.
Proof.
  unfold request_cookie. rewrite Hr. cbn [first_some].
  pose proof (scan_header n l [] Hl ltac:(constructor) Hne) as H. cbn [app] in H. rewrite H.
  by destruct (assoc n l).
Qed.

Lemma request_cookie_roundtrip_witness :
  let l := [(bs "a", bs "1"); (bs "sid", bs "xyz=")] in
  let r := Request.set_headers [HeaderMap.mkEntry (bs "Cookie") (bs "a=1; sid=xyz=")] Request.init in
  request_cookie r (bs "sid") = Some (bs "xyz=").
Proof.
  intros l r. apply (request_cookie_roundtrip l (bs "sid") r).
  - repeat constructor; cbn; try set_solver; intros x [= <-]; reflexivity.
  - done.
  - vm_compute. reflexivity.
Defined.

End CookieSpec.
