(* ===== verification/Router.v ===== *)
(** * The router: [router/router.cpp], [router/router.h]

    A radix tree of path segments with one parameter child and one wildcard
    child per node.  [Node] is the tree of the source, [insert] and [search]
    its recursions on the unread part of the path (bounded by the length of
    that part), and [Router] the object with its counters and its mutable
    [lookup_method_].  A handler is an [option F]: an empty [std::function] is
    [None].  The specification is a map from route keys (the segment kinds of
    a pattern) to handlers, and a priority order on keys. *)

From S2P Require Import Prelude CxxString HttpMessage.

Inductive Method := GET | POST | PUT | DELETE_ | PATCH | HEAD | OPTIONS | ANY.

#[export] Instance method_eq_dec : EqDecision Method.
Proof. solve_decision. Defined.

Definition method_from_string (m : bytes) : Method :=
  if bool_decide (m = bs "GET") then GET
  else if bool_decide (m = bs "POST") then POST
  else if bool_decide (m = bs "PUT") then PUT
  else if bool_decide (m = bs "DELETE") then DELETE_
  else if bool_decide (m = bs "PATCH") then PATCH
  else if bool_decide (m = bs "HEAD") then HEAD
  else if bool_decide (m = bs "OPTIONS") then OPTIONS
  else ANY.

Definition method_to_string (m : Method) : bytes :=
  match m with
  | GET => bs "GET" | POST => bs "POST" | PUT => bs "PUT" | DELETE_ => bs "DELETE"
  | PATCH => bs "PATCH" | HEAD => bs "HEAD" | OPTIONS => bs "OPTIONS" | ANY => bs "*"
  end.

Section Router.
Context {F W : Type}.

(** The [Node] of the tree.  [handlers] is the array indexed by the method. *)
Inductive Node := mkNode {
  segment : bytes;
  handlers : Method -> option F;
  websocket_handler : option W;
  children : list Node;
  param_child : option Node;
  param_name : bytes;
  wildcard_child : option Node;
  wildcard_name : bytes
}.

Definition new_node (seg : bytes) : Node :=
  mkNode seg (fun _ => None) None [] None [] None [].

Definition has_handler (n : Node) (m : Method) : bool :=
  bool_decide (is_Some (handlers n m)) || bool_decide (is_Some (handlers n ANY)).

Definition get_handler (n : Node) (m : Method) : option F :=
  match handlers n m with
  | Some h => Some h
  | None => handlers n ANY
  end.

(** Field updates. *)
Definition set_handler (m : Method) (h : option F) (n : Node) : Node :=
  mkNode (segment n) (fun m' => if decide (m' = m) then h else handlers n m')
    (websocket_handler n) (children n) (param_child n) (param_name n)
    (wildcard_child n) (wildcard_name n).

Definition set_websocket (w : W) (n : Node) : Node :=
  mkNode (segment n) (handlers n) (Some w) (children n) (param_child n) (param_name n)
    (wildcard_child n) (wildcard_name n).

Definition set_children (cs : list Node) (n : Node) : Node :=
  mkNode (segment n) (handlers n) (websocket_handler n) cs (param_child n) (param_name n)
    (wildcard_child n) (wildcard_name n).

Definition set_param (c : Node) (name : bytes) (n : Node) : Node :=
  mkNode (segment n) (handlers n) (websocket_handler n) (children n) (Some c) name
    (wildcard_child n) (wildcard_name n).

Definition set_wildcard (c : Node) (name : bytes) (n : Node) : Node :=
  mkNode (segment n) (handlers n) (websocket_handler n) (children n) (param_child n)
    (param_name n) (Some c) name.

(** The parameter child to descend into, created with its name if missing. *)
Definition ensure_param (seg : bytes) (n : Node) : Node * bytes :=
  match param_child n with
  | Some c => (c, param_name n)
  | None => (new_node [], drop 1 seg)
  end.

Definition ensure_wildcard (seg : bytes) (n : Node) : Node * bytes :=
  match wildcard_child n with
  | Some c => (c, wildcard_name n)
  | None => (new_node [], drop 1 seg)
  end.

(** The next segment, up to the next [/], and the rest after it. *)
Definition next_segment (remaining : bytes) : bytes * bytes :=
  match find_char "/"%char remaining with
  | None => (remaining, [])
  | Some i => (take i remaining, drop (i + 1) remaining)
  end.

(** The first child with the segment is updated; without one, a new child is
    appended. *)
Fixpoint update_child (seg : bytes) (f : Node -> Node) (cs : list Node) : list Node :=
  match cs with
  | [] => [f (new_node seg)]
  | c :: r =>
      if bool_decide (segment c = seg) then f c :: r
      else c :: update_child seg f r
  end.

Fixpoint insert (fuel : nat) (node : Node) (remaining : bytes) (m : Method) (h : option F) : Node :=
  match fuel with
  | O => node
  | S fuel' =>
      match remaining with
      | [] => set_handler m h node
      | _ =>
          let '(seg, rest) := next_segment remaining in
          if bool_decide (head seg = Some "*"%char) then
            let '(c, name) := ensure_wildcard seg node in
            set_wildcard (set_handler m h c) name node
          else if bool_decide (head seg = Some ":"%char) then
            let '(c, name) := ensure_param seg node in
            set_param (insert fuel' c rest m h) name node
          else
            set_children
              (update_child seg (fun c => insert fuel' c rest m h) (children node)) node
      end
  end.

Fixpoint insert_websocket (fuel : nat) (node : Node) (remaining : bytes) (w : W) : Node :=
  match fuel with
  | O => node
  | S fuel' =>
      match remaining with
      | [] => set_websocket w node
      | _ =>
          let '(seg, rest) := next_segment remaining in
          if bool_decide (head seg = Some "*"%char) then
            let '(c, name) := ensure_wildcard seg node in
            set_wildcard (set_websocket w c) name node
          else if bool_decide (head seg = Some ":"%char) then
            let '(c, name) := ensure_param seg node in
            set_param (insert_websocket fuel' c rest w) name node
          else
            set_children
              (update_child seg (fun c => insert_websocket fuel' c rest w) (children node)) node
      end
  end.

(** A search result: the handler, if any, and the parameters as they are left
    (they are passed by reference and keep what failed branches wrote). *)
Definition found (X : Type) : Type := option X * gmap bytes bytes.

(** The loop over the children: every child with the segment is tried. *)
Fixpoint try_children {X} (go : Node -> gmap bytes bytes -> found X) (seg : bytes)
    (cs : list Node) (ps : gmap bytes bytes) : found X :=
  match cs with
  | [] => (None, ps)
  | c :: r =>
      if bool_decide (segment c = seg) then
        match go c ps with
        | (Some h, ps') => (Some h, ps')
        | (None, ps') => try_children go seg r ps'
        end
      else try_children go seg r ps
  end.

Fixpoint search (fuel : nat) (lookup_method : Method) (node : Node) (remaining : bytes)
    (ps : gmap bytes bytes) : found F :=
  match fuel with
  | O => (None, ps)
  | S fuel' =>
      match remaining with
      | [] => (get_handler node lookup_method, ps)
      | _ =>
          let '(seg, rest) := next_segment remaining in
          match try_children (fun c ps => search fuel' lookup_method c rest ps) seg
                  (children node) ps with
          | (Some h, ps) => (Some h, ps)
          | (None, ps) =>
              let wildcard ps :=
                match wildcard_child node with
                | Some c =>
                    (get_handler c lookup_method,
                     PathParams.set (wildcard_name node) remaining ps)
                | None => (None, ps)
                end in
              match param_child node with
              | Some c =>
                  match search fuel' lookup_method c rest
                          (PathParams.set (param_name node) seg ps) with
                  | (Some h, ps) => (Some h, ps)
                  | (None, ps) => wildcard ps
                  end
              | None => wildcard ps
              end
          end
      end
  end.

Fixpoint search_websocket (fuel : nat) (node : Node) (remaining : bytes)
    (ps : gmap bytes bytes) : found W :=
  match fuel with
  | O => (None, ps)
  | S fuel' =>
      match remaining with
      | [] => (websocket_handler node, ps)
      | _ =>
          let '(seg, rest) := next_segment remaining in
          match try_children (fun c ps => search_websocket fuel' c rest ps) seg
                  (children node) ps with
          | (Some h, ps) => (Some h, ps)
          | (None, ps) =>
              let wildcard ps :=
                match wildcard_child node with
                | Some c =>
                    match websocket_handler c with
                    | Some w => (Some w, PathParams.set (wildcard_name node) remaining ps)
                    | None => (None, ps)
                    end
                | None => (None, ps)
                end in
              match param_child node with
              | Some c =>
                  match search_websocket fuel' c rest
                          (PathParams.set (param_name node) seg ps) with
                  | (Some h, ps) => (Some h, ps)
                  | (None, ps) => wildcard (PathParams.remove (param_name node) ps)
                  end
              | None => wildcard ps
              end
          end
      end
  end.

(** ** The [Router] object *)

Record RouteInfo := mkRouteInfo { ri_method : Method; ri_pattern : bytes }.

Record Router := mkRouter {
  root_ : Node;
  route_count_ : Z;
  route_infos_ : list RouteInfo;
  websocket_route_infos_ : list bytes;
  lookup_method_ : Method
}.

Definition new_router : Router := mkRouter (new_node []) 0 [] [] GET.

(** [std::invalid_argument] *)
Inductive RouteError := PatternMustStartWithSlash.

Definition path_fuel (s : bytes) : nat := S (length s).

Definition add_route (m : Method) (pattern : bytes) (h : option F) (r : Router) :
    result RouteError Router :=
  match pattern with
  | "/"%char :: remaining =>
      inr (mkRouter (insert (path_fuel remaining) (root_ r) remaining m h)
             (wrap64 (route_count_ r + 1))
             (route_infos_ r ++ [mkRouteInfo m pattern])
             (websocket_route_infos_ r) (lookup_method_ r))
  | _ => inl PatternMustStartWithSlash
  end.

Definition add_websocket (pattern : bytes) (w : W) (r : Router) : result RouteError Router :=
  match pattern with
  | "/"%char :: remaining =>
      inr (mkRouter (insert_websocket (path_fuel remaining) (root_ r) remaining w)
             (route_count_ r) (route_infos_ r)
             (websocket_route_infos_ r ++ [pattern]) (lookup_method_ r))
  | _ => inl PatternMustStartWithSlash
  end.

(** The path without its query. *)
Definition strip_query (path : bytes) : bytes :=
  match find_char "?"%char path with
  | Some q => take q path
  | None => path
  end.

(** [match] writes [lookup_method_] before it searches; the router is returned
    with that write. *)
Definition match_route (m : Method) (path : bytes) (r : Router) : found F * Router :=
  match strip_query path with
  | "/"%char :: remaining =>
      let r' := mkRouter (root_ r) (route_count_ r) (route_infos_ r)
                  (websocket_route_infos_ r) m in
      match search (path_fuel remaining) (lookup_method_ r') (root_ r') remaining ∅ with
      | (Some h, ps) => ((Some h, ps), r')
      | (None, _) => ((None, ∅), r')
      end
  | _ => ((None, ∅), r)
  end.

Definition match_string (m path : bytes) (r : Router) : found F * Router :=
  match_route (method_from_string m) path r.

Definition match_websocket (path : bytes) (r : Router) : found W :=
  match strip_query path with
  | "/"%char :: remaining =>
      match search_websocket (path_fuel remaining) (root_ r) remaining ∅ with
      | (Some h, ps) => (Some h, ps)
      | (None, _) => (None, ∅)
      end
  | _ => (None, ∅)
  end.

(** [RouteBuilder]: one method per verb. *)
Definition builder_get (path : bytes) (h : option F) (r : Router) := add_route GET path h r.
Definition builder_post (path : bytes) (h : option F) (r : Router) := add_route POST path h r.
Definition builder_put (path : bytes) (h : option F) (r : Router) := add_route PUT path h r.
Definition builder_del (path : bytes) (h : option F) (r : Router) := add_route DELETE_ path h r.
Definition builder_patch (path : bytes) (h : option F) (r : Router) := add_route PATCH path h r.
Definition builder_head (path : bytes) (h : option F) (r : Router) := add_route HEAD path h r.
Definition builder_options (path : bytes) (h : option F) (r : Router) := add_route OPTIONS path h r.
Definition builder_any (path : bytes) (h : option F) (r : Router) := add_route ANY path h r.

(** [RouterGroup::join_path] *)
Definition join_path (base rel : bytes) : bytes :=
  if bool_decide (rel = []) then base
  else if bool_decide (base = []) then rel
  else
    let base_slash := bool_decide (last base = Some "/"%char) in
    let rel_slash := bool_decide (head rel = Some "/"%char) in
    if base_slash && rel_slash then take (length base - 1) base ++ rel
    else if negb base_slash && negb rel_slash then base ++ ["/"%char] ++ rel
    else base ++ rel.

(** A [RouterGroup] adds routes under its prefix. *)
Definition group_add (prefix : bytes) (m : Method) (path : bytes) (h : option F) (r : Router) :=
  add_route m (join_path prefix path) h r.

Definition group_group (prefix subprefix : bytes) : bytes := join_path prefix subprefix.

End Router.

#[global] Arguments next_segment : simpl never.
Arguments Node : clear implicits.
Arguments Router : clear implicits.

(** [handle_exception]: the handlers in order until one takes the exception.
    A handler maps the exception and the response to its answer and the
    response as it leaves it. *)
Fixpoint handle_exception {Ex R} (hs : list (Ex -> R -> bool * R)) (ex : Ex) (res : R) : bool * R :=
  match hs with
  | [] => (false, res)
  | h :: r => match h ex res with
              | (true, res') => (true, res')
              | (false, res') => handle_exception r ex res'
              end
  end.
