(* ===== verification/RouterSpec.v ===== *)
(** * What the router promises

    A route pattern is a key: the list of its segment kinds, cut at a
    wildcard.  The tree of [Router.v] implements a map from keys to handlers
    ([obs_at], [upd_at_spec]) and [search] returns the handler of the best key
    that matches the path ([find_at_spec]): a static segment before a
    parameter before a wildcard, from the left.  Both recursions of the source
    (HTTP and WebSocket) are instances of one generic update and one generic
    search. *)

From S2P Require Import Prelude CxxString HttpMessage Router.

(** ** Keys *)

Inductive Seg := SStatic (s : bytes) | SParam | SWild.

#[export] Instance seg_eq_dec : EqDecision Seg.
Proof. solve_decision. Defined.

Definition seg_kind (s : bytes) : Seg :=
  if bool_decide (head s = Some "*"%char) then SWild
  else if bool_decide (head s = Some ":"%char) then SParam
  else SStatic s.

(** What follows a wildcard segment is not part of the route. *)
Fixpoint key_of (segs : list bytes) : list Seg :=
  match segs with
  | [] => []
  | s :: r => match seg_kind s with
              | SWild => [SWild]
              | k => k :: key_of r
              end
  end.

(** The segments of a path or a pattern after its leading [/]. *)
Definition segments (remaining : bytes) : list bytes := tokens "/"%char remaining.
#[global] Arguments segments : simpl never.

Fixpoint key_matches (k : list Seg) (path : list bytes) : bool :=
  match k, path with
  | [], [] => true
  | SStatic s :: k', x :: p' => bool_decide (s = x) && key_matches k' p'
  | SParam :: k', _ :: p' => key_matches k' p'
  | [SWild], _ :: _ => true
  | _, _ => false
  end.

Definition seg_rank (s : Seg) : Z :=
  match s with SStatic _ => 0 | SParam => 1 | SWild => 2 end.

(** [k] is preferred to [k']: the first segment where they differ decides. *)
Fixpoint key_le (k k' : list Seg) : bool :=
  match k, k' with
  | a :: r, b :: r' =>
      (seg_rank a <? seg_rank b) || ((seg_rank a =? seg_rank b) && key_le r r')
  | _, _ => true
  end.

(** ** The tree as a map from keys *)

Section Tree.
Context {F W : Type}.
Implicit Types n c : Node F W.

Fixpoint child_at (seg : bytes) (cs : list (Node F W)) : option (Node F W) :=
  match cs with
  | [] => None
  | c :: r => if bool_decide (segment c = seg) then Some c else child_at seg r
  end.

Fixpoint node_at (k : list Seg) (n : Node F W) : option (Node F W) :=
  match k with
  | [] => Some n
  | SStatic s :: k' => child_at s (children n) ≫= node_at k'
  | SParam :: k' => param_child n ≫= node_at k'
  | SWild :: k' => wildcard_child n ≫= node_at k'
  end.

(** The update both insertions perform. *)
Fixpoint upd_at (f : Node F W -> Node F W) (segs : list bytes) (n : Node F W) : Node F W :=
  match segs with
  | [] => f n
  | s :: r =>
      match seg_kind s with
      | SWild => let '(c, name) := ensure_wildcard s n in set_wildcard (f c) name n
      | SParam => let '(c, name) := ensure_param s n in set_param (upd_at f r c) name n
      | SStatic _ => set_children (update_child s (upd_at f r) (children n)) n
      end
  end.

(** The search both look-ups perform, on what a node offers. *)
Fixpoint find_at {X} (obs : Node F W -> option X) (segs : list bytes) (n : Node F W) : option X :=
  match segs with
  | [] => obs n
  | s :: r =>
      match child_at s (children n) ≫= find_at obs r with
      | Some h => Some h
      | None =>
          match param_child n ≫= find_at obs r with
          | Some h => Some h
          | None => wildcard_child n ≫= obs
          end
      end
  end.

(** No two children of a node share a segment. *)
Definition wf (n : Node F W) : Prop :=
  forall k c, node_at k n = Some c -> NoDup (map segment (children c)).

Lemma next_segment_spec rem seg rest :
  rem <> [] -> next_segment rem = (seg, rest) ->
  segments rem = seg :: segments rest /\ (length rest < length rem)%nat.
Proof.
  unfold next_segment, segments. intros Hne H.
  destruct (find_char "/"%char rem) as [i|] eqn:E.
  - injection H as <- <-. destruct (find_char_Some _ _ _ E) as (H1 & H2 & H3).
    split; [|rewrite length_drop; lia].
    rewrite H1 at 1. rewrite tokens_cons by done. by rewrite Nat.add_1_r.
  - injection H as <- <-. split; [|destruct rem; cbn; [done|lia]].
    apply tokens_last; [done|by apply find_char_None].
Qed.

Lemma seg_kind_cases s :
  (head s = Some "*"%char /\ seg_kind s = SWild) \/
  (head s <> Some "*"%char /\ head s = Some ":"%char /\ seg_kind s = SParam) \/
  (head s <> Some "*"%char /\ head s <> Some ":"%char /\ seg_kind s = SStatic s).
Proof. unfold seg_kind. repeat case_bool_decide; tauto. Qed.

Lemma update_child_ext seg (f g : Node F W -> Node F W) cs :
  (forall c, f c = g c) -> update_child seg f cs = update_child seg g cs.
Proof.
  intros H. induction cs as [|c cs IH]; cbn; [by rewrite H|]. rewrite H, IH. done.
Qed.

(** *** The insertions are the generic update *)

Lemma insert_upd fuel n rem m h : (length rem < fuel)%nat ->
  insert fuel n rem m h = upd_at (set_handler m h) (segments rem) n.
Proof.
  revert n rem. induction fuel as [|fuel IH]; intros n rem Hf; [lia|].
  cbn [insert]. destruct rem as [|x rem]; [done|].
  destruct (next_segment (x :: rem)) as [seg rest] eqn:E.
  destruct (next_segment_spec (x :: rem) seg rest) as [-> Hl]; [done..|].
  cbn [upd_at]. unfold seg_kind.
  case_bool_decide; [done|]. case_bool_decide.
  - destruct (ensure_param seg n) as [c nm]. rewrite IH by (cbn in *; lia). done.
  - f_equal. apply update_child_ext. intros c. apply IH. cbn in *; lia.
Qed.

Lemma insert_websocket_upd fuel n rem w : (length rem < fuel)%nat ->
  insert_websocket fuel n rem w = upd_at (set_websocket w) (segments rem) n.
Proof.
  revert n rem. induction fuel as [|fuel IH]; intros n rem Hf; [lia|].
  cbn [insert_websocket]. destruct rem as [|x rem]; [done|].
  destruct (next_segment (x :: rem)) as [seg rest] eqn:E.
  destruct (next_segment_spec (x :: rem) seg rest) as [-> Hl]; [done..|].
  cbn [upd_at]. unfold seg_kind.
  case_bool_decide; [done|]. case_bool_decide.
  - destruct (ensure_param seg n) as [c nm]. rewrite IH by (cbn in *; lia). done.
  - f_equal. apply update_child_ext. intros c. apply IH. cbn in *; lia.
Qed.

(** *** Well-formed trees *)

Lemma wf_split n : wf n <->
  NoDup (map segment (children n)) /\
  (forall s c, child_at s (children n) = Some c -> wf c) /\
  (forall c, param_child n = Some c -> wf c) /\
  (forall c, wildcard_child n = Some c -> wf c).
Proof.
  split.
  - intros H. split_and!.
    + by apply (H []).
    + intros s c Hc k d Hd. apply (H (SStatic s :: k)). cbn. by rewrite Hc.
    + intros c Hc k d Hd. apply (H (SParam :: k)). cbn. by rewrite Hc.
    + intros c Hc k d Hd. apply (H (SWild :: k)). cbn. by rewrite Hc.
  - intros (H1 & H2 & H3 & H4) k c. destruct k as [|[s| |] k]; cbn.
    + by intros [= <-].
    + destruct (child_at s (children n)) as [d|] eqn:E; cbn; [|done]. by apply (H2 s).
    + destruct (param_child n) as [d|] eqn:E; cbn; [|done]. by apply H3.
    + destruct (wildcard_child n) as [d|] eqn:E; cbn; [|done]. by apply H4.
Qed.

Lemma wf_new s : wf (new_node s).
Proof.
  apply wf_split. split_and!; cbn; [constructor|done..].
Qed.

Lemma child_at_update s s' (f : Node F W -> Node F W) cs :
  (forall c, segment (f c) = segment c) ->
  child_at s' (update_child s f cs) =
  if bool_decide (s' = s) then Some (f (default (new_node s) (child_at s cs)))
  else child_at s' cs.
Proof.
  intros Hf. induction cs as [|c cs IH]; cbn.
  - rewrite Hf. cbn. by repeat case_bool_decide.
  - destruct (decide (segment c = s)) as [E|E].
    + rewrite (bool_decide_true (segment c = s)) by done. cbn. rewrite Hf, E.
      repeat case_bool_decide; done.
    + rewrite (bool_decide_false (segment c = s)) by done. cbn. rewrite IH.
      repeat case_bool_decide; congruence.
Qed.

Lemma update_child_segments s (f : Node F W -> Node F W) cs :
  (forall c, segment (f c) = segment c) ->
  map segment (update_child s f cs) =
  if bool_decide (s ∈ map segment cs) then map segment cs else map segment cs ++ [s].
Proof.
  intros Hf. induction cs as [|c cs IH]; cbn.
  - rewrite Hf. by rewrite bool_decide_false by apply not_elem_of_nil.
  - destruct (decide (segment c = s)) as [E|E].
    + rewrite (bool_decide_true (segment c = s)) by done. cbn.
      rewrite Hf, bool_decide_true; [done|]. subst. constructor.
    + rewrite (bool_decide_false (segment c = s)) by done. cbn. rewrite IH. do 2 case_bool_decide; try done; exfalso.
      * by match goal with H : _ ∉ _ :: _ |- _ => apply H; constructor end.
      * match goal with H : _ ∈ _ :: _ |- _ => apply elem_of_cons in H as [H|H] end; congruence.
Qed.

(** [f] rewrites a node's own data and keeps the shape of the tree. *)
Record shape_preserving (f : Node F W -> Node F W) : Prop := {
  sp_segment n : segment (f n) = segment n;
  sp_children n : children (f n) = children n;
  sp_param n : param_child (f n) = param_child n;
  sp_wildcard n : wildcard_child (f n) = wildcard_child n
}.

Lemma set_handler_shape m h : shape_preserving (set_handler m h).
Proof. by split. Qed.

Lemma set_websocket_shape w : shape_preserving (set_websocket w).
Proof. by split. Qed.

Lemma node_at_shape f n k : shape_preserving f -> k <> [] -> node_at k (f n) = node_at k n.
Proof.
  intros Hf Hk. destruct k as [|[s| |] k]; [done|..]; cbn.
  - by rewrite (sp_children _ Hf).
  - by rewrite (sp_param _ Hf).
  - by rewrite (sp_wildcard _ Hf).
Qed.

Lemma upd_at_segment f segs n : shape_preserving f -> segment (upd_at f segs n) = segment n.
Proof.
  intros Hf. destruct segs as [|s r]; cbn; [apply Hf|].
  destruct (seg_kind s); [done|by destruct (ensure_param s n)|by destruct (ensure_wildcard s n)].
Qed.

Lemma wf_shape f n : shape_preserving f -> wf n -> wf (f n).
Proof.
  intros Hf. rewrite !wf_split, (sp_children _ Hf), (sp_param _ Hf), (sp_wildcard _ Hf). done.
Qed.

Lemma ensure_param_wf s n c nm : wf n -> ensure_param s n = (c, nm) -> wf c.
Proof.
  unfold ensure_param. intros Hn. destruct (param_child n) as [d|] eqn:E; intros [= <- <-].
  - apply wf_split in Hn as (_ & _ & H & _). auto.
  - apply wf_new.
Qed.

Lemma ensure_wildcard_wf s n c nm : wf n -> ensure_wildcard s n = (c, nm) -> wf c.
Proof.
  unfold ensure_wildcard. intros Hn. destruct (wildcard_child n) as [d|] eqn:E; intros [= <- <-].
  - apply wf_split in Hn as (_ & _ & _ & H). auto.
  - apply wf_new.
Qed.

Lemma upd_at_wf f segs n : shape_preserving f -> wf n -> wf (upd_at f segs n).
Proof.
  intros Hf. revert n. induction segs as [|s r IH]; intros n Hn; cbn; [by apply wf_shape|].
  pose proof (proj1 (wf_split n) Hn) as (H1 & H2 & H3 & H4).
  destruct (seg_kind s).
  - apply wf_split. cbn. split_and!; [| |done|done].
    + rewrite update_child_segments by (intros; by apply upd_at_segment).
      case_bool_decide as E; [done|]. apply NoDup_app. split_and!; [done| |apply NoDup_singleton].
      intros x Hx. rewrite list_elem_of_singleton. congruence.
    + intros s' c. rewrite child_at_update by (intros; by apply upd_at_segment).
      case_bool_decide; [|apply H2]. intros [= <-]. apply IH.
      destruct (child_at s (children n)) eqn:E; [by apply (H2 s)|apply wf_new].
  - destruct (ensure_param s n) as [c nm] eqn:E. apply wf_split. cbn. split_and!; [done|done| |done].
    intros d [= <-]. by eapply IH, ensure_param_wf.
  - destruct (ensure_wildcard s n) as [c nm] eqn:E. apply wf_split. cbn. split_and!; [done|done|done|].
    intros d [= <-]. by eapply wf_shape, ensure_wildcard_wf.
Qed.

(** *** What an update changes *)

Section Observation.
Context {X : Type} (obs : Node F W -> option X).

Definition obs_at (k : list Seg) (n : Node F W) : option X := node_at k n ≫= obs.

(** [obs] reads a node's own data. *)
Record own_data : Prop := {
  od_new s : obs (new_node s) = None;
  od_children cs n : obs (set_children cs n) = obs n;
  od_param c nm n : obs (set_param c nm n) = obs n;
  od_wildcard c nm n : obs (set_wildcard c nm n) = obs n
}.

Hypothesis Hobs : own_data.

Lemma obs_at_new k s : obs_at k (new_node s) = None.
Proof. destruct k as [|[x| |] k]; cbn; [apply Hobs|done..]. Qed.

(** An update [f] that acts on the observation as [g] changes the observation
    of its own key and of no other. *)
Lemma upd_at_spec f g segs n k :
  shape_preserving f -> (forall c, obs (f c) = g (obs c)) ->
  obs_at k (upd_at f segs n) =
  if bool_decide (k = key_of segs) then g (obs_at k n) else obs_at k n.
Proof.
  intros Hf Hg. revert n k. induction segs as [|s r IH]; intros n k; cbn [upd_at key_of].
  - unfold obs_at. case_bool_decide as E; [subst; cbn; apply Hg|].
    by rewrite node_at_shape by done.
  - destruct (seg_kind_cases s) as [[_ ->]|[(_ & _ & ->)|(_ & _ & ->)]].
    + destruct (ensure_wildcard s n) as [c nm] eqn:Ec.
      destruct k as [|[x| |] k]; try by (unfold obs_at; cbn; rewrite ?(od_wildcard Hobs)).
      assert (obs_at k c = obs_at (SWild :: k) n) as Hc.
      { unfold ensure_wildcard in Ec. unfold obs_at. cbn.
        destruct (wildcard_child n); injection Ec as <- <-; [done|]. apply obs_at_new. }
      rewrite <- Hc. change (obs_at k (f c) = if bool_decide (SWild :: k = [SWild]) then g (obs_at k c) else obs_at k c).
      unfold obs_at. case_bool_decide as E.
      * injection E as ->. cbn. apply Hg.
      * rewrite node_at_shape; [done|done|]. intros ->. done.
    + destruct (ensure_param s n) as [c nm] eqn:Ec.
      destruct k as [|[x| |] k]; try by (unfold obs_at; cbn; rewrite ?(od_param Hobs)).
      assert (obs_at k c = obs_at (SParam :: k) n) as Hc.
      { unfold ensure_param in Ec. unfold obs_at. cbn.
        destruct (param_child n); injection Ec as <- <-; [done|]. apply obs_at_new. }
      rewrite <- Hc. change (obs_at k (upd_at f r c) = if bool_decide (SParam :: k = SParam :: key_of r) then g (obs_at k c) else obs_at k c).
      rewrite IH. repeat case_bool_decide; congruence.
    + destruct k as [|[x| |] k]; try by (unfold obs_at; cbn; rewrite ?(od_children Hobs)).
      unfold obs_at. cbn. rewrite child_at_update by (intros; by apply upd_at_segment).
      destruct (decide (x = s)) as [->|Hx].
      * rewrite bool_decide_true by done. cbn.
        change (node_at k (upd_at f r ?c) ≫= obs) with (obs_at k (upd_at f r c)).
        rewrite IH. destruct (child_at s (children n)) as [d|]; cbn;
          [unfold obs_at|rewrite obs_at_new]; repeat case_bool_decide; congruence.
      * rewrite !bool_decide_false by congruence. done.
Qed.

(** The search finds the best matching key. *)
Lemma find_at_spec segs n :
  match find_at obs segs n with
  | Some h => exists k, key_matches k segs = true /\ obs_at k n = Some h /\
      forall k', key_matches k' segs = true -> is_Some (obs_at k' n) -> key_le k k' = true
  | None => forall k, key_matches k segs = true -> obs_at k n = None
  end.
Proof.
  revert n. induction segs as [|s r IH]; intros n; cbn [find_at].
  - destruct (obs n) eqn:E.
    + exists []. cbn. split_and!; [done|done|]. by intros [|[] ?].
    + intros [|[x| |] k]; cbn; try done. by destruct k.
  - assert (forall (o : option (Node F W)) k, (o ≫= node_at k) ≫= obs = o ≫= obs_at k) as Hb
      by (by intros [c|] k).
    destruct (child_at s (children n) ≫= find_at obs r) as [h|] eqn:E1.
    { destruct (child_at s (children n)) as [c|] eqn:Ec; cbn in E1; [|done].
      specialize (IH c). rewrite E1 in IH. destruct IH as (k & K1 & K2 & K3).
      exists (SStatic s :: k). cbn. rewrite bool_decide_true by done.
      split_and!; [done|unfold obs_at; cbn; by rewrite Ec|].
      intros k' M S. destruct k' as [|[x| |] k']; cbn in *; try done.
      to_prop. subst. apply K3; [done|]. unfold obs_at in S. cbn in S. by rewrite Ec in S. }
    assert (forall k, key_matches k r = true -> obs_at (SStatic s :: k) n = None) as N1.
    { intros k M. unfold obs_at. cbn. destruct (child_at s (children n)) as [c|]; cbn in *; [|done].
      specialize (IH c). rewrite E1 in IH. by apply IH. }
    destruct (param_child n ≫= find_at obs r) as [h|] eqn:E2.
    { destruct (param_child n) as [c|] eqn:Ec; cbn in E2; [|done].
      specialize (IH c). rewrite E2 in IH. destruct IH as (k & K1 & K2 & K3).
      exists (SParam :: k). cbn.
      split_and!; [done|unfold obs_at; cbn; by rewrite Ec|].
      intros k' M S. destruct k' as [|[x| |] k']; cbn in *; try done.
      - to_prop. subst. rewrite N1 in S by done. by destruct S.
      - apply K3; [done|]. unfold obs_at in S. cbn in S. by rewrite Ec in S. }
    assert (forall k, key_matches k r = true -> obs_at (SParam :: k) n = None) as N2.
    { intros k M. unfold obs_at. cbn. destruct (param_child n) as [c|]; cbn in *; [|done].
      specialize (IH c). rewrite E2 in IH. by apply IH. }
    destruct (wildcard_child n ≫= obs) as [h|] eqn:E3.
    + exists [SWild]. cbn. split_and!; [done| |].
      * unfold obs_at. cbn. by destruct (wildcard_child n).
      * intros k' M S. destruct k' as [|[x| |] k']; cbn in *; try done.
        -- to_prop. subst. rewrite N1 in S by done. by destruct S.
        -- rewrite N2 in S by done. by destruct S.
    + intros k M. destruct k as [|[x| |] k]; cbn in *; try done.
      * to_prop. subst. by apply N1.
      * by apply N2.
      * destruct k; [|done]. unfold obs_at. cbn. by destruct (wildcard_child n).
Qed.

End Observation.
End Tree.
