(* ===== verification/RouterProps.v ===== *)
(** * Theorems about the router

    Routing as a whole: a table of routes built with [add_route], the match
    against the reference semantics, the parameters a match returns, and the
    lookup method shared between threads. *)

From S2P Require Import Prelude CxxString HttpMessage Router RouterSpec.

(** ** The searches return what [find_at] finds *)

Section Searches.
Context {F W : Type}.
Implicit Types n c : Node F W.

Lemma try_children_first {X} (go : Node F W -> gmap bytes bytes -> found X) seg cs ps :
  NoDup (map segment cs) ->
  try_children go seg cs ps =
  match child_at seg cs with Some c => go c ps | None => (None, ps) end.
Proof.
  intros Hd. induction cs as [|c cs IH]; cbn; [done|].
  cbn in Hd. apply NoDup_cons in Hd as [Hin Hd].
  case_bool_decide as E; [|by apply IH].
  destruct (go c ps) as [[h|] ps']; [done|]. subst.
  clear IH. induction cs as [|d cs IH]; cbn; [done|].
  cbn in Hin. rewrite not_elem_of_cons in Hin. apply NoDup_cons in Hd as [_ Hd].
  rewrite bool_decide_false by naive_solver. apply IH; naive_solver.
Qed.

Lemma search_find fuel m n rem ps : (length rem < fuel)%nat -> wf n ->
  fst (search fuel m n rem ps) = find_at (fun c => get_handler c m) (segments rem) n.
Proof.
  revert n rem ps. induction fuel as [|fuel IH]; intros n rem ps Hf Hn; [lia|].
  cbn [search]. destruct rem as [|x rem]; [done|].
  destruct (next_segment (x :: rem)) as [seg rest] eqn:E.
  destruct (next_segment_spec (x :: rem) seg rest) as [-> Hl]; [done..|].
  pose proof (proj1 (wf_split n) Hn) as (H1 & H2 & H3 & H4).
  cbn [find_at]. rewrite try_children_first by done.
  assert (forall c ps, wf c -> fst (search fuel m c rest ps) =
            find_at (fun c => get_handler c m) (segments rest) c) as IH'
    by (intros; apply IH; [cbn in *; lia|done]).
  clear IH.
  pose (wild := fun q : gmap bytes bytes => match wildcard_child n with
    | Some c => (get_handler c m, PathParams.set (wildcard_name n) (x :: rem) q)
    | None => (None, q) end).
  assert (forall ps, fst (wild ps) = wildcard_child n ≫= (fun c => get_handler c m)) as Hw
    by (intros q; unfold wild; by destruct (wildcard_child n)).
  assert (forall ps, fst (match param_child n with
            | Some c => match search fuel m c rest (PathParams.set (param_name n) seg ps) with
                        | (Some h, ps) => (Some h, ps) | (None, ps) => wild ps end
            | None => wild ps end) =
          match param_child n ≫= find_at (fun c => get_handler c m) (segments rest) with
          | Some h => Some h | None => wildcard_child n ≫= (fun c => get_handler c m) end) as Hp.
  { intros q. destruct (param_child n) as [c|]; [|apply Hw]. cbn.
    rewrite <- (IH' c (PathParams.set (param_name n) seg q)) by auto.
    destruct (search fuel m c rest _) as [[h|] q']; cbn; [done|apply Hw]. }
  destruct (child_at seg (children n)) as [c|] eqn:Ec; [|apply Hp]. cbn.
  rewrite <- (IH' c ps) by eauto.
  destruct (search fuel m c rest ps) as [[h|] ps']; cbn; [done|apply Hp].
Qed.

(** *** WebSocket search, with the parameters *)

(** The parameters a key binds on the path: the names are those of the tree. *)
Fixpoint walk (k : list Seg) (n : Node F W) (rem : bytes) (ps : gmap bytes bytes) : gmap bytes bytes :=
  let '(seg, rest) := next_segment rem in
  match k with
  | [] => ps
  | SStatic s :: k' =>
      match child_at s (children n) with Some c => walk k' c rest ps | None => ps end
  | SParam :: k' =>
      match param_child n with
      | Some c => walk k' c rest (<[param_name n := seg]> ps)
      | None => ps
      end
  | SWild :: _ => <[wildcard_name n := rem]> ps
  end.

Lemma walk_mono k n rem ps qs : ps ⊆ qs -> walk k n rem ps ⊆ walk k n rem qs.
Proof.
  revert n rem ps qs. induction k as [|[s| |] k IH]; intros n rem ps qs H; cbn;
    destruct (next_segment rem) as [seg rest]; [done|..].
  - destruct (child_at s (children n)); auto.
  - destruct (param_child n); [|done]. apply IH. by apply insert_mono.
  - by apply insert_mono.
Qed.

(** What [search_websocket] does to the parameters it is given. *)
Definition ws_search_ok (n : Node F W) (rem : bytes) (ps : gmap bytes bytes) (r : found W) : Prop :=
  match r with
  | (None, ps') => ps' ⊆ ps
  | (Some w, ps') => exists k, key_matches k (segments rem) = true /\
      obs_at websocket_handler k n = Some w /\ ps' ⊆ walk k n rem ps
  end.

Lemma ws_search_weaken n rem ps qs r : ps ⊆ qs -> ws_search_ok n rem ps r -> ws_search_ok n rem qs r.
Proof.
  intros H. unfold ws_search_ok. destruct r as [[w|] ps'].
  - intros (k & H1 & H2 & H3). exists k. split_and!; [done..|]. etrans; [done|]. by apply walk_mono.
  - intros H1. by etrans.
Qed.

Lemma search_websocket_find fuel n rem ps : (length rem < fuel)%nat -> wf n ->
  fst (search_websocket fuel n rem ps) = find_at websocket_handler (segments rem) n /\
  ws_search_ok n rem ps (search_websocket fuel n rem ps).
Proof.
  revert n rem ps. induction fuel as [|fuel IH]; intros n rem ps Hf Hn; [lia|].
  cbn [search_websocket]. destruct rem as [|x rem].
  { split; [done|]. cbn. destruct (websocket_handler n) eqn:E; [|done]. by exists []. }
  destruct (next_segment (x :: rem)) as [seg rest] eqn:E.
  destruct (next_segment_spec (x :: rem) seg rest) as [Hs Hl]; [done..|].
  pose proof (proj1 (wf_split n) Hn) as (H1 & H2 & H3 & H4).
  rewrite Hs. cbn [find_at]. rewrite try_children_first by done.
  assert (forall c ps, wf c ->
      fst (search_websocket fuel c rest ps) = find_at websocket_handler (segments rest) c /\
      ws_search_ok c rest ps (search_websocket fuel c rest ps)) as IH'
    by (intros; apply IH; [cbn in *; lia|done]).
  clear IH.
  pose (wild := fun q : gmap bytes bytes => match wildcard_child n with
    | Some c => match websocket_handler c with
                | Some w => (Some w, PathParams.set (wildcard_name n) (x :: rem) q)
                | None => (None, q) end
    | None => (None, q) end).
  assert (forall ps, fst (wild ps) = wildcard_child n ≫= websocket_handler /\
                     ws_search_ok n (x :: rem) ps (wild ps)) as Hw.
  { intros q. unfold wild. destruct (wildcard_child n) as [c|] eqn:Ec; cbn; [|done].
    destruct (websocket_handler c) as [w|] eqn:Ew; cbn; [|done]. split; [done|].
    exists [SWild]. rewrite Hs. unfold obs_at. cbn. rewrite E, Ec. by cbn; rewrite Ew. }
  pose (par := fun q : gmap bytes bytes => match param_child n with
    | Some c => match search_websocket fuel c rest (PathParams.set (param_name n) seg q) with
                | (Some h, q') => (Some h, q')
                | (None, q') => wild (PathParams.remove (param_name n) q') end
    | None => wild q end).
  assert (forall ps, fst (par ps) =
          match param_child n ≫= find_at websocket_handler (segments rest) with
          | Some h => Some h | None => wildcard_child n ≫= websocket_handler end /\
          ws_search_ok n (x :: rem) ps (par ps)) as Hp.
  { intros q. unfold par. destruct (param_child n) as [c|] eqn:Ec; [|apply Hw]. cbn.
    destruct (IH' c (PathParams.set (param_name n) seg q) ltac:(auto)) as [<- Hok].
    destruct (search_websocket fuel c rest _) as [[w|] q']; cbn in *.
    - split; [done|]. destruct Hok as (k & K1 & K2 & K3).
      exists (SParam :: k). rewrite Hs. cbn. rewrite E, Ec.
      split_and!; [done|unfold obs_at; cbn; by rewrite ?Ec|done].
    - split; [apply Hw|]. eapply ws_search_weaken; [|apply Hw].
      unfold PathParams.remove, PathParams.set in *. etrans; [by apply delete_mono|].
      rewrite delete_insert_eq. apply delete_subseteq. }
  destruct (child_at seg (children n)) as [c|] eqn:Ec; [|apply Hp]. cbn.
  destruct (IH' c ps ltac:(eauto)) as [<- Hok].
  destruct (search_websocket fuel c rest ps) as [[w|] ps']; cbn in *.
  - split; [done|]. destruct Hok as (k & K1 & K2 & K3).
    exists (SStatic seg :: k). rewrite Hs. cbn. rewrite E, Ec, bool_decide_true by done.
    split_and!; [done|unfold obs_at; cbn; by rewrite ?Ec|done].
  - split; [apply Hp|]. eapply ws_search_weaken; [exact Hok|apply Hp].
Qed.

End Searches.

(** ** A table of routes *)

Section Table.
Context {F W : Type}.

(** A registration: the calls the application makes while it starts. *)
Inductive Registration :=
| RegRoute (m : Method) (pattern : bytes) (h : F)
| RegWebSocket (pattern : bytes) (w : W).

Definition register (g : Registration) (r : Router F W) : result RouteError (Router F W) :=
  match g with
  | RegRoute m p h => add_route m p (Some h) r
  | RegWebSocket p w => add_websocket p w r
  end.

Fixpoint register_all (gs : list Registration) (r : Router F W) : result RouteError (Router F W) :=
  match gs with
  | [] => inr r
  | g :: gs' => result_bind (register g r) (register_all gs')
  end.

Definition pattern_key (pattern : bytes) : list Seg := key_of (segments (drop 1 pattern)).

(** The reference table: the last registration of a key and a method wins. *)
Fixpoint routed (gs : list Registration) (k : list Seg) (m : Method) (acc : option F) : option F :=
  match gs with
  | [] => acc
  | RegRoute m' p h :: gs' =>
      routed gs' k m (if bool_decide (k = pattern_key p /\ m = m') then Some h else acc)
  | RegWebSocket _ _ :: gs' => routed gs' k m acc
  end.

Fixpoint ws_routed (gs : list Registration) (k : list Seg) (acc : option W) : option W :=
  match gs with
  | [] => acc
  | RegRoute _ _ _ :: gs' => ws_routed gs' k acc
  | RegWebSocket p w :: gs' =>
      ws_routed gs' k (if bool_decide (k = pattern_key p) then Some w else acc)
  end.

(** The handler a key offers to a method: its own, else the one for any. *)
Definition offers (gs : list Registration) (k : list Seg) (m : Method) : option F :=
  match routed gs k m None with
  | Some h => Some h
  | None => routed gs k ANY None
  end.

Lemma handlers_own_data m : own_data (fun c : Node F W => handlers c m).
Proof. by split. Qed.

Lemma websocket_own_data : own_data (fun c : Node F W => websocket_handler c).
Proof. by split. Qed.

(** A registration that succeeds has a pattern with a leading slash and
    updates the tree at the key of that pattern. *)
Lemma add_route_root m p h (r r' : Router F W) : add_route m p h r = inr r' ->
  root_ r' = upd_at (set_handler m h) (segments (drop 1 p)) (root_ r).
Proof.
  unfold add_route. destruct p as [|x p]; [done|]. intros H.
  destruct (decide (x = "/"%char)) as [->|Hx]; [|by destruct x as [[] [] [] [] [] [] [] []]].
  apply (inj inr) in H as <-. cbn [root_ drop]. rewrite drop_0. apply insert_upd.
  unfold path_fuel. lia.
Qed.

Lemma add_websocket_root p w (r r' : Router F W) : add_websocket p w r = inr r' ->
  root_ r' = upd_at (set_websocket w) (segments (drop 1 p)) (root_ r).
Proof.
  unfold add_websocket. destruct p as [|x p]; [done|]. intros H.
  destruct (decide (x = "/"%char)) as [->|Hx]; [|by destruct x as [[] [] [] [] [] [] [] []]].
  apply (inj inr) in H as <-. cbn [root_ drop]. rewrite drop_0. apply insert_websocket_upd.
  unfold path_fuel. lia.
Qed.

Lemma add_route_handlers m' p h (r r' : Router F W) k m :
  add_route m' p h r = inr r' ->
  obs_at (fun c => handlers c m) k (root_ r') =
  if bool_decide (k = pattern_key p /\ m = m') then h
  else obs_at (fun c => handlers c m) k (root_ r).
Proof.
  intros H. rewrite (add_route_root _ _ _ _ _ H). unfold pattern_key.
  rewrite (upd_at_spec _ (handlers_own_data m) _
    (fun o => if decide (m = m') then h else o)); [|apply set_handler_shape|done].
  destruct (decide (k = key_of (segments (drop 1 p)))) as [E|E];
    destruct (decide (m = m')) as [E'|E'].
  - by rewrite !bool_decide_true by done.
  - rewrite (bool_decide_true (k = _)) by done. by rewrite bool_decide_false by tauto.
  - by rewrite !bool_decide_false by tauto.
  - by rewrite !bool_decide_false by tauto.
Qed.

Lemma add_route_websockets m' p h (r r' : Router F W) k :
  add_route m' p h r = inr r' ->
  obs_at websocket_handler k (root_ r') = obs_at websocket_handler k (root_ r).
Proof.
  intros H. rewrite (add_route_root _ _ _ _ _ H).
  rewrite (upd_at_spec _ websocket_own_data _ id); [by case_bool_decide|apply set_handler_shape|done].
Qed.

Lemma add_websocket_obs p w (r r' : Router F W) k m :
  add_websocket p w r = inr r' ->
  obs_at (fun c => handlers c m) k (root_ r') = obs_at (fun c => handlers c m) k (root_ r) /\
  obs_at websocket_handler k (root_ r') =
    if bool_decide (k = pattern_key p) then Some w else obs_at websocket_handler k (root_ r).
Proof.
  intros H. rewrite (add_websocket_root _ _ _ _ H). unfold pattern_key.
  split.
  - rewrite (upd_at_spec _ (handlers_own_data m) _ id); [by case_bool_decide|apply set_websocket_shape|done].
  - rewrite (upd_at_spec _ websocket_own_data _ (fun _ => Some w));
      [by case_bool_decide|apply set_websocket_shape|done].
Qed.

Lemma register_wf g (r r' : Router F W) : register g r = inr r' -> wf (root_ r) -> wf (root_ r').
Proof.
  destruct g as [m p h|p w]; cbn; intros H Hr.
  - rewrite (add_route_root _ _ _ _ _ H). apply upd_at_wf; [apply set_handler_shape|done].
  - rewrite (add_websocket_root _ _ _ _ H). apply upd_at_wf; [apply set_websocket_shape|done].
Qed.

(** A router built by registrations holds the reference table. *)
Lemma register_all_table gs (r r' : Router F W) :
  register_all gs r = inr r' -> wf (root_ r) ->
  wf (root_ r') /\
  (forall k m, obs_at (fun c => handlers c m) k (root_ r') =
               routed gs k m (obs_at (fun c => handlers c m) k (root_ r))) /\
  (forall k, obs_at websocket_handler k (root_ r') =
             ws_routed gs k (obs_at websocket_handler k (root_ r))).
Proof.
  revert r. induction gs as [|g gs IH]; intros r H Hr; cbn in *.
  - by injection H as <-.
  - destruct (register g r) as [e|r1] eqn:E; [done|]. cbn in H.
    destruct (IH r1 H ltac:(by eapply register_wf)) as (I1 & I2 & I3).
    split_and!; [done|..].
    + intros k m. rewrite I2. destruct g as [m' p h|p w]; cbn in *.
      * by rewrite (add_route_handlers m' p (Some h) r r1).
      * by destruct (add_websocket_obs p w r r1 k m E) as [-> _].
    + intros k. rewrite I3. destruct g as [m' p h|p w]; cbn in *.
      * by rewrite (add_route_websockets m' p (Some h) r r1).
      * by destruct (add_websocket_obs p w r r1 k GET E) as [_ ->].
Qed.

Lemma obs_at_get_handler (n : Node F W) k m :
  obs_at (fun c => get_handler c m) k n =
  match obs_at (fun c => handlers c m) k n with
  | Some h => Some h
  | None => obs_at (fun c => handlers c ANY) k n
  end.
Proof. unfold obs_at, get_handler. by destruct (node_at k n). Qed.

Lemma register_all_new gs (r : Router F W) : register_all gs new_router = inr r ->
  wf (root_ r) /\
  (forall k m, obs_at (fun c => get_handler c m) k (root_ r) = offers gs k m) /\
  (forall k, obs_at websocket_handler k (root_ r) = ws_routed gs k None).
Proof.
  intros H. destruct (register_all_table gs _ _ H (wf_new [])) as (H1 & H2 & H3).
  split_and!; [done|..].
  - intros k m. unfold offers. rewrite obs_at_get_handler, !H2. cbn [root_ new_router].
    by rewrite !(obs_at_new _ (handlers_own_data _)).
  - intros k. rewrite H3. cbn [root_ new_router]. by rewrite (obs_at_new _ websocket_own_data).
Qed.

End Table.

Arguments Registration : clear implicits.

(** The router a list of registrations gives, for concrete tables. *)
Definition built {F W} (gs : list (Registration F W)) : Router F W :=
  match register_all gs new_router with inr r => r | inl _ => new_router end.

(** ** Routing is correct *)

(** The look-up against the reference table. *)
Lemma match_route_best {F W} (gs : list (Registration F W)) r m path rest
  (Hr : register_all gs new_router = inr r)
  (Hp : strip_query path = "/"%char :: rest) :
  match fst (fst (match_route m path r)) with
  | Some h => exists k, key_matches k (segments rest) = true /\ offers gs k m = Some h /\
      forall k', key_matches k' (segments rest) = true -> is_Some (offers gs k' m) -> key_le k k' = true
  | None => forall k, key_matches k (segments rest) = true -> offers gs k m = None
  end.
Proof.
  destruct (register_all_new gs r Hr) as (H1 & H2 & _).
  assert (fst (fst (match_route m path r)) = find_at (fun c => get_handler c m) (segments rest) (root_ r)) as ->.
  { unfold match_route. rewrite Hp. cbn [root_ lookup_method_].
    rewrite <- (search_find (path_fuel rest) m _ rest ∅) by (done || unfold path_fuel; lia).
    by destruct (search _ _ _ _ _) as [[h|] ps]. }
  pose proof (find_at_spec (fun c => get_handler c m) (segments rest) (root_ r)) as S.
  destruct (find_at _ _ _) as [h|].
  - destruct S as (k & S1 & S2 & S3). exists k. rewrite <- H2.
    split_and!; [done..|]. intros k' M O. apply S3; [done|]. by rewrite H2.
  - intros k M. rewrite <- H2. by apply S.
Qed.

(** [C1] Routing implements the reference table.  For a router built by
    any sequence of registrations and a request path [/rest?query], [match]
    returns a handler exactly when some registered route matches the path for
    the method (or for any method), and the handler it returns is the one last
    registered for the best such route: from the left, a static segment is
    preferred to a parameter and a parameter to a wildcard. *)
Theorem match_route_correct {F W} (gs : list (Registration F W)) r m path rest
  (Hr : register_all gs new_router = inr r)
  (Hp : strip_query path = "/"%char :: rest) :
  match fst (fst (match_route m path r)) with
  | Some h => exists k, key_matches k (segments rest) = true /\ offers gs k m = Some h /\
      forall k', key_matches k' (segments rest) = true -> is_Some (offers gs k' m) -> key_le k k' = true
  | None => forall k, key_matches k (segments rest) = true -> offers gs k m = None
  end.
Proof. by apply match_route_best. Qed.

Lemma match_route_correct_witness :
  let gs : list (Registration Z Z) :=
    [RegRoute GET (bs "/users/:id") 1; RegRoute GET (bs "/users/me") 2; RegRoute ANY (bs "/*rest") 3] in
  fst (fst (match_route GET (bs "/users/me?x=1") (built gs))) = Some 2 /\
  exists k, key_matches k (segments (bs "users/me")) = true /\ offers gs k GET = Some 2 /\
      forall k', key_matches k' (segments (bs "users/me")) = true ->
        is_Some (offers gs k' GET) -> key_le k k' = true.
Proof.
  intros gs. assert (fst (fst (match_route GET (bs "/users/me?x=1") (built gs))) = Some 2) as E
    by (vm_compute; reflexivity).
  split; [exact E|].
  assert (register_all gs new_router = inr (built gs)) as H1 by (vm_compute; reflexivity).
  assert (strip_query (bs "/users/me?x=1") = "/"%char :: bs "users/me") as H2 by reflexivity.
  pose proof (match_route_correct gs (built gs) GET _ _ H1 H2) as X. rewrite E in X. exact X.
Defined.

(** WebSocket routing: [match_websocket] returns the handler of
    the best matching WebSocket route of the table, and every parameter it
    returns is one that route binds on this path (the parameters of branches
    it backtracked out of are removed). *)
Theorem match_websocket_correct {F W} (gs : list (Registration F W)) r path rest
  (Hr : register_all gs new_router = inr r)
  (Hp : strip_query path = "/"%char :: rest) :
  match match_websocket path r with
  | (Some w, ps) =>
      (exists k, key_matches k (segments rest) = true /\ ws_routed gs k None = Some w /\
        forall k', key_matches k' (segments rest) = true -> is_Some (ws_routed gs k' None) -> key_le k k' = true) /\
      (exists k, key_matches k (segments rest) = true /\ ws_routed gs k None = Some w /\
        ps ⊆ walk k (root_ r) rest ∅)
  | (None, ps) => ps = ∅ /\ forall k, key_matches k (segments rest) = true -> ws_routed gs k None = None
  end.
Proof.
  destruct (register_all_new gs r Hr) as (H1 & _ & H2).
  destruct (search_websocket_find (path_fuel rest) (root_ r) rest ∅) as [Hf Hok];
    [unfold path_fuel; lia|done|].
  pose proof (find_at_spec websocket_handler (segments rest) (root_ r)) as S.
  unfold match_websocket. rewrite Hp, <- Hf in *.
  destruct (search_websocket _ _ _ _) as [[w|] ps]; cbn in *.
  - split.
    + destruct S as (k & S1 & S2 & S3). exists k. rewrite <- H2.
      split_and!; [done..|]. intros k' M O. apply S3; [done|]. by rewrite H2.
    + destruct Hok as (k & K1 & K2 & K3). exists k. by rewrite <- H2.
  - split; [done|]. intros k M. rewrite <- H2. by apply S.
Qed.

Lemma match_websocket_correct_witness :
  let gs : list (Registration Z Z) :=
    [RegWebSocket (bs "/ws/:room") 1; RegWebSocket (bs "/*rest") 2] in
  fst (match_websocket (bs "/ws/a/b") (built gs)) = Some 2 /\
  match match_websocket (bs "/ws/a/b") (built gs) with
  | (Some w, ps) =>
      (exists k, key_matches k (segments (bs "ws/a/b")) = true /\ ws_routed gs k None = Some w /\
        forall k', key_matches k' (segments (bs "ws/a/b")) = true -> is_Some (ws_routed gs k' None) -> key_le k k' = true) /\
      (exists k, key_matches k (segments (bs "ws/a/b")) = true /\ ws_routed gs k None = Some w /\
        ps ⊆ walk k (root_ (built gs)) (bs "ws/a/b") ∅)
  | (None, ps) => ps = ∅ /\ forall k, key_matches k (segments (bs "ws/a/b")) = true -> ws_routed gs k None = None
  end.
Proof.
  intros gs. split; [vm_compute; reflexivity|].
  apply (match_websocket_correct gs (built gs) (bs "/ws/a/b") (bs "ws/a/b")); vm_compute; reflexivity.
Defined.

(** The HTTP search does not undo the parameters of a branch
    it backtracks out of: with the routes [/:id/edit] and [/*rest], the path
    [/a/b] is routed to the second, whose only parameter is [rest], and the
    result still holds [id].  [search_websocket] removes it. *)
Theorem match_route_stale_params : exists r : Router Z Z,
  register_all [RegRoute GET (bs "/:id/edit") 1; RegRoute GET (bs "/*rest") 2] new_router = inr r /\
  fst (fst (match_route GET (bs "/a/b") r)) = Some 2 /\
  PathParams.get (bs "rest") (snd (fst (match_route GET (bs "/a/b") r))) = Some (bs "a/b") /\
  PathParams.get (bs "id") (snd (fst (match_route GET (bs "/a/b") r))) = Some (bs "a").
Proof.
  exists (built [RegRoute GET (bs "/:id/edit") 1; RegRoute GET (bs "/*rest") 2]).
  split_and!; vm_compute; reflexivity.
Qed.

(** ** The shared lookup method

    Every shard calls [match] on the one router of the server.  [match] writes
    [lookup_method_] and [search] reads it when it reaches a node, so a look-up
    is two steps on shared state. *)

Section Race.
Context {F W : Type}.

Inductive Lookup :=
| Waiting (m : Method) (path : bytes)
| Searching (m : Method) (path : bytes)
| Finished (m : Method) (path : bytes) (h : option F).

(** One thread takes its next step. *)
Inductive lookup_step : Router F W * list Lookup -> Router F W * list Lookup -> Prop :=
| step_write r ts i m path :
    ts !! i = Some (Waiting m path) ->
    lookup_step (r, ts)
      (mkRouter (root_ r) (route_count_ r) (route_infos_ r) (websocket_route_infos_ r) m,
       <[i := Searching m path]> ts)
| step_search r ts i m path rest :
    ts !! i = Some (Searching m path) ->
    strip_query path = "/"%char :: rest ->
    lookup_step (r, ts)
      (r, <[i := Finished m path
             (fst (search (path_fuel rest) (lookup_method_ r) (root_ r) rest ∅))]> ts).

End Race.

(** Look-ups on two shards interfere through [lookup_method_]:
    there is an interleaving in which a GET request is handed the handler that
    was registered for DELETE only, although [match] alone returns none for
    it. *)
Theorem match_route_race : exists (r : Router Z Z) r' ts,
  register_all [RegRoute DELETE_ (bs "/item") 7] new_router = inr r /\
  fst (fst (match_route GET (bs "/item") r)) = None /\
  rtc lookup_step (r, [Waiting GET (bs "/item"); Waiting DELETE_ (bs "/item")]) (r', ts) /\
  ts !! 0%nat = Some (Finished GET (bs "/item") (Some 7)).
Proof.
  eexists _, _, _. split; [vm_compute; reflexivity|]. split; [vm_compute; reflexivity|]. split.
  - eapply rtc_l; [by apply (step_write _ _ 0%nat)|].
    eapply rtc_l; [by apply (step_write _ _ 1%nat)|].
    eapply rtc_l; [by apply (step_search _ _ 0%nat GET (bs "/item") (bs "item"))|].
    apply rtc_refl.
  - vm_compute. reflexivity.
Qed.
