(* ===== verification/WebSocket.v ===== *)
(** * WebSocket connections: [websocket/websocket.cpp], [websocket/websocket.h]

    The RFC 6455 frame parser and writer, the per-connection [Session] with
    its outbound buffer, the [SharedSession] queue other threads write to, the
    transport byte budget and the session registry.  Application callbacks are
    parameters: a callback is a function from the session it is given and its
    argument to the list of [Session] calls it makes.  Sizes of buffers that
    exist in memory are not wrapped; numbers read from the wire keep their
    width. *)

From S2P Require Import Prelude CxxString.

(** ** Data *)

Inductive Opcode := Continuation | Text | Binary | Close | Ping | Pong.

#[export] Instance opcode_eq_dec : EqDecision Opcode.
Proof. solve_decision. Defined.

Definition opcode_value (o : Opcode) : Z :=
  match o with
  | Continuation => 0 | Text => 1 | Binary => 2 | Close => 8 | Ping => 9 | Pong => 10
  end.

Record Message := mkMessage { msg_opcode : Opcode; msg_payload : bytes }.

Record CloseInfo := mkCloseInfo { close_code : Z; close_reason : bytes }.

Record ProtocolError := mkProtocolError { err_code : Z; err_message : bytes }.

Record Limits := mkLimits { max_message_bytes : Z; max_pending_send_bytes : Z }.

Definition default_limits : Limits := mkLimits (1024 * 1024) (1024 * 1024).

(** ** Predicates on the wire values *)

Definition is_valid_close_code (code : Z) : bool :=
  ((1000 <=? code) && (code <=? 1014) && negb (code =? 1004) && negb (code =? 1005) &&
   negb (code =? 1006) && negb (code =? 1015)) ||
  ((3000 <=? code) && (code <=? 4999)).

Definition is_valid_opcode (v : Z) : bool :=
  (v =? 0) || (v =? 1) || (v =? 2) || (v =? 8) || (v =? 9) || (v =? 10).

(** [static_cast<Opcode>] of a value [is_valid_opcode] accepts. *)
Definition opcode_of_value (v : Z) : Opcode :=
  if v =? 1 then Text else if v =? 2 then Binary else if v =? 8 then Close
  else if v =? 9 then Ping else if v =? 10 then Pong else Continuation.

Definition is_control (o : Opcode) : bool := 8 <=? opcode_value o.

(** ** UTF-8 *)

(** The lead byte: the number of continuation bytes and its payload bits. *)
Definition utf8_lead (ch : Z) : option (nat * Z) :=
  if Z.land ch 224 =? 192 then Some (1%nat, Z.land ch 31)
  else if Z.land ch 240 =? 224 then Some (2%nat, Z.land ch 15)
  else if Z.land ch 248 =? 240 then Some (3%nat, Z.land ch 7)
  else None.

(** The loop over the continuation bytes. *)
Fixpoint utf8_continue (value : Z) (cs : bytes) : option Z :=
  match cs with
  | [] => Some value
  | c :: r =>
      if negb (Z.land (byte_val c) 192 =? 128) then None
      else utf8_continue (Z.lor (Z.shiftl value 6) (Z.land (byte_val c) 63)) r
  end.

Definition utf8_bad_value (count : nat) (value : Z) : bool :=
  let overlong := ((count =? 1)%nat && (value <? 128)) ||
                  ((count =? 2)%nat && (value <? 2048)) ||
                  ((count =? 3)%nat && (value <? 65536)) in
  overlong || (1114111 <? value) || ((55296 <=? value) && (value <=? 57343)).

(** [valid_utf8] from position [i]: [s] is the unread part. *)
Fixpoint valid_utf8_fuel (fuel : nat) (s : bytes) : bool :=
  match fuel with
  | O => false
  | S fuel' =>
      match s with
      | [] => true
      | c :: r =>
          if byte_val c <=? 127 then valid_utf8_fuel fuel' r
          else
            match utf8_lead (byte_val c) with
            | None => false
            | Some (count, value) =>
                if (length s <=? count)%nat then false
                else
                  match utf8_continue value (take count r) with
                  | None => false
                  | Some value =>
                      if utf8_bad_value count value then false
                      else valid_utf8_fuel fuel' (drop count r)
                  end
            end
      end
  end.

Definition valid_utf8 (s : bytes) : bool := valid_utf8_fuel (S (length s)) s.

(** ** [detail::SharedSession]: the queue of a connection, written to from any
    thread under its mutex.  Each operation is one critical section. *)

Inductive QueuedKind := QText | QBinary | QClose.

Record QueuedCommand := mkCommand {
  q_kind : QueuedKind;
  q_payload : bytes;
  q_code : Z;
  q_reason : bytes
}.

Record SharedSession := mkShared {
  sh_id : Z;
  sh_limits : Limits;
  sh_active : bool;
  sh_closing : bool;
  sh_queued_bytes : Z;
  sh_queued : list QueuedCommand;
  sh_wakeup : bool  (** a wake-up callback is installed *)
}.

Definition new_shared (id : Z) (limits : Limits) (wakeup : bool) : SharedSession :=
  mkShared id limits true false 0 [] wakeup.

Definition shared_active (s : SharedSession) : bool := sh_active s && negb (sh_closing s).

(** The result, whether the wake-up ran, and the new state. *)
Definition enqueue (kind : QueuedKind) (payload : bytes) (s : SharedSession) :
    bool * bool * SharedSession :=
  if negb (sh_active s) || sh_closing s then (false, false, s)
  else
    let encoded_size := len payload + 10 in
    if max_pending_send_bytes (sh_limits s) <? sh_queued_bytes s + encoded_size then
      (false, sh_wakeup s,
       mkShared (sh_id s) (sh_limits s) (sh_active s) true 0
         [mkCommand QClose [] 1013 (bs "Outbound queue limit exceeded")] (sh_wakeup s))
    else
      (true, sh_wakeup s,
       mkShared (sh_id s) (sh_limits s) (sh_active s) (sh_closing s)
         (sh_queued_bytes s + encoded_size)
         (sh_queued s ++ [mkCommand kind payload 1000 []]) (sh_wakeup s)).

Definition enqueue_close (code : Z) (reason : bytes) (s : SharedSession) :
    bool * bool * SharedSession :=
  if negb (sh_active s) || sh_closing s then (false, false, s)
  else
    (true, sh_wakeup s,
     mkShared (sh_id s) (sh_limits s) (sh_active s) true (sh_queued_bytes s)
       (sh_queued s ++ [mkCommand QClose [] code (take 123 reason)]) (sh_wakeup s)).

Definition mark_closing (s : SharedSession) : SharedSession :=
  mkShared (sh_id s) (sh_limits s) (sh_active s) true (sh_queued_bytes s) (sh_queued s) (sh_wakeup s).

Definition deactivate (s : SharedSession) : SharedSession :=
  mkShared (sh_id s) (sh_limits s) false true 0 [] false.

Definition take_commands (s : SharedSession) : list QueuedCommand * SharedSession :=
  (sh_queued s,
   mkShared (sh_id s) (sh_limits s) (sh_active s) (sh_closing s) 0 [] (sh_wakeup s)).

(** ** [TransportBackpressure] *)

Record Backpressure := mkBackpressure { bp_max : Z; bp_pending : Z }.

Definition try_reserve (n : Z) (force : bool) (b : Backpressure) : bool * Backpressure :=
  if negb force && ((bp_max b <? n) || (wrap64 (bp_max b - n) <? bp_pending b))
  then (false, b)
  else (true, mkBackpressure (bp_max b) (wrap64 (bp_pending b + n))).

Definition release (n : Z) (b : Backpressure) : Backpressure :=
  mkBackpressure (bp_max b) (if bp_pending b <=? n then 0 else bp_pending b - n).

Definition pending_bytes (b : Backpressure) : Z := bp_pending b.

(** ** [Session]

    [shared_] is the object the connection and every handle share; [None] is a
    moved-from pointer. *)

Record Session := mkSession {
  outbound_ : bytes;
  limits_ : Limits;
  principal_ : bytes;
  shared_ : option SharedSession;
  transport_backpressure_ : option Backpressure;
  close_sent_ : bool;
  overloaded_ : bool
}.

Definition set_outbound (o : bytes) (s : Session) : Session :=
  mkSession o (limits_ s) (principal_ s) (shared_ s) (transport_backpressure_ s)
    (close_sent_ s) (overloaded_ s).
Definition set_shared (h : option SharedSession) (s : Session) : Session :=
  mkSession (outbound_ s) (limits_ s) (principal_ s) h (transport_backpressure_ s)
    (close_sent_ s) (overloaded_ s).
Definition set_transport (b : option Backpressure) (s : Session) : Session :=
  mkSession (outbound_ s) (limits_ s) (principal_ s) (shared_ s) b
    (close_sent_ s) (overloaded_ s).
Definition set_close_sent (s : Session) : Session :=
  mkSession (outbound_ s) (limits_ s) (principal_ s) (shared_ s) (transport_backpressure_ s)
    true (overloaded_ s).
Definition set_overloaded (s : Session) : Session :=
  mkSession (outbound_ s) (limits_ s) (principal_ s) (shared_ s) (transport_backpressure_ s)
    (close_sent_ s) true.

Definition header_size (size : Z) : Z :=
  if size <=? 125 then 2 else if size <=? 65535 then 4 else 10.

(** Big-endian bytes, most significant first: the shift loop. *)
Fixpoint be_bytes (n : nat) (v : Z) : bytes :=
  match n with
  | O => []
  | S n' => byte_of_Z (Z.land (Z.shiftr v (8 * Z.of_nat n')) 255) :: be_bytes n' v
  end.

Definition frame_header (opcode : Opcode) (size : Z) : bytes :=
  byte_of_Z (Z.lor 128 (opcode_value opcode)) ::
  (if size <=? 125 then [byte_of_Z size]
   else if size <=? 65535 then
     [byte_of_Z 126; byte_of_Z (Z.land (Z.shiftr size 8) 255); byte_of_Z (Z.land size 255)]
   else byte_of_Z 127 :: be_bytes 8 size).

Definition append_frame (opcode : Opcode) (payload : bytes) (s : Session) : Session :=
  set_outbound (outbound_ s ++ frame_header opcode (len payload) ++ payload) s.

(** [send_frame], given the [close] it calls when a limit is hit. *)
Definition send_frame_with (close : Z -> bytes -> Session -> Session) (opcode : Opcode)
    (payload : bytes) (force : bool) (s : Session) : bool * Session :=
  let size := len payload in
  if negb force &&
     (max_pending_send_bytes (limits_ s) <? len (outbound_ s) + header_size size + size)
  then (false, close 1013 (bs "Outbound queue limit exceeded") (set_overloaded s))
  else
    let frame_size := header_size size + size in
    match transport_backpressure_ s with
    | None => (true, append_frame opcode payload s)
    | Some b =>
        match try_reserve frame_size force b with
        | (false, b') =>
            (false, close 1013 (bs "Transport flow-control limit exceeded")
                      (set_overloaded (set_transport (Some b') s)))
        | (true, b') => (true, append_frame opcode payload (set_transport (Some b') s))
        end
    end.

(** [close]: its own [send_frame] is forced, so it never reaches a nested
    [close] (see [send_frame_forced]). *)
Definition session_close (code : Z) (reason : bytes) (s : Session) : bool * Session :=
  if close_sent_ s then (false, s)
  else
    let reason := if 123 <? len reason then take 123 reason else reason in
    let payload := byte_of_Z (Z.land (Z.shiftr code 8) 255) ::
                   byte_of_Z (Z.land code 255) :: reason in
    let s := if max_pending_send_bytes (limits_ s) <? len (outbound_ s) + 2 + len payload
             then set_outbound [] s else s in
    let s := snd (send_frame_with (fun _ _ s => s) Close payload true s) in
    let s := set_close_sent s in
    (true, set_shared (mark_closing <$> shared_ s) s).

Definition send_frame (opcode : Opcode) (payload : bytes) (force : bool) (s : Session) : bool * Session :=
  send_frame_with (fun c r s => snd (session_close c r s)) opcode payload force s.

Definition send_text (text : bytes) (s : Session) : bool * Session :=
  if negb (close_sent_ s) then send_frame Text text false s else (false, s).

Definition send_binary (data : bytes) (s : Session) : bool * Session :=
  if close_sent_ s then (false, s) else send_frame Binary data false s.

Definition take_outbound (s : Session) : bytes * Session := (outbound_ s, set_outbound [] s).

(** ** Callbacks *)

Inductive SessionCall :=
| CallSendText (t : bytes)
| CallSendBinary (d : bytes)
| CallClose (code : Z) (reason : bytes).

Definition run_call (s : Session) (c : SessionCall) : Session :=
  match c with
  | CallSendText t => snd (send_text t s)
  | CallSendBinary d => snd (send_binary d s)
  | CallClose code reason => snd (session_close code reason s)
  end.

Definition run_calls (cs : list SessionCall) (s : Session) : Session := foldl run_call s cs.

Record Handler := mkHandler {
  on_open : option (Session -> list SessionCall);
  on_message : option (Session -> Message -> list SessionCall);
  on_close : option (Session -> CloseInfo -> list SessionCall);
  h_meters : bool;
  h_limits : Limits
}.

(** What a connection does to its environment, in order. *)
Inductive Effect :=
| EOpen
| EMessage (m : Message)
| EClose (c : CloseInfo)
| ECounter (name : bytes) (v : Z)
| EUpDown (name : bytes) (v : Z)
| EHistogram (name : bytes) (v : Z).

(** ** [Connection] *)

Record Connection := mkConnection {
  handler_ : Handler;
  session_ : Session;
  c_limits : Limits;
  input_ : bytes;
  fragmented_payload_ : bytes;
  fragmented_opcode_ : Opcode;
  fragmented_ : bool;
  closed_ : bool;
  close_notified_ : bool;
  metrics_active_ : bool;
  log_ : list Effect
}.

Definition with_session (s : Session) (c : Connection) : Connection :=
  mkConnection (handler_ c) s (c_limits c) (input_ c) (fragmented_payload_ c)
    (fragmented_opcode_ c) (fragmented_ c) (closed_ c) (close_notified_ c)
    (metrics_active_ c) (log_ c).
Definition with_input (i : bytes) (c : Connection) : Connection :=
  mkConnection (handler_ c) (session_ c) (c_limits c) i (fragmented_payload_ c)
    (fragmented_opcode_ c) (fragmented_ c) (closed_ c) (close_notified_ c)
    (metrics_active_ c) (log_ c).
Definition with_fragment (p : bytes) (o : Opcode) (f : bool) (c : Connection) : Connection :=
  mkConnection (handler_ c) (session_ c) (c_limits c) (input_ c) p o f (closed_ c)
    (close_notified_ c) (metrics_active_ c) (log_ c).
Definition with_closed (c : Connection) : Connection :=
  mkConnection (handler_ c) (session_ c) (c_limits c) (input_ c) (fragmented_payload_ c)
    (fragmented_opcode_ c) (fragmented_ c) true (close_notified_ c) (metrics_active_ c) (log_ c).
Definition with_notified (c : Connection) : Connection :=
  mkConnection (handler_ c) (session_ c) (c_limits c) (input_ c) (fragmented_payload_ c)
    (fragmented_opcode_ c) (fragmented_ c) (closed_ c) true (metrics_active_ c) (log_ c).
Definition with_effects (es : list Effect) (c : Connection) : Connection :=
  mkConnection (handler_ c) (session_ c) (c_limits c) (input_ c) (fragmented_payload_ c)
    (fragmented_opcode_ c) (fragmented_ c) (closed_ c) (close_notified_ c)
    (metrics_active_ c) (log_ c ++ es).

(** The constructor; the registry entry is made by the registry component. *)
Definition new_connection (id : Z) (h : Handler) (principal : bytes) (wakeup : bool)
    (tb : option Backpressure) : Connection :=
  let session := mkSession [] (h_limits h) principal (Some (new_shared id (h_limits h) wakeup))
                   tb false false in
  let c := mkConnection h session (h_limits h) [] [] Continuation false false false (h_meters h)
             (if h_meters h then
                [EUpDown (bs "websocket.server.active_connections") 1;
                 ECounter (bs "websocket.server.connections.opened") 1]
              else []) in
  match on_open h with
  | Some f => with_effects [EOpen] (with_session (run_calls (f session) session) c)
  | None => c
  end.

(** The destructor: the effects and the shared state it leaves. *)
Definition destroy (c : Connection) : list Effect * option SharedSession :=
  ((if metrics_active_ c && h_meters (handler_ c) then
      [EUpDown (bs "websocket.server.active_connections") (-1)] else []),
   deactivate <$> shared_ (session_ c)).

Definition notify_close (i : CloseInfo) (c : Connection) : Connection :=
  let c := if close_notified_ c then c else
    match on_close (handler_ c) with
    | Some f => with_effects [EClose i]
                  (with_session (run_calls (f (session_ c) i) (session_ c)) c)
    | None => c
    end in
  with_notified c.

Definition deactivate_session (c : Connection) : Connection :=
  with_session (set_shared (deactivate <$> shared_ (session_ c)) (session_ c)) c.

Definition protocol_close (code : Z) (reason : bytes) (c : Connection) : Connection :=
  let c := if close_sent_ (session_ c) then c
           else with_session (snd (session_close code reason (session_ c))) c in
  notify_close (mkCloseInfo code reason) (deactivate_session (with_closed c)).

(** [protocol_close] and the error returned with it. *)
Definition fail_with (code : Z) (reason : bytes) (c : Connection) :
    result ProtocolError unit * Connection :=
  (inl (mkProtocolError code reason), protocol_close code reason c).

(** The meters and the [on_message] callback for one message. *)
Definition deliver (m : Message) (c : Connection) : Connection :=
  let c := if h_meters (handler_ c) then
             with_effects [ECounter (bs "websocket.server.messages.received") 1;
                           EHistogram (bs "websocket.server.message.size") (len (msg_payload m))] c
           else c in
  match on_message (handler_ c) with
  | Some f => with_effects [EMessage m]
                (with_session (run_calls (f (session_ c) m) (session_ c)) c)
  | None => c
  end.

(** The close frame of the peer: its payload as a [CloseInfo], if it is valid. *)
Definition parse_close (payload : bytes) : option CloseInfo :=
  match payload with
  | [] => Some (mkCloseInfo 1000 [])
  | [_] => None
  | b0 :: b1 :: reason =>
      let code := Z.lor (Z.shiftl (byte_val b0) 8) (byte_val b1) in
      if negb (is_valid_close_code code) || negb (valid_utf8 reason) then None
      else Some (mkCloseInfo code reason)
  end.

Definition process_close (payload : bytes) (c : Connection) : result ProtocolError unit * Connection :=
  match parse_close payload with
  | None => fail_with 1002 (bs "Invalid close payload") c
  | Some i =>
      let c := if close_sent_ (session_ c) then c
               else with_session (snd (session_close (close_code i) (close_reason i) (session_ c))) c in
      (inr tt, notify_close i (deactivate_session (with_closed c)))
  end.

Definition process_continuation (fin : bool) (payload : bytes) (c : Connection) :
    result ProtocolError unit * Connection :=
  if negb (fragmented_ c) then fail_with 1002 (bs "Unexpected continuation frame") c
  else if max_message_bytes (c_limits c) <? len (fragmented_payload_ c) + len payload
  then fail_with 1009 (bs "Message too large") c
  else
    let c := with_fragment (fragmented_payload_ c ++ payload) (fragmented_opcode_ c) (fragmented_ c) c in
    if negb fin then (inr tt, c)
    else if bool_decide (fragmented_opcode_ c = Text) && negb (valid_utf8 (fragmented_payload_ c))
    then fail_with 1007 (bs "Invalid UTF-8 text message") c
    else
      let c := deliver (mkMessage (fragmented_opcode_ c) (fragmented_payload_ c)) c in
      (inr tt, with_fragment [] Continuation false c).

Definition process_data (fin : bool) (opcode : Opcode) (payload : bytes) (c : Connection) :
    result ProtocolError unit * Connection :=
  if fragmented_ c then fail_with 1002 (bs "Expected continuation frame") c
  else if negb fin then (inr tt, with_fragment payload opcode true c)
  else if bool_decide (opcode = Text) && negb (valid_utf8 payload)
  then fail_with 1007 (bs "Invalid UTF-8 text message") c
  else (inr tt, deliver (mkMessage opcode payload) c).

Definition process_frame (fin : bool) (opcode : Opcode) (payload : bytes) (c : Connection) :
    result ProtocolError unit * Connection :=
  match opcode with
  | Ping => (inr tt, with_session (snd (send_frame Pong payload false (session_ c))) c)
  | Pong => (inr tt, c)
  | Close => process_close payload c
  | Continuation => process_continuation fin payload c
  | _ => process_data fin opcode payload c
  end.

(** ** The frame parser *)

Inductive Parsed :=
| NeedMore
| Malformed (code : Z) (reason : bytes)
| Frame (fin : bool) (opcode : Opcode) (payload : bytes) (total_size : nat).

(** The loop that reads the 64-bit length, most significant byte first. *)
Definition be_fold (acc : Z) (s : bytes) : Z :=
  foldl (fun v b => wrap64 (Z.lor (Z.shiftl v 8) (byte_val b))) acc s.

(** The payload length and the size of the header before the mask: the short,
    16-bit and 64-bit forms; [inl None] asks for more data. *)
Definition parse_length (second : Z) (input : bytes) : result (option (Z * bytes)) (Z * nat) :=
  let size := Z.land second 127 in
  if size =? 126 then
    match input with
    | _ :: _ :: b2 :: b3 :: _ =>
        inr (Z.lor (Z.shiftl (byte_val b2) 8) (byte_val b3), 4%nat)
    | _ => inl None
    end
  else if size =? 127 then
    if (length input <? 10)%nat then inl None
    else
      match drop 2 input with
      | b2 :: _ =>
          if negb (Z.land (byte_val b2) 128 =? 0)
          then inl (Some (1002, bs "Invalid 64-bit payload length"))
          else
            inr (be_fold 0 (take 8 (drop 2 input)), 10%nat)
      | [] => inl None
      end
  else inr (size, 2%nat).

(** Unmasking: payload byte [i] is xored with mask byte [i mod 4]. *)
Fixpoint unmask (mask : bytes) (i : nat) (payload : bytes) : bytes :=
  match payload with
  | [] => []
  | b :: r =>
      byte_of_Z (Z.lxor (byte_val b) (byte_val (nth (i mod 4) mask zero))) :: unmask mask (S i) r
  end.

Definition parse_frame (limits : Limits) (input : bytes) : Parsed :=
  match input with
  | b0 :: b1 :: _ =>
      let first := byte_val b0 in
      let second := byte_val b1 in
      let fin := negb (Z.land first 128 =? 0) in
      if negb (Z.land first 112 =? 0) then Malformed 1002 (bs "RSV bits require an extension")
      else
        let opcode_v := Z.land first 15 in
        if negb (is_valid_opcode opcode_v) then Malformed 1002 (bs "Unsupported opcode")
        else
          let opcode := opcode_of_value opcode_v in
          if Z.land second 128 =? 0 then Malformed 1002 (bs "Client frames must be masked")
          else
            match parse_length second input with
            | inl None => NeedMore
            | inl (Some (code, reason)) => Malformed code reason
            | inr (payload_size, hsize) =>
                if (max_message_bytes limits <? payload_size) || (u64_max <? payload_size)
                then Malformed 1009 (bs "Message too large")
                else if is_control opcode && (negb fin || (125 <? payload_size))
                then Malformed 1002 (bs "Invalid control frame")
                else
                  let total := (hsize + 4 + Z.to_nat payload_size)%nat in
                  if (length input <? total)%nat then NeedMore
                  else
                    let mask := take 4 (drop hsize input) in
                    let masked := take (Z.to_nat payload_size) (drop (hsize + 4) input) in
                    Frame fin opcode (unmask mask 0 masked) total
            end
  | _ => NeedMore
  end.

(** How the parse loop of [feed] ends. *)
Inductive LoopEnd :=
| LoopBreak                        (** leave the loop, then erase what was read *)
| LoopReturn (e : ProtocolError)   (** a malformed frame: return at once *)
| LoopFail (e : ProtocolError).    (** [process_frame] failed: erase, return *)

Fixpoint feed_loop (fuel : nat) (offset : nat) (c : Connection) : nat * LoopEnd * Connection :=
  match fuel with
  | O => (offset, LoopBreak, c)
  | S fuel' =>
      match parse_frame (c_limits c) (drop offset (input_ c)) with
      | NeedMore => (offset, LoopBreak, c)
      | Malformed code reason =>
          let '(_, c') := fail_with code reason c in
          (offset, LoopReturn (mkProtocolError code reason), c')
      | Frame fin opcode payload total =>
          match process_frame fin opcode payload c with
          | (inl e, c') => ((offset + total)%nat, LoopFail e, c')
          | (inr _, c') =>
              if closed_ c' then ((offset + total)%nat, LoopBreak, c')
              else feed_loop fuel' (offset + total)%nat c'
          end
      end
  end.

Definition feed (data : bytes) (c : Connection) : result ProtocolError unit * Connection :=
  if closed_ c then (inr tt, c)
  else
    let c := with_input (input_ c ++ data) c in
    match feed_loop (S (length (input_ c))) 0 c with
    | (offset, LoopBreak, c') => (inr tt, with_input (drop offset (input_ c')) c')
    | (offset, LoopFail e, c') => (inl e, with_input (drop offset (input_ c')) c')
    | (_, LoopReturn e, c') => (inl e, c')
    end.

Definition connection_take_outbound (c : Connection) : bytes * Connection :=
  let '(o, s) := take_outbound (session_ c) in (o, with_session s c).

Definition run_command (s : Session) (q : QueuedCommand) : Session :=
  match q_kind q with
  | QText => snd (send_text (q_payload q) s)
  | QBinary => snd (send_binary (q_payload q) s)
  | QClose => snd (session_close (q_code q) (q_reason q) s)
  end.

Definition drain_external_outbound (c : Connection) : bytes * Connection :=
  match shared_ (session_ c) with
  | None => ([], c)
  | Some h =>
      let '(commands, h') := take_commands h in
      let s := foldl run_command (set_shared (Some h') (session_ c)) commands in
      connection_take_outbound (with_session s c)
  end.
