(* ===== verification/WsFrames.v ===== *)
(** * Frames: parsing and writing are inverse

    A reference client encoder (RFC 6455 section 5.2, masked) against
    [parse_frame], and a reference client decoder against what [append_frame]
    writes. *)

From S2P Require Import Prelude CxxString WebSocket.

(** ** Big-endian numbers *)

Lemma be_bytes_length n v : length (be_bytes n v) = n.
Proof. induction n as [|n IH]; cbn; [done|]. by rewrite IH. Qed.

Lemma be_byte_val v k : 0 <= k -> byte_val (byte_of_Z (Z.land (Z.shiftr v k) 255)) = v / 2 ^ k mod 256.
Proof.
  intros Hk. rewrite val_of_byte. change 255 with (Z.ones 8). rewrite Z.land_ones by lia.
  rewrite Z.shiftr_div_pow2 by lia. change (2 ^ 8) with 256. apply Z.mod_mod. lia.
Qed.

(** Only the low bytes are written. *)
Lemma be_bytes_mod n v : be_bytes n v = be_bytes n (v mod 256 ^ Z.of_nat n).
Proof.
  replace (256 ^ Z.of_nat n) with (2 ^ (8 * Z.of_nat n))
    by (change 256 with (2 ^ 8); by rewrite <- Z.pow_mul_r by lia).
  cut (forall m, (m <= n)%nat -> be_bytes m v = be_bytes m (v mod 2 ^ (8 * Z.of_nat n))); [auto|].
  induction m as [|m IH]; intros Hm; cbn; [done|]. f_equal; [|apply IH; lia].
  f_equal. change 255 with (Z.ones 8). rewrite !Z.land_ones by lia. rewrite !Z.shiftr_div_pow2 by lia.
  apply Z.bits_inj'. intros i Hi.
  destruct (Z.lt_ge_cases i 8); [|rewrite !Z.mod_pow2_bits_high by lia; done].
  rewrite !Z.mod_pow2_bits_low by lia. rewrite !Z.div_pow2_bits by lia.
  by rewrite Z.mod_pow2_bits_low by lia.
Qed.

Lemma be_fold_bytes n v acc : 0 <= v < 256 ^ Z.of_nat n ->
  be_fold acc (be_bytes n v) = (if (n =? 0)%nat then acc else wrap64 (acc * 256 ^ Z.of_nat n + v)).
Proof.
  revert v acc. induction n as [|n IH]; intros v acc Hv; [done|].
  cbn [be_bytes be_fold foldl]. change (foldl _ ?a ?l) with (be_fold a l).
  rewrite be_byte_val by lia.
  replace (2 ^ (8 * Z.of_nat n)) with (256 ^ Z.of_nat n) by (change 256 with (2 ^ 8); by rewrite <- Z.pow_mul_r by lia).
  rewrite Nat2Z.inj_succ, Z.pow_succ_r in Hv by lia.
  set (p := 256 ^ Z.of_nat n) in *. assert (0 < p) as Hp by (unfold p; apply Z.pow_pos_nonneg; lia).
  assert (0 <= v / p < 256) as Hq by (split; [apply Z.div_pos; lia|apply Z.div_lt_upper_bound; lia]).
  rewrite (Z.mod_small (v / p)) by lia. rewrite (lor_shiftl 8) by (change (2 ^ 8) with 256; lia).
  change (2 ^ 8) with 256.
  rewrite be_bytes_mod, IH by (apply Z.mod_pos_bound; lia).
  cbn [Nat.eqb]. destruct n as [|n'].
  - cbn in p. subst p. by rewrite Z.div_1_r.
  - cbn [Nat.eqb]. unfold wrap64. rewrite (Nat2Z.inj_succ (S n')), Z.pow_succ_r by lia.
    change (256 ^ Z.of_nat (S n')) with p.
    rewrite <- (Z.add_mod_idemp_l (_ * p)) by lia. rewrite Z.mul_mod_idemp_l by lia.
    rewrite Z.add_mod_idemp_l by lia. f_equal.
    pose proof (Z.div_mod v p ltac:(lia)). lia.
Qed.

Lemma be_fold_8 v : in_u64 v -> be_fold 0 (be_bytes 8 v) = v.
Proof.
  intros Hv. rewrite be_fold_bytes; [cbn [Nat.eqb]|exact Hv].
  rewrite Z.mul_0_l, Z.add_0_l. by apply wrap64_small.
Qed.

(** ** Masks *)

Lemma unmask_involutive mask i p : unmask mask i (unmask mask i p) = p.
Proof.
  revert i. induction p as [|b p IH]; intros i; cbn; [done|]. rewrite IH. f_equal.
  set (m := nth (i mod 4) mask zero).
  assert (forall a m, bool_decide (byte_of_Z (Z.lxor (byte_val (byte_of_Z (Z.lxor (byte_val a) (byte_val m)))) (byte_val m)) = a) = true) as H.
  { apply byte_forall2. vm_compute. reflexivity. }
  specialize (H b m). by apply bool_decide_eq_true in H.
Qed.

Lemma unmask_length mask i p : length (unmask mask i p) = length p.
Proof. revert i. induction p as [|b p IH]; intros i; cbn; [done|]. by rewrite IH. Qed.

(** ** The reference client *)

(** The length field of a frame, with the mask bit in the high bit. *)
Definition length_field (mask_bit size : Z) : bytes :=
  if size <=? 125 then [byte_of_Z (mask_bit + size)]
  else if size <=? 65535 then byte_of_Z (mask_bit + 126) :: be_bytes 2 size
  else byte_of_Z (mask_bit + 127) :: be_bytes 8 size.

Definition client_frame (fin : bool) (o : Opcode) (mask payload : bytes) : bytes :=
  byte_of_Z ((if fin then 128 else 0) + opcode_value o) ::
  length_field 128 (len payload) ++ mask ++ unmask mask 0 payload.

Lemma first_byte (fin : bool) o : let v := byte_val (byte_of_Z ((if fin then 128 else 0) + opcode_value o)) in
  negb (Z.land v 112 =? 0) = false /\ negb (is_valid_opcode (Z.land v 15)) = false /\
  opcode_of_value (Z.land v 15) = o /\ negb (Z.land v 128 =? 0) = fin.
Proof. by destruct fin, o. Qed.

Lemma second_byte x : 0 <= x < 128 ->
  let v := byte_val (byte_of_Z (128 + x)) in (Z.land v 128 =? 0) = false /\ Z.land v 127 = x.
Proof.
  intros Hx. cbn. rewrite val_of_byte_small by lia.
  assert (forall b, implb (128 <=? byte_val b) (negb (Z.land (byte_val b) 128 =? 0) &&
            (Z.land (byte_val b) 127 =? byte_val b - 128)) = true) as H
    by (apply byte_forall; vm_compute; reflexivity).
  specialize (H (byte_of_Z (128 + x))). rewrite val_of_byte_small in H by lia.
  rewrite (proj2 (Z.leb_le _ _)) in H by lia. cbn in H. to_prop. split; [by apply Z.eqb_neq|lia].
Qed.

Definition length_field_size (size : Z) : nat :=
  if size <=? 125 then 1%nat else if size <=? 65535 then 3%nat else 9%nat.

Lemma length_field_length m size : length (length_field m size) = length_field_size size.
Proof. unfold length_field, length_field_size. by repeat case_goal. Qed.

Lemma be_bytes_2_cons v : 0 <= v < 65536 ->
  exists a b, be_bytes 2 v = [a; b] /\ Z.lor (Z.shiftl (byte_val a) 8) (byte_val b) = v.
Proof.
  intros Hv. eexists _, _. split; [reflexivity|]. rewrite !be_byte_val by lia.
  rewrite lor_shiftl by (change (2 ^ 8) with 256; dm_lia). cbn [Z.of_nat Z.mul].
  change (2 ^ (8 * Z.of_nat 1)) with 256. change (2 ^ 8) with 256. change (2 ^ (8 * Z.of_nat 0)) with 1. dm_lia.
Qed.

Lemma be_bytes_8_high v : 0 <= v < 2 ^ 63 ->
  exists b r, be_bytes 8 v = b :: r /\ Z.land (byte_val b) 128 = 0.
Proof.
  intros Hv. eexists _, _. split; [reflexivity|]. rewrite be_byte_val by lia.
  change (2 ^ (8 * Z.of_nat 7)) with (2 ^ 56).
  assert (0 <= v / 2 ^ 56 < 128) as H.
  { split; [apply Z.div_pos; lia|]. apply Z.div_lt_upper_bound; [lia|]. change (2 ^ 56 * 128) with (2 ^ 63). lia. }
  rewrite Z.mod_small by lia. set (x := v / 2 ^ 56) in *. clearbody x.
  assert (forall b, implb (byte_val b <? 128) (Z.land (byte_val b) 128 =? 0) = true) as E
    by (apply byte_forall; vm_compute; reflexivity).
  specialize (E (byte_of_Z x)). rewrite val_of_byte_small in E by lia.
  rewrite (proj2 (Z.ltb_lt _ _)) in E by lia. cbn in E. by to_prop.
Qed.

(** The parser reads the length field of the reference client. *)
Lemma parse_length_field b0 size rest : 0 <= size < 2 ^ 63 ->
  exists b1 tl, length_field 128 size = b1 :: tl /\
    (Z.land (byte_val b1) 128 =? 0) = false /\
    parse_length (byte_val b1) (b0 :: length_field 128 size ++ rest) =
      inr (size, S (length_field_size size)).
Proof.
  intros Hs. unfold length_field, length_field_size, parse_length.
  destruct (size <=? 125) eqn:E1; [|destruct (size <=? 65535) eqn:E2]; to_prop.
  - eexists _, _. split; [reflexivity|]. destruct (second_byte size ltac:(lia)) as [H1 H2].
    split; [done|]. rewrite H2. rewrite !(proj2 (Z.eqb_neq _ _)) by lia. done.
  - destruct (be_bytes_2_cons size ltac:(lia)) as (a & b & E & Hv). rewrite E.
    eexists _, _. split; [reflexivity|]. destruct (second_byte 126 ltac:(lia)) as [H1 H2].
    split; [done|]. rewrite H2. cbn [Z.eqb app]. by rewrite Hv.
  - eexists _, _. split; [reflexivity|]. destruct (second_byte 127 ltac:(lia)) as [H1 H2].
    split; [done|]. rewrite H2. change (127 =? 126) with false. change (127 =? 127) with true. cbn iota.
    destruct (be_bytes_8_high size ltac:(lia)) as (b & r & E & Hb).
    assert (length (b0 :: (byte_of_Z (128 + 127) :: be_bytes 8 size) ++ rest) <? 10 = false)%nat as ->.
    { apply Nat.ltb_ge. cbn [length app]. rewrite length_app, be_bytes_length. lia. }
    cbn [app drop]. rewrite drop_0.
    assert (take 8 (be_bytes 8 size ++ rest) = be_bytes 8 size) as ->
      by (rewrite take_app_le by (rewrite be_bytes_length; lia); apply take_ge; rewrite be_bytes_length; lia).
    rewrite be_fold_8 by (unfold in_u64; lia). rewrite E. cbn [app]. by rewrite Hb.
Qed.

Lemma frame_lengths fin o mask payload rest : length mask = 4%nat ->
  let input := client_frame fin o mask payload ++ rest in
  let h := S (length_field_size (len payload)) in
  take 4 (drop h input) = mask /\
  take (length payload) (drop (h + 4) input) = unmask mask 0 payload /\
  length (client_frame fin o mask payload) = (h + 4 + length payload)%nat.
Proof.
  intros Hm input h. unfold input, client_frame, h.
  assert (forall n, drop (S (length_field_size (len payload)) + n)
            ((byte_of_Z ((if fin then 128 else 0) + opcode_value o) ::
              length_field 128 (len payload) ++ mask ++ unmask mask 0 payload) ++ rest) =
          drop n (mask ++ unmask mask 0 payload ++ rest)) as Hd.
  { intros n. cbn [Nat.add app drop]. rewrite <- (length_field_length 128).
    rewrite <- !app_assoc, <- drop_drop, drop_app_length. done. }
  split_and!.
  - specialize (Hd 0%nat). rewrite Nat.add_0_r in Hd. rewrite Hd, drop_0, <- Hm. apply take_app_length.
  - rewrite Hd, <- Hm, drop_app_length, <- (unmask_length mask 0 payload). apply take_app_length.
  - cbn [length]. rewrite !length_app, length_field_length, unmask_length. lia.
Qed.

Lemma parse_client_frame limits fin o mask payload rest :
  length mask = 4%nat -> len payload < 2 ^ 63 -> len payload <= max_message_bytes limits ->
  (is_control o = true -> fin = true /\ len payload <= 125) ->
  parse_frame limits (client_frame fin o mask payload ++ rest) =
  Frame fin o payload (length (client_frame fin o mask payload)).
Proof.
  intros Hm Hs Hmax Hc. pose proof (len_nonneg payload) as Hn.
  destruct (frame_lengths fin o mask payload rest Hm) as (L1 & L2 & L3).
  destruct (parse_length_field (byte_of_Z ((if fin then 128 else 0) + opcode_value o)) (len payload)
              ((mask ++ unmask mask 0 payload) ++ rest) ltac:(lia)) as (b1 & tl & E & M & P).
  destruct (first_byte fin o) as (F1 & F2 & F3 & F4).
  set (input := client_frame fin o mask payload ++ rest) in *.
  assert (input = byte_of_Z ((if fin then 128 else 0) + opcode_value o) ::
            length_field 128 (len payload) ++ ((mask ++ unmask mask 0 payload) ++ rest)) as Ei
    by (unfold input, client_frame; cbn [app]; by rewrite <- app_assoc).
  rewrite <- Ei in P. unfold parse_frame.
  destruct input as [|x0 [|x1 xs]] eqn:Ex; [done|by rewrite E in Ei|].
  assert (x0 = byte_of_Z ((if fin then 128 else 0) + opcode_value o) /\ x1 = b1) as [-> ->]
    by (rewrite E in Ei; by injection Ei).
  rewrite F1, F2, F3, F4, M, P.
  assert ((max_message_bytes limits <? len payload) || (u64_max <? len payload) = false) as ->
    by (apply orb_false_iff; unfold u64_max; split; apply Z.ltb_ge; lia).
  assert (is_control o && (negb fin || (125 <? len payload)) = false) as ->.
  { destruct (is_control o); [|done]. destruct (Hc eq_refl) as [-> H]. cbn. by apply Z.ltb_ge. }
  replace (Z.to_nat (len payload)) with (length payload) by (unfold len; lia).
  rewrite <- Ex in *. rewrite <- L3.
  assert ((length input <? length (client_frame fin o mask payload))%nat = false) as ->
    by (apply Nat.ltb_ge; rewrite Ex; unfold input in Ex; rewrite <- Ex, length_app; lia).
  rewrite L1, L2, unmask_involutive. done.
Qed.

(** Client frames read back: the parser applied to any frame
    a client encodes (any opcode, fragmented or not, any of the three length
    forms, any mask), followed by any further bytes, returns that frame's
    flags, opcode and unmasked payload and consumes exactly the frame. *)
Theorem parse_frame_roundtrip limits fin o mask payload rest
  (Hmask : length mask = 4%nat) (Hsize : len payload < 2 ^ 63)
  (Hmax : len payload <= max_message_bytes limits)
  (Hctl : is_control o = true -> fin = true /\ len payload <= 125) :
  parse_frame limits (client_frame fin o mask payload ++ rest) =
  Frame fin o payload (length (client_frame fin o mask payload)).
Proof. by apply parse_client_frame. Qed.

Lemma parse_frame_roundtrip_witness :
  parse_frame default_limits
    (client_frame true Text (bs "mask") (bs "hello") ++ bs "next") =
  Frame true Text (bs "hello") (length (client_frame true Text (bs "mask") (bs "hello"))).
Proof.
  apply (parse_frame_roundtrip default_limits true Text (bs "mask") (bs "hello") (bs "next"));
    [reflexivity|vm_compute; reflexivity|vm_compute; discriminate|].
  intros H. discriminate H.
Defined.

(** * UTF-8 validation is exact

    [valid_utf8] of [websocket.cpp] against the encoding of RFC 3629: it
    accepts the concatenations of encoded Unicode scalar values and nothing
    else. *)


(** A Unicode scalar value: a code point that is not a surrogate. *)
Definition scalar (cp : Z) : Prop := 0 <= cp <= 1114111 /\ ~ (55296 <= cp <= 57343).

Definition utf8_encode (cp : Z) : bytes :=
  if cp <? 128 then [byte_of_Z cp]
  else if cp <? 2048 then [byte_of_Z (192 + cp / 64); byte_of_Z (128 + cp mod 64)]
  else if cp <? 65536 then
    [byte_of_Z (224 + cp / 4096); byte_of_Z (128 + cp / 64 mod 64); byte_of_Z (128 + cp mod 64)]
  else
    [byte_of_Z (240 + cp / 262144); byte_of_Z (128 + cp / 4096 mod 64);
     byte_of_Z (128 + cp / 64 mod 64); byte_of_Z (128 + cp mod 64)].

(** ** The bit tests as ranges *)

Definition lead_range (v : Z) : option (nat * Z) :=
  if (192 <=? v) && (v <=? 223) then Some (1%nat, v - 192)
  else if (224 <=? v) && (v <=? 239) then Some (2%nat, v - 224)
  else if (240 <=? v) && (v <=? 247) then Some (3%nat, v - 240)
  else None.

Lemma utf8_lead_range b : utf8_lead (byte_val b) = lead_range (byte_val b).
Proof.
  assert (bool_decide (utf8_lead (byte_val b) = lead_range (byte_val b)) = true) as H.
  { revert b. apply byte_forall. vm_compute. reflexivity. }
  by apply bool_decide_eq_true in H.
Qed.

Lemma continuation_range b :
  negb (Z.land (byte_val b) 192 =? 128) = negb ((128 <=? byte_val b) && (byte_val b <=? 191)) /\
  ((128 <=? byte_val b) && (byte_val b <=? 191) = true ->
   Z.land (byte_val b) 63 = byte_val b - 128).
Proof.
  assert (bool_decide (negb (Z.land (byte_val b) 192 =? 128) =
            negb ((128 <=? byte_val b) && (byte_val b <=? 191))) = true /\
          implb ((128 <=? byte_val b) && (byte_val b <=? 191))
            (Z.land (byte_val b) 63 =? byte_val b - 128) = true) as [H1 H2].
  { split; revert b; apply byte_forall; vm_compute; reflexivity. }
  apply bool_decide_eq_true in H1. split; [done|]. intros H. rewrite H in H2. cbn in H2. by to_prop.
Qed.

(** A continuation byte accepted by the loop. *)
Lemma utf8_continue_cons v c r w :
  utf8_continue v (c :: r) = Some w <->
  128 <= byte_val c <= 191 /\ utf8_continue (v * 64 + (byte_val c - 128)) r = Some w.
Proof.
  cbn. destruct (continuation_range c) as [E1 E2]. rewrite E1.
  destruct ((128 <=? byte_val c) && (byte_val c <=? 191)) eqn:E; cbn.
  - rewrite E2, lor_shiftl by (done || to_prop; lia). change (2 ^ 6) with 64. to_prop. split; [auto|by intros []].
  - split; [done|]. intros [H _]. apply andb_false_iff in E as [E|E]; to_prop; lia.
Qed.

Lemma byte_of_Z_val z b : byte_val b = z -> byte_of_Z z = b.
Proof. intros <-. apply byte_of_val. Qed.

(** ** One step of the validation *)

(** What the loop has read when it accepts a multi-byte character. *)
Definition multibyte (count : nat) (c : byte) (r : bytes) (cp : Z) : Prop :=
  exists v, lead_range (byte_val c) = Some (count, v) /\
    (count < length (c :: r))%nat /\
    utf8_continue v (take count r) = Some cp /\ utf8_bad_value count cp = false.

Lemma valid_step f c r : 127 < byte_val c ->
  valid_utf8_fuel (S f) (c :: r) = true <->
  exists count cp, multibyte count c r cp /\ valid_utf8_fuel f (drop count r) = true.
Proof.
  intros Hc. cbn [valid_utf8_fuel]. rewrite (proj2 (Z.leb_gt _ _)) by lia.
  rewrite utf8_lead_range. unfold multibyte.
  destruct (lead_range (byte_val c)) as [[count v]|] eqn:L.
  - destruct (length (c :: r) <=? count)%nat eqn:E.
    + split; [done|]. intros (k & cp & (w & [= <- <-] & H & _) & _). apply Nat.leb_le in E. lia.
    + apply Nat.leb_gt in E. destruct (utf8_continue v (take count r)) as [cp|] eqn:U.
      * destruct (utf8_bad_value count cp) eqn:B.
        -- split; [done|]. intros (k & cp' & (w & [= <- <-] & _ & U' & B') & _). congruence.
        -- split; [intros H; exists count, cp; split; [exists v|]; done|].
           by intros (k & cp' & (w & [= <- <-] & _) & Hv).
      * split; [done|]. intros (k & cp' & (w & [= <- <-] & _ & U' & _) & _). congruence.
  - split; [done|]. by intros (k & cp & (w & [=] & _) & _).
Qed.

Ltac split_cons r :=
  let x := fresh "c" in destruct r as [|x r]; [cbn in *; lia|].

(** An accepted multi-byte character is the encoding of a scalar value. *)
Lemma multibyte_encode count c r cp : multibyte count c r cp ->
  scalar cp /\ c :: take count r = utf8_encode cp /\ 128 <= cp.
Proof.
  intros (v & L & Hl & U & B). unfold lead_range in L. unfold utf8_bad_value in B.
  pose proof (byte_val_range c). unfold scalar, utf8_encode.
  destruct ((192 <=? byte_val c) && (byte_val c <=? 223)) eqn:E1;
  [|destruct ((224 <=? byte_val c) && (byte_val c <=? 239)) eqn:E2;
  [|destruct ((240 <=? byte_val c) && (byte_val c <=? 247)) eqn:E3; [|done]]];
  injection L as <- <-; cbn in B; to_prop;
  match goal with S : (55296 <=? _) && _ = false |- _ => rename S into Hsur end.
  - split_cons r. cbn [take] in *. rewrite take_0 in *.
    rewrite utf8_continue_cons in U. destruct U as [U1 [= <-]].
    apply andb_false_iff in Hsur. rewrite (proj2 (Z.ltb_ge _ 128)), (proj2 (Z.ltb_lt _ 2048)) by lia.
    split; [split; [lia|destruct Hsur; to_prop; lia]|split; [|lia]].
    repeat f_equal; symmetry; apply byte_of_Z_val; dm_lia.
  - split_cons r. split_cons r. cbn [take] in *. rewrite take_0 in *.
    rewrite !utf8_continue_cons in U. destruct U as (U1 & U2 & [= <-]).
    apply andb_false_iff in Hsur.
    rewrite (proj2 (Z.ltb_ge _ 128)), (proj2 (Z.ltb_ge _ 2048)), (proj2 (Z.ltb_lt _ 65536)) by lia.
    split; [split; [lia|destruct Hsur; to_prop; lia]|split; [|lia]].
    repeat f_equal; symmetry; apply byte_of_Z_val; dm_lia.
  - split_cons r. split_cons r. split_cons r. cbn [take] in *. rewrite take_0 in *.
    rewrite !utf8_continue_cons in U. destruct U as (U1 & U2 & U3 & [= <-]).
    apply andb_false_iff in Hsur.
    rewrite (proj2 (Z.ltb_ge _ 128)), (proj2 (Z.ltb_ge _ 2048)), (proj2 (Z.ltb_ge _ 65536)) by lia.
    split; [split; [lia|destruct Hsur; to_prop; lia]|split; [|lia]].
    repeat f_equal; symmetry; apply byte_of_Z_val; dm_lia.
Qed.

Ltac byte_values := repeat rewrite val_of_byte_small by dm_lia.

(** Decides the range tests of [lead_range] and [utf8_bad_value]. *)
Ltac decide_tests :=
  repeat match goal with
  | |- context [?a <=? ?b] =>
      first [rewrite (proj2 (Z.leb_le a b)) by dm_lia | rewrite (proj2 (Z.leb_gt a b)) by dm_lia]
  | |- context [?a <? ?b] =>
      first [rewrite (proj2 (Z.ltb_lt a b)) by dm_lia | rewrite (proj2 (Z.ltb_ge a b)) by dm_lia]
  end.

Lemma bad_value_scalar count cp : scalar cp ->
  (count = 1%nat /\ 128 <= cp \/ count = 2%nat /\ 2048 <= cp \/ count = 3%nat /\ 65536 <= cp) ->
  utf8_bad_value count cp = false.
Proof.
  unfold scalar, utf8_bad_value. intros [H1 H2] H3.
  assert ((55296 <=? cp) && (cp <=? 57343) = false) as ->.
  { apply andb_false_iff. destruct (Z.leb_spec 55296 cp); [right; apply Z.leb_gt; lia|by left]. }
  destruct H3 as [[-> H]|[[-> H]|[-> H]]]; cbn; by decide_tests.
Qed.

(** The encoding of a non-ASCII scalar value is accepted. *)
Lemma encode_multibyte cp : scalar cp -> 128 <= cp ->
  exists c r0, utf8_encode cp = c :: r0 /\ 127 < byte_val c /\
    forall rest, multibyte (length r0) c (r0 ++ rest) cp.
Proof.
  intros Hs Hc. pose proof Hs as [Hr _]. unfold utf8_encode, multibyte, lead_range.
  destruct (cp <? 128) eqn:E0; [to_prop; lia|].
  destruct (cp <? 2048) eqn:E1; [|destruct (cp <? 65536) eqn:E2]; to_prop;
  eexists _, _; (split; [reflexivity|]); (split; [byte_values; dm_lia|]); intros rest; byte_values;
  decide_tests; eexists; (split; [reflexivity|]); (split; [cbn; lia|]).
  - split; [|by apply bad_value_scalar; [done|tauto]]. cbn [take length app]. rewrite take_0.
    rewrite utf8_continue_cons. byte_values. split_and!; try dm_lia. cbn. f_equal. dm_lia.
  - split; [|by apply bad_value_scalar; [done|tauto]]. cbn [take length app]. rewrite take_0.
    rewrite !utf8_continue_cons. byte_values. split_and!; try dm_lia. cbn. f_equal. dm_lia.
  - split; [|by apply bad_value_scalar; [done|tauto]]. cbn [take length app]. rewrite take_0.
    rewrite !utf8_continue_cons. byte_values. split_and!; try dm_lia. cbn. f_equal. dm_lia.
Qed.

Definition encoded (s : bytes) : Prop :=
  exists cps, Forall scalar cps /\ s = concat (map utf8_encode cps).

Lemma valid_encoded f s : valid_utf8_fuel f s = true -> encoded s.
Proof.
  revert s. induction f as [|f IH]; intros s H; [done|].
  destruct s as [|c r]; [by exists []|].
  destruct (Z.leb_spec (byte_val c) 127) as [Hc|Hc].
  - cbn in H. rewrite (proj2 (Z.leb_le _ _)) in H by lia.
    destruct (IH r H) as (cps & H1 & ->). exists (byte_val c :: cps). cbn.
    pose proof (byte_val_range c). split; [constructor; [split; lia|done]|].
    unfold utf8_encode. rewrite (proj2 (Z.ltb_lt _ _)) by lia. cbn. by rewrite byte_of_val.
  - apply valid_step in H as (count & cp & M & V); [|lia].
    destruct (IH _ V) as (cps & H1 & H2). destruct (multibyte_encode _ _ _ _ M) as (S & E & _).
    exists (cp :: cps). cbn. split; [by constructor|]. rewrite <- E, <- H2. cbn. by rewrite take_drop.
Qed.

Lemma encoded_valid cps f : Forall scalar cps -> (length cps < f)%nat ->
  valid_utf8_fuel f (concat (map utf8_encode cps)) = true.
Proof.
  intros H. revert f. induction H as [|cp cps Hc _ IH]; intros [|f] Hf; cbn in Hf; try lia; [done|].
  cbn [map concat]. destruct (Z.ltb_spec cp 128) as [L|L].
  - unfold utf8_encode at 1. rewrite (proj2 (Z.ltb_lt _ _)) by done. cbn [app valid_utf8_fuel].
    destruct Hc as [Hc _]. rewrite val_of_byte_small by lia. rewrite (proj2 (Z.leb_le _ _)) by lia.
    apply IH. lia.
  - destruct (encode_multibyte cp Hc L) as (c & r0 & E & Hb & M). rewrite E. cbn [app].
    apply valid_step; [done|]. exists (length r0), cp. split; [apply M|].
    rewrite drop_app_length. apply IH. lia.
Qed.

Lemma utf8_encode_nonempty cp : (1 <= length (utf8_encode cp))%nat.
Proof. unfold utf8_encode. repeat case_goal; cbn; lia. Qed.

Lemma valid_utf8_encoded s : valid_utf8 s = true <-> encoded s.
Proof.
  split; [apply valid_encoded|]. intros (cps & H & ->). apply encoded_valid; [done|].
  clear H. induction cps as [|cp cps IH]; cbn; [lia|]. rewrite length_app.
  pose proof (utf8_encode_nonempty cp). lia.
Qed.

(** The UTF-8 check of text messages and close reasons is exact:
    [valid_utf8] accepts a byte string if and only if it is the concatenation
    of the RFC 3629 encodings of Unicode scalar values (no overlong form, no
    surrogate, nothing above U+10FFFF). *)
Theorem valid_utf8_correct s :
  valid_utf8 s = true <->
  exists cps, Forall scalar cps /\ s = concat (map utf8_encode cps).
Proof. apply valid_utf8_encoded. Qed.
