(* ===== verification/WsSession.v ===== *)
(** * Sending: the session, its queue and the transport budget

    What [Session::send_frame] and [Session::close] do on every branch, the
    bound they keep on the outbound buffer, and the invariant of the
    [SharedSession] queue under any interleaving of its critical sections. *)

From S2P Require Import Prelude CxxString WebSocket WsFrames.

(** ** Frames written by the server *)

Definition server_frame (o : Opcode) (payload : bytes) : bytes :=
  byte_of_Z (128 + opcode_value o) :: length_field 0 (len payload) ++ payload.

Lemma frame_header_field o size : 0 <= size ->
  frame_header o size = byte_of_Z (128 + opcode_value o) :: length_field 0 size.
Proof.
  intros Hs. unfold frame_header, length_field.
  assert (Z.lor 128 (opcode_value o) = 128 + opcode_value o) as -> by (by destruct o).
  done.
Qed.

Lemma append_frame_outbound o p s :
  outbound_ (append_frame o p s) = outbound_ s ++ server_frame o p.
Proof. unfold append_frame, server_frame, set_outbound. cbn [outbound_]. by rewrite frame_header_field by apply len_nonneg. Qed.

Lemma server_frame_len o p : len (server_frame o p) = header_size (len p) + len p.
Proof.
  unfold server_frame, header_size. rewrite len_cons, len_app. unfold len at 1.
  rewrite length_field_length. unfold length_field_size. repeat case_goal; lia.
Qed.

(** A forced frame is always written: the nested [close] is not reached. *)
Lemma send_frame_forced close o p s :
  exists b, send_frame_with close o p true s = (true, append_frame o p (set_transport b s)) /\
    (transport_backpressure_ s = None -> b = None).
Proof.
  unfold send_frame_with. cbn [negb andb]. destruct (transport_backpressure_ s) as [b|] eqn:E.
  - by eexists.
  - exists None. split; [|done]. destruct s; cbn in *; by subst.
Qed.

Definition close_payload (code : Z) (reason : bytes) : bytes :=
  byte_of_Z (Z.land (Z.shiftr code 8) 255) :: byte_of_Z (Z.land code 255) :: take 123 reason.

Lemma truncate_reason (reason : bytes) : (if 123 <? len reason then take 123 reason else reason) = take 123 reason.
Proof.
  destruct (123 <? len reason) eqn:E; [done|]. to_prop. symmetry. apply take_ge. unfold len in E. lia.
Qed.

(** The first [close] writes one close frame, dropping the pending bytes only
    when the frame would not fit; later ones do nothing. *)
Lemma session_close_spec code reason s :
  if close_sent_ s then session_close code reason s = (false, s)
  else exists s', session_close code reason s = (true, s') /\
    close_sent_ s' = true /\ limits_ s' = limits_ s /\ principal_ s' = principal_ s /\
    overloaded_ s' = overloaded_ s /\ shared_ s' = (mark_closing <$> shared_ s) /\
    outbound_ s' =
      (if max_pending_send_bytes (limits_ s) <? len (outbound_ s) + 2 + len (close_payload code reason)
       then [] else outbound_ s) ++ server_frame Close (close_payload code reason).
Proof.
  unfold session_close. destruct (close_sent_ s) eqn:E; [done|].
  rewrite truncate_reason. fold (close_payload code reason).
  set (s0 := if _ <? _ then set_outbound [] s else s).
  destruct (send_frame_forced (fun _ _ s => s) Close (close_payload code reason) s0) as (b & -> & _).
  eexists. split; [reflexivity|]. cbn [snd]. unfold s0.
  split_and!; try (by destruct (_ <? _)).
Qed.

(** ** The bound on the outbound buffer *)

(** A close frame takes at most 127 bytes, so the buffer may exceed the limit
    only when the limit is smaller than that. *)
Definition outbound_bounded (s : Session) : Prop :=
  len (outbound_ s) <= Z.max (max_pending_send_bytes (limits_ s)) 127.

Lemma close_frame_small code reason : len (server_frame Close (close_payload code reason)) <= 127.
Proof.
  rewrite server_frame_len. unfold close_payload. rewrite !len_cons, len_take. unfold header_size.
  pose proof (len_nonneg reason). case_goal; to_prop; lia.
Qed.

Lemma close_frame_len code reason :
  len (server_frame Close (close_payload code reason)) = 2 + len (close_payload code reason).
Proof.
  rewrite server_frame_len. f_equal. unfold header_size.
  assert (len (close_payload code reason) <= 125); [|case_goal; to_prop; lia].
  unfold close_payload. rewrite !len_cons, len_take. lia.
Qed.

Lemma session_close_limits code reason s : limits_ (snd (session_close code reason s)) = limits_ s.
Proof.
  pose proof (session_close_spec code reason s) as H. destruct (close_sent_ s); [by rewrite H|].
  by destruct H as (s' & -> & _ & ? & _).
Qed.

Lemma session_close_bounded code reason s :
  outbound_bounded s -> outbound_bounded (snd (session_close code reason s)).
Proof.
  unfold outbound_bounded. rewrite session_close_limits. intros H.
  pose proof (session_close_spec code reason s) as S. destruct (close_sent_ s); [by rewrite S|].
  destruct S as (s' & -> & _ & _ & _ & _ & _ & E). cbn [snd]. rewrite E, len_app.
  pose proof (close_frame_small code reason). pose proof (close_frame_len code reason).
  case_goal; to_prop; rewrite ?len_nil; lia.
Qed.

(** Every branch of an unforced [send_frame]. *)
Lemma send_frame_spec o p s :
  match send_frame o p false s with
  | (true, s') =>
      outbound_ s' = outbound_ s ++ server_frame o p /\
      len (outbound_ s') <= max_pending_send_bytes (limits_ s) /\
      close_sent_ s' = close_sent_ s /\ limits_ s' = limits_ s /\ shared_ s' = shared_ s
  | (false, s') =>
      exists reason s0, outbound_ s0 = outbound_ s /\ limits_ s0 = limits_ s /\
        close_sent_ s0 = close_sent_ s /\ shared_ s0 = shared_ s /\ overloaded_ s0 = true /\
        s' = snd (session_close 1013 reason s0)
  end.
Proof.
  unfold send_frame, send_frame_with. cbn [negb andb].
  destruct (_ <? len (outbound_ s) + header_size (len p) + len p) eqn:E.
  - eexists _, (set_overloaded s). by split_and!.
  - to_prop. destruct (transport_backpressure_ s) as [b|].
    + destruct (try_reserve _ _ _) as [[] b'].
      * rewrite append_frame_outbound. cbn [outbound_ set_transport set_outbound].
        split_and!; try done. rewrite len_app, server_frame_len. lia.
      * eexists _, (set_overloaded (set_transport (Some b') s)). by split_and!.
    + rewrite append_frame_outbound. split_and!; try done. rewrite len_app, server_frame_len. lia.
Qed.

Lemma send_frame_bounded o p s : outbound_bounded s ->
  outbound_bounded (snd (send_frame o p false s)) /\
  limits_ (snd (send_frame o p false s)) = limits_ s.
Proof.
  intros H. pose proof (send_frame_spec o p s) as S.
  destruct (send_frame o p false s) as [[] s']; cbn [snd].
  - destruct S as (_ & S2 & _ & S3 & _). unfold outbound_bounded. rewrite S3. split; [lia|done].
  - destruct S as (r & s0 & S1 & S2 & _ & _ & _ & ->). rewrite session_close_limits. split; [|done].
    apply session_close_bounded. unfold outbound_bounded. by rewrite S1, S2.
Qed.

Lemma run_call_bounded c s : outbound_bounded s ->
  outbound_bounded (run_call s c) /\ limits_ (run_call s c) = limits_ s.
Proof.
  intros H. destruct c as [t|d|code reason]; cbn.
  - unfold send_text. destruct (close_sent_ s); [done|]. by apply send_frame_bounded.
  - unfold send_binary. destruct (close_sent_ s); [done|]. by apply send_frame_bounded.
  - split; [by apply session_close_bounded|apply session_close_limits].
Qed.

Lemma run_calls_bounded cs s : outbound_bounded s ->
  outbound_bounded (run_calls cs s) /\ limits_ (run_calls cs s) = limits_ s.
Proof.
  revert s. induction cs as [|c cs IH]; intros s H; [done|].
  destruct (run_call_bounded c s H) as [H1 H2]. destruct (IH (run_call s c) H1) as [H3 H4].
  split; [exact H3|]. etrans; [exact H4|exact H2].
Qed.

Lemma run_commands_bounded qs s : outbound_bounded s ->
  outbound_bounded (foldl run_command s qs) /\ limits_ (foldl run_command s qs) = limits_ s.
Proof.
  revert s. induction qs as [|q qs IH]; intros s H; [done|]. cbn.
  assert (exists c, run_command s q = run_call s c) as [c E].
  { destruct q as [[] p code reason]; [by exists (CallSendText p)|by exists (CallSendBinary p)|by exists (CallClose code reason)]. }
  rewrite E. destruct (run_call_bounded c s H) as [H1 H2]. destruct (IH _ H1) as [H3 H4].
  split; [done|]. by rewrite H4.
Qed.

(** Sending on every branch: an application frame that is accepted
    is appended to the outbound buffer in the RFC 6455 server form (FIN set,
    unmasked, shortest length form) and keeps the buffer within
    [max_pending_send_bytes]; a frame that is refused marks the session
    overloaded and leaves it closing, and if it was not closing before, the
    last thing in the buffer is the close frame with code 1013. *)
Theorem send_frame_functional o p s :
  match send_frame o p false s with
  | (true, s') =>
      outbound_ s' = outbound_ s ++ server_frame o p /\
      len (outbound_ s') <= max_pending_send_bytes (limits_ s) /\
      close_sent_ s' = close_sent_ s
  | (false, s') =>
      overloaded_ s' = true /\ close_sent_ s' = true /\
      (close_sent_ s = false -> exists kept reason,
         (kept = outbound_ s \/ kept = []) /\
         outbound_ s' = kept ++ server_frame Close (close_payload 1013 reason))
  end.
Proof.
  pose proof (send_frame_spec o p s) as S.
  destruct (send_frame o p false s) as [[] s']; [by destruct S as (? & ? & ? & _)|].
  destruct S as (r & s0 & S1 & S2 & S3 & S4 & S5 & ->).
  pose proof (session_close_spec 1013 r s0) as C. rewrite S3 in *.
  destruct (close_sent_ s) eqn:E.
  - rewrite C. cbn. split_and!; [done|congruence|done].
  - destruct C as (s' & -> & C1 & _ & _ & C2 & _ & C3). cbn. split_and!; [congruence|done|].
    intros _. eexists _, r. split; [|exact C3]. rewrite S1. case_goal; tauto.
Qed.

(** ** The [SharedSession] queue *)

Inductive SharedOp :=
| OpEnqueue (kind : QueuedKind) (payload : bytes)
| OpEnqueueClose (code : Z) (reason : bytes)
| OpMarkClosing
| OpDeactivate
| OpTake.

(** One critical section; text and binary are the kinds [enqueue] is called
    with. *)
Inductive shared_step (s : SharedSession) : SharedSession -> Prop :=
| sh_enqueue kind payload : kind <> QClose -> shared_step s (snd (enqueue kind payload s))
| sh_enqueue_close code reason : shared_step s (snd (enqueue_close code reason s))
| sh_mark_closing : shared_step s (mark_closing s)
| sh_deactivate : shared_step s (deactivate s)
| sh_take : shared_step s (snd (take_commands s)).

Definition command_cost (q : QueuedCommand) : Z :=
  match q_kind q with QClose => 0 | _ => len (q_payload q) + 10 end.

Definition queue_cost (qs : list QueuedCommand) : Z := foldr (fun q n => command_cost q + n) 0 qs.

Definition close_commands (qs : list QueuedCommand) : list QueuedCommand :=
  List.filter (fun q => match q_kind q with QClose => true | _ => false end) qs.

Record shared_inv (s : SharedSession) : Prop := {
  si_cost : sh_queued_bytes s = queue_cost (sh_queued s);
  si_bound : sh_queued_bytes s <= Z.max 0 (max_pending_send_bytes (sh_limits s));
  si_close : (length (close_commands (sh_queued s)) <= 1)%nat;
  si_open : sh_closing s = false -> close_commands (sh_queued s) = [];
  si_dead : sh_active s = false -> sh_queued s = [] /\ sh_closing s = true
}.

Lemma queue_cost_app a b : queue_cost (a ++ b) = queue_cost a + queue_cost b.
Proof. unfold queue_cost. induction a as [|q a IH]; cbn; [done|]. rewrite IH. lia. Qed.

Lemma close_commands_app a b : close_commands (a ++ b) = close_commands a ++ close_commands b.
Proof. apply List.filter_app. Qed.

#[global] Arguments queue_cost : simpl never.
#[global] Arguments close_commands : simpl never.

Lemma shared_step_inv s s' : shared_inv s -> shared_step s s' -> shared_inv s'.
Proof.
  destruct s as [i l a c n qs w].
  intros [H1 H2 H3 H4 H5] [kind payload Hk|code reason| | |]; cbn in H1, H2, H3, H4, H5.
  - unfold enqueue. destruct a; [|by split]. destruct c; [by split|]. cbn.
    assert (forall k, k <> QClose ->
      queue_cost [mkCommand k payload 1000 []] = len payload + 10 /\
      close_commands [mkCommand k payload 1000 []] = []) as Hq.
    { intros [] ?; [..|done]; split; try done; unfold queue_cost, command_cost; cbn; lia. }
    destruct (Hq kind Hk) as [Hq1 Hq2].
    destruct (_ <? _) eqn:E; to_prop; split; cbn; try done;
      rewrite ?queue_cost_app, ?close_commands_app, ?Hq1, ?Hq2, ?H4 by done; try done; cbn; lia.
  - unfold enqueue_close. destruct a; [|by split]. destruct c; [by split|].
    split; cbn; try done; rewrite ?queue_cost_app, ?close_commands_app, ?H4 by done; try done.
    rewrite H1. change (queue_cost [_]) with 0. lia.
  - split; cbn; try done. intros H. by destruct (H5 H).
  - split; cbn; try done; [lia|change (close_commands []) with (@nil QueuedCommand); cbn; lia].
  - split; cbn; try done; [lia|change (close_commands []) with (@nil QueuedCommand); cbn; lia|].
    intros H. by destruct (H5 H).
Qed.

(** The cross-thread queue is bounded under every interleaving of
    producers, the owner and shutdown: in every reachable state the byte
    counter equals the cost of the queued frames and never exceeds
    [max_pending_send_bytes], at most one close command is queued and none
    before closing, and an inactive session has an empty queue. *)
Theorem shared_session_invariant id limits wakeup s
  (Hreach : rtc shared_step (new_shared id limits wakeup) s) :
  sh_queued_bytes s = queue_cost (sh_queued s) /\
  sh_queued_bytes s <= Z.max 0 (max_pending_send_bytes (sh_limits s)) /\
  (length (close_commands (sh_queued s)) <= 1)%nat /\
  (sh_closing s = false -> close_commands (sh_queued s) = []) /\
  (sh_active s = false -> sh_queued s = [] /\ sh_closing s = true).
Proof.
  assert (shared_inv s) as [? ? ? ? ?]; [|by split_and!].
  revert Hreach. apply (rtc_ind_r (shared_inv) (new_shared id limits wakeup)).
  - split; cbn; try done; [lia|change (close_commands []) with (@nil QueuedCommand); cbn; lia].
  - intros x y _ Hxy Hx. by eapply shared_step_inv.
Qed.

Lemma shared_session_invariant_witness :
  let s1 := snd (enqueue QText (bs "hi") (new_shared 1 (mkLimits 100 15) true)) in
  let s2 := snd (enqueue QText (bs "there") s1) in
  (sh_closing s2 = true /\ length (sh_queued s2) = 1%nat) /\
  sh_queued_bytes s2 = queue_cost (sh_queued s2) /\
  sh_queued_bytes s2 <= Z.max 0 (max_pending_send_bytes (sh_limits s2)) /\
  (length (close_commands (sh_queued s2)) <= 1)%nat /\
  (sh_closing s2 = false -> close_commands (sh_queued s2) = []) /\
  (sh_active s2 = false -> sh_queued s2 = [] /\ sh_closing s2 = true).
Proof.
  intros s1 s2. split; [by vm_compute|].
  apply (shared_session_invariant 1 (mkLimits 100 15) true).
  apply (rtc_l _ _ s1); [by constructor|]. apply (rtc_l _ _ s2); [by constructor|]. apply rtc_refl.
Defined.

(** ** The transport budget *)

Record backpressure_inv (b : Backpressure) : Prop := {
  bi_max : in_u64 (bp_max b);
  bi_pending : 0 <= bp_pending b <= bp_max b
}.

(** Unforced reservations and releases keep the budget. *)
Lemma backpressure_step b n : in_u64 n -> backpressure_inv b ->
  backpressure_inv (release n b) /\
  match try_reserve n false b with
  | (true, b') => bp_pending b' = bp_pending b + n /\ backpressure_inv b'
  | (false, b') => b' = b /\ bp_max b < bp_pending b + n
  end.
Proof.
  unfold in_u64. intros Hn [[Hm1 Hm2] Hp]. unfold release, try_reserve. cbn [negb andb]. split.
  - split; cbn; [done|]. case_goal; to_prop; lia.
  - destruct (bp_max b <? n) eqn:E1; cbn [orb]; to_prop; [split; [done|lia]|].
    rewrite wrap64_small by (unfold in_u64; lia).
    destruct (bp_max b - n <? bp_pending b) eqn:E2; to_prop; [split; [done|lia]|].
    cbn. rewrite wrap64_small by (unfold in_u64; lia). split; [done|]. split; cbn; [done|lia].
Qed.
