(* ===== verification/WsFeed.v ===== *)
(** * Feeding a connection: chunking and the reachable states

    [Connection::feed] gets whatever the transport delivers.  This file shows
    that the result does not depend on how the byte stream is cut into
    chunks, and the invariant of the states a connection can reach. *)

From S2P Require Import Prelude CxxString WebSocket WsFrames WsSession.

#[global] Arguments parse_frame : simpl never.
#[global] Arguments process_frame : simpl never.
#[global] Arguments protocol_close : simpl never.
#[global] Arguments session_close : simpl never.
#[global] Arguments send_frame : simpl never.
#[global] Arguments run_calls : simpl never.
#[global] Arguments valid_utf8 : simpl never.
#[global] Arguments notify_close : simpl never.
#[global] Arguments deliver : simpl never.

(** ** The parser on a growing input *)

Lemma parse_length_app second i e :
  parse_length second i = inl None \/ parse_length second (i ++ e) = parse_length second i.
Proof.
  unfold parse_length. cbn zeta. case_goal.
  { destruct i as [|b0 [|b1 [|b2 [|b3 i]]]]; cbn; [by left..|by right]. }
  case_goal; [|by right]. destruct (length i <? 10)%nat eqn:E; [by left|right]. to_prop.
  rewrite length_app. replace (_ + _ <? _)%nat with false by (symmetry; apply Nat.ltb_ge; lia).
  rewrite drop_app_le, take_app_le by (rewrite ?length_drop; lia).
  destruct (drop 2 i) eqn:D; [|done]. apply (f_equal length) in D. rewrite length_drop in D. cbn in D. lia.
Qed.

(** A verdict on a prefix of the input is the verdict on the whole. *)
Lemma parse_frame_app l i e :
  parse_frame l i = NeedMore \/ parse_frame l (i ++ e) = parse_frame l i.
Proof.
  unfold parse_frame. destruct i as [|b0 [|b1 i]]; [by left|by left|].
  change ((b0 :: b1 :: i) ++ e) with (b0 :: b1 :: (i ++ e)) at 1. cbn iota.
  do 3 (case_goal; [by right|]).
  destruct (parse_length_app (byte_val b1) (b0 :: b1 :: i) e) as [H|H]; rewrite H; [by left|].
  clear H. destruct (parse_length _ _) as [[[]|]|[size h]]; [by right|by left|].
  do 2 (case_goal; [by right|]).
  destruct (length (b0 :: b1 :: i) <? h + 4 + Z.to_nat size)%nat eqn:E; [by left|right].
  to_prop. rewrite length_app.
  replace (_ + _ <? _)%nat with false by (symmetry; apply Nat.ltb_ge; lia).
  rewrite !drop_app_le, !take_app_le by (rewrite ?length_drop; lia). done.
Qed.

Lemma be_fold_nonneg acc s : 0 <= acc -> 0 <= be_fold acc s.
Proof.
  revert acc. induction s as [|b s IH]; intros acc H; [done|]. apply IH.
  unfold wrap64. apply Z.mod_pos_bound. lia.
Qed.

Lemma parse_length_range second i size h : parse_length second i = inr (size, h) ->
  0 <= size /\ (2 <= h <= 10)%nat.
Proof.
  unfold parse_length. cbn zeta. repeat case_goal; try done;
    (intros E; apply (inj inr), pair_equal_spec in E as [<- <-]; split; [|lia]).
  - apply Z.lor_nonneg. split; [apply Z.shiftl_nonneg|]; apply byte_val_range.
  - by apply be_fold_nonneg.
  - apply Z.land_nonneg. by right.
Qed.

(** A frame takes at least six bytes, all of them there, and its payload is
    within the message limit. *)
Lemma parse_frame_total l i fin o p total : parse_frame l i = Frame fin o p total ->
  (6 <= total <= length i)%nat /\ len p <= max_message_bytes l.
Proof.
  unfold parse_frame. destruct i as [|b0 [|b1 i]]; try done. cbn iota.
  repeat (case_goal; [done|]).
  destruct (parse_length _ _) as [[[]|]|[size h]] eqn:E; [done|done|].
  apply parse_length_range in E.
  do 3 (case_goal; [done|]). to_prop. intros [= _ _ <- <-]. split; [lia|].
  unfold len. rewrite unmask_length, length_take. lia.
Qed.

(** Waiting for more means the input is short. *)
Lemma parse_frame_waiting l i : parse_frame l i = NeedMore ->
  len i < Z.max 0 (max_message_bytes l) + 14.
Proof.
  unfold parse_frame. destruct i as [|b0 [|b1 i]]; [unfold len; cbn; lia..|]. cbn iota.
  repeat (case_goal; [done|]).
  destruct (parse_length _ _) as [[[]|]|[size h]] eqn:E; [done| |].
  - intros _. revert E. unfold parse_length, len. 
    repeat case_goal; intros; simplify_eq; to_prop; cbn in *; try lia.
    destruct i; cbn in *; try done; lia.
  - apply parse_length_range in E. do 2 (case_goal; [done|]).
    destruct (_ <? _)%nat eqn:F; [|done]. to_prop. intros _. unfold len. lia.
Qed.

(** ** The parse loop on the unread bytes *)

(** [feed_loop] with the unread suffix in place of the offset. *)
Fixpoint run (fuel : nat) (s : bytes) (c : Connection) : bytes * LoopEnd * Connection :=
  match fuel with
  | O => (s, LoopBreak, c)
  | S fuel' =>
      match parse_frame (c_limits c) s with
      | NeedMore => (s, LoopBreak, c)
      | Malformed code reason =>
          (s, LoopReturn (mkProtocolError code reason), protocol_close code reason c)
      | Frame fin opcode payload total =>
          match process_frame fin opcode payload c with
          | (inl e, c') => (drop total s, LoopFail e, c')
          | (inr _, c') =>
              if closed_ c' then (drop total s, LoopBreak, c') else run fuel' (drop total s) c'
          end
      end
  end.

(** Processing does not look at the input buffer. *)
Lemma notify_close_input i' i c : notify_close i' (with_input i c) = with_input i (notify_close i' c).
Proof. unfold notify_close. destruct c as [h s l i0 p o f cl n m lg]; cbn. by repeat case_goal. Qed.

Lemma protocol_close_input code reason i c :
  protocol_close code reason (with_input i c) = with_input i (protocol_close code reason c).
Proof.
  unfold protocol_close. cbn.
  case_goal; [apply (notify_close_input _ i (deactivate_session (with_closed c)))|].
  apply (notify_close_input _ i
    (deactivate_session (with_closed (with_session (snd (session_close code reason (session_ c))) c)))).
Qed.

Lemma deliver_input m i c : deliver m (with_input i c) = with_input i (deliver m c).
Proof. unfold deliver. cbn. destruct (h_meters (handler_ c)); cbn; by destruct (on_message _). Qed.

Lemma process_frame_input fin o p i c :
  process_frame fin o p (with_input i c) =
  (fst (process_frame fin o p c), with_input i (snd (process_frame fin o p c))).
Proof.
  unfold process_frame, process_close, process_continuation, process_data, fail_with.
  destruct o; try done.
  all: repeat (cbn; case_goal); cbn [fst snd]; rewrite ?protocol_close_input, ?deliver_input; try done.
  all: f_equal; rewrite <- ?protocol_close_input, <- ?notify_close_input; try done.
  change (with_input i (with_fragment ?p ?o ?f ?c)) with (with_fragment p o f (with_input i c)).
  by rewrite <- deliver_input.
Qed.

(** What the connection's limits and callbacks are never changes. *)
Lemma notify_close_limits i c : c_limits (notify_close i c) = c_limits c.
Proof. unfold notify_close. by repeat case_goal. Qed.

Lemma protocol_close_limits code reason c : c_limits (protocol_close code reason c) = c_limits c.
Proof. unfold protocol_close. rewrite notify_close_limits. by repeat case_goal. Qed.

Lemma deliver_limits m c : c_limits (deliver m c) = c_limits c.
Proof. unfold deliver. destruct (h_meters _); cbn; by destruct (on_message _). Qed.

Lemma process_frame_limits fin o p c : c_limits (snd (process_frame fin o p c)) = c_limits c.
Proof.
  unfold process_frame, process_close, process_continuation, process_data, fail_with.
  destruct o; try done; repeat (cbn; case_goal); cbn [fst snd];
    rewrite ?protocol_close_limits, ?notify_close_limits; try done; cbn; by rewrite deliver_limits.
Qed.

Lemma notify_close_closed i c : closed_ (notify_close i c) = closed_ c.
Proof. unfold notify_close. by repeat case_goal. Qed.

Lemma protocol_close_closed code reason c : closed_ (protocol_close code reason c) = true.
Proof. unfold protocol_close. by rewrite notify_close_closed. Qed.

(** An error closes the connection. *)
Lemma process_frame_error fin o p c e c' : process_frame fin o p c = (inl e, c') -> closed_ c' = true.
Proof.
  unfold process_frame, process_close, process_continuation, process_data, fail_with.
  destruct o; repeat case_goal; intros; simplify_eq; try done; apply protocol_close_closed.
Qed.

Lemma run_input n s i c :
  run n s (with_input i c) = (fst (run n s c), with_input i (snd (run n s c))).
Proof.
  revert s c. induction n as [|n IH]; intros s c; [done|]. cbn [run c_limits with_input].
  destruct (parse_frame _ _) as [|code reason|fin o p total]; [done|by rewrite protocol_close_input|].
  rewrite process_frame_input. destruct (process_frame _ _ _ _) as [[e|u] c']; [done|]. cbn [fst snd].
  cbn [closed_ with_input]. case_goal; [done|]. apply IH.
Qed.

Lemma feed_loop_run fuel offset i c :
  let '(rest, e, c') := run fuel (drop offset i) c in
  exists offset', feed_loop fuel offset (with_input i c) = (offset', e, with_input i c') /\
    rest = drop offset' i.
Proof.
  revert offset c. induction fuel as [|fuel IH]; intros offset c; cbn; [by eexists|].
  destruct (parse_frame _ _) as [|code reason|fin o p total]; [by eexists| |].
  { rewrite protocol_close_input. by eexists. }
  rewrite process_frame_input. destruct (process_frame fin o p c) as [[e|u] c']; cbn.
  { eexists. by rewrite drop_drop. }
  destruct (closed_ c'); [eexists; by rewrite drop_drop|]. rewrite drop_drop. apply IH.
Qed.

(** [feed] through the loop on the unread bytes. *)
Lemma feed_run data c : closed_ c = false ->
  feed data c =
  match run (S (length (input_ c ++ data))) (input_ c ++ data) c with
  | (rest, LoopBreak, c') => (inr tt, with_input rest c')
  | (rest, LoopFail e, c') => (inl e, with_input rest c')
  | (rest, LoopReturn e, c') => (inl e, with_input (input_ c ++ data) c')
  end.
Proof.
  intros Hc. unfold feed. rewrite Hc. cbn [input_ with_input].
  pose proof (feed_loop_run (S (length (input_ c ++ data))) 0 (input_ c ++ data) c) as H.
  rewrite drop_0 in H. destruct (run _ _ _) as [[rest e] c'].
  destruct H as (offset' & -> & ->). by destruct e.
Qed.

Lemma run_fuel n m s c : (length s < n)%nat -> (length s < m)%nat -> run n s c = run m s c.
Proof.
  revert m s c. induction n as [|n IH]; intros [|m] s c Hn Hm; try lia. cbn.
  destruct (parse_frame _ _) as [|code reason|fin o p total] eqn:E; [done|done|].
  apply parse_frame_total in E as [E _].
  destruct (process_frame _ _ _ _) as [[]]; [done|]. case_goal; [done|].
  apply IH; rewrite length_drop; lia.
Qed.

Lemma run_limits n s c : c_limits (snd (run n s c)) = c_limits c.
Proof.
  revert s c. induction n as [|n IH]; intros s c; [done|]. cbn.
  destruct (parse_frame _ _) as [|code reason|fin o p total]; [done|apply protocol_close_limits|].
  pose proof (process_frame_limits fin o p c).
  destruct (process_frame _ _ _ _) as [[]]; [done|]. case_goal; [done|]. by rewrite IH.
Qed.

(** What the loop leaves: a suffix; waiting for more, or closed. *)
Lemma run_end n s c rest e c' : (length s < n)%nat -> run n s c = (rest, e, c') ->
  (length rest <= length s)%nat /\
  (closed_ c' = false -> e = LoopBreak /\ parse_frame (c_limits c') rest = NeedMore).
Proof.
  revert s c. induction n as [|n IH]; intros s c Hn; [lia|]. cbn.
  destruct (parse_frame (c_limits c) s) as [|code reason|fin o p total] eqn:E.
  - intros R; simplify_eq. split; [lia|]. by rewrite E.
  - intros R; simplify_eq. rewrite protocol_close_closed. split; [lia|done].
  - apply parse_frame_total in E as [E _].
    destruct (process_frame _ _ _ _) as [[err|u] c1] eqn:P.
    { intros R; simplify_eq. rewrite length_drop, (process_frame_error _ _ _ _ _ _ P). split; [lia|done]. }
    destruct (closed_ c1) eqn:C.
    { intros R; simplify_eq. rewrite length_drop, C. split; [lia|done]. }
    intros R. apply IH in R; [|rewrite length_drop; lia]. rewrite length_drop in R.
    split; [lia|apply R].
Qed.

(** The loop on a concatenation: run on the first part, then go on with what
    was left of it. *)
Lemma run_app n s1 s2 c : (length (s1 ++ s2) < n)%nat -> closed_ c = false ->
  run n (s1 ++ s2) c =
  match run n s1 c with
  | (rest, LoopBreak, c') =>
      if closed_ c' then (rest ++ s2, LoopBreak, c') else run n (rest ++ s2) c'
  | (rest, e, c') => (rest ++ s2, e, c')
  end.
Proof.
  revert s1 c. induction n as [|n IH]; intros s1 c Hn Hc; [lia|].
  rewrite length_app in Hn. cbn [run].
  destruct (parse_frame_app (c_limits c) s1 s2) as [H|H].
  { rewrite H, Hc. done. }
  rewrite H. destruct (parse_frame (c_limits c) s1) as [|code reason|fin o p total] eqn:E.
  - by rewrite Hc, H.
  - done.
  - apply parse_frame_total in E as [E _]. rewrite drop_app_le by lia.
    destruct (process_frame _ _ _ _) as [[err|u] c1]; [done|]. destruct (closed_ c1) eqn:C; [by rewrite C|].
    rewrite IH; [|rewrite length_app, length_drop; lia|done].
    destruct (run n (drop total s1) c1) as [[rest e] c2] eqn:R.
    apply run_end in R as [R _]; [|rewrite length_drop; lia]. rewrite length_drop in R.
    destruct e; [|done|done]. destruct (closed_ c2) eqn:C2; [done|].
    apply (run_fuel n (S n)); rewrite length_app; lia.
Qed.

(** ** The reachable states *)

Definition is_data (o : Opcode) : Prop := o = Text \/ o = Binary.

(** A delivered message is a text or binary message within the size limit,
    and a text message is UTF-8. *)
Definition message_ok (l : Limits) (m : Message) : Prop :=
  is_data (msg_opcode m) /\ len (msg_payload m) <= max_message_bytes l /\
  (msg_opcode m = Text -> valid_utf8 (msg_payload m) = true).

Definition effect_ok (l : Limits) (e : Effect) : Prop :=
  match e with EMessage m => message_ok l m | _ => True end.

Definition closes (log : list Effect) : list Effect :=
  List.filter (fun e => match e with EClose _ => true | _ => false end) log.

Definition has_on_close (h : Handler) : bool := if on_close h then true else false.

Record conn_core (c : Connection) : Prop := {
  cc_limits : limits_ (session_ c) = c_limits c;
  cc_outbound : outbound_bounded (session_ c);
  cc_fragment : if fragmented_ c
                then is_data (fragmented_opcode_ c) /\
                     len (fragmented_payload_ c) <= max_message_bytes (c_limits c)
                else fragmented_payload_ c = [];
  cc_closes : length (closes (log_ c)) =
              if close_notified_ c && has_on_close (handler_ c) then 1%nat else 0%nat;
  cc_log : Forall (effect_ok (c_limits c)) (log_ c)
}.

Definition closed_notified (c : Connection) : Prop := closed_ c = true -> close_notified_ c = true.

(** Between two calls of [feed] no complete frame is waiting. *)
Definition settled (c : Connection) : Prop :=
  closed_ c = true \/ parse_frame (c_limits c) (input_ c) = NeedMore.

#[global] Arguments closes : simpl never.

Lemma closes_app a b : closes (a ++ b) = closes a ++ closes b.
Proof. apply List.filter_app. Qed.

Lemma core_session s c : conn_core c -> outbound_bounded s -> limits_ s = limits_ (session_ c) ->
  conn_core (with_session s c).
Proof. intros [] ? E. split; cbn; try done. by rewrite E. Qed.

Lemma core_effects es c : conn_core c -> Forall (effect_ok (c_limits c)) es -> closes es = [] ->
  conn_core (with_effects es c).
Proof.
  intros [] ? E. split; cbn; try done; [by rewrite closes_app, E, app_nil_r|auto using Forall_app_2].
Qed.

Lemma core_calls cs c : conn_core c -> conn_core (with_session (run_calls cs (session_ c)) c).
Proof. intros H. destruct (run_calls_bounded cs (session_ c)) as []; [apply H|]. by apply core_session. Qed.

Lemma core_close code reason c : conn_core c ->
  conn_core (with_session (snd (session_close code reason (session_ c))) c).
Proof.
  intros H. apply core_session; [done|apply session_close_bounded, H|apply session_close_limits].
Qed.

Lemma core_input i c : conn_core c -> conn_core (with_input i c).
Proof. by intros []. Qed.

Lemma notify_close_core i c : conn_core c ->
  conn_core (notify_close i c) /\ close_notified_ (notify_close i c) = true.
Proof.
  intros H. unfold notify_close. destruct (close_notified_ c) eqn:E.
  { split; [|done]. destruct H as [? ? ? N ?]. rewrite E in N. by split. }
  pose proof (cc_closes _ H) as N. rewrite E in N. cbn [andb] in N.
  destruct (on_close (handler_ c)) as [f|] eqn:O; (split; [|done]).
  - destruct (core_calls (f (session_ c) i) c H) as [H1 H2 H3 H4 H5].
    split; cbn in *; try done.
    + unfold has_on_close. rewrite O, closes_app, length_app, N. done.
    + apply Forall_app_2; [done|by constructor].
  - destruct H as [H1 H2 H3 H4 H5]. split; cbn in *; try done.
    unfold has_on_close. by rewrite O.
Qed.

Lemma deactivate_core c : conn_core c -> conn_core (deactivate_session (with_closed c)).
Proof. by intros []. Qed.

Lemma protocol_close_core code reason c : conn_core c ->
  conn_core (protocol_close code reason c) /\ closed_notified (protocol_close code reason c).
Proof.
  intros H. unfold protocol_close.
  destruct (notify_close_core (mkCloseInfo code reason) (deactivate_session (with_closed
    (if close_sent_ (session_ c) then c else with_session (snd (session_close code reason (session_ c))) c))))
    as [H1 H2]; [|by split].
  apply deactivate_core. case_goal; [done|by apply core_close].
Qed.

Lemma deliver_core m c : conn_core c -> message_ok (c_limits c) m ->
  conn_core (deliver m c) /\ closed_ (deliver m c) = closed_ c /\
  close_notified_ (deliver m c) = close_notified_ c.
Proof.
  intros H Hm. unfold deliver.
  set (c1 := if h_meters _ then _ else c).
  assert (conn_core c1 /\ handler_ c1 = handler_ c /\ c_limits c1 = c_limits c /\
          closed_ c1 = closed_ c /\ close_notified_ c1 = close_notified_ c) as (H1 & H2 & H3 & H4 & H5).
  { unfold c1. destruct (h_meters _); [|done]. split_and!; try done.
    apply core_effects; [done|by repeat constructor|done]. }
  clearbody c1. destruct (on_message (handler_ c1)) as [f|]; [|done].
  split_and!; try done. apply core_effects; [by apply core_calls| |done].
  constructor; [|constructor]. cbn. by rewrite H3.
Qed.

Lemma process_data_core fin o p c : conn_core c -> closed_notified c -> is_data o ->
  len p <= max_message_bytes (c_limits c) ->
  conn_core (snd (process_data fin o p c)) /\ closed_notified (snd (process_data fin o p c)).
Proof.
  intros H Hc Ho Hp. unfold process_data, fail_with. destruct (fragmented_ c); [by apply protocol_close_core|].
  destruct (negb fin); [by split; [destruct H; split|]|].
  destruct (_ && _) eqn:U; [by apply protocol_close_core|].
  destruct (deliver_core (mkMessage o p) c H) as (H2 & H3 & H4).
  { split; [done|]. split; [done|]. cbn. intros T. rewrite (bool_decide_true (o = Text)) in U by done.
    cbn in U. by to_prop. }
  split; [done|]. intros C. etrans; [exact H4|]. apply Hc. etrans; [symmetry; exact H3|exact C].
Qed.

Lemma process_frame_core fin o p c : conn_core c -> closed_notified c ->
  len p <= max_message_bytes (c_limits c) ->
  conn_core (snd (process_frame fin o p c)) /\ closed_notified (snd (process_frame fin o p c)).
Proof.
  intros H Hc Hp. unfold process_frame. destruct o.
  - unfold process_continuation, fail_with. destruct (negb (fragmented_ c)) eqn:F; [by apply protocol_close_core|].
    to_prop. destruct (_ <? _) eqn:L; [by apply protocol_close_core|]. to_prop.
    pose proof (cc_fragment c H) as G. rewrite F in G. cbn zeta.
    set (c1 := with_fragment _ _ _ c).
    assert (conn_core c1) as H1.
    { unfold c1. destruct H. split; cbn; try done. rewrite F, len_app. split; [apply G|lia]. }
    destruct (negb fin); [done|]. destruct (_ && _) eqn:U; [by apply protocol_close_core|].
    destruct (deliver_core (mkMessage (fragmented_opcode_ c1) (fragmented_payload_ c1)) c1 H1) as (H2 & H3 & H4).
    { split; [apply G|]. split; [cbn; rewrite len_app; lia|]. cbn. intros T.
      rewrite (bool_decide_true (fragmented_opcode_ c1 = Text)) in U by done. cbn in U. by to_prop. }
    cbn [snd]. split; [by destruct H2; split|]. intros C. etrans; [exact H4|]. apply Hc. etrans; [symmetry; exact H3|exact C].
  - by apply process_data_core; [..|left|].
  - by apply process_data_core; [..|right|].
  - unfold process_close, fail_with. destruct (parse_close p) as [i|]; [|by apply protocol_close_core].
    cbn [snd]. edestruct notify_close_core as [H1 H2]; [|by split; [exact H1|]].
    apply deactivate_core. case_goal; [done|by apply core_close].
  - destruct (send_frame_bounded Pong p (session_ c)) as []; [apply H|].
    split; [by apply core_session|done].
  - done.
Qed.

Lemma run_core n s c : conn_core c -> closed_notified c ->
  conn_core (snd (run n s c)) /\ closed_notified (snd (run n s c)).
Proof.
  revert s c. induction n as [|n IH]; intros s c H Hc; [done|]. cbn.
  destruct (parse_frame _ _) as [|code reason|fin o p total] eqn:E; [done|by apply protocol_close_core|].
  apply parse_frame_total in E as [_ E]. destruct (process_frame_core fin o p c H Hc E) as [H1 H2].
  destruct (process_frame _ _ _ _) as [[]]; [done|]. case_goal; [done|]. by apply IH.
Qed.

(** One call on a connection, or one critical section of another thread. *)
Inductive conn_step (c : Connection) : Connection -> Prop :=
| st_feed data : conn_step c (snd (feed data c))
| st_take : conn_step c (snd (connection_take_outbound c))
| st_drain : conn_step c (snd (drain_external_outbound c))
| st_shared h h' : shared_ (session_ c) = Some h -> shared_step h h' ->
    conn_step c (with_session (set_shared (Some h') (session_ c)) c)
| st_transport b : conn_step c (with_session (set_transport b (session_ c)) c).

Record conn_inv (c : Connection) : Prop := {
  ci_core : conn_core c;
  ci_closed : closed_notified c;
  ci_settled : settled c
}.

Lemma new_connection_inv id h principal wakeup tb : conn_inv (new_connection id h principal wakeup tb).
Proof.
  unfold new_connection. cbn zeta.
  set (s := mkSession _ _ _ _ _ _ _). set (c := mkConnection _ _ _ _ _ _ _ _ _ _ _).
  assert (conn_core c) as H.
  { split; cbn; try done.
    - unfold outbound_bounded, len. cbn. lia.
    - by destruct (h_meters h).
    - destruct (h_meters h); by repeat constructor. }
  destruct (on_open h) as [f|]; (split; [|done|by right]); [|done].
  apply core_effects; [by apply (core_calls _ c)|by repeat constructor|done].
Qed.

Lemma feed_inv data c : conn_inv c -> conn_inv (snd (feed data c)).
Proof.
  intros [H1 H2 H3]. destruct (closed_ c) eqn:C; [by unfold feed; rewrite C|].
  rewrite feed_run by done. set (s := input_ c ++ data).
  pose proof (run_core (S (length s)) s c H1 H2) as [H4 H5].
  destruct (run (S (length s)) s c) as [[rest e] c'] eqn:R.
  apply run_end in R as [_ R]; [|lia]. cbn [snd] in H4, H5.
  unfold closed_notified in H5. 
  destruct e; cbn [snd]; (split; [by apply core_input|done|]); unfold settled; cbn;
    (destruct (closed_ c'); [by left|right]); by destruct (R eq_refl).
Qed.

Lemma conn_step_inv c c' : conn_inv c -> conn_step c c' -> conn_inv c'.
Proof.
  intros H [data| | |h h' E Hs|b]; [by apply feed_inv|..]; destruct H as [H1 H2 H3].
  - split; [|done|done]. apply core_session; [done| |done].
    unfold outbound_bounded, len. cbn. lia.
  - unfold drain_external_outbound. destruct (shared_ (session_ c)) as [h|]; [|done].
    destruct (run_commands_bounded (sh_queued h) (set_shared (Some (snd (take_commands h))) (session_ c)))
      as [B L]; [apply H1|].
    cbn -[foldl]. split; [|done|done]. apply core_session; cbn -[foldl].
    + by apply core_session.
    + unfold outbound_bounded, len. cbn -[foldl]. lia.
    + done.
  - split; [|done|done]. apply core_session; [done|apply H1|done].
  - split; [|done|done]. apply core_session; [done|apply H1|done].
Qed.

Lemma reachable_inv id h principal wakeup tb c :
  rtc conn_step (new_connection id h principal wakeup tb) c -> conn_inv c.
Proof.
  apply (rtc_ind_r conn_inv (new_connection id h principal wakeup tb)); [apply new_connection_inv|].
  intros x y _ Hxy Hx. by eapply conn_step_inv.
Qed.

(** [C3] In every state a connection can reach, through any sequence of
    [feed], [take_outbound], [drain_external_outbound] and critical sections
    of other threads, whatever the callbacks do: every delivered message is a
    text or binary message of at most [max_message_bytes], valid UTF-8 if text;
    the [EClose] event, recorded where the code calls [on_close], occurs at most
    once, and in a closed connection whose handler has an [on_close] exactly once;
    the outbound buffer is at most [max_pending_send_bytes] (or one close
    frame), the reassembly buffer at most [max_message_bytes], and an open
    connection holds less than [max_message_bytes + 14] unread bytes. *)
Theorem connection_invariant id h principal wakeup tb c
  (Hreach : rtc conn_step (new_connection id h principal wakeup tb) c) :
  (forall m, EMessage m ∈ log_ c -> message_ok (c_limits c) m) /\
  (length (closes (log_ c)) <= 1)%nat /\
  (closed_ c = true -> length (closes (log_ c)) = if has_on_close (handler_ c) then 1%nat else 0%nat) /\
  len (outbound_ (session_ c)) <= Z.max (max_pending_send_bytes (c_limits c)) 127 /\
  len (fragmented_payload_ c) <= Z.max 0 (max_message_bytes (c_limits c)) /\
  (closed_ c = false -> len (input_ c) < Z.max 0 (max_message_bytes (c_limits c)) + 14).
Proof.
  destruct (reachable_inv _ _ _ _ _ _ Hreach) as [[H1 H2 H3 H4 H6] H7 H8]. split_and!; try done.
  - intros m Hm. by apply (proj1 (Forall_forall _ _) H6) in Hm.
  - rewrite H4. case_match; lia.
  - intros C. by rewrite H4, (H7 C).
  - unfold outbound_bounded in H2. by rewrite H1 in H2.
  - destruct (fragmented_ c); [destruct H3 as [_ H3]|rewrite H3; unfold len; cbn]; lia.
  - intros C. destruct H8 as [H8|H8]; [congruence|]. by apply parse_frame_waiting.
Qed.

(** An echo handler, used to exercise the hypotheses. *)
Definition echo_handler : Handler :=
  mkHandler None
    (Some (fun _ m => match msg_opcode m with
                      | Text => [CallSendText (msg_payload m)]
                      | _ => [CallSendBinary (msg_payload m)]
                      end))
    (Some (fun _ _ => [])) false (mkLimits 64 4096).

Definition echo_connection : Connection := new_connection 7 echo_handler (bs "alice") false None.

Definition test_mask : bytes := [byte_of_Z 1; byte_of_Z 2; byte_of_Z 3; byte_of_Z 4].

Definition two_frames : bytes :=
  client_frame true Text test_mask (bs "hi") ++ client_frame true Close test_mask [].

Lemma connection_invariant_witness :
  let c := snd (feed two_frames echo_connection) in
  log_ c = [EMessage (mkMessage Text (bs "hi")); EClose (mkCloseInfo 1000 [])] /\
  (closed_ c = true -> length (closes (log_ c)) = if has_on_close (handler_ c) then 1%nat else 0%nat) /\
  len (outbound_ (session_ c)) <= 4096.
Proof.
  intros c.
  destruct (connection_invariant 7 echo_handler (bs "alice") false None c) as (_ & _ & H1 & H2 & _).
  { apply rtc_once. exact (st_feed echo_connection two_frames). }
  split; [by vm_compute|]. by split.
Defined.

(** ** Chunking *)

(** Feeding chunk after chunk, stopping at the first error as the transport
    does. *)
Fixpoint feed_chunks (chunks : list bytes) (c : Connection) : result ProtocolError unit * Connection :=
  match chunks with
  | [] => (inr tt, c)
  | d :: r =>
      match feed d c with
      | (inl e, c') => (inl e, c')
      | (inr _, c') => feed_chunks r c'
      end
  end.

(** Two connections are the same up to the bytes left behind by a closed one,
    which nothing reads. *)
Definition conn_norm (c : Connection) : Connection := if closed_ c then with_input [] c else c.

Definition conn_equiv (c1 c2 : Connection) : Prop := conn_norm c1 = conn_norm c2.

#[export] Instance conn_equiv_equivalence : Equivalence conn_equiv.
Proof.
  split; [done|by intros ???; symmetry|]. intros x y z H1 H2. unfold conn_equiv in *. congruence.
Qed.

Lemma conn_equiv_closed i1 i2 c : closed_ c = true -> conn_equiv (with_input i1 c) (with_input i2 c).
Proof. intros H. unfold conn_equiv, conn_norm. cbn. by rewrite H. Qed.

(** [feed] respects the equivalence. *)
Lemma feed_equiv d c1 c2 : conn_equiv c1 c2 ->
  fst (feed d c1) = fst (feed d c2) /\ conn_equiv (snd (feed d c1)) (snd (feed d c2)).
Proof.
  intros H. assert (closed_ c1 = closed_ c2) as E.
  { apply (f_equal closed_) in H. unfold conn_norm in H. destruct (closed_ c1) eqn:?, (closed_ c2) eqn:?; cbn in H; congruence. }
  destruct (closed_ c2) eqn:C2.
  - unfold feed. by rewrite E, C2.
  - unfold conn_equiv, conn_norm in H. rewrite E, C2 in H. by subst.
Qed.

Definition feed_next (d : bytes) (p : result ProtocolError unit * Connection) :
    result ProtocolError unit * Connection :=
  match p with
  | (inl e, c) => (inl e, c)
  | (inr _, c) => feed d c
  end.

Definition outcome_equiv (p q : result ProtocolError unit * Connection) : Prop :=
  fst p = fst q /\ conn_equiv (snd p) (snd q).

#[export] Instance outcome_equiv_equivalence : Equivalence outcome_equiv.
Proof.
  split; [done|by intros ?? [? ?]; split; symmetry|].
  intros x y z [H1 H2] [H3 H4]. split; [congruence|by etrans].
Qed.

#[export] Instance feed_next_proper d : Proper (outcome_equiv ==> outcome_equiv) (feed_next d).
Proof.
  intros [[e1|u1] c1] [[e2|u2] c2] [H1 H2]; cbn in *; try done; simplify_eq.
  by apply feed_equiv.
Qed.

(** Two chunks. *)
Lemma feed_app d1 d2 c : outcome_equiv (feed (d1 ++ d2) c) (feed_next d2 (feed d1 c)).
Proof.
  destruct (closed_ c) eqn:C; [by unfold feed; rewrite C; cbn; unfold feed; rewrite C|].
  rewrite !feed_run by done. rewrite app_assoc. set (s := input_ c ++ d1).
  rewrite run_app by (done || lia).
  rewrite (run_fuel _ (S (length s)) s c) by (rewrite ?length_app; lia).
  destruct (run (S (length s)) s c) as [[rest e] c'] eqn:R.
  apply run_end in R as [R1 R2]; [|lia].
  destruct (closed_ c') eqn:C'.
  - destruct e; cbn [feed_next]; [|by split; [|apply conn_equiv_closed]..].
    unfold feed. cbn [closed_ with_input]. rewrite C'. by split; [|apply conn_equiv_closed].
  - destruct (R2 eq_refl) as [-> R3]. cbn [feed_next]. rewrite feed_run by done. cbn [input_ with_input].
    rewrite run_input.
    rewrite (run_fuel (S (length (s ++ d2))) (S (length (rest ++ d2)))) by (rewrite !length_app; lia).
    destruct (run _ (rest ++ d2) c') as [[rest2 e] c2] eqn:R.
    apply run_end in R as [R4 R5]; [|lia]. cbn.
    destruct e; [done|..]; (split; [done|]); cbn [snd];
      change (with_input ?a (with_input ?b ?c)) with (with_input a c); apply conn_equiv_closed; destruct (closed_ c2) eqn:C2; try done;
      by destruct (R5 eq_refl).
Qed.

(** [C4] The transport may cut the byte stream anywhere: feeding a
    reachable connection chunk after chunk gives the same error, callbacks,
    outbound bytes and state as feeding the concatenation at once (up to the
    unread bytes of a closed connection). *)
Theorem feed_chunking id h principal wakeup tb c chunks
  (Hreach : rtc conn_step (new_connection id h principal wakeup tb) c) :
  outcome_equiv (feed_chunks chunks c) (feed (concat chunks) c).
Proof.
  apply reachable_inv in Hreach. revert c Hreach. induction chunks as [|d ds IH]; intros c H.
  - cbn [feed_chunks concat]. destruct (ci_settled c H) as [C|P]; [by unfold feed; rewrite C|].
    destruct (closed_ c) eqn:C; [by unfold feed; rewrite C|]. rewrite feed_run, app_nil_r by done.
    cbn [run]. rewrite P. by destruct c.
  - cbn [feed_chunks concat]. rewrite feed_app. pose proof (feed_inv d c H) as H'.
    destruct (feed d c) as [[e|u] c']; [done|]. cbn [feed_next]. by apply IH.
Qed.

Lemma feed_chunking_witness :
  outcome_equiv
    (feed_chunks [take 3 two_frames; take 6 (drop 3 two_frames); drop 9 two_frames] echo_connection)
    (feed two_frames echo_connection) /\
  closed_ (snd (feed two_frames echo_connection)) = true.
Proof.
  split; [|by vm_compute].
  exact (feed_chunking 7 echo_handler (bs "alice") false None echo_connection
    [take 3 two_frames; take 6 (drop 3 two_frames); drop 9 two_frames] (rtc_refl _ _)).
Defined.
