(* ===== verification/Sse.v ===== *)
(** * Server-Sent Events: [http/sse.h]

    The event encoder, the bounded producer queue of one SSE connection and
    the response configuration.  The encoder is proved against the
    EventSource stream interpretation of the HTML standard, written here as a
    reference client. *)

From S2P Require Import Prelude CxxString HttpMessage.

Module Sse.

Definition LF : byte := byte_of_Z 10.
Definition CR : byte := byte_of_Z 13.

Record Event := mkEvent {
  data : bytes;
  event : option bytes;
  id : option bytes;
  retry_milliseconds : option Z;
  comment : option bytes
}.

Inductive EncodeError := InvalidField.

Definition valid_single_line (v : option bytes) : bool :=
  match v with
  | None => true
  | Some s => negb (contains_char CR s) && negb (contains_char LF s)
  end.

(** [if (!line.empty() && line.back() == '\r') line.pop_back();] *)
Definition pop_cr (line : bytes) : bytes :=
  match last line with
  | Some c => if bool_decide (c = CR) then removelast line else line
  | None => line
  end.

(** One output line of the two loops: the field, and the text after a space. *)
Definition field_line (field line : bytes) : bytes :=
  field ++ (if len line =? 0 then [] else " "%char :: line) ++ [LF].

(** The loops over the lines of the comment and of the data. *)
Definition field_lines (field text : bytes) : bytes :=
  concat (map (fun line => field_line field (pop_cr line)) (split_on LF text)).

Definition encode (e : Event) : result EncodeError bytes :=
  if negb (valid_single_line (event e)) || negb (valid_single_line (id e)) then inl InvalidField
  else
    inr (match comment e with Some c => field_lines (bs ":") c | None => [] end ++
         match event e with Some n => bs "event: " ++ n ++ [LF] | None => [] end ++
         match id e with Some i => bs "id: " ++ i ++ [LF] | None => [] end ++
         match retry_milliseconds e with Some r => bs "retry: " ++ to_dec r ++ [LF] | None => [] end ++
         field_lines (bs "data:") (data e) ++ [LF]).

Definition configure_response (r : Response.t) : Response.t :=
  Response.header (bs "x-accel-buffering") (bs "no")
    (Response.header (bs "cache-control") (bs "no-cache")
       (Response.header (bs "content-type") (bs "text/event-stream; charset=utf-8")
          (Response.status 200 r))).

(** [open]: the channel is attached by its identity. *)
Definition open (channel : Z) (r : Response.t) : Response.t :=
  Response.event_stream (Some channel) (configure_response r).

(** ** [Channel]: each operation is one critical section. *)

Record Limits := mkLimits { max_pending_events : Z; max_pending_bytes : Z }.

Definition default_limits : Limits := mkLimits 256 (1024 * 1024).

Record Channel := mkChannel {
  limits_ : Limits;
  pending_ : list bytes;
  pending_bytes_ : Z;
  closed_ : bool;
  wakeup_ : bool  (** a wake-up callback is installed *)
}.

Definition new_channel (l : Limits) : Channel := mkChannel l [] 0 false false.

Inductive PublishResult := Accepted | Closed | Backpressured | InvalidEvent.

(** The result, whether the wake-up ran, and the new state. *)
Definition publish (e : Event) (c : Channel) : PublishResult * bool * Channel :=
  match encode e with
  | inl _ => (InvalidEvent, false, c)
  | inr encoded =>
      if closed_ c then (Closed, false, c)
      else if (max_pending_events (limits_ c) <=? len (pending_ c)) ||
              (wrap64 (max_pending_bytes (limits_ c) - pending_bytes_ c) <? len encoded)
      then (Backpressured, false, c)
      else (Accepted, wakeup_ c,
            mkChannel (limits_ c) (pending_ c ++ [encoded])
              (wrap64 (pending_bytes_ c + len encoded)) (closed_ c) (wakeup_ c))
  end.

Definition take_next (c : Channel) : option bytes * Channel :=
  match pending_ c with
  | [] => (None, c)
  | ev :: rest =>
      (Some ev, mkChannel (limits_ c) rest (wrap64 (pending_bytes_ c - len ev)) (closed_ c) (wakeup_ c))
  end.

Definition close (c : Channel) : Channel :=
  mkChannel (limits_ c) (pending_ c) (pending_bytes_ c) true (wakeup_ c).

Definition set_wakeup (w : bool) (c : Channel) : Channel :=
  mkChannel (limits_ c) (pending_ c) (pending_bytes_ c) (closed_ c) w.

End Sse.

(** ** The reference client

    The "event stream interpretation" of the HTML standard: lines end in CR
    LF, LF or CR; a blank line dispatches. *)

Module EventSource.
Import Sse.

Record Dispatched := mkDispatched { d_type : bytes; d_data : bytes; d_id : bytes }.

Record Client := mkClient { c_data : bytes; c_type : bytes; c_id : bytes; c_retry : option Z }.

Definition init : Client := mkClient [] [] [] None.

(** The complete lines of a stream; an unterminated last line is dropped. *)
Fixpoint stream_lines (s : bytes) : list bytes :=
  match s with
  | [] => []
  | c :: r =>
      if bool_decide (c = LF) then [] :: stream_lines r
      else if bool_decide (c = CR) then
        [] :: stream_lines (match r with
                            | d :: r' => if bool_decide (d = LF) then r' else r
                            | [] => r
                            end)
      else match stream_lines r with
           | [] => []
           | l :: ls => (c :: l) :: ls
           end
  end.

Definition strip_space (v : bytes) : bytes :=
  match v with
  | c :: r => if bool_decide (c = " "%char) then r else v
  | [] => v
  end.

Definition process_field (field value : bytes) (k : Client) : Client :=
  if bool_decide (field = bs "event") then mkClient (c_data k) value (c_id k) (c_retry k)
  else if bool_decide (field = bs "data") then
    mkClient (c_data k ++ value ++ [LF]) (c_type k) (c_id k) (c_retry k)
  else if bool_decide (field = bs "id") then
    if contains_char zero value then k else mkClient (c_data k) (c_type k) value (c_retry k)
  else if bool_decide (field = bs "retry") then
    if forallb isdigit value
    then mkClient (c_data k) (c_type k) (c_id k)
           (match from_chars_u64 value with inr (n, _) => Some n | inl _ => c_retry k end)
    else k
  else k.

Definition process_line (k : Client) (line : bytes) : list Dispatched * Client :=
  match line with
  | [] =>
      if len (c_data k) =? 0 then ([], mkClient [] [] (c_id k) (c_retry k))
      else ([mkDispatched (if len (c_type k) =? 0 then bs "message" else c_type k)
               (removelast (c_data k)) (c_id k)],
            mkClient [] [] (c_id k) (c_retry k))
  | _ =>
      match find_char ":"%char line with
      | Some O => ([], k)
      | Some i => ([], process_field (take i line) (strip_space (drop (i + 1) line)) k)
      | None => ([], process_field line [] k)
      end
  end.

Fixpoint process_lines (k : Client) (ls : list bytes) : list Dispatched * Client :=
  match ls with
  | [] => ([], k)
  | l :: r =>
      let '(d1, k1) := process_line k l in
      let '(d2, k2) := process_lines k1 r in
      (d1 ++ d2, k2)
  end.

Definition receive (k : Client) (stream : bytes) : list Dispatched * Client :=
  process_lines k (stream_lines stream).

End EventSource.

(** ** The encoder against the client *)

Module SseSpec.
Import Sse EventSource.

(** No line break inside. *)
Definition one_line (s : bytes) : Prop := LF ∉ s /\ CR ∉ s.

Lemma stream_lines_app l rest : one_line l -> stream_lines (l ++ LF :: rest) = l :: stream_lines rest.
Proof.
  intros [H1 H2]. induction l as [|c l IH]; [done|]. apply not_elem_of_cons in H1 as [? ?], H2 as [? ?].
  cbn. rewrite !bool_decide_eq_false_2 by congruence. by rewrite IH.
Qed.

Definition terminated (ls : list bytes) : bytes := concat (map (fun l => l ++ [LF]) ls).

Lemma stream_lines_terminated ls rest : Forall one_line ls ->
  stream_lines (terminated ls ++ rest) = ls ++ stream_lines rest.
Proof.
  induction 1 as [|l ls H _ IH]; [done|]. unfold terminated in *. cbn.
  rewrite <- !app_assoc. cbn [app]. rewrite stream_lines_app by done. by rewrite IH.
Qed.

Lemma process_lines_app k a b :
  process_lines k (a ++ b) =
  let '(d1, k1) := process_lines k a in
  let '(d2, k2) := process_lines k1 b in (d1 ++ d2, k2).
Proof.
  revert k. induction a as [|l a IH]; intros k; cbn; [by destruct (process_lines k b)|].
  destruct (process_line k l) as [d1 k1]. rewrite IH. destruct (process_lines k1 a) as [d2 k2].
  destruct (process_lines k2 b) as [d3 k3]. by rewrite app_assoc.
Qed.

Lemma pop_cr_id l : CR ∉ l -> pop_cr l = l.
Proof.
  intros H. unfold pop_cr. destruct (last l) as [c|] eqn:E; [|done].
  rewrite bool_decide_eq_false_2; [done|]. intros ->. apply H. by apply last_Some_elem_of.
Qed.

(** The line a text line becomes. *)
Definition text_line (field line : bytes) : bytes :=
  field ++ (if len line =? 0 then [] else " "%char :: line).

Lemma field_lines_terminated field text : CR ∉ text ->
  field_lines field text = terminated (map (text_line field) (split_on LF text)).
Proof.
  intros H. unfold field_lines, terminated. rewrite map_map. f_equal. apply map_ext_in.
  intros l Hl. rewrite pop_cr_id; [unfold field_line, text_line; by rewrite app_assoc|].
  assert (Forall (fun c => c <> CR) text) as F by (apply Forall_forall; intros c Hc ->; done).
  pose proof (split_on_subset LF text _ F) as G. rewrite List.Forall_forall in G.
  specialize (G l Hl). intros Hin. by apply (proj1 (Forall_forall _ _) G) in Hin.
Qed.

Lemma text_line_one_line field text : one_line field -> CR ∉ text ->
  Forall one_line (map (text_line field) (split_on LF text)).
Proof.
  intros [F1 F2] H. apply List.Forall_map. apply Forall_forall. intros l Hl.
  assert (one_line l) as [L1 L2].
  { split.
    - by apply (proj1 (Forall_forall _ _) (split_on_no_sep LF text)).
    - assert (Forall (fun c => c <> CR) text) as F by (apply Forall_forall; intros c Hc ->; done).
      pose proof (proj1 (Forall_forall _ _) (split_on_subset LF text _ F) l Hl) as G.
      intros Hin. by apply (proj1 (Forall_forall _ _) G) in Hin. }
  unfold text_line. split; apply not_elem_of_app; (split; [done|]); case_goal;
    try apply not_elem_of_nil; by apply not_elem_of_cons.
Qed.

(** The lines of an encoded event. *)
Definition event_lines (e : Event) : list bytes :=
  match comment e with Some c => map (text_line (bs ":")) (split_on LF c) | None => [] end ++
  match event e with Some n => [bs "event: " ++ n] | None => [] end ++
  match id e with Some i => [bs "id: " ++ i] | None => [] end ++
  match retry_milliseconds e with Some r => [bs "retry: " ++ to_dec r] | None => [] end ++
  map (text_line (bs "data:")) (split_on LF (data e)) ++ [[]].

(** What [encode] does not check: a carriage return in the data or comment. *)
Definition no_cr (e : Event) : Prop :=
  CR ∉ data e /\ match comment e with Some c => CR ∉ c | None => True end.

Lemma terminated_app a b : terminated (a ++ b) = terminated a ++ terminated b.
Proof. unfold terminated. by rewrite map_app, concat_app. Qed.

Lemma encode_lines e s : encode e = inr s -> no_cr e -> s = terminated (event_lines e).
Proof.
  intros H [N1 N2]. unfold encode in H. destruct (_ || _); [done|]. apply (inj inr) in H as <-.
  unfold event_lines. rewrite !terminated_app, field_lines_terminated by done.
  repeat f_equal.
  - destruct (comment e); [by apply field_lines_terminated|done].
  - destruct (event e); [|done]. unfold terminated. cbn [map concat]. by rewrite app_nil_r, <- app_assoc.
  - destruct (id e); [|done]. unfold terminated. cbn [map concat]. by rewrite app_nil_r, <- app_assoc.
  - destruct (retry_milliseconds e); [|done]. unfold terminated. cbn [map concat]. by rewrite app_nil_r, <- app_assoc.
Qed.

Lemma event_lines_one_line e s : encode e = inr s -> no_cr e ->
  match retry_milliseconds e with Some r => 0 <= r | None => True end ->
  Forall one_line (event_lines e).
Proof.
  intros H [N1 N2] R. unfold encode in H. destruct (_ || _) eqn:V; [done|]. clear H. to_prop.
  assert (forall p v, one_line p -> valid_single_line (Some v) = true -> Forall one_line [p ++ v]) as G.
  { intros p v [P1 P2] Hv. cbn in Hv. to_prop. constructor; [|constructor].
    split; apply not_elem_of_app; (split; [done|]); by apply contains_char_false. }
  assert (forall p, forallb (fun c => negb (bool_decide (c = LF)) && negb (bool_decide (c = CR))) p = true ->
    one_line p) as L.
  { intros p Hp. rewrite forallb_Forall in Hp. split; intros Hin;
      apply (proj1 (Forall_forall _ _) Hp) in Hin; vm_compute in Hin; done. }
  unfold event_lines. repeat apply Forall_app_2.
  - destruct (comment e); [|constructor]. apply text_line_one_line; [by apply L|done].
  - destruct (event e); [|constructor]. apply G; [by apply L|done].
  - destruct (id e); [|constructor]. apply G; [by apply L|done].
  - destruct (retry_milliseconds e) as [r|]; [|constructor]. constructor; [|constructor].
    split; apply not_elem_of_app; (split; [by apply L|]); intros Hin;
      apply (proj1 (Forall_forall _ _) (to_dec_isdigit r R)) in Hin; done.
  - apply text_line_one_line; [by apply L|done].
  - constructor; [|constructor]. split; apply not_elem_of_nil.
Qed.

Lemma process_comment k ps : process_lines k (map (text_line (bs ":")) ps) = ([], k).
Proof.
  induction ps as [|p ps IH]; [done|]. cbn [map process_lines].
  assert (process_line k (text_line (bs ":") p) = ([], k)) as -> by done. by rewrite IH.
Qed.

Lemma process_data_line k p :
  process_line k (text_line (bs "data:") p) = ([], mkClient (c_data k ++ p ++ [LF]) (c_type k) (c_id k) (c_retry k)).
Proof. unfold text_line. destruct p as [|c p]; done. Qed.

Lemma process_data_lines k ps :
  process_lines k (map (text_line (bs "data:")) ps) =
  ([], mkClient (c_data k ++ terminated ps) (c_type k) (c_id k) (c_retry k)).
Proof.
  revert k. induction ps as [|p ps IH]; intros k.
  - cbn. unfold terminated. cbn. rewrite app_nil_r. by destruct k.
  - cbn [map process_lines]. rewrite process_data_line, IH. cbn. unfold terminated. cbn.
    by rewrite <- !app_assoc.
Qed.

Lemma terminated_join ps : ps <> [] -> terminated ps = join_with [LF] ps ++ [LF].
Proof.
  induction ps as [|p [|q ps] IH]; intros H; [done|unfold terminated; cbn; by rewrite app_nil_r|].
  unfold terminated in *. cbn [map concat join_with] in *. rewrite IH by done. cbn [join_with].
  by rewrite <- !app_assoc.
Qed.

(** Events the stream carries faithfully: no bare carriage return, no NUL in
    the id (the client drops such ids), a 32-bit retry. *)
Definition wf_event (e : Event) : Prop :=
  no_cr e /\
  match id e with Some i => zero ∉ i | None => True end /\
  match retry_milliseconds e with Some r => 0 <= r < 2 ^ 32 | None => True end.

Definition event_type (e : Event) : bytes :=
  match event e with Some (c :: n) => c :: n | _ => bs "message" end.

(** The client after an event. *)
Definition after (k : Client) (e : Event) : Client :=
  mkClient [] [] (default (c_id k) (id e))
    (match retry_milliseconds e with Some r => Some r | None => c_retry k end).

Lemma process_event k e : wf_event e -> c_data k = [] -> c_type k = [] ->
  process_lines k (event_lines e) =
  ([mkDispatched (event_type e) (data e) (default (c_id k) (id e))], after k e).
Proof.
  intros (N & I & R) D T. unfold event_lines.
  rewrite process_lines_app.
  assert (process_lines k match comment e with Some c => map (text_line (bs ":")) (split_on LF c) | None => [] end
    = ([], k)) as -> by (destruct (comment e); [apply process_comment|done]).
  rewrite process_lines_app.
  set (k1 := mkClient [] (default [] (event e)) (c_id k) (c_retry k)).
  assert (process_lines k match event e with Some n => [bs "event: " ++ n] | None => [] end = ([], k1)) as ->.
  { unfold k1. destruct (event e); destruct k; cbn in *; by subst. }
  rewrite process_lines_app.
  set (k2 := mkClient [] (default [] (event e)) (default (c_id k) (id e)) (c_retry k)).
  assert (process_lines k1 match id e with Some i => [bs "id: " ++ i] | None => [] end = ([], k2)) as ->.
  { unfold k1, k2. destruct (id e) as [i|]; [|done]. cbn [process_lines]. 
    change (process_line ?k (bs "id: " ++ i)) with ([] : list Dispatched, process_field (bs "id") i k).
    unfold process_field. rewrite !bool_decide_eq_false_2, bool_decide_eq_true_2 by done.
    apply contains_char_false in I. by rewrite I. }
  rewrite process_lines_app.
  set (k3 := mkClient [] (default [] (event e)) (default (c_id k) (id e))
    (match retry_milliseconds e with Some r => Some r | None => c_retry k end)).
  assert (process_lines k2 match retry_milliseconds e with Some r => [bs "retry: " ++ to_dec r] | None => [] end = ([], k3)) as ->.
  { unfold k2, k3. destruct (retry_milliseconds e) as [r|]; [|done]. cbn [process_lines].
    change (process_line ?k (bs "retry: " ++ to_dec r)) with ([] : list Dispatched, process_field (bs "retry") (to_dec r) k).
    unfold process_field. rewrite !bool_decide_eq_false_2, bool_decide_eq_true_2 by done.
    rewrite (proj2 (forallb_Forall _ _)) by (apply to_dec_isdigit; lia).
    rewrite from_chars_to_dec by (unfold u64_max; lia). done. }
  rewrite process_lines_app, process_data_lines.
  destruct (split_on_cons LF (data e)) as (p & ps & E).
  rewrite terminated_join by (by rewrite E). rewrite join_split.
  unfold k3. cbn [process_lines process_line c_data c_type c_id c_retry app].
  rewrite len_app. unfold len at 2. cbn [length]. pose proof (len_nonneg (data e)).
  destruct (_ =? 0) eqn:Z0; to_prop; [lia|]. rewrite removelast_last. cbn [app].
  unfold after. do 2 f_equal. unfold event_type. destruct (event e) as [[|c n]|]; done.
Qed.

(** What a client dispatches for a sequence of events: the last id is kept. *)
Fixpoint dispatches (last_id : bytes) (es : list Event) : list Dispatched :=
  match es with
  | [] => []
  | e :: r =>
      let i := default last_id (id e) in
      mkDispatched (event_type e) (data e) i :: dispatches i r
  end.

Lemma receive_events k es ss : Forall wf_event es -> Forall2 (fun e s => encode e = inr s) es ss ->
  c_data k = [] -> c_type k = [] ->
  fst (receive k (concat ss)) = dispatches (c_id k) es.
Proof.
  intros W H. revert k W. induction H as [|e s es ss He H IH]; intros k W D T; [done|].
  inversion_clear W as [|?? We W']. destruct We as (N & We).
  unfold receive. cbn [concat]. rewrite (encode_lines e s He N).
  rewrite stream_lines_terminated.
  2:{ eapply event_lines_one_line; [done|done|]. destruct We as [_ We].
      destruct (retry_milliseconds e); [lia|done]. }
  rewrite process_lines_app, process_event by done.
  specialize (IH (after k e) W' eq_refl eq_refl). unfold receive in IH.
  destruct (process_lines (after k e) _) as [d k']. cbn in *. by rewrite IH.
Qed.

(** Whatever well-formed events are encoded, a client that
    follows the HTML standard and reads their concatenation dispatches exactly
    these events, in order, with their type, data (newlines included) and last
    event id. *)
Theorem encode_stream_roundtrip es ss
  (Hwf : Forall wf_event es) (Henc : Forall2 (fun e s => encode e = inr s) es ss) :
  fst (receive init (concat ss)) = dispatches [] es.
Proof. by apply (receive_events init). Qed.

Definition sample_events : list Event :=
  [mkEvent (bs "a" ++ [LF; LF] ++ bs " b") (Some (bs "update")) (Some (bs "7")) (Some 1500) (Some (bs "hi"));
   mkEvent [] None None None None].

Lemma encode_stream_roundtrip_witness :
  exists ss, Forall2 (fun e s => encode e = inr s) sample_events ss /\
  fst (receive init (concat ss)) =
    [mkDispatched (bs "update") (bs "a" ++ [LF; LF] ++ bs " b") (bs "7");
     mkDispatched (bs "message") [] (bs "7")].
Proof.
  set (ss := map (fun e => match encode e with inr s => s | inl _ => [] end) sample_events).
  assert (Forall2 (fun e s => encode e = inr s) sample_events ss) as H by (repeat constructor).
  exists ss. split; [exact H|]. rewrite (encode_stream_roundtrip sample_events ss); [by vm_compute| |exact H].
  repeat constructor; cbn; try (by apply contains_char_false); lia.
Defined.

(** A bare carriage return in the data is not escaped and ends a line for the
    client: the data chooses the event type and the last event id. *)
Lemma encode_cr_injection :
  exists s, encode (mkEvent (bs "x" ++ [CR] ++ bs "event: admin" ++ [CR] ++ bs "id: 9") None None None None)
              = inr s /\
    fst (receive init s) = [mkDispatched (bs "admin") (bs "x") (bs "9")].
Proof. eexists. split; [reflexivity|]. by vm_compute. Qed.

(** ** The channel *)

Inductive Op := OpPublish (e : Event) | OpTake | OpClose | OpWakeup (w : bool).

(** A run from any threads: the channel, the events accepted and the strings
    taken so far, each in order. *)
Record Run := mkRun { r_chan : Channel; r_accepted : list Event; r_taken : list bytes }.

Definition step (r : Run) (o : Op) : Run :=
  match o with
  | OpPublish e =>
      match publish e (r_chan r) with
      | (Accepted, _, c) => mkRun c (r_accepted r ++ [e]) (r_taken r)
      | (_, _, c) => mkRun c (r_accepted r) (r_taken r)
      end
  | OpTake =>
      match take_next (r_chan r) with
      | (Some s, c) => mkRun c (r_accepted r) (r_taken r ++ [s])
      | (None, c) => mkRun c (r_accepted r) (r_taken r)
      end
  | OpClose => mkRun (close (r_chan r)) (r_accepted r) (r_taken r)
  | OpWakeup w => mkRun (set_wakeup w (r_chan r)) (r_accepted r) (r_taken r)
  end.

Definition run_ops (l : Limits) (ops : list Op) : Run := foldl step (mkRun (new_channel l) [] []) ops.

Definition total (ss : list bytes) : Z := foldr (fun s n => len s + n) 0 ss.

Record run_inv (l : Limits) (r : Run) : Prop := {
  ri_limits : limits_ (r_chan r) = l;
  ri_fifo : Forall2 (fun e s => encode e = inr s) (r_accepted r) (r_taken r ++ pending_ (r_chan r));
  ri_bytes : pending_bytes_ (r_chan r) = total (pending_ (r_chan r));
  ri_bound : 0 <= pending_bytes_ (r_chan r) <= max_pending_bytes l;
  ri_events : len (pending_ (r_chan r)) <= Z.max 0 (max_pending_events l)
}.

Lemma total_app a b : total (a ++ b) = total a + total b.
Proof. unfold total. induction a as [|s a IH]; cbn; [done|]. rewrite IH. lia. Qed.

Lemma total_nonneg ss : 0 <= total ss.
Proof. unfold total. induction ss as [|s ss IH]; cbn; [done|]. pose proof (len_nonneg s). lia. Qed.

#[global] Arguments total : simpl never.
#[global] Arguments encode : simpl never.

Lemma step_inv l r o : in_u64 (max_pending_bytes l) -> run_inv l r -> run_inv l (step r o).
Proof.
  unfold in_u64. intros Hl [H1 H2 H3 H4 H5]. destruct r as [[cl p n cd w] acc taken]; cbn in *; subst cl.
  destruct o as [e| | |w']; cbn; [|destruct p as [|s p]; cbn|by split|by split].
  - unfold publish. destruct (encode e) as [|s] eqn:E; [by split|]. cbn. destruct cd; [by split|].
    destruct (_ || _) eqn:B; [by split|]. to_prop. cbn.
    rewrite wrap64_small in * by (unfold in_u64; lia). pose proof (len_nonneg s).
    rewrite wrap64_small by (unfold in_u64; lia).
    split; cbn; [done| | | |].
    + rewrite app_assoc. apply Forall2_app; [done|by repeat constructor].
    + rewrite total_app. unfold total at 2. cbn. lia.
    + lia.
    + rewrite len_app, len_cons, len_nil. lia.
  - by split.
  - change (total (s :: p)) with (len s + total p) in H3. rewrite len_cons in H5.
    pose proof (len_nonneg s). pose proof (total_nonneg p).
    rewrite wrap64_small by (unfold in_u64; lia).
    split; cbn; [done| |lia|lia|lia]. by rewrite <- app_assoc.
Qed.

(** The producer queue is a bounded FIFO under any
    interleaving of publishers, the draining loop and close: what was taken
    followed by what is pending is the encoding of the accepted events in
    order, the byte counter equals the pending bytes (its unsigned subtraction
    never wraps), and both limits hold. *)
Theorem channel_fifo l ops (Hl : in_u64 (max_pending_bytes l)) :
  let r := run_ops l ops in
  Forall2 (fun e s => encode e = inr s) (r_accepted r) (r_taken r ++ pending_ (r_chan r)) /\
  pending_bytes_ (r_chan r) = total (pending_ (r_chan r)) /\
  total (pending_ (r_chan r)) <= max_pending_bytes l /\
  len (pending_ (r_chan r)) <= Z.max 0 (max_pending_events l).
Proof.
  assert (run_inv l (run_ops l ops)) as [H1 H2 H3 H4 H5]; [|cbn zeta; split_and!; try done; lia].
  unfold run_ops. assert (run_inv l (mkRun (new_channel l) [] [])) as H.
  { unfold in_u64 in Hl. split; cbn; [done|constructor|done|lia|rewrite len_nil; lia]. }
  revert H. generalize (mkRun (new_channel l) [] []). induction ops as [|o ops IH]; intros r H; [done|].
  apply IH. by apply step_inv.
Qed.

Lemma channel_fifo_witness :
  let r := run_ops (mkLimits 2 64) [OpPublish (mkEvent (bs "a") None None None None); OpTake; OpClose] in
  r_taken r = [bs "data: a" ++ [LF; LF]] /\
  pending_bytes_ (r_chan r) = total (pending_ (r_chan r)).
Proof.
  intros r. split; [by vm_compute|].
  apply (channel_fifo (mkLimits 2 64) [OpPublish (mkEvent (bs "a") None None None None); OpTake; OpClose]).
  unfold in_u64. cbn. lia.
Defined.

End SseSpec.
