(* ===== verification/WsHandshake.v ===== *)
(** * The WebSocket upgrade: [websocket/websocket.cpp]

    Header tokens, origin check, subprotocol selection and the validation of
    the upgrade request.  OpenSSL's [EVP_DecodeBlock], [SHA1] and
    [EVP_EncodeBlock] are parameters. *)

From S2P Require Import Prelude CxxString HttpMessage WebSocket.

(** One element of a comma-separated header. *)
Definition token_matches (wanted token : bytes) : bool :=
  match find_first_not blank token with
  | None => false
  | Some _ => HeaderMap.names_equal (trim_find blank token) wanted
  end.

Definition has_token (value wanted : bytes) : bool :=
  existsb (token_matches wanted) (tokens ","%char value).

Definition is_upgrade_attempt (r : Request.t) : bool :=
  match Request.header (bs "upgrade") r with
  | Some u => has_token u (bs "websocket")
  | None => false
  end.

Inductive HandshakeDecision := Allow (principal : bytes) | Reject (status : Z) (body : bytes).

Definition origin_authorizer (origins : list bytes) (allow_missing_origin : bool) (r : Request.t) :
    HandshakeDecision :=
  match Request.header (bs "origin") r with
  | None => if allow_missing_origin then Allow [] else Reject 403 (bs "Missing WebSocket Origin")
  | Some o =>
      if bool_decide (o ∈ origins) then Allow [] else Reject 403 (bs "WebSocket Origin is not allowed")
  end.

(** The inner loop: some element of the header is the protocol. *)
Definition offers (header preferred : bytes) : bool :=
  existsb (fun t => bool_decide (trim_loops blank t = preferred)) (tokens ","%char header).

Definition select_subprotocol (r : Request.t) (supported : list bytes) : option bytes :=
  match Request.header (bs "sec-websocket-protocol") r with
  | None => None
  | Some h => List.find (offers h) supported
  end.

Definition websocket_guid : bytes := bs "258EAFA5-E914-47DA-95CA-C5AB0DC85B11".

(** The size of the stack buffer the key is decoded into. *)
Definition decoded_capacity : Z := 32.

Section Validate.
(** [EVP_DecodeBlock]: the bytes it writes, [None] for [-1]. *)
Context (EVP_DecodeBlock : bytes -> option bytes) (SHA1 EVP_EncodeBlock : bytes -> bytes).

(** [None] is a write past the end of the [decoded] buffer. *)
Definition validate_upgrade_request (r : Request.t) : option (result ProtocolError bytes) :=
  let fail m := Some (inl (mkProtocolError 1002 m)) in
  if negb (bool_decide (Request.method_ r = bs "GET")) then fail (bs "WebSocket upgrade requires GET")
  else
    match Request.header (bs "upgrade") r, Request.header (bs "connection") r with
    | Some upgrade, Some connection =>
        if negb (has_token upgrade (bs "websocket")) || negb (has_token connection (bs "upgrade"))
        then fail (bs "Invalid WebSocket upgrade headers")
        else if negb (bool_decide (Request.header (bs "sec-websocket-version") r = Some (bs "13")))
        then fail (bs "Unsupported WebSocket version")
        else
          match Request.header (bs "sec-websocket-key") r with
          | None => fail (bs "Missing Sec-WebSocket-Key")
          | Some key =>
              let written := EVP_DecodeBlock key in
              if decoded_capacity <? len (default [] written) then None
              else
                let padding := if ends_with (bs "==") key then 2
                               else if ends_with (bs "=") key then 1 else 0 in
                match written with
                | None => fail (bs "Invalid Sec-WebSocket-Key")
                | Some d =>
                    if (len d <? padding) || negb (len d - padding =? 16)
                    then fail (bs "Invalid Sec-WebSocket-Key")
                    else Some (inr (EVP_EncodeBlock (SHA1 (key ++ websocket_guid))))
                end
          end
    | _, _ => fail (bs "Invalid WebSocket upgrade headers")
    end.
End Validate.

(** ** Properties *)

Lemma trim_empty_iff p s : find_first_not p s = None <-> trim_find p s = [].
Proof.
  rewrite trim_find_loops. unfold trim_loops. rewrite find_first_not_None. split.
  - intros H. assert (drop_while p s = []) as ->; [|done].
    induction H as [|x s Hx H IH]; cbn; [done|]. by rewrite Hx.
  - intros H. apply (f_equal (@rev byte)) in H. rewrite ?rev_involutive in H. cbn in H.
    assert (forall l, drop_while p l = [] -> Forall (fun x => p x = true) l) as G.
    { induction l as [|x l IH]; cbn; [done|]. destruct (p x) eqn:E; [|done]. auto. }
    apply G. apply G in H. apply Forall_rev in H. rewrite rev_involutive in H.
    destruct (drop_while p s) as [|x l] eqn:D; [done|]. exfalso.
    inversion H as [|?? Hx]; subst. clear -D Hx. induction s as [|y s IH]; [done|]. cbn in D.
    destruct (p y) eqn:E; [auto|]. congruence.
Qed.

(** A header list has a token exactly when one of its
    comma-separated elements, stripped of blanks, equals it without regard to
    case; this is how an upgrade attempt is recognised. *)
Theorem has_token_correct value wanted (Hw : wanted <> []) :
  has_token value wanted = true <->
  exists t, t ∈ tokens ","%char value /\ lower (trim_loops blank t) = lower wanted.
Proof.
  unfold has_token. rewrite existsb_exists.
  assert (forall t, token_matches wanted t = true <-> lower (trim_loops blank t) = lower wanted) as G.
  { intros t. unfold token_matches, HeaderMap.names_equal. rewrite iequals_lower, trim_find_loops.
    destruct (find_first_not blank t) eqn:E.
    - case_goal; to_prop; [|by rewrite bool_decide_eq_true].
      split; [done|]. intros H. apply (f_equal len) in H. unfold lower in H. rewrite !len_map in H. done.
    - apply trim_empty_iff in E. rewrite trim_find_loops in E. rewrite E. split; [done|].
      intros H. by destruct wanted. }
  setoid_rewrite G. by setoid_rewrite list_elem_of_In.
Qed.

Lemma has_token_correct_witness :
  exists t, t ∈ tokens ","%char (bs "keep-alive,  UpGrade ") /\
    lower (trim_loops blank t) = lower (bs "upgrade").
Proof. apply has_token_correct; [discriminate|]. by vm_compute. Defined.

(** The selected subprotocol is the first one of the
    server's list the client offers: it is supported and offered, nothing
    before it in the server's list is offered, and none is selected only when
    none of them is offered. *)
Theorem select_subprotocol_preference r supported :
  match select_subprotocol r supported with
  | Some p => exists h before after, Request.header (bs "sec-websocket-protocol") r = Some h /\
      supported = before ++ p :: after /\
      (exists t, t ∈ tokens ","%char h /\ trim_loops blank t = p) /\
      (forall q t, q ∈ before -> t ∈ tokens ","%char h -> trim_loops blank t <> q)
  | None => forall h q t, Request.header (bs "sec-websocket-protocol") r = Some h ->
      q ∈ supported -> t ∈ tokens ","%char h -> trim_loops blank t <> q
  end.
Proof.
  assert (forall h q, offers h q = true <-> exists t, t ∈ tokens ","%char h /\ trim_loops blank t = q) as G.
  { intros h q. unfold offers. rewrite existsb_exists. setoid_rewrite bool_decide_eq_true.
    by setoid_rewrite list_elem_of_In. }
  unfold select_subprotocol. destruct (Request.header _ r) as [h|]; [|done].
  induction supported as [|p ps IH]; cbn.
  - intros h' q t _ Hq. by apply elem_of_nil in Hq.
  - destruct (offers h p) eqn:E.
    + apply G in E. exists h, [], ps. split_and!; try done. intros q t Hq. by apply elem_of_nil in Hq.
    + assert (forall t, t ∈ tokens ","%char h -> trim_loops blank t <> p) as N.
      { intros t Ht Hp. assert (offers h p = true) by (apply G; eauto). congruence. }
      destruct (List.find (offers h) ps) as [p'|].
      * destruct IH as (h' & before & after & H1 & -> & H2 & H3). exists h', (p :: before), after.
        split_and!; try done. intros q t Hq Ht. apply elem_of_cons in Hq as [->|Hq]; [|by apply H3].
        simplify_eq. by apply N.
      * intros h' q t H1 Hq Ht. apply elem_of_cons in Hq as [->|Hq]; [|by eapply IH].
        simplify_eq. by apply N.
Qed.

Section ValidateProps.
Context (EVP_DecodeBlock : bytes -> option bytes) (SHA1 EVP_EncodeBlock : bytes -> bytes).

(** An upgrade is accepted only for a GET with the upgrade and
    connection tokens, version 13 and a key that decodes, without its
    padding, to 16 bytes; the answer is then the encoded SHA-1 of the key and
    the protocol's GUID. *)
Theorem validate_upgrade_request_accepts r answer
  (Hok : validate_upgrade_request EVP_DecodeBlock SHA1 EVP_EncodeBlock r = Some (inr answer)) :
  exists upgrade connection key decoded,
    Request.method_ r = bs "GET" /\
    Request.header (bs "upgrade") r = Some upgrade /\ has_token upgrade (bs "websocket") = true /\
    Request.header (bs "connection") r = Some connection /\ has_token connection (bs "upgrade") = true /\
    Request.header (bs "sec-websocket-version") r = Some (bs "13") /\
    Request.header (bs "sec-websocket-key") r = Some key /\
    EVP_DecodeBlock key = Some decoded /\ 16 <= len decoded <= 18 /\
    answer = EVP_EncodeBlock (SHA1 (key ++ websocket_guid)).
Proof.
  unfold validate_upgrade_request in Hok. destruct (negb _) eqn:E1 in Hok; [done|].
  destruct (Request.header (bs "upgrade") r) as [u|]; [|done].
  destruct (Request.header (bs "connection") r) as [c|]; [|done].
  destruct (_ || _) eqn:E2 in Hok; [done|]. destruct (negb _) eqn:E3 in Hok; [done|].
  destruct (Request.header (bs "sec-websocket-key") r) as [key|]; [|done].
  destruct (_ <? _) eqn:E4 in Hok; [done|]. destruct (EVP_DecodeBlock key) as [d|] eqn:E5; [|done].
  destruct (_ || _) eqn:E6 in Hok; [done|]. to_prop.
  apply (inj Some), (inj inr) in Hok as <-. exists u, c, key, d. split_and!; try done.
  all: repeat match goal with H : context [if ?b then _ else _] |- _ => destruct b end; lia.
Qed.

(** A key of at most 42 characters never overruns the buffer, as
    [EVP_DecodeBlock] writes three bytes for four characters. *)
Lemma short_key_in_bounds r key
  (Hdecode : forall k d, EVP_DecodeBlock k = Some d -> 4 * len d <= 3 * len k) :
  Request.header (bs "sec-websocket-key") r = Some key -> len key <= 42 ->
  is_Some (validate_upgrade_request EVP_DecodeBlock SHA1 EVP_EncodeBlock r).
Proof.
  intros Hk Hl. unfold validate_upgrade_request. repeat (case_goal; try by eexists). simplify_eq.
  to_prop. exfalso. unfold decoded_capacity in *.
  destruct (EVP_DecodeBlock key) as [d|] eqn:E; [apply Hdecode in E|].
  - change (default [] (Some d)) with d in *. lia.
  - change (default [] None) with (@nil byte) in *. rewrite len_nil in *. lia.
Qed.

(** The length of the key is not checked before it is
    decoded into a 32-byte stack buffer: since [EVP_DecodeBlock] decodes any
    base64 text of n characters to 3n/4 bytes, an upgrade request with a
    48-character key writes past the end of the buffer. *)
Theorem upgrade_key_overflow
  (Hdecode : forall k, forallb isalnum k = true -> len k mod 4 = 0 ->
     exists d, EVP_DecodeBlock k = Some d /\ 4 * len d = 3 * len k) r key
  (Hmethod : Request.method_ r = bs "GET")
  (Hup : Request.header (bs "upgrade") r = Some (bs "websocket"))
  (Hconn : Request.header (bs "connection") r = Some (bs "Upgrade"))
  (Hver : Request.header (bs "sec-websocket-version") r = Some (bs "13"))
  (Hkey : Request.header (bs "sec-websocket-key") r = Some key)
  (Halnum : forallb isalnum key = true) (Hlen : len key mod 4 = 0) (Hlong : 48 <= len key) :
  validate_upgrade_request EVP_DecodeBlock SHA1 EVP_EncodeBlock r = None.
Proof.
  destruct (Hdecode key Halnum Hlen) as (d & Hd & Hl). unfold validate_upgrade_request.
  rewrite Hmethod, Hup, Hconn, Hver, Hkey, Hd.
  replace (has_token (bs "websocket") (bs "websocket")) with true by (by vm_compute).
  replace (has_token (bs "Upgrade") (bs "upgrade")) with true by (by vm_compute).
  rewrite !bool_decide_eq_true_2 by done. cbn [negb orb].
  unfold decoded_capacity. change (default [] (Some d)) with d.
  destruct (32 <? len d) eqn:E; [done|]. to_prop. lia.
Qed.
End ValidateProps.

(** A decoder with the sizes of [EVP_DecodeBlock]. *)
Definition sized_decode (k : bytes) : option bytes :=
  if len k mod 4 =? 0 then Some (repeat zero (Z.to_nat (len k / 4 * 3))) else None.

Definition upgrade_request (key : bytes) : Request.t :=
  Request.set_headers
    [HeaderMap.mkEntry (bs "Upgrade") (bs "websocket"); HeaderMap.mkEntry (bs "Connection") (bs "Upgrade");
     HeaderMap.mkEntry (bs "Sec-WebSocket-Version") (bs "13"); HeaderMap.mkEntry (bs "Sec-WebSocket-Key") key]
    (Request.set_method (bs "GET") Request.init).

Lemma validate_upgrade_request_accepts_witness :
  exists upgrade connection key decoded,
    Request.method_ (upgrade_request (bs "dGhlIHNhbXBsZSBub25jZQ==")) = bs "GET" /\
    Request.header (bs "upgrade") (upgrade_request (bs "dGhlIHNhbXBsZSBub25jZQ==")) = Some upgrade /\
    has_token upgrade (bs "websocket") = true /\
    Request.header (bs "connection") (upgrade_request (bs "dGhlIHNhbXBsZSBub25jZQ==")) = Some connection /\
    has_token connection (bs "upgrade") = true /\
    Request.header (bs "sec-websocket-version") (upgrade_request (bs "dGhlIHNhbXBsZSBub25jZQ==")) = Some (bs "13") /\
    Request.header (bs "sec-websocket-key") (upgrade_request (bs "dGhlIHNhbXBsZSBub25jZQ==")) = Some key /\
    sized_decode key = Some decoded /\ 16 <= len decoded <= 18 /\
    bs "dGhlIHNhbXBsZSBub25jZQ==" ++ websocket_guid = key ++ websocket_guid.
Proof.
  apply (validate_upgrade_request_accepts sized_decode (fun x => x) (fun x => x)). by vm_compute.
Defined.

Lemma upgrade_key_overflow_witness :
  validate_upgrade_request sized_decode (fun x => x) (fun x => x) (upgrade_request (repeat "A"%char 48)) = None.
Proof.
  apply (upgrade_key_overflow sized_decode (fun x => x) (fun x => x)) with (key := repeat "A"%char 48);
    [|by vm_compute..].
  intros k _ Hk. unfold sized_decode. rewrite Hk. cbn. eexists. split; [done|].
  unfold len at 1. rewrite repeat_length. pose proof (len_nonneg k). dm_lia.
Defined.
