(* ===== verification/WsRegistry.v ===== *)
(** * Session handles and the session registry: [websocket/websocket.cpp]

    A [SessionHandle] is an id and a weak pointer; the world maps the ids of
    the live [SharedSession] objects to their state, and an expired pointer is
    a missing key.  [SessionApi] is what the messaging layer relies on; the
    world of shared sessions is its implementation. *)

From S2P Require Import Prelude CxxString WebSocket.

Abbreviation World := (gmap Z SharedSession).

(** ** [SessionHandle] *)

Module SessionHandle.

Definition active (h : Z) (w : World) : bool :=
  match w !! h with Some s => shared_active s | None => false end.

Definition send (kind : QueuedKind) (h : Z) (payload : bytes) (w : World) : bool * World :=
  match w !! h with
  | None => (false, w)
  | Some s => let '(ok, _, s') := enqueue kind payload s in (ok, <[h := s']> w)
  end.

Definition send_text (h : Z) (text : bytes) (w : World) : bool * World := send QText h text w.
Definition send_binary (h : Z) (data : bytes) (w : World) : bool * World := send QBinary h data w.

Definition close (h : Z) (code : Z) (reason : bytes) (w : World) : bool * World :=
  match w !! h with
  | None => (false, w)
  | Some s => let '(ok, _, s') := enqueue_close code reason s in (ok, <[h := s']> w)
  end.

End SessionHandle.

(** ** [SessionRegistry]: the handles under their ids *)

Module SessionRegistry.
Import SessionHandle.

Definition add (h : Z) (w : World) (r : gset Z) : gset Z :=
  if (h =? 0) || negb (active h w) then r else {[h]} ∪ r.

Definition remove (h : Z) (r : gset Z) : gset Z := r ∖ {[h]}.

Definition size (r : gset Z) : nat := base.size r.

(** One turn of the loops: prune an inactive handle, else act and count. *)
Definition visit (act : Z -> World -> bool * World) (st : Z * World * gset Z) (h : Z) :
    Z * World * gset Z :=
  let '(n, w, r) := st in
  if negb (active h w) then (n, w, r ∖ {[h]})
  else let '(ok, w') := act h w in (n + (if ok then 1 else 0), w', r).

Definition for_sessions (act : Z -> World -> bool * World) (w : World) (r : gset Z) : Z * World * gset Z :=
  for_each (visit act) (elements r) (0, w, r).

Definition broadcast_text (text : bytes) (w : World) (r : gset Z) : Z * World * gset Z :=
  for_sessions (fun h => send_text h text) w r.

Definition broadcast_binary (data : bytes) (w : World) (r : gset Z) : Z * World * gset Z :=
  for_sessions (fun h => send_binary h data) w r.

Definition close_all (code : Z) (reason : bytes) (w : World) (r : gset Z) : Z * World * gset Z :=
  for_sessions (fun h => close h code reason) w r.

End SessionRegistry.

(** ** The interface *)

(** The text frames waiting in a session's queue. *)
Class SessionApi (W : Type) := {
  sess_active : Z -> W -> bool;
  sess_send_text : Z -> bytes -> W -> bool * W;
  sess_texts : Z -> W -> list bytes;
  sess_send_inactive h t w : sess_active h w = false -> sess_send_text h t w = (false, w);
  sess_send_ok h t w : fst (sess_send_text h t w) = true ->
    sess_texts h (snd (sess_send_text h t w)) = sess_texts h w ++ [t];
  sess_send_other h t w h' : h' <> h ->
    sess_texts h' (snd (sess_send_text h t w)) = sess_texts h' w /\
    sess_active h' (snd (sess_send_text h t w)) = sess_active h' w
}.

Definition queued_texts (s : SharedSession) : list bytes :=
  omap (fun q => match q_kind q with QText => Some (q_payload q) | _ => None end) (sh_queued s).

Definition world_texts (h : Z) (w : World) : list bytes :=
  match w !! h with Some s => queued_texts s | None => [] end.

Lemma enqueue_texts t s : fst (fst (enqueue QText t s)) = true ->
  queued_texts (snd (enqueue QText t s)) = queued_texts s ++ [t].
Proof.
  unfold enqueue. repeat case_goal; try done. intros _. unfold queued_texts. cbn [snd sh_queued].
  by rewrite omap_app.
Qed.

Lemma enqueue_inactive kind t s : shared_active s = false -> enqueue kind t s = (false, false, s).
Proof. unfold shared_active, enqueue. by destruct (sh_active s), (sh_closing s). Qed.

#[export, program] Instance world_session_api : SessionApi World := {|
  sess_active := SessionHandle.active;
  sess_send_text := SessionHandle.send_text;
  sess_texts := world_texts
|}.
Next Obligation.
  intros h t w H. unfold SessionHandle.active, SessionHandle.send_text, SessionHandle.send in *.
  destruct (w !! h) as [s|] eqn:E; [|done]. rewrite enqueue_inactive by done. cbn beta iota. by rewrite insert_id.
Qed.
Next Obligation.
  intros h t w. unfold SessionHandle.send_text, SessionHandle.send, world_texts.
  destruct (w !! h) as [s|] eqn:E; [|done]. pose proof (enqueue_texts t s) as H.
  destruct (enqueue QText t s) as [[ok wk] s']. cbn [fst snd] in *. by rewrite lookup_insert_eq.
Qed.
Next Obligation.
  intros h t w h' N. unfold SessionHandle.send_text, SessionHandle.send, world_texts, SessionHandle.active.
  destruct (w !! h) as [s|] eqn:E; [|done]. destruct (enqueue QText t s) as [[ok wk] s']. cbn [fst snd].
  by rewrite lookup_insert_ne.
Qed.

(** ** The loops over the registry *)

Section ForSessions.
Import SessionHandle SessionRegistry.

(** An action on the session of one handle. *)
Context (act : Z -> World -> bool * World) (f : SharedSession -> bool * SharedSession).
Hypothesis act_f : forall h w s, w !! h = Some s -> act h w = (fst (f s), <[h := snd (f s)]> w).

Lemma visit_lookup st hs h' : h' ∉ hs ->
  snd (fst (foldl (visit act) st hs)) !! h' = snd (fst st) !! h'.
Proof.
  revert st. induction hs as [|h hs IH]; intros [[n w] r] N; [done|].
  apply not_elem_of_cons in N as [N1 N2]. cbn [foldl]. rewrite IH by done. cbn.
  unfold active. destruct (w !! h) as [s|] eqn:E; [|done]. destruct (shared_active s); [|done]. cbn.
  rewrite (act_f h w s E). cbn. by rewrite lookup_insert_ne.
Qed.

(** What one visit of each handle of a duplicate-free list amounts to. *)
Lemma visit_all hs n w r : NoDup hs ->
  let '(n', w', r') := foldl (visit act) (n, w, r) hs in
  n' = n + len (List.filter (fun h => match w !! h with
                                      | Some s => shared_active s && fst (f s) | None => false end) hs) /\
  (forall h, h ∈ hs -> w' !! h = match w !! h with
                                 | Some s => if shared_active s then Some (snd (f s)) else Some s
                                 | None => None end) /\
  (forall h, h ∈ r' <-> h ∈ r /\ (h ∈ hs -> active h w = true)).
Proof.
  revert n w r. induction hs as [|h hs IH]; intros n w r ND.
  { cbn. split_and!; [rewrite len_nil; lia|by intros h ?%elem_of_nil|].
    intros h. split; [intros ?; split; [done|by intros ?%elem_of_nil]|by intros [? _]]. }
  apply NoDup_cons in ND as [N ND]. cbn [foldl].
  set (st := visit act (n, w, r) h).
  assert (snd (fst st) !! h = match w !! h with
            | Some s => if shared_active s then Some (snd (f s)) else Some s | None => None end /\
          (forall h', h' <> h -> snd (fst st) !! h' = w !! h') /\
          fst (fst st) = n + (if match w !! h with Some s => shared_active s && fst (f s) | None => false end
                              then 1 else 0) /\
          snd st = if active h w then r else r ∖ {[h]}) as (S1 & S2 & S3 & S4).
  { unfold st, visit, active. destruct (w !! h) as [s|] eqn:E; cbn; [|split_and!; [done|done|lia|done]].
    destruct (shared_active s) eqn:A; cbn; [|split_and!; [done|done|lia|done]].
    rewrite (act_f h w s E). cbn. split_and!; [by rewrite lookup_insert_eq|by intros; rewrite lookup_insert_ne|done|done]. }
  clearbody st. destruct st as [[n1 w1] r1]. cbn in S1, S2, S3, S4.
  specialize (IH n1 w1 r1 ND). pose proof (visit_lookup (n1, w1, r1) hs h N) as L.
  destruct (foldl (visit act) (n1, w1, r1) hs) as [[n2 w2] r2]. destruct IH as (I1 & I2 & I3). cbn in L.
  assert (forall h', h' ∈ hs -> w1 !! h' = w !! h') as W by (intros h' Hh'; apply S2; congruence).
  split_and!.
  - rewrite I1, S3. cbn [List.filter].
    rewrite (List.filter_ext_in _ (fun h => match w !! h with
      | Some s => shared_active s && fst (f s) | None => false end) hs).
    2:{ intros a Ha. rewrite W; [done|by apply list_elem_of_In]. }
    case_goal; rewrite ?len_cons; lia.
  - intros h' [->|Hh']%elem_of_cons; [by rewrite L|]. rewrite I2, W by done. done.
  - intros h'. rewrite I3, S4. setoid_rewrite elem_of_cons.
    assert (h' ∈ hs -> active h' w1 = active h' w) as WA by (intros Hh'; unfold active; by rewrite W).
    destruct (decide (h' = h)) as [->|Ne].
    + destruct (active h w) eqn:A; [tauto|]. rewrite elem_of_difference, elem_of_singleton.
      split; [tauto|]. intros [_ X]. specialize (X (or_introl eq_refl)). done.
    + destruct (active h w); [|rewrite elem_of_difference, elem_of_singleton]; naive_solver congruence.
Qed.

End ForSessions.

Section Registry.
Import SessionHandle SessionRegistry.

Lemma for_sessions_spec act f w r
  (Hact : forall h w s, w !! h = Some s -> act h w = (fst (f s), <[h := snd (f s)]> w)) :
  let '(n, w', r') := for_sessions act w r in
  n = len (List.filter (fun h => match w !! h with
                                 | Some s => shared_active s && fst (f s) | None => false end) (elements r)) /\
  (forall h, w' !! h = match w !! h with
                       | Some s => if bool_decide (h ∈ r) && shared_active s then Some (snd (f s)) else Some s
                       | None => None end) /\
  (forall h, h ∈ r' <-> h ∈ r /\ active h w = true).
Proof.
  unfold for_sessions, for_each.
  pose proof (visit_all act f Hact (elements r) 0 w r (NoDup_elements r)) as V.
  pose proof (fun h => visit_lookup act f Hact (0, w, r) (elements r) h) as L.
  destruct (foldl _ _ _) as [[n w'] r']. destruct V as (V1 & V2 & V3). split_and!; [done| |].
  - intros h. destruct (decide (h ∈ r)) as [Hr|Hr].
    + rewrite V2 by (by apply elem_of_elements). rewrite (bool_decide_true (h ∈ r)) by done. done.
    + cbn in L. rewrite L by (by rewrite elem_of_elements). rewrite (bool_decide_false (h ∈ r)) by done.
      by destruct (w !! h).
  - intros h. rewrite V3, elem_of_elements. tauto.
Qed.

(** A broadcast offers the text to every registered active
    session exactly once and touches no other; it returns the number of
    sessions whose queue accepted it, and the registry keeps exactly the
    sessions that were active. *)
Theorem broadcast_text_correct text w r :
  let '(n, w', r') := broadcast_text text w r in
  (forall h s, w !! h = Some s ->
     w' !! h = Some (if bool_decide (h ∈ r) && shared_active s then snd (enqueue QText text s) else s)) /\
  (forall h, w !! h = None -> w' !! h = None) /\
  n = len (List.filter (fun h => match w !! h with
                                 | Some s => fst (fst (enqueue QText text s)) | None => false end)
             (elements r)) /\
  (forall h, h ∈ r' <-> h ∈ r /\ active h w = true).
Proof.
  pose proof (for_sessions_spec (fun h => send_text h text)
    (fun s => (fst (fst (enqueue QText text s)), snd (enqueue QText text s))) w r) as H.
  unfold broadcast_text. destruct (for_sessions _ _ _) as [[n w'] r'].
  destruct H as (H1 & H2 & H3).
  { intros h w0 s E. unfold send_text, send. rewrite E. by destruct (enqueue QText text s) as [[]]. }
  split_and!.
  - intros h s E. rewrite H2, E. by case_goal.
  - intros h E. by rewrite H2, E.
  - rewrite H1. f_equal. apply List.filter_ext. intros h. destruct (w !! h) as [s|]; [|done]. cbn.
    destruct (shared_active s) eqn:A; [done|]. by rewrite enqueue_inactive.
  - done.
Qed.

(** After [close_all] no registered session accepts
    application data any more, and every one that was active has one close
    command, with the given code, at the end of its queue. *)
Theorem close_all_correct code reason w r :
  let '(n, w', r') := close_all code reason w r in
  (forall h, h ∈ r -> active h w' = false) /\
  (forall h s, h ∈ r -> w !! h = Some s -> shared_active s = true ->
     exists s', w' !! h = Some s' /\
       sh_queued s' = sh_queued s ++ [mkCommand QClose [] code (take 123 reason)]) /\
  n = len (List.filter (fun h => active h w) (elements r)).
Proof.
  pose proof (for_sessions_spec (fun h => close h code reason)
    (fun s => (fst (fst (enqueue_close code reason s)), snd (enqueue_close code reason s))) w r) as H.
  unfold close_all. destruct (for_sessions _ _ _) as [[n w'] r'].
  destruct H as (H1 & H2 & _).
  { intros h w0 s E. unfold close. rewrite E. by destruct (enqueue_close code reason s) as [[]]. }
  assert (forall s, shared_active s = true -> enqueue_close code reason s =
    (true, sh_wakeup s, mkShared (sh_id s) (sh_limits s) (sh_active s) true (sh_queued_bytes s)
       (sh_queued s ++ [mkCommand QClose [] code (take 123 reason)]) (sh_wakeup s))) as G.
  { intros s. unfold shared_active, enqueue_close. by destruct (sh_active s), (sh_closing s). }
  split_and!.
  - intros h Hr. unfold active. rewrite H2. destruct (w !! h) as [s|]; [|done].
    rewrite (bool_decide_true (h ∈ r)) by done. cbn [andb].
    destruct (shared_active s) eqn:A; [|done]. rewrite G by done. unfold shared_active. cbn. by destruct (sh_active s).
  - intros h s Hr E A. rewrite H2, E, (bool_decide_true (h ∈ r)), A by done. eexists.
    split; [done|]. by rewrite G.
  - rewrite H1. f_equal. apply List.filter_ext. intros h. unfold active. destruct (w !! h) as [s|]; [|done].
    destruct (shared_active s) eqn:A; [|done]. by rewrite G.
Qed.
End Registry.
