(* ===== verification/Http1.v ===== *)
(** * HTTP/1.1 sessions: [http1/http1_session.cpp], [http1/http1_session.h]

    The incremental request parser, the response writer and the SSE
    streaming of one TCP client.  The application handler, the upgrade
    handler and the TLS encryption are parameters that act on an application
    state [A]; the SSE channels are shared objects of the world.  A wrapped
    index that leaves the buffer is the outcome [Undefined]. *)

From S2P Require Import Prelude CxxString HttpMessage WebSocket WsHandshake Sse.

Module Http1.

Definition CRLF : bytes := [byte_of_Z 13; byte_of_Z 10].
Definition quote : byte := byte_of_Z 34.

Definition trim (s : bytes) : bytes := trim_find blank s.

Definition get_status_text (code : Z) : bytes :=
  if code =? 200 then bs "OK"
  else if code =? 201 then bs "Created"
  else if code =? 202 then bs "Accepted"
  else if code =? 204 then bs "No Content"
  else if code =? 301 then bs "Moved Permanently"
  else if code =? 302 then bs "Found"
  else if code =? 304 then bs "Not Modified"
  else if code =? 101 then bs "Switching Protocols"
  else if code =? 400 then bs "Bad Request"
  else if code =? 401 then bs "Unauthorized"
  else if code =? 403 then bs "Forbidden"
  else if code =? 404 then bs "Not Found"
  else if code =? 500 then bs "Internal Server Error"
  else if code =? 502 then bs "Bad Gateway"
  else if code =? 503 then bs "Service Unavailable"
  else bs "Unknown".

Definition serialize_upgrade_response (accept_key subprotocol : bytes) : bytes :=
  bs "HTTP/1.1 101 Switching Protocols" ++ CRLF ++
  bs "Upgrade: websocket" ++ CRLF ++
  bs "Connection: Upgrade" ++ CRLF ++
  bs "Sec-WebSocket-Accept: " ++ accept_key ++ CRLF ++
  (if len subprotocol =? 0 then [] else bs "Sec-WebSocket-Protocol: " ++ subprotocol ++ CRLF) ++
  CRLF.

Definition serialize_rejection_response (status : Z) (body : bytes) : bytes :=
  bs "HTTP/1.1 " ++ to_dec_signed status ++ bs " " ++ get_status_text status ++ CRLF ++
  bs "Connection: close" ++ CRLF ++
  bs "Content-Type: text/plain" ++ CRLF ++
  bs "Content-Length: " ++ to_dec (len body) ++ CRLF ++ CRLF ++ body.

Definition append_chunk (output body : bytes) : bytes :=
  output ++ to_hex (len body) ++ CRLF ++ body ++ CRLF.

(** The line up to CR LF and the offset after it. *)
Definition get_line (buffer : bytes) (offset : nat) : option (bytes * nat) :=
  match find_sub CRLF (drop offset buffer) with
  | Some i => Some (take i (drop offset buffer), (offset + i + 2)%nat)
  | None => None
  end.

(** ** State *)

Inductive ParseState := RequestLine | Headers | Body | Complete | Error.

#[export] Instance parse_state_eq_dec : EqDecision ParseState.
Proof. solve_decision. Defined.

Inductive UpgradeResult :=
| NotWebSocketRoute
| UpAccepted (handler : option Handler) (principal subprotocol : bytes)
| UpRejected (status : Z) (body : bytes).

Record AcceptedUpgrade := mkAccepted { au_handler : Handler; au_principal : bytes; au_subprotocol : bytes }.

Record Session := mkSession {
  buffer_ : bytes;
  parse_offset_ : nat;
  state_ : ParseState;
  current_request_ : Request.t;
  content_length_ : Z;
  chunked_body_ : bool;
  keep_alive_ : bool;
  upgraded_ : bool;
  upgraded_handler_ : option AcceptedUpgrade;
  sse_channel_ : option Z;
  sse_wakeup_ : bool;
  sse_active_ : bool;
  sse_terminal_sent_ : bool;
  peer_address_ : bytes
}.

Definition new_session (sse_wakeup : bool) : Session :=
  mkSession [] 0 RequestLine Request.init 0 false true false None None sse_wakeup false false [].

Definition set_input (b : bytes) (o : nat) (s : Session) : Session :=
  mkSession b o (state_ s) (current_request_ s) (content_length_ s) (chunked_body_ s) (keep_alive_ s)
    (upgraded_ s) (upgraded_handler_ s) (sse_channel_ s) (sse_wakeup_ s) (sse_active_ s)
    (sse_terminal_sent_ s) (peer_address_ s).
Definition set_offset (o : nat) (s : Session) : Session := set_input (buffer_ s) o s.
Definition set_state (p : ParseState) (s : Session) : Session :=
  mkSession (buffer_ s) (parse_offset_ s) p (current_request_ s) (content_length_ s) (chunked_body_ s)
    (keep_alive_ s) (upgraded_ s) (upgraded_handler_ s) (sse_channel_ s) (sse_wakeup_ s) (sse_active_ s)
    (sse_terminal_sent_ s) (peer_address_ s).
Definition set_request (r : Request.t) (s : Session) : Session :=
  mkSession (buffer_ s) (parse_offset_ s) (state_ s) r (content_length_ s) (chunked_body_ s)
    (keep_alive_ s) (upgraded_ s) (upgraded_handler_ s) (sse_channel_ s) (sse_wakeup_ s) (sse_active_ s)
    (sse_terminal_sent_ s) (peer_address_ s).
Definition set_body_framing (cl : Z) (chunked : bool) (s : Session) : Session :=
  mkSession (buffer_ s) (parse_offset_ s) (state_ s) (current_request_ s) cl chunked
    (keep_alive_ s) (upgraded_ s) (upgraded_handler_ s) (sse_channel_ s) (sse_wakeup_ s) (sse_active_ s)
    (sse_terminal_sent_ s) (peer_address_ s).
Definition set_keep_alive (k : bool) (s : Session) : Session :=
  mkSession (buffer_ s) (parse_offset_ s) (state_ s) (current_request_ s) (content_length_ s)
    (chunked_body_ s) k (upgraded_ s) (upgraded_handler_ s) (sse_channel_ s) (sse_wakeup_ s)
    (sse_active_ s) (sse_terminal_sent_ s) (peer_address_ s).
Definition set_upgrade (u : bool) (h : option AcceptedUpgrade) (s : Session) : Session :=
  mkSession (buffer_ s) (parse_offset_ s) (state_ s) (current_request_ s) (content_length_ s)
    (chunked_body_ s) (keep_alive_ s) u h (sse_channel_ s) (sse_wakeup_ s)
    (sse_active_ s) (sse_terminal_sent_ s) (peer_address_ s).
Definition set_sse (c : option Z) (active terminal : bool) (s : Session) : Session :=
  mkSession (buffer_ s) (parse_offset_ s) (state_ s) (current_request_ s) (content_length_ s)
    (chunked_body_ s) (keep_alive_ s) (upgraded_ s) (upgraded_handler_ s) c (sse_wakeup_ s)
    active terminal (peer_address_ s).

Definition reset (s : Session) : Session :=
  set_body_framing 0 false
    (set_request (Request.set_peer_address (peer_address_ s) Request.init) (set_state RequestLine s)).

Definition set_peer_address (a : bytes) (s : Session) : Session :=
  let s := mkSession (buffer_ s) (parse_offset_ s) (state_ s) (current_request_ s) (content_length_ s)
    (chunked_body_ s) (keep_alive_ s) (upgraded_ s) (upgraded_handler_ s) (sse_channel_ s)
    (sse_wakeup_ s) (sse_active_ s) (sse_terminal_sent_ s) a in
  set_request (Request.set_peer_address a (current_request_ s)) s.

Definition take_upgrade_handler (s : Session) : option AcceptedUpgrade * Session :=
  (upgraded_handler_ s, set_upgrade (upgraded_ s) None s).

Definition take_remaining_data (s : Session) : bytes * Session :=
  if (length (buffer_ s) <=? parse_offset_ s)%nat then ([], set_input [] 0 s)
  else (drop (parse_offset_ s) (buffer_ s), set_input [] 0 s).

(** ** The response *)

Definition header_line (e : HeaderMap.Entry) : bytes :=
  HeaderMap.name e ++ bs ": " ++ HeaderMap.value e ++ CRLF.

(** Is the handler's header written, or does the transport own it? *)
Definition header_written (is_sse : bool) (e : HeaderMap.Entry) : bool :=
  let n := lower (HeaderMap.name e) in
  negb (bool_decide (n = bs "connection")) && negb (bool_decide (n = bs "alt-svc")) &&
  (negb is_sse || (negb (bool_decide (n = bs "content-length")) &&
                   negb (bool_decide (n = bs "transfer-encoding")))).

Definition serialize_response (keep_alive : bool) (r : Response.t) : bytes :=
  let is_sse := match Response.sse_channel_ r with Some _ => true | None => false end in
  bs "HTTP/1.1 " ++ to_dec_signed (Response.status_code_ r) ++ bs " " ++
    get_status_text (Response.status_code_ r) ++ CRLF ++
  bs "Alt-Svc: h3=" ++ [quote] ++ bs ":4433" ++ [quote] ++ bs "; ma=86400" ++ CRLF ++
  (if keep_alive then bs "Connection: keep-alive" else bs "Connection: close") ++ CRLF ++
  concat (map header_line (List.filter (header_written is_sse) (Response.headers_ r))) ++
  (if is_sse then bs "Transfer-Encoding: chunked" ++ CRLF
   else if HeaderMap.has (bs "content-length") (Response.headers_ r) then []
   else bs "Content-Length: " ++ to_dec (Response.body_size r) ++ CRLF) ++
  CRLF ++
  (if is_sse then [] else Response.body_ r).

(** ** The world and the callbacks *)

Inductive Outcome :=
| Sent (data : bytes)      (** the value of the [std::expected] *)
| Failed (code : Z)        (** its error *)
| Undefined                (** an access outside the buffer *)
| Raised                   (** an exception of the handler leaves [feed_data] *)
| OutOfFuel.               (** the loop did not end within the fuel *)

(** How a part of the loop body ends. *)
Inductive Ctl := Fall | Break | Again | Fail (code : Z) | Ub | Throw | Fuel.

Section WithCallbacks.
Context {A : Type}.

Record World := mkWorld { app : A; channels : gmap Z Sse.Channel }.

(** The handler returns a response or ([None]) throws. *)
Context (handler_ : Request.t -> World -> option Response.t * World).
Context (upgrade_handler_ : option (Request.t -> World -> UpgradeResult * World)).
Context (encrypt : bytes -> World -> bytes * World).
Context (validate : Request.t -> option (result ProtocolError bytes)).

(** What the loop threads: the session, the world, the pending responses. *)
Record St := mkSt { ses : Session; world : World; out : bytes }.

Definition on_ses (f : Session -> Session) (st : St) : St := mkSt (f (ses st)) (world st) (out st).

(** Encrypt and append to the pending responses. *)
Definition emit (raw : bytes) (st : St) : St :=
  let '(e, w) := encrypt raw (world st) in mkSt (ses st) w (out st ++ e).

Definition with_channel (c : option Z) (f : Sse.Channel -> Sse.Channel) (w : World) : World :=
  match c with
  | Some i => match channels w !! i with
              | Some ch => mkWorld (app w) (<[i := f ch]> (channels w))
              | None => w
              end
  | None => w
  end.

(** The [while (auto event = take_next())] loop. *)
Fixpoint drain_events (fuel : nat) (raw : bytes) (c : Sse.Channel) : bytes * Sse.Channel :=
  match fuel with
  | O => (raw, c)
  | S fuel' =>
      match Sse.take_next c with
      | (None, c') => (raw, c')
      | (Some ev, c') => drain_events fuel' (append_chunk raw ev) c'
      end
  end.

Definition drain_sse_outbound (s : Session) (w : World) : bytes * Session * World :=
  match sse_active_ s, sse_channel_ s with
  | true, Some i =>
      match channels w !! i with
      | None => ([], s, w)
      | Some ch =>
          let '(raw, ch1) := drain_events (S (length (Sse.pending_ ch))) [] ch in
          let '(raw, s, ch2) :=
            if Sse.closed_ ch1 && negb (sse_terminal_sent_ s)
            then (raw ++ bs "0" ++ CRLF ++ CRLF,
                  set_keep_alive false (set_sse None false true s),
                  Sse.set_wakeup false ch1)
            else (raw, s, ch1) in
          let w := mkWorld (app w) (<[i := ch2]> (channels w)) in
          if len raw =? 0 then ([], s, w)
          else let '(e, w) := encrypt raw w in (e, s, w)
      end
  | _, _ => ([], s, w)
  end.

(** The destructor: detach the wake-up, then close. *)
Definition destroy (s : Session) (w : World) : World :=
  with_channel (sse_channel_ s) (fun c => Sse.close (Sse.set_wakeup false c)) w.

(** ** The request line *)

Definition parse_request_line (line : bytes) : option (bytes * bytes) :=
  match find_char " "%char line, rfind_char " "%char line with
  | Some first, Some last =>
      if (first =? last)%nat then None
      else Some (take first line, take (last - first - 1) (drop (first + 1) line))
  | _, _ => None
  end.

Definition request_line (st : St) : Ctl * St :=
  let s := ses st in
  match get_line (buffer_ s) (parse_offset_ s) with
  | None => (Break, st)
  | Some (line, o) =>
      let s := set_offset o s in
      if len line =? 0 then (Again, on_ses (fun _ => s) st)
      else
        match parse_request_line line with
        | None => (Fail (-1), on_ses (fun _ => set_state Error s) st)
        | Some (method, path) =>
            let r := Request.set_scheme (bs "https")
                       (Request.set_path path (Request.set_method method (current_request_ s))) in
            (Fall, on_ses (fun _ => set_state Headers (set_request r s)) st)
        end
  end.

(** ** The headers *)

(** One header line; [inl] is the error returned. *)
Definition header_field (line : bytes) (s : Session) : result (Z * Session) Session :=
  match find_char ":"%char line with
  | None => inl (-2, set_state Error s)
  | Some colon =>
      let name := trim (take colon line) in
      let value := trim (drop (colon + 1) line) in
      let r := current_request_ s in
      let s := set_request (Request.set_headers (HeaderMap.add name value (Request.headers_ r)) r) s in
      let name_lower := lower name in
      let value_lower := lower value in
      if bool_decide (name_lower = bs "content-length") then
        match stoull 10 value with
        | inr (n, _) => inr (set_body_framing n (chunked_body_ s) s)
        | inl _ => inl (-3, set_state Error s)
        end
      else if bool_decide (name_lower = bs "transfer-encoding") then
        inr (if bool_decide (value_lower = bs "chunked")
             then set_body_framing (content_length_ s) true s else s)
      else if bool_decide (name_lower = bs "connection") then
        inr (if bool_decide (value_lower = bs "close") then set_keep_alive false s
             else if bool_decide (value_lower = bs "keep-alive") then set_keep_alive true s
             else s)
      else if bool_decide (name_lower = bs "host") then
        inr (set_request (Request.set_authority value (current_request_ s)) s)
      else inr s
  end.

(** [serialize_rejection_response], [keep_alive_ = false], [reset()]. *)
Definition reject_upgrade (status : Z) (body : bytes) (st : St) : St :=
  on_ses (fun s => reset (set_keep_alive false s))
    (emit (serialize_rejection_response status body) st).

Definition body_or_complete (st : St) : St :=
  on_ses (fun s => set_state (if (0 <? content_length_ s) || chunked_body_ s then Body else Complete) s) st.

(** The empty line that ends the headers. *)
Definition headers_end (st : St) : Ctl * St :=
  let st := on_ses (fun s => set_request (Request.mark_headers_complete (current_request_ s)) s) st in
  let r := current_request_ (ses st) in
  match upgrade_handler_ with
  | Some up =>
      if is_upgrade_attempt r then
        let '(u, w) := up r (world st) in
        let st := mkSt (ses st) w (out st) in
        match u with
        | UpRejected status body => (Fall, reject_upgrade status body st)
        | UpAccepted (Some h) principal subprotocol =>
            match validate r with
            | None => (Ub, st)
            | Some (inl e) => (Fall, reject_upgrade 400 (err_message e) st)
            | Some (inr accept_key) =>
                let st := emit (serialize_upgrade_response accept_key subprotocol) st in
                (Fall, on_ses (fun s => set_keep_alive true
                                 (set_upgrade true (Some (mkAccepted h principal subprotocol)) s)) st)
            end
        | _ => (Fall, body_or_complete st)
        end
      else (Fall, body_or_complete st)
  | None => (Fall, body_or_complete st)
  end.

(** The [while (true)] loop over the header lines. *)
Fixpoint headers_loop (fuel : nat) (st : St) : Ctl * St :=
  match fuel with
  | O => (Fuel, st)
  | S fuel' =>
      match get_line (buffer_ (ses st)) (parse_offset_ (ses st)) with
      | None => (Break, st)
      | Some (line, o) =>
          let st := on_ses (set_offset o) st in
          if len line =? 0 then headers_end st
          else
            match header_field line (ses st) with
            | inl (code, s) => (Fail code, on_ses (fun _ => s) st)
            | inr s => headers_loop fuel' (on_ses (fun _ => s) st)
            end
      end
  end.

(** ** The body *)

(** The trailer lines after the last chunk: is the empty line there? *)
Fixpoint trailer_loop (fuel : nat) (s : Session) : Ctl * Session :=
  match fuel with
  | O => (Fuel, s)
  | S fuel' =>
      match get_line (buffer_ s) (parse_offset_ s) with
      | None => (Break, s)
      | Some (line, o) =>
          let s := set_offset o s in
          if len line =? 0 then
            (Fall, set_state Complete (set_request (Request.mark_body_complete (current_request_ s)) s))
          else trailer_loop fuel' s
      end
  end.

(** [size_text] of a chunk: the line up to a chunk extension. *)
Definition chunk_size_text (line : bytes) : bytes :=
  match find_char ";"%char line with Some i => take i line | None => line end.

(** The loop over the chunks; [Fall] is [complete = true]. *)
Fixpoint chunk_loop (fuel : nat) (s : Session) : Ctl * Session :=
  match fuel with
  | O => (Fuel, s)
  | S fuel' =>
      let buf := buffer_ s in
      let off := parse_offset_ s in
      if negb (off <? length buf)%nat then (Break, s)
      else
        match find_sub CRLF (drop off buf) with
        | None => (Break, s)
        | Some i =>
            match stoull 16 (chunk_size_text (take i (drop off buf))) with
            | inl _ => (Fail (-4), set_state Error s)
            | inr (chunk_size, _) =>
                let data_start := (off + i + 2)%nat in
                if chunk_size =? 0 then trailer_loop (S (length buf)) (set_offset data_start s)
                else
                  let idx := wrap64 (Z.of_nat data_start + chunk_size) in
                  if len buf <? wrap64 (idx + 2) then (Break, s)
                  else
                    match buf !! Z.to_nat idx, buf !! Z.to_nat (wrap64 (idx + 1)) with
                    | Some c0, Some c1 =>
                        if negb (bool_decide (c0 = Sse.CR)) || negb (bool_decide (c1 = Sse.LF))
                        then (Fail (-5), set_state Error s)
                        else if len buf <? Z.of_nat data_start + chunk_size then (Ub, s)
                        else
                          let data := take (Z.to_nat chunk_size) (drop data_start buf) in
                          let s := set_request (Request.append_body data (current_request_ s)) s in
                          chunk_loop fuel' (set_offset (Z.to_nat (wrap64 (idx + 2))) s)
                    | _, _ => (Ub, s)
                    end
            end
        end
  end.

Definition read_body (s : Session) : Ctl * Session :=
  if chunked_body_ s then chunk_loop (S (length (buffer_ s))) s
  else
    let available := Z.of_nat (length (buffer_ s) - parse_offset_ s) in
    if available <? content_length_ s then (Break, s)
    else
      let n := Z.to_nat (content_length_ s) in
      let data := take n (drop (parse_offset_ s) (buffer_ s)) in
      let r := Request.mark_body_complete (Request.append_body data (current_request_ s)) in
      (Fall, set_state Complete (set_request r (set_offset (parse_offset_ s + n) s))).

(** ** Dispatch *)

(** The handler runs and the response is written; [Break] is the early
    return of an SSE response.  An exception of the handler leaves the function:
    the request stays complete, and the local [pending_responses] is lost. *)
Definition complete (st : St) : Ctl * St :=
  let '(answer, w) := handler_ (current_request_ (ses st)) (world st) in
  let st := mkSt (ses st) w (out st) in
  match answer with
  | None => (Throw, st)
  | Some resp =>
  let st := emit (serialize_response (keep_alive_ (ses st)) resp) st in
  match Response.sse_channel_ resp with
  | Some c =>
      let s := set_sse (Some c) true false (ses st) in
      let w := with_channel (Some c) (Sse.set_wakeup (sse_wakeup_ s)) (world st) in
      let '(events, s, w) := drain_sse_outbound s w in
      (Break, mkSt (reset (set_input [] 0 s)) w (out st ++ events))
  | None => (Again, on_ses reset st)
  end
  end.

(** One turn of the loop: the parts run in order, each on the state the part
    before left.  [inl] ends [feed_data] at once. *)
Definition turn (st : St) : Ctl * St :=
  let '(c, st) := if bool_decide (state_ (ses st) = RequestLine) then request_line st else (Fall, st) in
  match c with
  | Fall =>
      let '(c, st) := if bool_decide (state_ (ses st) = Headers)
                      then headers_loop (S (length (buffer_ (ses st)))) st else (Fall, st) in
      match c with
      | Fall =>
          if upgraded_ (ses st) then (Break, st)
          else
            let '(c, s) := if bool_decide (state_ (ses st) = Body) then read_body (ses st) else (Fall, ses st) in
            let st := on_ses (fun _ => s) st in
            match c with
            | Fall => (Again, st)
            | c => (c, st)
            end
      | c => (c, st)
      end
  | c => (c, st)
  end.

(** The end of [feed_data]: drop what was consumed. *)
Definition finish (st : St) : Outcome * Session * World :=
  let s := ses st in
  let s := if (0 <? parse_offset_ s)%nat && negb (upgraded_ s)
           then set_input (drop (parse_offset_ s) (buffer_ s)) 0 s else s in
  (Sent (out st), s, world st).

(** The main loop; a completed request is dispatched at the end of a turn. *)
Fixpoint feed_loop (fuel : nat) (st : St) : Outcome * Session * World :=
  match fuel with
  | O => (OutOfFuel, ses st, world st)
  | S fuel' =>
      if negb (parse_offset_ (ses st) <? length (buffer_ (ses st)))%nat then finish st
      else
        match turn st with
        | (Again, st) =>
            if bool_decide (state_ (ses st) = Complete) then
              match complete st with
              | (Break, st) => (Sent (out st), ses st, world st)
              | (Throw, st) => (Raised, ses st, world st)
              | (_, st) => feed_loop fuel' st
              end
            else feed_loop fuel' st
        | (Fail code, st) => (Failed code, ses st, world st)
        | (Ub, st) => (Undefined, ses st, world st)
        | (Throw, st) => (Raised, ses st, world st)
        | (Fuel, st) => (OutOfFuel, ses st, world st)
        | (_, st) => finish st
        end
  end.

Definition feed_data (data : bytes) (s : Session) (w : World) : Outcome * Session * World :=
  if sse_active_ s then
    let '(e, s, w) := drain_sse_outbound s w in (Sent e, s, w)
  else
    let s := set_input (buffer_ s ++ data) (parse_offset_ s) s in
    feed_loop (S (length (buffer_ s))) (mkSt s w []).

End WithCallbacks.
End Http1.
