(* ===== verification/Http1Props.v ===== *)
(** * HTTP/1.1: what the parser gives to the handler

    A printed request is parsed back, alone or pipelined with others; chunked
    bodies decode to what was encoded; the loops of [feed_data] end; and the
    inputs on which the parser misbehaves. *)

From S2P Require Import Prelude CxxString HttpMessage WebSocket WsHandshake Sse Http1.
Import Http1.

#[global] Arguments get_line : simpl never.
#[global] Arguments header_field : simpl never.
#[global] Arguments is_upgrade_attempt : simpl never.
#[global] Arguments serialize_response : simpl never.
#[global] Arguments to_dec : simpl never.
#[global] Arguments find_sub : simpl never.

(** Compute the fields of an updated session. *)
Tactic Notation "ses_cbn" :=
  cbn [ses world out on_ses buffer_ parse_offset_ state_ current_request_ content_length_ chunked_body_
       keep_alive_ upgraded_ upgraded_handler_ sse_channel_ sse_wakeup_ sse_active_ sse_terminal_sent_
       peer_address_ set_input set_offset set_state set_request set_body_framing set_keep_alive
       set_upgrade set_sse].
Tactic Notation "ses_cbn" "in" hyp(H) :=
  cbn [ses world out on_ses buffer_ parse_offset_ state_ current_request_ content_length_ chunked_body_
       keep_alive_ upgraded_ upgraded_handler_ sse_channel_ sse_wakeup_ sse_active_ sse_terminal_sent_
       peer_address_ set_input set_offset set_state set_request set_body_framing set_keep_alive
       set_upgrade set_sse] in H.

(** ** Lines *)

Lemma get_line_unread buf off line rest : Sse.LF ∉ line -> drop off buf = line ++ CRLF ++ rest ->
  get_line buf off = Some (line, (off + length line + 2)%nat) /\
  drop (off + length line + 2) buf = rest.
Proof.
  intros H E. unfold get_line. rewrite E. unfold CRLF. rewrite find_sub_crlf by done.
  rewrite take_app_length. split; [done|].
  rewrite <- Nat.add_assoc, <- drop_drop, E. unfold CRLF.
  rewrite <- drop_drop, drop_app_length. done.
Qed.

(** A line found lies inside the buffer and takes at least two bytes. *)
Lemma get_line_bound buf off line o : get_line buf off = Some (line, o) ->
  (off + 2 <= o <= length buf)%nat /\ o = (off + length line + 2)%nat.
Proof.
  unfold get_line. destruct (find_sub CRLF (drop off buf)) as [i|] eqn:E; [|done].
  apply find_sub_bound in E. rewrite length_drop in E. cbn in E. intros [= <- <-].
  rewrite length_take, length_drop. lia.
Qed.

Lemma parse_request_line_ok m p : " "%char ∉ m ->
  parse_request_line (m ++ bs " " ++ p ++ bs " HTTP/1.1") = Some (m, p).
Proof.
  intros H. unfold parse_request_line. change (bs " " ++ p ++ bs " HTTP/1.1") with (" "%char :: p ++ bs " HTTP/1.1").
  rewrite find_char_app by done. unfold rfind_char.
  assert (rev (m ++ " "%char :: p ++ bs " HTTP/1.1") = bs "1.1/PTTH" ++ " "%char :: rev (m ++ " "%char :: p)) as ->.
  { change (m ++ " "%char :: p ++ bs " HTTP/1.1") with (m ++ (" "%char :: p) ++ bs " HTTP/1.1").
    by rewrite app_assoc, rev_app_distr. }
  rewrite find_char_app by (by apply find_char_None). cbn [fmap option_fmap option_map].
  rewrite length_app. cbn [length]. rewrite length_app. cbn [length bs list_ascii_of_string].
  destruct (_ =? _)%nat eqn:E; to_prop; [lia|]. do 2 f_equal.
  - by rewrite take_app_length.
  - rewrite <- drop_drop, drop_app_length. rewrite skipn_cons, drop_0. rewrite take_app_le by lia.
    apply take_ge. lia.
Qed.

(** ** Header lines *)

Lemma trim_space v : trim v = v -> trim (" "%char :: v) = v.
Proof. unfold trim. rewrite !trim_find_loops. intros H. by rewrite <- H at 2. Qed.

(** A header that survives printing and parsing. *)
Definition printable (e : HeaderMap.Entry) : Prop :=
  trim (HeaderMap.name e) = HeaderMap.name e /\ trim (HeaderMap.value e) = HeaderMap.value e /\
  ":"%char ∉ HeaderMap.name e /\ Sse.LF ∉ HeaderMap.name e /\ Sse.LF ∉ HeaderMap.value e.

Definition header_text (e : HeaderMap.Entry) : bytes := HeaderMap.name e ++ bs ": " ++ HeaderMap.value e.

(** What the parser does with the names it does not know. *)
Definition framing_names : list bytes :=
  [bs "content-length"; bs "transfer-encoding"; bs "connection"; bs "host"; bs "upgrade"].

Definition add_header (e : HeaderMap.Entry) (r : Request.t) : Request.t :=
  Request.set_headers (HeaderMap.add (HeaderMap.name e) (HeaderMap.value e) (Request.headers_ r)) r.

Lemma header_text_split e : printable e ->
  find_char ":"%char (header_text e) = Some (length (HeaderMap.name e)) /\
  trim (take (length (HeaderMap.name e)) (header_text e)) = HeaderMap.name e /\
  trim (drop (length (HeaderMap.name e) + 1) (header_text e)) = HeaderMap.value e.
Proof.
  intros (H1 & H2 & H3 & _). unfold header_text.
  change (bs ": " ++ HeaderMap.value e) with (":"%char :: " "%char :: HeaderMap.value e). split_and!.
  - by apply find_char_app.
  - by rewrite take_app_length.
  - rewrite <- drop_drop, drop_app_length. cbn [drop]. by apply trim_space.
Qed.

Lemma header_field_plain e s : printable e -> lower (HeaderMap.name e) ∉ framing_names ->
  header_field (header_text e) s = inr (set_request (add_header e (current_request_ s)) s).
Proof.
  intros H N. destruct (header_text_split e H) as (E1 & E2 & E3). unfold header_field.
  rewrite E1, E2, E3. unfold framing_names in N.
  repeat (apply not_elem_of_cons in N as [? N]).
  rewrite !bool_decide_false by done. done.
Qed.

Lemma header_field_host v s : printable (HeaderMap.mkEntry (bs "Host") v) ->
  header_field (header_text (HeaderMap.mkEntry (bs "Host") v)) s =
  inr (set_request (Request.set_authority v
         (add_header (HeaderMap.mkEntry (bs "Host") v) (current_request_ s))) s).
Proof.
  intros H. destruct (header_text_split _ H) as (E1 & E2 & E3). unfold header_field.
  rewrite E1, E2, E3. done.
Qed.

Definition length_header (n : Z) : HeaderMap.Entry := HeaderMap.mkEntry (bs "Content-Length") (to_dec n).

Lemma to_dec_no x n : 0 <= n -> isdigit x = false -> x ∉ to_dec n.
Proof.
  intros Hn Hx Hin. apply (proj1 (Forall_forall _ _) (to_dec_isdigit n Hn)) in Hin. congruence.
Qed.

Lemma trim_digits s : Forall (fun x => isdigit x = true) s -> trim s = s.
Proof.
  intros H. unfold trim. rewrite trim_find_loops.
  assert (forall x, isdigit x = true -> blank x = false) as G.
  { intros x Hx. unfold isdigit, blank in *. to_prop. apply orb_false_iff. split; apply Z.eqb_neq; lia. }
  apply trim_loops_id; intros x Hx; apply G, (proj1 (Forall_forall _ _) H).
  - destruct s; [done|]. cbn in Hx. simplify_eq. by left.
  - by apply last_Some_elem_of.
Qed.

Lemma length_header_printable n : 0 <= n -> printable (length_header n).
Proof.
  intros Hn. split_and!; cbn; [done|by apply trim_digits, to_dec_isdigit| | |by apply to_dec_no];
    by apply find_char_None.
Qed.

Lemma header_field_length n s : 0 <= n <= u64_max ->
  header_field (header_text (length_header n)) s =
  inr (set_body_framing n (chunked_body_ s) (set_request (add_header (length_header n) (current_request_ s)) s)).
Proof.
  intros Hn. destruct (header_text_split (length_header n)) as (E1 & E2 & E3).
  { apply length_header_printable. lia. }
  unfold header_field. rewrite E1, E2, E3. cbn [HeaderMap.name HeaderMap.value length_header].
  rewrite stoull_to_dec by done. done.
Qed.

(** ** Whole requests *)

Record Req := mkReq {
  q_method : bytes; q_target : bytes; q_host : bytes;
  q_headers : list HeaderMap.Entry; q_body : bytes
}.

Definition host_header (q : Req) : HeaderMap.Entry := HeaderMap.mkEntry (bs "Host") (q_host q).

Definition lines (ls : list bytes) : bytes := concat (map (fun l => l ++ CRLF) ls).

Definition request_head (q : Req) : list bytes :=
  header_text (host_header q) :: map header_text (q_headers q) ++ [header_text (length_header (len (q_body q)))].

(** A request as a client prints it. *)
Definition print_request (q : Req) : bytes :=
  (q_method q ++ bs " " ++ q_target q ++ bs " HTTP/1.1") ++ CRLF ++
  lines (request_head q) ++ CRLF ++ q_body q.

(** A printed request that means what it says. *)
Record wf_req (q : Req) : Prop := {
  wf_method : " "%char ∉ q_method q /\ Sse.LF ∉ q_method q;
  wf_target : Sse.LF ∉ q_target q;
  wf_host : printable (host_header q);
  wf_headers : Forall (fun e => printable e /\ lower (HeaderMap.name e) ∉ framing_names) (q_headers q);
  wf_body : len (q_body q) <= u64_max
}.

(** The request the handler should see. *)
Definition request_lineR (q : Req) (r : Request.t) : Request.t :=
  Request.set_scheme (bs "https") (Request.set_path (q_target q) (Request.set_method (q_method q) r)).

Definition with_head (q : Req) (r : Request.t) : Request.t :=
  add_header (length_header (len (q_body q)))
    (foldl (fun r e => add_header e r)
       (Request.set_authority (q_host q) (add_header (host_header q) r)) (q_headers q)).

Definition expected_request (peer : bytes) (q : Req) : Request.t :=
  let r := Request.mark_headers_complete
             (with_head q (request_lineR q (Request.set_peer_address peer Request.init))) in
  if len (q_body q) =? 0 then r
  else Request.mark_body_complete (Request.append_body (q_body q) r).

(** Between two requests. *)
Record idle (s : Session) : Prop := {
  id_state : state_ s = RequestLine;
  id_request : current_request_ s = Request.set_peer_address (peer_address_ s) Request.init;
  id_length : content_length_ s = 0;
  id_chunked : chunked_body_ s = false;
  id_upgraded : upgraded_ s = false;
  id_sse : sse_active_ s = false
}.

Section Parse.
Context {A : Type}.
Context (handler_ : Request.t -> World (A:=A) -> option Response.t * World (A:=A)).
Context (upgrade_handler_ : option (Request.t -> World (A:=A) -> UpgradeResult * World (A:=A))).
Context (encrypt : bytes -> World (A:=A) -> bytes * World (A:=A)).
Context (validate : Request.t -> option (result ProtocolError bytes)).

Notation headers_loop := (headers_loop upgrade_handler_ encrypt validate).
Notation headers_end := (headers_end upgrade_handler_ encrypt validate).
Notation turn := (turn upgrade_handler_ encrypt validate).

Lemma header_text_line e : printable e -> Sse.LF ∉ header_text e /\ len (header_text e) =? 0 = false.
Proof.
  intros (_ & _ & _ & H1 & H2). unfold header_text. split.
  - apply not_elem_of_app. split; [done|]. apply not_elem_of_app. split; [by apply find_char_None|done].
  - rewrite !len_app. pose proof (len_nonneg (HeaderMap.name e)). pose proof (len_nonneg (HeaderMap.value e)).
    change (len (bs ": ")) with 2. apply Z.eqb_neq. lia.
Qed.

(** One header line of the loop. *)
Lemma headers_loop_step fuel e f s w o rest : printable e ->
  (forall s, header_field (header_text e) s = inr (f s)) ->
  drop (parse_offset_ s) (buffer_ s) = header_text e ++ CRLF ++ rest ->
  exists off, headers_loop (S fuel) (mkSt s w o) = headers_loop fuel (mkSt (f (set_offset off s)) w o) /\
    drop off (buffer_ s) = rest.
Proof.
  intros He Hf E. destruct (header_text_line e He) as [H1 H2].
  destruct (get_line_unread _ _ _ _ H1 E) as [G1 G2]. eexists. cbn [Http1.headers_loop ses].
  rewrite G1. rewrite H2. cbn [ses on_ses]. rewrite Hf. split; [reflexivity|done].
Qed.

(** The plain headers. *)
Lemma headers_loop_plain es fuel s w o rest :
  Forall (fun e => printable e /\ lower (HeaderMap.name e) ∉ framing_names) es ->
  drop (parse_offset_ s) (buffer_ s) = lines (map header_text es) ++ rest ->
  exists off,
    headers_loop (length es + fuel) (mkSt s w o) =
    headers_loop fuel (mkSt (set_offset off (set_request (foldl (fun r e => add_header e r) (current_request_ s) es) s)) w o) /\
    drop off (buffer_ s) = rest.
Proof.
  intros H. revert s. induction H as [|e es [He Hn] H IH]; intros s E.
  - exists (parse_offset_ s). split; [by destruct s|done].
  - unfold lines in E. cbn [map concat] in E. rewrite <- !app_assoc in E.
    destruct (headers_loop_step (length es + fuel) e (fun s => set_request (add_header e (current_request_ s)) s)
      s w o _ He (fun s => header_field_plain e s He Hn) E) as (off & E1 & E2).
    destruct (IH (set_request (add_header e (current_request_ s)) (set_offset off s)) E2) as (off' & E3 & E4).
    exists off'. split; [|done]. cbn [length Nat.add]. rewrite E1. cbn [current_request_ set_offset set_input] in *.
    rewrite E3. done.
Qed.

Lemma fold_headers es r : Request.headers_ (foldl (fun r e => add_header e r) r es) = Request.headers_ r ++ es.
Proof.
  revert r. induction es as [|e es IH]; intros r; cbn [foldl]; [by rewrite app_nil_r|].
  rewrite IH. cbn. unfold HeaderMap.add. rewrite <- app_assoc. by destruct e.
Qed.

Lemma no_upgrade q r : wf_req q -> Request.headers_ r = [] ->
  is_upgrade_attempt (Request.mark_headers_complete (with_head q r)) = false.
Proof.
  intros W E. unfold is_upgrade_attempt, Request.header. cbn [Request.headers_ Request.mark_headers_complete].
  assert (Request.headers_ (with_head q r) = [host_header q] ++ q_headers q ++ [length_header (len (q_body q))]) as ->.
  { unfold with_head. cbn [add_header Request.headers_ Request.set_headers]. rewrite fold_headers. cbn.
    rewrite E. done. }
  assert (forall es, Forall (fun e => lower (HeaderMap.name e) <> bs "upgrade") es ->
    HeaderMap.get (bs "upgrade") es = None) as G.
  { induction 1 as [|e es He _ IH]; [done|]. cbn [HeaderMap.get]. unfold HeaderMap.names_equal.
    rewrite iequals_lower, (bool_decide_false (lower _ = _)) by done. by destruct (negb _). }
  rewrite G; [done|]. constructor; [done|]. apply Forall_app. split; [|by constructor].
  eapply Forall_impl; [apply W|]. intros e [_ N] Eq. apply N. rewrite Eq. unfold framing_names.
  repeat (first [by left|right]).
Qed.

(** The header block, from the first header to the empty line. *)
Lemma headers_loop_head q fuel s w o rest : wf_req q ->
  Request.headers_ (current_request_ s) = [] -> chunked_body_ s = false ->
  drop (parse_offset_ s) (buffer_ s) = lines (request_head q) ++ CRLF ++ rest ->
  (length (q_headers q) + 3 <= fuel)%nat ->
  exists off,
    headers_loop fuel (mkSt s w o) =
    (Fall, mkSt (set_state (if 0 <? len (q_body q) then Body else Complete)
             (set_request (Request.mark_headers_complete (with_head q (current_request_ s)))
             (set_body_framing (len (q_body q)) false (set_offset off s)))) w o) /\
    drop off (buffer_ s) = rest.
Proof.
  intros W Hh Hc E Hf.
  replace fuel with (S (length (q_headers q) + S (S (fuel - length (q_headers q) - 3))))%nat by lia.
  unfold lines, request_head in E. cbn [map concat] in E.
  rewrite map_app, concat_app, <- !app_assoc in E. cbn [map concat] in E. rewrite app_nil_r, <- !app_assoc in E.
  destruct (headers_loop_step (length (q_headers q) + S (S (fuel - length (q_headers q) - 3))) (host_header q)
    (fun s => set_request (Request.set_authority (q_host q) (add_header (host_header q) (current_request_ s))) s)
    s w o _ (wf_host q W) (fun s => header_field_host (q_host q) s (wf_host q W)) E) as (o1 & -> & E1).
  edestruct (headers_loop_plain (q_headers q)) as (o2 & -> & E2); [apply W|exact E1|].
  cbn [current_request_ set_offset set_input buffer_ set_request] in E2 |- *.
  pose proof (len_nonneg (q_body q)) as Hl.
  edestruct (headers_loop_step (S (fuel - length (q_headers q) - 3)) (length_header (len (q_body q))))
    as (o3 & -> & E3); [apply length_header_printable; lia| |exact E2|].
  { intros s0. apply header_field_length. split; [lia|apply W]. }
  cbn [current_request_ set_offset set_input buffer_ set_request set_body_framing] in E3 |- *.
  destruct (get_line_unread _ _ [] rest (not_elem_of_nil _) E3) as [G1 G2].
  exists (o3 + 0 + 2)%nat. split; [|done]. cbn [Http1.headers_loop]. ses_cbn.
  rewrite G1. change (len [] =? 0) with true. cbn iota. unfold Http1.headers_end.
  ses_cbn.
  assert (is_upgrade_attempt (Request.mark_headers_complete (with_head q (current_request_ s))) = false) as U
    by (by apply no_upgrade).
  unfold with_head in *. rewrite U. destruct upgrade_handler_; unfold body_or_complete, on_ses; ses_cbn; rewrite Hc, orb_false_r; done.
Qed.

Lemma lines_length ls : (2 * length ls <= length (lines ls))%nat.
Proof.
  unfold lines. induction ls as [|l ls IH]; cbn [map concat length]; [lia|].
  rewrite !length_app. cbn [length CRLF]. lia.
Qed.

(** The body of a request whose headers were read. *)
Lemma read_body_length q s rest : content_length_ s = len (q_body q) -> chunked_body_ s = false ->
  drop (parse_offset_ s) (buffer_ s) = q_body q ++ rest ->
  exists off, read_body s = (Fall, set_state Complete (set_request
      (Request.mark_body_complete (Request.append_body (q_body q) (current_request_ s))) (set_offset off s))) /\
    drop off (buffer_ s) = rest.
Proof.
  intros Hl Hc E. unfold read_body. rewrite Hc, Hl. pose proof (f_equal length E) as EL.
  rewrite length_drop, length_app in EL. destruct (_ <? _) eqn:F; to_prop; [unfold len in F; lia|].
  unfold len. rewrite Nat2Z.id. exists (parse_offset_ s + length (q_body q))%nat.
  rewrite E, take_app_length. split; [done|]. by rewrite <- drop_drop, E, drop_app_length.
Qed.

Lemma turn_request q s w o rest : wf_req q -> idle s ->
  drop (parse_offset_ s) (buffer_ s) = print_request q ++ rest ->
  exists off,
    turn (mkSt s w o) =
    (Again, mkSt (set_state Complete (set_request (expected_request (peer_address_ s) q)
             (set_body_framing (len (q_body q)) false (set_offset off s)))) w o) /\
    drop off (buffer_ s) = rest.
Proof.
  intros W [I1 I2 I3 I4 I5 I6] E. unfold print_request in E.
  set (line := q_method q ++ _) in E. rewrite <- !app_assoc in E. unfold line in E. clear line.
  assert (Sse.LF ∉ q_method q ++ bs " " ++ q_target q ++ bs " HTTP/1.1") as NL.
  { destruct (wf_method q W). pose proof (wf_target q W).
    apply not_elem_of_app. split; [done|]. apply not_elem_of_app. split; [by apply find_char_None|].
    apply not_elem_of_app. split; [done|by apply find_char_None]. }
  destruct (get_line_unread _ _ _ _ NL E) as [G1 G2].
  unfold Http1.turn. ses_cbn. rewrite I1. change (bool_decide (RequestLine = RequestLine)) with true. cbn iota.
  unfold request_line. ses_cbn. rewrite G1.
  destruct (len (q_method q ++ _) =? 0) eqn:L0.
  { to_prop. rewrite !len_app in L0. change (len (bs " ")) with 1 in L0.
    pose proof (len_nonneg (q_method q)). pose proof (len_nonneg (q_target q)). pose proof (len_nonneg (bs " HTTP/1.1")). lia. }
  clear L0. rewrite parse_request_line_ok by apply W. unfold on_ses. ses_cbn.
  change (bool_decide (Headers = Headers)) with true. cbn iota. rewrite I2.
  set (s1 := set_state Headers _).
  destruct (headers_loop_head q (S (length (buffer_ s))) s1 w o (q_body q ++ rest) W) as (off & -> & G3);
    [done|done|exact G2| |].
  { pose proof (f_equal length G2) as EL. rewrite !length_app, length_drop in EL.
    pose proof (lines_length (request_head q)) as LL. unfold request_head in LL at 1.
    cbn [length] in LL. rewrite length_app, length_map in LL. cbn [length] in LL. lia. }
  ses_cbn. unfold s1 at 1. ses_cbn. rewrite I5. unfold expected_request.
  pose proof (len_nonneg (q_body q)) as Hn.
  destruct (0 <? len (q_body q)) eqn:B; to_prop.
  - change (bool_decide (Body = Body)) with true. cbn iota.
    destruct (read_body_length q (set_state Body (set_request (Request.mark_headers_complete
      (with_head q (current_request_ s1))) (set_body_framing (len (q_body q)) false (set_offset off s1)))) rest)
      as (off' & -> & G4); [done|done|exact G3|].
    exists off'. split; [|exact G4]. destruct (len (q_body q) =? 0) eqn:Z0; to_prop; [lia|]. done.
  - change (bool_decide (Complete = Body)) with false. cbn iota. exists off.
    assert (q_body q = []) as Eb by (destruct (q_body q); [done|rewrite len_cons in B; pose proof (len_nonneg l); lia]).
    rewrite Eb in *. split; [done|exact G3].
Qed.

(** How the service of a list of requests ends: all were answered, the handler
    opened the event stream of a channel, or it threw. *)
Inductive Served := AllAnswered | Streaming (channel : Z) | HandlerThrew.

(** The handler and the response writer on the requests in turn: what is
    written, how it ends, and the world. *)
Fixpoint serve_all (keep : bool) (peer : bytes) (qs : list Req) (w : World (A:=A)) : bytes * Served * World (A:=A) :=
  match qs with
  | [] => ([], AllAnswered, w)
  | q :: r =>
      match handler_ (expected_request peer q) w with
      | (None, w) => ([], HandlerThrew, w)
      | (Some resp, w) =>
          let '(o1, w) := encrypt (serialize_response keep resp) w in
          match Response.sse_channel_ resp with
          | Some c => (o1, Streaming c, w)
          | None => let '(o2, e, w) := serve_all keep peer r w in (o1 ++ o2, e, w)
          end
      end
  end.

(** The session that starts to stream a channel, its buffer dropped, with the
    events that were already pending. *)
Definition start_stream (c : Z) (s : Session) (w : World (A:=A)) : bytes * Session * World (A:=A) :=
  let '(events, s', w') := drain_sse_outbound encrypt (set_sse (Some c) true false s)
                             (with_channel (Some c) (Sse.set_wakeup (sse_wakeup_ s)) w) in
  (events, reset (set_input [] 0 s'), w').

(** The session whose handler threw: the request is still there, complete. *)
Definition left_complete (s s' : Session) : Prop :=
  exists r n off buf, s' = set_state Complete (set_request r (set_body_framing n false (set_input buf off s))).

Notation feed_loop := (feed_loop handler_ upgrade_handler_ encrypt validate).

(** A completed request: the handler, the response, and back to idle, to the
    stream, or out with the exception. *)
Lemma complete_idle q off s w o : idle s ->
  let st := mkSt (set_state Complete (set_request (expected_request (peer_address_ s) q)
             (set_body_framing (len (q_body q)) false (set_offset off s)))) w o in
  match handler_ (expected_request (peer_address_ s) q) w with
  | (None, w1) => complete handler_ encrypt st = (Throw, mkSt (ses st) w1 o)
  | (Some resp, w1) =>
      let '(e, w2) := encrypt (serialize_response (keep_alive_ s) resp) w1 in
      match Response.sse_channel_ resp with
      | Some c => let '(ev, s', w3) := start_stream c s w2 in
                  complete handler_ encrypt st = (Break, mkSt s' w3 (o ++ e ++ ev))
      | None => complete handler_ encrypt st = (Again, mkSt (set_offset off s) w2 (o ++ e))
      end
  end.
Proof.
  intros [I1 I2 I3 I4 I5 I6] st. unfold complete, emit. ses_cbn. unfold st. ses_cbn.
  destruct (handler_ (expected_request (peer_address_ s) q) w) as [[resp|] w1]; [|done]. ses_cbn.
  destruct (encrypt (serialize_response (keep_alive_ s) resp) w1) as [e w2].
  destruct (Response.sse_channel_ resp) as [c|]; ses_cbn.
  - unfold start_stream, drain_sse_outbound. ses_cbn.
    set (w3 := with_channel (Some c) (Sse.set_wakeup (sse_wakeup_ s)) w2).
    destruct (channels w3 !! c) as [ch|]; [|by unfold reset; ses_cbn; rewrite !app_nil_r].
    destruct (drain_events _ _ _) as [raw ch1]. destruct (Sse.closed_ ch1 && _); ses_cbn;
      (destruct (len _ =? 0); [by rewrite !app_nil_r|]);
      destruct (encrypt _ _) as [ev w4]; by rewrite app_assoc.
  - unfold on_ses, reset. ses_cbn. destruct s; cbn in *; by subst.
Qed.

Lemma idle_offset off s : idle s -> idle (set_offset off s).
Proof. by intros []. Qed.

Lemma print_request_length q : (2 <= length (print_request q))%nat.
Proof. unfold print_request. rewrite !length_app. cbn [length CRLF]. lia. Qed.

Lemma start_stream_input c b off s w : start_stream c (set_input b off s) w = start_stream c s w.
Proof.
  unfold start_stream, drain_sse_outbound. ses_cbn. destruct (channels _ !! c) as [ch|]; [|done].
  destruct (drain_events _ _ _) as [raw ch1]. destruct (Sse.closed_ ch1 && _); ses_cbn;
    (destruct (len _ =? 0); [done|]); by destruct (encrypt _ _).
Qed.

Lemma feed_loop_requests qs fuel s w o : Forall wf_req qs -> idle s ->
  drop (parse_offset_ s) (buffer_ s) = concat (map print_request qs) -> (length qs < fuel)%nat ->
  match serve_all (keep_alive_ s) (peer_address_ s) qs w with
  | (d, AllAnswered, w') => exists off,
      feed_loop fuel (mkSt s w o) = finish (mkSt (set_offset off s) w' (o ++ d)) /\ drop off (buffer_ s) = []
  | (d, Streaming c, w') =>
      feed_loop fuel (mkSt s w o) = let '(ev, s', w'') := start_stream c s w' in (Sent (o ++ d ++ ev), s', w'')
  | (_, HandlerThrew, w') => exists s', feed_loop fuel (mkSt s w o) = (Raised, s', w') /\ left_complete s s'
  end.
Proof.
  intros H. revert fuel s w o. induction H as [|q qs W H IH]; intros fuel s w o I E Hf;
    (destruct fuel as [|fuel]; [lia|]); cbn [map concat] in E; cbn [Http1.feed_loop serve_all]; ses_cbn.
  - pose proof (f_equal length E) as EL. rewrite length_drop in EL. cbn in EL.
    replace (_ <? _)%nat with false by (symmetry; apply Nat.ltb_ge; lia). cbn [negb].
    exists (parse_offset_ s). split; [|done]. rewrite app_nil_r. by destruct s.
  - pose proof (f_equal length E) as EL. rewrite length_drop, length_app in EL.
    pose proof (print_request_length q).
    replace (_ <? _)%nat with true by (symmetry; apply Nat.ltb_lt; lia). cbn [negb].
    destruct (turn_request q s w o _ W I E) as (off & -> & E1). ses_cbn.
    change (bool_decide (Complete = Complete)) with true. cbn iota.
    pose proof (complete_idle q off s w o I) as C. cbn zeta in C.
    destruct (handler_ (expected_request (peer_address_ s) q) w) as [[resp|] w1].
    2:{ rewrite C. eexists. split; [done|]. by eexists _, _, _, _. }
    destruct (encrypt (serialize_response (keep_alive_ s) resp) w1) as [e w2].
    destruct (Response.sse_channel_ resp) as [c|].
    { destruct (start_stream c s w2) as [[ev s'] w3]. by rewrite C. }
    rewrite C. pose proof (IH fuel (set_offset off s) w2 (o ++ e) (idle_offset off s I) E1 ltac:(cbn in Hf; lia)) as R.
    ses_cbn in R. 
    destruct (serve_all (keep_alive_ s) (peer_address_ s) qs w2) as [[d []] w3].
    + destruct R as (off' & -> & R). exists off'. split; [|done]. by rewrite app_assoc.
    + rewrite R. unfold set_offset. rewrite start_stream_input. destruct (start_stream channel s w3) as [[ev s'] w4].
      by rewrite <- !app_assoc.
    + destruct R as (s' & -> & r & n & off' & buf & ->). eexists. split; [done|]. by exists r, n, off', buf.
Qed.

(** [C2] Requests printed one after the other on a connection and delivered in
    one read are parsed back exactly: the handler is called once per request,
    in order, with the method, target, authority, headers and body that were
    printed.  When it returns ordinary responses, the output is the
    concatenation of the encrypted responses in that order and the session is
    left ready for the next request with nothing buffered.  The first response
    that opens an event stream ends the service: it and the events pending on
    its channel are sent after the responses before it, the session streams the
    channel, and the requests behind it are dropped.  The first exception of
    the handler leaves [feed_data]: nothing is sent, the responses before it are
    lost, and the session keeps the request as complete. *)
Theorem pipelined_requests qs s w (Hwf : Forall wf_req qs) (Hidle : idle s)
  (Hbuf : buffer_ s = []) (Hoff : parse_offset_ s = 0%nat) :
  let r := feed_data handler_ upgrade_handler_ encrypt validate (concat (map print_request qs)) s w in
  match serve_all (keep_alive_ s) (peer_address_ s) qs w with
  | (d, AllAnswered, w') => r = (Sent d, s, w')
  | (d, Streaming c, w') =>
      let '(events, s', w'') := start_stream c s w' in r = (Sent (d ++ events), s', w'')
  | (_, HandlerThrew, w') => exists s', r = (Raised, s', w') /\ left_complete s s'
  end.
Proof.
  cbn zeta. unfold feed_data. rewrite (id_sse s Hidle), Hbuf, Hoff. cbn zeta.
  set (d := concat (map print_request qs)). change ([] ++ d) with d. change (buffer_ (set_input d 0 s)) with d.
  pose proof (feed_loop_requests qs (S (length d)) (set_input d 0 s) w [] Hwf) as R. ses_cbn in R.
  specialize (R ltac:(by destruct Hidle) eq_refl).
  specialize (R ltac:(unfold d; clear; induction qs as [|q qs IH]; cbn [map concat length];
    [lia|rewrite length_app; pose proof (print_request_length q); lia])).
  destruct (serve_all (keep_alive_ s) (peer_address_ s) qs w) as [[d' []] w'].
  - destruct R as (off & E1 & E2). rewrite E1. unfold finish. ses_cbn. cbn [app]. do 2 f_equal.
    rewrite (id_upgraded s Hidle). cbn [negb andb]. rewrite andb_true_r.
    destruct (0 <? off)%nat eqn:F; to_prop; [cbn in E2; rewrite E2|].
    + rewrite <- Hoff, <- Hbuf. by destruct s.
    + assert (off = 0%nat) as -> by lia. cbn in E2. rewrite drop_0 in E2. rewrite E2.
      rewrite <- Hoff, <- Hbuf. by destruct s.
  - rewrite R, start_stream_input. by destruct (start_stream channel s w') as [[ev s'] w''].
  - destruct R as (s' & -> & r & n & off & buf & ->). eexists. split; [done|]. by exists r, n, off, buf.
Qed.
End Parse.

(** A handler that answers with the method, target and body it was given. *)
Definition mirror (r : Request.t) (w : World (A:=unit)) : option Response.t * World (A:=unit) :=
  (Some (Response.text (Request.method_ r ++ bs "|" ++ Request.path_ r ++ bs "|" ++ Request.body_ r) Response.init), w).

Definition no_tls (b : bytes) (w : World (A:=unit)) : bytes * World (A:=unit) := (b, w).

Definition sample_requests : list Req :=
  [mkReq (bs "POST") (bs "/items?x=1") (bs "example.org") [HeaderMap.mkEntry (bs "X-A") (bs "b c")] (bs "hello");
   mkReq (bs "GET") (bs "/a b") (bs "example.org") [] []].

Lemma pipelined_requests_witness :
  feed_data mirror None no_tls (fun _ => None) (concat (map print_request sample_requests))
    (new_session false) (mkWorld tt ∅) =
  (Sent (fst (fst (serve_all mirror no_tls true [] sample_requests (mkWorld tt ∅)))), new_session false, mkWorld tt ∅).
Proof.
  refine (pipelined_requests mirror None no_tls (fun _ => None) sample_requests (new_session false) (mkWorld tt ∅) _ _ eq_refl eq_refl); [|done].
  repeat constructor; cbn; try (by apply find_char_None); try (by vm_compute); try done.
  all: unfold framing_names; repeat (apply not_elem_of_cons; split; [done|]); by apply not_elem_of_nil.
Defined.

(** A handler that throws on the target [/boom] and opens a stream on [/events]. *)
Definition moody (r : Request.t) (w : World (A:=unit)) : option Response.t * World (A:=unit) :=
  if bool_decide (Request.path_ r = bs "/boom") then (None, w)
  else if bool_decide (Request.path_ r = bs "/events") then (Some (Response.event_stream (Some 3) Response.init), w)
  else mirror r w.

Definition ask_for (target : string) : Req := mkReq (bs "GET") (bs target) (bs "example.org") [] [].

(** The answer to the request before the one that throws is not sent, and the
    request behind an event stream is dropped. *)
Example exception_loses_answers :
  fst (fst (feed_data moody None no_tls (fun _ => None)
    (concat (map print_request [ask_for "/a"; ask_for "/boom"])) (new_session false) (mkWorld tt ∅))) = Raised /\
  (exists d s w, feed_data moody None no_tls (fun _ => None)
    (concat (map print_request [ask_for "/events"; ask_for "/b"])) (new_session false) (mkWorld tt ∅) =
      (Sent d, s, w) /\ buffer_ s = [] /\ sse_active_ s = true).
Proof. split; [by vm_compute|]. eexists _, _, _. split; [vm_compute; reflexivity|done]. Qed.

(** ** Chunked bodies *)

Definition print_chunks (cs : list bytes) : bytes := concat (map (append_chunk []) cs).

Lemma to_hex_no x n : 0 <= n -> digit_val 16 x = None -> x ∉ to_hex n.
Proof.
  intros Hn Hx Hin. destruct (to_base_spec 16 n) as (_ & H & _); [lia..|].
  apply (proj1 (Forall_forall _ _) H) in Hin. rewrite Hx in Hin. by destruct Hin.
Qed.

#[global] Arguments to_hex : simpl never.
#[global] Arguments wrap64 : simpl never.

(** One chunk of a buffer that fits in memory. *)
Lemma chunk_loop_step fuel c s rest : c <> [] -> len (buffer_ s) < 2 ^ 64 ->
  drop (parse_offset_ s) (buffer_ s) = append_chunk [] c ++ rest ->
  exists off, chunk_loop (S fuel) s =
    chunk_loop fuel (set_offset off (set_request (Request.append_body c (current_request_ s)) s)) /\
    drop off (buffer_ s) = rest.
Proof.
  intros Hc Hb E. unfold append_chunk in E. rewrite app_nil_l, <- !app_assoc in E.
  pose proof (f_equal length E) as EL. rewrite length_drop, !length_app in EL. cbn [length CRLF] in EL.
  assert (1 <= length c)%nat by (destruct c; [done|cbn; lia]).
  assert (0 < 2 ^ 64) by lia. pose proof (len_nonneg c) as Hlc.
  cbn [chunk_loop]. replace (_ <? _)%nat with true by (symmetry; apply Nat.ltb_lt; lia). cbn [negb].
  assert (find_sub CRLF (to_hex (len c) ++ CRLF ++ c ++ CRLF ++ rest) = Some (length (to_hex (len c)))) as FS
    by (apply find_sub_crlf; [done|by apply to_hex_no]).
  rewrite E, FS.
  rewrite take_app_length. unfold chunk_size_text.
  rewrite (proj2 (find_char_None ";"%char (to_hex (len c)))) by (apply to_hex_no; done).
  rewrite stoull_to_hex by (unfold len in *; unfold u64_max; lia).
  destruct (len c =? 0) eqn:Z0; to_prop; [unfold len in Z0; lia|].
  set (ds := (parse_offset_ s + length (to_hex (len c)) + 2)%nat).
  assert (drop ds (buffer_ s) = c ++ CRLF ++ rest) as E2.
  { unfold ds. rewrite <- Nat.add_assoc, <- drop_drop, E, <- drop_drop, drop_app_length. done. }
  pose proof (f_equal length E2) as EL2. rewrite length_drop, !length_app in EL2. cbn [length CRLF] in EL2.
  assert (Z.of_nat ds + len c + 2 <= len (buffer_ s)) as Hfit by (unfold len; lia).
  rewrite (wrap64_small (Z.of_nat ds + len c)) by (unfold in_u64; lia).
  rewrite (wrap64_small (Z.of_nat ds + len c + 2)), (wrap64_small (Z.of_nat ds + len c + 1)) by (unfold in_u64; lia).
  destruct (len (buffer_ s) <? _) eqn:F1; to_prop; [lia|].
  assert (forall k, buffer_ s !! (ds + k)%nat = (c ++ CRLF ++ rest) !! k) as LK
    by (intros k; by rewrite <- lookup_drop, E2).
  replace (Z.to_nat (Z.of_nat ds + len c)) with (ds + (length c + 0))%nat by (unfold len; lia).
  replace (Z.to_nat (Z.of_nat ds + len c + 1)) with (ds + (length c + 1))%nat by (unfold len; lia).
  rewrite !LK.
  assert (forall k x, CRLF !! k = Some x -> (c ++ CRLF ++ rest) !! (length c + k)%nat = Some x) as LC.
  { intros k x Hk. rewrite lookup_app_r by lia. replace (length c + k - length c)%nat with k by lia.
    by apply lookup_app_l_Some. }
  rewrite (LC 0%nat (byte_of_Z 13) eq_refl), (LC 1%nat (byte_of_Z 10) eq_refl).
  change (bool_decide (byte_of_Z 13 = Sse.CR)) with true. change (bool_decide (byte_of_Z 10 = Sse.LF)) with true.
  cbn [negb orb]. destruct (len (buffer_ s) <? Z.of_nat ds + len c) eqn:F2; to_prop; [lia|].
  assert (Z.to_nat (len c) = length c) as -> by (unfold len; lia). rewrite E2, take_app_length.
  eexists. split; [reflexivity|].
  replace (Z.to_nat (Z.of_nat ds + len c + 2)) with (ds + (length c + 2))%nat by (unfold len; lia).
  rewrite <- drop_drop, E2, <- drop_drop, drop_app_length. done.
Qed.

(** [C5] A chunked body, each piece written the way the server
    itself writes chunks and the whole ended by the last chunk, decodes to the
    concatenation of the pieces; the request is complete and nothing after the
    last chunk is consumed. *)
Theorem chunked_body_roundtrip cs rest s
  (Hchunked : chunked_body_ s = true) (Hcs : Forall (fun c => c <> []) cs)
  (Hmem : len (buffer_ s) < 2 ^ 64)
  (Hunread : drop (parse_offset_ s) (buffer_ s) = print_chunks cs ++ bs "0" ++ CRLF ++ CRLF ++ rest) :
  exists s', read_body s = (Fall, s') /\ state_ s' = Complete /\
    current_request_ s' = Request.mark_body_complete (Request.append_body (concat cs) (current_request_ s)) /\
    drop (parse_offset_ s') (buffer_ s') = rest /\ buffer_ s' = buffer_ s.
Proof.
  unfold read_body. rewrite Hchunked. pose proof (f_equal length Hunread) as EL.
  rewrite length_drop, length_app in EL.
  assert (length cs <= length (print_chunks cs))%nat as Hlen.
  { clear. unfold print_chunks. induction cs as [|c cs IH]; cbn [map concat length]; [lia|].
    rewrite length_app. unfold append_chunk at 1. rewrite !length_app. cbn [length CRLF]. lia. }
  assert (length cs + 2 <= S (length (buffer_ s)))%nat as Hf by (rewrite !length_app in EL; cbn in EL; lia).
  clear Hlen EL Hchunked. revert Hf. generalize (S (length (buffer_ s))). intros fuel Hf.
  revert s fuel Hf Hmem Hunread. induction Hcs as [|c cs Hc _ IH]; intros s fuel Hf Hmem E.
  - destruct fuel as [|fuel]; [lia|]. cbn [print_chunks map concat app] in E.
    pose proof (f_equal length E) as EL. rewrite length_drop in EL. cbn in EL.
    cbn [chunk_loop]. replace (_ <? _)%nat with true by (symmetry; apply Nat.ltb_lt; lia). cbn [negb].
    rewrite E. change (find_sub CRLF _) with (Some 1%nat). cbn [take].
    change (stoull 16 (chunk_size_text _)) with (@inr number_error _ (0, @nil byte)). cbn iota beta.
    change (0 =? 0) with true. cbn iota.
    assert (drop (parse_offset_ s + 1 + 2) (buffer_ s) = [] ++ CRLF ++ rest) as E2.
    { by rewrite <- Nat.add_assoc, <- drop_drop, E. }
    destruct (get_line_unread _ _ [] rest (not_elem_of_nil _) E2) as [G1 G2].
    cbn [trailer_loop]. ses_cbn. rewrite G1. change (len [] =? 0) with true. cbn iota.
    eexists. split; [reflexivity|]. ses_cbn. split_and!; [done| |exact G2|done].
    cbn [concat]. f_equal. destruct (current_request_ s). unfold Request.append_body. cbn. by rewrite app_nil_r.
  - destruct fuel as [|fuel]; [cbn in Hf; lia|].
    unfold print_chunks in E. cbn [map concat] in E. rewrite <- app_assoc in E.
    destruct (chunk_loop_step fuel c s _ Hc Hmem E) as (off & -> & E2).
    destruct (IH (set_offset off (set_request (Request.append_body c (current_request_ s)) s)) fuel) as (s' & H1 & H2 & H3 & H4 & H5);
      [cbn in Hf; lia|done|exact E2|].
    exists s'. split_and!; [done|done| |done|done]. rewrite H3. ses_cbn. cbn [concat].
    unfold Request.append_body, Request.mark_body_complete. cbn. by rewrite app_assoc.
Qed.

Definition body_session (unread : bytes) : Session :=
  set_input unread 0 (set_state Body (set_body_framing 0 true (new_session false))).

Lemma chunked_body_roundtrip_witness :
  exists s', read_body (body_session (print_chunks [bs "Wiki"; bs "pedia"] ++ bs "0" ++ CRLF ++ CRLF ++ bs "GET")) = (Fall, s') /\
    state_ s' = Complete /\
    current_request_ s' = Request.mark_body_complete
      (Request.append_body (concat [bs "Wiki"; bs "pedia"]) (current_request_ (new_session false))) /\
    drop (parse_offset_ s') (buffer_ s') = bs "GET" /\
    buffer_ s' = buffer_ (body_session (print_chunks [bs "Wiki"; bs "pedia"] ++ bs "0" ++ CRLF ++ CRLF ++ bs "GET")).
Proof.
  apply (chunked_body_roundtrip [bs "Wiki"; bs "pedia"] (bs "GET")
    (body_session (print_chunks [bs "Wiki"; bs "pedia"] ++ bs "0" ++ CRLF ++ CRLF ++ bs "GET")));
    [done|by repeat constructor|by vm_compute|done].
Defined.

(** ** The loops end *)

(** The buffer is the same and [n] bytes or more were consumed. *)
Definition advances (n : nat) (s s' : Session) : Prop :=
  buffer_ s' = buffer_ s /\ (parse_offset_ s + n <= parse_offset_ s' <= length (buffer_ s))%nat.

(** A state in which [feed_data] expects bytes. *)
Definition live (s : Session) : Prop :=
  (parse_offset_ s <= length (buffer_ s))%nat /\
  match state_ s with
  | RequestLine | Headers => True
  | Body => chunked_body_ s = true \/ 0 < content_length_ s
  | _ => False
  end.

Lemma advances_le n m s s' : (m <= n)%nat -> advances n s s' -> advances m s s'.
Proof. intros H [H1 H2]. split; [done|lia]. Qed.

Lemma advances_0 s : (parse_offset_ s <= length (buffer_ s))%nat -> advances 0 s s.
Proof. intros H. split; [done|lia]. Qed.

Lemma header_field_frame line s :
  match header_field line s with
  | inl (_, s') => buffer_ s' = buffer_ s /\ parse_offset_ s' = parse_offset_ s
  | inr s' => buffer_ s' = buffer_ s /\ parse_offset_ s' = parse_offset_ s /\ state_ s' = state_ s /\
      upgraded_ s' = upgraded_ s
  end.
Proof.
  unfold header_field. destruct (find_char _ _); [|done]. cbn zeta.
  destruct (bool_decide (_ = bs "content-length")); [by destruct (stoull _ _) as [|[]]|].
  destruct (bool_decide (_ = bs "transfer-encoding")); [by destruct (bool_decide _)|].
  destruct (bool_decide (_ = bs "connection")); [by destruct (bool_decide _); [|destruct (bool_decide _)]|].
  by destruct (bool_decide (_ = bs "host")).
Qed.

Lemma trailer_loop_progress fuel s : (length (buffer_ s) - parse_offset_ s < fuel)%nat ->
  (parse_offset_ s <= length (buffer_ s))%nat ->
  match trailer_loop fuel s with
  | (Fall, s') => advances 2 s s' /\ state_ s' = Complete /\ upgraded_ s' = upgraded_ s
  | (Break, s') => advances 0 s s' /\ state_ s' = state_ s /\ chunked_body_ s' = chunked_body_ s /\
      upgraded_ s' = upgraded_ s
  | _ => False
  end.
Proof.
  revert s. induction fuel as [|fuel IH]; intros s Hf Ho; [lia|]. cbn [trailer_loop].
  destruct (get_line _ _) as [[line o]|] eqn:G; [|split_and!; [by apply advances_0|done..]].
  apply get_line_bound in G as [G _]. destruct (len line =? 0).
  - split_and!; [|done..]. split; ses_cbn; [done|lia].
  - specialize (IH (set_offset o s)). ses_cbn in IH. specialize (IH ltac:(lia) ltac:(lia)).
    destruct (trailer_loop fuel (set_offset o s)) as [[] s']; try done; destruct IH as [[A1 A2] IH];
      ses_cbn in A1; ses_cbn in A2; ses_cbn in IH; (split; [split; [done|lia]|exact IH]).
Qed.

Lemma chunk_loop_progress fuel s : (length (buffer_ s) - parse_offset_ s < fuel)%nat ->
  (parse_offset_ s <= length (buffer_ s))%nat -> len (buffer_ s) < 2 ^ 63 ->
  match chunk_loop fuel s with
  | (Fall, s') => advances 2 s s' /\ state_ s' = Complete /\ upgraded_ s' = upgraded_ s
  | (Break, s') => advances 0 s s' /\ state_ s' = state_ s /\ chunked_body_ s' = chunked_body_ s /\
      upgraded_ s' = upgraded_ s
  | (Fail _, _) | (Ub, _) => True
  | _ => False
  end.
Proof.
  intros Hf Ho Hm. revert s Hf Ho Hm. induction fuel as [|fuel IH]; intros s Hf Ho Hm; [lia|]. cbn [chunk_loop].
  destruct (_ <? _)%nat eqn:L; cbn [negb]; to_prop; [|split_and!; [by apply advances_0|done..]].
  destruct (find_sub _ _) as [i|] eqn:F; [|split_and!; [by apply advances_0|done..]].
  apply find_sub_bound in F. rewrite length_drop in F. cbn [length CRLF] in F.
  destruct (stoull _ _) as [|[size ?]] eqn:St; [done|].
  set (ds := (parse_offset_ s + i + 2)%nat).
  destruct (size =? 0) eqn:Z0; to_prop.
  { pose proof (trailer_loop_progress (S (length (buffer_ s))) (set_offset ds s)) as T. ses_cbn in T.
    specialize (T ltac:(lia) ltac:(unfold ds; lia)).
    destruct (trailer_loop _ _) as [[] s']; try done; destruct T as [[A1 A2] T];
      ses_cbn in A1; ses_cbn in A2; ses_cbn in T; (split; [split; [done|unfold ds in A2; lia]|exact T]). }
  destruct (len (buffer_ s) <? _) eqn:B1; to_prop; [split_and!; [by apply advances_0|done..]|].
  destruct (buffer_ s !! _); [|done]. destruct (buffer_ s !! _); [|done].
  destruct (_ || _); [done|]. destruct (len (buffer_ s) <? _) eqn:B2; to_prop; [done|].
  assert (0 <= size) as Hs by (eapply stoull_nonneg; [|exact St]; lia).
  rewrite (wrap64_small (Z.of_nat ds + size)) in * by (unfold in_u64; lia).
  rewrite (wrap64_small (_ + 2)) in * by (unfold in_u64; lia).
  match goal with |- context [chunk_loop fuel ?x] => specialize (IH x) end.
  ses_cbn in IH. unfold len in *. specialize (IH ltac:(lia) ltac:(lia) Hm).
  destruct (chunk_loop fuel _) as [[] s']; try done; destruct IH as [[A1 A2] IH];
    ses_cbn in A1; ses_cbn in A2; ses_cbn in IH; (split; [split; [done|lia]|exact IH]).
Qed.

Section Termination.
Context {A : Type}.
Context (handler_ : Request.t -> World (A:=A) -> option Response.t * World (A:=A)).
Context (upgrade_handler_ : option (Request.t -> World (A:=A) -> UpgradeResult * World (A:=A))).
Context (encrypt : bytes -> World (A:=A) -> bytes * World (A:=A)).
Context (validate : Request.t -> option (result ProtocolError bytes)).

(** What the end of the headers leads to. *)
Definition headers_done (s : Session) : Prop :=
  upgraded_ s = true \/
  match state_ s with
  | RequestLine | Complete => True
  | Body => chunked_body_ s = true \/ 0 < content_length_ s
  | _ => False
  end.

Lemma emit_ses raw (st : St (A:=A)) : ses (emit encrypt raw st) = ses st.
Proof. unfold emit. by destruct (encrypt _ _). Qed.

Lemma headers_end_progress (st : St (A:=A)) :
  match headers_end upgrade_handler_ encrypt validate st with
  | (Fall, st') => buffer_ (ses st') = buffer_ (ses st) /\ parse_offset_ (ses st') = parse_offset_ (ses st) /\
      headers_done (ses st')
  | (Ub, _) => True
  | _ => False
  end.
Proof.
  assert (forall st' : St (A:=A), buffer_ (ses st') = buffer_ (ses st) ->
    parse_offset_ (ses st') = parse_offset_ (ses st) ->
    buffer_ (ses (body_or_complete st')) = buffer_ (ses st) /\
    parse_offset_ (ses (body_or_complete st')) = parse_offset_ (ses st) /\
    headers_done (ses (body_or_complete st'))) as B.
  { intros st' H1 H2. split_and!; [done|done|]. right. unfold body_or_complete, on_ses. ses_cbn.
    destruct (_ || _) eqn:E; [|done]. apply orb_true_iff in E as [E|E]; [right; by to_prop|by left]. }
  assert (forall status body (st' : St (A:=A)), buffer_ (ses st') = buffer_ (ses st) ->
    parse_offset_ (ses st') = parse_offset_ (ses st) ->
    buffer_ (ses (reject_upgrade encrypt status body st')) = buffer_ (ses st) /\
    parse_offset_ (ses (reject_upgrade encrypt status body st')) = parse_offset_ (ses st) /\
    headers_done (ses (reject_upgrade encrypt status body st'))) as R.
  { intros status body st' H1 H2. unfold reject_upgrade, on_ses. ses_cbn. rewrite emit_ses.
    split_and!; [done|done|by right]. }
  unfold headers_end. cbn zeta. destruct upgrade_handler_ as [up|]; [|by apply B].
  destruct (is_upgrade_attempt _); [|by apply B]. destruct (up _ _) as [u w].
  destruct u as [|[h|] p sp|status body]; [by apply B| |by apply B|by apply R].
  destruct (validate _) as [[e|key]|]; [by apply R| |done].
  unfold on_ses. ses_cbn. rewrite emit_ses. split_and!; [done|done|by left].
Qed.

Lemma headers_loop_progress fuel (st : St (A:=A)) :
  (length (buffer_ (ses st)) - parse_offset_ (ses st) < fuel)%nat ->
  (parse_offset_ (ses st) <= length (buffer_ (ses st)))%nat ->
  match headers_loop upgrade_handler_ encrypt validate fuel st with
  | (Fall, st') => advances 2 (ses st) (ses st') /\ headers_done (ses st')
  | (Break, st') => advances 0 (ses st) (ses st') /\ state_ (ses st') = state_ (ses st)
  | (Fail _, _) | (Ub, _) => True
  | _ => False
  end.
Proof.
  revert st. induction fuel as [|fuel IH]; intros st Hf Ho; [lia|]. cbn [headers_loop].
  destruct (get_line _ _) as [[line o]|] eqn:G; [|split; [by apply advances_0|done]].
  apply get_line_bound in G as [G _]. destruct (len line =? 0).
  - pose proof (headers_end_progress (on_ses (set_offset o) st)) as H.
    destruct (headers_end _ _ _ _) as [[] st']; try done. destruct H as (H1 & H2 & H3).
    unfold on_ses in H1, H2. ses_cbn in H1. ses_cbn in H2. split; [|done]. split; [done|lia].
  - unfold on_ses at 1. ses_cbn. pose proof (header_field_frame line (set_offset o (ses st))) as F.
    destruct (header_field _ _) as [[code s]|s]; [done|]. destruct F as (F1 & F2 & F3 & _).
    ses_cbn in F1. ses_cbn in F2. ses_cbn in F3.
    match goal with |- context [headers_loop _ _ _ fuel ?x] => specialize (IH x) end.
    unfold on_ses in IH. ses_cbn in IH. rewrite F1, F2 in IH. specialize (IH ltac:(lia) ltac:(lia)).
    unfold on_ses. ses_cbn.
    destruct (headers_loop _ _ _ fuel _) as [[] st']; try done; destruct IH as [[A1 A2] IH].
    + split; [|done]. rewrite F1 in A1, A2. split; [done|lia].
    + split; [|by rewrite IH]. rewrite F1 in A1, A2. split; [done|lia].
Qed.

Lemma read_body_progress s : live s -> state_ s = Body -> len (buffer_ s) < 2 ^ 63 ->
  match read_body s with
  | (Fall, s') => advances 1 s s' /\ state_ s' = Complete /\ upgraded_ s' = upgraded_ s
  | (Break, s') => advances 0 s s' /\ live s'
  | (Fail _, _) | (Ub, _) => True
  | _ => False
  end.
Proof.
  intros [L1 L2] Hs Hm. rewrite Hs in L2. unfold read_body. destruct (chunked_body_ s) eqn:C.
  - pose proof (chunk_loop_progress (S (length (buffer_ s))) s ltac:(lia) L1 Hm) as H.
    destruct (chunk_loop _ _) as [[] s']; try done.
    + destruct H as (H1 & H2 & H3). split_and!; [|done|done]. eapply advances_le; [|exact H1]. lia.
    + destruct H as (H1 & H2 & H3 & H4). split; [done|]. destruct H1 as [A1 A2]. split; [rewrite A1; lia|].
      rewrite H2, Hs. left. by rewrite H3.
  - destruct L2 as [?|L2]; [done|].
    destruct (_ <? content_length_ s) eqn:F; to_prop.
    + split; [by apply advances_0|]. split; [done|]. rewrite Hs. by right.
    + split_and!; [|done|done]. split; ses_cbn; [done|lia].
Qed.

Lemma request_line_progress (st : St (A:=A)) :
  (parse_offset_ (ses st) <= length (buffer_ (ses st)))%nat -> state_ (ses st) = RequestLine ->
  match request_line st with
  | (Fall, st') => advances 2 (ses st) (ses st') /\ state_ (ses st') = Headers
  | (Again, st') => advances 2 (ses st) (ses st') /\ state_ (ses st') = RequestLine
  | (Break, st') => st' = st
  | (Fail _, _) => True
  | _ => False
  end.
Proof.
  intros Ho Hs. unfold request_line. destruct (get_line _ _) as [[line o]|] eqn:G; [|done].
  apply get_line_bound in G as [G _]. destruct (len line =? 0).
  - split; [split; ses_cbn; [done|lia]|done].
  - destruct (parse_request_line line) as [[m p]|]; [|done]. split; [split; ses_cbn; [done|lia]|done].
Qed.

Notation turn := (turn upgrade_handler_ encrypt validate).

Definition turn_ok (st : St (A:=A)) (r : Ctl * St (A:=A)) : Prop :=
  match r with
  | (Again, st') => advances 1 (ses st) (ses st') /\
      (state_ (ses st') = RequestLine \/ state_ (ses st') = Complete)
  | (Break, st') => advances 0 (ses st) (ses st') /\ (live (ses st') \/ upgraded_ (ses st') = true)
  | (Fail _, _) | (Ub, _) => True
  | _ => False
  end.

(** The body part of a turn, after the headers. *)
Lemma turn_body (st0 st : St (A:=A)) : advances 1 (ses st0) (ses st) \/
    (ses st0 = ses st /\ live (ses st) /\ state_ (ses st) = Body) -> headers_done (ses st) ->
  len (buffer_ (ses st0)) < 2 ^ 63 ->
  turn_ok st0
    (if upgraded_ (ses st) then (Break, st)
     else
       let '(c, s) := if bool_decide (state_ (ses st) = Body) then read_body (ses st) else (Fall, ses st) in
       let st := on_ses (fun _ => s) st in
       match c with Fall => (Again, st) | c => (c, st) end).
Proof.
  intros Ha Hd Hm.
  assert (advances 0 (ses st0) (ses st)) as A0.
  { destruct Ha as [Ha|(E & L & _)]; [eapply advances_le; [|exact Ha]; lia|].
    rewrite E. apply advances_0, L. }
  destruct (upgraded_ (ses st)) eqn:U; [split; [done|by right]|].
  destruct Hd as [Hd|Hd]; [congruence|].
  destruct (decide (state_ (ses st) = Body)) as [EB|NB].
  - rewrite (bool_decide_true (state_ (ses st) = Body)) by done.
    assert (live (ses st)) as L. { rewrite EB in Hd. split; [rewrite (proj1 A0); apply A0|by rewrite EB]. }
    pose proof (read_body_progress (ses st) L EB ltac:(rewrite (proj1 A0); done)) as P.
    destruct (read_body (ses st)) as [[] s']; try done; unfold turn_ok, on_ses; ses_cbn.
    + destruct P as ((P1 & P2) & P3 & _). split; [|by right]. destruct A0 as [A1 A2].
      split; [congruence|]. rewrite A1 in P2. lia.
    + destruct P as ((P1 & P2) & P3). split; [|by left]. destruct A0 as [A1 A2].
      split; [congruence|]. rewrite A1 in P2. lia.
  - rewrite (bool_decide_false (state_ (ses st) = Body)) by done. unfold turn_ok, on_ses. ses_cbn.
    destruct Ha as [Ha|(_ & _ & ?)]; [|done]. split; [done|]. destruct (state_ (ses st)); tauto.
Qed.

Lemma turn_progress (st : St (A:=A)) : live (ses st) -> len (buffer_ (ses st)) < 2 ^ 63 -> turn_ok st (turn st).
Proof.
  intros [L1 L2] Hm. unfold Http1.turn.
  (* the headers part, from any session that got here *)
  assert (forall st1 : St (A:=A), advances 0 (ses st) (ses st1) -> state_ (ses st1) = Headers ->
    turn_ok st (let '(c, st2) := headers_loop upgrade_handler_ encrypt validate (S (length (buffer_ (ses st1)))) st1 in
      match c with
      | Fall => if upgraded_ (ses st2) then (Break, st2) else
          let '(c, s) := if bool_decide (state_ (ses st2) = Body) then read_body (ses st2) else (Fall, ses st2) in
          let st := on_ses (fun _ => s) st2 in
          match c with Fall => (Again, st) | c => (c, st) end
      | c => (c, st2)
      end)) as HH.
  { intros st1 [A1 A2] E1.
    pose proof (headers_loop_progress (S (length (buffer_ (ses st1)))) st1 ltac:(lia) ltac:(rewrite A1; lia)) as P.
    destruct (headers_loop _ _ _ _ _) as [[] st2]; try done.
    - destruct P as [[P1 P2] P3]. apply turn_body; [left|done|done]. rewrite A1 in P2. split; [congruence|lia].
    - destruct P as [[P1 P2] P3]. rewrite A1 in P2. unfold turn_ok. split; [split; [congruence|lia]|].
      left. split; [rewrite P1, A1; lia|]. by rewrite P3, E1. }
  destruct (state_ (ses st)) eqn:E; try done.
  - rewrite (bool_decide_true (RequestLine = RequestLine)) by done.
    pose proof (request_line_progress st L1 E) as P.
    destruct (request_line st) as [[] st1]; try done.
    + destruct P as [P1 P2]. rewrite P2. rewrite (bool_decide_true (Headers = Headers)) by done.
      apply HH; [|done]. eapply advances_le; [|exact P1]. lia.
    + subst. unfold turn_ok. split; [by apply advances_0|]. left. split; [done|by rewrite E].
    + destruct P as [P1 P2]. unfold turn_ok. split; [eapply advances_le; [|exact P1]; lia|by left].
  - rewrite (bool_decide_false (Headers = RequestLine)) by done. rewrite E.
    rewrite (bool_decide_true (Headers = Headers)) by done. apply HH; [by apply advances_0|done].
  - rewrite (bool_decide_false (Body = RequestLine)) by done. rewrite E.
    rewrite (bool_decide_false (Body = Headers)) by done.
    assert (live (ses st)) as L by (split; [done|by rewrite E]).
    pose proof (turn_body st st (or_intror (conj eq_refl (conj L E))) ltac:(right; by rewrite E) Hm) as T.
    exact T.
Qed.

Lemma drain_live s w :
  let '(_, s', _) := drain_sse_outbound encrypt s w in live s -> live s'.
Proof.
  unfold drain_sse_outbound. destruct (sse_active_ s); [|done]. destruct (sse_channel_ s); [|done].
  destruct (channels w !! _); [|done]. destruct (drain_events _ _ _) as [raw ch].
  destruct (_ && _); [by destruct (len _ =? 0); [|destruct (encrypt _ _)]|].
  by destruct (len _ =? 0); [|destruct (encrypt _ _)].
Qed.

Lemma complete_progress (st : St (A:=A)) :
  match complete handler_ encrypt st with
  | (Break, st') => live (ses st')
  | (Throw, st') => ses st' = ses st
  | (_, st') => buffer_ (ses st') = buffer_ (ses st) /\ parse_offset_ (ses st') = parse_offset_ (ses st) /\
      state_ (ses st') = RequestLine
  end.
Proof.
  unfold complete. destruct (handler_ _ _) as [[resp|] w]; [|done].
  destruct (Response.sse_channel_ resp) as [c|].
  - destruct (drain_sse_outbound _ _ _) as [[ev s] w']. split; cbn; [lia|done].
  - unfold on_ses. ses_cbn. rewrite emit_ses. done.
Qed.

Lemma finish_live (st : St (A:=A)) : (live (ses st) \/ upgraded_ (ses st) = true) ->
  match finish st with
  | (Sent _, s', _) => live s' \/ upgraded_ s' = true
  | _ => False
  end.
Proof.
  unfold finish. intros [[L1 L2]|U].
  - left. destruct (_ && _); [|done]. split; ses_cbn; [lia|done].
  - right. rewrite U, andb_false_r. done.
Qed.

Definition feed_ok (r : Outcome * Session * World (A:=A)) : Prop :=
  match r with
  | (OutOfFuel, _, _) => False
  | (Sent _, s', _) => live s' \/ upgraded_ s' = true
  | (Failed _, _, _) | (Undefined, _, _) | (Raised, _, _) => True
  end.

Lemma feed_loop_terminates fuel (st : St (A:=A)) :
  (length (buffer_ (ses st)) - parse_offset_ (ses st) < fuel)%nat -> live (ses st) ->
  len (buffer_ (ses st)) < 2 ^ 63 ->
  feed_ok (feed_loop handler_ upgrade_handler_ encrypt validate fuel st).
Proof.
  revert st. induction fuel as [|fuel IH]; intros st Hf L Hm; [lia|]. cbn [feed_loop].
  destruct (_ <? _)%nat eqn:Lt; cbn [negb]; to_prop.
  2:{ pose proof (finish_live st (or_introl L)). by destruct (finish st) as [[[] ?] ?]. }
  pose proof (turn_progress st L Hm) as T. destruct (turn st) as [[] st1]; try done.
  - destruct T as [_ T]. pose proof (finish_live st1 T). by destruct (finish st1) as [[[] ?] ?].
  - destruct T as [[T1 T2] T3].
    destruct (decide (state_ (ses st1) = Complete)) as [E|NE].
    + rewrite (bool_decide_true (state_ (ses st1) = Complete)) by done.
      pose proof (complete_progress st1) as C. destruct (complete handler_ encrypt st1) as [c st2].
      destruct c; [|by left|..|done|]; destruct C as (C1 & C2 & C3);
        (apply IH; [rewrite C1, C2, T1; lia| |by rewrite C1, T1]); (split; [rewrite C1, C2, T1; lia|by rewrite C3]).
    + rewrite (bool_decide_false (state_ (ses st1) = Complete)) by done.
      apply IH; [rewrite T1; lia| |by rewrite T1]. split; [rewrite T1; lia|].
      destruct T3 as [->|?]; done.
Qed.

(** [feed_data] returns on every input of a session
    that has not failed: the loops over lines, headers, chunks, trailers and
    pipelined requests end within the number of buffered bytes, whatever the
    handlers do, and a successful return leaves the session ready to be fed
    again or upgraded. *)
Theorem feed_data_terminates data s w (Hlive : live s) (Hmem : len (buffer_ s ++ data) < 2 ^ 63) :
  match feed_data handler_ upgrade_handler_ encrypt validate data s w with
  | (OutOfFuel, _, _) => False
  | (Sent _, s', _) => live s' \/ upgraded_ s' = true
  | (Failed _, _, _) | (Undefined, _, _) | (Raised, _, _) => True
  end.
Proof.
  unfold feed_data. destruct (sse_active_ s).
  { pose proof (drain_live s w) as D. destruct (drain_sse_outbound _ _ _) as [[e s'] w']. left. auto. }
  apply feed_loop_terminates; ses_cbn; [lia| |done].
  destruct Hlive as [H1 H2]. split; [|exact H2]. cbn. rewrite length_app. lia.
Qed.
End Termination.

Lemma feed_data_terminates_witness :
  match feed_data mirror None no_tls (fun _ => None) (bs "GET / HTTP/1.1") (new_session false) (mkWorld tt ∅) with
  | (OutOfFuel, _, _) => False
  | (Sent _, s', _) => live s' \/ upgraded_ s' = true
  | (Failed _, _, _) | (Undefined, _, _) | (Raised, _, _) => True
  end.
Proof.
  apply feed_data_terminates; [|by vm_compute]. split; [cbn; lia|done].
Defined.

(** ** Inputs on which the parser goes wrong *)

Definition chunked_head : bytes :=
  bs "POST /a HTTP/1.1" ++ CRLF ++ bs "Transfer-Encoding: chunked" ++ CRLF ++ CRLF.

Definition feed_mirror (data : bytes) (s : Session) : Outcome * Session :=
  fst (feed_data mirror None no_tls (fun _ => None) data s (mkWorld tt ∅)).

(** The addition [data_start + chunk_size + 2] wraps: a chunk size of 2^64 - 2
    passes the size check, finds its CR LF in the size line itself, and the
    body is read far outside the buffer. *)
Lemma chunk_size_overflow :
  fst (feed_mirror (chunked_head ++ bs "fffffffffffffffe" ++ CRLF) (new_session false)) = Undefined.
Proof. by vm_compute. Qed.

(** The parser forgets that it has seen the last chunk: when the final empty
    line arrives in a later read, it is parsed as a chunk size and the
    connection fails, though the same bytes in one read are served. *)
Lemma last_chunk_split :
  (exists d s, feed_mirror (chunked_head ++ bs "0" ++ CRLF ++ CRLF) (new_session false) = (Sent d, s)) /\
  fst (feed_mirror CRLF (snd (feed_mirror (chunked_head ++ bs "0" ++ CRLF) (new_session false)))) = Failed (-4).
Proof. split; [eexists _, _; vm_compute; reflexivity|by vm_compute]. Qed.

(** [std::stoull] accepts a sign: a request with a negative Content-Length is
    not rejected, it announces a body of 2^64 - 1 bytes. *)
Lemma negative_content_length :
  let '(o, s) := feed_mirror (bs "POST / HTTP/1.1" ++ CRLF ++ bs "Content-Length: -1" ++ CRLF ++ CRLF)
                   (new_session false) in
  o = Sent [] /\ state_ s = Body /\ content_length_ s = u64_max.
Proof. vm_compute. by split_and!. Qed.
