(* ===== verification/Stomp.v ===== *)
(** * STOMP 1.2 frames: [messaging/stomp.cpp], [messaging/stomp.h]

    Header escaping, the incremental decoder, the serializer and the
    destination policy.  Headers are a map; the order in which an
    [unordered_map] is iterated is a parameter of the serializer. *)

From S2P Require Import Prelude CxxString Sse.

Module Stomp.

Definition LF : byte := Sse.LF.
Definition CR : byte := Sse.CR.
Definition NUL : byte := byte_of_Z 0.
Definition backslash : byte := byte_of_Z 92.

Record Frame := mkFrame { command : bytes; headers : gmap bytes bytes; body : bytes }.

(** [Frame::header]: empty when absent. *)
Definition header (name : bytes) (f : Frame) : bytes := default [] (headers f !! name).

(** ** Escaping *)

Definition escape_char (c : byte) : bytes :=
  if bool_decide (c = backslash) then [backslash; backslash]
  else if bool_decide (c = LF) then [backslash; "n"%char]
  else if bool_decide (c = CR) then [backslash; "r"%char]
  else if bool_decide (c = ":"%char) then [backslash; "c"%char]
  else [c].

Definition escape (s : bytes) : bytes := concat (map escape_char s).

Inductive ParseError := mkParseError (message : bytes).

Fixpoint unescape (s : bytes) : result ParseError bytes :=
  match s with
  | [] => inr []
  | c :: r =>
      if negb (bool_decide (c = backslash)) then result_bind (unescape r) (fun t => inr (c :: t))
      else
        match r with
        | [] => inl (mkParseError (bs "unterminated STOMP header escape"))
        | e :: r' =>
            let k x := result_bind (unescape r') (fun t => inr (x :: t)) in
            if bool_decide (e = backslash) then k backslash
            else if bool_decide (e = "n"%char) then k LF
            else if bool_decide (e = "r"%char) then k CR
            else if bool_decide (e = "c"%char) then k ":"%char
            else inl (mkParseError (bs "invalid STOMP header escape"))
        end
  end.

Definition line_without_cr (line : bytes) : bytes :=
  match last line with
  | Some c => if bool_decide (c = CR) then removelast line else line
  | None => line
  end.

(** ** Authorization *)

(** A destination is allowed under a prefix or one of its sub-paths. *)
Definition under_prefix (destination prefix : bytes) : bool :=
  bool_decide (destination = prefix) ||
  (starts_with prefix destination && (length prefix <? length destination)%nat &&
   bool_decide (destination !! length prefix = Some "/"%char)).

Definition destination_allowed (destination : bytes) (allowed_prefixes : list bytes) : bool :=
  match allowed_prefixes with
  | [] => true
  | _ => existsb (under_prefix destination) allowed_prefixes
  end.

Record AuthorizationPolicy := mkPolicy {
  require_authenticated_principal : bool;
  allowed_send_destinations : list bytes;
  allowed_subscribe_destinations : list bytes
}.

(** [frame_authorizer], with the principal of the session. *)
Definition frame_authorizer (p : AuthorizationPolicy) (principal : bytes) (f : Frame) : bool :=
  if require_authenticated_principal p && (len principal =? 0) then false
  else
    let destination := header (bs "destination") f in
    if bool_decide (command f = bs "SEND") then
      negb (len destination =? 0) && destination_allowed destination (allowed_send_destinations p)
    else if bool_decide (command f = bs "SUBSCRIBE") then
      negb (len destination =? 0) && destination_allowed destination (allowed_subscribe_destinations p)
    else true.

(** [parse] of [parse_heartbeat]: the whole text is a number. *)
Definition parse_number (s : bytes) : option Z :=
  match from_chars_u64 s with
  | inr (v, []) => Some v
  | _ => None
  end.

Definition parse_heartbeat (value : bytes) : result ParseError (Z * Z) :=
  let bad := inl (mkParseError (bs "invalid STOMP heart-beat header")) in
  if len value =? 0 then inr (0, 0)
  else
    match find_char ","%char value with
    | None => bad
    | Some comma =>
        match parse_number (take comma value), parse_number (drop (comma + 1) value) with
        | Some out, Some inc => inr (out, inc)
        | _, _ => bad
        end
    end.

(** ** The decoder *)

(** [while (buffer_.starts_with('\n')) buffer_.erase(0, 1);] *)
Fixpoint skip_lf (s : bytes) : bytes :=
  match s with
  | c :: r => if bool_decide (c = LF) then skip_lf r else s
  | [] => []
  end.

(** [while (buffer_.starts_with("\r\n")) buffer_.erase(0, 2);] *)
Fixpoint skip_crlf (s : bytes) : bytes :=
  match s with
  | c :: d :: r => if bool_decide (c = CR) && bool_decide (d = LF) then skip_crlf r else s
  | _ => s
  end.

Definition skip_heartbeats (s : bytes) : bytes := skip_crlf (skip_lf s).

Inductive Parsed (A : Type) :=
| NeedMore
| Bad (e : ParseError)
| Got (a : A) (rest : bytes).
Arguments NeedMore {A}.
Arguments Bad {A} e.
Arguments Got {A} a rest.

(** One line and what follows it. *)
Definition next_line (s : bytes) : option (bytes * bytes) :=
  match find_char LF s with
  | None => None
  | Some i => Some (line_without_cr (take i s), drop (i + 1) s)
  end.

(** The header lines, up to the empty one. *)
Fixpoint parse_headers (fuel : nat) (hs : gmap bytes bytes) (s : bytes) : Parsed (gmap bytes bytes) :=
  match fuel with
  | O => NeedMore
  | S fuel' =>
      match next_line s with
      | None => NeedMore
      | Some (line, rest) =>
          if len line =? 0 then Got hs rest
          else
            match find_char ":"%char line with
            | None | Some O => Bad (mkParseError (bs "malformed STOMP header"))
            | Some colon =>
                match unescape (take colon line), unescape (drop (colon + 1) line) with
                | inl e, _ => Bad e
                | _, inl e => Bad e
                | inr name, inr value => parse_headers fuel' (<[name := value]> hs) rest
                end
            end
      end
  end.

(** The body: counted by content-length, or up to the NUL. *)
Definition parse_body (hs : gmap bytes bytes) (s : bytes) : Parsed bytes :=
  match hs !! bs "content-length" with
  | Some text =>
      match parse_number text with
      | None => Bad (mkParseError (bs "invalid STOMP content-length"))
      | Some body_size =>
          if len s <? body_size then NeedMore
          else if len s <? body_size + 1 then NeedMore
          else
            let n := Z.to_nat body_size in
            if negb (bool_decide (s !! n = Some NUL))
            then Bad (mkParseError (bs "STOMP frame is missing NUL terminator"))
            else Got (take n s) (drop (n + 1) s)
      end
  | None =>
      match find_char NUL s with
      | None => NeedMore
      | Some i => Got (take i s) (drop (i + 1) s)
      end
  end.

(** One turn of the decoding loop on a buffer without leading heartbeats. *)
Definition parse_frame (s : bytes) : Parsed Frame :=
  match s with
  | [] => NeedMore
  | _ =>
      match next_line s with
      | None => NeedMore
      | Some (cmd, rest) =>
          if len cmd =? 0 then Bad (mkParseError (bs "STOMP command is empty"))
          else
            match parse_headers (S (length rest)) ∅ rest with
            | NeedMore => NeedMore
            | Bad e => Bad e
            | Got hs rest =>
                match parse_body hs rest with
                | NeedMore => NeedMore
                | Bad e => Bad e
                | Got b rest => Got (mkFrame cmd hs b) rest
                end
            end
      end
  end.

Record Decoder := mkDecoder { buffer_ : bytes; failed_ : bool }.

Definition new_decoder : Decoder := mkDecoder [] false.

(** The loop of [feed]: the frames, or the error, and what stays buffered. *)
Fixpoint decode_loop (fuel : nat) (s : bytes) : result ParseError (list Frame) * bytes :=
  match fuel with
  | O => (inr [], s)
  | S fuel' =>
      let s := skip_heartbeats s in
      match parse_frame s with
      | NeedMore => (inr [], s)
      | Bad e => (inl e, s)
      | Got f rest =>
          match decode_loop fuel' rest with
          | (inl e, s) => (inl e, s)
          | (inr fs, s) => (inr (f :: fs), s)
          end
      end
  end.

Definition feed (data : bytes) (d : Decoder) : result ParseError (list Frame) * Decoder :=
  if failed_ d then (inl (mkParseError (bs "STOMP decoder is in failed state")), d)
  else
    let s := buffer_ d ++ data in
    match decode_loop (S (length s)) s with
    | (inl e, s) => (inl e, mkDecoder s true)
    | (inr fs, s) => (inr fs, mkDecoder s false)
    end.

(** ** The serializer *)

Definition header_text (h : bytes * bytes) : bytes :=
  escape (fst h) ++ bs ":" ++ escape (snd h) ++ [LF].

Section Serialize.
(** The iteration order of the header map. *)
Context (order : gmap bytes bytes -> list (bytes * bytes)).

Definition serialize (f : Frame) : bytes :=
  let hs := order (headers f) in
  let has_content_length := existsb (fun h => bool_decide (fst h = bs "content-length")) hs in
  command f ++ [LF] ++
  concat (map header_text hs) ++
  (if contains_char NUL (body f) && negb has_content_length
   then bs "content-length:" ++ to_dec (len (body f)) ++ [LF] else []) ++
  [LF] ++ body f ++ [NUL].
End Serialize.

End Stomp.
