(* ===== verification/StompProps.v ===== *)
(** * STOMP: what is serialized is decoded, however it is cut *)

From S2P Require Import Prelude CxxString Sse Stomp.
Import Stomp.

#[global] Arguments parse_frame : simpl never.
#[global] Arguments parse_body : simpl never.
#[global] Arguments next_line : simpl never.
#[global] Arguments escape : simpl never.

(** ** Escaping *)

Lemma escape_cons c s : escape (c :: s) = escape_char c ++ escape s.
Proof. done. Qed.

Lemma unescape_escape s : unescape (escape s) = inr s.
Proof.
  induction s as [|c s IH]; [done|]. rewrite escape_cons. unfold escape_char.
  repeat case_bool_decide; subst; cbn [app unescape]; cbn; rewrite ?IH; cbn; try done.
  by rewrite (bool_decide_false (c = backslash)) by done.
Qed.

(** Escaped text has no line break and no colon. *)
Lemma escape_plain c s : c ∈ escape s -> c <> LF /\ c <> CR /\ c <> ":"%char.
Proof.
  induction s as [|x s IH]; [by intros ?%elem_of_nil|]. rewrite escape_cons, elem_of_app.
  intros [H|H]; [|by apply IH]. unfold escape_char in H.
  repeat case_bool_decide; repeat (apply elem_of_cons in H as [->|H]); try (by apply elem_of_nil in H); done.
Qed.

Lemma escape_nil_iff s : escape s = [] <-> s = [].
Proof.
  split; [|by intros ->]. destruct s as [|c s]; [done|]. rewrite escape_cons. unfold escape_char.
  by repeat case_bool_decide.
Qed.

(** ** Lines *)

Lemma line_without_cr_id l : last l <> Some CR -> line_without_cr l = l.
Proof.
  intros H. unfold line_without_cr. destruct (last l) as [c|]; [|done].
  by rewrite bool_decide_false by congruence.
Qed.

Lemma next_line_app l rest : LF ∉ l -> last l <> Some CR -> next_line (l ++ LF :: rest) = Some (l, rest).
Proof.
  intros H1 H2. unfold next_line. rewrite find_char_app by done.
  rewrite take_app_length, line_without_cr_id by done. do 2 f_equal.
  rewrite <- drop_drop, drop_app_length. done.
Qed.

(** A line found in a prefix is found in the whole. *)
Lemma next_line_mono s e l rest : next_line s = Some (l, rest) -> next_line (s ++ e) = Some (l, rest ++ e).
Proof.
  unfold next_line. destruct (find_char LF s) as [i|] eqn:E; [|done]. intros [= <- <-].
  destruct (find_char_Some _ _ _ E) as (_ & _ & H1).
  assert (find_char LF (s ++ e) = Some i) as ->.
  { clear H1. revert i E. induction s as [|c s IH]; intros i E; [done|]. cbn in *.
    case_bool_decide; [done|]. destruct (find_char LF s) as [j|]; [|done]. by rewrite (IH j). }
  by rewrite take_app_le, drop_app_le by lia.
Qed.

(** ** A verdict on a prefix *)

Definition extend {A} (r : Parsed A) (e : bytes) : Parsed A :=
  match r with
  | Got a rest => Got a (rest ++ e)
  | Bad m => Bad m
  | NeedMore => NeedMore
  end.

Lemma parse_headers_mono fuel fuel' hs s e : (fuel <= fuel')%nat ->
  parse_headers fuel hs s <> NeedMore ->
  parse_headers fuel' hs (s ++ e) = extend (parse_headers fuel hs s) e.
Proof.
  revert fuel' hs s. induction fuel as [|fuel IH]; intros fuel' hs s Hf H; [done|].
  destruct fuel' as [|fuel']; [lia|]. cbn [parse_headers] in *.
  destruct (next_line s) as [[l rest]|] eqn:E; [|done].
  rewrite (next_line_mono _ _ _ _ E). destruct (len l =? 0); [done|].
  destruct (find_char ":"%char l) as [[|colon]|]; [done| |done].
  destruct (unescape _); [done|]. destruct (unescape _); [done|]. apply IH; [lia|done].
Qed.

Lemma find_char_mono c s e i : find_char c s = Some i -> find_char c (s ++ e) = Some i.
Proof.
  revert i. induction s as [|x s IH]; intros i E; [done|]. cbn in *.
  case_bool_decide; [done|]. destruct (find_char c s) as [j|]; [|done]. by rewrite (IH j).
Qed.

Lemma parse_number_nonneg s v : parse_number s = Some v -> 0 <= v.
Proof.
  unfold parse_number. destruct (from_chars_u64 s) as [|[w [|]]] eqn:E; try done. intros [= <-].
  by apply from_chars_range in E as [? _].
Qed.

Lemma parse_body_mono hs s e : parse_body hs s <> NeedMore ->
  parse_body hs (s ++ e) = extend (parse_body hs s) e.
Proof.
  unfold parse_body. destruct (hs !! _) as [text|].
  - destruct (parse_number text) as [n|] eqn:P; [|done]. apply parse_number_nonneg in P.
    destruct (len s <? n) eqn:L1; [done|]. destruct (len s <? n + 1) eqn:L2; [done|]. to_prop. intros _.
    rewrite len_app. pose proof (len_nonneg e).
    destruct (len s + len e <? n) eqn:L3; to_prop; [lia|].
    destruct (len s + len e <? n + 1) eqn:L4; to_prop; [lia|]. unfold len in L2.
    rewrite lookup_app_l by lia. destruct (negb _); [done|]. cbn.
    by rewrite take_app_le, drop_app_le by lia.
  - destruct (find_char NUL s) as [i|] eqn:E; [|done]. intros _. rewrite (find_char_mono _ _ _ _ E). cbn.
    apply find_char_Some in E as (_ & _ & E). by rewrite take_app_le, drop_app_le by lia.
Qed.

Lemma parse_frame_mono s e : parse_frame s <> NeedMore ->
  parse_frame (s ++ e) = extend (parse_frame s) e.
Proof.
  intros H. destruct s as [|c s]; [done|]. unfold parse_frame in *. cbn [app].
  destruct (next_line (c :: s)) as [[cmd rest]|] eqn:E; [|done].
  change (c :: s ++ e) with ((c :: s) ++ e). rewrite (next_line_mono _ e _ _ E).
  destruct (len cmd =? 0); [done|].
  rewrite (parse_headers_mono (S (length rest)) (S (length (rest ++ e)))).
  - destruct (parse_headers _ _ rest) as [| |hs r] eqn:P; [done|done|]. cbn [extend].
    rewrite parse_body_mono; [by destruct (parse_body hs r)|]. by destruct (parse_body hs r).
  - rewrite length_app. lia.
  - intros P. by rewrite P in H.
Qed.

(** A frame takes at least one byte. *)
Lemma parse_frame_shorter s f rest : parse_frame s = Got f rest -> (length rest < length s)%nat.
Proof.
  destruct s as [|c s]; [done|]. unfold parse_frame.
  assert (forall s l r, next_line s = Some (l, r) -> (length r < length s)%nat) as N.
  { intros t l r. unfold next_line. destruct (find_char LF t) as [i|] eqn:E; [|done]. intros [= _ <-].
    apply find_char_Some in E as (_ & _ & E). rewrite length_drop. lia. }
  assert (forall fuel hs s hs' r, parse_headers fuel hs s = Got hs' r -> (length r <= length s)%nat) as HD.
  { induction fuel as [|fuel IH]; intros hs t hs' r; [done|]. cbn [parse_headers].
    destruct (next_line t) as [[l r']|] eqn:E; [|done]. apply N in E.
    destruct (len l =? 0); [intros [= <- <-]; lia|].
    destruct (find_char ":"%char l) as [[|colon]|]; [done| |done].
    destruct (unescape _); [done|]. destruct (unescape _); [done|]. intros H. apply IH in H. lia. }
  destruct (next_line (c :: s)) as [[cmd r1]|] eqn:E; [|done]. apply N in E.
  destruct (len cmd =? 0); [done|]. destruct (parse_headers _ _ _) as [| |hs r2] eqn:P; [done|done|]. apply HD in P.
  destruct (parse_body hs r2) as [| |b r3] eqn:B; [done|done|]. intros [= _ <-].
  assert (length r3 <= length r2)%nat; [|lia]. revert B. unfold parse_body.
  repeat case_goal; intros; simplify_eq; rewrite length_drop; lia.
Qed.

(** ** Round trip *)

Definition content_length : bytes := bs "content-length".

Lemma parse_headers_step fuel n v hs rest : n <> [] ->
  parse_headers (S fuel) hs (header_text (n, v) ++ rest) = parse_headers fuel (<[n := v]> hs) rest.
Proof.
  intros Hn. unfold header_text. cbn [fst snd].
  assert ((escape n ++ bs ":" ++ escape v ++ [LF]) ++ rest = (escape n ++ ":"%char :: escape v) ++ LF :: rest) as ->.
  { rewrite <- !app_assoc. done. }
  assert (forall c, c ∈ escape n ++ ":"%char :: escape v -> c <> LF /\ c <> CR) as G.
  { intros c [H|[->|H]%elem_of_cons]%elem_of_app; [by apply escape_plain in H as (? & ? & _)|by split|].
    by apply escape_plain in H as (? & ? & _). }
  cbn [parse_headers]. rewrite next_line_app.
  2:{ intros H. by apply G in H as [? _]. }
  2:{ intros H. apply last_Some_elem_of in H. by apply G in H as [_ ?]. }
  destruct (len (escape n ++ _) =? 0) eqn:L0.
  { to_prop. rewrite len_app, len_cons in L0. pose proof (len_nonneg (escape n)). pose proof (len_nonneg (escape v)). lia. }
  rewrite find_char_app by (intros H; by apply escape_plain in H as (_ & _ & ?)).
  destruct (length (escape n)) as [|k] eqn:K.
  { exfalso. apply Hn, escape_nil_iff, nil_length_inv, K. }
  rewrite <- K. rewrite take_app_length, <- drop_drop, drop_app_length.
  change (drop 1 (":"%char :: escape v)) with (escape v). by rewrite !unescape_escape.
Qed.

Lemma parse_headers_list l fuel hs rest : Forall (fun h => fst h <> []) l -> (length l <= fuel)%nat ->
  parse_headers fuel hs (concat (map header_text l) ++ rest) =
  parse_headers (fuel - length l) (foldl (fun m h => <[fst h := snd h]> m) hs l) rest.
Proof.
  intros H. revert fuel hs. induction H as [|[n v] l Hn H IH]; intros fuel hs Hf; cbn [length] in *.
  - by rewrite Nat.sub_0_r.
  - destruct fuel as [|fuel]; [lia|]. cbn [map concat foldl]. rewrite <- app_assoc, parse_headers_step by done.
    rewrite IH by lia. done.
Qed.

Lemma escape_id s : Forall (fun c => isalnum c = true) s -> escape s = s.
Proof.
  induction 1 as [|c s Hc _ IH]; [done|]. rewrite escape_cons, IH. unfold escape_char.
  assert (c <> backslash /\ c <> LF /\ c <> CR /\ c <> ":"%char) as (? & ? & ? & ?).
  { split_and!; intros ->; by vm_compute in Hc. }
  by rewrite !bool_decide_false by done.
Qed.

Lemma length_header_text n : 0 <= n ->
  content_length ++ bs ":" ++ to_dec n ++ [LF] = header_text (content_length, to_dec n).
Proof.
  intros Hn. unfold header_text. cbn [fst snd]. change (escape content_length) with content_length. rewrite escape_id; [done|].
  eapply Forall_impl; [by apply to_dec_isdigit|]. intros c Hc. unfold isalnum. by rewrite Hc.
Qed.

Section Roundtrip.
Context (order : gmap bytes bytes -> list (bytes * bytes)).
Hypothesis order_perm : forall m, order m ≡ₚ map_to_list m.

Lemma foldl_order m : foldl (fun m h => <[fst h := snd h]> m) ∅ (order m) = m.
Proof.
  assert (forall l, foldl (fun (m : gmap bytes bytes) h => <[fst h := snd h]> m) ∅ l = list_to_map (rev l)) as ->.
  { intros l. induction l as [|h l IH] using rev_ind; [done|]. rewrite foldl_snoc, IH, rev_app_distr. done. }
  symmetry. apply list_to_map_flip. rewrite <- order_perm. apply Permutation_rev.
Qed.

Lemma order_has m k : existsb (fun h => bool_decide (fst h = k)) (order m) = bool_decide (is_Some (m !! k)).
Proof.
  apply eq_true_iff_eq. rewrite existsb_exists, bool_decide_eq_true. split.
  - intros ([k' v] & Hin & Hk). apply bool_decide_eq_true in Hk. cbn in Hk. subst k'.
    apply list_elem_of_In in Hin. rewrite order_perm, elem_of_map_to_list in Hin. eauto.
  - intros [v Hv]. exists (k, v). split; [|by apply bool_decide_eq_true].
    apply list_elem_of_In. by rewrite order_perm, elem_of_map_to_list.
Qed.

(** A frame that can be written. *)
Record wf_frame (f : Frame) : Prop := {
  wf_command : command f <> [] /\ LF ∉ command f /\ last (command f) <> Some CR;
  wf_names : headers f !! [] = None;
  wf_length : match headers f !! content_length with
              | Some t => parse_number t = Some (len (body f))
              | None => True
              end;
  wf_size : len (body f) <= u64_max
}.

(** The frame as it arrives: a body with NULs gets its length. *)
Definition wire (f : Frame) : Frame :=
  mkFrame (command f)
    (if contains_char NUL (body f) && negb (bool_decide (is_Some (headers f !! content_length)))
     then <[content_length := to_dec (len (body f))]> (headers f) else headers f)
    (body f).

Lemma parse_number_to_dec n : 0 <= n <= u64_max -> parse_number (to_dec n) = Some n.
Proof. intros H. unfold parse_number. by rewrite from_chars_to_dec. Qed.

Lemma parse_body_ok hs b rest :
  match hs !! content_length with
  | Some t => parse_number t = Some (len b)
  | None => NUL ∉ b
  end -> parse_body hs (b ++ NUL :: rest) = Got b rest.
Proof.
  unfold parse_body. fold content_length. destruct (hs !! content_length) as [t|]; intros H.
  - rewrite H, len_app, len_cons. pose proof (len_nonneg rest).
    destruct (_ <? len b) eqn:E1; to_prop; [lia|]. destruct (_ <? len b + 1) eqn:E2; to_prop; [lia|].
    unfold len. rewrite Nat2Z.id. rewrite lookup_app_r, Nat.sub_diag by lia. cbn.
    rewrite take_app_length, <- drop_drop, drop_app_length. done.
  - rewrite find_char_app by done. rewrite take_app_length, <- drop_drop, drop_app_length. done.
Qed.

Lemma serialize_parse f rest : wf_frame f -> parse_frame (serialize order f ++ rest) = Got (wire f) rest.
Proof.
  intros [(W1 & W2 & W3) Wn Wl Ws]. unfold serialize. rewrite order_has.
  set (extra := contains_char NUL (body f) && negb (bool_decide (is_Some (headers f !! content_length)))).
  change (bs "content-length") with content_length. fold extra.
  assert ((command f ++ [LF] ++ concat (map header_text (order (headers f))) ++
      (if extra then bs "content-length:" ++ to_dec (len (body f)) ++ [LF] else []) ++ [LF] ++ body f ++ [NUL]) ++ rest
    = command f ++ LF :: (concat (map header_text (order (headers f) ++
        if extra then [(content_length, to_dec (len (body f)))] else [])) ++ [LF] ++ body f ++ NUL :: rest)) as ->.
  { rewrite <- !app_assoc, map_app, concat_app. cbn [app]. rewrite <- !app_assoc. do 3 f_equal.
    destruct extra; [|done]. cbn [map concat]. rewrite <- length_header_text by apply len_nonneg.
    rewrite app_nil_r, <- !app_assoc. done. }
  unfold parse_frame. destruct (command f ++ LF :: _) as [|x y] eqn:Ex; [by destruct (command f)|].
  rewrite <- Ex. clear Ex x y. rewrite next_line_app by done.
  destruct (len (command f) =? 0) eqn:L0; [to_prop; destruct (command f); [done|rewrite len_cons in L0; pose proof (len_nonneg l); lia]|].
  set (l := order (headers f) ++ _).
  assert (Forall (fun h => fst h <> []) l) as Fn.
  { apply Forall_app. split; [|destruct extra; by repeat constructor].
    apply Forall_forall. intros [n v] Hin. rewrite order_perm, elem_of_map_to_list in Hin. intros E. cbn in E. subst.
    congruence. }
  assert (length l <= length (concat (map header_text l)))%nat as Hl.
  { clear. induction l as [|h l IH]; cbn [map concat length]; [lia|]. rewrite length_app. unfold header_text at 1.
    rewrite !length_app. cbn [length]. lia. }
  rewrite parse_headers_list; [|done|rewrite length_app; lia].
  destruct (S _ - length l)%nat as [|k] eqn:K; [rewrite length_app in K; lia|].
  cbn [parse_headers]. change ([LF] ++ body f ++ NUL :: rest) with ([] ++ LF :: body f ++ NUL :: rest). rewrite (next_line_app [] (body f ++ NUL :: rest)); [|apply not_elem_of_nil|done].
  change (len [] =? 0) with true. cbn iota.
  assert (foldl (fun m h => <[fst h := snd h]> m) ∅ l = headers (wire f)) as ->.
  { unfold l, wire. cbn [headers]. rewrite foldl_app, foldl_order. fold extra. by destruct extra. }
  rewrite parse_body_ok; [done|]. unfold wire. cbn [headers]. fold extra.
  destruct extra eqn:Ee; unfold extra in Ee; clear extra l Fn Hl K.
  - rewrite lookup_insert_eq. apply parse_number_to_dec. split; [apply len_nonneg|done].
  - destruct (headers f !! content_length); [done|]. rewrite bool_decide_false in Ee by (by intros []).
    cbn in Ee. rewrite andb_true_r in Ee. by apply contains_char_false.
Qed.

Definition wires (fs : list Frame) : bytes := concat (map (serialize order) fs).

(** A serialized frame starts with its command: nothing to skip. *)
Lemma skip_wire f s : wf_frame f -> skip_heartbeats (serialize order f ++ s) = serialize order f ++ s.
Proof.
  intros [(W1 & W2 & W3) _ _ _]. unfold serialize. destruct (command f) as [|c cmd]; [done|].
  apply not_elem_of_cons in W2 as [N1 N2]. unfold skip_heartbeats. cbn [app skip_lf].
  rewrite (bool_decide_false (c = LF)) by congruence. destruct cmd as [|d cmd]; cbn [app skip_crlf].
  - rewrite (bool_decide_false (c = CR)) by (cbn in W3; congruence). done.
  - apply not_elem_of_cons in N2 as [N2 _]. rewrite (bool_decide_false (d = LF)) by congruence.
    by rewrite andb_false_r.
Qed.

(** Skipping in a non-empty prefix of a frame does nothing either. *)
Lemma skip_prefix f s e : wf_frame f -> s ++ e = serialize order f -> skip_heartbeats s = s.
Proof.
  intros W E. pose proof (skip_wire f [] W) as H. rewrite app_nil_r in H. rewrite <- E in H.
  destruct s as [|c s]; [done|]. unfold skip_heartbeats in *. cbn [app skip_lf] in *.
  case_bool_decide as C.
  - exfalso. apply (f_equal length) in H. 
    assert (forall t, (length (skip_lf t) <= length t)%nat) as L1.
    { induction t as [|x t IH]; cbn [skip_lf]; [done|]. case_goal; cbn; lia. }
    assert (forall n t, (length t <= n)%nat -> (length (skip_crlf t) <= length t)%nat) as L2.
    { induction n as [|n IH]; intros [|x [|y t]] Hl; cbn [skip_crlf] in *; try done; cbn in Hl; try lia.
      case_goal; [|done]. specialize (IH t ltac:(lia)). cbn. lia. }
    specialize (L2 (length (skip_lf (s ++ e))) (skip_lf (s ++ e)) (le_n _)). specialize (L1 (s ++ e)).
    cbn [length] in H. lia.
  - destruct s as [|d s]; [done|]. cbn [app skip_crlf] in *. case_goal; [|done].
    exfalso. apply (f_equal length) in H.
    assert (forall n t, (length t <= n)%nat -> (length (skip_crlf t) <= length t)%nat) as L2.
    { induction n as [|n IH]; intros [|x [|y t]] Hl; cbn [skip_crlf] in *; try done; cbn in Hl; try lia.
      case_goal; [|done]. specialize (IH t ltac:(lia)). cbn. lia. }
    specialize (L2 (length (s ++ e)) (s ++ e) (le_n _)). cbn [length] in H. lia.
Qed.

(** A proper prefix of a frame is waited on. *)
Lemma prefix_waits f s e : wf_frame f -> s ++ e = serialize order f -> e <> [] -> parse_frame s = NeedMore.
Proof.
  intros W E N. assert (forall r : Parsed Frame, r = NeedMore \/ r <> NeedMore) as D by (intros []; (by left) || (by right)).
  destruct (D (parse_frame s)) as [|P]; [done|exfalso]. clear D.
  pose proof (parse_frame_mono s e P) as M. rewrite E in M.
  pose proof (serialize_parse f [] W) as S. rewrite app_nil_r in S. rewrite S in M.
  destruct (parse_frame s) as [|m|g rest]; cbn in M; [done|done|].
  assert (rest ++ e = []) as R by (by inversion M). by apply app_eq_nil in R as [_ ->].
Qed.

(** The loop on a prefix of a stream of frames: the complete ones come out,
    the rest stays buffered. *)
Lemma decode_loop_prefix fs fuel s rest : Forall wf_frame fs -> s ++ rest = wires fs -> (length s < fuel)%nat ->
  exists fs1 fs2 b, fs = fs1 ++ fs2 /\ decode_loop fuel s = (inr (map wire fs1), b) /\ b ++ rest = wires fs2 /\
    (forall f fs', fs2 = f :: fs' -> (length b < length (serialize order f))%nat).
Proof.
  intros H. revert fuel s. induction H as [|f fs W H IH]; intros fuel s E Hf; (destruct fuel as [|fuel]; [lia|]).
  - apply app_eq_nil in E as [-> ->]. exists [], [], []. done.
  - unfold wires in E. cbn [map concat] in E.
    destruct (decide (length (serialize order f) <= length s)%nat) as [L|L].
    + pose proof (f_equal (take (length (serialize order f))) E) as E1.
      rewrite take_app_le, take_app_length in E1 by lia.
      pose proof (f_equal (drop (length (serialize order f))) E) as E2.
      rewrite drop_app_le, drop_app_length in E2 by lia.
      rewrite <- (take_drop (length (serialize order f)) s), E1 in Hf |- *.
      set (s' := drop (length (serialize order f)) s) in *.
      cbn [decode_loop]. rewrite skip_wire, serialize_parse by done.
      destruct (IH fuel s' E2) as (fs1 & fs2 & b & -> & -> & Eb & Bb).
      { rewrite length_app in Hf.
        assert (serialize order f <> []) by (unfold serialize; destruct (wf_command f W) as [? _]; by destruct (command f)).
        destruct (serialize order f); [done|]. cbn [length] in Hf. lia. }
      exists (f :: fs1), fs2, b. done.
    + pose proof (f_equal (take (length s)) E) as E1.
      rewrite take_app_length, take_app_le in E1 by lia.
      assert (s ++ drop (length s) (serialize order f) = serialize order f) as E2
        by (rewrite E1 at 1; apply take_drop).
      exists [], (f :: fs), s. split; [done|]. split; [|split; [done|intros ?? [= <- <-]; lia]].
      cbn [decode_loop]. rewrite (skip_prefix f s _ W E2).
      rewrite (prefix_waits f s _ W E2); [done|]. intros D. apply (f_equal length) in D.
      rewrite length_drop in D. cbn in D. lia.
Qed.

(** Feeding a decoder chunk after chunk: the frames so far. *)
Fixpoint feed_chunks (chunks : list bytes) (d : Decoder) : result ParseError (list Frame) * Decoder :=
  match chunks with
  | [] => (inr [], d)
  | c :: r =>
      match feed c d with
      | (inl e, d) => (inl e, d)
      | (inr fs, d) =>
          match feed_chunks r d with
          | (inl e, d) => (inl e, d)
          | (inr fs', d) => (inr (fs ++ fs'), d)
          end
      end
  end.

(** Frames written by the serializer come back from the
    decoder, in order and complete, however the stream is cut into WebSocket
    messages and in whatever order the headers are written; bodies may hold
    NULs and any bytes, header names and values any bytes.  Nothing is left
    buffered and the decoder has not failed. *)
Theorem decode_serialized_stream fs chunks (Hwf : Forall wf_frame fs)
  (Hcut : concat chunks = wires fs) :
  feed_chunks chunks new_decoder = (inr (map wire fs), new_decoder).
Proof.
  assert (forall chunks fs b, Forall wf_frame fs -> b ++ concat chunks = wires fs ->
    (fs = [] -> b = []) -> (forall f fs', fs = f :: fs' -> (length b < length (serialize order f))%nat) ->
    feed_chunks chunks (mkDecoder b false) = (inr (map wire fs), new_decoder)) as G.
  { clear -order_perm. intros chunks. induction chunks as [|c r IH]; intros fs b W E B1 B2.
    - cbn [concat] in E. rewrite app_nil_r in E. destruct fs as [|f fs]; [by rewrite B1|].
      exfalso. specialize (B2 f fs eq_refl). unfold wires in E. cbn [map concat] in E.
      apply (f_equal length) in E. rewrite length_app in E. lia.
    - cbn [concat] in E. rewrite app_assoc in E. cbn [feed_chunks]. unfold feed. cbn [failed_ buffer_].
      destruct (decode_loop_prefix fs (S (length (b ++ c))) (b ++ c) (concat r) W E ltac:(lia))
        as (fs1 & fs2 & b' & -> & D & E2 & Bb).
      rewrite D. apply Forall_app in W as [W1 W2].
      rewrite (IH fs2 b' W2 E2); [by rewrite map_app| |].
      + intros ->. by apply app_eq_nil in E2 as [? _].
      + done. }
  apply G; [done|done|done|]. intros f fs' ->. apply Forall_cons in Hwf as [W _]. cbn.
  destruct (wf_command f W) as [N _]. unfold serialize. destruct (command f); [done|cbn; lia].
Qed.
End Roundtrip.

Definition sample_frames : list Frame :=
  [mkFrame (bs "SEND") (<[bs "destination" := bs "/topic/a:b"]> (<[bs "x" ++ [LF] := bs "y" ++ [backslash; CR]]> ∅))
     (bs "hello" ++ [NUL; LF] ++ bs "world");
   mkFrame (bs "DISCONNECT") ∅ []].

Lemma sample_frames_wf : Forall wf_frame sample_frames.
Proof.
  unfold sample_frames. repeat constructor; cbn; try (by apply find_char_None); try done; try (by vm_compute).
Qed.

Lemma decode_serialized_stream_witness :
  let w := wires map_to_list sample_frames in
  feed_chunks [take 7 w; take 40 (drop 7 w); drop 47 w] new_decoder = (inr (map wire sample_frames), new_decoder).
Proof.
  intros w. apply (decode_serialized_stream map_to_list); [done|exact sample_frames_wf|].
  cbn [concat]. rewrite app_nil_r. change (drop 47 w) with (drop (7 + 40) w).
  rewrite <- (drop_drop w 40 7), !take_drop. done.
Defined.

(** A CR LF heartbeat followed by an LF heartbeat: accepted when they arrive
    in two messages, an empty command when they arrive in one. *)
Lemma heartbeat_depends_on_cut :
  feed_chunks [[CR; LF]; [LF]] new_decoder = (inr [], new_decoder) /\
  feed_chunks [[CR; LF; LF]] new_decoder =
    (inl (mkParseError (bs "STOMP command is empty")), mkDecoder [LF] true).
Proof. by vm_compute. Qed.
