(* ===== verification/StompBroker.v ===== *)
(** * The in-process STOMP broker: [messaging/stomp.cpp]

    [SimpleBroker], [MessageDispatcher] and the destination rules.  The
    broker talks to WebSocket sessions only through [SessionApi], so its
    theorems hold for every implementation of it; [WsRegistry] gives the one
    of the repository.  The 64-bit message and delivery counters, bumped once
    per delivery, are not wrapped. *)

From S2P Require Import Prelude CxxString WebSocket WsRegistry Sse Stomp.
Import Stomp.

Module Broker.

Inductive AckMode := Auto | Client | ClientIndividual.

#[export] Instance ack_mode_eq_dec : EqDecision AckMode.
Proof. solve_decision. Defined.

Record Subscription := mkSub {
  sub_session : Z;
  sub_id : bytes;
  sub_ack : AckMode;
  sub_principal : bytes
}.

Record PendingDelivery := mkPending {
  sequence : Z;
  ack_id : bytes;
  pd_ack : AckMode;
  pd_message : Frame
}.

Record Broker := mkBroker {
  subscriptions_ : gmap bytes (list Subscription);
  queue_cursors_ : gmap bytes Z;
  pending_acks_ : gmap Z (list PendingDelivery);
  next_message_id_ : Z;
  next_delivery_sequence_ : Z
}.

Definition new_broker : Broker := mkBroker ∅ ∅ ∅ 1 1.

Definition with_subscriptions (m : gmap bytes (list Subscription)) (b : Broker) : Broker :=
  mkBroker m (queue_cursors_ b) (pending_acks_ b) (next_message_id_ b) (next_delivery_sequence_ b).
Definition with_pending (m : gmap Z (list PendingDelivery)) (b : Broker) : Broker :=
  mkBroker (subscriptions_ b) (queue_cursors_ b) m (next_message_id_ b) (next_delivery_sequence_ b).

Definition supported_destination (d : bytes) : bool :=
  starts_with (bs "/topic/") d || starts_with (bs "/queue/") d || starts_with (bs "/user/") d.

(** The subscription of a session under an id. *)
Definition same_sub (session : Z) (id : bytes) (s : Subscription) : bool :=
  (sub_session s =? session) && bool_decide (sub_id s = id).

(** The loop of [subscribe]: replace the first match, else append. *)
Fixpoint replace_sub (new : Subscription) (l : list Subscription) : list Subscription :=
  match l with
  | [] => [new]
  | s :: r => if same_sub (sub_session new) (sub_id new) s then new :: r else s :: replace_sub new r
  end.

(** Drop the matching subscriptions everywhere, and the destinations left
    without any. *)
Definition erase_subs (p : Subscription -> bool) (m : gmap bytes (list Subscription)) :
    gmap bytes (list Subscription) :=
  omap (fun l => match List.filter (fun s => negb (p s)) l with [] => None | l' => Some l' end) m.

Section WithSessions.
Context {W : Type} `{SessionApi W}.
Context (order : gmap bytes bytes -> list (bytes * bytes)).

Definition subscribe (destination id : bytes) (session : Z) (mode : AckMode) (principal : bytes)
    (w : W) (b : Broker) : bool * Broker :=
  if negb (supported_destination destination) || (len id =? 0) || (session =? 0) ||
     negb (sess_active session w)
  then (false, b)
  else
    let l := default [] (subscriptions_ b !! destination) in
    (true, with_subscriptions
             (<[destination := replace_sub (mkSub session id mode principal) l]> (subscriptions_ b)) b).

Definition unsubscribe (session : Z) (id : bytes) (b : Broker) : Broker :=
  with_pending (delete session (pending_acks_ b))
    (with_subscriptions (erase_subs (same_sub session id) (subscriptions_ b)) b).

(** [pending.erase(acknowledged)]: the first delivery with the id. *)
Fixpoint erase_first (id : bytes) (l : list PendingDelivery) : list PendingDelivery :=
  match l with
  | [] => []
  | x :: r => if bool_decide (ack_id x = id) then r else x :: erase_first id r
  end.

(** The deliveries kept by an acknowledgement of [d]. *)
Definition ack_rest (d : PendingDelivery) (l : list PendingDelivery) : list PendingDelivery :=
  match pd_ack d with
  | Client => List.filter (fun x => negb (sequence x <=? sequence d)) l
  | _ => erase_first (ack_id d) l
  end.

Definition acknowledge (session : Z) (id : bytes) (b : Broker) : bool * Broker :=
  match pending_acks_ b !! session with
  | None => (false, b)
  | Some pending =>
      match List.find (fun d => bool_decide (ack_id d = id)) pending with
      | None => (false, b)
      | Some d =>
          let rest := ack_rest d pending in
          (true, with_pending
                   (match rest with
                    | [] => delete session (pending_acks_ b)
                    | _ => <[session := rest]> (pending_acks_ b)
                    end) b)
      end
  end.

(** [negative_acknowledge]: the redelivery goes to the session if one of its
    subscriptions has the id the message was sent under. *)
Definition negative_acknowledge (session : Z) (id : bytes) (w : W) (b : Broker) : bool * W :=
  match pending_acks_ b !! session with
  | None => (false, w)
  | Some pending =>
      match List.find (fun d => bool_decide (ack_id d = id)) pending with
      | None => (false, w)
      | Some d =>
          let m := pd_message d in
          let redelivery := mkFrame (command m) (<[bs "redelivered" := bs "true"]> (headers m)) (body m) in
          let found := existsb (fun kv => existsb (same_sub session (header (bs "subscription") redelivery)) (snd kv))
                         (map_to_list (subscriptions_ b)) in
          if found && sess_active session w
          then sess_send_text session (serialize order redelivery) w
          else (false, w)
      end
  end.

(** ** Publishing *)

(** The round-robin scan for the first active subscription. *)
Fixpoint queue_target (w : W) (subs : list Subscription) (cursor : Z) (offset fuel : nat) : option Subscription :=
  match fuel with
  | O => None
  | S fuel' =>
      match subs !! Z.to_nat (wrap64 (cursor + Z.of_nat offset) mod len subs) with
      | Some c => if sess_active (sub_session c) w then Some c
                  else queue_target w subs cursor (S offset) fuel'
      | None => None
      end
  end.

(** The principal of a /user/ destination. *)
Definition user_principal (destination : bytes) : option bytes :=
  match find_char_from "/"%char 6 destination with
  | None => None
  | Some sep => Some (take (sep - 6) (drop 6 destination))
  end.

(** The first critical section of [publish]: the targets and the message id;
    [None] is the early [return 0]. *)
Definition select_targets (destination : bytes) (w : W) (b : Broker) :
    option (list Subscription * bytes) * Broker :=
  match subscriptions_ b !! destination with
  | None => (None, b)
  | Some subs =>
      let finish targets b :=
        (Some (targets, to_dec (next_message_id_ b)),
         mkBroker (subscriptions_ b) (queue_cursors_ b) (pending_acks_ b) (next_message_id_ b + 1)
           (next_delivery_sequence_ b)) in
      if starts_with (bs "/queue/") destination then
        let cursor := default 0 (queue_cursors_ b !! destination) in
        let b := mkBroker (subscriptions_ b) (<[destination := wrap64 (cursor + 1)]> (queue_cursors_ b))
                   (pending_acks_ b) (next_message_id_ b) (next_delivery_sequence_ b) in
        finish (option_list (queue_target w subs cursor 0 (length subs))) b
      else if starts_with (bs "/user/") destination then
        match user_principal destination with
        | None => (None, b)
        | Some p => finish (List.filter (fun s => bool_decide (sub_principal s = p)) subs) b
        end
      else finish subs b
  end.

Definition message_frame (destination data : bytes) (hs : gmap bytes bytes) (message_id : bytes)
    (t : Subscription) : Frame :=
  let hs := <[bs "destination" := destination]> hs in
  let hs := <[bs "subscription" := sub_id t]> hs in
  let hs := <[bs "message-id" := message_id]> hs in
  let hs := if bool_decide (sub_ack t = Auto) then hs else <[bs "ack" := message_id]> hs in
  mkFrame (bs "MESSAGE") hs data.

(** Record a delivery that must be acknowledged. *)
Definition push_pending (session : Z) (message_id : bytes) (mode : AckMode) (m : Frame) (b : Broker) : Broker :=
  mkBroker (subscriptions_ b) (queue_cursors_ b)
    (<[session := default [] (pending_acks_ b !! session) ++
                  [mkPending (next_delivery_sequence_ b) message_id mode m]]> (pending_acks_ b))
    (next_message_id_ b) (next_delivery_sequence_ b + 1).

(** One turn of the delivery loop: the count, the stale sessions, the world. *)
Definition deliver (destination data : bytes) (hs : gmap bytes bytes) (message_id : bytes)
    (st : Z * list Z * W * Broker) (t : Subscription) : Z * list Z * W * Broker :=
  let '(n, stale, w, b) := st in
  let h := sub_session t in
  if negb (sess_active h w) then (n, stale ++ [h], w, b)
  else
    let m := message_frame destination data hs message_id t in
    let '(ok, w) := sess_send_text h (serialize order m) w in
    if ok then
      (n + 1, stale, w,
       if bool_decide (sub_ack t = Auto) then b else push_pending h message_id (sub_ack t) m b)
    else if negb (sess_active h w) then (n, stale ++ [h], w, b)
    else (n, stale, w, b).

Definition prune (stale : list Z) (b : Broker) : Broker :=
  match stale with
  | [] => b
  | _ => with_subscriptions (erase_subs (fun s => bool_decide (sub_session s ∈ stale)) (subscriptions_ b)) b
  end.

(** The whole call, when no other thread runs between its critical sections. *)
Definition publish (destination data : bytes) (hs : gmap bytes bytes) (w : W) (b : Broker) : Z * W * Broker :=
  if negb (supported_destination destination) then (0, w, b)
  else
    match select_targets destination w b with
    | (None, b) => (0, w, b)
    | (Some (targets, message_id), b) =>
        let '(n, stale, w, b) := for_each (deliver destination data hs message_id) targets (0, [], w, b) in
        (n, w, prune stale b)
    end.

(** *** Publishing between other threads

    [publish] holds the mutex of the broker to select the targets, to record
    each delivery that waits for an acknowledgement and to drop the stale
    sessions, and sends without it.  A publication in progress is the call at
    one of these points; [pub_step] is what it does up to the next one, and
    other threads may do anything between two steps.  [publish] above is the
    run that nothing interrupts ([publish_uninterrupted]). *)

(** Where the call is with the first target: before [active()], before
    [send_text], before the second [active()], before recording the delivery. *)
Inductive PubPhase := PubCheck | PubSend | PubRecheck | PubRecord.

Record Publication := mkPub {
  pub_destination : bytes;
  pub_data : bytes;
  pub_headers : gmap bytes bytes;
  pub_message_id : bytes;
  pub_todo : list Subscription;
  pub_phase : PubPhase;
  pub_delivered : Z;
  pub_stale : list Z
}.

(** The start of the call, up to the end of the first critical section. *)
Definition pub_begin (destination data : bytes) (hs : gmap bytes bytes) (w : W) (b : Broker) :
    option Publication * Broker :=
  if negb (supported_destination destination) then (None, b)
  else
    match select_targets destination w b with
    | (None, b) => (None, b)
    | (Some (targets, message_id), b) =>
        (Some (mkPub destination data hs message_id targets PubCheck 0 []), b)
    end.

Definition pub_at (p : PubPhase) (q : Publication) : Publication :=
  mkPub (pub_destination q) (pub_data q) (pub_headers q) (pub_message_id q) (pub_todo q) p (pub_delivered q) (pub_stale q).

(** On to the next target. *)
Definition pub_next (delivered : Z) (stale : list Z) (q : Publication) : Publication :=
  mkPub (pub_destination q) (pub_data q) (pub_headers q) (pub_message_id q) (tl (pub_todo q)) PubCheck
    (pub_delivered q + delivered) (pub_stale q ++ stale).

(** One step; [inl] is the value returned. *)
Definition pub_step (q : Publication) (w : W) (b : Broker) : (Z + Publication) * W * Broker :=
  match pub_todo q with
  | [] => (inl (pub_delivered q), w, prune (pub_stale q) b)
  | t :: _ =>
      let h := sub_session t in
      let m := message_frame (pub_destination q) (pub_data q) (pub_headers q) (pub_message_id q) t in
      match pub_phase q with
      | PubCheck => (inr (if sess_active h w then pub_at PubSend q else pub_next 0 [h] q), w, b)
      | PubSend =>
          let '(ok, w) := sess_send_text h (serialize order m) w in
          (inr (if ok then if bool_decide (sub_ack t = Auto) then pub_next 1 [] q else pub_at PubRecord q
                else pub_at PubRecheck q), w, b)
      | PubRecheck => (inr (pub_next 0 (if sess_active h w then [] else [h]) q), w, b)
      | PubRecord => (inr (pub_next 1 [] q), w, push_pending h (pub_message_id q) (sub_ack t) m b)
      end
  end.

(** The steps of a call that runs alone. *)
Fixpoint pub_run (fuel : nat) (q : Publication) (w : W) (b : Broker) : option (Z * W * Broker) :=
  match fuel with
  | O => None
  | S fuel' =>
      match pub_step q w b with
      | (inl n, w, b) => Some (n, w, b)
      | (inr q, w, b) => pub_run fuel' q w b
      end
  end.

End WithSessions.

Definition subscription_count (destination : bytes) (b : Broker) : Z :=
  match subscriptions_ b !! destination with Some l => len l | None => 0 end.

Definition pending_ack_count (session : Z) (b : Broker) : Z :=
  match pending_acks_ b !! session with Some l => len l | None => 0 end.

(** ** [MessageDispatcher] *)

Inductive DispatchError := InvalidMapping.

(** [add_mapping]; a null handler is [None]. *)
Definition add_mapping {H : Type} (destination : bytes) (handler : option H) (m : gmap bytes H) :
    result DispatchError (gmap bytes H) :=
  match handler with
  | Some h => if bool_decide (head destination = Some "/"%char) then inr (<[destination := h]> m)
              else inl InvalidMapping
  | None => inl InvalidMapping
  end.

(** [dispatch], with the application state the handlers act on. *)
Definition dispatch {A : Type} (m : gmap bytes (bytes -> A -> bool * A)) (destination data : bytes) (a : A) :
    bool * A :=
  match m !! destination with
  | Some h => h data a
  | None => (false, a)
  end.

End Broker.
