(* ===== verification/StompBrokerProps.v ===== *)
(** * The broker: who receives what, and acknowledgements *)

From S2P Require Import Prelude CxxString WebSocket WsRegistry Sse Stomp StompBroker.
Import Stomp Broker.

Section Delivery.
Context {W : Type} `{SessionApi W}.
Context (order : gmap bytes bytes -> list (bytes * bytes)).

(** What a session can observe. *)
Definition untouched (h : Z) (w w' : W) : Prop :=
  sess_texts h w' = sess_texts h w /\ sess_active h w' = sess_active h w.

Lemma untouched_trans h w1 w2 w3 : untouched h w1 w2 -> untouched h w2 w3 -> untouched h w1 w3.
Proof. intros [? ?] [? ?]. split; congruence. Qed.

Notation deliver := (deliver order).

Lemma deliver_untouched d data hs id n stale w b t h :
  sub_session t <> h \/ sess_active h w = false ->
  let '(_, _, w', _) := deliver d data hs id (n, stale, w, b) t in untouched h w w'.
Proof.
  intros Hh. unfold Broker.deliver. destruct (sess_active (sub_session t) w) eqn:A; [|done]. cbn [negb].
  assert (sub_session t <> h) as N by (intros <-; destruct Hh; congruence).
  set (text := serialize _ _).
  pose proof (sess_send_other (sub_session t) text w h ltac:(done)) as [E1 E2].
  destruct (sess_send_text (sub_session t) text w) as [ok w']. cbn in E1, E2.
  destruct ok; [done|]. by destruct (negb _).
Qed.

Lemma deliver_fold_untouched d data hs id ts n stale w b h :
  Forall (fun t => sub_session t <> h) ts \/ sess_active h w = false ->
  let '(_, _, w', _) := foldl (deliver d data hs id) (n, stale, w, b) ts in untouched h w w'.
Proof.
  revert n stale w b. induction ts as [|t ts IH]; intros n stale w b Hh; [done|]. cbn [foldl].
  pose proof (deliver_untouched d data hs id n stale w b t h) as D.
  destruct (deliver d data hs id (n, stale, w, b) t) as [[[n1 st1] w1] b1].
  assert (untouched h w w1) as U.
  { apply D. destruct Hh as [Hh|Hh]; [left|by right]. by apply Forall_cons in Hh as [? _]. }
  specialize (IH n1 st1 w1 b1). destruct (foldl _ _ ts) as [[[n2 st2] w2] b2].
  eapply untouched_trans; [exact U|]. apply IH. destruct Hh as [Hh|Hh]; [left|right].
  - by apply Forall_cons in Hh as [_ ?].
  - destruct U as [_ ->]. done.
Qed.

Lemma queue_target_active w subs cursor offset fuel c :
  queue_target w subs cursor offset fuel = Some c -> c ∈ subs /\ sess_active (sub_session c) w = true.
Proof.
  revert offset. induction fuel as [|fuel IH]; intros offset; [done|]. cbn [queue_target].
  destruct (subs !! _) as [s|] eqn:E; [|done]. destruct (sess_active (sub_session s) w) eqn:A.
  - intros [= <-]. split; [by eapply list_elem_of_lookup_2|done].
  - apply IH.
Qed.

(** What the first critical section selects. *)
Lemma select_targets_spec d w b ts id b' : select_targets d w b = (Some (ts, id), b') ->
  exists subs, subscriptions_ b !! d = Some subs /\ subscriptions_ b' = subscriptions_ b /\
    pending_acks_ b' = pending_acks_ b /\ next_delivery_sequence_ b' = next_delivery_sequence_ b /\
    if starts_with (bs "/queue/") d
    then ts = [] \/ exists c, ts = [c] /\ c ∈ subs /\ sess_active (sub_session c) w = true
    else if starts_with (bs "/user/") d
    then exists p, user_principal d = Some p /\ ts = List.filter (fun s => bool_decide (sub_principal s = p)) subs
    else ts = subs.
Proof.
  unfold select_targets. destruct (subscriptions_ b !! d) as [subs|]; [|done].
  destruct (starts_with (bs "/queue/") d).
  - intros E. simplify_eq. exists subs. split_and!; try done.
    destruct (queue_target w subs _ 0 (length subs)) as [c|] eqn:Q; [|by left].
    right. exists c. split; [done|]. by eapply queue_target_active.
  - destruct (starts_with (bs "/user/") d); [destruct (user_principal d) as [p|]; [|done]|];
      intros E; simplify_eq; (eexists; split_and!; [done..|]); [by exists p|done].
Qed.

(** [C20] Publishing reaches subscribers only: a session whose
    queue or activity changes was active and has a subscription to exactly
    this destination; for a [/user/<principal>/...] destination the
    subscription was made under that principal; and a [/queue/...] message
    changes at most one session. *)
Theorem publish_confined d data hs w b :
  let '(_, w', _) := publish order d data hs w b in
  (forall h, untouched h w w' \/
     sess_active h w = true /\
     exists subs s, subscriptions_ b !! d = Some subs /\ s ∈ subs /\ sub_session s = h /\
       (starts_with (bs "/user/") d = true -> user_principal d = Some (sub_principal s))) /\
  (starts_with (bs "/queue/") d = true ->
     exists h0, forall h, h <> h0 -> untouched h w w').
Proof.
  unfold publish. destruct (negb _); [by split; [by left|by exists 0]|].
  destruct (select_targets d w b) as [[[ts id]|] b1] eqn:S; [|by split; [by left|by exists 0]].
  apply select_targets_spec in S as (subs & Es & _ & _ & _ & Hts).
  unfold for_each. pose proof (fun h => deliver_fold_untouched d data hs id ts 0 [] w b1 h) as D.
  destruct (foldl _ _ ts) as [[[n st] w'] b2]. split.
  - intros h. destruct (sess_active h w) eqn:A; [|left; apply D; by right].
    destruct (decide (Exists (fun t => sub_session t = h) ts)) as [X|X].
    2:{ left. apply D. left. apply Forall_Exists_neg. done. }
    right. split; [done|]. apply Exists_exists in X as (s & Hs & <-). exists subs, s.
    destruct (starts_with (bs "/queue/") d) eqn:Q; [|destruct (starts_with (bs "/user/") d) eqn:U].
    + destruct Hts as [->|(c & -> & Hc & _)]; [by apply elem_of_nil in Hs|].
      apply list_elem_of_singleton in Hs as ->. split_and!; try done. intros U. exfalso.
      apply starts_with_spec in Q as [r1 ->]. by apply starts_with_spec in U as [r2 [=]].
    + destruct Hts as (p & Hp & ->). apply list_elem_of_In, List.filter_In in Hs as [Hs1 Hs2].
      apply bool_decide_eq_true in Hs2 as <-. split_and!; try done. by apply list_elem_of_In.
    + subst ts. by split_and!.
  - intros Q. rewrite Q in Hts. destruct Hts as [->|(c & -> & _)].
    + exists 0. intros h _. apply D. left. constructor.
    + exists (sub_session c). intros h N. apply D. left. constructor; [done|constructor].
Qed.

(** The frames a session gets from a list of targets. *)
Definition frames_for (d data : bytes) (hs : gmap bytes bytes) (id : bytes) (h : Z) (ts : list Subscription) :
    list bytes :=
  map (fun t => serialize order (message_frame d data hs id t)) (List.filter (fun t => sub_session t =? h) ts).

(** The count never exceeds the targets, and when it reaches them every
    session has received its frames in order. *)
Lemma deliver_fold_all d data hs id ts n stale w b :
  let '(n', _, w', _) := foldl (deliver d data hs id) (n, stale, w, b) ts in
  n' <= n + len ts /\
  (n' = n + len ts -> forall h, sess_texts h w' = sess_texts h w ++ frames_for d data hs id h ts).
Proof.
  revert n stale w b. induction ts as [|t ts IH]; intros n stale w b; cbn [foldl].
  { rewrite len_nil. split; [lia|]. intros _ h. by rewrite app_nil_r. }
  rewrite len_cons. unfold Broker.deliver at 2.
  destruct (sess_active (sub_session t) w); cbn [negb].
  2:{ specialize (IH n (stale ++ [sub_session t]) w b). destruct (foldl _ _ ts) as [[[n2 st2] w2] b2].
      destruct IH as [I1 I2]. split; [lia|]. intros E. lia. }
  set (text := serialize _ _).
  pose proof (sess_send_ok (sub_session t) text w) as Ok.
  pose proof (fun h => sess_send_other (sub_session t) text w h) as Other.
  destruct (sess_send_text (sub_session t) text w) as [[] w1]; cbn [fst snd] in Ok, Other.
  2:{ destruct (negb _).
      - specialize (IH n (stale ++ [sub_session t]) w1 b). destruct (foldl _ _ ts) as [[[n2 st2] w2] b2].
        destruct IH as [I1 I2]. split; lia.
      - specialize (IH n stale w1 b). destruct (foldl _ _ ts) as [[[n2 st2] w2] b2].
        destruct IH as [I1 I2]. split; lia. }
  set (b1 := if bool_decide _ then b else _). specialize (IH (n + 1) stale w1 b1).
  destruct (foldl _ _ ts) as [[[n2 st2] w2] b2]. destruct IH as [I1 I2]. split; [lia|].
  intros E h. rewrite I2 by lia. unfold frames_for. cbn [List.filter].
  destruct (sub_session t =? h) eqn:Eh; to_prop.
  - subst h. rewrite Ok by done. cbn [map]. by rewrite <- app_assoc.
  - destruct (Other h) as [-> _]; [congruence|done].
Qed.

(** A topic message whose reported count is the number of
    subscriptions was appended to the queue of every subscribing session, one
    MESSAGE frame per subscription in subscription order, carrying the
    destination, the subscription id and a fresh message id; the count is
    never more than the number of subscriptions. *)
Theorem publish_topic_delivers d data hs w b subs
  (Hd : starts_with (bs "/topic/") d = true) (Hs : subscriptions_ b !! d = Some subs) :
  let '(n, w', _) := publish order d data hs w b in
  n <= len subs /\
  (n = len subs -> forall h,
     sess_texts h w' = sess_texts h w ++ frames_for d data hs (to_dec (next_message_id_ b)) h subs).
Proof.
  assert (starts_with (bs "/queue/") d = false /\ starts_with (bs "/user/") d = false) as [Q U].
  { apply starts_with_spec in Hd as [r ->]. done. }
  unfold publish, supported_destination, select_targets. rewrite Hd, Hs, Q, U. cbn [negb orb].
  cbn zeta. unfold for_each.
  pose proof (deliver_fold_all d data hs (to_dec (next_message_id_ b)) subs 0 [] w
    (mkBroker (subscriptions_ b) (queue_cursors_ b) (pending_acks_ b) (next_message_id_ b + 1)
       (next_delivery_sequence_ b))) as D.
  destruct (foldl _ _ subs) as [[[n st] w'] b2]. destruct D as [D1 D2]. split; [lia|]. intros ->. apply D2. lia.
Qed.
End Delivery.

Definition two_sessions : gmap Z SharedSession :=
  <[1 := new_shared 1 default_limits false]> (<[2 := new_shared 2 default_limits false]> ∅).

Definition topic_broker : Broker :=
  snd (subscribe (bs "/topic/a") (bs "s1") 1 Auto [] two_sessions
    (snd (subscribe (bs "/topic/a") (bs "s2") 2 Client (bs "bob") two_sessions new_broker))).

Lemma publish_topic_delivers_witness :
  let '(n, w', _) := publish map_to_list (bs "/topic/a") (bs "hi") ∅ two_sessions topic_broker in
  n = 2 /\
  sess_texts 2 w' = sess_texts 2 two_sessions ++
    frames_for map_to_list (bs "/topic/a") (bs "hi") ∅ (bs "1") 2
      [mkSub 2 (bs "s2") Client (bs "bob"); mkSub 1 (bs "s1") Auto []].
Proof.
  pose proof (publish_topic_delivers map_to_list (bs "/topic/a") (bs "hi") ∅ two_sessions topic_broker
    [mkSub 2 (bs "s2") Client (bs "bob"); mkSub 1 (bs "s1") Auto []] ltac:(by vm_compute) ltac:(by vm_compute)) as P.
  assert (fst (fst (publish map_to_list (bs "/topic/a") (bs "hi") ∅ two_sessions topic_broker)) = 2) as E by (by vm_compute).
  destruct (publish _ _ _ _ _ _) as [[n w'] b']. cbn in E. subst n. destruct P as [_ P]. split; [done|].
  by apply P.
Defined.

(** ** The invariant of the broker *)

Definition sub_key (s : Subscription) : Z * bytes := (sub_session s, sub_id s).

Definition sub_ok (s : Subscription) : Prop := sub_session s <> 0 /\ sub_id s <> [].

Record broker_inv (b : Broker) : Prop := {
  bi_subs : map_Forall (fun d l => supported_destination d = true /\ l <> [] /\ NoDup (map sub_key l) /\ Forall sub_ok l)
              (subscriptions_ b);
  bi_pending : map_Forall (fun _ l => l <> [] /\ StronglySorted Z.lt (map sequence l) /\
                 Forall (fun x => sequence x < next_delivery_sequence_ b) l) (pending_acks_ b)
}.

Lemma same_sub_key session id s : same_sub session id s = true <-> sub_key s = (session, id).
Proof.
  unfold same_sub, sub_key. rewrite andb_true_iff, Z.eqb_eq, bool_decide_eq_true.
  split; [by intros [-> ->]|by intros [= -> ->]].
Qed.

Lemma replace_sub_keys new l :
  (forall k, k ∈ map sub_key (replace_sub new l) -> k ∈ map sub_key l \/ k = sub_key new) /\
  (NoDup (map sub_key l) -> NoDup (map sub_key (replace_sub new l))).
Proof.
  induction l as [|s l [IH1 IH2]]; cbn.
  - split; [intros k; rewrite list_elem_of_singleton; auto|]. intros _. apply NoDup_singleton.
  - destruct (same_sub (sub_session new) (sub_id new) s) eqn:E.
    + apply same_sub_key in E. change (sub_session new, sub_id new) with (sub_key new) in E. cbn. rewrite E.
      split; [by left|done].
    + split.
      * intros k. cbn. rewrite !elem_of_cons. intros [->|Hk]; [by left; left|].
        destruct (IH1 k Hk); tauto.
      * cbn. rewrite !NoDup_cons. intros [N ND]. split; [|by apply IH2]. intros Hin.
        destruct (IH1 _ Hin) as [?|X]; [done|].
        assert (same_sub (sub_session new) (sub_id new) s = true) by (by apply same_sub_key). congruence.
Qed.

Lemma replace_sub_ok new l : sub_ok new -> Forall sub_ok l ->
  Forall sub_ok (replace_sub new l) /\ replace_sub new l <> [].
Proof.
  intros Hn H. induction H as [|s l Hs H [IH _]]; cbn; [split; [constructor; [done|constructor]|done]|].
  case_goal; (split; [|done]); by constructor.
Qed.

Lemma erase_subs_inv p m :
  map_Forall (fun d l => supported_destination d = true /\ l <> [] /\ NoDup (map sub_key l) /\ Forall sub_ok l) m ->
  map_Forall (fun d l => supported_destination d = true /\ l <> [] /\ NoDup (map sub_key l) /\ Forall sub_ok l)
    (erase_subs p m).
Proof.
  intros H d l. unfold erase_subs. rewrite lookup_omap. destruct (m !! d) as [l0|] eqn:E; [|done]. cbn.
  destruct (H d l0 E) as (H1 & H2 & H3 & H4).
  destruct (List.filter _ l0) as [|x r] eqn:F; [done|]. intros [= <-].
  split_and!; [done|done| |].
  - rewrite <- F. clear -H3. induction l0 as [|s l IH]; [done|]. cbn in H3 |- *. apply NoDup_cons in H3 as [N ND].
    destruct (negb (p s)); [|by apply IH]. cbn. apply NoDup_cons. split; [|by apply IH].
    intros Hin. apply N. apply list_elem_of_fmap in Hin as (s' & E1 & E2). apply list_elem_of_fmap.
    exists s'. split; [done|]. apply list_elem_of_In in E2. apply List.filter_In in E2 as [E2 _]. by apply list_elem_of_In.
  - rewrite <- F. apply List.Forall_forall. intros s Hs. apply List.filter_In in Hs as [Hs _].
    by apply (proj1 (List.Forall_forall _ _) H4).
Qed.

Lemma push_pending_inv session id mode m b : broker_inv b -> broker_inv (push_pending session id mode m b).
Proof.
  intros [H1 H2]. split; [done|]. cbn. intros s l. rewrite lookup_insert_Some. intros [[<- <-]|[N E]].
  - assert (StronglySorted Z.lt (map sequence (default [] (pending_acks_ b !! session))) /\
      Forall (fun x => sequence x < next_delivery_sequence_ b) (default [] (pending_acks_ b !! session))) as [S F].
    { destruct (pending_acks_ b !! session) as [l|] eqn:E; [|split; constructor]. by destruct (H2 _ _ E) as (_ & ? & ?). }
    split_and!; [by destruct (default _ _)| |].
    + rewrite map_app. cbn. revert S F. generalize (default [] (pending_acks_ b !! session)). intros l0 S F.
      induction l0 as [|x l0 IH]; cbn; [by repeat constructor|]. cbn in S. inversion_clear S as [|?? S1 S2].
      apply Forall_cons in F as [F1 F2]. constructor; [by apply IH|]. apply Forall_app. split; [done|by repeat constructor].
    + apply Forall_app. split; [|constructor; [cbn; lia|constructor]]. eapply Forall_impl; [exact F|]. cbn. lia.
  - destruct (H2 s l E) as (? & ? & F). split_and!; try done. eapply Forall_impl; [exact F|]. cbn. lia.
Qed.

Section BrokerSteps.
Context {W : Type} `{SessionApi W}.
Context (order : gmap bytes bytes -> list (bytes * bytes)).

(** One call on the broker, in any world of sessions. *)
Inductive broker_step (b : Broker) : Broker -> Prop :=
| bs_subscribe d id s mode p w : broker_step b (snd (subscribe d id s mode p w b))
| bs_unsubscribe s id : broker_step b (unsubscribe s id b)
| bs_acknowledge s id : broker_step b (snd (acknowledge s id b))
| bs_publish d data hs w : broker_step b (snd (publish order d data hs w b)).

Lemma subscribe_inv d id s mode p w b : broker_inv b -> broker_inv (snd (subscribe d id s mode p w b)).
Proof.
  intros [H1 H2]. unfold subscribe. destruct (_ || _) eqn:E; [done|]. to_prop. split; [|done]. cbn.
  intros d' l. rewrite lookup_insert_Some. intros [[<- <-]|[N E]]; [|by apply H1].
  assert (sub_ok (mkSub s id mode p)) as Hn.
  { split; [done|]. cbn. destruct id; [done|done]. }
  assert (NoDup (map sub_key (default [] (subscriptions_ b !! d))) /\ Forall sub_ok (default [] (subscriptions_ b !! d))) as [ND F].
  { destruct (subscriptions_ b !! d) as [l|] eqn:El; [|split; constructor]. by destruct (H1 _ _ El) as (_ & _ & ? & ?). }
  destruct (replace_sub_ok _ _ Hn F). split_and!; try done. by apply replace_sub_keys.
Qed.

Lemma sorted_filter p l : StronglySorted Z.lt (map sequence l) -> StronglySorted Z.lt (map sequence (List.filter p l)).
Proof.
  induction l as [|x l IH]; cbn; [done|]. intros S. inversion_clear S as [|?? S1 S2].
  destruct (p x); [|by apply IH]. cbn. constructor; [by apply IH|]. rewrite List.Forall_forall in S2 |- *.
  intros y Hy. apply S2. apply List.in_map_iff in Hy as (z & <- & Hz). apply List.filter_In in Hz as [Hz _].
  by apply List.in_map.
Qed.

Lemma erase_first_spec id l d : List.find (fun d => bool_decide (ack_id d = id)) l = Some d ->
  exists before after, l = before ++ d :: after /\ ack_id d = id /\ Forall (fun x => ack_id x <> id) before /\
    erase_first id l = before ++ after.
Proof.
  induction l as [|x l IH]; cbn; [done|]. case_bool_decide as E.
  - intros [= <-]. by exists [], l.
  - intros F. destruct (IH F) as (before & after & -> & H1 & H2 & H3). exists (x :: before), after.
    split_and!; [done|done|by constructor|]. cbn. by rewrite H3.
Qed.

Lemma sorted_split before d after : StronglySorted Z.lt (map sequence (before ++ d :: after)) ->
  Forall (fun x => sequence x < sequence d) before /\ Forall (fun x => sequence d < sequence x) after.
Proof.
  induction before as [|x before IH]; cbn; intros S; inversion_clear S as [|?? S1 S2].
  - split; [constructor|]. exact (proj1 (List.Forall_map _ _ _) S2).
  - destruct (IH S1). split; [|done]. constructor; [|done]. rewrite List.Forall_forall in S2.
    apply S2. apply List.in_map, List.in_or_app. right. by left.
Qed.

(** What an acknowledgement keeps, in a queue sorted by sequence. *)
Lemma ack_rest_spec before d after : StronglySorted Z.lt (map sequence (before ++ d :: after)) ->
  Forall (fun x => ack_id x <> ack_id d) before ->
  ack_rest d (before ++ d :: after) = match pd_ack d with Client => after | _ => before ++ after end.
Proof.
  intros S N. assert (erase_first (ack_id d) (before ++ d :: after) = before ++ after) as E.
  { clear S. induction N as [|x l Hx _ IH]; cbn; [by rewrite bool_decide_true|].
    rewrite bool_decide_false by done. by rewrite IH. }
  destruct (sorted_split _ _ _ S) as [B A]. unfold ack_rest. destruct (pd_ack d); [done| |done].
  rewrite List.filter_app. cbn. rewrite Z.leb_refl. cbn.
  assert (List.filter (fun x => negb (sequence x <=? sequence d)) before = []) as ->.
  { clear -B. induction B as [|x l Hx _ IH]; cbn; [done|]. destruct (sequence x <=? sequence d) eqn:L; to_prop; [|lia].
    exact IH. }
  rewrite app_nil_l. clear -A. induction A as [|x l Hx _ IH]; cbn; [done|].
  destruct (sequence x <=? sequence d) eqn:L; to_prop; [lia|]. cbn. by rewrite IH.
Qed.

Definition pending_of (s : Z) (b : Broker) : list PendingDelivery := default [] (pending_acks_ b !! s).

Lemma acknowledge_inv s id b : broker_inv b -> broker_inv (snd (acknowledge s id b)).
Proof.
  intros [H1 H2]. unfold acknowledge. destruct (pending_acks_ b !! s) as [l|] eqn:E; [|done].
  destruct (List.find _ l) as [d|] eqn:F; [|done]. split; [done|].
  destruct (H2 s l E) as (_ & S & B).
  assert (StronglySorted Z.lt (map sequence (ack_rest d l)) /\
    Forall (fun x => sequence x < next_delivery_sequence_ b) (ack_rest d l)) as [S' B'].
  { destruct (erase_first_spec id l d F) as (before & after & -> & Hi & Hn & _). rewrite <- Hi in Hn.
    rewrite ack_rest_spec by done. apply Forall_app in B as [B1 B2]. apply Forall_cons in B2 as [_ B2].
    assert (StronglySorted Z.lt (map sequence (before ++ after)) /\ StronglySorted Z.lt (map sequence after)) as [S1 S2].
    { clear -S. induction before as [|x l IH]; cbn in *; inversion_clear S as [|?? S1 S2]; [done|].
      destruct (IH S1). split; [|done]. constructor; [done|]. rewrite map_app in S2 |- *. apply Forall_app in S2 as [A1 A2].
      apply Forall_app. split; [done|]. by apply Forall_cons in A2 as [_ ?]. }
    destruct (pd_ack d); (split; [done|]); try done; by apply Forall_app. }
  cbn. destruct (ack_rest d l) as [|x r].
  - intros s' l'. rewrite lookup_delete_Some. intros [_ ?]. by apply (H2 s').
  - intros s' l'. rewrite lookup_insert_Some. intros [[<- <-]|[_ ?]]; [by split_and!|by apply (H2 s')].
Qed.

Lemma publish_inv d data hs w b : broker_inv b -> broker_inv (snd (publish order d data hs w b)).
Proof.
  intros I. unfold publish. destruct (negb _); [done|].
  assert (forall r b', select_targets d w b = (r, b') -> broker_inv b') as S.
  { intros r b'. unfold select_targets. destruct I as [I1 I2].
    repeat case_goal; intros; simplify_eq; by split. }
  destruct (select_targets d w b) as [[[ts id]|] b1] eqn:E; [|by eapply S]. specialize (S _ _ eq_refl).
  unfold for_each.
  assert (forall st, broker_inv (snd st) -> broker_inv (snd (foldl (deliver order d data hs id) st ts))) as D.
  { clear E. induction ts as [|t ts IH]; intros [[[n st] w0] b0] Hb; [done|]. cbn [foldl]. apply IH.
    cbv beta iota zeta delta [deliver]. destruct (negb (sess_active (sub_session t) w0)); [done|]. destruct (sess_send_text _ _ _) as [[] w1].
    - case_goal; [done|]. by apply push_pending_inv.
    - by destruct (negb (sess_active (sub_session t) w1)). }
  specialize (D (0, [], w, b1) S). destruct (foldl _ _ ts) as [[[n st] w'] b2]. cbn in D |- *.
  unfold prune. destruct st; [done|]. destruct D as [D1 D2]. split; [|done]. by apply erase_subs_inv.
Qed.

Lemma broker_step_inv b b' : broker_inv b -> broker_step b b' -> broker_inv b'.
Proof.
  intros I [d id s mode p w|s id|s id|d data hs w];
    [by apply subscribe_inv| |by apply acknowledge_inv|by apply publish_inv].
  destruct I as [I1 I2]. split; [by apply erase_subs_inv|]. cbn. by apply map_Forall_delete.
Qed.

Lemma reachable_broker_inv b : rtc broker_step new_broker b -> broker_inv b.
Proof.
  apply (rtc_ind_r broker_inv new_broker); [by split; apply map_Forall_empty|].
  intros x y _ Hxy Hx. by eapply broker_step_inv.
Qed.

(** [C19] In every state the broker reaches, through any sequence of
    subscriptions, cancellations, acknowledgements and publications:
    destinations are in the supported namespaces and have at least one
    subscription, no (session, subscription id) is registered twice for a
    destination, and the unacknowledged deliveries of a session are in
    strictly increasing sequence. *)
Theorem broker_invariant b (Hreach : rtc broker_step new_broker b) :
  (forall d l, subscriptions_ b !! d = Some l ->
     supported_destination d = true /\ l <> [] /\ NoDup (map sub_key l)) /\
  (forall s l, pending_acks_ b !! s = Some l ->
     l <> [] /\ StronglySorted Z.lt (map sequence l)).
Proof.
  destruct (reachable_broker_inv b Hreach) as [H1 H2]. split.
  - intros d l E. by destruct (H1 d l E) as (? & ? & ? & _).
  - intros s l E. by destruct (H2 s l E) as (? & ? & _).
Qed.

(** Acknowledging in a reachable state: an unknown id is
    refused and changes nothing; a known id of a [client] subscription
    discards exactly the deliveries of the session up to and including it, one
    of a [client-individual] subscription exactly that delivery; other
    sessions and all subscriptions are unaffected. *)
Theorem acknowledge_correct b s id (Hreach : rtc broker_step new_broker b) :
  match acknowledge s id b with
  | (false, b') => b' = b /\ Forall (fun d => ack_id d <> id) (pending_of s b)
  | (true, b') =>
      exists before d after, pending_of s b = before ++ d :: after /\ ack_id d = id /\
        pending_of s b' = match pd_ack d with Client => after | _ => before ++ after end /\
        (forall s', s' <> s -> pending_of s' b' = pending_of s' b) /\
        subscriptions_ b' = subscriptions_ b
  end.
Proof.
  apply reachable_broker_inv in Hreach as [_ H2]. unfold acknowledge, pending_of.
  destruct (pending_acks_ b !! s) as [l|] eqn:E; [|split; [done|constructor]].
  destruct (H2 s l E) as (_ & S & _). change (default [] (Some l)) with l.
  destruct (List.find _ l) as [d|] eqn:F.
  - destruct (erase_first_spec id l d F) as (before & after & -> & Hi & Hn & _). rewrite <- Hi in Hn.
    exists before, d, after. rewrite ack_rest_spec by done. split_and!; [done|done| | |done].
    + cbn. destruct (match pd_ack d with Client => after | _ => before ++ after end) as [|x r] eqn:R.
      * by rewrite lookup_delete_eq.
      * by rewrite lookup_insert_eq.
    + intros s' N. cbn. by case_goal; rewrite ?lookup_delete_ne, ?lookup_insert_ne by congruence.
  - split; [done|]. apply List.Forall_forall. intros d Hd.
    apply (List.find_none _ _ F) in Hd. by apply bool_decide_eq_false in Hd.
Qed.

(** Cancelling any subscription of a session, known or not, forgets every
    unacknowledged delivery of the session, those of its other subscriptions
    too: their later ACKs are refused. *)
Lemma unsubscribe_forgets_acks s id b : pending_of s (unsubscribe s id b) = [].
Proof. unfold pending_of, unsubscribe. cbn. by rewrite lookup_delete_eq. Qed.
End BrokerSteps.

Definition acked_broker : Broker :=
  snd (publish map_to_list (bs "/topic/a") (bs "2") ∅ two_sessions
    (snd (publish map_to_list (bs "/topic/a") (bs "1") ∅ two_sessions topic_broker))).

Lemma acked_broker_reachable : rtc (broker_step map_to_list (W := gmap Z SharedSession)) new_broker acked_broker.
Proof.
  eapply rtc_l; [apply (bs_subscribe _ _ (bs "/topic/a") (bs "s2") 2 Client (bs "bob") two_sessions)|].
  eapply rtc_l; [apply (bs_subscribe _ _ (bs "/topic/a") (bs "s1") 1 Auto [] two_sessions)|].
  eapply rtc_l; [apply (bs_publish _ _ (bs "/topic/a") (bs "1") ∅ two_sessions)|].
  eapply rtc_l; [apply (bs_publish _ _ (bs "/topic/a") (bs "2") ∅ two_sessions)|].
  apply rtc_refl.
Qed.

Lemma broker_invariant_witness :
  pending_ack_count 2 acked_broker = 2 /\
  (forall s l, pending_acks_ acked_broker !! s = Some l -> l <> [] /\ StronglySorted Z.lt (map sequence l)).
Proof.
  split; [by vm_compute|]. exact (proj2 (broker_invariant map_to_list acked_broker acked_broker_reachable)).
Defined.

Lemma acknowledge_correct_witness :
  fst (acknowledge 2 (bs "2") acked_broker) = true /\
  match acknowledge 2 (bs "2") acked_broker with
  | (false, _) => False
  | (true, b') =>
      exists before d after, pending_of 2 acked_broker = before ++ d :: after /\ ack_id d = bs "2" /\
        pending_of 2 b' = match pd_ack d with Client => after | _ => before ++ after end /\
        (forall s', s' <> 2 -> pending_of s' b' = pending_of s' acked_broker) /\
        subscriptions_ b' = subscriptions_ acked_broker
  end.
Proof.
  split; [by vm_compute|].
  pose proof (acknowledge_correct map_to_list acked_broker 2 (bs "2") acked_broker_reachable) as A.
  assert (fst (acknowledge 2 (bs "2") acked_broker) = true) as E by (by vm_compute).
  destruct (acknowledge 2 (bs "2") acked_broker) as [[] b']; [exact A|done].
Defined.
