(* ===== verification/StompEndpoint.v ===== *)
(** * The STOMP endpoint: [messaging/stomp.cpp]

    [Endpoint]: the protocol state of every WebSocket connection and the
    CONNECT / SUBSCRIBE / SEND / UNSUBSCRIBE / ACK / NACK / DISCONNECT state
    machine on top of the broker.  The [Session] a callback receives and the
    handles the broker keeps share one [SharedSession]: it lives in the world,
    and a session operation runs on the session with its shared part taken
    from there and put back.  The relay's own I/O loop is not modelled; its
    [on_message] is. *)

From S2P Require Import Prelude CxxString WebSocket WsRegistry Sse Stomp StompBroker.
Import Stomp Broker.

Module Endpoint.

Inductive Meter :=
| MCounter (name : bytes) (attributes : list (bytes * bytes))
| MHistogram (name : bytes) (value : Z) (unit : bytes) (attributes : list (bytes * bytes))
| MUpDown (name : bytes) (value : Z).

Record ConnectionState := mkConn {
  decoder : Decoder;
  connected : bool;
  handle : Z;
  principal : bytes;
  subscription_ids : list bytes;
  outgoing_heartbeat : Z;
  incoming_heartbeat : Z;
  last_received_ms : Z;
  last_sent_ms : Z
}.

Definition with_decoder (d : Decoder) (c : ConnectionState) : ConnectionState :=
  mkConn d (connected c) (handle c) (principal c) (subscription_ids c) (outgoing_heartbeat c)
    (incoming_heartbeat c) (last_received_ms c) (last_sent_ms c).
Definition with_connected (out inc : Z) (c : ConnectionState) : ConnectionState :=
  mkConn (decoder c) true (handle c) (principal c) (subscription_ids c) out inc
    (last_received_ms c) (last_sent_ms c).
Definition with_ids (ids : list bytes) (c : ConnectionState) : ConnectionState :=
  mkConn (decoder c) (connected c) (handle c) (principal c) ids (outgoing_heartbeat c)
    (incoming_heartbeat c) (last_received_ms c) (last_sent_ms c).
Definition with_received (now : Z) (c : ConnectionState) : ConnectionState :=
  mkConn (decoder c) (connected c) (handle c) (principal c) (subscription_ids c) (outgoing_heartbeat c)
    (incoming_heartbeat c) now (last_sent_ms c).
Definition with_sent (now : Z) (c : ConnectionState) : ConnectionState :=
  mkConn (decoder c) (connected c) (handle c) (principal c) (subscription_ids c) (outgoing_heartbeat c)
    (incoming_heartbeat c) (last_received_ms c) now.

(** The negotiated periods (outgoing, incoming) of a CONNECT. *)
Definition negotiate (server_outgoing server_incoming client_outgoing client_incoming : Z) : Z * Z :=
  ((if (client_outgoing =? 0) || (server_incoming =? 0) then 0 else Z.max client_outgoing server_incoming),
   (if (client_incoming =? 0) || (server_outgoing =? 0) then 0 else Z.max client_incoming server_outgoing)).

Definition ack_mode_of (ack : bytes) : option AckMode :=
  if (len ack =? 0) || bool_decide (ack = bs "auto") then Some Auto
  else if bool_decide (ack = bs "client") then Some Client
  else if bool_decide (ack = bs "client-individual") then Some ClientIndividual
  else None.

Section Endpoint.
Context {A : Type}.
Context (order : gmap bytes bytes -> list (bytes * bytes)).

Record Config := mkConfig {
  server_outgoing_heartbeat : Z;
  server_incoming_heartbeat : Z;
  dispatcher : option (gmap bytes (bytes -> A -> bool * A));
  application_destination_prefix : bytes;
  interceptor : option (Session -> Frame -> bool)
}.

(** The endpoint, what it shares with the rest, and the session of the
    callback that runs. *)
Record St := mkSt {
  connections_ : gmap Z ConnectionState;
  accepting_ : bool;
  broker_ : Broker;
  world : gmap Z SharedSession;
  app : A;
  meters_ : option (list Meter);
  ses : Session
}.

Definition set_conns (c : gmap Z ConnectionState) (st : St) : St :=
  mkSt c (accepting_ st) (broker_ st) (world st) (app st) (meters_ st) (ses st).
Definition set_accepting (b : bool) (st : St) : St :=
  mkSt (connections_ st) b (broker_ st) (world st) (app st) (meters_ st) (ses st).
Definition set_broker (b : Broker) (st : St) : St :=
  mkSt (connections_ st) (accepting_ st) b (world st) (app st) (meters_ st) (ses st).
Definition set_world (w : gmap Z SharedSession) (st : St) : St :=
  mkSt (connections_ st) (accepting_ st) (broker_ st) w (app st) (meters_ st) (ses st).
Definition set_app (a : A) (st : St) : St :=
  mkSt (connections_ st) (accepting_ st) (broker_ st) (world st) a (meters_ st) (ses st).

Definition meter (ms : list Meter) (st : St) : St :=
  mkSt (connections_ st) (accepting_ st) (broker_ st) (world st) (app st)
    ((fun l => l ++ ms) <$> meters_ st) (ses st).

(** Run a session operation with the shared part of the world. *)
Definition on_session (self : Z) (f : Session -> Session) (st : St) : St :=
  let s := f (set_shared (world st !! self) (ses st)) in
  mkSt (connections_ st) (accepting_ st) (broker_ st)
    (match shared_ s with Some h => <[self := h]> (world st) | None => world st end)
    (app st) (meters_ st) (set_shared None s).

Definition send (self : Z) (f : Frame) (st : St) : St :=
  let by_command := (bs "stomp.command", command f) in
  let st := meter [MCounter (bs "stomp.server.frames.sent") [by_command];
                   MHistogram (bs "stomp.server.frame.body.size") (len (body f)) (bs "By")
                     [by_command; (bs "messaging.operation.type", bs "send")]] st in
  on_session self (fun s => snd (send_text (serialize order f) s)) st.

Definition protocol_error (self : Z) (message : bytes) (st : St) : St :=
  let st := send self (mkFrame (bs "ERROR") {[bs "message" := message]} message) st in
  on_session self (fun s => snd (session_close 1002 (bs "Invalid STOMP frame") s)) st.

(** The receipt at the end of a successful frame. *)
Definition send_receipt (self : Z) (f : Frame) (st : St) : St :=
  let receipt := header (bs "receipt") f in
  if len receipt =? 0 then st
  else send self (mkFrame (bs "RECEIPT") {[bs "receipt-id" := receipt]} []) st.

(** ** Frames *)

Definition process_connect (cfg : Config) (self : Z) (c : ConnectionState) (f : Frame) (st : St) :
    ConnectionState * St :=
  if negb (bool_decide (command f = bs "CONNECT")) && negb (bool_decide (command f = bs "STOMP")) then
    (c, protocol_error self (bs "CONNECT or STOMP must be the first frame") st)
  else if match find_sub (bs "1.2") (header (bs "accept-version") f) with Some _ => false | None => true end then
    (c, protocol_error self (bs "STOMP 1.2 is required") st)
  else
    match parse_heartbeat (header (bs "heart-beat") f) with
    | inl (mkParseError m) => (c, protocol_error self m st)
    | inr (client_outgoing, client_incoming) =>
        let so := server_outgoing_heartbeat cfg in
        let si := server_incoming_heartbeat cfg in
        let '(outgoing, incoming) := negotiate so si client_outgoing client_incoming in
        (with_connected outgoing incoming c,
         send self (mkFrame (bs "CONNECTED")
           (<[bs "version" := bs "1.2"]> {[bs "heart-beat" := to_dec so ++ bs "," ++ to_dec si]}) []) st)
    end.

(** Each branch: the new connection state, the new state, and whether the
    receipt is still to be sent. *)
Definition process_subscribe (self : Z) (c : ConnectionState) (f : Frame) (st : St) : ConnectionState * St * bool :=
  let destination := header (bs "destination") f in
  let id := header (bs "id") f in
  let fail := (c, protocol_error self (bs "invalid STOMP subscription") st, false) in
  match ack_mode_of (header (bs "ack") f) with
  | None => fail
  | Some mode =>
      if (len destination =? 0) || (len id =? 0) then fail
      else
        match subscribe destination id (handle c) mode (principal c) (world st) (broker_ st) with
        | (false, _) => fail
        | (true, b) => (with_ids (subscription_ids c ++ [id]) c, set_broker b st, true)
        end
  end.

Definition process_unsubscribe (self : Z) (c : ConnectionState) (f : Frame) (st : St) : ConnectionState * St * bool :=
  let id := header (bs "id") f in
  if len id =? 0 then (c, protocol_error self (bs "UNSUBSCRIBE requires id") st, false)
  else
    (with_ids (List.filter (fun i => negb (bool_decide (i = id))) (subscription_ids c)) c,
     set_broker (unsubscribe (handle c) id (broker_ st)) st, true).

Definition process_send (cfg : Config) (self : Z) (c : ConnectionState) (f : Frame) (st : St) :
    ConnectionState * St * bool :=
  let destination := header (bs "destination") f in
  let prefix := application_destination_prefix cfg in
  if negb (len prefix =? 0) && starts_with (prefix ++ bs "/") destination then
    match dispatcher cfg with
    | None => (c, protocol_error self (bs "unmapped STOMP application destination") st, false)
    | Some d =>
        match dispatch d (drop (length prefix) destination) (body f) (app st) with
        | (true, a) => (c, set_app a st, true)
        | (false, a) =>
            (c, protocol_error self (bs "unmapped STOMP application destination") (set_app a st), false)
        end
    end
  else
    let '(n, st) :=
      if len destination =? 0 then (0, st)
      else
        let '(n, w, b) := publish order destination (body f) (headers f) (world st) (broker_ st) in
        (n, set_broker b (set_world w st)) in
    if (n =? 0) && negb (starts_with (bs "/topic/") destination) &&
       negb (starts_with (bs "/queue/") destination)
    then (c, protocol_error self (bs "unsupported STOMP destination") st, false)
    else (c, st, true).

Definition process_ack (self : Z) (c : ConnectionState) (f : Frame) (st : St) : ConnectionState * St * bool :=
  let id := header (bs "id") f in
  let '(accepted, st) :=
    if len id =? 0 then (false, st)
    else if bool_decide (command f = bs "ACK") then
      let '(ok, b) := acknowledge (handle c) id (broker_ st) in (ok, set_broker b st)
    else
      let '(ok, w) := negative_acknowledge order (handle c) id (world st) (broker_ st) in (ok, set_world w st) in
  if accepted : bool then (c, st, true)
  else (c, protocol_error self (bs "unknown STOMP acknowledgement id") st, false).

Definition process_disconnect (self : Z) (c : ConnectionState) (f : Frame) (st : St) : ConnectionState * St * bool :=
  let st := send_receipt self f st in
  (c, on_session self (fun s => snd (session_close 1000 (bs "STOMP disconnect") s)) st, false).

Definition process_frame (cfg : Config) (self : Z) (c : ConnectionState) (f : Frame) (st : St) :
    ConnectionState * St :=
  if negb (connected c) then process_connect cfg self c f st
  else
    let '(c, st, receipt) :=
      if bool_decide (command f = bs "SUBSCRIBE") then process_subscribe self c f st
      else if bool_decide (command f = bs "UNSUBSCRIBE") then process_unsubscribe self c f st
      else if bool_decide (command f = bs "SEND") then process_send cfg self c f st
      else if bool_decide (command f = bs "ACK") || bool_decide (command f = bs "NACK")
      then process_ack self c f st
      else if bool_decide (command f = bs "DISCONNECT") then process_disconnect self c f st
      else (c, protocol_error self (bs "unsupported STOMP command") st, false) in
    if receipt : bool then (c, send_receipt self f st) else (c, st).

(** ** Callbacks *)

Definition on_open (now : Z) (self : Z) (st : St) : St :=
  if negb (accepting_ st) then
    on_session self (fun s => snd (session_close 1001 (bs "Server shutting down") s)) st
  else
    let c := mkConn new_decoder false self (principal_ (ses st)) [] 0 0 now now in
    meter [MUpDown (bs "stomp.server.active_connections") 1;
           MCounter (bs "stomp.server.connections.opened") []]
      (set_conns (<[self := c]> (connections_ st)) st).

(** The loop over the decoded frames. *)
Fixpoint process_frames (cfg : Config) (self : Z) (c : ConnectionState) (fs : list Frame) (st : St) :
    ConnectionState * St :=
  match fs with
  | [] => (c, st)
  | f :: r =>
      if close_sent_ (ses st) then (c, st)
      else if match interceptor cfg with Some i => negb (i (ses st) f) | None => false end then
        (c, protocol_error self (bs "STOMP frame rejected by interceptor") st)
      else
        let by_command := (bs "stomp.command", command f) in
        let st := meter [MCounter (bs "stomp.server.frames.received") [by_command];
                         MHistogram (bs "stomp.server.frame.body.size") (len (body f)) (bs "By") [by_command]] st in
        let '(c, st) := process_frame cfg self c f st in
        process_frames cfg self c r st
  end.

Definition on_message (cfg : Config) (now : Z) (self : Z) (m : Message) (st : St) : St :=
  if negb (bool_decide (msg_opcode m = Text)) then
    protocol_error self (bs "STOMP requires text WebSocket messages") st
  else
    match connections_ st !! self with
    | None => st
    | Some c =>
        let c := with_received now c in
        match feed (msg_payload m) (decoder c) with
        | (inl (mkParseError e), d) =>
            protocol_error self e (set_conns (<[self := with_decoder d c]> (connections_ st)) st)
        | (inr fs, d) =>
            let '(c, st) := process_frames cfg self (with_decoder d c) fs st in
            set_conns (<[self := c]> (connections_ st)) st
        end
    end.

Definition unsubscribe_all (c : ConnectionState) (b : Broker) : Broker :=
  for_each (fun b id => unsubscribe (handle c) id b) (subscription_ids c) b.

Definition on_close (self : Z) (st : St) : St :=
  match connections_ st !! self with
  | None => st
  | Some c =>
      meter [MUpDown (bs "stomp.server.active_connections") (-1)]
        (set_broker (unsubscribe_all c (broker_ st)) (set_conns (delete self (connections_ st)) st))
  end.

(** ** Shutdown and heartbeats *)

Definition begin_shutdown (st : St) : St :=
  let close w (kc : Z * ConnectionState) :=
    snd (SessionHandle.close (handle (snd kc)) 1001 (bs "Server shutting down") w) in
  set_world (for_each close (map_to_list (connections_ st)) (world st)) (set_accepting false st).

Definition drained (st : St) : bool := bool_decide (connections_ st = ∅).

Definition force_one (st : St) (kc : Z * ConnectionState) : St :=
  let c := snd kc in
  let st := set_broker (unsubscribe_all c (broker_ st)) st in
  set_world (snd (SessionHandle.close (handle c) 1001 (bs "Server shutdown deadline exceeded") (world st))) st.

Definition force_shutdown (st : St) : St :=
  let cs := map_to_list (connections_ st) in
  for_each force_one cs (set_conns ∅ (set_accepting false st)).

(** One connection of one round of the heartbeat loop. *)
Definition heartbeat_one (now : Z) (st : St) (kc : Z * ConnectionState) : St :=
  let '(k, c) := kc in
  if negb (connected c) || negb (SessionHandle.active (handle c) (world st)) then st
  else if (0 <? incoming_heartbeat c) && (incoming_heartbeat c * 2 <? now - last_received_ms c) then
    let m := bs "STOMP heartbeat timeout" in
    let w := snd (SessionHandle.send_text (handle c) (serialize order (mkFrame (bs "ERROR") {[bs "message" := m]} m)) (world st)) in
    set_world (snd (SessionHandle.close (handle c) 1002 m w)) st
  else if (0 <? outgoing_heartbeat c) && (outgoing_heartbeat c <=? now - last_sent_ms c) then
    let '(ok, w) := SessionHandle.send_text (handle c) [LF] (world st) in
    let st := set_world w st in
    if ok then set_conns (<[k := with_sent now c]> (connections_ st)) st else st
  else st.

Definition heartbeat_round (now : Z) (st : St) : St :=
  for_each (heartbeat_one now) (map_to_list (connections_ st)) st.

End Endpoint.

(** ** The relay to an external broker

    The callbacks of [RelayEndpoint] and what its worker takes from a
    connection for one session with the broker; the worker's sockets and the
    thread itself are not modelled. *)

Record RelayState := mkRelay {
  r_handle : Z;
  browser_decoder : Decoder;
  outbound : list bytes;
  connect_frame : option bytes;
  relay_subscriptions : gmap bytes bytes
}.

Definition set_browser_decoder (d : Decoder) (r : RelayState) : RelayState :=
  mkRelay (r_handle r) d (outbound r) (connect_frame r) (relay_subscriptions r).
Definition set_outbound_frames (o : list bytes) (r : RelayState) : RelayState :=
  mkRelay (r_handle r) (browser_decoder r) o (connect_frame r) (relay_subscriptions r).
Definition set_connect_frame (w : bytes) (r : RelayState) : RelayState :=
  mkRelay (r_handle r) (browser_decoder r) (outbound r) (Some w) (relay_subscriptions r).
Definition set_relay_subscriptions (m : gmap bytes bytes) (r : RelayState) : RelayState :=
  mkRelay (r_handle r) (browser_decoder r) (outbound r) (connect_frame r) m.

Section Relay.
Context (order : gmap bytes bytes -> list (bytes * bytes)).
Context (max_queued_frames : Z) (relay_interceptor : option (Session -> Frame -> bool)).

(** What a SUBSCRIBE or an UNSUBSCRIBE changes of the replayed frames. *)
Definition record_subscription (f : Frame) (wire : bytes) (r : RelayState) : RelayState :=
  let id := header (bs "id") f in
  if bool_decide (command f = bs "SUBSCRIBE") then
    if len id =? 0 then r else set_relay_subscriptions (<[id := wire]> (relay_subscriptions r)) r
  else if bool_decide (command f = bs "UNSUBSCRIBE") then
    if len id =? 0 then r else set_relay_subscriptions (delete id (relay_subscriptions r)) r
  else r.

(** The loop over the frames; a rejected frame or a full queue ends it. *)
Fixpoint relay_frames (fs : list Frame) (s : Session) (r : RelayState) : Session * RelayState :=
  match fs with
  | [] => (s, r)
  | f :: rest =>
      if match relay_interceptor with Some i => negb (i s f) | None => false end then
        (snd (session_close 1008 (bs "STOMP frame rejected") s), r)
      else
        let wire := serialize order f in
        if bool_decide (command f = bs "CONNECT") || bool_decide (command f = bs "STOMP") then
          relay_frames rest s (set_connect_frame wire r)
        else
          let r := record_subscription f wire r in
          if max_queued_frames <=? len (outbound r) then
            (snd (session_close 1013 (bs "STOMP relay queue is full") s), r)
          else relay_frames rest s (set_outbound_frames (outbound r ++ [wire]) r)
  end.

Definition relay_on_open (accepting : bool) (self : Z) (s : Session) (conns : gmap Z RelayState) :
    Session * gmap Z RelayState :=
  if negb accepting then (snd (session_close 1001 (bs "Server shutting down") s), conns)
  else
    let fresh := mkRelay self new_decoder [] None ∅ in
    (s, match conns !! self with Some _ => conns | None => <[self := fresh]> conns end).

Definition relay_on_message (self : Z) (m : Message) (s : Session) (conns : gmap Z RelayState) :
    Session * gmap Z RelayState :=
  if negb (bool_decide (msg_opcode m = Text)) then
    (snd (session_close 1003 (bs "STOMP requires text WebSocket messages") s), conns)
  else
    match conns !! self with
    | None => (s, conns)
    | Some r =>
        match feed (msg_payload m) (browser_decoder r) with
        | (inl (mkParseError e), d) =>
            let s := snd (send_text (serialize order (mkFrame (bs "ERROR") {[bs "message" := e]} e)) s) in
            (snd (session_close 1002 (bs "Invalid STOMP frame") s), <[self := set_browser_decoder d r]> conns)
        | (inr fs, d) =>
            let '(s, r) := relay_frames fs s (set_browser_decoder d r) in (s, <[self := r]> conns)
        end
    end.

Definition relay_on_close (self : Z) (conns : gmap Z RelayState) : gmap Z RelayState := delete self conns.

Definition relay_begin_shutdown (conns : gmap Z RelayState) (w : World) : World :=
  for_each (fun w (kr : Z * RelayState) => snd (SessionHandle.close (r_handle (snd kr)) 1001 (bs "Server shutting down") w))
    (map_to_list conns) w.

Definition relay_force_shutdown (conns : gmap Z RelayState) (w : World) : gmap Z RelayState * World :=
  (∅, for_each (fun w (kr : Z * RelayState) => snd (SessionHandle.close (r_handle (snd kr)) 1001 (bs "Server shutdown") w))
        (map_to_list conns) w).

(** A queued frame the replayed subscriptions stand for. *)
Definition replayed (wire : bytes) : bool :=
  match fst (feed wire new_decoder) with
  | inr (f :: _) => bool_decide (command f = bs "SUBSCRIBE") || bool_decide (command f = bs "UNSUBSCRIBE")
  | _ => false
  end.

(** What the worker takes when it has a socket: the CONNECT frame, the
    subscriptions, and the queue without the replayed frames. *)
Definition relay_take (r : RelayState) : option bytes * list bytes * list bytes * RelayState :=
  (connect_frame r, map snd (order (relay_subscriptions r)),
   List.filter (fun w => negb (replayed w)) (outbound r), set_outbound_frames [] r).

(** What it then writes to a socket that accepts everything. *)
Definition relay_attempt (r : RelayState) : list bytes * RelayState :=
  let '(connect, subs, out, r) := relay_take r in
  match connect with
  | None => ([], r)
  | Some c => (c :: subs ++ out, r)
  end.
End Relay.

End Endpoint.
