(* ===== verification/StompEndpointProps.v ===== *)
(** * The endpoint: no subscription outlives its connection *)

From S2P Require Import Prelude CxxString WebSocket WsRegistry Sse Stomp StompBroker StompEndpoint.
Import Stomp Broker Endpoint.

#[global] Arguments publish : simpl never.
#[global] Arguments subscribe : simpl never.
#[global] Arguments unsubscribe : simpl never.
#[global] Arguments acknowledge : simpl never.
#[global] Arguments negative_acknowledge : simpl never.
#[global] Arguments session_close : simpl never.
#[global] Arguments send_text : simpl never.
#[global] Arguments serialize : simpl never.

(** ** What the broker holds *)

Definition has_sub (b : Broker) (s : Subscription) : Prop :=
  exists d l, subscriptions_ b !! d = Some l /\ s ∈ l.

Definition no_empty (b : Broker) : Prop := forall d l, subscriptions_ b !! d = Some l -> l <> [].

(** Every subscription and every unacknowledged delivery belongs to a
    connection that knows it; the sessions [late] may have other deliveries. *)
Record leak_free (late : gset Z) (conns : gmap Z ConnectionState) (b : Broker) : Prop := {
  lf_handle : forall h c, conns !! h = Some c -> handle c = h;
  lf_subs : forall s, has_sub b s -> exists c, conns !! sub_session s = Some c /\ sub_id s ∈ subscription_ids c;
  lf_pending : forall h l, pending_acks_ b !! h = Some l ->
    h ∈ late \/ exists c, conns !! h = Some c /\ subscription_ids c <> [];
  lf_nonempty : no_empty b
}.

Lemma erase_has_sub p m q n a e s :
  has_sub (mkBroker (erase_subs p m) q n a e) s <-> (exists d l, m !! d = Some l /\ s ∈ l) /\ p s = false.
Proof.
  unfold has_sub. cbn. setoid_rewrite lookup_omap. split.
  - intros (d & l & E & Hs). destruct (m !! d) as [l0|] eqn:E0; [|done]. cbn in E.
    assert (s ∈ List.filter (fun s => negb (p s)) l0) as Hin by (destruct (List.filter _ l0); [done|by simplify_eq]).
    apply list_elem_of_In, List.filter_In in Hin as [H1 H2]. to_prop.
    split; [|done]. exists d, l0. split; [done|by apply list_elem_of_In].
  - intros [(d & l & E & Hs) Hp].
    assert (s ∈ List.filter (fun s => negb (p s)) l) as Hin.
    { apply list_elem_of_In, List.filter_In. split; [by apply list_elem_of_In|by rewrite Hp]. }
    exists d. rewrite E. cbn. destruct (List.filter _ l) as [|x r] eqn:F; [by apply elem_of_nil in Hin|].
    exists (x :: r). done.
Qed.

Lemma erase_no_empty p m q n a e : no_empty (mkBroker (erase_subs p m) q n a e).
Proof.
  intros d l. cbn. unfold erase_subs. rewrite lookup_omap. destruct (m !! d) as [l0|]; [|done]. cbn.
  by destruct (List.filter _ l0); intros; simplify_eq.
Qed.

Lemma unsubscribe_has_sub h id b s :
  has_sub (unsubscribe h id b) s <-> has_sub b s /\ ~ (sub_session s = h /\ sub_id s = id).
Proof.
  unfold unsubscribe, with_pending, with_subscriptions. cbn. rewrite erase_has_sub.
  assert (same_sub h id s = false <-> ~ (sub_session s = h /\ sub_id s = id)) as E.
  { unfold same_sub. rewrite andb_false_iff, Z.eqb_neq, bool_decide_eq_false. destruct (decide (sub_session s = h)); tauto. }
  by rewrite E.
Qed.

Lemma replace_sub_elem new l s : s ∈ replace_sub new l -> s ∈ l \/ s = new.
Proof.
  induction l as [|x l IH]; cbn; [rewrite list_elem_of_singleton; auto|].
  case_goal; rewrite !elem_of_cons; naive_solver.
Qed.

(** ** The operations of the broker *)

Section Ops.
Context {W : Type} `{SessionApi W}.
Context {late : gset Z}.
Context (order : gmap bytes bytes -> list (bytes * bytes)).

Lemma subscribe_leak d id self mode p w b b' conns c :
  subscribe d id self mode p w b = (true, b') -> handle c = self ->
  leak_free late (<[self := c]> conns) b ->
  leak_free late (<[self := with_ids (subscription_ids c ++ [id]) c]> conns) b'.
Proof.
  unfold subscribe. destruct (_ || _) eqn:G; [done|]. intros [= <-] Hc [L1 L2 L3 L4]. split.
  - intros h c'. rewrite lookup_insert_Some. intros [[<- <-]|[N E]]; [done|].
    apply L1. by rewrite lookup_insert_ne.
  - intros s (d' & l & E & Hs). cbn in E. apply lookup_insert_Some in E as [[<- <-]|[N E]].
    + apply replace_sub_elem in Hs as [Hs| ->].
      * destruct (subscriptions_ b !! d) as [l0|] eqn:E0; [|by apply elem_of_nil in Hs].
        destruct (L2 s) as (c0 & E1 & E2); [by exists d, l0|].
        destruct (decide (sub_session s = self)) as [Es|Ns].
        -- rewrite Es, lookup_insert_eq in *. simplify_eq. eexists. split; [done|]. cbn. apply elem_of_app. by left.
        -- rewrite lookup_insert_ne in * by done. eauto.
      * cbn. rewrite lookup_insert_eq. eexists. split; [done|]. cbn. apply elem_of_app. right. by left.
    + destruct (L2 s) as (c0 & E1 & E2); [by exists d', l|].
      destruct (decide (sub_session s = self)) as [Es|Ns].
      * rewrite Es, lookup_insert_eq in *. simplify_eq. eexists. split; [done|]. cbn. apply elem_of_app. by left.
      * rewrite lookup_insert_ne in * by done. eauto.
  - intros h l E. cbn in E. destruct (L3 h l E) as [Hl|(c0 & E1 & E2)]; [by left|right].
    destruct (decide (h = self)) as [->|Ns].
    + rewrite lookup_insert_eq in *. simplify_eq. eexists. split; [done|]. cbn. by destruct (subscription_ids c0).
    + rewrite lookup_insert_ne in * by done. eauto.
  - intros d' l E. cbn in E. apply lookup_insert_Some in E as [[<- <-]|[N E]]; [|by eapply L4].
    by destruct (default [] _); [|cbn; case_goal].
Qed.

Lemma unsubscribe_leak id self b conns c : handle c = self ->
  leak_free late (<[self := c]> conns) b ->
  leak_free late (<[self := with_ids (List.filter (fun i => negb (bool_decide (i = id))) (subscription_ids c)) c]> conns)
    (unsubscribe self id b).
Proof.
  intros Hc [L1 L2 L3 L4]. split.
  - intros h c'. rewrite lookup_insert_Some. intros [[<- <-]|[N E]]; [done|].
    apply L1. by rewrite lookup_insert_ne.
  - intros s Hs. apply unsubscribe_has_sub in Hs as [Hs N]. destruct (L2 s Hs) as (c0 & E1 & E2).
    destruct (decide (sub_session s = self)) as [Es|Ns].
    + rewrite Es, lookup_insert_eq in *. simplify_eq. eexists. split; [done|]. cbn.
      apply list_elem_of_In, List.filter_In. split; [by apply list_elem_of_In|].
      rewrite bool_decide_false; [done|]. intros Hi. by apply N.
    + rewrite lookup_insert_ne in * by done. eauto.
  - intros h l. unfold unsubscribe. cbn. rewrite lookup_delete_Some. intros [N E].
    destruct (L3 h l E) as [Hl|(c0 & E1 & E2)]; [by left|right]. rewrite lookup_insert_ne in * by done. eauto.
  - apply erase_no_empty.
Qed.

Lemma acknowledge_leak s id b conns : leak_free late conns b -> leak_free late conns (snd (acknowledge s id b)).
Proof.
  intros [L1 L2 L3 L4]. unfold acknowledge. destruct (pending_acks_ b !! s) as [l|] eqn:E; [|done].
  destruct (List.find _ l) as [d|]; [|done]. split; [done|done| |done]. cbn.
  intros h l'. destruct (ack_rest d l) as [|x r].
  - rewrite lookup_delete_Some. intros [_ ?]. by eapply L3.
  - rewrite lookup_insert_Some. intros [[<- _]|[_ ?]]; by eapply L3.
Qed.

(** The targets are subscriptions the broker holds. *)
Lemma select_leak d w b conns : leak_free late conns b -> forall r b', select_targets d w b = (r, b') ->
  leak_free late conns b' /\ (forall ts id, r = Some (ts, id) -> Forall (has_sub b') ts).
Proof.
  intros L r b'. destruct L as [L1 L2 L3 L4]. unfold select_targets.
    destruct (subscriptions_ b !! d) as [subs|] eqn:E; [|intros; simplify_eq; by split].
    assert (forall b1, subscriptions_ b1 = subscriptions_ b -> pending_acks_ b1 = pending_acks_ b -> leak_free late conns b1) as G.
    { intros b1 E1 E2. split; [done| | |].
      - intros s (d' & l & F & Hs). rewrite E1 in F. apply L2. by exists d', l.
      - intros h l. rewrite E2. apply L3.
      - intros d' l. rewrite E1. apply L4. }
    destruct (starts_with (bs "/queue/") d).
    - intros; simplify_eq. split; [by apply G|]. intros ts id [= <- <-].
      destruct (queue_target _ _ _ _ _) as [c|] eqn:Q; [|constructor]. constructor; [|constructor].
      exists d, subs. split; [done|].
      assert (forall fuel cur o, queue_target w subs cur o fuel = Some c -> c ∈ subs) as QT.
      { induction fuel as [|fuel IH]; intros cur o; [done|]. cbn [queue_target].
        destruct (subs !! _) as [s|] eqn:Es; [|done]. case_goal; [|apply IH]. intros [= <-].
        by eapply list_elem_of_lookup_2. }
      by eapply QT.
    - destruct (starts_with (bs "/user/") d); [destruct (user_principal d) as [p|]|]; intros; simplify_eq;
        (split; [by apply G|]); intros ts id; [intros [= <- <-]|done|intros [= <- <-]]; apply List.Forall_forall;
        intros s Hs; exists d; eexists; (split; [exact E|]); apply list_elem_of_In; [|done].
      by apply List.filter_In in Hs as [? _].
Qed.

(** Publishing only drops subscriptions and records deliveries to them. *)
Lemma publish_leak d data hs w b conns : leak_free late conns b ->
  leak_free late conns (snd (publish order d data hs w b)).
Proof.
  intros L. unfold publish. destruct (negb _); [done|]. pose proof (select_leak d w b conns L) as S.
  destruct (select_targets d w b) as [[[ts id]|] b1]; [|by apply (S None b1)].
  destruct (S _ _ eq_refl) as [L1 T]. specialize (T ts id eq_refl). clear S L. unfold for_each.
  assert (forall st, leak_free late conns (snd st) -> Forall (has_sub (snd st)) ts ->
    leak_free late conns (snd (foldl (deliver order d data hs id) st ts))) as D.
  { clear T. induction ts as [|t ts IH]; intros [[[n st] w0] b0] L HT; [done|]. cbn [foldl].
    apply Forall_cons in HT as [Ht HT].
    assert (leak_free late conns (push_pending (sub_session t) id (sub_ack t) (message_frame d data hs id t) b0)) as LP.
    { destruct L as [M1 M2 M3 M4]. split; [done|done| |done]. cbn. intros h l.
      rewrite lookup_insert_Some. intros [[<- _]|[_ ?]]; [|by eapply M3].
      destruct (M2 t Ht) as (c & E1 & E2). right. exists c. split; [done|]. intros E. rewrite E in E2. by apply elem_of_nil in E2. }
    apply IH.
    - cbv beta iota zeta delta [deliver]. destruct (negb (sess_active (sub_session t) w0)); [done|].
      destruct (sess_send_text _ _ _) as [[] w1]; [by case_goal|by destruct (negb (sess_active (sub_session t) w1))].
    - cbv beta iota zeta delta [deliver]. destruct (negb (sess_active (sub_session t) w0)); [done|].
      destruct (sess_send_text _ _ _) as [[] w1]; [by case_goal|by destruct (negb (sess_active (sub_session t) w1))]. }
  specialize (D (0, [], w, b1) L1 T). destruct (foldl _ _ ts) as [[[n st] w'] b2]. cbn in D |- *.
  unfold prune. destruct st as [|h0 st]; [done|]. destruct D as [D1 D2 D3 D4]. split; [done| |done|apply erase_no_empty].
  intros s Hs. apply erase_has_sub in Hs as [Hs _]. by apply D2.
Qed.
End Ops.

(** ** The endpoint *)

Section Endpoint.
Context {A : Type}.
Context {late : gset Z}.
Context (order : gmap bytes bytes -> list (bytes * bytes)).

Notation St := (St (A:=A)).
Notation Config := (Config (A:=A)).

(** Session operations leave the connections and the broker alone. *)
Definition same_core (st st' : St) : Prop :=
  connections_ st' = connections_ st /\ broker_ st' = broker_ st /\ accepting_ st' = accepting_ st.

#[local] Instance same_core_trans : Transitive same_core.
Proof. intros x y z (?&?&?) (?&?&?). unfold same_core. split_and!; congruence. Qed.

Lemma on_session_core self f st : same_core st (on_session self f st).
Proof. done. Qed.

Lemma send_core self f st : same_core st (send order self f st).
Proof. done. Qed.

Lemma protocol_error_core self m st : same_core st (protocol_error order self m st).
Proof. done. Qed.

Lemma send_receipt_core self f st : same_core st (send_receipt order self f st).
Proof. unfold send_receipt. by case_goal. Qed.

(** What a frame may do: connection [c] of [self] becomes [c'] and the broker
    follows, without a leak. *)
Definition keeps (self : Z) (c : ConnectionState) (st : St) (r : ConnectionState * St) : Prop :=
  forall conns, handle c = self -> leak_free late (<[self := c]> conns) (broker_ st) ->
  handle (fst r) = self /\ leak_free late (<[self := fst r]> conns) (broker_ (snd r)) /\
  connections_ (snd r) = connections_ st.

Lemma keeps_same self c st st' : same_core st st' -> keeps self c st (c, st').
Proof. intros (E1 & E2 & _) conns Hc L. cbn. by rewrite E1, E2. Qed.

Lemma leak_free_replace self c c' conns b : handle c' = self -> subscription_ids c' = subscription_ids c ->
  leak_free late (<[self := c]> conns) b -> leak_free late (<[self := c']> conns) b.
Proof.
  intros Hc Hi [L1 L2 L3 L4]. split; [| | |done].
  - intros h c0. rewrite lookup_insert_Some. intros [[<- <-]|[N E]]; [done|]. apply L1. by rewrite lookup_insert_ne.
  - intros s Hs. destruct (L2 s Hs) as (c0 & E1 & E2). apply lookup_insert_Some in E1 as [[Es <-]|[N E]].
    + exists c'. rewrite <- Es, lookup_insert_eq, Hi. done.
    + exists c0. by rewrite lookup_insert_ne.
  - intros h l Hl. destruct (L3 h l Hl) as [?|(c0 & E1 & E2)]; [by left|right]. apply lookup_insert_Some in E1 as [[Es <-]|[N E]].
    + exists c'. rewrite <- Es, lookup_insert_eq, Hi. done.
    + exists c0. by rewrite lookup_insert_ne.
Qed.

Lemma process_connect_keeps (cfg : Config) self c f st : keeps self c st (process_connect order cfg self c f st).
Proof.
  unfold process_connect. case_goal; [by apply keeps_same|]. case_goal; [by apply keeps_same|].
  destruct (parse_heartbeat _) as [[m]|[co ci]]; [by apply keeps_same|].
  destruct (negotiate _ _ _ _) as [out inc]. intros conns Hc L. cbn. split_and!; [done| |done].
  by eapply leak_free_replace; [| |exact L].
Qed.

(** The branches of a connected session, before the receipt. *)
Lemma process_subscribe_keeps self c f st : keeps self c st (fst (process_subscribe order self c f st)).
Proof.
  unfold process_subscribe. destruct (ack_mode_of _) as [mode|]; [|by apply keeps_same].
  destruct (_ || _); [by apply keeps_same|].
  destruct (subscribe _ _ _ _ _ _ _) as [[] b] eqn:E; [|by apply keeps_same].
  intros conns Hc L. cbn. split_and!; [done| |done]. rewrite Hc in E. by eapply subscribe_leak.
Qed.

Lemma process_unsubscribe_keeps self c f st : keeps self c st (fst (process_unsubscribe order self c f st)).
Proof.
  unfold process_unsubscribe. case_goal; [by apply keeps_same|]. intros conns Hc L. cbn.
  split_and!; [done| |done]. rewrite Hc. by apply unsubscribe_leak.
Qed.

Lemma process_send_keeps (cfg : Config) self c f st : keeps self c st (fst (process_send order cfg self c f st)).
Proof.
  unfold process_send. destruct (_ && starts_with _ _).
  - destruct (dispatcher cfg) as [d|]; [|by apply keeps_same].
    destruct (dispatch _ _ _ _) as [[] a]; by apply keeps_same.
  - destruct (len (header (bs "destination") f) =? 0).
    + case_goal; by apply keeps_same.
    + pose proof (publish_leak (late:=late) order (header (bs "destination") f) (body f) (headers f) (world st) (broker_ st)) as P.
      destruct (publish _ _ _ _ _ _) as [[n w] b]. cbn in P.
      assert (forall st', same_core (set_broker b (set_world w st)) st' -> keeps self c st (c, st')) as K.
      { intros st' (E1 & E2 & _) conns Hc L. cbn. rewrite E1, E2. cbn. split_and!; [done|by apply P|done]. }
      case_goal; by apply K.
Qed.

Lemma process_ack_keeps self c f st : keeps self c st (fst (process_ack order self c f st)).
Proof.
  unfold process_ack. destruct (len _ =? 0); [by apply keeps_same|]. destruct (bool_decide _).
  - pose proof (acknowledge_leak (late:=late) (handle c) (header (bs "id") f) (broker_ st)) as P.
    destruct (acknowledge _ _ _) as [ok b]. cbn in P.
    assert (forall st', same_core (set_broker b st) st' -> keeps self c st (c, st')) as K.
    { intros st' (E1 & E2 & _) conns Hc L. cbn. rewrite E1, E2. cbn. split_and!; [done|by apply P|done]. }
    destruct ok; by apply K.
  - destruct (negative_acknowledge _ _ _ _ _) as [[] w]; by apply keeps_same.
Qed.

Lemma process_disconnect_keeps self c f st : keeps self c st (fst (process_disconnect order self c f st)).
Proof. apply keeps_same. unfold process_disconnect. cbn. apply send_receipt_core. Qed.

Lemma process_frame_keeps (cfg : Config) self c f st : keeps self c st (process_frame order cfg self c f st).
Proof.
  unfold process_frame. destruct (negb (connected c)); [apply process_connect_keeps|].
  set (r := if bool_decide _ then _ else _).
  assert (keeps self c st (fst r)) as K.
  { unfold r. case_goal; [apply process_subscribe_keeps|]. case_goal; [apply process_unsubscribe_keeps|].
    case_goal; [apply process_send_keeps|]. case_goal; [apply process_ack_keeps|].
    case_goal; [apply process_disconnect_keeps|by apply keeps_same]. }
  clearbody r. destruct r as [[c' st'] []]; [|done]. intros conns Hc L.
  destruct (K conns Hc L) as (K1 & K2 & K3). destruct (send_receipt_core self f st') as (E1 & E2 & _).
  cbn in *. rewrite E1, E2. done.
Qed.

Lemma process_frames_keeps (cfg : Config) self fs c st : keeps self c st (process_frames order cfg self c fs st).
Proof.
  revert c st. induction fs as [|f fs IH]; intros c st; [by apply keeps_same|]. cbn [process_frames].
  case_goal; [by apply keeps_same|]. case_goal; [by apply keeps_same|].
  set (st1 := meter _ st). pose proof (process_frame_keeps cfg self c f st1) as K.
  destruct (process_frame order cfg self c f st1) as [c2 st2]. intros conns Hc L.
  destruct (K conns Hc L) as (K1 & K2 & K3). destruct (IH c2 st2 conns K1 K2) as (I1 & I2 & I3).
  split_and!; [done|done|]. rewrite I3. exact K3.
Qed.

(** Dropping every id of a connection leaves nothing of it behind. *)
Lemma unsubscribe_all_spec h ids b :
  let b' := foldl (fun b id => unsubscribe h id b) b ids in
  (forall s, has_sub b' s <-> has_sub b s /\ ~ (sub_session s = h /\ sub_id s ∈ ids)) /\
  (forall k l, pending_acks_ b' !! k = Some l -> pending_acks_ b !! k = Some l /\ (k = h -> ids = [])) /\
  (no_empty b -> no_empty b').
Proof.
  revert b. induction ids as [|i ids IH]; intros b; cbn zeta.
  - split_and!; [|done|done]. intros s. split; [|by intros []]. intros H. split; [done|].
    intros [_ Hn]. by apply elem_of_nil in Hn.
  - cbn [foldl]. destruct (IH (unsubscribe h i b)) as (I1 & I2 & I3). split_and!.
    + intros s. rewrite I1, unsubscribe_has_sub, elem_of_cons. tauto.
    + intros k l E. destruct (I2 k l E) as [E1 _]. unfold unsubscribe in E1. cbn in E1.
      apply lookup_delete_Some in E1 as [N E1]. split; [done|]. intros ->. done.
    + intros _. apply I3. apply erase_no_empty.
Qed.

Lemma close_leak self c conns b : conns !! self = Some c -> leak_free late conns b ->
  leak_free late (delete self conns) (unsubscribe_all c b).
Proof.
  intros E [L1 L2 L3 L4]. unfold unsubscribe_all, for_each. rewrite (L1 self c E).
  destruct (unsubscribe_all_spec self (subscription_ids c) b) as (U1 & U2 & U3). split.
  - intros h c0. rewrite lookup_delete_Some. intros [_ ?]. by apply L1.
  - intros s Hs. apply U1 in Hs as [Hs N]. destruct (L2 s Hs) as (c0 & E1 & E2). exists c0. split; [|done].
    apply lookup_delete_Some. split; [|done]. intros Es. apply N. split; [done|]. rewrite <- Es in E1. by simplify_eq.
  - intros h l Hl. apply U2 in Hl as [Hl N]. destruct (L3 h l Hl) as [?|(c0 & E1 & E2)]; [by left|right]. exists c0. split; [|done].
    apply lookup_delete_Some. split; [|done]. intros <-. simplify_eq. by apply E2, N.
  - by apply U3.
Qed.

(** One event at the endpoint; ids of sessions are never reused, and other
    threads may change the sessions, the application, or publish. *)
Inductive ep_step (cfg : Config) (st : St) : St -> Prop :=
| ep_open now self : connections_ st !! self = None -> ep_step cfg st (on_open now self st)
| ep_message now self m : ep_step cfg st (on_message order cfg now self m st)
| ep_close self : ep_step cfg st (on_close self st)
| ep_begin : ep_step cfg st (begin_shutdown st)
| ep_force : ep_step cfg st (force_shutdown st)
| ep_heartbeat now : ep_step cfg st (heartbeat_round order now st)
| ep_publish d data hs n w b : publish order d data hs (world st) (broker_ st) = (n, w, b) ->
    ep_step cfg st (set_broker b (set_world w st))
| ep_world w a s : ep_step cfg st (mkSt (connections_ st) (accepting_ st) (broker_ st) w a (meters_ st) s).

Lemma leak_free_update k c c' conns b : conns !! k = Some c -> handle c' = k ->
  subscription_ids c' = subscription_ids c -> leak_free late conns b -> leak_free late (<[k := c']> conns) b.
Proof. intros E Hc Hi L. eapply leak_free_replace; [done|exact Hi|]. by rewrite insert_id. Qed.

Lemma leak_free_empty b : leak_free ∅ ∅ b -> subscriptions_ b = ∅ /\ pending_acks_ b = ∅.
Proof.
  intros [_ L2 L3 L4]. split; apply map_eq; intros k; rewrite lookup_empty.
  - destruct (subscriptions_ b !! k) as [[|s l]|] eqn:E; [by destruct (L4 k [] E)| |done].
    destruct (L2 s) as (c & Ec & _); [|by rewrite lookup_empty in Ec]. exists k, (s :: l). split; [done|by left].
  - destruct (pending_acks_ b !! k) as [l|] eqn:E; [|done].
    destruct (L3 k l E) as [?|(c & Ec & _)]; [set_solver|by rewrite lookup_empty in Ec].
Qed.

Lemma open_leak now self (st : St) : connections_ st !! self = None ->
  leak_free late (connections_ st) (broker_ st) ->
  leak_free late (connections_ (on_open now self st)) (broker_ (on_open now self st)).
Proof.
  intros E L. unfold on_open. destruct (negb (accepting_ st)); [done|]. cbn. destruct L as [L1 L2 L3 L4].
  assert (forall h c, connections_ st !! h = Some c -> h <> self) as N by (intros h c Hc ->; congruence). split.
  - intros h c. rewrite lookup_insert_Some. intros [[<- <-]|[_ ?]]; [done|by apply L1].
  - intros s Hs. destruct (L2 s Hs) as (c & E1 & E2). exists c. rewrite lookup_insert_ne; [done|].
    intros ->. by apply (N _ _ E1).
  - intros h l Hl. destruct (L3 h l Hl) as [?|(c & E1 & E2)]; [by left|right]. exists c. rewrite lookup_insert_ne; [done|].
    intros ->. by apply (N _ _ E1).
  - done.
Qed.

Lemma message_leak (cfg : Config) now self m (st : St) : leak_free late (connections_ st) (broker_ st) ->
  leak_free late (connections_ (on_message order cfg now self m st)) (broker_ (on_message order cfg now self m st)).
Proof.
  intros L. unfold on_message. destruct (negb _); [done|].
  destruct (connections_ st !! self) as [c|] eqn:E; [|done].
  pose proof (lf_handle _ _ _ L self c E) as Hc.
  destruct (feed _ _) as [[[e]|fs] d].
  - by apply (leak_free_update self c).
  - assert (leak_free late (<[self := with_decoder d (with_received now c)]> (connections_ st)) (broker_ st)) as L'
      by (by apply (leak_free_update self c)).
    pose proof (process_frames_keeps cfg self fs (with_decoder d (with_received now c)) st (connections_ st) Hc L') as K.
    destruct (process_frames _ _ _ _ _ _) as [c' st']. cbn in *. destruct K as (_ & K2 & K3). by rewrite K3.
Qed.

Lemma force_fold l (st : St) :
  let st' := foldl force_one st l in
  connections_ st' = connections_ st /\ accepting_ st' = accepting_ st /\
  broker_ st' = foldl (fun b kc => unsubscribe_all (snd kc) b) (broker_ st) l.
Proof. revert st. induction l as [|x l IH]; intros st; [done|]. cbn [foldl]. by destruct (IH (force_one st x)). Qed.

Lemma unsubscribe_conns l b :
  let b' := foldl (fun b (kc : Z * ConnectionState) => unsubscribe_all (snd kc) b) b l in
  (forall s, has_sub b' s -> has_sub b s /\
     forall k c, (k, c) ∈ l -> ~ (sub_session s = handle c /\ sub_id s ∈ subscription_ids c)) /\
  (forall h p, pending_acks_ b' !! h = Some p -> pending_acks_ b !! h = Some p /\
     forall k c, (k, c) ∈ l -> h = handle c -> subscription_ids c = []) /\
  (no_empty b -> no_empty b').
Proof.
  revert b. induction l as [|[k0 c0] l IH]; intros b; cbn zeta; cbn [foldl snd].
  - split_and!; [intros s Hs|intros h p Hp|done]; (split; [done|]); intros k c Hk; by apply elem_of_nil in Hk.
  - destruct (IH (unsubscribe_all c0 b)) as (I1 & I2 & I3).
    destruct (unsubscribe_all_spec (handle c0) (subscription_ids c0) b) as (U1 & U2 & U3). split_and!.
    + intros s Hs. destruct (I1 s Hs) as [H1 H2]. apply U1 in H1 as [H1 H3]. split; [done|].
      intros k c Hk. apply elem_of_cons in Hk as [[= -> ->]|Hk]; [done|by eapply H2].
    + intros h p Hp. destruct (I2 h p Hp) as [H1 H2]. apply U2 in H1 as [H1 H3]. split; [done|].
      intros k c Hk. apply elem_of_cons in Hk as [[= -> ->]|Hk]; [done|by eapply H2].
    + intros N. by apply I3, U3.
Qed.

Lemma force_leak (st : St) : leak_free late (connections_ st) (broker_ st) -> leak_free late ∅ (broker_ (force_shutdown st)).
Proof.
  intros [L1 L2 L3 L4]. unfold force_shutdown, for_each.
  destruct (force_fold (map_to_list (connections_ st)) (set_conns ∅ (set_accepting false st))) as (_ & _ & ->).
  cbn. destruct (unsubscribe_conns (map_to_list (connections_ st)) (broker_ st)) as (U1 & U2 & U3).
  split; [by intros h c; rewrite lookup_empty| | |by apply U3].
  - intros s Hs. exfalso. destruct (U1 s Hs) as [H1 H2]. destruct (L2 s H1) as (c & E1 & E2).
    apply (H2 (sub_session s) c); [by apply elem_of_map_to_list|]. by rewrite (L1 _ _ E1).
  - intros h l Hl. destruct (U2 h l Hl) as [H1 H2]. destruct (L3 h l H1) as [?|(c & E1 & E2)]; [by left|].
    exfalso. apply E2, (H2 h c); [by apply elem_of_map_to_list|]. by rewrite (L1 _ _ E1).
Qed.

Lemma force_shutdown_stops (st : St) :
  connections_ (force_shutdown st) = ∅ /\ accepting_ (force_shutdown st) = false.
Proof.
  unfold force_shutdown, for_each.
  by destruct (force_fold (map_to_list (connections_ st)) (set_conns ∅ (set_accepting false st))) as (-> & -> & _).
Qed.

Lemma heartbeat_leak now l (st : St) :
  (forall k c, (k, c) ∈ l -> handle c = k /\ exists c', connections_ st !! k = Some c' /\ subscription_ids c' = subscription_ids c) ->
  leak_free late (connections_ st) (broker_ st) ->
  leak_free late (connections_ (foldl (heartbeat_one order now) st l)) (broker_ (foldl (heartbeat_one order now) st l)).
Proof.
  revert st. induction l as [|[k c] l IH]; intros st Hl L; [done|]. cbn [foldl].
  destruct (Hl k c) as (Hc & c' & E1 & E2); [by left|].
  assert (forall st' : St, broker_ st' = broker_ st ->
    (connections_ st' = connections_ st \/ connections_ st' = <[k := with_sent now c]> (connections_ st)) ->
    leak_free late (connections_ (foldl (heartbeat_one order now) st' l)) (broker_ (foldl (heartbeat_one order now) st' l))) as G.
  { intros st' Eb Ec. apply IH.
    - intros k1 c1 Hk. destruct (Hl k1 c1) as (Hc1 & c2 & F1 & F2); [by right|]. split; [done|].
      destruct Ec as [->| ->]; [by exists c2|]. destruct (decide (k1 = k)) as [->|N].
      + rewrite lookup_insert_eq. eexists. split; [done|]. cbn. congruence.
      + rewrite lookup_insert_ne by done. by exists c2.
    - rewrite Eb. destruct Ec as [->| ->]; [done|]. by apply (leak_free_update k c'). }
  apply G; unfold heartbeat_one; repeat case_goal; try done; auto;
    destruct (SessionHandle.send_text _ _ _) as [[] w]; cbn; auto.
Qed.

Lemma ep_step_leak (cfg : Config) st st' : ep_step cfg st st' ->
  leak_free late (connections_ st) (broker_ st) -> leak_free late (connections_ st') (broker_ st').
Proof.
  intros [now self E|now self m|self| | |now|d data hs n w b P|w a s] L; [by apply open_leak|by apply message_leak| |done| | | |done].
  - unfold on_close. destruct (connections_ st !! self) as [c|] eqn:E; [|done]. cbn. by apply close_leak.
  - destruct (force_shutdown_stops st) as [-> _]. by apply force_leak.
  - apply heartbeat_leak; [|done]. intros k c Hk. apply elem_of_map_to_list in Hk.
    split; [by apply (lf_handle _ _ _ L)|by exists c].
  - cbn. pose proof (publish_leak (late:=late) order d data hs (world st) (broker_ st) (connections_ st) L) as K. by rewrite P in K.
Qed.

Lemma ep_steps_leak (cfg : Config) st st' : rtc (ep_step cfg) st st' ->
  leak_free late (connections_ st) (broker_ st) -> leak_free late (connections_ st') (broker_ st').
Proof. induction 1 as [|x y z S _ IH]; [done|]. intros L. by apply IH, (ep_step_leak cfg x). Qed.

Lemma initial_leak (st : St) : connections_ st = ∅ -> broker_ st = new_broker ->
  leak_free late (connections_ st) (broker_ st).
Proof.
  intros -> ->. split.
  - by intros h c; rewrite lookup_empty.
  - intros s (d & l & E & _). cbn in E. by rewrite lookup_empty in E.
  - intros h l. cbn. by rewrite lookup_empty.
  - intros d l. cbn. by rewrite lookup_empty.
Qed.

(** After a shutdown no event brings a connection back. *)
Lemma ep_step_stopped (cfg : Config) st st' : ep_step cfg st st' ->
  connections_ st = ∅ -> accepting_ st = false -> connections_ st' = ∅ /\ accepting_ st' = false.
Proof.
  intros [now self E|now self m|self| | |now|d data hs n w b P|w a s] C F; try done.
  - unfold on_open. by rewrite F.
  - unfold on_message. destruct (negb _); [done|]. by rewrite C, lookup_empty.
  - unfold on_close. by rewrite C, lookup_empty.
  - apply force_shutdown_stops.
  - unfold heartbeat_round. by rewrite C, map_to_list_empty.
Qed.

Lemma ep_steps_stopped (cfg : Config) st st' : rtc (ep_step cfg) st st' ->
  connections_ st = ∅ -> accepting_ st = false -> connections_ st' = ∅ /\ accepting_ st' = false.
Proof.
  induction 1 as [|x y z S _ IH]; [done|]. intros C F.
  destruct (ep_step_stopped cfg x y S C F) as [C' F']. by apply IH.
Qed.

Lemma session_close_sent code reason s : close_sent_ (snd (session_close code reason s)) = true.
Proof. unfold session_close. by destruct (close_sent_ s) eqn:E. Qed.

Lemma protocol_error_closes self m (st : St) : close_sent_ (ses (protocol_error order self m st)) = true.
Proof. apply session_close_sent. Qed.

Lemma process_frames_closed (cfg : Config) self fs c st : close_sent_ (ses st) = true ->
  process_frames order cfg self c fs st = (c, st).
Proof. intros E. destruct fs; [done|]. cbn [process_frames]. by rewrite E. Qed.

(** An unconnected session whose next frame is not a CONNECT is closed there. *)
Lemma process_frames_unconnected (cfg : Config) self f fs c st :
  connected c = false -> command f <> bs "CONNECT" -> command f <> bs "STOMP" ->
  exists st', process_frames order cfg self c (f :: fs) st = (c, st') /\
    same_core st st' /\ app st' = app st /\ close_sent_ (ses st') = true.
Proof.
  intros Hc N1 N2. cbn [process_frames]. destruct (close_sent_ (ses st)) eqn:E; [by exists st|].
  case_goal; [eexists; split_and!; [done|done|done|apply protocol_error_closes]|].
  unfold process_frame, process_connect. rewrite Hc, !bool_decide_false by done. cbn [negb andb].
  rewrite process_frames_closed by apply protocol_error_closes.
  eexists. split_and!; [done|done|done|apply protocol_error_closes].
Qed.
End Endpoint.

(** ** Publications in progress *)

Lemma pub_run_deliver {W : Type} `{SessionApi W} order d data hs id ts n stale (w : W) b :
  pub_run order (S (3 * length ts)) (mkPub d data hs id ts PubCheck n stale) w b =
  Some (let '(n', stale', w', b') := foldl (deliver order d data hs id) (n, stale, w, b) ts in
        (n', w', prune stale' b')).
Proof.
  assert (forall k f q w b r, pub_run order f q w b = Some r -> pub_run order (k + f) q w b = Some r) as Mono.
  { intros k f. revert k. induction f as [|f IH]; intros k q w0 b0 r; [done|].
    rewrite Nat.add_succ_r. cbn [pub_run]. destruct (pub_step order q w0 b0) as [[[n'|q'] w'] b']; [done|apply IH]. }
  revert n stale w b. induction ts as [|t ts IH]; intros n stale w b; [done|].
  assert (forall k n stale w b, pub_run order (k + S (3 * length ts)) (mkPub d data hs id ts PubCheck n stale) w b =
    Some (let '(n', stale', w', b') := foldl (deliver order d data hs id) (n, stale, w, b) ts in
        (n', w', prune stale' b'))) as IH' by (intros; apply Mono, IH).
  replace (S (3 * length (t :: ts))) with (S (S (S (S (3 * length ts))))) by (cbn [length]; lia).
  assert (forall f q w b, pub_run order (S f) q w b = match pub_step order q w b with
    | (inl n, w, b) => Some (n, w, b) | (inr q, w, b) => pub_run order f q w b end) as Step by done.
  cbn [foldl]. unfold deliver at 2. rewrite Step. unfold pub_step at 1. cbn [pub_todo pub_phase].
  destruct (sess_active (sub_session t) w); cbn [negb]; [|unfold pub_next;
    cbn [pub_destination pub_data pub_headers pub_message_id pub_todo pub_delivered pub_stale tl];
    rewrite Z.add_0_r; apply (IH' 2%nat)].
  rewrite Step. unfold pub_step at 1, pub_at. cbn [pub_todo pub_phase pub_destination pub_data pub_headers pub_message_id].
  destruct (sess_send_text _ _ _) as [[] w1]; [destruct (bool_decide (sub_ack t = Auto))|].
  - unfold pub_next. cbn [pub_destination pub_data pub_headers pub_message_id pub_todo pub_delivered pub_stale tl].
    rewrite app_nil_r. apply (IH' 1%nat).
  - rewrite Step. unfold pub_step at 1, pub_next.
    cbn [pub_phase pub_destination pub_data pub_headers pub_message_id pub_todo pub_delivered pub_stale tl].
    rewrite app_nil_r. apply (IH' 0%nat).
  - rewrite Step. unfold pub_step at 1, pub_next.
    cbn [pub_phase pub_destination pub_data pub_headers pub_message_id pub_todo pub_delivered pub_stale tl].
    rewrite Z.add_0_r. destruct (sess_active (sub_session t) w1); cbn [negb]; [rewrite app_nil_r|]; apply (IH' 0%nat).
Qed.

(** The steps of a publication, run without interruption, are [publish]. *)
Lemma publish_uninterrupted {W : Type} `{SessionApi W} order d data hs (w : W) b :
  match pub_begin d data hs w b with
  | (None, b') => publish order d data hs w b = (0, w, b')
  | (Some q, b') => pub_run order (S (3 * length (pub_todo q))) q w b' = Some (publish order d data hs w b)
  end.
Proof.
  unfold pub_begin, publish. destruct (negb (supported_destination d)); [done|].
  destruct (select_targets d w b) as [[[ts id]|] b']; [|done]. cbn [pub_todo]. rewrite pub_run_deliver.
  unfold for_each. by destruct (foldl _ _ ts) as [[[n stale] w'] b''].
Qed.

(** The endpoint with the publications of other threads in progress.  [f_late]
    has the sessions for which one recorded a delivery too late. *)
Record Fine (A : Type) := mkFine { f_st : St (A:=A); f_pubs : gmap Z Publication; f_late : gset Z }.
Arguments mkFine {A}.
Arguments f_st {A}.
Arguments f_pubs {A}.
Arguments f_late {A}.

(** Is the next step to record a delivery for a session that has no
    connection, or no subscription, that would drop it? *)
Definition late_record {A : Type} (q : Publication) (st : St (A:=A)) : gset Z :=
  match pub_phase q, pub_todo q with
  | PubRecord, t :: _ =>
      match connections_ st !! sub_session t with
      | Some c => if bool_decide (subscription_ids c = []) then {[sub_session t]} else ∅
      | None => {[sub_session t]}
      end
  | _, _ => ∅
  end.

Inductive fine_step {A : Type} order (cfg : Config (A:=A)) : Fine A -> Fine A -> Prop :=
| fs_event st st' ps late : ep_step order cfg st st' ->
    fine_step order cfg (mkFine st ps late) (mkFine st' ps late)
| fs_begin st ps late k d data hs q b : ps !! k = None -> pub_begin d data hs (world st) (broker_ st) = (q, b) ->
    fine_step order cfg (mkFine st ps late) (mkFine (set_broker b st) (partial_alter (fun _ => q) k ps) late)
| fs_publication st ps late k q r w b : ps !! k = Some q ->
    pub_step order q (world st) (broker_ st) = (r, w, b) ->
    fine_step order cfg (mkFine st ps late)
      (mkFine (set_broker b (set_world w st))
         (match r with inl _ => delete k ps | inr q' => <[k := q']> ps end) (late_record q st ∪ late)).

Section FineSteps.
Context {A : Type} (order : gmap bytes bytes -> list (bytes * bytes)) (cfg : Config (A:=A)).

Lemma leak_free_weaken late late' conns b : late ⊆ late' -> leak_free late conns b -> leak_free late' conns b.
Proof.
  intros S [L1 L2 L3 L4]. split; [done|done| |done]. intros h l E. destruct (L3 h l E) as [?|?]; [left; set_solver|by right].
Qed.

Lemma leak_free_subs late conns b : leak_free late conns b -> forall d l s, subscriptions_ b !! d = Some l -> s ∈ l ->
  exists c, conns !! sub_session s = Some c /\ sub_id s ∈ subscription_ids c.
Proof. intros L d l s E Hs. apply (lf_subs _ _ _ L). by exists d, l. Qed.

Lemma leak_free_pending late conns b : leak_free late conns b -> forall h l, pending_acks_ b !! h = Some l ->
  h ∈ late \/ is_Some (conns !! h).
Proof. intros L h l E. destruct (lf_pending _ _ _ L h l E) as [?|(c & -> & _)]; [by left|right; by eexists]. Qed.

Lemma pub_begin_leak {W} `{SessionApi W} late conns d data hs (w : W) b q b' :
  pub_begin d data hs w b = (q, b') -> leak_free late conns b -> leak_free late conns b'.
Proof.
  unfold pub_begin. destruct (negb _); [by intros [= <- <-]|].
  destruct (select_targets d w b) as [r b1] eqn:E. intros F L.
  pose proof (select_leak (late:=late) d w b conns L r b1 E) as [S _]. destruct r as [[ts id]|]; by simplify_eq.
Qed.

Lemma push_pending_leak late conns b t id m : leak_free late conns b ->
  sub_session t ∈ late \/ (exists c, conns !! sub_session t = Some c /\ subscription_ids c <> []) ->
  leak_free late conns (push_pending (sub_session t) id (sub_ack t) m b).
Proof.
  intros [L1 L2 L3 L4] Ht. split; [done|done| |done]. cbn. intros h l. rewrite lookup_insert_Some.
  intros [[<- _]|[_ ?]]; [done|by eapply L3].
Qed.

Lemma prune_leak late conns stale b : leak_free late conns b -> leak_free late conns (prune stale b).
Proof.
  unfold prune. destruct stale as [|h0 st]; [done|]. intros [D1 D2 D3 D4].
  split; [done| |done|apply erase_no_empty]. intros s Hs. apply erase_has_sub in Hs as [Hs _]. by apply D2.
Qed.

Lemma pub_step_leak late (st : St (A:=A)) q r w b : pub_step order q (world st) (broker_ st) = (r, w, b) ->
  leak_free late (connections_ st) (broker_ st) -> leak_free (late_record q st ∪ late) (connections_ st) b.
Proof.
  intros E L. apply (leak_free_weaken _ (late_record q st ∪ late)) in L; [|set_solver].
  revert E. unfold pub_step. destruct (pub_todo q) as [|t ts] eqn:T; [intros [= <- <- <-]; by apply prune_leak|].
  destruct (pub_phase q) eqn:P; [by intros [= <- <- <-]| |by intros [= <- <- <-]|].
  - destruct (sess_send_text _ _ _) as [[] w1]; by intros [= <- <- <-].
  - intros [= <- <- <-]. apply push_pending_leak; [done|]. unfold late_record. rewrite P, T.
    destruct (connections_ st !! sub_session t) as [c|]; [|left; set_solver].
    case_bool_decide; [left; set_solver|right]. by exists c.
Qed.

Lemma fine_steps_leak x y : rtc (fine_step order cfg) x y ->
  leak_free (f_late x) (connections_ (f_st x)) (broker_ (f_st x)) ->
  leak_free (f_late y) (connections_ (f_st y)) (broker_ (f_st y)).
Proof.
  induction 1 as [|x y z S _ IH]; [done|]. intros L. apply IH. clear IH.
  destruct S as [st st' ps late S|st ps late k d data hs q b Hk E|st ps late k q r w b Hk E]; cbn in *.
  - by apply (ep_step_leak order cfg st).
  - by eapply pub_begin_leak.
  - by eapply pub_step_leak.
Qed.
End FineSteps.

(** ** The endpoint as a whole *)

(** [C6] In every state the endpoint reaches, through any order of
    opened and closed connections, messages, heartbeats and shutdowns, with any
    number of publications of other threads in progress at any of their steps,
    every subscription the broker holds belongs to an open connection that
    knows its id.  Every delivery that waits for an acknowledgement belongs to an
    open connection, unless a publication recorded one for that session when it
    had no connection or no subscription any more.  Closing a connection drops
    all its subscriptions, and with the same exception all its deliveries. *)
Theorem endpoint_never_leaks {A : Type} order (cfg : Config (A:=A)) st0 x :
  connections_ st0 = ∅ -> broker_ st0 = new_broker -> rtc (fine_step order cfg) (mkFine st0 ∅ ∅) x ->
  let st := f_st x in
  (forall d l s, subscriptions_ (broker_ st) !! d = Some l -> s ∈ l ->
     exists c, connections_ st !! sub_session s = Some c /\ sub_id s ∈ subscription_ids c) /\
  (forall h l, pending_acks_ (broker_ st) !! h = Some l -> h ∈ f_late x \/ is_Some (connections_ st !! h)) /\
  (forall self, let st' := on_close self st in
     connections_ st' !! self = None /\
     (forall d l s, subscriptions_ (broker_ st') !! d = Some l -> s ∈ l -> sub_session s <> self) /\
     (self ∉ f_late x -> pending_acks_ (broker_ st') !! self = None)).
Proof.
  intros C B R. pose proof (fine_steps_leak order cfg _ _ R (initial_leak st0 C B)) as L. cbn zeta.
  split_and!; [by eapply leak_free_subs|by eapply leak_free_pending|]. intros self.
  assert (leak_free (f_late x) (connections_ (on_close self (f_st x))) (broker_ (on_close self (f_st x)))) as L'
    by (by apply (ep_step_leak order cfg (f_st x)); [apply ep_close|]).
  assert (connections_ (on_close self (f_st x)) !! self = None) as N.
  { unfold on_close. destruct (connections_ (f_st x) !! self) eqn:E; [apply lookup_delete_eq|done]. }
  split_and!; [done| |].
  - intros d l s E Hs Es. destruct (leak_free_subs _ _ _ L' d l s E Hs) as (c & Ec & _). congruence.
  - intros F. destruct (pending_acks_ _ !! self) as [l|] eqn:E; [|done].
    destruct (leak_free_pending _ _ _ L' self l E) as [?|[c Hc]]; [done|congruence].
Qed.

(** [force_shutdown], called in any reachable state, empties
    the connections, the subscriptions and the pending acknowledgements, and
    nothing that happens afterwards brings any of them back. *)
Theorem force_shutdown_final {A : Type} order (cfg : Config (A:=A)) st0 st st' :
  connections_ st0 = ∅ -> broker_ st0 = new_broker -> rtc (ep_step order cfg) st0 st ->
  rtc (ep_step order cfg) (force_shutdown st) st' ->
  drained st' = true /\ accepting_ st' = false /\
  subscriptions_ (broker_ st') = ∅ /\ pending_acks_ (broker_ st') = ∅.
Proof.
  intros C B R R'. pose proof (ep_steps_leak (late:=∅) order cfg st0 st R (initial_leak st0 C B)) as L.
  destruct (force_shutdown_stops st) as [C1 F1].
  destruct (ep_steps_stopped order cfg _ _ R' C1 F1) as [C2 F2].
  pose proof (ep_steps_leak (late:=∅) order cfg _ _ R') as L'. rewrite C1, C2 in L'.
  destruct (leak_free_empty _ (L' (force_leak st L))) as [-> ->].
  split_and!; [|done|done|done]. unfold drained. by rewrite bool_decide_true.
Qed.

(** Until CONNECT succeeded nothing else is served: a
    message whose first frame is neither CONNECT nor STOMP changes neither the
    broker nor the application, the connection stays unconnected, and the
    session is closing, whatever frames follow. *)
Theorem connect_comes_first {A : Type} order (cfg : Config (A:=A)) now self m st c f fs d :
  connections_ st !! self = Some c -> connected c = false -> msg_opcode m = Text ->
  feed (msg_payload m) (decoder c) = (inr (f :: fs), d) ->
  command f <> bs "CONNECT" -> command f <> bs "STOMP" ->
  let st' := on_message order cfg now self m st in
  broker_ st' = broker_ st /\ app st' = app st /\ close_sent_ (ses st') = true /\
  (connected <$> connections_ st' !! self) = Some false.
Proof.
  intros E Hc Hm Hf N1 N2. cbn zeta. unfold on_message. rewrite bool_decide_true by done. cbn [negb].
  rewrite E. cbn [decoder with_received]. rewrite Hf.
  destruct (process_frames_unconnected order cfg self f fs (with_decoder d (with_received now c)) st) as (st' & -> & (K1 & K2 & K3) & K4 & K5);
    [done|done|done|]. cbn. rewrite lookup_insert_eq, K2. cbn. by rewrite Hc.
Qed.

(** ** A concrete endpoint *)

Definition plain_config : Config (A:=Z) := mkConfig 10000 10000 None (bs "/app") None.

Definition opened_session : Session := mkSession [] default_limits (bs "alice") None None false false.

Definition fresh_endpoint : St (A:=Z) :=
  mkSt ∅ true new_broker {[7 := new_shared 7 default_limits true]} 0 None opened_session.

Definition client_frame (c : bytes) (hs : list (bytes * bytes)) : bytes :=
  serialize map_to_list (mkFrame c (list_to_map hs) []).

Definition connect_wire (heartbeat : bytes) : bytes :=
  client_frame (bs "CONNECT") [(bs "accept-version", bs "1.2"); (bs "heart-beat", heartbeat)].

Definition subscribe_wire : bytes :=
  client_frame (bs "SUBSCRIBE") [(bs "destination", bs "/topic/a"); (bs "id", bs "s1")].

Definition opened_endpoint : St (A:=Z) := on_open 0 7 fresh_endpoint.

Definition subscribed_endpoint : St (A:=Z) :=
  on_message map_to_list plain_config 5 7 (mkMessage Text (connect_wire (bs "0,0") ++ subscribe_wire)) opened_endpoint.

Lemma subscribed_endpoint_reachable : rtc (ep_step map_to_list plain_config) fresh_endpoint subscribed_endpoint.
Proof.
  eapply rtc_l; [by apply (ep_open _ _ _ 0 7)|]. apply rtc_once. apply ep_message.
Qed.

Lemma fine_events {A : Type} order (cfg : Config (A:=A)) st st' ps late :
  rtc (ep_step order cfg) st st' -> rtc (fine_step order cfg) (mkFine st ps late) (mkFine st' ps late).
Proof. induction 1; [done|]. eapply rtc_l; [by apply fs_event|done]. Qed.

Lemma endpoint_never_leaks_witness :
  subscription_count (bs "/topic/a") (broker_ subscribed_endpoint) = 1 /\
  (forall d l s, subscriptions_ (broker_ subscribed_endpoint) !! d = Some l -> s ∈ l ->
     exists c, connections_ subscribed_endpoint !! sub_session s = Some c /\ sub_id s ∈ subscription_ids c).
Proof.
  split; [by vm_compute|].
  exact (proj1 (endpoint_never_leaks map_to_list plain_config fresh_endpoint (mkFine subscribed_endpoint ∅ ∅)
    eq_refl eq_refl (fine_events _ _ _ _ _ _ subscribed_endpoint_reachable))).
Defined.

(** A publication of another thread: the message was sent, the connection
    closes, and then the delivery is recorded.  Nobody is left to acknowledge
    or drop it. *)
Definition ack_subscribed : St (A:=Z) :=
  on_message map_to_list plain_config 5 7 (mkMessage Text (connect_wire (bs "0,0") ++
    client_frame (bs "SUBSCRIBE") [(bs "destination", bs "/topic/a"); (bs "id", bs "s1"); (bs "ack", bs "client")]))
    opened_endpoint.

Definition pub_turn (x : Fine Z) : Fine Z :=
  match f_pubs x !! 1 with
  | Some q =>
      let '(r, w, b) := pub_step map_to_list q (world (f_st x)) (broker_ (f_st x)) in
      mkFine (set_broker b (set_world w (f_st x)))
        (match r with inl _ => delete 1 (f_pubs x) | inr q' => <[1 := q']> (f_pubs x) end)
        (late_record q (f_st x) ∪ f_late x)
  | None => x
  end.

Lemma pub_turn_step x : rtc (fine_step map_to_list plain_config) x (pub_turn x).
Proof.
  unfold pub_turn. destruct x as [st ps late]. cbn. destruct (ps !! 1) as [q|] eqn:E; [|done].
  destruct (pub_step _ _ _ _) as [[r w] b] eqn:S. apply rtc_once. by eapply fs_publication.
Qed.

Definition close_between : Fine Z :=
  let '(q, b) := pub_begin (bs "/topic/a") (bs "hi") ∅ (world ack_subscribed) (broker_ ack_subscribed) in
  let x := pub_turn (pub_turn (mkFine (set_broker b ack_subscribed) (partial_alter (fun _ => q) 1 ∅) ∅)) in
  pub_turn (pub_turn (mkFine (on_close 7 (f_st x)) (f_pubs x) (f_late x))).

Lemma late_acknowledgement_leaks :
  rtc (fine_step map_to_list plain_config) (mkFine fresh_endpoint ∅ ∅) close_between /\
  drained (f_st close_between) = true /\ f_pubs close_between = ∅ /\
  pending_ack_count 7 (broker_ (f_st close_between)) = 1.
Proof.
  split; [|by vm_compute].
  eapply rtc_l; [apply fs_event; by apply (ep_open _ _ _ 0 7)|].
  eapply rtc_l; [apply fs_event, ep_message|]. fold opened_endpoint ack_subscribed. unfold close_between.
  destruct (pub_begin _ _ _ _ _) as [q b] eqn:E. eapply rtc_l; [by eapply (fs_begin _ _ _ _ _ 1)|].
  etrans; [apply pub_turn_step|]. etrans; [apply pub_turn_step|].
  set (x := pub_turn (pub_turn _)). destruct x as [st ps late]. cbn [f_st f_pubs f_late].
  eapply rtc_l; [apply fs_event, (ep_close _ _ _ 7)|]. etrans; apply pub_turn_step.
Qed.

Lemma force_shutdown_final_witness :
  drained subscribed_endpoint = false /\
  let st := on_open 9 8 (force_shutdown subscribed_endpoint) in
  drained st = true /\ accepting_ st = false /\
  subscriptions_ (broker_ st) = ∅ /\ pending_acks_ (broker_ st) = ∅.
Proof.
  split; [by vm_compute|].
  apply (force_shutdown_final map_to_list plain_config fresh_endpoint subscribed_endpoint
    (on_open 9 8 (force_shutdown subscribed_endpoint)) eq_refl eq_refl subscribed_endpoint_reachable).
  apply rtc_once, ep_open. by vm_compute.
Defined.

Lemma connect_comes_first_witness :
  let m := mkMessage Text (subscribe_wire ++ connect_wire (bs "0,0")) in
  let st' := on_message map_to_list plain_config 5 7 m opened_endpoint in
  broker_ st' = broker_ opened_endpoint /\ app st' = app opened_endpoint /\ close_sent_ (ses st') = true /\
  (connected <$> connections_ st' !! 7) = Some false.
Proof.
  cbn zeta.
  apply (connect_comes_first map_to_list plain_config 5 7 _ opened_endpoint
    (mkConn new_decoder false 7 (bs "alice") [] 0 0 0 0)
    (mkFrame (bs "SUBSCRIBE") (list_to_map [(bs "destination", bs "/topic/a"); (bs "id", bs "s1")]) [])
    [mkFrame (bs "CONNECT") (list_to_map [(bs "accept-version", bs "1.2"); (bs "heart-beat", bs "0,0")]) []] new_decoder);
    try done; by vm_compute.
Defined.

(** The negotiation takes the client's first number, what it offers to send,
    for the server's sending period and the second, what it wants to receive,
    for the receiving one.  A client that offers nothing and asks for a
    heartbeat every 5 s ("0,5000") is sent none, and is closed for its own
    silence. *)
Lemma heartbeat_negotiation_swapped :
  let st := on_message map_to_list plain_config 0 7 (mkMessage Text (connect_wire (bs "0,5000"))) opened_endpoint in
  negotiate 10000 10000 0 5000 = (0, 10000) /\
  (shared_active <$> world (heartbeat_round map_to_list 20000 st) !! 7) = Some true /\
  (sh_queued <$> world (heartbeat_round map_to_list 20000 st) !! 7) = Some [] /\
  (shared_active <$> world (heartbeat_round map_to_list 20001 st) !! 7) = Some false.
Proof. by vm_compute. Qed.

(** A SEND to a user destination nobody listens on closes the session, though
    a publication without subscribers is meant to be valid. *)
Lemma user_send_without_subscriber :
  let m := mkMessage Text (connect_wire (bs "0,0") ++
             client_frame (bs "SEND") [(bs "destination", bs "/user/bob/queue/x")]) in
  supported_destination (bs "/user/bob/queue/x") = true /\
  close_sent_ (ses (on_message map_to_list plain_config 5 7 m opened_endpoint)) = true.
Proof. by vm_compute. Qed.

(** ** The relay *)

Lemma relay_frames_bound order maximum i fs s r : 0 <= maximum ->
  len (outbound r) <= maximum -> len (outbound (snd (relay_frames order maximum i fs s r))) <= maximum.
Proof.
  intros M. revert s r. induction fs as [|f fs IH]; intros s r L; [done|]. cbn [relay_frames].
  case_goal; [done|]. case_goal; [by apply IH|].
  assert (outbound (record_subscription f (serialize order f) r) = outbound r) as E
    by (unfold record_subscription; repeat case_goal; done).
  case_goal; to_prop; cbn [snd]; rewrite E in *; [done|]. apply IH. cbn. unfold len in *. rewrite length_app. cbn. lia.
Qed.

(** The queue towards the broker stays within its limit whatever the browser
    sends. *)
Lemma relay_queue_bounded order maximum i self m s conns : 0 <= maximum ->
  map_Forall (fun _ r => len (outbound r) <= maximum) conns ->
  map_Forall (fun _ r => len (outbound r) <= maximum) (snd (relay_on_message order maximum i self m s conns)).
Proof.
  intros M H. unfold relay_on_message. destruct (negb _); [done|].
  destruct (conns !! self) as [r|] eqn:E; [|done]. pose proof (H self r E) as B.
  destruct (feed _ _) as [[[e]|fs] d].
  - apply map_Forall_insert_2; [exact B|done].
  - pose proof (relay_frames_bound order maximum i fs s (set_browser_decoder d r) M B) as F.
    destruct (relay_frames _ _ _ _ _ _) as [s' r']. by apply map_Forall_insert_2.
Qed.

(** Frames queued before the browser's CONNECT reached the relay are taken
    off the queue by the first attempt and never written. *)
Lemma relay_drops_early_frames :
  let send := client_frame (bs "SEND") [(bs "destination", bs "/topic/a")] in
  let r := mkRelay 7 new_decoder [send] None ∅ in
  relay_attempt map_to_list r = ([], mkRelay 7 new_decoder [] None ∅).
Proof. by vm_compute. Qed.
