(* ===== verification/CxxDouble.v ===== *)
(** * [double]

    IEEE 754 binary64 with rounding to the nearest even, on the integer-only
    operations of the standard library; [std::floor], [std::ceil] and the
    conversions from and to integers. *)

From Stdlib Require Import SpecFloat.
From S2P Require Import Prelude.

Abbreviation double := spec_float (only parsing).

Definition dprec : Z := 53.
Definition demax : Z := 1024.

Definition dadd (x y : double) : double := SFadd dprec demax x y.
Definition dsub (x y : double) : double := SFsub dprec demax x y.
Definition dmul (x y : double) : double := SFmul dprec demax x y.
Definition ddiv (x y : double) : double := SFdiv dprec demax x y.

Definition dltb (x y : double) : bool := SFltb x y.
Definition dleb (x y : double) : bool := SFleb x y.

(** [std::min(a, b)] is [b < a ? b : a]. *)
Definition dmin (a b : double) : double := if dltb b a then b else a.

(** The conversion of an integer. *)
Definition d_of_Z (z : Z) : double := binary_normalize dprec demax z 0 false.

(** [± m * 2^e] rounded to an integer by [round]: flooring or ceiling division. *)
Definition integral (round : Z -> Z -> Z) (x : double) : double :=
  match x with
  | S754_finite s m e =>
      if 0 <=? e then x
      else binary_normalize dprec demax (round (cond_Zopp s (Z.pos m)) (2 ^ (- e))) 0 s
  | _ => x
  end.

Definition dfloor (x : double) : double := integral Z.div x.
Definition dceil (x : double) : double := integral (fun a b => - ((- a) / b)) x.

(** The conversion to an integer truncates.  Of an infinity or a NaN it is
    undefined in C++ and 0 here. *)
Definition d_to_Z (x : double) : Z :=
  match x with
  | S754_finite s m e =>
      if 0 <=? e then cond_Zopp s (Z.pos m) * 2 ^ e
      else Z.quot (cond_Zopp s (Z.pos m)) (2 ^ (- e))
  | _ => 0
  end.

Lemma double_samples :
  d_to_Z (dceil (ddiv (d_of_Z 1500000000) (d_of_Z 1000000000))) = 2 /\
  d_to_Z (dfloor (ddiv (d_of_Z (-7)) (d_of_Z 2))) = -4 /\
  d_to_Z (d_of_Z (2 ^ 53 + 1)) = 2 ^ 53.
Proof. by vm_compute. Qed.
