(* ===== verification/Middleware.v ===== *)
(** * The middleware pipeline

    [context/request_context.h], [middleware/middleware.h] and
    [middleware/pipeline.*]: the request context, an exchange (the request,
    the response, the context and the state of the rest of the program) that
    middlewares thread, and their composition around a route handler.  A
    handler may throw: what it did until then stays done. *)

From S2P Require Import Prelude CxxString HttpMessage.

(** ** The request context

    [values_] holds at most one value of a type; the types stored in it are
    the two principals and the trace context. *)

Module Context.

(** The claims of a token by the type of their value. *)
Record JwtClaims := mkJwtClaims {
  string_claims : gmap bytes bytes;
  integer_claims : gmap bytes Z;
  bool_claims : gmap bytes bool;
  string_array_claims : gmap bytes (list bytes)
}.

(** Instants are nanoseconds of the system clock. *)
Record JwtPrincipal := mkJwtPrincipal {
  jwt_subject : bytes;
  issuer : bytes;
  audience : list bytes;
  jwt_scopes : list bytes;
  token_id : bytes;
  expires_at : option Z;
  not_before : option Z;
  issued_at : option Z;
  claims : JwtClaims
}.

Record SessionPrincipal := mkSessionPrincipal {
  subject : bytes;
  roles : list bytes;
  scopes : list bytes
}.

(** [observability::TraceContext] *)
Record TraceContext := mkTrace {
  trace_id : bytes;
  span_id : bytes;
  parent_span_id : bytes;
  trace_flags : bytes;
  tracestate : bytes
}.

Record t := mk {
  jwt_value : option JwtPrincipal;
  session_value : option SessionPrincipal;
  trace_value : option TraceContext;
  string_values_ : gmap bytes bytes
}.

Definition empty : t := mk None None None ∅.

Definition set_jwt (p : JwtPrincipal) (c : t) : t :=
  mk (Some p) (session_value c) (trace_value c) (string_values_ c).
Definition set_session (p : SessionPrincipal) (c : t) : t :=
  mk (jwt_value c) (Some p) (trace_value c) (string_values_ c).
Definition set_trace (p : TraceContext) (c : t) : t :=
  mk (jwt_value c) (session_value c) (Some p) (string_values_ c).
Definition set_string (k v : bytes) (c : t) : t :=
  mk (jwt_value c) (session_value c) (trace_value c) (<[k := v]> (string_values_ c)).
Definition get_string (k : bytes) (c : t) : bytes := default [] (string_values_ c !! k).
Definition clear (c : t) : t := empty.

End Context.

Module Middleware.

(** ** Exchanges *)

(** What stops a computation: an exception, or undefined behaviour. *)
Inductive Exn :=
| InvalidArgument (what : bytes)
| RuntimeError (what : bytes)
| LengthError
| Undefined.

(** A signed 64-bit result: outside the range the behaviour is undefined. *)
Definition i64 (z : Z) : result Exn Z :=
  if (- 2 ^ 63 <=? z) && (z <? 2 ^ 63) then inr z else inl Undefined.

Definition nanos_per_milli : Z := 1000000.
Definition nanos_per_second : Z := 1000000000.

Record Exchange (W : Type) := mkEx {
  request : Request.t;
  response : Response.t;
  context : Context.t;
  world : W
}.
Arguments mkEx {W}.
Arguments request {W}.
Arguments response {W}.
Arguments context {W}.
Arguments world {W}.

Definition M (W A : Type) : Type := Exchange W -> result Exn A * Exchange W.

Section Monad.
Context {W : Type}.

Definition ret {A} (a : A) : M W A := fun x => (inr a, x).
Definition throw {A} (e : Exn) : M W A := fun x => (inl e, x).
Definition bind {A B} (m : M W A) (f : A -> M W B) : M W B := fun x =>
  match m x with
  | (inr a, x) => f a x
  | (inl e, x) => (inl e, x)
  end.

(** The rest runs whether or not [m] threw: a destructor at the end of a scope. *)
Definition finally {A} (m : M W A) (f : Exchange W -> Exchange W) : M W A := fun x =>
  let '(r, x) := m x in (r, f x).

Definition get_request : M W Request.t := fun x => (inr (request x), x).
Definition get_context : M W Context.t := fun x => (inr (context x), x).
Definition on_request (f : Request.t -> Request.t) : M W () := fun x =>
  (inr (), mkEx (f (request x)) (response x) (context x) (world x)).
Definition on_response (f : Response.t -> Response.t) : M W () := fun x =>
  (inr (), mkEx (request x) (f (response x)) (context x) (world x)).
Definition on_context (f : Context.t -> Context.t) : M W () := fun x =>
  (inr (), mkEx (request x) (response x) (f (context x)) (world x)).
Definition on_world {A} (f : W -> result Exn A * W) : M W A := fun x =>
  let '(r, w) := f (world x) in (r, mkEx (request x) (response x) (context x) w).
End Monad.

Declare Scope exchange_scope.
Delimit Scope exchange_scope with exchange.
Notation "'do' x <- m ; k" := (bind m (fun x => k))
  (at level 100, x pattern, m at next level, k at level 200, right associativity) : exchange_scope.
Notation "m ;; k" := (bind m (fun _ => k)) (at level 100, right associativity) : exchange_scope.

(** ** The pipeline *)

(** A middleware receives the rest of the chain. *)
Definition t (W : Type) : Type := M W () -> M W ().

(** The chain is built from the back, the first middleware outermost. *)
Definition execute {W} (middlewares_ : list (t W)) (handler : M W ()) : M W () :=
  match middlewares_ with
  | [] => handler
  | _ => for_each (fun chain mw => mw chain) (rev middlewares_) handler
  end.

(** Every allowlist of paths: a pattern that ends in a star is a prefix. *)
Definition pattern_matches (path pattern : bytes) : bool :=
  if ends_with (bs "*") pattern then starts_with (take (length pattern - 1) pattern) path
  else bool_decide (path = pattern).

Definition path_allowed (allowlist : list bytes) (path : bytes) : bool :=
  existsb (pattern_matches path) allowlist.

(** A JSON literal of the source, written with ['] for the double quote. *)
Definition js (s : string) : bytes :=
  map (fun c => if bool_decide (c = "'"%char) then byte_of_Z 34 else c) (bs s).
Arguments js _%_string.

(** The state [S] of one component inside the world. *)
Class Part (S W : Type) := {
  part : W -> S;
  set_part : S -> W -> W;
  part_set : forall s w, part (set_part s w) = s;
  set_part_id : forall w, set_part (part w) w = w;
  set_part_twice : forall s s' w, set_part s (set_part s' w) = set_part s w
}.

#[export] Instance part_self S : Part S S.
Proof. refine {| part := fun w => w; set_part := fun s _ => s |}; done. Defined.

(** ** Lemmas *)

Lemma bind_ok {W A B} (m : M W A) (f : A -> M W B) x a x' : m x = (inr a, x') -> bind m f x = f a x'.
Proof. intros E. unfold bind. by rewrite E. Qed.

Lemma bind_throw {W A B} (m : M W A) (f : A -> M W B) x e x' : m x = (inl e, x') -> bind m f x = (inl e, x').
Proof. intros E. unfold bind. by rewrite E. Qed.

Lemma execute_nil {W} (h : M W ()) : execute [] h = h.
Proof. done. Qed.

Lemma execute_cons {W} (mw : t W) mws h : execute (mw :: mws) h = mw (execute mws h).
Proof.
  unfold execute, for_each. cbn [rev]. rewrite foldl_app. cbn. by destruct mws.
Qed.

Lemma execute_app {W} (xs ys : list (t W)) h : execute (xs ++ ys) h = execute xs (execute ys h).
Proof.
  induction xs as [|x xs IH]; [done|]. rewrite <- app_comm_cons, !execute_cons. by rewrite IH.
Qed.

Lemma pattern_matches_spec path pattern :
  pattern_matches path pattern = true <->
  (exists p rest, pattern = p ++ bs "*" /\ path = p ++ rest) \/
  (path = pattern /\ forall p, pattern <> p ++ bs "*").
Proof.
  assert (forall s : bytes, ends_with (bs "*") s = true <-> exists p, s = p ++ bs "*") as E.
  { intros s. unfold ends_with. split.
    - destruct s as [|c s] using rev_ind; [done|]. rewrite rev_app_distr. intros H. exists s.
      cbn in H. destruct (bool_decide _) eqn:D in H; [|done]. to_prop. by subst.
    - intros [p ->]. rewrite rev_app_distr. done. }
  unfold pattern_matches. destruct (ends_with (bs "*") pattern) eqn:H.
  - apply E in H as [p ->]. rewrite length_app. replace (length p + length (bs "*") - 1)%nat with (length p) by (cbn; lia).
    rewrite take_app_length. split.
    + intros S. left. apply starts_with_spec in S as [r ->]. by exists p, r.
    + intros [(p' & r & Ep & ->)|[_ N]]; [|by destruct (N p)].
      apply app_inj_tail in Ep as [-> _]. apply starts_with_spec. by exists r.
  - rewrite bool_decide_eq_true. split.
    + intros ->. right. split; [done|]. intros p Ep. assert (ends_with (bs "*") pattern = true) by (apply E; by exists p). congruence.
    + intros [(p & r & -> & _)|[-> _]]; [|done]. assert (ends_with (bs "*") (p ++ bs "*") = true) by (apply E; by exists p). congruence.
Qed.

End Middleware.
