(* ===== verification/RateLimit.v ===== *)
(** * Rate limiting: [middleware/rate_limit_middleware.*]

    The policies, the in-memory store with its four algorithms, and the
    middleware, which only knows the store's interface.  Times are nanoseconds
    of the steady clock; arithmetic on them is checked to stay in 64 bits. *)

From S2P Require Import Prelude CxxString HttpMessage CxxDouble Middleware.
Import Middleware.
Open Scope result_scope.

Module RateLimit.

Inductive RateLimitAlgorithm := TokenBucket | FixedWindow | SlidingWindow | Gcra.

#[export] Instance RateLimitAlgorithm_eq : EqDecision RateLimitAlgorithm.
Proof. solve_decision. Defined.

(** [window] in milliseconds. *)
Record RateLimitPolicy := mkPolicy {
  name : bytes;
  algorithm : RateLimitAlgorithm;
  limit : Z;
  window : Z;
  burst : Z
}.

Record Result := mkResult { allowed : bool; remaining : Z; retry_after : Z }.

Definition validate_policy (p : RateLimitPolicy) : result Exn () :=
  if (len (name p) =? 0) || (limit p =? 0) || (window p <=? 0) then
    inl (InvalidArgument (bs "Rate-limit policy requires a name, positive limit, and window"))
  else inr ().

(** [static_cast] of a [std::size_t] to the signed representation. *)
Definition to_rep (z : Z) : Z := let z := wrap64 z in if z <? 2 ^ 63 then z else z - 2 ^ 64.

(** ** The in-memory store *)

Inductive State :=
| TokenBucketState (tokens : double) (updated_at : Z)
| FixedWindowState (started_at used : Z)
| SlidingWindowState (requests : list Z)
| GcraState (theoretical_arrival : Z).

Record Entry := mkEntry { e_algorithm : RateLimitAlgorithm; e_state : State; e_updated_at : Z }.

(** [TokenBucketState{}]: no tokens, updated at the epoch of the clock. *)
Definition default_state : State := TokenBucketState (d_of_Z 0) 0.

Record Config := mkConfig { max_keys : Z; idle_ttl : Z }.

Definition set_state (s : State) (e : Entry) : Entry := mkEntry (e_algorithm e) s (e_updated_at e).

Definition make_store (c : Config) : result Exn (gmap bytes Entry) :=
  if (max_keys c =? 0) || (idle_ttl c <=? 0) then
    inl (InvalidArgument (bs "In-memory rate-limit store requires positive key limit and idle TTL"))
  else inr ∅.

(** [idle_ttl] in nanoseconds here. *)
Definition prune_idle (c : Config) (now : Z) (entries : gmap bytes Entry) : gmap bytes Entry :=
  filter (fun kv => ~ (e_updated_at (snd kv) <= now /\ idle_ttl c <= now - e_updated_at (snd kv))) entries.

Definition policy_window (p : RateLimitPolicy) : result Exn Z :=
  let! _ := validate_policy p in
  let! w := i64 (window p * nanos_per_milli) in
  if w <=? 0 then inl (InvalidArgument (bs "Rate-limit window is too small for the configured clock"))
  else inr w.

Definition burst_capacity (p : RateLimitPolicy) : result Exn Z :=
  let! _ := validate_policy p in
  inr (if burst p =? 0 then limit p else burst p).

(** [std::chrono::duration<double>(d).count()] *)
Definition seconds_of (d : Z) : double := ddiv (d_of_Z d) (d_of_Z nanos_per_second).

Definition ceil_seconds (d : Z) : Z :=
  if d <=? 0 then 0
  else
    let seconds := dceil (seconds_of d) in
    d_to_Z (dmin seconds (d_of_Z (2 ^ 63 - 1))).

Definition acquire_token_bucket (e : Entry) (p : RateLimitPolicy) (now : Z) : result Exn (Entry * Result) :=
  let! w := policy_window p in
  let! capacity := burst_capacity p in
  let '(tokens, updated) :=
    match e_state e with
    | TokenBucketState t u => (t, u)
    | _ => (d_of_Z capacity, now)
    end in
  let refill_rate := ddiv (d_of_Z (limit p)) (seconds_of w) in
  let! refilled :=
    if updated <? now then
      let! elapsed := i64 (now - updated) in
      inr (dmin (d_of_Z capacity) (dadd tokens (dmul (seconds_of elapsed) refill_rate)), now)
    else inr (tokens, updated) in
  let '(tokens, updated) := refilled in
  if dltb tokens (d_of_Z 1) then
    let wait := d_to_Z (dmul (ddiv (dsub (d_of_Z 1) tokens) refill_rate) (d_of_Z nanos_per_second)) in
    inr (set_state (TokenBucketState tokens updated) e, mkResult false 0 (ceil_seconds wait))
  else
    let tokens := dsub tokens (d_of_Z 1) in
    inr (set_state (TokenBucketState tokens updated) e, mkResult true (d_to_Z (dfloor tokens)) 0).

Definition acquire_fixed_window (e : Entry) (p : RateLimitPolicy) (now : Z) : result Exn (Entry * Result) :=
  let! w := policy_window p in
  let '(started, used) :=
    match e_state e with FixedWindowState s u => (s, u) | _ => (now, 0) end in
  let! over := if started <=? now then let! d := i64 (now - started) in inr (w <=? d) else inr false in
  let '(started, used) := if over : bool then (now, 0) else (started, used) in
  if limit p <=? used then
    let! d := i64 (now - started) in
    let! r := i64 (w - d) in
    inr (set_state (FixedWindowState started used) e, mkResult false 0 (ceil_seconds r))
  else inr (set_state (FixedWindowState started (used + 1)) e, mkResult true (limit p - (used + 1)) 0).

(** The loop that pops the requests older than a window off the front. *)
Fixpoint pop_expired (now w : Z) (requests : list Z) : result Exn (list Z) :=
  match requests with
  | [] => inr []
  | t :: r =>
      if now <? t then inr requests
      else
        let! d := i64 (now - t) in
        if w <=? d then pop_expired now w r else inr requests
  end.

Definition acquire_sliding_window (e : Entry) (p : RateLimitPolicy) (now : Z) : result Exn (Entry * Result) :=
  let! w := policy_window p in
  let requests := match e_state e with SlidingWindowState r => r | _ => [] end in
  let! requests := pop_expired now w requests in
  if limit p <=? len requests then
    match requests with
    | [] => inl Undefined  (** [front] of an empty deque *)
    | t :: _ =>
        let! u := i64 (t + w) in
        let! r := i64 (u - now) in
        inr (set_state (SlidingWindowState requests) e, mkResult false 0 (ceil_seconds r))
    end
  else
    let requests := requests ++ [now] in
    inr (set_state (SlidingWindowState requests) e, mkResult true (limit p - len requests) 0).

Definition acquire_gcra (e : Entry) (p : RateLimitPolicy) (now : Z) : result Exn (Entry * Result) :=
  let! w := policy_window p in
  let interval := Z.quot w (to_rep (limit p)) in
  if interval <=? 0 then inl (InvalidArgument (bs "GCRA interval is too small for the configured policy"))
  else
    let! burst := burst_capacity p in
    let! tolerance := i64 (interval * to_rep (burst - 1)) in
    let arrival := match e_state e with GcraState t => t | _ => now end in
    let! allowed_at := i64 (arrival - tolerance) in
    if now <? allowed_at then
      let! r := i64 (allowed_at - now) in
      inr (set_state (GcraState arrival) e, mkResult false 0 (ceil_seconds r))
    else
      let! arrival := i64 (Z.max arrival now + interval) in
      let! debt := if now <? arrival then i64 (arrival - now) else inr 0 in
      let used := d_to_Z (dceil (ddiv (seconds_of debt) (seconds_of interval))) in
      inr (set_state (GcraState arrival) e, mkResult true (if used <? burst then burst - used else 0) 0).

(** The switch over the algorithms. *)
Definition acquire_entry (e : Entry) (p : RateLimitPolicy) (now : Z) : result Exn (Entry * Result) :=
  match algorithm p with
  | TokenBucket => acquire_token_bucket e p now
  | FixedWindow => acquire_fixed_window e p now
  | SlidingWindow => acquire_sliding_window e p now
  | Gcra => acquire_gcra e p now
  end.

Definition normalized_key (p : RateLimitPolicy) (key : bytes) : bytes :=
  to_dec (len (name p)) ++ bs ":" ++ name p ++ (if len key =? 0 then bs "anonymous" else key).

Definition acquire (c : Config) (key : bytes) (p : RateLimitPolicy) (now : Z) (entries : gmap bytes Entry) :
    result Exn Result * gmap bytes Entry :=
  match validate_policy p with
  | inl x => (inl x, entries)
  | inr _ =>
      let normalized := normalized_key p key in
      let entry (entries : gmap bytes Entry) (e : Entry) :=
        let e := if decide (e_algorithm e = algorithm p) then e
                 else mkEntry (algorithm p) default_state (e_updated_at e) in
        let e := mkEntry (e_algorithm e) (e_state e) now in
        match acquire_entry e p now with
        | inl x => (inl x, <[normalized := e]> entries)
        | inr (e, r) => (inr r, <[normalized := e]> entries)
        end in
      let fresh := mkEntry (algorithm p) default_state now in
      match entries !! normalized with
      | Some e => entry entries e
      | None =>
          if max_keys c <=? Z.of_nat (size entries) then
            let entries := prune_idle c now entries in
            if max_keys c <=? Z.of_nat (size entries) then (inr (mkResult false 0 1), entries)
            else entry entries fresh
          else entry entries fresh
      end
  end.

(** ** The middleware *)

(** The store as the middleware sees it, inside the world. *)
Class RateLimitStore (W : Type) := {
  store_acquire : bytes -> RateLimitPolicy -> W -> result Exn Result * W
}.

Record MwConfig := mkMwConfig {
  policy : RateLimitPolicy;
  key_resolver : Request.t -> Context.t -> bytes;
  allowlist_paths : list bytes;
  max_key_length : Z;
  rejected_status : Z;
  rejected_body : bytes
}.

(** The constructor of the middleware. *)
Definition valid_config (c : MwConfig) : result Exn () :=
  let! _ := validate_policy (policy c) in
  if max_key_length c =? 0 then
    inl (InvalidArgument (bs "Rate limiting requires a key resolver and positive key length"))
  else inr ().

Definition global_key (_ : Request.t) (_ : Context.t) : bytes := bs "global".

Definition authenticated_principal_key (_ : Request.t) (c : Context.t) : bytes :=
  match Context.jwt_value c with
  | Some p => if negb (len (Context.jwt_subject p) =? 0) then bs "jwt:" ++ Context.jwt_subject p
              else match Context.session_value c with
                   | Some s => if negb (len (Context.subject s) =? 0) then bs "session:" ++ Context.subject s
                               else bs "anonymous"
                   | None => bs "anonymous"
                   end
  | None => match Context.session_value c with
            | Some s => if negb (len (Context.subject s) =? 0) then bs "session:" ++ Context.subject s
                        else bs "anonymous"
            | None => bs "anonymous"
            end
  end.

Definition client_address_key (r : Request.t) (_ : Context.t) : bytes :=
  if len (Request.client_address_ r) =? 0 then bs "anonymous" else bs "ip:" ++ Request.client_address_ r.

Definition publish_headers (cfg : MwConfig) (result : Result) (r : Response.t) : Response.t :=
  let r := Response.header (bs "ratelimit-limit") (to_dec (limit (policy cfg))) r in
  let r := Response.header (bs "ratelimit-remaining") (to_dec (remaining result)) r in
  if negb (allowed result) then
    let r := Response.header (bs "ratelimit-reset") (to_dec_signed (retry_after result)) r in
    Response.header (bs "retry-after") (to_dec_signed (retry_after result)) r
  else r.

Open Scope exchange_scope.

Definition handle {W} `{RateLimitStore W} (cfg : MwConfig) : Middleware.t W := fun next =>
  do request <- get_request;
  if path_allowed (allowlist_paths cfg) (Request.path_ request) then next
  else
    do context <- get_context;
    let key := key_resolver cfg request context in
    let key := if len key =? 0 then bs "anonymous" else key in
    if max_key_length cfg <? len key then
      on_response (fun r => Response.json
        (js "{'error':'Bad Request','message':'Rate limit key is too long'}") (Response.status 400 r))
    else
      do result <- on_world (store_acquire key (policy cfg));
      on_response (publish_headers cfg result) ;;
      if negb (allowed result) then
        on_response (fun r => Response.json (rejected_body cfg) (Response.status (rejected_status cfg) r))
      else next.

(** The in-memory store behind the interface; the world carries the clock. *)
Definition in_memory_store {W} `{Part (gmap bytes Entry) W} (clock : W -> Z) (c : Config) : RateLimitStore W :=
  {| store_acquire := fun key p w =>
       let '(r, entries) := acquire c key p (clock w) (part w) in (r, set_part entries w) |}.

End RateLimit.
