(* ===== verification/RateLimitProps.v ===== *)
(** * Rate limiting: what the algorithms admit, and what the store keeps *)

From S2P Require Import Prelude CxxString HttpMessage CxxDouble Middleware RateLimit.
Import Middleware RateLimit.
Open Scope result_scope.

#[global] Arguments validate_policy : simpl never.
#[global] Arguments policy_window : simpl never.
#[global] Arguments burst_capacity : simpl never.
#[global] Arguments ceil_seconds : simpl never.
#[global] Arguments acquire_entry : simpl never.
#[global] Arguments i64 : simpl never.
#[global] Arguments normalized_key : simpl never.
#[global] Arguments to_rep : simpl never.

(** ** Serving clients *)

(** A request to the store: who asks, under which policy, when. *)
Record Ask := mkAsk { ask_key : bytes; ask_policy : RateLimitPolicy; ask_time : Z }.

(** The key it is counted under. *)
Definition ask_id (a : Ask) : bytes := normalized_key (ask_policy a) (ask_key a).

(** The store serves the requests of all clients in turn; the answers are those
    to the requests counted under [k]. *)
Fixpoint serve (c : Config) (k : bytes) (asks : list Ask) (entries : gmap bytes Entry) : result Exn (list bool) :=
  match asks with
  | [] => inr []
  | a :: r =>
      let '(res, entries) := acquire c (ask_key a) (ask_policy a) (ask_time a) entries in
      if decide (ask_id a = k) then
        match res with
        | inl x => inl x
        | inr res => let! l := serve c k r entries in inr (allowed res :: l)
        end
      else serve c k r entries
  end.

(** The times of the requests counted under [k]. *)
Definition times_of (k : bytes) (asks : list Ask) : list Z := map ask_time (filter (fun a => ask_id a = k) asks).

(** The requests counted under the key of a policy are made under that policy. *)
Definition same_policy (p : RateLimitPolicy) (k : bytes) (asks : list Ask) : Prop :=
  Forall (fun a => ask_id a = k -> ask_policy a = p) asks.

(** All clients fit in the store, with those it holds already. *)
Definition roomy (c : Config) (asks : list Ask) (entries : gmap bytes Entry) : Prop :=
  Z.of_nat (size (dom entries ∪ list_to_set (map ask_id asks) : gset bytes)) <= max_keys c.

(** The times of the admitted requests. *)
Definition admitted (times : list Z) (answers : list bool) : list Z :=
  map fst (List.filter snd (zip times answers)).

(** The same on the state of one entry. *)
Fixpoint serve_state (p : RateLimitPolicy) (times : list Z) (s : State) : result Exn (list bool) :=
  match times with
  | [] => inr []
  | now :: r =>
      let! er := acquire_entry (mkEntry (algorithm p) s now) p now in
      let! l := serve_state p r (e_state (fst er)) in
      inr (allowed (snd er) :: l)
  end.

Lemma acquire_entry_algorithm e p now e' r : acquire_entry e p now = inr (e', r) -> e_algorithm e' = e_algorithm e.
Proof.
  unfold acquire_entry, acquire_token_bucket, acquire_fixed_window, acquire_sliding_window, acquire_gcra, result_bind.
  intros H. repeat case_hyp H; simplify_eq; done.
Qed.

(** A store with room serves a client without dropping another. *)
Lemma acquire_room c a r entries : roomy c (a :: r) entries ->
  let entries' := snd (acquire c (ask_key a) (ask_policy a) (ask_time a) entries) in
  (entries' = entries \/ exists e, entries' = <[ask_id a := e]> entries) /\
  (entries !! ask_id a = None -> Z.of_nat (size entries) < max_keys c).
Proof.
  intros R. cbn zeta. assert (entries !! ask_id a = None -> Z.of_nat (size entries) < max_keys c) as S.
  { intros E. unfold roomy in R. cbn [map] in R.
    assert (size ({[ask_id a]} ∪ dom entries : gset bytes) <= size (dom entries ∪ list_to_set (map ask_id (a :: r)) : gset bytes))%nat as L
      by (apply subseteq_size; cbn; set_solver).
    rewrite size_union, size_singleton, size_dom in L by (apply not_elem_of_dom in E; set_solver). cbn [map] in L. lia. }
  split; [|done]. unfold acquire. fold (ask_id a). destruct (validate_policy _) as [x|[]]; [by left|].
  destruct (entries !! ask_id a) as [e|] eqn:E.
  - right. destruct (acquire_entry _ _ _) as [x|[e' r']]; by eexists.
  - rewrite (proj2 (Z.leb_gt _ _)) by (by apply S). right. destruct (acquire_entry _ _ _) as [x|[e' r']]; by eexists.
Qed.

Lemma roomy_step c a r entries entries' : roomy c (a :: r) entries ->
  entries' = entries \/ (exists e, entries' = <[ask_id a := e]> entries) -> roomy c r entries'.
Proof.
  unfold roomy. intros R H. etrans; [|exact R]. apply Nat2Z.inj_le, subseteq_size.
  cbn [map list_to_set]. destruct H as [->|[e ->]]; [set_solver|]. rewrite dom_insert. set_solver.
Qed.

(** The state the store holds for a client. *)
Definition holds (p : RateLimitPolicy) (k : bytes) (entries : gmap bytes Entry) (s : State) : Prop :=
  (entries !! k = None /\ s = default_state) \/
  exists e, entries !! k = Some e /\ e_algorithm e = algorithm p /\ e_state e = s.

(** What a client gets does not depend on the requests of the others. *)
Lemma serve_alone c key p asks entries s : validate_policy p = inr () ->
  let k := normalized_key p key in
  same_policy p k asks -> roomy c asks entries -> holds p k entries s ->
  serve c k asks entries = serve_state p (times_of k asks) s.
Proof.
  intros V k. revert entries s. induction asks as [|a asks IH]; intros entries s P R H; [done|].
  apply Forall_cons in P as [Pa P]. destruct (acquire_room c a asks entries R) as [Sh Sz].
  pose proof (roomy_step c a asks entries _ R Sh) as R'. cbn [serve]. unfold times_of. rewrite filter_cons.
  destruct (decide (ask_id a = k)) as [Ek|Nk].
  - specialize (Pa Ek). cbn [map serve_state]. fold (times_of k asks).
    assert (acquire c (ask_key a) (ask_policy a) (ask_time a) entries =
      match acquire_entry (mkEntry (algorithm p) s (ask_time a)) p (ask_time a) with
      | inl x => (inl x, <[k := mkEntry (algorithm p) s (ask_time a)]> entries)
      | inr (e, r) => (inr r, <[k := e]> entries)
      end) as E.
    { unfold acquire. fold (ask_id a). rewrite Ek in *. rewrite Pa, V. destruct H as [[H ->]|(e & H & A & <-)]; rewrite H.
      - rewrite (proj2 (Z.leb_gt _ _)), decide_True by (done || by apply Sz). done.
      - by rewrite decide_True, A by done. }
    rewrite E in *. destruct (acquire_entry _ p _) as [x|[e r]] eqn:Q; [done|]. cbn [snd] in R'.
    cbn [result_bind fst snd]. apply acquire_entry_algorithm in Q.
    rewrite (IH (<[k := e]> entries) (e_state e)); [done|done|done|]. right. exists e. by rewrite lookup_insert_eq.
  - fold (times_of k asks). destruct (acquire c _ _ _ entries) as [res entries'] eqn:E. cbn [snd] in *.
    apply IH; [done|done|]. assert (entries' !! k = entries !! k) as L
      by (destruct Sh as [->|[e ->]]; [done|by rewrite lookup_insert_ne]).
    unfold holds. by rewrite L.
Qed.

Lemma i64_small z : - 2 ^ 63 <= z < 2 ^ 63 -> i64 z = inr z.
Proof. intros H. unfold i64. by rewrite (proj2 (Z.leb_le _ _)), (proj2 (Z.ltb_lt _ _)) by lia. Qed.

(** The window of a policy in nanoseconds. *)
Definition window_ns (p : RateLimitPolicy) : Z := window p * nanos_per_milli.

(** A policy the constructor accepts, whose window is at most 73 years. *)
Definition usable (p : RateLimitPolicy) : Prop :=
  name p <> [] /\ 0 < limit p < 2 ^ 63 /\ 0 < window p /\ window_ns p < 2 ^ 61.

Lemma usable_valid p : usable p -> validate_policy p = inr ().
Proof.
  intros (N & L & W & _). unfold validate_policy.
  rewrite (proj2 (Z.eqb_neq _ _)), (proj2 (Z.eqb_neq _ _)), (proj2 (Z.leb_gt _ _)); [done|lia|lia|].
  destruct (name p); [done|]. len_lia.
Qed.

Lemma usable_window p : usable p -> policy_window p = inr (window_ns p).
Proof.
  intros U. unfold policy_window. rewrite (usable_valid p U). destruct U as (_ & _ & W & B). cbn.
  fold (window_ns p). rewrite i64_small by (unfold window_ns, nanos_per_milli in *; lia). cbn.
  rewrite (proj2 (Z.leb_gt _ _)); [done|]. unfold window_ns, nanos_per_milli. lia.
Qed.

(** Times of a clock that has run for less than 73 years, in order. *)
Definition clock_times (times : list Z) : Prop :=
  StronglySorted Z.le times /\ Forall (fun t => 0 <= t < 2 ^ 61) times.

Lemma clock_times_cons now times : clock_times (now :: times) ->
  0 <= now < 2 ^ 61 /\ Forall (Z.le now) times /\ clock_times times.
Proof.
  intros [S F]. apply StronglySorted_inv in S as [S1 S2]. apply Forall_cons in F as [F1 F2].
  split_and!; [lia|lia|done|by split].
Qed.

(** ** The sliding window *)

(** Requests less than a window old. *)
Definition recent (w now : Z) (l : list Z) : list Z := List.filter (fun t => now - t <? w) l.

(** The reference: admit when fewer than [lim] admitted requests are recent. *)
Fixpoint sliding_spec (lim w : Z) (hist times : list Z) : list bool :=
  match times with
  | [] => []
  | now :: r =>
      let ok := len (recent w now hist) <? lim in
      ok :: sliding_spec lim w (if ok then hist ++ [now] else hist) r
  end.

Lemma pop_expired_recent now w l : 0 <= now < 2 ^ 61 -> StronglySorted Z.le l ->
  Forall (fun t => 0 <= t <= now) l -> pop_expired now w l = inr (recent w now l).
Proof.
  intros N. induction l as [|t l IH]; intros S F; [done|].
  apply StronglySorted_inv in S as [S1 S2]. apply Forall_cons in F as [F1 F2].
  cbn [pop_expired]. rewrite (proj2 (Z.ltb_ge _ _)), i64_small by lia. cbn [result_bind recent List.filter].
  destruct (Z.ltb_spec (now - t) w) as [H|H].
  - rewrite (proj2 (Z.leb_gt _ _)) by lia. f_equal. f_equal. clear -H S2 F2.
    symmetry. apply forallb_filter_id, forallb_forall. intros x Hx. apply Z.ltb_lt.
    rewrite List.Forall_forall in S2. specialize (S2 x Hx). lia.
  - rewrite (proj2 (Z.leb_le _ _)) by lia. by apply IH.
Qed.

Lemma recent_recent w now prev l : prev <= now -> recent w now (recent w prev l) = recent w now l.
Proof.
  intros L. induction l as [|t l IH]; [done|]. cbn [recent List.filter]. fold (recent w prev l).
  destruct (Z.ltb_spec (prev - t) w); cbn [List.filter]; fold (recent w now l) (recent w now (recent w prev l)).
  - by rewrite IH.
  - rewrite (proj2 (Z.ltb_ge _ _)) by lia. done.
Qed.

Lemma sorted_snoc (l : list Z) x : StronglySorted Z.le l -> Forall (fun t => t <= x) l -> StronglySorted Z.le (l ++ [x]).
Proof.
  induction l as [|y l IH]; intros S F; [repeat constructor|]. apply StronglySorted_inv in S as [S1 S2].
  apply Forall_cons in F as [F1 F2]. rewrite <- app_comm_cons. constructor; [by apply IH|].
  apply Forall_app. split; [done|]. by constructor.
Qed.

Lemma recent_sorted w now l : StronglySorted Z.le l -> StronglySorted Z.le (recent w now l).
Proof.
  induction 1 as [|t l S IH F]; [constructor|]. cbn [recent List.filter]. fold (recent w now l).
  case_goal; [|done]. constructor; [done|]. apply List.Forall_forall. intros x Hx.
  apply List.filter_In in Hx as [Hx _]. rewrite List.Forall_forall in F. by apply F.
Qed.

Lemma recent_Forall w now (P : Z -> Prop) l : Forall P l -> Forall P (recent w now l).
Proof.
  rewrite !List.Forall_forall. intros F x Hx. apply List.filter_In in Hx as [Hx _]. by apply F.
Qed.

Definition requests_of (s : State) : list Z := match s with SlidingWindowState r => r | _ => [] end.

(** One request of the sliding window. *)
Lemma acquire_sliding_step p now s hist prev : usable p -> algorithm p = SlidingWindow ->
  0 <= now < 2 ^ 61 -> StronglySorted Z.le hist -> Forall (fun t => 0 <= t <= prev) hist -> prev <= now ->
  requests_of s = recent (window_ns p) prev hist ->
  exists e r, acquire_entry (mkEntry (algorithm p) s now) p now = inr (e, r) /\
    allowed r = (len (recent (window_ns p) now hist) <? limit p) /\
    requests_of (e_state e) =
      recent (window_ns p) now (if allowed r then hist ++ [now] else hist).
Proof.
  intros U A N S F L R. unfold acquire_entry. rewrite A. unfold acquire_sliding_window.
  rewrite (usable_window p U). cbn [result_bind]. cbn [e_state]. fold (requests_of s). rewrite R.
  rewrite pop_expired_recent; [|done|by apply recent_sorted|apply recent_Forall; eapply Forall_impl; [exact F|]; cbn; lia].
  cbn [result_bind]. rewrite recent_recent by done. destruct U as (_ & Hl & Hp & Hw).
  destruct (Z.leb_spec (limit p) (len (recent (window_ns p) now hist))) as [H|H].
  - destruct (recent (window_ns p) now hist) as [|t l] eqn:E; [rewrite len_nil in H; lia|].
    assert (0 <= t <= prev /\ now - t < window_ns p) as [Ht Hn].
    { assert (In t (recent (window_ns p) now hist)) as Hi by (rewrite E; by left).
      apply List.filter_In in Hi as [Hi Hr]. to_prop. rewrite List.Forall_forall in F. specialize (F t Hi). lia. }
    rewrite i64_small by lia. cbn [result_bind]. rewrite i64_small by lia. cbn [result_bind].
    do 2 eexists. split; [done|]. cbn. rewrite (proj2 (Z.ltb_ge _ _)) by done. done.
  - do 2 eexists. split; [done|]. cbn. rewrite (proj2 (Z.ltb_lt _ _)) by done. split; [done|].
    unfold recent. rewrite List.filter_app. cbn. rewrite (proj2 (Z.ltb_lt _ _)); [done|].
    unfold window_ns, nanos_per_milli. lia.
Qed.

Lemma serve_sliding p times s hist prev : usable p -> algorithm p = SlidingWindow -> clock_times times ->
  StronglySorted Z.le hist -> Forall (fun t => 0 <= t <= prev) hist -> Forall (Z.le prev) times ->
  requests_of s = recent (window_ns p) prev hist ->
  serve_state p times s = inr (sliding_spec (limit p) (window_ns p) hist times).
Proof.
  intros U A. revert s hist prev. induction times as [|now times IH]; intros s hist prev C S F L R; [done|].
  apply clock_times_cons in C as (N & Hn & C). apply Forall_cons in L as [L _].
  destruct (acquire_sliding_step p now s hist prev U A N S F L R) as (e & r & E & Ok & R').
  cbn [serve_state sliding_spec]. rewrite E. cbn [result_bind fst snd]. rewrite <- Ok.
  assert (Forall (fun t => 0 <= t <= now) hist) as F' by (eapply Forall_impl; [exact F|]; cbn; lia).
  rewrite (IH (e_state e) (if allowed r then hist ++ [now] else hist) now); [done|done| | |done|done].
  - destruct (allowed r); [|done]. apply sorted_snoc; [done|]. eapply Forall_impl; [exact F'|]. cbn. lia.
  - destruct (allowed r); [|done]. apply Forall_app. split; [done|]. repeat constructor; lia.
Qed.

(** The requests of a list in a half-open interval. *)
Definition between (a b : Z) (l : list Z) : list Z := List.filter (fun t => (a <=? t) && (t <? b)) l.

Lemma len_filter_le {A} (p q : A -> bool) l : (forall x, In x l -> p x = true -> q x = true) ->
  len (List.filter p l) <= len (List.filter q l).
Proof.
  induction l as [|x l IH]; intros H; [done|]. cbn [List.filter].
  assert (len (List.filter p l) <= len (List.filter q l)) by (apply IH; intros y Hy; apply H; by right).
  destruct (p x) eqn:Px; [rewrite (H x ltac:(by left) Px); len_lia|]. destruct (q x); len_lia.
Qed.

Lemma admitted_cons now times ok answers :
  admitted (now :: times) (ok :: answers) = (if ok : bool then [now] else []) ++ admitted times answers.
Proof. unfold admitted. cbn. by destruct ok. Qed.

Lemma sliding_spec_bound lim w hist times : 0 < w -> clock_times times ->
  Forall (fun h => Forall (Z.le h) times) hist ->
  (forall a, len (between a (a + w) hist) <= lim) ->
  forall a, len (between a (a + w) (hist ++ admitted times (sliding_spec lim w hist times))) <= lim.
Proof.
  intros W. revert hist. induction times as [|now times IH]; intros hist C F B.
  - intros a. unfold admitted. cbn. rewrite app_nil_r. apply B.
  - apply clock_times_cons in C as (N & Hn & C). cbn [sliding_spec]. rewrite admitted_cons.
    assert (Forall (fun h => h <= now /\ Forall (Z.le h) times) hist) as F'.
    { eapply Forall_impl; [exact F|]. cbn. intros h Hh. by apply Forall_cons in Hh as [? ?]. }
    destruct (Z.ltb_spec (len (recent w now hist)) lim) as [H|H].
    + rewrite app_assoc. apply IH; [done| |].
      * apply Forall_app. split; [eapply Forall_impl; [exact F'|]; cbn; tauto|by repeat constructor].
      * intros a. unfold between. rewrite List.filter_app, len_app. cbn [List.filter].
        destruct ((a <=? now) && (now <? a + w)) eqn:I; [|rewrite len_nil; specialize (B a); unfold between in B; lia].
        to_prop. rewrite len_cons, len_nil.
        enough (len (List.filter (fun t => (a <=? t) && (t <? a + w)) hist) <= len (recent w now hist)) by lia.
        apply len_filter_le. intros x _ Hx. to_prop. apply Z.ltb_lt. lia.
    + apply IH; [done|eapply Forall_impl; [exact F'|]; cbn; tauto|done].
Qed.

(** [C21] A sliding-window policy (window below 73 years, on a clock that has run for
    less), served by the in-memory store for a client it does not hold yet, in any
    interleaving with the requests of other clients and policies, as long as all
    their keys fit in the store: it never fails, admits exactly the requests the
    definition of a sliding window admits (fewer than [limit] admitted requests are
    younger than a window), and in no interval as long as a window admits more than
    [limit] requests. *)
Theorem sliding_window_correct c key p entries asks
  (Hp : usable p) (Ha : algorithm p = SlidingWindow) (Hpolicy : same_policy p (normalized_key p key) asks)
  (Ht : clock_times (times_of (normalized_key p key) asks))
  (Hkey : entries !! normalized_key p key = None) (Hroom : roomy c asks entries) :
  let times := times_of (normalized_key p key) asks in
  let answers := sliding_spec (limit p) (window_ns p) [] times in
  serve c (normalized_key p key) asks entries = inr answers /\
  forall a, len (between a (a + window_ns p) (admitted times answers)) <= limit p.
Proof.
  cbn zeta. split.
  - rewrite (serve_alone c key p asks entries default_state); [|by apply usable_valid|done|done|by left].
    apply (serve_sliding p _ default_state [] 0); [done|done|done|constructor|constructor| |done].
    eapply Forall_impl; [apply Ht|]. cbn. lia.
  - destruct Hp as (_ & Hl & Hw & _).
    apply (sliding_spec_bound (limit p) (window_ns p) [] _); [unfold window_ns, nanos_per_milli; lia|done|constructor|].
    intros a. change (0 <= limit p). lia.
Qed.

(** ** GCRA *)

Definition capacity (p : RateLimitPolicy) : Z := if burst p =? 0 then limit p else burst p.

(** The time one request is worth. *)
Definition interval_ns (p : RateLimitPolicy) : Z := window_ns p / limit p.

(** A usable policy whose whole burst is worth at most 73 years. *)
Definition gcra_usable (p : RateLimitPolicy) : Prop :=
  usable p /\ algorithm p = Gcra /\ limit p <= window_ns p /\ 0 <= burst p < 2 ^ 63 /\
  interval_ns p * capacity p < 2 ^ 61.

Definition arrival_of (now : Z) (s : State) : Z := match s with GcraState t => t | _ => now end.

Lemma gcra_numbers p : gcra_usable p ->
  Z.quot (window_ns p) (to_rep (limit p)) = interval_ns p /\ 0 < interval_ns p < 2 ^ 61 /\
  0 < capacity p /\ to_rep (capacity p - 1) = capacity p - 1 /\ burst_capacity p = inr (capacity p).
Proof.
  intros (U & _ & L & B & K). pose proof U as (_ & Hl & Hw & Hb).
  assert (0 < capacity p < 2 ^ 63) by (unfold capacity; case_goal; to_prop; lia).
  assert (forall z, 0 <= z < 2 ^ 63 -> to_rep z = z) as T.
  { intros z Hz. unfold to_rep. rewrite wrap64_small by (unfold in_u64; lia). by rewrite (proj2 (Z.ltb_lt _ _)) by lia. }
  rewrite !T by lia. rewrite Z.quot_div_nonneg by (unfold window_ns, nanos_per_milli in *; lia).
  assert (0 < interval_ns p) by (apply Z.div_str_pos; lia).
  split_and!; [done|done|nia|lia|done|]. unfold burst_capacity. by rewrite usable_valid.
Qed.

(** One request of a GCRA policy, with the arrival [T] the state holds. *)
Lemma acquire_gcra_step p now s : gcra_usable p -> 0 <= now < 2 ^ 61 ->
  0 <= arrival_of now s < 2 ^ 62 ->
  let T := arrival_of now s in
  let ok := T - interval_ns p * (capacity p - 1) <=? now in
  exists e r, acquire_entry (mkEntry (algorithm p) s now) p now = inr (e, r) /\ allowed r = ok /\
    e_state e = GcraState (if ok then Z.max T now + interval_ns p else T).
Proof.
  intros G N A. cbn zeta. destruct (gcra_numbers p G) as (E1 & I & C & E2 & E3).
  destruct G as (U & Ga & _ & _ & K). unfold acquire_entry. rewrite Ga. unfold acquire_gcra.
  rewrite usable_window by done. cbn [result_bind]. rewrite E1, E3.
  rewrite (proj2 (Z.leb_gt _ _)) by lia. cbn [result_bind]. rewrite E2, i64_small by nia. cbn [result_bind e_state].
  fold (arrival_of now s). rewrite i64_small by nia. cbn [result_bind].
  destruct (Z.leb_spec (arrival_of now s - interval_ns p * (capacity p - 1)) now) as [H|H].
  - rewrite (proj2 (Z.ltb_ge _ _)) by done. rewrite i64_small by nia. cbn [result_bind].
    rewrite (proj2 (Z.ltb_lt _ _)) by lia. rewrite i64_small by nia. cbn [result_bind].
    do 2 eexists. split; [done|]. by case_goal.
  - rewrite (proj2 (Z.ltb_lt _ _)) by done. rewrite i64_small by nia. cbn [result_bind]. by do 2 eexists.
Qed.

(** The algorithm on its one number. *)
Fixpoint gcra_spec (interval burst : Z) (T : option Z) (times : list Z) : list bool :=
  match times with
  | [] => []
  | now :: r =>
      let T := default now T in
      let ok := T - interval * (burst - 1) <=? now in
      ok :: gcra_spec interval burst (Some (if ok then Z.max T now + interval else T)) r
  end.

Definition arrival_option (s : State) : option Z := match s with GcraState t => Some t | _ => None end.

Lemma serve_gcra p times s : gcra_usable p -> clock_times times ->
  match arrival_option s with Some T => 0 <= T < 2 ^ 62 | None => True end ->
  serve_state p times s = inr (gcra_spec (interval_ns p) (capacity p) (arrival_option s) times).
Proof.
  intros G. revert s. induction times as [|now times IH]; intros s C B; [done|].
  apply clock_times_cons in C as (N & Hn & C).
  assert (default now (arrival_option s) = arrival_of now s) as E by (by destruct s).
  assert (0 <= arrival_of now s < 2 ^ 62) as A by (destruct s; cbn in *; lia).
  destruct (acquire_gcra_step p now s G N A) as (e & r & Q & Ok & S).
  cbn [serve_state gcra_spec]. rewrite Q, E. cbn [result_bind fst snd]. rewrite IH; [|done|].
  - cbn [result_bind]. by rewrite Ok, S.
  - rewrite S. cbn. destruct (gcra_numbers p G) as (_ & I & Cp & _). destruct G as (_ & _ & _ & _ & K).
    case_goal; to_prop; [nia|lia].
Qed.

(** Every admitted request after [a] pushed the arrival by an interval. *)
Definition pushed (interval T : Z) (hist : list Z) : Prop :=
  forall a, let k := len (List.filter (fun t => a <=? t) hist) in k = 0 \/ a + k * interval <= T.

Lemma gcra_spec_bound interval b T hist times : 0 < interval -> 0 < b -> StronglySorted Z.le times ->
  Forall (fun h => Forall (Z.le h) times) hist -> pushed interval T hist ->
  (forall lo hi, lo <= hi -> len (between lo (hi + 1) hist) <= b + (hi - lo) / interval) ->
  forall lo hi, lo <= hi ->
  len (between lo (hi + 1) (hist ++ admitted times (gcra_spec interval b (Some T) times))) <= b + (hi - lo) / interval.
Proof.
  intros I Hb. revert T hist. induction times as [|now times IH]; intros T hist S F P B lo hi L.
  - unfold admitted. cbn. rewrite app_nil_r. by apply B.
  - apply StronglySorted_inv in S as [S1 S2]. cbn [gcra_spec]. change (default now (Some T)) with T. cbv zeta. rewrite admitted_cons.
    assert (Forall (fun h => h <= now /\ Forall (Z.le h) times) hist) as F'.
    { eapply Forall_impl; [exact F|]. cbn. intros h Hh. by apply Forall_cons in Hh as [? ?]. }
    destruct (Z.leb_spec (T - interval * (b - 1)) now) as [H|H].
    + rewrite app_assoc. apply IH; [done| | | |done].
      * apply Forall_app. split; [eapply Forall_impl; [exact F'|]; cbn; tauto|constructor; [done|constructor]].
      * intros a. cbn zeta. rewrite List.filter_app, len_app. cbn [List.filter].
        destruct (Z.leb_spec a now) as [La|La].
        -- right. rewrite len_cons, len_nil. destruct (P a) as [->|Pa]; [lia|]. nia.
        -- left. rewrite len_nil. enough (List.filter (fun t => a <=? t) hist = []) as -> by done.
           clear -F' La. induction hist as [|h hist IHh]; [done|]. apply Forall_cons in F' as [[F1 _] F2]. cbn.
           rewrite (proj2 (Z.leb_gt _ _)) by lia. by apply IHh.
      * clear lo hi L. intros lo hi L. unfold between. rewrite List.filter_app, len_app. cbn [List.filter].
        destruct ((lo <=? now) && (now <? hi + 1)) eqn:Q; [|rewrite len_nil; specialize (B lo hi L); unfold between in B; lia].
        to_prop. rewrite len_cons, len_nil.
        assert (len (List.filter (fun t => (lo <=? t) && (t <? hi + 1)) hist) <= len (List.filter (fun t => lo <=? t) hist)) as Le
          by (apply len_filter_le; intros x _ Hx; to_prop; by apply Z.leb_le).
        assert (0 <= (hi - lo) / interval) by (apply Z.div_pos; lia).
        destruct (P lo) as [Z0|P0]; cbn zeta in *; [lia|].
        set (k := len (List.filter (fun t => lo <=? t) hist)) in *.
        assert (k - (b - 1) <= (hi - lo) / interval) by (apply Z.div_le_lower_bound; [done|]; nia). lia.
    + apply IH; [done|eapply Forall_impl; [exact F'|]; cbn; tauto|done|done|done].
Qed.

(** Requests at least an interval apart are all admitted. *)
Lemma gcra_spec_live interval b T times : 0 < interval -> 0 < b ->
  Sorted (fun x y => x + interval <= y) times -> match times with now :: _ => T <= now | [] => True end ->
  gcra_spec interval b (Some T) times = map (fun _ => true) times.
Proof.
  intros I Hb. revert T. induction times as [|now times IH]; intros T S L; [done|]. cbn.
  rewrite (proj2 (Z.leb_le _ _)) by nia. f_equal. apply Sorted_inv in S as [S1 S2]. apply IH; [done|].
  destruct times as [|next times]; [done|]. apply HdRel_inv in S2. lia.
Qed.

(** [C22] A GCRA policy whose window has at least [limit] nanoseconds and whose burst is
    worth less than 73 years, served by the in-memory store for a client it does not
    hold yet, in any interleaving with the requests of other clients and policies,
    as long as all their keys fit in the store: it never fails; between any two
    instants it admits at most the burst plus one request for every interval
    ([window / limit]) between them; and a client that waits an interval after each
    request is always admitted. *)
Theorem gcra_correct c key p entries asks
  (Hp : gcra_usable p) (Hpolicy : same_policy p (normalized_key p key) asks)
  (Ht : clock_times (times_of (normalized_key p key) asks))
  (Hkey : entries !! normalized_key p key = None) (Hroom : roomy c asks entries) :
  let times := times_of (normalized_key p key) asks in
  exists answers, serve c (normalized_key p key) asks entries = inr answers /\
  (forall lo hi, lo <= hi ->
     len (between lo (hi + 1) (admitted times answers)) <= capacity p + (hi - lo) / interval_ns p) /\
  (Sorted (fun x y => x + interval_ns p <= y) times -> answers = map (fun _ => true) times).
Proof.
  cbn zeta. destruct (gcra_numbers p Hp) as (_ & I & C & _). destruct I as [I _].
  pose proof (usable_valid p (proj1 Hp)) as V.
  rewrite (serve_alone c key p asks entries default_state) by (done || by left).
  clear Hpolicy Hkey Hroom. revert Ht. generalize (times_of (normalized_key p key) asks). intros times Ht.
  exists (gcra_spec (interval_ns p) (capacity p) None times). split_and!.
  - by rewrite (serve_gcra p times default_state).
  - assert (gcra_spec (interval_ns p) (capacity p) None times = gcra_spec (interval_ns p) (capacity p) (Some (hd 0 times)) times)
      as -> by (by destruct times).
    apply (gcra_spec_bound (interval_ns p) (capacity p) (hd 0 times) [] times I C); [apply Ht|constructor|by left|].
    intros lo hi L. change (0 <= capacity p + (hi - lo) / interval_ns p). assert (0 <= (hi - lo) / interval_ns p) by (apply Z.div_pos; lia). lia.
  - intros S. destruct times as [|now times]; [done|]. cbn [gcra_spec default].
    change (gcra_spec (interval_ns p) (capacity p) (Some now) (now :: times) = map (fun _ => true) (now :: times)).
    by apply gcra_spec_live.
Qed.

(** ** The store *)

(** The key a client is counted under. *)
Definition user_key (key : bytes) : bytes := if len key =? 0 then bs "anonymous" else key.

(** The length in front of the policy's name keeps the keys of policies apart. *)
Lemma normalized_key_inj p1 k1 p2 k2 : normalized_key p1 k1 = normalized_key p2 k2 ->
  name p1 = name p2 /\ user_key k1 = user_key k2.
Proof.
  unfold normalized_key. fold (user_key k1) (user_key k2).
  set (n1 := len (name p1)). set (n2 := len (name p2)). intros E.
  assert (forall n, 0 <= n -> ":"%char ∉ to_dec n) as NC.
  { intros n Hn Hi. pose proof (to_dec_isdigit n Hn) as D. rewrite Forall_forall in D. by specialize (D _ Hi). }
  assert (0 <= n1 /\ 0 <= n2) as [H1 H2] by (unfold n1, n2; len_lia).
  assert (to_dec n1 = to_dec n2) as Ed.
  { pose proof (find_char_app ":"%char (to_dec n1) (name p1 ++ user_key k1) (NC n1 H1)) as F1.
    pose proof (find_char_app ":"%char (to_dec n2) (name p2 ++ user_key k2) (NC n2 H2)) as F2.
    change (bs ":" ++ ?x) with (":"%char :: x) in E. rewrite E, F2 in F1. simplify_eq.
    apply (f_equal (take (length (to_dec n1)))) in E. rewrite take_app_length in E.
    rewrite <- F1, take_app_length in E. done. }
  assert (n1 = n2) as En.
  { destruct (to_dec_spec n1 H1) as (_ & _ & D1). destruct (to_dec_spec n2 H2) as (_ & _ & D2). congruence. }
  rewrite Ed in E. apply app_inv_head in E. apply app_inv_head in E.
  unfold n1, n2, len in En. apply app_inj_1 in E; [done|lia].
Qed.

Lemma prune_lookup c now entries k :
  prune_idle c now entries !! k = entries !! k \/
  (prune_idle c now entries !! k = None /\
   exists e, entries !! k = Some e /\ idle_ttl c <= now - e_updated_at e).
Proof.
  unfold prune_idle. destruct (entries !! k) as [e|] eqn:E.
  - destruct (decide (e_updated_at e <= now /\ idle_ttl c <= now - e_updated_at e)) as [D|D].
    + right. split; [|exists e; tauto]. apply map_lookup_filter_None. right. intros e' E' N. simplify_eq. by apply N.
    + left. apply map_lookup_filter_Some. by split.
  - left. apply map_lookup_filter_None. by left.
Qed.

(** What one request leaves in the store: the entry of its own key, in the
    table as it was or as it was pruned. *)
Lemma acquire_shape c key p now entries :
  let entries' := snd (acquire c key p now entries) in
  let k := normalized_key p key in
  let pruned := prune_idle c now entries in
  entries' = entries \/
  (exists e, entries' = <[k := e]> entries /\ (is_Some (entries !! k) \/ Z.of_nat (size entries) < max_keys c)) \/
  (max_keys c <= Z.of_nat (size entries) /\
   (entries' = pruned \/ exists e, entries' = <[k := e]> pruned /\ Z.of_nat (size pruned) < max_keys c)).
Proof.
  cbn zeta. unfold acquire. destruct (validate_policy p) as [x|[]]; [by left|].
  destruct (entries !! normalized_key p key) as [e|] eqn:E.
  - right. left. destruct (acquire_entry _ p now) as [x|[e' r]]; eexists; (split; [done|by left]).
  - destruct (Z.leb_spec (max_keys c) (Z.of_nat (size entries))) as [L|L].
    + right. right. split; [done|]. destruct (Z.leb_spec (max_keys c) (Z.of_nat (size (prune_idle c now entries)))) as [L'|L']; [by left|].
      right. destruct (acquire_entry _ p now) as [x|[e' r]]; by eexists.
    + right. left. destruct (acquire_entry _ p now) as [x|[e' r]]; eexists; (split; [done|by right]).
Qed.

Lemma size_insert_bound (m : gmap bytes Entry) k e n :
  is_Some (m !! k) /\ Z.of_nat (size m) <= n \/ Z.of_nat (size m) < n -> Z.of_nat (size (<[k := e]> m)) <= n.
Proof.
  intros H. destruct (m !! k) eqn:E.
  - rewrite map_size_insert_Some by done. lia.
  - rewrite map_size_insert_None by done. destruct H as [[[? ?] _]|H]; [done|lia].
Qed.

(** A request never makes the store hold more than [max_keys]
    clients, and it touches no other client: the entry of another policy name
    or another key stays as it is, unless the store was full and that entry
    had been idle for the configured time, when it may be dropped. *)
Theorem acquire_isolated c key p now entries (Hsize : Z.of_nat (size entries) <= max_keys c) :
  let entries' := snd (acquire c key p now entries) in
  Z.of_nat (size entries') <= max_keys c /\
  forall p' key', (name p', user_key key') <> (name p, user_key key) ->
    let k := normalized_key p' key' in
    entries' !! k = entries !! k \/
    (entries' !! k = None /\ max_keys c <= Z.of_nat (size entries) /\
     exists e, entries !! k = Some e /\ idle_ttl c <= now - e_updated_at e).
Proof.
  cbn zeta. pose proof (acquire_shape c key p now entries) as S. cbn zeta in S.
  assert (forall p' key', (name p', user_key key') <> (name p, user_key key) ->
    normalized_key p key <> normalized_key p' key') as N.
  { intros p' key' Ne E. apply normalized_key_inj in E as [E1 E2]. apply Ne. congruence. }
  assert (Z.of_nat (size (prune_idle c now entries)) <= Z.of_nat (size entries)) as P.
  { apply Nat2Z.inj_le, map_subseteq_size, map_filter_subseteq. }
  destruct S as [->|[(e & -> & R)|(F & [->|(e & -> & R)])]]; (split; [|intros p' key' Ne]).
  - done.
  - by left.
  - apply size_insert_bound. destruct R as [R|R]; [by left|by right].
  - left. apply lookup_insert_ne. by apply N.
  - lia.
  - destruct (prune_lookup c now entries (normalized_key p' key')) as [->|[-> X]]; [by left|by right].
  - apply size_insert_bound. by right.
  - rewrite lookup_insert_ne by (by apply N).
    destruct (prune_lookup c now entries (normalized_key p' key')) as [->|[-> X]]; [by left|by right].
Qed.

(** ** Concrete policies *)

(** Two requests per second. *)
Definition two_per_second : RateLimitPolicy := mkPolicy (bs "api") SlidingWindow 2 1000 0.
Definition small_store : Config := mkConfig 2 (600 * nanos_per_second).
Definition second : Z := nanos_per_second.

(** Requests of one client at the given times. *)
Definition asking (key : string) (p : RateLimitPolicy) (times : list Z) : list Ask := map (mkAsk (bs key) p) times.

(** Bob asks, and Eve in between. *)
Definition two_clients (p : RateLimitPolicy) : list Ask :=
  [mkAsk (bs "bob") p 0; mkAsk (bs "bob") p 1; mkAsk (bs "eve") p 1; mkAsk (bs "bob") p 2;
   mkAsk (bs "bob") p second; mkAsk (bs "eve") p second].

Lemma two_clients_same p : same_policy p (normalized_key p (bs "bob")) (two_clients p).
Proof. by repeat constructor. Qed.

Lemma sliding_window_correct_witness :
  serve small_store (normalized_key two_per_second (bs "bob")) (two_clients two_per_second) ∅ = inr [true; true; false; true] /\
  forall a, len (between a (a + second) (admitted [0; 1; 2; second] [true; true; false; true])) <= 2.
Proof.
  apply (sliding_window_correct small_store (bs "bob") two_per_second ∅ (two_clients two_per_second));
    [repeat split; vm_compute; congruence|done|apply two_clients_same| |done|vm_compute; congruence].
  split; [repeat constructor; vm_compute; congruence|]. repeat constructor; vm_compute; congruence.
Defined.

(** Two per second as GCRA, with a burst of three. *)
Definition smooth : RateLimitPolicy := mkPolicy (bs "api") Gcra 2 1000 3.

Lemma gcra_correct_witness :
  serve small_store (normalized_key smooth (bs "bob")) (two_clients smooth) ∅ = inr [true; true; true; true] /\
  exists answers, serve small_store (normalized_key smooth (bs "bob")) (two_clients smooth) ∅ = inr answers /\
  (forall lo hi, lo <= hi ->
     len (between lo (hi + 1) (admitted [0; 1; 2; second] answers)) <= capacity smooth + (hi - lo) / interval_ns smooth).
Proof.
  split; [by vm_compute|].
  destruct (gcra_correct small_store (bs "bob") smooth ∅ (two_clients smooth)) as (answers & E & B & _);
    [repeat split; vm_compute; congruence|apply two_clients_same|split; repeat constructor; vm_compute; congruence|done|vm_compute; congruence|].
  exists answers. exact (conj E B).
Defined.

Lemma acquire_isolated_witness :
  let entries := snd (acquire small_store (bs "bob") smooth 5 ∅) in
  Z.of_nat (size entries) <= max_keys small_store /\
  let entries' := snd (acquire small_store (bs "eve") smooth 6 entries) in
  entries' !! normalized_key smooth (bs "bob") = entries !! normalized_key smooth (bs "bob") /\
  Z.of_nat (size entries') <= max_keys small_store.
Proof.
  cbn zeta. assert (Z.of_nat (size (snd (acquire small_store (bs "bob") smooth 5 ∅))) <= max_keys small_store) as S
    by (vm_compute; congruence).
  split; [done|]. destruct (acquire_isolated small_store (bs "eve") smooth 6 _ S) as [B I]. split; [|exact B].
  destruct (I smooth (bs "bob") ltac:(by vm_compute)) as [E|[_ [F _]]]; [exact E|]. exfalso. revert F. by vm_compute.
Defined.

(** A token bucket starts without tokens at the epoch of the clock, not full
    at the first request: on a machine that has been up for ten minutes, the
    first request of every client of a one-per-hour policy is refused. *)
Lemma fresh_token_bucket_refused :
  let hourly := mkPolicy (bs "api") TokenBucket 1 3600000 0 in
  let k := normalized_key hourly (bs "bob") in
  serve small_store k (asking "bob" hourly [600 * second]) ∅ = inr [false] /\
  serve small_store k (asking "bob" hourly [3600 * second]) ∅ = inr [true].
Proof. by vm_compute. Qed.

(** A full store drops entries idle for [idle_ttl] though their window is
    still running: with two other clients, a client of a two-per-hour policy
    gets a fresh quota after ten minutes. *)
Lemma pruning_forgets_the_window :
  let hourly := mkPolicy (bs "api") SlidingWindow 2 3600000 0 in
  let ask key now entries := acquire small_store key hourly now entries in
  let s1 := snd (ask (bs "bob") 0 ∅) in
  let s2 := snd (ask (bs "bob") 1 s1) in
  let s3 := snd (ask (bs "x") 2 s2) in
  let s4 := snd (ask (bs "y") (601 * second) s3) in
  fst (ask (bs "bob") (602 * second) s3) = inr (mkResult false 0 2998) /\
  fst (ask (bs "bob") (602 * second) s4) = inr (mkResult true 1 0).
Proof. by vm_compute. Qed.

(** ** The middleware *)

(** Against any store: a refused request is answered with the configured
    status and the rate headers and never reaches the rest of the pipeline, an
    admitted one reaches it with the headers in place, and an exception of the
    store passes through. *)
Lemma handle_outcome {W} `{RateLimitStore W} cfg (next : M W ()) x :
  path_allowed (allowlist_paths cfg) (Request.path_ (request x)) = false ->
  let key := user_key (key_resolver cfg (request x) (context x)) in
  len key <= max_key_length cfg ->
  match store_acquire key (policy cfg) (world x) with
  | (inl e, w) => handle cfg next x = (inl e, mkEx (request x) (response x) (context x) w)
  | (inr r, w) =>
      let published := publish_headers cfg r (response x) in
      handle cfg next x =
        if allowed r then next (mkEx (request x) published (context x) w)
        else (inr (), mkEx (request x)
                (Response.json (rejected_body cfg) (Response.status (rejected_status cfg) published)) (context x) w)
  end.
Proof.
  cbn zeta. intros P L. unfold handle. do 2 (erewrite bind_ok by done; rewrite ?P).
  fold (user_key (key_resolver cfg (request x) (context x))). rewrite (proj2 (Z.ltb_ge _ _)) by lia.
  destruct (store_acquire _ _ _) as [[e|r] w] eqn:E.
  - apply bind_throw. unfold on_world. by rewrite E.
  - erewrite bind_ok; [|unfold on_world; by rewrite E]. erewrite bind_ok by done. by destruct (allowed r).
Qed.
