(* ===== verification/ConcurrencyLimit.v ===== *)
(** * Limiting concurrent requests: [middleware/concurrency_limit_middleware.*]

    The permits of the middleware: taken when a request enters, given back by
    a destructor when the rest of the pipeline returned or threw.  Requests of
    several threads interleave between the two. *)

From S2P Require Import Prelude CxxString HttpMessage Middleware.
Import Middleware.
Open Scope exchange_scope.

Module ConcurrencyLimit.

Record Config := mkConfig {
  max_concurrent : Z;
  max_keys : Z;
  key_resolver : Request.t -> Context.t -> bytes;
  allowlist_paths : list bytes;
  max_key_length : Z;
  rejected_status : Z;
  rejected_body : bytes
}.

Definition valid_config (c : Config) : result Exn () :=
  if (max_concurrent c =? 0) || (max_keys c =? 0) || (max_key_length c =? 0) then
    inl (InvalidArgument (bs "Concurrency limiting requires positive limits and a key resolver"))
  else inr ().

Definition global_key (_ : Request.t) (_ : Context.t) : bytes := bs "global".

Definition client_address_key (r : Request.t) (_ : Context.t) : bytes :=
  if len (Request.client_address_ r) =? 0 then bs "anonymous" else bs "ip:" ++ Request.client_address_ r.

(** [try_acquire]: whether there is a permit, and the counts. *)
Definition try_acquire (c : Config) (key : bytes) (active_ : gmap bytes Z) : bool * gmap bytes Z :=
  match active_ !! key with
  | None =>
      if max_keys c <=? Z.of_nat (size active_) then (false, active_)
      else (true, <[key := 1]> active_)
  | Some n =>
      if max_concurrent c <=? n then (false, active_)
      else (true, <[key := n + 1]> active_)
  end.

Definition release (key : bytes) (active_ : gmap bytes Z) : gmap bytes Z :=
  match active_ !! key with
  | None => active_
  | Some n => if n <=? 1 then delete key active_ else <[key := n - 1]> active_
  end.

(** The permit's destructor. *)
Definition drop_permit {W} `{Part (gmap bytes Z) W} (key : bytes) (x : Exchange W) : Exchange W :=
  mkEx (request x) (response x) (context x) (set_part (release key (part (world x))) (world x)).

Definition handle {W} `{Part (gmap bytes Z) W} (c : Config) : Middleware.t W := fun next =>
  do request <- get_request;
  if path_allowed (allowlist_paths c) (Request.path_ request) then next
  else
    do context <- get_context;
    let key := key_resolver c request context in
    let key := if len key =? 0 then bs "anonymous" else key in
    if max_key_length c <? len key then
      on_response (fun r => Response.json
        (js "{'error':'Bad Request','message':'Concurrency key is too long'}") (Response.status 400 r))
    else
      do permit <- on_world (fun w => let '(ok, a) := try_acquire c key (part w) in (inr ok, set_part a w));
      if negb permit then
        on_response (fun r => Response.json (rejected_body c) (Response.status (rejected_status c) r))
      else finally next (drop_permit key).

(** ** The requests in flight *)

(** The counts and the keys of the requests that hold a permit. *)
Inductive step (c : Config) : gmap bytes Z * list bytes -> gmap bytes Z * list bytes -> Prop :=
| step_enter key a a' l : try_acquire c key a = (true, a') -> step c (a, l) (a', key :: l)
| step_refuse key a a' l : try_acquire c key a = (false, a') -> step c (a, l) (a', l)
| step_leave key a l1 l2 : step c (a, l1 ++ key :: l2) (release key a, l1 ++ l2).

Definition holding (key : bytes) (l : list bytes) : Z := len (List.filter (fun x => bool_decide (x = key)) l).

Record permits_inv (c : Config) (a : gmap bytes Z) (l : list bytes) : Prop := {
  pi_counts : forall k, a !! k = if holding k l =? 0 then None else Some (holding k l);
  pi_bound : forall k, holding k l <= max_concurrent c;
  pi_keys : Z.of_nat (size a) <= max_keys c
}.

Lemma holding_nonneg k l : 0 <= holding k l.
Proof. apply len_nonneg. Qed.

Lemma holding_cons k x l : holding k (x :: l) = (if decide (x = k) then 1 else 0) + holding k l.
Proof.
  unfold holding. cbn [List.filter]. destruct (decide (x = k)) as [E|E]; [rewrite bool_decide_true by done|rewrite bool_decide_false by done]; len_lia.
Qed.

Lemma holding_leave k x l1 l2 : holding k (l1 ++ x :: l2) = (if decide (x = k) then 1 else 0) + holding k (l1 ++ l2).
Proof.
  induction l1 as [|y l1 IH]; [apply holding_cons|]. rewrite <- !app_comm_cons, !holding_cons, IH. lia.
Qed.

Lemma enter_inv c key a a' l : 0 < max_concurrent c -> try_acquire c key a = (true, a') ->
  permits_inv c a l -> permits_inv c a' (key :: l).
Proof.
  intros M E [C B K]. unfold try_acquire in E. pose proof (C key) as Ck. pose proof (holding_nonneg key l).
  destruct (a !! key) as [n|] eqn:A; destruct (holding key l =? 0) eqn:Z; simplify_eq; case_hyp E; simplify_eq; to_prop; split.
  - intros k. rewrite holding_cons. destruct (decide (key = k)) as [->|N].
    + rewrite lookup_insert_eq, (proj2 (Z.eqb_neq _ _)) by lia. f_equal. lia.
    + by rewrite lookup_insert_ne, Z.add_0_l by done.
  - intros k. rewrite holding_cons. specialize (B k). destruct (decide (key = k)) as [->|N]; lia.
  - by rewrite map_size_insert_Some.
  - intros k. rewrite holding_cons. destruct (decide (key = k)) as [->|N].
    + rewrite lookup_insert_eq, (proj2 (Z.eqb_neq _ _)) by lia. f_equal. lia.
    + by rewrite lookup_insert_ne, Z.add_0_l by done.
  - intros k. rewrite holding_cons. specialize (B k). destruct (decide (key = k)) as [->|N]; lia.
  - rewrite map_size_insert_None by done. lia.
Qed.

Lemma leave_inv c key a l1 l2 : permits_inv c a (l1 ++ key :: l2) -> permits_inv c (release key a) (l1 ++ l2).
Proof.
  intros [C B K]. pose proof (C key) as Ck. rewrite holding_leave, decide_True in Ck by done.
  pose proof (holding_nonneg key (l1 ++ l2)). rewrite (proj2 (Z.eqb_neq _ _)) in Ck by lia.
  unfold release. rewrite Ck. split.
  - intros k. specialize (C k). rewrite holding_leave in C. destruct (decide (key = k)) as [->|N].
    + case_goal; to_prop.
      * rewrite lookup_delete_eq, (proj2 (Z.eqb_eq _ _)) by lia. done.
      * rewrite lookup_insert_eq, (proj2 (Z.eqb_neq _ _)) by lia. f_equal. lia.
    + rewrite Z.add_0_l in C. case_goal; [by rewrite lookup_delete_ne|by rewrite lookup_insert_ne].
  - intros k. specialize (B k). rewrite holding_leave in B. case_hyp B; lia.
  - case_goal.
    + rewrite map_size_delete_Some by done. lia.
    + by rewrite map_size_insert_Some.
Qed.

Lemma refuse_same c key a a' : try_acquire c key a = (false, a') -> a' = a.
Proof. unfold try_acquire. intros E. repeat case_hyp E; simplify_eq; done. Qed.

Lemma steps_inv c s s' : 0 < max_concurrent c -> rtc (step c) s s' ->
  permits_inv c (fst s) (snd s) -> permits_inv c (fst s') (snd s').
Proof.
  intros M. induction 1 as [|x y z S _ IH]; [done|]. intros I. apply IH. destruct S as [key a a' l E|key a a' l E|key a l1 l2]; cbn in *.
  - by eapply enter_inv.
  - apply refuse_same in E as ->. done.
  - by apply leave_inv.
Qed.

Lemma empty_inv c : 0 < max_concurrent c -> 0 < max_keys c -> permits_inv c ∅ [].
Proof. intros M K. split; [intros k; by rewrite lookup_empty|intros k; change (0 <= max_concurrent c); lia|rewrite map_size_empty; lia]. Qed.

(** In every interleaving of requests that enter and leave, the
    middleware's counts are the numbers of requests that hold a permit; no key
    holds more than [max_concurrent], no more than [max_keys] keys are counted,
    and nothing is left when the last request left.  A request is admitted
    exactly when its key holds fewer than [max_concurrent] permits and, if it
    holds none, fewer than [max_keys] keys are counted. *)
Theorem permits_balanced c a l (Hmax : 0 < max_concurrent c) (Hkeys : 0 < max_keys c)
  (Hreach : rtc (step c) (∅, []) (a, l)) :
  (forall k, default 0 (a !! k) = holding k l /\ holding k l <= max_concurrent c) /\
  Z.of_nat (size a) <= max_keys c /\
  (l = [] -> a = ∅) /\
  (forall k, fst (try_acquire c k a) = true <->
     holding k l < max_concurrent c /\ (holding k l = 0 -> Z.of_nat (size a) < max_keys c)).
Proof.
  destruct (steps_inv c _ _ Hmax Hreach (empty_inv c Hmax Hkeys)) as [C B K]. cbn in *. split_and!.
  - intros k. split; [|apply B]. rewrite C. case_goal; to_prop; cbn; lia.
  - done.
  - intros ->. apply map_eq. intros k. by rewrite C, lookup_empty.
  - intros k. unfold try_acquire. rewrite C. pose proof (holding_nonneg k l).
    destruct (Z.eqb_spec (holding k l) 0) as [E|E]; case_goal; to_prop; cbn; split; intros; try done; lia.
Qed.

(** The middleware gives its permit back however the rest of the pipeline
    ends, so that a balanced rest leaves the counts as they were. *)
Lemma handle_balanced {W} `{Part (gmap bytes Z) W} c next x l :
  0 < max_concurrent c -> permits_inv c (part (world x)) l ->
  (forall y k, permits_inv c (part (world y)) (k :: l) -> permits_inv c (part (world (snd (next y)))) (k :: l)) ->
  (forall y, permits_inv c (part (world y)) l -> permits_inv c (part (world (snd (next y)))) l) ->
  permits_inv c (part (world (snd (handle c next x)))) l.
Proof.
  intros M I N1 N2. unfold handle, bind, get_request, get_context. cbn. case_goal; [by apply N2|]. cbn. case_goal; [done|].
  unfold on_world. destruct (try_acquire _ _ _) as [ok a] eqn:E. cbn. destruct ok; cbn.
  - unfold finally. set (y := mkEx _ _ _ _). set (k := if _ =? 0 then _ else _) in *.
    specialize (N1 y k). destruct (next y) as [r z]. cbn. rewrite part_set.
    apply (leave_inv c k _ [] l). apply N1. cbn. rewrite part_set. by eapply enter_inv.
  - rewrite part_set. apply refuse_same in E as ->. done.
Qed.

Definition two_at_once : Config := mkConfig 2 1 global_key [] 256 429 [].

Lemma permits_balanced_witness :
  let a := {[bs "global" := 2]} : gmap bytes Z in
  fst (try_acquire two_at_once (bs "global") a) = false /\
  (forall k, default 0 (a !! k) = holding k [bs "global"; bs "global"] /\ holding k [bs "global"; bs "global"] <= 2).
Proof.
  cbn zeta. split; [done|].
  apply (permits_balanced two_at_once {[bs "global" := 2]} [bs "global"; bs "global"]); [done|done|].
  eapply rtc_l; [by apply (step_enter _ (bs "global"))|].
  eapply rtc_l; [by apply (step_enter _ (bs "global"))|]. apply rtc_refl.
Defined.

End ConcurrencyLimit.
