(* ===== verification/BrowserAuth.v ===== *)
(** * Browser sessions, CSRF tokens and request ids

    [middleware/session_middleware.*], [middleware/csrf_middleware.*] and
    [middleware/request_id_middleware.*].  OpenSSL and the system clock are
    parameters; the session manager knows its store by an interface. *)

From S2P Require Import Prelude CxxString HttpMessage Middleware.
Import Middleware.
#[local] Existing Instance Cookie.same_site_eq_dec.
Open Scope exchange_scope.

(** ** The platform *)

(** [RAND_bytes] for [n] bytes, [CRYPTO_memcmp] and [system_clock::now]. *)
Class Platform (W : Type) := {
  RAND_bytes : nat -> W -> option bytes * W;
  CRYPTO_memcmp : bytes -> bytes -> Z;
  system_now : W -> Z
}.

(** What the code relies on: the buffer is filled, and the comparison of two
    buffers of one length is 0 exactly when they are equal. *)
Class PlatformLaws (W : Type) `{Platform W} := {
  rand_length : forall n w b w', RAND_bytes n w = (Some b, w') -> length b = n;
  memcmp_zero : forall a b, length a = length b -> CRYPTO_memcmp a b = 0 <-> a = b
}.

(** The lower-case hexadecimal text of a buffer. *)
Definition hex_text (b : bytes) : bytes :=
  flat_map (fun x => [digit_char (Z.shiftr (byte_val x) 4); digit_char (Z.land (byte_val x) 15)]) b.

(** The generators: [n] random bytes in hexadecimal. *)
Definition generate {W} `{Platform W} (n : nat) (what : bytes) : M W bytes := fun x =>
  match RAND_bytes n (world x) with
  | (Some b, w) => (inr (hex_text b), mkEx (request x) (response x) (context x) w)
  | (None, w) => (inl (RuntimeError what), mkEx (request x) (response x) (context x) w)
  end.

(** The message of the exception a cookie check throws. *)
Definition cookie_exn (e : Cookie.Error) : Exn :=
  InvalidArgument match e with
  | Cookie.EmptyName => bs "Cookie name must not be empty"
  | Cookie.BadName => bs "Cookie name contains an invalid character"
  | Cookie.BadValue => bs "Cookie value contains a delimiter or control character"
  | Cookie.BadPath => bs "Cookie path must be an absolute safe path"
  | Cookie.BadDomain => bs "Cookie domain contains an invalid character"
  | Cookie.InsecureNone => bs "SameSite=None cookies must be Secure"
  end.

Definition set_cookie {W} (c : Cookie.t) : M W () := fun x =>
  match Cookie.set_cookie c (response x) with
  | inl e => (inl (cookie_exn e), x)
  | inr r => (inr (), mkEx (request x) r (context x) (world x))
  end.

(** ** Sessions *)

Module Session.

Record Session := mkSession {
  id : bytes;
  principal : Context.SessionPrincipal;
  expires_at : Z
}.

(** [SessionStore] *)
Class SessionStore (W : Type) := {
  put : Session -> W -> W;
  find : bytes -> Z -> W -> option Session * W;
  erase : bytes -> W -> W
}.

(** What a store promises its clients. *)
Class SessionStoreLaws (W : Type) `{SessionStore W} := {
  find_put : forall s now w,
    fst (find (id s) now (put s w)) = if expires_at s <=? now then None else Some s;
  find_erase : forall i now w, fst (find i now (erase i w)) = None;
  find_put_other : forall i s now w, i <> id s -> fst (find i now (put s w)) = fst (find i now w);
  find_erase_other : forall i j now w, i <> j -> fst (find i now (erase j w)) = fst (find i now w)
}.

(** ** The in-memory store *)

Module InMemory.
Definition put (s : Session) (sessions_ : gmap bytes Session) : gmap bytes Session := <[id s := s]> sessions_.
Definition find (i : bytes) (now : Z) (sessions_ : gmap bytes Session) : option Session * gmap bytes Session :=
  match sessions_ !! i with
  | None => (None, sessions_)
  | Some s => if expires_at s <=? now then (None, delete i sessions_) else (Some s, sessions_)
  end.
Definition erase (i : bytes) (sessions_ : gmap bytes Session) : gmap bytes Session := delete i sessions_.
End InMemory.

#[export] Instance in_memory_store {W} `{Part (gmap bytes Session) W} : SessionStore W := {|
  put s w := set_part (InMemory.put s (part w)) w;
  find i now w := let '(r, m) := InMemory.find i now (part w) in (r, set_part m w);
  erase i w := set_part (InMemory.erase i (part w)) w
|}.

#[export] Instance in_memory_laws {W} `{Part (gmap bytes Session) W} : SessionStoreLaws W.
Proof.
  split; intros; unfold find, put, erase, in_memory_store, InMemory.find, InMemory.put, InMemory.erase; rewrite part_set.
  - rewrite lookup_insert_eq. by destruct (expires_at s <=? now).
  - by rewrite lookup_delete_eq.
  - rewrite lookup_insert_ne by done. destruct (part w !! i) as [s0|]; [by destruct (expires_at s0 <=? now)|done].
  - rewrite lookup_delete_ne by done. destruct (part w !! i) as [s0|]; [by destruct (expires_at s0 <=? now)|done].
Qed.

(** ** The manager *)

Record Config := mkConfig {
  cookie_name : bytes;
  cookie_path : bytes;
  cookie_domain : option bytes;
  ttl : Z;  (** seconds *)
  secure_cookie : bool;
  same_site : Cookie.SameSite
}.

Definition valid_config (c : Config) : result Exn () :=
  if (len (cookie_name c) =? 0) || (len (cookie_path c) =? 0) ||
     negb (bool_decide (head (cookie_path c) = Some "/"%char)) || (ttl c <=? 0) then
    inl (InvalidArgument (bs "Session cookie name, absolute path, and positive TTL are required"))
  else if bool_decide (same_site c = Cookie.SameSiteNone) && negb (secure_cookie c) then
    inl (InvalidArgument (bs "Session SameSite=None cookie must be Secure"))
  else inr ().

Section Manager.
Context {W : Type} `{Platform W, SessionStore W}.

Definition cookie (c : Config) (i : bytes) (max_age : Z) : Cookie.t :=
  Cookie.mk (cookie_name c) i (cookie_path c) (cookie_domain c) (Some max_age) (secure_cookie c) true (same_site c).

Definition issue_cookie (c : Config) (i : bytes) (max_age : Z) : M W () := set_cookie (cookie c i max_age).

(** Drop the session of the inbound cookie. *)
Definition erase_inbound (c : Config) : M W () :=
  do request <- get_request;
  match Cookie.request_cookie request (cookie_name c) with
  | Some previous => on_world (fun w => (inr (), erase previous w))
  | None => ret ()
  end.

(** The clock counts nanoseconds. *)
Definition login (c : Config) (p : Context.SessionPrincipal) : M W Session :=
  if len (Context.subject p) =? 0 then
    throw (InvalidArgument (bs "Session principal subject must not be empty"))
  else
    erase_inbound c ;;
    do now <- (fun x => (inr (system_now (world x)), x));
    do i <- generate 32 (bs "OpenSSL could not generate a session identifier");
    let session := mkSession i p (now + ttl c * 1000000000) in
    on_world (fun w => (inr (), put session w)) ;;
    issue_cookie c i (ttl c) ;;
    ret session.

Definition authenticate (c : Config) : M W (option Context.SessionPrincipal) :=
  do request <- get_request;
  match Cookie.request_cookie request (cookie_name c) with
  | Some i =>
      if len i =? 0 then ret None
      else
        do session <- on_world (fun w => let '(s, w') := find i (system_now w) w in (inr s, w'));
        ret (principal <$> session)
  | None => ret None
  end.

Definition logout (c : Config) : M W () :=
  erase_inbound c ;;
  issue_cookie c [] 0.

Record MwConfig := mkMwConfig {
  allowlist_paths : list bytes;
  allow_options_requests : bool;
  unauthorized_status : Z;
  unauthorized_body : bytes
}.

Definition handle (c : Config) (m : MwConfig) : Middleware.t W := fun next =>
  do request <- get_request;
  if (allow_options_requests m && bool_decide (Request.method_ request = bs "OPTIONS")) ||
     path_allowed (allowlist_paths m) (Request.path_ request)
  then next
  else
    do p <- authenticate c;
    match p with
    | Some p => on_context (Context.set_session p) ;; next
    | None => on_response (fun r => Response.json (unauthorized_body m) (Response.status (unauthorized_status m) r))
    end.
End Manager.
End Session.

(** ** CSRF tokens *)

Module Csrf.

Record Config := mkConfig {
  cookie_name : bytes;
  header_name : bytes;
  cookie_path : bytes;
  secure_cookie : bool;
  same_site : Cookie.SameSite;
  issue_token_on_safe_methods : bool
}.

Definition valid_config (c : Config) : result Exn () :=
  if (len (cookie_name c) =? 0) || (len (header_name c) =? 0) || (len (cookie_path c) =? 0) ||
     negb (bool_decide (head (cookie_path c) = Some "/"%char)) then
    inl (InvalidArgument (bs "CSRF cookie name, header name, and absolute path are required"))
  else if bool_decide (same_site c = Cookie.SameSiteNone) && negb (secure_cookie c) then
    inl (InvalidArgument (bs "CSRF SameSite=None cookie must be Secure"))
  else inr ().

Definition safe_method (m : bytes) : bool :=
  bool_decide (m = bs "GET") || bool_decide (m = bs "HEAD") || bool_decide (m = bs "OPTIONS") ||
  bool_decide (m = bs "TRACE").

Section Csrf.
Context {W : Type} `{Platform W}.

Definition valid_token (c : Config) (r : Request.t) : bool :=
  match Cookie.request_cookie r (cookie_name c), Request.header (header_name c) r with
  | Some cookie, Some header =>
      if (len cookie =? 0) || negb (len cookie =? len header) then false
      else CRYPTO_memcmp cookie header =? 0
  | _, _ => false
  end.

Definition issue_token (c : Config) : M W () :=
  do token <- generate 32 (bs "OpenSSL could not generate a CSRF token");
  set_cookie (Cookie.mk (cookie_name c) token (cookie_path c) None None (secure_cookie c) false (same_site c)).

Definition forbidden (r : Response.t) : Response.t :=
  Response.json (js "{'error':'CSRF token invalid or missing'}") (Response.status 403 r).

Definition handle (c : Config) : Middleware.t W := fun next =>
  do request <- get_request;
  if safe_method (Request.method_ request) then
    (if issue_token_on_safe_methods c &&
        match Cookie.request_cookie request (cookie_name c) with Some _ => false | None => true end
     then issue_token c else ret ()) ;;
    next
  else if negb (valid_token c request) then on_response forbidden
  else next.
End Csrf.
End Csrf.

(** ** Request ids *)

Module RequestId.

Record Config := mkConfig {
  header_name : bytes;
  trust_inbound_header : bool;
  add_response_header : bool
}.

Definition valid_config (c : Config) : result Exn () :=
  if len (header_name c) =? 0 then inl (InvalidArgument (bs "Request ID header name must not be empty")) else inr ().

Definition valid_id (v : bytes) : bool :=
  if (len v =? 0) || (128 <? len v) then false
  else forallb (fun x => negb ((byte_val x <? 33) || (126 <? byte_val x))) v.

Definition inbound_id (c : Config) (r : Request.t) : bytes :=
  if trust_inbound_header c then
    match Request.header (header_name c) r with
    | Some v => if valid_id v then v else []
    | None => []
    end
  else [].

Definition handle {W} `{Platform W} (c : Config) : Middleware.t W := fun next =>
  do request <- get_request;
  let request_id := inbound_id c request in
  do request_id <- (if len request_id =? 0 then generate 16 (bs "OpenSSL could not generate a request identifier")
                    else ret request_id);
  on_context (Context.set_string (bs "request_id") request_id) ;;
  (if add_response_header c then on_response (Response.header (header_name c) request_id) else ret ()) ;;
  next.
End RequestId.

(** * Properties of browser sessions *)

Import Middleware.

#[global] Arguments Cookie.request_cookie : simpl never.
#[global] Arguments hex_text : simpl never.

(** ** Generated tokens *)

Definition printable (x : byte) : bool := negb ((byte_val x <? 33) || (126 <? byte_val x)).

Lemma hex_chars x :
  let hi := digit_char (Z.shiftr (byte_val x) 4) in
  let lo := digit_char (Z.land (byte_val x) 15) in
  printable hi && printable lo && negb (Cookie.delimiter hi) && negb (Cookie.delimiter lo) = true.
Proof.
  exact (byte_forall (fun x =>
    let hi := digit_char (Z.shiftr (byte_val x) 4) in
    let lo := digit_char (Z.land (byte_val x) 15) in
    printable hi && printable lo && negb (Cookie.delimiter hi) && negb (Cookie.delimiter lo))
    ltac:(by vm_compute) x).
Qed.

Lemma hex_text_cons x b : hex_text (x :: b) =
  digit_char (Z.shiftr (byte_val x) 4) :: digit_char (Z.land (byte_val x) 15) :: hex_text b.
Proof. done. Qed.

Lemma hex_text_length b : length (hex_text b) = (2 * length b)%nat.
Proof. induction b as [|x b IH]; [done|]. rewrite hex_text_cons. cbn. lia. Qed.

Lemma hex_text_safe b : forallb printable (hex_text b) = true /\ Cookie.contains_cookie_delimiter (hex_text b) = false.
Proof.
  induction b as [|x b [I1 I2]]; [done|]. rewrite hex_text_cons. pose proof (hex_chars x) as H. cbn zeta in H. to_prop.
  unfold Cookie.contains_cookie_delimiter in *. cbn [forallb existsb]. rewrite I1, I2. split; [by apply andb_true_intro; split; [|apply andb_true_intro]|].
  by apply orb_false_intro; [|apply orb_false_intro].
Qed.

(** ** Sessions *)

Module SessionProps.
Import Session.

(** A cookie configuration the serializer accepts. *)
Definition cookie_ok (c : Config) : Prop :=
  valid_config c = inr () /\ forallb Cookie.token_character (cookie_name c) = true /\
  Cookie.contains_cookie_delimiter (cookie_path c) = false /\
  match cookie_domain c with
  | Some d => d <> [] /\ Cookie.contains_cookie_delimiter d = false
  | None => True
  end.

Lemma session_cookie_accepted c i age : cookie_ok c -> Cookie.contains_cookie_delimiter i = false ->
  Cookie.serialize_cookie (cookie c i age) = inr (Cookie.cookie_text (cookie c i age)).
Proof.
  intros (V & T & P & D) I. unfold valid_config in V. unfold Cookie.serialize_cookie.
  destruct ((len (cookie_name c) =? 0) || (len (cookie_path c) =? 0) ||
     negb (bool_decide (head (cookie_path c) = Some "/"%char)) || (ttl c <=? 0)) eqn:G; [done|].
  apply orb_false_iff in G as [G _]. apply orb_false_iff in G as [G G3]. apply orb_false_iff in G as [G1 G2].
  cbn [cookie Cookie.name Cookie.value Cookie.path Cookie.domain Cookie.same_site Cookie.secure].
  rewrite G1, G2, G3, T, I, P. cbn [negb orb].
  destruct (cookie_domain c) as [d|].
  - destruct D as [D1 D2]. rewrite D2, (proj2 (Z.eqb_neq _ _)) by (destruct d; [done|len_lia]). cbn [orb].
    by destruct (bool_decide _ && _).
  - by destruct (bool_decide _ && _).
Qed.

Section Login.
Context {W : Type} `{Platform W, SessionStore W, !SessionStoreLaws W}.

(** Drawing random bytes does not touch the sessions. *)
Hypothesis rand_keeps : forall n w i now, fst (find i now (snd (RAND_bytes n w))) = fst (find i now w).

(** The world once the session of the inbound cookie is gone. *)
Definition after_erase (c : Config) (x : Exchange W) : W :=
  match Cookie.request_cookie (request x) (cookie_name c) with
  | Some previous => erase previous (world x)
  | None => world x
  end.

Lemma erase_inbound_result c x :
  erase_inbound c x = (inr (), mkEx (request x) (response x) (context x) (after_erase c x)).
Proof.
  unfold erase_inbound, after_erase. erewrite bind_ok by done.
  destruct (Cookie.request_cookie _ _); [done|]. by destruct x.
Qed.

Lemma login_result c p x b w' : cookie_ok c -> Context.subject p <> [] ->
  RAND_bytes 32 (after_erase c x) = (Some b, w') ->
  let s := mkSession (hex_text b) p (system_now (after_erase c x) + ttl c * 1000000000) in
  login c p x = (inr s, mkEx (request x)
    (Response.header (bs "set-cookie") (Cookie.cookie_text (cookie c (id s) (ttl c))) (response x))
    (context x) (put s w')).
Proof.
  intros C S R. cbn zeta. unfold login. rewrite (proj2 (Z.eqb_neq _ _)) by (destruct (Context.subject p); [done|len_lia]).
  erewrite bind_ok by apply erase_inbound_result. erewrite bind_ok by done.
  erewrite bind_ok by (unfold generate; cbn [world]; by rewrite R). erewrite bind_ok by done.
  erewrite bind_ok; [done|]. unfold issue_cookie, set_cookie, Cookie.set_cookie.
  rewrite session_cookie_accepted; [done|done|apply hex_text_safe].
Qed.

Lemma authenticate_result c i y : Cookie.request_cookie (request y) (cookie_name c) = Some i -> i <> [] ->
  fst (authenticate c y) = inr (principal <$> fst (find i (system_now (world y)) (world y))).
Proof.
  intros E N. unfold authenticate, bind, get_request. rewrite E.
  rewrite (proj2 (Z.eqb_neq _ _)) by (destruct i; [done|len_lia]). unfold on_world. by destruct (find _ _ _) as [r w].
Qed.

(** The sessions after a login. *)
Lemma login_sessions c x s b w' : RAND_bytes 32 (after_erase c x) = (Some b, w') ->
  forall i now, fst (find i now (put s w')) =
    if decide (i = id s) then (if expires_at s <=? now then None else Some s)
    else if decide (Cookie.request_cookie (request x) (cookie_name c) = Some i) then None
    else fst (find i now (world x)).
Proof.
  intros R i now. destruct (decide (i = id s)) as [->|N]; [apply find_put|]. rewrite find_put_other by done.
  pose proof (rand_keeps 32 (after_erase c x) i now) as K. rewrite R in K. cbn in K. rewrite K.
  unfold after_erase. destruct (Cookie.request_cookie (request x) (cookie_name c)) as [prev|]; [|by rewrite decide_False].
  destruct (decide (Some prev = Some i)) as [[= ->]|N2]; [apply find_erase|]. apply find_erase_other. congruence.
Qed.
End Login.

(** Login with a store that keeps its promises: when OpenSSL
    delivers random bytes it succeeds, sets an HttpOnly cookie with the fresh
    id, and from then on a request that carries this id is authenticated as
    the principal until [ttl] has passed and never after; the id the request
    came with is dead (no session fixation), and no other session changed. *)
Theorem login_rotates {W} `{Platform W, SessionStore W, !SessionStoreLaws W} c p x b w'
  (Hrand : forall n w i now, fst (find i now (snd (RAND_bytes n w))) = fst (find i now w))
  (Hc : cookie_ok c) (Hp : Context.subject p <> []) (Hb : b <> [])
  (Hdraw : RAND_bytes 32 (after_erase c x) = (Some b, w')) :
  let expiry := system_now (after_erase c x) + ttl c * 1000000000 in
  exists y, login c p x = (inr (mkSession (hex_text b) p expiry), y) /\
  Response.headers_ (response y) = Response.headers_ (response x) ++
    [HeaderMap.mkEntry (bs "set-cookie") (Cookie.cookie_text (cookie c (hex_text b) (ttl c)))] /\
  forall i z, i <> [] -> world z = world y -> Cookie.request_cookie (request z) (cookie_name c) = Some i ->
  fst (authenticate c z) = inr
    (if decide (i = hex_text b) then (if expiry <=? system_now (world z) then None else Some p)
     else if decide (Cookie.request_cookie (request x) (cookie_name c) = Some i) then None
     else principal <$> fst (find i (system_now (world z)) (world x))).
Proof.
  cbn zeta. eexists. split; [by apply login_result|]. split; [done|].
  intros i z Hi Hw Hz. rewrite (authenticate_result c i z Hz Hi), Hw. cbn [world].
  rewrite (login_sessions Hrand c x _ b w' Hdraw). cbn [id expires_at]. repeat case_goal; done.
Qed.

(** A world of sessions and a clock, with a constant generator. *)
Definition Small : Type := gmap bytes Session * Z.

#[global] Instance small_part : Part (gmap bytes Session) Small.
Proof. refine {| part := fun w => fst w; set_part := fun s w => (s, snd w) |}; by intros; destruct w. Defined.

#[global] Instance small_platform : Platform Small := {|
  RAND_bytes n w := (Some (repeat "z"%char n), w);
  CRYPTO_memcmp a b := if decide (a = b) then 0 else 1;
  system_now w := snd w
|}.

#[global] Instance small_platform_laws : PlatformLaws Small.
Proof.
  split.
  - intros n w b w' [= <- _]. apply repeat_length.
  - intros a b _. cbn. by destruct (decide (a = b)).
Qed.

Definition default_config : Config := mkConfig (bs "NOVA_SESSION") (bs "/") None 28800 true Cookie.Lax.

Definition alice : Context.SessionPrincipal := Context.mkSessionPrincipal (bs "alice") [] [].

(** A request that carries a planted id. *)
Definition planted : Exchange Small :=
  mkEx (Request.set_headers [HeaderMap.mkEntry (bs "cookie") (bs "NOVA_SESSION=evil")] Request.init)
    Response.init Context.empty ({[bs "evil" := mkSession (bs "evil") alice 1]}, 0).

Lemma login_rotates_witness : exists y,
  login default_config alice planted =
    (inr (mkSession (hex_text (repeat "z"%char 32)) alice 28800000000000), y) /\
  fst (authenticate default_config (mkEx (request planted) Response.init Context.empty (world y))) = inr None.
Proof.
  destruct (login_rotates default_config alice planted (repeat "z"%char 32) (after_erase default_config planted))
    as (y & E & _ & A); [done|by vm_compute|done|done|done|].
  exists y. split; [exact E|].
  pose proof (A (bs "evil") (mkEx (request planted) Response.init Context.empty (world y))
    ltac:(done) eq_refl ltac:(by vm_compute)) as A'.
  rewrite A'. by vm_compute.
Defined.
End SessionProps.

(** ** CSRF *)

Module CsrfProps.
Import Csrf.

Lemma valid_token_spec {W} `{Platform W, !PlatformLaws W} c r :
  valid_token c r = true <->
  exists token, token <> [] /\ Cookie.request_cookie r (cookie_name c) = Some token /\
    Request.header (header_name c) r = Some token.
Proof.
  unfold valid_token. destruct (Cookie.request_cookie r (cookie_name c)) as [t|]; [|split; [done|by intros (? & _ & ? & _)]].
  destruct (Request.header (header_name c) r) as [h|]; [|split; [done|by intros (? & _ & _ & ?)]].
  destruct ((len t =? 0) || negb (len t =? len h)) eqn:G.
  - split; [done|]. intros (t' & N & [= ->] & [= ->]). exfalso. rewrite Z.eqb_refl in G. cbn in G. rewrite orb_false_r in G.
    to_prop. destruct t'; [done|]. len_lia.
  - to_prop. rewrite Z.eqb_eq, memcmp_zero by (unfold len in *; lia). split.
    + intros <-. exists t. split; [|done]. intros ->. done.
    + intros (t' & _ & [= ->] & [= ->]). done.
Qed.

(** The rest of the pipeline sees a request with an unsafe method only
    when it carries one non-empty token both in the cookie and in the header;
    every other such request is answered 403 and changes nothing else.  A
    request with a safe method always passes, with at most a new cookie. *)
Theorem csrf_guards {W} `{Platform W, !PlatformLaws W} c next x :
  let both := exists token, token <> [] /\
    Cookie.request_cookie (request x) (cookie_name c) = Some token /\
    Request.header (header_name c) (request x) = Some token in
  let unsafe := safe_method (Request.method_ (request x)) = false in
  (unsafe -> both -> handle c next x = next x) /\
  (unsafe -> ~ both -> handle c next x = (inr (), mkEx (request x) (forbidden (response x)) (context x) (world x))) /\
  (safe_method (Request.method_ (request x)) = true ->
     (is_Some (Cookie.request_cookie (request x) (cookie_name c)) \/ issue_token_on_safe_methods c = false ->
        handle c next x = next x) /\
     forall y, issue_token c x = (inr (), y) ->
        handle c next x = next x \/ handle c next x = next y).
Proof.
  cbn zeta. rewrite <- (valid_token_spec c (request x)). unfold handle. erewrite bind_ok by done. split_and!.
  - intros -> ->. done.
  - intros -> N. apply not_true_is_false in N as ->. done.
  - intros ->. split.
    + intros [[t ->]| ->]; [rewrite andb_false_r|cbn [andb]]; by erewrite bind_ok.
    + intros y E. case_goal; [right|left]; by erewrite bind_ok.
Qed.

Definition default_config : Config := mkConfig (bs "XSRF-TOKEN") (bs "X-XSRF-TOKEN") (bs "/") true Cookie.Lax true.

Definition forged : Exchange SessionProps.Small :=
  mkEx (Request.set_method (bs "POST")
         (Request.set_headers [HeaderMap.mkEntry (bs "cookie") (bs "XSRF-TOKEN=t1");
                               HeaderMap.mkEntry (bs "x-xsrf-token") (bs "t2")] Request.init))
    Response.init Context.empty (∅, 0).

Lemma csrf_guards_witness :
  let next := on_response (Response.status 201) in
  Response.status_code_ (response (snd (handle default_config next forged))) = 403.
Proof.
  intros next. destruct (csrf_guards default_config next forged) as (_ & R & _). cbn zeta in R.
  rewrite R; [done|by vm_compute|]. intros (t & _ & E1 & E2).
  assert (Cookie.request_cookie (request forged) (cookie_name default_config) = Some (bs "t1")) as F by (by vm_compute).
  rewrite F in E1. simplify_eq.
Defined.
End CsrfProps.

(** ** Request ids *)

Module RequestIdProps.
Import RequestId.

Lemma hex_id_valid b : length b = 16%nat -> valid_id (hex_text b) = true.
Proof.
  intros L. unfold valid_id. pose proof (hex_text_length b) as E. rewrite L in E.
  rewrite (proj2 (Z.eqb_neq _ _)), (proj2 (Z.ltb_ge _ _)) by (unfold len; lia). cbn [orb].
  exact (proj1 (hex_text_safe b)).
Qed.

(** The middleware runs the rest with a valid id, or throws when OpenSSL
    fails: nothing from the client reaches a header or a log unchecked. *)
Lemma request_id_valid {W} `{Platform W, !PlatformLaws W} c next x :
  (exists w, RAND_bytes 16 (world x) = (None, w) /\ inbound_id c (request x) = [] /\
     fst (handle c next x) = inl (RuntimeError (bs "OpenSSL could not generate a request identifier"))) \/
  exists i w, valid_id i = true /\
    handle c next x = next (mkEx (request x)
      (if add_response_header c then Response.header (header_name c) i (response x) else response x)
      (Context.set_string (bs "request_id") i (context x)) w).
Proof.
  unfold handle. erewrite bind_ok by done.
  destruct (inbound_id c (request x)) as [|v vs] eqn:E.
  - change (len [] =? 0) with true. cbn iota. unfold generate at 1 2.
    destruct (RAND_bytes 16 (world x)) as [[b|] w] eqn:R.
    + right. exists (hex_text b), w. split; [apply hex_id_valid; by eapply rand_length|].
      erewrite bind_ok by (by rewrite R). erewrite bind_ok by done. by destruct (add_response_header c); erewrite bind_ok.
    + left. exists w. split; [done|]. split; [done|]. erewrite bind_throw by (by rewrite R). done.
  - right. exists (v :: vs), (world x). rewrite (proj2 (Z.eqb_neq _ _)) by len_lia. split.
    + unfold inbound_id in E. repeat case_hyp E; simplify_eq; done.
    + erewrite bind_ok by done. erewrite bind_ok by done. by destruct (add_response_header c); erewrite bind_ok.
Qed.
End RequestIdProps.
