(* ===== verification/EdgeMiddleware.v ===== *)
(** * Middlewares at the edge

    [middleware/trusted_forwarded_headers_middleware.*], [cors_middleware.*],
    [body_size_limit_middleware.*] and [security_headers_middleware.*]; content
    negotiation ([http/content_negotiation.h], [content_negotiation_middleware.*])
    and [compression_middleware.*]. *)

From Stdlib Require Import SpecFloat.
From S2P Require Import Prelude CxxString CxxDouble HttpMessage Middleware.
Import Middleware.
Open Scope exchange_scope.

(** ** Forwarded headers *)

Module Forwarded.

(** [inet_pton] of the C library: 4 or 16 bytes, when the text is an address. *)
Class Inet := {
  inet_pton4 : bytes -> option bytes;
  inet_pton6 : bytes -> option bytes
}.

Class InetLaws `{Inet} := {
  pton4_length : forall s a, inet_pton4 s = Some a -> length a = 4%nat;
  pton6_length : forall s a, inet_pton6 s = Some a -> length a = 16%nat
}.

Inductive Family := AF_INET | AF_INET6.

#[export] Instance Family_eq : EqDecision Family.
Proof. solve_decision. Defined.

Definition safe_value (v : bytes) : bool :=
  if len v =? 0 then false
  else forallb (fun x => negb ((byte_val x <? 33) || (byte_val x =? 127) ||
                               bool_decide (x = ","%char) || bool_decide (x = ";"%char))) v.

Definition dquote : byte := byte_of_Z 34.

Definition unquote (v : bytes) : bytes :=
  let v := trim_loops isspace v in
  if (2 <=? len v) && bool_decide (head v = Some dquote) && bool_decide (last v = Some dquote)
  then take (length v - 2) (drop 1 v) else v.

(** What [c_str] shows of a string: it ends at the first NUL. *)
Definition c_str (s : bytes) : bytes :=
  match find_char (byte_of_Z 0) s with Some i => take i s | None => s end.

(** The 16-byte array is zero where an address does not reach. *)
Definition pad16 (a : bytes) : bytes := a ++ repeat (byte_of_Z 0) (16 - length a).

Section Inet.
Context `{Inet}.

Definition parse_ip (v : bytes) : option (Family * bytes) :=
  match inet_pton4 (c_str v) with
  | Some a => Some (AF_INET, pad16 a)
  | None =>
      match inet_pton6 (c_str v) with
      | Some a => Some (AF_INET6, pad16 a)
      | None => None
      end
  end.

(** The loop over the digits of the prefix: [None] when the [int] overflows,
    [Some None] at a character that is no digit. *)
Fixpoint prefix_digits (prefix : Z) (s : bytes) : option (option Z) :=
  match s with
  | [] => Some (Some prefix)
  | c :: r =>
      if negb (isdigit c) then Some None
      else
        let prefix := prefix * 10 + (byte_val c - 48) in
        if 2 ^ 31 <=? prefix then None else prefix_digits prefix r
  end.

(** The comparison of the first [prefix] bits of two arrays. *)
Definition same_network (prefix : Z) (network candidate : bytes) : bool :=
  let full_bytes := Z.to_nat (prefix / 8) in
  let trailing_bits := prefix mod 8 in
  if (0 <? Z.of_nat full_bytes) && negb (bool_decide (take full_bytes network = take full_bytes candidate)) then false
  else if trailing_bits =? 0 then true
  else
    let mask := Z.shiftl 255 (8 - trailing_bits) mod 256 in
    match network !! full_bytes, candidate !! full_bytes with
    | Some n, Some c => Z.land (byte_val n) mask =? Z.land (byte_val c) mask
    | _, _ => false
    end.

(** [cidr_contains]; [None] is undefined behaviour. *)
Definition cidr_contains (cidr peer : bytes) : option bool :=
  match find_char "/"%char cidr with
  | None => Some false
  | Some slash =>
      match prefix_digits 0 (drop (slash + 1) cidr) with
      | None => None
      | Some None => Some false
      | Some (Some prefix) =>
          match parse_ip (take slash cidr), parse_ip peer with
          | Some (network_family, network), Some (candidate_family, candidate) =>
              if negb (bool_decide (network_family = candidate_family)) then Some false
              else
                let max_bits := if decide (network_family = AF_INET) then 32 else 128 in
                if (prefix <? 0) || (max_bits <? prefix) then Some false
                else Some (same_network prefix network candidate)
          | _, _ => Some false
          end
      end
  end.

Definition forwarded_client_ip (v : bytes) : option bytes :=
  let v := unquote v in
  let address :=
    match v with
    | "["%char :: _ =>
        match find_char "]"%char v with
        | None => None
        | Some closing => Some (take (closing - 1) (drop 1 v))
        end
    | _ =>
        if negb (bool_decide (find_char ":"%char v = rfind_char ":"%char v)) then Some v
        else match find_char ":"%char v with Some colon => Some (take colon v) | None => Some v end
    end in
  match address with
  | None => None
  | Some a => match parse_ip a with Some _ => Some a | None => None end
  end.

Record Config := mkConfig {
  trust_all_direct_peers : bool;
  trusted_peer_cidrs : list bytes;
  apply_proto : bool;
  apply_host : bool
}.

Definition valid_config (c : Config) : result Exn () :=
  if negb (trust_all_direct_peers c) && (len (trusted_peer_cidrs c) =? 0) then
    inl (InvalidArgument (bs "TrustedForwardedHeadersMiddleware requires trusted peer CIDRs or explicit trust_all_direct_peers"))
  else inr ().

(** The loop over the CIDRs stops at the first that contains the peer. *)
Fixpoint any_contains (cidrs : list bytes) (peer : bytes) : option bool :=
  match cidrs with
  | [] => Some false
  | c :: r =>
      match cidr_contains c peer with
      | None => None
      | Some true => Some true
      | Some false => any_contains r peer
      end
  end.

Definition peer_is_trusted (c : Config) (peer : bytes) : option bool :=
  if trust_all_direct_peers c then Some true else any_contains (trusted_peer_cidrs c) peer.

(** One [name=value] of the first element of the header. *)
Definition apply_part (c : Config) (r : Request.t) (part : bytes) : Request.t :=
  let part := trim_loops isspace part in
  match find_char "="%char part with
  | None => r
  | Some equals =>
      let name := trim_loops isspace (take equals part) in
      let value := unquote (drop (equals + 1) part) in
      if negb (safe_value value) then r
      else
        let r := if apply_proto c && iequals name (bs "proto") &&
                    (bool_decide (value = bs "https") || bool_decide (value = bs "http"))
                 then Request.set_scheme value r else r in
        let r := if apply_host c && iequals name (bs "host") then Request.set_authority value r else r in
        if iequals name (bs "for") then
          match forwarded_client_ip value with
          | Some ip => Request.set_client_address ip r
          | None => r
          end
        else r
  end.

Definition apply_forwarded (c : Config) (r : Request.t) : Request.t :=
  match Request.header (bs "forwarded") r with
  | None => r
  | Some h =>
      let first_element := match find_char ","%char h with Some i => take i h | None => h end in
      for_each (apply_part c) (tokens ";"%char first_element) r
  end.

Definition handle {W : Type} (c : Config) : Middleware.t W := fun next =>
  do request <- get_request;
  match peer_is_trusted c (Request.peer_address_ request) with
  | None => throw Undefined
  | Some false => next
  | Some true => on_request (apply_forwarded c) ;; next
  end.
End Inet.
End Forwarded.

(** ** Cross-origin requests *)

Module Cors.

Record Config := mkConfig {
  allowed_origins : list bytes;
  allowed_methods : list bytes;
  allowed_headers : list bytes;
  exposed_headers : list bytes;
  allow_credentials : bool;
  max_age_seconds : Z
}.

Definition join (v : list bytes) : bytes :=
  match v with
  | [] => []
  | x :: r => for_each (fun a b => a ++ bs ", " ++ b) r x
  end.

(** The value of Access-Control-Allow-Origin; [None]: the first element of an
    empty vector is read. *)
Definition origin_value (c : Config) (origin : option bytes) : option bytes :=
  let all := join (allowed_origins c) in
  match origin with
  | None => Some all
  | Some o =>
      if len (allowed_origins c) =? 1 then Some all
      else
        match allowed_origins c with
        | [] => None
        | first :: _ =>
            if bool_decide (first = bs "*") then Some all
            else Some (if bool_decide (o ∈ allowed_origins c) then o else all)
        end
  end.

Definition cors_headers (c : Config) (origin : bytes) (r : Response.t) : Response.t :=
  let r := Response.header (bs "Access-Control-Allow-Origin") origin r in
  let r := Response.header (bs "Access-Control-Allow-Methods") (join (allowed_methods c)) r in
  let r := Response.header (bs "Access-Control-Allow-Headers") (join (allowed_headers c)) r in
  let r := if len (join (exposed_headers c)) =? 0 then r
           else Response.header (bs "Access-Control-Expose-Headers") (join (exposed_headers c)) r in
  if allow_credentials c then Response.header (bs "Access-Control-Allow-Credentials") (bs "true") r else r.

Definition handle {W : Type} (c : Config) : Middleware.t W := fun next =>
  do request <- get_request;
  match origin_value c (Request.header (bs "origin") request) with
  | None => throw Undefined
  | Some origin =>
      on_response (cors_headers c origin) ;;
      if bool_decide (Request.method_ request = bs "OPTIONS") then
        on_response (fun r =>
          Response.status 204 (Response.header (bs "Access-Control-Max-Age") (to_dec_signed (max_age_seconds c)) r))
      else next
  end.
End Cors.

(** ** The size of bodies *)

Module BodySize.

Record Config := mkConfig {
  max_body_bytes : Z;
  allowlist_paths : list bytes;
  status_code : Z;
  response_body : bytes
}.

Definition declared_content_length (r : Request.t) : option Z :=
  match Request.header (bs "content-length") r with
  | None => None
  | Some h =>
      match stoull 10 h with
      | inr (value, []) => Some value
      | _ => None
      end
  end.

Definition handle {W : Type} (c : Config) : Middleware.t W := fun next =>
  do request <- get_request;
  if path_allowed (allowlist_paths c) (Request.path_ request) then next
  else
    let effective_size := default (Request.content_length request) (declared_content_length request) in
    if max_body_bytes c <? effective_size then
      on_response (fun r => Response.json (response_body c) (Response.status (status_code c) r))
    else next.
End BodySize.

(** ** Security headers *)

Module SecurityHeaders.

Record Config := mkConfig {
  hsts : bool;
  hsts_https_only : bool;
  hsts_value : bytes;
  content_type_options : bool;
  content_type_options_value : bytes;
  frame_options : bool;
  frame_options_value : bytes;
  x_xss_protection : bool;
  x_xss_protection_value : bytes;
  referrer_policy : bool;
  referrer_policy_value : bytes;
  permissions_policy : bool;
  permissions_policy_value : bytes;
  cross_origin_opener_policy : bool;
  cross_origin_opener_policy_value : bytes;
  cross_origin_resource_policy : bool;
  cross_origin_resource_policy_value : bytes;
  content_security_policy : bytes;
  custom_headers : gmap bytes bytes
}.

Definition token_character (x : byte) : bool := isalnum x || existsb (fun c => bool_decide (x = c)) (bs "!#$%&'*+-.^_`|~").

Definition validate_header (name value : bytes) : result Exn () :=
  if len name =? 0 then inl (InvalidArgument (bs "Security header name must not be empty"))
  else if negb (forallb token_character name) then
    inl (InvalidArgument (bs "Security header name contains an invalid character"))
  else if existsb (fun x => (byte_val x <? 32) || (byte_val x =? 127)) value then
    inl (InvalidArgument (bs "Security header value contains a control character"))
  else inr ().

(** The built-in headers in their order, with whether the configuration and
    the request enable them. *)
Definition builtin_headers (c : Config) (scheme : bytes) : list (bool * bytes * bytes) :=
  [(hsts c && (negb (hsts_https_only c) || bool_decide (scheme = bs "https")),
      bs "Strict-Transport-Security", hsts_value c);
   (content_type_options c, bs "X-Content-Type-Options", content_type_options_value c);
   (frame_options c, bs "X-Frame-Options", frame_options_value c);
   (x_xss_protection c, bs "X-XSS-Protection", x_xss_protection_value c);
   (referrer_policy c, bs "Referrer-Policy", referrer_policy_value c);
   (permissions_policy c, bs "Permissions-Policy", permissions_policy_value c);
   (cross_origin_opener_policy c, bs "Cross-Origin-Opener-Policy", cross_origin_opener_policy_value c);
   (cross_origin_resource_policy c, bs "Cross-Origin-Resource-Policy", cross_origin_resource_policy_value c);
   (true, bs "Content-Security-Policy", content_security_policy c)].

(** The constructor checks every header it may send. *)
Definition valid_config (order : gmap bytes bytes -> list (bytes * bytes)) (c : Config) : result Exn () :=
  let check (ok : result Exn ()) '(on, name, value) :=
    match ok with inl e => inl e | inr _ => if on : bool then validate_header name value else inr () end in
  for_each check
    ([(hsts c, bs "Strict-Transport-Security", hsts_value c);
      (content_type_options c, bs "X-Content-Type-Options", content_type_options_value c);
      (frame_options c, bs "X-Frame-Options", frame_options_value c);
      (x_xss_protection c, bs "X-XSS-Protection", x_xss_protection_value c);
      (referrer_policy c, bs "Referrer-Policy", referrer_policy_value c);
      (permissions_policy c, bs "Permissions-Policy", permissions_policy_value c);
      (cross_origin_opener_policy c, bs "Cross-Origin-Opener-Policy", cross_origin_opener_policy_value c);
      (cross_origin_resource_policy c, bs "Cross-Origin-Resource-Policy", cross_origin_resource_policy_value c);
      (negb (len (content_security_policy c) =? 0), bs "Content-Security-Policy", content_security_policy c)] ++
     map (fun nv => (true, fst nv, snd nv)) (order (custom_headers c)))
    (inr ()).

Definition set_if_absent (r : Response.t) (name value : bytes) : Response.t :=
  if negb (len value =? 0) && negb (HeaderMap.has name (Response.headers_ r)) then Response.header name value r else r.

(** [order] is the iteration order of the map of custom headers. *)
Definition security_headers (order : gmap bytes bytes -> list (bytes * bytes)) (c : Config) (scheme : bytes)
    (r : Response.t) : Response.t :=
  let r := for_each (fun r '(on, name, value) => if on : bool then set_if_absent r name value else r)
             (builtin_headers c scheme) r in
  for_each (fun r '(name, value) => set_if_absent r name value) (order (custom_headers c)) r.

Definition handle {W : Type} (order : gmap bytes bytes -> list (bytes * bytes)) (c : Config) : Middleware.t W := fun next =>
  next ;;
  do request <- get_request;
  on_response (security_headers order c (Request.scheme_ request)).
End SecurityHeaders.

(** ** Content negotiation *)

Module Negotiation.

(** *** [std::strtod] *)

(** [v * 10 ^ e], rounded once. *)
Definition decimal (v e : Z) : double :=
  if v =? 0 then S754_zero false
  else if 0 <=? e then binary_normalize dprec demax (v * 10 ^ e) 0 false
  else SFdiv dprec demax (S754_finite false (Z.to_pos v) 0) (S754_finite false (Z.to_pos (10 ^ (- e))) 0).

(** The digits of a mantissa around a point: value, digits after the point, whether
    there were any, and the rest. *)
Definition mantissa (base : Z) (s : bytes) : Z * Z * bool * bytes :=
  let '(v, r) := digits_run base 0 s in
  let plain := (v, 0, negb (len r =? len s), r) in
  match r with
  | "."%char :: f =>
      let '(v', r') := digits_run base v f in
      if (len r =? len s) && (len r' =? len f) then plain else (v', len f - len r', true, r')
  | _ => plain
  end.

(** An exponent after one of two letters, when digits follow. *)
Definition exponent (lower_letter upper_letter : byte) (s : bytes) : Z * bytes :=
  match s with
  | x :: r =>
      if bool_decide (x = lower_letter) || bool_decide (x = upper_letter) then
        let '(neg, d) := strip_sign r in
        match d with
        | y :: _ => if isdigit y then let '(e, r) := digits_run 10 0 d in ((if neg : bool then - e else e), r) else (0, s)
        | [] => (0, s)
        end
      else (0, s)
  | [] => (0, s)
  end.

Definition negate (neg : bool) (x : double) : double := if neg then SFopp x else x.

(** What follows ["nan"], without a sequence in parentheses. *)
Definition after_nan (r : bytes) : bytes :=
  match r with
  | "("%char :: t =>
      match drop_while (fun x => isalnum x || bool_decide (x = "_"%char)) t with
      | ")"%char :: rest => rest
      | _ => r
      end
  | _ => r
  end.

(** The value and what is not consumed: everything, when there is no number. *)
Definition strtod (s : bytes) : double * bytes :=
  let '(neg, r) := strip_sign (drop_while isspace s) in
  if starts_with (bs "infinity") (lower r) then (negate neg (S754_infinity false), drop 8 r)
  else if starts_with (bs "inf") (lower r) then (negate neg (S754_infinity false), drop 3 r)
  else if starts_with (bs "nan") (lower r) then (S754_nan, after_nan (drop 3 r))
  else
    let hex := if starts_with (bs "0x") (lower r) then
                 let '(v, f, any, r) := mantissa 16 (drop 2 r) in
                 if any : bool then let '(e, r) := exponent "p"%char "P"%char r in Some (binary_normalize dprec demax v (e - 4 * f) false, r)
                 else None
               else None in
    match hex with
    | Some (x, r) => (negate neg x, r)
    | None =>
        let '(v, f, any, r) := mantissa 10 r in
        if any : bool then let '(e, r) := exponent "e"%char "E"%char r in (negate neg (decimal v (e - f)), r)
        else (S754_zero false, s)
    end.

(** *** Media ranges *)

Definition trim_media_token (v : bytes) : bytes := trim_find blank v.

Definition zero : double := S754_zero false.
Definition one : double := d_of_Z 1.

(** One turn of the loop over the parameters. *)
Definition quality_step (result : option double) (parameter : bytes) : option double :=
  match result with
  | None => None
  | Some q =>
      let parameter := trim_media_token parameter in
      match find_char "="%char parameter with
      | None => Some q
      | Some equals =>
          let key := trim_media_token (take equals parameter) in
          let value := trim_media_token (drop (S equals) parameter) in
          if negb (iequals key (bs "q")) then Some q
          else
            let '(q, rest) := strtod value in
            if negb (len rest =? 0) || dltb q zero || dltb one q then None else Some q
      end
  end.

Definition quality (parameters : bytes) : option double := for_each quality_step (tokens ";"%char parameters) (Some one).

Definition before (i : option nat) (s : bytes) : bytes := match i with Some i => take i s | None => s end.

Definition media_range_matches (range offered : bytes) : bool :=
  match find_char "/"%char range, find_char "/"%char offered with
  | Some i, Some j =>
      let range_rest := drop (S i) range in
      let offered_rest := drop (S j) offered in
      if contains_char "/"%char range_rest || contains_char "/"%char offered_rest then false
      else
        let range_type := trim_media_token (take i range) in
        let range_subtype := trim_media_token range_rest in
        let offered_type := trim_media_token (take j offered) in
        let offered_subtype := trim_media_token offered_rest in
        (bool_decide (range_type = bs "*") || iequals range_type offered_type) &&
        (bool_decide (range_subtype = bs "*") || iequals range_subtype offered_subtype)
  | _, _ => false
  end.

Definition media_type_only (v : bytes) : bytes := trim_media_token (before (find_char ";"%char v) v).

(** *** The choice *)

Definition Best : Type := double * option bytes.

(** The loop over the offers for one range. *)
Definition offer_step (range : bytes) (q : double) (b : Best) (candidate : bytes) : Best :=
  if dltb (fst b) q && media_range_matches range candidate then (q, Some candidate) else b.

(** One turn of the loop over the ranges. *)
Definition range_step (offered : list bytes) (b : Best) (segment : bytes) : Best :=
  let segment := trim_media_token segment in
  if len segment =? 0 then b
  else
    let semicolon := find_char ";"%char segment in
    let range := trim_media_token (before semicolon segment) in
    match quality (match semicolon with Some i => drop (S i) segment | None => [] end) with
    | Some q => if dltb zero q then for_each (offer_step range q) offered b else b
    | None => b
    end.

Definition negotiate_content_type (accept : option bytes) (offered : list bytes) : option bytes :=
  match offered with
  | [] => None
  | first :: _ =>
      match accept with
      | None => Some first
      | Some accept =>
          if len (trim_media_token accept) =? 0 then Some first
          else snd (for_each (range_step offered) (split_on ","%char accept) (SFopp one, None))
      end
  end.

Definition accepts_content_type (r : Request.t) (content_type : bytes) : bool :=
  match negotiate_content_type (HeaderMap.get (bs "accept") (Request.headers_ r)) [media_type_only content_type] with
  | Some _ => true
  | None => false
  end.

Definition not_acceptable (r : Response.t) : Response.t :=
  let r := Response.text (bs "Not Acceptable") (Response.status 406 r) in
  Response.with_headers (HeaderMap.set (bs "vary") (bs "Accept") (Response.headers_ r)) r.

Definition checked (q : Request.t) (r : Response.t) : Response.t :=
  if (Response.status_code_ r =? 204) || (Response.status_code_ r =? 304) || (Response.body_size r =? 0) then r
  else match HeaderMap.get (bs "content-type") (Response.headers_ r) with
       | None => r
       | Some content_type => if accepts_content_type q content_type then r else not_acceptable r
       end.

Definition handle {W : Type} : Middleware.t W := fun next =>
  next ;;
  do request <- get_request;
  on_response (checked request).

End Negotiation.

(** ** Compression *)

Module Compression.

(** zlib, for a gzip stream: [deflateInit2] at a level, [deflateBound], and
    [deflate] with [Z_FINISH] of the input with room for so many bytes: the
    output when it returns [Z_STREAM_END].  [gunzip] is what a client makes of
    it. *)
Class Zlib := {
  z_stream : Type;
  deflateInit2 : Z -> option z_stream;
  deflateBound : z_stream -> Z -> Z;
  deflate : bytes -> Z -> z_stream -> option bytes;
  gunzip : bytes -> option bytes
}.

(** A finished stream expands to its input. *)
Class ZlibLaws `{Zlib} := {
  gunzip_deflate : forall level s b room c, deflateInit2 level = Some s -> deflate b room s = Some c -> gunzip c = Some b
}.

Definition uInt (n : Z) : Z := n mod 2 ^ 32.

(** The sizes given to zlib are 32-bit: [avail_in] and [avail_out]. *)
Definition gzip `{Zlib} (body : bytes) (level : Z) : option bytes :=
  match deflateInit2 level with
  | None => None
  | Some stream =>
      let compressed := deflateBound stream (len body) in
      let avail_in := uInt (len body) in
      let avail_out := uInt compressed in
      deflate (take (Z.to_nat avail_in) body) avail_out stream
  end.

Record Config := mkConfig { min_size_bytes : Z; gzip_level : Z; compressible_content_types : list bytes }.

Definition default_config : Config :=
  mkConfig 1024 6 [bs "text/"; bs "application/json"; bs "application/javascript"; bs "application/xml"; bs "application/problem+json"].

Definition accepts_gzip (q : Request.t) : bool :=
  match HeaderMap.get (bs "accept-encoding") (Request.headers_ q) with
  | None => false
  | Some h => existsb (fun token => starts_with (bs "gzip") (trim_loops isspace token)) (tokens ","%char (lower h))
  end.

Definition status_allows_body (status : Z) : bool := (200 <=? status) && negb (status =? 204) && negb (status =? 304).

Definition content_type_matches (content_type : bytes) (prefixes : list bytes) : bool :=
  existsb (fun p => starts_with (lower p) (lower content_type)) prefixes.

Definition response_is_compressible (c : Config) (r : Response.t) : bool :=
  if negb (status_allows_body (Response.status_code_ r)) then false
  else if Response.body_size r <? min_size_bytes c then false
  else if HeaderMap.has (bs "content-encoding") (Response.headers_ r) then false
  else match HeaderMap.get (bs "content-type") (Response.headers_ r) with
       | None => false
       | Some t => content_type_matches t (compressible_content_types c)
       end.

Definition append_vary (v : bytes) (r : Response.t) : Response.t :=
  match HeaderMap.get (bs "vary") (Response.headers_ r) with
  | None | Some [] => Response.header (bs "Vary") v r
  | Some current =>
      match find_sub (lower v) (lower current) with
      | Some _ => r
      | None => Response.with_headers (HeaderMap.set (bs "Vary") (current ++ bs ", " ++ v) (Response.headers_ r)) r
      end
  end.

Definition compress `{Zlib} (c : Config) (q : Request.t) (r : Response.t) : Response.t :=
  if negb (accepts_gzip q) || negb (response_is_compressible c r) then r
  else match gzip (Response.body_ r) (gzip_level c) with
       | None => r
       | Some z =>
           if Response.body_size r <=? len z then r
           else
             let r := Response.body z r in
             let r := Response.with_headers (HeaderMap.remove (bs "content-length") (Response.headers_ r)) r in
             append_vary (bs "Accept-Encoding") (Response.header (bs "Content-Encoding") (bs "gzip") r)
       end.

Definition handle {W : Type} `{Zlib} (c : Config) : Middleware.t W := fun next =>
  next ;;
  do request <- get_request;
  on_response (compress c request).

End Compression.
