(* ===== verification/EdgeMiddlewareProps.v ===== *)
(** * Middlewares at the edge: whose word is taken *)

From Stdlib Require Import SpecFloat.
From S2P Require Import Prelude CxxString CxxDouble HttpMessage Middleware EdgeMiddleware.
Import Middleware.

(** ** Networks *)

Module ForwardedProps.
Import Forwarded.

(** Bit [i] of an address, the most significant bit first. *)
Definition bit (i : Z) (a : bytes) : bool :=
  match a !! Z.to_nat (i / 8) with
  | Some x => Z.testbit (byte_val x) (7 - i mod 8)
  | None => false
  end.

Lemma byte_bits x y : (forall j, 0 <= j < 8 -> Z.testbit (byte_val x) j = Z.testbit (byte_val y) j) -> x = y.
Proof.
  intros B. apply (inj byte_val). apply Z.bits_inj'. intros j Hj. destruct (Z.lt_ge_cases j 8); [by apply B|].
  assert (forall z, Z.testbit (byte_val z) j = false) as O; [|by rewrite !O].
  intros z. pose proof (byte_val_range z). destruct (Z.eq_dec (byte_val z) 0) as [->|]; [apply Z.bits_0|].
  apply Z.bits_above_log2; [lia|]. apply Z.log2_lt_pow2; [lia|].
  assert (2 ^ 8 <= 2 ^ j) by (apply Z.pow_le_mono_r; lia). lia.
Qed.

(** The mask keeps the [t] high bits of a byte. *)
Lemma mask_bits t a j : 0 < t < 8 -> 0 <= a < 256 ->
  0 <= j -> Z.testbit (Z.land a (Z.shiftl 255 (8 - t) mod 256)) j = Z.testbit a j && (8 - t <=? j) && (j <? 8).
Proof.
  intros T A J. rewrite Z.land_spec, <- andb_assoc. f_equal. change 256 with (2 ^ 8).
  destruct (Z.ltb_spec j 8) as [L|L]; [|by rewrite Z.mod_pow2_bits_high, andb_false_r by lia].
  rewrite Z.mod_pow2_bits_low, Z.shiftl_spec, andb_true_r by lia.
  destruct (Z.leb_spec (8 - t) j) as [L'|L']; [|by rewrite Z.testbit_neg_r by lia].
  change 255 with (Z.ones 8). apply Z.ones_spec_low. lia.
Qed.

Lemma mask_equal t x y : 0 < t < 8 ->
  (Z.land (byte_val x) (Z.shiftl 255 (8 - t) mod 256) =? Z.land (byte_val y) (Z.shiftl 255 (8 - t) mod 256)) = true <->
  forall k, 0 <= k < t -> Z.testbit (byte_val x) (7 - k) = Z.testbit (byte_val y) (7 - k).
Proof.
  intros T. pose proof (byte_val_range x). pose proof (byte_val_range y). rewrite Z.eqb_eq. split.
  - intros E k K. apply (f_equal (fun z => Z.testbit z (7 - k))) in E. rewrite !mask_bits in E by lia.
    rewrite (proj2 (Z.leb_le _ _)), (proj2 (Z.ltb_lt _ _)), !andb_true_r in E by lia. done.
  - intros B. apply Z.bits_inj'. intros j Hj. rewrite !mask_bits by lia.
    destruct (Z.leb_spec (8 - t) j); [|by rewrite !andb_false_r]. destruct (Z.ltb_spec j 8); [|by rewrite !andb_false_r].
    rewrite !andb_true_r. specialize (B (7 - j) ltac:(lia)). by replace (7 - (7 - j)) with j in B by lia.
Qed.

(** Equality of the leading bytes is equality of their bits. *)
Lemma bytes_bits n a b : (n <= length a)%nat -> (n <= length b)%nat ->
  take n a = take n b <-> forall i, 0 <= i < 8 * Z.of_nat n -> bit i a = bit i b.
Proof.
  intros La Lb. split.
  - intros E i Hi. unfold bit. assert (Z.to_nat (i / 8) < n)%nat as Hn by dm_lia.
    by rewrite <- (lookup_take_lt a n _ Hn), <- (lookup_take_lt b n _ Hn), E.
  - intros B. apply list_eq. intros k. destruct (decide (k < n)%nat) as [Hk|Hk].
    + rewrite !lookup_take_lt by done.
      destruct (lookup_lt_is_Some_2 a k ltac:(lia)) as [x Ex]. destruct (lookup_lt_is_Some_2 b k ltac:(lia)) as [y Ey].
      rewrite Ex, Ey. f_equal. apply byte_bits. intros j Hj. specialize (B (8 * Z.of_nat k + (7 - j)) ltac:(lia)).
      unfold bit in B. replace ((8 * Z.of_nat k + (7 - j)) / 8) with (Z.of_nat k) in B by dm_lia.
      replace ((8 * Z.of_nat k + (7 - j)) mod 8) with (7 - j) in B by dm_lia.
      rewrite Nat2Z.id, Ex, Ey in B. by replace (7 - (7 - j)) with j in B by lia.
    + rewrite !lookup_take_ge by lia. done.
Qed.

Lemma same_network_bits prefix a b : length a = 16%nat -> length b = 16%nat -> 0 <= prefix <= 128 ->
  same_network prefix a b = true <-> forall i, 0 <= i < prefix -> bit i a = bit i b.
Proof.
  intros La Lb P. unfold same_network. set (n := Z.to_nat (prefix / 8)).
  assert (Z.of_nat n = prefix / 8) as En by (unfold n; dm_lia).
  pose proof (bytes_bits n a b ltac:(dm_lia) ltac:(dm_lia)) as BB.
  destruct ((0 <? Z.of_nat n) && negb (bool_decide (take n a = take n b))) eqn:G.
  - split; [done|]. intros B. exfalso. to_prop. apply H0, BB. intros i Hi. apply B. dm_lia.
  - assert (take n a = take n b) as Et.
    { destruct n; [done|]. apply andb_false_iff in G as [G|G]; to_prop; [lia|done]. }
    pose proof (proj1 BB Et) as Bf. destruct (Z.eqb_spec (prefix mod 8) 0) as [T|T].
    + split; [|done]. intros _ i Hi. apply Bf. dm_lia.
    + assert (n < 16)%nat as Hn by dm_lia.
      destruct (lookup_lt_is_Some_2 a n ltac:(lia)) as [x Ex]. destruct (lookup_lt_is_Some_2 b n ltac:(lia)) as [y Ey].
      rewrite Ex, Ey, mask_equal by dm_lia.
      assert (forall k, 0 <= k < prefix mod 8 -> bit (8 * Z.of_nat n + k) a = Z.testbit (byte_val x) (7 - k) /\
                bit (8 * Z.of_nat n + k) b = Z.testbit (byte_val y) (7 - k)) as Bk.
      { intros k Hk. unfold bit. replace ((8 * Z.of_nat n + k) / 8) with (Z.of_nat n) by dm_lia.
        replace ((8 * Z.of_nat n + k) mod 8) with k by dm_lia. rewrite Nat2Z.id, Ex, Ey. done. }
      split.
      * intros B i Hi. destruct (Z.lt_ge_cases i (8 * Z.of_nat n)) as [L|L]; [apply Bf; lia|].
        specialize (B (i - 8 * Z.of_nat n) ltac:(dm_lia)). destruct (Bk (i - 8 * Z.of_nat n)) as [B1 B2]; [dm_lia|].
        replace (8 * Z.of_nat n + (i - 8 * Z.of_nat n)) with i in * by lia. congruence.
      * intros B k Hk. destruct (Bk k Hk) as [<- <-]. apply B. dm_lia.
Qed.

Lemma digits_run_grows acc s : 0 <= acc -> acc <= fst (digits_run 10 acc s).
Proof.
  revert acc. induction s as [|x s IH]; intros acc A; cbn; [lia|].
  destruct (digit_val 10 x) as [d|] eqn:E; [|cbn; lia].
  assert (0 <= d). { unfold digit_val, isdigit in E. cbn zeta in E. pose proof (byte_val_range x).
    repeat case_hyp E; simplify_eq; to_prop; lia. }
  specialize (IH (acc * 10 + d) ltac:(lia)). lia.
Qed.

Lemma prefix_digits_value acc s : 0 <= acc -> Forall (fun x => isdigit x = true) s ->
  fst (digits_run 10 acc s) < 2 ^ 31 -> prefix_digits acc s = Some (Some (fst (digits_run 10 acc s))).
Proof.
  revert acc. induction s as [|x s IH]; intros acc A D L; [done|]. apply Forall_cons in D as [Dx D].
  cbn [prefix_digits digits_run] in *. rewrite Dx. cbn [negb].
  assert (digit_val 10 x = Some (byte_val x - 48)) as E.
  { unfold digit_val. rewrite Dx. unfold isdigit in Dx. to_prop. by rewrite (proj2 (Z.ltb_lt _ _)) by lia. }
  rewrite E in *. assert (0 <= byte_val x - 48) by (unfold isdigit in Dx; to_prop; lia).
  pose proof (digits_run_grows (acc * 10 + (byte_val x - 48)) s ltac:(lia)).
  rewrite (proj2 (Z.leb_gt _ _)) by lia. apply IH; [lia|done|done].
Qed.

Definition width (f : Family) : Z := match f with AF_INET => 32 | AF_INET6 => 128 end.

Lemma parse_ip_length `{Inet, !InetLaws} s f a : parse_ip s = Some (f, a) -> length a = 16%nat.
Proof.
  unfold parse_ip, pad16. destruct (inet_pton4 (c_str s)) as [b|] eqn:E; [|destruct (inet_pton6 (c_str s)) as [b|] eqn:E6; [|done]];
    intros [= _ <-]; rewrite length_app, repeat_length; [apply pton4_length in E|apply pton6_length in E6]; lia.
Qed.

(** A CIDR [address/n] contains a peer exactly when both are addresses
    of one family, [n] is at most the width of the family, and the first [n]
    bits of the two agree. *)
Theorem cidr_contains_correct `{Inet, !InetLaws} address n peer
  (Haddr : "/"%char ∉ address) (Hn : 0 <= n < 2 ^ 31) :
  exists answer, cidr_contains (address ++ "/"%char :: to_dec n) peer = Some answer /\
  (answer = true <-> exists f a b, parse_ip address = Some (f, a) /\ parse_ip peer = Some (f, b) /\
     n <= width f /\ forall i, 0 <= i < n -> bit i a = bit i b).
Proof.
  unfold cidr_contains. rewrite find_char_app by done.
  replace (drop (length address + 1) (address ++ "/"%char :: to_dec n)) with (to_dec n)
    by (rewrite drop_app_ge by lia; by replace (length address + 1 - length address)%nat with 1%nat by lia).
  destruct (to_dec_spec n ltac:(lia)) as (_ & _ & Dn).
  rewrite prefix_digits_value; [|lia|apply to_dec_isdigit; lia|rewrite Dn; lia].
  rewrite Dn, take_app_length.
  destruct (parse_ip address) as [[f a]|] eqn:Ea; [|eexists; split; [done|]; split; [done|]; by intros (? & ? & ? & ? & _)].
  destruct (parse_ip peer) as [[g b]|] eqn:Eb; [|eexists; split; [done|]; split; [done|]; by intros (? & ? & ? & _ & ? & _)].
  destruct (decide (f = g)) as [<-|N]; [rewrite bool_decide_true by done|rewrite bool_decide_false by done]; cbn [negb].
  - apply parse_ip_length in Ea as La. apply parse_ip_length in Eb as Lb.
    replace (if decide (f = AF_INET) then 32 else 128) with (width f) by (by destruct f).
    rewrite (proj2 (Z.ltb_ge n 0)) by lia. cbn [orb]. destruct (Z.ltb_spec (width f) n) as [L|L].
    + eexists. split; [done|]. split; [done|]. intros (f' & a' & b' & [= <- <-] & _ & ? & _). lia.
    + eexists. split; [done|]. assert (width f <= 128) by (destruct f; cbn; lia).
      rewrite same_network_bits by (done || lia). split.
      * intros B. by exists f, a, b.
      * intros (f' & a' & b' & [= <- <-] & [= <-] & _ & B). exact B.
  - eexists. split; [done|]. split; [done|]. intros (f' & a' & b' & [= <- <-] & [= <- _] & _). done.
Qed.

(** ** What a trusted peer may change *)

Section Forwarded.
Context `{Inet}.

(** The request but for the three fields, each as it was or set to a checked value. *)
Record forwarded_from (c : Config) (r r' : Request.t) : Prop := {
  ff_rest : Request.set_scheme (Request.scheme_ r) (Request.set_authority (Request.authority_ r)
              (Request.set_client_address (Request.client_address_ r) r')) = r;
  ff_scheme : Request.scheme_ r' = Request.scheme_ r \/
              apply_proto c = true /\ (Request.scheme_ r' = bs "https" \/ Request.scheme_ r' = bs "http");
  ff_authority : Request.authority_ r' = Request.authority_ r \/
                 apply_host c = true /\ safe_value (Request.authority_ r') = true;
  ff_client : Request.client_address_ r' = Request.client_address_ r \/
              is_Some (parse_ip (Request.client_address_ r'))
}.

Lemma forwarded_refl c r : forwarded_from c r r.
Proof. split; [by destruct r|by left..]. Qed.

Lemma from_scheme c r r' v : apply_proto c = true -> v = bs "https" \/ v = bs "http" ->
  forwarded_from c r r' -> forwarded_from c r (Request.set_scheme v r').
Proof. intros A V [F1 F2 F3 F4]. split; [done|by right|done|done]. Qed.

Lemma from_authority c r r' v : apply_host c = true -> safe_value v = true ->
  forwarded_from c r r' -> forwarded_from c r (Request.set_authority v r').
Proof. intros A V [F1 F2 F3 F4]. split; [done|done|by right|done]. Qed.

Lemma from_client c r r' v ip : forwarded_client_ip v = Some ip ->
  forwarded_from c r r' -> forwarded_from c r (Request.set_client_address ip r').
Proof.
  intros E [F1 F2 F3 F4]. split; [done|done|done|right]. cbn. unfold forwarded_client_ip in E. cbv zeta in E.
  match type of E with match ?a with Some _ => _ | None => None end = _ => destruct a as [a0|] end; [|done].
  destruct (parse_ip a0) as [q|] eqn:P; simplify_eq. by rewrite P.
Qed.

Lemma apply_part_from c r r' part : forwarded_from c r r' -> forwarded_from c r (apply_part c r' part).
Proof.
  intros F. unfold apply_part. cbv zeta. destruct (find_char _ _) as [e|]; [|done].
  generalize (trim_loops isspace (take e (trim_loops isspace part))). intros name.
  generalize (unquote (drop (e + 1) (trim_loops isspace part))). intros value.
  destruct (safe_value value) eqn:S; [|done]. cbn [negb].
  destruct (apply_proto c && iequals name (bs "proto") && _) eqn:C1.
  - apply andb_true_iff in C1 as [C1 C1']. apply orb_true_iff in C1'. apply andb_true_iff in C1 as [C1 _].
    assert (forwarded_from c r (Request.set_scheme value r')) as F1.
    { apply from_scheme; [done|destruct C1'; to_prop; auto|done]. }
    destruct (apply_host c && _) eqn:C2; to_prop; (destruct (iequals name (bs "for")); [|by auto using from_authority]);
      destruct (forwarded_client_ip value) as [ip|] eqn:C3; eauto using from_client, from_authority.
  - destruct (apply_host c && _) eqn:C2; to_prop; (destruct (iequals name (bs "for")); [|by auto using from_authority]);
      destruct (forwarded_client_ip value) as [ip|] eqn:C3; eauto using from_client, from_authority.
Qed.

Lemma apply_forwarded_from c r : forwarded_from c r (apply_forwarded c r).
Proof.
  unfold apply_forwarded, for_each. destruct (Request.header _ r) as [h|]; [|apply forwarded_refl].
  generalize (tokens ";"%char (match find_char ","%char h with Some i => take i h | None => h end)). intros l.
  assert (forall r', forwarded_from c r r' -> forwarded_from c r (foldl (apply_part c) r' l)) as G.
  { induction l as [|p l IH]; intros r' F; [done|]. cbn [foldl]. by apply IH, apply_part_from. }
  apply G, forwarded_refl.
Qed.

(** The Forwarded header of a peer that is not trusted changes
    nothing; that of a trusted one changes at most the scheme (to http or
    https), the authority (to a value without separators and control
    characters) and the client address (to a text that is an address), each
    only as configured, and nothing else of the request. *)
Theorem forwarded_confined {W} c (next : M W ()) x :
  match peer_is_trusted c (Request.peer_address_ (request x)) with
  | Some false => handle c next x = next x
  | Some true => exists r', handle c next x = next (mkEx r' (response x) (context x) (world x)) /\
                   forwarded_from c (request x) r'
  | None => handle c next x = (inl Undefined, x)
  end.
Proof.
  unfold handle. erewrite bind_ok by done.
  destruct (peer_is_trusted _ _) as [[]|]; [|done|done]. erewrite bind_ok by done.
  eexists. split; [done|]. apply apply_forwarded_from.
Qed.
End Forwarded.

(** An [inet_pton] that knows a few addresses. *)
#[global] Instance few_addresses : Inet := {|
  inet_pton4 s :=
    if decide (s = bs "10.0.0.0") then Some (map byte_of_Z [10; 0; 0; 0])
    else if decide (s = bs "10.1.2.3") then Some (map byte_of_Z [10; 1; 2; 3])
    else if decide (s = bs "8.8.8.8") then Some (map byte_of_Z [8; 8; 8; 8]) else None;
  inet_pton6 s := None
|}.

#[global] Instance few_addresses_laws : InetLaws.
Proof. split; cbn; intros s a E; [|done]. repeat case_hyp E; simplify_eq; done. Qed.

Lemma cidr_contains_correct_witness :
  exists answer, cidr_contains (bs "10.0.0.0" ++ "/"%char :: to_dec 8) (bs "10.1.2.3") = Some answer /\
  (answer = true <-> exists f a b, parse_ip (bs "10.0.0.0") = Some (f, a) /\ parse_ip (bs "10.1.2.3") = Some (f, b) /\
     8 <= width f /\ forall i, 0 <= i < 8 -> bit i a = bit i b).
Proof.
  apply (cidr_contains_correct (bs "10.0.0.0") 8 (bs "10.1.2.3")); [by apply find_char_None|lia].
Defined.

Lemma cidr_samples :
  cidr_contains (bs "10.0.0.0/8") (bs "10.1.2.3") = Some true /\
  cidr_contains (bs "10.0.0.0/15") (bs "10.1.2.3") = Some true /\
  cidr_contains (bs "10.0.0.0/16") (bs "10.1.2.3") = Some false /\
  cidr_contains (bs "10.0.0.0/33") (bs "10.1.2.3") = Some false.
Proof. by vm_compute. Qed.

(** An empty prefix length is read as 0: the CIDR trusts every peer of its family. *)
Lemma empty_prefix_trusts_all `{Inet} address peer f a b : "/"%char ∉ address ->
  parse_ip address = Some (f, a) -> parse_ip peer = Some (f, b) ->
  cidr_contains (address ++ bs "/") peer = Some true.
Proof.
  intros N Ea Eb. unfold cidr_contains. change (bs "/") with ("/"%char :: []). rewrite find_char_app by done.
  rewrite drop_ge by (rewrite length_app; cbn; lia). cbn [prefix_digits]. rewrite take_app_length, Ea, Eb.
  rewrite bool_decide_true by done. cbn [negb]. by destruct f.
Qed.

(** A long prefix length overflows the [int] it is read into. *)
Lemma long_prefix_overflows `{Inet} peer : cidr_contains (bs "10.0.0.0/9999999999") peer = None.
Proof. done. Qed.
End ForwardedProps.

(** ** Cross-origin requests *)

Module CorsProps.
Import Cors.

(** A preflight request never reaches the handler. *)
Lemma preflight_stops {W : Type} c (next next' : M W ()) x : Request.method_ (request x) = bs "OPTIONS" ->
  handle c next x = handle c next' x.
Proof.
  intros E. unfold handle. erewrite !bind_ok by done. destruct (origin_value _ _); [|done].
  erewrite !bind_ok by done. by rewrite bool_decide_true.
Qed.

Definition two_origins : Config := mkConfig [bs "https://a"; bs "https://b"] [] [] [] false 0.

(** An allowed origin is reflected; any other gets the whole list, which is no
    origin; and with no origin configured the first element of an empty vector
    is read. *)
Lemma foreign_origin_gets_the_list :
  origin_value two_origins (Some (bs "https://b")) = Some (bs "https://b") /\
  origin_value two_origins (Some (bs "https://evil")) = Some (bs "https://a, https://b") /\
  origin_value (mkConfig [] [] [] [] false 0) (Some (bs "https://a")) = None.
Proof. by vm_compute. Qed.
End CorsProps.

(** ** The size of bodies *)

Module BodySizeProps.
Import BodySize.

(** A request whose declared length is right reaches the rest only when its
    body is within the limit. *)
Lemma body_size_limited {W : Type} c (next : M W ()) x :
  path_allowed (allowlist_paths c) (Request.path_ (request x)) = false ->
  (forall n, declared_content_length (request x) = Some n -> n = len (Request.body_ (request x))) ->
  handle c next x =
    if max_body_bytes c <? len (Request.body_ (request x)) then
      (inr (), mkEx (request x) (Response.json (response_body c) (Response.status (status_code c) (response x)))
         (context x) (world x))
    else next x.
Proof.
  intros P D. unfold handle. erewrite bind_ok by done. rewrite P. cbv zeta.
  replace (default (Request.content_length (request x)) (declared_content_length (request x)))
    with (len (Request.body_ (request x))); [by case_goal|].
  destruct (declared_content_length (request x)) as [n|] eqn:E; [|done]. cbn. symmetry. by apply D.
Qed.

(** A declared length is believed: a body over the limit passes when the
    request declares a short one. *)
Lemma declared_length_believed {W : Type} c (next : M W ()) x :
  path_allowed (allowlist_paths c) (Request.path_ (request x)) = false -> 0 <= max_body_bytes c ->
  Request.header (bs "content-length") (request x) = Some (bs "0") -> handle c next x = next x.
Proof.
  intros P M E. unfold handle. erewrite bind_ok by done. rewrite P. cbv zeta.
  assert (declared_content_length (request x) = Some 0) as ->
    by (unfold declared_content_length; rewrite E; by vm_compute).
  cbn [default]. by rewrite (proj2 (Z.ltb_ge _ _)).
Qed.
End BodySizeProps.

(** ** Security headers *)

Module SecurityHeadersProps.
Import SecurityHeaders.

Lemma get_app n h e : HeaderMap.get n (h ++ e) = match HeaderMap.get n h with Some v => Some v | None => HeaderMap.get n e end.
Proof. induction h as [|x h IH]; [done|]. cbn. by destruct (HeaderMap.names_equal _ _). Qed.

Lemma get_self n v : HeaderMap.get n [HeaderMap.mkEntry n v] = Some v.
Proof. cbn. unfold HeaderMap.names_equal. by rewrite Z.eqb_refl, iequals_lower, bool_decide_true. Qed.

(** [r'] has the headers of [r] and more, and nothing else changed. *)
Definition extends (r r' : Response.t) : Prop :=
  exists added, r' = Response.with_headers (Response.headers_ r ++ added) r.

#[local] Instance extends_refl : Reflexive extends.
Proof. intros r. exists []. rewrite app_nil_r. by destruct r. Qed.

#[local] Instance extends_trans : Transitive extends.
Proof. intros r1 r2 r3 [a ->] [b ->]. exists (a ++ b). cbn. by rewrite <- app_assoc. Qed.

Lemma extends_get r r' n v : extends r r' ->
  HeaderMap.get n (Response.headers_ r) = Some v -> HeaderMap.get n (Response.headers_ r') = Some v.
Proof. intros [a ->] E. cbn. by rewrite get_app, E. Qed.

Lemma extends_has r r' n : extends r r' ->
  HeaderMap.has n (Response.headers_ r) = true -> HeaderMap.has n (Response.headers_ r') = true.
Proof.
  intros X. unfold HeaderMap.has. destruct (HeaderMap.get n (Response.headers_ r)) as [v|] eqn:E; [|done].
  by rewrite (extends_get r r' n v).
Qed.

Lemma set_if_absent_spec r n v : extends r (set_if_absent r n v) /\
  (v <> [] -> HeaderMap.has n (Response.headers_ (set_if_absent r n v)) = true).
Proof.
  unfold set_if_absent. destruct (negb (len v =? 0) && negb (HeaderMap.has n (Response.headers_ r))) eqn:G.
  - split; [by exists [HeaderMap.mkEntry n v]|]. intros _. unfold HeaderMap.has. cbn. unfold HeaderMap.add.
    rewrite get_app, get_self. by destruct (HeaderMap.get n (Response.headers_ r)).
  - split; [done|]. intros N. apply andb_false_iff in G as [G|G]; to_prop; [|done]. destruct v; [done|]. len_lia.
Qed.

(** A loop of [set_if_absent] keeps what is there and adds every enabled header. *)
Lemma set_all_spec (l : list (bool * bytes * bytes)) r :
  let r' := foldl (fun r '(on, name, value) => if on : bool then set_if_absent r name value else r) r l in
  extends r r' /\ forall n v, (true, n, v) ∈ l -> v <> [] -> HeaderMap.has n (Response.headers_ r') = true.
Proof.
  revert r. induction l as [|[[on m] w] l IH]; intros r; cbn zeta.
  - split; [done|]. intros n v Hn. by apply elem_of_nil in Hn.
  - cbn [foldl]. destruct (set_if_absent_spec r m w) as [S1 S2].
    destruct (IH (if on then set_if_absent r m w else r)) as [I1 I2]. split.
    + etransitivity; [|exact I1]. by destruct on.
    + intros n v Hn N. apply elem_of_cons in Hn as [[= <- <- <-]|Hn]; [|by eapply I2].
      eapply extends_has; [exact I1|]. by apply S2.
Qed.

(** The headers a configuration and a scheme ask for. *)
Definition wanted order (c : Config) (scheme : bytes) : list (bool * bytes * bytes) :=
  builtin_headers c scheme ++ map (fun nv => (true, fst nv, snd nv)) (order (custom_headers c)).

Lemma security_headers_fold order c scheme r : security_headers order c scheme r =
  foldl (fun r '(on, name, value) => if on : bool then set_if_absent r name value else r) r (wanted order c scheme).
Proof.
  unfold security_headers, wanted, for_each. rewrite foldl_app. generalize (order (custom_headers c)). intros l.
  generalize (foldl (fun r '(on, name, value) => if on : bool then set_if_absent r name value else r) r (builtin_headers c scheme)).
  induction l as [|[n v] l IH]; intros r0; [done|]. cbn. apply IH.
Qed.

(** When the rest of the pipeline returns, the response
    keeps its status, body and headers (a header the handler set keeps its
    value) and has every enabled header with a value; when it throws, the
    exception passes through. *)
Theorem security_headers_added {W : Type} order c (next : M W ()) x :
  match next x with
  | (inl e, y) => handle order c next x = (inl e, y)
  | (inr _, y) => exists r', handle order c next x = (inr (), mkEx (request y) r' (context y) (world y)) /\
      extends (response y) r' /\
      (forall n v, HeaderMap.get n (Response.headers_ (response y)) = Some v ->
         HeaderMap.get n (Response.headers_ r') = Some v) /\
      (forall n v, (true, n, v) ∈ wanted order c (Request.scheme_ (request y)) -> v <> [] ->
         HeaderMap.has n (Response.headers_ r') = true)
  end.
Proof.
  destruct (next x) as [[e|[]] y] eqn:E; unfold handle; [by erewrite bind_throw|].
  erewrite bind_ok by done. erewrite bind_ok by done. eexists. split; [done|].
  rewrite security_headers_fold.
  destruct (set_all_spec (wanted order c (Request.scheme_ (request y))) (response y)) as [S1 S2].
  split_and!; [exact S1| |exact S2]. intros n v G. by eapply extends_get.
Qed.
End SecurityHeadersProps.

(** ** Content negotiation *)

Module NegotiationProps.
Import Negotiation.

(** A quality is positive and at most 1: a positive finite number. *)
Definition positive (q : double) : Prop := exists m e, q = S754_finite false m e.

Lemma positive_lt m e m' e' : dltb (S754_finite false m e) (S754_finite false m' e') = true <->
  e < e' \/ (e = e' /\ (m < m')%positive).
Proof.
  unfold dltb, SFltb, SFcompare. destruct (Z.compare_spec e e') as [->|L|L].
  - change (Pos.compare_cont Eq m m') with (Pos.compare m m'). destruct (Pos.compare_spec m m') as [->|L|L]; (split; [|done || lia]); intros X; (done || lia).
  - split; [|done]. intros _. by left.
  - split; [done|]. lia.
Qed.

Lemma quality_step_ok r p q : (forall q, r = Some q -> positive q \/ dltb zero q = false) ->
  quality_step r p = Some q -> positive q \/ dltb zero q = false.
Proof.
  intros H X. unfold quality_step in X. destruct r as [q0|]; [|done].
  assert (forall q1, Some q0 = Some q1 -> positive q1 \/ dltb zero q1 = false) as H0 by exact H.
  destruct (find_char _ _); [|by apply H0]. destruct (negb _); [by apply H0|].
  destruct (strtod _) as [q1 rest]. destruct (_ || _) eqn:E; [done|]. injection X as <-. to_prop.
  destruct q1 as [s|[]| |[] m e]; try (by right). left. by exists m, e.
Qed.

Lemma quality_ok ps q : quality ps = Some q -> dltb zero q = true -> positive q.
Proof.
  unfold quality, for_each. set (l := tokens ";"%char ps). clearbody l.
  assert (forall r, (forall q, r = Some q -> positive q \/ dltb zero q = false) -> foldl quality_step r l = Some q ->
    positive q \/ dltb zero q = false) as F.
  { induction l as [|p l IH]; intros r H X; cbn in X; [by apply H|]. apply (IH (quality_step r p)); [|done].
    intros q1. by apply quality_step_ok. }
  intros X Z. destruct (F (Some one)) as [P|P]; [|done|done|congruence].
  intros q1 [= <-]. left. by eexists _, _.
Qed.

(** What the client accepts of the offers: a range of its header with a positive
    quality that matches. *)
Definition segment_quality (segment : bytes) : option double :=
  let segment := trim_media_token segment in
  if len segment =? 0 then None
  else quality (match find_char ";"%char segment with Some i => drop (S i) segment | None => [] end).
Definition segment_range (segment : bytes) : bytes :=
  let segment := trim_media_token segment in trim_media_token (before (find_char ";"%char segment) segment).

Definition accepted (segment candidate : bytes) (q : double) : Prop :=
  segment_quality segment = Some q /\ dltb zero q = true /\ media_range_matches (segment_range segment) candidate = true.

(** The best so far of what was looked at. *)
Definition best_of (seen : bytes -> bytes -> Prop) (b : Best) : Prop :=
  match snd b with
  | None => fst b = SFopp one /\ forall s c q, seen s c -> ~ accepted s c q
  | Some c => positive (fst b) /\ (exists s, seen s c /\ accepted s c (fst b)) /\
      forall s c' q, seen s c' -> accepted s c' q -> dltb (fst b) q = false
  end.

Lemma accepted_positive s c q : accepted s c q -> positive q.
Proof. intros (A & B & _). unfold segment_quality in A. destruct (_ =? 0); [done|]. by eapply quality_ok. Qed.

(** What is looked at matters only where it is accepted. *)
Lemma best_more (seen seen' : bytes -> bytes -> Prop) b : (forall s c, seen s c -> seen' s c) ->
  (forall s c q, seen' s c -> accepted s c q -> seen s c) -> best_of seen b -> best_of seen' b.
Proof.
  intros I O B. unfold best_of in *. destruct (snd b) as [c|].
  - destruct B as (Pb & (s & S1 & S2) & Mx). split; [done|]. split; [exists s; auto|]. intros s' c' q' S A. eapply Mx; [by eapply O|done].
  - destruct B as [Fb B]. split; [done|]. intros s c q S A. by eapply B; [eapply O|].
Qed.

Lemma best_offer seen s q b c : segment_quality s = Some q -> dltb zero q = true -> best_of seen b ->
  best_of (fun s' c' => seen s' c' \/ (s' = s /\ c' = c)) (offer_step (segment_range s) q b c).
Proof.
  intros Sq Z B. unfold offer_step.
  assert (positive q) as Pq by (unfold segment_quality in Sq; destruct (_ =? 0); [done|]; by eapply quality_ok).
  assert (forall q', accepted s c q' -> q' = q) as U by (intros q' (A & _); congruence).
  destruct (media_range_matches (segment_range s) c) eqn:M; cycle 1.
  { rewrite andb_false_r. eapply best_more; [| |exact B]; [by left|]. intros s' c' q' [S|[-> ->]] (_ & _ & A); [done|congruence]. }
  destruct (dltb (fst b) q) eqn:L; cbn [andb]; unfold best_of in *; cbn [fst snd].
  - split; [done|]. split; [exists s; split; [by right|done]|]. destruct Pq as (mq & eq_ & ->).
    intros s' c' q' [S|[-> ->]] A'; [|apply U in A' as ->; apply not_true_is_false; rewrite positive_lt; lia].
    destruct (snd b) as [cb|]; [|by destruct B as [_ B]; apply B in A'].
    destruct B as (Pb & _ & Mx). pose proof (Mx _ _ _ S A') as N. pose proof (accepted_positive _ _ _ A') as P'.
    destruct Pb as (mb & eb & Eb), P' as (m' & e' & ->). rewrite Eb in L, N. apply not_true_iff_false in N.
    rewrite positive_lt in N, L. apply not_true_is_false. rewrite positive_lt. lia.
  - destruct (snd b) as [cb|] eqn:Sb.
    + destruct B as (Pb & (sb & S1 & S2) & Mx). split; [done|]. split; [exists sb; split; [by left|done]|].
      intros s' c' q' [S|[-> ->]] A'; [by eapply Mx|]. by apply U in A' as ->.
    + destruct B as [Fb _]. rewrite Fb in L. by destruct Pq as (mq & eq_ & ->).
Qed.

(** The loops over the offers and the ranges. *)
Lemma best_offers seen s q offered b : segment_quality s = Some q -> dltb zero q = true -> best_of seen b ->
  best_of (fun s' c' => seen s' c' \/ (s' = s /\ c' ∈ offered)) (for_each (offer_step (segment_range s) q) offered b).
Proof.
  intros Sq Z. unfold for_each. revert seen b. induction offered as [|c offered IH]; intros seen b B; cbn.
  - eapply best_more; [| |exact B]; [by left|]. intros s' c' q' [S|[_ S]]; [done|by apply not_elem_of_nil in S].
  - apply (best_offer _ s q b c Sq Z), IH in B. eapply best_more; [intros s' c'|intros s' c' q'|exact B]; cbn; rewrite elem_of_cons; tauto.
Qed.

Lemma best_range seen offered b s : best_of seen b ->
  best_of (fun s' c' => seen s' c' \/ (s' = s /\ c' ∈ offered)) (range_step offered b s).
Proof.
  intros B. destruct (segment_quality s) as [q|] eqn:Q; [destruct (dltb zero q) eqn:P|].
  - pose proof (best_offers seen s q offered b Q P B) as X. unfold range_step. unfold segment_quality in Q. destruct (_ =? 0); [done|].
    by rewrite Q, P.
  - assert (range_step offered b s = b) as -> by (unfold range_step; unfold segment_quality in Q; destruct (_ =? 0); [done|]; by rewrite Q, P).
    eapply best_more; [| |exact B]; [by left|]. intros s' c' q' [S|[-> _]] (A1 & A2 & _); [done|congruence].
  - assert (range_step offered b s = b) as -> by (unfold range_step; unfold segment_quality in Q; destruct (_ =? 0); [done|]; by rewrite Q).
    eapply best_more; [| |exact B]; [by left|]. intros s' c' q' [S|[-> _]] (A1 & A2 & _); [done|congruence].
Qed.

Lemma best_ranges offered segments seen b : best_of seen b ->
  best_of (fun s c => seen s c \/ (s ∈ segments /\ c ∈ offered)) (for_each (range_step offered) segments b).
Proof.
  unfold for_each. revert seen b. induction segments as [|s segments IH]; intros seen b B; cbn.
  - eapply best_more; [| |exact B]; [by left|]. intros s' c' q' [S|[S _]]; [done|by apply not_elem_of_nil in S].
  - apply (best_range _ offered _ s), IH in B. eapply best_more; [intros s' c'|intros s' c' q'|exact B]; cbn; rewrite elem_of_cons; tauto.
Qed.

(** The representation chosen from an [Accept] header that is not blank is an offer
    that one of its ranges accepts with the highest quality that any range gives to
    any offer; there is none exactly when no range accepts an offer. *)
Theorem negotiation_best accept offered : offered <> [] -> len (trim_media_token accept) <> 0 ->
  match negotiate_content_type (Some accept) offered with
  | Some c => c ∈ offered /\ exists s q, s ∈ split_on ","%char accept /\ accepted s c q /\
      forall s' c' q', s' ∈ split_on ","%char accept -> c' ∈ offered -> accepted s' c' q' -> dltb q q' = false
  | None => forall s c q, s ∈ split_on ","%char accept -> c ∈ offered -> ~ accepted s c q
  end.
Proof.
  intros N B. unfold negotiate_content_type. destruct offered as [|o offered]; [done|]. rewrite (proj2 (Z.eqb_neq _ _) B).
  pose proof (best_ranges (o :: offered) (split_on ","%char accept) (fun _ _ => False) (SFopp one, None)) as X.
  unfold best_of in X at 2. destruct (for_each _ _ _) as [q [c|]]; cbn in *.
  - destruct X as (_ & (s & [S|[S1 S2]] & A) & Mx); [done|done|]. split; [done|]. exists s, q. split; [done|]. split; [done|].
    intros s' c' q' S' C' A'. eapply Mx; [|exact A']. by right.
  - destruct X as [_ X]; [done|]. intros s c q' S C. apply X. by right.
Qed.

Lemma negotiation_best_witness : match negotiate_content_type (Some (bs "text/*;q=0.5, application/json;q=0.8")) [bs "text/html"; bs "application/json"] with
  | Some c => c ∈ [bs "text/html"; bs "application/json"] /\ exists s q, s ∈ split_on ","%char (bs "text/*;q=0.5, application/json;q=0.8") /\ accepted s c q /\
      forall s' c' q', s' ∈ split_on ","%char (bs "text/*;q=0.5, application/json;q=0.8") -> c' ∈ [bs "text/html"; bs "application/json"] ->
        accepted s' c' q' -> dltb q q' = false
  | None => forall s c q, s ∈ split_on ","%char (bs "text/*;q=0.5, application/json;q=0.8") -> c ∈ [bs "text/html"; bs "application/json"] -> ~ accepted s c q
  end.
Proof. apply (negotiation_best (bs "text/*;q=0.5, application/json;q=0.8") [bs "text/html"; bs "application/json"]); vm_compute; discriminate. Defined.

Example preferred_type : negotiate_content_type (Some (bs "text/*;q=0.5, application/json;q=0.8")) [bs "text/html"; bs "application/json"] =
  Some (bs "application/json").
Proof. by vm_compute. Qed.

(** Of two offers with one quality the range that comes first in the header decides. *)
Lemma ties_follow_the_header : negotiate_content_type (Some (bs "text/html, application/json")) [bs "application/json"; bs "text/html"] =
  Some (bs "text/html").
Proof. by vm_compute. Qed.

(** A type that a specific range refuses is accepted by a general one. *)
Lemma specific_refusal_ignored : negotiate_content_type (Some (bs "text/*, text/plain;q=0")) [bs "text/plain"] = Some (bs "text/plain").
Proof. by vm_compute. Qed.

End NegotiationProps.

(** ** Compression *)

Module CompressionProps.
Import Compression HeaderMapSpec.

Section Compression.
Context `{ZlibLaws}.

(** The headers that compression may change. *)
Definition its_own (name : bytes) : Prop := lower name ∈ [bs "content-length"; bs "content-encoding"; bs "vary"].

Lemma get_all_other n m v h : lower n <> lower m -> HeaderMap.get_all n (HeaderMap.add m v h) = HeaderMap.get_all n h /\
  HeaderMap.get_all n (HeaderMap.set m v h) = HeaderMap.get_all n h /\ HeaderMap.get_all n (HeaderMap.remove m h) = HeaderMap.get_all n h.
Proof.
  intros D. rewrite !get_all_abs. split_and!.
  - rewrite abs_add. by case_bool_decide.
  - rewrite abs_set. by case_bool_decide.
  - rewrite abs_remove. by case_bool_decide.
Qed.

Lemma find_sub_end p a : is_Some (find_sub p (a ++ p)).
Proof.
  induction a as [|x a IH].
  - cbn [app]. destruct p as [|y p]; [by eexists|]. cbn [find_sub]. rewrite <- (app_nil_r (y :: p)) at 2. rewrite starts_with_app. by eexists.
  - cbn [app find_sub]. destruct (starts_with p (x :: a ++ p)); [by eexists|]. destruct IH as [i ->]. by eexists.
Qed.

(** The value is in a [Vary] header, and no other header changes. *)
Lemma append_vary_spec v r : let r' := append_vary v r in
  (exists w, w ∈ HeaderMap.get_all (bs "vary") (Response.headers_ r') /\ is_Some (find_sub (lower v) (lower w))) /\
  (forall n, lower n <> bs "vary" -> HeaderMap.get_all n (Response.headers_ r') = HeaderMap.get_all n (Response.headers_ r)) /\
  Response.body_ r' = Response.body_ r /\ Response.status_code_ r' = Response.status_code_ r.
Proof.
  cbn zeta. unfold append_vary.
  assert (forall h, v ∈ HeaderMap.get_all (bs "vary") (HeaderMap.add (bs "Vary") v h)) as A.
  { intros h. rewrite get_all_abs, abs_add. rewrite bool_decide_eq_true_2 by done. apply elem_of_app. right. by left. }
  assert (is_Some (find_sub (lower v) (lower v))) as F by exact (find_sub_end (lower v) []).
  assert (forall n h w, lower n <> bs "vary" -> HeaderMap.get_all n (HeaderMap.add (bs "Vary") w h) = HeaderMap.get_all n h /\
    HeaderMap.get_all n (HeaderMap.set (bs "Vary") w h) = HeaderMap.get_all n h) as O.
  { intros n h w N. by destruct (get_all_other n (bs "Vary") w h N) as (B1 & B2 & _). }
  destruct (HeaderMap.get (bs "vary") (Response.headers_ r)) as [[|x cur]|] eqn:G.
  - split_and!; [exists v; split; [apply A|exact F]|intros n N; apply (O n (Response.headers_ r) v N)|done..].
  - destruct (find_sub (lower v) (lower (x :: cur))) as [i|] eqn:E.
    + split_and!; [|done..]. exists (x :: cur). split; [|by eexists]. rewrite get_abs in G. rewrite get_all_abs.
      destruct (abs _ _) as [|y l]; [done|]. injection G as ->. by left.
    + split_and!; [|intros n N; apply (O n (Response.headers_ r) _ N)|done..]. exists ((x :: cur) ++ bs ", " ++ v). split.
      * cbn [Response.headers_ Response.with_headers]. rewrite get_all_abs, abs_set, bool_decide_eq_true_2 by done. by left.
      * unfold lower at 2. rewrite !map_app, app_assoc. apply find_sub_end.
  - split_and!; [exists v; split; [apply A|exact F]|intros n N; apply (O n (Response.headers_ r) v N)|done..].
Qed.

(** What the client expands is what zlib was given. *)
Lemma gunzip_gzip (b : bytes) level z : gzip b level = Some z -> gunzip z = Some (take (Z.to_nat (uInt (len b))) b).
Proof. unfold gzip. destruct (deflateInit2 level) as [s|] eqn:E; [|done]. by apply gunzip_deflate with (1 := E). Qed.

Lemma uInt_whole (b : bytes) : len b < 2 ^ 32 -> take (Z.to_nat (uInt (len b))) b = b.
Proof. intros L. unfold uInt. rewrite Z.mod_small by (unfold len in *; lia). apply take_ge. unfold len. lia. Qed.

(** [C39] Compression is transparent for a body of less than 4 GiB.  The
    response that leaves the middleware is the one the handler made, or, for a
    client that names gzip, one with the same status and the same other headers
    whose smaller body the client expands to the original; it says how it is
    encoded, what it varies by, and has no length from before.  Of a larger
    body the client gets the first bytes, as many as its size modulo 4 GiB. *)
Theorem compression_transparent {W : Type} c (next : M W ()) x x1 : next x = (inr (), x1) ->
  exists r, handle c next x = (inr (), mkEx (request x1) r (context x1) (world x1)) /\
  (r = response x1 \/
   (accepts_gzip (request x1) = true /\
    (len (Response.body_ (response x1)) < 2 ^ 32 -> gunzip (Response.body_ r) = Some (Response.body_ (response x1))) /\
    gunzip (Response.body_ r) =
      Some (take (Z.to_nat (len (Response.body_ (response x1)) mod 2 ^ 32)) (Response.body_ (response x1))) /\
    len (Response.body_ r) < len (Response.body_ (response x1)) /\
    Response.status_code_ r = Response.status_code_ (response x1) /\
    HeaderMap.get_all (bs "content-encoding") (Response.headers_ r) = [bs "gzip"] /\
    HeaderMap.get_all (bs "content-length") (Response.headers_ r) = [] /\
    (exists w, w ∈ HeaderMap.get_all (bs "vary") (Response.headers_ r) /\ is_Some (find_sub (bs "accept-encoding") (lower w))) /\
    forall n, ~ its_own n -> HeaderMap.get_all n (Response.headers_ r) = HeaderMap.get_all n (Response.headers_ (response x1)))).
Proof.
  intros N. exists (compress c (request x1) (response x1)). split; [unfold handle, bind; rewrite N; reflexivity|].
  unfold compress. destruct (accepts_gzip (request x1)) eqn:Ag; [|by left].
  destruct (response_is_compressible c (response x1)) eqn:Co; [|by left]. cbn [negb orb].
  destruct (gzip _ _) as [z|] eqn:G; [|by left]. destruct (Z.leb_spec (Response.body_size (response x1)) (len z)) as [L|L]; [by left|].
  right. match goal with |- context [append_vary ?v ?r0] => destruct (append_vary_spec v r0) as (V & O & B & S); set (r := append_vary v r0) in * end.
  clearbody r. cbn in B, S. rewrite B, S. pose proof (gunzip_gzip _ _ _ G) as Gz. split_and!; try done; [intros Sm; by rewrite uInt_whole in Gz| | |].
  - rewrite O by done. cbn [Response.headers_ Response.header Response.with_headers Response.body]. rewrite get_all_abs, abs_add, bool_decide_eq_true_2, abs_remove, bool_decide_eq_false_2 by done.
    unfold response_is_compressible in Co. destruct (negb (status_allows_body _)); [done|]. destruct (_ <? _); [done|].
    unfold HeaderMap.has in Co. destruct (HeaderMap.get (bs "content-encoding") (Response.headers_ (response x1))) eqn:E; [done|].
    rewrite get_abs in E. change (lower (bs "content-encoding")) with (bs "content-encoding") in *.
    destruct (abs (Response.headers_ (response x1)) (bs "content-encoding")); [done|done].
  - rewrite O by done. cbn [Response.headers_ Response.header Response.with_headers Response.body]. rewrite get_all_abs, abs_add, bool_decide_eq_false_2, abs_remove, bool_decide_eq_true_2 by done. done.
  - intros n Own. unfold its_own in Own. rewrite !elem_of_cons in Own. rewrite O by tauto. cbn [Response.headers_ Response.header Response.with_headers Response.body].
    destruct (get_all_other n (bs "Content-Encoding") (bs "gzip") (HeaderMap.remove (bs "content-length") (Response.headers_ (response x1))))
      as (-> & _); [change (lower (bs "Content-Encoding")) with (bs "content-encoding"); tauto|].
    destruct (get_all_other n (bs "content-length") [] (Response.headers_ (response x1))) as (_ & _ & ->); [|done].
    change (lower (bs "content-length")) with (bs "content-length"). tauto.
Qed.

End Compression.

(** *** A codec and an exchange *)

(** Runs of one letter are compressed to it. *)
Definition run_deflate (b : bytes) (_ : Z) (_ : ()) : option bytes :=
  if bool_decide (b = replicate 1100 "a"%char) then Some (bs "a") else None.
Definition run_gunzip (c : bytes) : option bytes := if bool_decide (c = bs "a") then Some (replicate 1100 "a"%char) else None.

#[local] Instance run_zlib : Zlib :=
  { z_stream := (); deflateInit2 := fun _ => Some (); deflateBound := fun _ n => n + 18; deflate := run_deflate; gunzip := run_gunzip }.
#[local] Instance run_zlib_laws : ZlibLaws.
Proof. constructor. intros level s b room c _. cbn. unfold run_deflate. case_bool_decide as E; [|done]. intros [= <-]. by rewrite E. Qed.

Definition text_handler : M unit () := on_response (Response.text (replicate 1100 "a"%char)).
Definition asked_gzip : Exchange unit :=
  mkEx (Request.set_headers [HeaderMap.mkEntry (bs "accept-encoding") (bs "br, gzip")] Request.init) Response.init Context.empty ().

Lemma compression_transparent_witness : exists r,
  handle default_config text_handler asked_gzip =
    (inr (), mkEx (request (snd (text_handler asked_gzip))) r (context (snd (text_handler asked_gzip))) (world (snd (text_handler asked_gzip)))) /\
  (r = response (snd (text_handler asked_gzip)) \/
   (accepts_gzip (request (snd (text_handler asked_gzip))) = true /\
    (len (Response.body_ (response (snd (text_handler asked_gzip)))) < 2 ^ 32 ->
      gunzip (Response.body_ r) = Some (Response.body_ (response (snd (text_handler asked_gzip))))) /\
    gunzip (Response.body_ r) =
      Some (take (Z.to_nat (len (Response.body_ (response (snd (text_handler asked_gzip)))) mod 2 ^ 32))
        (Response.body_ (response (snd (text_handler asked_gzip))))) /\
    len (Response.body_ r) < len (Response.body_ (response (snd (text_handler asked_gzip)))) /\
    Response.status_code_ r = Response.status_code_ (response (snd (text_handler asked_gzip))) /\
    HeaderMap.get_all (bs "content-encoding") (Response.headers_ r) = [bs "gzip"] /\
    HeaderMap.get_all (bs "content-length") (Response.headers_ r) = [] /\
    (exists w, w ∈ HeaderMap.get_all (bs "vary") (Response.headers_ r) /\ is_Some (find_sub (bs "accept-encoding") (lower w))) /\
    forall n, ~ its_own n -> HeaderMap.get_all n (Response.headers_ r) = HeaderMap.get_all n (Response.headers_ (response (snd (text_handler asked_gzip)))))).
Proof. apply (compression_transparent default_config text_handler asked_gzip (snd (text_handler asked_gzip))). reflexivity. Defined.

Example compressed_body : Response.body_ (response (snd (handle default_config text_handler asked_gzip))) = bs "a".
Proof. by vm_compute. Qed.

(** Of a body of 4 GiB or more the size that zlib is told is not the whole: with
    a codec that stores what it is given, one of exactly 4 GiB becomes nothing. *)
Definition stored_zlib : Zlib :=
  {| z_stream := (); deflateInit2 := fun _ => Some (); deflateBound := fun _ n => n + 18; deflate := fun b _ _ => Some b; gunzip := Some |}.

Lemma large_body_lost x level : @gzip stored_zlib (replicate (Z.to_nat (2 ^ 32)) x) level = Some [].
Proof. unfold gzip. cbn [deflateInit2 deflate stored_zlib]. unfold len. rewrite length_replicate, Z2Nat.id by done. done. Qed.

(** A client that refuses gzip is sent it. *)
Lemma refused_gzip_used : accepts_gzip (Request.mk [] [] [] [] [] [] [HeaderMap.mkEntry (bs "accept-encoding") (bs "gzip;q=0, identity")] [] ∅ false false) = true.
Proof. by vm_compute. Qed.

End CompressionProps.
