(* ===== verification/Memory.v ===== *)
(** * The allocators: memory/arena_allocator.* and memory/pool_allocator.h

    [Os] is the part of the kernel the allocators use: the regions [mmap] has
    handed out and [munmap] has not taken back.  Where the kernel puts a new
    region is a parameter.  [Arena] is the bump allocator; [Pool] is the pool
    with its free list threaded through the memory of the free slots, which the
    application may overwrite while it owns a slot. *)

From S2P Require Import Prelude.

(** ** Bit masks on [std::size_t] *)

(** [~x] on 64 bits. *)
Definition not64 (x : Z) : Z := u64_max - x.

Definition page_size : Z := 4096.

(** [(x + a - 1) & ~(a - 1)], the rounding all of the code writes out. *)
Definition round_up (x a : Z) : Z :=
  Z.land (wrap64 (wrap64 (x + a) - 1)) (not64 (wrap64 (a - 1))).

Arguments round_up : simpl never.

(** ** The kernel's regions *)

Module Os.

Abbreviation region := (Z * Z)%type (only parsing).

(** Address and size of every mapping of the process. *)
Abbreviation maps := (list region) (only parsing).

(** The bytes a mapping covers: the kernel maps whole pages. *)
Definition pages (size : Z) : Z := (size + 4095) / 4096 * 4096.
Arguments pages : simpl never.

Definition disjoint (r s : region) : Prop :=
  fst r + pages (snd r) <= fst s \/ fst s + pages (snd s) <= fst r.

(** The end of the address space of a process on the 64-bit platforms the
    framework supports. *)
Definition user_limit : Z := 2 ^ 47.

(** A region as [mmap] documents it: page aligned, not at address 0, inside
    the user half of the address space. *)
Definition region_ok (r : region) : Prop :=
  0 < fst r /\ fst r mod 4096 = 0 /\ 0 < snd r /\ fst r + pages (snd r) <= user_limit.

Fixpoint maps_ok (m : maps) : Prop :=
  match m with
  | [] => True
  | r :: m' => region_ok r /\ Forall (disjoint r) m' /\ maps_ok m'
  end.

(** [mmap(nullptr, size, ...)] with anonymous private pages: the address the
    kernel chooses, or [None] for [MAP_FAILED]. *)
Class Mmap := mmap : maps -> Z -> option Z.

(** A mapping that succeeds overlaps no other. *)
Class MmapLaws (K : Mmap) : Prop := {
  mmap_ok : forall m size p, maps_ok m -> mmap m size = Some p -> maps_ok ((p, size) :: m);
}.

(** [munmap(ptr, size)] of a region as it was mapped. *)
Definition munmap (m : maps) (r : region) : maps := filter (fun s => s <> r) m.

End Os.

(** ** The arena *)

Module Arena.
Import Os.

Definition kDefaultBlockSize : Z := 64 * 1024.
Definition kLargeAllocThreshold : Z := 32 * 1024.

(** [Block] and [LargeAlloc]: address and size. *)
Record ArenaAllocator := mkArena {
  block_size_ : Z;
  current_ptr_ : Z;
  current_end_ : Z;
  blocks_ : list region;
  large_allocs_ : list region
}.

Section Arena.
Context {K : Mmap}.

(** [None] is [std::bad_alloc]. *)
Definition map_pages (m : maps) (size : Z) : option (Z * maps) :=
  match mmap m size with
  | Some p => Some (p, (p, size) :: m)
  | None => None
  end.

Definition unmap_pages (m : maps) (r : region) : maps := munmap m r.

Definition allocate_new_block (a : ArenaAllocator) (m : maps) : option (ArenaAllocator * maps) :=
  match map_pages m (block_size_ a) with
  | None => None
  | Some (data, m') =>
      Some (mkArena (block_size_ a) data (data + block_size_ a)
              (blocks_ a ++ [(data, block_size_ a)]) (large_allocs_ a), m')
  end.

(** The constructor. *)
Definition arena_new (block_size : Z) (m : maps) : option (ArenaAllocator * maps) :=
  allocate_new_block (mkArena (Z.max block_size 4096) 0 0 [] []) m.

(** The destructor. *)
Definition arena_delete (a : ArenaAllocator) (m : maps) : maps :=
  foldl unmap_pages (foldl unmap_pages m (blocks_ a)) (large_allocs_ a).

Definition reset (a : ArenaAllocator) (m : maps) : ArenaAllocator * maps :=
  let m1 := foldl unmap_pages m (drop 1 (blocks_ a)) in
  let m2 := foldl unmap_pages m1 (large_allocs_ a) in
  match blocks_ a with
  | [] => (mkArena (block_size_ a) (current_ptr_ a) (current_end_ a) [] [], m2)
  | (data, size) :: _ => (mkArena (block_size_ a) data (data + size) [(data, size)] [], m2)
  end.

Definition add_sizes (total : Z) (rs : list region) : Z :=
  foldl (fun t r => wrap64 (t + snd r)) total rs.

Definition total_allocated (a : ArenaAllocator) : Z :=
  add_sizes (add_sizes 0 (blocks_ a)) (large_allocs_ a).

Definition bytes_used (a : ArenaAllocator) : Z :=
  let used := if 1 <? len (blocks_ a) then add_sizes 0 (removelast (blocks_ a)) else 0 in
  let used := match last (blocks_ a) with
              | Some back => wrap64 (used + wrap64 (current_ptr_ a - fst back))
              | None => used
              end in
  add_sizes used (large_allocs_ a).

(** A mapping of its own for one allocation. *)
Definition dedicated (a : ArenaAllocator) (m : maps) (size : Z) : option (Z * ArenaAllocator * maps) :=
  let alloc_size := round_up size page_size in
  match map_pages m alloc_size with
  | None => None
  | Some (ptr, m') =>
      Some (ptr, mkArena (block_size_ a) (current_ptr_ a) (current_end_ a) (blocks_ a)
                   (large_allocs_ a ++ [(ptr, alloc_size)]), m')
  end.

(** [current_ptr_ = aligned + bytes; return aligned;] *)
Definition bump (a : ArenaAllocator) (m : maps) (aligned bytes : Z) : Z * ArenaAllocator * maps :=
  (aligned, mkArena (block_size_ a) (aligned + bytes) (current_end_ a) (blocks_ a) (large_allocs_ a), m).

Definition do_allocate (a : ArenaAllocator) (m : maps) (bytes alignment : Z)
  : option (Z * ArenaAllocator * maps) :=
  let bytes := if bytes =? 0 then 1 else bytes in
  if kLargeAllocThreshold <=? bytes then dedicated a m bytes
  else
    let aligned := round_up (current_ptr_ a) alignment in
    if current_end_ a <? aligned + bytes then
      if block_size_ a <? wrap64 (bytes + alignment) then dedicated a m (wrap64 (bytes + alignment))
      else match allocate_new_block a m with
           | None => None
           | Some (a', m') => Some (bump a' m' (round_up (current_ptr_ a') alignment) bytes)
           end
    else Some (bump a m aligned bytes).

(** [do_deallocate] does nothing. *)
Definition do_deallocate (a : ArenaAllocator) (ptr bytes alignment : Z) : ArenaAllocator := a.

End Arena.

(** Two resources are equal when they are the same object; an object is known
    by its address. *)
Definition do_is_equal (this other : Z) : bool := this =? other.

End Arena.

(** ** The pool *)

Module Pool.
Import Os.

(** [Mem] is what the words at the addresses of the slots hold: the [next]
    pointer of a free slot, anything in a slot the application uses. *)
Abbreviation Mem := (gmap Z Z) (only parsing).

Definition nullptr : Z := 0.

Record PoolAllocator := mkPool {
  storage_ : Z;
  storage_size_ : Z;
  capacity_ : Z;
  in_use_ : Z;
  free_head_ : Z
}.

(** [node->next]. *)
Definition next (mem : Mem) (node : Z) : Z := default 0 (mem !! node).

(** One turn of the loop that builds the free list, for slot [i - 1]. *)
Definition link_slot (storage slot_size : Z) (st : Z * Mem) (i : nat) : Z * Mem :=
  let node := storage + Z.of_nat i * slot_size in
  (node, <[node := fst st]> (snd st)).

Section Pool.
Context {K : Mmap}.
(** [sizeof(T)] and [alignof(T)]. *)
Variables size_of align_of : Z.

Definition slot_size : Z := Z.max size_of align_of.

(** The constructor; [None] is [std::bad_alloc]. *)
Definition pool_new (capacity : Z) (m : maps) (mem : Mem) : option (PoolAllocator * Mem * maps) :=
  let total := wrap64 (slot_size * capacity) in
  let storage_size := round_up total page_size in
  match mmap m storage_size with
  | None => None
  | Some storage =>
      let '(head, mem') :=
        foldl (link_slot storage slot_size) (nullptr, mem) (rev (seq 0 (Z.to_nat capacity))) in
      Some (mkPool storage storage_size capacity 0 head, mem', (storage, storage_size) :: m)
  end.

Definition pool_delete (p : PoolAllocator) (m : maps) : maps :=
  if storage_ p =? 0 then m else munmap m (storage_ p, storage_size_ p).

Definition owns (p : PoolAllocator) (ptr : Z) : bool :=
  (storage_ p <=? ptr) && (ptr <? storage_ p + storage_size_ p).

Definition allocate (p : PoolAllocator) (mem : Mem) : Z * PoolAllocator :=
  if free_head_ p =? nullptr then (nullptr, p)
  else
    let node := free_head_ p in
    (node, mkPool (storage_ p) (storage_size_ p) (capacity_ p) (wrap64 (in_use_ p + 1))
             (next mem node)).

(** [None] is a failed [assert]. *)
Definition deallocate (p : PoolAllocator) (mem : Mem) (ptr : Z) : option (PoolAllocator * Mem) :=
  if (ptr =? nullptr) || negb (owns p ptr) then None
  else
    Some (mkPool (storage_ p) (storage_size_ p) (capacity_ p) (wrap64 (in_use_ p - 1)) ptr,
          <[ptr := free_head_ p]> mem).

(** What the constructor of [T] does: the word it leaves at the start of the
    object, or an exception. *)
Definition construct (ctor : option Z) (p : PoolAllocator) (mem : Mem)
  : option Z * PoolAllocator * Mem :=
  let '(ptr, p') := allocate p mem in
  if ptr =? nullptr then (Some nullptr, p', mem)
  else match ctor with
       | Some w => (Some ptr, p', <[ptr := w]> mem)
       | None => (None, p', mem)
       end.

Definition destroy (p : PoolAllocator) (mem : Mem) (ptr : Z) : option (PoolAllocator * Mem) :=
  if ptr =? nullptr then Some (p, mem) else deallocate p mem ptr.

Definition capacity (p : PoolAllocator) : Z := capacity_ p.
Definition in_use (p : PoolAllocator) : Z := in_use_ p.
Definition available (p : PoolAllocator) : Z := wrap64 (capacity_ p - in_use_ p).

End Pool.
End Pool.
