(* ===== verification/MemoryProps.v ===== *)
(** * The allocators hand out disjoint, aligned memory

    [ArenaProps] runs an arena against a kernel that obeys [MmapLaws], with the
    rest of the process mapping and unmapping its own regions in between.
    [PoolProps] does the same for the pool, with an application that writes to
    the slots it owns. *)

From S2P Require Import Prelude Memory.
Import Os.

(** ** Rounding *)

Lemma land_not64 y k : in_u64 y -> 0 <= k <= 63 ->
  Z.land y (not64 (2 ^ k - 1)) = y / 2 ^ k * 2 ^ k.
Proof.
  intros Hy Hk. rewrite <- Z.shiftl_mul_pow2, <- Z.shiftr_div_pow2 by lia.
  replace (not64 (2 ^ k - 1)) with (Z.shiftl (Z.ones (64 - k)) k); cycle 1.
  { rewrite Z.shiftl_mul_pow2, Z.ones_equiv by lia. unfold not64, u64_max, Z.pred.
    rewrite Z.mul_add_distr_r, <- Z.pow_add_r by lia. replace (64 - k + k) with 64 by lia. lia. }
  apply Z.bits_inj'. intros i Hi. rewrite Z.land_spec, !Z.shiftl_spec by lia.
  destruct (Z.lt_ge_cases i k) as [L|L].
  - rewrite !(Z.testbit_neg_r _ (i - k)) by lia. apply andb_false_r.
  - rewrite Z.shiftr_spec by lia. replace (i - k + k) with i by lia.
    destruct (Z.lt_ge_cases i 64) as [L'|L'].
    + rewrite Z.ones_spec_low by lia. apply andb_true_r.
    + rewrite Z.ones_spec_high, andb_false_r by lia. symmetry.
      destruct (Z.eq_dec y 0) as [->|]; [apply Z.bits_0|].
      apply Z.bits_above_log2; [apply Hy|]. apply Z.log2_lt_pow2; [unfold in_u64 in Hy; lia|].
      eapply Z.lt_le_trans; [apply Hy|]. apply Z.pow_le_mono_r; lia.
Qed.

(** Rounding up to a power of two, when nothing wraps. *)
Lemma round_up_spec x k : 0 <= k <= 62 -> 0 <= x <= 2 ^ 63 ->
  round_up x (2 ^ k) mod 2 ^ k = 0 /\ x <= round_up x (2 ^ k) < x + 2 ^ k.
Proof.
  intros Hk Hx. pose proof (Z.pow_pos_nonneg 2 k).
  assert (2 ^ k <= 2 ^ 62) by (apply Z.pow_le_mono_r; lia).
  unfold round_up.
  rewrite (wrap64_small (x + 2 ^ k)), (wrap64_small (x + 2 ^ k - 1)), (wrap64_small (2 ^ k - 1))
    by (unfold in_u64; lia).
  rewrite land_not64 by (unfold in_u64; lia).
  pose proof (Z.div_mod (x + 2 ^ k - 1) (2 ^ k) ltac:(lia)).
  pose proof (Z.mod_pos_bound (x + 2 ^ k - 1) (2 ^ k) ltac:(lia)).
  split; [apply Z_mod_mult|lia].
Qed.

Lemma round_up_page x : 0 <= x <= 2 ^ 63 ->
  round_up x page_size mod 4096 = 0 /\ x <= round_up x page_size < x + 4096.
Proof. apply (round_up_spec x 12). lia. Qed.

Lemma round_up_aligned x k : 0 <= k <= 62 -> 0 <= x <= 2 ^ 63 -> x mod 2 ^ k = 0 ->
  round_up x (2 ^ k) = x.
Proof.
  intros Hk Hx E. pose proof (round_up_spec x k Hk Hx) as [E' R].
  pose proof (Z.pow_pos_nonneg 2 k).
  apply Z.mod_divide in E, E'; try lia. destruct E as [u ->], E' as [v Ev].
  rewrite Ev in R |- *.
  assert (v = u) as -> by (generalize dependent (2 ^ k); intros; nia). done.
Qed.

(** ** Regions *)

Lemma pages_ge size : 0 <= size -> size <= pages size.
Proof. unfold pages. intros H. dm_lia. Qed.

Lemma maps_ok_in m r : maps_ok m -> r ∈ m -> region_ok r.
Proof.
  induction m as [|s m IH]; cbn; intros Hm Hr; [set_solver|].
  apply elem_of_cons in Hr as [->|Hr]; [tauto|]. apply IH; tauto.
Qed.

Lemma disjoint_sym r s : disjoint r s -> disjoint s r.
Proof. unfold disjoint. tauto. Qed.

Lemma maps_ok_disjoint m r s : maps_ok m -> r ∈ m -> s ∈ m -> r <> s -> disjoint r s.
Proof.
  induction m as [|t m IH]; cbn; [set_solver|]. intros (Ht & D & Hm) Hr Hs N.
  rewrite Forall_forall in D.
  apply elem_of_cons in Hr as [->|Hr]; apply elem_of_cons in Hs as [->|Hs]; try done.
  - by apply D.
  - by apply disjoint_sym, D.
  - by apply IH.
Qed.

Lemma maps_ok_filter (P : region -> Prop) `{!forall r, Decision (P r)} m : maps_ok m -> maps_ok (filter P m).
Proof.
  induction m as [|r m IH]; [done|]. intros (Hr & D & Hm). rewrite filter_cons.
  case_decide; [|by apply IH]. split; [done|]. split; [|by apply IH].
  apply Forall_forall. intros s Hs. apply list_elem_of_filter in Hs as [_ Hs].
  rewrite Forall_forall in D. by apply D.
Qed.

Lemma maps_ok_fresh r m : maps_ok (r :: m) -> r ∉ m.
Proof.
  intros (Hr & D & _) Hin. rewrite Forall_forall in D. specialize (D r Hin).
  destruct Hr as (? & ? & ? & ?). pose proof (pages_ge (snd r)). unfold disjoint in D. lia.
Qed.

Lemma unmap_all_in m rs r : r ∈ foldl Arena.unmap_pages m rs <-> r ∈ m /\ r ∉ rs.
Proof.
  revert m. induction rs as [|s rs IH]; intros m; cbn [foldl]; [set_solver|].
  rewrite IH. unfold Arena.unmap_pages at 1, munmap. rewrite list_elem_of_filter. set_solver.
Qed.

Lemma unmap_all_ok m rs : maps_ok m -> maps_ok (foldl Arena.unmap_pages m rs).
Proof.
  revert m. induction rs as [|s rs IH]; intros m H; [done|]. by apply IH, maps_ok_filter.
Qed.

(** *** The sum of the sizes of disjoint regions *)

Fixpoint sizes (rs : list region) : Z :=
  match rs with
  | [] => 0
  | r :: rs' => snd r + sizes rs'
  end.

Lemma sizes_app rs ss : sizes (rs ++ ss) = sizes rs + sizes ss.
Proof. induction rs as [|r rs IH]; cbn in *; lia. Qed.

Lemma sizes_nonneg rs : Forall region_ok rs -> 0 <= sizes rs.
Proof. induction 1 as [|r rs (? & ? & ? & ?)]; cbn in *; lia. Qed.

Lemma sizes_perm rs ss : rs ≡ₚ ss -> sizes rs = sizes ss.
Proof. induction 1; cbn in *; lia. Qed.

(** A list of distinct, disjoint regions below [limit]. *)
Definition apart (rs : list region) : Prop :=
  NoDup rs /\ forall r s, r ∈ rs -> s ∈ rs -> r <> s -> disjoint r s.

Lemma highest (rs : list region) : rs <> [] ->
  exists r ss, rs ≡ₚ r :: ss /\ Forall (fun s => fst s <= fst r) ss.
Proof.
  induction rs as [|r rs IH]; [done|intros _]. destruct rs as [|s rs].
  { exists r, []. split; [done|constructor]. }
  destruct IH as (t & ss & P & F); [done|].
  destruct (Z.le_gt_cases (fst r) (fst t)).
  - exists t, (r :: ss). split; [by rewrite P, perm_swap|]. by constructor.
  - exists r, (t :: ss). split; [by rewrite P|].
    constructor; [lia|]. eapply Forall_impl; [exact F|]. cbn. lia.
Qed.

Lemma apart_perm rs ss : rs ≡ₚ ss -> apart rs -> apart ss.
Proof.
  intros P [N D]. split; [by rewrite <- P|]. intros r s Hr Hs. apply D; by rewrite P.
Qed.

Lemma apart_sizes rs limit : 0 <= limit -> apart rs -> Forall region_ok rs ->
  Forall (fun r => fst r + pages (snd r) <= limit) rs -> sizes rs <= limit.
Proof.
  remember (length rs) as n eqn:E. revert rs limit E.
  induction n as [|n IH]; intros rs limit E H0 A R F.
  { destruct rs; [cbn; lia|done]. }
  destruct (highest rs) as (r & ss & P & Hi); [by intros ->|].
  pose proof (apart_perm _ _ P A) as [N D].
  rewrite P in R, F. rewrite (sizes_perm _ _ P). cbn.
  apply Forall_cons in R as [(r1 & r2 & r3 & r4) R], F as [Fr F].
  apply NoDup_cons in N as [Nr N].
  assert (length ss = n) by (apply Permutation_length in P; cbn in P; lia).
  pose proof (pages_ge (snd r)).
  enough (sizes ss <= fst r) by lia.
  apply IH; [done|lia| |done|].
  - split; [done|]. intros x y Hx Hy. apply D; by right.
  - apply Forall_forall. intros s Hs. rewrite Forall_forall in Hi, R.
    specialize (Hi s Hs). destruct (R s Hs) as (s1 & s2 & s3 & s4).
    assert (r <> s) as Ne by (intros ->; done).
    pose proof (D r s ltac:(by left) ltac:(by right) Ne) as [?|?]; lia.
Qed.

(** ** The arena *)

Module ArenaProps.
Import Arena.

Definition owned (a : ArenaAllocator) : list region := blocks_ a ++ large_allocs_ a.

(** An allocation the application holds: address, size and the alignment it
    asked for. *)
Record Alloc := mkAlloc { at_ : Z; size_ : Z; align_ : Z }.

Definition inside (x : Alloc) (r : region) : Prop := fst r <= at_ x /\ at_ x + size_ x <= fst r + snd r.

Definition clear_of (x y : Alloc) : Prop := at_ x + size_ x <= at_ y \/ at_ y + size_ y <= at_ x.

Fixpoint separate (live : list Alloc) : Prop :=
  match live with
  | [] => True
  | x :: live' => Forall (clear_of x) live' /\ separate live'
  end.

Fixpoint live_bytes (live : list Alloc) : Z :=
  match live with
  | [] => 0
  | x :: live' => size_ x + live_bytes live'
  end.

(** What is in use, without wrap-around. *)
Definition used (a : ArenaAllocator) : Z :=
  sizes (owned a) - (current_end_ a - current_ptr_ a).

(** The invariant of an arena among the regions [m] with the allocations
    [live]. *)
Record arena_ok (a : ArenaAllocator) (m : maps) (live : list Alloc) : Prop := {
  ok_maps : maps_ok m;
  ok_owned : forall r, r ∈ owned a -> r ∈ m;
  ok_nodup : NoDup (owned a);
  ok_block_size : 4096 <= block_size_ a <= 2 ^ 63;
  ok_sizes : Forall (fun r => snd r = block_size_ a) (blocks_ a);
  ok_current : exists before d, blocks_ a = before ++ [(d, block_size_ a)] /\
    current_end_ a = d + block_size_ a /\ d <= current_ptr_ a <= current_end_ a;
  ok_live : Forall (fun x => 0 < size_ x /\ (exists r, r ∈ owned a /\ inside x r) /\
    (align_ x <= 4096 -> at_ x mod align_ x = 0) /\
    (at_ x + size_ x <= current_ptr_ a \/ current_end_ a <= at_ x)) live;
  ok_separate : separate live;
  ok_used : live_bytes live <= used a
}.

(** A request [std::pmr::memory_resource] may pass on: the alignment is a power
    of two. *)
Definition request_ok (bytes alignment : Z) : Prop :=
  0 <= bytes < 2 ^ 62 /\ exists k, 0 <= k <= 62 /\ alignment = 2 ^ k.

Section Arena.
Context {K : Mmap} {L : MmapLaws K}.

(** The steps of a process: an allocation, a reset, a call of the no-op
    deallocation, and any other code that maps and unmaps regions of its own. *)
Inductive step : ArenaAllocator * maps * list Alloc -> ArenaAllocator * maps * list Alloc -> Prop :=
| step_allocate a m live bytes alignment p a' m' :
    request_ok bytes alignment ->
    do_allocate a m bytes alignment = Some (p, a', m') ->
    step (a, m, live) (a', m', mkAlloc p (Z.max 1 bytes) alignment :: live)
| step_reset a m live :
    step (a, m, live) (reset a m, [])
| step_other a m live m' :
    maps_ok m' -> (forall r, r ∈ owned a -> r ∈ m') ->
    step (a, m, live) (a, m', live).

(** A region that is not yet mapped is clear of every live allocation. *)
Lemma fresh_clear a m live r : arena_ok a m live -> maps_ok (r :: m) ->
  Forall (fun x => at_ x + size_ x <= fst r \/ fst r + pages (snd r) <= at_ x) live.
Proof.
  intros I (Rr & D & _). eapply Forall_impl; [apply (ok_live _ _ _ I)|].
  intros x (Hx & (s & Hs & In1 & In2) & _ & _). rewrite Forall_forall in D.
  pose proof (ok_owned _ _ _ I s Hs) as Hm. specialize (D s Hm).
  destruct (maps_ok_in _ _ (ok_maps _ _ _ I) Hm) as (? & ? & ? & ?).
  pose proof (pages_ge (snd s)). destruct D; lia.
Qed.

Lemma owned_current a m live : arena_ok a m live -> exists d,
  (d, block_size_ a) ∈ owned a /\ current_end_ a = d + block_size_ a /\ d <= current_ptr_ a <= current_end_ a.
Proof.
  intros I. destruct (ok_current _ _ _ I) as (b & d & E & ? & ?). exists d.
  split; [|done]. unfold owned. rewrite E. set_solver.
Qed.

Lemma owned_region a m live r : arena_ok a m live -> r ∈ owned a -> region_ok r.
Proof. intros I Hr. apply (maps_ok_in m); [apply I|]. by apply (ok_owned _ _ _ I). Qed.

Lemma current_range a m live : arena_ok a m live -> 0 < current_ptr_ a <= 2 ^ 63.
Proof.
  intros I. destruct (owned_current _ _ _ I) as (d & Hd & ? & ?).
  destruct (owned_region _ _ _ _ I Hd) as (? & ? & ? & Lim). cbn in *.
  pose proof (pages_ge (block_size_ a)). unfold user_limit in Lim. lia.
Qed.

(** A region of its own is added. *)
Lemma dedicated_ok a m live size bytes alignment p a' m' :
  arena_ok a m live -> 0 < size <= 2 ^ 63 -> 0 < bytes <= size -> (exists k, 0 <= k <= 62 /\ alignment = 2 ^ k) ->
  dedicated a m size = Some (p, a', m') ->
  arena_ok a' m' (mkAlloc p bytes alignment :: live).
Proof.
  intros I Hs Hb (k & Hk & ->) E. unfold dedicated, map_pages in E.
  destruct (mmap m (round_up size page_size)) as [q|] eqn:Em; [|done]. simplify_eq.
  pose proof (mmap_ok _ _ _ (ok_maps _ _ _ I) Em) as Ok'.
  pose proof (fresh_clear _ _ _ _ I Ok') as Clear.
  pose proof (maps_ok_fresh _ _ Ok') as Fresh.
  pose proof Ok' as ((q1 & q2 & q3 & q4) & D & _). cbn in q1, q2, q3, q4.
  destruct (round_up_page size ltac:(lia)) as [_ R].
  set (r := (p, round_up size page_size)) in *.
  assert (OwnedE : forall s, s ∈ blocks_ a ++ large_allocs_ a ++ [r] <-> s = r \/ s ∈ owned a)
    by (unfold owned; set_solver).
  destruct (owned_current _ _ _ I) as (d & Hd & Ed & Rd).
  assert (Dd : p + round_up size page_size <= d \/ d + block_size_ a <= p).
  { rewrite Forall_forall in D. specialize (D _ (ok_owned _ _ _ I _ Hd)). subst r.
    pose proof (pages_ge (round_up size page_size)). pose proof (pages_ge (block_size_ a)).
    pose proof (ok_block_size _ _ _ I). unfold disjoint in D. cbn in D. lia. }
  split; cbn.
  - done.
  - unfold owned; cbn. intros s [->|Hs']%OwnedE; [by left|right]. by apply (ok_owned _ _ _ I).
  - unfold owned; cbn. rewrite (assoc (++)). apply NoDup_app. split; [apply I|]. split.
    + intros s Hs' Hin. apply list_elem_of_singleton in Hin as ->.
      by apply Fresh, (ok_owned _ _ _ I).
    + apply NoDup_singleton.
  - apply I.
  - apply I.
  - apply I.
  - constructor.
    + cbn. split; [lia|]. split; [|split].
      * exists r. split; [apply OwnedE; by left|]. unfold inside, r. cbn. lia.
      * intros A4. assert (k <= 12) as Hk' by (apply (Z.pow_le_mono_r_iff 2); lia).
        apply Z.mod_divide; [lia|]. apply Z.mod_divide in q2; [|lia].
        eapply Z.divide_trans; [|exact q2]. exists (2 ^ (12 - k)).
        rewrite <- Z.pow_add_r by lia. by replace (12 - k + k) with 12 by lia.
      * lia.
    + eapply Forall_impl; [apply (ok_live _ _ _ I)|]. cbn. intros x (? & (s & Hs' & ?) & ? & ?).
      split; [done|]. split; [|done]. exists s. split; [apply OwnedE; by right|done].
  - split; [|apply I]. eapply Forall_impl; [exact Clear|]. unfold clear_of, r. cbn.
    intros x Hx. pose proof (pages_ge (round_up size page_size)). lia.
  - pose proof (ok_used _ _ _ I) as U. unfold used, owned in *. cbn.
    rewrite !sizes_app in *. subst r. cbn. lia.
Qed.

(** Bumping the pointer inside the current block. *)
Lemma bump_ok a m live bytes k :
  arena_ok a m live -> 0 <= k <= 62 -> 0 < bytes ->
  round_up (current_ptr_ a) (2 ^ k) + bytes <= current_end_ a ->
  let '(p, a', m') := bump a m (round_up (current_ptr_ a) (2 ^ k)) bytes in
  arena_ok a' m' (mkAlloc p bytes (2 ^ k) :: live).
Proof.
  intros I Hk Hb Fit. destruct (owned_current _ _ _ I) as (d & Hd & Ed & Rd).
  pose proof (current_range _ _ _ I).
  destruct (round_up_spec (current_ptr_ a) k Hk ltac:(lia)) as [Al R].
  pose proof (Z.pow_pos_nonneg 2 k). unfold bump.
  split; cbn; try apply I.
  - destruct (ok_current _ _ _ I) as (b & d' & Eb & Ee & Re). exists b, d'. repeat split; try done; lia.
  - constructor.
    + cbn. split; [done|]. split; [|split; [done|lia]].
      exists (d, block_size_ a). split; [exact Hd|]. unfold inside. cbn. lia.
    + eapply Forall_impl; [apply (ok_live _ _ _ I)|]. cbn.
      intros x (? & ? & ? & ?). repeat split; try done. lia.
  - split; [|apply I]. eapply Forall_impl; [apply (ok_live _ _ _ I)|]. unfold clear_of. cbn.
    intros x (? & _ & _ & ?). lia.
  - pose proof (ok_used _ _ _ I) as U. unfold used, owned in *. cbn. lia.
Qed.

(** A further block; nothing is lost of the old one but its free tail. *)
Lemma new_block_ok a m live a' m' :
  arena_ok a m live -> allocate_new_block a m = Some (a', m') ->
  arena_ok a' m' live /\ current_end_ a' = current_ptr_ a' + block_size_ a /\ block_size_ a' = block_size_ a.
Proof.
  intros I E. unfold allocate_new_block, map_pages in E.
  destruct (mmap m (block_size_ a)) as [q|] eqn:Em; [|done]. simplify_eq.
  pose proof (mmap_ok _ _ _ (ok_maps _ _ _ I) Em) as Ok'.
  pose proof (fresh_clear _ _ _ _ I Ok') as Clear. cbn in Clear.
  pose proof (maps_ok_fresh _ _ Ok') as Fresh. pose proof (ok_block_size _ _ _ I) as Bs.
  set (r := (q, block_size_ a)) in *.
  assert (OwnedE : forall s, s ∈ (blocks_ a ++ [r]) ++ large_allocs_ a <-> s = r \/ s ∈ owned a)
    by (unfold owned; set_solver).
  cbn. split; [|done]. split; cbn.
  - done.
  - unfold owned; cbn. intros s [->|Hs']%OwnedE; [by left|right]. by apply (ok_owned _ _ _ I).
  - unfold owned; cbn. rewrite <- (assoc (++)). cbn.
    rewrite <- Permutation_middle. apply NoDup_cons. split; [|apply I].
    intros Hin. by apply Fresh, (ok_owned _ _ _ I).
  - done.
  - apply Forall_app. split; [apply I|]. by constructor.
  - exists (blocks_ a), q. repeat split; lia.
  - rewrite Forall_forall in Clear. apply Forall_forall. intros x Hx.
    pose proof (ok_live _ _ _ I) as Lv. rewrite Forall_forall in Lv.
    destruct (Lv x Hx) as (? & (s & Hs & ?) & ? & _). specialize (Clear x Hx).
    split; [done|]. split; [exists s; split; [apply OwnedE; by right|done]|]. split; [done|].
    pose proof (pages_ge (block_size_ a) ltac:(lia)). lia.
  - apply I.
  - destruct (owned_current _ _ _ I) as (d & _ & ? & ?).
    pose proof (ok_used _ _ _ I) as U. unfold used, owned in *. cbn. rewrite !sizes_app in *. subst r. cbn. lia.
Qed.

Lemma do_allocate_ok a m live bytes alignment p a' m' :
  arena_ok a m live -> request_ok bytes alignment ->
  do_allocate a m bytes alignment = Some (p, a', m') ->
  arena_ok a' m' (mkAlloc p (Z.max 1 bytes) alignment :: live).
Proof.
  intros I (Hb & k & Hk & ->) E. unfold do_allocate in E.
  replace (if bytes =? 0 then 1 else bytes) with (Z.max 1 bytes) in E
    by (destruct (Z.eqb_spec bytes 0); lia).
  pose proof (Z.pow_pos_nonneg 2 k). assert (2 ^ k <= 2 ^ 62) by (apply Z.pow_le_mono_r; lia).
  case_match eqn:Large; to_prop.
  { eapply dedicated_ok in E; eauto; lia. }
  unfold kLargeAllocThreshold in Large.
  case_match eqn:Full; to_prop.
  - rewrite wrap64_small in E by (unfold in_u64; lia).
    case_match eqn:Big; to_prop.
    + eapply dedicated_ok in E; eauto; lia.
    + destruct (allocate_new_block a m) as [[a1 m1]|] eqn:En; [|done].
      destruct (new_block_ok _ _ _ _ _ I En) as (I1 & E1 & E2).
      pose proof (current_range _ _ _ I1).
      destruct (round_up_spec (current_ptr_ a1) k Hk ltac:(lia)) as [_ R].
      pose proof (bump_ok a1 m1 live (Z.max 1 bytes) k I1 Hk ltac:(lia) ltac:(lia)) as B.
      unfold bump in *. by simplify_eq.
  - pose proof (bump_ok a m live (Z.max 1 bytes) k I Hk ltac:(lia) Full) as B.
    unfold bump in *. by simplify_eq.
Qed.

Lemma reset_ok a m live : arena_ok a m live -> arena_ok (fst (reset a m)) (snd (reset a m)) [].
Proof.
  intros I. unfold reset.
  set (m2 := foldl unmap_pages (foldl unmap_pages m (drop 1 (blocks_ a))) (large_allocs_ a)).
  assert (maps_ok m2) by (apply unmap_all_ok, unmap_all_ok, I).
  pose proof (ok_nodup _ _ _ I) as N. pose proof (ok_sizes _ _ _ I) as Sz.
  destruct (ok_current _ _ _ I) as (before & d & Eb & _ & _).
  destruct (blocks_ a) as [|[d0 s0] rest] eqn:E0; [by destruct before|].
  apply Forall_cons in Sz as [S0 _]. cbn in S0. subst s0.
  assert (Keep : (d0, block_size_ a) ∈ m2).
  { unfold m2. cbn [drop]. rewrite !unmap_all_in. unfold owned in N. rewrite E0 in N.
    apply NoDup_cons in N as [N _]. rewrite elem_of_app in N.
    split; [split|]; try tauto. apply (ok_owned _ _ _ I). unfold owned. rewrite E0. by left. }
  split; cbn; try done.
  - unfold owned. cbn. intros r Hr. apply list_elem_of_singleton in Hr as ->. exact Keep.
  - unfold owned. cbn. apply NoDup_singleton.
  - apply I.
  - by constructor.
  - exists [], d0. pose proof (ok_block_size _ _ _ I). repeat split; lia.
  - unfold used, owned. cbn. lia.
Qed.

Lemma arena_new_ok block_size m a m' : maps_ok m -> block_size <= 2 ^ 63 ->
  arena_new block_size m = Some (a, m') -> arena_ok a m' [].
Proof.
  intros Hm Hb E. unfold arena_new, allocate_new_block, map_pages in E. cbn [block_size_] in E.
  destruct (mmap m (Z.max block_size 4096)) as [q|] eqn:Em; [|done]. simplify_eq.
  pose proof (mmap_ok _ _ _ Hm Em) as Ok'. set (b := Z.max block_size 4096) in *.
  split; cbn; try done.
  - unfold owned. cbn. intros r Hr. apply list_elem_of_singleton in Hr as ->. by left.
  - unfold owned. cbn. apply NoDup_singleton.
  - lia.
  - by constructor.
  - exists [], q. repeat split; lia.
  - unfold used, owned. cbn. lia.
Qed.

Lemma step_ok s s' : step s s' -> arena_ok s.1.1 s.1.2 s.2 -> arena_ok s'.1.1 s'.1.2 s'.2.
Proof.
  intros St I. destruct St as [a m live bytes al p a' m' R E|a m live|a m live m' Hm Ho]; cbn in *.
  - by eapply do_allocate_ok.
  - by apply reset_ok in I.
  - destruct I. by split.
Qed.

Lemma steps_ok s s' : rtc step s s' -> arena_ok s.1.1 s.1.2 s.2 -> arena_ok s'.1.1 s'.1.2 s'.2.
Proof. induction 1; eauto using step_ok. Qed.

(** *** The counters *)

Lemma add_sizes_spec t rs : in_u64 t -> Forall region_ok rs -> t + sizes rs < 2 ^ 64 ->
  add_sizes t rs = t + sizes rs.
Proof.
  intros Ht F. revert t Ht. induction F as [|r rs (_ & _ & ? & _) F IH]; intros t Ht Lt; cbn in *; [lia|].
  pose proof (sizes_nonneg rs F). unfold in_u64 in *.
  rewrite (wrap64_small (t + snd r)) by (unfold in_u64; lia). rewrite IH; lia.
Qed.

Lemma owned_sizes a m live : arena_ok a m live ->
  Forall region_ok (owned a) /\ 0 <= sizes (owned a) <= user_limit.
Proof.
  intros I. assert (F : Forall region_ok (owned a))
    by (apply Forall_forall; intros r; by eapply owned_region).
  split; [done|]. split; [by apply sizes_nonneg|]. apply apart_sizes; [done| |done|].
  - split; [apply I|]. intros r s Hr Hs. apply (maps_ok_disjoint m); [apply I| |]; by apply (ok_owned _ _ _ I).
  - eapply Forall_impl; [exact F|]. intros r (? & ? & ? & ?). done.
Qed.

Lemma counters_exact a m live : arena_ok a m live ->
  total_allocated a = sizes (owned a) /\ bytes_used a = used a.
Proof.
  intros I. destruct (owned_sizes _ _ _ I) as [F B].
  destruct (ok_current _ _ _ I) as (before & d & Eb & Ee & Re).
  pose proof (ok_block_size _ _ _ I). pose proof (current_range _ _ _ I).
  unfold total_allocated, bytes_used, used, owned, user_limit in *. rewrite Eb in *.
  rewrite !sizes_app in *. cbn [sizes snd] in *.
  apply Forall_app in F as [Fb Fl]. pose proof Fb as Fb'. apply Forall_app in Fb' as [Fb' _].
  pose proof (sizes_nonneg _ Fb'). pose proof (sizes_nonneg _ Fl).
  assert (U0 : (if 1 <? len (before ++ [(d, block_size_ a)])
     then add_sizes 0 (removelast (before ++ [(d, block_size_ a)])) else 0) = sizes before).
  { rewrite removelast_last. destruct before as [|r before]; [done|].
    rewrite (proj2 (Z.ltb_lt _ _)) by len_lia.
    rewrite add_sizes_spec; [lia|done|done|lia]. }
  rewrite U0, last_snoc. cbn [fst].
  rewrite (wrap64_small (current_ptr_ a - d)), (wrap64_small (sizes before + _))
    by (unfold in_u64; lia).
  rewrite (add_sizes_spec 0 (_ ++ _)), !add_sizes_spec; rewrite ?sizes_app; cbn [sizes snd]; try done;
    unfold in_u64; lia.
Qed.

(** The destructor gives back exactly the regions of the arena. *)
Lemma arena_delete_spec a m r : r ∈ arena_delete a m <-> r ∈ m /\ r ∉ owned a.
Proof. unfold arena_delete, owned. rewrite !unmap_all_in. set_solver. Qed.

(** [C24] In every state a process reaches with an arena, whatever else maps and
    unmaps memory meanwhile: the allocations the application holds are pairwise
    disjoint, lie inside regions the arena has mapped and not returned, and are
    aligned as requested up to the page size; the counters do not wrap and
    bound each other. *)
Theorem arena_allocations_safe block_size m0 a0 m1 a m live :
  maps_ok m0 -> block_size <= 2 ^ 63 -> arena_new block_size m0 = Some (a0, m1) ->
  rtc step (a0, m1, []) (a, m, live) ->
  separate live /\
  Forall (fun x => (exists r, r ∈ owned a /\ r ∈ m /\ inside x r) /\
    (align_ x <= 4096 -> at_ x mod align_ x = 0)) live /\
  live_bytes live <= bytes_used a <= total_allocated a /\ total_allocated a <= user_limit.
Proof.
  intros Hm Hb E R. pose proof (steps_ok _ _ R (arena_new_ok _ _ _ _ Hm Hb E)) as I. cbn in I.
  split; [apply I|]. split.
  - eapply Forall_impl; [apply I|]. intros x (? & (r & Hr & Hi) & ? & ?).
    split; [|done]. exists r. split; [done|]. split; [by apply (ok_owned _ _ _ I)|done].
  - destruct (counters_exact _ _ _ I) as [-> ->]. destruct (owned_current _ _ _ I) as (d & _ & ? & ?).
    pose proof (ok_used _ _ _ I). destruct (owned_sizes _ _ _ I) as [_ ?]. unfold used in *. lia.
Qed.

End Arena.
End ArenaProps.

(** ** The pool *)

Module PoolProps.
Import Pool.

Section Pool.
Variables size_of align_of : Z.
(** The language: a size is a positive multiple of the alignment.  The class's
    own [static_assert]: an object holds a pointer. *)
Hypothesis size_holds_pointer : 8 <= size_of.
Hypothesis align_pos : 0 < align_of.
Hypothesis align_divides : (align_of | size_of).

Abbreviation slot := (slot_size size_of align_of).

Lemma slot_is_size : slot = size_of.
Proof. apply Z.divide_pos_le in align_divides; unfold slot_size; lia. Qed.

Definition slot_at (storage : Z) (i : nat) : Z := storage + Z.of_nat i * slot.

(** The slots of a pool. *)
Definition slots (p : PoolAllocator) : list Z := map (slot_at (storage_ p)) (seq 0 (Z.to_nat (capacity_ p))).

(** [l] are the nodes of the free list that starts at [h]. *)
Fixpoint chain (mem : Mem) (h : Z) (l : list Z) : Prop :=
  match l with
  | [] => h = nullptr
  | n :: l' => h = n /\ n <> nullptr /\ chain mem (next mem n) l'
  end.

(** The invariant, with the slots the application holds and those lost to a
    constructor that threw. *)
Record pool_ok (p : PoolAllocator) (mem : Mem) (live lost : list Z) : Prop := {
  pok_chain : exists free, chain mem (free_head_ p) free /\ free ++ live ++ lost ≡ₚ slots p;
  pok_in_use : in_use_ p = len live + len lost;
  pok_storage : 0 < storage_ p /\ storage_ p mod 4096 = 0;
  pok_capacity : 0 <= capacity_ p /\ slot * capacity_ p <= storage_size_ p /\ storage_ p + storage_size_ p <= user_limit
}.

Lemma slots_NoDup p : NoDup (slots p).
Proof.
  unfold slots. apply NoDup_fmap_2_strong; [|apply NoDup_seq].
  intros i j _ _ E. unfold slot_at in E. rewrite slot_is_size in E. nia.
Qed.

Lemma slot_in p mem live lost s : pool_ok p mem live lost -> s ∈ slots p ->
  storage_ p <= s /\ s + slot <= storage_ p + storage_size_ p /\ 0 < s /\
  (align_of <= 4096 -> (align_of | 4096) -> s mod align_of = 0).
Proof.
  intros I Hs. destruct (pok_storage _ _ _ _ I), (pok_capacity _ _ _ _ I) as (? & ? & ?).
  apply list_elem_of_fmap in Hs as (i & -> & Hi). apply elem_of_seq in Hi. unfold slot_at.
  pose proof slot_is_size as Sz. split; [nia|]. split; [nia|]. split; [nia|].
  intros _ D. rewrite Sz. destruct align_divides as [q ->].
  apply Z.mod_divide; [lia|]. apply Z.divide_add_r.
  - eapply Z.divide_trans; [exact D|]. by apply Z.mod_divide.
  - exists (Z.of_nat i * q). lia.
Qed.

Lemma capacity_range p mem live lost : pool_ok p mem live lost -> 0 <= capacity_ p < 2 ^ 47.
Proof.
  intros I. destruct (pok_storage _ _ _ _ I), (pok_capacity _ _ _ _ I) as (? & C & ?).
  rewrite slot_is_size in C. unfold user_limit in *. nia.
Qed.

Lemma live_count p mem live lost free : pool_ok p mem live lost -> free ++ live ++ lost ≡ₚ slots p ->
  len free + (len live + len lost) = capacity_ p.
Proof.
  intros I P. destruct (pok_capacity _ _ _ _ I). apply Permutation_length in P. unfold slots in P.
  rewrite length_map, length_seq, !length_app in P. unfold len. lia.
Qed.

(** Two slots do not overlap. *)
Lemma slots_apart p s t : s ∈ slots p -> t ∈ slots p -> s <> t -> s + slot <= t \/ t + slot <= s.
Proof.
  intros Hs Ht N. apply list_elem_of_fmap in Hs as (i & -> & _), Ht as (j & -> & _).
  unfold slot_at in *. rewrite slot_is_size in *.
  assert (i <> j) by (intros ->; done). nia.
Qed.

Lemma chain_write mem h l n w : n ∉ l -> chain mem h l -> chain (<[n := w]> mem) h l.
Proof.
  revert h. induction l as [|x l IH]; [done|]. intros h Hn (? & ? & C). cbn.
  split; [done|]. split; [done|]. unfold next in *. rewrite lookup_insert_ne by set_solver.
  apply IH; [set_solver|done].
Qed.

(** *** Operations *)

Lemma allocate_ok p mem live lost : pool_ok p mem live lost ->
  match allocate p mem with
  | (ptr, p') =>
      (ptr = nullptr /\ p' = p /\ len live + len lost = capacity_ p) \/
      (ptr <> nullptr /\ ptr ∈ slots p /\ ptr ∉ live ++ lost /\ len live + len lost < capacity_ p /\
       forall live' lost', live' ++ lost' ≡ₚ ptr :: live ++ lost -> pool_ok p' mem live' lost')
  end.
Proof.
  intros I. destruct (pok_chain _ _ _ _ I) as (free & C & P).
  pose proof (live_count _ _ _ _ _ I P) as Ln. pose proof (capacity_range _ _ _ _ I) as Cr.
  pose proof (slots_NoDup p) as N. rewrite <- P in N. unfold allocate.
  destruct free as [|n free]; cbn in C.
  { rewrite C. cbn. left. rewrite len_nil in Ln. split; [done|]. split; [done|lia]. }
  destruct C as (E & Nn & C). rewrite E. rewrite (proj2 (Z.eqb_neq n nullptr)) by done. right.
  cbn in N, P. apply NoDup_cons in N as [N1 N].
  split; [done|]. split; [rewrite <- P; by left|]. split; [set_solver|]. split; [len_lia|].
  intros live' lost' P'. pose proof (pok_in_use _ _ _ _ I) as U. split; cbn.
  - exists free. split; [done|]. rewrite P', <- P. symmetry. apply Permutation_middle.
  - apply Permutation_length in P'. rewrite length_app in P'. cbn in P'. rewrite length_app in P'.
    rewrite wrap64_small; unfold in_u64, len in *; cbn [length] in Ln; lia.
  - apply I.
  - apply I.
Qed.

Lemma deallocate_ok p mem live lost ptr : pool_ok p mem live lost -> ptr ∈ live ->
  exists p' mem' live', deallocate p mem ptr = Some (p', mem') /\ live ≡ₚ ptr :: live' /\
    pool_ok p' mem' live' lost /\ free_head_ p' = ptr.
Proof.
  intros I Hp. destruct (pok_chain _ _ _ _ I) as (free & C & P).
  assert (Hs : ptr ∈ slots p) by (rewrite <- P; set_solver).
  destruct (slot_in _ _ _ _ _ I Hs) as (S1 & S2 & S3 & _).
  pose proof slot_is_size as Sz. pose proof (slots_NoDup p) as N. rewrite <- P in N.
  pose proof (live_count _ _ _ _ _ I P). pose proof (capacity_range _ _ _ _ I).
  apply elem_of_Permutation in Hp as [live' El].
  unfold deallocate, owns, nullptr.
  rewrite (proj2 (Z.eqb_neq ptr 0)), (proj2 (Z.leb_le _ _)), (proj2 (Z.ltb_lt _ _)) by lia. cbn.
  eexists _, _, live'. split; [done|]. split; [done|]. split; [|done].
  rewrite El in N, P. apply NoDup_app in N as (_ & N & _).
  split; cbn.
  - exists (ptr :: free). split.
    + cbn. split; [done|]. unfold nullptr. split; [lia|]. unfold next. rewrite lookup_insert_eq.
      apply chain_write; [|done]. intros Hf. apply (N ptr Hf). by left.
    + cbn. rewrite <- P. apply Permutation_middle.
  - pose proof (pok_in_use _ _ _ _ I) as U. apply Permutation_length in El. cbn in El.
    rewrite wrap64_small; unfold in_u64, len in *; lia.
  - apply I.
  - apply I.
Qed.

Lemma write_ok p mem live lost ptr w : pool_ok p mem live lost -> ptr ∈ live ++ lost ->
  pool_ok p (<[ptr := w]> mem) live lost.
Proof.
  intros I Hp. destruct (pok_chain _ _ _ _ I) as (free & C & P).
  pose proof (slots_NoDup p) as N. rewrite <- P in N. apply NoDup_app in N as (_ & N & _).
  split; try apply I. exists free. split; [|done]. apply chain_write; [|done].
  intros Hf. by apply (N ptr).
Qed.

(** The loop of the constructor threads the slots in order of address. *)
Lemma link_slots_chain storage n mem : 0 < storage ->
  let '(head, mem') := foldl (link_slot storage slot) (nullptr, mem) (rev (seq 0 n)) in
  chain mem' head (map (slot_at storage) (seq 0 n)).
Proof.
  intros Hs.
  assert (Gen : forall k lo mem0 h0 l, Forall (fun x => (slot_at storage (lo + k) <= x)) l -> chain mem0 h0 l ->
    chain (snd (foldl (link_slot storage slot) (h0, mem0) (rev (seq lo k))))
          (fst (foldl (link_slot storage slot) (h0, mem0) (rev (seq lo k))))
          (map (slot_at storage) (seq lo k) ++ l)).
  { induction k as [|k IH]; intros lo mem0 h0 l F C; [done|].
    rewrite seq_S, rev_app_distr. cbn [rev app foldl].
    rewrite map_app, <- (assoc (++)). cbn [map app]. apply IH.
    - pose proof slot_is_size. constructor; [done|]. eapply Forall_impl; [exact F|].
      unfold slot_at. cbn. intros x ?. nia.
    - cbn. split; [done|]. pose proof slot_is_size.
      split; [unfold slot_at, nullptr; nia|]. unfold next. rewrite lookup_insert_eq. cbn.
      apply chain_write; [|done]. intros Hin. rewrite Forall_forall in F. specialize (F _ Hin).
      unfold slot_at in F. nia. }
  specialize (Gen n 0%nat mem nullptr [] (List.Forall_nil _) eq_refl). rewrite app_nil_r in Gen.
  by destruct (foldl _ _ _).
Qed.

Section Process.
Context {K : Mmap} {L : MmapLaws K}.

Lemma pool_new_ok capacity m mem p mem' m' : maps_ok m -> 0 <= capacity -> slot * capacity <= 2 ^ 62 ->
  pool_new size_of align_of capacity m mem = Some (p, mem', m') -> pool_ok p mem' [] [] /\ capacity_ p = capacity.
Proof.
  intros Hm Hc Hs E. unfold pool_new in E. pose proof slot_is_size.
  rewrite (wrap64_small (slot * capacity)) in E by (unfold in_u64; nia).
  destruct (mmap m _) as [storage|] eqn:Em; [|done].
  pose proof (mmap_ok _ _ _ Hm Em) as ((r1 & r2 & r3 & r4) & _). cbn in r1, r2, r3, r4.
  destruct (round_up_page (slot * capacity) ltac:(nia)) as [_ R].
  pose proof (link_slots_chain storage (Z.to_nat capacity) mem r1) as C.
  destruct (foldl _ _ _) as [head mem1]. simplify_eq. split; [|done]. split; cbn.
  - eexists. split; [exact C|]. unfold slots. cbn. by rewrite app_nil_r.
  - done.
  - done.
  - pose proof (pages_ge (round_up (slot * capacity) page_size)). repeat split; lia.
Qed.

(** The steps of an application with a pool: the slots it holds and those lost
    are ghost state. *)
Inductive step : PoolAllocator * Mem * list Z * list Z -> PoolAllocator * Mem * list Z * list Z -> Prop :=
| step_allocate p mem live lost ptr p' :
    allocate p mem = (ptr, p') ->
    step (p, mem, live, lost) (p', mem, if ptr =? nullptr then live else ptr :: live, lost)
| step_deallocate p mem live live' lost ptr p' mem' :
    live ≡ₚ ptr :: live' -> deallocate p mem ptr = Some (p', mem') ->
    step (p, mem, live, lost) (p', mem', live', lost)
| step_construct p mem live lost w ptr p' mem' :
    construct (Some w) p mem = (Some ptr, p', mem') ->
    step (p, mem, live, lost) (p', mem', if ptr =? nullptr then live else ptr :: live, lost)
| step_construct_throws p mem live lost p' mem' :
    construct None p mem = (None, p', mem') ->
    step (p, mem, live, lost) (p', mem', live, fst (allocate p mem) :: lost)
| step_destroy p mem live live' lost ptr p' mem' :
    live ≡ₚ ptr :: live' -> destroy p mem ptr = Some (p', mem') ->
    step (p, mem, live, lost) (p', mem', live', lost)
| step_write p mem live lost ptr w :
    ptr ∈ live -> step (p, mem, live, lost) (p, <[ptr := w]> mem, live, lost).

Definition state_ok (s : PoolAllocator * Mem * list Z * list Z) : Prop :=
  let '(p, mem, live, lost) := s in pool_ok p mem live lost.

Lemma pool_ok_perm p mem live live' lost : live ≡ₚ live' -> pool_ok p mem live lost -> pool_ok p mem live' lost.
Proof.
  intros P [(free & C & Pf) U S C']. split; try done.
  - exists free. split; [done|]. by rewrite <- P.
  - unfold len in *. by rewrite <- P.
Qed.

Lemma dealloc_step_ok p mem live live' lost ptr p' mem' : pool_ok p mem live lost -> live ≡ₚ ptr :: live' ->
  deallocate p mem ptr = Some (p', mem') -> pool_ok p' mem' live' lost.
Proof.
  intros I P E. destruct (deallocate_ok _ _ _ _ ptr I) as (p1 & mem1 & live1 & E1 & P1 & I1 & _).
  { rewrite P. by left. }
  simplify_eq. eapply pool_ok_perm; [|exact I1]. apply (Permutation_cons_inv (a := ptr)). by rewrite <- P1.
Qed.

Lemma pool_step_ok s s' : step s s' -> state_ok s -> state_ok s'.
Proof.
  intros St I. destruct St as [p mem live lost ptr p' E|p mem live live' lost ptr p' mem' P E
    |p mem live lost w ptr p' mem' E|p mem live lost p' mem' E|p mem live live' lost ptr p' mem' P E
    |p mem live lost ptr w Hp]; cbn in I |- *.
  - pose proof (allocate_ok _ _ _ _ I) as A. rewrite E in A.
    destruct A as [(-> & -> & _)|(Nn & _ & _ & _ & A)]; [done|].
    rewrite (proj2 (Z.eqb_neq ptr nullptr)) by done. by apply A.
  - by eapply dealloc_step_ok.
  - unfold construct in E. pose proof (allocate_ok _ _ _ _ I) as A. destruct (allocate p mem) as [q p1].
    destruct A as [(-> & -> & _)|(Nn & _ & _ & _ & A)]; [by simplify_eq/=|].
    rewrite (proj2 (Z.eqb_neq q nullptr)) in E by done. simplify_eq.
    rewrite (proj2 (Z.eqb_neq ptr nullptr)) by done. apply write_ok; [by apply A|by left].
  - unfold construct in E. pose proof (allocate_ok _ _ _ _ I) as A. destruct (allocate p mem) as [q p1].
    destruct A as [(-> & -> & _)|(Nn & _ & _ & _ & A)]; [done|].
    rewrite (proj2 (Z.eqb_neq q nullptr)) in E by done. simplify_eq. apply A.
    cbn. symmetry. apply Permutation_middle.
  - unfold destroy in E. case_match eqn:Z0; [|by eapply dealloc_step_ok].
    to_prop. subst. exfalso. destruct (pok_chain _ _ _ _ I) as (free & _ & Pf).
    assert (nullptr ∈ slots p) as Hs by (rewrite <- Pf, P; set_solver).
    apply (slot_in _ _ _ _ _ I) in Hs. unfold nullptr in Hs. lia.
  - apply write_ok; [done|set_solver].
Qed.

Lemma pool_steps_ok s s' : rtc step s s' -> state_ok s -> state_ok s'.
Proof. induction 1; eauto using pool_step_ok. Qed.

Lemma step_capacity s s' : step s s' -> capacity_ s'.1.1.1 = capacity_ s.1.1.1.
Proof.
  destruct 1; cbn; unfold construct, allocate, destroy, deallocate in *;
    repeat (case_match; simplify_eq; cbn in * ); done.
Qed.

(** In every state an application reaches with a pool, whatever it writes into
    the objects it holds: the objects are distinct slots inside the storage,
    aligned for their type, and [in_use] counts them (and the slots a throwing
    constructor lost); [allocate] fails exactly when nothing is free and
    otherwise returns a slot nobody holds; returning a held object is accepted
    and the next allocation reuses it. *)
Theorem pool_slots_safe capacity m mem p0 mem0 m0 p mem1 live lost :
  maps_ok m -> 0 <= capacity -> slot * capacity <= 2 ^ 62 ->
  pool_new size_of align_of capacity m mem = Some (p0, mem0, m0) ->
  rtc step (p0, mem0, [], []) (p, mem1, live, lost) ->
  NoDup (live ++ lost) /\
  Forall (fun s => storage_ p <= s /\ s + size_of <= storage_ p + storage_size_ p /\
    (align_of <= 4096 -> (align_of | 4096) -> s mod align_of = 0)) live /\
  (forall s t, s ∈ live -> t ∈ live -> s <> t -> s + size_of <= t \/ t + size_of <= s) /\
  in_use p = len live + len lost /\ available p = capacity - in_use p /\
  (fst (allocate p mem1) = nullptr <-> len live + len lost = capacity) /\
  (fst (allocate p mem1) <> nullptr -> fst (allocate p mem1) ∉ live ++ lost) /\
  (forall ptr, ptr ∈ live -> exists p' mem', deallocate p mem1 ptr = Some (p', mem') /\
     fst (allocate p' mem') = ptr).
Proof.
  intros Hm Hc Hs E R. destruct (pool_new_ok _ _ _ _ _ _ Hm Hc Hs E) as [I0 C0].
  pose proof (pool_steps_ok _ _ R I0) as I. cbn in I.
  assert (Cp : capacity_ p = capacity).
  { rewrite <- C0. clear -R. remember (p, mem1, live, lost) as s. remember (p0, mem0, [], []) as s0.
    assert (capacity_ s.1.1.1 = capacity_ s0.1.1.1) as Eq; [|by subst].
    clear -R. induction R as [|x y z St R IH]; [done|]. by rewrite IH, (step_capacity _ _ St). }
  destruct (pok_chain _ _ _ _ I) as (free & Ch & P). pose proof (slots_NoDup p) as N. rewrite <- P in N.
  assert (Sub : forall s, s ∈ live -> s ∈ slots p) by (intros s ?; rewrite <- P; set_solver).
  pose proof slot_is_size as Sz. pose proof (live_count _ _ _ _ _ I P) as Lc.
  pose proof (capacity_range _ _ _ _ I). pose proof (pok_in_use _ _ _ _ I) as U.
  split; [by apply NoDup_app in N as (_ & _ & N)|]. split.
  { apply Forall_forall. intros s Hl. destruct (slot_in _ _ _ _ _ I (Sub s Hl)) as (? & ? & ? & ?).
    rewrite <- Sz. done. }
  split. { intros s t ? ? ?. rewrite <- Sz. by apply (slots_apart p); [apply Sub|apply Sub|]. }
  split; [done|]. split.
  { unfold available, in_use. rewrite wrap64_small; [lia|]. unfold in_u64.
    pose proof (len_nonneg free). pose proof (len_nonneg live). pose proof (len_nonneg lost). lia. }
  pose proof (allocate_ok _ _ _ _ I) as A. destruct (allocate p mem1) as [q p1] eqn:Ea. cbn.
  split; [|split].
  - destruct A as [(-> & _ & A)|(? & _ & _ & ? & _)]; [split; intros; lia|split; [done|lia]].
  - destruct A as [(-> & _)|(_ & _ & ? & _)]; done.
  - intros ptr Hp. destruct (deallocate_ok _ _ _ _ _ I Hp) as (p2 & mem2 & live2 & E2 & _ & I2 & H2).
    exists p2, mem2. split; [done|]. unfold allocate. rewrite H2.
    destruct (slot_in _ _ _ _ _ I (Sub ptr Hp)) as (_ & _ & ? & _).
    by rewrite (proj2 (Z.eqb_neq ptr nullptr)) by (unfold nullptr; lia).
Qed.

End Process.
End Pool.
End PoolProps.

(** ** A kernel *)

Module Kernel.

(** Places each region after all others. *)
Definition top (m : maps) : Z := foldr (fun r t => Z.max (fst r + pages (snd r)) t) 4096 m.

#[export] Instance next_fit : Mmap := fun m size =>
  if (0 <? size) && (top m + pages size <=? user_limit) then Some (top m) else None.

Lemma top_ok m : maps_ok m -> 4096 <= top m /\ top m mod 4096 = 0 /\
  Forall (fun r => fst r + pages (snd r) <= top m) m.
Proof.
  induction m as [|r m IH]; [done|]. intros ((r1 & r2 & r3 & r4) & _ & Hm).
  destruct (IH Hm) as (T1 & T2 & T3). change (top (r :: m)) with (Z.max (fst r + pages (snd r)) (top m)).
  split; [lia|]. split.
  - destruct (Z.max_spec (fst r + pages (snd r)) (top m)) as [[_ ->]|[_ ->]]; [done|].
    unfold pages. rewrite Z_mod_plus_full. done.
  - constructor; [lia|]. eapply Forall_impl; [exact T3|]. cbn. lia.
Qed.

#[export] Instance next_fit_laws : MmapLaws next_fit.
Proof.
  split. intros m size p Hm E. unfold mmap, next_fit in E. case_match eqn:C; [|done]. simplify_eq. to_prop.
  destruct (top_ok m Hm) as (T1 & T2 & T3). cbn. split; [|split; [|done]].
  - unfold region_ok. cbn. lia.
  - eapply Forall_impl; [exact T3|]. unfold disjoint. cbn. lia.
Qed.

End Kernel.

Module MemoryWitness.
Import Kernel Arena ArenaProps.

(** An arena, an allocation of 100 bytes aligned to 64 and one of 40000
    bytes. *)
Lemma arena_allocations_safe_witness :
  let a := mkArena 65536 4196 69632 [(4096, 65536)] [(69632, 40960)] in
  let m := [(69632, 40960); (4096, 65536)] in
  live_bytes [mkAlloc 69632 40000 16; mkAlloc 4096 100 64] <= bytes_used a /\
  clear_of (mkAlloc 69632 40000 16) (mkAlloc 4096 100 64).
Proof.
  pose proof (arena_allocations_safe (K := next_fit) 65536 [] _ _
    (mkArena 65536 4196 69632 [(4096, 65536)] [(69632, 40960)])
    [(69632, 40960); (4096, 65536)] [mkAlloc 69632 40000 16; mkAlloc 4096 100 64]
    I ltac:(lia) eq_refl) as T.
  destruct T as (S & _ & B & _).
  - eapply rtc_l; [apply (step_allocate _ _ _ 100 64); [split; [lia|exists 6; lia]|vm_compute; reflexivity]|].
    eapply rtc_l; [apply (step_allocate _ _ _ 40000 16); [split; [lia|exists 4; lia]|vm_compute; reflexivity]|].
    apply rtc_refl.
  - split; [apply B|]. destruct S as [F _]. by apply Forall_cons in F as [F _].
Defined.

(** A dedicated mapping is only page aligned: an allocation of 40000 bytes that
    asks for 8192 is not aligned. *)
Lemma large_alignment_ignored :
  exists a m p a' m', arena_new 65536 [] = Some (a, m) /\
    do_allocate a m 40000 8192 = Some (p, a', m') /\ p mod 8192 <> 0.
Proof. do 5 eexists. split; [reflexivity|]. split; [vm_compute; reflexivity|]. vm_compute. lia. Qed.

Import Pool PoolProps.

(** A pool of two: both slots are taken, the first is overwritten and
    returned, and is what the next allocation returns. *)
Lemma pool_slots_safe_witness :
  let mem0 := <[4096 := 4160]> (<[4160 := 0]> (∅ : gmap Z Z)) in
  let mem := <[4096 := 0]> (<[4096 := 7]> mem0) in
  let p := mkPool 4096 4096 2 1 4096 in
  available p = 1 /\ fst (allocate p mem) <> nullptr /\ fst (allocate p mem) ∉ [4160].
Proof.
  cbn zeta. set (mem0 := <[4096 := 4160]> (<[4160 := 0]> (∅ : gmap Z Z))).
  pose proof (pool_slots_safe 64 16 ltac:(lia) ltac:(lia) ltac:(by exists 4) (K := next_fit) 2 []
    (∅ : gmap Z Z) (mkPool 4096 4096 2 0 4096) mem0 [(4096, 4096)] (mkPool 4096 4096 2 1 4096)
    (<[4096 := 0]> (<[4096 := 7]> mem0)) [4160] [] I ltac:(lia) ltac:(vm_compute; discriminate) eq_refl) as T.
  destruct T as (_ & _ & _ & U & A & _ & N & _).
  - eapply rtc_l; [apply (PoolProps.step_allocate _ _ _ _ 4096); vm_compute; reflexivity|]. cbn [Z.eqb nullptr].
    eapply rtc_l; [apply (PoolProps.step_allocate _ _ _ _ 4160); vm_compute; reflexivity|].
    eapply rtc_l; [apply (PoolProps.step_write _ _ _ _ 4096 7); set_solver|].
    eapply rtc_l; [apply (PoolProps.step_deallocate _ _ _ [4160] _ 4096); [apply perm_swap|reflexivity]|].
    apply rtc_refl.
  - split; [exact A|]. split; [vm_compute; discriminate|]. apply N. vm_compute. discriminate.
Defined.

(** A second [deallocate] of the same object passes the assertions; the two
    allocations that follow return the same slot. *)
Lemma double_free_undetected :
  let p := mkPool 4096 4096 2 1 4160 in
  let mem := <[4160 := 0]> (∅ : gmap Z Z) in
  exists p1 mem1 p2 mem2, deallocate p mem 4096 = Some (p1, mem1) /\
    deallocate p1 mem1 4096 = Some (p2, mem2) /\
    fst (allocate p2 mem2) = 4096 /\ fst (allocate (snd (allocate p2 mem2)) mem2) = 4096.
Proof. do 4 eexists. split; [reflexivity|]. split; [reflexivity|]. by vm_compute. Qed.

(** [owns] accepts addresses that are not objects of the pool: the middle of a
    slot, and the rest of the last page. *)
Lemma owns_imprecise :
  let p := mkPool 4096 4096 2 0 4096 in
  owns p 4097 = true /\ owns p 8000 = true /\ 4097 ∉ slots 64 16 p /\ 8000 ∉ slots 64 16 p.
Proof. by vm_compute; repeat split; try set_solver. Qed.

(** A constructor that throws keeps its slot: the pool of one is empty for
    good though the application holds nothing. *)
Lemma construct_leaks_on_throw :
  let p := mkPool 4096 4096 1 0 4096 in
  let '(r, p', mem) := construct None p (<[4096 := 0]> (∅ : gmap Z Z)) in
  r = None /\ in_use p' = 1 /\ available p' = 0 /\ fst (allocate p' mem) = nullptr.
Proof. by vm_compute. Qed.

(** The size of the storage wraps: a pool of 2^58 objects of 64 bytes would
    have no storage, one more has a single page. *)
Lemma pool_size_wraps :
  round_up (wrap64 (slot_size 64 16 * (2 ^ 58 + 1))) page_size = 4096.
Proof. reflexivity. Qed.

End MemoryWitness.
