(* ===== verification/Multipart.v ===== *)
(** * Multipart forms: http/multipart.*

    [parse_multipart] over a request; the file system it spills large uploads
    to is the class [TempFiles], the calls as POSIX and [std::filesystem]
    document them, with the set of files they act on as [TempFilesLaws].  A
    position in the body is the rest of the body from there. *)

From S2P Require Import Prelude CxxString HttpMessage.

Module Multipart.

Definition CR : byte := byte_of_Z 13.
Definition LF : byte := byte_of_Z 10.
Definition CRLF : bytes := [CR; LF].
Definition DQUOTE : byte := byte_of_Z 34.

(** ** Files *)

(** What [::write] returns: a number of bytes, [-1] with [EINTR], [-1] with
    any other error. *)
Inductive WriteResult := Written (n : nat) | Interrupted | WriteFailed.

Class TempFiles (W : Type) := {
  temp_directory_path : W -> bytes;
  is_directory : W -> bytes -> bool;
  mkstemp : W -> bytes -> option (Z * bytes) * W;
  write : W -> Z -> bytes -> WriteResult * W;
  close : W -> Z -> bool * W;
  remove : W -> bytes -> W;
  (** a bound on the signals that will still interrupt a call *)
  signals : W -> nat
}.

(** The files of the system by path, the file behind a descriptor, and what
    the calls do to them. *)
Class TempFilesLaws (W : Type) {F : TempFiles W} := {
  files : W -> gmap bytes bytes;
  fd_path : W -> Z -> option bytes;
  mkstemp_fail w d w' : mkstemp w d = (None, w') -> files w' = files w;
  mkstemp_new w d fd p w' : mkstemp w d = (Some (fd, p), w') ->
    files w !! p = None /\ files w' = <[p := []]> (files w) /\ fd_path w' fd = Some p;
  write_some w fd s n w' p old : write w fd s = (Written n, w') -> s <> [] ->
    fd_path w fd = Some p -> files w !! p = Some old ->
    (0 < n <= length s)%nat /\ files w' = <[p := old ++ take n s]> (files w) /\
    fd_path w' fd = Some p /\ (signals w' <= signals w)%nat;
  write_interrupted w fd s w' : write w fd s = (Interrupted, w') ->
    files w' = files w /\ fd_path w' fd = fd_path w fd /\ (signals w' < signals w)%nat;
  write_failed w fd s w' : write w fd s = (WriteFailed, w') -> files w' = files w;
  close_files w fd r w' : close w fd = (r, w') -> files w' = files w;
  remove_files w p : files (remove w p) = delete p (files w)
}.

(** ** Data *)

Record MultipartError := mkError { message : bytes }.

Record MultipartLimits := mkLimits {
  max_total_bytes : Z;
  max_parts : Z;
  max_header_bytes : Z;
  max_field_bytes : Z;
  max_in_memory_file_bytes : Z;
  temporary_directory : bytes
}.

Definition default_limits : MultipartLimits :=
  mkLimits (10 * 1024 * 1024) 128 (16 * 1024) (256 * 1024) (256 * 1024) [].

(** [temporary_file_] is the path of a spilled upload. *)
Record UploadedFile := mkFile {
  field_name_ : bytes;
  filename_ : bytes;
  content_type_ : bytes;
  size_ : Z;
  data_ : bytes;
  temporary_file_ : option bytes
}.

Definition in_memory (f : UploadedFile) : bool :=
  match temporary_file_ f with None => true | Some _ => false end.

Definition temporary_path (f : UploadedFile) : bytes := default [] (temporary_file_ f).

Record MultipartForm := mkForm {
  fields_ : gmap bytes (list bytes);
  files_ : list UploadedFile
}.

Definition empty_form : MultipartForm := mkForm ∅ [].

Definition fields (name : bytes) (form : MultipartForm) : option (list bytes) := fields_ form !! name.

Definition field (name : bytes) (form : MultipartForm) : option bytes :=
  match fields name form with
  | None => None
  | Some values => head values
  end.

Definition files_named (name : bytes) (form : MultipartForm) : list UploadedFile :=
  filter (fun f => field_name_ f = name) (files_ form).

(** ** Helpers *)

Definition trim (value : bytes) : bytes := trim_loops blank value.

Definition unsafe_char (c : byte) : bool :=
  (byte_val c <? 33) || (byte_val c =? 127) || (byte_val c =? 34) || (byte_val c =? 92).

Definition safe_token (value : bytes) : bool :=
  negb (bool_decide (value = [])) && forallb (fun c => negb (unsafe_char c)) value.

(** [result] without its quotes. *)
Definition unquote (result : bytes) : bytes :=
  if (2 <=? len result) && bool_decide (head result = Some DQUOTE) && bool_decide (last result = Some DQUOTE)
  then removelast (drop 1 result)
  else result.

(** The loop of [parameter] over the parts between semicolons. *)
Fixpoint find_parameter (parts : list bytes) (wanted : bytes) : option bytes :=
  match parts with
  | [] => None
  | p :: parts' =>
      let part := trim p in
      match find_char "="%char part with
      | Some equals =>
          if bool_decide (trim (take equals part) = wanted) then
            let result := unquote (trim (drop (equals + 1) part)) in
            if negb (contains_char CR result) && negb (contains_char LF result) then Some result else None
          else find_parameter parts' wanted
      | None => find_parameter parts' wanted
      end
  end.

Definition parameter (value wanted : bytes) : option bytes := find_parameter (tokens ";"%char value) wanted.

Definition boundary_from (content_type : bytes) : option bytes :=
  let semicolon := find_char ";"%char content_type in
  let media := match semicolon with Some i => take i content_type | None => content_type end in
  if negb (bool_decide (trim media = bs "multipart/form-data")) then None
  else
    let rest := match semicolon with Some i => drop (i + 1) content_type | None => [] end in
    match parameter rest (bs "boundary") with
    | None => None
    | Some boundary =>
        if (70 <? len boundary) || negb (safe_token boundary) then None else Some boundary
    end.

Definition valid_header_value (value : bytes) : bool :=
  forallb (fun c => negb ((byte_val c =? 13) || (byte_val c =? 10) || (byte_val c =? 0))) value.

(** ** Spilling a file *)

Section Files.
Context {W : Type} {F : TempFiles W}.

Fixpoint write_all (fuel : nat) (fd : Z) (content : bytes) (w : W) : option bool * W :=
  match fuel with
  | O => (None, w)
  | S fuel' =>
      if bool_decide (content = []) then (Some true, w)
      else match write w fd content with
           | (Interrupted, w') => write_all fuel' fd content w'
           | (WriteFailed, w') => (Some false, w')
           | (Written n, w') => write_all fuel' fd (drop n content) w'
           end
  end.

(** Enough turns for every byte and every signal. *)
Definition write_turns (content : bytes) (w : W) : nat := S (length content + signals w).

Definition spill_file (content directory : bytes) (w : W) : option (result MultipartError bytes) * W :=
  if negb (is_directory w directory) then
    (Some (Err (mkError (bs "Multipart temporary directory is not available"))), w)
  else
    match mkstemp w (directory ++ bs "/novaboot-upload-XXXXXX") with
    | (None, w1) => (Some (Err (mkError (bs "Could not create multipart temporary file"))), w1)
    | (Some (fd, path), w1) =>
        match write_all (write_turns content w1) fd content w1 with
        | (None, w2) => (None, w2)
        | (Some written, w2) =>
            let '(closed, w3) := close w2 fd in
            if negb written || negb closed then
              (Some (Err (mkError (bs "Could not write multipart temporary file"))), remove w3 path)
            else (Some (Ok path), w3)
        end
    end.

(** A form that goes out of scope deletes the files it spilled. *)
Definition release (form : MultipartForm) (w : W) : W :=
  foldl (fun w f => match temporary_file_ f with Some p => remove w p | None => w end) w (files_ form).

(** ** Parsing *)

(** The header lines of a part; [None] when the fuel runs out. *)
Fixpoint part_headers (fuel : nat) (headers : bytes) (disposition : option bytes) (content_type : bytes)
  : option (result MultipartError (option bytes * bytes)) :=
  match fuel with
  | O => None
  | S fuel' =>
      if bool_decide (headers = []) then Some (Ok (disposition, content_type))
      else
        let line_end := find_sub CRLF headers in
        let line := match line_end with Some i => take i headers | None => headers end in
        match find_char ":"%char line with
        | None => Some (Err (mkError (bs "Malformed multipart part header")))
        | Some colon =>
            if negb (valid_header_value line) then
              Some (Err (mkError (bs "Malformed multipart part header")))
            else
              let name := trim (take colon line) in
              let value := trim (drop (colon + 1) line) in
              let disposition := if bool_decide (name = bs "Content-Disposition") then Some value else disposition in
              let content_type := if bool_decide (name = bs "Content-Type") then value else content_type in
              match line_end with
              | None => Some (Ok (disposition, content_type))
              | Some i => part_headers fuel' (drop (i + 2) headers) disposition content_type
              end
        end
  end.

(** One part, from after the line of its delimiter. *)
Record Part := mkPart {
  part_name : bytes;
  part_filename : option bytes;
  part_type : bytes;
  part_content : bytes
}.

(** The part and the body from its next delimiter on. *)
Definition parse_part (limits : MultipartLimits) (delimiter rest : bytes)
  : option (result MultipartError (Part * bytes)) :=
  match find_sub (CRLF ++ CRLF) rest with
  | None => Some (Err (mkError (bs "Multipart part headers are malformed or too large")))
  | Some header_end =>
      if max_header_bytes limits <? Z.of_nat header_end then
        Some (Err (mkError (bs "Multipart part headers are malformed or too large")))
      else
        match part_headers (S header_end) (take header_end rest) None [] with
        | None => None
        | Some (inl e) => Some (Err e)
        | Some (inr (disposition, content_type)) =>
            let form_data := match disposition with
                             | Some d => starts_with (bs "form-data") d
                             | None => false
                             end in
            if negb form_data then
              Some (Err (mkError (bs "Multipart part requires form-data Content-Disposition")))
            else
              let d := default [] disposition in
              match parameter d (bs "name") with
              | None | Some [] => Some (Err (mkError (bs "Multipart part is missing a field name")))
              | Some field_name =>
                  let filename := parameter d (bs "filename") in
                  let body := drop (header_end + 4) rest in
                  match find_sub (CRLF ++ delimiter) body with
                  | None => Some (Err (mkError (bs "Multipart part is missing a closing boundary")))
                  | Some next =>
                      Some (Ok (mkPart field_name filename content_type (take next body), drop (next + 2) body))
                  end
              end
        end
  end.

(** What the loop does with a part: a field is appended to the values of its
    name, a file is kept in memory or spilled. *)
Definition store_part (limits : MultipartLimits) (directory : bytes) (p : Part) (form : MultipartForm) (w : W)
  : option (result MultipartError MultipartForm) * W :=
  match part_filename p with
  | None =>
      if max_field_bytes limits <? len (part_content p) then
        (Some (Err (mkError (bs "Multipart field exceeds configured size limit"))), w)
      else
        let values := default [] (fields_ form !! part_name p) in
        (Some (Ok (mkForm (<[part_name p := values ++ [part_content p]]> (fields_ form)) (files_ form))), w)
  | Some filename =>
      let file data tmp := mkFile (part_name p) filename (part_type p) (len (part_content p)) data tmp in
      if len (part_content p) <=? max_in_memory_file_bytes limits then
        (Some (Ok (mkForm (fields_ form) (files_ form ++ [file (part_content p) None]))), w)
      else
        match spill_file (part_content p) directory w with
        | (None, w') => (None, w')
        | (Some (inl e), w') => (Some (Err e), w')
        | (Some (inr path), w') => (Some (Ok (mkForm (fields_ form) (files_ form ++ [file [] (Some path)]))), w')
        end
  end.

Definition fail (form : MultipartForm) (w : W) (why : MultipartError)
  : option (result MultipartError MultipartForm) * W := (Some (Err why), release form w).

(** The loop over the parts; [None] when the fuel runs out. *)
Fixpoint parse_loop (fuel : nat) (limits : MultipartLimits) (directory delimiter : bytes) (parts : Z)
  (form : MultipartForm) (rest : bytes) (w : W) : option (result MultipartError MultipartForm) * W :=
  match fuel with
  | O => (None, w)
  | S fuel' =>
      if negb (starts_with delimiter rest) then fail form w (mkError (bs "Malformed multipart boundary"))
      else
        let rest := drop (length delimiter) rest in
        if starts_with (bs "--") rest then
          let rest := drop 2 rest in
          if negb (bool_decide (rest = [])) && negb (bool_decide (rest = CRLF)) then
            fail form w (mkError (bs "Unexpected data after multipart terminator"))
          else (Some (Ok form), w)
        else if negb (starts_with CRLF rest) then
          fail form w (mkError (bs "Multipart boundary must end with CRLF"))
        else
          let parts := parts + 1 in
          if max_parts limits <? parts then
            fail form w (mkError (bs "Multipart part count exceeds configured limit"))
          else
            match parse_part limits delimiter (drop 2 rest) with
            | None => (None, w)
            | Some (inl e) => fail form w e
            | Some (inr (p, next)) =>
                match store_part limits directory p form w with
                | (None, w') => (None, w')
                | (Some (inl e), w') => fail form w' e
                | (Some (inr form'), w') => parse_loop fuel' limits directory delimiter parts form' next w'
                end
            end
  end.

Definition parse_multipart (request : Request.t) (limits : MultipartLimits) (w : W)
  : option (result MultipartError MultipartForm) * W :=
  match Request.header (bs "content-type") request with
  | None => (Some (Err (mkError (bs "Missing multipart Content-Type"))), w)
  | Some content_type =>
      match boundary_from content_type with
      | None => (Some (Err (mkError (bs "Invalid multipart boundary"))), w)
      | Some boundary =>
          let body := Request.body_ request in
          if max_total_bytes limits <? len body then
            (Some (Err (mkError (bs "Multipart body exceeds configured size limit"))), w)
          else
            let directory := if bool_decide (temporary_directory limits = []) then temp_directory_path w
                             else temporary_directory limits in
            let delimiter := bs "--" ++ boundary in
            if negb (starts_with delimiter body) then
              (Some (Err (mkError (bs "Multipart body does not start with boundary"))), w)
            else parse_loop (S (length body)) limits directory delimiter 0 empty_form body w
      end
  end.

End Files.
End Multipart.
