(* ===== verification/MultipartProps.v ===== *)
(** * Multipart forms: rejection leaves no trace, printed forms parse back

    [Uploads] follows the file system through [parse_multipart].  [Printing]
    prints a form the way a browser does and parses it. *)

From S2P Require Import Prelude CxxString HttpMessage Multipart.
Import Multipart.

(** ** The file system *)

Module Uploads.

Section Uploads.
Context {W : Type} {F : TempFiles W} {L : TempFilesLaws W}.

Lemma write_all_ok fuel fd content w p old :
  (S (length content + signals w) <= fuel)%nat ->
  fd_path w fd = Some p -> files w !! p = Some old ->
  exists b w', write_all fuel fd content w = (Some b, w') /\
    (b = true -> files w' = <[p := old ++ content]> (files w)) /\
    (exists part, files w' = <[p := part]> (files w)).
Proof.
  revert content w old. induction fuel as [|fuel IH]; intros content w old Hf Hp Ho; [lia|]. cbn [write_all].
  case_bool_decide as E.
  { subst. exists true, w. split; [done|]. rewrite app_nil_r.
    split; [intros _|exists old]; by rewrite insert_id. }
  destruct (write w fd content) as [[n| |] w'] eqn:Ew.
  - destruct (write_some _ _ _ _ _ _ _ Ew E Hp Ho) as (Hn & Hfs & Hp' & Hs).
    destruct (IH (drop n content) w' (old ++ take n content)) as (b & w2 & R & T & part & P).
    + rewrite length_drop. lia.
    + done.
    + by rewrite Hfs, lookup_insert_eq.
    + exists b, w2. split; [done|]. rewrite Hfs in *. rewrite insert_insert_eq in T, P.
      split; [|by exists part]. intros Hb. by rewrite (T Hb), <- (assoc (++)), take_drop.
  - destruct (write_interrupted _ _ _ _ Ew) as (Hfs & Hp' & Hs). rewrite <- Hfs in *.
    apply IH; [lia|by rewrite Hp'|done].
  - pose proof (write_failed _ _ _ _ Ew) as Hfs. exists false, w'. split; [done|].
    split; [done|]. exists old. by rewrite Hfs, insert_id.
Qed.

(** A spilled file holds the content; a failed attempt leaves nothing. *)
Lemma spill_file_ok content directory w :
  exists r w', spill_file content directory w = (Some r, w') /\
    match r with
    | inl _ => files w' = files w
    | inr path => files w !! path = None /\ files w' = <[path := content]> (files w)
    end.
Proof.
  unfold spill_file. destruct (is_directory w directory); cbn [negb]; [|by eexists _, _].
  destruct (mkstemp w _) as [[[fd path]|] w1] eqn:Em; cycle 1.
  { eexists _, _. split; [done|]. by apply (mkstemp_fail _ _ _ Em). }
  destruct (mkstemp_new _ _ _ _ _ Em) as (Hn & Hfs & Hp).
  destruct (write_all_ok (write_turns content w1) fd content w1 path []) as (b & w2 & -> & T & part & P).
  { unfold write_turns. lia. } { done. } { by rewrite Hfs, lookup_insert_eq. }
  rewrite Hfs, insert_insert_eq in T, P.
  destruct (close w2 fd) as [closed w3] eqn:Ec. pose proof (close_files _ _ _ _ Ec) as H3.
  destruct b, closed; cbn; eexists _, _; (split; [reflexivity|]); cbn;
    try (rewrite remove_files, H3, P; by apply delete_insert_id).
  split; [done|]. rewrite H3. by apply T.
Qed.

(** *** What a form has spilled *)

Definition spilled (form : MultipartForm) : list bytes := omap temporary_file_ (files_ form).

Lemma release_files form w : files (release form w) = foldl (fun m p => delete p m) (files w) (spilled form).
Proof.
  unfold release, spilled. revert w. induction (files_ form) as [|f fs IH]; intros w; [done|]. cbn.
  rewrite IH. destruct (temporary_file_ f); cbn; [by rewrite remove_files|done].
Qed.

Lemma deletes_lookup (ps : list bytes) (m : gmap bytes bytes) k :
  foldl (fun m p => delete p m) m ps !! k = if bool_decide (k ∈ ps) then None else m !! k.
Proof.
  revert m. induction ps as [|p ps IH]; intros m; cbn; [done|]. rewrite IH.
  destruct (decide (k = p)) as [->|N].
  - rewrite (bool_decide_true (p ∈ p :: ps)), lookup_delete_eq by set_solver. by case_bool_decide.
  - rewrite lookup_delete_ne by done. do 2 case_bool_decide; set_solver.
Qed.

(** The parts of a body: from a delimiter on, headers, an empty line, the content
    and the next delimiter, until the closing one. *)
Inductive body_parts (limits : MultipartLimits) (delimiter : bytes) : bytes -> list Part -> Prop :=
| bp_end tail : tail = [] \/ tail = CRLF -> body_parts limits delimiter (delimiter ++ bs "--" ++ tail) []
| bp_part head p next ps :
    parse_part limits delimiter (head ++ CRLF ++ CRLF ++ part_content p ++ CRLF ++ next) = Some (inr (p, next)) ->
    body_parts limits delimiter next ps ->
    body_parts limits delimiter (delimiter ++ CRLF ++ head ++ CRLF ++ CRLF ++ part_content p ++ CRLF ++ next) (p :: ps).

(** A file part and the upload it became: names, size, and the content, in memory
    or in the spilled file. *)
Definition uploaded (limits : MultipartLimits) (w : W) (p : Part) (f : UploadedFile) : Prop :=
  part_filename p = Some (filename_ f) /\ field_name_ f = part_name p /\ content_type_ f = part_type p /\
  size_ f = len (part_content p) /\
  match temporary_file_ f with
  | None => data_ f = part_content p /\ size_ f <= max_in_memory_file_bytes limits
  | Some path => files w !! path = Some (part_content p) /\ max_in_memory_file_bytes limits < size_ f
  end.

(** The contents of the field parts of a name. *)
Definition values_of (n : bytes) (ps : list Part) : list bytes :=
  map part_content (filter (fun p => part_filename p = None /\ part_name p = n) ps).

(** [form] holds the parts [ps], and accounts for what [w] has more than [base]. *)
Record uploads_ok (limits : MultipartLimits) (base : gmap bytes bytes) (ps : list Part) (form : MultipartForm) (w : W) : Prop := {
  up_release : foldl (fun m p => delete p m) (files w) (spilled form) = base;
  up_files : Forall2 (uploaded limits w) (filter (fun p => is_Some (part_filename p)) ps) (files_ form);
  up_fields : forall n, default [] (fields_ form !! n) = values_of n ps;
  up_named : forall n vs, fields_ form !! n = Some vs -> vs <> [];
  up_sizes : map_Forall (fun _ vs => Forall (fun v => len v <= max_field_bytes limits) vs) (fields_ form)
}.

Lemma uploads_same limits base ps form w w' : files w' = files w -> uploads_ok limits base ps form w -> uploads_ok limits base ps form w'.
Proof.
  intros E [I1 I2 I3 I4 I5]. split; rewrite ?E; [done| |done..]. eapply Forall2_impl; [exact I2|].
  intros q f (H1 & H2 & H3 & H4 & H5). split_and!; try done. by rewrite E.
Qed.

Lemma store_part_ok limits directory base ps p form w : uploads_ok limits base ps form w ->
  exists r w', store_part limits directory p form w = (Some r, w') /\
    match r with
    | inl _ => uploads_ok limits base ps form w'
    | inr form' => uploads_ok limits base (ps ++ [p]) form' w'
    end.
Proof.
  intros I. assert (forall n, values_of n (ps ++ [p]) = values_of n ps ++ values_of n [p]) as Va
    by (intros n; unfold values_of; by rewrite filter_app, map_app).
  unfold store_part. destruct (part_filename p) as [filename|] eqn:Ef.
  - assert (forall n, values_of n (ps ++ [p]) = values_of n ps) as Vf.
    { intros n. rewrite Va. unfold values_of. rewrite filter_cons, decide_False by (rewrite Ef; naive_solver). cbn. by rewrite app_nil_r. }
    assert (filter (fun p => is_Some (part_filename p)) (ps ++ [p]) = filter (fun p => is_Some (part_filename p)) ps ++ [p]) as Fl.
    { rewrite filter_app, filter_cons, decide_True by (by rewrite Ef). done. }
    case_match eqn:Small; to_prop.
    + eexists _, _. split; [done|]. split; cbn; [| |intros n; rewrite Vf; apply I|apply I|apply I].
      * unfold spilled. cbn. rewrite omap_app. cbn. rewrite app_nil_r. apply I.
      * rewrite Fl. apply Forall2_app; [apply I|]. constructor; [|constructor]. by split_and!.
    + destruct (spill_file_ok (part_content p) directory w) as (r & w' & -> & R).
      destruct r as [e|path]; eexists _, _; (split; [reflexivity|]); cbn; [by eapply uploads_same|].
      destruct R as [Hn Hfs]. split; cbn; [| |intros n; rewrite Vf; apply I|apply I|apply I].
      * unfold spilled. cbn. rewrite omap_app, foldl_app. cbn. rewrite <- (up_release _ _ _ _ _ I). fold (spilled form).
        apply map_eq. intros k. rewrite Hfs. destruct (decide (k = path)) as [->|N].
        -- rewrite lookup_delete_eq, deletes_lookup. case_bool_decide; by rewrite ?Hn.
        -- rewrite lookup_delete_ne, !deletes_lookup by done. case_bool_decide; [done|]. by rewrite lookup_insert_ne.
      * rewrite Fl. apply Forall2_app.
        -- eapply Forall2_impl; [apply (up_files _ _ _ _ _ I)|]. intros q f (H1 & H2 & H3 & H4 & H5). split_and!; try done.
           destruct (temporary_file_ f) as [q'|]; [|done]. destruct H5 as [H5 H6]. split; [|done].
           rewrite Hfs. rewrite lookup_insert_ne; [done|]. intros ->. congruence.
        -- constructor; [|constructor]. split_and!; try done. cbn. rewrite Hfs, lookup_insert_eq. split; [done|]. lia.
  - assert (filter (fun p => is_Some (part_filename p)) (ps ++ [p]) = filter (fun p => is_Some (part_filename p)) ps) as Fl.
    { rewrite filter_app, filter_cons, decide_False by (rewrite Ef; by intros [? ?]). cbn. by rewrite app_nil_r. }
    case_match eqn:Big; to_prop; eexists _, _; (split; [reflexivity|]); cbn; [done|].
    split; cbn; [apply I|rewrite Fl; apply I|..].
    + intros n. rewrite Va. unfold values_of at 2. rewrite filter_cons. destruct (decide (part_name p = n)) as [<-|N].
      * rewrite lookup_insert_eq, decide_True by done. cbn. by rewrite (up_fields _ _ _ _ _ I).
      * rewrite lookup_insert_ne, decide_False by naive_solver. cbn. rewrite app_nil_r. apply I.
    + intros n vs. rewrite lookup_insert_Some. intros [[<- <-]|[_ E]]; [|by apply (up_named _ _ _ _ _ I n)].
      by intros [_ ?]%app_eq_nil.
    + apply map_Forall_insert_2; [|apply I]. apply Forall_app. split; [|by apply Forall_singleton].
      destruct (fields_ form !! part_name p) as [vs|] eqn:E; cbn; [|constructor].
      by apply (up_sizes _ _ _ _ _ I (part_name p)).
Qed.

(** *** The loops end *)

Lemma part_headers_total fuel headers d t : (length headers < fuel)%nat ->
  is_Some (part_headers fuel headers d t).
Proof.
  revert headers d t. induction fuel as [|fuel IH]; intros headers d t Hf; [lia|]. cbn [part_headers].
  case_bool_decide as E; [done|]. cbv zeta. destruct (find_sub CRLF headers) as [i|].
  - destruct (find_char _ _); [|done]. destruct (valid_header_value _); [|done]. cbn [negb].
    apply IH. rewrite length_drop. destruct headers; [done|]. cbn in *. lia.
  - destruct (find_char _ _); [|done]. by destruct (valid_header_value _).
Qed.

Lemma find_sub_split p x i : find_sub p x = Some i -> x = take i x ++ p ++ drop (i + length p) x.
Proof.
  revert i. induction x as [|c x IH]; intros i; cbn.
  - destruct p; [|done]. by intros [= <-].
  - destruct (starts_with p (c :: x)) eqn:S.
    + intros [= <-]. apply starts_with_spec in S as [r S]. cbn [take Nat.add app]. by rewrite S, drop_app_length.
    + destruct (find_sub p x) as [j|]; [|done]. intros [= <-]. cbn. f_equal. by apply IH.
Qed.

(** A part and what it was cut from. *)
Lemma parse_part_total limits delimiter rest : exists r, parse_part limits delimiter rest = Some r /\
  (forall p next, r = inr (p, next) -> (length next < length rest)%nat /\
     exists head, rest = head ++ CRLF ++ CRLF ++ part_content p ++ CRLF ++ next).
Proof.
  unfold parse_part. destruct (find_sub (CRLF ++ CRLF) rest) as [he|] eqn:Eh; [|by eexists].
  case_match; [by eexists|].
  destruct (part_headers_total (S he) (take he rest) None []) as [ph ->]; [rewrite length_take; lia|].
  pose proof (find_sub_split _ _ _ Eh) as Sp.
  apply find_sub_bound in Eh. change (length (CRLF ++ CRLF)) with 4%nat in *.
  destruct ph as [e|[d t]]; [by eexists|]. cbv zeta. case_match; [by eexists|].
  destruct (parameter _ (bs "name")) as [[|c n]|]; [by eexists| |by eexists].
  destruct (find_sub _ _) as [nx|] eqn:En; eexists; (split; [done|]); [|done].
  intros p next [= <- <-]. split; [rewrite !length_drop; lia|]. exists (take he rest).
  apply find_sub_split in En. cbn [part_content]. rewrite Sp at 1. rewrite <- app_assoc. do 3 f_equal.
  rewrite En at 1. f_equal. rewrite <- app_assoc. f_equal.
  pose proof (f_equal (drop (nx + 2)) En) as D.
  rewrite <- drop_drop in D. symmetry. rewrite <- drop_drop. rewrite En at 1.
  assert (length (take nx (drop (he + 4) rest)) = nx) as Ln.
  { apply (f_equal length) in En. rewrite !length_app, length_take in En. rewrite length_take. cbn in En. lia. }
  rewrite <- Ln at 1. rewrite drop_app_length. by rewrite <- app_assoc.
Qed.

Lemma parse_loop_ok fuel limits directory delimiter parts form rest w base done_ :
  (length rest < fuel)%nat -> uploads_ok limits base done_ form w ->
  exists r w', parse_loop fuel limits directory delimiter parts form rest w = (Some r, w') /\
    match r with
    | inl _ => files w' = base
    | inr form' => exists ps, body_parts limits delimiter rest ps /\ uploads_ok limits base (done_ ++ ps) form' w'
    end.
Proof.
  revert parts form rest w done_. induction fuel as [|fuel IH]; intros parts form rest w done_ Hf I; [lia|].
  assert (Fail : forall w1 e, uploads_ok limits base done_ form w1 -> exists r w', fail form w1 e = (Some r, w') /\
    match r with
    | inl _ => files w' = base
    | inr form' => exists ps, body_parts limits delimiter rest ps /\ uploads_ok limits base (done_ ++ ps) form' w'
    end).
  { intros w1 e I1. eexists _, _. split; [done|]. cbn. rewrite release_files. apply I1. }
  cbn [parse_loop]. cbv zeta. destruct (starts_with delimiter rest) eqn:Sd; cbn [negb]; [|by apply Fail].
  apply starts_with_spec in Sd as [more Sd]. assert (drop (length delimiter) rest = more) as Dm by (by rewrite Sd, drop_app_length).
  rewrite Dm. destruct (starts_with (bs "--") more) eqn:Se.
  { case_match eqn:T; [by apply Fail|]. eexists _, _. split; [done|]. exists []. rewrite app_nil_r. split; [|done].
    apply starts_with_spec in Se as [tail Se]. subst rest more. constructor.
    change (drop 2 (bs "--" ++ tail)) with tail in T. apply andb_false_iff in T as [T|T]; to_prop; auto. }
  destruct (starts_with CRLF more) eqn:Sc; cbn [negb]; [|by apply Fail]. case_match; [by apply Fail|].
  apply starts_with_spec in Sc as [more' Sc]. assert (drop 2 more = more') as Dm' by (by rewrite Sc). rewrite Dm'.
  destruct (parse_part_total limits delimiter more') as (r & Ep & Hr). rewrite Ep.
  destruct r as [e|[p next]]; [by apply Fail|]. destruct (Hr p next eq_refl) as [Hl (head & Hh)].
  destruct (store_part_ok limits directory base done_ p form w I) as (r & w' & -> & R).
  destruct r as [e|form']; [by apply Fail|].
  destruct (IH (parts + 1) form' next w' (done_ ++ [p])) as (r2 & w2 & -> & R2);
    [rewrite <- Dm', <- Dm, !length_drop in Hl; lia|done|]. exists r2, w2. split; [done|].
  destruct r2 as [e|form2]; [done|]. destruct R2 as (ps & B & U). exists (p :: ps). rewrite <- app_assoc in U. split; [|exact U].
  rewrite Sd, Sc, Hh. constructor; [by rewrite <- Hh|done].
Qed.


End Uploads.
End Uploads.

(** ** Searching *)

Lemma find_sub_cons p c s :
  find_sub p (c :: s) = if starts_with p (c :: s) then Some 0%nat else S <$> find_sub p s.
Proof. reflexivity. Qed.

(** A text without the first byte of the pattern is skipped. *)
Lemma find_sub_skip x p a s : x ∉ a -> find_sub (x :: p) (a ++ s) = Nat.add (length a) <$> find_sub (x :: p) s.
Proof.
  intros H. induction a as [|c a IH]; cbn [app length].
  - by destruct (find_sub (x :: p) s).
  - apply not_elem_of_cons in H as [H1 H2].
    transitivity (S <$> find_sub (x :: p) (a ++ s)).
    + cbn. by rewrite bool_decide_false.
    + rewrite (IH H2). by destruct (find_sub (x :: p) s).
Qed.

(** A pattern whose first byte does not recur in it is first found where it was
    put, when the text before does not contain it. *)
Lemma find_sub_first x p a s : x ∉ p -> find_sub (x :: p) a = None ->
  find_sub (x :: p) (a ++ (x :: p) ++ s) = Some (length a).
Proof.
  intros Hx. induction a as [|c a IH]; intros Ha.
  - cbn [app length]. rewrite find_sub_cons.
    by rewrite (starts_with_app (x :: p) s : starts_with (x :: p) (x :: p ++ s) = true).
  - cbn [length]. rewrite <- app_comm_cons, find_sub_cons. rewrite find_sub_cons in Ha.
    destruct (starts_with (x :: p) (c :: a)) eqn:Sw; [done|].
    destruct (find_sub (x :: p) a) eqn:Fa; [done|]. specialize (IH eq_refl).
    assert (N : starts_with (x :: p) (c :: a ++ (x :: p) ++ s) = false).
    { apply not_true_iff_false. intros T. apply starts_with_spec in T as [r T].
      rewrite app_comm_cons in T.
      destruct (app_eq_inv (c :: a) ((x :: p) ++ s) (x :: p) r T) as [(k & E1 & E2)|(k & E1 & E2)].
      - apply not_true_iff_false in Sw. apply Sw, starts_with_spec. by exists k.
      - destruct k as [|y k].
        + rewrite app_nil_r in E1. apply not_true_iff_false in Sw. apply Sw, starts_with_spec.
          exists []. by rewrite E1, app_nil_r.
        + cbn in E1, E2. injection E1 as -> E1. injection E2 as <- _. apply Hx. rewrite E1. set_solver. }
    by rewrite N, IH.
Qed.

Lemma find_char_take c a s i : c ∉ a -> i = length a -> find_char c (a ++ c :: s) = Some i.
Proof. intros H ->. by apply find_char_app. Qed.

(** ** Printing a form *)

Module Printing.

Definition SP : byte := byte_of_Z 32.

(** A text that may stand between quotes: no quote, semicolon or control
    character that ends a line. *)
Definition plain_char (c : byte) : bool :=
  let v := byte_val c in negb ((v =? 34) || (v =? 59) || (v =? 13) || (v =? 10) || (v =? 0)).

Definition plain (s : bytes) : Prop := Forall (fun c => plain_char c = true) s.

Definition quoted (s : bytes) : bytes := DQUOTE :: s ++ [DQUOTE].

Definition disposition (p : Part) : bytes :=
  bs "form-data; name=" ++ quoted (part_name p) ++
  match part_filename p with
  | Some f => bs "; filename=" ++ quoted f
  | None => []
  end.

Definition type_line (p : Part) : bytes :=
  if bool_decide (part_type p = []) then [] else CRLF ++ bs "Content-Type: " ++ part_type p.

Definition print_headers (p : Part) : bytes :=
  bs "Content-Disposition: " ++ disposition p ++ type_line p.

Definition print_part (delimiter : bytes) (p : Part) : bytes :=
  delimiter ++ CRLF ++ print_headers p ++ CRLF ++ CRLF ++ part_content p ++ CRLF.

Definition print_form (boundary : bytes) (parts : list Part) : bytes :=
  concat (map (print_part (bs "--" ++ boundary)) parts) ++ bs "--" ++ boundary ++ bs "--" ++ CRLF.

(** A part that can be printed with the given boundary. *)
Record printable (boundary : bytes) (p : Part) : Prop := {
  pr_name : plain (part_name p) /\ part_name p <> [];
  pr_filename : forall f, part_filename p = Some f -> plain f;
  pr_type : trim (part_type p) = part_type p /\ plain (part_type p);
  pr_content : find_sub (CRLF ++ bs "--" ++ boundary) (part_content p) = None
}.

Lemma plain_not s c : plain s -> plain_char c = false -> c ∉ s.
Proof.
  intros H Hc Hin. unfold plain in H. rewrite Forall_forall in H. specialize (H c Hin). congruence.
Qed.

Lemma trim_quoted s : trim (quoted s) = quoted s.
Proof.
  apply trim_loops_id.
  - intros x [= <-]. done.
  - intros x. unfold quoted. rewrite app_comm_cons, last_snoc. by intros [= <-].
Qed.

Lemma unquote_quoted s : unquote (quoted s) = s.
Proof.
  unfold unquote, quoted. rewrite app_comm_cons, last_snoc. cbn [head app drop].
  rewrite !(bool_decide_true (_ = _)) by done. rewrite (proj2 (Z.leb_le _ _)) by len_lia.
  change (removelast (s ++ [DQUOTE]) = s). apply removelast_last.
Qed.

(** A parameter of a header, as printed. *)
Lemma find_parameter_hit n s rest : plain s -> trim n = n -> "="%char ∉ n -> n <> [] ->
  (forall x, head n = Some x -> blank x = false) ->
  find_parameter ((SP :: n ++ "="%char :: quoted s) :: rest) n = Some s.
Proof.
  intros Hs Ht He Hn Hb. cbn [find_parameter].
  assert (Tr : trim (SP :: n ++ "="%char :: quoted s) = n ++ "="%char :: quoted s).
  { transitivity (trim (n ++ "="%char :: quoted s)); [done|]. apply trim_loops_id.
    - destruct n; [done|]. exact Hb.
    - intros x. unfold quoted. rewrite app_comm_cons, app_comm_cons, (assoc (++)), last_snoc. by intros [= <-]. }
  rewrite Tr. rewrite (find_char_app _ _ _ He), take_app_length, Ht, bool_decide_true by done.
  rewrite <- (Nat.add_1_r (length n)) || idtac.
  replace (drop (length n + 1) (n ++ "="%char :: quoted s)) with (quoted s)
    by (rewrite drop_app_ge by lia; by replace (length n + 1 - length n)%nat with 1%nat by lia).
  rewrite trim_quoted, unquote_quoted.
  rewrite (proj2 (contains_char_false CR s)), (proj2 (contains_char_false LF s)) by (by apply (plain_not s)).
  done.
Qed.

Lemma find_parameter_miss part rest wanted i : find_char "="%char (trim part) = Some i ->
  trim (take i (trim part)) <> wanted -> find_parameter (part :: rest) wanted = find_parameter rest wanted.
Proof. intros E N. cbn. by rewrite E, bool_decide_false. Qed.

(** A parameter with its leading blank. *)
Definition param (n s : bytes) : bytes := SP :: n ++ "="%char :: quoted s.

Lemma semicolon_param n s : ";"%char ∉ n -> plain s -> ";"%char ∉ param n s.
Proof.
  intros Hn Hs. unfold param, quoted. pose proof (plain_not s ";"%char Hs eq_refl).
  rewrite elem_of_cons, elem_of_app, elem_of_cons, elem_of_cons, elem_of_app, list_elem_of_singleton.
  intros [E|[E|[E|[E|[E|E]]]]]; try done; discriminate E.
Qed.

Lemma disposition_tokens b p : printable b p ->
  tokens ";"%char (disposition p) =
  bs "form-data" :: param (bs "name") (part_name p) ::
  match part_filename p with Some f => [param (bs "filename") f] | None => [] end.
Proof.
  intros H. pose proof (pr_name _ _ H) as [Hn _].
  assert (S1 : ";"%char ∉ param (bs "name") (part_name p)) by (apply semicolon_param; [|done]; vm_compute; set_solver).
  assert (S0 : ";"%char ∉ bs "form-data") by (vm_compute; set_solver).
  unfold disposition. destruct (part_filename p) as [f|] eqn:Ef.
  - assert (S2 : ";"%char ∉ param (bs "filename") f)
      by (apply semicolon_param; [vm_compute; set_solver|by apply (pr_filename _ _ H)]).
    transitivity (tokens ";"%char (bs "form-data" ++ ";"%char :: param (bs "name") (part_name p)
      ++ ";"%char :: param (bs "filename") f)).
    { reflexivity || (unfold param, quoted; cbn; by rewrite <- !app_assoc). }
    by rewrite (tokens_cons _ _ _ S0), (tokens_cons _ _ _ S1), tokens_last.
  - transitivity (tokens ";"%char (bs "form-data" ++ ";"%char :: param (bs "name") (part_name p))).
    { unfold param. cbn. by rewrite app_nil_r. }
    rewrite (tokens_cons _ _ _ S0), tokens_last; done.
Qed.

Lemma parameter_name b p : printable b p -> parameter (disposition p) (bs "name") = Some (part_name p).
Proof.
  intros H. unfold parameter. rewrite (disposition_tokens b p H).
  transitivity (find_parameter (param (bs "name") (part_name p) ::
    match part_filename p with Some f => [param (bs "filename") f] | None => [] end) (bs "name")); [reflexivity|].
  apply find_parameter_hit; [apply H|reflexivity|vm_compute; set_solver|done|by intros x [= <-]].
Qed.

(** The blank before a parameter is trimmed. *)
Lemma trim_param n s x n' : n = x :: n' -> blank x = false -> trim (param n s) = n ++ "="%char :: quoted s.
Proof.
  intros -> Hx. transitivity (trim ((x :: n') ++ "="%char :: quoted s)); [done|].
  apply trim_loops_id.
  - by intros y [= <-].
  - intros y. unfold quoted. rewrite app_comm_cons, app_comm_cons, (assoc (++)), last_snoc. by intros [= <-].
Qed.

Lemma parameter_filename b p : printable b p -> parameter (disposition p) (bs "filename") = part_filename p.
Proof.
  intros H. unfold parameter. rewrite (disposition_tokens b p H).
  transitivity (find_parameter (param (bs "name") (part_name p) ::
    match part_filename p with Some f => [param (bs "filename") f] | None => [] end) (bs "filename")); [reflexivity|].
  assert (E : trim (param (bs "name") (part_name p)) = bs "name" ++ "="%char :: quoted (part_name p))
    by by eapply trim_param.
  rewrite (find_parameter_miss _ _ _ 4); [|by rewrite E|rewrite E; vm_compute; done].
  destruct (part_filename p) as [f|] eqn:Ef; [|done].
  apply find_parameter_hit; [by apply (pr_filename _ _ H)|reflexivity|vm_compute; set_solver|done|by intros x [= <-]].
Qed.

(** *** Header lines *)

Definition line_char (c : byte) : bool := negb ((byte_val c =? 13) || (byte_val c =? 10) || (byte_val c =? 0)).

Definition line_text (s : bytes) : Prop := Forall (fun c => line_char c = true) s.

Lemma plain_line s : plain s -> line_text s.
Proof.
  intros H. eapply Forall_impl; [exact H|]. intros c Hc.
  pose proof (byte_forall (fun c => implb (plain_char c) (line_char c)) ltac:(vm_compute; reflexivity) c) as B.
  cbn in B. by rewrite Hc in B.
Qed.

Lemma line_valid s : line_text s -> valid_header_value s = true.
Proof. apply forallb_Forall. Qed.

Lemma line_no s c : line_text s -> line_char c = false -> c ∉ s.
Proof.
  intros H Hc Hin. unfold line_text in H. rewrite Forall_forall in H. specialize (H c Hin). congruence.
Qed.

Lemma line_app s t : line_text s -> line_text t -> line_text (s ++ t).
Proof. intros. by apply Forall_app. Qed.

Lemma line_bs s : forallb line_char (bs s) = true -> line_text (bs s).
Proof. apply forallb_Forall. Qed.

Lemma line_quoted s : plain s -> line_text (quoted s).
Proof. intros H. apply (line_app [DQUOTE]); [by repeat constructor|]. apply line_app; [by apply plain_line|by repeat constructor]. Qed.

Ltac line_tac :=
  repeat match goal with
  | |- line_text (_ ++ _) => apply line_app
  | |- line_text (quoted _) => apply line_quoted
  | |- line_text (bs _) => apply line_bs; reflexivity
  | |- line_text [] => constructor
  | |- _ => assumption
  | |- line_text _ => apply plain_line
  end.

Lemma disposition_line b p : printable b p -> line_text (disposition p).
Proof.
  intros H. pose proof (pr_name _ _ H) as [Hn _]. pose proof (pr_filename _ _ H) as Hf. unfold disposition.
  destruct (part_filename p) as [f|]; [specialize (Hf f eq_refl)|]; line_tac.
Qed.

(** The line [name: value]. *)
Lemma header_line n v : line_text n -> line_text v -> ":"%char ∉ n ->
  find_char ":"%char (n ++ bs ": " ++ v) = Some (length n) /\
  valid_header_value (n ++ bs ": " ++ v) = true /\
  take (length n) (n ++ bs ": " ++ v) = n /\
  drop (length n + 1) (n ++ bs ": " ++ v) = SP :: v.
Proof.
  intros Hn Hv Hc. split; [by apply find_char_app|]. split; [apply line_valid; line_tac|].
  split; [apply take_app_length|]. rewrite drop_app_ge by lia.
  by replace (length n + 1 - length n)%nat with 1%nat by lia.
Qed.

Lemma trim_blank s : trim (SP :: s) = trim s.
Proof. reflexivity. Qed.

Lemma trim_disposition p : trim (disposition p) = disposition p.
Proof.
  apply trim_loops_id; [by intros x [= <-]|]. intros x. unfold disposition.
  destruct (part_filename p) as [f|].
  - unfold quoted. rewrite !app_comm_cons, !(assoc (++)), last_snoc. by intros [= <-].
  - unfold quoted. rewrite app_nil_r, app_comm_cons, (assoc (++)), last_snoc. by intros [= <-].
Qed.

Lemma part_headers_printed fuel b p : printable b p -> (2 <= fuel)%nat ->
  part_headers fuel (print_headers p) None [] = Some (inr (Some (disposition p), part_type p)).
Proof.
  intros H Hf. destruct fuel as [|[|fuel]]; [lia|lia|]. pose proof (disposition_line _ _ H) as Dl.
  pose proof (pr_type _ _ H) as [Tt Tp].
  assert (E1 : print_headers p = (bs "Content-Disposition" ++ bs ": " ++ disposition p) ++ type_line p)
    by (unfold print_headers; by rewrite <- !(assoc (++))).
  assert (Hl : line_text (bs "Content-Disposition" ++ bs ": " ++ disposition p)) by line_tac.
  destruct (header_line (bs "Content-Disposition") (disposition p)) as (L1 & L2 & L3 & L4);
    [by apply line_bs|done|vm_compute; set_solver|].
  set (line := bs "Content-Disposition" ++ bs ": " ++ disposition p) in *.
  rewrite E1. cbn [part_headers].
  rewrite (bool_decide_false (line ++ type_line p = [])) by done.
  unfold type_line. case_bool_decide as Et.
  - rewrite app_nil_r.
    assert (find_sub CRLF line = None) as ->.
    { pose proof (find_sub_skip CR [LF] line [] (line_no _ CR Hl eq_refl)) as Fs. by rewrite app_nil_r in Fs. }
    cbv zeta. rewrite L1, L2, L3, L4. cbn [negb]. rewrite trim_blank, trim_disposition, Et. reflexivity.
  - assert (find_sub CRLF (line ++ CRLF ++ bs "Content-Type: " ++ part_type p) = Some (length line)) as ->
      by (apply find_sub_crlf; [done|by apply line_no]).
    cbv zeta. rewrite take_app_length, L1, L2, L3, L4. cbn [negb]. rewrite trim_blank, trim_disposition.
    replace (drop (length line + 2) (line ++ CRLF ++ bs "Content-Type: " ++ part_type p))
      with (bs "Content-Type" ++ bs ": " ++ part_type p)
      by (rewrite drop_app_ge by lia; by replace (length line + 2 - length line)%nat with 2%nat by lia).
    change (bool_decide (trim (bs "Content-Disposition") = bs "Content-Disposition")) with true.
    change (bool_decide (trim (bs "Content-Disposition") = bs "Content-Type")) with false. cbv iota.
    destruct (header_line (bs "Content-Type") (part_type p)) as (M1 & M2 & M3 & M4);
      [by apply line_bs|by apply plain_line|vm_compute; set_solver|].
    assert (Ml : line_text (bs "Content-Type" ++ bs ": " ++ part_type p)) by line_tac.
    set (line2 := bs "Content-Type" ++ bs ": " ++ part_type p) in *.
    rewrite (bool_decide_false (line2 = [])) by done.
    assert (find_sub CRLF line2 = None) as ->.
    { pose proof (find_sub_skip CR [LF] line2 [] (line_no _ CR Ml eq_refl)) as Fs. by rewrite app_nil_r in Fs. }
    rewrite M1, M2, M3, M4. cbn [negb]. rewrite trim_blank, Tt. reflexivity.
Qed.

Lemma find_blank_line b p rest : printable b p ->
  find_sub (CRLF ++ CRLF) (print_headers p ++ CRLF ++ CRLF ++ rest) = Some (length (print_headers p)).
Proof.
  intros H. change (CRLF ++ CRLF) with (CR :: LF :: CRLF). pose proof (disposition_line _ _ H) as Dl. pose proof (pr_type _ _ H) as [_ Tp].
  assert (At : forall r, find_sub (CR :: LF :: CRLF) (CRLF ++ CRLF ++ r) = Some 0%nat) by reflexivity.
  unfold print_headers, type_line. rewrite (assoc (++) _ (disposition p)).
  assert (Hl : line_text (bs "Content-Disposition: " ++ disposition p)) by line_tac.
  set (line := bs "Content-Disposition: " ++ disposition p) in *.
  rewrite <- (assoc (++)), (find_sub_skip CR _ line) by (by apply (line_no line)).
  case_bool_decide as Et.
  { rewrite app_nil_r. cbn [app]. rewrite (At rest). cbn. f_equal. lia. }
  assert (Ml : line_text (bs "Content-Type: " ++ part_type p)) by line_tac.
  set (line2 := bs "Content-Type: " ++ part_type p) in *.
  assert (Nl : exists l', line2 = "C"%char :: l') by (by eexists). destruct Nl as [l' El].
  transitivity (Nat.add (length line) ∘ S <$>
    find_sub (CR :: LF :: CRLF) ((LF :: line2) ++ CRLF ++ CRLF ++ rest)).
  { rewrite <- (assoc (++) CRLF). change (CRLF ++ line2 ++ CRLF ++ CRLF ++ rest)
      with (CR :: (LF :: line2) ++ CRLF ++ CRLF ++ rest).
    rewrite find_sub_cons. rewrite El at 1. cbn [app].
    change (starts_with (CR :: LF :: CRLF) (CR :: LF :: "C"%char :: l' ++ CRLF ++ CRLF ++ rest)) with false. cbv iota.
    by destruct (find_sub (CR :: LF :: CRLF) _). }
  rewrite (find_sub_skip CR); [|apply not_elem_of_cons; split; [done|by apply (line_no line2)]].
  rewrite (At rest). clearbody line line2. cbn. f_equal. rewrite length_app. cbn. lia.
Qed.

(** A printed part parses back, up to the next delimiter. *)
Lemma parse_part_printed limits b p r : printable b p -> CR ∉ b ->
  len (print_headers p) <= max_header_bytes limits ->
  parse_part limits (bs "--" ++ b)
    (print_headers p ++ CRLF ++ CRLF ++ part_content p ++ CRLF ++ (bs "--" ++ b) ++ r) =
  Some (inr (p, (bs "--" ++ b) ++ r)).
Proof.
  intros H Hb Hh. unfold parse_part. rewrite (find_blank_line _ _ _ H).
  rewrite (proj2 (Z.ltb_ge _ _)) by exact Hh. rewrite take_app_length.
  rewrite (part_headers_printed _ b p H); cycle 1.
  { unfold print_headers. rewrite length_app. cbn. lia. }
  cbv beta iota zeta. change (starts_with (bs "form-data") (disposition p)) with true. cbn [negb default].
  unfold default. cbn [from_option]. unfold id. rewrite (parameter_name b p H), (parameter_filename b p H).
  destruct (part_name p) as [|c n] eqn:En; [by destruct (pr_name _ _ H)|]. rewrite <- En.
  replace (drop (length (print_headers p) + 4)
    (print_headers p ++ CRLF ++ CRLF ++ part_content p ++ CRLF ++ (bs "--" ++ b) ++ r))
    with (part_content p ++ CRLF ++ (bs "--" ++ b) ++ r)
    by (rewrite drop_app_ge by lia; by replace (length (print_headers p) + 4 - length (print_headers p))%nat with 4%nat by lia).
  pose proof (find_sub_first CR (LF :: bs "--" ++ b) (part_content p) r) as Fs.
  assert (E : part_content p ++ (CR :: LF :: bs "--" ++ b) ++ r = part_content p ++ CRLF ++ (bs "--" ++ b) ++ r)
    by done.
  rewrite E in Fs. change (CRLF ++ bs "--" ++ b) with (CR :: LF :: bs "--" ++ b). rewrite Fs; cycle 1.
  { rewrite !elem_of_cons. cbn. intros [?|?]; [done|]. rewrite !elem_of_cons in *. naive_solver. }
  { apply H. }
  rewrite take_app_length. do 3 f_equal.
  - destruct p. cbn in *. by subst.
  - rewrite drop_app_ge by lia. by replace (length (part_content p) + 2 - length (part_content p))%nat with 2%nat by lia.
Qed.

(** *** The form of a list of parts *)

Definition field_values (name : bytes) (parts : list Part) : list bytes :=
  map part_content (filter (fun p => part_filename p = None /\ part_name p = name) parts).

Definition uploads (parts : list Part) : list UploadedFile :=
  omap (fun p => (fun f => mkFile (part_name p) f (part_type p) (len (part_content p)) (part_content p) None)
                 <$> part_filename p) parts.

Definition form_of (form : MultipartForm) (parts : list Part) : Prop :=
  (forall name, fields name form = match field_values name parts with [] => None | vs => Some vs end) /\
  files_ form = uploads parts.

(** The limits leave room for a part. *)
Definition fits (limits : MultipartLimits) (p : Part) : Prop :=
  len (print_headers p) <= max_header_bytes limits /\
  match part_filename p with
  | None => len (part_content p) <= max_field_bytes limits
  | Some _ => len (part_content p) <= max_in_memory_file_bytes limits
  end.

Section Parse.
Context {W : Type} {F : TempFiles W}.

Lemma store_part_form limits directory p form (w : W) parts : fits limits p -> form_of form parts ->
  exists form', store_part limits directory p form w = (Some (inr form'), w) /\ form_of form' (parts ++ [p]).
Proof.
  intros [_ Hp] [Hf Hu]. unfold store_part. destruct (part_filename p) as [f|] eqn:E.
  - rewrite (proj2 (Z.leb_le _ _)) by exact Hp. eexists. split; [done|]. split; cbn.
    + intros name. unfold field_values. rewrite filter_app, filter_cons, filter_nil, decide_False by naive_solver.
      rewrite app_nil_r. apply Hf.
    + unfold uploads. rewrite omap_app. cbn. rewrite E, Hu. done.
  - rewrite (proj2 (Z.ltb_ge _ _)) by exact Hp. eexists. split; [done|]. split; cbn.
    + intros name. unfold fields in *. cbn. unfold field_values. rewrite filter_app, map_app, filter_cons, filter_nil.
      destruct (decide (part_name p = name)) as [<-|N].
      * rewrite lookup_insert_eq, decide_True by done. rewrite (Hf (part_name p)). fold (field_values (part_name p) parts).
        by destruct (field_values (part_name p) parts).
      * rewrite lookup_insert_ne, decide_False by naive_solver. cbn. rewrite app_nil_r. apply Hf.
    + unfold uploads. rewrite omap_app. cbn. rewrite E, app_nil_r. exact Hu.
Qed.

Lemma print_form_cons b p parts :
  print_form b (p :: parts) =
  (bs "--" ++ b) ++ CRLF ++ print_headers p ++ CRLF ++ CRLF ++ part_content p ++ CRLF ++ print_form b parts.
Proof. unfold print_form. cbn [map concat]. unfold print_part. by rewrite <- !app_assoc. Qed.

Lemma print_form_nil b : print_form b [] = (bs "--" ++ b) ++ bs "--" ++ CRLF.
Proof. unfold print_form. cbn [map concat]. by rewrite <- app_assoc. Qed.

Lemma print_form_delimiter b parts : exists r, print_form b parts = (bs "--" ++ b) ++ r.
Proof.
  destruct parts as [|p parts]; [rewrite print_form_nil|rewrite print_form_cons]; by eexists.
Qed.

Lemma parse_loop_printed fuel limits directory b n form parts before (w : W) :
  (length parts < fuel)%nat -> CR ∉ b -> Forall (printable b) parts -> Forall (fits limits) parts ->
  n + len parts <= max_parts limits -> form_of form before ->
  exists form', parse_loop fuel limits directory (bs "--" ++ b) n form (print_form b parts) w = (Some (inr form'), w) /\
    form_of form' (before ++ parts).
Proof.
  intros Hl Hb. revert fuel n form before Hl.
  induction parts as [|p parts IH]; intros [|fuel] n form before Hl Hp Hf Hn Ho; try (cbn in Hl; lia).
  - exists form. rewrite app_nil_r. split; [|done]. rewrite print_form_nil. cbn [parse_loop].
    rewrite starts_with_app. cbv zeta. rewrite drop_app_length. reflexivity.
  - apply Forall_cons in Hp as [Hp Hps], Hf as [Hf Hfs]. cbn [parse_loop].
    rewrite print_form_cons, starts_with_app. cbv zeta. rewrite drop_app_length. cbn [negb].
    set (rest := print_headers p ++ CRLF ++ CRLF ++ part_content p ++ CRLF ++ print_form b parts).
    change (starts_with (bs "--") (CRLF ++ rest)) with false.
    change (starts_with CRLF (CRLF ++ rest)) with true. cbn [negb]. cbv iota.
    change (drop 2 (CRLF ++ rest)) with rest.
    rewrite (proj2 (Z.ltb_ge _ _)) by len_lia. unfold rest.
    destruct (print_form_delimiter b parts) as [r Er]. rewrite Er.
    rewrite (parse_part_printed limits b p r Hp Hb) by apply Hf. rewrite <- Er.
    destruct (store_part_form limits directory p form w before Hf Ho) as (form1 & -> & H1).
    destruct (IH fuel (n + 1) form1 (before ++ [p])) as (form' & -> & H'); try done.
    + cbn in Hl. lia.
    + len_lia.
    + exists form'. split; [done|]. by rewrite <- (assoc (++)) in H'.
Qed.

Lemma safe_no b c : safe_token b = true -> unsafe_char c = true -> c ∉ b.
Proof.
  intros Hs Hc Hin. apply andb_true_iff in Hs as [_ Hs]. rewrite forallb_Forall, Forall_forall in Hs.
  specialize (Hs c Hin). by rewrite Hc in Hs.
Qed.

Lemma boundary_from_printed b : safe_token b = true -> ";"%char ∉ b -> len b <= 70 ->
  boundary_from (bs "multipart/form-data; boundary=" ++ b) = Some b.
Proof.
  intros Hs Hb Hl. unfold boundary_from.
  change (find_char ";"%char (bs "multipart/form-data; boundary=" ++ b)) with (Some 19%nat). cbv beta iota zeta.
  change (take 19 (bs "multipart/form-data; boundary=" ++ b)) with (bs "multipart/form-data").
  change (drop (19 + 1) (bs "multipart/form-data; boundary=" ++ b)) with (bs " boundary=" ++ b).
  cbn [negb]. change (negb (bool_decide (trim (bs "multipart/form-data") = bs "multipart/form-data"))) with false.
  cbv iota. assert (Nb : b <> []) by (intros ->; done).
  assert (Nq : forall c, unsafe_char c = true -> c ∉ b) by (intros c; by apply safe_no).
  assert (Bl : forall x, x ∈ b -> blank x = false).
  { intros x Hx. destruct (blank x) eqn:Ex; [|done]. exfalso. apply (Nq x); [|done].
    pose proof (byte_forall (fun c => implb (blank c) (unsafe_char c)) ltac:(vm_compute; reflexivity) x) as Q.
    cbn in Q. by rewrite Ex in Q. }
  assert (Tb : trim b = b).
  { apply trim_loops_id; intros x E; apply Bl; [by apply head_Some_elem_of|by apply last_Some_elem_of]. }
  unfold parameter. rewrite tokens_last; [|done|]; cycle 1.
  { rewrite elem_of_app. intros [E|E]; [vm_compute in E; set_solver|done]. }
  cbn [find_parameter].
  assert (Tr : trim (bs " boundary=" ++ b) = bs "boundary=" ++ b).
  { transitivity (trim (bs "boundary=" ++ b)); [done|]. apply trim_loops_id; [by intros x [= <-]|].
    intros x E. apply Bl.
    rewrite last_app in E. destruct (last b) eqn:Lb; [by simplify_eq; apply last_Some_elem_of|].
    apply last_None in Lb. done. }
  rewrite Tr. change (find_char "="%char (bs "boundary=" ++ b)) with (Some 8%nat). cbv beta iota.
  change (trim (take 8 (bs "boundary=" ++ b))) with (bs "boundary").
  rewrite bool_decide_true by done. change (drop (8 + 1) (bs "boundary=" ++ b)) with b. rewrite Tb.
  assert (unquote b = b) as ->.
  { unfold unquote. rewrite (bool_decide_false (head b = Some DQUOTE)); [by rewrite andb_false_r|].
    intros E. apply (Nq DQUOTE eq_refl). by apply head_Some_elem_of. }
  rewrite (proj2 (contains_char_false CR b)), (proj2 (contains_char_false LF b)) by (by apply Nq).
  cbn [negb andb]. rewrite (proj2 (Z.ltb_ge _ _)), Hs by lia. reflexivity.
Qed.

(** A form printed the way a browser does parses back: every name has the
    contents of its fields in order, and the uploads come in order with their
    names, types and contents; nothing is spilled within the memory limit. *)
Theorem multipart_roundtrip limits b parts request (w : W) :
  safe_token b = true -> ";"%char ∉ b -> len b <= 70 ->
  Request.header (bs "content-type") request = Some (bs "multipart/form-data; boundary=" ++ b) ->
  Request.body_ request = print_form b parts ->
  len (print_form b parts) <= max_total_bytes limits -> len parts <= max_parts limits ->
  Forall (printable b) parts -> Forall (fits limits) parts ->
  exists form, parse_multipart request limits w = (Some (inr form), w) /\
    (forall name, fields name form = match field_values name parts with [] => None | vs => Some vs end) /\
    files_ form = uploads parts.
Proof.
  intros Hs Hb Hl Hc Hbody Ht Hn Hp Hf. unfold parse_multipart.
  rewrite Hc, (boundary_from_printed b Hs Hb Hl), Hbody. cbv zeta.
  rewrite (proj2 (Z.ltb_ge _ _)) by lia.
  destruct (print_form_delimiter b parts) as [r Er].
  replace (starts_with (bs "--" ++ b) (print_form b parts)) with true by (by rewrite Er, starts_with_app).
  cbn [negb].
  assert (CR ∉ b) by by apply safe_no.
  eapply (parse_loop_printed _ _ _ b 0 empty_form parts []); try done.
  clear. induction parts as [|p parts IH]; [cbn; lia|]. rewrite print_form_cons, !length_app.
  change (length CRLF) with 2%nat. cbn [length] in *. lia.
Qed.

End Parse.
End Printing.

(** ** A disk and witnesses *)

Module MultipartWitness.
Import Uploads Printing.

(** Files by path, open descriptors, the next name; a write takes at most two
    bytes, and the first is interrupted. *)
Record Disk := mkDisk { on_disk : gmap bytes bytes; open : gmap Z bytes; fresh : Z; pending : nat }.

Definition disk_mkstemp (d : Disk) (template : bytes) : option (Z * bytes) * Disk :=
  let path := template ++ to_dec (fresh d) in
  match on_disk d !! path with
  | Some _ => (None, d)
  | None => (Some (fresh d, path),
             mkDisk (<[path := []]> (on_disk d)) (<[fresh d := path]> (open d)) (fresh d + 1) (pending d))
  end.

Definition disk_write (d : Disk) (fd : Z) (s : bytes) : WriteResult * Disk :=
  match pending d with
  | S k => (Interrupted, mkDisk (on_disk d) (open d) (fresh d) k)
  | O =>
      match open d !! fd with
      | None => (WriteFailed, d)
      | Some path =>
          (Written (Nat.min 2 (length s)),
           mkDisk (<[path := default [] (on_disk d !! path) ++ take (Nat.min 2 (length s)) s]> (on_disk d))
             (open d) (fresh d) 0)
      end
  end.

#[export] Instance disk_files : TempFiles Disk := {
  temp_directory_path _ := bs "/tmp";
  is_directory _ d := bool_decide (d = bs "/tmp");
  mkstemp := disk_mkstemp;
  write := disk_write;
  close d _ := (true, d);
  remove d p := mkDisk (delete p (on_disk d)) (open d) (fresh d) (pending d);
  signals := pending
}.

#[export] Instance disk_laws : TempFilesLaws Disk.
Proof.
  refine {| files := on_disk; fd_path d fd := open d !! fd |}; cbn.
  - intros w d w'. unfold disk_mkstemp. case_match; by intros [= <-].
  - intros w d fd p w'. unfold disk_mkstemp. case_match; [done|]. intros [= <- <- <-]. cbn.
    by rewrite lookup_insert_eq.
  - intros w fd s n w' p old. unfold disk_write. destruct (pending w) eqn:Ep; [|done].
    case_match eqn:Eo; [|done]. intros [= <- <-] Hs Hp Ho. simplify_eq. cbn [on_disk open pending].
    rewrite Ho. destruct s as [|c s]; [done|]. split; [cbn; destruct (length s); lia|done].
  - intros w fd s w'. unfold disk_write. destruct (pending w) eqn:Ep; [by case_match|].
    intros [= <-]. cbn. split; [done|]. split; [done|lia].
  - intros w fd s w'. unfold disk_write. destruct (pending w) eqn:Ep; [|done].
    case_match; [done|]. by intros [= <-].
  - intros w fd r w'. by intros [= <- <-].
  - done.
Defined.

Definition disk0 : Disk := mkDisk ∅ ∅ 7 1.

Definition request_of (b body : bytes) : Request.t :=
  Request.append_body body (Request.set_headers
    [HeaderMap.mkEntry (bs "content-type") (bs "multipart/form-data; boundary=" ++ b)] Request.init).

Definition example_parts : list Part :=
  [mkPart (bs "title") None [] (bs "hello");
   mkPart (bs "doc") (Some (bs "a.txt")) (bs "text/plain") (bs "line");
   mkPart (bs "title") None [] (bs "again")].

(** Two fields and an upload come back. *)
Lemma multipart_roundtrip_witness :
  exists form, parse_multipart (request_of (bs "XyZ") (print_form (bs "XyZ") example_parts)) default_limits disk0
    = (Some (inr form), disk0) /\ fields (bs "title") form = Some [bs "hello"; bs "again"].
Proof.
  destruct (multipart_roundtrip default_limits (bs "XyZ") example_parts
    (request_of (bs "XyZ") (print_form (bs "XyZ") example_parts)) disk0) as (form & E & Hf & _).
  1-7: first [reflexivity | vm_compute; set_solver | vm_compute; discriminate].
  - repeat constructor; try (intros ? [= <-]); first [by vm_compute | by repeat constructor | discriminate].
  - repeat constructor; vm_compute; discriminate.
  - exists form. split; [exact E|]. rewrite Hf. reflexivity.
Defined.

(** An upload of 3 bytes over a memory limit of 2 is spilled; a missing final
    boundary then rejects the form, and the disk is empty again. *)
Lemma spilled_then_rejected :
  let limits := mkLimits 1000 10 1000 100 2 (bs "/tmp") in
  let body := print_part (bs "--B") (mkPart (bs "doc") (Some (bs "a")) [] (bs "abc")) ++ bs "--B" in
  exists e w, parse_multipart (request_of (bs "B") body) limits disk0 = (Some (inl e), w) /\
    on_disk w = ∅ /\ fresh w = 8.
Proof. do 2 eexists. split; [vm_compute; reflexivity|]. by vm_compute. Qed.


(** Header names of a part are compared with their case. *)
Lemma part_header_case_sensitive :
  parse_part default_limits (bs "--B")
    (bs "content-disposition: form-data; name=x" ++ CRLF ++ CRLF ++ bs "1" ++ CRLF ++ bs "--B--") =
  Some (Err (mkError (bs "Multipart part requires form-data Content-Disposition"))).
Proof. reflexivity. Qed.

(** A semicolon inside a quoted name cuts it, leaving the opening quote. *)
Lemma quoted_semicolon_cut :
  parameter (bs "form-data; name=" ++ quoted (bs "a;b")) (bs "name") = Some (DQUOTE :: bs "a").
Proof. reflexivity. Qed.

(** A line of the content that merely begins with the delimiter ends the part,
    and the form is rejected. *)
Lemma longer_boundary_line_rejected :
  let body := print_part (bs "--B") (mkPart (bs "x") None [] (bs "1" ++ CRLF ++ bs "--Bar")) ++ bs "--B--" in
  fst (parse_multipart (request_of (bs "B") body) default_limits disk0) =
  Some (Err (mkError (bs "Multipart boundary must end with CRLF"))).
Proof. reflexivity. Qed.

End MultipartWitness.
