(* ===== verification/Transaction.v ===== *)
(** * Transactions: db/transaction.h

    [Transaction] and [TransactionManager].  The database is an environment that
    answers each call, by success or an exception, as any function of the calls
    made so far; [trace] records the calls, the latest first.  A connection is
    named by the length of the trace at which it was obtained.  The callbacks of
    an application are programs ([App]) that run SQL, begin or end transactions
    on their connection themselves, throw, catch and call [execute] again, on any
    data source.

    [active_transactions_] is a vector: a reference into it is a position and
    the epoch at which it was taken, and dereferencing it after the vector has
    been reallocated is [Undefined]. *)

From S2P Require Import Prelude CxxString.

Module Transaction.

(** ** Options and exceptions *)

Inductive TransactionPropagation :=
  Required | RequiresNew | Supports | NotSupported | Mandatory | Never.

Inductive TransactionIsolation :=
  DefaultIsolation | ReadUncommitted | ReadCommitted | RepeatableRead | Serializable.

(** The dynamic type of a [std::exception]. *)
Inductive ExType :=
| TimeoutEx | UnexpectedRollbackEx | LogicError | DbError | UserEx (n : nat).

#[export] Instance ExType_eq_dec : EqDecision ExType.
Proof. solve_decision. Defined.

(** What can be thrown: a [std::exception], or anything else. *)
Inductive Exn := StdEx (t : ExType) | OtherEx.

#[export] Instance Exn_eq_dec : EqDecision Exn.
Proof. solve_decision. Defined.

Record TransactionOptions := mkOptions {
  propagation : TransactionPropagation;
  isolation : TransactionIsolation;
  read_only : bool;
  timeout_seconds : Z;
  rollback_for_types : list ExType;
  no_rollback_for_types : list ExType
}.

Definition default_options : TransactionOptions := mkOptions Required DefaultIsolation false 0 [] [].

Definition rollback_for (ts : list ExType) (o : TransactionOptions) : TransactionOptions :=
  mkOptions (propagation o) (isolation o) (read_only o) (timeout_seconds o)
    (rollback_for_types o ++ ts) (no_rollback_for_types o).

Definition no_rollback_for (ts : list ExType) (o : TransactionOptions) : TransactionOptions :=
  mkOptions (propagation o) (isolation o) (read_only o) (timeout_seconds o)
    (rollback_for_types o) (no_rollback_for_types o ++ ts).

Definition matches (types : list ExType) (t : ExType) : bool := bool_decide (t ∈ types).

Definition should_rollback (o : TransactionOptions) (t : ExType) : bool :=
  if matches (no_rollback_for_types o) t then false
  else if bool_decide (rollback_for_types o = []) then true
  else matches (rollback_for_types o) t.

(** ** The environment *)

Abbreviation conn := nat (only parsing).

Inductive Call :=
| GetConnection (ds : Z)
| Begin (c : conn)
| Execute_sql (c : conn) (sql : bytes)
| Commit (c : conn)
| Rollback (c : conn).

#[export] Instance Call_eq_dec : EqDecision Call.
Proof. solve_decision. Defined.

(** A call and the exception it threw, if any. *)
Record Event := mkEvent { call : Call; thrown : option Exn }.

#[export] Instance Event_eq_dec : EqDecision Event.
Proof. solve_decision. Defined.

(** An entry of [active_transactions_]; [rollback_only] is a position among the
    shared flags. *)
Record ActiveTransaction := mkActive { datasource : Z; connection : conn; rollback_only : nat }.

Record St := mkSt {
  trace : list Event;
  active_transactions_ : list ActiveTransaction;
  capacity : nat;
  epoch : nat;
  flags : list bool
}.

Inductive Outcome := Done | Thrown (e : Exn) | Undefined.

Section Manager.
(** How the database answers a call, the dialect of a data source, and the
    steady clock in nanoseconds. *)
Variable reply : list Event -> Call -> option Exn.
Variable dialect_name : Z -> bytes.
Variable clock : list Event -> Z.

Definition log (c : Call) (s : St) : St :=
  mkSt (mkEvent c (reply (trace s) c) :: trace s) (active_transactions_ s) (capacity s) (epoch s) (flags s).

(** A call on the database. *)
Definition invoke (c : Call) (s : St) : Outcome * St :=
  (match reply (trace s) c with None => Done | Some e => Thrown e end, log c s).

(** ** The vector *)

Definition push_back (a : ActiveTransaction) (s : St) : St :=
  let n := length (active_transactions_ s) in
  let full := (n =? capacity s)%nat in
  mkSt (trace s) (active_transactions_ s ++ [a])
    (if full then Nat.max 1 (2 * n) else capacity s) (if full then S (epoch s) else epoch s) (flags s).

Definition with_stack (st : list ActiveTransaction) (s : St) : St :=
  mkSt (trace s) st (capacity s) (epoch s) (flags s).

Definition pop_back (s : St) : St := with_stack (removelast (active_transactions_ s)) s.

(** [insert(end(), ...)] *)
Definition append (l : list ActiveTransaction) (s : St) : St :=
  let n := length (active_transactions_ s) in
  let full := (capacity s <? n + length l)%nat in
  mkSt (trace s) (active_transactions_ s ++ l)
    (if full then (n + Nat.max n (length l))%nat else capacity s) (if full then S (epoch s) else epoch s) (flags s).

Definition set_flag (i : nat) (s : St) : St :=
  mkSt (trace s) (active_transactions_ s) (capacity s) (epoch s) (<[i := true]> (flags s)).

(** [std::make_shared<bool>(false)] *)
Definition new_flag (s : St) : nat * St :=
  (length (flags s), mkSt (trace s) (active_transactions_ s) (capacity s) (epoch s) (flags s ++ [false])).

(** The last entry of the data source, by position. *)
Fixpoint last_index (ds : Z) (i : nat) (l : list ActiveTransaction) : option nat :=
  match l with
  | [] => None
  | a :: l' => match last_index ds (S i) l' with
               | Some j => Some j
               | None => if datasource a =? ds then Some i else None
               end
  end.

Definition current_active (ds : Z) (s : St) : option nat := last_index ds 0 (active_transactions_ s).

Definition current_connection_for (ds : Z) (s : St) : option conn :=
  match current_active ds s with
  | None => None
  | Some i => connection <$> active_transactions_ s !! i
  end.

(** ** Pieces of [execute] *)

Definition isolation_level (i : TransactionIsolation) : bytes :=
  match i with
  | ReadUncommitted => bs "READ UNCOMMITTED"
  | ReadCommitted => bs "READ COMMITTED"
  | RepeatableRead => bs "REPEATABLE READ"
  | Serializable => bs "SERIALIZABLE"
  | DefaultIsolation => []
  end.

Definition apply_transaction_options (ds : Z) (c : conn) (o : TransactionOptions) (s : St) : Outcome * St :=
  if negb (bool_decide (dialect_name ds = bs "postgresql")) then (Done, s)
  else
    let level := isolation_level (isolation o) in
    let '(r, s1) := if bool_decide (level = []) then (Done, s)
                    else invoke (Execute_sql c (bs "SET TRANSACTION ISOLATION LEVEL " ++ level)) s in
    match r with
    | Done => if read_only o then invoke (Execute_sql c (bs "SET TRANSACTION READ ONLY")) s1 else (Done, s1)
    | _ => (r, s1)
    end.

Definition check_timeout (started : Z) (o : TransactionOptions) (s : St) : Outcome :=
  if timeout_seconds o <=? 0 then Done
  else if timeout_seconds o * 1000000000 <? clock (trace s) - started then Thrown (StdEx TimeoutEx)
  else Done.

(** [Transaction::commit] and [rollback]; [completed] is [completed_]. *)
Definition tx_commit (c : conn) (completed : bool) (s : St) : Outcome * bool * St :=
  if completed then (Thrown (StdEx LogicError), completed, s)
  else match invoke (Commit c) s with
       | (Done, s') => (Done, true, s')
       | (r, s') => (r, false, s')
       end.

Definition tx_rollback (c : conn) (completed : bool) (s : St) : Outcome * bool * St :=
  if completed then (Thrown (StdEx LogicError), completed, s)
  else match invoke (Rollback c) s with
       | (Done, s') => (Done, true, s')
       | (r, s') => (r, false, s')
       end.

(** The destructor. *)
Definition tx_destroy (c : conn) (completed : bool) (s : St) : St :=
  if completed then s else snd (invoke (Rollback c) s).

(** The constructor. *)
Definition tx_new (ds : Z) (s : St) : (Exn + conn) * St :=
  let c := length (trace s) in
  match invoke (GetConnection ds) s with
  | (Done, s1) =>
      match invoke (Begin c) s1 with
      | (Thrown e, s2) => (inl e, s2)
      | (_, s2) => (inr c, s2)
      end
  | (Thrown e, s1) => (inl e, s1)
  | (Undefined, s1) => (inr c, s1)
  end.

(** The body of a callback, given its connection. *)
Definition Body : Type := conn -> St -> Outcome * St.

Definition execute_non_transactional (ds : Z) (o : TransactionOptions) (fn : Body) (s : St) : Outcome * St :=
  let started := clock (trace s) in
  let c := length (trace s) in
  match invoke (GetConnection ds) s with
  | (Done, s1) =>
      match fn c s1 with
      | (Done, s2) => (check_timeout started o s2, s2)
      | other => other
      end
  | other => other
  end.

(** [*active.rollback_only = true] through a reference taken at epoch [ep]. *)
Definition mark_rollback_only (i ep : nat) (s : St) : option St :=
  if (epoch s =? ep)%nat then
    match active_transactions_ s !! i with
    | Some a => Some (set_flag (rollback_only a) s)
    | None => None
    end
  else None.

Definition execute_existing (i : nat) (o : TransactionOptions) (fn : Body) (s : St) : Outcome * St :=
  let started := clock (trace s) in
  let ep := epoch s in
  match active_transactions_ s !! i with
  | None => (Undefined, s)
  | Some active =>
      let '(r, s1) := match fn (connection active) s with
                      | (Done, s1) => (check_timeout started o s1, s1)
                      | other => other
                      end in
      let mark := match mark_rollback_only i ep s1 with
                  | Some s2 => (r, s2)
                  | None => (Undefined, s1)
                  end in
      match r with
      | Thrown (StdEx t) => if should_rollback o t then mark else (r, s1)
      | Thrown OtherEx => mark
      | _ => (r, s1)
      end
  end.

(** The [try] block of [execute_new]. *)
Definition new_block (c : conn) (flag : nat) (started : Z) (o : TransactionOptions) (fn : Body) (s : St)
  : Outcome * bool * St :=
  match fn c s with
  | (Done, s1) =>
      match check_timeout started o s1 with
      | Done =>
          if default false (flags s1 !! flag) then
            match tx_rollback c false s1 with
            | (Done, completed, s2) => (Thrown (StdEx UnexpectedRollbackEx), completed, s2)
            | other => other
            end
          else tx_commit c false s1
      | r => (r, false, s1)
      end
  | (r, s1) => (r, false, s1)
  end.

(** Its handlers. *)
Definition new_catch (c : conn) (o : TransactionOptions) (r : Outcome) (completed : bool) (s : St)
  : Outcome * bool * St :=
  let rethrow x := match x with
                   | (Done, completed', s') => (r, completed', s')
                   | other => other
                   end in
  match r with
  | Thrown (StdEx UnexpectedRollbackEx) => (r, completed, s)
  | Thrown (StdEx t) =>
      if should_rollback o t then rethrow (tx_rollback c completed s) else rethrow (tx_commit c completed s)
  | Thrown OtherEx => rethrow (tx_rollback c completed s)
  | _ => (r, completed, s)
  end.

Definition execute_new (ds : Z) (o : TransactionOptions) (fn : Body) (s : St) : Outcome * St :=
  let started := clock (trace s) in
  match tx_new ds s with
  | (inl e, s1) => (Thrown e, s1)
  | (inr c, s1) =>
      match apply_transaction_options ds c o s1 with
      | (Done, s2) =>
          let '(flag, s3) := new_flag s2 in
          let s4 := push_back (mkActive ds c flag) s3 in
          let '(r, completed, s5) := new_block c flag started o fn s4 in
          let '(r', completed', s6) := new_catch c o r completed s5 in
          (r', tx_destroy c completed' (pop_back s6))
      | (r, s2) => (r, tx_destroy c false s2)
      end
  end.

(** [SuspendedTransactions]: the constructor's loop and the destructor. *)
Definition suspend (ds : Z) (s : St) : list ActiveTransaction * St :=
  (filter (fun a => datasource a = ds) (active_transactions_ s),
   with_stack (filter (fun a => datasource a <> ds) (active_transactions_ s)) s).

Definition execute (ds : Z) (o : TransactionOptions) (fn : Body) (s : St) : Outcome * St :=
  let active := current_active ds s in
  match propagation o with
  | Required => match active with
                | Some i => execute_existing i o fn s
                | None => execute_new ds o fn s
                end
  | RequiresNew => execute_new ds o fn s
  | Supports => match active with
                | Some i => execute_existing i o fn s
                | None => execute_non_transactional ds o fn s
                end
  | NotSupported =>
      let '(suspended, s1) := suspend ds s in
      let '(r, s2) := execute_non_transactional ds o fn s1 in
      (r, append suspended s2)
  | Mandatory => match active with
                 | Some i => execute_existing i o fn s
                 | None => (Thrown (StdEx LogicError), s)
                 end
  | Never => match active with
             | Some _ => (Thrown (StdEx LogicError), s)
             | None => execute_non_transactional ds o fn s
             end
  end.

(** ** Applications *)

(** The transaction calls a program can make itself on the connection it is
    handed. *)
Inductive RawCall := RawBegin | RawCommit | RawRollback.

Definition raw_call (k : RawCall) (c : conn) : Call :=
  match k with RawBegin => Begin c | RawCommit => Commit c | RawRollback => Rollback c end.

Inductive App :=
| Skip
| Sql (text : bytes)
| Raw (k : RawCall)
| Throw (e : Exn)
| Seq (a b : App)
| Try (a handler : App)
| Exec (ds : Z) (o : TransactionOptions) (a : App).

Fixpoint run (a : App) (c : conn) (s : St) : Outcome * St :=
  match a with
  | Skip => (Done, s)
  | Sql text => invoke (Execute_sql c text) s
  | Raw k => invoke (raw_call k c) s
  | Throw e => (Thrown e, s)
  | Seq a b => match run a c s with
               | (Done, s') => run b c s'
               | other => other
               end
  | Try a h => match run a c s with
               | (Thrown _, s') => run h c s'
               | other => other
               end
  | Exec ds o a => execute ds o (run a) s
  end.

End Manager.

Definition init : St := mkSt [] [] 0 0 [].

End Transaction.
