(* ===== verification/TransactionProps.v ===== *)
(** * Transactions: atomicity, nesting and the stack of active transactions

    For every application program and every behaviour of the database: who may
    end a transaction, how often, and what the thread-local stack looks like
    afterwards. *)

From S2P Require Import Prelude CxxString Transaction.
Import Transaction.

Module TransactionProps.

#[local] Arguments tx_destroy : simpl never.
#[local] Arguments Transaction.invoke : simpl never.

(** A call that begins or ends a transaction on a connection obtained at or
    after [n]; other calls do not matter. *)
Definition later_call (n : nat) (c : Call) : Prop :=
  match c with
  | Begin d | Commit d | Rollback d => (n <= d)%nat
  | _ => True
  end.

(** [s'] continues [s] without beginning or ending a transaction on a
    connection older than [n]. *)
Definition grows (n : nat) (s s' : St) : Prop :=
  exists t, trace s' = t ++ trace s /\ Forall (fun e => later_call n (call e)) t.

Lemma later_call_mono m n c : (m <= n)%nat -> later_call n c -> later_call m c.
Proof. destruct c; cbn; lia. Qed.

Lemma grows_refl n s : grows n s s.
Proof. by exists []. Qed.

Lemma grows_same n s s' : trace s' = trace s -> grows n s s'.
Proof. intros E. exists []. by rewrite E. Qed.

Lemma grows_trans n s1 s2 s3 : grows n s1 s2 -> grows n s2 s3 -> grows n s1 s3.
Proof.
  intros (t1 & E1 & F1) (t2 & E2 & F2). exists (t2 ++ t1). rewrite E2, E1, (assoc (++)). split; [done|].
  by apply Forall_app.
Qed.

Lemma grows_mono m n s s' : (m <= n)%nat -> grows n s s' -> grows m s s'.
Proof.
  intros H (t & E & F). exists t. split; [done|]. eapply Forall_impl; [exact F|]. cbn. intros e.
  by apply later_call_mono.
Qed.

Lemma grows_length n s s' : grows n s s' -> (length (trace s) <= length (trace s'))%nat.
Proof. intros (t & E & _). rewrite E, length_app. lia. Qed.

(** Membership in a list of events written out. *)
Ltac in_cases Hin :=
  repeat (apply elem_of_cons in Hin as [Hin|Hin]; [try discriminate Hin|]);
  try (by apply not_elem_of_nil in Hin).

Section Manager.
Variable reply : list Event -> Call -> option Exn.
Variable dialect_name : Z -> bytes.
Variable clock : list Event -> Z.

Abbreviation invoke := (invoke reply).
Abbreviation run := (run reply dialect_name clock).
Abbreviation execute := (execute reply dialect_name clock).
Abbreviation execute_new := (execute_new reply dialect_name clock).

(** Only the trace changes. *)
Definition only_calls (n : nat) (s s' : St) : Prop :=
  grows n s s' /\ active_transactions_ s' = active_transactions_ s /\ flags s' = flags s.

Lemma only_calls_refl n s : only_calls n s s.
Proof. split; [apply grows_refl|done]. Qed.

Lemma only_calls_trans n s1 s2 s3 : only_calls n s1 s2 -> only_calls n s2 s3 -> only_calls n s1 s3.
Proof.
  intros (G1 & A1 & F1) (G2 & A2 & F2). split; [by eapply grows_trans|]. by rewrite A2, A1, F2, F1.
Qed.

Lemma invoke_calls n c s : later_call n c -> only_calls n s (snd (invoke c s)).
Proof. intros H. split; [|done]. exists [mkEvent c (reply (trace s) c)]. split; [done|]. by constructor. Qed.

Lemma commit_calls n c b s : (n <= c)%nat -> only_calls n s (snd (tx_commit reply c b s)).
Proof.
  intros H. unfold tx_commit. destruct b; [apply only_calls_refl|].
  pose proof (invoke_calls n (Commit c) s H) as I. unfold Transaction.invoke in *.
  by destruct (reply (trace s) (Commit c)).
Qed.

Lemma rollback_calls n c b s : (n <= c)%nat -> only_calls n s (snd (tx_rollback reply c b s)).
Proof.
  intros H. unfold tx_rollback. destruct b; [apply only_calls_refl|].
  pose proof (invoke_calls n (Rollback c) s H) as I. unfold Transaction.invoke in *.
  by destruct (reply (trace s) (Rollback c)).
Qed.

Lemma destroy_calls n c b s : (n <= c)%nat -> only_calls n s (tx_destroy reply c b s).
Proof. intros H. unfold tx_destroy. destruct b; [apply only_calls_refl|]. by apply invoke_calls. Qed.

Lemma catch_calls n c o r b s : (n <= c)%nat -> only_calls n s (snd (new_catch reply c o r b s)).
Proof.
  intros H. pose proof (commit_calls n c b s H) as C. pose proof (rollback_calls n c b s H) as R.
  unfold new_catch. repeat case_match; subst; try apply only_calls_refl; simplify_eq/=; try done.
Qed.

Lemma options_calls n ds c o s : only_calls n s (snd (apply_transaction_options reply dialect_name ds c o s)).
Proof.
  unfold apply_transaction_options. case_match; [apply only_calls_refl|]. cbv zeta.
  destruct (if bool_decide _ then _ else _) as [r s1] eqn:E.
  assert (O1 : only_calls n s s1).
  { case_bool_decide; simplify_eq; [apply only_calls_refl|].
    pose proof (invoke_calls n (Execute_sql c (bs "SET TRANSACTION ISOLATION LEVEL " ++ isolation_level (isolation o))) s I) as O.
    by rewrite E in O. }
  destruct r; try done. destruct (read_only o); [|done].
  eapply only_calls_trans; [exact O1|]. by apply invoke_calls.
Qed.

Lemma tx_new_calls n ds s : (n <= length (trace s))%nat -> only_calls n s (snd (tx_new reply ds s)) /\
  (forall c, fst (tx_new reply ds s) = inr c -> c = length (trace s) /\ (c < length (trace (snd (tx_new reply ds s))))%nat /\
     trace (snd (tx_new reply ds s)) = [mkEvent (Begin c) None; mkEvent (GetConnection ds) None] ++ trace s).
Proof.
  intros H. unfold tx_new, Transaction.invoke.
  destruct (reply (trace s) (GetConnection ds)) eqn:E1; cbn.
  { split; [|done]. by apply (invoke_calls n (GetConnection ds) s). }
  destruct (reply _ (Begin _)) eqn:E2; cbn; (split; [|first [done|intros c [= <-]]]).
  - eapply only_calls_trans; [apply (invoke_calls n (GetConnection ds) s I)|].
    by apply (invoke_calls n (Begin (length (trace s)))).
  - eapply only_calls_trans; [apply (invoke_calls n (GetConnection ds) s I)|].
    by apply (invoke_calls n (Begin (length (trace s)))).
  - cbn in E2. rewrite E1 in E2. rewrite E1, E2. split; [done|]. split; [lia|done].
Qed.

(** *** Bodies that do not end transactions of others *)

(** The program makes no transaction call of its own. *)
Fixpoint managed (a : App) : Prop :=
  match a with
  | Raw _ => False
  | Skip | Sql _ | Throw _ => True
  | Seq a b | Try a b => managed a /\ managed b
  | Exec _ _ a => managed a
  end.

Definition body_grows (fn : Body) : Prop := forall c s, grows (length (trace s)) s (snd (fn c s)).

Lemma check_timeout_pure started o s r : check_timeout clock started o s = r -> r = Done \/ r = Thrown (StdEx TimeoutEx).
Proof. unfold check_timeout. repeat case_match; intros <-; auto. Qed.

(** The block only adds calls on its own connection to those of the body. *)
Lemma new_block_grows n c flag started o fn s : body_grows fn -> (n <= c)%nat -> (n <= length (trace s))%nat ->
  grows n s (snd (new_block reply clock c flag started o fn s)).
Proof.
  intros B Hc Hn. specialize (B c s). unfold new_block. destruct (fn c s) as [r s1]. cbn in B.
  apply (grows_mono n) in B; [|done].
  destruct r; [|done|done]. destruct (check_timeout clock started o s1); [|done|done].
  eapply grows_trans; [exact B|]. case_match; [|by apply commit_calls].
  destruct (rollback_calls n c false s1 Hc) as [R _].
  by destruct (tx_rollback reply c false s1) as [[[] ?] ?].
Qed.

Lemma execute_new_grows ds o fn : body_grows fn -> forall s, grows (length (trace s)) s (snd (execute_new ds o fn s)).
Proof.
  intros B s. set (n := length (trace s)). unfold Transaction.execute_new.
  destruct (tx_new_calls n ds s ltac:(lia)) as [[G1 _] Hc].
  destruct (tx_new reply ds s) as [[e|c] s1]; cbn in *; [done|].
  destruct (Hc c eq_refl) as (-> & Hl & _). fold n in Hl |- *.
  destruct (options_calls n ds n o s1) as [G2 _].
  destruct (apply_transaction_options reply dialect_name ds n o s1) as [r s2]. cbn in G2.
  assert (G12 : grows n s s2) by by eapply grows_trans.
  assert (L2 : (n <= length (trace s2))%nat) by by apply grows_length in G12.
  destruct r; try (cbn; eapply grows_trans; [exact G12|apply destroy_calls; lia]).
  cbn [new_flag].
  match goal with |- context [new_block reply clock n ?f ?st o fn ?s4] =>
    pose proof (new_block_grows n n f st o fn s4 B ltac:(lia) ltac:(cbn; lia)) as G5;
    destruct (new_block reply clock n f st o fn s4) as [[r b] s5] end.
  destruct (catch_calls n n o r b s5 ltac:(lia)) as [G6 _].
  destruct (new_catch reply n o r b s5) as [[r' b'] s6]. cbn in *.
  eapply grows_trans; [exact G12|]. eapply grows_trans; [exact G5|]. eapply grows_trans; [exact G6|].
  eapply grows_trans; [by apply (grows_same n s6 (pop_back s6))|]. apply destroy_calls. lia.
Qed.

Lemma nontx_grows ds o fn : body_grows fn -> forall n s, (n <= length (trace s))%nat ->
  grows n s (snd (execute_non_transactional reply clock ds o fn s)).
Proof.
  intros B n s Hn. unfold execute_non_transactional.
  destruct (invoke_calls n (GetConnection ds) s I) as [G _].
  destruct (invoke (GetConnection ds) s) as [r s1]. cbn in G. destruct r; try done.
  specialize (B (length (trace s)) s1). destruct (fn (length (trace s)) s1) as [r s2]. cbn in B.
  eapply grows_trans; [exact G|]. apply (grows_mono n) in B; [|apply grows_length in G; lia].
  by destruct r.
Qed.

Lemma existing_grows i o fn : body_grows fn -> forall s, grows (length (trace s)) s (snd (execute_existing clock i o fn s)).
Proof.
  intros B s. unfold execute_existing. destruct (active_transactions_ s !! i) as [a|]; [|apply grows_refl].
  specialize (B (connection a) s). destruct (fn (connection a) s) as [r s1]. cbn in B.
  assert (M : forall j ep s2, mark_rollback_only j ep s1 = Some s2 -> trace s2 = trace s1).
  { unfold mark_rollback_only. intros j ep s2. repeat case_match; by intros [= <-]. }
  assert (Q : forall r0 s2, trace s2 = trace s1 -> grows (length (trace s)) s (snd (r0 : Outcome, s2))).
  { intros r0 s2 E. destruct B as (t & Et & Ft). exists t. cbn. by rewrite E. }
  repeat (case_match; simplify_eq); try apply Q; eauto.
Qed.

Lemma execute_grows ds o fn : body_grows fn -> forall s, grows (length (trace s)) s (snd (execute ds o fn s)).
Proof.
  intros B s. unfold Transaction.execute. destruct (propagation o).
  - case_match; [by apply existing_grows|by apply execute_new_grows].
  - by apply execute_new_grows.
  - case_match; [by apply existing_grows|by apply nontx_grows].
  - unfold suspend. pose proof (nontx_grows ds o fn B (length (trace s))
      (with_stack (filter (λ a, datasource a ≠ ds) (active_transactions_ s)) s) ltac:(cbn; lia)) as G.
    destruct (execute_non_transactional reply clock ds o fn _) as [r s2]. cbn in *.
    eapply grows_trans; [|by apply (grows_same _ s2)]. exact G.
  - case_match; [by apply existing_grows|apply grows_refl].
  - case_match; [apply grows_refl|by apply nontx_grows].
Qed.

(** A program that leaves the transactions of its connections to the manager,
    however it nests, catches or joins, begins or ends none on a connection it
    was handed. *)
Lemma run_grows a : managed a -> body_grows (run a).
Proof.
  induction a as [|text|k|e|a IHa b IHb|a IHa h IHh|ds o a IH]; intros M c s; cbn; cbn in M; try destruct M as [Ma Mb];
    try specialize (IHa Ma); try specialize (IHb Mb); try specialize (IHh Mb); try specialize (IH M); try done.
  - apply grows_refl.
  - by apply (invoke_calls (length (trace s)) (Execute_sql c text) s).
  - apply grows_refl.
  - specialize (IHa c s). destruct (run a c s) as [r s1]. cbn in IHa. destruct r; try done.
    specialize (IHb c s1). eapply grows_trans; [exact IHa|]. eapply grows_mono; [|exact IHb].
    by apply grows_length in IHa.
  - specialize (IHa c s). destruct (run a c s) as [r s1]. cbn in IHa. destruct r; try done.
    specialize (IHh c s1). eapply grows_trans; [exact IHa|]. eapply grows_mono; [|exact IHh].
    by apply grows_length in IHa.
  - by apply execute_grows.
Qed.

(** *** How a transaction ends *)

(** The calls that ended the transaction on [c]. *)
Definition ended (c : nat) (t : list Event) : list Event :=
  filter (fun e => (call e = Commit c \/ call e = Rollback c) /\ thrown e = None) t.

(** What follows the body: the rest of the block, the handlers, the guard and
    the destructor. *)
Definition finish (c flag : nat) (started : Z) (o : TransactionOptions) (r0 : Outcome) (s1 : St) : Outcome * St :=
  let '(r, b, s5) := new_block reply clock c flag started o (fun _ s => (r0, s)) s1 in
  let '(r', b', s6) := new_catch reply c o r b s5 in
  (r', tx_destroy reply c b' (pop_back s6)).

Record ending (c : nat) (o : TransactionOptions) (marked : bool) (r0 r : Outcome) (te : list Event) : Prop := {
  end_calls : Forall (fun e => call e = Commit c \/ call e = Rollback c) te;
  end_once : (length (ended c te) <= 1)%nat;
  end_done : r = Done -> te = [mkEvent (Commit c) None] /\ r0 = Done /\ marked = false;
  end_commit : mkEvent (Commit c) None ∈ te ->
    r = Done \/ exists t, r = Thrown (StdEx t) /\ should_rollback o t = false;
  end_live : (forall tr, reply tr (Rollback c) = None) -> length (ended c te) = 1%nat
}.

(** The rest of the block after the body ended with [r0], with the calls made. *)
Inductive block_end (c : nat) (marked : bool) (r0 : Outcome) : Outcome -> bool -> list Event -> Prop :=
| be_throws e : block_end c marked r0 (Thrown e) false []
| be_commit : r0 = Done -> marked = false -> block_end c marked r0 Done true [mkEvent (Commit c) None]
| be_commit_fails e : block_end c marked r0 (Thrown e) false [mkEvent (Commit c) (Some e)]
| be_rollback : block_end c marked r0 (Thrown (StdEx UnexpectedRollbackEx)) true [mkEvent (Rollback c) None]
| be_rollback_fails e : block_end c marked r0 (Thrown e) false [mkEvent (Rollback c) (Some e)].

Lemma block_ends c flag started o r0 s1 : r0 <> Undefined ->
  let '(r, b, s5) := new_block reply clock c flag started o (fun _ s => (r0, s)) s1 in
  exists te, trace s5 = te ++ trace s1 /\ block_end c (default false (flags s1 !! flag)) r0 r b te.
Proof.
  intros N. unfold new_block. destruct r0 as [|e|]; [|exists []; by split; [|constructor]|done].
  destruct (check_timeout clock started o s1) as [|e|] eqn:Ct; [|exists []; by split; [|constructor]|].
  2: { apply check_timeout_pure in Ct as [Ct|Ct]; discriminate. }
  destruct (default false (flags s1 !! flag)) eqn:M.
  - unfold tx_rollback, Transaction.invoke, log.
    destruct (reply (trace s1) (Rollback c)) as [e|]; eexists [_]; (split; [reflexivity|]); constructor.
  - unfold tx_commit, Transaction.invoke, log.
    destruct (reply (trace s1) (Commit c)) as [e|]; eexists [_]; (split; [reflexivity|]); by constructor.
Qed.

(** The handlers. *)
Inductive catch_end (c : nat) (o : TransactionOptions) : Outcome -> bool -> Outcome -> bool -> list Event -> Prop :=
| ce_done b : catch_end c o Done b Done b []
| ce_unexpected b : catch_end c o (Thrown (StdEx UnexpectedRollbackEx)) b (Thrown (StdEx UnexpectedRollbackEx)) b []
| ce_rollback r : r <> Done -> catch_end c o r false r true [mkEvent (Rollback c) None]
| ce_rollback_fails r e : r <> Done -> catch_end c o r false (Thrown e) false [mkEvent (Rollback c) (Some e)]
| ce_commit t : should_rollback o t = false ->
    catch_end c o (Thrown (StdEx t)) false (Thrown (StdEx t)) true [mkEvent (Commit c) None]
| ce_commit_fails r e : r <> Done -> catch_end c o r false (Thrown e) false [mkEvent (Commit c) (Some e)].

Lemma new_catch_std c o t s : t <> UnexpectedRollbackEx ->
  new_catch reply c o (Thrown (StdEx t)) false s =
  match (if should_rollback o t then tx_rollback reply c false s else tx_commit reply c false s) with
  | (Done, b', s') => (Thrown (StdEx t), b', s')
  | other => other
  end.
Proof.
  intros N. unfold new_catch. destruct (tx_rollback reply c false s) as [[[] ?] ?],
    (tx_commit reply c false s) as [[[] ?] ?]; destruct t; try done; by destruct (should_rollback o _).
Qed.

Lemma catch_ends c o r b s5 : r <> Undefined -> (b = true -> r = Done \/ r = Thrown (StdEx UnexpectedRollbackEx)) ->
  let '(r', b', s6) := new_catch reply c o r b s5 in
  exists te, trace s6 = te ++ trace s5 /\ catch_end c o r b r' b' te.
Proof.
  intros N Hb. destruct r as [|e|]; [exists []; (split; [done|]); constructor| |done].
  destruct b.
  { destruct (Hb eq_refl) as [?|[= ->]]; [done|]. exists []. (split; [done|]); constructor. }
  destruct e as [t|].
  - destruct (decide (t = UnexpectedRollbackEx)) as [->|Nt];
      [exists []; (split; [done|]); constructor|].
    rewrite (new_catch_std c o t s5 Nt). destruct (should_rollback o t) eqn:Sr.
    + unfold tx_rollback, Transaction.invoke, log.
      destruct (reply (trace s5) (Rollback c)) as [e|]; eexists [_]; (split; [reflexivity|]); by constructor.
    + unfold tx_commit, Transaction.invoke, log.
      destruct (reply (trace s5) (Commit c)) as [e|]; eexists [_]; (split; [reflexivity|]); by constructor.
  - unfold new_catch, tx_rollback, Transaction.invoke, log.
    destruct (reply (trace s5) (Rollback c)) as [e|]; eexists [_]; (split; [reflexivity|]); by constructor.
Qed.

Lemma ended_app c t1 t2 : ended c (t1 ++ t2) = ended c t1 ++ ended c t2.
Proof. apply filter_app. Qed.

Lemma ended_failed c k e t : ended c (mkEvent k (Some e) :: t) = ended c t.
Proof. unfold ended. rewrite filter_cons, decide_False; [done|]. by intros [_ ?]. Qed.

Lemma ended_ok c k t : k = Commit c \/ k = Rollback c -> ended c (mkEvent k None :: t) = mkEvent k None :: ended c t.
Proof. intros H. unfold ended. by rewrite filter_cons, decide_True. Qed.

Lemma finish_ending c flag started o r0 s1 : r0 <> Undefined ->
  exists te, trace (snd (finish c flag started o r0 s1)) = te ++ trace s1 /\
    ending c o (default false (flags s1 !! flag)) r0 (fst (finish c flag started o r0 s1)) te.
Proof.
  intros N. unfold finish. pose proof (block_ends c flag started o r0 s1 N) as B.
  destruct (new_block _ _ _ _ _ _ _ _) as [[r b] s5]. destruct B as (t1 & E1 & B).
  assert (Nr : r <> Undefined) by (destruct B; done).
  assert (Hb : b = true -> r = Done \/ r = Thrown (StdEx UnexpectedRollbackEx)) by (destruct B; auto; done).
  pose proof (catch_ends c o r b s5 Nr Hb) as C.
  destruct (new_catch _ _ _ _ _ _) as [[r' b'] s6]. destruct C as (t2 & E2 & C). cbn [fst snd].
  set (t3 := if b' then [] else [mkEvent (Rollback c) (reply (trace s6) (Rollback c))]).
  exists (t3 ++ t2 ++ t1). split.
  { unfold tx_destroy, t3, Transaction.invoke, log, pop_back. destruct b'; cbn; by rewrite E2, E1, ?app_assoc. }
  assert (T3 : t3 = [] /\ b' = true \/ exists x, b' = false /\ t3 = [mkEvent (Rollback c) x] /\
    ((forall tr, reply tr (Rollback c) = None) -> x = None)).
  { unfold t3. destruct b'; [by left|]. right. eexists. split; [done|]. split; [reflexivity|]. intros H. by rewrite H. }
  clearbody t3. clear E1 E2 s5 s6.
  inversion B; subst; inversion C; subst; clear B C;
    destruct T3 as [[-> ?]|([x|] & ? & -> & Hx)]; try discriminate; try done; split; cbn [app];
    rewrite ?ended_failed, ?ended_ok, ?ended_failed, ?ended_ok, ?ended_failed by auto.
  all: try (repeat constructor; auto; fail).
  all: try (intros Hr; discriminate Hr).
  all: try (intros Hr; specialize (Hx Hr); discriminate Hx).
  all: try (intros Hin; in_cases Hin; eauto).
Qed.

Lemma later_no_end c t : Forall (fun e => later_call (S c) (call e)) t ->
  ended c t = [] /\ (forall x, mkEvent (Commit c) x ∉ t) /\ (forall x, mkEvent (Begin c) x ∉ t).
Proof.
  intros F. rewrite Forall_forall in F. split; [|split].
  - unfold ended. induction t as [|e t IH]; [done|]. rewrite filter_cons, decide_False.
    + apply IH. intros x Hx. apply F. by right.
    + intros [[E|E] _]; specialize (F e ltac:(by left)); rewrite E in F; cbn in F; lia.
  - intros x Hx. specialize (F _ Hx). cbn in F. lia.
  - intros x Hx. specialize (F _ Hx). cbn in F. lia.
Qed.

(** [execute_new] of a program is its prologue, the program and [finish]. *)
Lemma execute_new_unfold ds o fn s c s1 s2 : tx_new reply ds s = (inr c, s1) ->
  apply_transaction_options reply dialect_name ds c o s1 = (Done, s2) ->
  exists s4, trace s4 = trace s2 /\ active_transactions_ s4 = active_transactions_ s2 ++ [mkActive ds c (length (flags s2))] /\
    flags s4 = flags s2 ++ [false] /\
    execute_new ds o fn s =
      finish c (length (flags s2)) (clock (trace s)) o (fst (fn c s4)) (snd (fn c s4)).
Proof.
  intros E1 E2. unfold Transaction.execute_new. rewrite E1, E2. cbn [new_flag].
  exists (push_back (mkActive ds c (length (flags s2))) (snd (new_flag s2))). split; [|split; [|split]]; [reflexivity..|].
  unfold finish, new_block. by destruct (fn c _) as [r0 s3].
Qed.

Lemma tx_new_fails ds s e s1 : tx_new reply ds s = (inl e, s1) ->
  trace s1 = [mkEvent (GetConnection ds) (Some e)] ++ trace s \/
  trace s1 = [mkEvent (Begin (length (trace s))) (Some e); mkEvent (GetConnection ds) None] ++ trace s.
Proof.
  unfold tx_new, Transaction.invoke, log.
  destruct (reply (trace s) (GetConnection ds)) eqn:R1; [intros [= -> <-]; left; by rewrite ?R1|].
  cbn. destruct (reply _ (Begin _)) eqn:R2; [|done]. intros [= -> <-]. right. by rewrite ?R2.
Qed.

Lemma atomic_of_ending c o m r0 r te tb ds s s' :
  trace s' = te ++ tb ++ [mkEvent (Begin c) None; mkEvent (GetConnection ds) None] ++ trace s ->
  Forall (fun e => later_call (S c) (call e)) tb -> ending c o m r0 r te ->
  exists t, trace s' = t ++ trace s /\
    (length (ended c t) <= 1)%nat /\
    (r = Done -> exists t', t = mkEvent (Commit c) None :: t' /\ ended c t' = []) /\
    (mkEvent (Commit c) None ∈ t -> r = Done \/ exists ty, r = Thrown (StdEx ty) /\ should_rollback o ty = false) /\
    (mkEvent (Begin c) None ∈ t -> (forall tr, reply tr (Rollback c) = None) -> length (ended c t) = 1%nat).
Proof.
  intros E F [E1 E2 E3 E4 E5]. destruct (later_no_end c tb F) as (K & C & B).
  assert (K' : ended c (tb ++ [mkEvent (Begin c) None; mkEvent (GetConnection ds) None]) = []).
  { rewrite ended_app, K. unfold ended. by rewrite !filter_cons, !decide_False by (intros [[?|?] ?]; done). }
  exists (te ++ tb ++ [mkEvent (Begin c) None; mkEvent (GetConnection ds) None]).
  split; [by rewrite E, <- !app_assoc|]. rewrite ended_app, K', app_nil_r.
  split; [done|]. split; [|split; [|done]].
  - intros Hr. destruct (E3 Hr) as (-> & _ & _). eexists. split; [reflexivity|]. exact K'.
  - rewrite !elem_of_app, !elem_of_cons. intros [?|[?|[?|[?|?]]]]; try done; [by apply E4|by apply C in H|set_solver].
Qed.

(** Either the transaction could not be set up, or its calls are those of
    [finish] after those of the program, which ran with the transaction on top of
    the stack. *)
Lemma execute_new_shape ds o a s r s' : managed a ->
  execute_new ds o (run a) s = (r, s') -> r <> Undefined ->
  (exists te tb m r0, ending (length (trace s)) o m r0 r te /\
    Forall (fun e => later_call (S (length (trace s))) (call e)) tb /\
    (trace s' = te ++ tb ++ [mkEvent (Begin (length (trace s))) None; mkEvent (GetConnection ds) None] ++ trace s) /\
    (r0 = Done -> exists s4 s3, run a (length (trace s)) s4 = (Done, s3) /\
       active_transactions_ s4 = active_transactions_ s ++ [mkActive ds (length (trace s)) (length (flags s))] /\
       flags s4 = flags s ++ [false] /\ m = default false (flags s3 !! length (flags s))))
  \/ r <> Done /\ exists e, trace s' = [mkEvent (GetConnection ds) (Some e)] ++ trace s \/
       trace s' = [mkEvent (Begin (length (trace s))) (Some e); mkEvent (GetConnection ds) None] ++ trace s.
Proof.
  intros Hm E N. set (c := length (trace s)) in *.
  destruct (tx_new reply ds s) as [[e|d] s1] eqn:E1.
  { unfold Transaction.execute_new in E. rewrite E1 in E. simplify_eq.
    right. split; [done|]. exists e. by apply tx_new_fails. }
  destruct (tx_new_calls c ds s ltac:(lia)) as [(_ & A1 & F1) Hd]. rewrite E1 in Hd, A1, F1.
  destruct (Hd d eq_refl) as (-> & _ & T1). cbn [snd] in *. fold c in E1, T1.
  destruct (options_calls (S c) ds c o s1) as ((t2 & T2 & F2) & A2 & G2).
  destruct (apply_transaction_options reply dialect_name ds c o s1) as [r2 s2] eqn:E2. cbn [snd] in *.
  destruct r2 as [|e|]; cycle 1.
  { unfold Transaction.execute_new in E. fold c in E. rewrite E1, E2 in E. simplify_eq.
    left. exists [mkEvent (Rollback c) (reply (trace s2) (Rollback c))], t2, false, (Thrown e).
    split; [|split; [exact F2|split; [|done]]].
    - split; try done.
      + by constructor; [right|].
      + unfold ended. rewrite filter_cons. case_decide; cbn; lia.
      + intros Hin. apply list_elem_of_singleton in Hin. done.
      + intros Hl. unfold ended. rewrite filter_cons, decide_True; [done|]. cbn. rewrite Hl. auto.
    - unfold tx_destroy, Transaction.invoke. cbn. by rewrite T2, T1. }
  { unfold Transaction.execute_new in E. fold c in E. rewrite E1, E2 in E. simplify_eq. }
  destruct (execute_new_unfold ds o (run a) s c s1 s2 E1 E2) as (s4 & T4 & A4 & F4 & Eq). rewrite Eq in E.
  pose proof (run_grows a Hm c s4) as (tb & Tb & Fb).
  destruct (run a c s4) as [r0 s3] eqn:Er. cbn [fst snd] in *.
  assert (N0 : r0 <> Undefined).
  { intros ->. apply N. unfold finish, new_block in E. cbn in E. by simplify_eq. }
  destruct (finish_ending c (length (flags s2)) (clock (trace s)) o r0 s3 N0) as (te & Te & En).
  rewrite E in Te, En. cbn [fst snd] in *. rewrite G2, F1 in *.
  left. exists te, (tb ++ t2), (default false (flags s3 !! length (flags s))), r0.
  split; [exact En|]. split; [|split].
  - apply Forall_app. split; [|exact F2]. eapply Forall_impl; [exact Fb|]. cbn. intros e0.
    apply later_call_mono. rewrite T4, T2, T1, !length_app. cbn. lia.
  - by rewrite Te, Tb, T4, T2, T1, <- !app_assoc.
  - intros ->. exists s4, s3. split; [done|]. rewrite A4, A2, A1. done.
Qed.

(** [C7] A transaction of its own, over any database and around any program that
    makes no transaction call of its own on the connections it is handed, in a run
    that follows no stale reference into the vector of active transactions: it is
    ended at most once; a normal return means that the last call committed it; a
    commit happens only on a normal return or for an exception the options exempt
    from rollback; and once begun it does not stay open if the database carries
    out rollbacks. *)
Theorem transaction_atomic ds o a s r s' : managed a ->
  execute_new ds o (run a) s = (r, s') -> r <> Undefined ->
  exists t, trace s' = t ++ trace s /\
    (length (ended (length (trace s)) t) <= 1)%nat /\
    (r = Done -> exists t', t = mkEvent (Commit (length (trace s))) None :: t' /\ ended (length (trace s)) t' = []) /\
    (mkEvent (Commit (length (trace s))) None ∈ t ->
       r = Done \/ exists ty, r = Thrown (StdEx ty) /\ should_rollback o ty = false) /\
    (mkEvent (Begin (length (trace s))) None ∈ t -> (forall tr, reply tr (Rollback (length (trace s))) = None) ->
       length (ended (length (trace s)) t) = 1%nat).
Proof.
  intros Hm E N. destruct (execute_new_shape _ _ _ _ _ _ Hm E N) as [(te & tb & m & r0 & En & F & T & _)|(Nd & e & T)].
  - by eapply atomic_of_ending.
  - destruct T as [T|T]; rewrite T; eexists; (split; [reflexivity|]);
      unfold ended; rewrite ?filter_cons, ?decide_False, filter_nil by (intros [[?|?] ?]; done);
      (split; [cbn; lia|]); (split; [done|]); split; intros Hin; exfalso; in_cases Hin.
Qed.

(** *** The stack of active transactions *)

(** Either every transaction is on one data source, or nothing suspends. *)
Fixpoint tame (only : option Z) (a : App) : Prop :=
  match a with
  | Skip | Sql _ | Raw _ | Throw _ => True
  | Seq a b | Try a b => tame only a /\ tame only b
  | Exec ds o a => (match only with Some d => ds = d | None => propagation o <> NotSupported end) /\ tame only a
  end.

Definition stack_ok (only : option Z) (l : list ActiveTransaction) : Prop :=
  match only with Some d => Forall (fun a => datasource a = d) l | None => True end.

(** What a body keeps: the stack; a set flag stays set. *)
Definition keeps (s s' : St) : Prop :=
  active_transactions_ s' = active_transactions_ s /\
  (length (flags s) <= length (flags s'))%nat /\
  forall i, flags s !! i = Some true -> flags s' !! i = Some true.

Definition body_keeps (only : option Z) (fn : Body) : Prop :=
  forall c s, stack_ok only (active_transactions_ s) -> keeps s (snd (fn c s)).

Lemma keeps_refl s : keeps s s.
Proof. done. Qed.

Lemma keeps_trans s1 s2 s3 : keeps s1 s2 -> keeps s2 s3 -> keeps s1 s3.
Proof. intros (A1 & L1 & F1) (A2 & L2 & F2). split; [by rewrite A2, A1|]. split; [lia|]. eauto. Qed.

Lemma keeps_calls n s s' : only_calls n s s' -> keeps s s'.
Proof. intros (_ & A & F). split; [done|]. by rewrite F. Qed.

Lemma new_block_keeps only c flag started o fn s : body_keeps only fn -> stack_ok only (active_transactions_ s) ->
  keeps s (snd (new_block reply clock c flag started o fn s)).
Proof.
  intros B Hs. specialize (B c s Hs). unfold new_block. destruct (fn c s) as [r s1]. cbn in B.
  destruct r; [|done|done]. destruct (check_timeout clock started o s1); [|done|done].
  eapply keeps_trans; [exact B|]. case_match.
  - pose proof (keeps_calls 0 _ _ (rollback_calls 0 c false s1 ltac:(lia))) as R.
    by destruct (tx_rollback reply c false s1) as [[[] ?] ?].
  - apply (keeps_calls 0), commit_calls. lia.
Qed.

Lemma execute_new_keeps only ds o fn s : body_keeps only fn -> (match only with Some d => ds = d | None => True end) ->
  stack_ok only (active_transactions_ s) -> keeps s (snd (execute_new ds o fn s)).
Proof.
  intros B Hd Hs. unfold Transaction.execute_new.
  destruct (tx_new_calls 0 ds s ltac:(lia)) as [K1%keeps_calls _].
  destruct (tx_new reply ds s) as [[e|c] s1]; cbn in K1; [done|].
  pose proof (keeps_calls 0 _ _ (options_calls 0 ds c o s1)) as K2.
  destruct (apply_transaction_options reply dialect_name ds c o s1) as [r s2]. cbn in K2.
  pose proof (keeps_trans _ _ _ K1 K2) as K. clear K1 K2.
  assert (Ds : forall b s3, keeps s s3 -> keeps s (tx_destroy reply c b s3)).
  { intros b s3 K3. eapply keeps_trans; [exact K3|]. apply (keeps_calls 0), destroy_calls. lia. }
  destruct r; [|by apply Ds|by apply Ds]. cbn [new_flag].
  set (s4 := push_back _ _).
  assert (H4 : stack_ok only (active_transactions_ s4)).
  { destruct K as [A _]. cbn. rewrite A. destruct only as [d|]; [|done]. cbn. apply Forall_app.
    split; [done|]. by constructor. }
  match goal with |- context [new_block reply clock c ?f ?st o fn s4] =>
    pose proof (new_block_keeps only c f st o fn s4 B H4) as K5;
    destruct (new_block reply clock c f st o fn s4) as [[r b] s5] end.
  pose proof (keeps_calls 0 _ _ (catch_calls 0 c o r b s5 ltac:(lia))) as K6.
  destruct (new_catch reply c o r b s5) as [[r' b'] s6]. cbn [snd] in *.
  apply Ds. destruct (keeps_trans _ _ _ K5 K6) as (A6 & L6 & F6), K as (A & L & F). split; [|split].
  - cbn. rewrite A6. cbn. by rewrite removelast_last.
  - cbn in *. rewrite length_app in L6. lia.
  - intros i Hi. cbn. apply F6. cbn. apply lookup_app_l_Some. by apply F.
Qed.

Lemma nontx_keeps only ds o fn s : body_keeps only fn -> stack_ok only (active_transactions_ s) ->
  keeps s (snd (execute_non_transactional reply clock ds o fn s)).
Proof.
  intros B Hs. unfold execute_non_transactional.
  destruct (invoke_calls 0 (GetConnection ds) s I) as (_ & A & F).
  destruct (invoke (GetConnection ds) s) as [r s1]. cbn in A, F.
  assert (K : keeps s s1) by (split; [done|by rewrite F]).
  destruct r; try done. specialize (B (length (trace s)) s1 ltac:(by rewrite A)).
  destruct (fn (length (trace s)) s1) as [r s2]. cbn in B.
  pose proof (keeps_trans _ _ _ K B). by destruct r.
Qed.

Lemma mark_keeps i ep s s' : mark_rollback_only i ep s = Some s' -> keeps s s' /\
  (forall a, active_transactions_ s !! i = Some a -> (rollback_only a < length (flags s))%nat ->
     flags s' !! rollback_only a = Some true).
Proof.
  unfold mark_rollback_only. repeat case_match; intros [= <-]. split.
  - split; [done|]. split; [cbn; by rewrite length_insert|].
    intros j Hj. cbn. destruct (decide (j = rollback_only a)) as [->|N].
    + apply list_lookup_insert_eq. by apply lookup_lt_Some in Hj.
    + by rewrite list_lookup_insert_ne.
  - intros a' [= <-] L. cbn. by apply list_lookup_insert_eq.
Qed.

Lemma existing_keeps only i o fn s : body_keeps only fn -> stack_ok only (active_transactions_ s) ->
  keeps s (snd (execute_existing clock i o fn s)).
Proof.
  intros B Hs. unfold execute_existing. destruct (active_transactions_ s !! i) as [a|]; [|done].
  specialize (B (connection a) s Hs). destruct (fn (connection a) s) as [r s1]. cbn in B.
  assert (Q : forall r1 : Outcome, keeps s (snd (match mark_rollback_only i (epoch s) s1 with
     | Some s2 => (r1, s2) | None => (Undefined, s1) end))).
  { intros r1. destruct (mark_rollback_only i (epoch s) s1) eqn:M; [|done].
    destruct (mark_keeps _ _ _ _ M). by eapply keeps_trans. }
  repeat (case_match; simplify_eq); try done; try (by apply Q); by rewrite <- ?H.
Qed.

Lemma execute_keeps only ds o fn s : body_keeps only fn ->
  (match only with Some d => ds = d | None => propagation o <> NotSupported end) ->
  stack_ok only (active_transactions_ s) -> keeps s (snd (execute ds o fn s)).
Proof.
  intros B Hd Hs.
  assert (Hd' : match only with Some d => ds = d | None => True end) by (by destruct only).
  unfold Transaction.execute. destruct (propagation o) eqn:P.
  - destruct (current_active ds s); [by eapply existing_keeps|by eapply execute_new_keeps].
  - by eapply execute_new_keeps.
  - destruct (current_active ds s); [by eapply existing_keeps|by eapply nontx_keeps].
  - destruct only as [d|]; [subst d|done]. cbn in Hs.
    assert (E1 : filter (λ a, datasource a = ds) (active_transactions_ s) = active_transactions_ s)
      by (clear -Hs; induction Hs; [done|]; rewrite filter_cons, decide_True by done; by f_equal).
    assert (E2 : filter (λ a, datasource a ≠ ds) (active_transactions_ s) = [])
      by (clear -Hs; induction Hs; [done|]; by rewrite filter_cons, decide_False by (intros N; by apply N)).
    unfold suspend. rewrite E1, E2.
    pose proof (nontx_keeps (Some ds) ds o fn (with_stack [] s) B ltac:(by cbn)) as [A F].
    destruct (execute_non_transactional reply clock ds o fn (with_stack [] s)) as [r s2]. cbn in *.
    split; cbn; [by rewrite A|done].
  - destruct (current_active ds s); [by eapply existing_keeps|done].
  - destruct (current_active ds s); [done|by eapply nontx_keeps].
Qed.

Lemma run_keeps only a : tame only a -> body_keeps only (run a).
Proof.
  induction a as [|text|k|e|a IHa b IHb|a IHa h IHh|ds o a IH]; cbn; intros T c s Hs; try done.
  - destruct T as [Ta Tb]. specialize (IHa Ta c s Hs). destruct (run a c s) as [r s1]. cbn in IHa. destruct r; try done.
    eapply keeps_trans; [exact IHa|]. apply (IHb Tb). destruct IHa as [-> _]. done.
  - destruct T as [Ta Th]. specialize (IHa Ta c s Hs). destruct (run a c s) as [r s1]. cbn in IHa. destruct r; try done.
    eapply keeps_trans; [exact IHa|]. apply (IHh Th). destruct IHa as [-> _]. done.
  - destruct T as [Td Ta]. by eapply execute_keeps; [apply IH| |].
Qed.

(** Whatever it does, and however it ends, a program whose transactions are all
    on one data source, or which never suspends one, leaves the stack of active
    transactions as it found it. *)
Theorem active_transactions_balanced only a c s :
  tame only a -> stack_ok only (active_transactions_ s) ->
  active_transactions_ (snd (run a c s)) = active_transactions_ s.
Proof. intros T Hs. by apply (run_keeps only a T c s Hs). Qed.

(** *** A failed participant dooms the transaction *)

Definition no_exemptions (o : TransactionOptions) : Prop :=
  rollback_for_types o = [] /\ no_rollback_for_types o = [].

Definition joins (o : TransactionOptions) : Prop :=
  propagation o = Required \/ propagation o = Supports \/ propagation o = Mandatory.

Lemma no_exemptions_rollback o t : no_exemptions o -> should_rollback o t = true.
Proof. intros [E1 E2]. unfold should_rollback, matches. rewrite E1, E2. by rewrite bool_decide_false by set_solver. Qed.

Lemma last_index_top ds i l x : datasource x = ds -> last_index ds i (l ++ [x]) = Some (i + length l)%nat.
Proof.
  intros Hx. revert i. induction l as [|y l IH]; intros i; cbn.
  - rewrite Hx, Z.eqb_refl. f_equal. lia.
  - rewrite IH. f_equal. lia.
Qed.

(** A program that throws inside a joined transaction, whatever it does before,
    leaves the flag of the transaction on top of the stack set. *)
Lemma joined_throw_marks only ds o b e c s l f s' r : tame only b -> no_exemptions o -> joins o ->
  stack_ok only (active_transactions_ s) ->
  active_transactions_ s = l ++ [mkActive ds c f] -> (f < length (flags s))%nat ->
  execute ds o (run (Seq b (Throw e))) s = (r, s') -> r <> Undefined ->
  flags s' !! f = Some true /\ exists e', r = Thrown e'.
Proof.
  intros Tb No Jo Hs As Lf E N.
  assert (Ex : execute_existing clock (length l) o (run (Seq b (Throw e))) s = (r, s')).
  { rewrite <- E. unfold Transaction.execute, current_active. rewrite As, last_index_top by done.
    by destruct Jo as [->|[->| ->]]. }
  clear E. unfold execute_existing in Ex.
  assert (La : active_transactions_ s !! length l = Some (mkActive ds c f)) by (by rewrite As, list_lookup_middle).
  rewrite La in Ex. cbn [connection] in Ex.
  pose proof (run_keeps only (Seq b (Throw e)) ltac:(by cbn) c s Hs) as (Ak & Lk & _).
  assert (Nd : fst (run (Seq b (Throw e)) c s) <> Done) by (cbn; by destruct (run b c s) as [[] ?]).
  destruct (run (Seq b (Throw e)) c s) as [r1 s1]. cbn [fst snd] in *.
  destruct r1 as [|e1|]; [done| |by simplify_eq].
  assert (Mk : (match mark_rollback_only (length l) (epoch s) s1 with
                | Some s2 => (Thrown e1, s2) | None => (Undefined, s1) end) = (r, s')).
  { destruct e1 as [t|]; [|exact Ex]. by rewrite (no_exemptions_rollback o t No) in Ex. }
  destruct (mark_rollback_only (length l) (epoch s) s1) as [s2|] eqn:M; simplify_eq.
  split; [|by exists e1]. destruct (mark_keeps _ _ _ _ M) as [_ Hm].
  apply (Hm (mkActive ds c f)); [by rewrite Ak|]. cbn. lia.
Qed.

(** When an execution joins the transaction around it and ends in an exception,
    the transaction is not committed, even if the program catches the exception
    and returns normally. *)
Theorem joined_failure_rolls_back only ds o o2 p b e h q s r s' :
  tame only (Seq p (Seq (Try (Exec ds o2 (Seq b (Throw e))) h) q)) ->
  managed (Seq p (Seq (Try (Exec ds o2 (Seq b (Throw e))) h) q)) ->
  stack_ok only (active_transactions_ s) -> no_exemptions o -> no_exemptions o2 -> joins o2 ->
  execute_new ds o (run (Seq p (Seq (Try (Exec ds o2 (Seq b (Throw e))) h) q))) s = (r, s') -> r <> Undefined ->
  r <> Done /\ exists t, trace s' = t ++ trace s /\ mkEvent (Commit (length (trace s))) None ∉ t.
Proof.
  intros Tm Mg Hs No No2 Jo E N.
  assert (Body : forall c s4 s3, run (Seq p (Seq (Try (Exec ds o2 (Seq b (Throw e))) h) q)) c s4 = (Done, s3) ->
    active_transactions_ s4 = active_transactions_ s ++ [mkActive ds c (length (flags s))] ->
    flags s4 = flags s ++ [false] -> flags s3 !! length (flags s) = Some true).
  { intros c s4 s3 R A4 F4. destruct Tm as (Tp & ((Td & Tb & _) & Th) & Tq).
    assert (H4 : stack_ok only (active_transactions_ s4)).
    { rewrite A4. destruct only as [d|]; [|done]. cbn. apply Forall_app. split; [done|]. by constructor. }
    pose proof (run_keeps only p Tp c s4 H4) as (Ap & Lp & _). cbn in R.
    destruct (run p c s4) as [[] s5]; try done. cbn [snd] in Ap, Lp. cbn in Td.
    destruct (execute ds o2 _ s5) as [r6 s6] eqn:E6.
    assert (N6 : r6 <> Undefined) by (by intros ->).
    pose proof (execute_keeps only ds o2 (run (Seq b (Throw e))) s5) as K6. cbn [Transaction.run] in K6. rewrite E6 in K6.
    destruct K6 as (A6 & _ & _); [apply (run_keeps only (Seq b (Throw e))); by cbn|done|by rewrite Ap|].
    destruct (joined_throw_marks only ds o2 b e c s5 (active_transactions_ s) (length (flags s)) s6 r6) as (Fl & e' & ->);
      try done; [by rewrite Ap|by rewrite Ap|rewrite F4, length_app in Lp; cbn in Lp; lia|].
    pose proof (run_keeps only h Th c s6 ltac:(cbn in A6; by rewrite A6, Ap)) as (Ah & _ & Fh).
    destruct (run h c s6) as [[] s7]; try done. cbn [snd] in *.
    pose proof (run_keeps only q Tq c s7 ltac:(by rewrite Ah, A6, Ap)) as (_ & _ & Fq).
    rewrite R in Fq. by apply Fq, Fh. }
  destruct (execute_new_shape _ _ _ _ _ _ Mg E N) as [(te & tb & m & r0 & En & F & T & B)|(Nd & e' & T)].
  - assert (Nd : r <> Done).
    { intros Hr. destruct (end_done _ _ _ _ _ _ En Hr) as (_ & Hr0 & Hm).
      destruct (B Hr0) as (s4 & s3 & R & A4 & F4 & Em). rewrite (Body _ _ _ R A4 F4) in Em. by subst. }
    split; [done|]. exists (te ++ tb ++ [mkEvent (Begin (length (trace s))) None; mkEvent (GetConnection ds) None]).
    split; [by rewrite T, <- !app_assoc|].
    rewrite !elem_of_app. intros [Hin|[Hin|Hin]].
    + destruct (end_commit _ _ _ _ _ _ En Hin) as [?|(ty & _ & Sr)]; [done|].
      by rewrite (no_exemptions_rollback o ty No) in Sr.
    + by apply (proj1 (proj2 (later_no_end _ _ F))) in Hin.
    + in_cases Hin.
  - split; [done|]. destruct T as [T|T]; eexists; (split; [exact T|]); intros Hin; in_cases Hin.
Qed.

End Manager.
End TransactionProps.

(** ** A database that accepts everything *)

Module TransactionWitness.
Import TransactionProps.

Definition accepts (_ : list Event) (_ : Call) : option Exn := None.
Definition sqlite (_ : Z) : bytes := bs "sqlite".
Definition stopped (_ : list Event) : Z := 0.

Abbreviation run0 := (run accepts sqlite stopped).
Definition with_propagation (p : TransactionPropagation) : TransactionOptions :=
  mkOptions p DefaultIsolation false 0 [] [].

Lemma transaction_atomic_witness :
  let '(r, s') := execute_new accepts sqlite stopped 1 default_options
    (run0 (Seq (Sql (bs "UPDATE t SET x = 1")) (Throw (StdEx (UserEx 0))))) init in
  r = Thrown (StdEx (UserEx 0)) /\ exists t, trace s' = t ++ [] /\ length (ended 0 t) = 1%nat /\
    mkEvent (Commit 0) None ∉ t.
Proof.
  destruct (execute_new accepts sqlite stopped 1 default_options
    (run0 (Seq (Sql (bs "UPDATE t SET x = 1")) (Throw (StdEx (UserEx 0))))) init) as [r s'] eqn:E.
  assert (r = Thrown (StdEx (UserEx 0))) as Hr by (vm_compute in E; congruence).
  split; [exact Hr|].
  destruct (transaction_atomic accepts sqlite stopped 1 default_options
    (Seq (Sql (bs "UPDATE t SET x = 1")) (Throw (StdEx (UserEx 0)))) init r s' (conj I I) E ltac:(congruence))
    as (t & Et & _ & _ & Cm & Lv).
  exists t. split; [exact Et|]. split.
  - apply Lv; [|reflexivity]. vm_compute in E. injection E as <- <-. rewrite app_nil_r in Et. subst t. set_solver.
  - intros Hin. destruct (Cm Hin) as [Hd|(ty & Ht & Hs)]; [congruence|]. subst r. injection Ht as <-. vm_compute in Hs. discriminate.
Defined.

Lemma active_transactions_balanced_witness :
  active_transactions_ (snd (run0 (Exec 1 default_options (Seq (Exec 1 (with_propagation NotSupported) Skip)
    (Exec 1 (with_propagation RequiresNew) (Throw OtherEx)))) 0 init)) = [].
Proof.
  apply (active_transactions_balanced accepts sqlite stopped (Some 1)); [|by constructor].
  cbn. repeat split.
Defined.

Lemma joined_failure_rolls_back_witness :
  let a := Seq (Sql (bs "INSERT 1")) (Seq (Try (Exec 1 default_options (Seq (Sql (bs "INSERT 2"))
    (Throw (StdEx (UserEx 0))))) Skip) Skip) in
  fst (execute_new accepts sqlite stopped 1 default_options (run0 a) init) <> Done.
Proof.
  cbn zeta. destruct (execute_new accepts sqlite stopped 1 default_options _ init) as [r s'] eqn:E.
  refine (proj1 (joined_failure_rolls_back accepts sqlite stopped (Some 1) 1 default_options default_options
    (Sql (bs "INSERT 1")) (Sql (bs "INSERT 2")) (StdEx (UserEx 0)) Skip Skip init r s' _ _ _ _ _ _ E _)).
  - cbn. repeat split.
  - cbn. repeat split.
  - by constructor.
  - done.
  - done.
  - by left.
  - vm_compute in E. congruence.
Defined.

(** A participant keeps a reference into the vector while its callback runs.  A
    transaction begun there reallocates the vector, and marking the outer one
    through the reference is undefined. *)
Lemma stale_active_reference :
  fst (run0 (Exec 1 default_options (Exec 1 default_options
    (Seq (Exec 1 (with_propagation RequiresNew) Skip) (Throw (StdEx (UserEx 0)))))) 0 init) = Undefined.
Proof. reflexivity. Qed.

(** A program that commits on the connection itself defeats the manager: what it
    did stays although it threw, and the rollback finds nothing to undo. *)
Lemma raw_commit_escapes :
  let s' := snd (execute_new accepts sqlite stopped 1 default_options
    (run0 (Seq (Sql (bs "INSERT 1")) (Seq (Raw RawCommit) (Throw (StdEx (UserEx 0)))))) init) in
  map call (trace s') = [Rollback 0; Commit 0; Execute_sql 0 (bs "INSERT 1"); Begin 0; GetConnection 1].
Proof. reflexivity. Qed.

(** Resuming a suspended transaction puts it on top of those begun after it on
    other data sources; the guard of such a one then pops the wrong entry, and
    the outer transaction is no longer seen. *)
Lemma suspension_reorders_stack :
  fst (run0 (Exec 1 default_options (Seq
    (Exec 2 default_options (Exec 1 (with_propagation NotSupported) Skip))
    (Exec 1 (with_propagation Mandatory) Skip))) 0 init) = Thrown (StdEx LogicError) /\
  current_connection_for 2 (snd (run0 (Exec 2 default_options (Exec 1 (with_propagation NotSupported) Skip)) 0
    (mkSt [] [mkActive 1 0 0] 1 1 [false]))) <> None.
Proof. split; [reflexivity|]. vm_compute. discriminate. Qed.

(** An exception exempt from rollback commits even a transaction that a
    participant has marked rollback-only. *)
Lemma exemption_ignores_rollback_only :
  mkEvent (Commit 0) None ∈ trace (snd (run0 (Exec 1 (no_rollback_for [UserEx 1] default_options)
    (Seq (Try (Exec 1 default_options (Throw (StdEx (UserEx 0)))) Skip) (Throw (StdEx (UserEx 1))))) 0 init)).
Proof. vm_compute. set_solver. Qed.

End TransactionWitness.
