(* ===== verification/Migration.v ===== *)
(** * Migrations: db/migration.h

    [MigrationRunner] over a database connection.  The connection is the class
    [Database]: SQL statements by their text and parameters, the rows of a query,
    and the three transaction calls, each of which may throw.  A migration's
    callback is any action on the connection. *)

From S2P Require Import Prelude CxxString.

Module Migration.

(** The alternatives of [Parameter] the runner passes. *)
Inductive SqlValue := PInt (v : Z) | PText (v : bytes) | PBool (v : bool).

Inductive Exn := MigrationException (message : bytes) | DbException (code : Z).

Record AppliedMigration := mkApplied {
  a_version : Z;
  a_description : bytes;
  a_checksum : bytes;
  a_success : bool
}.

Class Database (W : Type) := {
  get_connection : W -> result Exn unit * W;
  execute : W -> bytes -> list SqlValue -> result Exn Z * W;
  query : W -> bytes -> result Exn (list AppliedMigration) * W;
  begin_transaction : W -> result Exn unit * W;
  commit : W -> result Exn unit * W;
  rollback : W -> result Exn unit * W
}.

(** ** Checksums *)

Definition fnv_offset : Z := 14695981039346656037.
Definition fnv_prime : Z := 1099511628211.

(** One turn of the loop: [hash ^= ch; hash *= prime]. *)
Definition fnv_step (hash : Z) (ch : byte) : Z := wrap64 (Z.lxor hash (byte_val ch) * fnv_prime).

(** [std::setw(16) << std::setfill('0')] *)
Definition pad16 (s : bytes) : bytes := replicate (16 - length s) "0"%char ++ s.

Definition checksum_of (text : bytes) : bytes := pad16 (to_hex (foldl fnv_step fnv_offset text)).

Arguments checksum_of : simpl never.

(** ** Statements *)

Definition create_ledger_sql : bytes :=
  bs "CREATE TABLE IF NOT EXISTS novaboot_schema_migrations (" ++
  bs "version BIGINT PRIMARY KEY, " ++
  bs "description VARCHAR(255) NOT NULL, " ++
  bs "checksum VARCHAR(64) NOT NULL, " ++
  bs "success BOOLEAN NOT NULL, " ++
  bs "installed_at TIMESTAMP NOT NULL DEFAULT CURRENT_TIMESTAMP" ++
  bs ")".

Definition add_checksum_sql : bytes :=
  bs "ALTER TABLE novaboot_schema_migrations ADD COLUMN checksum VARCHAR(64) NOT NULL DEFAULT 'legacy'".
Definition add_success_sql : bytes :=
  bs "ALTER TABLE novaboot_schema_migrations ADD COLUMN success BOOLEAN NOT NULL DEFAULT true".
Definition add_installed_sql : bytes :=
  bs "ALTER TABLE novaboot_schema_migrations ADD COLUMN installed_at TIMESTAMP".

Definition select_sql : bytes :=
  bs "SELECT version, description, checksum, success FROM novaboot_schema_migrations".
Definition insert_sql : bytes :=
  bs "INSERT INTO novaboot_schema_migrations (version, description, checksum, success) VALUES (?, ?, ?, ?)".
Definition delete_sql : bytes := bs "DELETE FROM novaboot_schema_migrations WHERE version = ?".
Definition update_sql : bytes := bs "UPDATE novaboot_schema_migrations SET success = ? WHERE version = ?".

Section Runner.
Context {W : Type} {D : Database W}.

(** An empty [std::function] is [None]. *)
Record Migration := mkMigration {
  version : Z;
  description : bytes;
  checksum : bytes;
  apply_ : option (W -> result Exn unit * W)
}.

Definition sql (v : Z) (d statement : bytes) : Migration :=
  mkMigration v d (checksum_of statement)
    (Some (fun w => match execute w statement [] with
                    | (inl e, w') => (inl e, w')
                    | (inr _, w') => (inr tt, w')
                    end)).

Definition callback (v : Z) (d c : bytes) (f : option (W -> result Exn unit * W)) : Migration := mkMigration v d c f.

(** ** The ledger *)

(** [try { execute } catch (...) {}] *)
Definition attempt (statement : bytes) (ps : list SqlValue) (w : W) : W := snd (execute w statement ps).

Definition ensure_ledger (w : W) : result Exn unit * W :=
  match execute w create_ledger_sql [] with
  | (inl e, w1) => (inl e, w1)
  | (inr _, w1) =>
      (inr tt, attempt add_installed_sql [] (attempt add_success_sql [] (attempt add_checksum_sql [] w1)))
  end.

(** [std::sort] by version; versions are unique when it matters. *)
Fixpoint insert_by {A} (key : A -> Z) (x : A) (l : list A) : list A :=
  match l with
  | [] => [x]
  | y :: l' => if key x <? key y then x :: l else y :: insert_by key x l'
  end.

Definition sort_by {A} (key : A -> Z) (l : list A) : list A := foldl (fun s x => insert_by key x s) [] l.

(** The loop of [normalize] over the sorted migrations. *)
Fixpoint check_declared (seen : list Z) (ms : list Migration) : result Exn (list Migration) :=
  match ms with
  | [] => Ok []
  | m :: ms' =>
      if (version m <=? 0) || bool_decide (description m = []) || match apply_ m with None => true | Some _ => false end
      then Err (MigrationException (bs "Each migration needs a positive version, description, and callback"))
      else if bool_decide (version m ∈ seen) then
        Err (MigrationException (bs "Migration versions must be unique"))
      else
        let m' := if bool_decide (checksum m = [])
                  then mkMigration (version m) (description m) (checksum_of (description m)) (apply_ m) else m in
        match check_declared (version m :: seen) ms' with
        | inl e => Err e
        | inr r => Ok (m' :: r)
        end
  end.

Definition normalize (ms : list Migration) : result Exn (list Migration) := check_declared [] (sort_by version ms).

(** [applied.emplace] keeps the first row of a version. *)
Definition collect (rows : list AppliedMigration) : gmap Z AppliedMigration :=
  foldl (fun m r => match m !! a_version r with Some _ => m | None => <[a_version r := r]> m end) ∅ rows.

Definition applied_map (w : W) : result Exn (gmap Z AppliedMigration) * W :=
  match query w select_sql with
  | (inl e, w') => (inl e, w')
  | (inr rows, w') => (inr (collect rows), w')
  end.

Definition record_failed (m : Migration) (w : W) : W :=
  match execute w delete_sql [PInt (version m)] with
  | (inl _, w1) => w1
  | (inr _, w1) =>
      attempt insert_sql [PInt (version m); PText (description m); PText (checksum m); PBool false] w1
  end.

Definition applied (w : W) : result Exn (list AppliedMigration) * W :=
  match get_connection w with
  | (inl e, w1) => (inl e, w1)
  | (inr _, w1) =>
      match ensure_ledger w1 with
      | (inl e, w2) => (inl e, w2)
      | (inr _, w2) =>
          match applied_map w2 with
          | (inl e, w3) => (inl e, w3)
          | (inr rows, w3) => (inr (sort_by a_version (map snd (map_to_list rows))), w3)
          end
      end
  end.

(** ** Running *)

(** The check of one row of the ledger against the declared migrations. *)
Definition check_row (ms : list Migration) (row : AppliedMigration) : result Exn unit :=
  let v := to_dec_signed (a_version row) in
  if negb (a_success row) then
    Err (MigrationException (bs "Database contains failed migration version " ++ v ++
           bs "; fix the database or repair the migration ledger"))
  else
    match List.find (fun m => version m =? a_version row) ms with
    | None => Err (MigrationException (bs "Database contains migration version " ++ v ++
                     bs " that is not declared by this application"))
    | Some m =>
        if negb (bool_decide (a_description row = description m)) then
          Err (MigrationException (bs "Migration version " ++ v ++ bs " description changed after it was applied"))
        else if negb (bool_decide (a_checksum row = bs "legacy")) && negb (bool_decide (a_checksum row = checksum m)) then
          Err (MigrationException (bs "Migration version " ++ v ++ bs " checksum changed after it was applied"))
        else Ok tt
    end.

Fixpoint check_rows (ms : list Migration) (rows : list AppliedMigration) : result Exn unit :=
  match rows with
  | [] => Ok tt
  | r :: rows' => match check_row ms r with
                  | inl e => Err e
                  | inr _ => check_rows ms rows'
                  end
  end.

(** The [try] block for one migration. *)
Definition try_migration (m : Migration) (w : W) : result Exn unit * W :=
  match execute w insert_sql [PInt (version m); PText (description m); PText (checksum m); PBool false] with
  | (inl e, w1) => (inl e, w1)
  | (inr _, w1) =>
      match (match apply_ m with Some f => f w1 | None => (inr tt, w1) end) with
      | (inl e, w2) => (inl e, w2)
      | (inr _, w2) =>
          match execute w2 update_sql [PBool true; PInt (version m)] with
          | (inl e, w3) => (inl e, w3)
          | (inr _, w3) => commit w3
          end
      end
  end.

Definition migrate_one (m : Migration) (w : W) : result Exn unit * W :=
  match begin_transaction w with
  | (inl e, w1) => (inl e, w1)
  | (inr _, w1) =>
      match try_migration m w1 with
      | (inr _, w2) => (inr tt, w2)
      | (inl e, w2) => (inl e, record_failed m (snd (rollback w2)))
      end
  end.

Fixpoint migrate_all (done : gmap Z AppliedMigration) (ms : list Migration) (w : W) : result Exn unit * W :=
  match ms with
  | [] => (inr tt, w)
  | m :: ms' =>
      match done !! version m with
      | Some _ => migrate_all done ms' w
      | None =>
          match migrate_one m w with
          | (inl e, w') => (inl e, w')
          | (inr _, w') => migrate_all done ms' w'
          end
      end
  end.

(** The order in which the ledger's map is walked. *)
Variable order : gmap Z AppliedMigration -> list AppliedMigration.

Definition run (ms : list Migration) (w : W) : result Exn unit * W :=
  match normalize ms with
  | inl e => (inl e, w)
  | inr ms =>
      match get_connection w with
      | (inl e, w1) => (inl e, w1)
      | (inr _, w1) =>
          match ensure_ledger w1 with
          | (inl e, w2) => (inl e, w2)
          | (inr _, w2) =>
              match applied_map w2 with
              | (inl e, w3) => (inl e, w3)
              | (inr done, w3) =>
                  match check_rows ms (order done) with
                  | inl e => (inl e, w3)
                  | inr _ => migrate_all done ms w3
                  end
              end
          end
      end
  end.

End Runner.
End Migration.
