(* ===== verification/MigrationProps.v ===== *)
(** * Migrations: applied once, in order, all or nothing

    [DatabaseLaws] states what SQL and transactions promise, on the ledger, the
    application's data and the snapshot a transaction returns to. *)

From S2P Require Import Prelude CxxString Migration.
Import Migration.

(** [A] is the application's part of the database. *)
Class DatabaseLaws (W A : Type) {D : Database W} := {
  ledger : W -> gmap Z AppliedMigration;
  app : W -> A;
  saved : W -> option (gmap Z AppliedMigration * A);
  get_connection_same w r w' : get_connection w = (r, w') ->
    ledger w' = ledger w /\ app w' = app w /\ saved w' = saved w;
  ddl_same w q r w' : execute w q [] = (r, w') ->
    q = create_ledger_sql \/ q = add_checksum_sql \/ q = add_success_sql \/ q = add_installed_sql ->
    ledger w' = ledger w /\ app w' = app w /\ saved w' = saved w;
  query_same w r w' : query w select_sql = (r, w') ->
    ledger w' = ledger w /\ app w' = app w /\ saved w' = saved w /\
    forall rows, r = inr rows -> collect rows = ledger w;
  insert_row w v d c b r w' : execute w insert_sql [PInt v; PText d; PText c; PBool b] = (r, w') ->
    app w' = app w /\ saved w' = saved w /\
    match r with
    | inl _ => ledger w' = ledger w
    | inr _ => ledger w !! v = None /\ ledger w' = <[v := mkApplied v d c b]> (ledger w)
    end;
  delete_row w v r w' : execute w delete_sql [PInt v] = (r, w') ->
    app w' = app w /\ saved w' = saved w /\
    ledger w' = match r with inl _ => ledger w | inr _ => delete v (ledger w) end;
  update_row w b v r w' : execute w update_sql [PBool b; PInt v] = (r, w') ->
    app w' = app w /\ saved w' = saved w /\
    ledger w' = match r with
                | inl _ => ledger w
                | inr _ => alter (fun x => mkApplied (a_version x) (a_description x) (a_checksum x) b) v (ledger w)
                end;
  begin_saves w r w' : begin_transaction w = (r, w') -> saved w = None ->
    ledger w' = ledger w /\ app w' = app w /\
    saved w' = match r with inl _ => None | inr _ => Some (ledger w, app w) end;
  (** a commit that fails leaves the transaction open, or has rolled it back *)
  commit_keeps w r w' : commit w = (r, w') ->
    match r with
    | inr _ => ledger w' = ledger w /\ app w' = app w /\ saved w' = None
    | inl _ => (ledger w' = ledger w /\ app w' = app w /\ saved w' = saved w) \/
               (saved w = Some (ledger w', app w') /\ saved w' = None)
    end;
  rollback_restores w r w' l a : rollback w = (r, w') -> saved w = Some (l, a) ->
    match r with
    | inr _ => ledger w' = l /\ app w' = a /\ saved w' = None
    | inl _ => ledger w' = ledger w /\ app w' = app w /\ saved w' = saved w
    end;
  rollback_idle w r w' : rollback w = (r, w') -> saved w = None ->
    ledger w' = ledger w /\ app w' = app w /\ saved w' = None
}.

Module MigrationProps.

(** ** Sorting and declaring *)

Section Declared.
Context {W : Type}.
Abbreviation Mig := (@Migration W).

Lemma insert_by_perm {B} (key : B -> Z) x l : insert_by key x l ≡ₚ x :: l.
Proof.
  induction l as [|y l IH]; cbn; [done|]. case_match; [done|]. rewrite IH. apply perm_swap.
Qed.

Lemma insert_by_sorted {B} (key : B -> Z) x l : Sorted (fun a b => key a <= key b) l ->
  Sorted (fun a b => key a <= key b) (insert_by key x l).
Proof.
  intros H. apply Sorted_StronglySorted in H; [|intros a b c ? ?; lia]. apply StronglySorted_Sorted.
  induction H as [|y l H IH F]; cbn; [by repeat constructor|]. case_match; to_prop.
  - constructor; [by constructor|]. constructor; [lia|]. eapply Forall_impl; [exact F|]. cbn. lia.
  - constructor; [done|]. rewrite insert_by_perm. constructor; [lia|done].
Qed.

Lemma sort_by_spec {B} (key : B -> Z) l : Sorted (fun a b => key a <= key b) (sort_by key l) /\ sort_by key l ≡ₚ l.
Proof.
  unfold sort_by.
  assert (G : forall acc, Sorted (fun a b => key a <= key b) acc ->
    Sorted (fun a b => key a <= key b) (foldl (fun s x => insert_by key x s) acc l) /\
    foldl (fun s x => insert_by key x s) acc l ≡ₚ l ++ acc).
  { induction l as [|x l IH]; intros acc Ha; [done|]. cbn.
    destruct (IH (insert_by key x acc) (insert_by_sorted key x acc Ha)) as [S P]. split; [done|].
    rewrite P, insert_by_perm. symmetry. apply Permutation_middle. }
  destruct (G [] (Sorted_nil _)) as [S P]. by rewrite app_nil_r in P.
Qed.

(** A declared migration, with its checksum filled in. *)
Definition declared (m : Mig) : Prop := 0 < version m /\ description m <> [] /\ is_Some (apply_ m).

Lemma check_declared_spec seen (ms ms' : list Mig) : check_declared seen ms = inr ms' ->
  map version ms' = map version ms /\ map apply_ ms' = map apply_ ms /\ NoDup (map version ms') /\
  Forall (fun v => v ∉ seen) (map version ms') /\ Forall declared ms'.
Proof.
  revert seen ms'. induction ms as [|m ms IH]; intros seen ms'; cbn.
  { intros [= <-]. repeat split; try constructor. }
  destruct (_ || _) eqn:C1; [done|]. destruct (bool_decide (version m ∈ seen)) eqn:C2; [done|].
  destruct (check_declared (version m :: seen) ms) as [e|r] eqn:E; [done|]. intros [= <-].
  destruct (IH _ _ E) as (V & Ap & N & F & De).
  apply orb_false_iff in C1 as [C1 C3]. apply orb_false_iff in C1 as [C1 C4]. to_prop.
  assert (Dm : declared m) by (split; [lia|]; split; [done|]; by destruct (apply_ m)).
  set (m' := if bool_decide _ then _ else _).
  assert (Ev : version m' = version m /\ apply_ m' = apply_ m /\ declared m') by (unfold m'; by case_bool_decide).
  destruct Ev as (Ev & Ea & Ed). cbn. rewrite Ev, Ea, V, Ap. split; [done|]. split; [done|].
  rewrite V in N, F. rewrite Forall_forall in F. split; [|split].
  - constructor; [|done]. intros Hin. specialize (F _ Hin). set_solver.
  - constructor; [done|]. apply Forall_forall. intros x Hx. specialize (F x Hx). set_solver.
  - by constructor.
Qed.

(** Only an empty checksum is filled in. *)
Lemma check_declared_same seen (ms ms' : list Mig) : check_declared seen ms = inr ms' ->
  Forall2 (fun m m' => version m' = version m /\ description m' = description m /\ apply_ m' = apply_ m) ms ms'.
Proof.
  revert seen ms'. induction ms as [|m ms IH]; intros seen ms'; cbn; [intros [= <-]; constructor|].
  destruct (_ || _); [done|]. destruct (bool_decide (version m ∈ seen)); [done|].
  destruct (check_declared (version m :: seen) ms) as [e|r] eqn:E; [done|]. intros [= <-].
  constructor; [by case_bool_decide|]. by eapply IH.
Qed.

(** Normalized migrations are declared, strictly increasing by version, and
    those given. *)
Lemma normalize_spec (ms ms' : list Mig) : normalize ms = inr ms' ->
  Forall declared ms' /\ StronglySorted Z.lt (map version ms') /\ map version ms' ≡ₚ map version ms.
Proof.
  intros E. unfold normalize in E. destruct (sort_by_spec version ms) as [S P].
  destruct (check_declared_spec _ _ _ E) as (V & _ & N & _ & De). split; [done|].
  rewrite V in *. split; [|by rewrite P]. clear -S N.
  apply Sorted_StronglySorted in S; [|intros a b c ? ?; lia].
  induction S as [|m l S IH F]; cbn in *; [constructor|]. apply NoDup_cons in N as [N1 N].
  constructor; [by apply IH|]. apply Forall_forall. intros v Hv.
  apply list_elem_of_fmap in Hv as (x & -> & Hx). rewrite Forall_forall in F. specialize (F x Hx).
  assert (version x <> version m); [|lia]. intros Eq. apply N1. rewrite <- Eq. by apply list_elem_of_fmap_2.
Qed.

Lemma NoDup_map_inj {B} (f : B -> Z) l x y : NoDup (map f l) -> x ∈ l -> y ∈ l -> f x = f y -> x = y.
Proof.
  induction l as [|z l IH]; cbn; intros N Hx Hy E; [by apply not_elem_of_nil in Hx|]. apply NoDup_cons in N as [Nz N].
  apply elem_of_cons in Hx as [->|Hx], Hy as [->|Hy]; [done| | |by apply IH]; exfalso; apply Nz.
  - rewrite E. by apply list_elem_of_fmap_2.
  - rewrite <- E. by apply list_elem_of_fmap_2.
Qed.

Lemma sorted_NoDup (vs : list Z) : StronglySorted Z.lt vs -> NoDup vs.
Proof.
  induction 1 as [|v vs S IH F]; constructor; [|done]. intros Hin. rewrite Forall_forall in F.
  specialize (F v Hin). lia.
Qed.

End Declared.

(** ** Running *)

Section Run.
Context {W A : Type} {D : Database W} {L : DatabaseLaws W A}.
Abbreviation Mig := (@Migration W).

(** What the callback of a version does to the application's data. *)
Variable effect : Z -> A -> A -> Prop.

(** A callback keeps to the application's data and to the transaction it is
    called in. *)
Definition well_behaved (m : Mig) : Prop :=
  forall f w r w', apply_ m = Some f -> f w = (r, w') ->
    ledger w' = ledger w /\ saved w' = saved w /\ (r = inr tt -> effect (version m) (app w) (app w')).

(** The callbacks of a list of migrations, one after the other. *)
Inductive applies : list Mig -> A -> A -> Prop :=
| applies_nil a : applies [] a a
| applies_cons m ms a b c : effect (version m) a b -> applies ms b c -> applies (m :: ms) a c.

Definition row (m : Mig) (b : bool) : AppliedMigration := mkApplied (version m) (description m) (checksum m) b.

(** The ledger after some migrations succeeded. *)
Definition recorded (ms : list Mig) (l : gmap Z AppliedMigration) : gmap Z AppliedMigration :=
  foldl (fun l m => <[version m := row m true]> l) l ms.

Definition rollback_works : Prop := forall w, exists w', rollback w = (inr tt, w').

Lemma attempt_insert_fields v d c b w :
  let w' := attempt insert_sql [PInt v; PText d; PText c; PBool b] w in
  app w' = app w /\ saved w' = saved w /\
  (ledger w' = ledger w \/ ledger w' = <[v := mkApplied v d c b]> (ledger w)).
Proof.
  unfold attempt. destruct (execute w insert_sql _) as [r w'] eqn:E. cbn.
  destruct (insert_row _ _ _ _ _ _ _ E) as (? & ? & H). destruct r; [auto|]. destruct H. auto.
Qed.

Lemma attempt_ddl q w : q = create_ledger_sql \/ q = add_checksum_sql \/ q = add_success_sql \/ q = add_installed_sql ->
  ledger (attempt q [] w) = ledger w /\ app (attempt q [] w) = app w /\ saved (attempt q [] w) = saved w.
Proof. intros H. unfold attempt. destruct (execute w q []) as [r w'] eqn:E. by apply (ddl_same _ _ _ _ E). Qed.

(** The failed row, if anything, is all that is left. *)
Lemma record_failed_spec m w : let w' := record_failed m w in
  app w' = app w /\ saved w' = saved w /\ (forall u, u <> version m -> ledger w' !! u = ledger w !! u) /\
  (ledger w' !! version m = ledger w !! version m \/ ledger w' !! version m = None \/
   ledger w' !! version m = Some (row m false)).
Proof.
  unfold record_failed. cbv zeta. destruct (execute w delete_sql _) as [r w1] eqn:E.
  destruct (delete_row _ _ _ _ E) as (A1 & S1 & L1). destruct r as [e|n].
  { rewrite A1, S1, L1. auto. }
  destruct (attempt_insert_fields (version m) (description m) (checksum m) false w1) as (A2 & S2 & L2).
  rewrite A2, S2. split; [done|]. split; [done|].
  destruct L2 as [->| ->]; rewrite L1; split.
  - intros u Hu. by rewrite lookup_delete_ne.
  - rewrite lookup_delete_eq. auto.
  - intros u Hu. by rewrite lookup_insert_ne, lookup_delete_ne.
  - rewrite lookup_insert_eq. auto.
Qed.

(** A block that fails leaves the transaction to be rolled back, or rolled
    back already; one that succeeds has committed. *)
Lemma try_migration_spec m w l a r w' : well_behaved m -> is_Some (apply_ m) ->
  saved w = Some (l, a) -> ledger w = l -> app w = a -> try_migration m w = (r, w') ->
  match r with
  | inr _ => l !! version m = None /\ ledger w' = <[version m := row m true]> l /\
      effect (version m) a (app w') /\ saved w' = None
  | inl _ => saved w' = Some (l, a) \/ (ledger w' = l /\ app w' = a /\ saved w' = None)
  end.
Proof.
  intros Wb [f Ef] S El Ea E. unfold try_migration in E.
  destruct (execute w insert_sql _) as [r1 w1] eqn:E1.
  destruct (insert_row _ _ _ _ _ _ _ E1) as (A1 & S1 & L1).
  destruct r1 as [e|n]; [simplify_eq; left; congruence|]. destruct L1 as [N1 L1]. rewrite Ef in E.
  destruct (f w1) as [r2 w2] eqn:E2. destruct (Wb f w1 r2 w2 Ef E2) as (L2 & S2 & Eff).
  destruct r2 as [e|[]]; [simplify_eq; left; congruence|]. specialize (Eff eq_refl).
  destruct (execute w2 update_sql _) as [r3 w3] eqn:E3. destruct (update_row _ _ _ _ _ E3) as (A3 & S3 & L3).
  destruct r3 as [e|k]; [simplify_eq; left; congruence|].
  pose proof (commit_keeps _ _ _ E) as C. destruct r as [e|[]].
  - destruct C as [(C1 & C2 & C3)|(C1 & C2)]; [left; congruence|]. right.
    assert (Q : saved w3 = Some (l, a)) by congruence. rewrite Q in C1. simplify_eq. done.
  - destruct C as (C1 & C2 & C3). subst l a. split; [done|]. split; [|split; [|done]].
    + rewrite C1, L3, L2, L1. apply map_eq. intros u. destruct (decide (u = version m)) as [->|Nu].
      * by rewrite lookup_alter_eq, !lookup_insert_eq.
      * by rewrite lookup_alter_ne, !lookup_insert_ne.
    + rewrite C2, A3, <- A1. exact Eff.
Qed.

Lemma migrate_one_spec m w r w' : rollback_works -> well_behaved m -> is_Some (apply_ m) -> saved w = None ->
  migrate_one m w = (r, w') ->
  saved w' = None /\
  match r with
  | inr _ => ledger w !! version m = None /\ ledger w' = <[version m := row m true]> (ledger w) /\
      effect (version m) (app w) (app w')
  | inl _ => app w' = app w /\ (forall u, u <> version m -> ledger w' !! u = ledger w !! u) /\
      (ledger w' !! version m = ledger w !! version m \/ ledger w' !! version m = None \/
       ledger w' !! version m = Some (row m false))
  end.
Proof.
  intros Rb Wb Ap S E. unfold migrate_one in E. destruct (begin_transaction w) as [r1 w1] eqn:E1.
  destruct (begin_saves _ _ _ E1 S) as (L1 & A1 & S1). destruct r1 as [e|u].
  { simplify_eq. rewrite L1, A1. auto. }
  destruct (try_migration m w1) as [r2 w2] eqn:E2.
  pose proof (try_migration_spec m w1 (ledger w) (app w) r2 w2 Wb Ap S1 L1 A1 E2) as T.
  destruct r2 as [e|[]]; simplify_eq; [|tauto].
  destruct (Rb w2) as [w3 E3]. rewrite E3. cbn [snd].
  assert (R3 : ledger w3 = ledger w /\ app w3 = app w /\ saved w3 = None).
  { destruct T as [T|(T1 & T2 & T3)]; [exact (rollback_restores _ _ _ _ _ E3 T)|].
    destruct (rollback_idle _ _ _ E3 T3) as (? & ? & ?). repeat split; congruence. }
  destruct R3 as (R1 & R2 & R3). destruct (record_failed_spec m w3) as (F1 & F2 & F3 & F4).
  rewrite F1, F2, R2, R3. split; [done|]. split; [done|]. rewrite R1 in F3, F4. done.
Qed.

(** The migrations the ledger does not have. *)
Definition pending (l : gmap Z AppliedMigration) (ms : list Mig) : list Mig :=
  filter (fun m => l !! version m = None) ms.

Lemma migrate_all_spec known ms w r w' : rollback_works -> Forall well_behaved ms -> Forall declared ms ->
  NoDup (map version ms) -> saved w = None ->
  migrate_all known ms w = (r, w') ->
  exists applied_ rest, pending known ms = applied_ ++ rest /\
    applies applied_ (app w) (app w') /\ saved w' = None /\
    match r with
    | inr _ => rest = [] /\ ledger w' = recorded applied_ (ledger w)
    | inl _ => exists m rest', rest = m :: rest' /\
        (forall u, u <> version m -> ledger w' !! u = recorded applied_ (ledger w) !! u) /\
        (ledger w' !! version m = recorded applied_ (ledger w) !! version m \/ ledger w' !! version m = None \/
         ledger w' !! version m = Some (row m false))
    end.
Proof.
  intros Rb. revert w. induction ms as [|m ms IH]; intros w Wb De N S E; cbn in E.
  { simplify_eq. exists [], []. split; [done|]. by split; [constructor|]. }
  apply Forall_cons in Wb as [Wm Wb], De as [Dm De]. cbn in N. apply NoDup_cons in N as [Nm N].
  unfold pending. rewrite filter_cons. fold (pending known ms).
  destruct (known !! version m) as [x|] eqn:Ek.
  { rewrite decide_False by done. by apply IH. }
  rewrite decide_True by done.
  destruct (migrate_one m w) as [r1 w1] eqn:E1.
  destruct (migrate_one_spec m w r1 w1 Rb Wm (proj2 (proj2 Dm)) S E1) as (S1 & M).
  destruct r1 as [e|u].
  - simplify_eq. destruct M as (M1 & M2 & M3). exists [], (m :: pending known ms). split; [done|].
    rewrite M1. split; [constructor|]. split; [done|]. by exists m, (pending known ms).
  - destruct M as (M1 & M2 & M3). destruct (IH w1 Wb De N S1 E) as (ap & rest & P & Ap & S' & R).
    exists (m :: ap), rest. rewrite P. split; [done|]. split; [by econstructor|]. split; [done|].
    rewrite M2 in R. exact R.
Qed.

Lemma recorded_ne ms l v : v ∉ map version ms -> recorded ms l !! v = l !! v.
Proof.
  revert l. induction ms as [|m ms IH]; intros l N; [done|]. cbn in N.
  change (recorded (m :: ms) l) with (recorded ms (<[version m := row m true]> l)).
  rewrite IH by set_solver. apply lookup_insert_ne. set_solver.
Qed.

Lemma recorded_in ms l m : NoDup (map version ms) -> m ∈ ms -> recorded ms l !! version m = Some (row m true).
Proof.
  revert l. induction ms as [|x ms IH]; intros l N Hm; [by apply not_elem_of_nil in Hm|].
  cbn in N. apply NoDup_cons in N as [Nx N]. apply elem_of_cons in Hm as [->|Hm]; [|by apply IH].
  change (recorded (x :: ms) l) with (recorded ms (<[version x := row x true]> l)).
  by rewrite recorded_ne, lookup_insert_eq.
Qed.

Lemma collect_key rows v x : collect rows !! v = Some x -> a_version x = v.
Proof.
  unfold collect. assert (G : forall m : gmap Z AppliedMigration, (forall u y, m !! u = Some y -> a_version y = u) ->
    forall u y, foldl (fun m r => match m !! a_version r with Some _ => m | None => <[a_version r := r]> m end) m rows !! u
      = Some y -> a_version y = u).
  { induction rows as [|r rows IH]; intros m Hm; [done|]. cbn. apply IH. destruct (m !! a_version r); [done|].
    intros u y. destruct (decide (a_version r = u)) as [<-|Ne].
    - rewrite lookup_insert_eq. by intros [= <-].
    - rewrite lookup_insert_ne by done. apply Hm. }
  apply G. intros u y. by rewrite lookup_empty.
Qed.

(** A row of the ledger the declared migrations account for. *)
Definition consistent (ms : list Mig) (x : AppliedMigration) : Prop :=
  a_success x = true /\ exists m, m ∈ ms /\ version m = a_version x /\ description m = a_description x /\
    (a_checksum x = bs "legacy" \/ a_checksum x = checksum m).

Lemma check_row_spec ms x : NoDup (map version ms) -> check_row ms x = inr tt <-> consistent ms x.
Proof.
  intros N. unfold check_row, consistent. destruct (a_success x); cbn [negb]; [|split; [done|by intros [? _]]].
  destruct (List.find _ ms) as [m|] eqn:F.
  - apply find_some in F as [Hm Ev]. apply Z.eqb_eq in Ev. apply list_elem_of_In in Hm.
    assert (Uq : forall m', m' ∈ ms -> version m' = a_version x -> m' = m).
    { intros m' Hm' E'. apply (NoDup_map_inj version ms); congruence. }
    case_bool_decide as C1; cbn [negb].
    + case_bool_decide as C2; case_bool_decide as C3; cbn; split; try done; intros H; try (split; [done|]; exists m; auto).
      destruct H as (_ & m' & Hm' & Ev' & _ & Hc). rewrite (Uq m' Hm' Ev') in Hc. naive_solver.
    + split; [done|]. intros (_ & m' & Hm' & Ev' & Hd & _). rewrite (Uq m' Hm' Ev') in Hd. congruence.
  - split; [done|]. intros (_ & m & Hm & Ev & _). apply list_elem_of_In in Hm.
    apply (find_none _ _ F) in Hm. cbn in Hm. apply Z.eqb_neq in Hm. congruence.
Qed.

Lemma check_rows_spec ms xs : NoDup (map version ms) -> check_rows ms xs = inr tt <-> Forall (consistent ms) xs.
Proof.
  intros N. induction xs as [|x xs IH]; cbn; [by split|]. rewrite Forall_cons, <- (check_row_spec ms x N), <- IH.
  destruct (check_row ms x) as [e|[]]; [|by intuition]. split; [done|]. by intros [? _].
Qed.

(** *** The runner *)

Variable order : gmap Z AppliedMigration -> list AppliedMigration.
Hypothesis order_perm : forall m, order m ≡ₚ map snd (map_to_list m).

(** Up to the loop nothing changes, and the loop is entered only if every row of
    the ledger is accounted for. *)
Lemma run_prologue ms w r w' : run order ms w = (r, w') ->
  (exists e, r = inl e /\ ledger w' = ledger w /\ app w' = app w /\ saved w' = saved w) \/
  (exists ms' w3, normalize ms = inr ms' /\ ledger w3 = ledger w /\ app w3 = app w /\ saved w3 = saved w /\
     migrate_all (ledger w) ms' w3 = (r, w') /\
     forall v x, ledger w !! v = Some x -> consistent ms' x /\ a_version x = v).
Proof.
  intros E. unfold run in E. destruct (normalize ms) as [e|ms'] eqn:En; [simplify_eq; left; by eexists|].
  destruct (get_connection w) as [r1 w1] eqn:E1. destruct (get_connection_same _ _ _ E1) as (L1 & A1 & S1).
  destruct r1 as [e|u]; [simplify_eq; left; by eexists|].
  destruct (ensure_ledger w1) as [r2 w2] eqn:E2.
  assert (V2 : ledger w2 = ledger w1 /\ app w2 = app w1 /\ saved w2 = saved w1).
  { unfold ensure_ledger in E2. destruct (execute w1 create_ledger_sql []) as [r0 wa] eqn:Ea.
    destruct (ddl_same _ _ _ _ Ea ltac:(auto)) as (? & ? & ?). destruct r0; injection E2 as <- <-; [done|].
    destruct (attempt_ddl add_checksum_sql wa ltac:(auto)) as (? & ? & ?).
    destruct (attempt_ddl add_success_sql (attempt add_checksum_sql [] wa) ltac:(auto)) as (? & ? & ?).
    destruct (attempt_ddl add_installed_sql (attempt add_success_sql [] (attempt add_checksum_sql [] wa)) ltac:(auto)) as (? & ? & ?).
    repeat split; congruence. }
  destruct V2 as (L2 & A2 & S2). destruct r2 as [e|u2]; [simplify_eq; left; eexists; repeat split; congruence|].
  unfold applied_map in E. destruct (query w2 select_sql) as [r3 w3] eqn:E3.
  destruct (query_same _ _ _ E3) as (L3 & A3 & S3 & C3).
  destruct r3 as [e|rows]; [simplify_eq; left; eexists; repeat split; congruence|].
  specialize (C3 rows eq_refl).
  assert (Cl : collect rows = ledger w) by congruence. rewrite Cl in E.
  destruct (normalize_spec _ _ En) as (_ & Ss & _). pose proof (sorted_NoDup _ Ss) as N.
  pose proof (check_rows_spec ms' (order (ledger w)) N) as Ck.
  destruct (check_rows ms' (order (ledger w))) as [e|[]]; [simplify_eq; left; eexists; repeat split; congruence|].
  right. exists ms', w3. split; [done|]. repeat (split; [congruence|]). intros v x Hx.
  split; [|apply (collect_key rows); congruence].
  destruct Ck as [Ck _]. specialize (Ck eq_refl). rewrite order_perm in Ck. rewrite Forall_forall in Ck. apply Ck.
  apply list_elem_of_fmap. exists (v, x). split; [done|]. by apply elem_of_map_to_list.
Qed.

Lemma normalize_well_behaved ms ms' : normalize ms = inr ms' -> Forall well_behaved ms -> Forall well_behaved ms'.
Proof.
  intros E Wb. unfold normalize in E. apply check_declared_same in E.
  destruct (sort_by_spec version ms) as [_ P]. rewrite <- P in Wb.
  clear P. revert E Wb. generalize (sort_by version ms). intros l0 E Wb.
  induction E as [|m m' l l' (Ev & _ & Ea) E IH]; [constructor|]. apply Forall_cons in Wb as [Wm Wb].
  constructor; [|by apply IH]. intros f w r w'. rewrite Ea, Ev. apply Wm.
Qed.

(** [C17] The runner as a whole, on a database that carries out rollbacks and with
    migrations that leave the ledger and the transaction to the runner.  On success
    the migrations the ledger lacked have been applied in increasing order of
    version, each once, and the ledger has exactly the declared versions, all
    successful.  On failure either nothing has changed, or the declared migrations
    were found in order and consistent with the ledger, an initial segment of those
    the ledger lacked has been applied and recorded, the next one has left no trace
    in the data and at most a row that says it failed, and no other version has been
    recorded. *)
Theorem migrations_correct ms w r w' :
  rollback_works -> Forall well_behaved ms -> saved w = None -> run order ms w = (r, w') ->
  saved w' = None /\
  match r with
  | inr _ => exists ms', normalize ms = inr ms' /\ StronglySorted Z.lt (map version ms') /\
      applies (pending (ledger w) ms') (app w) (app w') /\
      ledger w' = recorded (pending (ledger w) ms') (ledger w) /\
      (forall v, is_Some (ledger w' !! v) <-> v ∈ map version ms) /\
      (forall v x, ledger w' !! v = Some x -> a_success x = true)
  | inl _ => (app w' = app w /\ ledger w' = ledger w) \/
      exists ms' applied_ m rest, normalize ms = inr ms' /\ StronglySorted Z.lt (map version ms') /\
        pending (ledger w) ms' = applied_ ++ m :: rest /\
        applies applied_ (app w) (app w') /\
        (forall v, v <> version m -> ledger w' !! v = recorded applied_ (ledger w) !! v) /\
        (ledger w' !! version m = None \/ ledger w' !! version m = Some (row m false))
  end.
Proof.
  intros Rb Wb S E. destruct (run_prologue ms w r w' E) as [(e & -> & L1 & A1 & S1)|(ms' & w3 & En & L3 & A3 & S3 & Em & Co)].
  { split; [congruence|]. by left. }
  destruct (normalize_spec _ _ En) as (De & Ss & Pv). pose proof (sorted_NoDup _ Ss) as N.
  rewrite S in S3. destruct (migrate_all_spec (ledger w) ms' w3 r w' Rb (normalize_well_behaved _ _ En Wb) De N S3 Em)
    as (ap & rest & P & Ap & S' & R). split; [done|]. rewrite A3 in Ap. rewrite L3 in R.
  assert (Np : NoDup (map version (pending (ledger w) ms'))).
  { clear -N. induction ms' as [|m l IH]; [constructor|]. cbn in N. apply NoDup_cons in N as [N1 N].
    unfold pending. rewrite filter_cons. fold (pending (ledger w) l). case_decide; [|by apply IH]. cbn. constructor; [|by apply IH].
    intros Hin. apply N1. apply list_elem_of_fmap in Hin as (x & -> & Hx). apply list_elem_of_filter in Hx as [_ Hx].
    by apply list_elem_of_fmap_2. }
  assert (Pn : forall m, m ∈ pending (ledger w) ms' -> ledger w !! version m = None)
    by (intros m Hm; by apply list_elem_of_filter in Hm as [? _]).
  destruct r as [e|u].
  - destruct R as (m & rest' & -> & Ro & Rm). right. exists ms', ap, m, rest'. split_and!; [done..| |done| |].
    { done. } { intros v Nv. by apply Ro. }
    assert (Nm : version m ∉ map version ap).
    { rewrite P, map_app in Np. apply NoDup_app in Np as (_ & Np & _). intros Hin. apply (Np _ Hin). cbn. by left. }
    assert (Lm : ledger w !! version m = None) by (apply Pn; rewrite P; set_solver).
    rewrite (recorded_ne ap _ _ Nm), Lm in Rm.
    destruct Rm as [Rm|[Rm|Rm]]; [left; congruence|left; congruence|by right].
  - destruct R as (-> & R). rewrite app_nil_r in P. subst ap. exists ms'. split; [done|]. split; [done|]. split; [done|].
    split; [done|]. rewrite R.
    assert (Own : forall v, v ∈ map version ms' -> exists m, m ∈ ms' /\ version m = v).
    { intros v Hv. apply list_elem_of_fmap in Hv as (m & -> & Hm). by exists m. }
    split.
    + intros v. rewrite <- Pv. split.
      * intros [x Hx]. destruct (decide (v ∈ map version (pending (ledger w) ms'))) as [Hp|Hp].
        -- apply list_elem_of_fmap in Hp as (m & -> & Hm). apply list_elem_of_filter in Hm as [_ Hm].
           by apply list_elem_of_fmap_2.
        -- rewrite recorded_ne in Hx by done. destruct (Co v x Hx) as ((_ & m & Hm & Ev & _) & <-).
           rewrite <- Ev. by apply list_elem_of_fmap_2.
      * intros Hv. destruct (Own v Hv) as (m & Hm & <-). destruct (ledger w !! version m) as [x|] eqn:El.
        -- rewrite recorded_ne; [by rewrite El|]. intros Hp. apply list_elem_of_fmap in Hp as (y & Ey & Hy).
           apply Pn in Hy. congruence.
        -- rewrite (recorded_in _ _ m Np); [done|]. by apply list_elem_of_filter.
    + intros v x Hx. destruct (decide (v ∈ map version (pending (ledger w) ms'))) as [Hp|Hp].
      * apply list_elem_of_fmap in Hp as (m & -> & Hm). rewrite (recorded_in _ _ m Np Hm) in Hx. by simplify_eq.
      * rewrite recorded_ne in Hx by done. by destruct (Co v x Hx) as ((? & _) & _).
Qed.

(** A ledger with a row the declared migrations do not account for -- a failed
    migration, an unknown version, a changed description or checksum -- stops
    the runner before it changes anything. *)
Theorem inconsistent_ledger_refused ms ms' w r w' v x :
  normalize ms = inr ms' -> ledger w !! v = Some x -> ~ consistent ms' x ->
  run order ms w = (r, w') ->
  (exists e, r = inl e) /\ ledger w' = ledger w /\ app w' = app w.
Proof.
  intros En Hx Nc E. destruct (run_prologue ms w r w' E) as [(e & -> & L1 & A1 & _)|(ms2 & w3 & En2 & _ & _ & _ & _ & Co)].
  - split; [by exists e|]. done.
  - rewrite En in En2. injection En2 as <-. exfalso. apply Nc. by apply (Co v x Hx).
Qed.

End Run.
End MigrationProps.

(** ** A database and witnesses *)

Module MigrationWitness.
Import MigrationProps.

(** Description, checksum and success by version; the data is the list of the
    callbacks that ran. *)
Abbreviation table := (gmap Z (bytes * bytes * bool)) (only parsing).

Record Db := mkDb { rows_ : table; data : list Z; save : option (table * list Z) }.

Definition as_row (v : Z) (x : bytes * bytes * bool) : AppliedMigration := mkApplied v x.1.1 x.1.2 x.2.

Definition db_ledger (l : table) : gmap Z AppliedMigration := map_imap (fun v x => Some (as_row v x)) l.

Definition with_rows (d : Db) (l : table) : Db := mkDb l (data d) (save d).

Definition db_execute (d : Db) (q : bytes) (ps : list SqlValue) : result Exn Z * Db :=
  match ps with
  | [PInt v; PText s; PText c; PBool b] =>
      match rows_ d !! v with
      | Some _ => (inl (DbException 23505), d)
      | None => (inr 1, with_rows d (<[v := (s, c, b)]> (rows_ d)))
      end
  | [PInt v] => (inr 1, with_rows d (delete v (rows_ d)))
  | [PBool b; PInt v] => (inr 1, with_rows d (alter (fun x => (x.1, b)) v (rows_ d)))
  | _ => (inr 0, d)
  end.

#[export] Instance db_database : Database Db := {
  get_connection d := (inr tt, d);
  execute := db_execute;
  query d _ := (inr (map snd (map_to_list (db_ledger (rows_ d)))), d);
  begin_transaction d := (inr tt, mkDb (rows_ d) (data d) (Some (rows_ d, data d)));
  commit d := (inr tt, mkDb (rows_ d) (data d) None);
  rollback d := (inr tt, match save d with Some (l, a) => mkDb l a None | None => d end)
}.

Lemma db_ledger_lookup l v : db_ledger l !! v = as_row v <$> l !! v.
Proof. unfold db_ledger. rewrite map_lookup_imap. by destruct (l !! v). Qed.

Lemma collect_rows (l : gmap Z AppliedMigration) : (forall k x, l !! k = Some x -> a_version x = k) ->
  collect (map snd (map_to_list l)) = l.
Proof.
  intros Hl.
  assert (G : forall kvs (m : gmap Z AppliedMigration), (forall k x, (k, x) ∈ kvs -> a_version x = k) -> NoDup (map fst kvs) ->
    (forall k, k ∈ map fst kvs -> m !! k = None) ->
    foldl (fun m r => match m !! a_version r with Some _ => m | None => <[a_version r := r]> m end) m (map snd kvs) =
    list_to_map kvs ∪ m).
  { induction kvs as [|[k x] kvs IH]; intros m Hk N Hm; cbn; [by rewrite (left_id_L ∅ (∪))|].
    cbn in N. apply NoDup_cons in N as [Nk N]. rewrite (Hk k x) by (by left). rewrite Hm by (by left).
    rewrite IH; [| |done|].
    - rewrite <- insert_union_l. rewrite insert_union_r; [done|]. apply not_elem_of_list_to_map_1. done.
    - intros k' x' H'. apply Hk. by right.
    - intros k' H'. rewrite lookup_insert_ne by (intros ->; done). apply Hm. by right. }
  unfold collect. rewrite G.
  - by rewrite (right_id_L ∅ (∪)), list_to_map_to_list.
  - intros k x H. apply elem_of_map_to_list in H. by apply Hl.
  - apply NoDup_fst_map_to_list.
  - intros k _. apply lookup_empty.
Qed.

#[export] Instance db_laws : DatabaseLaws Db (list Z).
Proof.
  refine {| ledger d := db_ledger (rows_ d); app := data;
            saved d := (fun p => (db_ledger p.1, p.2)) <$> save d |}; cbn.
  - by intros w r w' [= <- <-].
  - by intros w q r w' [= <- <-] _.
  - intros w r w' [= <- <-]. repeat split. intros rows [= <-]. apply collect_rows.
    intros k x. rewrite db_ledger_lookup. destruct (rows_ w !! k); [|done]. by intros [= <-].
  - intros w v d c b r w'. destruct (rows_ w !! v) eqn:E; intros [= <- <-]; cbn; repeat split.
    + by rewrite db_ledger_lookup, E.
    + apply map_eq. intros u. rewrite db_ledger_lookup. destruct (decide (v = u)) as [->|N].
      * by rewrite !lookup_insert_eq.
      * by rewrite !lookup_insert_ne, db_ledger_lookup.
  - intros w v r w' [= <- <-]. cbn. repeat split. apply map_eq. intros u. rewrite db_ledger_lookup.
    destruct (decide (v = u)) as [->|N]; [by rewrite !lookup_delete_eq|by rewrite !lookup_delete_ne, db_ledger_lookup].
  - intros w b v r w' [= <- <-]. cbn. repeat split. apply map_eq. intros u. rewrite db_ledger_lookup.
    destruct (decide (v = u)) as [->|N].
    + rewrite !lookup_alter_eq, db_ledger_lookup. by destruct (rows_ w !! u).
    + by rewrite !lookup_alter_ne, db_ledger_lookup.
  - by intros w r w' [= <- <-] S.
  - by intros w r w' [= <- <-].
  - intros w r w' l a [= <- <-]. destruct (save w) as [[? ?]|]; cbn; intros Hs; by simplify_eq/=.
  - intros w r w' [= <- <-]. destruct (save w) as [[? ?]|] eqn:Es; cbn; [done|]. intros _. by rewrite Es.
Defined.

(** Append a version to the data. *)
Definition append_callback (v : Z) : Db -> result Exn unit * Db :=
  fun d => (inr tt, mkDb (rows_ d) (data d ++ [v]) (save d)).

Definition appended (v : Z) (a b : list Z) : Prop := b = a ++ [v].

Definition mig (v : Z) : @Migration Db := mkMigration v (bs "m") [] (Some (append_callback v)).

Definition in_order (m : gmap Z AppliedMigration) : list AppliedMigration := map snd (map_to_list m).

Definition empty_db : Db := mkDb ∅ [] None.

Lemma mig_well_behaved v : well_behaved appended (mig v).
Proof. intros f w r w' [= <-] [= <- <-]. repeat split. Qed.

(** Two migrations given out of order. *)
Lemma migrations_correct_witness :
  exists w', run in_order [mig 2; mig 1] empty_db = (inr tt, w') /\ data w' = [1; 2] /\ is_Some (ledger w' !! 2).
Proof.
  destruct (run in_order [mig 2; mig 1] empty_db) as [r w'] eqn:E.
  assert (R : fst (run in_order [mig 2; mig 1] empty_db) = inr tt /\
    data (snd (run in_order [mig 2; mig 1] empty_db)) = [1; 2]) by (vm_compute; split; reflexivity).
  rewrite E in R. destruct R as [R1 R2]. cbn in R1, R2. subst r.
  destruct (migrations_correct appended in_order (fun m => Permutation_refl _) [mig 2; mig 1] empty_db (inr tt) w') as (_ & T).
  - intros w. by eexists.
  - constructor; [apply mig_well_behaved|]. constructor; [apply mig_well_behaved|constructor].
  - reflexivity.
  - exact E.
  - destruct T as (ms' & _ & _ & _ & _ & Dom & _). exists w'. split; [reflexivity|]. split; [exact R2|].
    apply Dom. cbn. set_solver.
Defined.

(** A ledger with a failed migration. *)
Lemma inconsistent_ledger_refused_witness :
  let w := mkDb {[ 1 := (bs "m", bs "legacy", false) ]} [] None in
  (exists e, fst (run in_order [mig 1] w) = inl e) /\ data (snd (run in_order [mig 1] w)) = [].
Proof.
  cbn zeta. set (w := mkDb _ _ _). destruct (run in_order [mig 1] w) as [r w'] eqn:E. cbn [fst snd].
  destruct (normalize [mig 1]) as [e|ms'] eqn:En; [vm_compute in En; discriminate|].
  destruct (inconsistent_ledger_refused in_order (fun m => Permutation_refl _) [mig 1] ms' w r w' 1
    (mkApplied 1 (bs "m") (bs "legacy") false) En) as (He & _ & Ha).
  - change (db_ledger (rows_ w) !! 1 = Some (mkApplied 1 (bs "m") (bs "legacy") false)).
    rewrite db_ledger_lookup. reflexivity.
  - by intros [? _].
  - exact E.
  - split; [exact He|exact Ha].
Defined.

(** Two instances start at once: the one whose insertion is refused because the
    other has just applied the migration deletes the successful row and records a
    failure, so that every later start is refused. *)
Lemma concurrent_start_poisons_ledger :
  let w := mkDb {[ 1 := (bs "m", checksum_of (bs "m"), true) ]} [1] None in
  exists w', migrate_one (mkMigration 1 (bs "m") (checksum_of (bs "m")) (Some (append_callback 1))) w
    = (inl (DbException 23505), w') /\
    rows_ w' !! 1 = Some (bs "m", checksum_of (bs "m"), false) /\ data w' = [1] /\
    exists e, fst (run in_order [mig 1] w') = inl e.
Proof.
  eexists. split; [reflexivity|]. split; [reflexivity|]. split; [reflexivity|].
  eexists. vm_compute. reflexivity.
Qed.

End MigrationWitness.
