(* ===== verification/QueryBuilder.v ===== *)
(** * SQL text: db/dialect.h and db/query_builder.h

    What [QueryBuilder] builds: the text of the WHERE and ORDER BY clauses, the
    parameters, and the statements it sends.  A field given as a template
    argument is the column name the reflection code finds for it; the strings
    that code computes for a whole entity are the record [Entity].  [V] is the
    type of the parameters. *)

From S2P Require Import Prelude CxxString.

(** ** Dialects *)

Module Dialect.

Inductive SqlDialect := SqliteDialect | PostgresDialect.

Definition name (d : SqlDialect) : bytes :=
  match d with
  | SqliteDialect => bs "sqlite"
  | PostgresDialect => bs "postgresql"
  end.

(** The loop of [PostgresDialect::convert_placeholders], from the count on. *)
Fixpoint number_placeholders (count : Z) (sql : bytes) : bytes :=
  match sql with
  | [] => []
  | c :: r => if bool_decide (c = "?"%char) then "$"%char :: to_dec count ++ number_placeholders (count + 1) r
              else c :: number_placeholders count r
  end.

Definition convert_placeholders (d : SqlDialect) (sql : bytes) : bytes :=
  match d with
  | SqliteDialect => sql
  | PostgresDialect => number_placeholders 1 sql
  end.

(** The same text in both dialects. *)
Definition compile_pagination (d : SqlDialect) (limit offset : Z) : bytes :=
  (if 0 <? limit then bs " LIMIT " ++ to_dec limit else []) ++
  (if 0 <? offset then bs " OFFSET " ++ to_dec offset else []).

End Dialect.

(** ** The builder *)

Module QueryBuilder.
Import Dialect.

Inductive Op := Equal | LessThan | GreaterThan | Like | NotEqual | LessThanOrEqual | GreaterThanOrEqual.

Definition get_op_symbol (op : Op) : bytes :=
  match op with
  | Equal => bs " = "
  | LessThan => bs " < "
  | GreaterThan => bs " > "
  | Like => bs " LIKE "
  | NotEqual => bs " != "
  | LessThanOrEqual => bs " <= "
  | GreaterThanOrEqual => bs " >= "
  end.

Record Sort := mkSort { column : bytes; ascending : bool }.

Record Pageable := mkPageable { p_page : Z; p_size : Z; sort : list Sort }.

Definition pageable_of (page_number page_size : Z) : Pageable := mkPageable page_number page_size [].
Definition sorted (s : Sort) (p : Pageable) : Pageable := mkPageable (p_page p) (p_size p) (sort p ++ [s]).

(** A [@ManyToOne] member: its name, its column, the table and key of its
    target, and the target's columns as selected under an alias and a prefix. *)
Record ToOne := mkToOne {
  member_name : bytes;
  join_column : bytes;
  target_table : bytes;
  target_pk : bytes;
  target_columns : bytes -> bytes -> bytes
}.

(** What reflection knows of an entity: its columns as a select list, plain and
    under an alias, its persisted columns, its to-one members. *)
Record Entity := mkEntity {
  select_list : bytes;
  select_list_alias : bytes -> bytes;
  persisted : list bytes;
  to_one : list ToOne
}.

Inductive Exn := InvalidArgument (message : bytes).

Section Builder.
Context {V : Type}.
Variable entity : Entity.

Record Builder := mkBuilder {
  table_name_ : bytes;
  sql_where_ : bytes;
  params_ : list V;
  sql_order_ : bytes;
  limit_val_ : Z;
  offset_val_ : Z;
  fetch_to_one_members_ : list bytes;
  fetch_collection_members_ : list bytes
}.

Definition builder_new (table_name : bytes) : Builder := mkBuilder table_name [] [] [] (-1) (-1) [] [].

Definition with_where (w : bytes) (ps : list V) (b : Builder) : Builder :=
  mkBuilder (table_name_ b) w ps (sql_order_ b) (limit_val_ b) (offset_val_ b)
    (fetch_to_one_members_ b) (fetch_collection_members_ b).

Definition with_order (o : bytes) (b : Builder) : Builder :=
  mkBuilder (table_name_ b) (sql_where_ b) (params_ b) o (limit_val_ b) (offset_val_ b)
    (fetch_to_one_members_ b) (fetch_collection_members_ b).

(** [sql_where_.clear(); params_.clear();] *)
Definition clear_where (b : Builder) : Builder := with_where [] [] b.

Definition append_condition (condition : bytes) (ps : list V) (connector : bytes) (b : Builder) : Builder :=
  with_where (if bool_decide (sql_where_ b = []) then bs " WHERE " ++ condition
              else sql_where_ b ++ bs " " ++ connector ++ bs " " ++ condition)
    (params_ b ++ ps) b.

(** The loop of [append_in] and of [placeholders_for]. *)
Fixpoint placeholders_loop (count : nat) (acc : bytes) : bytes :=
  match count with
  | O => acc
  | S n => placeholders_loop n ((if bool_decide (acc = []) then acc else acc ++ bs ", ") ++ bs "?")
  end.

Definition placeholders_for (count : nat) : bytes := placeholders_loop count [].

Definition append_in (col : bytes) (values : list V) (connector : bytes) (b : Builder) : Builder :=
  match values with
  | [] => append_condition (bs "1 = 0") [] connector b
  | _ => append_condition (col ++ bs " IN (" ++ placeholders_for (length values) ++ bs ")") values connector b
  end.

Definition append_order_by_column (col : bytes) (asc : bool) (b : Builder) : result Exn Builder :=
  if negb (bool_decide (col ∈ persisted entity)) then
    Err (InvalidArgument (bs "QueryBuilder sort column is not a persisted entity field: " ++ col))
  else
    let o := if bool_decide (sql_order_ b = []) then bs " ORDER BY " else sql_order_ b ++ bs ", " in
    Ok (with_order (o ++ col ++ (if asc then bs " ASC" else bs " DESC")) b).

(** ** Predicates *)

Definition compare_text (col : bytes) (op : Op) : bytes := col ++ get_op_symbol op ++ bs "?".

Definition where_ (col : bytes) (op : Op) (v : V) (b : Builder) : Builder :=
  append_condition (compare_text col op) [v] (bs "AND") (clear_where b).

Definition and_ (col : bytes) (op : Op) (v : V) (b : Builder) : Builder :=
  if bool_decide (sql_where_ b = []) then where_ col op v b
  else append_condition (compare_text col op) [v] (bs "AND") b.

Definition or_ (col : bytes) (op : Op) (v : V) (b : Builder) : Builder :=
  if bool_decide (sql_where_ b = []) then where_ col op v b
  else append_condition (compare_text col op) [v] (bs "OR") b.

(** The relation's column, the target's key and table, the target's column. *)
Record Related := mkRelated { r_column : bytes; r_pk : bytes; r_table : bytes; r_target : bytes }.

Definition related_text (r : Related) (op : Op) : bytes :=
  r_column r ++ bs " IN (SELECT " ++ r_pk r ++ bs " FROM " ++ r_table r ++ bs " WHERE " ++
  r_target r ++ get_op_symbol op ++ bs "?)".

Definition and_related (r : Related) (op : Op) (v : V) (b : Builder) : Builder :=
  append_condition (related_text r op) [v] (bs "AND") b.

Definition where_related (r : Related) (op : Op) (v : V) (b : Builder) : Builder :=
  and_related r op v (clear_where b).

Definition or_related (r : Related) (op : Op) (v : V) (b : Builder) : Builder :=
  if bool_decide (sql_where_ b = []) then where_related r op v b
  else append_condition (related_text r op) [v] (bs "OR") b.

Definition where_is_null (col : bytes) (b : Builder) : Builder :=
  append_condition (col ++ bs " IS NULL") [] (bs "AND") (clear_where b).
Definition where_is_not_null (col : bytes) (b : Builder) : Builder :=
  append_condition (col ++ bs " IS NOT NULL") [] (bs "AND") (clear_where b).
Definition and_is_null (col : bytes) (b : Builder) : Builder :=
  append_condition (col ++ bs " IS NULL") [] (bs "AND") b.
Definition or_is_null (col : bytes) (b : Builder) : Builder :=
  append_condition (col ++ bs " IS NULL") [] (bs "OR") b.

Definition where_in (col : bytes) (vs : list V) (b : Builder) : Builder := append_in col vs (bs "AND") (clear_where b).
Definition and_in (col : bytes) (vs : list V) (b : Builder) : Builder := append_in col vs (bs "AND") b.

Definition between_text (col : bytes) : bytes := col ++ bs " BETWEEN ? AND ?".

Definition where_between (col : bytes) (lo hi : V) (b : Builder) : Builder :=
  append_condition (between_text col) [lo; hi] (bs "AND") (clear_where b).
Definition and_between (col : bytes) (lo hi : V) (b : Builder) : Builder :=
  append_condition (between_text col) [lo; hi] (bs "AND") b.

(** ** Ordering and limits *)

Definition order_by (col : bytes) (asc : bool) (b : Builder) : result Exn Builder := append_order_by_column col asc b.

Definition order_by_related (r : Related) (asc : bool) (b : Builder) : Builder :=
  let order_expr := bs "(SELECT " ++ r_target r ++ bs " FROM " ++ r_table r ++ bs " WHERE " ++ r_pk r ++
                    bs " = " ++ r_column r ++ bs ")" in
  let o := if bool_decide (sql_order_ b = []) then bs " ORDER BY " else sql_order_ b ++ bs ", " in
  with_order (o ++ order_expr ++ (if asc then bs " ASC" else bs " DESC")) b.

Definition limit (count : Z) (b : Builder) : Builder :=
  mkBuilder (table_name_ b) (sql_where_ b) (params_ b) (sql_order_ b) count (offset_val_ b)
    (fetch_to_one_members_ b) (fetch_collection_members_ b).

Definition offset (count : Z) (b : Builder) : Builder :=
  mkBuilder (table_name_ b) (sql_where_ b) (params_ b) (sql_order_ b) (limit_val_ b) count
    (fetch_to_one_members_ b) (fetch_collection_members_ b).

(** [fetch]: whether the field is a collection is known from its type. *)
Definition fetch (member : bytes) (collection : bool) (b : Builder) : Builder :=
  mkBuilder (table_name_ b) (sql_where_ b) (params_ b) (sql_order_ b) (limit_val_ b) (offset_val_ b)
    (if collection then fetch_to_one_members_ b else member :: fetch_to_one_members_ b)
    (if collection then member :: fetch_collection_members_ b else fetch_collection_members_ b).

(** ** Groups

    The callback of a group is the list of calls it makes on the builder it is
    given. *)

Inductive Cmd :=
| Where (col : bytes) (op : Op) (v : V)
| And (col : bytes) (op : Op) (v : V)
| Or (col : bytes) (op : Op) (v : V)
| WhereRelated (r : Related) (op : Op) (v : V)
| AndRelated (r : Related) (op : Op) (v : V)
| OrRelated (r : Related) (op : Op) (v : V)
| WhereIsNull (col : bytes)
| WhereIsNotNull (col : bytes)
| AndIsNull (col : bytes)
| OrIsNull (col : bytes)
| WhereIn (col : bytes) (vs : list V)
| AndIn (col : bytes) (vs : list V)
| WhereBetween (col : bytes) (lo hi : V)
| AndBetween (col : bytes) (lo hi : V)
| WhereGroup (calls : list Cmd)
| AndGroup (calls : list Cmd)
| OrGroup (calls : list Cmd)
| OrderBy (col : bytes) (asc : bool)
| OrderByRelated (r : Related) (asc : bool)
| Fetch (member : bytes) (collection : bool)
| Limit (count : Z)
| Offset (count : Z).

(** [append_group], given the builder the callback has configured. *)
Definition append_group (group : Builder) (connector : bytes) (b : Builder) : result Exn Builder :=
  if bool_decide (sql_where_ group = []) then
    Err (InvalidArgument (bs "QueryBuilder group must contain a predicate"))
  else Ok (append_condition (bs "(" ++ drop 7 (sql_where_ group) ++ bs ")") (params_ group) connector b).

Open Scope result_scope.

Fixpoint call (c : Cmd) (b : Builder) : result Exn Builder :=
  let calls := fix calls (cs : list Cmd) (b : Builder) : result Exn Builder :=
    match cs with
    | [] => Ok b
    | c :: cs' => let! b' := call c b in calls cs' b'
    end in
  let group cs := calls cs (builder_new (table_name_ b)) in
  match c with
  | Where col op v => Ok (where_ col op v b)
  | And col op v => Ok (and_ col op v b)
  | Or col op v => Ok (or_ col op v b)
  | WhereRelated r op v => Ok (where_related r op v b)
  | AndRelated r op v => Ok (and_related r op v b)
  | OrRelated r op v => Ok (or_related r op v b)
  | WhereIsNull col => Ok (where_is_null col b)
  | WhereIsNotNull col => Ok (where_is_not_null col b)
  | AndIsNull col => Ok (and_is_null col b)
  | OrIsNull col => Ok (or_is_null col b)
  | WhereIn col vs => Ok (where_in col vs b)
  | AndIn col vs => Ok (and_in col vs b)
  | WhereBetween col lo hi => Ok (where_between col lo hi b)
  | AndBetween col lo hi => Ok (and_between col lo hi b)
  | WhereGroup cs => let! g := group cs in append_group g (bs "AND") (clear_where b)
  | AndGroup cs => let! g := group cs in append_group g (bs "AND") b
  | OrGroup cs => let! g := group cs in append_group g (bs "OR") b
  | OrderBy col asc => order_by col asc b
  | OrderByRelated r asc => Ok (order_by_related r asc b)
  | Fetch m coll => Ok (fetch m coll b)
  | Limit n => Ok (limit n b)
  | Offset n => Ok (offset n b)
  end.

Fixpoint calls (cs : list Cmd) (b : Builder) : result Exn Builder :=
  match cs with
  | [] => Ok b
  | c :: cs' => let! b' := call c b in calls cs' b'
  end.

(** ** Statements *)

Definition join_fetch_prefix (m : bytes) : bytes := bs "__novaboot_" ++ m ++ bs "_".
Definition join_fetch_alias (m : bytes) : bytes := bs "__nb_" ++ m.

(** One turn of the loop over the members. *)
Definition join_member (b : Builder) (acc : bytes * bytes) (m : ToOne) : bytes * bytes :=
  if bool_decide (member_name m ∈ fetch_to_one_members_ b) then
    let alias := join_fetch_alias (member_name m) in
    let prefix := join_fetch_prefix (member_name m) in
    (fst acc ++ bs ", " ++ target_columns m alias prefix,
     snd acc ++ bs " LEFT JOIN " ++ target_table m ++ bs " " ++ alias ++
     bs " ON nb_root." ++ join_column m ++ bs " = " ++ alias ++ bs "." ++ target_pk m)
  else acc.

Definition append_joined_to_one_sql (b : Builder) (select_columns : bytes) : bytes * bytes :=
  foldl (join_member b) (select_columns, []) (to_one entity).

Definition build_list_sql (d : SqlDialect) (b : Builder) : bytes :=
  let base_sql := bs "SELECT " ++ select_list entity ++ bs " FROM " ++ table_name_ b ++ sql_where_ b ++ sql_order_ b ++
                  compile_pagination d (limit_val_ b) (offset_val_ b) in
  if bool_decide (fetch_to_one_members_ b = []) then base_sql
  else
    let '(select_columns, joins) := append_joined_to_one_sql b (select_list_alias entity (bs "nb_root")) in
    bs "SELECT " ++ select_columns ++ bs " FROM (" ++ base_sql ++ bs ") nb_root" ++ joins.

(** The statement and parameters a call sends to the connection. *)
Definition list_query (d : SqlDialect) (b : Builder) : bytes * list V :=
  (convert_placeholders d (build_list_sql d b), params_ b).

Definition single_query (d : SqlDialect) (b : Builder) : bytes * list V := list_query d (limit 1 b).

(** [columns] is the select list of the projection. *)
Definition project_query (d : SqlDialect) (columns : bytes) (b : Builder) : bytes * list V :=
  (convert_placeholders d (bs "SELECT " ++ columns ++ bs " FROM " ++ table_name_ b ++ sql_where_ b ++ sql_order_ b ++
     compile_pagination d (limit_val_ b) (offset_val_ b)), params_ b).

Definition count_query (d : SqlDialect) (b : Builder) : bytes * list V :=
  (convert_placeholders d (bs "SELECT COUNT(1) FROM " ++ table_name_ b ++ sql_where_ b), params_ b).

Definition exists_query (d : SqlDialect) (b : Builder) : bytes * list V :=
  (convert_placeholders d (bs "SELECT 1 FROM " ++ table_name_ b ++ sql_where_ b ++ compile_pagination d 1 (-1)),
   params_ b).

(** The loop over the sorts of a page request. *)
Fixpoint append_sorts (ss : list Sort) (b : Builder) : result Exn Builder :=
  match ss with
  | [] => Ok b
  | s :: ss' => let! b' := append_order_by_column (column s) (ascending s) b in append_sorts ss' b'
  end.

(** [page * size] in [int]; [None] when it overflows, which is undefined. *)
Definition int_mul (x y : Z) : option Z :=
  if (- 2 ^ 31 <=? x * y) && (x * y <? 2 ^ 31) then Some (x * y) else None.

(** The builder [page] lists from; [None] is undefined behaviour. *)
Definition page_builder (p : Pageable) (b : Builder) : option (result Exn Builder) :=
  if (p_page p <? 0) || (p_size p <=? 0) then
    Some (Err (InvalidArgument (bs "Pageable requires a non-negative page and a positive size")))
  else
    match append_sorts (sort p) b with
    | inl e => Some (Err e)
    | inr paged => match int_mul (p_page p) (p_size p) with
                   | None => None
                   | Some off => Some (Ok (offset off (limit (p_size p) paged)))
                   end
    end.

End Builder.

(** ** Pages *)

Section Page.
Context {E : Type}.

Record Page := mkPage { content : list E; page : Z; size : Z; total_elements : Z }.

Definition total_pages (p : Page) : Z :=
  if size p =? 0 then 0 else Z.quot (total_elements p + size p - 1) (size p).

Definition has_next (p : Page) : bool := page p + 1 <? total_pages p.
Definition has_previous (p : Page) : bool := (0 <? page p) && (0 <? total_pages p).
Definition is_first (p : Page) : bool := negb (has_previous p).
Definition is_last (p : Page) : bool := negb (has_next p).
Definition number_of_elements (p : Page) : Z := len (content p).

End Page.
End QueryBuilder.
