(* ===== verification/QueryBuilderProps.v ===== *)
(** * Built SQL is well formed

    [Formula] is what a sequence of builder calls means: connected conditions
    with their values in place.  The text and the parameters of the builder are
    always the printing of one formula, so that every placeholder has its value
    at its position. *)

From S2P Require Import Prelude CxxString QueryBuilder.
Import Dialect QueryBuilder.

(** ** Placeholders *)

Definition marks (s : bytes) : nat := length (filter (fun c => c = "?"%char) s).

Lemma marks_app s t : marks (s ++ t) = (marks s + marks t)%nat.
Proof. unfold marks. by rewrite filter_app, length_app. Qed.

Definition clean (s : bytes) : Prop := marks s = 0%nat.

Lemma clean_app s t : clean s -> clean t -> clean (s ++ t).
Proof. unfold clean. rewrite marks_app. lia. Qed.

Lemma clean_to_dec n : 0 <= n -> clean (to_dec n).
Proof.
  intros H. pose proof (to_dec_isdigit n H) as F. unfold clean, marks. induction F as [|c l Hc F IH]; [done|].
  rewrite filter_cons, decide_False; [done|]. intros ->. discriminate Hc.
Qed.

Create Rewrite HintDb marks.
#[export] Hint Rewrite marks_app : marks.

(** Counting placeholders of a text written as an append. *)
Ltac marks_lia := unfold clean in *; autorewrite with marks; cbn [marks]; lia.

(** The pieces between placeholders, numbered from [k]. *)
Fixpoint interleave (k : Z) (pieces : list bytes) : bytes :=
  match pieces with
  | [] => []
  | [p] => p
  | p :: ps => p ++ bs "$" ++ to_dec k ++ interleave (k + 1) ps
  end.

Lemma split_marks s : length (split_on "?"%char s) = S (marks s).
Proof.
  induction s as [|c s IH]; [done|]. cbn [split_on]. unfold marks in *. rewrite filter_cons.
  destruct (split_on_cons "?"%char s) as (p & ps & E). rewrite E in *.
  case_decide as D; [subst; rewrite bool_decide_true by done; cbn in *; lia|].
  rewrite bool_decide_false by done. exact IH.
Qed.

(** [convert_placeholders] for PostgreSQL numbers the placeholders from left to
    right and changes nothing else. *)
Lemma number_placeholders_spec k s : number_placeholders k s = interleave k (split_on "?"%char s).
Proof.
  revert k. induction s as [|c s IH]; intros k; [done|]. cbn [number_placeholders split_on].
  destruct (split_on_cons "?"%char s) as (p & ps & E). case_bool_decide as D; rewrite IH, E.
  - by destruct ps.
  - by destruct ps.
Qed.

(** ** Formulas *)

Module Formula.

Section Formula.
Context {V : Type}.
Variable entity : Entity.
Abbreviation Builder := (@Builder V).
Abbreviation Cmd := (@Cmd V).

(** A condition; a group is a list of conditions, each with how it is connected
    to what precedes it ([true] for OR). *)
Inductive Atom :=
| ACompare (col : bytes) (op : Op) (v : V)
| ARelated (r : Related) (op : Op) (v : V)
| ANull (col : bytes)
| ANotNull (col : bytes)
| AIn (col : bytes) (vs : list V)
| ABetween (col : bytes) (lo hi : V)
| AGroup (f : list (bool * Atom)).

Abbreviation formula := (list (bool * Atom)) (only parsing).

Definition connector (disj : bool) : bytes := if disj then bs " OR " else bs " AND ".

Fixpoint atom_text (a : Atom) : bytes :=
  let rest := fix rest (f : formula) : bytes :=
    match f with
    | [] => []
    | (d, a) :: f' => connector d ++ atom_text a ++ rest f'
    end in
  match a with
  | ACompare col op _ => compare_text col op
  | ARelated r op _ => related_text r op
  | ANull col => col ++ bs " IS NULL"
  | ANotNull col => col ++ bs " IS NOT NULL"
  | AIn col [] => bs "1 = 0"
  | AIn col vs => col ++ bs " IN (" ++ placeholders_for (length vs) ++ bs ")"
  | ABetween col _ _ => between_text col
  | AGroup [] => []
  | AGroup ((_, a) :: f) => bs "(" ++ (atom_text a ++ rest f) ++ bs ")"
  end.

Fixpoint rest_text (f : formula) : bytes :=
  match f with
  | [] => []
  | (d, a) :: f' => connector d ++ atom_text a ++ rest_text f'
  end.

(** The conditions without the keyword. *)
Definition formula_text (f : formula) : bytes :=
  match f with
  | [] => []
  | (_, a) :: f' => atom_text a ++ rest_text f'
  end.

Fixpoint atom_values (a : Atom) : list V :=
  let values := fix values (f : formula) : list V :=
    match f with
    | [] => []
    | (_, a) :: f' => atom_values a ++ values f'
    end in
  match a with
  | ACompare _ _ v | ARelated _ _ v => [v]
  | ANull _ | ANotNull _ => []
  | AIn _ vs => vs
  | ABetween _ lo hi => [lo; hi]
  | AGroup f => values f
  end.

Fixpoint values (f : formula) : list V :=
  match f with
  | [] => []
  | (_, a) :: f' => atom_values a ++ values f'
  end.

Lemma group_text d a f : atom_text (AGroup ((d, a) :: f)) = bs "(" ++ formula_text ((d, a) :: f) ++ bs ")".
Proof. reflexivity. Qed.

Lemma group_values f : atom_values (AGroup f) = values f.
Proof. cbn. by induction f as [|[d a] f IH]; cbn; rewrite ?IH. Qed.

Lemma rest_text_app f g : rest_text (f ++ g) = rest_text f ++ rest_text g.
Proof. induction f as [|[d a] f IH]; cbn; [done|]. by rewrite IH, <- !app_assoc. Qed.

Lemma values_app f g : values (f ++ g) = values f ++ values g.
Proof. induction f as [|[d a] f IH]; cbn; [done|]. by rewrite IH, <- app_assoc. Qed.

(** ** What the calls mean *)

Fixpoint meaning (c : Cmd) (f : formula) : option formula :=
  let meanings := fix meanings (cs : list Cmd) (f : formula) : option formula :=
    match cs with
    | [] => Some f
    | c :: cs' => match meaning c f with Some f' => meanings cs' f' | None => None end
    end in
  let grouped cs (k : formula -> formula) := match meanings cs [] with
                                             | Some [] | None => None
                                             | Some g => Some (k g)
                                             end in
  match c with
  | Where col op v => Some [(false, ACompare col op v)]
  | And col op v => Some (f ++ [(false, ACompare col op v)])
  | Or col op v => Some (f ++ [(true, ACompare col op v)])
  | WhereRelated r op v => Some [(false, ARelated r op v)]
  | AndRelated r op v => Some (f ++ [(false, ARelated r op v)])
  | OrRelated r op v => Some (f ++ [(true, ARelated r op v)])
  | WhereIsNull col => Some [(false, ANull col)]
  | WhereIsNotNull col => Some [(false, ANotNull col)]
  | AndIsNull col => Some (f ++ [(false, ANull col)])
  | OrIsNull col => Some (f ++ [(true, ANull col)])
  | WhereIn col vs => Some [(false, AIn col vs)]
  | AndIn col vs => Some (f ++ [(false, AIn col vs)])
  | WhereBetween col lo hi => Some [(false, ABetween col lo hi)]
  | AndBetween col lo hi => Some (f ++ [(false, ABetween col lo hi)])
  | WhereGroup cs => grouped cs (fun g => [(false, AGroup g)])
  | AndGroup cs => grouped cs (fun g => f ++ [(false, AGroup g)])
  | OrGroup cs => grouped cs (fun g => f ++ [(true, AGroup g)])
  | OrderBy _ _ | OrderByRelated _ _ | Fetch _ _ | Limit _ | Offset _ => Some f
  end.

Fixpoint meanings (cs : list Cmd) (f : formula) : option formula :=
  match cs with
  | [] => Some f
  | c :: cs' => match meaning c f with Some f' => meanings cs' f' | None => None end
  end.

(** The builder's text and parameters are those of a formula. *)
Definition rep (b : Builder) (f : formula) : Prop :=
  sql_where_ b = (match f with [] => [] | _ => bs " WHERE " ++ formula_text f end) /\ params_ b = values f.

Lemma rep_new t : rep (builder_new t) [].
Proof. done. Qed.

Lemma rep_clear b : rep (clear_where b) [].
Proof. done. Qed.

Lemma rep_empty b f : rep b f -> bool_decide (sql_where_ b = []) = bool_decide (f = []).
Proof. intros [E _]. rewrite E. by destruct f. Qed.

(** Appending a condition. *)
Lemma rep_append b f d a conn : rep b f -> connector d = bs " " ++ conn ++ bs " " ->
  rep (append_condition (atom_text a) (atom_values a) conn b) (f ++ [(d, a)]).
Proof.
  intros H Hc. pose proof (rep_empty b f H) as Em. destruct H as [E P]. split; cbn [append_condition with_where sql_where_ params_].
  - rewrite Em. destruct f as [|[d0 a0] f]; cbn [app formula_text].
    + rewrite bool_decide_true by done. cbn [rest_text]. by rewrite app_nil_r.
    + rewrite bool_decide_false by done. rewrite E. cbn [formula_text]. rewrite rest_text_app. cbn [rest_text].
      rewrite Hc, app_nil_r, <- !app_assoc. done.
  - rewrite P, values_app. cbn. by rewrite app_nil_r.
Qed.

Lemma rep_append_and b f a : rep b f -> rep (append_condition (atom_text a) (atom_values a) (bs "AND") b) (f ++ [(false, a)]).
Proof. intros H. by apply rep_append. Qed.

Lemma rep_append_or b f a : rep b f -> rep (append_condition (atom_text a) (atom_values a) (bs "OR") b) (f ++ [(true, a)]).
Proof. intros H. by apply rep_append. Qed.

Lemma rep_where b a : rep (append_condition (atom_text a) (atom_values a) (bs "AND") (clear_where b)) [(false, a)].
Proof. apply (rep_append_and (clear_where b) [] a), rep_clear. Qed.

(** The connection of the first condition does not matter. *)
Lemma rep_first b d d' a f : rep b ((d, a) :: f) -> rep b ((d', a) :: f).
Proof. done. Qed.

Lemma append_in_atom col vs conn b : append_in col vs conn b = append_condition (atom_text (AIn col vs)) (atom_values (AIn col vs)) conn b.
Proof. by destruct vs. Qed.

Lemma append_group_rep g fg conn d b f b' : rep g fg -> rep b f -> connector d = bs " " ++ conn ++ bs " " ->
  append_group g conn b = inr b' -> fg <> [] /\ rep b' (f ++ [(d, AGroup fg)]).
Proof.
  intros Hg Hb Hc E. unfold append_group in E. rewrite (rep_empty g fg Hg) in E.
  case_bool_decide as Ne; [done|]. split; [done|]. injection E as <-. destruct Hg as [Eg Pg].
  destruct fg as [|[dg ag] fg]; [done|]. rewrite Eg, Pg.
  change (rep (append_condition (atom_text (AGroup ((dg, ag) :: fg))) (values ((dg, ag) :: fg)) conn b)
    (f ++ [(d, AGroup ((dg, ag) :: fg))])).
  rewrite <- group_values. by apply rep_append.
Qed.

(** *** Induction on calls and the calls of their groups *)

Lemma Cmd_ind' (P : Cmd -> Prop) :
  (forall c, (forall cs, c = WhereGroup cs \/ c = AndGroup cs \/ c = OrGroup cs -> Forall P cs) -> P c) -> forall c, P c.
Proof.
  intros H. fix IH 1. intros c.
  destruct c as [| | | | | | | | | | | | | |l|l|l| | | | |]; apply H; intros cs Hc;
    try (exfalso; destruct Hc as [Hc|[Hc|Hc]]; discriminate Hc).
  all: assert (cs = l) as -> by (destruct Hc as [Hc|[Hc|Hc]]; congruence).
  all: exact ((fix L (l : list Cmd) : Forall P l :=
    match l with [] => List.Forall_nil P | x :: l' => List.Forall_cons P x l' (IH x) (L l') end) l).
Qed.

(** Every call takes a representation to a representation. *)
Definition call_ok (c : Cmd) : Prop := forall b f b', rep b f -> call entity c b = inr b' ->
  exists f', meaning c f = Some f' /\ rep b' f'.

Lemma calls_ok cs : Forall call_ok cs -> forall b f b', rep b f -> calls entity cs b = inr b' ->
  exists f', meanings cs f = Some f' /\ rep b' f'.
Proof.
  induction 1 as [|c cs Hc Hcs IH]; intros b f b' Hr E; cbn in E.
  - simplify_eq. by exists f.
  - destruct (call entity c b) as [e|b1] eqn:E1; [done|]. cbn in E.
    destruct (Hc b f b1 Hr E1) as (f1 & M1 & R1). cbn. rewrite M1. by eapply IH.
Qed.

Lemma call_meaning c : call_ok c.
Proof.
  induction c as [c IH] using Cmd_ind'. intros b f b' Hr E.
  assert (G : forall cs conn d b0 f0, (c = WhereGroup cs \/ c = AndGroup cs \/ c = OrGroup cs) -> rep b0 f0 ->
    connector d = bs " " ++ conn ++ bs " " ->
    result_bind (calls entity cs (builder_new (table_name_ b))) (fun g => append_group g conn b0) = inr b' ->
    exists g, meanings cs [] = Some g /\ g <> [] /\ rep b' (f0 ++ [(d, AGroup g)])).
  { intros cs conn d b0 f0 Hc Hr0 Hd Eg.
    destruct (calls entity cs (builder_new (table_name_ b))) as [e|g] eqn:Ec; [done|]. cbn in Eg.
    destruct (calls_ok cs (IH cs Hc) _ [] g (rep_new _) Ec) as (fg & Mg & Rg).
    exists fg. split; [done|]. by eapply append_group_rep. }
  destruct c; cbn in E; try (injection E as <-).
  all: try (eexists; split; [reflexivity|]; first
    [ by apply (rep_where b (ACompare col op v)) | by apply (rep_where b (ARelated r op v))
    | by apply (rep_where b (ANull col)) | by apply (rep_where b (ANotNull col))
    | by apply (rep_where b (ABetween col lo hi)) | by apply (rep_append_and b f (ARelated r op v))
    | by apply (rep_append_and b f (ANull col)) | by apply (rep_append_or b f (ANull col))
    | by apply (rep_append_and b f (ABetween col lo hi)) | exact Hr ]; fail).
  - eexists. split; [reflexivity|]. unfold and_. rewrite (rep_empty b f Hr). case_bool_decide as Ef; [subst f|].
    + apply (rep_where b (ACompare col op v)).
    + by apply (rep_append_and b f (ACompare col op v)).
  - eexists. split; [reflexivity|]. unfold or_. rewrite (rep_empty b f Hr). case_bool_decide as Ef; [subst f|].
    + apply (rep_first _ false), (rep_where b (ACompare col op v)).
    + by apply (rep_append_or b f (ACompare col op v)).
  - eexists. split; [reflexivity|]. unfold or_related. rewrite (rep_empty b f Hr). case_bool_decide as Ef; [subst f|].
    + apply (rep_first _ false), (rep_where b (ARelated r op v)).
    + by apply (rep_append_or b f (ARelated r op v)).
  - eexists. split; [reflexivity|]. unfold where_in. rewrite append_in_atom. apply (rep_where b (AIn col vs)).
  - eexists. split; [reflexivity|]. unfold and_in. rewrite append_in_atom. by apply (rep_append_and b f (AIn col vs)).
  - destruct (G calls0 (bs "AND") false (clear_where b) [] ltac:(auto) (rep_clear b) eq_refl E) as (g & Mg & Ng & Rg).
    exists [(false, AGroup g)]. split; [|exact Rg].
    change (match meanings calls0 [] with Some [] | None => None | Some g => Some [(false, AGroup g)] end = Some [(false, AGroup g)]).
    rewrite Mg. by destruct g.
  - destruct (G calls0 (bs "AND") false b f ltac:(auto) Hr eq_refl E) as (g & Mg & Ng & Rg).
    exists (f ++ [(false, AGroup g)]). split; [|exact Rg].
    change (match meanings calls0 [] with Some [] | None => None | Some g => Some (f ++ [(false, AGroup g)]) end
      = Some (f ++ [(false, AGroup g)])).
    rewrite Mg. by destruct g.
  - destruct (G calls0 (bs "OR") true b f ltac:(auto) Hr eq_refl E) as (g & Mg & Ng & Rg).
    exists (f ++ [(true, AGroup g)]). split; [|exact Rg].
    change (match meanings calls0 [] with Some [] | None => None | Some g => Some (f ++ [(true, AGroup g)]) end
      = Some (f ++ [(true, AGroup g)])).
    rewrite Mg. by destruct g.
  - exists f. split; [reflexivity|]. unfold order_by, append_order_by_column in E.
    destruct (bool_decide (col ∈ persisted entity)); [|done]. by injection E as <-.
Qed.

Lemma calls_meaning cs b f b' : rep b f -> calls entity cs b = inr b' ->
  exists f', meanings cs f = Some f' /\ rep b' f'.
Proof. apply calls_ok, Forall_forall. intros c _. apply call_meaning. Qed.

(** ** Names without placeholders *)

Definition related_clean (r : Related) : Prop :=
  clean (r_column r) /\ clean (r_pk r) /\ clean (r_table r) /\ clean (r_target r).

Fixpoint names_clean (c : Cmd) : Prop :=
  let all := fix all (cs : list Cmd) : Prop :=
    match cs with [] => True | c :: cs' => names_clean c /\ all cs' end in
  match c with
  | Where col _ _ | And col _ _ | Or col _ _ | WhereIsNull col | WhereIsNotNull col | AndIsNull col | OrIsNull col
  | WhereIn col _ | AndIn col _ | WhereBetween col _ _ | AndBetween col _ _ | OrderBy col _ => clean col
  | WhereRelated r _ _ | AndRelated r _ _ | OrRelated r _ _ | OrderByRelated r _ => related_clean r
  | WhereGroup cs | AndGroup cs | OrGroup cs => all cs
  | Fetch m _ => clean m
  | Limit _ | Offset _ => True
  end.

Fixpoint all_clean (cs : list Cmd) : Prop :=
  match cs with [] => True | c :: cs' => names_clean c /\ all_clean cs' end.

(** The reflected strings of an entity have no placeholders. *)
Record entity_clean : Prop := {
  ec_select : clean (select_list entity);
  ec_alias : clean (select_list_alias entity (bs "nb_root"));
  ec_to_one : Forall (fun m => clean (member_name m) /\ clean (join_column m) /\ clean (target_table m) /\
    clean (target_pk m) /\ forall a p, clean a -> clean p -> clean (target_columns m a p)) (to_one entity)
}.

(** As many placeholders as parameters, all of them in the WHERE clause. *)
Record well_formed (b : Builder) : Prop := {
  wf_where : marks (sql_where_ b) = length (params_ b);
  wf_order : clean (sql_order_ b);
  wf_table : clean (table_name_ b)
}.

Lemma marks_bs_op op : marks (get_op_symbol op) = 0%nat.
Proof. by destruct op. Qed.

Lemma marks_placeholders n acc : marks (placeholders_loop n acc) = (n + marks acc)%nat.
Proof.
  revert acc. induction n as [|n IH]; intros acc; cbn [placeholders_loop]; [lia|]. rewrite IH, marks_app.
  case_bool_decide; rewrite ?marks_app; change (marks (bs "?")) with 1%nat; change (marks (bs ", ")) with 0%nat; lia.
Qed.

Ltac marks_solve :=
  unfold clean in *; rewrite ?marks_app, ?marks_bs_op, ?marks_placeholders;
  repeat match goal with |- context [marks (bs ?s)] =>
    let v := eval vm_compute in (marks (bs s)) in change (marks (bs s)) with v end;
  change (marks []) with 0%nat; cbn [length]; lia.

Lemma wf_append cond ps conn b : marks cond = length ps -> marks conn = 0%nat -> well_formed b ->
  well_formed (append_condition cond ps conn b).
Proof.
  intros Hc Hk [W O T]. split; [|done..].
  cbn [append_condition with_where sql_where_ params_]. rewrite length_app. case_bool_decide as E.
  - rewrite E in W. change (marks []) with 0%nat in W. rewrite <- W. marks_solve.
  - marks_solve.
Qed.

Lemma wf_clear b : well_formed b -> well_formed (clear_where b).
Proof. by intros [W O T]. Qed.

Lemma wf_builder_new t : clean t -> well_formed (builder_new t).
Proof. done. Qed.

Lemma wf_compare col op v conn b : clean col -> marks conn = 0%nat -> well_formed b ->
  well_formed (append_condition (compare_text col op) [v] conn b).
Proof. intros Hc Hk W. apply wf_append; [|done..]. unfold compare_text. marks_solve. Qed.

Lemma wf_related r op v conn b : related_clean r -> marks conn = 0%nat -> well_formed b ->
  well_formed (append_condition (related_text r op) [v] conn b).
Proof. intros (? & ? & ? & ?) Hk W. apply wf_append; [|done..]. unfold related_text. marks_solve. Qed.

Lemma wf_in col vs conn b : clean col -> marks conn = 0%nat -> well_formed b -> well_formed (append_in col vs conn b).
Proof.
  intros Hc Hk W. destruct vs as [|v vs]; apply wf_append; try done. unfold placeholders_for. marks_solve.
Qed.

Lemma wf_null col s conn b : clean col -> clean s -> marks conn = 0%nat -> well_formed b ->
  well_formed (append_condition (col ++ s) [] conn b).
Proof. intros ? ? ? ?. apply wf_append; [|done..]. marks_solve. Qed.

Lemma wf_between col lo hi conn b : clean col -> marks conn = 0%nat -> well_formed b ->
  well_formed (append_condition (between_text col) [lo; hi] conn b).
Proof. intros ? ? ?. apply wf_append; [|done..]. unfold between_text. marks_solve. Qed.

Lemma wf_order_text o b : clean o -> well_formed b -> well_formed (with_order o b).
Proof. by intros ? [W O T]. Qed.

Lemma wf_group g fg conn b b' : rep g fg -> well_formed g -> marks conn = 0%nat -> well_formed b ->
  append_group g conn b = inr b' -> well_formed b'.
Proof.
  intros Rg Wg Hk Wb E. unfold append_group in E. case_bool_decide as Ne; [done|]. injection E as <-.
  apply wf_append; [|done..]. rewrite <- (wf_where g Wg). destruct Rg as [Eg _].
  destruct fg as [|x fg]; [by rewrite Eg in Ne|]. cbv iota in Eg. rewrite Eg.
  change (marks (bs "(" ++ formula_text (x :: fg) ++ bs ")") = marks (bs " WHERE " ++ formula_text (x :: fg))).
  marks_solve.
Qed.

Definition call_wf (c : Cmd) : Prop := forall b f b', names_clean c -> rep b f -> well_formed b ->
  call entity c b = inr b' -> well_formed b'.

Lemma calls_wf cs : Forall call_wf cs -> forall b f b', all_clean cs -> rep b f -> well_formed b ->
  calls entity cs b = inr b' -> well_formed b'.
Proof.
  induction 1 as [|c cs Hc Hcs IH]; intros b f b' Cl Hr W E; cbn in E; [by simplify_eq|]. destruct Cl as [Cc Cl].
  destruct (call entity c b) as [e|b1] eqn:E1; [done|]. cbn in E.
  destruct (call_meaning c b f b1 Hr E1) as (f1 & _ & R1). exact (IH b1 f1 b' Cl R1 (Hc b f b1 Cc Hr W E1) E).
Qed.

#[local] Hint Extern 1 (clean (bs _)) => reflexivity : nova.
#[local] Hint Resolve wf_compare wf_related wf_in wf_between wf_null wf_clear : nova.

Lemma call_well_formed c : call_wf c.
Proof.
  induction c as [c IH] using Cmd_ind'. intros b f b' Cl Hr W E.
  assert (G : forall cs conn b0, (c = WhereGroup cs \/ c = AndGroup cs \/ c = OrGroup cs) -> all_clean cs ->
    well_formed b0 -> marks conn = 0%nat ->
    result_bind (calls entity cs (builder_new (table_name_ b))) (fun g => append_group g conn b0) = inr b' -> well_formed b').
  { intros cs conn b0 Hc Cs W0 Hk Eg.
    destruct (calls entity cs (builder_new (table_name_ b))) as [e|g] eqn:Ec; [done|]. cbn in Eg.
    destruct (calls_meaning cs _ [] g (rep_new _) Ec) as (fg & _ & Rg).
    eapply wf_group; [exact Rg| | |exact W0|exact Eg]; [|done].
    eapply (calls_wf cs (IH cs Hc)); [exact Cs|apply rep_new| |exact Ec]. apply wf_builder_new, W. }
  assert (Oc : forall o asc, clean o -> clean ((if bool_decide (sql_order_ b = []) then bs " ORDER BY " else sql_order_ b ++ bs ", ") ++ o ++
    (if asc : bool then bs " ASC" else bs " DESC"))).
  { intros o asc Ho. pose proof (wf_order b W). apply clean_app; [case_bool_decide; marks_solve|].
    apply clean_app; [done|]. by destruct asc. }
  destruct c; cbn in Cl, E; try (injection E as <-).
  all: try (unfold where_, where_related, and_related, where_is_null, where_is_not_null, and_is_null, or_is_null,
    where_in, and_in, where_between, and_between; eauto 4 with nova; fail).
  all: try (by destruct W).
  - unfold and_, where_. destruct (bool_decide (sql_where_ b = [])); eauto 4 with nova.
  - unfold or_, where_. destruct (bool_decide (sql_where_ b = [])); eauto 4 with nova.
  - unfold or_related, where_related, and_related. destruct (bool_decide (sql_where_ b = [])); eauto 4 with nova.
  - by eapply (G calls0 (bs "AND") (clear_where b)); [auto|exact Cl|apply wf_clear| |exact E].
  - by eapply (G calls0 (bs "AND") b); [auto|exact Cl| | |exact E].
  - by eapply (G calls0 (bs "OR") b); [auto|exact Cl| | |exact E].
  - unfold order_by, append_order_by_column in E. destruct (bool_decide (col ∈ persisted entity)); [|done].
    injection E as <-. by apply wf_order_text; [apply Oc|].
  - destruct Cl as (? & ? & ? & ?). apply wf_order_text; [|done]. apply Oc. marks_solve.
Qed.

(** ** Statements *)

Lemma clean_pagination d l o : clean (compile_pagination d l o).
Proof.
  unfold compile_pagination. apply clean_app; case_match; to_prop; try done;
    (apply clean_app; [done|apply clean_to_dec; lia]).
Qed.

Lemma joins_clean (b : Builder) : entity_clean ->
  clean (fst (append_joined_to_one_sql entity b (select_list_alias entity (bs "nb_root")))) /\
  clean (snd (append_joined_to_one_sql entity b (select_list_alias entity (bs "nb_root")))).
Proof.
  intros [_ Ea Et]. unfold append_joined_to_one_sql.
  assert (G : forall acc, clean (fst acc) -> clean (snd acc) ->
    clean (fst (foldl (join_member b) acc (to_one entity))) /\ clean (snd (foldl (join_member b) acc (to_one entity)))).
  { induction Et as [|m ms (H1 & H2 & H3 & H4 & H5) Et IH]; intros acc A1 A2; [done|]. cbn [foldl]. apply IH;
      unfold join_member; case_bool_decide; try done; cbn [fst snd].
    - assert (clean (target_columns m (join_fetch_alias (member_name m)) (join_fetch_prefix (member_name m)))).
      { apply H5; unfold join_fetch_alias, join_fetch_prefix; marks_solve. }
      marks_solve.
    - unfold join_fetch_alias. marks_solve. }
  apply G; [exact Ea|done].
Qed.

Lemma list_sql_marks d (b : Builder) : entity_clean -> well_formed b -> marks (build_list_sql entity d b) = length (params_ b).
Proof.
  intros En [W O T]. pose proof (clean_pagination d (limit_val_ b) (offset_val_ b)). pose proof (ec_select En).
  pose proof (joins_clean b En) as J. unfold build_list_sql.
  case_bool_decide; [marks_solve|].
  destruct (append_joined_to_one_sql entity b _) as [cols joins]. cbn in J. destruct J. marks_solve.
Qed.

(** The statements a builder can send: [list], [single], [count], [exists] and a
    projection on a select list. *)
Inductive Statement := SList | SSingle | SCount | SExists | SProject (columns : bytes).

Definition statement_query (d : SqlDialect) (st : Statement) (b : Builder) : bytes * list V :=
  match st with
  | SList => list_query entity d b
  | SSingle => single_query entity d b
  | SCount => count_query d b
  | SExists => exists_query d b
  | SProject columns => project_query d columns b
  end.

(** The text before the placeholders are converted. *)
Definition statement_text (d : SqlDialect) (st : Statement) (b : Builder) : bytes :=
  match st with
  | SList => build_list_sql entity d b
  | SSingle => build_list_sql entity d (limit 1 b)
  | SCount => bs "SELECT COUNT(1) FROM " ++ table_name_ b ++ sql_where_ b
  | SExists => bs "SELECT 1 FROM " ++ table_name_ b ++ sql_where_ b ++ compile_pagination d 1 (-1)
  | SProject columns => bs "SELECT " ++ columns ++ bs " FROM " ++ table_name_ b ++ sql_where_ b ++ sql_order_ b ++
      compile_pagination d (limit_val_ b) (offset_val_ b)
  end.

Definition statement_clean (st : Statement) : Prop := match st with SProject columns => clean columns | _ => True end.

Lemma statement_converts d st b : statement_query d st b = (convert_placeholders d (statement_text d st b), params_ b).
Proof. by destruct st. Qed.

Lemma statement_marks d st b : entity_clean -> statement_clean st -> well_formed b ->
  marks (statement_text d st b) = length (params_ b).
Proof.
  intros En Cs W. destruct st as [| | | |columns]; cbn [statement_text].
  - by apply list_sql_marks.
  - rewrite (list_sql_marks d (limit 1 b) En); [done|]. destruct W. by split.
  - destruct W. marks_solve.
  - destruct W. pose proof (clean_pagination d 1 (-1)). marks_solve.
  - destruct W. pose proof (clean_pagination d (limit_val_ b) (offset_val_ b)). cbn in Cs. marks_solve.
Qed.

(** [C18] However the predicates of a query were put together from names without a
    placeholder character: its WHERE text is the printing of one formula and its
    parameters are the values of that formula in order.  Each of the statements it
    is used in, to list, to get one, to count, to test existence and to project on
    a select list without placeholders, has exactly these parameters and one
    placeholder for each; and for PostgreSQL the placeholders become [$1], [$2], ...
    in that order, with the rest of the text unchanged. *)
Theorem built_query_well_formed cs table b :
  entity_clean -> clean table -> all_clean cs -> calls entity cs (builder_new table) = inr b ->
  exists f, meanings cs [] = Some f /\
    sql_where_ b = (match f with [] => [] | _ => bs " WHERE " ++ formula_text f end) /\
    forall st, statement_clean st ->
      (forall d, snd (statement_query d st b) = values f) /\
      marks (fst (statement_query SqliteDialect st b)) = length (values f) /\
      exists pieces, fst (statement_query PostgresDialect st b) = interleave 1 pieces /\
        length pieces = S (length (values f)) /\ join_with (bs "?") pieces = statement_text PostgresDialect st b.
Proof.
  intros En Ct Cc E. destruct (calls_meaning cs _ [] b (rep_new _) E) as (f & M & R1 & R2).
  assert (W : well_formed b).
  { eapply (calls_wf cs); [apply Forall_forall; intros c _; apply call_well_formed|exact Cc|apply rep_new| |exact E].
    by apply wf_builder_new. }
  exists f. split; [exact M|]. split; [exact R1|]. intros st Cs.
  split; [intros d; by rewrite statement_converts|]. rewrite !statement_converts, <- R2. cbn [fst].
  pose proof (statement_marks SqliteDialect st b En Cs W). pose proof (statement_marks PostgresDialect st b En Cs W).
  split; [done|]. exists (split_on "?"%char (statement_text PostgresDialect st b)).
  split; [apply number_placeholders_spec|]. split; [rewrite split_marks; congruence|].
  apply (join_split "?"%char).
Qed.

End Formula.
End Formula.

(** ** Pages *)

Lemma total_pages_correct {E} (p : @Page E) : 0 < size p -> 0 <= total_elements p ->
  (total_pages p - 1) * size p < total_elements p <= total_pages p * size p.
Proof.
  intros Hs Ht. unfold total_pages. rewrite (proj2 (Z.eqb_neq _ _)) by lia.
  rewrite Z.quot_div_nonneg by lia.
  pose proof (Z.div_mod (total_elements p + size p - 1) (size p) ltac:(lia)).
  pose proof (Z.mod_pos_bound (total_elements p + size p - 1) (size p) ltac:(lia)). nia.
Qed.

(** There is a next page exactly when elements remain after this one. *)
Lemma has_next_correct {E} (p : @Page E) : 0 < size p -> 0 <= total_elements p -> 0 <= page p ->
  has_next p = true <-> (page p + 1) * size p < total_elements p.
Proof.
  intros Hs Ht Hp. pose proof (total_pages_correct p Hs Ht). unfold has_next. rewrite Z.ltb_lt. nia.
Qed.

(** ** Witnesses and what the text gets wrong *)

Module QueryWitness.
Import Formula.

Definition user : Entity :=
  mkEntity (bs "id, name") (fun a => a ++ bs ".id, " ++ a ++ bs ".name") [bs "id"; bs "name"]
    [mkToOne (bs "city") (bs "city_id") (bs "cities") (bs "id") (fun a p => a ++ bs ".id AS " ++ p ++ bs "id")].

Definition example_calls : list (@Cmd Z) :=
  [Where (bs "age") GreaterThan 18;
   AndGroup [Where (bs "city") Equal 1; Or (bs "city") Equal 2];
   AndIn (bs "id") [7; 8; 9]; OrderBy (bs "name") true; Fetch (bs "city") false; Limit 10].

Lemma built_query_well_formed_witness :
  exists b, calls user example_calls (builder_new (bs "users")) = inr b /\
    snd (list_query user PostgresDialect b) = [18; 1; 2; 7; 8; 9] /\
    snd (count_query PostgresDialect b) = [18; 1; 2; 7; 8; 9] /\
    sql_where_ b = bs " WHERE age > ? AND (city = ? OR city = ?) AND id IN (?, ?, ?)".
Proof.
  destruct (calls user example_calls (builder_new (bs "users"))) as [e|b] eqn:E; [vm_compute in E; discriminate|].
  exists b. split; [reflexivity|].
  destruct (built_query_well_formed user example_calls (bs "users") b) as (f & M & W & P).
  - split; [reflexivity|reflexivity|]. constructor; [|constructor]. do 4 (split; [reflexivity|]).
    intros a p Ha Hp. apply clean_app; [exact Ha|]. apply clean_app; [reflexivity|]. by apply clean_app.
  - reflexivity.
  - cbn. repeat split.
  - exact E.
  - vm_compute in M. injection M as <-. split; [exact (proj1 (P SList I) PostgresDialect)|]. split; [exact (proj1 (P SCount I) PostgresDialect)|].
    rewrite W. reflexivity.
Defined.

(** A question mark inside a string literal is numbered too, and so are the
    parameters after it. *)
Lemma quoted_question_mark_numbered :
  convert_placeholders PostgresDialect (bs "WHERE q = 'why?' AND id = ?") = bs "WHERE q = 'why$1' AND id = $2".
Proof. reflexivity. Qed.

(** An offset without a limit gives [OFFSET] alone, which SQLite's grammar does
    not have; a limit of 0 gives no limit. *)
Lemma offset_without_limit :
  compile_pagination SqliteDialect (-1) 20 = bs " OFFSET 20" /\ compile_pagination SqliteDialect 0 (-1) = [].
Proof. split; reflexivity. Qed.

(** The offset of a page is computed in [int]. *)
Lemma page_offset_overflows :
  page_builder (V := Z) user (pageable_of 120000000 20) (builder_new (bs "users")) = None.
Proof. reflexivity. Qed.

End QueryWitness.
