(* ===== verification/Jwt.v ===== *)
(** * JSON web tokens: [middleware/jwt_middleware.*]

    The issuer of compact tokens, their verification, the authentication
    middleware and the authorizer of WebSocket handshakes.  OpenSSL, simdjson,
    the clock and the order of an [unordered_map] are parameters; what a call
    can end with besides its [std::expected] error is [Thrown].  Instants are
    nanoseconds of the system clock, with arithmetic checked to 64 bits. *)

From S2P Require Import Prelude CxxString HttpMessage Middleware WsHandshake.
Import Middleware.
Open Scope result_scope.

Module Jwt.

Inductive JwtAlgorithm := HS256 | RS256.

#[export] Instance JwtAlgorithm_eq : EqDecision JwtAlgorithm.
Proof. solve_decision. Defined.

(** ** The libraries *)

(** [HMAC] is with SHA-256, [None] a null result.  A call of the digest
    interface returns the context it leaves, [None] for a result other than 1. *)
Class Openssl := {
  EVP_EncodeBlock : bytes -> bytes;
  EVP_DecodeBlock : bytes -> option bytes;
  HMAC : bytes -> bytes -> option bytes;
  BIO : Type;
  EVP_PKEY : Type;
  EVP_MD_CTX : Type;
  BIO_new_mem_buf : bytes -> option BIO;
  PEM_read_bio_PrivateKey : BIO -> option EVP_PKEY;
  PEM_read_bio_PUBKEY : BIO -> option EVP_PKEY;
  EVP_MD_CTX_new : option EVP_MD_CTX;
  EVP_DigestSignInit : EVP_PKEY -> EVP_MD_CTX -> option EVP_MD_CTX;
  EVP_DigestSignUpdate : bytes -> EVP_MD_CTX -> option EVP_MD_CTX;
  EVP_DigestSignSize : EVP_MD_CTX -> option Z;
  EVP_DigestSignFinal : Z -> EVP_MD_CTX -> option bytes;
  EVP_DigestVerifyInit : EVP_PKEY -> EVP_MD_CTX -> option EVP_MD_CTX;
  EVP_DigestVerifyUpdate : bytes -> EVP_MD_CTX -> option EVP_MD_CTX;
  EVP_DigestVerifyFinal : bytes -> EVP_MD_CTX -> Z
}.

(** The DOM of simdjson: [None] is any error code. *)
Class Simdjson := {
  element : Type;
  json_parse : bytes -> option element;
  get_string : element -> option bytes;
  get_int64 : element -> option Z;
  get_bool : element -> option bool;
  get_array : element -> option (list element);
  get_object : element -> option (list (bytes * element));
  at_key : bytes -> element -> option element
}.

(** The order in which an [unordered_map] is iterated. *)
Class HashOrder := { iterate : forall {A}, gmap bytes A -> list (bytes * A) }.

Class SystemClock (W : Type) := { system_clock_now : W -> Z }.

(** ** Errors *)

Inductive Failure :=
| Unexpected (error : bytes)
| Thrown (e : Exn).

Definition may_throw {A} (r : result Exn A) : result Failure A :=
  match r with inl e => inl (Thrown e) | inr a => inr a end.

(** The [std::expected] of a call as a value: an exception still leaves. *)
Definition attempt {A} (r : result Failure A) : result Failure (option A) :=
  match r with
  | inl (Thrown e) => inl (Thrown e)
  | inl (Unexpected _) => inr None
  | inr a => inr (Some a)
  end.

(** ** Claims *)

Definition no_claims : Context.JwtClaims := Context.mkJwtClaims ∅ ∅ ∅ ∅.

Definition string (name : bytes) (c : Context.JwtClaims) : option bytes := Context.string_claims c !! name.
Definition integer (name : bytes) (c : Context.JwtClaims) : option Z := Context.integer_claims c !! name.
Definition boolean (name : bytes) (c : Context.JwtClaims) : option bool := Context.bool_claims c !! name.
Definition string_array (name : bytes) (c : Context.JwtClaims) : option (list bytes) :=
  Context.string_array_claims c !! name.

Definition set_string_claim (n v : bytes) (c : Context.JwtClaims) : Context.JwtClaims :=
  Context.mkJwtClaims (<[n := v]> (Context.string_claims c)) (Context.integer_claims c)
    (Context.bool_claims c) (Context.string_array_claims c).
Definition set_integer_claim (n : bytes) (v : Z) (c : Context.JwtClaims) : Context.JwtClaims :=
  Context.mkJwtClaims (Context.string_claims c) (<[n := v]> (Context.integer_claims c))
    (Context.bool_claims c) (Context.string_array_claims c).
Definition set_bool_claim (n : bytes) (v : bool) (c : Context.JwtClaims) : Context.JwtClaims :=
  Context.mkJwtClaims (Context.string_claims c) (Context.integer_claims c)
    (<[n := v]> (Context.bool_claims c)) (Context.string_array_claims c).
Definition set_array_claim (n : bytes) (v : list bytes) (c : Context.JwtClaims) : Context.JwtClaims :=
  Context.mkJwtClaims (Context.string_claims c) (Context.integer_claims c)
    (Context.bool_claims c) (<[n := v]> (Context.string_array_claims c)).

(** ** Time *)

Definition unix_seconds (t : Z) : Z := Z.quot t nanos_per_second.

(** A number of seconds as nanoseconds. *)
Definition from_unix_seconds (seconds : Z) : result Exn Z := i64 (seconds * nanos_per_second).

Definition time_add (t seconds : Z) : result Exn Z :=
  let! d := from_unix_seconds seconds in i64 (t + d).
Definition time_sub (t seconds : Z) : result Exn Z :=
  let! d := from_unix_seconds seconds in i64 (t - d).

(** ** Texts *)

Definition quote : byte := byte_of_Z 34.
Definition backslash : byte := byte_of_Z 92.

(** [std::format] of a number below 0x20 as [{:04x}]. *)
Definition hex4 (z : Z) : bytes := bs "00" ++ [digit_char (Z.shiftr z 4); digit_char (Z.land z 15)].

Definition json_escape_char (ch : byte) : bytes :=
  let v := byte_val ch in
  if v =? 34 then [backslash; quote]
  else if v =? 92 then [backslash; backslash]
  else if v =? 8 then backslash :: bs "b"
  else if v =? 12 then backslash :: bs "f"
  else if v =? 10 then backslash :: bs "n"
  else if v =? 13 then backslash :: bs "r"
  else if v =? 9 then backslash :: bs "t"
  else if v <? 32 then backslash :: bs "u" ++ hex4 v
  else [ch].

Definition json_escape (text : bytes) : bytes :=
  for_each (fun escaped ch => escaped ++ json_escape_char ch) text [].

Definition json_string (text : bytes) : bytes := [quote] ++ json_escape text ++ [quote].

(** The loops with a [first] flag: the separator goes before all but the first. *)
Definition separated (sep : bytes) (render : bytes -> bytes) (values : list bytes) : bytes :=
  fst (for_each (fun '(out, first) v =>
         ((if first : bool then out else out ++ sep) ++ render v, false)) values ([], true)).

Definition json_string_array (values : list bytes) : bytes :=
  bs "[" ++ separated (bs ",") json_string values ++ bs "]".

Definition space_join (values : list bytes) : bytes := separated (bs " ") (fun v => v) values.

Definition add_json_field (name value : bytes) '((json, first) : bytes * bool) : bytes * bool :=
  ((if first then json else json ++ bs ",") ++ json_string name ++ bs ":" ++ value, false).

(** [split_space_separated], which reads white space and the text after it in turn. *)
Fixpoint split_fuel (sep : byte -> bool) (fuel : nat) (text : bytes) : list bytes :=
  match fuel with
  | O => []
  | S fuel =>
      match text with
      | [] => []
      | _ =>
          let text := drop_while sep text in
          let word := take_while (fun c => negb (sep c)) text in
          let rest := drop_while (fun c => negb (sep c)) text in
          (if len word =? 0 then [] else [word]) ++ split_fuel sep fuel rest
      end
  end.

Definition split_space_separated (text : bytes) : list bytes := split_fuel isspace (S (length text)) text.

Definition contains (values : list bytes) (needle : bytes) : bool :=
  existsb (fun value => bool_decide (value = needle)) values.

(** ** The codec *)

Section Jwt.
Context `{Openssl} `{Simdjson} `{HashOrder}.

Definition to_url (ch : byte) : byte :=
  let ch := if bool_decide (ch = "+"%char) then "-"%char else ch in
  if bool_decide (ch = "/"%char) then "_"%char else ch.

Definition is_padding (c : byte) : bool := bool_decide (c = "="%char).

(** [pop_back] while the last character is [=]. *)
Definition strip_padding (s : bytes) : bytes := rev (drop_while is_padding (rev s)).

Definition base64url_encode (data : bytes) : bytes :=
  strip_padding (map to_url (EVP_EncodeBlock data)).

Definition from_url (ch : byte) : option byte :=
  if bool_decide (ch = "-"%char) then Some "+"%char
  else if bool_decide (ch = "_"%char) then Some "/"%char
  else if isalnum ch || is_padding ch then Some ch
  else None.

(** The loop pads to a multiple of four. *)
Fixpoint pad_fuel (fuel : nat) (s : bytes) : bytes :=
  match fuel with
  | O => s
  | S fuel => if len s mod 4 =? 0 then s else pad_fuel fuel (s ++ bs "=")
  end.

Definition pad (s : bytes) : bytes := pad_fuel 3 s.

(** [resize] to the decoded length less the number of [=]: the subtraction of
    [size_t] wraps around, and no string is that long. *)
Definition base64url_decode (input : bytes) : result Failure bytes :=
  match mapM from_url input with
  | None => inl (Unexpected (bs "invalid_base64url"))
  | Some b64 =>
      let b64 := pad b64 in
      match EVP_DecodeBlock b64 with
      | None => inl (Unexpected (bs "invalid_base64"))
      | Some decoded =>
          let padding := len (List.filter is_padding b64) in
          if len decoded <? padding then inl (Thrown LengthError)
          else inr (take (Z.to_nat (len decoded - padding)) decoded)
      end
  end.

Record ParsedToken := mkParsed {
  header_json : bytes;
  payload_json : bytes;
  signature : bytes;
  signing_input : bytes
}.

Definition malformed {A} : result Failure A := inl (Unexpected (bs "malformed_token")).

Definition parse_compact_jwt (token : bytes) : result Failure ParsedToken :=
  match find_char "."%char token with
  | None => malformed
  | Some first_dot =>
      match find_char_from "."%char (first_dot + 1) token with
      | None => malformed
      | Some second_dot =>
          match find_char_from "."%char (second_dot + 1) token with
          | Some _ => malformed
          | None =>
              let! header := attempt (base64url_decode (take first_dot token)) in
              let! payload := attempt (base64url_decode
                (take (second_dot - first_dot - 1) (drop (first_dot + 1) token))) in
              let! signature := attempt (base64url_decode (drop (second_dot + 1) token)) in
              match header, payload, signature with
              | Some header, Some payload, Some signature =>
                  inr (mkParsed header payload signature (take second_dot token))
              | _, _, _ => malformed
              end
          end
      end
  end.

(** ** Reading a document *)

Definition at_string (key : bytes) (obj : element) : option bytes := at_key key obj ≫= get_string.

Definition get_json_string (obj : element) (key : bytes) : option bytes := at_string key obj.
Definition get_json_int (obj : element) (key : bytes) : option Z := at_key key obj ≫= get_int64.

Definition read_string_or_array (obj : element) (key : bytes) : list bytes :=
  match at_string key obj with
  | Some single => [single]
  | None =>
      match at_key key obj ≫= get_array with
      | Some array => omap get_string array
      | None => []
      end
  end.

Definition read_scopes (payload : element) (claim : bytes) : list bytes :=
  match at_string claim payload with
  | Some scope_text => split_space_separated scope_text
  | None => read_string_or_array payload claim
  end.

Definition read_claim (claims : Context.JwtClaims) '((name, value) : bytes * element) : Context.JwtClaims :=
  match get_string value with
  | Some s => set_string_claim name s claims
  | None =>
  match get_int64 value with
  | Some z => set_integer_claim name z claims
  | None =>
  match get_bool value with
  | Some b => set_bool_claim name b claims
  | None =>
  match get_array value with
  | Some array =>
      let strings := omap get_string array in
      if len strings =? 0 then claims else set_array_claim name strings claims
  | None => claims
  end end end end.

Definition read_all_claims (payload : element) (claims : Context.JwtClaims) : Context.JwtClaims :=
  match get_object payload with
  | None => claims
  | Some object => for_each read_claim object claims
  end.

(** ** Signatures *)

(** The bytes are combined with [|] and [^] whatever they are. *)
Definition constant_time_equal (a b : bytes) : bool :=
  if negb (len a =? len b) then false
  else for_each (fun diff '(x, y) => Z.lor diff (Z.lxor (byte_val x) (byte_val y))) (zip a b) 0 =? 0.

Definition unexpected {A} (e : bytes) : result Failure A := inl (Unexpected e).

Definition expect {A} (e : bytes) (r : option A) : result Failure A :=
  match r with Some a => inr a | None => unexpected e end.

Definition verify_hs256 (token : ParsedToken) (secret : bytes) : result Failure () :=
  if len secret =? 0 then unexpected (bs "missing_hmac_secret")
  else
    let! expected := expect (bs "signature_error") (HMAC secret (signing_input token)) in
    if negb (constant_time_equal (signature token) expected) then unexpected (bs "invalid_signature")
    else inr ().

Definition verify_rs256 (token : ParsedToken) (public_key_pem : bytes) : result Failure () :=
  if len public_key_pem =? 0 then unexpected (bs "missing_rsa_key")
  else
    let! bio := expect (bs "signature_error") (BIO_new_mem_buf public_key_pem) in
    let! public_key := expect (bs "invalid_rsa_key") (PEM_read_bio_PUBKEY bio) in
    let! ctx := expect (bs "signature_error") EVP_MD_CTX_new in
    let! ctx := expect (bs "signature_error") (EVP_DigestVerifyInit public_key ctx) in
    let! ctx := expect (bs "signature_error") (EVP_DigestVerifyUpdate (signing_input token) ctx) in
    if negb (EVP_DigestVerifyFinal (signature token) ctx =? 1) then unexpected (bs "invalid_signature")
    else inr ().

Definition sign_hs256 (input secret : bytes) : result Failure bytes :=
  if len secret =? 0 then unexpected (bs "missing_hmac_secret")
  else expect (bs "signature_error") (HMAC secret input).

Definition sign_rs256 (input private_key_pem : bytes) : result Failure bytes :=
  if len private_key_pem =? 0 then unexpected (bs "missing_rsa_private_key")
  else
    let! bio := expect (bs "signature_error") (BIO_new_mem_buf private_key_pem) in
    let! private_key := expect (bs "invalid_rsa_private_key") (PEM_read_bio_PrivateKey bio) in
    let! ctx := expect (bs "signature_error") EVP_MD_CTX_new in
    let! ctx := expect (bs "signature_error") (EVP_DigestSignInit private_key ctx) in
    let! ctx := expect (bs "signature_error") (EVP_DigestSignUpdate input ctx) in
    let! signature_len := expect (bs "signature_error") (EVP_DigestSignSize ctx) in
    expect (bs "signature_error") (EVP_DigestSignFinal signature_len ctx).

(** ** Verification *)

Record Config := mkConfig {
  allowed_algorithms : list JwtAlgorithm;
  hmac_secret : bytes;
  rsa_public_key_pem : bytes;
  allowlist_paths : list bytes;
  allow_options_requests : bool;
  authorization_header : bytes;
  bearer_prefix : bytes;
  jwt_cookie_name : option bytes;
  websocket_cookie_name : option bytes;
  required_issuer : option bytes;
  required_audiences : list bytes;
  required_scopes : list bytes;
  required_claims : gmap bytes bytes;
  require_expiration : bool;
  validate_not_before : bool;
  validate_issued_at : bool;
  clock_skew : Z;
  scope_claim : bytes;
  unauthorized_status : Z;
  unauthorized_body : bytes
}.

Definition default_config : Config := {|
  allowed_algorithms := [HS256; RS256];
  hmac_secret := [];
  rsa_public_key_pem := [];
  allowlist_paths := [];
  allow_options_requests := true;
  authorization_header := bs "authorization";
  bearer_prefix := bs "Bearer ";
  jwt_cookie_name := None;
  websocket_cookie_name := None;
  required_issuer := None;
  required_audiences := [];
  required_scopes := [];
  required_claims := ∅;
  require_expiration := true;
  validate_not_before := true;
  validate_issued_at := true;
  clock_skew := 60;
  scope_claim := bs "scope";
  unauthorized_status := 401;
  unauthorized_body := js "{'error':'Unauthorized','message':'Invalid or missing bearer token'}"
|}.

Definition algorithm_name (a : JwtAlgorithm) : bytes :=
  match a with HS256 => bs "HS256" | RS256 => bs "RS256" end.

Definition algorithm_allowed (cfg : Config) (alg : bytes) : bool :=
  existsb (fun allowed =>
    match allowed with
    | HS256 => bool_decide (alg = bs "HS256")
    | RS256 => bool_decide (alg = bs "RS256")
    end) (allowed_algorithms cfg).

Definition verify_signature (algorithm : bytes) (parsed : ParsedToken) (cfg : Config) : result Failure () :=
  if bool_decide (algorithm = bs "HS256") then verify_hs256 parsed (hmac_secret cfg)
  else if bool_decide (algorithm = bs "RS256") then verify_rs256 parsed (rsa_public_key_pem cfg)
  else inr ().

(** The expiry, with the instant it is put at. *)
Definition check_expiration (now : Z) (cfg : Config) (payload : element) : result Failure (option Z) :=
  match get_json_int payload (bs "exp") with
  | Some exp =>
      let! expires_at := may_throw (from_unix_seconds exp) in
      let! limit := may_throw (time_sub now (clock_skew cfg)) in
      if expires_at <=? limit then unexpected (bs "token_expired") else inr (Some expires_at)
  | None => if require_expiration cfg then unexpected (bs "missing_exp") else inr None
  end.

(** The instant of a claim that may not be in the future. *)
Definition check_past (validate : bool) (claim error : bytes) (now : Z) (cfg : Config)
    (payload : element) : result Failure (option Z) :=
  if validate then
    match get_json_int payload claim with
    | Some seconds =>
        let! instant := may_throw (from_unix_seconds seconds) in
        let! limit := may_throw (time_add now (clock_skew cfg)) in
        if limit <? instant then unexpected error else inr (Some instant)
    | None => inr None
    end
  else inr None.

(** A loop that returns the error at the first value that fails. *)
Definition check_all {A} (ok : A -> bool) (error : bytes) (values : list A) : result Failure () :=
  if forallb ok values then inr () else unexpected error.

Record VerifiedPayload := mkVerified { algorithm : bytes; principal : Context.JwtPrincipal }.

Definition verify_token (now : Z) (token_text : bytes) (cfg : Config) : result Failure VerifiedPayload :=
  let! parsed := parse_compact_jwt token_text in
  let! header := expect (bs "invalid_header_json") (json_parse (header_json parsed)) in
  match get_json_string header (bs "alg") with
  | None => unexpected (bs "unsupported_algorithm")
  | Some alg =>
      if bool_decide (alg = bs "none") || negb (algorithm_allowed cfg alg) then
        unexpected (bs "unsupported_algorithm")
      else
        let! _ := verify_signature alg parsed cfg in
        let! payload := expect (bs "invalid_payload_json") (json_parse (payload_json parsed)) in
        let claims := read_all_claims payload no_claims in
        let subject := default [] (get_json_string payload (bs "sub")) in
        let issuer := default [] (get_json_string payload (bs "iss")) in
        let token_id := default [] (get_json_string payload (bs "jti")) in
        let audience := read_string_or_array payload (bs "aud") in
        let scopes := read_scopes payload (scope_claim cfg) in
        let! expires_at := check_expiration now cfg payload in
        let! not_before := check_past (validate_not_before cfg) (bs "nbf") (bs "token_not_yet_valid") now cfg payload in
        let! issued_at := check_past (validate_issued_at cfg) (bs "iat") (bs "token_issued_in_future") now cfg payload in
        let! _ := check_all (fun i => bool_decide (issuer = i)) (bs "issuer_mismatch")
                    (option_list (required_issuer cfg)) in
        let! _ := check_all (contains audience) (bs "audience_mismatch") (required_audiences cfg) in
        let! _ := check_all (contains scopes) (bs "missing_scope") (required_scopes cfg) in
        let! _ := check_all (fun '(claim, expected) => bool_decide (string claim claims = Some expected))
                    (bs "claim_mismatch") (iterate (required_claims cfg)) in
        inr (mkVerified alg
               (Context.mkJwtPrincipal subject issuer audience scopes token_id
                  expires_at not_before issued_at claims))
  end.

(** ** The issuer *)

Record JwtTokenBuilder := mkBuilder {
  subject_ : option bytes;
  issuer_ : option bytes;
  audience_ : list bytes;
  scopes_ : list bytes;
  token_id_ : option bytes;
  expires_at_ : option Z;
  not_before_ : option Z;
  issued_at_ : option Z;
  claims_ : Context.JwtClaims
}.

Definition new_token : JwtTokenBuilder := mkBuilder None None [] [] None None None None no_claims.

Definition subject (v : bytes) (b : JwtTokenBuilder) : JwtTokenBuilder :=
  mkBuilder (Some v) (issuer_ b) (audience_ b) (scopes_ b) (token_id_ b) (expires_at_ b) (not_before_ b) (issued_at_ b) (claims_ b).
Definition issuer (v : bytes) (b : JwtTokenBuilder) : JwtTokenBuilder :=
  mkBuilder (subject_ b) (Some v) (audience_ b) (scopes_ b) (token_id_ b) (expires_at_ b) (not_before_ b) (issued_at_ b) (claims_ b).
Definition audiences (v : list bytes) (b : JwtTokenBuilder) : JwtTokenBuilder :=
  mkBuilder (subject_ b) (issuer_ b) v (scopes_ b) (token_id_ b) (expires_at_ b) (not_before_ b) (issued_at_ b) (claims_ b).
Definition audience (v : bytes) (b : JwtTokenBuilder) : JwtTokenBuilder := audiences (audience_ b ++ [v]) b.
Definition scopes (v : list bytes) (b : JwtTokenBuilder) : JwtTokenBuilder :=
  mkBuilder (subject_ b) (issuer_ b) (audience_ b) v (token_id_ b) (expires_at_ b) (not_before_ b) (issued_at_ b) (claims_ b).
Definition scope (v : bytes) (b : JwtTokenBuilder) : JwtTokenBuilder := scopes (scopes_ b ++ [v]) b.
Definition token_id (v : bytes) (b : JwtTokenBuilder) : JwtTokenBuilder :=
  mkBuilder (subject_ b) (issuer_ b) (audience_ b) (scopes_ b) (Some v) (expires_at_ b) (not_before_ b) (issued_at_ b) (claims_ b).
Definition expires_at (v : Z) (b : JwtTokenBuilder) : JwtTokenBuilder :=
  mkBuilder (subject_ b) (issuer_ b) (audience_ b) (scopes_ b) (token_id_ b) (Some v) (not_before_ b) (issued_at_ b) (claims_ b).
Definition expires_in (now v : Z) (b : JwtTokenBuilder) : result Exn JwtTokenBuilder :=
  let! t := time_add now v in inr (expires_at t b).
Definition not_before (v : Z) (b : JwtTokenBuilder) : JwtTokenBuilder :=
  mkBuilder (subject_ b) (issuer_ b) (audience_ b) (scopes_ b) (token_id_ b) (expires_at_ b) (Some v) (issued_at_ b) (claims_ b).
Definition issued_at (v : Z) (b : JwtTokenBuilder) : JwtTokenBuilder :=
  mkBuilder (subject_ b) (issuer_ b) (audience_ b) (scopes_ b) (token_id_ b) (expires_at_ b) (not_before_ b) (Some v) (claims_ b).
Definition issued_now (now : Z) (b : JwtTokenBuilder) : JwtTokenBuilder := issued_at now b.
Definition on_claims (f : Context.JwtClaims -> Context.JwtClaims) (b : JwtTokenBuilder) : JwtTokenBuilder :=
  mkBuilder (subject_ b) (issuer_ b) (audience_ b) (scopes_ b) (token_id_ b) (expires_at_ b) (not_before_ b) (issued_at_ b) (f (claims_ b)).
Definition claim_string (n v : bytes) : JwtTokenBuilder -> JwtTokenBuilder := on_claims (set_string_claim n v).
(** [const char*]: null is the empty text. *)
Definition claim_cstring (n : bytes) (v : option bytes) : JwtTokenBuilder -> JwtTokenBuilder :=
  on_claims (set_string_claim n (default [] v)).
Definition claim_integer (n : bytes) (v : Z) : JwtTokenBuilder -> JwtTokenBuilder := on_claims (set_integer_claim n v).
Definition claim_bool (n : bytes) (v : bool) : JwtTokenBuilder -> JwtTokenBuilder := on_claims (set_bool_claim n v).
Definition claim_array (n : bytes) (v : list bytes) : JwtTokenBuilder -> JwtTokenBuilder := on_claims (set_array_claim n v).

Record IssuerConfig := mkIssuer {
  issue_algorithm : JwtAlgorithm;
  issue_secret : bytes;
  rsa_private_key_pem : bytes;
  key_id : bytes;
  type_ : bytes;
  issue_scope_claim : bytes;
  encode_scopes_as_array : bool;
  include_issued_at : bool;
  default_ttl : Z
}.

(** A field that is written when there is a value. *)
Definition add_some {A} (name : bytes) (render : A -> bytes) (v : option A) (s : bytes * bool) : bytes * bool :=
  match v with Some a => add_json_field name (render a) s | None => s end.

Definition audience_json (a : list bytes) : option bytes :=
  match a with
  | [] => None
  | [one] => Some (json_string one)
  | _ => Some (json_string_array a)
  end.

Definition scopes_json (cfg : IssuerConfig) (s : list bytes) : option bytes :=
  match s with
  | [] => None
  | _ => Some (if encode_scopes_as_array cfg then json_string_array s else json_string (space_join s))
  end.

Definition issued_instant (now : Z) (cfg : IssuerConfig) (token : JwtTokenBuilder) : option Z :=
  match issued_at_ token with
  | Some t => Some t
  | None => if include_issued_at cfg then Some now else None
  end.

Definition expiry_instant (now : Z) (cfg : IssuerConfig) (token : JwtTokenBuilder) : result Exn (option Z) :=
  match expires_at_ token with
  | Some t => inr (Some t)
  | None => if 0 <? default_ttl cfg then let! t := time_add now (default_ttl cfg) in inr (Some t) else inr None
  end.

Definition instant_json (t : Z) : bytes := to_dec_signed (unix_seconds t).
Definition bool_json (b : bool) : bytes := if b then bs "true" else bs "false".

(** One of the loops over a map of claims. *)
Definition add_claims {A} (render : A -> bytes) (m : gmap bytes A) (s : bytes * bool) : bytes * bool :=
  for_each (fun s '(name, value) => add_json_field name (render value) s) (iterate m) s.

Definition serialize_claims (now : Z) (token : JwtTokenBuilder) (cfg : IssuerConfig) : result Exn bytes :=
  let s := (bs "{", true) in
  let s := add_some (bs "sub") json_string (subject_ token) s in
  let s := add_some (bs "iss") json_string (issuer_ token) s in
  let s := add_some (bs "aud") (fun v => v) (audience_json (audience_ token)) s in
  let s := add_some (issue_scope_claim cfg) (fun v => v) (scopes_json cfg (scopes_ token)) s in
  let s := add_some (bs "jti") json_string (token_id_ token) s in
  let iat := issued_instant now cfg token in
  let! exp := expiry_instant now cfg token in
  let s := add_some (bs "exp") instant_json exp s in
  let s := add_some (bs "nbf") instant_json (not_before_ token) s in
  let s := add_some (bs "iat") instant_json iat s in
  let s := add_claims json_string (Context.string_claims (claims_ token)) s in
  let s := add_claims to_dec_signed (Context.integer_claims (claims_ token)) s in
  let s := add_claims bool_json (Context.bool_claims (claims_ token)) s in
  let s := add_claims json_string_array (Context.string_array_claims (claims_ token)) s in
  inr (fst s ++ bs "}").

Definition serialize_header (cfg : IssuerConfig) : bytes :=
  let s := (bs "{", true) in
  let s := add_json_field (bs "alg") (json_string (algorithm_name (issue_algorithm cfg))) s in
  let s := add_json_field (bs "typ") (json_string (type_ cfg)) s in
  let s := if len (key_id cfg) =? 0 then s else add_json_field (bs "kid") (json_string (key_id cfg)) s in
  fst s ++ bs "}".

Definition issue (now : Z) (cfg : IssuerConfig) (token : JwtTokenBuilder) : result Failure bytes :=
  let header := serialize_header cfg in
  let! payload := may_throw (serialize_claims now token cfg) in
  let signing_input := base64url_encode header ++ bs "." ++ base64url_encode payload in
  let! signature :=
    match issue_algorithm cfg with
    | HS256 => sign_hs256 signing_input (issue_secret cfg)
    | RS256 => sign_rs256 signing_input (rsa_private_key_pem cfg)
    end in
  inr (signing_input ++ bs "." ++ base64url_encode signature).

(** ** The middleware *)

Definition bearer_token (req : Request.t) (cfg : Config) : option bytes :=
  match Request.header (authorization_header cfg) req with
  | None => None
  | Some header =>
      if starts_with (bearer_prefix cfg) header then Some (drop (length (bearer_prefix cfg)) header) else None
  end.

Definition cookie_token (req : Request.t) (cookie_name : bytes) : option bytes :=
  Cookie.request_cookie req cookie_name.

(** The bearer token, or else the token of the cookie if one is configured. *)
Definition credential (cookie_name : option bytes) (req : Request.t) (cfg : Config) : option bytes :=
  match bearer_token req cfg with
  | Some token => Some token
  | None => cookie_name ≫= cookie_token req
  end.

Definition reject (cfg : Config) (res : Response.t) : Response.t :=
  Response.json (unauthorized_body cfg)
    (Response.header (bs "WWW-Authenticate") (js "Bearer error='invalid_token'")
      (Response.status (unauthorized_status cfg) res)).

Definition websocket_authorizer (now : Z) (cfg : Config) (req : Request.t) :
    result Exn HandshakeDecision :=
  let cookie_name := match websocket_cookie_name cfg with Some n => Some n | None => jwt_cookie_name cfg end in
  let refused := inr (Reject (unauthorized_status cfg) (unauthorized_body cfg)) in
  match credential cookie_name req cfg with
  | None => refused
  | Some token =>
      match verify_token now token cfg with
      | inl (Thrown e) => inl e
      | inl (Unexpected _) => refused
      | inr verified =>
          if len (Context.jwt_subject (principal verified)) =? 0 then refused
          else inr (Allow (Context.jwt_subject (principal verified)))
      end
  end.

Open Scope exchange_scope.

Definition handle {W} `{SystemClock W} (cfg : Config) : Middleware.t W := fun next =>
  do req <- get_request;
  if (allow_options_requests cfg && bool_decide (Request.method_ req = bs "OPTIONS"))
     || path_allowed (allowlist_paths cfg) (Request.path_ req) then next
  else
    match credential (jwt_cookie_name cfg) req cfg with
    | None => on_response (reject cfg)
    | Some token => fun x =>
        match verify_token (system_clock_now (world x)) token cfg with
        | inl (Thrown e) => throw e x
        | inl (Unexpected _) => on_response (reject cfg) x
        | inr verified => (on_context (Context.set_jwt (principal verified)) ;; next) x
        end
    end.

End Jwt.
End Jwt.
