(* ===== verification/JwtProps.v ===== *)
(** * Theorems about JSON web tokens

    [Admission]: what the verification of a token accepts, stated on the token
    itself, and that the middleware lets a request through exactly with such a
    token.  [Issuing]: a token of the issuer is accepted by a middleware that
    shares its keys, with the claims it was built from. *)

From S2P Require Import Prelude CxxString HttpMessage WebSocket Middleware WsHandshake Jwt.
Import Middleware Jwt.
#[global] Arguments valid_utf8 : simpl never.

(** An iteration visits every entry of the map once. *)
Class HashOrderLaws `{HashOrder} := {
  iterate_perm : forall {A} (m : gmap bytes A), iterate m ≡ₚ map_to_list m
}.

Lemma elem_of_iterate `{HashOrderLaws} {A} (m : gmap bytes A) n v : (n, v) ∈ iterate m <-> m !! n = Some v.
Proof. by rewrite iterate_perm, elem_of_map_to_list. Qed.

Module Admission.
Section Admission.
Context `{Openssl} `{Simdjson} `{HashOrderLaws}.

(** ** Decisions *)

(** A call decides [P]: it returns a value with [P], or an error when there is
    none, or stops at one of the two faults of the code. *)
Definition decides {A} (r : result Failure A) (P : A -> Prop) : Prop :=
  match r with
  | inr a => P a
  | inl (Unexpected _) => forall a, ~ P a
  | inl (Thrown e) => e = LengthError \/ e = Undefined
  end.

Definition functional {A} (P : A -> Prop) : Prop := forall a a', P a -> P a' -> a = a'.

Lemma decides_bind {A B} (m : result Failure A) (k : A -> result Failure B) P (R : B -> Prop) :
  decides m P -> (forall b, R b -> exists a, P a) -> (forall a, P a -> decides (k a) R) ->
  decides (result_bind m k) R.
Proof.
  intros Dm N Dk. destruct m as [[e|e]|a]; cbn in *; [|done|by apply Dk].
  intros b Rb. destruct (N b Rb) as [a Pa]. by apply (Dm a).
Qed.

Lemma decides_iff {A} (r : result Failure A) (P Q : A -> Prop) :
  (forall a, P a <-> Q a) -> decides r P -> decides r Q.
Proof. intros E. destruct r as [[e|e]|a]; cbn; [|done|apply E]. intros N a Qa. apply (N a), E, Qa. Qed.

Lemma decides_expect {A} e (o : option A) : decides (expect e o) (fun a => o = Some a).
Proof. destruct o; cbn; [done|]. by intros a. Qed.

Lemma decides_check_all {A} (ok : A -> bool) e vs : decides (check_all ok e vs) (fun _ => forallb ok vs = true).
Proof. unfold check_all. destruct (forallb ok vs); cbn; [done|]. by intros _. Qed.

Lemma i64_spec z : i64 z = inr z \/ i64 z = inl Undefined.
Proof. unfold i64. destruct (_ && _); auto. Qed.

Lemma from_unix_seconds_spec z :
  from_unix_seconds z = inr (z * nanos_per_second) \/ from_unix_seconds z = inl Undefined.
Proof. apply i64_spec. Qed.

Lemma time_add_spec t z :
  time_add t z = inr (t + z * nanos_per_second) \/ time_add t z = inl Undefined.
Proof.
  unfold time_add. destruct (from_unix_seconds_spec z) as [->| ->]; cbn; [|auto]. apply i64_spec.
Qed.

Lemma time_sub_spec t z :
  time_sub t z = inr (t - z * nanos_per_second) \/ time_sub t z = inl Undefined.
Proof.
  unfold time_sub. destruct (from_unix_seconds_spec z) as [->| ->]; cbn; [|auto]. apply i64_spec.
Qed.

(** ** What a valid token is *)

(** Three parts without dots, each of them base64url. *)
Definition compact (token : bytes) (p : ParsedToken) : Prop :=
  exists a b c, token = a ++ "."%char :: b ++ "."%char :: c /\
    "."%char ∉ a /\ "."%char ∉ b /\ "."%char ∉ c /\
    base64url_decode a = inr (header_json p) /\ base64url_decode b = inr (payload_json p) /\
    base64url_decode c = inr (signature p) /\ signing_input p = a ++ "."%char :: b.

Lemma dots_unique (a b c a' b' c' : bytes) :
  "."%char ∉ a -> "."%char ∉ b -> "."%char ∉ a' -> "."%char ∉ b' ->
  a ++ "."%char :: b ++ "."%char :: c = a' ++ "."%char :: b' ++ "."%char :: c' ->
  a = a' /\ b = b' /\ c = c'.
Proof.
  intros Ha Hb Ha' Hb' E.
  assert (forall (x y x' y' : bytes), "."%char ∉ x -> "."%char ∉ x' ->
    x ++ "."%char :: y = x' ++ "."%char :: y' -> x = x' /\ y = y') as U.
  { clear. intros x y x' y' Hx Hx' E.
    pose proof (find_char_app "."%char x y Hx) as F. rewrite E, (find_char_app _ _ _ Hx') in F.
    injection F as F. apply app_inj_1 in E; [|done]. destruct E as [-> [= ->]]. done. }
  apply U in E as [-> E]; [|done|done]. by apply U in E as [-> ->].
Qed.

Lemma compact_functional token : functional (compact token).
Proof.
  intros p q (a & b & c & E & Ha & Hb & Hc & D1 & D2 & D3 & D4)
    (a' & b' & c' & E' & Ha' & Hb' & Hc' & D1' & D2' & D3' & D4').
  rewrite E in E'. apply dots_unique in E' as (<- & <- & <-); try done.
  destruct p, q; cbn in *. congruence.
Qed.

Lemma base64url_decode_throws a e : base64url_decode a = inl (Thrown e) -> e = LengthError.
Proof.
  unfold base64url_decode. destruct (mapM _ _); [|done]. cbn zeta. destruct (EVP_DecodeBlock _); [|done].
  destruct (_ <? _); [congruence|done].
Qed.

Lemma find_dot_from (a rest : bytes) :
  find_char_from "."%char (length a + 1) (a ++ "."%char :: rest) =
  (fun i => length a + 1 + i)%nat <$> find_char "."%char rest.
Proof.
  unfold find_char_from. replace (drop (length a + 1) (a ++ "."%char :: rest)) with rest; [done|].
  rewrite drop_app_ge by lia. by replace (length a + 1 - length a)%nat with 1%nat by lia.
Qed.

(** The split at the dots, with the parts of the token. *)
Lemma parse_compact_parts a b c :
  "."%char ∉ a -> "."%char ∉ b -> "."%char ∉ c ->
  parse_compact_jwt (a ++ "."%char :: b ++ "."%char :: c) =
  (let! header := attempt (base64url_decode a) in
   let! payload := attempt (base64url_decode b) in
   let! sig := attempt (base64url_decode c) in
   match header, payload, sig with
   | Some h, Some p, Some s => inr (mkParsed h p s (a ++ "."%char :: b))
   | _, _, _ => malformed
   end).
Proof.
  intros Ha Hb Hc. unfold parse_compact_jwt.
  rewrite (find_char_app _ _ _ Ha), find_dot_from, (find_char_app _ _ _ Hb). cbn [fmap option_fmap option_map].
  replace (a ++ "."%char :: b ++ "."%char :: c) with ((a ++ "."%char :: b) ++ "."%char :: c) by (by rewrite <- app_assoc).
  replace (length a + 1 + length b)%nat with (length (a ++ "."%char :: b)) by (rewrite length_app; cbn; lia).
  rewrite find_dot_from, (proj2 (find_char_None _ _) Hc). cbn [fmap option_fmap option_map].
  rewrite take_app_length.
  replace (take (length a) ((a ++ "."%char :: b) ++ "."%char :: c)) with a
    by (rewrite <- app_assoc; by rewrite take_app_length).
  replace (take (length (a ++ "."%char :: b) - length a - 1) (drop (length a + 1) ((a ++ "."%char :: b) ++ "."%char :: c)))
    with b.
  2:{ rewrite <- app_assoc, drop_app_ge by lia. replace (length a + 1 - length a)%nat with 1%nat by lia.
      cbn [app drop]. rewrite length_app. cbn [length].
      replace (length a + S (length b) - length a - 1)%nat with (length b) by lia. by rewrite drop_0, take_app_length. }
  replace (drop (length (a ++ "."%char :: b) + 1) ((a ++ "."%char :: b) ++ "."%char :: c)) with c; [done|].
  rewrite drop_app_ge by lia. by replace (length (a ++ "."%char :: b) + 1 - length (a ++ "."%char :: b))%nat with 1%nat by lia.
Qed.

Lemma attempt_cases a :
  (exists d, base64url_decode a = inr d /\ attempt (base64url_decode a) = inr (Some d)) \/
  (exists e, base64url_decode a = inl (Unexpected e) /\ attempt (base64url_decode a) = inr None) \/
  attempt (base64url_decode a) = inl (Thrown LengthError).
Proof.
  destruct (base64url_decode a) as [[e|e]|d] eqn:E; cbn; [right; left; by exists e| |left; by exists d].
  right. right. by apply base64url_decode_throws in E as ->.
Qed.

Lemma parse_compact_decides token : decides (parse_compact_jwt token) (compact token).
Proof.
  destruct (find_char "."%char token) as [i|] eqn:F1.
  2:{ unfold parse_compact_jwt. rewrite F1. cbn. intros p (a & b & c & -> & Ha & _).
      by rewrite (find_char_app _ _ _ Ha) in F1. }
  apply find_char_Some in F1 as (E & Ha & _). set (a := take i token) in *. set (t := drop (S i) token) in *.
  clearbody a t. subst token. destruct (find_char "."%char t) as [j|] eqn:F2.
  2:{ unfold parse_compact_jwt. rewrite (find_char_app _ _ _ Ha), find_dot_from, F2. cbn. apply find_char_None in F2.
      intros p (a' & b & c & E & Ha' & _). pose proof (find_char_app _ _ t Ha) as F.
      rewrite E, (find_char_app _ _ _ Ha') in F. injection F as F. apply app_inj_1 in E; [|done].
      destruct E as [_ [= ->]]. apply F2. set_solver. }
  apply find_char_Some in F2 as (E & Hb & _). set (b := take j t) in *. set (c := drop (S j) t) in *.
  clearbody b c. subst t. destruct (decide ("."%char ∈ c)) as [Hc|Hc].
  { unfold parse_compact_jwt. rewrite (find_char_app _ _ _ Ha), find_dot_from, (find_char_app _ _ _ Hb).
    cbn [fmap option_fmap option_map].
    replace (a ++ "."%char :: b ++ "."%char :: c) with ((a ++ "."%char :: b) ++ "."%char :: c) by (by rewrite <- app_assoc).
    replace (length a + 1 + length b)%nat with (length (a ++ "."%char :: b)) by (rewrite length_app; cbn; lia).
    rewrite find_dot_from. destruct (find_char "."%char c) as [k|] eqn:F3; [|by apply find_char_None in F3].
    cbn [fmap option_fmap option_map]. intros p (a' & b' & c' & E & Ha' & Hb' & Hc' & _).
    rewrite <- app_assoc in E. apply dots_unique in E as (_ & _ & ->); try done. }
  rewrite parse_compact_parts by done.
  assert (forall p, compact (a ++ "."%char :: b ++ "."%char :: c) p <->
    base64url_decode a = inr (header_json p) /\ base64url_decode b = inr (payload_json p) /\
    base64url_decode c = inr (signature p) /\ signing_input p = a ++ "."%char :: b) as C.
  { intros p. split; [|intros (D1 & D2 & D3 & D4); by exists a, b, c].
    intros (a' & b' & c' & E & Ha' & Hb' & Hc' & D). by apply dots_unique in E as (<- & <- & <-). }
  apply (decides_iff _ _ _ (fun p => iff_sym (C p))). destruct (attempt_cases a) as [(ha & Da & ->)|[(e & Da & ->)| ->]];
    cbn; [| |by left];
  (destruct (attempt_cases b) as [(hb & Db & ->)|[(e' & Db & ->)| ->]]; cbn; [| |by left]);
  (destruct (attempt_cases c) as [(hc & Dc & ->)|[(e'' & Dc & ->)| ->]]; cbn; [| |by left]);
  try done; intros p (D1 & D2 & D3 & _); congruence.
Qed.

(** ** Signatures *)

Lemma lor_fold_zero (l : list (byte * byte)) (d : Z) :
  for_each (fun diff '(x, y) => Z.lor diff (Z.lxor (byte_val x) (byte_val y))) l d = 0 <->
  d = 0 /\ Forall (fun '(x, y) => x = y) l.
Proof.
  unfold for_each. revert d. induction l as [|[x y] l IH]; intros d; cbn.
  - split; [done|]. by intros [? _].
  - rewrite IH, Z.lor_eq_0_iff, Z.lxor_eq_0_iff, Forall_cons. split.
    + intros [[-> E] F]. split_and!; try done. by rewrite <- (byte_of_val x), <- (byte_of_val y), E.
    + intros (-> & -> & F). done.
Qed.

Lemma constant_time_equal_spec a b : constant_time_equal a b = true <-> a = b.
Proof.
  unfold constant_time_equal. destruct (len a =? len b) eqn:L; cbn [negb].
  - to_prop. rewrite Z.eqb_eq, lor_fold_zero. unfold len in L.
    assert (length a = length b) as L' by lia. clear L. revert b L'.
    induction a as [|x a IH]; intros [|y b] L; try done. cbn. rewrite Forall_cons.
    specialize (IH b ltac:(cbn in L; lia)). split; [intros (_ & -> & F); f_equal; by apply IH|].
    intros [= -> ->]. split_and!; try done. by apply IH.
  - split; [done|]. intros ->. to_prop. lia.
Qed.

(** What the digest interface answers for a public key. *)
Definition rsa_verifies (pem input sig : bytes) : Prop :=
  exists bio key ctx ctx1 ctx2, BIO_new_mem_buf pem = Some bio /\ PEM_read_bio_PUBKEY bio = Some key /\
    EVP_MD_CTX_new = Some ctx /\ EVP_DigestVerifyInit key ctx = Some ctx1 /\
    EVP_DigestVerifyUpdate input ctx1 = Some ctx2 /\ EVP_DigestVerifyFinal sig ctx2 = 1.

(** The signature is the one the configured key gives. *)
Definition signed (cfg : Config) (alg : JwtAlgorithm) (input sig : bytes) : Prop :=
  match alg with
  | HS256 => hmac_secret cfg <> [] /\ HMAC (hmac_secret cfg) input = Some sig
  | RS256 => rsa_public_key_pem cfg <> [] /\ rsa_verifies (rsa_public_key_pem cfg) input sig
  end.

Lemma len_zero {A} (l : list A) : (len l =? 0) = true <-> l = [].
Proof. rewrite Z.eqb_eq. unfold len. destruct l; cbn; split; done || lia. Qed.

Lemma verify_hs256_decides p secret :
  decides (verify_hs256 p secret) (fun _ => secret <> [] /\ HMAC secret (signing_input p) = Some (signature p)).
Proof.
  unfold verify_hs256. destruct (len secret =? 0) eqn:L.
  { apply len_zero in L. by intros _ [? _]. }
  assert (secret <> []) by (intros ->; done). destruct (HMAC _ _) as [d|]; cbn; [|by intros _ [_ ?]].
  destruct (constant_time_equal (signature p) d) eqn:E; cbn.
  - apply constant_time_equal_spec in E. by subst.
  - intros _ [_ [= ->]]. assert (constant_time_equal (signature p) (signature p) = true) by (by apply constant_time_equal_spec).
    congruence.
Qed.

Lemma verify_rs256_decides p pem :
  decides (verify_rs256 p pem) (fun _ => pem <> [] /\ rsa_verifies pem (signing_input p) (signature p)).
Proof.
  unfold verify_rs256, rsa_verifies. destruct (len pem =? 0) eqn:L.
  { apply len_zero in L. by intros _ [? _]. }
  assert (pem <> []) by (intros ->; done).
  destruct (BIO_new_mem_buf pem) as [bio|] eqn:E1; cbn; [|intros _ (_ & ?); destruct_hyps; congruence].
  destruct (PEM_read_bio_PUBKEY bio) as [key|] eqn:E2; cbn; [|intros _ (_ & ?); destruct_hyps; congruence].
  destruct EVP_MD_CTX_new as [ctx|] eqn:E3; cbn; [|intros _ (_ & ?); destruct_hyps; congruence].
  destruct (EVP_DigestVerifyInit key ctx) as [ctx1|] eqn:E4; cbn; [|intros _ (_ & ?); destruct_hyps; congruence].
  destruct (EVP_DigestVerifyUpdate _ ctx1) as [ctx2|] eqn:E5; cbn; [|intros _ (_ & ?); destruct_hyps; congruence].
  destruct (_ =? 1) eqn:E6; cbn.
  - to_prop. split; [done|]. by exists bio, key, ctx, ctx1, ctx2.
  - to_prop. intros _ (_ & ?). destruct_hyps. congruence.
Qed.

(** ** The header *)

(** An allowed algorithm, by its name. *)
Definition names_algorithm (cfg : Config) (header : element) (alg : JwtAlgorithm) : Prop :=
  get_json_string header (bs "alg") = Some (algorithm_name alg) /\ alg ∈ allowed_algorithms cfg.

Lemma algorithm_allowed_spec cfg name :
  algorithm_allowed cfg name = true <-> exists alg, name = algorithm_name alg /\ alg ∈ allowed_algorithms cfg.
Proof.
  unfold algorithm_allowed. rewrite existsb_exists. split.
  - intros (alg & I & E). apply list_elem_of_In in I. exists alg. by destruct alg; to_prop.
  - intros (alg & -> & I). exists alg. apply list_elem_of_In in I. split; [done|].
    destruct alg; by apply bool_decide_eq_true.
Qed.

Lemma algorithm_name_inj a b : algorithm_name a = algorithm_name b -> a = b.
Proof. by destruct a, b. Qed.

Lemma verify_signature_decides cfg p alg :
  decides (verify_signature (algorithm_name alg) p cfg) (fun _ => signed cfg alg (signing_input p) (signature p)).
Proof.
  unfold verify_signature. destruct alg; cbn [algorithm_name signed].
  - rewrite bool_decide_true by done. apply verify_hs256_decides.
  - rewrite bool_decide_false by done. rewrite bool_decide_true by done. apply verify_rs256_decides.
Qed.

(** ** The payload *)

(** The instant of the expiry; an expired token has none. *)
Definition expires (now : Z) (cfg : Config) (payload : element) (t : option Z) : Prop :=
  match get_json_int payload (bs "exp") with
  | Some exp => t = Some (exp * nanos_per_second) /\
                now < (exp + clock_skew cfg) * nanos_per_second
  | None => t = None /\ require_expiration cfg = false
  end.

(** The instant of a claim that must have passed. *)
Definition passed (validate : bool) (claim : bytes) (now : Z) (cfg : Config) (payload : element) (t : option Z) : Prop :=
  match get_json_int payload claim with
  | Some s => if validate then t = Some (s * nanos_per_second) /\
                               s * nanos_per_second <= now + clock_skew cfg * nanos_per_second
              else t = None
  | None => t = None
  end.

Lemma check_expiration_decides now cfg payload :
  decides (check_expiration now cfg payload) (expires now cfg payload).
Proof.
  unfold check_expiration, expires. destruct (get_json_int _ _) as [e|].
  - destruct (from_unix_seconds_spec e) as [->| ->]; cbn; [|auto].
    destruct (time_sub_spec now (clock_skew cfg)) as [->| ->]; cbn; [|auto].
    destruct (_ <=? _) eqn:L; to_prop; cbn; [intros t [_ ?]; lia|]. split; [done|lia].
  - destruct (require_expiration cfg); cbn; [by intros t [_ ?]|done].
Qed.

Lemma check_past_decides validate claim error now cfg payload :
  decides (check_past validate claim error now cfg payload) (passed validate claim now cfg payload).
Proof.
  unfold check_past, passed. destruct validate, (get_json_int _ _) as [e|]; cbn; try done.
  destruct (from_unix_seconds_spec e) as [->| ->]; cbn; [|auto].
  destruct (time_add_spec now (clock_skew cfg)) as [->| ->]; cbn; [|auto].
  destruct (_ <? _) eqn:L; to_prop; cbn; [intros t [_ ?]; lia|]. split; [done|lia].
Qed.

Lemma expires_functional now cfg payload : functional (expires now cfg payload).
Proof. intros t t'. unfold expires. destruct (get_json_int _ _); intros [-> _] [-> _]; done. Qed.

Lemma passed_functional validate claim now cfg payload : functional (passed validate claim now cfg payload).
Proof.
  intros t t'. unfold passed. destruct (get_json_int _ _), validate; try (intros -> ->; done).
  intros [-> _] [-> _]; done.
Qed.

Definition meets_policy (cfg : Config) (payload : element) : Prop :=
  (forall i, required_issuer cfg = Some i -> default [] (get_json_string payload (bs "iss")) = i) /\
  (forall a, a ∈ required_audiences cfg -> a ∈ read_string_or_array payload (bs "aud")) /\
  (forall s, s ∈ required_scopes cfg -> s ∈ read_scopes payload (scope_claim cfg)) /\
  (forall n v, required_claims cfg !! n = Some v -> string n (read_all_claims payload no_claims) = Some v).

Definition principal_of (cfg : Config) (payload : element) (exp nbf iat : option Z) : Context.JwtPrincipal :=
  Context.mkJwtPrincipal
    (default [] (get_json_string payload (bs "sub"))) (default [] (get_json_string payload (bs "iss")))
    (read_string_or_array payload (bs "aud")) (read_scopes payload (scope_claim cfg))
    (default [] (get_json_string payload (bs "jti"))) exp nbf iat (read_all_claims payload no_claims).

(** A token that authenticates: three base64url parts, a header that names an
    allowed algorithm, the signature of the configured key over the first two
    parts, and a payload within its times and the policy. *)
Inductive Authentic (cfg : Config) (now : Z) (token : bytes) : VerifiedPayload -> Prop :=
| authentic parsed header payload alg exp nbf iat :
    compact token parsed ->
    json_parse (header_json parsed) = Some header ->
    names_algorithm cfg header alg ->
    signed cfg alg (signing_input parsed) (signature parsed) ->
    json_parse (payload_json parsed) = Some payload ->
    expires now cfg payload exp ->
    passed (validate_not_before cfg) (bs "nbf") now cfg payload nbf ->
    passed (validate_issued_at cfg) (bs "iat") now cfg payload iat ->
    meets_policy cfg payload ->
    Authentic cfg now token (mkVerified (algorithm_name alg) (principal_of cfg payload exp nbf iat)).

Lemma contains_spec values x : contains values x = true <-> x ∈ values.
Proof.
  unfold contains. rewrite existsb_exists. split.
  - intros (y & I & E). to_prop. subst. by apply list_elem_of_In.
  - intros I. exists x. split; [by apply list_elem_of_In|by apply bool_decide_eq_true].
Qed.

Lemma forallb_contains values xs :
  forallb (contains values) xs = true <-> forall x, x ∈ xs -> x ∈ values.
Proof.
  rewrite forallb_Forall, Forall_forall. split; intros F x I; specialize (F x I); by apply contains_spec.
Qed.

Lemma policy_checks cfg payload :
  forallb (fun i => bool_decide (default [] (get_json_string payload (bs "iss")) = i)) (option_list (required_issuer cfg)) = true /\
  forallb (contains (read_string_or_array payload (bs "aud"))) (required_audiences cfg) = true /\
  forallb (contains (read_scopes payload (scope_claim cfg))) (required_scopes cfg) = true /\
  forallb (fun '(claim, expected) => bool_decide (string claim (read_all_claims payload no_claims) = Some expected))
    (iterate (required_claims cfg)) = true <-> meets_policy cfg payload.
Proof.
  unfold meets_policy. rewrite !forallb_contains.
  assert (forallb (fun i => bool_decide (default [] (get_json_string payload (bs "iss")) = i))
            (option_list (required_issuer cfg)) = true <->
          forall i, required_issuer cfg = Some i -> default [] (get_json_string payload (bs "iss")) = i) as ->.
  { destruct (required_issuer cfg) as [i|]; [|done].
    change (option_list (Some i)) with [i]. cbn [forallb]. rewrite andb_true_r, bool_decide_eq_true. split; [by intros <- i' [= <-]|]. intros F. by apply F. }
  enough (forallb (fun '(claim, expected) => bool_decide (string claim (read_all_claims payload no_claims) = Some expected))
            (iterate (required_claims cfg)) = true <->
          forall n v, required_claims cfg !! n = Some v -> string n (read_all_claims payload no_claims) = Some v)
    as -> by done.
  rewrite forallb_Forall, Forall_forall. split.
  - intros F n v E. apply elem_of_iterate in E. specialize (F _ E). by apply bool_decide_eq_true in F.
  - intros F [n v] E. apply elem_of_iterate in E. apply bool_decide_eq_true. by apply F.
Qed.

#[local] Ltac same_token :=
  cbv beta in *;
  repeat match goal with
  | H1 : compact ?t ?p, H2 : compact ?t ?q |- _ =>
      pose proof (compact_functional t p q H1 H2); subst q; clear H2
  | H1 : json_parse ?t = Some ?p, H2 : json_parse ?t = Some ?q |- _ =>
      rewrite H1 in H2; injection H2 as <-
  | H1 : names_algorithm ?c ?h ?a, H2 : names_algorithm ?c ?h ?b |- _ =>
      assert (a = b) by (destruct H1, H2; apply algorithm_name_inj; congruence); subst b; clear H2
  end.

Lemma verify_token_decides now token cfg : decides (verify_token now token cfg) (Authentic cfg now token).
Proof.
  unfold verify_token.
  eapply decides_bind; [apply parse_compact_decides|intros v []; eauto|]. intros parsed C.
  eapply decides_bind; [apply decides_expect|intros v []; same_token; eauto|]. intros header Hh.
  destruct (get_json_string header (bs "alg")) as [name|] eqn:An.
  2:{ intros v [? ? ? ? ? ? ? ? ? [? ?]]. same_token. congruence. }
  destruct (bool_decide (name = bs "none") || negb (algorithm_allowed cfg name)) eqn:Al.
  { intros v [? ? ? alg ? ? ? ? ? [E I]]. same_token.
    assert (algorithm_allowed cfg name = true) as T by (apply algorithm_allowed_spec; exists alg; split; [congruence|done]).
    rewrite T, orb_false_r in Al. to_prop.
    assert (algorithm_name alg = bs "none") by congruence. by destruct alg. }
  apply orb_false_iff in Al as [_ Al]. apply negb_false_iff, algorithm_allowed_spec in Al as (alg & -> & I).
  assert (names_algorithm cfg header alg) as N by done.
  eapply decides_bind; [apply verify_signature_decides|intros v []; same_token; exists (); eauto|]. intros u Sg.
  eapply decides_bind; [apply decides_expect|intros v []; same_token; eauto|]. intros payload Hp.
  eapply decides_bind; [apply check_expiration_decides|intros v []; same_token; eauto|]. intros exp He.
  eapply decides_bind; [apply check_past_decides|intros v []; same_token; eauto|]. intros nbf Hn.
  eapply decides_bind; [apply check_past_decides|intros v []; same_token; eauto|]. intros iat Hi.
  pose proof (policy_checks cfg payload) as PC.
  assert (forall v, Authentic cfg now token v -> meets_policy cfg payload) as MP.
  { intros v []. by same_token. }
  eapply decides_bind; [apply decides_check_all|intros v A; exists (); apply PC; eauto|]. intros u1 P1.
  eapply decides_bind; [apply decides_check_all|intros v A; exists (); apply PC; eauto|]. intros u2 P2.
  eapply decides_bind; [apply decides_check_all|intros v A; exists (); apply PC; eauto|]. intros u3 P3.
  eapply decides_bind; [apply decides_check_all|intros v A; exists (); apply PC; eauto|]. intros u4 P4.
  change (Authentic cfg now token (mkVerified (algorithm_name alg) (principal_of cfg payload exp nbf iat))).
  apply (authentic _ _ _ parsed header); try done. by apply PC.
Qed.

(** ** The middleware *)

(** Requests that need no token. *)
Definition exempt (cfg : Config) (r : Request.t) : bool :=
  (allow_options_requests cfg && bool_decide (Request.method_ r = bs "OPTIONS"))
  || path_allowed (allowlist_paths cfg) (Request.path_ r).

End Admission.

(** A request passes the JWT middleware exactly when it is
    exempt or carries an authentic token, and the handlers behind then see the
    principal of that token; every other request is answered with the
    configured status and body and reaches no handler.  The only way out beside
    these is one of the two faults of the code, with the exchange untouched. *)
Lemma jwt_outcome `{Openssl} `{Simdjson} `{HashOrderLaws} {W} `{SystemClock W}
    (cfg : Config) (next : M W ()) (x : Exchange W) :
  let token := credential (jwt_cookie_name cfg) (request x) cfg in
  let authentic := Authentic cfg (system_clock_now (world x)) in
  if exempt cfg (request x) then handle cfg next x = next x
  else
    (exists t v, token = Some t /\ authentic t v /\
       handle cfg next x =
       next (mkEx (request x) (response x) (Context.set_jwt (principal v) (context x)) (world x))) \/
    ((forall t v, token = Some t -> ~ authentic t v) /\
       handle cfg next x =
       (inr (), mkEx (request x) (reject cfg (response x)) (context x) (world x))) \/
    (exists t e, token = Some t /\ verify_token (system_clock_now (world x)) t cfg = inl (Thrown e) /\
       (e = LengthError \/ e = Undefined) /\ handle cfg next x = (inl e, x)).
Proof.
  intros token authentic. unfold handle, bind, get_request. cbn -[credential verify_token].
  change ((_ && _) || path_allowed _ _) with (exempt cfg (request x)).
  destruct (exempt cfg (request x)); [done|]. fold token.
  destruct token as [t|]; [|right; left; split; [by intros t v|done]].
  pose proof (verify_token_decides (system_clock_now (world x)) t cfg) as D.
  destruct (verify_token _ t cfg) as [[e|e]|v] eqn:E; cbn in D.
  - right. left. split; [|done]. intros t' v [= <-]. apply D.
  - right. right. exists t, e. done.
  - left. exists t, v. done.
Qed.

End Admission.

(** ** Issued tokens *)

Module Issuing.

(** The base64 of OpenSSL: an encoded block is text of the alphabet, padded
    with [=] to a multiple of four, and its decoding is the data, padded with
    zero bytes. *)
Definition padding (d : bytes) : nat := (3 - length d mod 3) mod 3.

Definition base64_char (c : byte) : Prop := isalnum c = true \/ c = "+"%char \/ c = "/"%char.

Class OpensslLaws `{Openssl} := {
  encode_shape : forall d, exists body,
    EVP_EncodeBlock d = body ++ replicate (padding d) "="%char /\ Forall base64_char body /\
    len (EVP_EncodeBlock d) mod 4 = 0;
  decode_encode : forall d, EVP_DecodeBlock (EVP_EncodeBlock d) = Some (d ++ replicate (padding d) (byte_of_Z 0))
}.

Section Base64.
Context `{OpensslLaws}.

Lemma padding_bound d : (padding d <= 2)%nat.
Proof. unfold padding. pose proof (Nat.mod_upper_bound (3 - length d mod 3) 3). lia. Qed.

Lemma base64_from_url c : base64_char c -> c <> "="%char /\ to_url c <> "="%char /\ from_url (to_url c) = Some c.
Proof.
  assert (forall c, negb (isalnum c || bool_decide (c = "+"%char) || bool_decide (c = "/"%char)) ||
    (negb (bool_decide (c = "="%char)) && negb (bool_decide (to_url c = "="%char)) &&
     bool_decide (from_url (to_url c) = Some c)) = true) as B.
  { apply byte_forall. vm_compute. reflexivity. }
  intros C. specialize (B c). assert (isalnum c || bool_decide (c = "+"%char) || bool_decide (c = "/"%char) = true) as T.
  { destruct C as [-> |[-> | ->]]; [done|done|done]. }
  rewrite T in B. cbn [negb orb] in B. apply andb_true_iff in B as [B B3]. apply andb_true_iff in B as [B1 B2].
  apply negb_true_iff in B1, B2. by to_prop.
Qed.

Lemma drop_while_replicate k (s : bytes) : Forall (fun c => c <> "="%char) s ->
  drop_while is_padding (replicate k "="%char ++ s) = s.
Proof.
  intros F. induction k as [|k IH]; cbn [replicate app].
  - destruct s as [|c s]; [done|]. inversion F; subst. cbn. unfold is_padding. by rewrite bool_decide_false.
  - cbn. by rewrite IH.
Qed.

Lemma pad_add (s : bytes) k : (k <= 3)%nat -> (len s + Z.of_nat k) mod 4 = 0 ->
  pad_fuel k s = s ++ replicate k "="%char.
Proof.
  revert s. induction k as [|k IH]; intros s K E; cbn [pad_fuel replicate]; [by rewrite app_nil_r|].
  assert (len s mod 4 <> 0) by (pose proof (len_nonneg s); intros Z0; Z.div_mod_to_equations; lia).
  destruct (len s mod 4 =? 0) eqn:B; to_prop; [lia|]. rewrite IH; [|lia|].
  - by rewrite <- app_assoc.
  - rewrite len_app. replace (len (bs "=")) with 1 by done. replace (len s + 1 + Z.of_nat k) with (len s + Z.of_nat (S k)) by lia. done.
Qed.

Lemma pad_fuel_stop k j (s : bytes) : pad_fuel (k + j) s = pad_fuel j (pad_fuel k s).
Proof.
  revert s. induction k as [|k IH]; intros s; [done|]. cbn [Nat.add pad_fuel]. destruct (len s mod 4 =? 0) eqn:E; [|apply IH].
  clear IH. induction j as [|j IH]; [done|]. cbn [pad_fuel]. by rewrite E.
Qed.

Lemma pad_spec (s : bytes) k : (k <= 2)%nat -> (len s + Z.of_nat k) mod 4 = 0 -> pad s = s ++ replicate k "="%char.
Proof.
  intros K E. unfold pad. replace 3%nat with (k + (3 - k))%nat by lia. rewrite pad_fuel_stop, (pad_add s k) by (lia || done).
  destruct (3 - k)%nat as [|j] eqn:J; [done|]. cbn [pad_fuel].
  rewrite len_app. unfold len at 2. rewrite length_replicate, E. done.
Qed.

Lemma mapM_from_url body : Forall base64_char body -> mapM from_url (map to_url body) = Some body.
Proof.
  intros F. apply mapM_Some. induction F as [|c body C F IH]; constructor; [|done]. by apply base64_from_url in C as (_ & _ & ?).
Qed.

(** The encoding is the block in the URL alphabet, without its padding. *)
Lemma encoded_body d : exists body,
  EVP_EncodeBlock d = body ++ replicate (padding d) "="%char /\ Forall base64_char body /\
  len (EVP_EncodeBlock d) mod 4 = 0 /\ base64url_encode d = map to_url body.
Proof.
  destruct (encode_shape d) as (body & E & F & L). exists body. split_and!; [done..|].
  unfold base64url_encode, strip_padding. rewrite E, map_app, rev_app_distr.
  replace (rev (map to_url (replicate (padding d) "="%char))) with (replicate (padding d) "="%char).
  - rewrite drop_while_replicate, rev_involutive; [done|].
    apply Forall_rev, Forall_map. eapply Forall_impl; [exact F|].
    intros c C. apply base64_from_url in C as (_ & C & _). exact C.
  - generalize (padding d). clear. intros k. induction k as [|k IH]; [done|].
    cbn [replicate map rev]. rewrite <- IH. by rewrite <- replicate_cons_app.
Qed.

Lemma base64url_roundtrip d : base64url_decode (base64url_encode d) = inr d.
Proof.
  destruct (encoded_body d) as (body & E & F & L & ->). pose proof (decode_encode d) as D. pose proof (padding_bound d) as K.
  unfold base64url_decode. rewrite mapM_from_url by done. rewrite E in L, D. rewrite len_app in L.
  unfold len at 2 in L. rewrite length_replicate in L. rewrite (pad_spec body (padding d)), D by done.
  cbv zeta. rewrite List.filter_app, !len_app.
  assert (len (List.filter is_padding body) = 0) as ->.
  { apply Z.eqb_eq, Admission.len_zero. clear -F. induction F as [|c body C F IH]; [done|].
      apply base64_from_url in C as (C & _). cbn. unfold is_padding at 1. by rewrite bool_decide_false. }
  assert (len (List.filter is_padding (replicate (padding d) "="%char)) = Z.of_nat (padding d)) as ->.
  { unfold len. f_equal. generalize (padding d). clear. intros k. induction k as [|k IH]; [done|].
      change (S (length (List.filter is_padding (replicate k "="%char))) = S k). by rewrite IH. }
  unfold len. rewrite length_replicate.
  rewrite (proj2 (Z.ltb_ge _ _)) by lia. replace (Z.to_nat _) with (length d) by lia. by rewrite take_app_length.
Qed.
End Base64.

(** ** JSON texts

    The part of RFC 8259 that an issuer writes: an object whose values are
    strings, integers, booleans and arrays of strings. *)

Inductive Json :=
| JString (s : bytes)
| JInt (z : Z)
| JBool (b : bool)
| JStrings (l : list bytes).

Definition in_i64 (z : Z) : Prop := - 2 ^ 63 <= z < 2 ^ 63.

(** The value of a two-character escape. *)
Definition escape_value (e : byte) : option Z :=
  let v := byte_val e in
  if v =? 34 then Some 34 else if v =? 92 then Some 92 else if v =? 98 then Some 8
  else if v =? 102 then Some 12 else if v =? 110 then Some 10 else if v =? 114 then Some 13
  else if v =? 116 then Some 9 else None.

(** A value and its text between the quotes. *)
Inductive string_body : bytes -> bytes -> Prop :=
| body_nil : string_body [] []
| body_plain c s t :
    32 <= byte_val c -> c <> quote -> c <> backslash ->
    string_body s t -> string_body (c :: s) (c :: t)
| body_escape e v s t :
    escape_value e = Some v ->
    string_body s t -> string_body (byte_of_Z v :: s) (backslash :: e :: t)
| body_unicode x y vx vy s t :
    digit_val 16 x = Some vx -> digit_val 16 y = Some vy -> vx < 8 ->
    string_body s t ->
    string_body (byte_of_Z (16 * vx + vy) :: s) (backslash :: "u"%char :: "0"%char :: "0"%char :: x :: y :: t).

Definition string_text (s text : bytes) : Prop :=
  exists t, string_body s t /\ text = [quote] ++ t ++ [quote].

Definition value_text (v : Json) (text : bytes) : Prop :=
  match v with
  | JString s => string_text s text
  | JInt z => in_i64 z /\ text = to_dec_signed z
  | JBool b => text = if b then bs "true" else bs "false"
  | JStrings l => exists ts, Forall2 string_text l ts /\ text = bs "[" ++ join_with (bs ",") ts ++ bs "]"
  end.

Definition field_text (f : bytes * Json) (text : bytes) : Prop :=
  exists n v, string_text f.1 n /\ value_text f.2 v /\ text = n ++ bs ":" ++ v.

Definition object_text (fields : list (bytes * Json)) (text : bytes) : Prop :=
  exists ts, Forall2 field_text fields ts /\ text = bs "{" ++ join_with (bs ",") ts ++ bs "}".

(** ** What the issuer writes *)

Lemma json_escape_cons c s : json_escape (c :: s) = json_escape_char c ++ json_escape s.
Proof.
  unfold json_escape, for_each. cbn [foldl app].
  assert (forall acc, foldl (fun escaped ch => escaped ++ json_escape_char ch) acc s =
    acc ++ foldl (fun escaped ch => escaped ++ json_escape_char ch) [] s) as G; [|apply G].
  induction s as [|x s IH]; intros acc; cbn [foldl]; [by rewrite app_nil_r|].
  rewrite IH, (IH ([] ++ _)). by rewrite <- app_assoc.
Qed.

(** Every byte is escaped as the grammar allows. *)
Lemma json_escape_char_body c s t : string_body s t -> string_body (c :: s) (json_escape_char c ++ t).
Proof.
  intros B. unfold json_escape_char. rewrite <- (byte_of_val c) at 1. pose proof (byte_val_range c) as R.
  repeat match goal with
  | |- context [byte_val c =? ?k] =>
      destruct (Z.eqb_spec (byte_val c) k) as [->|?]; [cbn [app bs list_ascii_of_string]; apply body_escape; [vm_compute; reflexivity|done]|]
  end.
  destruct (Z.ltb_spec (byte_val c) 32).
  - cbn [app bs list_ascii_of_string hex4]. unfold hex4. cbn [app bs list_ascii_of_string].
    assert (Z.shiftr (byte_val c) 4 = byte_val c / 16) as -> by (by rewrite Z.shiftr_div_pow2).
    assert (Z.land (byte_val c) 15 = byte_val c mod 16) as -> by (by apply (Z.land_ones _ 4)).
    rewrite (Z.div_mod (byte_val c) 16) at 1 by lia.
    apply body_unicode; [apply digit_char_val; dm_lia|apply digit_char_val; dm_lia|dm_lia|done].
  - rewrite byte_of_val. apply body_plain; try done.
    + intros ->. by vm_compute in n.
    + intros ->. by vm_compute in n0.
Qed.

Lemma json_string_text s : string_text s (json_string s).
Proof.
  exists (json_escape s). split; [|done]. induction s as [|c s IH]; [constructor|].
  rewrite json_escape_cons. by apply json_escape_char_body.
Qed.

Lemma separated_join sep render vs : separated sep render vs = join_with sep (map render vs).
Proof.
  unfold separated, for_each. induction vs as [|v vs IH] using rev_ind; [done|].
  rewrite foldl_app, map_app. cbn [foldl map]. rewrite join_with_snoc.
  assert (forall l, foldl (fun '(out, first) v => ((if first : bool then out else out ++ sep) ++ render v, false)) ([], true) l =
    (fst (foldl (fun '(out, first) v => ((if first : bool then out else out ++ sep) ++ render v, false)) ([], true) l),
     bool_decide (map render l = []))) as G.
  { intros l. induction l as [|w l IHl] using rev_ind; [done|]. rewrite foldl_app, IHl, map_app. cbn.
    by rewrite (bool_decide_false (_ ++ _ = [])) by (by destruct (map render l)). }
  rewrite G, IH. case_bool_decide as E; cbn; [by rewrite E|done].
Qed.

Lemma json_array_text l : value_text (JStrings l) (json_string_array l).
Proof.
  exists (map json_string l). split; [|unfold json_string_array; by rewrite separated_join].
  induction l; constructor; [apply json_string_text|done].
Qed.

(** The text so far has these fields. *)
Definition emitted (s : bytes * bool) (fields : list (bytes * Json)) : Prop :=
  exists ts, Forall2 field_text fields ts /\ s = (bs "{" ++ join_with (bs ",") ts, bool_decide (ts = [])).

Lemma emit_field n v text s fields :
  emitted s fields -> value_text v text -> emitted (add_json_field n text s) (fields ++ [(n, v)]).
Proof.
  intros (ts & F & ->) T. exists (ts ++ [json_string n ++ bs ":" ++ text]). split.
  - apply Forall2_app; [done|]. constructor; [|constructor]. exists (json_string n), text.
    split_and!; [apply json_string_text|done|done].
  - unfold add_json_field. rewrite join_with_snoc, (bool_decide_false (_ ++ _ = [])) by (by destruct ts).
    f_equal. case_bool_decide; [by subst|]. by rewrite <- !app_assoc.
Qed.

Definition opt (n : bytes) (o : option Json) : list (bytes * Json) :=
  match o with Some v => [(n, v)] | None => [] end.

Lemma emit_some {A} n (render : A -> bytes) (o : option A) (f : A -> Json) s fields :
  (forall a, o = Some a -> value_text (f a) (render a)) ->
  emitted s fields -> emitted (add_some n render o s) (fields ++ opt n (f <$> o)).
Proof.
  intros V E. destruct o as [a|]; cbn; [by apply emit_field, V|by rewrite app_nil_r].
Qed.

Lemma emit_text n (o : option bytes) (w : option Json) s fields :
  option_Forall2 value_text w o ->
  emitted s fields -> emitted (add_some n (fun v => v) o s) (fields ++ opt n w).
Proof. intros [v t V|] E; cbn; [by apply emit_field|by rewrite app_nil_r]. Qed.

Lemma emit_claims `{HashOrderLaws} {A} (render : A -> bytes) (f : A -> Json) (m : gmap bytes A) s fields :
  (forall n a, m !! n = Some a -> value_text (f a) (render a)) ->
  emitted s fields ->
  emitted (add_claims render m s) (fields ++ map (fun '(n, a) => (n, f a)) (iterate m)).
Proof.
  intros V. unfold add_claims, for_each.
  assert (Forall (fun '(n, a) => value_text (f a) (render a)) (iterate m)) as F.
  { apply Forall_forall. intros [n a] I. apply elem_of_iterate in I. by apply (V n). }
  revert s fields. induction F as [|[n a] l T F IH]; intros s fields E; cbn [foldl map]; [by rewrite app_nil_r|].
  replace (fields ++ (n, f a) :: _) with ((fields ++ [(n, f a)]) ++ map (fun '(n, a) => (n, f a)) l) by (by rewrite <- app_assoc).
  apply IH. by apply emit_field.
Qed.

(** The fields of a token, in the order they are written. *)
Definition audience_value (a : list bytes) : option Json :=
  match a with [] => None | [one] => Some (JString one) | _ => Some (JStrings a) end.

Definition scopes_value (cfg : IssuerConfig) (s : list bytes) : option Json :=
  match s with
  | [] => None
  | _ => Some (if encode_scopes_as_array cfg then JStrings s else JString (space_join s))
  end.

Definition seconds_value (t : Z) : Json := JInt (unix_seconds t).

Definition standard_fields (cfg : IssuerConfig) (b : JwtTokenBuilder) (exp iat : option Z) : list (bytes * Json) :=
  opt (bs "sub") (JString <$> subject_ b) ++ opt (bs "iss") (JString <$> issuer_ b) ++
  opt (bs "aud") (audience_value (audience_ b)) ++
  opt (issue_scope_claim cfg) (scopes_value cfg (scopes_ b)) ++
  opt (bs "jti") (JString <$> token_id_ b) ++ opt (bs "exp") (seconds_value <$> exp) ++
  opt (bs "nbf") (seconds_value <$> not_before_ b) ++ opt (bs "iat") (seconds_value <$> iat).

Definition custom_fields `{HashOrder} (c : Context.JwtClaims) : list (bytes * Json) :=
  map (fun '(n, v) => (n, JString v)) (iterate (Context.string_claims c)) ++
  map (fun '(n, v) => (n, JInt v)) (iterate (Context.integer_claims c)) ++
  map (fun '(n, v) => (n, JBool v)) (iterate (Context.bool_claims c)) ++
  map (fun '(n, v) => (n, JStrings v)) (iterate (Context.string_array_claims c)).

Definition header_fields (cfg : IssuerConfig) : list (bytes * Json) :=
  [(bs "alg", JString (algorithm_name (issue_algorithm cfg))); (bs "typ", JString (type_ cfg))] ++
  opt (bs "kid") (if len (key_id cfg) =? 0 then None else Some (JString (key_id cfg))).

Lemma unix_seconds_range t : in_i64 t -> in_i64 (unix_seconds t).
Proof.
  unfold in_i64, unix_seconds, nanos_per_second. intros [L U].
  Z.to_euclidean_division_equations. lia.
Qed.

(** Numbers a builder holds are 64-bit. *)
Definition ranged (b : JwtTokenBuilder) : Prop :=
  (forall t, expires_at_ b = Some t -> in_i64 t) /\ (forall t, not_before_ b = Some t -> in_i64 t) /\
  (forall t, issued_at_ b = Some t -> in_i64 t) /\
  map_Forall (fun _ z => in_i64 z) (Context.integer_claims (claims_ b)).

Lemma emitted_start : emitted (bs "{", true) [].
Proof. exists []. split; [constructor|done]. Qed.

Lemma emitted_object s fields : emitted s fields -> object_text fields (fst s ++ bs "}").
Proof. intros (ts & F & ->). exists ts. split; [done|]. cbn [fst]. by rewrite <- app_assoc. Qed.

Lemma serialize_header_text cfg : object_text (header_fields cfg) (serialize_header cfg).
Proof.
  unfold serialize_header, header_fields. apply emitted_object.
  pose proof (emit_field (bs "alg") _ _ _ _ emitted_start (json_string_text (algorithm_name (issue_algorithm cfg)) : value_text (JString _) _)) as E.
  apply (emit_field (bs "typ") (JString (type_ cfg)) (json_string (type_ cfg))) in E; [|apply json_string_text].
  destruct (len (key_id cfg) =? 0); [by rewrite app_nil_r|].
  apply (emit_field (bs "kid") (JString (key_id cfg))); [done|apply json_string_text].
Qed.

Lemma i64_range z t : i64 z = inr t -> t = z /\ in_i64 z.
Proof.
  unfold i64, in_i64. destruct ((_ <=? _) && _) eqn:E; [|done]. intros [= <-].
  apply andb_true_iff in E as [? ?]. to_prop. done.
Qed.

Lemma expiry_ranged now cfg b exp t :
  ranged b -> expiry_instant now cfg b = inr exp -> exp = Some t -> in_i64 t.
Proof.
  intros (R & _) E ->. unfold expiry_instant in E. destruct (expires_at_ b) as [t'|]; [injection E as <-; auto|].
  destruct (0 <? default_ttl cfg); [|done]. unfold time_add in E. destruct (from_unix_seconds _) as [|d]; [done|].
  cbn in E. destruct (i64 (now + d)) as [|t'] eqn:I; [done|]. cbn in E. injection E as <-.
  by apply i64_range in I as [-> ?].
Qed.

Lemma instant_text t : in_i64 t -> value_text (seconds_value t) (instant_json t).
Proof. intros R. split; [by apply unix_seconds_range|done]. Qed.

Lemma serialize_claims_text `{HashOrderLaws} now b cfg exp :
  in_i64 now -> ranged b -> expiry_instant now cfg b = inr exp ->
  exists text, serialize_claims now b cfg = inr text /\
    object_text (standard_fields cfg b exp (issued_instant now cfg b) ++ custom_fields (claims_ b)) text.
Proof.
  intros N R E. unfold serialize_claims. rewrite E. cbn [result_bind]. eexists. split; [reflexivity|].
  apply emitted_object. unfold standard_fields, custom_fields. rewrite !app_assoc.
  assert (forall a, issued_instant now cfg b = Some a -> in_i64 a) as Ri.
  { destruct R as (_ & _ & R & _). unfold issued_instant. intros a. destruct (issued_at_ b); [intros [= <-]; auto|].
    destruct (include_issued_at cfg); [by intros [= <-]|done]. }
  pose proof (fun t => expiry_ranged now cfg b exp t R E) as Re. destruct R as (_ & Rn & _ & Rc).
  apply emit_claims; [intros; apply json_array_text|]. apply emit_claims; [by intros ? []|].
  apply emit_claims; [intros n a L; split; [by apply (Rc n)|done]|]. apply emit_claims; [intros; apply json_string_text|].
  apply emit_some; [intros a ?; apply instant_text; auto|]. apply emit_some; [intros a ?; apply instant_text; auto|].
  apply emit_some; [intros a ?; apply instant_text; auto|]. apply emit_some; [intros; apply json_string_text|].
  apply emit_text.
  { destruct (scopes_ b) as [|x l]; [constructor|]. cbn [scopes_value scopes_json]. constructor.
    destruct (encode_scopes_as_array cfg); [apply json_array_text|apply json_string_text]. }
  apply emit_text.
  { destruct (audience_ b) as [|x [|y l]]; constructor; [apply json_string_text|apply json_array_text]. }
  apply emit_some; [intros; apply json_string_text|]. apply (emit_some _ _ _ JString _ []); [intros; apply json_string_text|].
  apply emitted_start.
Qed.

(** ** What simdjson reads *)

Section Reading.
Context `{Simdjson}.

(** The element holds the value, and only as its own type. *)
Definition denotes (v : Json) (x : element) : Prop :=
  get_string x = (match v with JString s => Some s | _ => None end) /\
  get_int64 x = (match v with JInt z => Some z | _ => None end) /\
  get_bool x = (match v with JBool b => Some b | _ => None end) /\
  match v with
  | JStrings l => exists xs, get_array x = Some xs /\ Forall2 (fun s y => get_string y = Some s) l xs
  | _ => get_array x = None
  end.

(** The first field with the name. *)
Definition field {A} (k : bytes) (fields : list (bytes * A)) : option A :=
  snd <$> List.find (fun f => bool_decide (f.1 = k)) fields.

Definition denotes_object (fields : list (bytes * Json)) (e : element) : Prop :=
  exists es, get_object e = Some es /\ Forall2 (fun f g => g.1 = f.1 /\ denotes f.2 g.2) fields es /\
    forall k, at_key k e = field k es.

Definition strings_of (v : Json) : list bytes :=
  match v with JString s => [s] | JStrings l => l | _ => [] end.

Definition utf8_fields (fields : list (bytes * Json)) : Prop :=
  Forall (fun f => valid_utf8 f.1 = true /\ Forall (fun s => valid_utf8 s = true) (strings_of f.2)) fields.

End Reading.

(** simdjson parses an object of valid UTF-8 into its fields, in order. *)
Class SimdjsonLaws `{Simdjson} := {
  parse_object : forall fields text, object_text fields text -> utf8_fields fields ->
    exists e, json_parse text = Some e /\ denotes_object fields e
}.

Section ReadBack.
Context `{Simdjson} (fields : list (bytes * Json)) (e : element) (D : denotes_object fields e).

Lemma at_key_field k :
  (field k fields = None /\ at_key k e = None) \/
  (exists v x, field k fields = Some v /\ at_key k e = Some x /\ denotes v x).
Proof using D.
  destruct D as (es & _ & F & K). rewrite K. clear K D. unfold field.
  induction F as [|[n v] [n' x] fields' es' [E V] F IH]; [by left|]. cbn [fst snd] in *. subst n'.
  cbn [List.find fst]. destruct (bool_decide (n = k)); [|apply IH]. right. by exists v, x.
Qed.

Lemma at_string_field k :
  at_string k e = match field k fields with Some (JString s) => Some s | _ => None end.
Proof using D.
  unfold at_string. destruct (at_key_field k) as [[-> ->]|(v & x & -> & -> & (G & _))]; [done|].
  cbn. rewrite G. by destruct v.
Qed.

Lemma json_int_field k :
  get_json_int e k = match field k fields with Some (JInt z) => Some z | _ => None end.
Proof using D.
  unfold get_json_int. destruct (at_key_field k) as [[-> ->]|(v & x & -> & -> & (_ & G & _))]; [done|].
  cbn. rewrite G. by destruct v.
Qed.

Lemma omap_strings (l : list bytes) (xs : list element) :
  Forall2 (fun s y => get_string y = Some s) l xs -> omap get_string xs = l.
Proof. induction 1 as [|s y l xs E F IH]; [done|]. cbn. rewrite E. by f_equal. Qed.

Lemma read_strings_field k :
  read_string_or_array e k =
  match field k fields with Some (JString s) => [s] | Some (JStrings l) => l | _ => [] end.
Proof using D.
  unfold read_string_or_array. rewrite at_string_field.
  destruct (at_key_field k) as [[-> ->]|(v & x & -> & -> & (_ & _ & _ & G))]; [done|]. cbn.
  destruct v; cbn in G; try (by rewrite G); [done|]. destruct G as (xs & -> & F). by apply omap_strings.
Qed.

(** The claim a field becomes. *)
Definition add_claim (c : Context.JwtClaims) (f : bytes * Json) : Context.JwtClaims :=
  match f.2 with
  | JString s => set_string_claim f.1 s c
  | JInt z => set_integer_claim f.1 z c
  | JBool b => set_bool_claim f.1 b c
  | JStrings l => if len l =? 0 then c else set_array_claim f.1 l c
  end.

Lemma read_claims_fields c : read_all_claims e c = for_each add_claim fields c.
Proof using D.
  destruct D as (es & G & F & _). unfold read_all_claims. rewrite G. clear G D. unfold for_each. revert c.
  induction F as [|[n v] [n' x] fields' es' [E (V1 & V2 & V3 & V4)] F IH]; intros c; [done|].
  cbn [fst snd foldl] in *. subst n'. rewrite <- IH. f_equal. unfold add_claim, read_claim. cbn [fst snd].
  rewrite V1, V2, V3. destruct v; try done. destruct V4 as (xs & -> & F'). by rewrite (omap_strings _ _ F').
Qed.
End ReadBack.

#[local] Ltac claim_fold fields c :=
  unfold for_each; revert c; induction fields as [|[? []] ? ?]; intros c; cbn; try done;
  match goal with H : forall c, _ = _ |- _ => rewrite H end; cbn; try done;
  match goal with |- context [len ?l =? 0] => by destruct (len l =? 0) end.

(** Claims are written in order: the last field with a name wins in the map of
    its type, so the claims of the builder, written last, are all there. *)
Lemma add_string_claims fields c :
  Context.string_claims (for_each add_claim fields c) =
  foldl (fun m '(n, v) => <[n := v]> m) (Context.string_claims c)
    (omap (fun f => match f.2 with JString s => Some (f.1, s) | _ => None end) fields).
Proof. claim_fold fields c. Qed.

Lemma add_integer_claims fields c :
  Context.integer_claims (for_each add_claim fields c) =
  foldl (fun m '(n, v) => <[n := v]> m) (Context.integer_claims c)
    (omap (fun f => match f.2 with JInt s => Some (f.1, s) | _ => None end) fields).
Proof. claim_fold fields c. Qed.

Lemma add_bool_claims fields c :
  Context.bool_claims (for_each add_claim fields c) =
  foldl (fun m '(n, v) => <[n := v]> m) (Context.bool_claims c)
    (omap (fun f => match f.2 with JBool s => Some (f.1, s) | _ => None end) fields).
Proof. claim_fold fields c. Qed.

Lemma add_array_claims fields c :
  Context.string_array_claims (for_each add_claim fields c) =
  foldl (fun m '(n, v) => <[n := v]> m) (Context.string_array_claims c)
    (omap (fun f => match f.2 with JStrings l => if len l =? 0 then None else Some (f.1, l) | _ => None end) fields).
Proof. claim_fold fields c. Qed.

Lemma foldl_insert_iterate `{HashOrderLaws} {A} (m m0 : gmap bytes A) :
  m ⊆ foldl (fun m '(n, v) => <[n := v]> m) m0 (iterate m).
Proof.
  apply map_subseteq_spec. intros n v L. apply elem_of_iterate in L.
  assert (NoDup (iterate m).*1) as N by (rewrite iterate_perm; apply NoDup_fst_map_to_list).
  revert m0 L N. generalize (iterate m). intros l. induction l as [|[k w] l IH] using rev_ind; intros m0 L N.
  { by apply not_elem_of_nil in L. }
  rewrite foldl_app. cbn. rewrite fmap_app in N. apply NoDup_app in N as (N1 & N2 & _).
  apply elem_of_app in L as [L|L].
  - rewrite lookup_insert_ne; [by apply IH|]. intros ->. apply (N2 n); [|cbn; apply list_elem_of_here].
    apply list_elem_of_fmap. by exists (n, v).
  - apply list_elem_of_singleton in L. injection L as -> ->. apply lookup_insert_eq.
Qed.

(** Fields of one type, under a selection of that type and of another. *)
Lemma omap_hit {A B} (g : bytes * Json -> option (bytes * B)) (f : A -> Json) (l : list (bytes * A)) (k : A -> B) :
  Forall (fun '(n, v) => g (n, f v) = Some (n, k v)) l ->
  omap g (map (fun '(n, v) => (n, f v)) l) = map (fun '(n, v) => (n, k v)) l.
Proof. induction 1 as [|[n v] l E F IH]; [done|]. cbn. rewrite E. by f_equal. Qed.

Lemma omap_miss {A B} (g : bytes * Json -> option B) (f : A -> Json) (l : list (bytes * A)) :
  (forall n v, g (n, f v) = None) -> omap g (map (fun '(n, v) => (n, f v)) l) = [].
Proof. intros N. induction l as [|[n v] l IH]; [done|]. cbn. by rewrite N. Qed.

Lemma map_pair_id {A} (l : list (bytes * A)) : map (fun '(n, v) => (n, v)) l = l.
Proof. induction l as [|[n v] l IH]; [done|]. cbn. by f_equal. Qed.

(** Every claim of the builder is read back. *)
Lemma custom_claims_read `{HashOrderLaws} std (c c0 : Context.JwtClaims) :
  map_Forall (fun _ l => l <> []) (Context.string_array_claims c) ->
  let r := for_each add_claim (std ++ custom_fields c) c0 in
  Context.string_claims c ⊆ Context.string_claims r /\ Context.integer_claims c ⊆ Context.integer_claims r /\
  Context.bool_claims c ⊆ Context.bool_claims r /\ Context.string_array_claims c ⊆ Context.string_array_claims r.
Proof.
  intros NE r. subst r. unfold custom_fields.
  rewrite add_string_claims, add_integer_claims, add_bool_claims, add_array_claims, !omap_app, !foldl_app.
  split_and!.
  - rewrite (omap_hit _ JString _ (fun v => v)) by (apply Forall_forall; by intros [n v]).
    rewrite !omap_miss by done. rewrite map_pair_id. cbn. apply foldl_insert_iterate.
  - rewrite (omap_hit _ JInt _ (fun v => v)) by (apply Forall_forall; by intros [n v]).
    rewrite !omap_miss by done. rewrite map_pair_id. cbn. apply foldl_insert_iterate.
  - rewrite (omap_hit _ JBool _ (fun v => v)) by (apply Forall_forall; by intros [n v]).
    rewrite !omap_miss by done. rewrite map_pair_id. cbn. apply foldl_insert_iterate.
  - rewrite (omap_hit _ JStrings _ (fun v => v)).
    2:{ apply Forall_forall. intros [n v] I. apply elem_of_iterate in I. specialize (NE n v I). cbn.
        destruct (len v =? 0) eqn:E; [|done]. by apply Admission.len_zero in E. }
    rewrite !omap_miss by done. rewrite map_pair_id. cbn. apply foldl_insert_iterate.
Qed.

(** ** Looking up the standard claims *)

Lemma field_app {A} k (l1 l2 : list (bytes * A)) :
  field k (l1 ++ l2) = match field k l1 with Some v => Some v | None => field k l2 end.
Proof. unfold field. induction l1 as [|[n v] l1 IH]; [done|]. cbn. by destruct (bool_decide (n = k)). Qed.

Lemma or_none {A} (o : option A) : match o with Some v => Some v | None => None end = o.
Proof. by destruct o. Qed.

Lemma field_opt k n o : field k (opt n o) = if bool_decide (n = k) then o else None.
Proof. destruct o; unfold field; cbn; by destruct (bool_decide (n = k)). Qed.

(** The name is none of the builder's own claims. *)
Definition own_name (c : Context.JwtClaims) (n : bytes) : Prop :=
  is_Some (Context.string_claims c !! n) \/ is_Some (Context.integer_claims c !! n) \/
  is_Some (Context.bool_claims c !! n) \/ is_Some (Context.string_array_claims c !! n).

Lemma field_iterate_None `{HashOrderLaws} {A} (f : A -> Json) (m : gmap bytes A) k :
  m !! k = None -> field k (map (fun '(n, v) => (n, f v)) (iterate m)) = None.
Proof.
  intros N. assert (Forall (fun '(n, v) => n <> k) (iterate m)) as F.
  { apply Forall_forall. intros [n v] I ->. apply elem_of_iterate in I. congruence. }
  unfold field. induction F as [|[n v] l E F IH]; [done|]. cbn. by rewrite bool_decide_false.
Qed.

Lemma field_custom_None `{HashOrderLaws} c k : ~ own_name c k -> field k (custom_fields c) = None.
Proof.
  intros N. unfold custom_fields. rewrite !field_app, !field_iterate_None; [done|..];
    apply eq_None_not_Some; intros I; apply N; unfold own_name; auto.
Qed.

Definition reserved : list bytes := [bs "sub"; bs "iss"; bs "aud"; bs "jti"; bs "exp"; bs "nbf"; bs "iat"].

#[local] Ltac look :=
  unfold standard_fields; rewrite !field_app, !field_opt;
  repeat match goal with
  | |- context [bool_decide (?a = ?b)] =>
      first [rewrite (bool_decide_true (a = b)) by done | rewrite (bool_decide_false (a = b)) by (done || congruence)]
  end.

Lemma standard_lookup `{HashOrderLaws} cfg b exp iat :
  (issue_scope_claim cfg) ∉ reserved ->
  (forall n, n ∈ issue_scope_claim cfg :: reserved -> ~ own_name (claims_ b) n) ->
  let fs := standard_fields cfg b exp iat ++ custom_fields (claims_ b) in
  field (bs "sub") fs = JString <$> subject_ b /\ field (bs "iss") fs = JString <$> issuer_ b /\
  field (bs "aud") fs = audience_value (audience_ b) /\
  field (issue_scope_claim cfg) fs = scopes_value cfg (scopes_ b) /\
  field (bs "jti") fs = JString <$> token_id_ b /\ field (bs "exp") fs = seconds_value <$> exp /\
  field (bs "nbf") fs = seconds_value <$> not_before_ b /\ field (bs "iat") fs = seconds_value <$> iat.
Proof.
  intros S O fs. subst fs. repeat setoid_rewrite (field_app _ (standard_fields _ _ _ _)).
  unfold reserved in *. rewrite !not_elem_of_cons in S. destruct_hyps.
  rewrite !field_custom_None by (apply O; set_solver). split_and!; look; by rewrite ?or_none.
Qed.

(** ** Scopes *)

Definition word (w : bytes) : Prop := w <> [] /\ Forall (fun c => isspace c = false) w.

Lemma take_while_app p (w rest : bytes) c : Forall (fun x => p x = true) w -> p c = false ->
  take_while p (w ++ c :: rest) = w /\ drop_while p (w ++ c :: rest) = c :: rest.
Proof.
  intros F N. induction F as [|x w E F [IH1 IH2]]; cbn; [by rewrite N|]. rewrite E, IH1, IH2. done.
Qed.

Lemma take_while_all p (w : bytes) : Forall (fun x => p x = true) w -> take_while p w = w /\ drop_while p w = [].
Proof. induction 1 as [|x w E F [IH1 IH2]]; cbn; [done|]. by rewrite E, IH1, IH2. Qed.

Lemma drop_space_word w rest : word w -> drop_while isspace (w ++ rest) = w ++ rest.
Proof. intros [N F]. destruct w as [|c w]; [done|]. inversion F; subst. cbn. by rewrite H1. Qed.

Lemma word_not_sep w : word w -> Forall (fun c => negb (isspace c) = true) w.
Proof. intros [_ F]. eapply Forall_impl; [exact F|]. cbn. by intros c ->. Qed.

Lemma word_len w : word w -> (len w =? 0) = false.
Proof. intros [N _]. destruct (len w =? 0) eqn:E; [|done]. by apply Admission.len_zero in E. Qed.

(** Joining with spaces and splitting at white space. *)
Lemma split_join_words ws fuel : Forall word ws -> (length (join_with (bs " ") ws) < fuel)%nat ->
  split_fuel isspace fuel (join_with (bs " ") ws) = ws /\
  (ws <> [] -> split_fuel isspace (S fuel) (bs " " ++ join_with (bs " ") ws) = ws).
Proof.
  intros F. revert fuel. induction F as [|w ws Hw F IH]; intros fuel L; [split; [by destruct fuel|done]|].
  assert (split_fuel isspace fuel (join_with (bs " ") (w :: ws)) = w :: ws /\
    split_fuel isspace (S fuel) (bs " " ++ join_with (bs " ") (w :: ws)) = w :: ws) as [E1 E2]; [|done].
  destruct fuel as [|fuel]; [lia|].
  assert (forall fuel' t, (t = join_with (bs " ") (w :: ws) \/ t = bs " " ++ join_with (bs " ") (w :: ws)) ->
    (length (join_with (bs " ") (w :: ws)) < S fuel')%nat -> split_fuel isspace (S fuel') t = w :: ws) as G.
  2:{ split; apply G; auto. }
  clear fuel L. intros fuel t Ht L. assert (t <> []) as Nt.
  { destruct Ht as [-> | ->]; [|done]. destruct Hw as [Nw _]. destruct w; [done|]. by destruct ws. }
  assert (drop_while isspace t = join_with (bs " ") (w :: ws)) as Dt.
  { destruct Ht as [-> | ->]; [|change (bs " " ++ ?x) with (" "%char :: x); cbn [drop_while]; change (isspace " ") with true; cbv iota];
    (destruct ws; cbn [join_with]; [rewrite <- (app_nil_r w) at 1; rewrite drop_space_word by done; by rewrite app_nil_r|by apply drop_space_word]). }
  cbn [split_fuel]. destruct t as [|c t]; [done|]. rewrite Dt. clear Ht Nt Dt.
  destruct ws as [|w' ws].
  - cbn [join_with] in *. destruct (take_while_all _ _ (word_not_sep w Hw)) as [-> ->]. rewrite word_len by done. by destruct fuel.
  - destruct (take_while_app _ _ (join_with (bs " ") (w' :: ws)) " "%char (word_not_sep w Hw) eq_refl) as [E1 E2].
    change (join_with (bs " ") (w :: w' :: ws)) with (w ++ " "%char :: join_with (bs " ") (w' :: ws)) in *.
    rewrite E1, E2, word_len by done. cbn [app]. f_equal.
    destruct Hw as [Nw _]. rewrite length_app in L. cbn [length] in L. destruct w; [done|]. cbn [length] in L.
    destruct fuel as [|fuel]; [lia|]. change (" "%char :: ?x) with (bs " " ++ x). apply IH; [|done].
    lia.
Qed.

Lemma split_space_join ws : Forall word ws -> split_space_separated (space_join ws) = ws.
Proof.
  intros F. unfold split_space_separated, space_join. rewrite separated_join.
  replace (map (fun v => v) ws) with ws by (by rewrite List.map_id). apply split_join_words; [done|lia].
Qed.

(** ** A verifier for an issuer *)

Section Verifier.
Context `{OpensslLaws} `{SimdjsonLaws} `{HashOrderLaws}.

(** The verifier's key checks what the issuer's key signs. *)
Definition keys_agree (icfg : IssuerConfig) (cfg : Config) : Prop :=
  match issue_algorithm icfg with
  | HS256 => hmac_secret cfg = issue_secret icfg
  | RS256 => rsa_public_key_pem cfg <> [] /\
      forall input sig, sign_rs256 input (rsa_private_key_pem icfg) = inr sig ->
        Admission.rsa_verifies (rsa_public_key_pem cfg) input sig
  end.

(** The configurations belong together and the builder can be told apart from
    the standard claims: no claim of its own takes a standard name, its numbers
    are 64-bit, its texts UTF-8, its scopes words and its arrays not empty. *)
Record Compatible (icfg : IssuerConfig) (cfg : Config) (b : JwtTokenBuilder) : Prop := {
  c_keys : keys_agree icfg cfg;
  c_algorithm : issue_algorithm icfg ∈ allowed_algorithms cfg;
  c_scope_claim : scope_claim cfg = issue_scope_claim icfg;
  c_scope_name : issue_scope_claim icfg ∉ reserved;
  c_names : forall n, n ∈ issue_scope_claim icfg :: reserved -> ~ own_name (claims_ b) n;
  c_ranged : ranged b;
  c_scopes : encode_scopes_as_array icfg = false -> Forall word (scopes_ b);
  c_arrays : map_Forall (fun _ l => l <> []) (Context.string_array_claims (claims_ b));
  c_utf8 : utf8_fields (header_fields icfg) /\
           forall exp iat, utf8_fields (standard_fields icfg b exp iat ++ custom_fields (claims_ b))
}.

(** The builder has what the verifier's policy asks for. *)
Record Entitled (cfg : Config) (b : JwtTokenBuilder) : Prop := {
  e_issuer : forall i, required_issuer cfg = Some i -> issuer_ b = Some i;
  e_audiences : forall a, a ∈ required_audiences cfg -> a ∈ audience_ b;
  e_scopes : forall s, s ∈ required_scopes cfg -> s ∈ scopes_ b;
  e_claims : required_claims cfg ⊆ Context.string_claims (claims_ b)
}.

Definition whole_seconds (t : Z) : Z := unix_seconds t * nanos_per_second.

(** The token is checked in time, by a clock whose sums fit. *)
Record Timely (cfg : Config) (exp nbf iat : option Z) (now : Z) : Prop := {
  t_skew : in_i64 (clock_skew cfg * nanos_per_second);
  t_clock : in_i64 (now - clock_skew cfg * nanos_per_second) /\ in_i64 (now + clock_skew cfg * nanos_per_second);
  t_expiry : match exp with
             | Some t => now - clock_skew cfg * nanos_per_second < whole_seconds t
             | None => require_expiration cfg = false
             end;
  t_passed : forall t, nbf = Some t \/ iat = Some t ->
             whole_seconds t <= now + clock_skew cfg * nanos_per_second
}.

Lemma whole_seconds_range t : in_i64 t -> in_i64 (whole_seconds t).
Proof.
  unfold in_i64, whole_seconds, unix_seconds, nanos_per_second. intros [L U].
  Z.to_euclidean_division_equations. lia.
Qed.

Lemma i64_ok z : in_i64 z -> i64 z = inr z.
Proof. unfold in_i64, i64. intros [L U]. by rewrite (proj2 (Z.leb_le _ _)), (proj2 (Z.ltb_lt _ _)) by lia. Qed.

Lemma check_expiration_ok cfg payload exp nbf iat now :
  Timely cfg exp nbf iat now -> (forall t, exp = Some t -> in_i64 t) ->
  get_json_int payload (bs "exp") = unix_seconds <$> exp ->
  check_expiration now cfg payload = inr (whole_seconds <$> exp).
Proof.
  intros [K [C _] E _] R J. unfold check_expiration. rewrite J. destruct exp as [t|]; cbn [fmap option_fmap option_map].
  - unfold from_unix_seconds. rewrite i64_ok by (by apply whole_seconds_range, R). cbn.
    unfold time_sub, from_unix_seconds. rewrite (i64_ok _ K). cbn. rewrite (i64_ok _ C). cbn.
    rewrite (proj2 (Z.leb_gt _ _)) by (unfold whole_seconds in E; lia). done.
  - by rewrite E.
Qed.

Lemma check_past_ok validate claim error cfg payload exp nbf iat o now :
  Timely cfg exp nbf iat now -> (forall t, o = Some t -> in_i64 t /\ (nbf = Some t \/ iat = Some t)) ->
  get_json_int payload claim = unix_seconds <$> o ->
  check_past validate claim error now cfg payload = inr (if validate then whole_seconds <$> o else None).
Proof.
  intros [K [_ C] _ P] R J. unfold check_past. destruct validate; [|done]. rewrite J.
  destruct o as [t|]; cbn [fmap option_fmap option_map]; [|done]. destruct (R t eq_refl) as [Rt Ot].
  unfold from_unix_seconds. rewrite i64_ok by (by apply whole_seconds_range). cbn.
  unfold time_add, from_unix_seconds. rewrite (i64_ok _ K). cbn. rewrite (i64_ok _ C). cbn.
  specialize (P t Ot). unfold whole_seconds in P. rewrite (proj2 (Z.ltb_ge _ _)) by lia. done.
Qed.

Lemma no_dot d : "."%char ∉ base64url_encode d.
Proof.
  destruct (encoded_body d) as (body & _ & F & _ & ->).
  intros I. apply list_elem_of_fmap in I as (c & T & I). rewrite Forall_forall in F.
  destruct (F c I) as [A|[-> | ->]]; [|done|done].
  assert (forall c, negb (isalnum c) || negb (bool_decide (to_url c = "."%char)) = true) as Q
    by (apply byte_forall; vm_compute; reflexivity).
  specialize (Q c). rewrite A in Q. cbn in Q. apply negb_true_iff in Q. by to_prop.
Qed.

(** The parts of an issued token. *)
Lemma issued_parts now icfg b token payload :
  serialize_claims now b icfg = inr payload -> issue now icfg b = inr token ->
  exists sig, parse_compact_jwt token = inr (mkParsed (serialize_header icfg) payload sig
      (base64url_encode (serialize_header icfg) ++ bs "." ++ base64url_encode payload)) /\
    match issue_algorithm icfg with
    | HS256 => sign_hs256 (base64url_encode (serialize_header icfg) ++ bs "." ++ base64url_encode payload) (issue_secret icfg)
    | RS256 => sign_rs256 (base64url_encode (serialize_header icfg) ++ bs "." ++ base64url_encode payload) (rsa_private_key_pem icfg)
    end = inr sig.
Proof.
  intros S I. unfold issue in I. rewrite S in I. cbn [may_throw result_bind] in I.
  destruct (match issue_algorithm icfg with HS256 => _ | RS256 => _ end) as [|sig]; [done|].
  cbn [result_bind] in I. injection I as <-. exists sig. split; [|done].
  change (bs "." ++ ?x) with ("."%char :: x). rewrite <- app_assoc. cbn [app].
  rewrite (Admission.parse_compact_parts (base64url_encode _) (base64url_encode payload)) by apply no_dot.
  by rewrite !base64url_roundtrip.
Qed.

Lemma issued_signature icfg cfg parsed :
  keys_agree icfg cfg ->
  match issue_algorithm icfg with
  | HS256 => sign_hs256 (signing_input parsed) (issue_secret icfg)
  | RS256 => sign_rs256 (signing_input parsed) (rsa_private_key_pem icfg)
  end = inr (signature parsed) ->
  verify_signature (algorithm_name (issue_algorithm icfg)) parsed cfg = inr ().
Proof.
  unfold keys_agree, verify_signature. destruct (issue_algorithm icfg); cbn [algorithm_name].
  - intros K E. rewrite bool_decide_true by done. unfold verify_hs256, sign_hs256 in *. rewrite K.
    destruct (len (issue_secret icfg) =? 0); [done|]. destruct (HMAC _ _) as [d|]; [|done]. cbn in *.
    injection E as ->. by rewrite (proj2 (Admission.constant_time_equal_spec _ _)).
  - intros [N K] E. rewrite bool_decide_false, bool_decide_true by done. unfold verify_rs256.
    destruct (len _ =? 0) eqn:L; [by apply Admission.len_zero in L|].
    destruct (K _ _ E) as (bio & key & ctx & c1 & c2 & -> & E2 & E3 & E4 & E5 & E6).
    cbn. rewrite E2. cbn. rewrite E3. cbn. rewrite E4. cbn. rewrite E5. cbn. by rewrite E6.
Qed.

(** The scopes of the token, in either form. *)
Lemma scopes_read icfg cfg b fields e :
  denotes_object fields e -> Compatible icfg cfg b ->
  field (issue_scope_claim icfg) fields = scopes_value icfg (scopes_ b) ->
  read_scopes e (scope_claim cfg) = scopes_ b.
Proof.
  intros D C F. unfold read_scopes. rewrite (c_scope_claim _ _ _ C), (at_string_field fields e D), (read_strings_field fields e D), F.
  destruct (scopes_ b) as [|s l] eqn:E; [done|]. cbn [scopes_value].
  destruct (encode_scopes_as_array icfg) eqn:A; [done|]. rewrite <- E. apply split_space_join. by apply (c_scopes _ _ _ C).
Qed.

Lemma audience_read b fields e :
  denotes_object fields e -> field (bs "aud") fields = audience_value (audience_ b) ->
  read_string_or_array e (bs "aud") = audience_ b.
Proof.
  intros D F. rewrite (read_strings_field fields e D), F. by destruct (audience_ b) as [|x [|y l]].
Qed.

(** The strings and instants of the token. *)
Lemma string_read {k} {o : option bytes} fields e :
  denotes_object fields e -> field k fields = JString <$> o -> get_json_string e k = o.
Proof. intros D F. unfold get_json_string. rewrite (at_string_field fields e D), F. by destruct o. Qed.

Lemma instant_read {k} {o : option Z} fields e :
  denotes_object fields e -> field k fields = seconds_value <$> o -> get_json_int e k = unix_seconds <$> o.
Proof. intros D F. rewrite (json_int_field fields e D), F. by destruct o. Qed.

End Verifier.

(** [C16] A token that [issue] produced is accepted by a verifier
    with the matching key and a policy the token meets, as long as it is in
    time: the verified principal has the subject, issuer, audience, scopes and
    id of the builder, the expiry in whole seconds, and every claim of its own. *)
Theorem issued_token_accepted `{OpensslLaws} `{SimdjsonLaws} `{HashOrderLaws}
    icfg cfg b exp now now' token
    (C : Compatible icfg cfg b) (P : Entitled cfg b) (N : in_i64 now)
    (E : expiry_instant now icfg b = inr exp)
    (T : Timely cfg exp (not_before_ b) (issued_instant now icfg b) now')
    (I : issue now icfg b = inr token) :
  exists v, verify_token now' token cfg = inr v /\
    let p := principal v in
    algorithm v = algorithm_name (issue_algorithm icfg) /\
    Context.jwt_subject p = default [] (subject_ b) /\ Context.issuer p = default [] (issuer_ b) /\
    Context.audience p = audience_ b /\ Context.jwt_scopes p = scopes_ b /\
    Context.token_id p = default [] (token_id_ b) /\ Context.expires_at p = whole_seconds <$> exp /\
    Context.string_claims (claims_ b) ⊆ Context.string_claims (Context.claims p) /\
    Context.integer_claims (claims_ b) ⊆ Context.integer_claims (Context.claims p) /\
    Context.bool_claims (claims_ b) ⊆ Context.bool_claims (Context.claims p) /\
    Context.string_array_claims (claims_ b) ⊆ Context.string_array_claims (Context.claims p).
Proof.
  destruct (serialize_claims_text now b icfg exp N (c_ranged _ _ _ C) E) as (payload & S & O).
  destruct (issued_parts now icfg b token payload S I) as (sig & Pa & Sg).
  set (fields := standard_fields icfg b exp (issued_instant now icfg b) ++ custom_fields (claims_ b)) in *.
  destruct (parse_object _ _ (serialize_header_text icfg) (proj1 (c_utf8 _ _ _ C))) as (header & Hh & Dh).
  destruct (parse_object _ _ O (proj2 (c_utf8 _ _ _ C) _ _)) as (e & He & De).
  destruct (standard_lookup icfg b exp (issued_instant now icfg b) (c_scope_name _ _ _ C) (c_names _ _ _ C))
    as (F1 & F2 & F3 & F4 & F5 & F6 & F7 & F8). fold fields in F1, F2, F3, F4, F5, F6, F7, F8.
  destruct (custom_claims_read (standard_fields icfg b exp (issued_instant now icfg b)) (claims_ b) no_claims (c_arrays _ _ _ C))
    as (K1 & K2 & K3 & K4). fold fields in K1, K2, K3, K4. rewrite <- (read_claims_fields fields e De) in K1, K2, K3, K4.
  pose proof (c_ranged _ _ _ C) as (_ & Rn & Ri & _).
  pose proof (fun t => expiry_ranged now icfg b exp t (c_ranged _ _ _ C) E) as Re.
  unfold verify_token. rewrite Pa. cbn [result_bind header_json payload_json]. rewrite Hh. cbn [expect result_bind].
  rewrite (string_read (o := Some (algorithm_name (issue_algorithm icfg))) (header_fields icfg) header Dh) by done.
  rewrite (bool_decide_false (algorithm_name _ = bs "none")) by (by destruct (issue_algorithm icfg)).
  rewrite (proj2 (Admission.algorithm_allowed_spec cfg _)) by (eexists; split; [done|apply (c_algorithm _ _ _ C)]).
  cbn [orb negb]. rewrite (issued_signature icfg cfg) by (apply (c_keys _ _ _ C) || done). cbn [result_bind].
  rewrite He. cbn [expect result_bind].
  rewrite (check_expiration_ok cfg e exp _ _ now' T Re (instant_read fields e De F6)). cbn [result_bind].
  rewrite (check_past_ok _ _ _ cfg e exp _ _ (not_before_ b) now' T) by (auto || apply (instant_read fields e De F7)).
  cbn [result_bind].
  rewrite (check_past_ok _ _ _ cfg e exp _ _ (issued_instant now icfg b) now' T).
  2:{ intros t It. split; [|by right]. unfold issued_instant in It. destruct (issued_at_ b); [injection It as <-; auto|].
      destruct (include_issued_at icfg); [by injection It as <-|done]. }
  2:{ apply (instant_read fields e De F8). }
  cbn [result_bind].
  assert (Admission.meets_policy cfg e) as MP.
  { destruct P as [P1 P2 P3 P4]. split_and!.
    - intros i Ri'. rewrite (string_read fields e De F2). by rewrite (P1 i Ri').
    - rewrite (audience_read b fields e De F3). done.
    - rewrite (scopes_read icfg cfg b fields e De C F4). done.
    - intros n v Rn'. unfold string. eapply lookup_weaken; [|exact K1]. eapply lookup_weaken; [exact Rn'|done]. }
  apply Admission.policy_checks in MP as (M1 & M2 & M3 & M4). unfold check_all.
  rewrite M1. cbn [result_bind]. rewrite M2. cbn [result_bind]. rewrite M3. cbn [result_bind]. rewrite M4. cbn [result_bind].
  eexists. split; [reflexivity|]. cbv zeta. cbn [algorithm principal Context.jwt_subject Context.issuer Context.audience
    Context.jwt_scopes Context.token_id Context.expires_at Context.claims].
  rewrite (string_read fields e De F1), (string_read fields e De F2), (string_read fields e De F5),
    (audience_read b fields e De F3), (scopes_read icfg cfg b fields e De C F4). done.
Qed.

End Issuing.
