(* ===== verification/JwtWitness.v ===== *)
(** * Instances for JSON web tokens

    Concrete libraries that satisfy what [JwtProps] assumes of OpenSSL, simdjson
    and [unordered_map]: base64 as OpenSSL does it, a parser of the JSON an
    issuer writes, and a keyed checksum in place of the HMAC.  With them the
    theorems are applied to a token, and the faults of the code are shown. *)

From S2P Require Import Prelude CxxString HttpMessage WebSocket Middleware WsHandshake Jwt JwtProps.
Import Middleware Jwt Issuing.

Module RefBase64.

Definition char_of (v : Z) : byte :=
  if v <? 26 then byte_of_Z (65 + v) else if v <? 52 then byte_of_Z (71 + v)
  else if v <? 62 then byte_of_Z (v - 4) else if v =? 62 then "+"%char else "/"%char.

(** [=] counts as zero. *)
Definition val_of (c : byte) : option Z :=
  let v := byte_val c in
  if (65 <=? v) && (v <=? 90) then Some (v - 65) else if (97 <=? v) && (v <=? 122) then Some (v - 71)
  else if (48 <=? v) && (v <=? 57) then Some (v + 4) else if v =? 43 then Some 62
  else if v =? 47 then Some 63 else if v =? 61 then Some 0 else None.

Definition sextets (n : Z) : bytes :=
  [char_of (n / 262144); char_of (n / 4096 mod 64); char_of (n / 64 mod 64); char_of (n mod 64)].

Fixpoint encode (d : bytes) : bytes :=
  match d with
  | x :: y :: z :: r => sextets (65536 * byte_val x + 256 * byte_val y + byte_val z) ++ encode r
  | [x; y] => take 3 (sextets (65536 * byte_val x + 256 * byte_val y)) ++ bs "="
  | [x] => take 2 (sextets (65536 * byte_val x)) ++ bs "=="
  | [] => []
  end.

Fixpoint decode (s : bytes) : option bytes :=
  match s with
  | [] => Some []
  | a :: b :: c :: d :: r =>
      match val_of a, val_of b, val_of c, val_of d with
      | Some a, Some b, Some c, Some d =>
          let n := 262144 * a + 4096 * b + 64 * c + d in
          match decode r with
          | Some rest => Some (byte_of_Z (n / 65536) :: byte_of_Z (n / 256 mod 256) :: byte_of_Z (n mod 256) :: rest)
          | None => None
          end
      | _, _, _, _ => None
      end
  | _ => None
  end.

Lemma sextet_cases (P : Z -> bool) : forallb P (map Z.of_nat (seq 0 64)) = true -> forall v, 0 <= v < 64 -> P v = true.
Proof.
  intros F v R. rewrite forallb_forall in F. apply F. apply in_map_iff. exists (Z.to_nat v).
  split; [lia|]. apply in_seq. lia.
Qed.

Lemma char_of_base64 v : 0 <= v < 64 -> base64_char (char_of v).
Proof.
  intros R. assert (forallb (fun v => isalnum (char_of v) || bool_decide (char_of v = "+"%char) ||
    bool_decide (char_of v = "/"%char)) (map Z.of_nat (seq 0 64)) = true) as V by (vm_compute; reflexivity).
  pose proof (sextet_cases _ V v R) as B. cbv beta in B.
  apply orb_true_iff in B as [B|B]; [apply orb_true_iff in B as [B|B]|]; to_prop; unfold base64_char; auto.
Qed.

Lemma val_char v : 0 <= v < 64 -> val_of (char_of v) = Some v.
Proof.
  intros R. assert (forallb (fun v => bool_decide (val_of (char_of v) = Some v)) (map Z.of_nat (seq 0 64)) = true) as V
    by (vm_compute; reflexivity).
  pose proof (sextet_cases _ V v R) as B. cbv beta in B. by to_prop.
Qed.

(** Three bytes at a time. *)
Lemma three_ind (P : bytes -> Prop) :
  P [] -> (forall x, P [x]) -> (forall x y, P [x; y]) ->
  (forall x y z r, P r -> P (x :: y :: z :: r)) -> forall d, P d.
Proof.
  intros P0 P1 P2 P3 d. enough (forall n (d : bytes), (length d <= n)%nat -> P d) as G by (by apply (G (length d))).
  intros n. induction n as [|n IH]; intros [|x [|y [|z r]]] L; auto; cbn in L; [lia..|]. apply P3, IH. lia.
Qed.

Lemma padding_step x y z r : padding (x :: y :: z :: r) = padding r.
Proof. unfold padding. cbn [length]. replace (S (S (S (length r)))) with (length r + 1 * 3)%nat by lia. by rewrite Nat.Div0.mod_add. Qed.

Lemma sextets_base64 n : 0 <= n < 16777216 -> Forall base64_char (sextets n).
Proof.
  intros R. unfold sextets. do 4 (apply Forall_cons; split; [apply char_of_base64; dm_lia|]). constructor.
Qed.

Lemma encode_shape_ok d : exists body,
  encode d = body ++ replicate (padding d) "="%char /\ Forall base64_char body /\ len (encode d) mod 4 = 0.
Proof.
  induction d as [|x|x y|x y z r (body & E & F & L)] using three_ind.
  - exists []. done.
  - exists (take 2 (sextets (65536 * byte_val x))). split_and!; [done| |done].
    apply Forall_take, sextets_base64. pose proof (byte_val_range x). lia.
  - exists (take 3 (sextets (65536 * byte_val x + 256 * byte_val y))). split_and!; [done| |done].
    apply Forall_take, sextets_base64. pose proof (byte_val_range x). pose proof (byte_val_range y). lia.
  - exists (sextets (65536 * byte_val x + 256 * byte_val y + byte_val z) ++ body). rewrite padding_step.
    cbn [encode]. split_and!; [by rewrite E, app_assoc| |].
    + apply Forall_app. split; [apply sextets_base64|done].
      pose proof (byte_val_range x). pose proof (byte_val_range y). pose proof (byte_val_range z). lia.
    + rewrite len_app. replace (len (sextets _)) with 4 by done. dm_lia.
Qed.

Lemma decode_sextets n rest : 0 <= n < 16777216 -> decode (sextets n ++ rest) =
  match decode rest with
  | Some r => Some (byte_of_Z (n / 65536) :: byte_of_Z (n / 256 mod 256) :: byte_of_Z (n mod 256) :: r)
  | None => None
  end.
Proof.
  intros R. unfold sextets. cbn [app decode]. rewrite !val_char by dm_lia.
  replace (262144 * (n / 262144) + 4096 * (n / 4096 mod 64) + 64 * (n / 64 mod 64) + n mod 64) with n by dm_lia. done.
Qed.

Lemma decode_encode_ok d : decode (encode d) = Some (d ++ replicate (padding d) (byte_of_Z 0)).
Proof.
  induction d as [|x|x y|x y z r IH] using three_ind.
  - done.
  - pose proof (byte_val_range x). cbn [encode]. unfold sextets. cbn [take app bs list_ascii_of_string decode].
    rewrite !val_char by dm_lia. change (val_of "="%char) with (Some 0). cbn zeta iota beta.
    replace (262144 * _ + _ + _ + 0) with (65536 * byte_val x) by dm_lia.
    replace (65536 * byte_val x / 65536) with (byte_val x) by dm_lia.
    replace (65536 * byte_val x / 256 mod 256) with 0 by dm_lia. replace (65536 * byte_val x mod 256) with 0 by dm_lia.
    by rewrite byte_of_val.
  - pose proof (byte_val_range x). pose proof (byte_val_range y). cbn [encode]. unfold sextets.
    cbn [take app bs list_ascii_of_string decode].
    rewrite !val_char by dm_lia. change (val_of "="%char) with (Some 0). cbn zeta iota beta.
    set (n := 65536 * byte_val x + 256 * byte_val y). replace (262144 * _ + _ + _ + 0) with n by (unfold n; dm_lia).
    replace (n / 65536) with (byte_val x) by (unfold n; dm_lia).
    replace (n / 256 mod 256) with (byte_val y) by (unfold n; dm_lia). replace (n mod 256) with 0 by (unfold n; dm_lia).
    by rewrite !byte_of_val.
  - pose proof (byte_val_range x). pose proof (byte_val_range y). pose proof (byte_val_range z).
    cbn [encode]. rewrite decode_sextets, IH, padding_step by lia.
    set (n := 65536 * byte_val x + 256 * byte_val y + byte_val z).
    replace (n / 65536) with (byte_val x) by (unfold n; dm_lia).
    replace (n / 256 mod 256) with (byte_val y) by (unfold n; dm_lia).
    replace (n mod 256) with (byte_val z) by (unfold n; dm_lia). by rewrite !byte_of_val.
Qed.
End RefBase64.

(** ** The JSON of an issuer *)

Module RefJson.

Definition prepend {A} (x : A) (o : option (list A * bytes)) : option (list A * bytes) :=
  match o with Some (l, r) => Some (x :: l, r) | None => None end.

(** A string after its opening quote. *)
Fixpoint body (s : bytes) : option (bytes * bytes) :=
  match s with
  | [] => None
  | c :: r =>
      if bool_decide (c = quote) then Some ([], r)
      else if bool_decide (c = backslash) then
        match r with
        | [] => None
        | e :: r1 =>
            match escape_value e with
            | Some v => prepend (byte_of_Z v) (body r1)
            | None =>
                match r1 with
                | _ :: _ :: x :: y :: r2 =>
                    match digit_val 16 x, digit_val 16 y with
                    | Some vx, Some vy => prepend (byte_of_Z (16 * vx + vy)) (body r2)
                    | _, _ => None
                    end
                | _ => None
                end
            end
        end
      else prepend c (body r)
  end.

Definition string_value (s : bytes) : option (bytes * bytes) :=
  match s with
  | c :: r => if bool_decide (c = quote) then body r else None
  | [] => None
  end.

(** Items separated by commas, up to the closing character. *)
Fixpoint items {A} (item : bytes -> option (A * bytes)) (close : byte) (fuel : nat) (s : bytes) :
    option (list A * bytes) :=
  match fuel with
  | O => None
  | S fuel =>
      match item s with
      | Some (v, c :: r) =>
          if bool_decide (c = ","%char) then prepend v (items item close fuel r)
          else if bool_decide (c = close) then Some ([v], r) else None
      | _ => None
      end
  end.

Definition sequence {A} (item : bytes -> option (A * bytes)) (close : byte) (s : bytes) : option (list A * bytes) :=
  match s with
  | c :: r => if bool_decide (c = close) then Some ([], r) else items item close (length s) s
  | [] => None
  end.

Definition number (s : bytes) : Z * bytes :=
  match s with
  | "-"%char :: r => let '(n, r) := digits_run 10 0 r in (- n, r)
  | _ => digits_run 10 0 s
  end.

Definition value (s : bytes) : option (Json * bytes) :=
  match s with
  | [] => None
  | c :: r =>
      if bool_decide (c = quote) then '(v, r) ← body r; Some (JString v, r)
      else if bool_decide (c = "["%char) then '(l, r) ← sequence string_value "]"%char r; Some (JStrings l, r)
      else if bool_decide (c = "t"%char) then Some (JBool true, drop 3 r)
      else if bool_decide (c = "f"%char) then Some (JBool false, drop 4 r)
      else let '(n, r) := number s in Some (JInt n, r)
  end.

Definition field_value (s : bytes) : option (bytes * Json * bytes) :=
  '(n, r) ← string_value s; '(v, r) ← value (drop 1 r); Some (n, v, r).

Definition document (s : bytes) : option (list (bytes * Json)) :=
  match s with
  | "{"%char :: r => fst <$> sequence field_value "}"%char r
  | _ => None
  end.

Lemma body_text v t rest : string_body v t -> body (t ++ quote :: rest) = Some (v, rest).
Proof.
  induction 1 as [|c s t L Q B T IH|e v s t E T IH|x y vx vy s t Ex Ey L T IH]; cbn [app body].
  - by rewrite bool_decide_true.
  - rewrite !bool_decide_false by done. by rewrite IH.
  - rewrite (bool_decide_false (backslash = quote)) by done. rewrite bool_decide_true by done. rewrite E. by rewrite IH.
  - rewrite (bool_decide_false (backslash = quote)) by done. rewrite bool_decide_true by done.
    change (escape_value "u") with (@None Z). cbn iota. rewrite Ex, Ey, IH. done.
Qed.

Lemma string_value_text v t rest : string_text v t -> string_value (t ++ rest) = Some (v, rest).
Proof.
  intros (b & B & ->). cbn [app string_value]. rewrite bool_decide_true by done. rewrite <- app_assoc.
  by apply body_text.
Qed.

(** The character after a value. *)
Definition stops (rest : bytes) : Prop := exists c r, rest = c :: r /\ digit_val 10 c = None.

Lemma number_text z rest : stops rest -> number (to_dec_signed z ++ rest) = (z, rest).
Proof.
  intros (c & r & -> & N). unfold to_dec_signed.
  assert (forall n, 0 <= n -> digits_run 10 0 (to_dec n ++ c :: r) = (n, c :: r)) as G.
  { intros n Hn. destruct (to_dec_spec n Hn) as (D1 & D2 & D3). rewrite digits_run_app by done. rewrite D3. cbn. by rewrite N. }
  destruct (Z.ltb_spec z 0).
  - cbn [app number]. rewrite G by lia. f_equal. lia.
  - assert (exists x l, to_dec z = x :: l /\ x <> "-"%char) as (x & l & E & X).
    { destruct (to_dec_spec z ltac:(lia)) as (D1 & D2 & D3). destruct (to_dec z) as [|x l]; [done|]. exists x, l. split; [done|].
      intros ->. inversion D2 as [|? ? [? Y] ?]. by vm_compute in Y. }
    specialize (G z ltac:(lia)). rewrite E in *. cbn [app] in *. unfold number.
    destruct x as [[] [] [] [] [] [] [] []]; done.
Qed.

Lemma stops_cons c r : digit_val 10 c = None -> stops (c :: r).
Proof. intros N. by exists c, r. Qed.

Section Items.
Context {A : Type} (item : bytes -> option (A * bytes)) (P : A -> bytes -> Prop) (close : byte).
Hypothesis item_text : forall v t rest, P v t -> stops rest -> item (t ++ rest) = Some (v, rest).
Hypothesis item_quote : forall v t, P v t -> exists r, t = quote :: r.
Hypothesis close_comma : close <> ","%char.
Hypothesis close_quote : quote <> close.
Hypothesis close_digit : digit_val 10 close = None.

Lemma items_text vs ts fuel rest :
  Forall2 P vs ts -> vs <> [] -> (length ts <= fuel)%nat ->
  items item close fuel (join_with (bs ",") ts ++ close :: rest) = Some (vs, rest).
Proof using item_text close_comma close_digit.
  intros F. revert fuel. induction F as [|v t vs ts T F IH]; [done|]. intros [|fuel] _ L; [cbn in L; lia|].
  cbn [items]. destruct F as [|v' t' vs ts T' F].
  - cbn [join_with]. rewrite (item_text v t) by (done || by apply stops_cons).
    rewrite bool_decide_false, bool_decide_true by done. done.
  - change (join_with (bs ",") (t :: t' :: ts)) with (t ++ ","%char :: join_with (bs ",") (t' :: ts)).
    rewrite <- app_assoc. change ((","%char :: ?x) ++ ?y) with (","%char :: x ++ y).
    rewrite (item_text v t) by (done || by apply stops_cons). rewrite bool_decide_true by done. rewrite IH; [done|done|]. cbn in *. lia.
Qed.

Lemma join_length sep ts : (length ts <= S (length (join_with [sep] ts)))%nat.
Proof.
  induction ts as [|t ts IH]; [cbn; lia|]. destruct ts as [|t' ts]; [cbn; lia|].
  change (join_with [sep] (t :: t' :: ts)) with (t ++ sep :: join_with [sep] (t' :: ts)).
  rewrite length_app. cbn [length] in *. lia.
Qed.

Lemma sequence_text vs ts rest :
  Forall2 P vs ts -> sequence item close (join_with (bs ",") ts ++ close :: rest) = Some (vs, rest).
Proof using All.
  intros F. destruct F as [|v t vs ts T F]; [cbn; by rewrite bool_decide_true|].
  assert (exists r, join_with (bs ",") (t :: ts) = quote :: r) as [r E].
  { destruct (item_quote v t T) as [r ->]. destruct ts; cbn; eauto. }
  pose proof (items_text (v :: vs) (t :: ts) (length (join_with (bs ",") (t :: ts) ++ close :: rest)) rest
    ltac:(by constructor) ltac:(done)) as I.
  unfold sequence. rewrite E in *. cbn [app] in *. rewrite bool_decide_false by done. apply I.
  pose proof (join_length ","%char (t :: ts)) as J. change [","%char] with (bs ",") in J. rewrite E in J.
  cbn [length] in *. rewrite length_app. cbn [length]. lia.
Qed.
End Items.

Lemma string_text_quote v t : string_text v t -> exists r, t = quote :: r.
Proof. intros (b & _ & ->). cbn. eauto. Qed.

Lemma number_head z rest : stops rest -> exists c r, to_dec_signed z ++ rest = c :: r /\
  c <> quote /\ c <> "["%char /\ c <> "t"%char /\ c <> "f"%char.
Proof.
  intros _. unfold to_dec_signed. destruct (z <? 0) eqn:E; [by exists "-"%char, (to_dec (- z) ++ rest)|].
  to_prop. destruct (to_dec_spec z E) as (D1 & D2 & _). destruct (to_dec z) as [|c r]; [done|].
  exists c, (r ++ rest). split; [done|]. inversion D2 as [|? ? [d Y] ?]; subst.
  split_and!; intros ->; by vm_compute in Y.
Qed.

Lemma value_text_ok v t rest : value_text v t -> stops rest -> value (t ++ rest) = Some (v, rest).
Proof.
  intros V St. destruct v as [s|z|b|l]; cbn [value_text] in V.
  - destruct V as (b & B & ->). change (value (quote :: (b ++ [quote]) ++ rest) = Some (JString s, rest)).
    cbn [value]. rewrite bool_decide_true by done. rewrite <- app_assoc. cbn [app]. by rewrite (body_text s b rest B).
  - destruct V as [_ ->]. pose proof (number_text z rest St) as N. destruct (number_head z rest St) as (c & r & E & ? & ? & ? & ?).
    rewrite E in *. cbn [value]. rewrite !bool_decide_false by done. by rewrite N.
  - subst. by destruct b.
  - destruct V as (ts & F & ->). rewrite <- !app_assoc. change (bs "[" ++ ?x) with ("["%char :: x). change (bs "]" ++ ?x) with ("]"%char :: x).
    cbn [value]. rewrite bool_decide_false, bool_decide_true by done.
    by rewrite (sequence_text string_value string_text "]"%char
      (fun v t r T _ => string_value_text v t r T) string_text_quote ltac:(done) ltac:(done) eq_refl l ts rest F).
Qed.

Lemma field_text_ok f t rest : field_text f t -> stops rest -> field_value (t ++ rest) = Some (f, rest).
Proof.
  intros (n & v & N & V & ->) St. destruct f as [k j]. cbn [fst snd] in *. unfold field_value. rewrite <- app_assoc.
  rewrite (string_value_text k n _ N). cbn [mbind option_bind]. change (drop 1 ((bs ":" ++ v) ++ rest)) with (v ++ rest).
  by rewrite (value_text_ok j v rest V St).
Qed.

Lemma document_text fields text : object_text fields text -> document text = Some fields.
Proof.
  intros (ts & F & ->). change (bs "{" ++ ?x) with ("{"%char :: x). change (bs "}") with ["}"%char].
  assert (forall f t, field_text f t -> exists r, t = quote :: r) as Q.
  { intros f t (n & v & N & _ & ->). destruct (string_text_quote _ _ N) as [r ->]. cbn. eauto. }
  cbn [document].
  by rewrite (sequence_text field_value field_text "}"%char field_text_ok Q ltac:(done) ltac:(done) eq_refl fields ts [] F).
Qed.

(** The DOM. *)
Inductive Elem := Leaf (v : Json) | Object (fs : list (bytes * Json)).

End RefJson.

#[export] Instance ref_simdjson : Simdjson := {|
  element := RefJson.Elem;
  json_parse s := RefJson.Object <$> RefJson.document s;
  get_string e := match e with RefJson.Leaf (JString s) => Some s | _ => None end;
  get_int64 e := match e with RefJson.Leaf (JInt z) => Some z | _ => None end;
  get_bool e := match e with RefJson.Leaf (JBool b) => Some b | _ => None end;
  get_array e := match e with RefJson.Leaf (JStrings l) => Some (map (fun s => RefJson.Leaf (JString s)) l) | _ => None end;
  get_object e := match e with RefJson.Object fs => Some (map (fun f => (f.1, RefJson.Leaf f.2)) fs) | _ => None end;
  at_key k e := match e with RefJson.Object fs => RefJson.Leaf <$> field k fs | _ => None end
|}.

#[export] Instance ref_simdjson_laws : SimdjsonLaws.
Proof.
  split. intros fields text O _. exists (RefJson.Object fields). split.
  - cbn. by rewrite (RefJson.document_text _ _ O).
  - exists (map (fun f => (f.1, RefJson.Leaf f.2)) fields). split; [done|]. split.
    + induction fields as [|[n v] fields IH] in |- *; constructor; [|done]. split; [done|]. cbn.
      destruct v; repeat split. eexists. split; [done|]. by induction l; constructor.
    + intros k. cbn. unfold field. induction fields as [|[n v] fields IH] in |- *; [done|]. cbn.
      by destruct (bool_decide (n = k)).
Qed.

#[export] Instance ref_order : HashOrder := {| iterate A m := map_to_list m |}.

#[export] Instance ref_order_laws : HashOrderLaws.
Proof. split. done. Qed.

(** A checksum of the key and the data stands in for the digests. *)
Definition checksum (key data : bytes) : bytes :=
  map byte_of_Z (for_each (fun acc c =>
    match acc with
    | [a; b] => [(a + byte_val c) mod 251; (b + 3 * a + byte_val c) mod 253]
    | _ => acc
    end) (key ++ data) [1; 7]).

#[export] Instance ref_openssl : Openssl := {|
  EVP_EncodeBlock := RefBase64.encode;
  EVP_DecodeBlock := RefBase64.decode;
  HMAC key data := Some (checksum key data);
  BIO := bytes;
  EVP_PKEY := bytes;
  EVP_MD_CTX := bytes * bytes;
  BIO_new_mem_buf pem := Some pem;
  PEM_read_bio_PrivateKey bio := Some bio;
  PEM_read_bio_PUBKEY bio := Some bio;
  EVP_MD_CTX_new := Some ([], []);
  EVP_DigestSignInit key _ := Some (key, []);
  EVP_DigestSignUpdate d ctx := Some (ctx.1, ctx.2 ++ d);
  EVP_DigestSignSize _ := Some 2;
  EVP_DigestSignFinal _ ctx := Some (checksum ctx.1 ctx.2);
  EVP_DigestVerifyInit key _ := Some (key, []);
  EVP_DigestVerifyUpdate d ctx := Some (ctx.1, ctx.2 ++ d);
  EVP_DigestVerifyFinal sig ctx := if bool_decide (sig = checksum ctx.1 ctx.2) then 1 else 0
|}.

#[export] Instance ref_openssl_laws : OpensslLaws.
Proof. split; [apply RefBase64.encode_shape_ok|apply RefBase64.decode_encode_ok]. Qed.

#[export] Instance ref_clock : SystemClock Z := {| system_clock_now w := w |}.

(** ** A token *)

Module JwtWitness.

Definition instant : Z := 1700000000 * nanos_per_second.

Definition sample_issuer : IssuerConfig := {|
  issue_algorithm := HS256; issue_secret := bs "secret"; rsa_private_key_pem := []; key_id := bs "k1";
  type_ := bs "JWT"; issue_scope_claim := bs "scope"; encode_scopes_as_array := false;
  include_issued_at := true; default_ttl := 3600
|}.

Definition sample_config : Config := {|
  allowed_algorithms := [HS256]; hmac_secret := bs "secret"; rsa_public_key_pem := []; allowlist_paths := [bs "/public/*"];
  allow_options_requests := true; authorization_header := bs "authorization"; bearer_prefix := bs "Bearer ";
  jwt_cookie_name := None; websocket_cookie_name := None; required_issuer := Some (bs "novaboot");
  required_audiences := [bs "api"]; required_scopes := [bs "read"]; required_claims := ∅; require_expiration := true;
  validate_not_before := true; validate_issued_at := true; clock_skew := 60; scope_claim := bs "scope";
  unauthorized_status := 401; unauthorized_body := bs "no"
|}.

Definition sample_builder : JwtTokenBuilder :=
  claim_string (bs "roles") (bs "admin auditor")
    (scopes [bs "read"; bs "write"] (audience (bs "api") (issuer (bs "novaboot") (subject (bs "alice") new_token)))).

Definition sample_token : bytes :=
  Eval vm_compute in match issue instant sample_issuer sample_builder with inr t => t | inl _ => [] end.

Lemma sample_issued : issue instant sample_issuer sample_builder = inr sample_token.
Proof. vm_compute. reflexivity. Qed.

Lemma sample_strings : Context.string_claims (claims_ sample_builder) = {[ bs "roles" := bs "admin auditor" ]}.
Proof. apply insert_empty. Qed.

Lemma sample_custom : custom_fields (claims_ sample_builder) = [(bs "roles", JString (bs "admin auditor"))].
Proof.
  unfold custom_fields. rewrite sample_strings.
  change (Context.integer_claims (claims_ sample_builder)) with (∅ : gmap bytes Z).
  change (Context.bool_claims (claims_ sample_builder)) with (∅ : gmap bytes bool).
  change (Context.string_array_claims (claims_ sample_builder)) with (∅ : gmap bytes (list bytes)).
  unfold iterate, ref_order. by rewrite map_to_list_singleton, !map_to_list_empty.
Qed.

Lemma sample_compatible : Compatible sample_issuer sample_config sample_builder.
Proof.
  split; try done.
  - apply list_elem_of_singleton. done.
  - unfold reserved. rewrite !not_elem_of_cons. split_and!; try done. apply not_elem_of_nil.
  - intros n I. unfold own_name. rewrite sample_strings. assert (n <> bs "roles") as N.
    { intros ->. unfold reserved in I. rewrite !elem_of_cons in I. destruct_or! I; try done. by apply not_elem_of_nil in I. }
    rewrite lookup_singleton_ne by congruence. intros [[? ?]|[[? ?]|[[? ?]|[? ?]]]]; done.
  - intros _. repeat (apply Forall_cons; split; [split; [done|by repeat constructor]|]). constructor.
  - split; [by repeat (apply Forall_cons; split; [split; [reflexivity|by repeat constructor]|])|].
    intros exp iat. rewrite sample_custom. unfold utf8_fields, standard_fields. destruct exp, iat;
    repeat (apply Forall_cons; split; [split; [reflexivity|by repeat constructor]|]); constructor.
Qed.

Lemma sample_entitled : Entitled sample_config sample_builder.
Proof.
  split; cbn [required_issuer required_audiences required_scopes required_claims sample_config].
  - by intros i [= <-].
  - intros a I. exact I.
  - intros s I. apply list_elem_of_singleton in I as ->. apply list_elem_of_here.
  - apply map_empty_subseteq.
Qed.

Lemma sample_timely : Timely sample_config (Some (instant + 3600 * nanos_per_second)) None (Some instant)
  (instant + 30 * nanos_per_second).
Proof.
  split.
  - by vm_compute.
  - by vm_compute.
  - by vm_compute.
  - intros t [?|[= <-]]; [done|]. by vm_compute.
Qed.

(** The sample token is accepted thirty seconds after it was issued. *)
Lemma issued_token_accepted_witness :
  exists v, verify_token (instant + 30 * nanos_per_second) sample_token sample_config = inr v /\
    Context.jwt_subject (principal v) = bs "alice" /\ Context.jwt_scopes (principal v) = [bs "read"; bs "write"].
Proof.
  destruct (issued_token_accepted sample_issuer sample_config sample_builder (Some (instant + 3600 * nanos_per_second))
    instant (instant + 30 * nanos_per_second) sample_token sample_compatible sample_entitled ltac:(by vm_compute) eq_refl
    sample_timely sample_issued) as (v & E & A & B & _ & _ & S & _).
  exists v. split; [exact E|]. split; [exact B|exact S].
Defined.

(** ** Where the code does not do what it means to *)

(** A part of padding only is decoded to fewer bytes than it has [=]: the
    length wraps around, and the request ends in an exception instead of the
    answer 401. *)
Lemma padding_only_throws :
  verify_token instant (bs "====.e30.e30") sample_config = inl (Thrown LengthError).
Proof. vm_compute. reflexivity. Qed.

(** An expiry after the year 2262 does not fit the nanoseconds of the clock:
    the validly signed token ends in signed overflow. *)
Definition far_builder : JwtTokenBuilder := claim_integer (bs "exp") 10000000000 new_token.
Definition far_issuer : IssuerConfig := {|
  issue_algorithm := HS256; issue_secret := bs "secret"; rsa_private_key_pem := []; key_id := [];
  type_ := bs "JWT"; issue_scope_claim := bs "scope"; encode_scopes_as_array := false;
  include_issued_at := false; default_ttl := 0
|}.

Lemma far_expiry_overflows :
  match issue instant far_issuer far_builder with
  | inr token => match verify_token instant token sample_config with inl (Thrown Undefined) => true | _ => false end
  | inl _ => false
  end = true.
Proof. vm_compute. reflexivity. Qed.

(** A claim of the builder with a standard name is written a second time: the
    principal has the first value, its claims the second, so a requirement on
    the claim is checked against a value other than the principal's. *)
Definition twice_builder : JwtTokenBuilder := claim_string (bs "sub") (bs "root") sample_builder.

Lemma duplicate_claim_disagrees :
  match issue instant sample_issuer twice_builder with
  | inr token =>
      match verify_token instant token sample_config with
      | inr v => bool_decide (Context.jwt_subject (principal v) = bs "alice") &&
                 bool_decide (string (bs "sub") (Context.claims (principal v)) = Some (bs "root"))
      | inl _ => false
      end
  | inl _ => false
  end = true.
Proof. vm_compute. reflexivity. Qed.

End JwtWitness.
