(* ===== verification/Authorization.v ===== *)
(** * Authorization: [middleware/authorization_middleware.*] and
    [middleware/declarative_authorization.*]

    The policies of a route, checked against the principal that authentication
    left in the request context, and the requirements of annotated handlers and
    services.  A pointer to the scopes or roles is an [option], and its
    dereference when null is [Undefined]. *)

From S2P Require Import Prelude CxxString HttpMessage Middleware Jwt.
Import Middleware.
Open Scope exchange_scope.

Module Authorization.

(** ** Policies *)

Inductive MatchMode := Any | All.

(** A custom policy reads the request and the context. *)
Abbreviation CustomPolicy := (Request.t -> Context.t -> bool) (only parsing).

Record Policy := mkPolicy {
  path : bytes;
  method : list bytes;
  methods : list bytes;
  require_authenticated : bool;
  required_scopes : list bytes;
  scope_match : MatchMode;
  required_roles : list bytes;
  role_match : MatchMode;
  custom_policies : list CustomPolicy
}.

Definition default_policy : Policy := mkPolicy (bs "*") [] [] true [] All [] All [].

Record Config := mkConfig {
  policies : list Policy;
  roles_claim : bytes;
  unauthorized_status : Z;
  unauthorized_body : bytes;
  forbidden_status : Z;
  forbidden_body : bytes
}.

Definition default_config : Config := {|
  policies := [];
  roles_claim := bs "roles";
  unauthorized_status := 401;
  unauthorized_body := js "{'error':'Unauthorized','message':'Authentication required'}";
  forbidden_status := 403;
  forbidden_body := js "{'error':'Forbidden','message':'Insufficient permissions'}"
|}.

Definition path_matches (pattern path : bytes) : bool :=
  if bool_decide (pattern = bs "*") then true
  else if ends_with (bs "*") pattern then starts_with (take (length pattern - 1) pattern) path
  else bool_decide (path = pattern).

Definition method_matches (methods : list bytes) (request_method : bytes) : bool :=
  match methods with
  | [] => true
  | _ => existsb (fun m => bool_decide (upper m = upper request_method)) methods
  end.

Definition policy_matches (p : Policy) (req : Request.t) : bool :=
  path_matches (path p) (Request.path_ req) &&
  method_matches (match method p with [] => methods p | _ => method p end) (Request.method_ req).

(** ** The principal *)

Definition roles_from_claim (principal : Context.JwtPrincipal) (roles_claim : bytes) : list bytes :=
  match Jwt.string_array roles_claim (Context.claims principal) with
  | Some roles => roles
  | None =>
      match Jwt.string roles_claim (Context.claims principal) with
      | Some roles => Jwt.split_space_separated roles
      | None => []
      end
  end.

(** The scopes and the roles of the principal: the token's, or else the session's. *)
Definition identity (cfg : Config) (ctx : Context.t) : option (list bytes * list bytes) :=
  match Context.jwt_value ctx with
  | Some p => Some (Context.jwt_scopes p, roles_from_claim p (roles_claim cfg))
  | None =>
      match Context.session_value ctx with
      | Some s => Some (Context.scopes s, Context.roles s)
      | None => None
      end
  end.

Definition satisfies (actual required : list bytes) (mode : MatchMode) : bool :=
  match required with
  | [] => true
  | _ =>
      match mode with
      | Any => existsb (Jwt.contains actual) required
      | All => forallb (Jwt.contains actual) required
      end
  end.

(** ** The middleware *)

Definition challenge (status : Z) (body : bytes) (res : Response.t) : Response.t :=
  Response.json body
    (Response.header (bs "WWW-Authenticate") (js "Bearer error='invalid_token'") (Response.status status res)).

Definition reject_unauthorized (cfg : Config) (res : Response.t) : Response.t :=
  challenge (unauthorized_status cfg) (unauthorized_body cfg) res.

Definition reject_forbidden (cfg : Config) (res : Response.t) : Response.t :=
  Response.json (forbidden_body cfg) (Response.status (forbidden_status cfg) res).

(** The first loop: whether a policy matches, and whether one that does needs a
    principal, where it stops. *)
Fixpoint scan (req : Request.t) (ps : list Policy) (matched_policy : bool) : bool * bool :=
  match ps with
  | [] => (matched_policy, false)
  | p :: r =>
      if negb (policy_matches p req) then scan req r matched_policy
      else if require_authenticated p then (true, true)
      else scan req r true
  end.

(** The second loop, up to the first refusal. *)
Fixpoint enforce (req : Request.t) (ctx : Context.t) (who : option (list bytes * list bytes))
    (ps : list Policy) : result Exn bool :=
  match ps with
  | [] => inr true
  | p :: r =>
      if negb (policy_matches p req) then enforce req ctx who r
      else
        let custom :=
          if negb (forallb (fun custom_policy => custom_policy req ctx) (custom_policies p)) then inr false
          else enforce req ctx who r in
        if require_authenticated p then
          match who with
          | None => inl Undefined
          | Some (scopes, roles) =>
              if negb (satisfies scopes (required_scopes p) (scope_match p)) then inr false
              else if negb (satisfies roles (required_roles p) (role_match p)) then inr false
              else custom
          end
        else custom
  end.

Definition handle {W} (cfg : Config) : Middleware.t W := fun next =>
  do req <- get_request;
  do ctx <- get_context;
  let '(matched_policy, requires_principal) := scan req (policies cfg) false in
  if negb matched_policy then next
  else
    let who := identity cfg ctx in
    if requires_principal && negb (bool_decide (is_Some who)) then on_response (reject_unauthorized cfg)
    else
      match enforce req ctx who (policies cfg) with
      | inl e => throw e
      | inr false => on_response (reject_forbidden cfg)
      | inr true => next
      end.

End Authorization.

(** ** Requirements of annotated handlers *)

Module Declarative.
Import Authorization.

Inductive Decision := Allowed | Unauthenticated | Forbidden.

Record Requirements := mkRequirements {
  roles : bytes;
  scopes : bytes;
  role_mode : MatchMode;
  scope_mode : MatchMode
}.

Definition split_values (values : bytes) : list bytes :=
  Jwt.split_fuel (fun c => isspace c || bool_decide (c = ","%char)) (S (length values)) values.

Definition satisfies_text (actual : list bytes) (required : bytes) (mode : MatchMode) : bool :=
  satisfies actual (split_values required) mode.

Definition jwt_roles (principal : Context.JwtPrincipal) : list bytes :=
  match Jwt.string_array (bs "roles") (Context.claims principal) with
  | Some roles => roles
  | None =>
      match Jwt.string (bs "roles") (Context.claims principal) with
      | Some role_text => split_values role_text
      | None => []
      end
  end.

Definition evaluate_declarative (ctx : Context.t) (requirements : Requirements) : Decision :=
  let judge (actual_roles actual_scopes : list bytes) :=
    if negb (satisfies_text actual_roles (roles requirements) (role_mode requirements)) ||
       negb (satisfies_text actual_scopes (scopes requirements) (scope_mode requirements))
    then Forbidden else Allowed in
  match Context.jwt_value ctx with
  | Some jwt => judge (jwt_roles jwt) (Context.jwt_scopes jwt)
  | None =>
      match Context.session_value ctx with
      | Some session => judge (Context.roles session) (Context.scopes session)
      | None => Unauthenticated
      end
  end.

Definition authorize_declarative {W} (requirements : Requirements) : M W bool :=
  do ctx <- get_context;
  match evaluate_declarative ctx requirements with
  | Allowed => ret true
  | Unauthenticated =>
      on_response (challenge 401 (js "{'error':'Unauthorized','message':'Authentication required'}")) ;; ret false
  | Forbidden =>
      on_response (fun res => Response.json (js "{'error':'Forbidden','message':'Insufficient permissions'}")
                                (Response.status 403 res)) ;; ret false
  end.

(** [AuthorizationProxy::invoke]: [current] is the context of the thread,
    [requirements] what the annotations of the method ask for, and the
    transaction manager runs the method when there is one. *)
Definition invoke {W A} (requirements : option Requirements) (current : option Context.t)
    (transactions : option (M W A -> M W A)) (method : M W A) : M W A :=
  let proceed := match transactions with Some run => run method | None => method end in
  match requirements with
  | None => proceed
  | Some requirements =>
      match current with
      | None => throw (RuntimeError (bs "Secured service method requires an active request context"))
      | Some ctx =>
          match evaluate_declarative ctx requirements with
          | Unauthenticated => throw (RuntimeError (bs "Secured service method requires authentication"))
          | Forbidden => throw (RuntimeError (bs "Secured service method requires additional roles or scopes"))
          | Allowed => proceed
          end
      end
  end.

End Declarative.

(** * Properties of authorization

    What the policies grant, stated on the matching policies as a set; that the
    middleware lets through exactly what they grant; authentication and
    authorization composed in a pipeline; and the requirements of annotated
    handlers. *)

From S2P Require Import Router WsHandshake JwtProps JwtWitness.
Import Middleware Authorization.

Module AuthorizationProps.

(** ** What a policy grants *)

(** The values meet a requirement: one of them, or all. *)
Definition meets (mode : MatchMode) (required actual : list bytes) : Prop :=
  match mode with
  | Any => required = [] \/ exists v, v ∈ required /\ v ∈ actual
  | All => forall v, v ∈ required -> v ∈ actual
  end.

Definition grants (cfg : Config) (req : Request.t) (ctx : Context.t) (p : Policy) : Prop :=
  (require_authenticated p = true ->
     exists scopes roles, identity cfg ctx = Some (scopes, roles) /\
       meets (scope_match p) (required_scopes p) scopes /\ meets (role_match p) (required_roles p) roles) /\
  forall custom, In custom (custom_policies p) -> custom req ctx = true.

(** Every matching policy grants the request. *)
Definition authorized (cfg : Config) (req : Request.t) (ctx : Context.t) : Prop :=
  forall p, In p (policies cfg) -> policy_matches p req = true -> grants cfg req ctx p.

(** A matching policy asks for a principal and there is none. *)
Definition unauthenticated (cfg : Config) (req : Request.t) (ctx : Context.t) : Prop :=
  identity cfg ctx = None /\
  exists p, In p (policies cfg) /\ policy_matches p req = true /\ require_authenticated p = true.

Lemma satisfies_spec actual required mode : satisfies actual required mode = true <-> meets mode required actual.
Proof.
  unfold satisfies, meets. destruct required as [|r l]; [|destruct mode].
  - split; [|done]. intros _. destruct mode; [by left|]. intros v I. by apply not_elem_of_nil in I.
  - rewrite existsb_exists. split.
    + intros (v & I & C). right. exists v. split; [by apply list_elem_of_In|by apply Admission.contains_spec].
    + intros [?|(v & I & C)]; [done|]. exists v. split; [by apply list_elem_of_In|by apply Admission.contains_spec].
  - apply Admission.forallb_contains.
Qed.

(** ** The loops *)

Lemma scan_spec req ps m :
  scan req ps m =
  (m || existsb (fun p => policy_matches p req) ps,
   existsb (fun p => policy_matches p req && require_authenticated p) ps).
Proof.
  revert m. induction ps as [|p ps IH]; intros m; cbn; [by rewrite orb_false_r|].
  destruct (policy_matches p req); cbn; [|by rewrite IH].
  destruct (require_authenticated p); [by rewrite orb_true_r|]. by rewrite IH, orb_true_r.
Qed.

(** What a policy grants, as the loop computes it. *)
Definition granted (req : Request.t) (ctx : Context.t) (who : option (list bytes * list bytes)) (p : Policy) : bool :=
  (negb (require_authenticated p) ||
   match who with
   | Some (scopes, roles) => satisfies scopes (required_scopes p) (scope_match p) &&
                             satisfies roles (required_roles p) (role_match p)
   | None => false
   end) && forallb (fun custom => custom req ctx) (custom_policies p).

Lemma granted_spec cfg req ctx p : granted req ctx (identity cfg ctx) p = true <-> grants cfg req ctx p.
Proof.
  unfold granted, grants. rewrite andb_true_iff, forallb_forall. apply and_iff_compat_r.
  destruct (require_authenticated p); cbn [negb orb]; [|done].
  destruct (identity cfg ctx) as [[scopes roles]|]; [|naive_solver].
  rewrite andb_true_iff, !satisfies_spec. naive_solver.
Qed.

(** With a principal where one is needed no null pointer is read. *)
Lemma enforce_granted req ctx who ps :
  (is_Some who \/ existsb (fun p => policy_matches p req && require_authenticated p) ps = false) ->
  enforce req ctx who ps = inr (forallb (fun p => negb (policy_matches p req) || granted req ctx who p) ps).
Proof.
  intros H. induction ps as [|p ps IH]; [done|]. cbn [enforce forallb].
  rewrite IH by (destruct H as [?|H]; [by left|cbn in H; apply orb_false_iff in H as [_ H]; by right]).
  destruct (policy_matches p req) eqn:M; cbn [negb orb]; [|done]. unfold granted.
  destruct (require_authenticated p) eqn:R; cbn [negb orb andb].
  - destruct who as [[scopes roles]|]; [|destruct H as [[? ?]|H]; [done|cbn in H; by rewrite M, R in H]].
    destruct (satisfies scopes _ _), (satisfies roles _ _), (forallb _ (custom_policies p)); done.
  - by destruct (forallb _ (custom_policies p)).
Qed.

Lemma enforce_spec cfg req ctx :
  (is_Some (identity cfg ctx) \/
   existsb (fun p => policy_matches p req && require_authenticated p) (policies cfg) = false) ->
  exists ok, enforce req ctx (identity cfg ctx) (policies cfg) = inr ok /\ (ok = true <-> authorized cfg req ctx).
Proof.
  intros H. eexists. split; [by apply enforce_granted|]. rewrite forallb_forall. unfold authorized.
  split; intros F p I.
  - intros M. specialize (F p I). cbv beta in F. rewrite M in F. by apply granted_spec.
  - destruct (policy_matches p req) eqn:M; [|done]. cbn [negb orb]. apply granted_spec. by apply F.
Qed.

Lemma existsb_policies req ps f :
  existsb (fun p => policy_matches p req && f p) ps = true <->
  exists p, In p ps /\ policy_matches p req = true /\ f p = true.
Proof.
  rewrite existsb_exists. split; intros (p & I & E); exists p; (split; [done|]); by apply andb_true_iff.
Qed.

(** The middleware calls the rest of the chain exactly when
    every matching policy grants the request, with the exchange as it came;
    otherwise no handler runs and the answer is the configured 401 when a
    principal is missing and the configured 403 when it is not. *)
Lemma authorization_outcome {W} (cfg : Config) (next : M W ()) (x : Exchange W) :
  let respond f := (inr (), mkEx (request x) (f (response x)) (context x) (world x)) in
  (authorized cfg (request x) (context x) /\ handle cfg next x = next x) \/
  (~ authorized cfg (request x) (context x) /\
     unauthenticated cfg (request x) (context x) /\ handle cfg next x = respond (reject_unauthorized cfg)) \/
  (~ authorized cfg (request x) (context x) /\
     ~ unauthenticated cfg (request x) (context x) /\ handle cfg next x = respond (reject_forbidden cfg)).
Proof.
  intros respond. unfold handle, bind, get_request, get_context. cbn -[scan enforce identity].
  rewrite scan_spec. cbn [orb fst snd].
  destruct (existsb (fun p => policy_matches p (request x)) (policies cfg)) eqn:M; cbn [negb].
  2:{ left. split; [|done]. intros p I Q. apply not_true_iff_false in M. destruct M. apply existsb_exists. by exists p. }
  destruct (existsb (fun p => policy_matches p (request x) && require_authenticated p) (policies cfg)) eqn:R.
  - apply existsb_policies in R as (p & I & Q & A). destruct (identity cfg (context x)) as [who|] eqn:W'; cbn [bool_decide].
    + rewrite bool_decide_true by done. cbn [negb andb]. rewrite <- W'.
      destruct (enforce_spec cfg (request x) (context x)) as (ok & -> & S); [left; by rewrite W'|].
      destruct ok; [left; split; [by apply S|done]|]. right. right. split_and!; [|by intros [? _]; congruence|done].
      intros F. by apply S in F.
    + rewrite bool_decide_false by (by intros [? ?]). cbn [negb andb]. right. left. split_and!; [|split; [done|by exists p]|done].
      intros F. destruct (F p I Q) as [G _]. destruct (G A) as (? & ? & ? & _). congruence.
  - cbn [andb]. destruct (enforce_spec cfg (request x) (context x)) as (ok & -> & S); [by right|].
    destruct ok; [left; split; [by apply S|done]|]. right. right. split_and!; [by intros F; apply S in F| |done].
    intros [_ (p & I & Q & A)]. apply not_true_iff_false in R. destruct R. apply existsb_policies. by exists p.
Qed.

(** ** Authentication before authorization *)

Lemma jwt_identity cfg p ctx :
  identity cfg (Context.set_jwt p ctx) = Some (Context.jwt_scopes p, roles_from_claim p (roles_claim cfg)).
Proof. done. Qed.

(** [C8] With the JWT middleware in front of the authorization
    middleware, the handler of a request that is not exempt runs only with an
    authentic token whose principal every matching policy grants, and so has
    each scope such a policy asks for; it then sees that principal.  Otherwise
    the answer is the 401 of the first or the 403 of the second, or the
    verification of the token itself fails with one of the two faults of the code
    (a length error, or undefined behaviour) and the exchange is untouched; in
    none of these cases does the handler run. *)
Theorem jwt_authorization_composed `{Jwt.Openssl} `{Jwt.Simdjson} `{HashOrderLaws} {W} `{Jwt.SystemClock W}
    (jwt : Jwt.Config) (cfg : Config) (handler : M W ()) (x : Exchange W) :
  let run := execute [Jwt.handle jwt; handle cfg] handler x in
  let now := Jwt.system_clock_now (world x) in
  let token := Jwt.credential (Jwt.jwt_cookie_name jwt) (request x) jwt in
  let seen v := Context.set_jwt (Jwt.principal v) (context x) in
  if Admission.exempt jwt (request x) then run = handle cfg handler x
  else
    (exists t v, token = Some t /\ Admission.Authentic jwt now t v /\ authorized cfg (request x) (seen v) /\
       (forall p s, In p (policies cfg) -> policy_matches p (request x) = true -> require_authenticated p = true ->
          scope_match p = All -> s ∈ required_scopes p -> s ∈ Context.jwt_scopes (Jwt.principal v)) /\
       run = handler (mkEx (request x) (response x) (seen v) (world x))) \/
    (exists t v, token = Some t /\ Admission.Authentic jwt now t v /\ ~ authorized cfg (request x) (seen v) /\
       run = (inr (), mkEx (request x) (reject_forbidden cfg (response x)) (seen v) (world x))) \/
    ((forall t v, token = Some t -> ~ Admission.Authentic jwt now t v) /\
       run = (inr (), mkEx (request x) (Jwt.reject jwt (response x)) (context x) (world x))) \/
    (exists t e, token = Some t /\ Jwt.verify_token now t jwt = inl (Jwt.Thrown e) /\ (e = LengthError \/ e = Undefined) /\
       run = (inl e, x)).
Proof.
  intros run now token seen. subst run. rewrite !execute_cons, execute_nil.
  pose proof (Admission.jwt_outcome jwt (handle cfg handler) x) as J. cbv zeta in J. fold now token in J.
  destruct (Admission.exempt jwt (request x)); [done|].
  destruct J as [(t & v & T & A & ->)|[[N ->]|(t & e & Et & Ev & Ee & ->)]]; [|by right; right; left|by right; right; right; exists t, e].
  destruct (authorization_outcome cfg handler (mkEx (request x) (response x) (seen v) (world x))) as [[G E]|[(_ & [U _] & _)|(G & _ & E)]].
  - left. exists t, v. split_and!; [done|done|done| |done]. intros p s I M R Al S.
    destruct (G p I M) as [Gr _]. destruct (Gr R) as (scopes & roles & [= <- <-] & Ms & _). rewrite Al in Ms. by apply Ms.
  - cbn [context] in U. done.
  - right. left. exists t, v. done.
Qed.

(** A request for a route that needs the scope [read] and the role [admin]. *)
Definition guarded_config : Config :=
  mkConfig [mkPolicy (bs "/admin*") [] [] true [bs "read"] All [bs "admin"] Any []] (bs "roles") 401 [] 403 [].

Definition guarded_request : Exchange Z :=
  mkEx (Request.set_headers [HeaderMap.mkEntry (bs "Authorization") (bs "Bearer " ++ JwtWitness.sample_token)]
          (Request.set_path (bs "/admin/users") (Request.set_method (bs "GET") Request.init)))
    Response.init Context.empty (JwtWitness.instant + 30 * nanos_per_second).

(** The sample token opens it. *)
Lemma jwt_authorization_composed_witness :
  exists v, Admission.Authentic JwtWitness.sample_config (JwtWitness.instant + 30 * nanos_per_second) JwtWitness.sample_token v /\
    authorized guarded_config (request guarded_request) (Context.set_jwt (Jwt.principal v) Context.empty) /\
    bs "read" ∈ Context.jwt_scopes (Jwt.principal v).
Proof.
  pose proof (jwt_authorization_composed JwtWitness.sample_config guarded_config (ret ()) guarded_request) as T.
  assert (match execute [Jwt.handle JwtWitness.sample_config; handle guarded_config] (ret ()) guarded_request with
          | (inr _, x) => Response.status_code_ (response x) | (inl _, _) => 0 end = 200) as R by (vm_compute; reflexivity).
  cbv zeta in T. change (Admission.exempt JwtWitness.sample_config (request guarded_request)) with false in T. cbv iota in T.
  destruct T as [(t & v & E & A & G & S & _)|[(t & v & _ & _ & _ & E)|[(_ & E)|(t & e & _ & _ & _ & E)]]];
    [|rewrite E in R; vm_compute in R; discriminate..].
  vm_compute in E. injection E as <-. exists v. split; [exact A|]. split; [exact G|].
  eapply S; [left; reflexivity|reflexivity|reflexivity|reflexivity|apply list_elem_of_here].
Defined.

(** ** Annotated handlers and services *)

(** The principal of the context has the roles and scopes of an annotation. *)
Definition holds (ctx : Context.t) (r : Declarative.Requirements) : Prop :=
  exists roles scopes,
    (match Context.jwt_value ctx, Context.session_value ctx with
     | Some jwt, _ => roles = Declarative.jwt_roles jwt /\ scopes = Context.jwt_scopes jwt
     | None, Some session => roles = Context.roles session /\ scopes = Context.scopes session
     | None, None => False
     end) /\
    meets (Declarative.role_mode r) (Declarative.split_values (Declarative.roles r)) roles /\
    meets (Declarative.scope_mode r) (Declarative.split_values (Declarative.scopes r)) scopes.

Lemma evaluate_allowed ctx r : Declarative.evaluate_declarative ctx r = Declarative.Allowed <-> holds ctx r.
Proof.
  unfold Declarative.evaluate_declarative, holds, Declarative.satisfies_text.
  assert (forall rs ss,
    (if negb (satisfies rs (Declarative.split_values (Declarative.roles r)) (Declarative.role_mode r)) ||
        negb (satisfies ss (Declarative.split_values (Declarative.scopes r)) (Declarative.scope_mode r))
     then Declarative.Forbidden else Declarative.Allowed) = Declarative.Allowed <->
    meets (Declarative.role_mode r) (Declarative.split_values (Declarative.roles r)) rs /\
    meets (Declarative.scope_mode r) (Declarative.split_values (Declarative.scopes r)) ss) as J.
  { intros rs ss. rewrite <- !satisfies_spec. destruct (satisfies rs _ _), (satisfies ss _ _); cbn; naive_solver. }
  destruct (Context.jwt_value ctx) as [p|]; [|destruct (Context.session_value ctx) as [q|]].
  - rewrite J. naive_solver.
  - rewrite J. naive_solver.
  - naive_solver.
Qed.

(** A secured method of a service runs exactly when the context of the thread
    has a principal that holds what the annotation asks for; otherwise the call
    throws and nothing ran. *)
Lemma secured_method_guarded {W A} r current transactions (method : M W A) (x : Exchange W) :
  let call := Declarative.invoke (Some r) current transactions method x in
  let run := (match transactions with Some t => t method | None => method end) x in
  ((exists ctx, current = Some ctx /\ holds ctx r) /\ call = run) \/
  (~ (exists ctx, current = Some ctx /\ holds ctx r) /\ exists what, call = (inl (RuntimeError what), x)).
Proof.
  intros call run. subst call. unfold Declarative.invoke. destruct current as [ctx|].
  2:{ right. split; [by intros (ctx & ? & _)|]. by eexists. }
  pose proof (evaluate_allowed ctx r) as E.
  destruct (Declarative.evaluate_declarative ctx r).
  - left. split; [|done]. exists ctx. split; [done|]. by apply E.
  - right. split; [|by eexists]. intros (c & [= <-] & Hc). by apply E in Hc.
  - right. split; [|by eexists]. intros (c & [= <-] & Hc). by apply E in Hc.
Qed.

(** ** Where the code does not do what it means to *)

Definition admin_policy : Policy := mkPolicy (bs "/admin") [] [] true [] All [bs "admin"] All [].
Definition admin_config : Config := mkConfig [admin_policy] (bs "roles") 401 [] 403 [].

Definition get (p : bytes) : Exchange () :=
  mkEx (Request.set_path p (Request.set_method (bs "GET") Request.init)) Response.init Context.empty ().

(** A policy compares the path with its query and the router without it, and
    the router ignores a slash at the end: [/admin?] and [/admin/] reach the
    route of [/admin] without any principal. *)
Lemma query_bypasses_policy : exists r : Router Z Z,
  add_route GET (bs "/admin") (Some 7) new_router = inr r /\
  (forall p, p ∈ [bs "/admin"; bs "/admin?"; bs "/admin/"] -> fst (fst (match_string (bs "GET") p r)) = Some 7) /\
  Response.status_code_ (response (snd (handle admin_config (ret ()) (get (bs "/admin"))))) = 401 /\
  forall p (next : M () ()), p ∈ [bs "/admin?"; bs "/admin/"] -> handle admin_config next (get p) = next (get p).
Proof.
  eexists. split; [reflexivity|]. split_and!.
  - intros p I. rewrite !elem_of_cons in I. destruct_or! I; subst; try (vm_compute; reflexivity). by apply not_elem_of_nil in I.
  - vm_compute. reflexivity.
  - intros p next I. rewrite !elem_of_cons in I. destruct_or! I; subst; try reflexivity. by apply not_elem_of_nil in I.
Qed.

End AuthorizationProps.
