(* ===== verification/DiContainer.v ===== *)
(** * Dependency injection: di/container.h, di/container.cpp, di/lifecycle.h,
    di/lifecycle.cpp, di/scope.h, di/inject.h

    A type is a number; [typeid(T).name()], the bases of [T] and its annotations
    are functions of it.  The containers are a shared store: a container is a key
    of [containers] and [parent_] is a key too, so that a factory run by a request
    container sees, and through a lazy bean changes, the root container.

    An object is a positive number, 0 is the null pointer; [alive] holds the
    objects that were created and not deleted, and calling a hook on, referring to
    or deleting any other one is [Undefined].  A factory is a program of the
    application that asks its container for beans and then creates an object
    ([Factory]); a hook of the application is a number and the environment says
    whether a call of it throws.

    The order in which a [std::unordered_map] is traversed is unspecified: it is
    the parameter [umap_order], per map. *)

From S2P Require Import Prelude CxxString.

Module Di.

Abbreviation tid := nat (only parsing).
Abbreviation ptr := nat (only parsing).
Abbreviation cid := nat (only parsing).

Inductive Scope := Singleton | Prototype | Connection | Request.

#[export] Instance Scope_eq_dec : EqDecision Scope.
Proof. solve_decision. Defined.

Inductive Exn := DIError (msg : bytes) | BadFunctionCall | UserExn (n : nat).

(** A step of a [std::function<void(void* )>] hook: the virtual function of
    [Initializable] or [Destroyable], or a function of the application. *)
Inductive Action := InterfaceHook | UserHook (n : nat).

#[export] Instance Action_eq_dec : EqDecision Action.
Proof. solve_decision. Defined.

(** [factory]: what the application does with its [ContainerBase&]. *)
Inductive Factory :=
| FNew (k : ptr -> Factory)
| FReturn (p : ptr)
| FThrow (e : Exn)
| FResolve (t : tid) (k : ptr -> Factory)
| FResolveNamed (t : tid) (q : bytes) (k : ptr -> Factory)
| FResolveNew (t : tid) (k : ptr -> Factory)
| FHas (t : tid) (k : bool -> Factory).

(** [None] is an empty [std::function]; of [destructor_fn] only its presence
    matters, it deletes the object. *)
Record BeanRegistration := mkReg {
  type_id : tid;
  name : bytes;
  qualifier : bytes;
  scope : Scope;
  is_primary : bool;
  is_lazy : bool;
  is_async : bool;
  async_timeout_ms : Z;
  factory : option Factory;
  async_factory : option Factory;
  post_construct_fn : option (list Action);
  pre_destroy_fn : option (list Action);
  destructor_fn : bool;
  dep_type_ids : list tid;
  middleware_order : Z;
  get_middleware_fn : bool
}.

Record LifecycleEntry := mkEntry {
  instance : ptr;
  on_post_construct : option (list Action);
  on_pre_destroy : option (list Action)
}.

Inductive Kind := Root | Shard | RequestKind | ConnectionKind.

(** The fields of [ContainerBase] and, for the root, of [RootContainer]. *)
Record Container := mkContainer {
  kind : Kind;
  parent_ : option cid;
  instances_ : gmap tid ptr;
  qualified_instances_ : gmap bytes ptr;
  registrations_ : gmap tid BeanRegistration;
  lifecycle_ : list LifecycleEntry;
  owned_instances_ : list (ptr * bool);
  topo_order_ : list tid;
  built_ : bool
}.

Definition empty_container (k : Kind) (p : option cid) : Container :=
  mkContainer k p ∅ ∅ ∅ [] [] [] false.

Inductive Event :=
| Created (p : ptr) (args : list ptr)
| PostConstruct (a : Action) (p : ptr)
| PreDestroy (a : Action) (p : ptr)
| Destroyed (p : ptr).

#[export] Instance Event_eq_dec : EqDecision Event.
Proof. solve_decision. Defined.

(** [lazy_lock] is [lazy_mutex_]: the threads that hold it, one entry per nested
    acquisition. *)
Record World := mkWorld {
  containers : gmap cid Container;
  next_object : ptr;
  alive : gset ptr;
  trace : list Event;
  lazy_lock : list nat;
  thread : nat
}.

Inductive Res A := Val (a : A) | Thrown (e : Exn) | Undefined | Deadlock | NoFuel.
Arguments Val {A} a.
Arguments Thrown {A} e.
Arguments Undefined {A}.
Arguments Deadlock {A}.
Arguments NoFuel {A}.

Abbreviation M A := (World -> Res A * World).

Definition ret {A} (a : A) : M A := fun w => (Val a, w).
Definition throw {A} (e : Exn) : M A := fun w => (Thrown e, w).

Definition bind {A B} (m : M A) (f : A -> M B) : M B := fun w =>
  match m w with
  | (Val a, w') => f a w'
  | (Thrown e, w') => (Thrown e, w')
  | (Undefined, w') => (Undefined, w')
  | (Deadlock, w') => (Deadlock, w')
  | (NoFuel, w') => (NoFuel, w')
  end.

Declare Scope di_scope.
Delimit Scope di_scope with di.
Notation "'let*' x ':=' m 'in' k" := (bind m (fun x => k))
  (at level 10, x pattern, m at level 100, k at level 200) : di_scope.
Notation "m ';;;' k" := (bind m (fun _ => k))
  (at level 100, k at level 200, right associativity) : di_scope.
Open Scope di_scope.

(** ** The store *)

Definition get (c : cid) : M Container := fun w =>
  match containers w !! c with
  | Some k => (Val k, w)
  | None => (Undefined, w)
  end.

Definition set_containers (m : gmap cid Container) (w : World) : World :=
  mkWorld m (next_object w) (alive w) (trace w) (lazy_lock w) (thread w).

Definition update (c : cid) (f : Container -> Container) : M unit := fun w =>
  match containers w !! c with
  | Some k => (Val tt, set_containers (<[c := f k]> (containers w)) w)
  | None => (Undefined, w)
  end.

Definition set_instance (t : tid) (p : ptr) (k : Container) : Container :=
  mkContainer (kind k) (parent_ k) (<[t := p]> (instances_ k)) (qualified_instances_ k)
    (registrations_ k) (lifecycle_ k) (owned_instances_ k) (topo_order_ k) (built_ k).

Definition set_qualified (q : bytes) (p : ptr) (k : Container) : Container :=
  mkContainer (kind k) (parent_ k) (instances_ k) (<[q := p]> (qualified_instances_ k))
    (registrations_ k) (lifecycle_ k) (owned_instances_ k) (topo_order_ k) (built_ k).

Definition set_registrations (r : gmap tid BeanRegistration) (k : Container) : Container :=
  mkContainer (kind k) (parent_ k) (instances_ k) (qualified_instances_ k)
    r (lifecycle_ k) (owned_instances_ k) (topo_order_ k) (built_ k).

Definition push_entry (e : LifecycleEntry) (k : Container) : Container :=
  mkContainer (kind k) (parent_ k) (instances_ k) (qualified_instances_ k)
    (registrations_ k) (lifecycle_ k ++ [e]) (owned_instances_ k) (topo_order_ k) (built_ k).

Definition push_owned (p : ptr) (d : bool) (k : Container) : Container :=
  mkContainer (kind k) (parent_ k) (instances_ k) (qualified_instances_ k)
    (registrations_ k) (lifecycle_ k) (owned_instances_ k ++ [(p, d)]) (topo_order_ k) (built_ k).

Definition set_topo (l : list tid) (k : Container) : Container :=
  mkContainer (kind k) (parent_ k) (instances_ k) (qualified_instances_ k)
    (registrations_ k) (lifecycle_ k) (owned_instances_ k) l (built_ k).

Definition set_built (b : bool) (k : Container) : Container :=
  mkContainer (kind k) (parent_ k) (instances_ k) (qualified_instances_ k)
    (registrations_ k) (lifecycle_ k) (owned_instances_ k) (topo_order_ k) b.

(** ** Objects *)

Definition log (e : Event) (w : World) : World :=
  mkWorld (containers w) (next_object w) (alive w) (e :: trace w) (lazy_lock w) (thread w).

(** [new T{args...}] *)
Definition new_object (args : list ptr) : M ptr := fun w =>
  let p := S (next_object w) in
  (Val p, mkWorld (containers w) p ({[p]} ∪ alive w) (Created p args :: trace w)
            (lazy_lock w) (thread w)).

(** Binding a reference to an object. *)
Definition deref (p : ptr) : M ptr := fun w =>
  if decide (p ∈ alive w) then (Val p, w) else (Undefined, w).

Definition delete_object (p : ptr) : M unit := fun w =>
  if decide (p ∈ alive w)
  then (Val tt, mkWorld (containers w) (next_object w) (alive w ∖ {[p]}) (Destroyed p :: trace w)
                  (lazy_lock w) (thread w))
  else (Undefined, w).

Section Container_ops.

(** The types of the program. *)
Variable type_name : tid -> bytes.
Variables initializable destroyable : tid -> bool.
(** [T] is a middleware, or a [shared_ptr] to one; its [Order] annotation. *)
Variable is_middleware : tid -> bool.
Variable order_annotation : tid -> option Z.
(** Whether a call of a hook throws. *)
Variable hook_throws : list Event -> Event -> option Exn.
(** Whether the future of an async bean is still not ready after its timeout. *)
Variable late : tid -> bool.
(** Traversal order of [registrations_] ([false]) and of [in_degree] ([true]). *)
Variable umap_order : bool -> list tid -> list tid.

Definition keys {A} (m : gmap tid A) : list tid := (map_to_list m).*1.

(** ** Hooks *)

(** One step of a hook on the object. *)
Definition fire (e : Event) (p : ptr) : M unit := fun w =>
  if decide (p ∈ alive w) then
    match hook_throws (trace w) e with
    | None => (Val tt, log e w)
    | Some x => (Thrown x, log e w)
    end
  else (Undefined, w).

Fixpoint call_hook (mk : Action -> ptr -> Event) (fn : list Action) (p : ptr) : M unit :=
  match fn with
  | [] => ret tt
  | a :: fn' => fire (mk a p) p ;;; call_hook mk fn' p
  end.

(** [if (fn) fn(p)] *)
Definition call_opt (mk : Action -> ptr -> Event) (fn : option (list Action)) (p : ptr) : M unit :=
  match fn with
  | Some l => call_hook mk l p
  | None => ret tt
  end.

(** ** LifecycleManager *)

Definition register_entry (c : cid) (p : ptr) (pc pd : option (list Action)) : M unit :=
  update c (push_entry (mkEntry p pc pd)).

(** The overload for a [T*]. *)
Definition register_entry_typed (c : cid) (t : tid) (p : ptr) (pc pd : option (list Action)) : M unit :=
  let pc' := if initializable t then Some (default [] pc ++ [InterfaceHook]) else pc in
  let pd' := if destroyable t then Some (InterfaceHook :: default [] pd) else pd in
  register_entry c p pc' pd'.

Fixpoint post_construct_entries (es : list LifecycleEntry) : M unit :=
  match es with
  | [] => ret tt
  | e :: es' => call_opt PostConstruct (on_post_construct e) (instance e) ;;; post_construct_entries es'
  end.

Definition invoke_post_constructs (c : cid) : M unit :=
  let* k := get c in post_construct_entries (lifecycle_ k).

(** [try { fn(p); } catch (...) { warn }] *)
Definition guarded (m : M unit) : M unit := fun w =>
  match m w with
  | (Thrown _, w') => (Val tt, w')
  | other => other
  end.

Fixpoint pre_destroy_entries (es : list LifecycleEntry) : M unit :=
  match es with
  | [] => ret tt
  | e :: es' => guarded (call_opt PreDestroy (on_pre_destroy e) (instance e)) ;;; pre_destroy_entries es'
  end.

Definition invoke_pre_destroys (c : cid) : M unit :=
  let* k := get c in pre_destroy_entries (rev (lifecycle_ k)).

(** The loop over [owned_instances_] of [shutdown] and of the destructors. *)
Fixpoint destroy_owned (l : list (ptr * bool)) : M unit :=
  match l with
  | [] => ret tt
  | (p, d) :: l' =>
      (if d && negb (p =? 0)%nat then delete_object p else ret tt) ;;; destroy_owned l'
  end.

(** ** Registration *)

Definition register (r : BeanRegistration) (k : Container) : Container :=
  set_registrations (<[type_id r := r]> (registrations_ k)) k.

Definition register_bean (t : tid) (f : Factory) (sc : Scope) (q : bytes)
    (primary lazy : bool) (order : Z) (k : Container) : Container :=
  register
    (mkReg t (type_name t) q sc primary lazy false 30000 (Some f) None
       (if initializable t then Some [InterfaceHook] else None)
       (if destroyable t then Some [InterfaceHook] else None)
       true []
       (if is_middleware t && (order =? 0) then default order (order_annotation t) else order)
       (is_middleware t)) k.

Definition register_async_bean (t : tid) (f : Factory) (timeout_ms : Z) (q : bytes) (k : Container) : Container :=
  register
    (mkReg t (type_name t) q Singleton false false true timeout_ms None (Some f)
       None None true [] 0 false) k.

(** [register_bean] of the child containers; the scope is theirs. *)
Definition register_scoped (sc : Scope) (t : tid) (f : Factory) (k : Container) : Container :=
  register
    (mkReg t (type_name t) [] sc false false false 30000 (Some f) None None None true [] 0 false) k.

Definition shard_register_bean : tid -> Factory -> Container -> Container := register_scoped Singleton.
Definition request_register_bean : tid -> Factory -> Container -> Container := register_scoped Request.
Definition connection_register_bean : tid -> Factory -> Container -> Container := register_scoped Connection.

(** The fluent forms. *)
Definition singleton (t : tid) (f : Factory) : Container -> Container :=
  register_bean t f Singleton [] false false 0.
Definition request (t : tid) (f : Factory) : Container -> Container :=
  register_bean t f Request [] false false 0.

Definition alter_registration (t : tid) (f : BeanRegistration -> BeanRegistration) (k : Container) : Container :=
  match registrations_ k !! t with
  | Some r => set_registrations (<[t := f r]> (registrations_ k)) k
  | None => k
  end.

Definition no_registration (t : tid) : Exn :=
  DIError (bs "novaboot::di: No registration for " ++ type_name t).

Definition with_post (pc : option (list Action)) (r : BeanRegistration) : BeanRegistration :=
  mkReg (type_id r) (name r) (qualifier r) (scope r) (is_primary r) (is_lazy r) (is_async r)
    (async_timeout_ms r) (factory r) (async_factory r) pc (pre_destroy_fn r)
    (destructor_fn r) (dep_type_ids r) (middleware_order r) (get_middleware_fn r).

Definition with_pre (pd : option (list Action)) (r : BeanRegistration) : BeanRegistration :=
  mkReg (type_id r) (name r) (qualifier r) (scope r) (is_primary r) (is_lazy r) (is_async r)
    (async_timeout_ms r) (factory r) (async_factory r) (post_construct_fn r) pd
    (destructor_fn r) (dep_type_ids r) (middleware_order r) (get_middleware_fn r).

Definition with_post_construct (t : tid) (fn : nat) (k : Container) : result Exn Container :=
  match registrations_ k !! t with
  | None => Err (no_registration t)
  | Some r => Ok (alter_registration t (with_post (Some (default [] (post_construct_fn r) ++ [UserHook fn]))) k)
  end.

Definition with_pre_destroy (t : tid) (fn : nat) (k : Container) : result Exn Container :=
  match registrations_ k !! t with
  | None => Err (no_registration t)
  | Some r => Ok (alter_registration t (with_pre (Some (UserHook fn :: default [] (pre_destroy_fn r)))) k)
  end.

Definition add_dependency (parent dep : tid) (k : Container) : Container :=
  alter_registration parent (fun r =>
    mkReg (type_id r) (name r) (qualifier r) (scope r) (is_primary r) (is_lazy r) (is_async r)
      (async_timeout_ms r) (factory r) (async_factory r) (post_construct_fn r) (pre_destroy_fn r)
      (destructor_fn r) (dep_type_ids r ++ [dep]) (middleware_order r) (get_middleware_fn r)) k.

(** [BeanBuilder]: it names the type it was made for. *)
Definition on_start (t : tid) (fn : nat) : Container -> result Exn Container := with_post_construct t fn.
Definition on_stop (t : tid) (fn : nat) : Container -> result Exn Container := with_pre_destroy t fn.

Definition builder_qualifier (t : tid) (q : bytes) : Container -> Container :=
  alter_registration t (fun r =>
    mkReg (type_id r) (name r) q (scope r) (is_primary r) (is_lazy r) (is_async r)
      (async_timeout_ms r) (factory r) (async_factory r) (post_construct_fn r) (pre_destroy_fn r)
      (destructor_fn r) (dep_type_ids r) (middleware_order r) (get_middleware_fn r)).

Definition builder_primary (t : tid) : Container -> Container :=
  alter_registration t (fun r =>
    mkReg (type_id r) (name r) (qualifier r) (scope r) true (is_lazy r) (is_async r)
      (async_timeout_ms r) (factory r) (async_factory r) (post_construct_fn r) (pre_destroy_fn r)
      (destructor_fn r) (dep_type_ids r) (middleware_order r) (get_middleware_fn r)).

Definition builder_lazy (t : tid) : Container -> Container :=
  alter_registration t (fun r =>
    mkReg (type_id r) (name r) (qualifier r) (scope r) (is_primary r) true (is_async r)
      (async_timeout_ms r) (factory r) (async_factory r) (post_construct_fn r) (pre_destroy_fn r)
      (destructor_fn r) (dep_type_ids r) (middleware_order r) (get_middleware_fn r)).

Definition depends_on (t dep : tid) : Container -> Container := add_dependency t dep.

(** [return &c.resolve<Implementation>();] *)
Definition alias_factory (impl : tid) : Factory := FResolve impl FReturn.

(** [BindBuilder<Interface>::to<Implementation>] *)
Definition bind_to (iface impl : tid) (k : Container) : Container :=
  let '(sc, q, prim, lazy) :=
    match registrations_ k !! impl with
    | Some r => (scope r, qualifier r, is_primary r, is_lazy r)
    | None => (Singleton, [], false, false)
    end in
  let k1 := register_bean iface (alias_factory impl) sc q prim lazy 0 k in
  let k2 := add_dependency iface impl k1 in
  alter_registration iface (fun r =>
    mkReg (type_id r) (name r) (qualifier r) (scope r) (is_primary r) true (is_async r)
      (async_timeout_ms r) (factory r) (async_factory r) None None
      false (dep_type_ids r) (middleware_order r) (get_middleware_fn r)) k2.

(** [TypeList<Args...>]: [construct], the arguments in the order in which they are
    evaluated, and [add_dependencies]. *)
Fixpoint construct (args : list tid) (k : ptr -> Factory) : Factory :=
  match args with
  | [] => FNew k
  | a :: args' => FResolve a (fun _ => construct args' k)
  end.

Definition add_dependencies (t : tid) (args : list tid) (k : Container) : Container :=
  foldl (fun k a => add_dependency t a k) k args.

(** The [@Value] members of the object, [n] of them, are read from the
    configuration bean. *)
Fixpoint inject_values (app_config : tid) (n : nat) (obj : ptr) : Factory :=
  match n with
  | O => FReturn obj
  | S n' => FHas app_config (fun present =>
              if present then FResolve app_config (fun _ => inject_values app_config n' obj)
              else inject_values app_config n' obj)
  end.

Definition autowire (app_config t : tid) (args : list tid) (values : nat) (sc : Scope) (k : Container) : Container :=
  let k1 := register_bean t (construct args (inject_values app_config values)) sc [] false false 0 k in
  let k2 := add_dependencies t args k1 in
  if (0 <? values)%nat then add_dependency t app_config k2 else k2.

(** ** Cycle detection *)

Inductive Color := White | Gray | Black.

#[local] Instance Color_eq_dec : EqDecision Color.
Proof. solve_decision. Defined.

(** [None]: the model ran out of fuel. *)
Abbreviation dfs_state := (gmap tid Color * list tid)%type (only parsing).
Abbreviation dfs_result := (result (option Exn) dfs_state) (only parsing).

Definition reg_name (regs : gmap tid BeanRegistration) (t : tid) : bytes :=
  match regs !! t with
  | Some r => name r
  | None => type_name t
  end.

(** The path from the repeated type on. *)
Fixpoint path_from (t : tid) (path : list tid) : list tid :=
  match path with
  | [] => []
  | x :: path' => if (x =? t)%nat then path else path_from t path'
  end.

Definition cycle_path (regs : gmap tid BeanRegistration) (path : list tid) (dep : tid) : bytes :=
  concat (map (fun x => match regs !! x with Some r => name r ++ bs " -> " | None => [] end)
            (path_from dep path))
  ++ reg_name regs dep.

Definition cycle_error (regs : gmap tid BeanRegistration) (path : list tid) (dep : tid) : Exn :=
  DIError (bs "novaboot::di: Circular dependency detected: " ++ cycle_path regs path dep).

(** The loop over the dependencies; [visit] is the recursive call. *)
Fixpoint dfs_deps (regs : gmap tid BeanRegistration) (visit : tid -> dfs_state -> dfs_result)
    (deps : list tid) (st : dfs_state) : dfs_result :=
  match deps with
  | [] => Ok st
  | d :: deps' =>
      match fst st !! d with
      | None => dfs_deps regs visit deps' st
      | Some Gray => Err (Some (cycle_error regs (snd st) d))
      | Some White =>
          match visit d st with
          | inl e => inl e
          | inr st' => dfs_deps regs visit deps' st'
          end
      | Some Black => dfs_deps regs visit deps' st
      end
  end.

Fixpoint dfs (fuel : nat) (regs : gmap tid BeanRegistration) (t : tid) (st : dfs_state) : dfs_result :=
  match fuel with
  | O => Err None
  | S fuel' =>
      let st1 := (<[t := Gray]> (fst st), snd st ++ [t]) in
      match regs !! t with
      | None => Ok (fst st1, removelast (snd st1))
      | Some r =>
          match dfs_deps regs (dfs fuel' regs) (dep_type_ids r) st1 with
          | inl e => inl e
          | inr st2 => Ok (<[t := Black]> (fst st2), removelast (snd st2))
          end
      end
  end.

Fixpoint dfs_all (fuel : nat) (regs : gmap tid BeanRegistration) (l : list tid) (st : dfs_state) : dfs_result :=
  match l with
  | [] => Ok st
  | t :: l' =>
      match fst st !! t with
      | Some White =>
          match dfs fuel regs t st with
          | inl e => inl e
          | inr st' => dfs_all fuel regs l' st'
          end
      | _ => dfs_all fuel regs l' st
      end
  end.

(** Each nested call of [dfs] turns one more type gray. *)
Definition detect_cycles (regs : gmap tid BeanRegistration) : result (option Exn) unit :=
  match dfs_all (S (size regs)) regs (umap_order false (keys regs)) ((fun _ => White) <$> regs, []) with
  | inl e => inl e
  | inr _ => inr tt
  end.

(** ** Topological order: Kahn's algorithm *)

Abbreviation kahn_maps := (gmap tid Z * gmap tid (list tid))%type (only parsing).

Definition count_dep (regs : gmap tid BeanRegistration) (t : tid) (m : kahn_maps) (dep : tid) : kahn_maps :=
  if bool_decide (is_Some (regs !! dep))
  then (<[t := wrap64 (default 0 (fst m !! t) + 1)]> (fst m),
        <[dep := default [] (snd m !! dep) ++ [t]]> (snd m))
  else m.

Definition count_deps (regs : gmap tid BeanRegistration) (m : kahn_maps) (t : tid) : kahn_maps :=
  let m1 := if bool_decide (is_Some (fst m !! t)) then m else (<[t := 0]> (fst m), snd m) in
  foldl (count_dep regs t) m1 (default [] (dep_type_ids <$> regs !! t)).

Definition kahn_init (regs : gmap tid BeanRegistration) : kahn_maps :=
  foldl (count_deps regs) (∅, ∅) (umap_order false (keys regs)).

(** [for (auto dep : dependents[tid]) if (--in_degree[dep] == 0) queue.push(dep);] *)
Definition release (s : gmap tid Z * list tid) (dep : tid) : gmap tid Z * list tid :=
  let d := wrap64 (default 0 (fst s !! dep) - 1) in
  (<[dep := d]> (fst s), if d =? 0 then snd s ++ [dep] else snd s).

Fixpoint kahn_loop (fuel : nat) (dependents : gmap tid (list tid)) (in_degree : gmap tid Z)
    (queue topo : list tid) : option (list tid) :=
  match fuel with
  | O => None
  | S fuel' =>
      match queue with
      | [] => Some topo
      | t :: queue' =>
          let '(in_degree', queue'') := foldl release (in_degree, queue') (default [] (dependents !! t)) in
          kahn_loop fuel' dependents in_degree' queue'' (topo ++ [t])
      end
  end.

(** The types that a cycle kept out. *)
Definition add_missing (topo : list tid) (t : tid) : list tid :=
  if bool_decide (t ∈ topo) then topo else topo ++ [t].

Definition build_topo_order (regs : gmap tid BeanRegistration) : option (list tid) :=
  let '(in_degree, dependents) := kahn_init regs in
  let queue := filter (fun t => in_degree !! t = Some 0) (umap_order true (keys in_degree)) in
  match kahn_loop (S (size regs)) dependents in_degree queue [] with
  | None => None
  | Some topo => Some (if (length topo <? size regs)%nat
                       then foldl add_missing topo (umap_order false (keys regs)) else topo)
  end.

(** ** Resolution *)

Definition not_found (t : tid) : Exn :=
  DIError (bs "novaboot::di: Bean not found: " ++ type_name t ++ bs ". Did you forget to register it?").

Definition not_found_named (t : tid) (q : bytes) : Exn :=
  DIError (bs "novaboot::di: Bean not found: " ++ type_name t ++ bs " with qualifier '" ++ q ++ bs "'").

Definition not_prototype (t : tid) : Exn :=
  DIError (bs "novaboot::di: resolve_new<T> requires Prototype scope for: " ++ type_name t).

Definition timed_out (r : BeanRegistration) : Exn :=
  DIError (bs "novaboot::di: Async bean '" ++ name r ++ bs "' timed out after "
           ++ to_dec (async_timeout_ms r) ++ bs "ms").

Definition make_qualified_key (type_name q : bytes) : bytes := type_name ++ bs ":" ++ q.

Definition cache_instance (c : cid) (t : tid) (r : BeanRegistration) (p : ptr) : M unit :=
  update c (set_instance t p) ;;;
  (if bool_decide (qualifier r = []) then ret tt
   else update c (set_qualified (make_qualified_key (name r) (qualifier r)) p)).

(** The walks up the parents; the fuel is their number. *)
Fixpoint has (fuel : nat) (c : cid) (t : tid) : M bool :=
  match fuel with
  | O => fun w => (NoFuel, w)
  | S fuel' =>
      let* k := get c in
      if bool_decide (is_Some (instances_ k !! t)) then ret true
      else if bool_decide (is_Some (registrations_ k !! t)) then ret true
      else match parent_ k with
           | Some q => has fuel' q t
           | None => ret false
           end
  end.

Fixpoint find_registration (fuel : nat) (c : cid) (t : tid) : M (option BeanRegistration) :=
  match fuel with
  | O => fun w => (NoFuel, w)
  | S fuel' =>
      let* k := get c in
      match registrations_ k !! t with
      | Some r => ret (Some r)
      | None => match parent_ k with
                | Some q => find_registration fuel' q t
                | None => ret None
                end
      end
  end.

Fixpoint resolve_named (fuel : nat) (c : cid) (t : tid) (q : bytes) : M ptr :=
  match fuel with
  | O => fun w => (NoFuel, w)
  | S fuel' =>
      let* k := get c in
      match qualified_instances_ k !! make_qualified_key (type_name t) q with
      | Some p => deref p
      | None => match parent_ k with
                | Some u => resolve_named fuel' u t q
                | None => throw (not_found_named t q)
                end
      end
  end.

(** [resolve(std::type_index)]: null when there is no instance. *)
Fixpoint resolve_dynamic (fuel : nat) (c : cid) (t : tid) : M ptr :=
  match fuel with
  | O => fun w => (NoFuel, w)
  | S fuel' =>
      let* k := get c in
      match instances_ k !! t with
      | Some p => ret p
      | None => match parent_ k with
                | Some u => resolve_dynamic fuel' u t
                | None => ret 0%nat
                end
      end
  end.

(** Running a factory, given the container's operations. *)
Fixpoint run_factory (rs : tid -> M ptr) (rq : tid -> bytes -> M ptr) (rn : tid -> M ptr) (hs : tid -> M bool)
    (f : Factory) (args : list ptr) : M ptr :=
  match f with
  | FNew k => let* p := new_object args in run_factory rs rq rn hs (k p) args
  | FReturn p => ret p
  | FThrow e => throw e
  | FResolve t k => let* p := rs t in run_factory rs rq rn hs (k p) (args ++ [p])
  | FResolveNamed t q k => let* p := rq t q in run_factory rs rq rn hs (k p) (args ++ [p])
  | FResolveNew t k => let* p := rn t in run_factory rs rq rn hs (k p) (args ++ [p])
  | FHas t k => let* b := hs t in run_factory rs rq rn hs (k b) args
  end.

(** Calling a possibly empty [std::function]. *)
Definition run_opt (run : Factory -> M ptr) (f : option Factory) : M ptr :=
  match f with
  | Some f => run f
  | None => throw BadFunctionCall
  end.

Definition with_thread (n : nat) (w : World) : World :=
  mkWorld (containers w) (next_object w) (alive w) (trace w) (lazy_lock w) n.

(** [std::async(std::launch::async, ...)]: the factory runs in another thread; the
    destructor of its future waits for it, also when the timeout is reported. *)
Definition run_async (run : Factory -> M ptr) (r : BeanRegistration) : M ptr := fun w =>
  match async_factory r with
  | None => (Thrown BadFunctionCall, w)
  | Some f =>
      let '(res, w1) := run f (with_thread (S (thread w)) w) in
      let w2 := with_thread (thread w) w1 in
      match res with
      | Val _ | Thrown _ =>
          if (async_timeout_ms r =? 0) || negb (late (type_id r)) then (res, w2)
          else (Thrown (timed_out r), w2)
      | _ => (res, w2)
      end
  end.

Definition instantiate (run : Factory -> M ptr) (r : BeanRegistration) : M ptr :=
  if is_async r then run_async run r else run_opt run (factory r).

Definition with_lock (l : list nat) (w : World) : World :=
  mkWorld (containers w) (next_object w) (alive w) (trace w) l (thread w).

(** [std::lock_guard<std::recursive_mutex>] around the body: the mutex is free or
    its owner comes back, or the thread waits for one that waits for it. *)
Definition locked {A} (m : M A) : M A := fun w =>
  match lazy_lock w with
  | t :: _ => if (t =? thread w)%nat then
                let '(res, w') := m (with_lock (thread w :: lazy_lock w) w) in
                (res, with_lock (lazy_lock w) w')
              else (Deadlock, w)
  | [] => let '(res, w') := m (with_lock [thread w] w) in (res, with_lock [] w')
  end.

Definition resolve_lazy_singleton (run : Factory -> M ptr) (c : cid) (t : tid) : M ptr :=
  locked (
    let* k := get c in
    match instances_ k !! t with
    | Some p => ret p
    | None =>
        match registrations_ k !! t with
        | None => ret 0%nat
        | Some r =>
            if negb (is_lazy r) then ret 0%nat
            else
              let* raw := instantiate run r in
              cache_instance c t r raw ;;;
              call_opt PostConstruct (post_construct_fn r) raw ;;;
              update c (push_owned raw (destructor_fn r)) ;;;
              ret raw
        end
    end).

(** The virtual function: only the root has lazy beans of its own. *)
Definition resolve_lazy_impl (run : Factory -> M ptr) (c : cid) (k : Container) (t : tid) : M ptr :=
  match kind k with
  | Root => resolve_lazy_singleton run c t
  | _ => ret 0%nat
  end.

(** [ContainerBase::resolve<T>] and [resolve_new<T>]; a factory calls them back. *)
Fixpoint resolve (fuel : nat) (c : cid) (t : tid) {struct fuel} : M ptr :=
  match fuel with
  | O => fun w => (NoFuel, w)
  | S fuel' =>
      let* k := get c in
      match instances_ k !! t with
      | Some p => deref p
      | None =>
          let* raw :=
            match registrations_ k !! t with
            | Some r =>
                if is_lazy r && negb (bool_decide (scope r = Prototype))
                then resolve_lazy_impl
                       (fun f => run_factory (resolve fuel' c) (resolve_named fuel' c)
                                   (resolve_new fuel' c) (has fuel' c) f []) c k t
                else ret 0%nat
            | None => ret 0%nat
            end in
          if (raw =? 0)%nat then
            match parent_ k with
            | Some q => resolve fuel' q t
            | None => throw (not_found t)
            end
          else deref raw
      end
  end
with resolve_new (fuel : nat) (c : cid) (t : tid) {struct fuel} : M ptr :=
  match fuel with
  | O => fun w => (NoFuel, w)
  | S fuel' =>
      let* r := find_registration fuel c t in
      match r with
      | Some r =>
          if bool_decide (scope r = Prototype) then
            let* raw := run_opt (fun f => run_factory (resolve fuel' c) (resolve_named fuel' c)
                                            (resolve_new fuel' c) (has fuel' c) f []) (factory r) in
            call_opt PostConstruct (post_construct_fn r) raw ;;;
            ret raw
          else throw (not_prototype t)
      | None => throw (not_prototype t)
      end
  end.

(** Calling [factory] on the container itself. *)
Definition run_in (fuel : nat) (c : cid) (f : Factory) : M ptr :=
  run_factory (resolve fuel c) (resolve_named fuel c) (resolve_new fuel c) (has fuel c) f [].

(** [init_singleton], which no container calls. *)
Definition init_singleton (fuel : nat) (c : cid) (r : BeanRegistration) : M ptr :=
  let* raw := run_opt (run_in fuel c) (factory r) in
  cache_instance c (type_id r) r raw ;;;
  register_entry c raw (post_construct_fn r) (pre_destroy_fn r) ;;;
  ret raw.

(** ** RootContainer *)

Definition root : cid := 0%nat.

(** The body of the instantiation loop of [build]. *)
Definition build_bean (fuel : nat) (c : cid) (t : tid) : M unit :=
  let* k := get c in
  match registrations_ k !! t with
  | None => ret tt
  | Some r =>
      if bool_decide (scope r = Prototype) then ret tt
      else if is_lazy r then ret tt
      else
        let* raw := instantiate (run_in fuel c) r in
        cache_instance c t r raw ;;;
        register_entry c raw (post_construct_fn r) (pre_destroy_fn r) ;;;
        update c (push_owned raw (destructor_fn r))
  end.

Fixpoint build_beans (fuel : nat) (c : cid) (l : list tid) : M unit :=
  match l with
  | [] => ret tt
  | t :: l' => build_bean fuel c t ;;; build_beans fuel c l'
  end.

Definition built_twice : Exn := DIError (bs "novaboot::di: RootContainer::build() called twice").

Definition lift_cycles (r : result (option Exn) unit) : M unit := fun w =>
  match r with
  | inr _ => (Val tt, w)
  | inl (Some e) => (Thrown e, w)
  | inl None => (NoFuel, w)
  end.

Definition build (fuel : nat) (c : cid) : M unit :=
  let* k := get c in
  if built_ k then throw built_twice
  else
    lift_cycles (detect_cycles (registrations_ k)) ;;;
    match build_topo_order (registrations_ k) with
    | None => fun w => (NoFuel, w)
    | Some topo =>
        update c (set_topo topo) ;;;
        build_beans fuel c topo ;;;
        invoke_post_constructs c ;;;
        update c (set_built true)
    end.

(** The end of [shutdown]. *)
Definition clear_instances (k : Container) : Container :=
  mkContainer (kind k) (parent_ k) ∅ ∅ (registrations_ k) (lifecycle_ k) [] (topo_order_ k) false.

Definition shutdown (c : cid) : M unit :=
  let* k := get c in
  if negb (built_ k) then ret tt
  else
    invoke_pre_destroys c ;;;
    let* k' := get c in
    destroy_owned (rev (owned_instances_ k')) ;;;
    update c clear_instances.

(** ** Child containers *)

(** A new container; the key is not in use. *)
Definition make_child (k : Kind) (parent : cid) : M cid := fun w =>
  let c := fresh (dom (containers w)) in
  (Val c, set_containers (<[c := empty_container k (Some parent)]> (containers w)) w).

Definition not_built : Exn := DIError (bs "novaboot::di: Cannot create ShardContainer before build()").

Definition make_shard_container (c : cid) : M cid :=
  let* k := get c in
  if negb (built_ k) then throw not_built else make_child Shard c.

Definition make_request_container (c : cid) : M cid := make_child RequestKind c.
Definition make_connection_container (c : cid) : M cid := make_child ConnectionKind c.

Definition initialize_bean (fuel : nat) (c : cid) (t : tid) : M unit :=
  let* k := get c in
  match registrations_ k !! t with
  | None => ret tt
  | Some r =>
      if is_lazy r then ret tt
      else
        let* raw := run_opt (run_in fuel c) (factory r) in
        cache_instance c t r raw ;;;
        register_entry c raw (post_construct_fn r) (pre_destroy_fn r) ;;;
        update c (push_owned raw (destructor_fn r))
  end.

Fixpoint initialize_beans (fuel : nat) (c : cid) (l : list tid) : M unit :=
  match l with
  | [] => ret tt
  | t :: l' => initialize_bean fuel c t ;;; initialize_beans fuel c l'
  end.

Definition initialize (fuel : nat) (c : cid) : M unit :=
  let* k := get c in
  initialize_beans fuel c (umap_order false (keys (registrations_ k))) ;;;
  invoke_post_constructs c.

(** [resolve<T>] of [RequestContainer] and of [ConnectionContainer], which differ
    in the scope they create. *)
Definition resolve_scoped (sc : Scope) (fuel : nat) (c : cid) (t : tid) : M ptr :=
  let* k := get c in
  match instances_ k !! t with
  | Some p => deref p
  | None =>
      let* r := find_registration fuel c t in
      match r with
      | Some r =>
          if bool_decide (scope r = sc) then
            let* raw := run_opt (run_in fuel c) (factory r) in
            call_opt PostConstruct (post_construct_fn r) raw ;;;
            register_entry_typed c t raw None (pre_destroy_fn r) ;;;
            update c (set_instance t raw) ;;;
            update c (push_owned raw (destructor_fn r)) ;;;
            deref raw
          else resolve fuel c t
      | None => resolve fuel c t
      end
  end.

Definition request_resolve : nat -> cid -> tid -> M ptr := resolve_scoped Request.
Definition connection_resolve : nat -> cid -> tid -> M ptr := resolve_scoped Connection.

(** The destructors of the child containers; the members go with the container. *)
Definition destroy_container (c : cid) : M unit :=
  invoke_pre_destroys c ;;;
  let* k := get c in
  destroy_owned (rev (owned_instances_ k)) ;;;
  fun w => (Val tt, set_containers (delete c (containers w)) w).

(** [~RootContainer]: the exceptions of [shutdown] are swallowed. *)
Definition destroy_root (c : cid) : M unit :=
  let* k := get c in
  (if built_ k then guarded (shutdown c) else ret tt) ;;;
  fun w => (Val tt, set_containers (delete c (containers w)) w).

(** ** Injection wrappers *)

(** [Lazy<T>::get]: the cached pointer and the next state of it. *)
Definition lazy_get (fuel : nat) (c : cid) (t : tid) (cached : ptr) : M ptr :=
  if (cached =? 0)%nat then resolve fuel c t else ret cached.

(** [Optional<T>]: null when there is no such bean. *)
Definition optional (fuel : nat) (c : cid) (t : tid) : M ptr :=
  let* b := has fuel c t in
  if b then resolve fuel c t else ret 0%nat.

End Container_ops.

End Di.
