(* ===== verification/DiGraphProps.v ===== *)
(** * The dependency graph of the container: cycles and construction order

    [edge regs a b]: the bean [a] declares the registered bean [b] as a
    dependency.  [ordered l]: the dependencies of every type of [l] come later in
    [l]; the search of [detect_cycles] finishes the types in the reverse of such
    an order, and [build_topo_order] computes one. *)

From S2P Require Import Prelude CxxString DiContainer.

Module DiGraph.
Import Di.

(** ** Specification *)

Definition edge (regs : gmap tid BeanRegistration) (a b : tid) : Prop :=
  exists r, regs !! a = Some r /\ b ∈ dep_type_ids r /\ is_Some (regs !! b).

Definition acyclic (regs : gmap tid BeanRegistration) : Prop :=
  forall t, ~ tc (edge regs) t t.

(** Consecutive types depend on each other. *)
Fixpoint linked (regs : gmap tid BeanRegistration) (l : list tid) : Prop :=
  match l with
  | a :: (b :: _) as l' => edge regs a b /\ linked regs l'
  | _ => True
  end.

(** The exception that reports the cycle [x], [xs], [x]. *)
Definition reports_cycle (type_name : tid -> bytes) (regs : gmap tid BeanRegistration) (e : Exn) : Prop :=
  exists x xs, linked regs (x :: xs ++ [x]) /\
    e = DIError (bs "novaboot::di: Circular dependency detected: "
                 ++ join_with (bs " -> ") (map (reg_name type_name regs) (x :: xs ++ [x]))).

Inductive ordered (regs : gmap tid BeanRegistration) : list tid -> Prop :=
| ordered_nil : ordered regs []
| ordered_cons t l : t ∉ l -> (forall d, edge regs t d -> d ∈ l) -> ordered regs l -> ordered regs (t :: l).

Lemma ordered_closed regs l t d : ordered regs l -> t ∈ l -> edge regs t d -> d ∈ l.
Proof.
  induction 1 as [|x l Hx Hd Ho IH]; [by intros ?%elem_of_nil|].
  intros [->|Ht]%elem_of_cons He; right; auto.
Qed.

Lemma ordered_closed_tc regs l t d : ordered regs l -> t ∈ l -> tc (edge regs) t d -> d ∈ l.
Proof.
  intros Ho Ht Htc. induction Htc as [x y E|x y z E Htc IH].
  - eapply ordered_closed; eauto.
  - apply IH. eapply ordered_closed; eauto.
Qed.

Lemma ordered_acyclic regs l t : ordered regs l -> t ∈ l -> ~ tc (edge regs) t t.
Proof.
  induction 1 as [|x l Hx Hd Ho IH]; [by intros ?%elem_of_nil|].
  intros [->|Ht]%elem_of_cons Htc; [|by apply IH].
  apply Hx. inversion Htc as [? ? E|? y ? E Htc']; subst; [by apply Hd|].
  eapply ordered_closed_tc; eauto.
Qed.

Lemma edge_registered regs a b : edge regs a b -> is_Some (regs !! a) /\ is_Some (regs !! b).
Proof. intros (r & Hr & _ & Hb). by rewrite Hr. Qed.

Lemma ordered_all_acyclic regs l :
  ordered regs l -> (forall t, is_Some (regs !! t) -> t ∈ l) -> acyclic regs.
Proof.
  intros Ho Hall t Htc. apply (ordered_acyclic regs l t); [done| |done].
  apply Hall. inversion Htc as [? ? E|? ? ? E]; subst; apply (edge_registered _ _ _ E).
Qed.

Lemma elem_of_rev {A} (x : A) l : x ∈ rev l <-> x ∈ l.
Proof. by rewrite !list_elem_of_In, <- in_rev. Qed.

Lemma linked_app_l regs l k : linked regs (l ++ k) -> linked regs l.
Proof.
  induction l as [|a l IH]; [done|]. destruct l as [|b l]; [done|].
  intros [He Hl]. split; [done|]. by apply IH.
Qed.

Lemma linked_app_r regs l k : linked regs (l ++ k) -> linked regs k.
Proof.
  induction l as [|a l IH]; [done|]. intros H. apply IH.
  cbn [app] in H. destruct (l ++ k) as [|b u]; [done|]. apply H.
Qed.

Lemma linked_snoc regs l a b : linked regs (l ++ [a]) -> edge regs a b -> linked regs (l ++ [a; b]).
Proof.
  induction l as [|x l IH]; [done|]. intros H He.
  destruct l as [|y l].
  - destruct H as [H _]. cbn. auto.
  - destruct H as [H Hl]. split; [done|]. by apply IH.
Qed.

Lemma linked_tc regs a l b : linked regs (a :: l ++ [b]) -> tc (edge regs) a b.
Proof.
  revert a. induction l as [|x l IH]; intros a.
  - intros [He _]. by apply tc_once.
  - intros [He Hl]. eapply tc_l; [done|]. by apply IH.
Qed.

Lemma reports_cycle_cyclic ty regs e : reports_cycle ty regs e -> ~ acyclic regs.
Proof.
  intros (x & xs & Hl & _) Ha. apply (Ha x). by apply linked_tc with xs.
Qed.

(** ** The depth-first search *)

Section Search.
Variable type_name : tid -> bytes.
Variable regs : gmap tid BeanRegistration.

(** What holds between two calls: gray is on the path, black is finished. *)
Record dfs_inv (st : gmap tid Color * list tid) : Prop := {
  inv_dom : forall t, is_Some (fst st !! t) <-> is_Some (regs !! t);
  inv_gray : forall t, fst st !! t = Some Gray <-> t ∈ snd st;
  inv_nodup : NoDup (snd st);
  inv_linked : linked regs (snd st);
  inv_black : exists fin, ordered regs fin /\ forall t, fst st !! t = Some Black <-> t ∈ fin
}.

(** What a search from [st] gives. *)
Definition dfs_post (done : tid -> Prop) (st : gmap tid Color * list tid)
    (r : result (option Exn) (gmap tid Color * list tid)) : Prop :=
  match r with
  | inl (Some e) => reports_cycle type_name regs e
  | inl None => False
  | inr st' => dfs_inv st' /\ snd st' = snd st /\
      (forall t, fst st !! t = Some Black -> fst st' !! t = Some Black) /\
      (forall t, done t -> is_Some (regs !! t) -> fst st' !! t = Some Black)
  end.

Lemma dfs_post_weaken (P Q : tid -> Prop) st r :
  dfs_post P st r ->
  (forall t, Q t -> is_Some (regs !! t) -> P t \/ fst st !! t = Some Black) ->
  dfs_post Q st r.
Proof.
  intros H Hw. destruct r as [[e|]|st']; [done..|]. destruct H as (I & Hp & Hb & Hd).
  split_and!; [done..|]. intros t Ht Hr. destruct (Hw t Ht Hr); auto.
Qed.

Lemma dfs_post_then (P Q : tid -> Prop) st r k :
  dfs_post P st r ->
  (forall st', dfs_inv st' -> snd st' = snd st -> dfs_post Q st' (k st')) ->
  dfs_post (fun t => P t \/ Q t) st (match r with inl e => inl e | inr st' => k st' end).
Proof.
  intros H Hk. destruct r as [[e|]|st1]; [done..|]. destruct H as (I & Hp & Hb & Hd).
  specialize (Hk st1 I Hp). destruct (k st1) as [[e|]|st2]; [done..|].
  destruct Hk as (I2 & Hp2 & Hb2 & Hd2). split_and!; [done|congruence|by auto|].
  intros t [Ht|Ht] Hr; auto.
Qed.

Lemma path_length st : dfs_inv st -> (length (snd st) <= size regs)%nat.
Proof.
  intros I. rewrite <- size_dom.
  rewrite <- (size_list_to_set (C := gset nat)) by apply I.
  apply subseteq_size. intros t Ht%elem_of_list_to_set.
  apply elem_of_dom. apply I. rewrite (proj2 (inv_gray _ I t) Ht). eauto.
Qed.

Lemma path_from_split t path :
  t ∈ path -> exists pre suf, path = pre ++ t :: suf /\ path_from t path = t :: suf.
Proof.
  induction path as [|x path IH]; [by intros ?%elem_of_nil|].
  intros Ht. cbn. destruct (Nat.eqb_spec x t) as [->|Hne].
  - by exists [], path.
  - apply elem_of_cons in Ht as [->|Ht]; [done|].
    destruct (IH Ht) as (pre & suf & -> & E). by exists (x :: pre), suf.
Qed.

Lemma names_joined l d : Forall (fun t => is_Some (regs !! t)) l ->
  concat (map (fun x => match regs !! x with Some r => name r ++ bs " -> " | None => [] end) l)
    ++ reg_name type_name regs d
  = join_with (bs " -> ") (map (reg_name type_name regs) (l ++ [d])).
Proof.
  induction 1 as [|x l [r Hr] Hl IH]; [done|].
  cbn [map concat app]. rewrite Hr, <- !app_assoc, IH.
  unfold reg_name at 2. rewrite Hr. cbn [join_with].
  destruct (map (reg_name type_name regs) (l ++ [d])) eqn:E; [|by rewrite <- ?app_assoc].
  by destruct l.
Qed.

Lemma gray_reports_cycle st t d :
  dfs_inv st -> last (snd st) = Some t -> edge regs t d -> fst st !! d = Some Gray ->
  reports_cycle type_name regs (cycle_error type_name regs (snd st) d).
Proof.
  intros I Hlast He Hd. apply (inv_gray _ I) in Hd.
  destruct (path_from_split d (snd st) Hd) as (pre & suf & E & Ef).
  exists d, suf. split.
  - pose proof (inv_linked _ I) as Hl. rewrite E in Hl. apply linked_app_r in Hl.
    rewrite E, last_app_cons in Hlast.
    destruct (exists_last (l := d :: suf) ltac:(done)) as (u & z & Ez).
    rewrite Ez in *. rewrite last_snoc in Hlast. injection Hlast as ->.
    change (d :: suf ++ [d]) with ((d :: suf) ++ [d]). rewrite Ez, <- app_assoc.
    by apply linked_snoc.
  - unfold cycle_error, cycle_path. rewrite Ef. do 2 f_equal.
    change (d :: suf ++ [d]) with ((d :: suf) ++ [d]). apply names_joined.
    apply Forall_forall. intros x Hx. apply I.
    rewrite (proj2 (inv_gray _ I x)); [eauto|]. rewrite E. set_solver.
Qed.

Lemma dfs_deps_post visit deps st path t :
  dfs_inv st -> snd st = path ++ [t] ->
  (forall d, d ∈ deps -> is_Some (regs !! d) -> edge regs t d) ->
  (forall d st, dfs_inv st -> snd st = path ++ [t] -> edge regs t d -> fst st !! d = Some White ->
     dfs_post (eq d) st (visit d st)) ->
  dfs_post (fun d => d ∈ deps) st (dfs_deps type_name regs visit deps st).
Proof.
  intros I Hlast Hedge Hvisit. revert st I Hlast.
  induction deps as [|d deps IH]; intros st I Hlast; cbn.
  - split_and!; [done..|]. by intros ? ?%elem_of_nil.
  - specialize (IH ltac:(intros; apply Hedge; [by right|done])).
    destruct (fst st !! d) as [[]|] eqn:Ed.
    + assert (is_Some (regs !! d)) as Hd by (apply I; eauto).
      apply (dfs_post_weaken (fun x => d = x \/ x ∈ deps)).
      * apply (dfs_post_then (eq d) (fun x => x ∈ deps)).
        -- apply Hvisit; [done..|by apply Hedge; [left|]|done].
        -- intros st' I' Hp. apply IH; [done|congruence].
      * intros x [->|Hx]%elem_of_cons _; auto.
    + apply gray_reports_cycle with t; [done|by rewrite Hlast, last_snoc| |done].
      apply Hedge; [left|apply I; eauto].
    + eapply dfs_post_weaken; [by apply IH|]. intros x [->|Hx]%elem_of_cons _; auto.
    + eapply dfs_post_weaken; [by apply IH|]. intros x [->|Hx]%elem_of_cons Hr; [|auto].
      apply (inv_dom _ I) in Hr as [? Hr]. congruence.
Qed.

(** Entering a white type and leaving it. *)
Lemma enter_dfs_inv st t :
  dfs_inv st -> fst st !! t = Some White ->
  (snd st = [] \/ exists u, last (snd st) = Some u /\ edge regs u t) ->
  dfs_inv (<[t := Gray]> (fst st), snd st ++ [t]).
Proof.
  intros I Hw Hprev. destruct I as [D G N L [fin [Fo Fb]]]. cbn in *. split; cbn.
  - intros x. destruct (decide (x = t)) as [->|]; simplify_map_eq; [|apply D].
    rewrite <- D, Hw. split; eauto.
  - intros x. rewrite elem_of_app, list_elem_of_singleton.
    destruct (decide (x = t)) as [->|]; simplify_map_eq; [tauto|]. rewrite G. tauto.
  - apply NoDup_app. split_and!; [done| |apply NoDup_singleton].
    intros x Hx ->%list_elem_of_singleton. apply G in Hx. congruence.
  - destruct Hprev as [->|(u & Hu & He)]; [done|].
    apply last_Some in Hu as [l E]. rewrite E in *. rewrite <- app_assoc. by apply linked_snoc.
  - exists fin. split; [done|]. intros x. rewrite <- Fb.
    destruct (decide (x = t)) as [->|]; simplify_map_eq; [|done].
    split; congruence.
Qed.

Lemma leave_dfs_inv st t path :
  dfs_inv st -> snd st = path ++ [t] ->
  (forall d, edge regs t d -> fst st !! d = Some Black) ->
  dfs_inv (<[t := Black]> (fst st), path).
Proof.
  intros [D G N L [fin [Fo Fb]]] E Hd. cbn in *. rewrite E in *.
  assert (fst st !! t = Some Gray) as Ht by (apply G; set_solver).
  apply NoDup_app in N as (N1 & N2 & _). split; cbn.
  - intros x. destruct (decide (x = t)) as [->|]; simplify_map_eq; [|apply D].
    rewrite <- D, Ht. split; eauto.
  - intros x. destruct (decide (x = t)) as [->|]; simplify_map_eq.
    + split; [done|]. intros Hx. by apply N2 in Hx as []; left.
    + rewrite G. set_solver.
  - done.
  - by eapply linked_app_l.
  - exists (t :: fin). split.
    + constructor; [|by intros; apply Fb; auto|done]. intros Hf%Fb. congruence.
    + intros x. rewrite elem_of_cons.
      destruct (decide (x = t)) as [->|]; simplify_map_eq; [tauto|]. rewrite Fb. tauto.
Qed.

Lemma dfs_post_spec fuel t st :
  dfs_inv st -> fst st !! t = Some White ->
  (snd st = [] \/ exists u, last (snd st) = Some u /\ edge regs u t) ->
  (size regs < fuel + length (snd st))%nat ->
  dfs_post (eq t) st (dfs type_name fuel regs t st).
Proof.
  revert t st. induction fuel as [|fuel IH]; intros t st I Hw Hprev Hfuel.
  { pose proof (path_length _ I). lia. }
  pose proof (enter_dfs_inv st t I Hw Hprev) as I1.
  assert (is_Some (regs !! t)) as [r Hr] by (apply I; eauto).
  cbn [dfs]. rewrite Hr.
  assert (dfs_post (fun d => d ∈ dep_type_ids r) (<[t:=Gray]> (fst st), snd st ++ [t])
            (dfs_deps type_name regs (dfs type_name fuel regs) (dep_type_ids r)
               (<[t:=Gray]> (fst st), snd st ++ [t]))) as Hdeps.
  { apply dfs_deps_post with (snd st) t; [done..|by intros d Hd ?; exists r|].
    intros d st' I' Hp He Hd. apply IH; [done..| |].
    - right. exists t. by rewrite Hp, last_snoc.
    - rewrite Hp, length_app. cbn. lia. }
  destruct (dfs_deps _ _ _ _ _) as [[e|]|st2]; [done|done|].
  destruct Hdeps as (I2 & Hp & Hb & Hdone). cbn [fst snd] in *. cbn [dfs_post fst snd].
  rewrite Hp, removelast_last. split_and!; [|done| |].
  - apply leave_dfs_inv; [done..|]. intros d (r' & Hr' & Hd & Hreg). simplify_eq. auto.
  - intros x Hx. destruct (decide (x = t)) as [->|Hne]; [by rewrite lookup_insert_eq|].
    rewrite lookup_insert_ne by done. apply Hb. by rewrite lookup_insert_ne.
  - intros x <- _. by rewrite lookup_insert_eq.
Qed.

Lemma dfs_all_post fuel l st :
  dfs_inv st -> snd st = [] -> (size regs < fuel)%nat ->
  dfs_post (fun t => t ∈ l) st (dfs_all type_name fuel regs l st).
Proof.
  intros I Hp Hf. revert st I Hp. induction l as [|t l IH]; intros st I Hp; cbn.
  { split_and!; [done..|]. by intros ? ?%elem_of_nil. }
  destruct (fst st !! t) as [[]|] eqn:Et.
  - apply (dfs_post_weaken (fun x => t = x \/ x ∈ l)).
    + apply (dfs_post_then (eq t) (fun x => x ∈ l)).
      * apply dfs_post_spec; [done|done|by left|lia].
      * intros st' I' Hp'. apply IH; [done|congruence].
    + intros x [->|Hx]%elem_of_cons _; auto.
  - apply (inv_gray _ I) in Et. rewrite Hp in Et. by apply elem_of_nil in Et.
  - eapply dfs_post_weaken; [by apply IH|]. intros x [->|Hx]%elem_of_cons _; auto.
  - eapply dfs_post_weaken; [by apply IH|]. intros x [->|Hx]%elem_of_cons Hr; [|auto].
    apply (inv_dom _ I) in Hr as [? Hr]. congruence.
Qed.

Lemma dfs_init_inv : dfs_inv ((fun _ => White) <$> regs, []).
Proof.
  split; cbn.
  - intros t. rewrite lookup_fmap. apply fmap_is_Some.
  - intros t. rewrite lookup_fmap, elem_of_nil. destruct (regs !! t); cbn; split; congruence || done.
  - constructor.
  - done.
  - exists []. split; [constructor|]. intros t. rewrite lookup_fmap, elem_of_nil.
    destruct (regs !! t); cbn; split; congruence || done.
Qed.

End Search.

Section Graph.
Variable type_name : tid -> bytes.
Variable umap_order : bool -> list tid -> list tid.
Hypothesis umap_order_perm : forall b l, umap_order b l ≡ₚ l.

Lemma keys_spec {A} (m : gmap tid A) t : t ∈ keys m <-> is_Some (m !! t).
Proof.
  unfold keys. rewrite list_elem_of_fmap. split.
  - intros ([k v] & -> & H%elem_of_map_to_list). eauto.
  - intros [v Hv]. exists (t, v). split; [done|]. by apply elem_of_map_to_list.
Qed.

Lemma keys_nodup {A} (m : gmap tid A) : NoDup (keys m).
Proof. apply NoDup_fst_map_to_list. Qed.

Lemma keys_length {A} (m : gmap tid A) : length (keys m) = size m.
Proof. unfold keys. by rewrite length_fmap, length_map_to_list. Qed.

Lemma order_spec {A} b (m : gmap tid A) t : t ∈ umap_order b (keys m) <-> is_Some (m !! t).
Proof. by rewrite umap_order_perm, keys_spec. Qed.

Lemma detect_cycles_post regs :
  match detect_cycles type_name umap_order regs with
  | inl (Some e) => reports_cycle type_name regs e
  | inl None => False
  | inr _ => exists fin, ordered regs fin /\ forall t, is_Some (regs !! t) -> t ∈ fin
  end.
Proof.
  unfold detect_cycles.
  pose proof (dfs_all_post type_name regs (S (size regs)) (umap_order false (keys regs)) _
                (dfs_init_inv regs) eq_refl ltac:(lia)) as H.
  destruct (dfs_all _ _ _ _ _) as [[e|]|st]; [done..|].
  destruct H as (I & _ & _ & Hd). destruct (inv_black _ _ I) as [fin [Fo Fb]].
  exists fin. split; [done|]. intros t Ht. apply Fb, Hd; [|done]. by apply order_spec.
Qed.

(** The search accepts exactly the acyclic graphs, and what it throws spells out
    a cycle of the graph. *)
Lemma detect_cycles_correct regs :
  (acyclic regs -> detect_cycles type_name umap_order regs = inr tt) /\
  (~ acyclic regs -> exists e, detect_cycles type_name umap_order regs = inl (Some e)
                               /\ reports_cycle type_name regs e).
Proof.
  pose proof (detect_cycles_post regs) as H.
  destruct (detect_cycles type_name umap_order regs) as [[e|]|[]]; [| done |].
  - split; [|by eauto]. intros Ha. by apply reports_cycle_cyclic in H.
  - split; [done|]. intros Hn. destruct Hn.
    destruct H as (fin & Ho & Hall). by apply ordered_all_acyclic with fin.
Qed.

(** ** Kahn's algorithm *)

(** How often [x] occurs. *)
Definition cnt (x : tid) (l : list tid) : Z := len (filter (eq x) l).

Lemma cnt_nonneg x l : 0 <= cnt x l.
Proof. apply len_nonneg. Qed.

Lemma cnt_cons x y l : cnt x (y :: l) = (if decide (x = y) then 1 else 0) + cnt x l.
Proof. unfold cnt. rewrite filter_cons. destruct (decide (x = y)); len_lia. Qed.

Lemma cnt_app x l k : cnt x (l ++ k) = cnt x l + cnt x k.
Proof. unfold cnt. rewrite filter_app. apply len_app. Qed.

Lemma cnt_pos x l : x ∈ l <-> 0 < cnt x l.
Proof.
  induction l as [|y l IH].
  - rewrite elem_of_nil. split; [done|]. unfold cnt, len. cbn. lia.
  - rewrite elem_of_cons, cnt_cons, IH. pose proof (cnt_nonneg x l).
    destruct (decide (x = y)) as [e|n]; (split; [intros [?|?]; [done || lia|lia]|intros ?]); [by left|right; lia].
Qed.

Lemma release_fold ds in_degree queue :
  (forall u, u ∈ ds -> exists d, in_degree !! u = Some d /\ cnt u ds <= d < 2 ^ 64) ->
  exists in_degree' q, foldl release (in_degree, queue) ds = (in_degree', queue ++ q) /\ NoDup q /\
    (forall u, in_degree' !! u = (fun d => d - cnt u ds) <$> in_degree !! u) /\
    (forall u, u ∈ q <-> u ∈ ds /\ in_degree !! u = Some (cnt u ds)).
Proof.
  revert in_degree queue. induction ds as [|x ds IH]; intros D queue HD.
  { exists D, []. rewrite app_nil_r. split_and!; [done|constructor| |].
    - intros u. destruct (D !! u); cbn; [|done]. f_equal. unfold cnt, len. cbn. lia.
    - intros u. rewrite !elem_of_nil. tauto. }
  destruct (HD x ltac:(left)) as (d & Hd & Hcnt). rewrite cnt_cons, decide_True in Hcnt by done.
  pose proof (cnt_nonneg x ds) as Hnn. cbn [foldl]. unfold release at 2. cbn [fst snd].
  rewrite Hd. cbn [from_option id]. rewrite wrap64_small by (unfold in_u64; lia).
  edestruct (IH (<[x := d - 1]> D)) as (D' & q & E & Nq & HD' & Hq).
  { intros u Hu. destruct (decide (u = x)) as [->|Hne].
    - rewrite lookup_insert_eq. exists (d - 1). split; [done|lia].
    - rewrite lookup_insert_ne by done. destruct (HD u ltac:(by right)) as (e & He & Hc).
      rewrite cnt_cons, decide_False in Hc by done. exists e. split; [done|lia]. }
  exists D', ((if d - 1 =? 0 then [x] else []) ++ q). split_and!.
  - rewrite E. f_equal. destruct (d - 1 =? 0); [by rewrite <- app_assoc|done].
  - destruct (Z.eqb_spec (d - 1) 0) as [E0|]; [|done]. cbn. constructor; [|done].
    intros [Hx _]%Hq. apply cnt_pos in Hx. lia.
  - intros u. rewrite HD', cnt_cons. destruct (decide (u = x)) as [->|Hne].
    + rewrite lookup_insert_eq, Hd. cbn. f_equal. lia.
    + rewrite lookup_insert_ne by done. destruct (D !! u); cbn; [f_equal; lia|done].
  - intros u. rewrite elem_of_app, elem_of_cons, Hq, cnt_cons.
    destruct (decide (u = x)) as [->|Hne].
    + rewrite lookup_insert_eq, Hd. destruct (Z.eqb_spec (d - 1) 0) as [E0|E0].
      * rewrite list_elem_of_singleton. split; [|by left]. intros _. split; [by left|]. f_equal. lia.
      * rewrite elem_of_nil. split.
        -- intros [?|[Hx [= Hc]]]; [done|]. split; [by left|f_equal; lia].
        -- intros [_ [= Hc]]. right. split; [|f_equal; lia]. apply cnt_pos. lia.
    + rewrite lookup_insert_ne by done.
      replace (0 + cnt u ds) with (cnt u ds) by lia.
      destruct (d - 1 =? 0); rewrite ?list_elem_of_singleton, ?elem_of_nil; tauto.
Qed.

Section Kahn.
Variable regs : gmap tid BeanRegistration.
(** [std::size_t] counts the dependencies of a bean. *)
Hypothesis few_deps : forall t r, regs !! t = Some r -> len (dep_type_ids r) < 2 ^ 64.

(** The registered dependencies of a bean. *)
Definition rdeps (t : tid) : list tid :=
  filter (fun d => is_Some (regs !! d)) (default [] (dep_type_ids <$> regs !! t)).

Lemma edge_rdeps a b : edge regs a b <-> b ∈ rdeps a.
Proof.
  unfold edge, rdeps. rewrite list_elem_of_filter. split.
  - intros (r & -> & Hb & Hr). done.
  - intros [Hr Hb]. destruct (regs !! a) as [r|]; [|by apply elem_of_nil in Hb]. by exists r.
Qed.

Lemma rdeps_bound t : len (rdeps t) < 2 ^ 64.
Proof.
  unfold rdeps. destruct (regs !! t) as [r|] eqn:E; cbn; [|done].
  apply few_deps in E. unfold len in *.
  pose proof (length_filter (fun d => is_Some (regs !! d)) (dep_type_ids r)). lia.
Qed.

(** What [kahn_init] has counted after the types of [l]. *)
Definition counted (l : list tid) (m : gmap tid Z * gmap tid (list tid)) : Prop :=
  (forall t, fst m !! t = if decide (t ∈ l) then Some (len (rdeps t)) else None) /\
  (forall d x, cnt x (default [] (snd m !! d)) = if decide (x ∈ l) then cnt d (rdeps x) else 0).

Lemma count_dep_fold t deps n m :
  fst m !! t = Some n -> 0 <= n ->
  n + len (filter (fun d => is_Some (regs !! d)) deps) < 2 ^ 64 ->
  let m' := foldl (count_dep regs t) m deps in
  fst m' = <[t := n + len (filter (fun d => is_Some (regs !! d)) deps)]> (fst m) /\
  forall d x, cnt x (default [] (snd m' !! d)) =
    cnt x (default [] (snd m !! d)) +
    (if decide (x = t) then cnt d (filter (fun d => is_Some (regs !! d)) deps) else 0).
Proof.
  revert n m. induction deps as [|d deps IH]; intros n m Hn Hpos Hb; cbn zeta; cbn [foldl].
  { split.
    - rewrite insert_id; [done|]. rewrite Hn. f_equal. unfold len. cbn. lia.
    - intros d x. unfold cnt at 3, len. cbn. destruct (decide (x = t)); lia. }
  rewrite filter_cons in Hb. unfold count_dep at 2 4.
  rewrite !filter_cons. case_bool_decide as Hd; destruct (decide (is_Some (regs !! d))); [|done..|].
  - rewrite Hn. cbn [from_option id]. pose proof (len_nonneg (filter (fun d => is_Some (regs !! d)) deps)).
    rewrite len_cons in *.
    edestruct (IH (n + 1)) as [E1 E2].
    4: { rewrite E1. split.
      - cbn [fst]. rewrite insert_insert_eq. f_equal. lia.
      - intros d' x. rewrite E2. cbn [snd]. rewrite cnt_cons.
        destruct (decide (d' = d)) as [->|Hne].
        + rewrite lookup_insert_eq. cbn [from_option id]. rewrite cnt_app, cnt_cons.
          destruct (decide (x = t)); unfold cnt at 2, len; cbn; lia.
        + rewrite lookup_insert_ne by done. destruct (decide (x = t)); lia. }
    + cbn [fst]. rewrite lookup_insert_eq, wrap64_small by (unfold in_u64; lia). done.
    + lia.
    + lia.
  - by apply IH.
Qed.

Lemma count_deps_counted l m t :
  counted l m -> t ∉ l -> counted (l ++ [t]) (count_deps regs m t).
Proof.
  intros [HD HP] Ht. unfold count_deps.
  rewrite bool_decide_eq_false_2 by (rewrite HD, decide_False by done; by intros []).
  edestruct (count_dep_fold t (default [] (dep_type_ids <$> regs !! t)) 0 (<[t:=0]> (fst m), snd m))
    as [E1 E2]; [apply lookup_insert_eq|lia|rewrite Z.add_0_l; apply rdeps_bound|].
  fold (rdeps t) in E1, E2. split.
  - intros x. rewrite E1. cbn [fst]. rewrite insert_insert_eq. destruct (decide (x = t)) as [->|Hne].
    + rewrite lookup_insert_eq, decide_True by set_solver. done.
    + rewrite lookup_insert_ne, HD by done. apply decide_ext. set_solver.
  - intros d x. rewrite E2. cbn [snd]. rewrite HP. destruct (decide (x = t)) as [->|Hne].
    + rewrite decide_False, decide_True by set_solver. lia.
    + rewrite Z.add_0_r. apply decide_ext. set_solver.
Qed.

Lemma kahn_init_counted : counted (umap_order false (keys regs)) (kahn_init umap_order regs).
Proof.
  unfold kahn_init. set (l := umap_order false (keys regs)).
  assert (NoDup l) as N by (unfold l; rewrite umap_order_perm; apply keys_nodup).
  clearbody l. induction l as [|t l IH] using rev_ind.
  - split; intros; cbn; rewrite decide_False by (by intros ?%elem_of_nil); done.
  - apply NoDup_app in N as (N1 & N2 & _). rewrite foldl_app. cbn.
    apply count_deps_counted; [auto|]. intros Hx. apply (N2 t Hx). by left.
Qed.

Definition pending (topo : list tid) (t : tid) : Z := len (filter (fun d => d ∉ topo) (rdeps t)).

Lemma pending_snoc topo t u : t ∉ topo -> pending topo u = pending (topo ++ [t]) u + cnt t (rdeps u).
Proof.
  intros Ht. unfold pending. induction (rdeps u) as [|d l IH]; [by unfold cnt, len|].
  rewrite !filter_cons, cnt_cons.
  destruct (decide (t = d)) as [->|Hne].
  - rewrite decide_True, decide_False by set_solver. len_lia.
  - destruct (decide (d ∉ topo)).
    + rewrite decide_True by set_solver. len_lia.
    + rewrite decide_False by set_solver. len_lia.
Qed.

Lemma pending_zero topo t d : pending topo t = 0 -> edge regs t d -> d ∈ topo.
Proof.
  intros H He%edge_rdeps. destruct (decide (d ∈ topo)) as [|Hn]; [done|].
  assert (d ∈ filter (fun d => d ∉ topo) (rdeps t)) as Hd by by apply list_elem_of_filter.
  unfold pending in H. destruct (filter _ _); [by apply elem_of_nil in Hd|]. len_lia.
Qed.

Record kahn_inv (topo queue : list tid) (in_degree : gmap tid Z) : Prop := {
  kahn_nodup : NoDup (topo ++ queue);
  kahn_degree : forall t, in_degree !! t = if decide (is_Some (regs !! t)) then Some (pending topo t) else None;
  kahn_ready : forall t, t ∈ topo ++ queue <-> in_degree !! t = Some 0;
  kahn_ordered : ordered regs (rev topo)
}.

Lemma kahn_members topo queue D t : kahn_inv topo queue D -> t ∈ topo ++ queue -> is_Some (regs !! t).
Proof.
  intros I Ht%(kahn_ready _ _ _ I). rewrite (kahn_degree _ _ _ I) in Ht. by case_decide.
Qed.

Lemma kahn_queue_length topo queue D :
  kahn_inv topo queue D -> (length (topo ++ queue) <= size regs)%nat.
Proof.
  intros I. rewrite <- size_dom, <- (size_list_to_set (C := gset nat)) by apply I.
  apply subseteq_size. intros t Ht%elem_of_list_to_set.
  apply elem_of_dom. by apply (kahn_members _ _ _ _ I).
Qed.

(** Each turn keeps the invariant. *)
Lemma kahn_step topo t queue D m :
  counted (umap_order false (keys regs)) m ->
  kahn_inv topo (t :: queue) D ->
  exists D' q, foldl release (D, queue) (default [] (snd m !! t)) = (D', queue ++ q) /\
    kahn_inv (topo ++ [t]) (queue ++ q) D'.
Proof.
  intros [_ HP] I. destruct I as [N HD HR HO] eqn:EI. clear EI.
  assert (t ∉ topo) as Ht.
  { apply NoDup_app in N as (_ & N & _). intros Hx. by apply (N t Hx); left. }
  assert (forall u, u ∈ default [] (snd m !! t) ->
            is_Some (regs !! u) /\ cnt u (default [] (snd m !! t)) = cnt t (rdeps u)) as Hcnt.
  { intros u Hu%cnt_pos. rewrite HP in *. case_decide as Hk; [|lia]. by rewrite order_spec in Hk. }
  assert (forall u, cnt t (rdeps u) <= pending topo u) as Hle.
  { intros u. rewrite (pending_snoc topo t u Ht). pose proof (len_nonneg (filter (fun d => d ∉ topo ++ [t]) (rdeps u))).
    unfold pending. lia. }
  destruct (release_fold (default [] (snd m !! t)) D queue) as (D' & q & E & Nq & HD' & Hq).
  { intros u Hu. destruct (Hcnt u Hu) as [Hr Hc]. exists (pending topo u).
    rewrite HD, decide_True, Hc by done. split; [done|]. split; [apply Hle|].
    eapply Z.le_lt_trans; [|apply (rdeps_bound u)]. unfold pending, len.
    pose proof (length_filter (fun d => d ∉ topo) (rdeps u)). lia. }
  exists D', q. split; [done|]. 
  assert (forall u, is_Some (regs !! u) -> cnt u (default [] (snd m !! t)) = cnt t (rdeps u)) as Hcnt'.
  { intros u Hu. rewrite HP. by rewrite decide_True by by apply order_spec. }
  assert (forall u, D' !! u = if decide (is_Some (regs !! u)) then Some (pending (topo ++ [t]) u) else None) as HD1.
  { intros u. rewrite HD', HD. case_decide as Hr; [|done]. cbn. f_equal.
    rewrite (pending_snoc topo t u Ht), Hcnt' by done. lia. }
  assert (topo ++ t :: queue = (topo ++ [t]) ++ queue) as Eapp by by rewrite <- app_assoc.
  split; [| done | |].
  - rewrite app_assoc, <- Eapp. apply NoDup_app. split_and!; [done| |done].
    intros u Hu%HR [Hd Hu']%Hq. rewrite Hu in Hu'. injection Hu' as Hu'. apply cnt_pos in Hd. lia.
  - intros u. rewrite app_assoc, <- Eapp, elem_of_app, HR, Hq, HD1, HD.
    case_decide as Hr; [|split; [by intros [|[]]|done]].
    rewrite (Hcnt' u Hr), cnt_pos, (Hcnt' u Hr). pose proof (Hle u).
    pose proof (cnt_nonneg t (rdeps u)). pose proof (pending_snoc topo t u Ht).
    assert (0 <= pending (topo ++ [t]) u) by apply len_nonneg.
    split.
    + intros [[= Hz]|[_ [= Hz]]]; f_equal; lia.
    + intros [= Hz]. destruct (decide (cnt t (rdeps u) = 0)); [left; f_equal; lia|right; split; [lia|f_equal; lia]].
  - rewrite rev_unit. constructor; [by rewrite elem_of_rev| |done].
    intros d He. rewrite elem_of_rev.
    apply pending_zero with t; [|done].
    assert (D !! t = Some 0) as Hz by (apply HR; set_solver).
    rewrite HD in Hz. case_decide; congruence.
Qed.

Lemma kahn_loop_spec m fuel topo queue D :
  counted (umap_order false (keys regs)) m ->
  kahn_inv topo queue D -> (size regs < fuel + length topo)%nat ->
  exists topo' D', kahn_loop fuel (snd m) D queue topo = Some topo' /\ kahn_inv topo' [] D'.
Proof.
  intros Hm. revert topo queue D. induction fuel as [|fuel IH]; intros topo queue D I Hf.
  { pose proof (kahn_queue_length _ _ _ I) as Hl. rewrite length_app in Hl. lia. }
  cbn [kahn_loop]. destruct queue as [|t queue]; [by exists topo, D|].
  destruct (kahn_step topo t queue D m Hm I) as (D' & q & -> & I').
  apply IH; [done|]. rewrite length_app. cbn. lia.
Qed.

Lemma kahn_start D m :
  counted (umap_order false (keys regs)) (D, m) ->
  kahn_inv [] (filter (fun t => D !! t = Some 0) (umap_order true (keys D))) D.
Proof.
  intros [HD _]. cbn in HD. split.
  - cbn. apply NoDup_filter. rewrite umap_order_perm. apply keys_nodup.
  - intros t. rewrite HD. unfold pending.
    rewrite (decide_ext (t ∈ umap_order false (keys regs)) (is_Some (regs !! t))) by apply order_spec.
    case_decide; [|done]. do 2 f_equal. symmetry. induction (rdeps t) as [|d l IH]; [done|].
    rewrite filter_cons, decide_True by (by intros ?%elem_of_nil). by rewrite IH.
  - intros t. cbn. rewrite list_elem_of_filter, order_spec. split; [by intros []|].
    intros H. rewrite H. eauto.
  - constructor.
Qed.

(** Once the graph has an order, no type is left out. *)
Lemma kahn_complete topo D fin t :
  kahn_inv topo [] D -> ordered regs fin -> t ∈ fin -> is_Some (regs !! t) -> t ∈ topo.
Proof.
  intros I Ho. revert t. induction Ho as [|x l Hx Hd Ho IH]; [by intros ? ?%elem_of_nil|].
  intros t [->|Ht]%elem_of_cons Hr; [|by apply IH].
  rewrite <- (app_nil_r topo). apply (kahn_ready _ _ _ I).
  rewrite (kahn_degree _ _ _ I), decide_True by done. f_equal. unfold pending.
  destruct (filter (fun d => d ∉ topo) (rdeps x)) as [|d u] eqn:E; [done|].
  assert (d ∈ filter (fun d => d ∉ topo) (rdeps x)) as Hf by (rewrite E; left).
  apply list_elem_of_filter in Hf as [Hn He%edge_rdeps]. destruct Hn.
  apply IH; [by apply Hd|]. by apply edge_registered in He as [_ ?].
Qed.

End Kahn.

(** Of an acyclic graph [build_topo_order] computes an order of all the beans in
    which every dependency comes before the bean that declares it. *)
Lemma build_topo_order_correct regs :
  (forall t r, regs !! t = Some r -> len (dep_type_ids r) < 2 ^ 64) ->
  acyclic regs ->
  exists topo, build_topo_order umap_order regs = Some topo /\
    topo ≡ₚ keys regs /\ ordered regs (rev topo).
Proof.
  intros Hfew Ha.
  pose proof (detect_cycles_post regs) as Hc.
  rewrite (proj1 (detect_cycles_correct regs) Ha) in Hc. destruct Hc as (fin & Ho & Hall).
  pose proof (kahn_init_counted regs Hfew) as Hm. unfold build_topo_order.
  destruct (kahn_init umap_order regs) as [D P] eqn:E.
  destruct (kahn_loop_spec regs Hfew (D, P) (S (size regs)) [] _ D Hm (kahn_start regs D P Hm) ltac:(cbn; lia))
    as (topo & D' & El & I).
  cbn [snd] in El. rewrite El.
  assert (topo ≡ₚ keys regs) as Hp.
  { apply NoDup_Permutation; [|apply keys_nodup|].
    - pose proof (kahn_nodup _ _ _ _ I) as N. by rewrite app_nil_r in N.
    - intros t. rewrite keys_spec. split.
      + intros Ht. apply (kahn_members _ _ _ _ t I). by rewrite app_nil_r.
      + intros Hr. eapply kahn_complete; eauto. }
  assert (length topo = size regs) as Hlen by by rewrite Hp, keys_length.
  exists topo. rewrite Hlen, (proj2 (Nat.ltb_ge _ _)) by lia.
  split_and!; [done..|]. apply I.
Qed.

End Graph.
End DiGraph.
