(* ===== verification/DiSafety.v ===== *)
(** * The container keeps its objects alive

    The invariant [Inv] of the store of containers: what a container caches is
    alive and owned by it or by an ancestor, an object has one owner, and an object
    is owned after those it was built from.  Every operation keeps it and none is
    [Undefined]; nothing here depends on what the factories do, beyond that a bean
    the container deletes is a new object. *)

From S2P Require Import Prelude CxxString DiContainer DiGraphProps.

Module DiSafety.
Import Di DiGraph.

(** ** What an application must respect *)

(** The factory returns an object of [l], one that it created or, if not [fresh],
    one that it was given. *)
Fixpoint yields (fresh : bool) (l : list ptr) (f : Factory) : Prop :=
  match f with
  | FNew k => forall p, yields fresh (p :: l) (k p)
  | FReturn p => p ∈ l
  | FThrow _ => True
  | FResolve _ k | FResolveNamed _ _ k | FResolveNew _ k =>
      forall p, yields fresh (if fresh then l else p :: l) (k p)
  | FHas _ k => forall b, yields fresh l (k b)
  end.

(** A bean that the container deletes is a new object. *)
Definition wf_reg (r : BeanRegistration) : Prop :=
  (forall f, factory r = Some f -> yields (destructor_fn r) [] f) /\
  (forall f, async_factory r = Some f -> yields (destructor_fn r) [] f).

(** ** The invariant *)

Definition owned_ptrs (k : Container) : list ptr :=
  (filter (fun x => x.2 = true) (owned_instances_ k)).*1.

(** [p] is in a table of the container; [entries] says whether the hooks count. *)
Definition mentions (entries : bool) (k : Container) (p : ptr) : Prop :=
  (exists t, instances_ k !! t = Some p) \/ (exists q, qualified_instances_ k !! q = Some p) \/
  (entries = true /\ p ∈ map instance (lifecycle_ k)).

Definition owns (w : World) (c : cid) (p : ptr) : Prop :=
  exists k, containers w !! c = Some k /\ p ∈ owned_ptrs k.

Inductive anc (m : gmap cid Container) : cid -> cid -> Prop :=
| anc_refl c : anc m c c
| anc_step c k q c' : m !! c = Some k -> parent_ k = Some q -> anc m q c' -> anc m c c'.

(** [p] was handed to the factory of another object. *)
Definition exposed (w : World) (p : ptr) : Prop :=
  exists x args, Created x args ∈ trace w /\ p ∈ args.

(** The objects that were deleted, the latest first. *)
Definition destroyed (tr : list Event) : list ptr :=
  omap (fun e => match e with Destroyed p => Some p | _ => None end) tr.

Definition visible (w : World) (c : cid) (p : ptr) : Prop :=
  p ∈ alive w /\ forall c', owns w c' p -> anc (containers w) c c'.

Section Invariant.
(** Whether the root was shut down: the hooks of its dead beans are still there. *)
Variable down : bool.

Definition counts (c : cid) : bool := negb (down && (c =? root)%nat).

Definition mentioned (w : World) (p : ptr) : Prop :=
  exists c k, containers w !! c = Some k /\ mentions (counts c) k p.

Record Inv (w : World) : Prop := {
  I_mention : forall c k p, containers w !! c = Some k -> mentions (counts c) k p -> visible w c p;
  I_owned : forall c p, owns w c p -> p ∈ alive w;
  I_unique : forall c c' p, owns w c p -> owns w c' p -> c = c';
  I_nodup : forall c k, containers w !! c = Some k -> NoDup (owned_ptrs k);
  I_alive : forall p, p ∈ alive w -> (0 < p <= next_object w)%nat;
  I_parent : forall c k q, containers w !! c = Some k -> parent_ k = Some q -> is_Some (containers w !! q);
  I_wf : forall c k t r, containers w !! c = Some k -> registrations_ k !! t = Some r -> wf_reg r;
  I_order : forall c k l1 p l2 args q, containers w !! c = Some k -> owned_ptrs k = l1 ++ p :: l2 ->
      Created p args ∈ trace w -> q ∈ args -> q ∉ l2;
  I_created : forall p args, Created p args ∈ trace w ->
      (p <= next_object w)%nat /\ Forall (fun q => q <= next_object w)%nat args;
  I_args : forall c p args q, owns w c p -> Created p args ∈ trace w -> q ∈ args -> visible w c q;
  I_dead : forall p, p ∈ destroyed (trace w) -> p ∉ alive w /\ (p <= next_object w)%nat;
  I_once : NoDup (destroyed (trace w));
  I_buried : forall p args q d3 d2, Created p args ∈ trace w -> q ∈ args ->
      destroyed (trace w) = d3 ++ p :: d2 -> q ∉ d2;
  I_down : down = true -> forall k, containers w !! root = Some k -> built_ k = false
}.

Definition shape (k : Container) := (kind k, parent_ k, registrations_ k).

(** What an operation that creates beans may do to the world. *)
Record grow (w w' : World) : Prop := {
  g_next : (next_object w <= next_object w')%nat;
  g_alive : alive w ⊆ alive w';
  g_shape : forall c, shape <$> containers w !! c = shape <$> containers w' !! c;
  g_owns : forall c p, owns w' c p -> owns w c p \/ (next_object w < p)%nat;
  g_mention : forall p, mentioned w' p -> mentioned w p \/ (next_object w < p)%nat;
  g_created : forall p args, Created p args ∈ trace w' -> Created p args ∈ trace w \/ (next_object w < p)%nat;
  g_exposed : forall p, exposed w' p -> exposed w p \/ mentioned w p \/ (next_object w < p)%nat
}.

#[export] Instance grow_refl : Reflexive grow.
Proof. split; auto. Qed.

#[export] Instance grow_trans : Transitive grow.
Proof.
  intros a b c [N1 A1 S1 O1 M1 C1 E1] [N2 A2 S2 O2 M2 C2 E2]. split.
  - lia.
  - set_solver.
  - intros x. by rewrite S1.
  - intros x p [H|H]%O2; [|right; lia]. apply O1 in H as [H|H]; auto.
  - intros p [H|H]%M2; [|right; lia]. apply M1 in H as [H|H]; auto.
  - intros p args [H|H]%C2; [|right; lia]. apply C1 in H as [H|H]; auto.
  - intros p [H|[H|H]]%E2; [| |right; right; lia].
    + apply E1 in H as [H|[H|H]]; auto.
    + apply M1 in H as [H|H]; auto.
Qed.

Lemma anc_trans m a b c : anc m a b -> anc m b c -> anc m a c.
Proof. induction 1; [done|]. intros. econstructor; eauto. Qed.

Lemma anc_shape m m' c c' :
  (forall c, shape <$> m !! c = shape <$> m' !! c) -> anc m c c' -> anc m' c c'.
Proof.
  intros Hs. induction 1 as [|c k q c' Hc Hp _ IH]; [constructor|].
  specialize (Hs c). rewrite Hc in Hs. destruct (m' !! c) as [k'|] eqn:E; [|done].
  cbn in Hs. injection Hs as Hk Hpar. apply (anc_step _ c k' q); [done|congruence|done].
Qed.

Lemma grow_container w w' c k :
  grow w w' -> containers w !! c = Some k -> exists k', containers w' !! c = Some k' /\ shape k' = shape k.
Proof.
  intros G H. pose proof (g_shape _ _ G c) as Hs. rewrite H in Hs.
  destruct (containers w' !! c) as [k'|]; [|done]. exists k'. cbn in Hs. split; congruence.
Qed.

Lemma visible_grow w w' c p : Inv w -> grow w w' -> visible w c p -> visible w' c p.
Proof.
  intros I G [Ha Hv]. split; [by apply (g_alive _ _ G)|].
  intros c' [H|H]%(g_owns _ _ G).
  - apply (anc_shape (containers w)); [apply G|auto].
  - apply (I_alive _ I) in Ha. lia.
Qed.

(** Usable by the container [c] since [w0]: it was cached then, or is newer. *)
Definition usable (w0 w : World) (c : cid) (p : ptr) : Prop :=
  visible w c p /\ (mentioned w0 p \/ (next_object w0 < p)%nat).

(** A new object that only [c] can know. *)
Definition held (w0 w : World) (c : cid) (p : ptr) : Prop :=
  p ∈ alive w /\ (next_object w0 < p)%nat /\ (forall c', ~ owns w c' p) /\ ~ exposed w p /\
  (forall c' k', containers w !! c' = Some k' -> mentions (counts c') k' p -> c' = c) /\
  (forall args q, Created p args ∈ trace w -> q ∈ args -> visible w c q).

Definition good (fresh : bool) (w0 w : World) (c : cid) (p : ptr) : Prop :=
  if fresh then held w0 w c p else usable w0 w c p.

Lemma held_usable w0 w c p : held w0 w c p -> usable w0 w c p.
Proof.
  intros (Ha & Hn & Ho & _). split; [split; [done|]|auto]. intros c' H. by apply Ho in H.
Qed.

Lemma good_usable fresh w0 w c p : good fresh w0 w c p -> usable w0 w c p.
Proof. destruct fresh; [apply held_usable|done]. Qed.

Lemma usable_base w0 w1 w c p : grow w0 w1 -> usable w1 w c p -> usable w0 w c p.
Proof.
  intros G [Hv [H|H]]; (split; [done|]).
  - by apply (g_mention _ _ G) in H.
  - pose proof (g_next _ _ G). right. lia.
Qed.

(** ** Specifications *)

(** From [w] on, since [w0]: no undefined behaviour, and the invariant holds. *)
Definition safe {A} (w0 w : World) (m : M A) (Q : A -> World -> Prop) : Prop :=
  match m w with
  | (Val a, w') => Inv w' /\ grow w0 w' /\ Q a w'
  | (Undefined, _) => False
  | (_, w') => Inv w' /\ grow w0 w'
  end.

Lemma safe_bind {A B} w0 w (m : M A) (f : A -> M B) Q R :
  safe w0 w m Q ->
  (forall a w', Inv w' -> grow w0 w' -> Q a w' -> safe w0 w' (f a) R) ->
  safe w0 w (bind m f) R.
Proof.
  unfold safe, bind. destruct (m w) as [[] w']; try done.
  intros (I & G & HQ) Hf. by apply Hf.
Qed.

Lemma safe_ret {A} w0 w (a : A) (Q : A -> World -> Prop) :
  Inv w -> grow w0 w -> Q a w -> safe w0 w (ret a) Q.
Proof. done. Qed.

Lemma safe_throw {A} w0 w e (Q : A -> World -> Prop) : Inv w -> grow w0 w -> safe w0 w (throw e) Q.
Proof. done. Qed.

Lemma safe_weaken {A} w0 w (m : M A) (Q R : A -> World -> Prop) :
  safe w0 w m Q -> (forall a w', Inv w' -> grow w0 w' -> Q a w' -> R a w') -> safe w0 w m R.
Proof. unfold safe. destruct (m w) as [[] w']; try done. intros (I & G & HQ) H. auto. Qed.

(** A nested call starts afresh. *)
Lemma safe_nested {A} w0 w (m : M A) (Q R : A -> World -> Prop) :
  grow w0 w -> safe w w m Q ->
  (forall a w', Inv w' -> grow w w' -> Q a w' -> R a w') -> safe w0 w m R.
Proof.
  intros G. unfold safe. destruct (m w) as [[] w']; try done.
  - intros (I & G' & HQ) H. split_and!; [done|by etransitivity|auto].
  - intros [I G'] _. split; [done|by etransitivity].
  - intros [I G'] _. split; [done|by etransitivity].
  - intros [I G'] _. split; [done|by etransitivity].
Qed.

Lemma safe_get w0 w c (Q : Container -> World -> Prop) k :
  Inv w -> grow w0 w -> containers w !! c = Some k -> Q k w -> safe w0 w (get c) Q.
Proof. intros I G H HQ. unfold safe, get. by rewrite H. Qed.

Lemma safe_deref w0 w c p :
  Inv w -> grow w0 w -> usable w0 w c p -> safe w0 w (deref p) (fun p' w' => p' = p /\ w' = w).
Proof.
  intros I G [[Ha _] _]. unfold safe, deref. by rewrite decide_True.
Qed.

(** ** Steps that leave the containers and the objects alone *)

Definition quiet (w w' : World) : Prop :=
  containers w' = containers w /\ next_object w' = next_object w /\ alive w' = alive w /\
  (forall x args, Created x args ∈ trace w' <-> Created x args ∈ trace w) /\
  destroyed (trace w') = destroyed (trace w).

#[local] Instance quiet_refl : Reflexive quiet.
Proof. intros w. unfold quiet. by split_and!. Qed.

#[local] Instance quiet_trans : Transitive quiet.
Proof.
  intros a b c (C1 & N1 & A1 & T1 & D1) (C2 & N2 & A2 & T2 & D2). unfold quiet. split_and!; [congruence..| |congruence].
  intros. by rewrite T2.
Qed.

Lemma quiet_owns w w' c p : quiet w w' -> owns w' c p <-> owns w c p.
Proof. intros (C & _). unfold owns. by rewrite C. Qed.

Lemma quiet_exposed w w' p : quiet w w' -> exposed w' p <-> exposed w p.
Proof. intros (_ & _ & _ & T & _). unfold exposed. by setoid_rewrite T. Qed.

Lemma quiet_visible w w' c p : quiet w w' -> visible w' c p <-> visible w c p.
Proof.
  intros Hq. pose proof Hq as (C & _ & A & _). unfold visible. rewrite A, C.
  by setoid_rewrite (quiet_owns w w' _ _ Hq).
Qed.

Lemma quiet_Inv w w' : quiet w w' -> Inv w -> Inv w'.
Proof.
  intros Hq I. pose proof Hq as (C & N & A & T & D). split.
  - intros c k p. rewrite C, (quiet_visible w w' c p Hq). apply I.
  - intros c p. rewrite A, (quiet_owns w w' c p Hq). apply I.
  - intros c c' p. rewrite !(quiet_owns w w' _ p Hq). apply I.
  - intros c k. rewrite C. apply I.
  - intros p. rewrite A, N. apply I.
  - intros c k q. rewrite C. apply I.
  - intros c k t r. rewrite C. apply I.
  - intros c k l1 p l2 args q. rewrite C, T. apply I.
  - intros p args. rewrite T, N. apply I.
  - intros c p args q. rewrite T, (quiet_owns w w' c p Hq), (quiet_visible w w' c q Hq). apply I.
  - intros p. rewrite A, N, D. apply I.
  - rewrite D. apply I.
  - intros p args q d3 d2. rewrite T, D. apply I.
  - intros Hd k. rewrite C. by apply I.
Qed.

Lemma quiet_grow w w' : quiet w w' -> grow w w'.
Proof.
  intros Hq. pose proof Hq as (C & N & A & T & D). split.
  - lia.
  - by rewrite A.
  - by rewrite C.
  - intros c p. rewrite (quiet_owns w w' c p Hq). auto.
  - intros p. unfold mentioned. rewrite C. auto.
  - intros p args. rewrite T. auto.
  - intros p. rewrite (quiet_exposed w w' p Hq). auto.
Qed.

Lemma quiet_held w0 w w' c p : quiet w w' -> held w0 w c p -> held w0 w' c p.
Proof.
  intros Hq (Ha & Hn & Ho & He & Hm & Hv). pose proof Hq as (C & N & A & T & D).
  split_and!; [by rewrite A|done| |by rewrite (quiet_exposed w w' p Hq)|by rewrite C|].
  - intros c'. by rewrite (quiet_owns w w' c' p Hq).
  - intros args q. rewrite T, (quiet_visible w w' c q Hq). apply Hv.
Qed.

Lemma quiet_good fresh w0 w w' c p : quiet w w' -> good fresh w0 w c p -> good fresh w0 w' c p.
Proof.
  destruct fresh; [apply quiet_held|]. intros Hq [Hv Hm]. split; [by apply (quiet_visible w w')|done].
Qed.

Lemma safe_quiet {A} w0 w (m : M A) (Q : A -> World -> Prop) :
  Inv w -> grow w0 w -> fst (m w) <> Undefined -> quiet w (snd (m w)) ->
  (forall a w', m w = (Val a, w') -> Q a w') -> safe w0 w m Q.
Proof.
  intros I G Hu Hq HQ. unfold safe. destruct (m w) as [r w']. cbn in Hu, Hq.
  assert (Inv w') by by apply (quiet_Inv w). assert (grow w0 w') by by etransitivity; [|apply quiet_grow].
  destruct r; auto.
Qed.

(** The event of a hook. *)
Definition is_hook (e : Event) : Prop :=
  match e with
  | PostConstruct _ _ | PreDestroy _ _ => True
  | _ => False
  end.

Lemma log_quiet e w : is_hook e -> quiet w (log e w).
Proof.
  intros He. unfold quiet. split_and!; [done..| |by destruct e].
  intros x args. cbn. rewrite elem_of_cons. split; [|auto]. by intros [<-|].
Qed.

(** It returns or throws. *)
Definition ends {A} (r : Res A) : Prop :=
  match r with
  | Val _ | Thrown _ => True
  | _ => False
  end.

Section Hooks.
Variable hook_throws : list Event -> Event -> option Exn.

(** A hook on a living object is defined and changes no container. *)
Lemma call_hook_quiet mk fn p w :
  (forall a, is_hook (mk a p)) -> p ∈ alive w ->
  ends (fst (call_hook hook_throws mk fn p w)) /\ quiet w (snd (call_hook hook_throws mk fn p w)).
Proof.
  intros Hmk. revert w. induction fn as [|a fn IH]; intros w Ha; [by split|].
  cbn [call_hook]. unfold bind, fire. rewrite decide_True by done.
  assert (quiet w (log (mk a p) w)) as Hq by by apply log_quiet.
  destruct (hook_throws _ _); [by split|].
  destruct (IH (log (mk a p) w) Ha) as [Hu Hq']. split; [done|by etransitivity].
Qed.

Lemma call_opt_quiet mk fn p w :
  (forall a, is_hook (mk a p)) -> p ∈ alive w ->
  ends (fst (call_opt hook_throws mk fn p w)) /\ quiet w (snd (call_opt hook_throws mk fn p w)).
Proof. intros Hmk Ha. destruct fn; [by apply call_hook_quiet|by split]. Qed.

Lemma safe_call_opt w0 w mk fn p :
  (forall a, is_hook (mk a p)) -> p ∈ alive w -> Inv w -> grow w0 w ->
  safe w0 w (call_opt hook_throws mk fn p) (fun _ w' => quiet w w').
Proof.
  intros Hmk Ha I G. destruct (call_opt_quiet mk fn p w Hmk Ha) as [Hu Hq].
  apply safe_quiet; [done..|by intros E; rewrite E in Hu|done|]. intros a w' E. by rewrite E in Hq.
Qed.

Lemma post_construct_quiet es w :
  (forall e, e ∈ es -> instance e ∈ alive w) ->
  ends (fst (post_construct_entries hook_throws es w)) /\
  quiet w (snd (post_construct_entries hook_throws es w)).
Proof.
  revert w. induction es as [|e es IH]; intros w He; [by split|].
  cbn [post_construct_entries]. unfold bind.
  destruct (call_opt_quiet PostConstruct (on_post_construct e) (instance e) w
              ltac:(done) ltac:(apply He; left)) as [Hu Hq].
  destruct (call_opt _ _ _ _ w) as [[] w'] eqn:E; cbn in Hu, Hq; try (by split).
  destruct (IH w') as [Hu' Hq'].
  { intros e' He'. destruct Hq as (_ & _ & -> & _ & _). apply He. by right. }
  split; [done|by etransitivity].
Qed.

Lemma pre_destroy_quiet es w :
  (forall e, e ∈ es -> instance e ∈ alive w) ->
  exists w', pre_destroy_entries hook_throws es w = (Val tt, w') /\ quiet w w'.
Proof.
  revert w. induction es as [|e es IH]; intros w He; [by exists w|].
  cbn [pre_destroy_entries]. unfold bind, guarded.
  destruct (call_opt_quiet PreDestroy (on_pre_destroy e) (instance e) w
              ltac:(done) ltac:(apply He; left)) as [Hu Hq].
  destruct (call_opt _ _ _ _ w) as [r w'] eqn:E; cbn in Hu, Hq.
  destruct (IH w') as (w'' & E' & Hq').
  { intros e' He'. destruct Hq as (_ & _ & -> & _ & _). apply He. by right. }
  exists w''. split; [|by etransitivity]. destruct r as [[]| | | |]; done.
Qed.

End Hooks.

(** ** Updates of one container *)

Section Update.
Variables (w : World) (c : cid) (k : Container) (f : Container -> Container).
Hypothesis Hinv : Inv w.
Hypothesis Hk : containers w !! c = Some k.
Hypothesis Hshape : shape (f k) = shape k.

Definition updated : World := set_containers (<[c := f k]> (containers w)) w.

Lemma updated_lookup c' k' :
  containers updated !! c' = Some k' ->
  (c' = c /\ k' = f k) \/ (c' <> c /\ containers w !! c' = Some k').
Proof.
  cbn. destruct (decide (c' = c)) as [->|Hne].
  - rewrite lookup_insert_eq. intros [= <-]. auto.
  - rewrite lookup_insert_ne by done. auto.
Qed.

Lemma updated_shape c' : shape <$> containers w !! c' = shape <$> containers updated !! c'.
Proof.
  cbn. destruct (decide (c' = c)) as [->|Hne].
  - rewrite lookup_insert_eq, Hk. cbn. by rewrite Hshape.
  - by rewrite lookup_insert_ne.
Qed.

Lemma updated_owns c' p :
  owns updated c' p <-> if decide (c' = c) then p ∈ owned_ptrs (f k) else owns w c' p.
Proof.
  unfold owns. cbn. case_decide as E; [subst c'; rewrite lookup_insert_eq|by rewrite lookup_insert_ne].
  split; [by intros (? & [= <-] & ?)|eauto].
Qed.

Lemma shape_fields : kind (f k) = kind k /\ parent_ (f k) = parent_ k /\
  registrations_ (f k) = registrations_ k.
Proof. unfold shape in Hshape. by injection Hshape. Qed.

(** The tables may now also hold [p], and the container may own one more object,
    a new one. *)
Variables (p : ptr) (new : list ptr) (w0 : World).
Hypothesis Howned : owned_ptrs (f k) = owned_ptrs k ++ new.
Hypothesis Hnew : forall x, x ∈ new -> held w0 w c x.
Hypothesis Hone : new = [] \/ exists x, new = [x].
Hypothesis Hmentions : forall q, mentions (counts c) (f k) q -> mentions (counts c) k q \/ q = p.
Hypothesis Hp : mentions (counts c) (f k) p -> visible w c p.
Hypothesis Hbuilt : down = true -> built_ (f k) = built_ k.

Lemma updated_owns_new c' q : owns updated c' q <-> owns w c' q \/ c' = c /\ q ∈ new.
Proof.
  rewrite updated_owns. case_decide as E.
  - subst c'. rewrite Howned, elem_of_app. unfold owns.
    split; [intros [?|?]; eauto|]. intros [(k' & Hk' & ?)|[_ ?]]; [simplify_eq|]; auto.
  - split; [auto|]. intros [?|[? _]]; done.
Qed.

Lemma updated_visible c' k' q :
  containers w !! c' = Some k' -> mentions (counts c') k' q \/ (c' = c /\ visible w c q) ->
  visible updated c' q.
Proof.
  intros Hk' Hq.
  assert (visible w c' q) as [Ha Hv].
  { destruct Hq as [Hq|[-> Hq]]; [by eapply (I_mention _ Hinv)|done]. }
  split; [done|]. intros c'' [Ho|[-> Hn]]%updated_owns_new;
    (eapply anc_shape; [apply updated_shape|]); [auto|].
  destruct Hq as [Hq|[-> _]]; [|constructor].
  destruct (Hnew q Hn) as (_ & _ & _ & _ & Hm & _). rewrite (Hm c' k' Hk' Hq). constructor.
Qed.

Lemma updated_order c' k' l1 x l2 args q :
  containers updated !! c' = Some k' -> owned_ptrs k' = l1 ++ x :: l2 ->
  Created x args ∈ trace w -> q ∈ args -> q ∉ l2.
Proof.
  intros [[-> ->]|[Hne Hk']]%updated_lookup El Hcr Hq; [|by eapply (I_order _ Hinv)].
  rewrite Howned in El. destruct Hone as [E|[z E]]; rewrite E in El.
  { rewrite app_nil_r in El. by eapply (I_order _ Hinv c k). }
  destruct (decide (l2 = [])) as [->|Hl2]; [by intros ?%elem_of_nil|].
  destruct (exists_last Hl2) as (l3 & y & ->).
  rewrite app_comm_cons, app_assoc in El. apply app_inj_tail in El as [El <-].
  rewrite elem_of_app, list_elem_of_singleton. intros [Hq3| ->].
  - by eapply (I_order _ Hinv c k l1 x l3).
  - destruct (Hnew z) as (_ & _ & _ & He & _); [rewrite E; by left|].
    apply He. by exists x, args.
Qed.

Lemma updated_args c' x args q :
  owns updated c' x -> Created x args ∈ trace w -> q ∈ args -> visible updated c' q.
Proof.
  intros Ho Hc Hq. assert (visible w c' q) as [Ha Hv].
  { apply updated_owns_new in Ho as [Ho|[-> Hn]]; [by eapply (I_args _ Hinv)|].
    destruct (Hnew x Hn) as (_ & _ & _ & _ & _ & Hv). by eapply Hv. }
  split; [done|]. intros c'' [Ho'|[-> Hn]]%updated_owns_new.
  - eapply anc_shape; [apply updated_shape|auto].
  - destruct (Hnew q Hn) as (_ & _ & _ & He & _). destruct He. by exists x, args.
Qed.

Lemma updated_parent c' k' q :
  containers updated !! c' = Some k' -> parent_ k' = Some q -> is_Some (containers updated !! q).
Proof.
  intros Hk' Hpar. destruct shape_fields as (_ & Epar & _).
  assert (exists k0, containers w !! c' = Some k0 /\ parent_ k0 = Some q) as (k0 & H0 & Hq).
  { apply updated_lookup in Hk' as [[-> ->]|[Hne Hk']]; [|eauto]. exists k. split; congruence. }
  destruct (I_parent _ Hinv _ _ _ H0 Hq) as [k1 H1]. cbn.
  destruct (decide (q = c)) as [->|]; [rewrite lookup_insert_eq|rewrite lookup_insert_ne by done]; eauto.
Qed.

Lemma updated_Inv : Inv updated.
Proof.
  destruct shape_fields as (_ & _ & Ereg). split.
  - intros c' k' q [[-> ->]|[Hne Hk']]%updated_lookup Hm.
    + apply updated_visible with k; [done|]. destruct (Hmentions q Hm) as [?| ->]; auto.
    + apply updated_visible with k'; auto.
  - intros c' q [Ho|[-> Hn]]%updated_owns_new; [by apply (I_owned _ Hinv) in Ho|by apply Hnew].
  - intros c1 c2 q [H1|[-> H1]]%updated_owns_new [H2|[-> H2]]%updated_owns_new; [by eapply (I_unique _ Hinv)| | |done].
    + by apply Hnew in H2 as (_ & _ & Ho & _); apply Ho in H1.
    + by apply Hnew in H1 as (_ & _ & Ho & _); apply Ho in H2.
  - intros c' k' [[-> ->]|[Hne Hk']]%updated_lookup; [|by eapply (I_nodup _ Hinv)].
    rewrite Howned. apply NoDup_app. split_and!; [by eapply (I_nodup _ Hinv)| |].
    + intros q Hq Hn. apply Hnew in Hn as (_ & _ & Ho & _). apply (Ho c). by exists k.
    + destruct Hone as [->|[x ->]]; [constructor|apply NoDup_singleton].
  - apply (I_alive _ Hinv).
  - apply updated_parent.
  - intros c' k' t r [[-> ->]|[Hne Hk']]%updated_lookup Hr; [|by eapply (I_wf _ Hinv)].
    rewrite Ereg in Hr. by eapply (I_wf _ Hinv).
  - apply updated_order.
  - apply (I_created _ Hinv).
  - apply updated_args.
  - apply (I_dead _ Hinv).
  - apply (I_once _ Hinv).
  - apply (I_buried _ Hinv).
  - intros Hd k' [[E ->]|[Hne Hk']]%updated_lookup; [|by eapply (I_down _ Hinv)].
    rewrite Hbuilt by done. eapply (I_down _ Hinv); [done|]. by rewrite E.
Qed.

Lemma updated_grow :
  grow w0 w -> (mentions (counts c) (f k) p -> mentioned w0 p \/ (next_object w0 < p)%nat) -> grow w0 updated.
Proof.
  intros [N A Sh O Me Cr E] Hpn. split; [done|done| | | |done|done].
  - intros c'. by rewrite Sh, updated_shape.
  - intros c' q [Ho|[-> Hn]]%updated_owns_new; [auto|]. apply Hnew in Hn as (_ & ? & _). auto.
  - intros q (c' & k' & [[-> ->]|[Hne Hk']]%updated_lookup & Hm).
    + destruct (Hmentions q Hm) as [Hm'| ->]; [|auto]. apply Me. by exists c, k.
    + apply Me. by exists c', k'.
Qed.

End Update.

(** A table of [c] gets [p]. *)
Lemma table_safe w0 w c f k p fresh x :
  Inv w -> grow w0 w -> containers w !! c = Some k -> shape (f k) = shape k -> built_ (f k) = built_ k ->
  owned_instances_ (f k) = owned_instances_ k ->
  (forall q, mentions (counts c) (f k) q -> mentions (counts c) k q \/ q = p) ->
  usable w0 w c p -> good fresh w0 w c x ->
  safe w0 w (update c f) (fun _ w' => good fresh w0 w' c x /\ is_Some (containers w' !! c)).
Proof.
  intros I G Hk Hs Hb Ho Hm [Hv Hu] Hx. unfold safe, update. rewrite Hk. fold (updated w c k f).
  assert (owned_ptrs (f k) = owned_ptrs k ++ []) as Howned by (unfold owned_ptrs; by rewrite Ho, app_nil_r).
  assert (forall y : ptr, y ∈ @nil ptr -> held w0 w c y) as Hnil by by intros ? ?%elem_of_nil.
  assert (forall c' q, owns (updated w c k f) c' q <-> owns w c' q) as Howns.
  { intros c' q. rewrite (updated_owns_new w c k f Hk Hs [] Howned), elem_of_nil. tauto. }
  split_and!; [eapply updated_Inv; eauto|eapply updated_grow; eauto| |].
  - destruct fresh.
    + destruct Hx as (Ha & Hn & Hno & He & Hme & Hargs). split_and!; [done..| |done| |].
      * intros c'. rewrite Howns. apply Hno.
      * intros c' k' [[-> _]|[Hne Hk']]%updated_lookup Hq; [done|by eapply Hme].
      * intros args q Hc Hq. destruct (Hargs args q Hc Hq) as [Hqa Hqv]. split; [done|].
        intros c' Hc'%Howns. eapply anc_shape; [by apply updated_shape|auto].
    + destruct Hx as [[Ha Hx] Hx']. split; [split; [done|]|done]. intros c' Hc'%Howns.
      eapply anc_shape; [by apply updated_shape|auto].
  - cbn. rewrite lookup_insert_eq. eauto.
Qed.

(** No table gets more. *)
Lemma plain_safe w0 w c f k :
  Inv w -> grow w0 w -> containers w !! c = Some k -> shape (f k) = shape k ->
  (down = true -> built_ (f k) = built_ k) -> owned_instances_ (f k) = owned_instances_ k ->
  (forall q, mentions (counts c) (f k) q -> mentions (counts c) k q) ->
  safe w0 w (update c f) (fun _ w' => is_Some (containers w' !! c)).
Proof.
  intros I G Hk Hs Hb Ho Hm. unfold safe, update. rewrite Hk. fold (updated w c k f).
  assert (owned_ptrs (f k) = owned_ptrs k ++ []) as Howned by (unfold owned_ptrs; by rewrite Ho, app_nil_r).
  assert (forall y : ptr, y ∈ @nil ptr -> held w0 w c y) as Hnil by by intros ? ?%elem_of_nil.
  split_and!.
  - eapply updated_Inv with (p := 0%nat) (new := []); eauto. intros H%Hm. by eapply I_mention.
  - eapply updated_grow with (p := 0%nat) (new := []); eauto.
    intros H%Hm. apply (g_mention _ _ G). by exists c, k.
  - cbn. rewrite lookup_insert_eq. eauto.
Qed.

(** [owned_instances_.emplace_back(raw, destructor_fn)] *)
Lemma owned_ptrs_push p (d : bool) k :
  owned_ptrs (push_owned p d k) = owned_ptrs k ++ (if d then [p] else []).
Proof.
  unfold owned_ptrs, push_owned. cbn. rewrite filter_app, fmap_app. f_equal. by destruct d.
Qed.

Lemma push_safe w0 w c p d :
  Inv w -> grow w0 w -> is_Some (containers w !! c) -> good d w0 w c p ->
  safe w0 w (update c (push_owned p d)) (fun _ w' => usable w0 w' c p /\ is_Some (containers w' !! c)).
Proof.
  intros I G [k Hk] Hg. unfold safe, update. rewrite Hk. fold (updated w c k (push_owned p d)).
  assert (forall x, x ∈ (if d then [p] else []) -> held w0 w c x) as Hnew.
  { destruct d; [by intros x ->%list_elem_of_singleton|by intros ? ?%elem_of_nil]. }
  assert ((if d then [p] else []) = [] \/ exists x, (if d then [p] else []) = [x]) as Hone by (destruct d; eauto).
  pose proof (good_usable _ _ _ _ _ Hg) as Hu. split_and!.
  - eapply updated_Inv with (p := p); eauto using owned_ptrs_push. intros _. apply Hu.
  - eapply updated_grow with (p := p); eauto using owned_ptrs_push. intros _. apply Hu.
  - destruct Hu as [[Ha Hv] Hu]. split; [split; [done|]|done].
    intros c' [Ho|[-> Hn]]%(updated_owns_new w c k (push_owned p d) Hk eq_refl _ (owned_ptrs_push p d k));
      (eapply anc_shape; [by apply updated_shape|]); [auto|constructor].
  - cbn. rewrite lookup_insert_eq. eauto.
Qed.

(** ** Creating objects *)

(** A new object that no container knows. *)
Definition private (w0 w : World) (c : cid) (p : ptr) : Prop :=
  p ∈ alive w /\ (next_object w0 < p)%nat /\ (forall c', ~ owns w c' p) /\ ~ exposed w p /\ ~ mentioned w p /\
  (forall args q, Created p args ∈ trace w -> q ∈ args -> visible w c q).

Lemma private_held w0 w c p : private w0 w c p -> held w0 w c p.
Proof.
  intros (Ha & Hn & Ho & He & Hm & Hv). split_and!; [done..| |done]. intros c' k' Hk Hk'.
  destruct Hm. by exists c', k'.
Qed.

Lemma private_grow w0 w w' c p : Inv w -> grow w w' -> private w0 w c p -> private w0 w' c p.
Proof.
  intros I G (Ha & Hn & Ho & He & Hm & Hv). pose proof (I_alive _ I p Ha) as Hle. split_and!.
  - by apply (g_alive _ _ G).
  - done.
  - intros c' [H|H]%(g_owns _ _ G); [by apply (Ho c')|lia].
  - intros [H|[H|H]]%(g_exposed _ _ G); [done|done|lia].
  - intros [H|H]%(g_mention _ _ G); [done|lia].
  - intros args q Hc Hq. apply (visible_grow w w'); [done..|].
    apply (g_created _ _ G) in Hc as [Hc|Hc]; [by eapply Hv|lia].
Qed.

(** What the container may have handed to a factory since [w0]. *)
Definition args_ok (w0 w : World) (c : cid) (args : list ptr) : Prop := Forall (usable w0 w c) args.

Lemma args_ok_alive w0 w c args q : Inv w -> args_ok w0 w c args -> q ∈ args -> (q <= next_object w)%nat.
Proof.
  unfold args_ok. rewrite Forall_forall. intros I Hargs Hq.
  apply Hargs in Hq as [[Hq%(I_alive _ I) _] _]. lia.
Qed.

Section New.
Variables (w0 w : World) (c : cid) (args : list ptr).
Hypothesis Hinv : Inv w.
Hypothesis Hgrow : grow w0 w.
Hypothesis Hargs : args_ok w0 w c args.

Definition created : World := snd (new_object args w).
Definition new_ptr : ptr := S (next_object w).

Lemma created_exposed q : exposed created q -> exposed w q \/ q ∈ args.
Proof.
  intros (x & as' & [[= -> ->]|Hc]%elem_of_cons & Hq); [by right|]. left. by exists x, as'.
Qed.

Lemma created_visible c' q : visible w c' q -> visible created c' q.
Proof. intros [Hq Hv]. split; [cbn; set_solver|done]. Qed.

Lemma created_private x : private w0 w c x -> x ∉ args -> private w0 created c x.
Proof.
  intros (Ha & Hn & Ho & He & Hm & Hv) Hx. split_and!; [cbn; set_solver|done..| |done|].
  - by intros [?|?]%created_exposed.
  - intros as' q [[= -> ->]|Hc]%elem_of_cons Hq; apply created_visible; [|by eapply Hv].
    unfold args_ok in Hargs. rewrite Forall_forall in Hargs. by apply Hargs.
Qed.

Lemma created_new : private w0 created c new_ptr /\ new_ptr ∉ args.
Proof.
  assert (new_ptr ∉ args) as Hp.
  { intros H%(args_ok_alive w0 w c); [|done..]. unfold new_ptr in H. lia. }
  pose proof (g_next _ _ Hgrow). unfold new_ptr in *. split; [|done]. split_and!.
  - cbn. set_solver.
  - lia.
  - intros c' Ho. apply (I_owned _ Hinv c'), (I_alive _ Hinv) in Ho. lia.
  - intros [(x & as' & Hc & Hq)|?]%created_exposed; [|done].
    apply (I_created _ Hinv) in Hc as [_ Hc]. rewrite Forall_forall in Hc. apply Hc in Hq. lia.
  - intros (c' & k & Hk & Hm). apply (I_mention _ Hinv _ _ _ Hk) in Hm as [Hm%(I_alive _ Hinv) _]. lia.
  - intros as' q [[= ->]|Hc]%elem_of_cons Hq; [|apply (I_created _ Hinv) in Hc as [Hc _]; lia].
    apply created_visible. unfold args_ok in Hargs. rewrite Forall_forall in Hargs. by apply Hargs.
Qed.

Lemma created_Inv : Inv created.
Proof.
  destruct Hinv as [Im Io Iu In Ia Ip Iw Ior Ic Iar Ide Ion Ib Id]. split; cbn.
  - intros c' k q Hk Hm. apply created_visible. by eapply Im.
  - intros c' q Ho. apply Io in Ho. set_solver.
  - done.
  - done.
  - intros q [->%elem_of_singleton|Hq%Ia]%elem_of_union; lia.
  - done.
  - done.
  - intros c' k l1 x l2 as' q Hk El [[= -> ->]|Hc]%elem_of_cons Hq; [|by eapply Ior].
    assert (owns w c' (S (next_object w))) as Ho%Io%Ia; [|lia].
    exists k. split; [done|]. rewrite El. set_solver.
  - intros x as' [[= -> ->]|Hc]%elem_of_cons.
    + split; [lia|]. apply Forall_forall. intros q Hq%(args_ok_alive w0 w c); [lia|done..].
    + apply Ic in Hc as [H1 H2]. split; [lia|]. eapply Forall_impl; [done|]. cbn. lia.
  - intros c' x as' q Ho [[= -> ->]|Hc]%elem_of_cons Hq; [apply Io, Ia in Ho; lia|].
    apply created_visible. by eapply Iar.
  - intros x Hd. apply Ide in Hd as [H1 H2]. split; [|lia].
    intros [->%elem_of_singleton|?]%elem_of_union; [lia|done].
  - done.
  - intros x as' q d3 d2 [[= -> ->]|Hc]%elem_of_cons Hq Ed; [|by eapply Ib].
    assert (S (next_object w) ∈ destroyed (trace w)) as Hd; [|apply Ide in Hd as [_ Hd]; lia].
    unfold destroyed. rewrite Ed. set_solver.
  - done.
Qed.

Lemma created_grow : grow w0 created.
Proof.
  destruct Hgrow as [N A Sh O Me Cr E]. split; [cbn; lia|cbn; set_solver|done..| |].
  - intros x as' [[= -> ->]|Hc]%elem_of_cons; [right; lia|auto].
  - intros q [H|H]%created_exposed; [auto|]. unfold args_ok in Hargs. rewrite Forall_forall in Hargs.
    apply Hargs in H as [_ H]. auto.
Qed.

End New.

(** ** Running a factory *)

Section Run.
Variable c : cid.
Variables (rs : tid -> M ptr) (rq : tid -> bytes -> M ptr) (rn : tid -> M ptr) (hs : tid -> M bool).

(** A call back into the container. *)
Definition asks (m : M ptr) : Prop := forall w, Inv w -> is_Some (containers w !! c) ->
  safe w w m (fun p w' => usable w w' c p).

Hypothesis Hrs : forall t, asks (rs t).
Hypothesis Hrq : forall t q, asks (rq t q).
Hypothesis Hrn : forall t, asks (rn t).
Hypothesis Hhs : forall t w, Inv w -> is_Some (containers w !! c) -> safe w w (hs t) (fun _ _ => True).

(** The objects that the factory may return. *)
Definition result_ok (fresh : bool) (w0 w : World) (args : list ptr) (x : ptr) : Prop :=
  if fresh then private w0 w c x /\ x ∉ args else usable w0 w c x.

Lemma result_ok_grow fresh w0 w w' args x :
  Inv w -> grow w w' -> result_ok fresh w0 w args x -> result_ok fresh w0 w' args x.
Proof.
  intros I G. destruct fresh.
  - intros [H Hx]. split; [by eapply private_grow|done].
  - intros [H Hx]. split; [by eapply visible_grow|done].
Qed.

Lemma is_some_grow w w' : grow w w' -> is_Some (containers w !! c) -> is_Some (containers w' !! c).
Proof. intros G [k Hk]. destruct (grow_container _ _ _ _ G Hk) as (k' & Hk' & _). eauto. Qed.

Lemma args_ok_grow w0 w w' args : Inv w -> grow w w' -> args_ok w0 w c args -> args_ok w0 w' c args.
Proof.
  intros I G Ha. eapply Forall_impl; [exact Ha|]. intros q [Hq H].
  split; [by apply (visible_grow w)|done].
Qed.

(** What a call back gives. *)
Lemma asked fresh w0 w w' l args q :
  Inv w -> grow w0 w -> grow w w' -> args_ok w0 w c args -> usable w w' c q ->
  (forall x, x ∈ l -> result_ok fresh w0 w args x) ->
  args_ok w0 w' c (args ++ [q]) /\
  forall x, x ∈ (if fresh then l else q :: l) -> result_ok fresh w0 w' (args ++ [q]) x.
Proof.
  intros I G0 G Hargs Hq Hl. pose proof (usable_base _ _ _ _ _ G0 Hq) as Hq0. split.
  - apply Forall_app. split; [by eapply args_ok_grow|]. constructor; [done|constructor].
  - destruct fresh.
    + intros x Hx. destruct (Hl x Hx) as [Hpr Hxa]. split; [by eapply private_grow|].
      rewrite elem_of_app, list_elem_of_singleton. intros [?| ->]; [done|].
      destruct Hpr as (Ha & _ & _ & _ & Hm & _). apply (I_alive _ I) in Ha.
      destruct Hq as [_ [?|?]]; [done|lia].
    + intros x [->|Hx]%elem_of_cons; [done|]. by eapply (result_ok_grow false), Hl.
Qed.

Lemma run_factory_safe fresh w0 f l args w :
  Inv w -> grow w0 w -> is_Some (containers w !! c) -> yields fresh l f -> args_ok w0 w c args ->
  (forall x, x ∈ l -> result_ok fresh w0 w args x) ->
  safe w0 w (run_factory rs rq rn hs f args) (fun p w' => good fresh w0 w' c p).
Proof.
  assert (forall (m : M ptr) (k : ptr -> Factory) w l args,
    (forall p w l args, Inv w -> grow w0 w -> is_Some (containers w !! c) -> yields fresh l (k p) ->
       args_ok w0 w c args -> (forall x, x ∈ l -> result_ok fresh w0 w args x) ->
       safe w0 w (run_factory rs rq rn hs (k p) args) (fun p w' => good fresh w0 w' c p)) ->
    asks m -> Inv w -> grow w0 w -> is_Some (containers w !! c) ->
    (forall p, yields fresh (if fresh then l else p :: l) (k p)) -> args_ok w0 w c args ->
    (forall x, x ∈ l -> result_ok fresh w0 w args x) ->
    safe w0 w (let* p := m in run_factory rs rq rn hs (k p) (args ++ [p])) (fun p w' => good fresh w0 w' c p)) as Hask.
  { intros m k w1 l1 args1 IH Hm I G Hc Hy Ha Hl.
    apply safe_bind with (Q := fun q w' => grow w1 w' /\ usable w1 w' c q).
    - eapply safe_nested; [done|by apply Hm|]. intros q w' I' G' Hq. done.
    - intros q w' I' G' [G1 Hq].
      destruct (asked fresh w0 w1 w' l1 args1 q I G G1 Ha Hq Hl) as [Ha' Hl'].
      by eapply IH; [done|done|eapply is_some_grow|..]. }
  revert l args w. induction f as [k IH|p|e|t k IH|t q k IH|t k IH|t k IH]; intros l args w I G Hc Hy Ha Hl; cbn in Hy;
    cbn [run_factory].
  - unfold safe, bind. destruct (new_object args w) as [r w'] eqn:E.
    assert (w' = created w args /\ r = Val (new_ptr w)) as [-> ->] by (injection E as <- <-; done).
    pose proof (created_new w0 w c args I G Ha) as [Hn Hna].
    apply (IH (new_ptr w) (new_ptr w :: l)); [by apply (created_Inv w0 w c)|by apply (created_grow w0 w c)|done|done| |].
    + eapply Forall_impl; [apply Ha|]. intros x [Hx Hx']. split; [by eapply created_visible|done].
    + intros x [->|Hx]%elem_of_cons.
      * destruct fresh; [done|]. by apply held_usable, private_held.
      * apply Hl in Hx. destruct fresh.
        -- destruct Hx. split; [by apply created_private|done].
        -- destruct Hx. split; [by eapply created_visible|done].
  - apply Hl in Hy. apply safe_ret; [done..|]. destruct fresh; [by apply private_held, Hy|done].
  - by apply safe_throw.
  - apply (Hask (rs t) k w l args); auto. intros. by eapply IH.
  - apply (Hask (rq t q) k w l args); auto. intros. by eapply IH.
  - apply (Hask (rn t) k w l args); auto. intros. by eapply IH.
  - apply safe_bind with (Q := fun _ w' => grow w w').
    + eapply safe_nested; [done|by apply Hhs|done].
    + intros b w' I' G' G1. apply (IH b l); [done|done|by eapply is_some_grow|done|by apply (args_ok_grow w0 w)|].
      intros x Hx. by eapply result_ok_grow, Hl.
Qed.

End Run.

(** A factory called by the container [c]. *)
Definition runs (c : cid) (run : Factory -> M ptr) : Prop := forall fresh f w,
  Inv w -> is_Some (containers w !! c) -> yields fresh [] f ->
  safe w w (run f) (fun p w' => good fresh w w' c p).

Lemma run_factory_runs c rs rq rn hs :
  (forall t, asks c (rs t)) -> (forall t q, asks c (rq t q)) -> (forall t, asks c (rn t)) ->
  (forall t w, Inv w -> is_Some (containers w !! c) -> safe w w (hs t) (fun _ _ => True)) ->
  runs c (fun f => run_factory rs rq rn hs f []).
Proof.
  intros H1 H2 H3 H4 fresh f w I Hc Hy. apply run_factory_safe with (l := []); try done; try constructor.
  by intros ? ?%elem_of_nil.
Qed.

(** ** Changes of the thread and of the lock *)

Lemma quiet_base fresh w w1 w' c p : quiet w w1 -> good fresh w1 w' c p -> good fresh w w' c p.
Proof.
  intros (C & N & _ & _). destruct fresh.
  - unfold good, held. by rewrite N.
  - unfold good, usable, mentioned. by rewrite N, C.
Qed.

(** A call between two quiet steps. *)
Lemma safe_wrapped {A} w w1 (m : M A) (g : World -> World) (Q R : A -> World -> Prop) :
  quiet w w1 -> (forall w', quiet w' (g w')) -> Inv w ->
  safe w1 w1 m Q -> (forall a w', Inv w' -> Q a w' -> R a (g w')) ->
  safe w w (fun _ => let '(r, w') := m w1 in (r, g w')) R.
Proof.
  intros Hq Hg I Hs HR. unfold safe in *. destruct (m w1) as [r w'].
  assert (forall w', Inv w' -> grow w1 w' -> Inv (g w') /\ grow w (g w')) as H.
  { intros w2 I2 G2. split; [by eapply quiet_Inv; [apply Hg|]|].
    etransitivity; [by apply quiet_grow|]. etransitivity; [done|]. apply quiet_grow, Hg. }
  destruct r; try done; try (destruct Hs as [I' G']; by apply H).
  destruct Hs as (I' & G' & HQ). destruct (H w' I' G'). auto.
Qed.

Lemma with_thread_quiet n w : quiet w (with_thread n w).
Proof. unfold quiet. by split_and!. Qed.

Lemma with_lock_quiet l w : quiet w (with_lock l w).
Proof. unfold quiet. by split_and!. Qed.

Lemma safe_ext {A} w0 w (m m' : M A) Q : m w = m' w -> safe w0 w m Q -> safe w0 w m' Q.
Proof. unfold safe. by intros ->. Qed.

Lemma locked_safe {A} w (m : M A) (Q R : A -> World -> Prop) :
  Inv w ->
  (forall l, safe (with_lock l w) (with_lock l w) m Q) ->
  (forall a w' l, Inv w' -> Q a w' -> R a (with_lock l w')) ->
  safe w w (locked m) R.
Proof.
  intros I Hm HR.
  assert (forall l, safe w w (fun _ => let '(r, w') := m (with_lock l w) in (r, with_lock (lazy_lock w) w')) R) as H.
  { intros l. eapply safe_wrapped; [apply with_lock_quiet|intros; apply with_lock_quiet|done|apply Hm|auto]. }
  destruct (lazy_lock w) as [|t l] eqn:E.
  - eapply safe_ext; [|apply (H [thread w])]. unfold locked. by rewrite E.
  - destruct (t =? thread w)%nat eqn:Et.
    + eapply safe_ext; [|apply (H (thread w :: t :: l))]. unfold locked. by rewrite E, Et.
    + unfold safe, locked. rewrite E, Et. done.
Qed.

(** ** The operations of a container *)

Lemma mentions_set_instance b t p k q :
  mentions b (set_instance t p k) q -> mentions b k q \/ q = p.
Proof.
  intros [[t' H]|[H|H]]; [|by left; right; left|by left; right; right].
  cbn in H. apply lookup_insert_Some in H as [[_ ->]|[_ H]]; [by right|]. left; left; eauto.
Qed.

Lemma mentions_set_qualified b n p k q :
  mentions b (set_qualified n p k) q -> mentions b k q \/ q = p.
Proof.
  intros [H|[[n' H]|H]]; [by left; left| |by left; right; right].
  cbn in H. apply lookup_insert_Some in H as [[_ ->]|[_ H]]; [by right|]. left; right; left; eauto.
Qed.

Lemma mentions_push_entry b e k q :
  mentions b (push_entry e k) q -> mentions b k q \/ q = instance e.
Proof.
  intros [H|[H|[-> H]]]; [by left; left|by left; right; left|].
  cbn [push_entry lifecycle_] in H. rewrite map_app in H. apply elem_of_app in H as [H|H%list_elem_of_singleton]; [|by right]. left; right; right. done.
Qed.

Lemma cache_instance_safe w0 w c t r p fresh :
  Inv w -> grow w0 w -> is_Some (containers w !! c) -> good fresh w0 w c p ->
  safe w0 w (cache_instance c t r p) (fun _ w' => good fresh w0 w' c p /\ is_Some (containers w' !! c)).
Proof.
  intros I G [k Hk] Hg. unfold cache_instance. eapply safe_bind.
  - by eapply table_safe; eauto using mentions_set_instance, good_usable.
  - intros ? w' I' G' [Hg' Hc']. destruct (bool_decide _); [by apply safe_ret|].
    destruct Hc' as [k' Hk']. by eapply table_safe; eauto using mentions_set_qualified, good_usable.
Qed.

Lemma register_entry_safe w0 w c p pc pd fresh :
  Inv w -> grow w0 w -> is_Some (containers w !! c) -> good fresh w0 w c p ->
  safe w0 w (register_entry c p pc pd) (fun _ w' => good fresh w0 w' c p /\ is_Some (containers w' !! c)).
Proof.
  intros I G [k Hk] Hg. unfold register_entry.
  eapply table_safe; eauto using good_usable. intros q Hq. by apply mentions_push_entry in Hq.
Qed.

Lemma instantiate_safe late c run r w :
  runs c run -> wf_reg r -> Inv w -> is_Some (containers w !! c) ->
  safe w w (instantiate late run r) (fun p w' => good (destructor_fn r) w w' c p).
Proof.
  intros Hrun [Hf Ha] I Hc. unfold instantiate. destruct (is_async r).
  - destruct (async_factory r) as [f|] eqn:E; [|by unfold safe, run_async; rewrite E].
    assert (safe w w (fun _ => let '(res, w') := run f (with_thread (S (thread w)) w) in
                               (res, with_thread (thread w) w'))
              (fun p w' => good (destructor_fn r) w w' c p)) as H.
    { eapply safe_wrapped; [apply with_thread_quiet|intros; apply with_thread_quiet|done| |].
      - apply (Hrun (destructor_fn r)); [by eapply quiet_Inv; [apply with_thread_quiet|]|done|by apply Ha].
      - intros p w' I' Hg. eapply quiet_good; [apply with_thread_quiet|].
        by apply (quiet_base _ w (with_thread (S (thread w)) w)); [apply with_thread_quiet|]. }
    unfold safe, run_async in *. rewrite E. destruct (run f _) as [[] w']; try done;
      (destruct ((async_timeout_ms r =? 0) || negb (late (type_id r))); [done|tauto]).
  - unfold run_opt. destruct (factory r) as [f|] eqn:E; [|done].
    apply Hrun; [done|done|by apply Hf].
Qed.

Section Operations.
Variable type_name : tid -> bytes.
Variable hook_throws : list Event -> Event -> option Exn.
Variable late : tid -> bool.

Lemma mentioned_usable w c k p :
  Inv w -> containers w !! c = Some k -> mentions (counts c) k p -> usable w w c p.
Proof. intros I Hk Hm. split; [by eapply I_mention|]. left. by exists c, k. Qed.

Lemma has_safe fuel c t w :
  Inv w -> is_Some (containers w !! c) -> safe w w (has fuel c t) (fun _ _ => True).
Proof.
  revert c. induction fuel as [|fuel IH]; intros c I [k Hk]; [done|].
  cbn [has]. eapply safe_bind; [by eapply (safe_get _ _ _ (fun k' w' => k' = k /\ w' = w))|].
  intros ? ? _ _ [-> ->]. destruct (bool_decide _); [done|]. destruct (bool_decide _); [done|].
  destruct (parent_ k) as [q|] eqn:E; [|done]. apply IH; [done|]. by eapply I_parent.
Qed.

Lemma find_registration_safe fuel c t w :
  Inv w -> is_Some (containers w !! c) ->
  safe w w (find_registration fuel c t) (fun r w' => w' = w /\ forall r', r = Some r' -> wf_reg r').
Proof.
  revert c. induction fuel as [|fuel IH]; intros c I [k Hk]; [done|].
  cbn [find_registration]. eapply safe_bind; [by eapply (safe_get _ _ _ (fun k' w' => k' = k /\ w' = w))|].
  intros ? ? _ _ [-> ->]. destruct (registrations_ k !! t) as [r|] eqn:Er.
  { apply safe_ret; [done|done|]. split; [done|]. intros r' [= <-]. by eapply I_wf. }
  destruct (parent_ k) as [q|] eqn:E; [|done]. apply IH; [done|]. by eapply I_parent.
Qed.

(** What the parent sees, its child sees. *)
Lemma usable_parent w0 w c k q p :
  grow w0 w -> containers w0 !! c = Some k -> parent_ k = Some q -> usable w0 w q p -> usable w0 w c p.
Proof.
  intros G Hk Hq [[Ha Hv] Hm]. split; [split; [done|]|done].
  intros c' Ho. destruct (grow_container _ _ _ _ G Hk) as (k' & Hk' & Hs).
  apply (anc_step _ c k' q); [done|unfold shape in Hs; congruence|auto].
Qed.

Lemma resolve_named_safe fuel c t q : asks c (resolve_named type_name fuel c t q).
Proof.
  revert c. induction fuel as [|fuel IH]; intros c w I [k Hk]; [done|].
  cbn [resolve_named]. eapply safe_bind; [by eapply (safe_get _ _ _ (fun k' w' => k' = k /\ w' = w))|].
  intros ? ? _ G [-> ->]. destruct (qualified_instances_ k !! _) as [p|] eqn:Eq.
  - assert (usable w w c p) as Hu by (eapply mentioned_usable; eauto; right; left; eauto).
    eapply safe_weaken; [by eapply safe_deref|]. by intros ? ? _ _ [-> ->].
  - destruct (parent_ k) as [u|] eqn:E; [|done].
    eapply safe_weaken; [apply IH; [done|by eapply I_parent]|].
    intros p w' I' G' Hu. by eapply usable_parent.
Qed.

Lemma lazy_body_safe c t r run w :
  runs c run -> wf_reg r -> Inv w -> is_Some (containers w !! c) ->
  safe w w
    (let* raw := instantiate late run r in
     cache_instance c t r raw ;;;
     call_opt hook_throws PostConstruct (post_construct_fn r) raw ;;;
     update c (push_owned raw (destructor_fn r)) ;;;
     ret raw)
    (fun p w' => usable w w' c p).
Proof.
  intros Hrun Hr I Hc. eapply safe_bind; [by apply (instantiate_safe late c)|].
  intros p w1 I1 G1 Hg1. assert (is_Some (containers w1 !! c)) by by eapply is_some_grow.
  eapply safe_bind; [by apply (cache_instance_safe w w1 c t r p (destructor_fn r))|]. intros ? w2 I2 G2 [Hg2 Hc2].
  eapply safe_bind; [apply safe_call_opt; [done|by apply (good_usable _ _ _ _ _ Hg2)|done|done]|].
  intros ? w3 I3 G3 Hq. pose proof (quiet_good _ _ _ _ _ _ Hq Hg2) as Hg3.
  eapply safe_bind; [apply push_safe; [done|done|by destruct Hq as (-> & _)|exact Hg3]|].
  intros ? w4 I4 G4 [Hu _]. by apply safe_ret.
Qed.

Lemma resolve_lazy_impl_safe c t run w k :
  runs c run -> Inv w -> containers w !! c = Some k ->
  safe w w (resolve_lazy_impl hook_throws late run c k t) (fun p w' => p = 0%nat \/ usable w w' c p).
Proof.
  intros Hrun I Hk. unfold resolve_lazy_impl. destruct (kind k); [|by apply safe_ret; auto..].
  unfold resolve_lazy_singleton.
  apply locked_safe with (Q := fun p w' => p = 0%nat \/ usable w w' c p); [done| |].
  - intros l. set (w1 := with_lock l w). assert (quiet w w1) as Hq by apply with_lock_quiet.
    assert (Inv w1) as I1 by by apply (quiet_Inv w).
    eapply safe_bind; [by eapply (safe_get _ _ _ (fun k' w' => k' = k /\ w' = w1))|].
    intros ? ? _ G1 [-> ->]. destruct (instances_ k !! t) as [p|] eqn:Ei.
    { apply safe_ret; [done|done|]. right. apply (quiet_base false w w1); [done|].
      eapply mentioned_usable; [done|exact Hk|]. left; eauto. }
    destruct (registrations_ k !! t) as [r|] eqn:Er; [|by apply safe_ret; auto].
    destruct (is_lazy r); [|by apply safe_ret; auto]. cbn [negb].
    eapply safe_weaken; [apply lazy_body_safe; [done|by eapply (I_wf _ I)|done|by exists k]|].
    intros p w' I' G' Hu. right. by apply (quiet_base false w w1).
  - intros p w' l I' [->|Hu]; [by left|right]. eapply (quiet_good false); [apply with_lock_quiet|done].
Qed.

Lemma resolve_both_safe fuel :
  (forall c t, asks c (resolve type_name hook_throws late fuel c t)) /\
  (forall c t, asks c (resolve_new type_name hook_throws late fuel c t)).
Proof.
  induction fuel as [|fuel [IH1 IH2]]; [split; by intros c t w I Hc|].
  assert (forall c, runs c (fun f => run_factory (resolve type_name hook_throws late fuel c)
    (resolve_named type_name fuel c) (resolve_new type_name hook_throws late fuel c) (has fuel c) f [])) as Hrun.
  { intros c. apply run_factory_runs; [auto|intros; apply resolve_named_safe|auto|].
    intros. by apply has_safe. }
  split; intros c t w I [k Hk].
  - cbn [resolve]. eapply safe_bind; [by eapply (safe_get _ _ _ (fun k' w' => k' = k /\ w' = w))|].
    intros ? ? _ G [-> ->]. destruct (instances_ k !! t) as [p|] eqn:Ei.
    { assert (usable w w c p) as Hu by (eapply mentioned_usable; eauto; left; eauto).
      eapply safe_weaken; [by eapply safe_deref|]. by intros ? ? _ _ [-> ->]. }
    apply safe_bind with (Q := fun p w' => p = 0%nat \/ usable w w' c p).
    { destruct (registrations_ k !! t) as [r|]; [|by apply safe_ret; auto].
      destruct (_ && _); [|by apply safe_ret; auto]. by apply resolve_lazy_impl_safe. }
    intros p w1 I1 G1 Hp. destruct (Nat.eqb_spec p 0) as [->|Hne].
    + destruct (parent_ k) as [q|] eqn:E; [|by apply safe_throw].
      eapply safe_nested; [done|apply IH1; [done|]|].
      * eapply is_some_grow; [done|]. by eapply I_parent.
      * intros p w2 I2 G2 Hu. eapply (usable_parent _ _ c k q); [by etransitivity|done|done|].
        by eapply usable_base.
    + destruct Hp as [?|Hu]; [done|].
      eapply safe_weaken; [by eapply safe_deref|]. by intros ? ? _ _ [-> ->].
  - cbn [resolve_new]. eapply safe_bind; [by apply find_registration_safe|].
    intros [r|] ? _ G [-> Hr]; [|by apply safe_throw].
    destruct (bool_decide _); [|by apply safe_throw].
    specialize (Hr r eq_refl) as [Hf _].
    apply safe_bind with (Q := fun p w' => usable w w' c p).
    { unfold run_opt. destruct (factory r) as [f|]; [|by apply safe_throw].
      eapply safe_weaken; [apply Hrun; [done|by exists k|by apply Hf]|].
      intros p w' _ _ Hg. exact (good_usable _ _ _ _ _ Hg). }
    intros p w1 I1 G1 Hu. eapply safe_bind; [apply safe_call_opt; [done|apply Hu|done|done]|].
    intros ? w2 I2 G2 Hq. apply safe_ret; [done|done|]. exact (quiet_good false _ _ _ _ _ Hq Hu).
Qed.

Lemma resolve_safe fuel c t : asks c (resolve type_name hook_throws late fuel c t).
Proof. apply resolve_both_safe. Qed.

Lemma resolve_new_safe fuel c t : asks c (resolve_new type_name hook_throws late fuel c t).
Proof. apply resolve_both_safe. Qed.

Lemma run_in_runs fuel c : runs c (run_in type_name hook_throws late fuel c).
Proof.
  apply run_factory_runs; intros; [apply resolve_safe|apply resolve_named_safe|apply resolve_new_safe|by apply has_safe].
Qed.

End Operations.

End Invariant.
End DiSafety.
