(* ===== verification/DiLifetime.v ===== *)
(** * Lifetimes: building, shutting down and dropping containers

    Sequences of calls of an application on a root container and its children.
    No legal sequence has undefined behaviour, an object is deleted at most once
    and after the objects that were built from it. *)

From S2P Require Import Prelude CxxString DiContainer DiGraphProps DiSafety.

Module DiLifetime.
Import Di DiGraph DiSafety.

Section Lifetime.
Variable type_name : tid -> bytes.
Variables initializable destroyable : tid -> bool.
Variable hook_throws : list Event -> Event -> option Exn.
Variable late : tid -> bool.
Variable umap_order : bool -> list tid -> list tid.

(** ** Operations that create beans *)

Section Create.
Variable down : bool.

Lemma entries_alive w c k e :
  Inv down w -> containers w !! c = Some k -> counts down c = true -> e ∈ lifecycle_ k -> instance e ∈ alive w.
Proof.
  intros I Hk Hc He. apply (I_mention _ _ I c k); [done|]. right; right. split; [done|].
  apply list_elem_of_In, in_map. by apply list_elem_of_In.
Qed.

Lemma invoke_post_constructs_safe w c :
  Inv down w -> is_Some (containers w !! c) -> counts down c = true ->
  safe down w w (invoke_post_constructs hook_throws c) (fun _ w' => quiet w w').
Proof.
  intros I [k Hk] Hc. unfold invoke_post_constructs.
  eapply safe_bind; [by eapply (safe_get _ _ _ _ (fun k' w' => k' = k /\ w' = w))|].
  intros ? ? _ G [-> ->].
  destruct (post_construct_quiet hook_throws (lifecycle_ k) w) as [He Hq].
  { intros e He. by eapply entries_alive. }
  apply safe_quiet; [done|done|by intros E; rewrite E in He|done|]. intros a w' E. by rewrite E in Hq.
Qed.

(** Caching a new bean, with its hooks and its owner. *)
Lemma install_safe w c t r m :
  Inv down w -> is_Some (containers w !! c) ->
  safe down w w m (fun p w' => good down (destructor_fn r) w w' c p) ->
  safe down w w
    (let* raw := m in
     cache_instance c t r raw ;;;
     register_entry c raw (post_construct_fn r) (pre_destroy_fn r) ;;;
     update c (push_owned raw (destructor_fn r)))
    (fun _ _ => True).
Proof.
  intros I Hc Hm. eapply safe_bind; [exact Hm|]. intros p w1 I1 G1 Hg1.
  assert (is_Some (containers w1 !! c)) by by eapply is_some_grow.
  eapply safe_bind; [by apply (cache_instance_safe _ w w1 c t r p (destructor_fn r))|]. intros ? w2 I2 G2 [Hg2 Hc2].
  eapply safe_bind; [by apply (register_entry_safe _ w w2 c p _ _ (destructor_fn r))|]. intros ? w3 I3 G3 [Hg3 Hc3].
  eapply safe_weaken; [by apply push_safe|]. done.
Qed.

Lemma build_bean_safe fuel w c t :
  Inv down w -> is_Some (containers w !! c) ->
  safe down w w (build_bean type_name hook_throws late fuel c t) (fun _ _ => True).
Proof.
  intros I [k Hk]. unfold build_bean.
  eapply safe_bind; [by eapply (safe_get _ _ _ _ (fun k' w' => k' = k /\ w' = w))|].
  intros ? ? _ G [-> ->]. destruct (registrations_ k !! t) as [r|] eqn:Er; [|by apply safe_ret].
  destruct (bool_decide _); [by apply safe_ret|]. destruct (is_lazy r); [by apply safe_ret|].
  apply install_safe; [done|by exists k|].
  apply instantiate_safe; [apply run_in_runs|by eapply (I_wf _ _ I)|done|by exists k].
Qed.

Lemma initialize_bean_safe fuel w c t :
  Inv down w -> is_Some (containers w !! c) ->
  safe down w w (initialize_bean type_name hook_throws late fuel c t) (fun _ _ => True).
Proof.
  intros I [k Hk]. unfold initialize_bean.
  eapply safe_bind; [by eapply (safe_get _ _ _ _ (fun k' w' => k' = k /\ w' = w))|].
  intros ? ? _ G [-> ->]. destruct (registrations_ k !! t) as [r|] eqn:Er; [|by apply safe_ret].
  destruct (is_lazy r); [by apply safe_ret|].
  apply install_safe; [done|by exists k|]. unfold run_opt.
  destruct (factory r) as [f|] eqn:Ef; [|by apply safe_throw].
  apply run_in_runs; [done|by exists k|].
  destruct (I_wf _ _ I c k t r Hk Er) as [Hf _]. by apply Hf.
Qed.

(** A loop of steps that each are safe. *)
Lemma steps_safe {A} (step : A -> M unit) (steps : list A -> M unit) c l w :
  steps [] = ret tt -> (forall a l, steps (a :: l) = (step a ;;; steps l)) ->
  (forall a w, Inv down w -> is_Some (containers w !! c) -> safe down w w (step a) (fun _ _ => True)) ->
  Inv down w -> is_Some (containers w !! c) -> safe down w w (steps l) (fun _ _ => True).
Proof.
  intros E0 E1 Hs. revert w. induction l as [|a l IH]; intros w I Hc.
  - rewrite E0. by apply safe_ret.
  - rewrite E1. eapply safe_bind; [by apply Hs|]. intros ? w1 I1 G1 _.
    eapply safe_nested; [done|apply IH; [done|by eapply is_some_grow]|done].
Qed.

Lemma initialize_safe fuel w c :
  Inv down w -> is_Some (containers w !! c) -> counts down c = true ->
  safe down w w (initialize type_name hook_throws late umap_order fuel c) (fun _ _ => True).
Proof.
  intros I [k Hk] Hc. unfold initialize.
  eapply safe_bind; [by eapply (safe_get _ _ _ _ (fun k' w' => k' = k /\ w' = w))|].
  intros ? ? _ G [-> ->]. eapply safe_bind.
  - eapply (steps_safe (initialize_bean type_name hook_throws late fuel c)
      (initialize_beans type_name hook_throws late fuel c) c); [done|done| |done|by exists k].
    intros. by apply initialize_bean_safe.
  - intros ? w1 I1 G1 _. eapply safe_nested; [done|apply invoke_post_constructs_safe; [done| |done]|done].
    eapply is_some_grow; [done|by exists k].
Qed.

Lemma resolve_scoped_safe sc fuel w c t :
  Inv down w -> is_Some (containers w !! c) ->
  safe down w w (resolve_scoped type_name initializable destroyable hook_throws late sc fuel c t)
    (fun p w' => usable down w w' c p).
Proof.
  intros I [k Hk]. unfold resolve_scoped.
  eapply safe_bind; [by eapply (safe_get _ _ _ _ (fun k' w' => k' = k /\ w' = w))|].
  intros ? ? _ G [-> ->]. destruct (instances_ k !! t) as [p|] eqn:Ei.
  { assert (usable down w w c p) as Hu by (eapply mentioned_usable; eauto; left; eauto).
    eapply safe_weaken; [by eapply safe_deref|]. by intros ? ? _ _ [-> ->]. }
  assert (is_Some (containers w !! c)) as Hc by by exists k.
  eapply safe_bind; [by apply find_registration_safe|].
  intros [r|] ? _ _ [-> Hr]; [|by apply resolve_safe].
  destruct (bool_decide _); [|by apply resolve_safe].
  specialize (Hr r eq_refl) as [Hf _].
  apply safe_bind with (Q := fun p w' => good down (destructor_fn r) w w' c p).
  { unfold run_opt. destruct (factory r) as [f|]; [|by apply safe_throw].
    apply run_in_runs; [done..|by apply Hf]. }
  intros p w1 I1 G1 Hg1. eapply safe_bind; [apply safe_call_opt; [done|by apply (good_usable _ _ _ _ _ _ Hg1)|done|done]|].
  intros ? w2 I2 G2 Hq. pose proof (quiet_good _ _ _ _ _ _ _ Hq Hg1) as Hg2.
  assert (is_Some (containers w2 !! c)) as Hc2 by by eapply is_some_grow.
  eapply safe_bind; [by apply (register_entry_safe _ w w2 c p _ _ (destructor_fn r))|]. intros ? w3 I3 G3 [Hg3 [k3 Hk3]].
  eapply safe_bind; [by eapply table_safe; eauto using mentions_set_instance, good_usable|].
  intros ? w4 I4 G4 [Hg4 Hc4].
  eapply safe_bind; [by apply push_safe|]. intros ? w5 I5 G5 [Hu5 _].
  eapply safe_weaken; [by eapply safe_deref|]. by intros ? ? _ _ [-> ->].
Qed.

End Create.

Lemma lift_cycles_safe down w r :
  Inv down w -> safe down w w (lift_cycles r) (fun _ w' => w' = w).
Proof. intros I. unfold safe, lift_cycles. by destruct r as [[]|]. Qed.

Lemma build_safe fuel w c :
  Inv false w -> is_Some (containers w !! c) ->
  safe false w w (build type_name hook_throws late umap_order fuel c) (fun _ _ => True).
Proof.
  intros I [k Hk]. unfold build.
  eapply safe_bind; [by eapply (safe_get _ _ _ _ (fun k' w' => k' = k /\ w' = w))|].
  intros ? ? _ _ [-> ->]. destruct (built_ k); [by apply safe_throw|].
  eapply safe_bind; [by apply lift_cycles_safe|]. intros ? ? _ _ ->.
  destruct (build_topo_order umap_order (registrations_ k)) as [topo|]; [|done].
  eapply safe_bind; [by eapply plain_safe; eauto|]. intros ? w1 I1 G1 Hc1.
  eapply safe_bind.
  { eapply safe_nested; [done| |].
    - eapply (steps_safe false (build_bean type_name hook_throws late fuel c)
        (build_beans type_name hook_throws late fuel c) c); [done|done| |done|done].
      intros. by apply build_bean_safe.
    - intros ? ? _ G _. exact G. }
  intros ? w2 I2 G2 G12. assert (is_Some (containers w2 !! c)) as Hc2 by by eapply is_some_grow.
  eapply safe_bind; [eapply safe_nested; [done|by apply invoke_post_constructs_safe|intros ? ? _ G _; exact G]|].
  intros ? w3 I3 G3 G23. assert (is_Some (containers w3 !! c)) as [k3 Hk3] by by eapply is_some_grow.
  eapply safe_weaken; [by eapply plain_safe; eauto|]. done.
Qed.

(** ** Destruction *)

(** No other container is a child of it. *)
Definition leaf (w : World) (c : cid) : Prop :=
  forall c' k', containers w !! c' = Some k' -> parent_ k' <> Some c.

Definition owned_of (l : list (ptr * bool)) : list ptr := (filter (fun x => x.2 = true) l).*1.

Definition kill (w : World) (l : list ptr) : World :=
  mkWorld (containers w) (next_object w) (alive w ∖ list_to_set l)
    (rev (map Destroyed l) ++ trace w) (lazy_lock w) (thread w).

(** The loop deletes the owned objects one after the other. *)
Lemma destroy_owned_spec l w :
  NoDup (owned_of l) -> (forall p, p ∈ owned_of l -> p ∈ alive w /\ p <> 0%nat) ->
  destroy_owned l w = (Val tt, kill w (owned_of l)).
Proof.
  revert w. induction l as [|[p d] l IH]; intros w N Ha.
  { cbn. unfold kill, ret. cbn. destruct w. cbn. do 2 f_equal. set_solver. }
  cbn [destroy_owned]. unfold owned_of in *. rewrite filter_cons in *. destruct d; cbn [snd] in *.
  - rewrite decide_True in * by done. cbn [fmap list_fmap fst] in *.
    apply NoDup_cons in N as [Np N]. destruct (Ha p ltac:(left)) as [Hp Hp0].
    rewrite (proj2 (Nat.eqb_neq p 0)) by done. cbn [negb andb]. unfold bind, delete_object.
    rewrite decide_True by done. rewrite IH; [|done|].
    + unfold kill. cbn. rewrite <- app_assoc. do 2 f_equal. set_solver.
    + cbn. intros q Hq. destruct (Ha q ltac:(by right)). split; [|done].
      apply elem_of_difference. split; [done|]. intros ->%elem_of_singleton. done.
  - rewrite decide_False in * by done. cbn. unfold bind, ret. by apply IH.
Qed.

Lemma owned_of_rev l : owned_of (rev l) = rev (owned_of l).
Proof.
  unfold owned_of. induction l as [|[p d] l IH]; [done|]. cbn [rev].
  rewrite filter_app, fmap_app, IH, filter_cons. destruct d; cbn [snd].
  - by rewrite decide_True by done.
  - rewrite decide_False by done. cbn. by rewrite app_nil_r.
Qed.

Lemma destroyed_app a b : destroyed (a ++ b) = destroyed a ++ destroyed b.
Proof. apply omap_app. Qed.

Lemma destroyed_events l : destroyed (map Destroyed l) = l.
Proof. induction l as [|p l IH]; [done|]. cbn. f_equal. done. Qed.

Lemma anc_leaf w a c : leaf w c -> anc (containers w) a c -> a = c.
Proof.
  intros Hl H. induction H as [|c k q c' Hk Hq _ IH]; [done|].
  specialize (IH Hl). subst q. by apply Hl in Hk.
Qed.

(** ** Removing the objects of a leaf *)

Section Retire.
Variables (down down' : bool) (w : World) (c : cid) (k : Container) (m' : gmap cid Container).
Hypothesis Hinv : Inv down w.
Hypothesis Hk : containers w !! c = Some k.
Hypothesis Hleaf : leaf w c.
Hypothesis Hcounts : forall c', c' <> c -> counts down' c' = counts down c'.
Hypothesis Hother : forall c', c' <> c -> m' !! c' = containers w !! c'.
(** What is left of it owns and mentions nothing. *)
Hypothesis Hself : forall k', m' !! c = Some k' ->
  parent_ k' = parent_ k /\ registrations_ k' = registrations_ k /\ owned_ptrs k' = [] /\
  forall p, ~ mentions (counts down' c) k' p.
Hypothesis Hdown : down' = true -> forall k', m' !! root = Some k' -> built_ k' = false.

Definition retired : World := set_containers m' (kill w (rev (owned_ptrs k))).

Lemma retired_owns c' p : owns retired c' p <-> c' <> c /\ owns w c' p.
Proof.
  unfold owns. cbn. split.
  - intros (k' & Hk' & Hp). destruct (decide (c' = c)) as [->|Hne].
    + apply Hself in Hk' as (_ & _ & E & _). rewrite E in Hp. by apply elem_of_nil in Hp.
    + rewrite Hother in Hk' by done. eauto.
  - intros (Hne & k' & Hk' & Hp). exists k'. by rewrite Hother.
Qed.

Lemma retired_anc a b : a <> c -> anc (containers w) a b -> anc m' a b.
Proof.
  intros Hne H. induction H as [|a k' q b Hk' Hq _ IH]; [constructor|].
  apply (anc_step _ a k' q); [by rewrite Hother|done|].
  apply IH. intros ->. by apply Hleaf in Hk'.
Qed.

Lemma retired_alive c' q : c' <> c -> visible w c' q -> q ∈ alive retired.
Proof.
  intros Hne [Ha Hv]. cbn. apply elem_of_difference. split; [done|].
  rewrite elem_of_list_to_set, elem_of_rev. intros Hq.
  apply Hne, (anc_leaf w); [done|]. apply Hv. by exists k.
Qed.

Lemma retired_visible c' q : c' <> c -> visible w c' q -> visible retired c' q.
Proof.
  intros Hne Hv. split; [by apply (retired_alive c')|].
  intros c'' [_ Ho]%retired_owns. apply retired_anc; [done|]. by apply Hv.
Qed.

Lemma retired_created x args : Created x args ∈ trace retired <-> Created x args ∈ trace w.
Proof.
  cbn. rewrite elem_of_app, elem_of_rev. split; [|auto].
  intros [H|]; [|done]. by apply list_elem_of_In, in_map_iff in H as (? & ? & _).
Qed.

Lemma retired_destroyed : destroyed (trace retired) = owned_ptrs k ++ destroyed (trace w).
Proof. cbn. by rewrite destroyed_app, <- map_rev, destroyed_events, rev_involutive. Qed.

(** The objects go in the reverse of the order in which they came. *)
Lemma retired_buried p args q d3 d2 :
  Created p args ∈ trace w -> q ∈ args ->
  owned_ptrs k ++ destroyed (trace w) = d3 ++ p :: d2 -> q ∉ d2.
Proof.
  intros Hc Hq E.
  apply app_eq_inv in E as [(u & E1 & E2)|(u & E1 & E2)].
  - destruct u as [|p' u].
    + cbn in E2. by eapply (I_buried _ _ Hinv p args q []).
    + cbn in E2. injection E2 as <- E2. rewrite E2. rewrite elem_of_app. intros [Hu|Hd].
      * by eapply (I_order _ _ Hinv c k d3 p u).
      * assert (visible w c q) as [Ha _].
        { eapply (I_args _ _ Hinv); [|done|done]. exists k. split; [done|]. rewrite E1. set_solver. }
        by apply (I_dead _ _ Hinv) in Hd as [? _].
  - by eapply (I_buried _ _ Hinv p args q u).
Qed.

Lemma retired_Inv : Inv down' retired.
Proof.
  assert (forall c' k', m' !! c' = Some k' -> c' <> c -> containers w !! c' = Some k') as Hlook.
  { intros c' k' H Hne. by rewrite <- Hother. }
  split.
  - intros c' k' q Hk' Hm. destruct (decide (c' = c)) as [->|Hne].
    + by apply Hself in Hk' as (_ & _ & _ & Hno); apply Hno in Hm.
    + apply retired_visible; [done|]. rewrite Hcounts in Hm by done.
      by eapply (I_mention _ _ Hinv); [apply Hlook|].
  - intros c' q [Hne Ho]%retired_owns. apply (retired_alive c'); [done|].
    split; [by eapply (I_owned _ _ Hinv)|]. intros c'' Ho'.
    rewrite (I_unique _ _ Hinv _ _ _ Ho Ho'). constructor.
  - intros c1 c2 q [_ H1]%retired_owns [_ H2]%retired_owns. by eapply (I_unique _ _ Hinv).
  - intros c' k' Hk'. destruct (decide (c' = c)) as [->|Hne].
    + apply Hself in Hk' as (_ & _ & -> & _). constructor.
    + by eapply (I_nodup _ _ Hinv), Hlook.
  - cbn. intros q [Hq _]%elem_of_difference. by apply (I_alive _ _ Hinv).
  - intros c' k' q Hk' Hq.
    assert (exists k0, containers w !! c' = Some k0 /\ parent_ k0 = Some q) as (k0 & H0 & Hq0).
    { destruct (decide (c' = c)) as [->|Hne]; [|by eauto]. apply Hself in Hk' as (E & _). exists k. by rewrite <- E. }
    assert (q <> c) by (intros ->; by apply Hleaf in H0).
    cbn. rewrite Hother by done. by eapply (I_parent _ _ Hinv).
  - intros c' k' t r Hk' Hr. destruct (decide (c' = c)) as [->|Hne].
    + apply Hself in Hk' as (_ & E & _). rewrite E in Hr. by eapply (I_wf _ _ Hinv).
    + by eapply (I_wf _ _ Hinv); [apply Hlook|].
  - intros c' k' l1 p l2 args q Hk' El Hc%retired_created Hq. destruct (decide (c' = c)) as [->|Hne].
    + apply Hself in Hk' as (_ & _ & E & _). rewrite E in El. by destruct l1.
    + by eapply (I_order _ _ Hinv); [apply Hlook|..].
  - intros p args Hc%retired_created. by apply (I_created _ _ Hinv).
  - intros c' p args q [Hne Ho]%retired_owns Hc%retired_created Hq.
    apply retired_visible; [done|]. by eapply (I_args _ _ Hinv).
  - intros p. rewrite retired_destroyed, elem_of_app. intros [Hp|Hp].
    + split; [cbn; rewrite elem_of_difference, elem_of_list_to_set, elem_of_rev; tauto|].
      apply (I_alive _ _ Hinv). apply (I_owned _ _ Hinv c). by exists k.
    + apply (I_dead _ _ Hinv) in Hp as [Hp ?]. split; [cbn; set_solver|done].
  - rewrite retired_destroyed. apply NoDup_app. split_and!; [by eapply (I_nodup _ _ Hinv)| |apply (I_once _ _ Hinv)].
    intros p Hp Hd. apply (I_dead _ _ Hinv) in Hd as [Hd _]. apply Hd, (I_owned _ _ Hinv c). by exists k.
  - intros p args q d3 d2 Hc%retired_created Hq. rewrite retired_destroyed. by apply retired_buried with args.
  - done.
Qed.

End Retire.

Lemma pre_destroys_spec down w c k :
  Inv down w -> containers w !! c = Some k -> counts down c = true ->
  exists w1, pre_destroy_entries hook_throws (rev (lifecycle_ k)) w = (Val tt, w1) /\ quiet w w1.
Proof.
  intros I Hk Hc. apply pre_destroy_quiet. intros e He. rewrite elem_of_rev in He. by eapply entries_alive.
Qed.

Lemma destroy_all_spec down w c k :
  Inv down w -> containers w !! c = Some k ->
  destroy_owned (rev (owned_instances_ k)) w = (Val tt, kill w (rev (owned_ptrs k))).
Proof.
  intros I Hk. rewrite destroy_owned_spec; [by rewrite owned_of_rev|..].
  - rewrite owned_of_rev, <- (Permutation_rev (owned_of _)). by eapply I_nodup.
  - intros p. rewrite owned_of_rev, elem_of_rev. intros Hp.
    assert (p ∈ alive w) as Ha by (eapply I_owned; [done|by exists k]).
    split; [done|]. apply (I_alive _ _ I) in Ha. lia.
Qed.

(** [shutdown]: the hooks of the beans, the latest bean first, then the beans. *)
Lemma shutdown_spec w k :
  Inv false w -> containers w !! root = Some k -> leaf w root -> built_ k = true ->
  exists w1, pre_destroy_entries hook_throws (rev (lifecycle_ k)) w = (Val tt, w1) /\ quiet w w1 /\
    shutdown hook_throws root w =
      (Val tt, retired w1 k (<[root := clear_instances k]> (containers w))) /\
    Inv true (retired w1 k (<[root := clear_instances k]> (containers w))).
Proof.
  intros I Hk Hl Hb. destruct (pre_destroys_spec false w root k I Hk eq_refl) as (w1 & E1 & Hq).
  exists w1. pose proof Hq as (C & _). pose proof (quiet_Inv _ _ _ Hq I) as I1.
  split_and!; [done|done| |].
  - unfold shutdown, bind, get. rewrite Hk, Hb. cbn [negb]. unfold invoke_pre_destroys, bind, get.
    rewrite Hk, E1, C, Hk, (destroy_all_spec false w1 root k) by (by rewrite ?C).
    unfold update. cbn [containers kill]. by rewrite C, Hk.
  - eapply (retired_Inv false true w1 root k); [done|by rewrite C|by unfold leaf; rewrite C| | | |].
    + intros c' Hne. unfold counts. by rewrite (proj2 (Nat.eqb_neq c' root)).
    + intros c' Hne. by rewrite lookup_insert_ne, C.
    + intros k'. rewrite lookup_insert_eq. intros [= <-]. split_and!; [done..|].
      intros p [[t H]|[[q H]|[H _]]]; cbn in H; by rewrite ?lookup_empty in H.
    + intros _ k'. rewrite lookup_insert_eq. by intros [= <-].
Qed.

(** The destructor of a child container. *)
Lemma destroy_container_spec down w c k :
  Inv down w -> containers w !! c = Some k -> leaf w c -> c <> root ->
  exists w1, pre_destroy_entries hook_throws (rev (lifecycle_ k)) w = (Val tt, w1) /\ quiet w w1 /\
    destroy_container hook_throws c w = (Val tt, retired w1 k (delete c (containers w))) /\
    Inv down (retired w1 k (delete c (containers w))).
Proof.
  intros I Hk Hl Hne. assert (counts down c = true) as Hc.
  { unfold counts. rewrite (proj2 (Nat.eqb_neq c root)) by done. by rewrite andb_false_r. }
  destruct (pre_destroys_spec down w c k I Hk Hc) as (w1 & E1 & Hq).
  exists w1. pose proof Hq as (C & _). pose proof (quiet_Inv _ _ _ Hq I) as I1.
  split_and!; [done|done| |].
  - unfold destroy_container, invoke_pre_destroys, bind, get.
    rewrite Hk, E1, C, Hk, (destroy_all_spec down w1 c k) by (by rewrite ?C).
    cbn [containers kill]. by rewrite C.
  - eapply (retired_Inv down down w1 c k); [done|by rewrite C|by unfold leaf; rewrite C|done| | |].
    + intros c' Hc'. by rewrite lookup_delete_ne, C.
    + intros k'. by rewrite lookup_delete_eq.
    + intros Hd k'. rewrite lookup_delete_ne by done. rewrite <- C. by apply (I_down _ _ I1).
Qed.

(** A container that was just made, or that got a registration. *)
Section Insert.
Variables (down : bool) (w : World) (c : cid) (k : Container).
Hypothesis Hinv : Inv down w.
Hypothesis Hempty : forall p, mentions (counts down c) k p ->
  exists k0, containers w !! c = Some k0 /\ mentions (counts down c) k0 p.
Hypothesis Howned : owned_ptrs k = match containers w !! c with Some k0 => owned_ptrs k0 | None => [] end.
Hypothesis Hparent : forall q, parent_ k = Some q -> is_Some (containers w !! q).
Hypothesis Hsame : forall k0, containers w !! c = Some k0 -> parent_ k = parent_ k0 /\ built_ k = built_ k0.
Hypothesis Hroot : containers w !! c = None -> built_ k = false.
Hypothesis Hwf : forall t r, registrations_ k !! t = Some r -> wf_reg r.

Definition inserted : World := set_containers (<[c := k]> (containers w)) w.

Lemma inserted_owns c' p : owns inserted c' p <-> owns w c' p.
Proof.
  unfold owns. cbn. destruct (decide (c' = c)) as [->|Hne]; [|by rewrite lookup_insert_ne].
  rewrite lookup_insert_eq. destruct (containers w !! c) as [k0|] eqn:E.
  - split; [intros (? & [= <-] & H); exists k0; by rewrite <- Howned|].
    intros (? & [= <-] & H). exists k. by rewrite Howned.
  - split; [intros (? & [= <-] & H); rewrite Howned in H; by apply elem_of_nil in H|]. by intros (? & ? & _).
Qed.

Lemma inserted_anc a b : is_Some (containers w !! a) -> anc (containers w) a b -> anc (containers inserted) a b.
Proof.
  intros Ha H. induction H as [|a k' q b Hk' Hq _ IH]; [constructor|].
  assert (is_Some (containers w !! q)) as Hs by by eapply (I_parent _ _ Hinv).
  destruct (decide (a = c)) as [->|Hne].
  - apply (anc_step _ c k q); [apply lookup_insert_eq| |by apply IH].
    by destruct (Hsame k' Hk') as [-> _].
  - apply (anc_step _ a k' q); [cbn; by rewrite lookup_insert_ne|done|by apply IH].
Qed.

Lemma inserted_visible c' q : is_Some (containers w !! c') -> visible w c' q -> visible inserted c' q.
Proof.
  intros Hc [Ha Hv]. split; [done|]. intros c'' Ho%inserted_owns. apply inserted_anc; auto.
Qed.

Lemma inserted_lookup c' k' : containers inserted !! c' = Some k' ->
  (c' = c /\ k' = k) \/ (c' <> c /\ containers w !! c' = Some k').
Proof.
  cbn. destruct (decide (c' = c)) as [->|Hne].
  - rewrite lookup_insert_eq. intros [= <-]. auto.
  - rewrite lookup_insert_ne by done. auto.
Qed.

Lemma inserted_Inv : Inv down inserted.
Proof.
  split; cbn [trace alive next_object inserted set_containers].
  - intros c' k' p [[-> ->]|[Hne Hk']]%inserted_lookup Hm.
    + apply Hempty in Hm as (k0 & Hk0 & Hm). apply inserted_visible; [by exists k0|].
      by eapply (I_mention _ _ Hinv).
    + apply inserted_visible; [by exists k'|]. by eapply (I_mention _ _ Hinv).
  - intros c' p Ho%inserted_owns. by eapply (I_owned _ _ Hinv).
  - intros c1 c2 p H1%inserted_owns H2%inserted_owns. by eapply (I_unique _ _ Hinv).
  - intros c' k' [[-> ->]|[Hne Hk']]%inserted_lookup; [|by eapply (I_nodup _ _ Hinv)].
    rewrite Howned. destruct (containers w !! c) as [k0|] eqn:E; [by eapply (I_nodup _ _ Hinv)|constructor].
  - apply (I_alive _ _ Hinv).
  - intros c' k' q Hk' Hq. assert (is_Some (containers w !! q)) as [k1 H1].
    { apply inserted_lookup in Hk' as [[-> ->]|[Hne Hk']]; [auto|]. by eapply (I_parent _ _ Hinv). }
    cbn. destruct (decide (q = c)) as [->|]; [rewrite lookup_insert_eq|rewrite lookup_insert_ne by done]; eauto.
  - intros c' k' t r [[-> ->]|[Hne Hk']]%inserted_lookup Hr; [by eapply Hwf|by eapply (I_wf _ _ Hinv)].
  - intros c' k' l1 p l2 args q [[-> ->]|[Hne Hk']]%inserted_lookup El; [|by eapply (I_order _ _ Hinv)].
    rewrite Howned in El. destruct (containers w !! c) as [k0|] eqn:E; [by eapply (I_order _ _ Hinv)|by destruct l1].
  - apply (I_created _ _ Hinv).
  - intros c' p args q Ho%inserted_owns Hc Hq. apply inserted_visible.
    + destruct Ho as (k' & ? & _). eauto.
    + by eapply (I_args _ _ Hinv).
  - apply (I_dead _ _ Hinv).
  - apply (I_once _ _ Hinv).
  - apply (I_buried _ _ Hinv).
  - intros Hd k' [[E ->]|[Hne Hk']]%inserted_lookup; [|by eapply (I_down _ _ Hinv)].
    destruct (containers w !! c) as [k0|] eqn:E0; [|by apply Hroot].
    destruct (Hsame k0 eq_refl) as [_ ->]. apply (I_down _ _ Hinv Hd). by rewrite E.
Qed.

End Insert.

(** ** Sequences of calls *)

Inductive Op :=
| OBuild
| OShutdown
| OMakeShard
| OInitialize (c : cid)
| OMakeRequest (c : cid)
| OMakeConnection (c : cid)
| ORegister (c : cid) (t : tid) (f : Factory)
| OResolve (c : cid) (t : tid)
| OResolveNamed (c : cid) (t : tid) (q : bytes)
| OResolveNew (c : cid) (t : tid)
| ODestroy (c : cid).

Definition ignore {A} (m : M A) : M unit := let* _ := m in ret tt.

(** The scope of the beans that a child container registers. *)
Definition own_scope (k : Kind) : Scope :=
  match k with
  | RequestKind => Request
  | ConnectionKind => Connection
  | _ => Singleton
  end.

(** [resolve<T>] of the container's class. *)
Definition resolve_in (fuel : nat) (c : cid) (t : tid) : M ptr :=
  let* k := get c in
  match kind k with
  | RequestKind => request_resolve type_name initializable destroyable hook_throws late fuel c t
  | ConnectionKind => connection_resolve type_name initializable destroyable hook_throws late fuel c t
  | _ => resolve type_name hook_throws late fuel c t
  end.

Definition exec (fuel : nat) (o : Op) : M unit :=
  match o with
  | OBuild => build type_name hook_throws late umap_order fuel root
  | OShutdown => shutdown hook_throws root
  | OMakeShard => ignore (make_shard_container root)
  | OInitialize c => initialize type_name hook_throws late umap_order fuel c
  | OMakeRequest c => ignore (make_request_container c)
  | OMakeConnection c => ignore (make_connection_container c)
  | ORegister c t f => update c (fun k => register_scoped type_name (own_scope (kind k)) t f k)
  | OResolve c t => ignore (resolve_in fuel c t)
  | OResolveNamed c t q => ignore (resolve_named type_name fuel c t q)
  | OResolveNew c t => ignore (resolve_new type_name hook_throws late fuel c t)
  | ODestroy c => destroy_container hook_throws c
  end.

(** A container is used while it exists and goes after its children; a child makes
    new objects; the root is not built again once it was shut down. *)
Definition legal (down : bool) (w : World) (o : Op) : Prop :=
  match o with
  | OBuild => down = false
  | OShutdown => leaf w root
  | OMakeShard => True
  | OInitialize c => is_Some (containers w !! c) /\ c <> root
  | ODestroy c => is_Some (containers w !! c) /\ c <> root /\ leaf w c
  | OMakeRequest c | OMakeConnection c | OResolve c _ | OResolveNamed c _ _ | OResolveNew c _ =>
      is_Some (containers w !! c)
  | ORegister c t f => is_Some (containers w !! c) /\ c <> root /\ yields true [] f
  end.

(** Whether the root has been shut down after the call. *)
Definition down_after (down : bool) (w : World) (o : Op) : bool :=
  match o with
  | OShutdown => down || match containers w !! root with Some k => built_ k | None => false end
  | _ => down
  end.

(** An exception goes to the application, which goes on. *)
Fixpoint run_ops (fuel : nat) (ops : list Op) (w : World) : Res unit * World :=
  match ops with
  | [] => (Val tt, w)
  | o :: ops' =>
      match exec fuel o w with
      | (Val _, w') | (Thrown _, w') => run_ops fuel ops' w'
      | other => other
      end
  end.

Fixpoint legal_run (fuel : nat) (down : bool) (ops : list Op) (w : World) : Prop :=
  match ops with
  | [] => True
  | o :: ops' => legal down w o /\ legal_run fuel (down_after down w o) ops' (snd (exec fuel o w))
  end.

(** An application that has registered its beans. *)
Definition start (regs : gmap tid BeanRegistration) : World :=
  mkWorld {[root := set_registrations regs (empty_container Root None)]} 0 ∅ [] [] 0.

Lemma start_Inv regs : (forall t r, regs !! t = Some r -> wf_reg r) -> Inv false (start regs).
Proof.
  intros Hwf.
  assert (forall c k, containers (start regs) !! c = Some k ->
            c = root /\ k = set_registrations regs (empty_container Root None)) as H.
  { intros c k Hk. cbn in Hk. apply lookup_singleton_Some in Hk as [<- <-]. done. }
  assert (forall c p, ~ owns (start regs) c p) as Ho.
  { intros c p (k & [-> ->]%H & Hp). by apply elem_of_nil in Hp. }
  split; try done.
  - intros c k p [-> ->]%H [[t Hm]|[[q Hm]|[_ Hm]]]; cbn in Hm; rewrite ?lookup_empty in Hm; [done|done|].
    by apply elem_of_nil in Hm.
  - intros c p Hp. by apply Ho in Hp.
  - intros c c' p Hp. by apply Ho in Hp.
  - intros c k [-> ->]%H. constructor.
  - intros c k q [-> ->]%H. done.
  - intros c k t r [-> ->]%H. apply Hwf.
  - intros c k l1 p l2 args q _ _ Hc. by apply elem_of_nil in Hc.
  - intros p args Hc. by apply elem_of_nil in Hc.
  - intros c p args q Hp. by apply Ho in Hp.
  - intros p Hp. by apply elem_of_nil in Hp.
  - constructor.
  - intros p args q d3 d2 Hc. by apply elem_of_nil in Hc.
Qed.

(** What a call must not do. *)
Definition keeps (down : bool) {A} (r : Res A * World) : Prop :=
  fst r <> Undefined /\ Inv down (snd r) /\ is_Some (containers (snd r) !! root).

Lemma safe_keeps {A} down w (m : M A) Q :
  is_Some (containers w !! root) -> safe down w w m Q -> keeps down (m w).
Proof.
  intros Hr. unfold safe, keeps. destruct (m w) as [[] w']; cbn; try done.
  - intros (I & G & _). split_and!; [done..|]. by eapply is_some_grow.
  - intros [I G]. split_and!; [done..|]. by eapply is_some_grow.
  - intros [I G]. split_and!; [done..|]. by eapply is_some_grow.
  - intros [I G]. split_and!; [done..|]. by eapply is_some_grow.
Qed.

Lemma ignore_keeps {A} down w (m : M A) : keeps down (m w) -> keeps down (ignore m w).
Proof.
  unfold keeps, ignore, bind.
  destruct (m w) as [[] w']; cbn; (intros (Hu & I & Hr); split_and!; congruence || done).
Qed.

Lemma make_child_keeps down w kd q :
  Inv down w -> is_Some (containers w !! root) -> is_Some (containers w !! q) ->
  keeps down (make_child kd q w).
Proof.
  intros I Hr Hq. unfold make_child. set (c := fresh _).
  assert (containers w !! c = None) as Hc by (apply not_elem_of_dom, is_fresh).
  unfold keeps. cbn [fst snd]. split_and!; [done| |].
  - apply inserted_Inv; [done| | | | |done|].
    + intros p [[t H]|[[n H]|[_ H]]]; cbn in H; rewrite ?lookup_empty in H; [done|done|].
      by apply elem_of_nil in H.
    + by rewrite Hc.
    + by intros q' [= <-].
    + rewrite Hc. done.
    + intros t r H. cbn in H. by rewrite lookup_empty in H.
  - cbn. destruct (decide (c = root)) as [->|]; [rewrite lookup_insert_eq|rewrite lookup_insert_ne by done]; eauto.
Qed.

Lemma register_keeps down w c t f :
  Inv down w -> is_Some (containers w !! root) -> is_Some (containers w !! c) -> yields true [] f ->
  keeps down (update c (fun k => register_scoped type_name (own_scope (kind k)) t f k) w).
Proof.
  intros I Hr [k Hk] Hf. unfold update. rewrite Hk. unfold keeps. cbn [fst snd]. split_and!; [done| |].
  - apply inserted_Inv; [done| | | | | |].
    + intros p Hm. exists k. done.
    + by rewrite Hk.
    + intros q Hq. by eapply I_parent.
    + intros k0 H0. by simplify_eq.
    + by rewrite Hk.
    + intros t' r. cbn. intros [[<- <-]|[_ H]]%lookup_insert_Some; [|by eapply I_wf].
      split; [by intros f' [= <-]|done].
  - cbn. destruct (decide (c = root)) as [->|]; [rewrite lookup_insert_eq|rewrite lookup_insert_ne by done]; eauto.
Qed.

Lemma exec_keeps fuel down o w :
  Inv down w -> is_Some (containers w !! root) -> legal down w o ->
  keeps (down_after down w o) (exec fuel o w).
Proof.
  intros I Hr Hl. destruct o as [| | |c|c|c|c t f|c t|c t q|c t|c]; cbn [exec legal down_after] in *.
  - subst down. eapply safe_keeps; [done|]. by apply build_safe.
  - destruct Hr as [k Hk]. rewrite Hk. destruct (built_ k) eqn:Eb.
    + destruct down; [by rewrite (I_down _ _ I eq_refl k Hk) in Eb|].
      destruct (shutdown_spec w k I Hk Hl Eb) as (w1 & _ & _ & -> & I'). unfold keeps. cbn [fst snd orb].
      split_and!; [done..|]. cbn. rewrite lookup_insert_eq. eauto.
    + rewrite orb_false_r. unfold shutdown, bind, get, keeps. rewrite Hk, Eb. cbn. eauto.
  - apply ignore_keeps. destruct Hr as [k Hk]. unfold make_shard_container, bind, get. rewrite Hk.
    destruct (built_ k); cbn [negb]; [|by unfold keeps; cbn; eauto]. apply make_child_keeps; eauto.
  - destruct Hl as [Hc Hne]. eapply safe_keeps; [done|]. apply initialize_safe; [done..|].
    unfold counts. by rewrite (proj2 (Nat.eqb_neq c root)), andb_false_r.
  - by apply ignore_keeps, make_child_keeps.
  - by apply ignore_keeps, make_child_keeps.
  - destruct Hl as (Hc & _ & Hf). by apply register_keeps.
  - apply ignore_keeps. eapply safe_keeps with (Q := fun p w' => usable down w w' c p); [done|].
    destruct Hl as [k Hk]. unfold resolve_in.
    eapply safe_bind; [by eapply (safe_get _ _ _ _ (fun k' w' => k' = k /\ w' = w))|].
    intros ? ? _ _ [-> ->]. assert (is_Some (containers w !! c)) by by exists k.
    destruct (kind k); [by apply resolve_safe|by apply resolve_safe|by apply resolve_scoped_safe..].
  - apply ignore_keeps. eapply safe_keeps; [done|]. by apply resolve_named_safe.
  - apply ignore_keeps. eapply safe_keeps; [done|]. by apply resolve_new_safe.
  - destruct Hl as ([k Hk] & Hne & Hl).
    destruct (destroy_container_spec down w c k I Hk Hl Hne) as (w1 & _ & _ & -> & I'). unfold keeps. cbn [fst snd].
    split_and!; [done..|]. cbn. by rewrite lookup_delete_ne.
Qed.

Lemma run_ops_keeps fuel ops down w :
  Inv down w -> is_Some (containers w !! root) -> legal_run fuel down ops w ->
  exists down', keeps down' (run_ops fuel ops w).
Proof.
  revert down w. induction ops as [|o ops IH]; intros down w I Hr Hl; [by exists down|].
  destruct Hl as [Ho Hl]. pose proof (exec_keeps fuel down o w I Hr Ho) as (Hu & I' & Hr').
  cbn [run_ops]. destruct (exec fuel o w) as [[] w'] eqn:E; cbn [fst snd] in *; try done.
  - by apply (IH _ w' I' Hr').
  - by apply (IH _ w' I' Hr').
  - by eexists.
  - by eexists.
Qed.

(** [C9] For registrations whose factories return an object they created when the
    container is to delete it, and a sequence of calls that uses a container only
    while it exists, destroys it after its children, registers new objects in child
    containers only, and does not build the root again after it was shut down:
    whatever the factories and hooks do or throw, calling hooks and deleting stays
    defined; no object is deleted twice, or before one that was built from it; and
    the beans that a container caches are alive, and any container that owns one is
    that container or an ancestor of it. *)
Theorem containers_memory_safe fuel regs ops :
  (forall t r, regs !! t = Some r -> wf_reg r) ->
  legal_run fuel false ops (start regs) ->
  let '(res, w) := run_ops fuel ops (start regs) in
  res <> Undefined /\
  NoDup (destroyed (trace w)) /\
  (forall p args q later earlier, Created p args ∈ trace w -> q ∈ args ->
     destroyed (trace w) = later ++ p :: earlier -> q ∉ earlier) /\
  (forall c k t p, containers w !! c = Some k -> instances_ k !! t = Some p ->
     p ∈ alive w /\ forall c', owns w c' p -> anc (containers w) c c').
Proof.
  intros Hwf Hl.
  destruct (run_ops_keeps fuel ops false (start regs) (start_Inv regs Hwf)
              ltac:(eexists; apply lookup_singleton_eq) Hl) as (down & Hu & I & Hr).
  destruct (run_ops fuel ops (start regs)) as [res w]. cbn in *.
  assert (forall c k t p, containers w !! c = Some k -> instances_ k !! t = Some p -> visible w c p) as Hv.
  { intros c k t p Hk Hp. eapply (I_mention _ _ I); [done|]. left; eauto. }
  split_and!; [done|apply (I_once _ _ I)|apply (I_buried _ _ I)|by apply Hv].
Qed.

(** ** Shutdown *)

Definition is_pre_destroy (e : Event) : Prop :=
  match e with
  | PreDestroy _ _ => True
  | _ => False
  end.

Lemma call_hook_trace fn p w : p ∈ alive w ->
  exists evs, trace (snd (call_hook hook_throws PreDestroy fn p w)) = evs ++ trace w /\
    Forall is_pre_destroy evs /\ forall a l, fn = a :: l -> PreDestroy a p ∈ evs.
Proof.
  revert w. induction fn as [|a fn IH]; intros w Ha; [by exists []|].
  cbn [call_hook]. unfold bind, fire. rewrite decide_True by done.
  destruct (hook_throws (trace w) (PreDestroy a p)) as [x|]; cbn [snd].
  - exists [PreDestroy a p]. split_and!; [done|by repeat constructor|]. intros b l [= <- <-]. by left.
  - destruct (IH (log (PreDestroy a p) w) Ha) as (evs & E & Hf & _).
    exists (evs ++ [PreDestroy a p]). split_and!.
    + rewrite E. cbn. by rewrite <- app_assoc.
    + apply Forall_app. split; [done|by repeat constructor].
    + intros b l [= <- <-]. set_solver.
Qed.

(** An exception of one hook does not keep the others from being called. *)
Lemma pre_destroy_entries_trace es w w1 :
  (forall e, e ∈ es -> instance e ∈ alive w) ->
  pre_destroy_entries hook_throws es w = (Val tt, w1) ->
  exists evs, trace w1 = evs ++ trace w /\ Forall is_pre_destroy evs /\
    forall e a l, e ∈ es -> on_pre_destroy e = Some (a :: l) -> PreDestroy a (instance e) ∈ evs.
Proof.
  revert w. induction es as [|e es IH]; intros w Ha E.
  { injection E as <-. exists []. split_and!; [done..|]. by intros ? ? ? ?%elem_of_nil. }
  cbn [pre_destroy_entries] in E. unfold bind, guarded in E.
  pose proof (call_opt_quiet hook_throws PreDestroy (on_pre_destroy e) (instance e) w
                ltac:(done) ltac:(apply Ha; left)) as [_ Hq].
  assert (exists evs, trace (snd (call_opt hook_throws PreDestroy (on_pre_destroy e) (instance e) w)) = evs ++ trace w /\
    Forall is_pre_destroy evs /\
    forall a l, on_pre_destroy e = Some (a :: l) -> PreDestroy a (instance e) ∈ evs) as (ev1 & E1 & F1 & H1).
  { destruct (on_pre_destroy e) as [fn|]; [|by exists []].
    destruct (call_hook_trace fn (instance e) w ltac:(apply Ha; left)) as (evs & E1 & F1 & H1).
    exists evs. split_and!; [done..|]. intros a l [= ->]. by eapply H1. }
  destruct (call_opt _ _ _ _ w) as [r w'] eqn:Ec. cbn [snd] in *.
  assert (pre_destroy_entries hook_throws es w' = (Val tt, w1)) as E' by (destruct r; done).
  destruct (IH w') as (ev2 & E2 & F2 & H2); [|done|].
  { intros e' He'. destruct Hq as (_ & _ & -> & _). apply Ha. by right. }
  exists (ev2 ++ ev1). split_and!.
  - by rewrite E2, E1, app_assoc.
  - by apply Forall_app.
  - intros e' a l [->|He']%elem_of_cons He; apply elem_of_app; eauto.
Qed.

(** A shutdown returns; it calls the hook of every bean that has one, whatever
    the others throw, then deletes exactly the owned beans, the latest first. *)
Theorem shutdown_complete fuel regs ops :
  (forall t r, regs !! t = Some r -> wf_reg r) ->
  legal_run fuel false ops (start regs) ->
  let w := snd (run_ops fuel ops (start regs)) in
  forall k, containers w !! root = Some k -> built_ k = true -> leaf w root ->
  exists hooks w', shutdown hook_throws root w = (Val tt, w') /\
    trace w' = map Destroyed (owned_ptrs k) ++ hooks ++ trace w /\
    Forall is_pre_destroy hooks /\
    (forall e a l, e ∈ lifecycle_ k -> on_pre_destroy e = Some (a :: l) -> PreDestroy a (instance e) ∈ hooks) /\
    alive w' = alive w ∖ list_to_set (owned_ptrs k) /\
    containers w' !! root = Some (clear_instances k).
Proof.
  intros Hwf Hl w k Hk Hb Hleaf.
  destruct (run_ops_keeps fuel ops false (start regs) (start_Inv regs Hwf)
              ltac:(eexists; apply lookup_singleton_eq) Hl) as (down & _ & I & _). fold w in I.
  destruct down; [by rewrite (I_down _ _ I eq_refl k Hk) in Hb|].
  destruct (shutdown_spec w k I Hk Hleaf Hb) as (w1 & E1 & Hq & Es & _).
  destruct (pre_destroy_entries_trace (rev (lifecycle_ k)) w w1) as (hooks & Et & Hf & Hh); [|done|].
  { intros e He. rewrite elem_of_rev in He. by eapply (entries_alive false). }
  exists hooks, (retired w1 k (<[root := clear_instances k]> (containers w))). split_and!; [done| |done| | |].
  - cbn. by rewrite <- map_rev, rev_involutive, Et.
  - intros e a l He. by apply Hh; rewrite elem_of_rev.
  - destruct Hq as (_ & _ & A & _). cbn. rewrite A. f_equal.
    apply leibniz_equiv. intros x. by rewrite !elem_of_list_to_set, elem_of_rev.
  - cbn. apply lookup_insert_eq.
Qed.

End Lifetime.
End DiLifetime.
