(* ===== verification/DiBuild.v ===== *)
(** * Building the root container constructs every bean

    If the graph of declared dependencies has no cycle and the factories ask for
    nothing else, [build] returns: every eager bean was created once, after its
    dependencies, and its hooks ran in that order. *)

From S2P Require Import Prelude CxxString DiContainer DiGraphProps DiSafety DiLifetime.

Module DiBuild.
Import Di DiGraph DiSafety DiLifetime.

(** A bean that [resolve] can give. *)
Definition resolvable (regs : gmap tid BeanRegistration) (t : tid) : Prop :=
  exists r, regs !! t = Some r /\ scope r <> Prototype.

(** The factory only asks for declared dependencies, and does not throw. *)
Fixpoint closed (regs : gmap tid BeanRegistration) (deps : list tid) (f : Factory) : Prop :=
  match f with
  | FNew k => forall p, closed regs deps (k p)
  | FReturn _ => True
  | FThrow _ | FResolveNamed _ _ _ | FResolveNew _ _ => False
  | FResolve t k => t ∈ deps /\ resolvable regs t /\ forall p, closed regs deps (k p)
  | FHas _ k => forall b, closed regs deps (k b)
  end.

Record buildable (regs : gmap tid BeanRegistration) : Prop := {
  b_acyclic : acyclic regs;
  b_deps : forall t r, regs !! t = Some r -> len (dep_type_ids r) < 2 ^ 64;
  b_wf : forall t r, regs !! t = Some r -> wf_reg r;
  b_factory : forall t r, regs !! t = Some r -> scope r <> Prototype ->
    if is_async r then is_lazy r = false /\ exists f, async_factory r = Some f /\ closed regs (dep_type_ids r) f
    else exists f, factory r = Some f /\ closed regs (dep_type_ids r) f
}.

Definition eager (regs : gmap tid BeanRegistration) (t : tid) : bool :=
  match regs !! t with
  | Some r => negb (bool_decide (scope r = Prototype)) && negb (is_lazy r)
  | None => false
  end.

(** The objects a run created, in order. *)
Definition created (tr : list Event) : list ptr :=
  omap (fun e => match e with Created p _ => Some p | _ => None end) (rev tr).

(** What may happen while the eager beans are made: an object is created, or a
    lazy bean that one of them asked for gets its hook. *)
Definition calm (regs : gmap tid BeanRegistration) (k : Container) (e : Event) : Prop :=
  (exists p args, e = Created p args) \/
  (exists t r p a, regs !! t = Some r /\ is_lazy r = true /\ instances_ k !! t = Some p /\
     a ∈ default [] (post_construct_fn r) /\ e = PostConstruct a p).

(** The instances of the eager beans that the container owns, of the types [ts]. *)
Definition owned_bean (regs : gmap tid BeanRegistration) (t : tid) : bool :=
  match regs !! t with
  | Some r => eager regs t && destructor_fn r
  | None => false
  end.

Definition owned_instances (regs : gmap tid BeanRegistration) (ts : list tid) (k : Container) : list ptr :=
  omap (fun t => if owned_bean regs t then instances_ k !! t else None) ts.

(** The calls of the [post_construct] hooks. *)
Definition post_events (es : list LifecycleEntry) : list Event :=
  concat (map (fun e => map (fun a => PostConstruct a (instance e)) (default [] (on_post_construct e))) es).

Section Build.
Variable type_name : tid -> bytes.
Variable hook_throws : list Event -> Event -> option Exn.
Variable late : tid -> bool.
Variable regs : gmap tid BeanRegistration.
Hypothesis Hb : buildable regs.
Hypothesis Hquiet : forall tr e, hook_throws tr e = None.
Hypothesis Hlate : forall t, late t = false.

(** ** Progress *)

(** It returns, unless it is undefined. *)
Definition goes {A} (w : World) (m : M A) (Q : A -> World -> Prop) : Prop :=
  match m w with
  | (Val a, w') => Q a w'
  | (Undefined, _) => True
  | _ => False
  end.

Lemma goes_bind {A B} w (m : M A) (f : A -> M B) Q R :
  goes w m Q -> (forall a w', Q a w' -> goes w' (f a) R) -> goes w (bind m f) R.
Proof. unfold goes, bind. destruct (m w) as [[] w']; try done. intros HQ Hf. exact (Hf _ _ HQ). Qed.

Lemma goes_weaken {A} w (m : M A) (Q R : A -> World -> Prop) :
  goes w m Q -> (forall a w', Q a w' -> R a w') -> goes w m R.
Proof. unfold goes. destruct (m w) as [[] w']; try done. auto. Qed.

(** A root container with these registrations, that may lock its mutex. *)
Definition at_root (w : World) (k : Container) : Prop :=
  containers w !! root = Some k /\ kind k = Root /\ parent_ k = None /\ registrations_ k = regs /\
  (0%nat ∉ alive w) /\ (lazy_lock w = [] \/ exists l, lazy_lock w = thread w :: l).

(** What resolving beans of [l] changes. *)
Definition more (l : list tid) (k k' : Container) : Prop :=
  lifecycle_ k' = lifecycle_ k /\ built_ k' = built_ k /\ instances_ k ⊆ instances_ k' /\
  forall t, t ∉ l -> instances_ k' !! t = instances_ k !! t.

(** The objects are numbered in the order of their creation. *)
Definition ext (k : Container) (w w' : World) : Prop :=
  exists evs, trace w' = evs ++ trace w /\ created evs = seq (S (next_object w)) (length (created evs)) /\
    next_object w' = (next_object w + length (created evs))%nat /\ Forall (calm regs k) evs.

Lemma ext_same k w w' : trace w' = trace w -> next_object w' = next_object w -> ext k w w'.
Proof. intros E1 E2. exists []. split_and!; [done|done|by rewrite E2; cbn; lia|constructor]. Qed.

Lemma created_app a b : created (a ++ b) = created b ++ created a.
Proof. unfold created. by rewrite rev_app_distr, omap_app. Qed.

Lemma calm_more k k' e : instances_ k ⊆ instances_ k' -> calm regs k e -> calm regs k' e.
Proof.
  intros S [?|(t & r & p & a & H1 & H2 & H3 & H4)]; [by left|]. right. exists t, r, p, a.
  split_and!; [done|done|by eapply lookup_weaken|apply H4..].
Qed.

Lemma ext_trans k k' w w' w'' : instances_ k ⊆ instances_ k' -> ext k w w' -> ext k' w' w'' -> ext k' w w''.
Proof.
  intros S (e1 & T1 & C1 & N1 & F1) (e2 & T2 & C2 & N2 & F2). exists (e2 ++ e1). split_and!.
  - by rewrite T2, T1, app_assoc.
  - rewrite created_app, length_app, seq_app. f_equal; [done|]. rewrite N1 in C2. by rewrite Nat.add_succ_l.
  - rewrite created_app, length_app. lia.
  - apply Forall_app. split; [done|]. eapply Forall_impl; [exact F1|]. intros e. by apply calm_more.
Qed.

Lemma ext_next k w w' : ext k w w' -> (next_object w <= next_object w')%nat.
Proof. intros (evs & _ & _ & -> & _). lia. Qed.

Definition after (l : list tid) (w : World) (k : Container) (w' : World) : Prop :=
  exists k', at_root w' k' /\ more l k k' /\ ext k' w w' /\ lazy_lock w' = lazy_lock w /\ thread w' = thread w.

Lemma after_refl l w k : at_root w k -> after l w k w.
Proof. intros H. exists k. by split_and!; [..|apply ext_same| |]. Qed.

Lemma after_next l w k w' : after l w k w' -> (next_object w <= next_object w')%nat.
Proof. intros (k' & _ & _ & E & _). by eapply ext_next. Qed.

Lemma more_trans l k k' k'' : more l k k' -> more l k' k'' -> more l k k''.
Proof.
  intros (L1 & B1 & S1 & I1) (L2 & B2 & S2 & I2).
  split_and!; [congruence..|by etransitivity|]. intros t Ht. by rewrite I2, I1.
Qed.

Lemma after_trans l w k w' k' w'' :
  more l k k' -> ext k' w w' -> lazy_lock w' = lazy_lock w -> thread w' = thread w -> after l w' k' w'' -> after l w k w''.
Proof.
  intros Hm X E1 E2 (k'' & H & Hm' & X' & E3 & E4).
  exists k''. split_and!; [done|by eapply more_trans| |congruence..].
  eapply ext_trans; [|exact X|exact X']. apply Hm'.
Qed.

Lemma after_weaken l l' w k w' : l ⊆ l' -> after l w k w' -> after l' w k w'.
Proof.
  intros Hl (k' & Hr & (L & B & S & I) & X & E1 & E2). exists k'. split_and!; [done| |done|done|done].
  split_and!; [done..|]. intros t Ht. apply I. set_solver.
Qed.

(** The beans of [l] that must be there. *)
Definition avail (l : list tid) (k : Container) : Prop :=
  forall t, t ∈ l -> eager regs t = true -> is_Some (instances_ k !! t).

Lemma avail_more l l' k k' : more l' k k' -> avail l k -> avail l k'.
Proof. intros (_ & _ & Hs & _) Ha t Ht He. destruct (Ha t Ht He) as [p Hp]. exists p. by eapply lookup_weaken. Qed.

Lemma call_opt_goes t r p w k :
  at_root w k -> regs !! t = Some r -> is_lazy r = true -> instances_ k !! t = Some p ->
  goes w (call_opt hook_throws PostConstruct (post_construct_fn r) p) (fun _ w' => ext k w w' /\ at_root w' k /\
    lazy_lock w' = lazy_lock w /\ thread w' = thread w).
Proof.
  intros Hr Hreg Hlazy Hp.
  assert (forall fn, (forall a, a ∈ fn -> a ∈ default [] (post_construct_fn r)) -> forall w, at_root w k ->
    goes w (call_hook hook_throws PostConstruct fn p) (fun _ w' => ext k w w' /\ at_root w' k /\
      lazy_lock w' = lazy_lock w /\ thread w' = thread w)) as G.
  { clear w Hr. induction fn as [|a fn IH]; intros Hfn w Hr; [by split_and!; [apply ext_same|..]|]. cbn [call_hook].
    apply goes_bind with (Q := fun _ w' => w' = log (PostConstruct a p) w).
    - unfold goes, fire. destruct (decide _); [|done]. by rewrite Hquiet.
    - intros _ w' ->. eapply goes_weaken; [apply (IH ltac:(intros; apply Hfn; by right) (log (PostConstruct a p) w)); exact Hr|].
      intros _ w' (X & H). split; [|exact H]. eapply (ext_trans k); [done| |exact X].
      exists [PostConstruct a p]. split_and!; [done|done|cbn; lia|]. constructor; [|constructor]. right.
      exists t, r, p, a. split_and!; [done|done|done|apply Hfn; by left|done]. }
  destruct (post_construct_fn r) as [fn|]; [|by split_and!; [apply ext_same|..]]. by apply G.
Qed.

Lemma has_goes fuel t w k : at_root w k -> goes w (has (S fuel) root t) (fun _ w' => w' = w).
Proof.
  intros (Hk & _ & Hp & _). cbn [has]. unfold goes, bind, get. rewrite Hk, Hp.
  destruct (bool_decide _); [done|]. by destruct (bool_decide _).
Qed.

(** A factory that asks for what is there. *)
Lemma run_goes rs rq rn fuel deps l fresh f args ps w k :
  (forall t w k, at_root w k -> avail l k -> t ∈ deps -> resolvable regs t ->
     goes w (rs t) (fun p w' => p <> 0%nat /\ after l w k w')) ->
  at_root w k -> avail l k -> closed regs deps f -> yields fresh ps f -> (0%nat ∉ ps) ->
  forall n, (n <= next_object w)%nat -> (fresh = true -> Forall (fun p => (n < p <= next_object w)%nat) ps) ->
  goes w (run_factory rs rq rn (has (S fuel) root) f args)
    (fun p w' => p <> 0%nat /\ (fresh = true -> (n < p <= next_object w')%nat) /\ after l w k w').
Proof.
  intros Hrs. revert args ps w k.
  induction f as [kf IH|p|e|t kf IH|t q kf IH|t kf IH|t kf IH]; intros args ps w k Hr Ha Hc Hy H0 n Hn Hps;
    cbn [closed yields] in Hc, Hy; cbn [run_factory]; try done.
  - apply goes_bind with (Q := fun p w' => p = S (next_object w) /\ at_root w' k /\ ext k w w' /\
      next_object w' = S (next_object w) /\ lazy_lock w' = lazy_lock w /\ thread w' = thread w).
    + unfold goes, new_object. split_and!; [done| | |done|done|done].
      * destruct Hr as (? & ? & ? & ? & ? & ?). split_and!; [done..|set_solver|done].
      * exists [Created (S (next_object w)) args]. split_and!; [done|done|cbn; lia|].
        constructor; [|constructor]. left. eauto.
    + intros p w' (-> & Hr' & X & En & E1 & E2).
      eapply goes_weaken; [eapply (IH (S (next_object w))); [done|done|done|apply Hy|set_solver| |]|].
      * rewrite En. instantiate (1 := n). lia.
      * intros Hf. specialize (Hps Hf). rewrite En. constructor; [lia|].
        eapply Forall_impl; [exact Hps|]. cbn. lia.
      * intros q w'' (Hq & Hq' & Hw). split_and!; [done|done|]. by eapply after_trans; [..|exact Hw].
  - split_and!; [|intros Hf|by apply after_refl].
    + intros ->. done.
    + subst fresh. exact (proj1 (Forall_forall _ _) (Hps eq_refl) p Hy).
  - destruct Hc as (Ht & Hres & Hc).
    apply goes_bind with (Q := fun p w' => p <> 0%nat /\ after l w k w'); [by apply Hrs|].
    intros p w' [Hp Hw0]. pose proof (after_next _ _ _ _ Hw0) as Nw. destruct Hw0 as (k' & Hr' & Hm & X & E1 & E2).
    eapply goes_weaken; [eapply (IH p); [done|by eapply avail_more|done|apply Hy|destruct fresh; set_solver| |]|].
    + instantiate (1 := n). lia.
    + intros ->. eapply Forall_impl; [apply Hps; done|]. cbn. lia.
    + intros q w'' (Hq & Hq' & Hw). split_and!; [done|done|]. by eapply after_trans.
  - eapply goes_bind; [by eapply has_goes|]. intros b w' ->. by eapply IH.
Qed.

(** Caching a bean that is not there yet. *)
Lemma cache_goes t r p w k :
  at_root w k -> instances_ k !! t = None ->
  goes w (cache_instance root t r p) (fun _ w' => exists k', at_root w' k' /\ more [t] k k' /\
    instances_ k' !! t = Some p /\ trace w' = trace w /\ next_object w' = next_object w /\
    lazy_lock w' = lazy_lock w /\ thread w' = thread w).
Proof.
  intros (Hk & Hkind & Hpar & Hreg & H0 & Hlock) Hn. unfold cache_instance, goes, bind, update. rewrite Hk.
  assert (instances_ k ⊆ <[t := p]> (instances_ k)) as Hsub by by apply insert_subseteq.
  assert (forall u, u ∉ [t] -> <[t := p]> (instances_ k) !! u = instances_ k !! u) as Hoth.
  { intros u Hu. apply lookup_insert_ne. set_solver. }
  destruct (bool_decide _).
  - exists (set_instance t p k). refine (conj _ (conj _ (conj _ (conj eq_refl (conj eq_refl (conj eq_refl eq_refl)))))).
    + unfold at_root. cbn. by rewrite lookup_insert_eq.
    + by split_and!.
    + apply lookup_insert_eq.
  - cbn [containers set_containers]. rewrite lookup_insert_eq.
    eexists. refine (conj _ (conj _ (conj _ (conj eq_refl (conj eq_refl (conj eq_refl eq_refl)))))).
    + unfold at_root. cbn. rewrite lookup_insert_eq. by split_and!.
    + by split_and!.
    + apply lookup_insert_eq.
Qed.

Lemma update_goes f w k :
  at_root w k -> shape (f k) = shape k ->
  goes w (update root f) (fun _ w' => at_root w' (f k) /\ trace w' = trace w /\ next_object w' = next_object w /\
    lazy_lock w' = lazy_lock w /\ thread w' = thread w).
Proof.
  intros (Hk & Hkind & Hpar & Hreg & H0 & Hlock) Hs. unfold goes, update. rewrite Hk.
  unfold shape in Hs. injection Hs as E1 E2 E3. split_and!; [|done|done|done|done].
  unfold at_root. cbn. rewrite lookup_insert_eq. split_and!; congruence || done.
Qed.

(** The asynchronous path waits for the other thread, which finds the mutex free. *)
Lemma instantiate_goes l run r w k (fresh : bool) :
  at_root w k -> (is_async r = true -> lazy_lock w = []) ->
  (forall f w, (if is_async r then async_factory r else factory r) = Some f -> at_root w k ->
     goes w (run f) (fun p w' => p <> 0%nat /\ (fresh = true -> (next_object w < p <= next_object w')%nat) /\ after l w k w')) ->
  (exists f, (if is_async r then async_factory r else factory r) = Some f) ->
  goes w (instantiate late run r)
    (fun p w' => p <> 0%nat /\ (fresh = true -> (next_object w < p <= next_object w')%nat) /\ after l w k w').
Proof.
  intros Hr Hlock Hrun [f Hf]. unfold instantiate. destruct (is_async r).
  - unfold goes, run_async. rewrite Hf, Hlate, orb_true_r.
    assert (at_root (with_thread (S (thread w)) w) k) as Hr1.
    { destruct Hr as (? & ? & ? & ? & ? & ?). split_and!; [done..|]. left. by apply Hlock. }
    pose proof (Hrun f _ Hf Hr1) as H. unfold goes in H.
    destruct (run f _) as [[] w']; try done. destruct H as (Hp & Hq & k' & Hr' & Hm & X & E1 & E2). split_and!; [done|exact Hq|].
    exists k'. split_and!; [|done|exact X|done|done]. destruct Hr' as (? & ? & ? & ? & ? & ?).
    split_and!; [done..|]. left. cbn. rewrite E1. by apply Hlock.
  - unfold run_opt. rewrite Hf. by apply Hrun.
Qed.

Lemma eager_spec t r : regs !! t = Some r -> scope r <> Prototype -> eager regs t = negb (is_lazy r).
Proof. intros H Hs. unfold eager. rewrite H. by rewrite bool_decide_eq_false_2. Qed.

Lemma at_root_lock l w k :
  at_root w k -> l = [] \/ (exists l', l = thread w :: l') -> at_root (with_lock l w) k.
Proof. intros (? & ? & ? & ? & ? & ?) Hl. by split_and!. Qed.

Lemma locked_goes {A} l (m : M A) (P : A -> Prop) w k :
  at_root w k ->
  (forall w, at_root w k -> goes w m (fun p w' => P p /\ after l w k w')) ->
  goes w (locked m) (fun p w' => P p /\ after l w k w').
Proof.
  intros Hr Hm. pose proof Hr as (_ & _ & _ & _ & _ & Hlock).
  assert (forall u, goes w (fun w => let '(res, w') := m (with_lock (thread w :: u) w) in
                                     (res, with_lock (lazy_lock w) w')) (fun p w' => P p /\ after l w k w')) as H.
  { intros u. pose proof (Hm (with_lock (thread w :: u) w) ltac:(apply at_root_lock; [done|]; right; eauto)) as H.
    unfold goes in *. destruct (m _) as [[] w']; try done. destruct H as [HP (k' & Hr' & Hmore & X & E1 & E2)].
    split; [done|]. exists k'. split_and!; [|done|exact X|done|done]. apply at_root_lock; [done|].
    cbn in E2. rewrite E2. done. }
  unfold locked, goes in *. destruct Hlock as [E|[u E]]; rewrite E in *.
  - specialize (H []). destruct (m _) as [[] w']; done.
  - rewrite Nat.eqb_refl. specialize (H (thread w :: u)). destruct (m _) as [[] w']; done.
Qed.

(** The first use of a lazy bean. *)
Lemma lazy_goes l run t r w k :
  regs !! t = Some r -> is_lazy r = true -> is_async r = false -> instances_ k !! t = None -> t ∉ l ->
  at_root w k ->
  (forall f w, factory r = Some f -> at_root w k ->
     goes w (run f) (fun p w' => p <> 0%nat /\ (false = true -> (next_object w < p <= next_object w')%nat) /\ after l w k w')) ->
  (exists f, factory r = Some f) ->
  goes w (resolve_lazy_singleton hook_throws late run root t) (fun p w' => p <> 0%nat /\ after (t :: l) w k w').
Proof.
  intros Hreg Hlazy Hasync Hn Ht Hr Hrun Hf. apply locked_goes; [done|]. clear w Hr. intros w Hr.
  apply goes_bind with (Q := fun k0 w0 => k0 = k /\ w0 = w).
  { destruct Hr as (Hk & _). unfold goes, get. by rewrite Hk. }
  intros ? ? [-> ->]. pose proof Hr as (_ & _ & _ & Hregs & _). rewrite Hn, Hregs, Hreg, Hlazy. cbn [negb].
  eapply goes_bind; [apply (instantiate_goes l _ r w k false); [done|by rewrite Hasync|by rewrite Hasync..]|].
  intros p w1 (Hp & _ & k1 & Hr1 & Hm1 & X1 & El1 & Et1).
  eapply goes_bind.
  { apply cache_goes; [done|]. destruct Hm1 as (_ & _ & _ & Hi). by rewrite Hi. }
  intros ? w2 (k2 & Hr2 & Hm2 & Hi2 & T2 & N2 & El2 & Et2).
  eapply goes_bind; [by apply (call_opt_goes t)|]. intros ? w3 (X3 & Hr3 & El3 & Et3).
  eapply goes_bind; [by apply update_goes|]. intros ? w4 (Hr4 & T4 & N4 & El4 & Et4).
  split; [done|]. exists (push_owned p (destructor_fn r) k2).
  destruct Hm1 as (L1 & B1 & S1 & I1), Hm2 as (L2 & B2 & S2 & I2).
  split_and!; [done| | |congruence..].
  2:{ eapply (ext_trans k2); [done| |by apply ext_same]. eapply (ext_trans k2); [done| |exact X3].
      eapply (ext_trans k1); [done|exact X1|by apply ext_same]. }
  split_and!; cbn; [congruence..|by etransitivity|]. intros u Hu. rewrite I2, I1; [done|set_solver..].
Qed.

Lemma resolve_goes l fuel t w k :
  ordered regs l -> t ∈ l -> resolvable regs t -> (length l < fuel)%nat -> at_root w k -> avail l k ->
  goes w (resolve type_name hook_throws late fuel root t) (fun p w' => p <> 0%nat /\ after l w k w').
Proof.
  intros Ho. revert fuel t w k. induction Ho as [|x l Hx Hd Ho IH]; intros fuel t w k Ht Hres Hf Hr Ha.
  { by apply elem_of_nil in Ht. }
  assert (avail l k) as Hal by (intros u Hu; apply Ha; by right).
  cbn [length] in Hf. apply elem_of_cons in Ht as [->|Ht].
  2: { eapply goes_weaken; [by apply IH; [..|lia|done|done]|]. intros p w' [Hp Hw]. split; [done|].
       eapply after_weaken; [|done]. set_solver. }
  destruct fuel as [|fuel]; [lia|]. destruct Hres as (r & Hreg & Hscope).
  pose proof Hr as (Hk & Hkind & Hpar & Hregs & H0 & Hlock). cbn [resolve].
  apply goes_bind with (Q := fun k0 w0 => k0 = k /\ w0 = w); [unfold goes, get; by rewrite Hk|].
  intros ? ? [-> ->]. destruct (instances_ k !! x) as [p|] eqn:Ei.
  { unfold goes, deref. destruct (decide (p ∈ alive w)) as [Hp|]; [|done].
    split; [by intros ->|by apply after_refl]. }
  assert (is_lazy r = true) as Hlazy.
  { destruct (is_lazy r) eqn:E; [done|]. destruct (Ha x ltac:(left)) as [p Hp]; [|congruence].
    by rewrite (eager_spec x r), E. }
  pose proof (b_factory _ Hb x r Hreg Hscope) as Hfac.
  assert (is_async r = false) as Hasync by (destruct (is_async r); [by destruct Hfac; congruence|done]).
  rewrite Hasync in Hfac. destruct Hfac as (f & Hff & Hcl).
  rewrite Hregs, Hreg, Hlazy, bool_decide_eq_false_2 by done. cbn [andb negb].
  unfold resolve_lazy_impl. rewrite Hkind.
  apply goes_bind with (Q := fun p w' => p <> 0%nat /\ after (x :: l) w k w').
  - eapply (lazy_goes l _ x r); [done..| |by exists f]. intros f' w' [= <-]%(eq_trans (eq_sym Hff)) Hr'.
    destruct fuel as [|fuel]; [lia|].
    eapply goes_weaken; [eapply (run_goes _ _ _ fuel (dep_type_ids r) l (destructor_fn r) f [] []); [|done|done|done| | |reflexivity|by constructor]|].
    + intros t w1 k1 Hr1 Ha1 Ht Hres. apply IH; [|done|lia|done|done].
      apply Hd. exists r. destruct Hres as (r' & Hr'' & _). split_and!; [done|done|eauto].
    + destruct (b_wf _ Hb x r Hreg) as [Hw _]. by apply Hw.
    + by intros ?%elem_of_nil.
    + intros p w'' (Hp & _ & Hw). by split_and!.
  - intros p w' [Hp Hw]. rewrite (proj2 (Nat.eqb_neq p 0)) by done. unfold goes, deref. by destruct (decide _).
Qed.

(** ** The loop of [build] *)

(** The entry of a bean. *)
Definition entry_for (k : Container) (t : tid) (e : LifecycleEntry) : Prop :=
  exists r, regs !! t = Some r /\ instances_ k !! t = Some (instance e) /\
    on_post_construct e = post_construct_fn r /\ on_pre_destroy e = pre_destroy_fn r.

Definition listed (ts : list tid) (k : Container) : Prop :=
  Forall2 (entry_for k) (filter (fun t => eager regs t = true) ts) (lifecycle_ k).

(** After the types [ts]. *)
Record ledger (ts : list tid) (w : World) (k : Container) : Prop := {
  ld_created : created (trace w) = seq 1 (next_object w);
  ld_calm : Forall (calm regs k) (trace w);
  ld_sorted : StronglySorted lt (owned_instances regs ts k);
  ld_bound : Forall (fun p => (p <= next_object w)%nat) (owned_instances regs ts k)
}.

Definition built_so_far (ts : list tid) (w : World) (k : Container) : Prop :=
  at_root w k /\ lazy_lock w = [] /\ avail (rev ts) k /\ (forall u, u ∉ ts -> instances_ k !! u = None) /\
  listed ts k /\ built_ k = false /\ ledger ts w k.

Lemma owned_stable ts k k' : instances_ k ⊆ instances_ k' -> avail (rev ts) k ->
  owned_instances regs ts k' = owned_instances regs ts k.
Proof.
  intros S A. unfold owned_instances. assert (forall t, t ∈ ts -> (if owned_bean regs t then instances_ k' !! t else None) =
      (if owned_bean regs t then instances_ k !! t else None)) as H.
  { intros t Ht. destruct (owned_bean regs t) eqn:O; [|done].
    destruct (A t) as [p Hp]; [by rewrite elem_of_rev|unfold owned_bean in O; destruct (regs !! t); [by apply andb_prop in O as [? _]|done]|].
    rewrite Hp. by eapply lookup_weaken. }
  clear - H. induction ts as [|t ts IH]; [done|]. cbn. rewrite (H t) by left. rewrite IH; [done|]. intros u Hu. apply H. by right.
Qed.

Lemma ledger_ext ts w k w' k' : instances_ k ⊆ instances_ k' -> avail (rev ts) k -> ext k' w w' -> ledger ts w k -> ledger ts w' k'.
Proof.
  intros S A X [C F So B]. pose proof (ext_next _ _ _ X) as Nx. destruct X as (evs & T & Ce & N & Fe).
  pose proof (owned_stable ts k k' S A) as E.
  split; rewrite ?E; [|..].
  - rewrite T, created_app, C, N, seq_app, Ce, length_seq. done.
  - rewrite T. apply Forall_app. split; [done|]. eapply Forall_impl; [exact F|]. intros e. by apply calm_more.
  - done.
  - eapply Forall_impl; [exact B|]. cbn. lia.
Qed.

Lemma increasing_snoc (l : list nat) p : StronglySorted lt l -> Forall (fun q => (q < p)%nat) l -> StronglySorted lt (l ++ [p]).
Proof.
  induction 1 as [|q l S IH F]; intros B; cbn; [by repeat constructor|]. apply Forall_cons in B as [Hq B].
  constructor; [by apply IH|]. apply Forall_app. split; [done|]. by constructor.
Qed.

Lemma entries_more es k k' ts :
  instances_ k ⊆ instances_ k' -> Forall2 (entry_for k) ts es -> Forall2 (entry_for k') ts es.
Proof.
  intros Hs H. eapply Forall2_impl; [exact H|]. intros t e (r & Hr & Hi & Hp). exists r. split_and!; [done| |apply Hp..].
  by eapply lookup_weaken.
Qed.

Lemma built_skip ts t w k : eager regs t = false -> built_so_far ts w k -> built_so_far (ts ++ [t]) w k.
Proof.
  intros He (Hr & Hl & Ha & Hn & Hli & Hbu & Hle). split_and!; [done|done| | | |done|].
  - rewrite rev_unit. intros u [->|Hu]%elem_of_cons Heu; [congruence|by apply Ha].
  - intros u Hu. apply Hn. set_solver.
  - unfold listed. rewrite filter_app, filter_cons, He. cbn. by rewrite app_nil_r.
  - assert (owned_instances regs (ts ++ [t]) k = owned_instances regs ts k) as E.
    { unfold owned_instances. rewrite omap_app. cbn. unfold owned_bean. rewrite He. cbn. destruct (regs !! t); by rewrite app_nil_r. }
    destruct Hle. by split; rewrite ?E.
Qed.

Lemma built_add ts t r p w w' k k' :
  built_so_far ts w k -> regs !! t = Some r -> eager regs t = true ->
  at_root w' k' -> lazy_lock w' = [] -> instances_ k ⊆ instances_ k' -> instances_ k' !! t = Some p ->
  (forall u, u ∉ ts ++ [t] -> instances_ k' !! u = instances_ k !! u) -> built_ k' = built_ k ->
  ext k' w w' -> (destructor_fn r = true -> (next_object w < p <= next_object w')%nat) ->
  lifecycle_ k' = lifecycle_ k ++ [mkEntry p (post_construct_fn r) (pre_destroy_fn r)] ->
  built_so_far (ts ++ [t]) w' k'.
Proof.
  intros (Hr & Hl & Ha & Hn & Hli & Hbu & Hle) Hreg He Hr' Hl' Hs Hp Ho Hb' X Hfr Hlc.
  split_and!; [done|done| | | |congruence|].
  - rewrite rev_unit. intros u [->|Hu]%elem_of_cons Heu; [by exists p|].
    destruct (Ha u Hu Heu) as [q Hq]. exists q. by eapply lookup_weaken.
  - intros u Hu. rewrite Ho by done. apply Hn. set_solver.
  - unfold listed. rewrite Hlc, filter_app, filter_cons, He. cbn.
    apply Forall2_app; [by eapply entries_more|]. constructor; [|constructor]. by exists r.
  - pose proof (ld_bound _ _ _ Hle) as B0. destruct (ledger_ext ts w k w' k' Hs Ha X Hle) as [C F So B].
    assert (owned_instances regs (ts ++ [t]) k' = owned_instances regs ts k' ++ (if destructor_fn r then [p] else [])) as E.
    { unfold owned_instances. rewrite omap_app. f_equal. cbn. unfold owned_bean. rewrite Hreg, He. cbn.
      destruct (destructor_fn r); [by rewrite Hp|done]. }
    split; [done|done|..]; rewrite E; (destruct (destructor_fn r); [|by rewrite app_nil_r]).
    + apply increasing_snoc; [done|]. assert (owned_instances regs ts k' = owned_instances regs ts k) as ->
        by (by apply owned_stable). eapply Forall_impl; [exact B0|]. cbn. specialize (Hfr eq_refl). lia.
    + apply Forall_app. split; [done|]. constructor; [|constructor]. specialize (Hfr eq_refl). lia.
Qed.

Lemma build_bean_goes ts t fuel w k :
  ordered regs (t :: rev ts) -> is_Some (regs !! t) -> (length ts < fuel)%nat -> built_so_far ts w k ->
  goes w (build_bean type_name hook_throws late fuel root t) (fun _ w' => exists k', built_so_far (ts ++ [t]) w' k').
Proof.
  intros Ho [r Hreg] Hf Hst. pose proof Hst as (Hr & Hl & Ha & Hn & Hli & Hbu & Hle).
  pose proof Hr as (Hk & _ & _ & Hregs & _).
  assert (t ∉ rev ts /\ (forall d, edge regs t d -> d ∈ rev ts) /\ ordered regs (rev ts)) as (Hx & Hd & Ho')
    by by inversion Ho.
  unfold build_bean. apply goes_bind with (Q := fun k0 w0 => k0 = k /\ w0 = w); [unfold goes, get; by rewrite Hk|].
  intros ? ? [-> ->]. rewrite Hregs, Hreg. case_bool_decide as Hproto.
  { exists k. apply built_skip; [|done]. unfold eager. by rewrite Hreg, bool_decide_eq_true_2. }
  destruct (is_lazy r) eqn:Elazy.
  { exists k. apply built_skip; [|done]. by rewrite (eager_spec t r), Elazy. }
  assert (eager regs t = true) as He by by rewrite (eager_spec t r), Elazy.
  pose proof (b_factory _ Hb t r Hreg Hproto) as Hfac. destruct (b_wf _ Hb t r Hreg) as [Hw1 Hw2].
  assert (exists f, (if is_async r then async_factory r else factory r) = Some f /\
            closed regs (dep_type_ids r) f /\ yields (destructor_fn r) [] f) as (f & Hff & Hcl & Hy).
  { destruct (is_async r); [destruct Hfac as (_ & f & Hf' & Hc)|destruct Hfac as (f & Hf' & Hc)]; exists f; auto. }
  eapply goes_bind.
  { eapply (instantiate_goes (rev ts) _ r w k (destructor_fn r)); [done|done| |by exists f].
    intros f' w1 Hf' Hr1. rewrite Hff in Hf'. injection Hf' as <-. destruct fuel as [|fuel]; [lia|].
    eapply (run_goes _ _ _ fuel (dep_type_ids r) (rev ts) (destructor_fn r) f [] []);
      [|done|done|done|done|by intros ?%elem_of_nil|reflexivity|by constructor].
    intros u w2 k2 Hr2 Ha2 Hu Hres. apply resolve_goes; [done| |done|by rewrite length_rev|done|done].
    apply Hd. exists r. destruct Hres as (r' & Hr' & _). split_and!; [done|done|eauto]. }
  intros p w1 (Hp & Hfr & k1 & Hr1 & (L1 & B1 & S1 & I1) & X1 & El1 & Et1).
  assert (t ∉ ts) as Ht by by rewrite elem_of_rev in Hx.
  eapply goes_bind; [apply cache_goes; [done|]|].
  { rewrite I1 by by rewrite elem_of_rev. by apply Hn. }
  intros ? w2 (k2 & Hr2 & (L2 & B2 & S2 & I2) & Hi2 & T2 & N2 & El2 & Et2).
  eapply goes_bind; [by apply update_goes|]. intros ? w3 (Hr3 & T3 & N3 & El3 & Et3).
  eapply goes_weaken; [by apply update_goes|]. intros ? w4 (Hr4 & T4 & N4 & El4 & Et4).
  eexists. eapply (built_add ts t r p w w4 k); [done|done|done|exact Hr4|congruence|..]; cbn.
  - by etransitivity.
  - done.
  - intros u Hu. rewrite I2, I1; [done|rewrite elem_of_rev; set_solver|set_solver].
  - congruence.
  - eapply (ext_trans k1); [done|exact X1|]. apply ext_same; congruence.
  - intros Hd'. specialize (Hfr Hd'). rewrite N4, N3, N2. exact Hfr.
  - by rewrite L2, L1.
Qed.

Lemma ordered_app_r l1 l2 : ordered regs (l1 ++ l2) -> ordered regs l2.
Proof. induction l1 as [|x l1 IH]; [done|]. inversion 1; subst. auto. Qed.

Lemma build_beans_goes ts l fuel w k :
  ordered regs (rev (ts ++ l)) -> (forall t, t ∈ l -> is_Some (regs !! t)) -> (length (ts ++ l) < fuel)%nat ->
  built_so_far ts w k ->
  goes w (build_beans type_name hook_throws late fuel root l) (fun _ w' => exists k', built_so_far (ts ++ l) w' k').
Proof.
  revert ts w k. induction l as [|t l IH]; intros ts w k Ho Hall Hf Hst.
  { unfold goes. cbn. exists k. by rewrite app_nil_r. }
  cbn [build_beans]. rewrite length_app in Hf. cbn in Hf.
  assert (ts ++ t :: l = (ts ++ [t]) ++ l) as E by by rewrite <- app_assoc. rewrite E in *.
  eapply goes_bind; [apply build_bean_goes with (ts := ts) (k := k); [|apply Hall; left|lia|done]|].
  { rewrite rev_app_distr in Ho. apply ordered_app_r in Ho. by rewrite rev_unit in Ho. }
  intros ? w1 [k1 Hst1]. apply IH with k1; [done| |rewrite !length_app; cbn; lia|done].
  intros u Hu. apply Hall. by right.
Qed.

Lemma post_entries_goes es w :
  goes w (post_construct_entries hook_throws es) (fun _ w' => containers w' = containers w /\
    trace w' = rev (post_events es) ++ trace w /\ next_object w' = next_object w).
Proof.
  revert w. induction es as [|e es IH]; intros w; [done|]. cbn [post_construct_entries].
  apply goes_bind with (Q := fun _ w' => containers w' = containers w /\
    trace w' = rev (map (fun a => PostConstruct a (instance e)) (default [] (on_post_construct e))) ++ trace w /\
    next_object w' = next_object w).
  - destruct (on_post_construct e) as [fn|]; [|done]. cbn [call_opt from_option id].
    revert w. induction fn as [|a fn IHf]; intros w; [done|]. cbn [call_hook].
    apply goes_bind with (Q := fun _ w' => w' = log (PostConstruct a (instance e)) w).
    + unfold goes, fire. destruct (decide _); [|done]. by rewrite Hquiet.
    + intros _ w' ->. eapply goes_weaken; [apply IHf|]. intros _ w' (-> & -> & ->). split_and!; [done| |done].
      cbn. by rewrite <- app_assoc.
  - intros _ w' (E1 & E2 & E3). eapply goes_weaken; [apply IH|]. intros _ w'' (-> & -> & ->). split_and!; [done| |done].
    unfold post_events. cbn. by rewrite rev_app_distr, <- app_assoc, E2.
Qed.

End Build.


End DiBuild.
