(* ===== verification/DiScope.v ===== *)
(** * Scopes: beans of a request, and how the scopes go wrong

    A request container creates its own instance of a request-scoped bean and
    gives it back afterwards.  The lemmas at the end exhibit what the code does
    not do. *)

From S2P Require Import Prelude CxxString DiContainer DiGraphProps DiSafety DiLifetime DiBuild.

Module DiScope.
Import Di DiGraph DiSafety DiLifetime DiBuild.

Lemma bind_Val {A B} (m : M A) (f : A -> M B) w b w' :
  bind m f w = (Val b, w') -> exists a w1, m w = (Val a, w1) /\ f a w1 = (Val b, w').
Proof. unfold bind. destruct (m w) as [[] w1]; try done. eauto. Qed.

Lemma update_Val c f w w' :
  update c f w = (Val tt, w') ->
  exists k, containers w !! c = Some k /\ w' = set_containers (<[c := f k]> (containers w)) w.
Proof. unfold update. destruct (containers w !! c) as [k|]; [|done]. intros [= <-]. eauto. Qed.

Section Scope.
Variable type_name : tid -> bytes.
Variables initializable destroyable : tid -> bool.
Variable hook_throws : list Event -> Event -> option Exn.
Variable late : tid -> bool.
Variable umap_order : bool -> list tid -> list tid.

Abbreviation scoped := (resolve_scoped type_name initializable destroyable hook_throws late) (only parsing).

(** The first use of a bean of the scope. *)
Lemma scoped_new down sc fuel w c k t r p w' :
  Inv down w -> containers w !! c = Some k -> instances_ k !! t = None ->
  find_registration fuel c t w = (Val (Some r), w) -> scope r = sc -> destructor_fn r = true ->
  scoped sc fuel c t w = (Val p, w') ->
  Inv down w' /\ (next_object w < p)%nat /\ owns w' c p /\ scoped sc fuel c t w' = (Val p, w').
Proof.
  intros I Hk Hn Hf Hsc Hd E.
  pose proof (resolve_scoped_safe type_name initializable destroyable hook_throws late down sc fuel w c t
                I ltac:(eauto)) as Hs.
  unfold safe in Hs. rewrite E in Hs. destruct Hs as (I' & _ & [[Ha _] _]).
  unfold resolve_scoped in E. unfold bind at 1, get in E. rewrite Hk, Hn in E.
  unfold bind at 1 in E. rewrite Hf, bool_decide_eq_true_2 in E by done.
  apply bind_Val in E as (raw & w1 & Erun & E).
  assert (next_object w < raw)%nat as Hnew.
  { assert (wf_reg r) as [Hwf _].
    { pose proof (find_registration_safe down fuel c t w I ltac:(eauto)) as Hr. unfold safe in Hr.
      rewrite Hf in Hr. destruct Hr as (_ & _ & _ & Hr). by apply Hr. }
    unfold run_opt in Erun. destruct (factory r) as [f|]; [|done].
    pose proof (run_in_runs down type_name hook_throws late fuel c true f w I ltac:(eauto)
      ltac:(rewrite <- Hd; by apply Hwf)) as Hr.
    unfold safe in Hr. rewrite Erun in Hr. by destruct Hr as (_ & _ & _ & Hr & _). }
  apply bind_Val in E as (? & w2 & _ & E). apply bind_Val in E as (? & w3 & _ & E).
  apply bind_Val in E as ([] & w4 & (k4 & _ & ->)%update_Val & E).
  apply bind_Val in E as ([] & w5 & (k5 & Hk5 & ->)%update_Val & E).
  unfold deref in E. destruct (decide (raw ∈ _)) as [Hal|]; [|done]. injection E as <- <-.
  cbn [containers set_containers] in Hk5. rewrite lookup_insert_eq in Hk5. injection Hk5 as <-.
  split_and!; [done|done| |].
  - eexists. split; [apply lookup_insert_eq|]. rewrite owned_ptrs_push, Hd. set_solver.
  - unfold resolve_scoped. unfold bind at 1, get. cbn [containers set_containers].
    rewrite lookup_insert_eq. cbn [instances_ push_owned set_instance]. rewrite lookup_insert_eq.
    unfold deref. by rewrite decide_True.
Qed.

(** Two requests that use the same request-scoped bean get different objects,
    each owned by its own container, and each gets its own back when it asks again. *)
Theorem request_beans_isolated fuel regs ops c1 c2 k1 k2 t r p1 p2 w1 w2 :
  (forall t r, regs !! t = Some r -> wf_reg r) ->
  legal_run type_name initializable destroyable hook_throws late umap_order fuel false ops (start regs) ->
  let w := snd (run_ops type_name initializable destroyable hook_throws late umap_order fuel ops (start regs)) in
  scope r = Request -> destructor_fn r = true ->
  containers w !! c1 = Some k1 -> instances_ k1 !! t = None ->
  find_registration fuel c1 t w = (Val (Some r), w) ->
  request_resolve type_name initializable destroyable hook_throws late fuel c1 t w = (Val p1, w1) ->
  containers w1 !! c2 = Some k2 -> instances_ k2 !! t = None ->
  find_registration fuel c2 t w1 = (Val (Some r), w1) ->
  request_resolve type_name initializable destroyable hook_throws late fuel c2 t w1 = (Val p2, w2) ->
  p1 <> p2 /\ owns w1 c1 p1 /\ owns w2 c2 p2 /\
  request_resolve type_name initializable destroyable hook_throws late fuel c1 t w1 = (Val p1, w1) /\
  request_resolve type_name initializable destroyable hook_throws late fuel c2 t w2 = (Val p2, w2).
Proof.
  intros Hwf Hl w Hsc Hd Hk1 Hn1 Hf1 E1 Hk2 Hn2 Hf2 E2.
  destruct (run_ops_keeps type_name initializable destroyable hook_throws late umap_order fuel ops false (start regs)
              (start_Inv regs Hwf) ltac:(eexists; apply lookup_singleton_eq) Hl) as (down & _ & I & _). fold w in I.
  destruct (scoped_new down Request fuel w c1 k1 t r p1 w1 I Hk1 Hn1 Hf1 Hsc Hd E1) as (I1 & _ & Ho1 & Eq1).
  destruct (scoped_new down Request fuel w1 c2 k2 t r p2 w2 I1 Hk2 Hn2 Hf2 Hsc Hd E2) as (I2 & Hp2 & Ho2 & Eq2).
  split_and!; try done. intros ->.
  apply (I_owned _ _ I1), (I_alive _ _ I1) in Ho1. lia.
Qed.

End Scope.

(** ** Registration *)

(** What the registration functions need is that factories make new objects. *)
Definition wf_all (k : Container) : Prop := forall t r, registrations_ k !! t = Some r -> wf_reg r.

Lemma registration_wf r k : wf_reg r -> wf_all k -> wf_all (register r k).
Proof. intros Hr Hk t r'. cbn. intros [[_ <-]|[_ H]]%lookup_insert_Some; [done|by eapply Hk]. Qed.

Lemma alter_wf t f k : (forall r, wf_reg r -> wf_reg (f r)) -> wf_all k -> wf_all (alter_registration t f k).
Proof.
  intros Hf Hk. unfold alter_registration. destruct (registrations_ k !! t) as [r|] eqn:E; [|done].
  intros t' r'. cbn. intros [[_ <-]|[_ H]]%lookup_insert_Some; [|by eapply Hk]. eapply Hf, Hk, E.
Qed.

Lemma register_bean_wf tn ini des mw oa t f sc q pr lz o k :
  yields true [] f -> wf_all k -> wf_all (register_bean tn ini des mw oa t f sc q pr lz o k).
Proof. intros Hf. apply registration_wf. split; [by intros f' [= <-]|done]. Qed.

Lemma register_async_bean_wf tn t f ms q k :
  yields true [] f -> wf_all k -> wf_all (register_async_bean tn t f ms q k).
Proof. intros Hf. apply registration_wf. split; [done|by intros f' [= <-]]. Qed.

Lemma add_dependency_wf a b k : wf_all k -> wf_all (add_dependency a b k).
Proof. by apply alter_wf. Qed.

Lemma construct_yields args k l : (forall p, yields true (p :: l) (k p)) -> yields true l (construct args k).
Proof. intros Hk. induction args as [|a args IH]; [exact Hk|]. intros p. exact IH. Qed.

Lemma inject_values_yields cfg n obj l : obj ∈ l -> yields true l (inject_values cfg n obj).
Proof. intros Hl. induction n as [|n IH]; [done|]. intros [|]; [intros p; exact IH|exact IH]. Qed.

(** A constructor with its dependencies makes a new object. *)
Lemma autowire_wf tn ini des mw oa cfg t args n sc k :
  wf_all k -> wf_all (autowire tn ini des mw oa cfg t args n sc k).
Proof.
  intros Hk. unfold autowire.
  assert (wf_all (add_dependencies t args
    (register_bean tn ini des mw oa t (construct args (inject_values cfg n)) sc [] false false 0 k))) as H.
  { unfold add_dependencies. assert (wf_all (register_bean tn ini des mw oa t (construct args (inject_values cfg n)) sc [] false false 0 k)) as H1.
    { apply register_bean_wf; [|done]. apply construct_yields. intros p. apply inject_values_yields. left. }
    revert H1. generalize (register_bean tn ini des mw oa t (construct args (inject_values cfg n)) sc [] false false 0 k).
    induction args as [|a args IH]; [done|]. intros k1 H1. cbn. by apply IH, add_dependency_wf. }
  destruct (0 <? n)%nat; [by apply add_dependency_wf|done].
Qed.

(** An interface is bound to an object that someone else deletes. *)
Lemma bind_to_wf tn ini des mw oa i m k : wf_all k -> wf_all (bind_to tn ini des mw oa i m k).
Proof.
  intros Hk. unfold bind_to.
  destruct (match registrations_ k !! m with
            | Some r => (scope r, qualifier r, is_primary r, is_lazy r)
            | None => (Singleton, [], false, false) end) as [[[sc q] pr] lz].
  unfold add_dependency, alter_registration, register_bean, register. cbn. rewrite lookup_insert_eq. cbn.
  rewrite lookup_insert_eq. intros t r. cbn. rewrite !insert_insert_eq.
  intros [[_ <-]|[_ H]]%lookup_insert_Some; [|by eapply Hk].
  split; [|done]. intros f [= <-]. cbn. intros p. left.
Qed.

(** ** An application *)

(** [leaf], executable. *)
Definition leafb (w : World) (c : cid) : bool :=
  forallb (fun x => negb (bool_decide (parent_ x.2 = Some c))) (map_to_list (containers w)).

Lemma leafb_leaf w c : leafb w c = true -> leaf w c.
Proof.
  unfold leafb. rewrite forallb_forall. intros H c' k' Hk E.
  specialize (H (c', k')). rewrite <- list_elem_of_In, elem_of_map_to_list in H. specialize (H Hk).
  cbn in H. by rewrite bool_decide_eq_true_2 in H.
Qed.

Module App.

Definition tname (t : tid) : bytes := to_dec (Z.of_nat t).
Definition never (t : tid) : bool := false.
Definition no_throw (tr : list Event) (e : Event) : option Exn := None.
Definition order (b : bool) (l : list tid) : list tid := l.
(** Type 1 is [Initializable] and [Destroyable]. *)
Definition one (t : tid) : bool := (t =? 1)%nat.

Definition reg := register_bean tname one one never (fun _ => None).

Definition regs_of (k : Container) : gmap tid BeanRegistration := registrations_ k.
Definition blank : Container := empty_container Root None.

Definition new_bean : Factory := FNew FReturn.
Definition uses (t : tid) : Factory := FResolve t (fun _ => FNew FReturn).

Definition go (ops : list Op) (k : Container) : Res unit * World :=
  run_ops tname one one no_throw never order 10 ops (start (regs_of k)).

End App.
Import App.

(** A repository (1) and a service (2) that uses it, eager, and a request-scoped
    bean (3) that uses the service. *)
Definition app : Container :=
  add_dependency 3 2 (reg 3 (uses 2) Request [] false false 0
    (add_dependency 2 1 (reg 2 (uses 1) Singleton [] false false 0
      (reg 1 new_bean Singleton [] false false 0 blank)))).

Definition app_ops : list Op :=
  [OBuild; OMakeShard; OMakeRequest 1; OResolve 2 3; ODestroy 2; OMakeRequest 1; OResolve 2 3;
   ODestroy 2; ODestroy 1].

(** What an application saw. *)
Definition seen (ops : list Op) (k : Container) : Res unit * list Event :=
  let '(r, w) := go ops k in (r, rev (trace w)).

Lemma blank_wf : wf_all blank.
Proof. intros t r H. cbn in H. by rewrite lookup_empty in H. Qed.

Lemma uses_yields t : yields true [] (uses t).
Proof. intros p q. left. Qed.

Lemma app_wf : wf_all app.
Proof.
  unfold app, reg.
  repeat first [apply add_dependency_wf | apply register_bean_wf; [apply uses_yields || (intros p; left)|] | apply blank_wf].
Qed.

Lemma app_legal : legal_run tname one one no_throw never order 10 false app_ops (start (regs_of app)).
Proof.
  repeat split; try (apply leafb_leaf); vm_compute; try reflexivity; try discriminate; eauto.
Qed.

Lemma app_seen : seen (app_ops ++ [OShutdown]) app =
  (Val tt, [Created 1 []; Created 2 [1%nat]; Created 3 [2%nat]; PostConstruct InterfaceHook 1;
            Created 4 [2%nat]; Destroyed 4; Created 5 [2%nat]; Destroyed 5;
            PreDestroy InterfaceHook 1; Destroyed 3; Destroyed 2; Destroyed 1]).
Proof. vm_compute. reflexivity. Qed.

(** *** Defects *)

(** A request-scoped bean that another one asks its container for is not the
    request's: [ContainerBase::resolve] finds the instance that [build] made in the
    root, and all requests share it. *)
Lemma nested_request_bean_shared :
  seen [OBuild; OMakeShard; OMakeRequest 1; OMakeRequest 1; OResolve 2 3; OResolve 3 3]
    (add_dependency 3 2 (reg 3 (uses 2) Request [] false false 0 (reg 2 new_bean Request [] false false 0 blank)))
  = (Val tt, [Created 1 []; Created 2 [1%nat]; Created 3 [1%nat]; Created 4 [1%nat]]).
Proof. vm_compute. reflexivity. Qed.

(** A [Destroyable] request-scoped bean of the root is told twice. *)
Lemma request_pre_destroy_twice :
  seen [OBuild; OMakeShard; OMakeRequest 1; OResolve 2 1; ODestroy 2] (reg 1 new_bean Request [] false true 0 blank)
  = (Val tt, [Created 1 []; PostConstruct InterfaceHook 1; PreDestroy InterfaceHook 1;
              PreDestroy InterfaceHook 1; Destroyed 1]).
Proof. vm_compute. reflexivity. Qed.

(** A lazy bean is deleted without its [pre_destroy]. *)
Lemma lazy_pre_destroy_skipped :
  seen [OBuild; OResolve 0 1; OShutdown] (reg 1 new_bean Singleton [] false true 0 blank)
  = (Val tt, [Created 1 []; PostConstruct InterfaceHook 1; Destroyed 1]).
Proof. vm_compute. reflexivity. Qed.

(** [shutdown] keeps the entries of the hooks: a second [build] calls them on the
    beans that it deleted. *)
Lemma rebuild_after_shutdown_undefined :
  fst (seen [OBuild; OShutdown; OBuild] (reg 1 new_bean Singleton [] false false 0 blank)) = Undefined.
Proof. vm_compute. reflexivity. Qed.

(** The beans of a [build] that failed are never deleted. *)
Lemma failed_build_leaks :
  let '(_, w) := go [OBuild] (add_dependency 2 1 (reg 2 (FThrow (UserExn 7)) Singleton [] false false 0
                                (reg 1 new_bean Singleton [] false false 0 blank))) in
  elements (alive (snd (destroy_root no_throw root w))) = [1%nat].
Proof. vm_compute. reflexivity. Qed.

(** An interface bound to a prototype cannot be resolved, in either way. *)
Lemma bound_prototype_unresolvable :
  let '(_, w) := go [OBuild] (bind_to tname one one never (fun _ => None) 2 1
                                (reg 1 new_bean Prototype [] false false 0 blank)) in
  fst (resolve_new tname no_throw never 10 root 2 w) = Thrown (not_found tname 1) /\
  fst (resolve tname no_throw never 10 root 2 w) = Thrown (not_found tname 2).
Proof. vm_compute. split; reflexivity. Qed.

(** The first use of a lazy bean holds the mutex while it waits for the thread of an
    asynchronous factory, which needs it for another lazy bean. *)
Lemma lazy_async_deadlock :
  fst (seen [OBuild; OResolve 0 3]
         (builder_lazy 3 (register_async_bean tname 3 (uses 2) 1000 []
            (reg 2 new_bean Singleton [] false true 0 blank)))) = Deadlock.
Proof. vm_compute. reflexivity. Qed.

(** A shard creates its beans in the order of a hash table, not of their
    dependencies. *)
Lemma shard_order_unspecified :
  let '(_, w) := go [OBuild; OMakeShard; ORegister 1 1 new_bean; ORegister 1 2 (uses 1)] blank in
  fst (initialize tname no_throw never (fun _ _ => [1%nat; 2%nat]) 10 1 w) = Val tt /\
  fst (initialize tname no_throw never (fun _ _ => [2%nat; 1%nat]) 10 1 w) = Thrown (not_found tname 1).
Proof. vm_compute. split; reflexivity. Qed.

(** ** Instances of the theorems *)

Lemma containers_memory_safe_witness :
  let '(res, w) := go app_ops app in
  res <> Undefined /\ NoDup (destroyed (trace w)).
Proof.
  pose proof (containers_memory_safe tname one one no_throw never order 10 (regs_of app) app_ops app_wf app_legal) as H.
  unfold go. destruct (run_ops _ _ _ _ _ _ _ _ _) as [res w]. destruct H as (H1 & H2 & _). by split.
Defined.

Lemma shutdown_complete_witness :
  exists w', shutdown no_throw root (snd (go app_ops app)) = (Val tt, w') /\
    alive w' = alive (snd (go app_ops app)) ∖ {[1%nat; 2%nat; 3%nat]}.
Proof.
  destruct (shutdown_complete tname one one no_throw never order 10 (regs_of app) app_ops app_wf app_legal
    (default blank (containers (snd (go app_ops app)) !! root))) as (hooks & w' & E & _ & _ & _ & A & _).
  - vm_compute. reflexivity.
  - vm_compute. reflexivity.
  - apply leafb_leaf. vm_compute. reflexivity.
  - exists w'. split; [exact E|]. unfold go. rewrite A. vm_compute. reflexivity.
Defined.

(** The two requests of the application. *)
Definition two_requests : list Op := [OBuild; OMakeShard; OMakeRequest 1; OMakeRequest 1].

Lemma two_requests_legal :
  legal_run tname one one no_throw never order 10 false two_requests (start (regs_of app)).
Proof. repeat split; vm_compute; try reflexivity; eauto. Qed.

Definition first_request : World := snd (request_resolve tname one one no_throw never 10 2 3 (snd (go two_requests app))).
Definition second_request : World := snd (request_resolve tname one one no_throw never 10 3 3 first_request).

Lemma request_beans_isolated_witness : 4%nat <> 5%nat /\ owns first_request 2 4 /\ owns second_request 3 5.
Proof.
  destruct (request_beans_isolated tname one one no_throw never order 10 (regs_of app) two_requests 2 3
    (default blank (containers (snd (go two_requests app)) !! 2%nat))
    (default blank (containers first_request !! 3%nat)) 3
    (default (mkReg 0 [] [] Singleton false false false 0 None None None None false [] 0 false) (regs_of app !! 3%nat))
    4 5 first_request second_request app_wf two_requests_legal) as (H1 & H2 & H3 & _);
    [vm_compute; reflexivity..|]. by split_and!.
Defined.

(** Its three registrations. *)
Lemma app_cases t r : regs_of app !! t = Some r ->
  (t = 1%nat /\ dep_type_ids r = [] /\ factory r = Some new_bean \/
   t = 2%nat /\ dep_type_ids r = [1%nat] /\ factory r = Some (uses 1) \/
   t = 3%nat /\ dep_type_ids r = [2%nat] /\ factory r = Some (uses 2)) /\
  is_async r = false /\ scope r <> Prototype.
Proof.
  rewrite <- elem_of_map_to_list, list_elem_of_In. vm_compute.
  intros [[= <- <-]|[[= <- <-]|[[= <- <-]|[]]]]; cbn; (split; [tauto|done]).
Qed.

Lemma app_resolvable t : t = 1%nat \/ t = 2%nat -> resolvable (regs_of app) t.
Proof. intros [->| ->]; (eexists; split; [vm_compute; reflexivity|done]). Qed.

Lemma app_buildable : buildable (regs_of app).
Proof.
  split.
  - apply ordered_all_acyclic with [3%nat; 2%nat; 1%nat].
    + repeat match goal with
             | |- ordered _ (_ :: _) => apply ordered_cons
             | |- ordered _ [] => apply ordered_nil
             end; try set_solver;
        (intros d (r & Hr & Hd & _); apply app_cases in Hr as [[(? & Hl & _)|[(? & Hl & _)|(? & Hl & _)]] _];
         try done; rewrite Hl in Hd; set_solver).
    + intros t [r Hr]. apply app_cases in Hr as [[(-> & _)|[(-> & _)|(-> & _)]] _]; set_solver.
  - intros t r Hr. apply app_cases in Hr as [[(_ & -> & _)|[(_ & -> & _)|(_ & -> & _)]] _]; unfold len; cbn; lia.
  - apply app_wf.
  - intros t r Hr _. apply app_cases in Hr as [Hr [-> _]].
    destruct Hr as [(_ & -> & ->)|[(_ & -> & ->)|(_ & -> & ->)]]; eexists; (split; [done|]).
    + intros p. exact I.
    + split_and!; [set_solver|apply app_resolvable; auto|]. intros p q. exact I.
    + split_and!; [set_solver|apply app_resolvable; auto|]. intros p q. exact I.
Qed.


End DiScope.
