(* ===== verification/StaticResource.v ===== *)
(** * Static resources

    [http/static_resource.*]: the lexical part of [std::filesystem::path] the
    code uses, on a POSIX system, the byte-range parser and
    [serve_static_resource].  What the operating system answers (canonical
    paths, file attributes and contents) is the record [FileSystem]; a call
    that throws is [None]. *)

From S2P Require Import Prelude CxxString HttpMessage.

(** ** [std::filesystem::path], lexically

    A path is its pathname. *)

Module Path.

Definition slash : byte := "/"%char.
Definition dot : bytes := bs ".".
Definition dot_dot : bytes := bs "..".

Definition is_absolute (p : bytes) : bool := starts_with [slash] p.

(** The file names between the separators; adjacent separators count once. *)
Definition filenames (p : bytes) : list bytes := filter (fun s => s <> []) (split_on slash p).

(** The elements [begin()] to [end()] visits: the root directory, the file
    names, and an empty element when a separator follows the last one. *)
Definition elements (p : bytes) : list bytes :=
  (if is_absolute p then [[slash]] else []) ++ filenames p ++
  (if negb (bool_decide (filenames p = [])) && ends_with [slash] p then [[]] else []).

(** [has_filename]: the pathname does not end in a separator. *)
Definition has_filename (p : bytes) : bool :=
  negb (bool_decide (p = [])) && negb (ends_with [slash] p).

(** [a / b]: an absolute [b] replaces [a]. *)
Definition append (a b : bytes) : bytes :=
  if is_absolute b then b
  else (if has_filename a then a ++ [slash] else a) ++ b.

(** The common prefix removed from two sequences: [std::mismatch]. *)
Fixpoint mismatch (a b : list bytes) : list bytes * list bytes :=
  match a, b with
  | x :: a', y :: b' => if bool_decide (x = y) then mismatch a' b' else (a, b)
  | _, _ => (a, b)
  end.

(** The number of directories the rest of the base names. *)
Fixpoint depth (l : list bytes) : Z :=
  match l with
  | [] => 0
  | e :: r =>
      (if bool_decide (e = dot_dot) then -1
       else if bool_decide (e = []) || bool_decide (e = dot) then 0 else 1) + depth r
  end.

(** [p.lexically_relative(base)]; the empty path when there is no such path. *)
Definition lexically_relative (p base : bytes) : bytes :=
  if negb (Bool.eqb (is_absolute p) (is_absolute base)) then []
  else
    let '(a, b) := mismatch (elements p) (elements base) in
    if bool_decide (a = []) && bool_decide (b = []) then dot
    else
      let n := depth b in
      if n <? 0 then []
      else if (n =? 0) && (bool_decide (a = []) || bool_decide (head a = Some [])) then dot
      else for_each append (repeat dot_dot (Z.to_nat n) ++ a) [].

(** [p.extension()]: from the last dot of the file name, unless that is its
    first character. *)
Definition filename (p : bytes) : bytes :=
  match last (elements p) with
  | Some e => if bool_decide (e = [slash]) then [] else e
  | None => []
  end.

Definition extension (p : bytes) : bytes :=
  let f := filename p in
  if bool_decide (f = dot) || bool_decide (f = dot_dot) then []
  else match rfind_char "."%char f with
       | None | Some O => []
       | Some i => drop i f
       end.

End Path.

Module StaticResource.
Import Path.

(** ** The file system *)

Record FileSystem := mkFs {
  canonical : bytes -> option bytes;
  weakly_canonical : bytes -> option bytes;
  is_regular_file : bytes -> option bool;
  file_size : bytes -> option Z;
  last_write_time : bytes -> option Z;
  (** The contents an [std::ifstream] reads; [None] when it does not open. *)
  read_file : bytes -> option bytes
}.

(** ** Helpers of the source *)

Definition mime_type (path : bytes) : bytes :=
  let e := extension path in
  let ext s := bool_decide (e = bs s) in
  if ext ".html" || ext ".htm" then bs "text/html; charset=utf-8"
  else if ext ".css" then bs "text/css; charset=utf-8"
  else if ext ".js" || ext ".mjs" then bs "application/javascript; charset=utf-8"
  else if ext ".json" then bs "application/json"
  else if ext ".png" then bs "image/png"
  else if ext ".jpg" || ext ".jpeg" then bs "image/jpeg"
  else if ext ".gif" then bs "image/gif"
  else if ext ".svg" then bs "image/svg+xml"
  else if ext ".ico" then bs "image/x-icon"
  else if ext ".txt" then bs "text/plain; charset=utf-8"
  else if ext ".pdf" then bs "application/pdf"
  else if ext ".xml" then bs "application/xml"
  else bs "application/octet-stream".

Definition parse_size (value : bytes) : option Z :=
  match value with
  | [] => None
  | _ =>
      match from_chars_u64 value with
      | inr (parsed, []) => Some parsed
      | _ => None
      end
  end.

Record ByteRange := mkRange { first : Z; last : Z }.

Inductive RangeParse := Absent | Valid (r : ByteRange) | Invalid.

Definition parse_range (value : bytes) (file_size : Z) : RangeParse :=
  match value with
  | [] => Absent
  | _ =>
      let prefix := bs "bytes=" in
      if negb (starts_with prefix value) || contains_char ","%char value || (file_size =? 0)
      then Invalid
      else
        let value := drop (length prefix) value in
        match find_char "-"%char value with
        | None => Invalid
        | Some dash =>
            match find_char_from "-"%char (dash + 1) value with
            | Some _ => Invalid
            | None =>
                let start := take dash value in
                let end_ := drop (dash + 1) value in
                match start with
                | [] =>
                    match parse_size end_ with
                    | None => Invalid
                    | Some suffix =>
                        if suffix =? 0 then Invalid
                        else
                          let suffix := Z.min suffix file_size in
                          Valid (mkRange (wrap64 (file_size - suffix)) (wrap64 (file_size - 1)))
                    end
                | _ =>
                    match parse_size start with
                    | None => Invalid
                    | Some first =>
                        if file_size <=? first then Invalid
                        else
                          match end_ with
                          | [] => Valid (mkRange first (wrap64 (file_size - 1)))
                          | _ =>
                              match parse_size end_ with
                              | None => Invalid
                              | Some last =>
                                  if last <? first then Invalid
                                  else Valid (mkRange first (Z.min last (wrap64 (file_size - 1))))
                              end
                          end
                    end
                end
            end
        end
  end.

Definition is_below (base target : bytes) : bool :=
  let relative := lexically_relative target base in
  if bool_decide (relative = []) then false
  else forallb (fun component => negb (bool_decide (component = dot_dot))) (elements relative).

Definition dquote : byte := byte_of_Z 34.

Definition etag_for (size modified : Z) : bytes :=
  [dquote] ++ to_dec size ++ bs "-" ++ to_dec_signed modified ++ [dquote].

(** ** [serve_static_resource] *)

Section Serve.
Context (fs : FileSystem).

(** The path of the request, without its query; [None] when it is refused. *)
Definition resource_path (request : Request.t) : option bytes :=
  let p := Request.path_ request in
  let p := match find_char "?"%char p with Some q => take q p | None => p end in
  let p := if bool_decide (p = []) || bool_decide (p = bs "/") then bs "/index.html" else p in
  if negb (starts_with (bs "/") p) || contains_char "\"%char p || contains_char (byte_of_Z 0) p
  then None else Some p.

(** The file the request names. *)
Definition resolve (root : bytes) (request : Request.t) : option bytes :=
  if bool_decide (root = []) then None
  else
    base ← canonical fs root;
    request_path ← resource_path request;
    target ← weakly_canonical fs (append base (drop 1 request_path));
    if is_below base target then
      regular ← is_regular_file fs target;
      if regular : bool then Some target else None
    else None.

Definition not_modified (request : Request.t) (etag : bytes) : bool :=
  match Request.header (bs "if-none-match") request with
  | Some v => bool_decide (v = etag) || bool_decide (v = bs "*")
  | None => false
  end.

(** The bytes the stream reads from [first]; [None] when they are too few. *)
Definition read_range (target : bytes) (first body_size : Z) : option bytes :=
  contents ← read_file fs target;
  let body := take (Z.to_nat body_size) (drop (Z.to_nat first) contents) in
  if negb (len body =? body_size) then None else Some body.

Definition respond (target : bytes) (size : Z) (etag : bytes) (request : Request.t)
    (response : Response.t) (head_only : bool) : option Response.t :=
  let whole := mkRange 0 (if size =? 0 then 0 else wrap64 (size - 1)) in
  let range_status := match Request.header (bs "range") request with
                      | Some v => parse_range v size
                      | None => Absent
                      end in
  match range_status with
  | Invalid =>
      Some (Response.header (bs "accept-ranges") (bs "bytes")
             (Response.header (bs "content-range") (bs "bytes */" ++ to_dec size)
               (Response.status 416 response)))
  | _ =>
      let range := match range_status with Valid r => r | _ => whole end in
      let partial := match range_status with Valid _ => true | _ => false end in
      let body_size := if partial : bool then wrap64 (last range - first range + 1) else size in
      body ← (if head_only then Some [] else read_range target (first range) body_size);
      let res := Response.header (bs "accept-ranges") (bs "bytes")
          (Response.header (bs "cache-control") (bs "public, max-age=3600")
            (Response.header (bs "etag") etag
              (Response.header (bs "content-length") (to_dec body_size)
                (Response.header (bs "content-type") (mime_type target)
                  (Response.status (if partial then 206 else 200) response))))) in
      let res := if partial
        then Response.header (bs "content-range")
               (bs "bytes " ++ to_dec (first range) ++ bs "-" ++ to_dec (last range) ++
                bs "/" ++ to_dec size) res
        else res in
      Some (if head_only then res else Response.body body res)
  end.

(** [true] with the response it wrote, or [false]: an early return or an
    exception, before the response is touched. *)
Definition serve_static_resource (root : bytes) (request : Request.t) (response : Response.t)
    (head_only : bool) : bool * Response.t :=
  match
    target ← resolve root request;
    size ← file_size fs target;
    modified ← last_write_time fs target;
    let etag := etag_for size modified in
    if not_modified request etag then
      Some (Response.header (bs "accept-ranges") (bs "bytes")
             (Response.header (bs "cache-control") (bs "public, max-age=3600")
               (Response.header (bs "etag") etag (Response.status 304 response))))
    else respond target size etag request response head_only
  with
  | Some res => (true, res)
  | None => (false, response)
  end.

End Serve.

(** ** A concrete tree, for witnesses: regular files, no symbolic links *)

(** The normal form of an absolute path. *)
Fixpoint normalize (acc l : list bytes) : list bytes :=
  match l with
  | [] => rev acc
  | e :: r =>
      if bool_decide (e = dot) || bool_decide (e = []) then normalize acc r
      else if bool_decide (e = dot_dot) then normalize (tail acc) r
      else normalize (e :: acc) r
  end.

Definition normal_path (p : bytes) : bytes :=
  slash :: join_with [slash] (normalize [] (filenames p)).

Definition tree_fs (files : list (bytes * bytes)) : FileSystem :=
  let find p := snd <$> List.find (fun f => bool_decide (fst f = p)) files in
  mkFs (fun p => Some (normal_path p)) (fun p => Some (normal_path p))
       (fun p => Some (bool_decide (is_Some (find p))))
       (fun p => len <$> find p) (fun p => Some 1700000000) find.

End StaticResource.
