(* ===== verification/StaticResourceProps.v ===== *)
(** * Static resources: confinement and byte ranges

    What [is_below] decides on the paths the system returns, the byte-range
    parser against the grammar of RFC 7233, and the two halves of
    [serve_static_resource]: what it serves lies below the root and is exactly
    the announced part of the file, and a file below the root is served. *)

From S2P Require Import Prelude CxxString HttpMessage StaticResource.
Import Path StaticResource.

(** ** What the code relies on of the system *)

Module StaticSpec.

(** Absolute, without dot and dot-dot elements. *)
Definition normal (p : bytes) : Prop :=
  is_absolute p = true /\ dot ∉ elements p /\ dot_dot ∉ elements p.

Class FsLaws (fs : FileSystem) : Prop := {
  canonical_normal : forall r b, canonical fs r = Some b -> normal b /\ [] ∉ elements b;
  weakly_canonical_normal : forall p t,
    is_absolute p = true -> weakly_canonical fs p = Some t -> normal t;
  file_size_range : forall p n, file_size fs p = Some n -> 0 <= n < 2 ^ 63
}.

(** ** Elements of a path *)

Lemma split_on_app sep a b : split_on sep (a ++ sep :: b) = split_on sep a ++ split_on sep b.
Proof.
  induction a as [|c a IH]; cbn; [by rewrite bool_decide_true|].
  rewrite IH. case_bool_decide; [done|].
  destruct (split_on_cons sep a) as (p & ps & ->). done.
Qed.

Lemma split_on_none sep s : sep ∉ s -> split_on sep s = [s].
Proof.
  induction s as [|c s IH]; cbn; intros H; [done|].
  apply not_elem_of_cons in H as [Hc H]. rewrite IH by done.
  by rewrite bool_decide_false by congruence.
Qed.

Lemma ends_with_snoc p c : ends_with [c] (p ++ [c]) = true.
Proof. apply ends_with_spec. by exists p. Qed.

Lemma ends_with_not_elem c s : c ∉ s -> ends_with [c] s = false.
Proof.
  intros H. apply not_true_is_false. intros (r & ->)%ends_with_spec. set_solver.
Qed.

Lemma ends_with_app_tail c p s : s <> [] -> ends_with [c] (p ++ s) = ends_with [c] s.
Proof.
  intros Hs. destruct (exists_last Hs) as (s' & x & ->).
  unfold ends_with. rewrite !rev_app_distr. done.
Qed.

(** An ordinary file name. *)
Definition plain (e : bytes) : Prop := e <> [] /\ slash ∉ e.

Lemma filenames_plain p : Forall plain (filenames p).
Proof.
  unfold filenames. apply Forall_forall. intros e [He Hin]%list_elem_of_filter.
  split; [done|]. eapply Forall_forall in Hin; [|apply split_on_no_sep]. done.
Qed.

Lemma filenames_app a b : filenames (a ++ slash :: b) = filenames a ++ filenames b.
Proof. unfold filenames. by rewrite split_on_app, filter_app. Qed.

Lemma filenames_plain_self e : plain e -> filenames e = [e].
Proof.
  intros [He Hs]. unfold filenames. rewrite split_on_none by done.
  rewrite filter_cons_True by done. by rewrite filter_nil.
Qed.

Lemma filenames_append p e : plain e -> filenames (p ++ slash :: e) = filenames p ++ [e].
Proof. intros H. by rewrite filenames_app, (filenames_plain_self e). Qed.

Lemma filenames_slash p : filenames (p ++ [slash]) = filenames p.
Proof. rewrite filenames_app. apply app_nil_r. Qed.

(** A relative path whose elements are [l]: the state of the loop that appends
    the elements of a relative path. *)
Definition spelled (p : bytes) (l : list bytes) : Prop :=
  is_absolute p = false /\ has_filename p = true /\ filenames p = l /\ l <> [].

Lemma plain_relative e : plain e -> is_absolute e = false.
Proof.
  intros [He Hs]. destruct e as [|c e]; [done|]. unfold is_absolute. cbn.
  rewrite bool_decide_false by set_solver. done.
Qed.

Lemma spelled_plain e : plain e -> spelled e [e].
Proof.
  intros H. split_and!; [by apply plain_relative| |by apply filenames_plain_self|done].
  destruct H as [He Hs]. unfold has_filename. rewrite bool_decide_false by done.
  by rewrite ends_with_not_elem.
Qed.

Lemma is_absolute_app p s : p <> [] -> is_absolute (p ++ s) = is_absolute p.
Proof. by destruct p. Qed.

Lemma spelled_nonempty p l : spelled p l -> p <> [].
Proof. intros (_ & H & _) ->. done. Qed.

Lemma spelled_append p l e : spelled p l -> plain e -> spelled (append p e) (l ++ [e]).
Proof.
  intros S H. pose proof (spelled_nonempty _ _ S) as Hp. destruct S as (A & F & <- & N).
  unfold append. rewrite plain_relative, F, <- app_assoc by done. cbn.
  split_and!; [by rewrite is_absolute_app| |by apply filenames_append|by destruct (filenames p)].
  unfold has_filename. rewrite bool_decide_false by (by destruct p).
  rewrite (ends_with_app_tail slash p (slash :: e)) by done.
  change (slash :: e) with ([slash] ++ e). rewrite ends_with_app_tail by apply H.
  by rewrite ends_with_not_elem by apply H.
Qed.

Lemma spelled_appends l : Forall plain l -> forall p l0, spelled p l0 ->
  spelled (for_each append l p) (l0 ++ l).
Proof.
  induction 1 as [|e l He Hl IH]; intros p l0 S; cbn; [by rewrite app_nil_r|].
  rewrite (app_assoc l0 [e] l : l0 ++ e :: l = _). by apply IH, spelled_append.
Qed.

Lemma spelled_elements p l : spelled p l -> elements p = l.
Proof.
  intros S. pose proof (spelled_nonempty _ _ S) as Hp. destruct S as (A & F & <- & N).
  unfold elements. rewrite A. unfold has_filename in F. to_prop.
  rewrite H0, andb_false_r. by rewrite app_nil_r.
Qed.

Lemma spelled_trailing p l : spelled p l -> elements (append p []) = l ++ [[]].
Proof.
  intros S. pose proof (spelled_nonempty _ _ S) as Hp. destruct S as (A & F & <- & N).
  unfold append. cbn [is_absolute starts_with slash]. rewrite F, app_nil_r.
  unfold elements. rewrite is_absolute_app, A, filenames_slash, ends_with_snoc by done.
  by rewrite bool_decide_false.
Qed.

(** The shapes of the elements of an absolute path. *)
Lemma elements_absolute p : is_absolute p = true -> exists l t,
  elements p = [slash] :: l ++ t /\ Forall plain l /\ (t = [] \/ t = [[]] /\ l <> []).
Proof.
  intros A. unfold elements. rewrite A. exists (filenames p). eexists. split; [done|].
  split; [apply filenames_plain|]. case_bool_decide; [by left|]. case_match; auto.
Qed.

(** ** [is_below] *)

Lemma mismatch_spec a b : exists c, a = c ++ fst (mismatch a b) /\ b = c ++ snd (mismatch a b) /\
  (fst (mismatch a b) = [] \/ snd (mismatch a b) = [] \/
   head (fst (mismatch a b)) <> head (snd (mismatch a b))).
Proof.
  revert b. induction a as [|x a IH]; intros b; [exists []; auto|].
  destruct b as [|y b]; [exists []; cbn; auto|]. cbn. case_bool_decide as E.
  - subst. destruct (IH b) as (c & E1 & E2 & H). exists (y :: c). cbn.
    split_and!; [by f_equal|by f_equal|done].
  - exists []. split_and!; [done|done|]. right. right. cbn. congruence.
Qed.

Lemma mismatch_prefix a b : snd (mismatch a b) = [] <-> b `prefix_of` a.
Proof.
  destruct (mismatch_spec a b) as (c & E1 & E2 & H).
  destruct (mismatch a b) as [u v]. cbn in *. subst. split.
  - intros ->. exists u. by rewrite app_nil_r.
  - intros [k Hk]. rewrite <- app_assoc in Hk. apply app_inv_head in Hk as ->.
    destruct v as [|y v]; [done|]. cbn in H. naive_solver.
Qed.

Lemma depth_plain l : Forall plain l -> dot ∉ l -> dot_dot ∉ l -> depth l = len l.
Proof.
  induction 1 as [|e l He Hl IH]; intros Hd Hdd; [done|].
  apply not_elem_of_cons in Hd as [D1 D2], Hdd as [E1 E2]. cbn.
  rewrite IH by done. rewrite (bool_decide_false (e = [])) by apply He.
  rewrite !bool_decide_false by done. cbn. len_lia.
Qed.

Lemma no_dot_dot_spec l :
  forallb (fun c => negb (bool_decide (c = dot_dot))) l = true <-> dot_dot ∉ l.
Proof.
  rewrite forallb_forall. split.
  - intros H Hin. apply list_elem_of_In, H in Hin. by rewrite bool_decide_true in Hin.
  - intros H c Hin. apply list_elem_of_In in Hin. rewrite bool_decide_false; [done|].
    by intros ->.
Qed.

(** The elements of the path the loop of [lexically_relative] builds. *)
Lemma elements_spelling l t : Forall plain l -> l <> [] -> t = [] \/ t = [[]] ->
  elements (for_each append (l ++ t) []) = l ++ t.
Proof.
  intros H N T. destruct H as [|e l He Hl]; [done|].
  assert (spelled (for_each append (e :: l) []) (e :: l)) as S.
  { cbn. unfold append at 2. rewrite plain_relative by done. cbn.
    by apply (spelled_appends l Hl e [e]), spelled_plain. }
  unfold for_each in *. rewrite foldl_app. destruct T as [->| ->]; cbn.
  - rewrite app_nil_r. by apply spelled_elements in S.
  - by apply spelled_trailing in S.
Qed.

(** What remains of file names and a trailing empty element. *)
Lemma suffix_shape l t c u : Forall plain l -> t = [] \/ t = [[]] -> l ++ t = c ++ u ->
  exists l' t', u = l' ++ t' /\ Forall plain l' /\ (t' = [] \/ t' = [[]]).
Proof.
  intros P T E. apply app_eq_inv in E as [(k & -> & ->)|(k & -> & E)].
  - apply Forall_app in P as [_ P]. eauto.
  - exists [], u. split_and!; [done|done|]. destruct T as [->| ->].
    + symmetry in E. apply app_nil in E as [_ ->]. by left.
    + destruct k as [|x k]; [by right|]. injection E as _ E.
      symmetry in E. apply app_nil in E as [_ ->]. by left.
Qed.

(** On the paths of the system, [is_below] is: the elements of the base start
    those of the target. *)
Lemma is_below_spec base target : normal base -> [] ∉ elements base -> normal target ->
  is_below base target = true <-> elements base `prefix_of` elements target.
Proof.
  intros (Ab & Db & DDb) Eb (At & Dt & DDt).
  rewrite <- mismatch_prefix. unfold is_below, lexically_relative. rewrite Ab, At. cbn [Bool.eqb negb].
  destruct (elements_absolute _ At) as (lt & tt & E1 & P1 & T1).
  destruct (elements_absolute _ Ab) as (lb & tb & E2 & P2 & T2).
  rewrite E1, E2 in *. cbn [mismatch]. rewrite (bool_decide_true ([slash] = [slash])) by done.
  destruct T2 as [->|[-> _]]; [|set_solver]. rewrite app_nil_r in *.
  destruct (mismatch_spec (lt ++ tt) lb) as (c & M1 & M2 & M3).
  destruct (mismatch (lt ++ tt) lb) as [u v]. cbn [fst snd] in M1, M2, M3 |- *.
  assert (Forall plain v) as Pv by (rewrite M2 in P2; by apply Forall_app in P2 as [_ ?]).
  assert (depth v = len v) as ->.
  { subst lb. apply depth_plain; [done|set_solver|set_solver]. }
  destruct (suffix_shape lt tt c u) as (l' & t' & -> & Pl & Tl); [done|naive_solver|done|].
  assert (dot_dot ∉ l' ++ t') as Du by (rewrite M1 in DDt; set_solver).
  rewrite (proj2 (Z.ltb_ge (len v) 0)) by len_lia.
  destruct v as [|e v].
  - split; [done|intros _]. change (len (@nil bytes)) with 0. cbn [Z.eqb Z.to_nat repeat andb app].
    rewrite (bool_decide_true (@nil bytes = [])), andb_true_r by done.
    destruct (decide (l' = [])) as [->|Nl].
    { destruct Tl as [->| ->]; done. }
    rewrite (bool_decide_false (l' ++ t' = [])) by (by destruct l').
    rewrite (bool_decide_false (head (l' ++ t') = _)) by (destruct Pl as [|x ? []]; [done|cbn; congruence]). cbn [orb].
    pose proof (elements_spelling l' t' Pl Nl Tl) as E.
    change (repeat dot_dot (Z.to_nat 0) ++ l' ++ t') with (l' ++ t').
    rewrite bool_decide_false by (intros Z; rewrite Z in E; by destruct l').
    rewrite E. by apply no_dot_dot_spec.
  - split; [|done]. rewrite (bool_decide_false (_ :: _ = [])), andb_false_r by done.
    rewrite (proj2 (Z.eqb_neq _ _)) by len_lia. cbn [andb].
    intros H. exfalso. case_bool_decide; [done|]. apply no_dot_dot_spec in H. apply H.
    replace (Z.to_nat (len (e :: v))) with (S (length v)) by (unfold len; cbn; lia).
    rewrite app_assoc, elements_spelling; [set_solver|..|done].
    + apply Forall_app. split; [|done]. apply Forall_forall. intros x Hx%list_elem_of_In%repeat_spec.
      subst. split; [done|]. by apply find_char_None.
    + done.
Qed.

(** ** Byte ranges: the grammar of RFC 7233, one range of the unit [bytes] *)

(** A decimal number the code can hold. *)
Definition number (s : bytes) (n : Z) : Prop :=
  s <> [] /\ Forall (fun c => isdigit c = true) s /\ fst (digits_run 10 0 s) = n /\ n <= u64_max.

(** The positions [f] to [l] a range header selects of a file of [size] bytes. *)
Inductive satisfiable (size : Z) : bytes -> Z -> Z -> Prop :=
| range_from_to a b f l : number a f -> number b l -> f <= l -> f < size ->
    satisfiable size (bs "bytes=" ++ a ++ bs "-" ++ b) f (Z.min l (size - 1))
| range_from a f : number a f -> f < size ->
    satisfiable size (bs "bytes=" ++ a ++ bs "-") f (size - 1)
| range_suffix b n : number b n -> 0 < n -> 0 < size ->
    satisfiable size (bs "bytes=" ++ bs "-" ++ b) (Z.max 0 (size - n)) (size - 1).

Lemma digits_run_digits s acc v : digits_run 10 acc s = (v, []) -> Forall (fun c => isdigit c = true) s.
Proof.
  revert acc. induction s as [|c s IH]; intros acc; cbn; [constructor|].
  destruct (digit_val 10 c) eqn:D; [|done]. intros H. constructor; [|by eapply IH].
  apply digit_val_10. eauto.
Qed.

Lemma parse_size_spec s n : parse_size s = Some n <-> number s n.
Proof.
  unfold parse_size, number. destruct s as [|c s]; [naive_solver|].
  unfold from_chars_u64. split.
  - destruct (isdigit c) eqn:D; [|done]. destruct (digits_run 10 0 (c :: s)) as [v rest] eqn:R.
    destruct (v <=? u64_max) eqn:L; [|done]. destruct rest; [|done]. intros [= <-]. to_prop.
    apply digits_run_digits in R as F. split_and!; done.
  - intros (_ & F & R & L). pose proof F as F'.
    apply Forall_cons in F' as [-> _].
    pose proof (digits_run_all 10 0 (c :: s)) as A.
    destruct (digits_run 10 0 (c :: s)) as [v rest]. cbn [fst snd] in *. subst v.
    rewrite A by (eapply Forall_impl; [exact F|]; intros; by apply digit_val_10).
    by rewrite (proj2 (Z.leb_le _ _)).
Qed.

Lemma number_nonneg s n : number s n -> 0 <= n.
Proof. intros (_ & _ & <- & _). apply digits_run_nonneg; lia. Qed.

Lemma number_not_elem s n c : number s n -> isdigit c = false -> c ∉ s.
Proof.
  intros (_ & F & _) D Hin. eapply Forall_forall in Hin; [|exact F]. cbn in Hin. congruence.
Qed.

(** What the search for the dashes finds. *)
Lemma split_dash a b : "-"%char ∉ a ->
  find_char "-"%char (a ++ "-"%char :: b) = Some (length a) /\
  take (length a) (a ++ "-"%char :: b) = a /\ drop (length a + 1) (a ++ "-"%char :: b) = b.
Proof.
  intros H. split_and!; [by apply find_char_app|by rewrite take_app_length|].
  rewrite drop_app_ge by lia. by replace (length a + 1 - length a)%nat with 1%nat by lia.
Qed.

(** The header the parser accepts is of the grammar. *)
Lemma parse_range_sound v size f l : 0 <= size < 2 ^ 64 ->
  parse_range v size = Valid (mkRange f l) -> satisfiable size v f l.
Proof.
  intros Hs. unfold parse_range. destruct v as [|c0 v0]; [done|].
  set (v := c0 :: v0). destruct (starts_with (bs "bytes=") v) eqn:S; [|done].
  apply starts_with_spec in S as [r E]. rewrite E. clearbody v. clear c0 v0.
  rewrite drop_app_length. cbn [negb orb].
  destruct (contains_char _ _) eqn:C; [done|]. destruct (size =? 0) eqn:Z0; [done|]. to_prop.
  destruct (find_char "-"%char r) as [d|] eqn:D; [|done].
  destruct (find_char_from _ _ _) eqn:D2; [done|].
  apply find_char_Some in D as (R & _ & _).
  replace (d + 1)%nat with (S d) by lia. set (a := take d r) in *. set (b := drop (S d) r) in *.
  clearbody a b. subst r. cbn [orb].
  assert (in_u64 (size - 1)) by (unfold in_u64; lia).
  destruct a as [|x a]; [|remember (x :: a) as a1 eqn:Ea].
  - destruct (parse_size b) as [n|] eqn:P; [|done]. apply parse_size_spec in P.
    pose proof (number_nonneg _ _ P). destruct (n =? 0) eqn:N0; [done|]. to_prop.
    rewrite !wrap64_small by (unfold in_u64; lia). intros [= <- <-].
    replace (size - Z.min n size) with (Z.max 0 (size - n)) by lia.
    apply range_suffix; [done|lia|lia].
  - destruct (parse_size a1) as [f'|] eqn:P; [|done]. apply parse_size_spec in P.
    destruct (size <=? f') eqn:L; [done|]. to_prop.
    rewrite !wrap64_small by done. destruct b as [|y b]; [|remember (y :: b) as b1 eqn:Eb].
    + intros [= <- <-]. by apply range_from.
    + destruct (parse_size b1) as [l'|] eqn:Q; [|done]. apply parse_size_spec in Q.
      destruct (l' <? f') eqn:L2; [done|]. to_prop. intros [= <- <-].
      by apply (range_from_to size a1 b1).
Qed.

(** The parser on a header of the two parts around one dash. *)
Lemma parse_range_parts a b size : "-"%char ∉ a -> "-"%char ∉ b -> ","%char ∉ a -> ","%char ∉ b ->
  0 < size ->
  parse_range (bs "bytes=" ++ a ++ "-"%char :: b) size =
  match a with
  | [] =>
      match parse_size b with
      | None => Invalid
      | Some suffix =>
          if suffix =? 0 then Invalid
          else Valid (mkRange (wrap64 (size - Z.min suffix size)) (wrap64 (size - 1)))
      end
  | _ =>
      match parse_size a with
      | None => Invalid
      | Some f =>
          if size <=? f then Invalid
          else match b with
               | [] => Valid (mkRange f (wrap64 (size - 1)))
               | _ => match parse_size b with
                      | None => Invalid
                      | Some l => if l <? f then Invalid
                                  else Valid (mkRange f (Z.min l (wrap64 (size - 1))))
                      end
               end
      end
  end.
Proof.
  intros Da Db Ca Cb Hs. destruct (split_dash a b Da) as (F & T & D).
  unfold parse_range. set (v := bs "bytes=" ++ _). destruct v as [|c0 v0] eqn:E; [done|].
  rewrite <- E. subst v. clear E c0 v0. rewrite starts_with_app, drop_app_length, F.
  assert (contains_char ","%char (bs "bytes=" ++ a ++ "-"%char :: b) = false) as ->.
  { apply contains_char_false. rewrite !not_elem_of_app, not_elem_of_cons.
    split_and!; [|done..]. by apply find_char_None. }
  rewrite (proj2 (Z.eqb_neq _ _)) by lia. cbn [negb orb]. unfold find_char_from.
  rewrite T, D, (proj2 (find_char_None "-"%char b)) by done. done.
Qed.

(** Every header of the grammar is accepted, with the positions it selects. *)
Lemma parse_range_complete v size f l : 0 <= size < 2 ^ 64 ->
  satisfiable size v f l -> parse_range v size = Valid (mkRange f l).
Proof.
  intros Hs [a b f' l' Na Nb H1 H2|a f' Na H|b n Nb H1 H2].
  - change (bs "-" ++ b) with ("-"%char :: b). pose proof (number_nonneg _ _ Na).
    rewrite parse_range_parts by (lia || by eapply number_not_elem).
    pose proof (proj1 Na). pose proof (proj1 Nb).
    apply parse_size_spec in Na as ->, Nb as ->. rewrite (wrap64_small (size - 1)) by (unfold in_u64; lia).
    rewrite (proj2 (Z.leb_gt _ _)), (proj2 (Z.ltb_ge _ _)) by lia. by destruct a, b.
  - change (bs "-") with ["-"%char]. pose proof (number_nonneg _ _ Na).
    rewrite parse_range_parts by (lia || apply not_elem_of_nil || by eapply number_not_elem).
    pose proof (proj1 Na).
    apply parse_size_spec in Na as ->. rewrite (wrap64_small (size - 1)) by (unfold in_u64; lia).
    rewrite (proj2 (Z.leb_gt _ _)) by lia. by destruct a.
  - change (bs "bytes=" ++ bs "-" ++ b) with (bs "bytes=" ++ [] ++ "-"%char :: b).
    rewrite parse_range_parts by (lia || apply not_elem_of_nil || by eapply number_not_elem).
    apply parse_size_spec in Nb as ->. rewrite (proj2 (Z.eqb_neq _ _)) by lia.
    rewrite !wrap64_small by (unfold in_u64; lia).
    by replace (size - Z.min n size) with (Z.max 0 (size - n)) by lia.
Qed.

Lemma satisfiable_bounds size v f l : satisfiable size v f l -> 0 <= f <= l /\ l < size.
Proof.
  intros [a b f' l' Na Nb H1 H2|a f' Na H|b n Nb H1 H2];
    try pose proof (number_nonneg _ _ Na); lia.
Qed.

Lemma parse_range_iff v size f l : 0 <= size < 2 ^ 64 ->
  parse_range v size = Valid (mkRange f l) <-> satisfiable size v f l.
Proof. split; [by apply parse_range_sound|by apply parse_range_complete]. Qed.

Lemma parse_range_absent v size : parse_range v size = Absent <-> v = [].
Proof.
  split; [|by intros ->]. unfold parse_range. destruct v; [done|].
  repeat case_match; done.
Qed.

(** ** What is served *)

(** The client has the file with this tag. *)
Definition revalidated (request : Request.t) (etag : bytes) : Prop :=
  Request.header (bs "if-none-match") request = Some etag \/ Request.header (bs "if-none-match") request = Some (bs "*").

Lemma not_modified_iff request etag : not_modified request etag = true <-> revalidated request etag.
Proof.
  unfold not_modified, revalidated. destruct (Request.header _ _) as [v|]; [|split; [done|by intros [?|?]]].
  rewrite orb_true_iff, !bool_decide_eq_true. split; intros [H|H]; [left|right|left|right]; congruence.
Qed.

(** The response to a request for [target], written on [res]. *)
Inductive serves (fs : FileSystem) (target : bytes) (request : Request.t) (res : Response.t)
    (head_only : bool) : Response.t -> Prop :=
| serves_not_modified size modified r :
    file_size fs target = Some size -> last_write_time fs target = Some modified ->
    revalidated request (etag_for size modified) ->
    Response.status_code_ r = 304 -> Response.body_ r = Response.body_ res ->
    Response.headers_ r = Response.headers_ res ++
      [HeaderMap.mkEntry (bs "etag") (etag_for size modified);
       HeaderMap.mkEntry (bs "cache-control") (bs "public, max-age=3600");
       HeaderMap.mkEntry (bs "accept-ranges") (bs "bytes")] ->
    serves fs target request res head_only r
| serves_unsatisfiable size modified v r :
    file_size fs target = Some size -> last_write_time fs target = Some modified ->
    ~ revalidated request (etag_for size modified) ->
    Request.header (bs "range") request = Some v -> v <> [] ->
    (forall f l, ~ satisfiable size v f l) ->
    Response.status_code_ r = 416 -> Response.body_ r = Response.body_ res ->
    Response.headers_ r = Response.headers_ res ++
      [HeaderMap.mkEntry (bs "content-range") (bs "bytes */" ++ to_dec size);
       HeaderMap.mkEntry (bs "accept-ranges") (bs "bytes")] ->
    serves fs target request res head_only r
| serves_part size modified v f l r :
    file_size fs target = Some size -> last_write_time fs target = Some modified ->
    ~ revalidated request (etag_for size modified) ->
    Request.header (bs "range") request = Some v -> satisfiable size v f l ->
    Response.status_code_ r = 206 ->
    Response.headers_ r = Response.headers_ res ++
      [HeaderMap.mkEntry (bs "content-type") (mime_type target);
       HeaderMap.mkEntry (bs "content-length") (to_dec (l - f + 1));
       HeaderMap.mkEntry (bs "etag") (etag_for size modified);
       HeaderMap.mkEntry (bs "cache-control") (bs "public, max-age=3600");
       HeaderMap.mkEntry (bs "accept-ranges") (bs "bytes");
       HeaderMap.mkEntry (bs "content-range")
         (bs "bytes " ++ to_dec f ++ bs "-" ++ to_dec l ++ bs "/" ++ to_dec size)] ->
    (if head_only then Response.body_ r = Response.body_ res
     else exists contents, read_file fs target = Some contents /\ l < len contents /\
          Response.body_ r = take (Z.to_nat (l - f + 1)) (drop (Z.to_nat f) contents)) ->
    serves fs target request res head_only r
| serves_whole size modified r :
    file_size fs target = Some size -> last_write_time fs target = Some modified ->
    ~ revalidated request (etag_for size modified) ->
    (Request.header (bs "range") request = None \/ Request.header (bs "range") request = Some []) ->
    Response.status_code_ r = 200 ->
    Response.headers_ r = Response.headers_ res ++
      [HeaderMap.mkEntry (bs "content-type") (mime_type target);
       HeaderMap.mkEntry (bs "content-length") (to_dec size);
       HeaderMap.mkEntry (bs "etag") (etag_for size modified);
       HeaderMap.mkEntry (bs "cache-control") (bs "public, max-age=3600");
       HeaderMap.mkEntry (bs "accept-ranges") (bs "bytes")] ->
    (if head_only then Response.body_ r = Response.body_ res
     else exists contents, read_file fs target = Some contents /\ size <= len contents /\
          Response.body_ r = take (Z.to_nat size) contents) ->
    serves fs target request res head_only r.

(** The file lies below the root: its path continues that of the root, without
    a dot-dot. *)
Definition confined (fs : FileSystem) (root target : bytes) : Prop :=
  exists base rest, canonical fs root = Some base /\
    elements target = elements base ++ rest /\ dot_dot ∉ rest /\
    is_regular_file fs target = Some true.

Lemma append_absolute a b : is_absolute a = true -> is_absolute (append a b) = true.
Proof.
  unfold append. intros H. destruct (is_absolute b) eqn:B; [done|].
  assert (a <> []) by (by intros ->). case_match; rewrite ?is_absolute_app; try done.
  by destruct a.
Qed.

Lemma resolve_confined fs `{!FsLaws fs} root request target :
  resolve fs root request = Some target -> confined fs root target.
Proof.
  unfold resolve. case_bool_decide; [done|].
  destruct (canonical fs root) as [base|] eqn:B; cbn; [|done].
  destruct (resource_path request) as [p|]; cbn; [|done].
  destruct (weakly_canonical _ _) as [t|] eqn:T; cbn; [|done].
  destruct (is_below base t) eqn:L; [|done].
  destruct (is_regular_file fs t) as [[]|] eqn:R; cbn; [|done..]. intros [= <-].
  destruct (canonical_normal _ _ B) as [Nb Eb].
  pose proof (weakly_canonical_normal _ _ (append_absolute _ _ (proj1 Nb)) T) as Nt.
  apply is_below_spec in L as [rest E]; [|done..].
  exists base, rest. split_and!; [done|done| |done]. destruct Nt as (_ & _ & Nt).
  rewrite E in Nt. by apply not_elem_of_app in Nt as [_ ?].
Qed.

Lemma read_range_spec fs target f n body : 0 <= f -> 0 <= n ->
  read_range fs target f n = Some body -> exists contents,
  read_file fs target = Some contents /\ (n = 0 \/ f + n <= len contents) /\
  body = take (Z.to_nat n) (drop (Z.to_nat f) contents).
Proof.
  intros Hf Hn. unfold read_range. destruct (read_file fs target) as [c|]; cbn; [|done].
  destruct (len _ =? n) eqn:E; cbn; [|done]. intros [= <-]. to_prop.
  exists c. split_and!; [done| |done]. rewrite len_take, len_drop in E. lia.
Qed.

Lemma respond_serves fs `{!FsLaws fs} target size modified request res head_only r :
  file_size fs target = Some size -> last_write_time fs target = Some modified ->
  ~ revalidated request (etag_for size modified) ->
  respond fs target size (etag_for size modified) request res head_only = Some r ->
  serves fs target request res head_only r.
Proof.
  intros Hs Hm Hn. pose proof (file_size_range _ _ Hs) as Rs. unfold respond.
  destruct (Request.header (bs "range") request) as [v|] eqn:V;
    [destruct (parse_range v size) as [|[f l]|] eqn:P|]; cbn [first last].
  - apply parse_range_absent in P as ->.
    destruct head_only; [|destruct (read_range fs target 0 size) as [body|] eqn:B; cbn; [|done]];
      cbn; intros [= <-]; (eapply serves_whole; [done|done|done|by right|done| |]); cbn; rewrite <- ?app_assoc; try done.
    apply read_range_spec in B as (c & C1 & C2 & ->); [|lia|lia].
    exists c. rewrite drop_0. split_and!; [done|len_lia|done].
  - apply parse_range_iff in P; [|lia]. pose proof (satisfiable_bounds _ _ _ _ P).
    rewrite (wrap64_small (l - f + 1)) by (unfold in_u64; lia).
    destruct head_only; [|destruct (read_range fs target f (l - f + 1)) as [body|] eqn:B; cbn; [|done]];
      cbn; intros [= <-]; (eapply serves_part; [done..|exact P|done| |]); cbn; rewrite <- ?app_assoc; try done.
    apply read_range_spec in B as (c & C1 & C2 & ->); [|lia|lia].
    exists c. split_and!; [done|lia|done].
  - intros [= <-]. eapply serves_unsatisfiable; [done|done|done|done| | |done|done|].
    + intros ->. done.
    + intros f l Hf. apply parse_range_iff in Hf; [|lia]. congruence.
    + cbn. by rewrite <- app_assoc.
  - destruct head_only; [|destruct (read_range fs target 0 size) as [body|] eqn:B; cbn; [|done]];
      cbn; intros [= <-]; (eapply serves_whole; [done|done|done|by left|done| |]); cbn; rewrite <- ?app_assoc; try done.
    apply read_range_spec in B as (c & C1 & C2 & ->); [|lia|lia].
    exists c. rewrite drop_0. split_and!; [done|len_lia|done].
Qed.

(** A file whose attributes and contents are readable gets a response. *)
Lemma respond_total fs `{!FsLaws fs} target size etag request res head_only contents :
  file_size fs target = Some size -> read_file fs target = Some contents -> len contents = size ->
  is_Some (respond fs target size etag request res head_only).
Proof.
  intros Hs Hc Hl. pose proof (file_size_range _ _ Hs) as Rs. unfold respond.
  assert (forall f n, 0 <= f -> 0 <= n -> f + n <= size -> is_Some (read_range fs target f n)) as R.
  { intros f n H1 H2 H3. unfold read_range. rewrite Hc. cbn.
    rewrite (proj2 (Z.eqb_eq _ _)); [eauto|]. rewrite len_take, len_drop. lia. }
  destruct (Request.header (bs "range") request) as [v|] eqn:V;
    [destruct (parse_range v size) as [|[f l]|] eqn:P|]; cbn [first last]; [| |eauto|].
  2: apply parse_range_iff in P; [|lia]; pose proof (satisfiable_bounds _ _ _ _ P);
     rewrite (wrap64_small (l - f + 1)) by (unfold in_u64; lia).
  all: destruct head_only; cbn; [eauto|].
  all: edestruct R as [body ->]; cbn; eauto; lia.
Qed.

Lemma serve_confined fs `{!FsLaws fs} root request res head_only b r
    (H : serve_static_resource fs root request res head_only = (b, r)) :
  if b then exists target, confined fs root target /\ serves fs target request res head_only r
  else r = res.
Proof.
  unfold serve_static_resource in H.
  destruct (resolve fs root request) as [target|] eqn:R; cbn in H; [|by injection H as <- <-].
  destruct (file_size fs target) as [size|] eqn:S; cbn in H; [|by injection H as <- <-].
  destruct (last_write_time fs target) as [modified|] eqn:M; cbn in H; [|by injection H as <- <-].
  apply resolve_confined in R; [|done].
  destruct (not_modified request _) eqn:N.
  - injection H as <- <-. exists target. split; [done|].
    eapply serves_not_modified; [done|done|by apply not_modified_iff|done|done|]. cbn. by rewrite <- !app_assoc.
  - destruct (respond _ _ _ _ _ _ _) as [r'|] eqn:Q; injection H as <- <-; [|done].
    exists target. split; [done|]. eapply respond_serves; [done..| |done].
    intros X%not_modified_iff. change (not_modified request (etag_for size modified) = false) in N. by rewrite N in X.
Qed.

(** [C30] Confinement and exactness: when [serve_static_resource] returns true it
    serves a regular file below the root.  The response is a 304 with its tag and
    cache headers exactly when the request's If-None-Match is that tag or a star;
    otherwise it is a 416 for a range that cannot be satisfied, a 206 with the bytes
    and the position of one that can, or a 200 with the whole file, each with the
    headers listed.  When it returns false the response is untouched. *)
Theorem static_resource_confined fs `{!FsLaws fs} root request res head_only b r
    (H : serve_static_resource fs root request res head_only = (b, r)) :
  if b then exists target, confined fs root target /\ serves fs target request res head_only r
  else r = res.
Proof. by apply serve_confined in H. Qed.

(** Availability: a readable regular file below the root is served, whatever
    the range and the conditions of the request. *)
Theorem static_resource_available fs `{!FsLaws fs} root base request p target size modified contents
    res head_only
    (Hr : root <> []) (Hb : canonical fs root = Some base) (Hp : resource_path request = Some p)
    (Ht : weakly_canonical fs (append base (drop 1 p)) = Some target)
    (Hbelow : elements base `prefix_of` elements target)
    (Hreg : is_regular_file fs target = Some true) (Hs : file_size fs target = Some size)
    (Hm : last_write_time fs target = Some modified)
    (Hc : read_file fs target = Some contents) (Hl : len contents = size) :
  fst (serve_static_resource fs root request res head_only) = true.
Proof.
  destruct (canonical_normal _ _ Hb) as [Nb Eb].
  pose proof (weakly_canonical_normal _ _ (append_absolute _ _ (proj1 Nb)) Ht) as Nt.
  unfold serve_static_resource, resolve. rewrite bool_decide_false by done.
  rewrite Hb, Hp. cbn [mbind option_bind]. rewrite Ht. cbn [mbind option_bind].
  rewrite (proj2 (is_below_spec base target Nb Eb Nt)) by done.
  rewrite Hreg. cbn [mbind option_bind]. rewrite Hs, Hm. cbn [mbind option_bind]. destruct (not_modified _ _); [done|].
  destruct (respond_total fs target size (etag_for size modified) request res head_only contents)
    as [r ->]; done.
Qed.

(** The byte-range parser is the grammar: it accepts exactly the single
    satisfiable ranges, and what it accepts lies within the file. *)
Theorem parse_range_correct v size (Hs : 0 <= size < 2 ^ 64) f l :
  (parse_range v size = Valid (mkRange f l) <-> satisfiable size v f l) /\
  (parse_range v size = Valid (mkRange f l) -> 0 <= f <= l /\ l < size) /\
  (parse_range v size = Absent <-> v = []).
Proof.
  split_and!; [by apply parse_range_iff| |apply parse_range_absent].
  intros H. eapply satisfiable_bounds, parse_range_iff; done.
Qed.

(** ** The concrete tree satisfies the laws *)

Definition ordinary (e : bytes) : Prop := plain e /\ e <> dot /\ e <> dot_dot.

Lemma normalize_ordinary l acc : Forall plain l -> Forall ordinary acc ->
  Forall ordinary (normalize acc l).
Proof.
  intros H. revert acc. induction H as [|e l He Hl IH]; intros acc Ha; cbn.
  - by apply Forall_rev.
  - case_bool_decide as D1; cbn; [by apply IH|]. case_bool_decide as D2; cbn; [by apply IH|].
    case_bool_decide; apply IH; [|by constructor]. destruct Ha; [constructor|done].
Qed.

Lemma filenames_join l : Forall plain l -> filenames (join_with [slash] l) = l.
Proof.
  induction 1 as [|e l He Hl IH]; [done|]. destruct l as [|e' l].
  - by apply filenames_plain_self.
  - change (join_with [slash] (e :: e' :: l)) with (e ++ slash :: join_with [slash] (e' :: l)).
    by rewrite filenames_app, IH, filenames_plain_self.
Qed.

Lemma join_no_trailing l : Forall plain l -> l <> [] ->
  ends_with [slash] (slash :: join_with [slash] l) = false.
Proof.
  intros H N. destruct (exists_last N) as (l' & e & ->). apply Forall_app in H as [_ H].
  apply Forall_cons in H as [He _].
  assert (exists p, slash :: join_with [slash] (l' ++ [e]) = p ++ e) as [p ->].
  { clear N. induction l' as [|x l' [p IH]]; [by exists [slash]|].
    exists (slash :: x ++ p). cbn. rewrite <- app_assoc, <- IH. by destruct l'. }
  rewrite ends_with_app_tail by apply He. apply ends_with_not_elem, He.
Qed.

Lemma normal_path_elements p : exists l, elements (normal_path p) = [slash] :: l /\ Forall ordinary l.
Proof.
  exists (normalize [] (filenames p)).
  assert (Forall ordinary (normalize [] (filenames p))) as H
    by (apply normalize_ordinary; [apply filenames_plain|constructor]).
  split; [|done]. unfold normal_path. set (l := normalize [] (filenames p)) in *.
  assert (Forall plain l) as P by (eapply Forall_impl; [exact H|]; by intros ? []).
  assert (filenames (slash :: join_with [slash] l) = l) as F.
  { change (slash :: join_with [slash] l) with ([] ++ slash :: join_with [slash] l).
    by rewrite filenames_app, filenames_join. }
  unfold elements. rewrite F. change (is_absolute _) with true. cbn [app].
  clearbody l. destruct l as [|e l]; [done|]. rewrite bool_decide_false, join_no_trailing by done.
  cbn [negb andb]. by rewrite app_nil_r.
Qed.

Lemma tree_fs_laws files :
  Forall (fun f => len (snd f) < 2 ^ 63) files -> FsLaws (tree_fs files).
Proof.
  intros Hf.
  assert (forall p, normal (normal_path p) /\ [] ∉ elements (normal_path p)) as N.
  { intros p. destruct (normal_path_elements p) as (l & E & H).
    assert (forall e, e ∈ l -> ordinary e) as Ho by (intros e He; by eapply Forall_forall in He).
    unfold normal. rewrite E. split_and!; [done|..]; (apply not_elem_of_cons; split; [done|]);
      intros [[? ?] [? ?]]%Ho; done. }
  split.
  - intros r b [= <-]. apply N.
  - intros p t _ [= <-]. apply N.
  - intros p n. cbn. destruct (List.find _ files) as [[q c]|] eqn:E; cbn; [|done].
    intros [= <-]. apply List.find_some in E as [E _]. apply list_elem_of_In in E.
    eapply Forall_forall in E; [|exact Hf]. cbn in E. len_lia.
Qed.

(** ** Witnesses *)

Definition www : list (bytes * bytes) :=
  [(bs "/srv/www/hello.txt", bs "hello static world"); (bs "/etc/passwd", bs "root:x:0:0")].

Definition ask (path : string) (range : option string) : Request.t :=
  Request.set_headers
    (match range with Some v => [HeaderMap.mkEntry (bs "Range") (bs v)] | None => [] end)
    (Request.set_path (bs path) Request.init).

Lemma www_laws : FsLaws (tree_fs www).
Proof. apply tree_fs_laws. repeat constructor. Qed.

(** A range of a file below the root is served; a path that leaves the root by
    dot-dot elements or by a second slash is not. *)
Lemma static_resource_confined_witness :
  let '(b, r) := serve_static_resource (tree_fs www) (bs "/srv/www")
                   (ask "/a/../hello.txt?x" (Some "bytes=6-11"%string)) Response.init false in
  b = true /\ Response.body_ r = bs "static" /\
  (exists target, confined (tree_fs www) (bs "/srv/www") target /\
     serves (tree_fs www) target (ask "/a/../hello.txt?x" (Some "bytes=6-11"%string))
       Response.init false r) /\
  fst (serve_static_resource (tree_fs www) (bs "/srv/www")
         (ask "/../../etc/passwd" None) Response.init false) = false /\
  fst (serve_static_resource (tree_fs www) (bs "/srv/www")
         (ask "//etc/passwd" None) Response.init false) = false.
Proof.
  destruct (serve_static_resource _ _ (ask "/a/../hello.txt?x" _) _ _) as [b r] eqn:E.
  assert (b = true) as -> by (vm_compute in E; congruence).
  split; [done|]. split; [vm_compute in E; injection E as <-; reflexivity|].
  split; [exact (static_resource_confined (tree_fs www) (FsLaws0 := www_laws) _ _ _ _ _ _ E)|].
  split; vm_compute; reflexivity.
Defined.

Lemma static_resource_available_witness :
  fst (serve_static_resource (tree_fs www) (bs "/srv/www/") (ask "/hello.txt" None)
         Response.init false) = true.
Proof.
  apply (static_resource_available (tree_fs www) (FsLaws0 := www_laws) (bs "/srv/www/") (bs "/srv/www")
           _ (bs "/hello.txt") (bs "/srv/www/hello.txt") 18 1700000000 (bs "hello static world"));
    try (vm_compute; reflexivity); [done|].
  exists [bs "hello.txt"]. vm_compute. reflexivity.
Defined.

Lemma parse_range_correct_witness :
  parse_range (bs "bytes=-5") 18 = Valid (mkRange 13 17) /\
  satisfiable 18 (bs "bytes=-5") 13 17 /\
  parse_range (bs "bytes=18-") 18 = Invalid.
Proof.
  assert (parse_range (bs "bytes=-5") 18 = Valid (mkRange 13 17)) as E by reflexivity.
  split_and!; [done| |reflexivity].
  exact (proj1 (proj1 (parse_range_correct (bs "bytes=-5") 18 ltac:(lia) 13 17)) E).
Defined.

End StaticSpec.
