(* ===== verification/Observability.v ===== *)
(** * Observability: trace context and meters

    [observability/trace_context.*], [observability/observation.*] and
    [observability/http_observation_middleware.*].  OpenSSL's generator is the
    [Platform] of [BrowserAuth]; the steady clock is a parameter. *)

From S2P Require Import Prelude CxxString CxxDouble HttpMessage Middleware BrowserAuth.
Import Middleware.
Open Scope exchange_scope.

(** ** W3C trace context *)

Module Trace.
Export Middleware.Context.

Definition is_lower_hex (value : bytes) : bool :=
  if len value =? 0 then false
  else forallb (fun c => isdigit c || ((97 <=? byte_val c) && (byte_val c <=? 102))) value.

Definition all_zero (value : bytes) : bool := forallb (fun c => bool_decide (c = "0"%char)) value.

(** [random_hex]: the text of [byte_count] random bytes, or an exception. *)
Definition random_hex {W} `{Platform W} (byte_count : nat) (w : W) : result Exn bytes * W :=
  match RAND_bytes byte_count w with
  | (Some b, w) => (inr (hex_text b), w)
  | (None, w) => (inl (RuntimeError (bs "OpenSSL could not generate a trace identifier")), w)
  end.

Definition traceparent (t : TraceContext) : bytes :=
  bs "00-" ++ trace_id t ++ bs "-" ++ span_id t ++ bs "-" ++ trace_flags t.

(** [value.substr(pos, n)] *)
Definition substr (pos n : nat) (value : bytes) : bytes := take n (drop pos value).

Definition dash_at (i : nat) (value : bytes) : bool := bool_decide (value !! i = Some "-"%char).

Definition extract_trace_context (request : Request.t) : option TraceContext :=
  match Request.header (bs "traceparent") request with
  | None => None
  | Some value =>
      if negb (len value =? 55) then None
      else if negb (dash_at 2 value) || negb (dash_at 35 value) || negb (dash_at 52 value) then None
      else
        let version := substr 0 2 value in
        let trace_id := substr 3 32 value in
        let parent_id := substr 36 16 value in
        let flags := substr 53 2 value in
        if bool_decide (version = bs "ff") || negb (is_lower_hex version) ||
           negb (is_lower_hex trace_id) || negb (is_lower_hex parent_id) ||
           negb (is_lower_hex flags) || all_zero trace_id || all_zero parent_id
        then None
        else Some (mkTrace trace_id [] parent_id flags
                     (default [] (Request.header (bs "tracestate") request)))
  end.

(** The end of both [begin] functions: fill in what is missing, draw a span. *)
Definition complete_span {W} `{Platform W} (c : TraceContext) (w : W) : result Exn TraceContext * W :=
  let '(r, w) := if len (trace_id c) =? 0 then random_hex 16 w else (inr (trace_id c), w) in
  match r with
  | inl e => (inl e, w)
  | inr tid =>
      let flags := if len (trace_flags c) =? 0 then bs "01" else trace_flags c in
      match random_hex 8 w with
      | (inl e, w) => (inl e, w)
      | (inr sid, w) => (inr (mkTrace tid sid (parent_span_id c) flags (tracestate c)), w)
      end
  end.

Definition no_trace : TraceContext := mkTrace [] [] [] [] [].

Definition begin_server_span {W} `{Platform W} (request : Request.t) (w : W) : result Exn TraceContext * W :=
  complete_span (default no_trace (extract_trace_context request)) w.

Definition begin_client_span {W} `{Platform W} (parent : option TraceContext) (w : W)
    : result Exn TraceContext * W :=
  complete_span
    (match parent with
     | Some p => mkTrace (trace_id p) [] (span_id p) (trace_flags p) (tracestate p)
     | None => no_trace
     end) w.

(** Into the headers of an outbound request. *)
Definition inject_headers (t : TraceContext) (h : list HeaderMap.Entry) : list HeaderMap.Entry :=
  let h := HeaderMap.set (bs "traceparent") (traceparent t) h in
  if len (tracestate t) =? 0 then HeaderMap.remove (bs "tracestate") h
  else HeaderMap.set (bs "tracestate") (tracestate t) h.

(** Into the response and the request context. *)
Definition inject_response {W} (t : TraceContext) : M W () :=
  on_response (fun r =>
    let r := Response.header (bs "traceparent") (traceparent t) r in
    if len (tracestate t) =? 0 then r else Response.header (bs "tracestate") (tracestate t) r) ;;
  on_context (fun c =>
    set_string (bs "parent_span_id") (parent_span_id t)
      (set_string (bs "span_id") (span_id t)
        (set_string (bs "trace_id") (trace_id t) (set_trace t c)))).

End Trace.

(** ** The meter registry *)

Module Meters.

Abbreviation Attributes := (gmap bytes bytes) (only parsing).

Inductive InstrumentKind := Counter | UpDownCounter | Histogram | Gauge.

Definition kind_value (k : InstrumentKind) : Z :=
  match k with Counter => 0 | UpDownCounter => 1 | Histogram => 2 | Gauge => 3 end.

Record HistogramBucket := mkBucket { upper_bound : double; bucket_count : Z }.

Record MetricPoint := mkPoint {
  name : bytes;
  unit_ : bytes;
  kind : InstrumentKind;
  attributes : gmap bytes bytes;
  value : double;
  count : Z;
  sum : double;
  buckets : list HistogramBucket
}.

Record SpanRecord := mkSpan {
  span_name : bytes;
  span_attributes : gmap bytes bytes;
  duration : Z;
  error : bool
}.

Record EventRecord := mkEvent { event_name : bytes; event_attributes : gmap bytes bytes }.

Record MeterRegistry := mkRegistry {
  points_ : gmap bytes MetricPoint;
  spans_ : list SpanRecord;
  events_ : list EventRecord
}.

Definition empty_registry : MeterRegistry := mkRegistry ∅ [] [].

Definition max_completed_records_ : Z := 1024.

(** The order of [std::map<std::string, _>]: bytes as unsigned characters. *)
Fixpoint text_leb (a b : bytes) : bool :=
  match a, b with
  | [], _ => true
  | _ :: _, [] => false
  | x :: a', y :: b' =>
      if byte_val x <? byte_val y then true
      else if byte_val y <? byte_val x then false else text_leb a' b'
  end.

Definition key_le {V} (p q : bytes * V) : Prop := text_leb (fst p) (fst q) = true.

#[export] Instance key_le_dec {V} : RelDecision (@key_le V).
Proof. intros p q. unfold key_le. apply _. Defined.

(** Iteration over a [std::map]. *)
Definition in_order {V} (m : gmap bytes V) : list (bytes * V) := merge_sort key_le (map_to_list m).

Definition key_for (n : bytes) (k : InstrumentKind) (u : bytes) (a : gmap bytes bytes) : bytes :=
  n ++ bs "|" ++ to_dec (kind_value k) ++ bs "|" ++ u ++
  concat (map (fun p => bs "|" ++ fst p ++ bs "=" ++ snd p) (in_order a)).

(** A decimal fraction of the source, correctly rounded. *)
Definition ratio (n d : Z) : double := ddiv (d_of_Z n) (d_of_Z d).

Definition default_histogram_buckets (u : bytes) : list HistogramBucket :=
  map (fun b => mkBucket b 0)
    (if bool_decide (u = bs "s")
     then [ratio 1 1000; ratio 5 1000; ratio 1 100; ratio 25 1000; ratio 5 100; ratio 1 10;
           ratio 25 100; ratio 5 10; d_of_Z 1; ratio 25 10; d_of_Z 5; d_of_Z 10]
     else map d_of_Z [128; 512; 1024; 4096; 16384; 65536; 262144; 1048576; 4194304; 16777216]).

Definition zero : double := d_of_Z 0.

(** A value-initialised [StoredPoint], and the point a first use stores. *)
Definition no_point : MetricPoint := mkPoint [] [] Counter ∅ zero 0 zero [].

(** [points_[key].point], initialised when its name is empty. *)
Definition stored (key n u : bytes) (k : InstrumentKind) (a : gmap bytes bytes)
    (b : list HistogramBucket) (r : MeterRegistry) : MetricPoint :=
  let p := default no_point (points_ r !! key) in
  if len (name p) =? 0 then mkPoint n u k a zero 0 zero b else p.

Definition store (key : bytes) (p : MetricPoint) (r : MeterRegistry) : MeterRegistry :=
  mkRegistry (<[key := p]> (points_ r)) (spans_ r) (events_ r).

Definition set_value (v : double) (p : MetricPoint) : MetricPoint :=
  mkPoint (name p) (unit_ p) (kind p) (attributes p) v (count p) (sum p) (buckets p).

Definition counter_add (n : bytes) (v : double) (a : gmap bytes bytes) (r : MeterRegistry) : MeterRegistry :=
  let key := key_for n Counter (bs "1") a in
  let p := stored key n (bs "1") Counter a [] r in
  store key (set_value (dadd (value p) v) p) r.

Definition up_down_counter_add (n : bytes) (v : double) (a : gmap bytes bytes) (r : MeterRegistry) : MeterRegistry :=
  let key := key_for n UpDownCounter (bs "1") a in
  let p := stored key n (bs "1") UpDownCounter a [] r in
  store key (set_value (dadd (value p) v) p) r.

Definition count_bucket (v : double) (b : HistogramBucket) : HistogramBucket :=
  if dleb v (upper_bound b) then mkBucket (upper_bound b) (wrap64 (bucket_count b + 1)) else b.

Definition histogram_record (n : bytes) (v : double) (u : bytes) (a : gmap bytes bytes)
    (r : MeterRegistry) : MeterRegistry :=
  let key := key_for n Histogram u a in
  let p := stored key n u Histogram a (default_histogram_buckets u) r in
  store key (mkPoint (name p) (unit_ p) (kind p) (attributes p) (value p) (wrap64 (count p + 1))
               (dadd (sum p) v) (map (count_bucket v) (buckets p))) r.

Definition gauge_set (n : bytes) (v : double) (u : bytes) (a : gmap bytes bytes) (r : MeterRegistry) : MeterRegistry :=
  let key := key_for n Gauge u a in
  store key (set_value v (stored key n u Gauge a [] r)) r.

Definition snapshot (r : MeterRegistry) : list MetricPoint := map snd (in_order (points_ r)).

(** A full buffer drops its oldest record. *)
Definition push_record {A} (x : A) (l : list A) : list A :=
  (if len l =? max_completed_records_ then tail l else l) ++ [x].

Definition record_span (s : SpanRecord) (r : MeterRegistry) : MeterRegistry :=
  mkRegistry (points_ r) (push_record s (spans_ r)) (events_ r).

Definition record_event (e : EventRecord) (r : MeterRegistry) : MeterRegistry :=
  mkRegistry (points_ r) (spans_ r) (push_record e (events_ r)).

End Meters.

(** ** The observation middleware *)

Module HttpObservation.
Import Trace Meters.

Class SteadyClock (W : Type) := steady_now : W -> Z.

Definition active_name : bytes := bs "http.server.active_requests".

Section Handle.
Context {W : Type} `{Platform W} `{Part MeterRegistry W} `{SteadyClock W}.

Definition meter (f : MeterRegistry -> MeterRegistry) : M W () :=
  on_world (fun w => (inr (), set_part (f (part w)) w)).
Definition get_response : M W Response.t := fun x => (inr (response x), x).
Definition clock : M W Z := fun x => (inr (steady_now (world x)), x).

(** The [catch (...)] block: the span of a request that threw. *)
Definition observe_failure (started : Z) : M W () :=
  do req <- get_request;
  do ctx <- get_context;
  do now <- clock;
  meter (record_span (mkSpan (bs "http.server.request")
    (<[bs "http.request.method" := Request.method_ req]>
      (<[bs "url.scheme" := Request.scheme_ req]>
        (<[bs "trace_id" := get_string (bs "trace_id") ctx]> ∅))) (now - started) true)) ;;
  meter (up_down_counter_add active_name (d_of_Z (-1)) ∅).

(** What follows [next()]. *)
Definition observe_success (started : Z) : M W () :=
  do req <- get_request;
  do res <- get_response;
  do ctx <- get_context;
  do now <- clock;
  let elapsed := ddiv (d_of_Z (now - started)) (d_of_Z nanos_per_second) in
  let attributes :=
    <[bs "http.request.method" := Request.method_ req]>
      (<[bs "http.response.status_code" := to_dec_signed (Response.status_code_ res)]>
        (<[bs "url.scheme" := Request.scheme_ req]> ∅)) in
  meter (histogram_record (bs "http.server.request.duration") elapsed (bs "s") attributes) ;;
  meter (histogram_record (bs "http.server.request.body.size")
           (d_of_Z (Request.content_length req)) (bs "By") attributes) ;;
  meter (histogram_record (bs "http.server.response.body.size")
           (d_of_Z (Response.body_size res)) (bs "By") attributes) ;;
  do now <- clock;
  meter (record_span (mkSpan (bs "http.server.request")
    (<[bs "trace_id" := get_string (bs "trace_id") ctx]> attributes) (now - started)
    (500 <=? Response.status_code_ res))) ;;
  meter (up_down_counter_add active_name (d_of_Z (-1)) ∅).

(** [handle] before [next()]. *)
Definition observe_start : M W Z :=
  do started <- clock;
  do req <- get_request;
  do trace <- on_world (begin_server_span req);
  inject_response trace ;;
  meter (up_down_counter_add active_name (d_of_Z 1) ∅) ;;
  ret started.

Definition handle (next : M W ()) : M W () :=
  do started <- observe_start;
  fun x =>
    match next x with
    | (inr _, x) => observe_success started x
    | (inl Undefined, x) => (inl Undefined, x)
    | (inl e, x) =>
        match observe_failure started x with
        | (inr _, x) => (inl e, x)
        | other => other
        end
    end.

End Handle.
End HttpObservation.
