(* ===== verification/ObservabilityProps.v ===== *)
(** * Observability: what is propagated and recorded

    The trace-context parser is the grammar of the header; a trace crosses
    from a client to a server; buffers of records stay bounded; the counter of
    active requests; metrics that share a key. *)

From S2P Require Import Prelude CxxString CxxDouble HttpMessage Middleware BrowserAuth Observability.
Import Middleware HeaderMapSpec Trace.

Module TraceProps.

(** ** The header *)

Definition hex_digit (c : byte) : Prop :=
  isdigit c = true \/ 97 <= byte_val c <= 102.

Definition hex_field (n : nat) (s : bytes) : Prop := length s = n /\ Forall hex_digit s.

Lemma hex_digit_spec c :
  isdigit c || ((97 <=? byte_val c) && (byte_val c <=? 102)) = true <-> hex_digit c.
Proof. unfold hex_digit. rewrite orb_true_iff, andb_true_iff, !Z.leb_le. done. Qed.

Lemma is_lower_hex_spec n s : length s = S n -> is_lower_hex s = true <-> hex_field (S n) s.
Proof.
  intros L. unfold is_lower_hex, hex_field. destruct s as [|c s]; [done|].
  rewrite (proj2 (Z.eqb_neq _ _)) by len_lia. rewrite forallb_Forall. split.
  - intros H. split; [done|]. eapply Forall_impl; [exact H|]. intros. by apply hex_digit_spec.
  - intros [_ H]. eapply Forall_impl; [exact H|]. intros. by apply hex_digit_spec.
Qed.

(** A [traceparent] value with these fields. *)
Definition spells (v version tid pid flags : bytes) : Prop :=
  v = version ++ bs "-" ++ tid ++ bs "-" ++ pid ++ bs "-" ++ flags /\
  hex_field 2 version /\ hex_field 32 tid /\ hex_field 16 pid /\ hex_field 2 flags /\
  version <> bs "ff" /\ all_zero tid = false /\ all_zero pid = false.

(** A value of the header is the concatenation of its parts and dashes. *)
Lemma value_parts (v : bytes) : length v = 55%nat -> v !! 2%nat = Some "-"%char ->
  v !! 35%nat = Some "-"%char -> v !! 52%nat = Some "-"%char ->
  v = substr 0 2 v ++ bs "-" ++ substr 3 32 v ++ bs "-" ++ substr 36 16 v ++ bs "-" ++ substr 53 2 v.
Proof.
  intros L A B C. do 55 (destruct v as [|? v]; [done|]). destruct v; [|done].
  cbn in A, B, C. injection A as ->. injection B as ->. injection C as ->. reflexivity.
Qed.

Lemma substr_length i n v : (i + n <= length v)%nat -> length (substr i n v) = n.
Proof. unfold substr. intros H. rewrite length_take, length_drop. lia. Qed.

(** The parts of a spelled value. *)
Lemma spelled_parts v version tid pid flags :
  v = version ++ bs "-" ++ tid ++ bs "-" ++ pid ++ bs "-" ++ flags ->
  length version = 2%nat -> length tid = 32%nat -> length pid = 16%nat -> length flags = 2%nat ->
  length v = 55%nat /\ dash_at 2 v = true /\ dash_at 35 v = true /\ dash_at 52 v = true /\
  substr 0 2 v = version /\ substr 3 32 v = tid /\ substr 36 16 v = pid /\ substr 53 2 v = flags.
Proof.
  intros -> L1 L2 L3 L4.
  do 2 (destruct version as [|? version]; [done|]). destruct version; [|done].
  do 32 (destruct tid as [|? tid]; [done|]). destruct tid; [|done].
  do 16 (destruct pid as [|? pid]; [done|]). destruct pid; [|done].
  do 2 (destruct flags as [|? flags]; [done|]). destruct flags; [|done].
  split_and!; reflexivity.
Qed.

(** The parser accepts exactly the spelled values, and returns their fields. *)
Theorem extract_trace_context_correct request t :
  extract_trace_context request = Some t <->
  exists v version, Request.header (bs "traceparent") request = Some v /\
    spells v version (trace_id t) (parent_span_id t) (trace_flags t) /\ span_id t = [] /\
    tracestate t = default [] (Request.header (bs "tracestate") request).
Proof.
  unfold extract_trace_context. split.
  - destruct (Request.header (bs "traceparent") request) as [v|]; [|done].
    destruct (len v =? 55) eqn:L; [|done]. cbn [negb].
    destruct (dash_at 2 v) eqn:A; [|done]. destruct (dash_at 35 v) eqn:B; [|done].
    destruct (dash_at 52 v) eqn:C; [|done]. cbn [negb orb]. unfold dash_at in A, B, C.
    case_match eqn:G; [done|]. intros [= <-]. cbn. to_prop.
    assert (length v = 55%nat) as LV by (unfold len in L; lia).
    exists v, (substr 0 2 v). split; [done|]. split; [|done].
    split; [by apply value_parts|].
    split_and!; try (by eapply is_lower_hex_spec; [apply substr_length; rewrite LV; lia|]); done.
  - intros (v & version & -> & (Ev & [V1 V2] & [T1 T2] & [P1 P2] & [F1 F2] & Nff & Zt & Zp) & Hs & Ht).
    destruct (spelled_parts v version (trace_id t) (parent_span_id t) (trace_flags t)) as
      (L & A & B & C & E1 & E2 & E3 & E4); [done..|].
    assert (len v =? 55 = true) as -> by (apply Z.eqb_eq; unfold len; lia).
    rewrite A, B, C, E1, E2, E3, E4. cbn [negb orb].
    rewrite bool_decide_false, Zt, Zp by done.
    rewrite (proj2 (is_lower_hex_spec 1 version V1)), (proj2 (is_lower_hex_spec 31 _ T1)),
      (proj2 (is_lower_hex_spec 15 _ P1)), (proj2 (is_lower_hex_spec 1 _ F1)) by (by split).
    cbn [negb orb]. destruct t; cbn in *; by subst.
Qed.

(** ** Propagation *)

(** A trace another service may continue. *)
Definition carries (t : TraceContext) : Prop :=
  hex_field 32 (trace_id t) /\ all_zero (trace_id t) = false /\ hex_field 2 (trace_flags t).

Lemma digit_char_hex d : 0 <= d < 16 -> hex_digit (digit_char d).
Proof.
  intros H. unfold hex_digit, digit_char, isdigit.
  destruct (d <? 10) eqn:E; to_prop; rewrite !val_of_byte_small by lia; [left|right; lia].
  apply andb_true_iff. split; apply Z.leb_le; lia.
Qed.

Lemma hex_text_field b : hex_field (2 * length b) (hex_text b).
Proof.
  induction b as [|x b [L F]]; [by split|]. unfold hex_text in *. cbn [flat_map].
  pose proof (byte_val_range x) as R. split; [rewrite length_app, L; cbn; lia|].
  apply Forall_app. split; [|done].
  rewrite !Forall_cons. split_and!; [apply digit_char_hex..|constructor].
  - rewrite Z.shiftr_div_pow2 by lia. change (2 ^ 4) with 16. dm_lia.
  - change 15 with (Z.ones 4). rewrite Z.land_ones by lia. apply Z.mod_pos_bound. lia.
Qed.

Section Random.
Context {W : Type} `{!Platform W} `{!PlatformLaws W}.

Lemma random_hex_field n w s w' : random_hex n w = (inr s, w') -> hex_field (2 * n) s.
Proof.
  unfold random_hex. destruct (RAND_bytes n w) as [[b|] w1] eqn:E; [|done].
  intros [= <- <-]. rewrite <- (rand_length _ _ _ _ E). apply hex_text_field.
Qed.

Lemma hex_field_nonempty n s : hex_field (S n) s -> len s =? 0 = false.
Proof. intros [L _]. apply Z.eqb_neq. unfold len. lia. Qed.

(** A span of a trace that is known keeps its fields. *)
Lemma complete_span_known c w t w' : carries c -> complete_span c w = (inr t, w') ->
  trace_id t = trace_id c /\ parent_span_id t = parent_span_id c /\ trace_flags t = trace_flags c /\
  tracestate t = tracestate c /\ hex_field 16 (span_id t).
Proof.
  intros (T & _ & F) E. unfold complete_span in E.
  rewrite (hex_field_nonempty _ _ T), (hex_field_nonempty _ _ F) in E.
  destruct (random_hex 8 w) as [[e|sid] w1] eqn:R; [done|]. injection E as <- <-.
  cbn. split_and!; try done. by apply random_hex_field in R.
Qed.

(** What an injected header map says of the trace. *)
Lemma inject_headers_get t h :
  HeaderMap.get (bs "traceparent") (inject_headers t h) = Some (traceparent t) /\
  default [] (HeaderMap.get (bs "tracestate") (inject_headers t h)) = tracestate t.
Proof.
  unfold inject_headers. destruct (len (tracestate t) =? 0) eqn:E.
  - assert (tracestate t = []) as -> by (destruct (tracestate t); [done|to_prop; len_lia]).
    split.
    + by rewrite get_abs, abs_remove, abs_set.
    + by rewrite get_abs, abs_remove.
  - split; [|by rewrite get_set_same]. by rewrite get_set_other, get_set_same.
Qed.

Lemma extract_injected t h request : carries t -> hex_field 16 (span_id t) ->
  all_zero (span_id t) = false -> Request.headers_ request = inject_headers t h ->
  extract_trace_context request =
  Some (mkTrace (trace_id t) [] (span_id t) (trace_flags t) (tracestate t)).
Proof.
  intros (T & Z & F) S ZS E. apply extract_trace_context_correct.
  destruct (inject_headers_get t h) as [G1 G2]. unfold Request.header. rewrite E.
  exists (traceparent t), (bs "00"). cbn [trace_id span_id parent_span_id trace_flags tracestate].
  split_and!; [done| |done|done]. split_and!; try done.
  split; [done|]. change (bs "00") with ["0"%char; "0"%char].
  rewrite !Forall_cons. split_and!; [by left..|constructor].
Qed.

(** A trace crosses from one service to another: the span a client opens under
    a parent and injects into its request, whatever headers it already had, is
    the parent of the span the server opens, in the same trace, with the same
    flags and state; the server's own span has the shape of an identifier. *)
Theorem trace_propagates parent client server h request w1 w2 w3 w4
    (Hparent : carries parent)
    (Hclient : begin_client_span (Some parent) w1 = (inr client, w2))
    (Hspan : all_zero (span_id client) = false)
    (Hrequest : Request.headers_ request = inject_headers client h)
    (Hserver : begin_server_span request w3 = (inr server, w4)) :
  trace_id server = trace_id parent /\ parent_span_id server = span_id client /\
  parent_span_id client = span_id parent /\ trace_flags server = trace_flags parent /\
  tracestate server = tracestate parent /\ hex_field 16 (span_id server).
Proof.
  unfold begin_client_span in Hclient.
  apply complete_span_known in Hclient as (C1 & C2 & C3 & C4 & C5); [|exact Hparent].
  cbn [trace_id parent_span_id trace_flags tracestate] in *.
  assert (carries client) as Hc by (unfold carries; rewrite C1, C3; exact Hparent).
  unfold begin_server_span in Hserver. rewrite (extract_injected client h) in Hserver by done.
  cbn [default] in Hserver.
  apply complete_span_known in Hserver as (S1 & S2 & S3 & S4 & S5);
    [|unfold carries; cbn [trace_id trace_flags]; exact Hc].
  cbn [trace_id parent_span_id trace_flags tracestate] in *.
  rewrite S1, S2, S3, S4, C1, C3, C4. done.
Qed.

End Random.

End TraceProps.

Module MeterProps.
Import Meters.

(** ** Records *)

Lemma push_record_bounded {A} (x : A) l : len l <= max_completed_records_ ->
  len (push_record x l) <= max_completed_records_ /\ last (push_record x l) = Some x.
Proof.
  unfold push_record, max_completed_records_. intros H. split; [|apply last_snoc].
  destruct (len l =? 1024) eqn:E; to_prop; [|len_lia]. destruct l; [done|]. cbn [tail]. len_lia.
Qed.

(** ** Histograms *)

(** How many of [vs] are at most [b]. *)
Definition at_most (b : double) (vs : list double) : Z := len (List.filter (fun v => dleb v b) vs).

(** The point of a histogram that recorded [vs]. *)
Definition recorded (n u : bytes) (a : gmap bytes bytes) (vs : list double) : MetricPoint :=
  mkPoint n u Histogram a zero (len vs) (foldl dadd zero vs)
    (map (fun b => mkBucket (upper_bound b) (at_most (upper_bound b) vs)) (default_histogram_buckets u)).

Lemma at_most_snoc b vs v : at_most b (vs ++ [v]) = at_most b vs + (if dleb v b then 1 else 0).
Proof. unfold at_most. rewrite List.filter_app, len_app. cbn. by destruct (dleb v b). Qed.

Lemma at_most_le b vs : 0 <= at_most b vs <= len vs.
Proof. unfold at_most, len. pose proof (List.filter_length_le (fun v => dleb v b) vs). lia. Qed.

Lemma record_step n u a vs v r : n <> [] -> len vs + 1 < 2 ^ 64 ->
  points_ r !! key_for n Histogram u a = Some (recorded n u a vs) ->
  points_ (histogram_record n v u a r) !! key_for n Histogram u a = Some (recorded n u a (vs ++ [v])).
Proof.
  intros Hn Hl E. unfold histogram_record, stored, store. rewrite E. cbn [default from_option id].
  cbn [points_ name recorded]. rewrite (proj2 (Z.eqb_neq _ _)) by (destruct n; [done|len_lia]).
  rewrite lookup_insert_eq. unfold recorded.
  cbn [name unit_ kind attributes value count sum buckets]. rewrite foldl_app, map_map, len_app.
  cbn [foldl]. change (len [v]) with 1. rewrite (wrap64_small (len vs + 1)) by (unfold in_u64; len_lia).
  do 2 f_equal. apply map_ext. intros b. unfold count_bucket. cbn [upper_bound bucket_count].
  rewrite at_most_snoc. pose proof (at_most_le (upper_bound b) vs). destruct (dleb _ _).
  - by rewrite wrap64_small by (unfold in_u64; lia).
  - by rewrite Z.add_0_r.
Qed.

(** A histogram counts its observations: after any sequence of recordings of a
    new metric the count is their number, the sum their sum in order, and each
    bucket holds the number of values up to its bound. *)
Theorem histogram_counts n u a vs r
    (Hname : n <> []) (Hnew : points_ r !! key_for n Histogram u a = None)
    (Hsome : vs <> []) (Hlen : len vs < 2 ^ 64) :
  points_ (foldl (fun r v => histogram_record n v u a r) r vs) !! key_for n Histogram u a =
  Some (recorded n u a vs).
Proof.
  induction vs as [|v vs IH] using rev_ind; [done|]. rewrite foldl_app. cbn [foldl].
  destruct (decide (vs = [])) as [->|Hvs]; cbn [foldl app].
  - unfold histogram_record, stored, store. rewrite Hnew. cbn [default from_option id points_ name no_point].
    change (len [] =? 0) with true. cbn iota. rewrite lookup_insert_eq. cbn. unfold recorded. do 2 f_equal.
    rewrite ?map_map. apply map_ext_in. intros b Hb. unfold count_bucket, at_most. cbn.
    unfold default_histogram_buckets in Hb. apply in_map_iff in Hb as (x & <- & _). cbn.
    by destruct (dleb v x).
  - apply record_step; [done|len_lia|]. apply IH; [done|len_lia].
Qed.

Lemma histogram_counts_witness :
  points_ (foldl (fun r v => histogram_record (bs "t") v (bs "By") ∅ r) empty_registry
             [d_of_Z 100; d_of_Z 600; d_of_Z 128]) !! key_for (bs "t") Histogram (bs "By") ∅ =
  Some (recorded (bs "t") (bs "By") ∅ [d_of_Z 100; d_of_Z 600; d_of_Z 128]).
Proof. apply histogram_counts; [done|reflexivity|done|by vm_compute]. Defined.

(** ** Keys *)

(** The separators of a key are not escaped: two sets of attributes that differ
    share a counter. *)
Lemma metric_key_collides :
  let one : gmap bytes bytes := {[bs "a" := bs "1|b=2"]} in
  let two : gmap bytes bytes := <[bs "b" := bs "2"]> {[bs "a" := bs "1"]} in
  one <> two /\ key_for (bs "m") Counter (bs "1") one = key_for (bs "m") Counter (bs "1") two.
Proof.
  split; [|vm_compute; reflexivity].
  intros E. apply (f_equal (lookup (bs "b"))) in E. vm_compute in E. discriminate.
Qed.

(** ** The middleware *)

Section Observation.
Import HttpObservation.
Context {W : Type} `{!Platform W} `{!Part MeterRegistry W} `{!SteadyClock W}.

Definition active (r : MeterRegistry) : double :=
  value (stored (key_for active_name UpDownCounter (bs "1") ∅) active_name (bs "1") UpDownCounter ∅ [] r).

(** Metrics of another kind leave the counter of active requests alone. *)
Lemma key_for_kind n n' k k' u u' a a' : "|"%char ∉ n -> "|"%char ∉ n' -> kind_value k <> kind_value k' ->
  key_for n k u a <> key_for n' k' u' a'.
Proof.
  intros H1 H2 Hk E. unfold key_for in E.
  assert (forall x y (p q : bytes), "|"%char ∉ x -> "|"%char ∉ y ->
    x ++ "|"%char :: p = y ++ "|"%char :: q -> p = q) as C.
  { intros x y p q Hx Hy Exy. pose proof (find_char_app "|"%char x p Hx) as F1.
    rewrite Exy, (find_char_app "|"%char y q Hy) in F1. injection F1 as F1.
    apply app_inj_1 in Exy as [_ [= ?]]; done. }
  apply C in E; [|done..].
  assert (forall k, "|"%char ∉ to_dec (kind_value k)) as D
    by (intros []; by apply find_char_None).
  pose proof E as E2. apply (f_equal (find_char "|"%char)) in E2.
  change (bs "|" ++ ?x) with ("|"%char :: x) in *.
  destruct k, k'; try done; cbn in E; congruence.
Qed.

Lemma active_store_other key p r : key <> key_for active_name UpDownCounter (bs "1") ∅ ->
  active (store key p r) = active r.
Proof. intros H. unfold active, stored, store. cbn [points_]. by rewrite lookup_insert_ne. Qed.

Lemma active_histogram n v u a r : "|"%char ∉ n -> active (histogram_record n v u a r) = active r.
Proof.
  intros H. apply active_store_other. apply key_for_kind; [done|by apply find_char_None|done].
Qed.

Lemma active_add v r : active (up_down_counter_add active_name v ∅ r) = dadd (active r) v.
Proof.
  unfold active at 1, up_down_counter_add. unfold stored at 1, store. cbn [points_].
  rewrite lookup_insert_eq. cbn [default from_option id set_value name].
  unfold active, stored. destruct (len (name (default no_point _)) =? 0) eqn:E; [done|].
  cbn [name set_value]. rewrite E. done.
Qed.

Lemma active_span s r : active (record_span s r) = active r.
Proof. done. Qed.

Lemma spans_up_down n v a r : spans_ (up_down_counter_add n v a r) = spans_ r.
Proof. done. Qed.

Lemma spans_histogram n v u a r : spans_ (histogram_record n v u a r) = spans_ r.
Proof. done. Qed.

Definition registry (x : Exchange W) : MeterRegistry := part (world x).

(** The random source does not touch the meters. *)
Hypothesis rand_frame : forall n w, part (snd (RAND_bytes n w)) = part (S := MeterRegistry) w.

Lemma random_hex_frame n w : part (S := MeterRegistry) (snd (random_hex n w)) = part w.
Proof.
  unfold random_hex. pose proof (rand_frame n w). by destruct (RAND_bytes n w) as [[b|] w'].
Qed.

Lemma begin_server_span_frame r w : part (S := MeterRegistry) (snd (begin_server_span r w)) = part w.
Proof.
  unfold begin_server_span, complete_span.
  destruct (if len _ =? 0 then _ else _) as [rt w1] eqn:E1.
  assert (part (S := MeterRegistry) w1 = part w) as <-.
  { destruct (len _ =? 0); [|by injection E1 as <- <-].
    rewrite <- (random_hex_frame 16 w). by rewrite E1. }
  destruct rt as [e|tid]; [done|]. rewrite <- (random_hex_frame 8 w1).
  by destruct (random_hex 8 w1) as [[?|?] ?].
Qed.

(** Every request is observed once: around a handler that ends in any way but
    undefined behaviour, the middleware returns or throws what the handler did,
    changes nothing of the request, the response and the context after it, adds
    one to the active requests before it and takes one away after it, and
    records one span, marked as an error exactly when the handler threw or the
    status is 500 or more. *)
Theorem observation_brackets next x started x1 r x2
    (Hstart : observe_start x = (inr started, x1)) (Hnext : next x1 = (r, x2))
    (Hdef : r <> inl Undefined) :
  exists x3 span, handle next x = (r, x3) /\
    request x3 = request x2 /\ response x3 = response x2 /\ context x3 = context x2 /\
    active (registry x1) = dadd (active (registry x)) (d_of_Z 1) /\
    active (registry x3) = dadd (active (registry x2)) (d_of_Z (-1)) /\
    spans_ (registry x3) = push_record span (spans_ (registry x2)) /\
    error span = match r with inl _ => true | inr _ => 500 <=? Response.status_code_ (response x2) end.
Proof.
  assert (active (registry x1) = dadd (active (registry x)) (d_of_Z 1)) as Hone.
  { unfold observe_start, bind, clock, get_request, on_world in Hstart.
    pose proof (begin_server_span_frame (request x) (world x)) as F.
    destruct (begin_server_span (request x) (world x)) as [[e|t] w1]; [done|].
    cbn [snd] in F. unfold inject_response, bind, on_response, on_context, meter, on_world, ret in Hstart.
    cbn in Hstart. injection Hstart as <- <-. unfold registry. cbn [world].
    rewrite part_set, active_add. by rewrite F. }
  unfold handle. rewrite (bind_ok _ _ _ _ _ Hstart), Hnext.
  destruct r as [e|[]].
  - assert (exists x3 span, observe_failure started x2 = (inr (), x3) /\
      request x3 = request x2 /\ response x3 = response x2 /\ context x3 = context x2 /\
      active (registry x3) = dadd (active (registry x2)) (d_of_Z (-1)) /\
      spans_ (registry x3) = push_record span (spans_ (registry x2)) /\ error span = true)
      as (x3 & span & -> & H).
    { unfold observe_failure, bind, get_request, get_context, clock, meter, on_world.
      eexists _, _. split; [reflexivity|]. cbn [request response context]. unfold registry. cbn [world].
      rewrite !part_set, active_add, active_span. done. }
    destruct H as (H1 & H2 & H3 & H4 & H5 & H6).
    exists x3, span. destruct e; [split_and!; done..|by destruct Hdef].
  - eexists _, _. unfold observe_success, bind, get_request, get_response, get_context, clock, meter, on_world.
    split; [reflexivity|]. cbn [request response context]. unfold registry. cbn [world].
    rewrite !part_set. rewrite active_add, active_span, !active_histogram by (by apply find_char_None).
    done.
Qed.

End Observation.

(** For the counts a server sees, adding one and taking it away again is exact. *)
Lemma active_count_exact :
  forallb (fun n => d_to_Z (dadd (dadd (d_of_Z n) (d_of_Z 1)) (d_of_Z (-1))) =? n)
    (map Z.of_nat (seq 0 1000)) = true.
Proof. by vm_compute. Qed.
End MeterProps.

(** ** Witnesses *)

Module ObservationWitness.
Import TraceProps Meters MeterProps HttpObservation.

(** A world with meters, a clock and a generator that counts. *)
Record Lab := mkLab { lab_meters : MeterRegistry; lab_time : Z; lab_seed : Z }.

#[local] Instance lab_platform : Platform Lab := {|
  RAND_bytes n w := (Some (map (fun i => byte_of_Z (lab_seed w + Z.of_nat i)) (seq 0 n)),
                     mkLab (lab_meters w) (lab_time w) (lab_seed w + 1));
  CRYPTO_memcmp a b := if bool_decide (a = b) then 0 else 1;
  system_now w := lab_time w
|}.

#[local] Instance lab_laws : PlatformLaws Lab.
Proof.
  split.
  - intros n w b w' [= <- <-]. by rewrite length_map, length_seq.
  - intros a b _. cbn. case_bool_decide; split; done.
Qed.

#[local] Instance lab_part : Part MeterRegistry Lab.
Proof.
  refine {| part := lab_meters; set_part := fun m w => mkLab m (lab_time w) (lab_seed w) |};
    [done|by intros []|done].
Defined.

#[local] Instance lab_clock : SteadyClock Lab := lab_time.

Definition lab : Lab := mkLab empty_registry 5 1.

Definition parent_trace : TraceContext :=
  mkTrace (bs "4bf92f3577b34da6a3ce929d0e0e4736") (bs "00f067aa0ba902b7") [] (bs "01") (bs "vendor=1").

Definition client_trace : TraceContext :=
  mkTrace (trace_id parent_trace) (bs "0102030405060708") (span_id parent_trace) (bs "01") (bs "vendor=1").

Definition propagated : Request.t :=
  Request.set_headers (inject_headers client_trace [HeaderMap.mkEntry (bs "TraceParent") (bs "stale")])
    Request.init.

Lemma parent_carries : carries parent_trace.
Proof.
  split_and!; [by apply (is_lower_hex_spec 31)|reflexivity|by apply (is_lower_hex_spec 1)].
Qed.

Lemma trace_propagates_witness :
  let server := mkTrace (trace_id parent_trace) (bs "090a0b0c0d0e0f10") (span_id client_trace)
                  (bs "01") (bs "vendor=1") in
  begin_server_span propagated (mkLab empty_registry 5 9) = (inr server, mkLab empty_registry 5 10) /\
  trace_id server = trace_id parent_trace /\ parent_span_id server = span_id client_trace.
Proof.
  assert (begin_server_span propagated (mkLab empty_registry 5 9) =
    (inr (mkTrace (trace_id parent_trace) (bs "090a0b0c0d0e0f10") (span_id client_trace)
            (bs "01") (bs "vendor=1")), mkLab empty_registry 5 10)) as E by (vm_compute; reflexivity).
  split; [exact E|].
  assert (begin_client_span (Some parent_trace) lab = (inr client_trace, mkLab empty_registry 5 2)) as C
    by (vm_compute; reflexivity).
  destruct (trace_propagates parent_trace client_trace _ _ propagated _ _ _ _ parent_carries C
    eq_refl eq_refl E) as (H1 & H2 & _).
  split; [exact H1|exact H2].
Defined.

(** A handler that throws after setting a status, and one that returns. *)
Definition crash : M Lab () := fun x => (inl (RuntimeError (bs "boom")), x).

Lemma observation_brackets_witness :
  exists x2 x3 span,
    handle crash (mkEx Request.init Response.init Context.empty lab) = (inl (RuntimeError (bs "boom")), x3) /\
    spans_ (registry x3) = push_record span (spans_ (registry x2)) /\ error span = true /\
    active (registry x3) = dadd (active (registry x2)) (d_of_Z (-1)).
Proof.
  destruct (observe_start (mkEx Request.init Response.init Context.empty lab)) as [[e|started] x1] eqn:S;
    [vm_compute in S; discriminate|].
  destruct (observation_brackets (W := Lab) ltac:(done) crash _ started x1 _ _ S eq_refl ltac:(done))
    as (x3 & span & H1 & H2 & H3 & H4 & H5 & H6 & H7 & H8).
  exists x1, x3, span. split; [exact H1|]. split; [exact H7|]. split; [exact H8|exact H6].
Defined.

End ObservationWitness.
