(* ===== verification/ClientHttp1.v ===== *)
(** * The HTTP/1.1 side of the REST client

    [client/rest_client.cpp]: what [async_request] writes on a connection and
    [try_parse_http1_response], which takes a response out of the bytes
    received so far.  A [BodyChunkProvider] is the list of chunks it returns
    until [std::nullopt]. *)

From S2P Require Import Prelude CxxString HttpMessage Http1.

Module ClientHttp1.
Import Http1 (CRLF).

(** [http3::ClientResponse] *)
Record ClientResponse := mkClientResponse {
  status_code : Z;
  headers : list HeaderMap.Entry;
  body : bytes
}.

(** ** The request *)

(** [std::format("{:X}", n)] *)
Definition to_upper_hex (n : Z) : bytes := upper (to_hex n).

Definition is_content_length (e : HeaderMap.Entry) : bool :=
  bool_decide (lower (HeaderMap.name e) = bs "content-length").

Definition request_header (e : HeaderMap.Entry) : bytes :=
  HeaderMap.name e ++ bs ": " ++ HeaderMap.value e ++ CRLF.

Definition request_chunk (chunk : bytes) : bytes :=
  if len chunk =? 0 then [] else to_upper_hex (len chunk) ++ CRLF ++ chunk ++ CRLF.

Definition http1_request (host method path body : bytes) (headers : list HeaderMap.Entry)
    (body_stream : option (list bytes)) : bytes :=
  let has_content_length := existsb is_content_length headers in
  let is_streaming_body := match body_stream with Some _ => true | None => false end in
  method ++ bs " " ++ path ++ bs " HTTP/1.1" ++ CRLF ++
  bs "Host: " ++ host ++ CRLF ++
  concat (map request_header headers) ++
  (if negb (len body =? 0) && negb has_content_length
   then bs "Content-Length: " ++ to_dec (len body) ++ CRLF
   else if is_streaming_body && negb has_content_length
   then bs "Transfer-Encoding: chunked" ++ CRLF else []) ++
  bs "Connection: keep-alive" ++ CRLF ++ CRLF ++
  (if negb (len body =? 0) then body
   else match body_stream with
        | Some chunks => concat (map request_chunk chunks) ++ bs "0" ++ CRLF ++ CRLF
        | None => []
        end).

(** ** The response *)

(** [std::stoi]: as [strtol], then the range of [int]. *)
Definition stoi (s : bytes) : result number_error Z :=
  let '(neg, r) := strip_sign (drop_while isspace s) in
  match r with
  | d :: _ =>
      match digit_val 10 d with
      | None => inl NoDigits
      | Some _ =>
          let v := fst (digits_run 10 0 r) in
          let v := if neg : bool then - v else v in
          if (- 2 ^ 31 <=? v) && (v <? 2 ^ 31) then inr v else inl OutOfRange
      end
  | [] => inl NoDigits
  end.

(** [s.find(p, pos)] *)
Definition find_sub_from (p : bytes) (pos : nat) (s : bytes) : option nat :=
  Nat.add pos <$> find_sub p (drop pos s).

(** [s.substr(pos, n)], which stops at the end of [s]. *)
Definition substr (pos n : Z) (s : bytes) : bytes :=
  let r := drop (Z.to_nat pos) s in take (Z.to_nat (Z.min n (len r))) r.

(** How an attempt to parse ends: the early returns, the disconnection after
    a bad chunk size, an exception that leaves the function, a response with
    the number of bytes it took. *)
Inductive Parse :=
| Incomplete
| Disconnect
| Throws
| Parsed (r : ClientResponse) (total_parsed_len : Z)
| OutOfFuel.

(** The number on the status line. *)
Definition parse_status (status_line : bytes) : option Z :=
  if negb (starts_with (bs "HTTP/1.") status_line) then None
  else
    match find_char " "%char status_line with
    | None => None
    | Some code_start =>
        let code_start := (code_start + 1)%nat in
        let code_end := default (length status_line) (find_char_from " "%char code_start status_line) in
        match stoi (take (code_end - code_start) (drop code_start status_line)) with
        | inr code => Some code
        | inl _ => None
        end
    end.

(** What the header loop collects. *)
Record Head := mkHead { h_headers : list HeaderMap.Entry; content_length : Z; is_chunked : bool }.

Definition header_line (line : bytes) (h : Head) : result number_error Head :=
  match find_char ":"%char line with
  | None => inr h
  | Some colon =>
      let name := trim_find blank (take colon line) in
      let value := trim_find blank (drop (colon + 1) line) in
      let hs := HeaderMap.add name value (h_headers h) in
      let name_lower := lower name in
      if bool_decide (name_lower = bs "content-length") then
        match stoull 10 value with
        | inr (n, _) => inr (mkHead hs n (is_chunked h))
        | inl e => inl e
        end
      else if bool_decide (name_lower = bs "transfer-encoding") then
        inr (mkHead hs (content_length h)
               (if bool_decide (lower value = bs "chunked") then true else is_chunked h))
      else inr (mkHead hs (content_length h) (is_chunked h))
  end.

(** [while (pos < headers_block.size())]; each turn moves past a line. *)
Fixpoint header_lines (fuel : nat) (block : bytes) (h : Head) : result number_error Head :=
  match fuel with
  | O => inr h
  | S fuel' =>
      match block with
      | [] => inr h
      | _ =>
          let line_end := default (length block) (find_sub CRLF block) in
          match header_line (take line_end block) h with
          | inl e => inl e
          | inr h => header_lines fuel' (drop (line_end + 2) block) h
          end
      end
  end.

(** [while (true)] over the chunks; the sums wrap. *)
Fixpoint chunks (fuel : nat) (buf : bytes) (body_pos : Z) (status : Z) (hs : list HeaderMap.Entry)
    (body : bytes) : Parse :=
  match fuel with
  | O => OutOfFuel
  | S fuel' =>
      match find_sub_from CRLF (Z.to_nat body_pos) buf with
      | None => Incomplete
      | Some size_line_end =>
          let size_str := take (size_line_end - Z.to_nat body_pos) (drop (Z.to_nat body_pos) buf) in
          match stoull 16 size_str with
          | inl _ => Disconnect
          | inr (chunk_size, _) =>
              let body_pos := wrap64 (Z.of_nat size_line_end + 2) in
              if chunk_size =? 0 then
                if len buf <? wrap64 (body_pos + 2) then Incomplete
                else Parsed (mkClientResponse status hs body) (wrap64 (body_pos + 2))
              else if len buf <? wrap64 (wrap64 (body_pos + chunk_size) + 2) then Incomplete
              else
                let chunk := substr body_pos chunk_size buf in
                chunks fuel' buf (wrap64 (body_pos + wrap64 (chunk_size + 2))) status hs (body ++ chunk)
          end
      end
  end.

(** [try_parse_http1_response] up to the response; [fuel] for the chunks. *)
Definition parse_response (fuel : nat) (buf : bytes) : Parse :=
  match find_sub CRLF buf with
  | None => Incomplete
  | Some status_line_end =>
      match parse_status (take status_line_end buf) with
      | None => Incomplete
      | Some status =>
          let headers_start := (status_line_end + 2)%nat in
          match find_sub_from (CRLF ++ CRLF) headers_start buf with
          | None => Incomplete
          | Some block_end =>
              let block := take (block_end - headers_start) (drop headers_start buf) in
              match header_lines (S (length block)) block (mkHead [] 0 false) with
              | inl _ => Throws
              | inr h =>
                  let body_start := Z.of_nat (block_end + 4) in
                  if is_chunked h then chunks fuel buf body_start status (h_headers h) []
                  else
                    let stop := wrap64 (body_start + content_length h) in
                    if len buf <? stop then Incomplete
                    else Parsed (mkClientResponse status (h_headers h)
                                   (substr body_start (content_length h) buf))
                                stop
              end
          end
      end
  end.

(** The whole function on the receive buffer: the response, if any, and the
    buffer after [erase(0, total_parsed_len)]. *)
Definition try_parse_http1_response (fuel : nat) (http1_recv_buf_ : bytes) : Parse * bytes :=
  match parse_response fuel http1_recv_buf_ with
  | Parsed r n => (Parsed r n, drop (Z.to_nat n) http1_recv_buf_)
  | other => (other, http1_recv_buf_)
  end.

End ClientHttp1.
