(* ===== verification/ClientHttp1Props.v ===== *)
(** * The HTTP/1.1 client against the server of this framework

    The client's parser on what the server writes, however the bytes arrive;
    the server's parser on what the client writes; a whole exchange; and the
    responses on which the client misbehaves. *)

From S2P Require Import Prelude CxxString HttpMessage WebSocket WsHandshake Sse Http1 Http1Props ClientHttp1.
Import Http1 ClientHttp1.

Module ClientHttp1Props.

Abbreviation EOH := (CRLF ++ CRLF) (only parsing).

(** ** Searching for line ends *)

Lemma find_sub_eq p s : find_sub p s =
  if starts_with p s then Some 0%nat
  else match s with [] => None | _ :: r => S <$> find_sub p r end.
Proof. by destruct s. Qed.

Lemma find_crlf line rest : Sse.LF ∉ line -> find_sub CRLF (line ++ CRLF ++ rest) = Some (length line).
Proof. intros H. by apply (find_sub_crlf (byte_of_Z 13) (byte_of_Z 10)). Qed.

Lemma find_sub_app p s t i : find_sub p s = Some i -> find_sub p (s ++ t) = Some i.
Proof.
  revert i. induction s as [|c s IH]; intros i H.
  - rewrite find_sub_eq in H. destruct (starts_with p []) eqn:E; [|done]. injection H as <-.
    apply starts_with_spec in E as [r E]. symmetry in E. apply app_nil in E as [-> ->].
    by rewrite find_sub_eq.
  - rewrite find_sub_eq in H. change ((c :: s) ++ t) with (c :: (s ++ t)). rewrite find_sub_eq.
    destruct (starts_with p (c :: s)) eqn:E.
    + injection H as <-. apply starts_with_spec in E as [r E].
      assert (c :: (s ++ t) = p ++ (r ++ t)) as -> by (rewrite app_assoc, <- E; done).
      by rewrite starts_with_app.
    + destruct (find_sub p s) as [j|] eqn:F; [|done]. cbn in H. injection H as <-.
      rewrite (IH j eq_refl). cbn.
      destruct (starts_with p (c :: (s ++ t))) eqn:E2; [|done]. exfalso.
      apply starts_with_spec in E2 as [r E2]. apply find_sub_bound in F.
      assert (p = take (length p) (c :: s)) as Hp.
      { assert (length p <= length (c :: s))%nat as L by (cbn; lia).
        rewrite <- (take_app_le (c :: s) t) by done. change ((c :: s) ++ t) with (c :: (s ++ t)).
        rewrite E2. by rewrite take_app_length. }
      assert (starts_with p (c :: s) = true); [|congruence].
      apply starts_with_spec. exists (drop (length p) (c :: s)). rewrite Hp at 1. by rewrite take_drop.
Qed.

Lemma find_sub_from_app p k s t i : (k <= length s)%nat ->
  find_sub_from p k s = Some i -> find_sub_from p k (s ++ t) = Some i.
Proof.
  unfold find_sub_from. intros L. rewrite drop_app_le by done.
  destruct (find_sub p (drop k s)) as [j|] eqn:E; [|done]. intros H. by rewrite (find_sub_app _ _ _ _ E).
Qed.

Lemma starts_with_eoh t : starts_with EOH t = true <-> exists r, t = CRLF ++ CRLF ++ r.
Proof. rewrite starts_with_spec. by setoid_rewrite <- app_assoc. Qed.

(** The empty line is not found inside a line. *)
Lemma find_eoh_line l t : Sse.LF ∉ l ->
  find_sub EOH (l ++ CRLF ++ t) = Nat.add (length l) <$> find_sub EOH (CRLF ++ t).
Proof.
  intros H. induction l as [|c l IH].
  { change ([] ++ CRLF ++ t) with (CRLF ++ t). by destruct (find_sub EOH (CRLF ++ t)). }
  apply not_elem_of_cons in H as [Hc H]. specialize (IH H).
  change ((c :: l) ++ CRLF ++ t) with (c :: (l ++ CRLF ++ t)). rewrite find_sub_eq, IH.
  replace (starts_with EOH (c :: (l ++ CRLF ++ t))) with false.
  - by destruct (find_sub EOH (CRLF ++ t)).
  - symmetry. apply not_true_is_false. intros (r & E)%starts_with_eoh. destruct l as [|c' l].
    + done.
    + injection E as _ E _. apply not_elem_of_cons in H as [H _]. done.
Qed.

Lemma find_eoh_skip t : starts_with CRLF t = false ->
  find_sub EOH (CRLF ++ t) = Nat.add 2 <$> find_sub EOH t.
Proof.
  intros H. change (CRLF ++ t) with (byte_of_Z 13 :: byte_of_Z 10 :: t).
  rewrite find_sub_eq, (find_sub_eq _ (byte_of_Z 10 :: t)).
  replace (starts_with EOH (byte_of_Z 10 :: t)) with false by done.
  replace (starts_with EOH (byte_of_Z 13 :: byte_of_Z 10 :: t)) with false by (symmetry; exact H).
  by destruct (find_sub EOH t).
Qed.

(** A line of a header block. *)
Definition block_line (l : bytes) : Prop := l <> [] /\ Sse.LF ∉ l.

Lemma block_line_start l t : block_line l -> starts_with CRLF (l ++ CRLF ++ t) = false.
Proof.
  intros [N H]. apply not_true_is_false. intros (r & E)%starts_with_spec.
  destruct l as [|c l]; [done|]. apply not_elem_of_cons in H as [_ H].
  destruct l as [|c' l]; [done|]. injection E as _ E _. apply not_elem_of_cons in H as [H _]. done.
Qed.

Lemma lines_cons l ls : lines (l :: ls) = l ++ CRLF ++ lines ls.
Proof. unfold lines. cbn [map concat]. by rewrite <- app_assoc. Qed.

(** The end of a header block. *)
Lemma find_eoh_lines ls t : ls <> [] -> Forall block_line ls ->
  find_sub EOH (lines ls ++ CRLF ++ t) = Some (length (lines ls) - 2)%nat.
Proof.
  intros N H. destruct H as [|l ls Hl H]; [done|]. clear N.
  revert l Hl. induction H as [|l' ls Hl' H IH]; intros l Hl; rewrite lines_cons, <- !app_assoc.
  - rewrite find_eoh_line by apply Hl. change (lines [] ++ CRLF ++ t) with (CRLF ++ t).
    replace (find_sub EOH (CRLF ++ CRLF ++ t)) with (Some 0%nat) by done. cbn.
    f_equal. rewrite length_app. cbn. lia.
  - rewrite find_eoh_line by apply Hl.
    rewrite find_eoh_skip by (rewrite lines_cons, <- !app_assoc; by apply block_line_start).
    rewrite (IH l' Hl'). cbn. f_equal. rewrite (length_app l). cbn [length CRLF app].
    pose proof (lines_length (l' :: ls)). cbn in H0. cbn [length]. lia.
Qed.

(** ** Headers *)

Lemma lines_join ls : ls <> [] -> lines ls = join_with CRLF ls ++ CRLF.
Proof.
  intros N. induction ls as [|l ls IH]; [done|]. rewrite lines_cons.
  destruct ls as [|l' ls]; [done|]. rewrite IH by done.
  change (join_with CRLF (l :: l' :: ls)) with (l ++ CRLF ++ join_with CRLF (l' :: ls)).
  by rewrite <- !app_assoc.
Qed.

(** The loop over the lines of a block, as a fold. *)
Fixpoint fold_lines (ls : list bytes) (h : Head) : result number_error Head :=
  match ls with
  | [] => inr h
  | l :: ls =>
      match header_line l h with
      | inl e => inl e
      | inr h => fold_lines ls h
      end
  end.

Lemma header_lines_fold ls fuel h : Forall block_line ls -> (length ls < fuel)%nat ->
  header_lines fuel (join_with CRLF ls) h = fold_lines ls h.
Proof.
  intros H. revert fuel h. induction H as [|l ls [N L] H IH]; intros fuel h Hf;
    (destruct fuel as [|fuel]; [cbn in Hf; lia|]); [done|].
  destruct ls as [|l' ls].
  - cbn [join_with]. cbn [header_lines]. destruct l as [|c l]; [done|].
    assert (find_sub CRLF (c :: l) = None) as ->.
    { destruct (find_sub CRLF (c :: l)) as [i|] eqn:E; [|done].
      pose proof (find_sub_app _ _ (CRLF ++ []) _ E) as E2. apply find_sub_bound in E.
      rewrite find_crlf in E2 by done.
      injection E2 as <-. cbn in E. lia. }
    cbn [default from_option id]. rewrite take_ge by done. cbn [fold_lines].
    destruct (header_line (c :: l) h) as [e|h']; [done|].
    rewrite drop_ge by lia. by destruct fuel.
  - change (join_with CRLF (l :: l' :: ls)) with (l ++ CRLF ++ join_with CRLF (l' :: ls)).
    cbn [header_lines]. destruct (l ++ CRLF ++ _) as [|x y] eqn:E; [by destruct l|]. rewrite <- E.
    rewrite find_crlf by done. cbn [default from_option id].
    rewrite take_app_length. cbn [fold_lines]. destruct (header_line l h) as [e|h']; [done|].
    rewrite <- drop_drop, drop_app_length. change (drop 2 (CRLF ++ ?x)) with x.
    apply IH. cbn in *. lia.
Qed.

(** The entries a response of [n] bytes may carry. *)
Definition plain_entry (n : Z) (e : HeaderMap.Entry) : Prop :=
  printable e /\ lower (HeaderMap.name e) <> bs "transfer-encoding" /\
  (is_content_length e = true -> HeaderMap.value e = to_dec n).

Lemma header_line_entry n e h : 0 <= n <= u64_max -> plain_entry n e ->
  header_line (header_text e) h =
  inr (mkHead (h_headers h ++ [e]) (if is_content_length e then n else content_length h) (is_chunked h)).
Proof.
  intros Hn (P & T & C). destruct (header_text_split e P) as (E1 & E2 & E3).
  unfold header_line. rewrite E1. change (trim_find blank) with trim. rewrite E2, E3.
  unfold is_content_length in *.
  assert (HeaderMap.add (HeaderMap.name e) (HeaderMap.value e) (h_headers h) = h_headers h ++ [e]) as ->
    by (by destruct e).
  case_bool_decide as D.
  - rewrite (C eq_refl), stoull_to_dec by done. done.
  - by rewrite bool_decide_false.
Qed.

Lemma fold_entries n es h : 0 <= n <= u64_max -> Forall (plain_entry n) es ->
  fold_lines (map header_text es) h =
  inr (mkHead (h_headers h ++ es) (if existsb is_content_length es then n else content_length h)
         (is_chunked h)).
Proof.
  intros Hn H. revert h. induction H as [|e es He H IH]; intros h; cbn [map fold_lines existsb].
  - rewrite app_nil_r. by destruct h.
  - rewrite (header_line_entry n) by done. rewrite IH. cbn [h_headers content_length is_chunked].
    rewrite <- app_assoc. by destruct (is_content_length e), (existsb is_content_length es).
Qed.

(** ** The status line *)

Lemma stoi_to_dec n : 0 <= n < 2 ^ 31 -> stoi (to_dec n) = inr n.
Proof.
  intros Hn. destruct (to_dec_spec n ltac:(lia)) as (H1 & H2 & H3).
  destruct (to_dec n) as [|x r] eqn:E; [done|].
  pose proof (proj1 (proj1 (Forall_cons _ _ _) H2)) as Hx.
  assert (isspace x = false) as Sx.
  { apply digit_val_10 in Hx. unfold isdigit, isspace in *. to_prop.
    apply orb_false_iff. split; [apply andb_false_iff; right; apply Z.leb_gt; lia|apply Z.eqb_neq; lia]. }
  unfold stoi. rewrite drop_while_id by done.
  rewrite strip_sign_digits by (eapply digit_val_mono; [|done]; lia).
  destruct Hx as [d ->]. rewrite H3. rewrite (proj2 (Z.leb_le _ _)), (proj2 (Z.ltb_lt _ _)) by lia. done.
Qed.

Lemma status_text_plain n : Sse.LF ∉ get_status_text n.
Proof.
  unfold get_status_text. repeat case_match; by apply find_char_None.
Qed.

Definition status_line (n : Z) : bytes := bs "HTTP/1.1 " ++ to_dec n ++ bs " " ++ get_status_text n.

Lemma parse_status_line n : 0 <= n < 2 ^ 31 -> parse_status (status_line n) = Some n.
Proof.
  intros Hn. unfold parse_status, status_line.
  change (bs "HTTP/1.1 " ++ ?x) with (bs "HTTP/1.1" ++ " "%char :: x).
  replace (starts_with (bs "HTTP/1.") _) with true by done. cbn [negb].
  rewrite (find_char_app " "%char (bs "HTTP/1.1")) by (by apply find_char_None).
  change (length (bs "HTTP/1.1") + 1)%nat with 9%nat. unfold find_char_from.
  change (drop 9 (bs "HTTP/1.1" ++ " "%char :: ?x)) with x.
  change (bs " " ++ ?x) with (" "%char :: x).
  rewrite find_char_app by (apply to_dec_no; [lia|done]). cbn [fmap option_fmap option_map default from_option id].
  replace (9 + length (to_dec n) - 9)%nat with (length (to_dec n)) by lia.
  by rewrite take_app_length, stoi_to_dec.
Qed.

Lemma status_line_plain n : 0 <= n -> Sse.LF ∉ status_line n.
Proof.
  intros Hn. unfold status_line. rewrite !not_elem_of_app. split_and!; try by apply find_char_None.
  - by apply to_dec_no.
  - apply status_text_plain.
Qed.

(** ** A response *)

Lemma substr_take pos n s : 0 <= n -> substr pos n s = take (Z.to_nat n) (drop (Z.to_nat pos) s).
Proof.
  intros Hn. unfold substr. set (r := drop _ s). destruct (Z.le_gt_cases n (len r)).
  - by rewrite Z.min_l.
  - rewrite Z.min_r by lia. unfold len in *. rewrite Nat2Z.id. rewrite !take_ge by lia. done.
Qed.

(** A message with these header entries. *)
Definition message (status : Z) (es : list HeaderMap.Entry) (body : bytes) : bytes :=
  status_line status ++ CRLF ++ lines (map header_text es) ++ CRLF ++ body.

Lemma entry_line e n : plain_entry n e -> block_line (header_text e).
Proof.
  intros (P & _). destruct (header_text_line e P) as [H1 H2]. split; [|done]. intros E. by rewrite E in H2.
Qed.

Definition message_head (status : Z) (es : list HeaderMap.Entry) : bytes :=
  status_line status ++ CRLF ++ lines (map header_text es) ++ CRLF.

Lemma message_split status es body : message status es body = message_head status es ++ body.
Proof. unfold message, message_head. by rewrite <- !app_assoc. Qed.

(** What the parser does once the head is there. *)
Lemma parse_head fuel status es n tail : 0 <= status < 2 ^ 31 -> es <> [] ->
  0 <= n <= u64_max -> Forall (plain_entry n) es -> existsb is_content_length es = true ->
  parse_response fuel (message_head status es ++ tail) =
  let stop := wrap64 (len (message_head status es) + n) in
  if len (message_head status es ++ tail) <? stop then Incomplete
  else Parsed (mkClientResponse status es (take (Z.to_nat n) tail)) stop.
Proof.
  intros Hs N Hn H C. unfold parse_response. unfold message_head at 1. rewrite <- !app_assoc.
  rewrite find_crlf by (apply status_line_plain; lia).
  assert (Forall block_line (map header_text es)) as B.
  { apply Forall_map. eapply Forall_impl; [exact H|]. intros e He. by eapply entry_line. }
  assert (map header_text es <> []) as N' by (by destruct es).
  pose proof (lines_length (map header_text es)) as LL.
  assert (1 <= length (map header_text es))%nat as L1 by (destruct es; cbn in *; [done|lia]).
  assert (length (lines (map header_text es)) = length (join_with CRLF (map header_text es)) + 2)%nat as LJ
    by (rewrite (lines_join _ N'), length_app; done).
  set (buf := message_head status es ++ tail).
  assert (buf = status_line status ++ CRLF ++ lines (map header_text es) ++ CRLF ++ tail) as Eb
    by (unfold buf, message_head; by rewrite <- !app_assoc).
  rewrite Eb at 1. rewrite take_app_length, parse_status_line by done.
  assert (drop (length (status_line status) + 2) buf = lines (map header_text es) ++ CRLF ++ tail) as D1.
  { rewrite Eb, <- drop_drop, drop_app_length. done. }
  unfold find_sub_from. rewrite D1, (find_eoh_lines _ _ N' B). cbn [fmap option_fmap option_map].
  set (k := (length (status_line status) + 2)%nat) in *.
  replace (k + (length (lines (map header_text es)) - 2) - k)%nat
    with (length (join_with CRLF (map header_text es))) by lia.
  replace (take _ (lines (map header_text es) ++ CRLF ++ tail)) with (join_with CRLF (map header_text es))
    by (rewrite (lines_join _ N'), <- app_assoc; by rewrite take_app_length).
  rewrite header_lines_fold; [|done|].
  2:{ assert (1 <= length (join_with CRLF (map header_text es)))%nat; [|lia].
      destruct B as [|l ls [Nl _] _]; [done|]. destruct ls; cbn; [|rewrite length_app]; destruct l; cbn; done || lia. }
  rewrite (fold_entries n) by done. cbn [h_headers content_length is_chunked app]. rewrite C.
  replace (Z.of_nat (k + (length (lines (map header_text es)) - 2) + 4)) with (len (message_head status es)).
  2:{ unfold message_head, len, k. rewrite !length_app. cbn [length CRLF]. lia. }
  replace (substr (len (message_head status es)) n buf) with (take (Z.to_nat n) tail); [done|].
  rewrite substr_take by lia. unfold len. rewrite Nat2Z.id. unfold buf. by rewrite drop_app_length.
Qed.

Lemma parse_message fuel status es body rest : 0 <= status < 2 ^ 31 -> es <> [] ->
  Forall (plain_entry (len body)) es -> existsb is_content_length es = true ->
  len (message status es body) < 2 ^ 63 ->
  parse_response fuel (message status es body ++ rest) =
  Parsed (mkClientResponse status es body) (len (message status es body)).
Proof.
  intros Hs N H C L. rewrite message_split in *. rewrite <- app_assoc.
  rewrite (parse_head fuel status es (len body)) by (done || unfold u64_max; len_lia). cbv zeta.
  rewrite wrap64_small by (unfold in_u64; len_lia). rewrite <- len_app.
  rewrite (proj2 (Z.ltb_ge _ _)) by len_lia. do 2 f_equal. unfold len. rewrite Nat2Z.id.
  apply take_app_length.
Qed.

(** Before the last byte nothing is reported. *)
Lemma parse_prefix fuel status es body p t : 0 <= status < 2 ^ 31 -> es <> [] ->
  Forall (plain_entry (len body)) es -> existsb is_content_length es = true ->
  len (message status es body) < 2 ^ 63 ->
  message status es body = p ++ t -> t <> [] -> parse_response fuel p = Incomplete.
Proof.
  intros Hs N H C L E Nt. rewrite message_split in *.
  destruct (decide (length (message_head status es) <= length p)%nat) as [G|G].
  - apply app_eq_inv in E as [(k & E1 & E2)|(k & -> & E2)].
    + assert (k = []) as -> by (destruct k; [done|]; apply (f_equal length) in E1;
          rewrite length_app in E1; cbn [length] in E1; lia).
      rewrite app_nil_r in E1. subst p. rewrite <- (app_nil_r (message_head status es)).
      rewrite (parse_head fuel status es (len body)) by (done || unfold u64_max; len_lia). cbv zeta.
      rewrite wrap64_small by (unfold in_u64; len_lia). cbn in E2. subst t.
      rewrite (proj2 (Z.ltb_lt _ _)); [done|]. destruct body; [done|]. len_lia.
    + rewrite (parse_head fuel status es (len body)) by (done || unfold u64_max; len_lia). cbv zeta.
      rewrite wrap64_small by (unfold in_u64; len_lia).
      rewrite (proj2 (Z.ltb_lt _ _)); [done|]. rewrite E2. destruct t; [done|]. len_lia.
  - unfold parse_response. destruct (find_sub CRLF p) as [i|] eqn:F; [|done].
    pose proof (find_sub_bound _ _ _ F) as Bi. cbn in Bi.
    destruct (parse_status (take i p)); [|done].
    destruct (find_sub_from EOH (i + 2) p) as [j|] eqn:F2; [|done]. exfalso.
    pose proof (find_sub_app _ _ t _ F) as F'. rewrite <- E in F'.
    pose proof (find_sub_from_app EOH (i + 2) p t j ltac:(lia) F2) as F2'. rewrite <- E in F2'.
    unfold message_head in F', F2'. rewrite <- !app_assoc in F', F2'.
    rewrite find_crlf in F' by (apply status_line_plain; lia).
    assert (i = length (status_line status)) as -> by congruence.
    unfold find_sub_from in F2, F2'. rewrite <- drop_drop, drop_app_length in F2'.
    change (drop 2 (CRLF ++ ?x)) with x in F2'.
    assert (map header_text es <> []) as N' by (by destruct es).
    rewrite find_eoh_lines in F2'; [|done|].
    2:{ apply Forall_map. eapply Forall_impl; [exact H|]. intros e He. by eapply entry_line. }
    cbn [fmap option_fmap option_map] in F2'.
    destruct (find_sub EOH (drop _ p)) as [m|] eqn:F3; [|done]. cbn [fmap option_fmap option_map] in F2.
    assert (m = length (lines (map header_text es)) - 2)%nat as -> by (simplify_eq; lia).
    apply find_sub_bound in F3. rewrite length_drop, length_app in F3. cbn [length CRLF] in F3.
    pose proof (lines_length (map header_text es)) as LL.
    assert (1 <= length (map header_text es))%nat as L1 by (destruct es; cbn in *; [done|lia]).
    apply G. unfold message_head. rewrite !length_app. cbn [length CRLF]. lia.
Qed.

(** ** The server's responses *)

Definition alt_svc : HeaderMap.Entry :=
  HeaderMap.mkEntry (bs "Alt-Svc") (bs "h3=" ++ [quote] ++ bs ":4433" ++ [quote] ++ bs "; ma=86400").
Definition connection_entry (keep_alive : bool) : HeaderMap.Entry :=
  HeaderMap.mkEntry (bs "Connection") (if keep_alive then bs "keep-alive" else bs "close").

(** The headers a client sees of a response. *)
Definition server_entries (keep_alive : bool) (r : Response.t) : list HeaderMap.Entry :=
  [alt_svc; connection_entry keep_alive] ++ List.filter (header_written false) (Response.headers_ r) ++
  (if HeaderMap.has (bs "content-length") (Response.headers_ r) then []
   else [length_header (len (Response.body_ r))]).

(** A response that is not an event stream and whose headers are plain. *)
Record good_response (r : Response.t) : Prop := {
  gr_status : 0 <= Response.status_code_ r < 2 ^ 31;
  gr_stream : Response.sse_channel_ r = None;
  gr_headers : Forall (plain_entry (len (Response.body_ r))) (Response.headers_ r);
  gr_size : forall keep, len (serialize_response keep r) < 2 ^ 63
}.

Lemma header_line_text e : Http1.header_line e = header_text e ++ CRLF.
Proof. unfold Http1.header_line, header_text. by rewrite <- !app_assoc. Qed.

Lemma serialize_message keep r : good_response r ->
  serialize_response keep r =
  message (Response.status_code_ r) (server_entries keep r) (Response.body_ r).
Proof.
  intros [S N _ _]. unfold serialize_response, message. rewrite N. cbv iota zeta.
  unfold to_dec_signed. rewrite (proj2 (Z.ltb_ge _ _)) by lia.
  unfold status_line, server_entries. rewrite !map_app. unfold lines. rewrite !map_app, !concat_app.
  rewrite <- !app_assoc. do 4 f_equal.
  assert (forall es, concat (map Http1.header_line es) = concat (map (fun l => l ++ CRLF) (map header_text es))) as ->.
  { intros es. rewrite map_map. f_equal. apply map_ext, header_line_text. }
  destruct keep, (HeaderMap.has (bs "content-length") (Response.headers_ r));
    cbn [map concat length_header]; unfold header_text; cbn [HeaderMap.name HeaderMap.value alt_svc connection_entry];
    rewrite ?app_nil_r, <- ?app_assoc; reflexivity.
Qed.

Lemma has_content_length h : HeaderMap.has (bs "content-length") h = existsb is_content_length h.
Proof.
  rewrite HeaderMapSpec.has_abs. unfold is_content_length. induction h as [|e h IH]; [done|].
  cbn [existsb]. rewrite HeaderMapSpec.abs_cons. change (lower (bs "content-length")) with (bs "content-length") in *.
  destruct (bool_decide (lower (HeaderMap.name e) = bs "content-length")) eqn:D; [done|].
  rewrite <- IH. done.
Qed.

Lemma server_entries_plain keep r : good_response r ->
  Forall (plain_entry (len (Response.body_ r))) (server_entries keep r) /\
  existsb is_content_length (server_entries keep r) = true.
Proof.
  intros [S N H L]. unfold server_entries. split.
  - rewrite !Forall_app. split_and!.
    + assert (forall v, trim v = v -> Sse.LF ∉ v -> forall n, n = bs "Alt-Svc" \/ n = bs "Connection" ->
        plain_entry (len (Response.body_ r)) (HeaderMap.mkEntry n v)) as P.
      { intros v T F n [->| ->]; (split; [|split; [done|done]]);
          (split_and!; [done|done|by apply find_char_None|by apply find_char_None|done]). }
      constructor; [apply P; [done|by apply find_char_None|by left]|].
      constructor; [|constructor]. apply P; [by destruct keep| |by right].
      destruct keep; by apply find_char_None.
    + apply Forall_forall. intros e He. apply list_elem_of_In, filter_In in He as [He _].
      apply list_elem_of_In in He. by eapply Forall_forall in He.
    + destruct (HeaderMap.has _ _); constructor; [|constructor]. split; [|done].
      apply length_header_printable, len_nonneg.
  - rewrite !existsb_app, has_content_length. apply orb_true_iff. right. apply orb_true_iff.
    destruct (existsb is_content_length (Response.headers_ r)) eqn:E; [left|by right].
    apply existsb_exists in E as (e & Hin & He). apply existsb_exists. exists e. split; [|done].
    apply filter_In. split; [done|]. unfold header_written, is_content_length in *.
    apply bool_decide_eq_true in He. rewrite He. done.
Qed.

Lemma server_entries_nonempty keep r : server_entries keep r <> [].
Proof. done. Qed.

(** A response of the server is read back by the client, whatever follows it
    in the buffer, with its status, headers and body; and however the bytes
    arrive, the client reports nothing before the last of them. *)
Theorem client_reads_response keep r fuel (H : good_response r) :
  (forall rest, try_parse_http1_response fuel (serialize_response keep r ++ rest) =
    (Parsed (mkClientResponse (Response.status_code_ r) (server_entries keep r) (Response.body_ r))
       (len (serialize_response keep r)), rest)) /\
  (forall p t, serialize_response keep r = p ++ t -> t <> [] ->
    try_parse_http1_response fuel p = (Incomplete, p)).
Proof.
  destruct (server_entries_plain keep r H) as [P C]. pose proof (gr_size r H keep) as L.
  rewrite (serialize_message keep r H) in *. split.
  - intros rest. unfold try_parse_http1_response.
    rewrite parse_message by (done || apply H). f_equal. unfold len. rewrite Nat2Z.id. apply drop_app_length.
  - intros p t E Nt. unfold try_parse_http1_response.
    by rewrite (parse_prefix fuel _ _ _ p t (gr_status r H) (server_entries_nonempty keep r) P C L E Nt).
Qed.

(** ** The client's requests *)

(** A request whose parts mean what they say. *)
Record good_request (host method path body : bytes) (hs : list HeaderMap.Entry) : Prop := {
  gq_method : " "%char ∉ method /\ Sse.LF ∉ method;
  gq_path : Sse.LF ∉ path;
  gq_host : printable (HeaderMap.mkEntry (bs "Host") host);
  gq_headers : Forall (fun e => printable e /\ lower (HeaderMap.name e) ∉ framing_names) hs;
  gq_body : len body <= u64_max
}.

(** The entries the client writes. *)
Definition client_entries (host body : bytes) (hs : list HeaderMap.Entry) : list HeaderMap.Entry :=
  HeaderMap.mkEntry (bs "Host") host :: hs ++
  (if len body =? 0 then [] else [length_header (len body)]) ++ [connection_entry true].

Lemma no_content_length host method path body hs : good_request host method path body hs ->
  existsb is_content_length hs = false.
Proof.
  intros H. apply not_true_is_false. intros (e & Hin & He)%existsb_exists.
  apply list_elem_of_In in Hin. eapply Forall_forall in Hin; [|apply (gq_headers _ _ _ _ _ H)].
  destruct Hin as [_ Hin]. apply Hin. unfold is_content_length in He. to_prop. rewrite He. by left.
Qed.

Lemma request_text host method path body hs : good_request host method path body hs ->
  http1_request host method path body hs None =
  (method ++ bs " " ++ path ++ bs " HTTP/1.1") ++ CRLF ++
  lines (map header_text (client_entries host body hs)) ++ CRLF ++ body.
Proof.
  intros H. unfold http1_request, client_entries. rewrite (no_content_length _ _ _ _ _ H).
  cbv iota zeta. rewrite andb_true_r. cbn [map]. rewrite lines_cons, !map_app.
  unfold lines. rewrite !map_app, !concat_app. unfold header_text at 1. cbn [HeaderMap.name HeaderMap.value].
  rewrite <- !app_assoc. change (bs "Host" ++ bs ": " ++ ?x) with (bs "Host: " ++ x).
  assert (forall es, concat (map request_header es) = concat (map (fun l => l ++ CRLF) (map header_text es))) as ->.
  { intros es. rewrite map_map. f_equal. apply map_ext. intros e. unfold request_header, header_text.
    by rewrite <- !app_assoc. }
  do 9 f_equal. destruct (len body =? 0) eqn:Z; cbn [negb map concat app].
  - assert (body = []) as -> by (destruct body; [done|to_prop; len_lia]). done.
  - unfold header_text. cbn [HeaderMap.name HeaderMap.value length_header connection_entry].
    rewrite <- !app_assoc. reflexivity.
Qed.

(** The request the handler sees. *)
Definition received (host method path body : bytes) (hs : list HeaderMap.Entry) (peer : bytes) : Request.t :=
  let r := Request.set_scheme (bs "https") (Request.set_path path
             (Request.set_method method (Request.set_peer_address peer Request.init))) in
  let r := Request.set_authority host (add_header (HeaderMap.mkEntry (bs "Host") host) r) in
  let r := foldl (fun r e => add_header e r) r hs in
  let r := if len body =? 0 then r else add_header (length_header (len body)) r in
  let r := Request.mark_headers_complete (add_header (connection_entry true) r) in
  if len body =? 0 then r else Request.mark_body_complete (Request.append_body body r).

Section Exchange.
Context {A : Type}.
Context (handler_ : Request.t -> World (A:=A) -> option Response.t * World (A:=A)).
Context (upgrade_handler_ : option (Request.t -> World (A:=A) -> UpgradeResult * World (A:=A))).
Context (encrypt : bytes -> World (A:=A) -> bytes * World (A:=A)).
Context (validate : Request.t -> option (result ProtocolError bytes)).

Notation headers_loop := (Http1.headers_loop upgrade_handler_ encrypt validate).

(** A header line with what the parser makes of it. *)
Definition effect_of (ef : HeaderMap.Entry * (Session -> Session)) : Prop :=
  printable (fst ef) /\ (forall s, header_field (header_text (fst ef)) s = inr (snd ef s)) /\
  (forall o s, snd ef (set_offset o s) = set_offset o (snd ef s)) /\
  (forall s, buffer_ (snd ef s) = buffer_ s).

Definition run_effects (efs : list (HeaderMap.Entry * (Session -> Session))) (s : Session) : Session :=
  foldl (fun s ef => snd ef s) s efs.

Lemma run_effects_offset efs o s : Forall effect_of efs ->
  run_effects efs (set_offset o s) = set_offset o (run_effects efs s).
Proof.
  intros H. revert s. induction H as [|ef efs (_ & _ & C & _) H IH]; intros s; [done|].
  cbn. rewrite C. apply IH.
Qed.

Lemma headers_loop_effects efs fuel s w o rest : Forall effect_of efs ->
  drop (parse_offset_ s) (buffer_ s) = lines (map header_text (map fst efs)) ++ rest ->
  exists off, headers_loop (length efs + fuel) (mkSt s w o) =
    headers_loop fuel (mkSt (set_offset off (run_effects efs s)) w o) /\ drop off (buffer_ s) = rest.
Proof.
  intros H. revert s. induction H as [|ef efs (P & F & C & B) H IH]; intros s E.
  - exists (parse_offset_ s). split; [by destruct s|done].
  - cbn [map] in E. rewrite lines_cons, <- !app_assoc in E.
    destruct (headers_loop_step upgrade_handler_ encrypt validate (length efs + fuel) (fst ef) (snd ef) s w o _ P F E)
      as (o1 & E1 & E2).
    assert (drop (parse_offset_ (snd ef (set_offset o1 s))) (buffer_ (snd ef (set_offset o1 s))) =
            lines (map header_text (map fst efs)) ++ rest) as E3 by (rewrite C; ses_cbn; by rewrite B).
    destruct (IH _ E3) as (o2 & E4 & E5). exists o2. split.
    + cbn [length Nat.add]. rewrite E1, E4. rewrite C, run_effects_offset by done. done.
    + rewrite C in E5. ses_cbn in E5. by rewrite B in E5.
Qed.

(** The lines of a client's request. *)
Definition host_effect (host : bytes) : HeaderMap.Entry * (Session -> Session) :=
  let e := HeaderMap.mkEntry (bs "Host") host in
  (e, fun s => set_request (Request.set_authority host (add_header e (current_request_ s))) s).
Definition plain_effect (e : HeaderMap.Entry) : HeaderMap.Entry * (Session -> Session) :=
  (e, fun s => set_request (add_header e (current_request_ s)) s).
Definition length_effect (n : Z) : HeaderMap.Entry * (Session -> Session) :=
  (length_header n, fun s => set_body_framing n (chunked_body_ s)
     (set_request (add_header (length_header n) (current_request_ s)) s)).
Definition keep_alive_effect : HeaderMap.Entry * (Session -> Session) :=
  (connection_entry true, fun s => set_keep_alive true
     (set_request (add_header (connection_entry true) (current_request_ s)) s)).

Definition client_effects (host body : bytes) (hs : list HeaderMap.Entry) :=
  host_effect host :: map plain_effect hs ++
  (if len body =? 0 then [] else [length_effect (len body)]) ++ [keep_alive_effect].

Lemma client_effects_ok host method path body hs : good_request host method path body hs ->
  Forall effect_of (client_effects host body hs).
Proof.
  intros [M P H E L]. unfold client_effects. constructor.
  { split_and!; try done. intros s. by apply header_field_host. }
  rewrite !Forall_app. split_and!.
  - apply Forall_map. eapply Forall_impl; [exact E|]. intros e [He Hn].
    split_and!; try done. intros s. by apply header_field_plain.
  - destruct (len body =? 0); constructor; [|constructor]. pose proof (len_nonneg body).
    split_and!; try done; [by apply length_header_printable|]. intros s. by apply header_field_length.
  - constructor; [|constructor]. split_and!; try done.
    split_and!; try done; by apply find_char_None.
Qed.

Lemma client_effects_entries host body hs :
  map fst (client_effects host body hs) = client_entries host body hs.
Proof.
  unfold client_effects, client_entries. cbn [map]. f_equal. rewrite !map_app, map_map. cbn.
  f_equal; [apply map_id|]. by destruct (len body =? 0).
Qed.

(** What the lines do to a session between two requests. *)
Lemma run_client_effects host body hs s : chunked_body_ s = false -> keep_alive_ s = true ->
  content_length_ s = 0 ->
  run_effects (client_effects host body hs) s =
  set_body_framing (len body) false (set_request
    (add_header (connection_entry true)
      (let r := foldl (fun r e => add_header e r)
          (Request.set_authority host (add_header (HeaderMap.mkEntry (bs "Host") host) (current_request_ s))) hs in
       if len body =? 0 then r else add_header (length_header (len body)) r)) s).
Proof.
  intros Hc Hk Hl. unfold client_effects, run_effects. cbn [foldl]. rewrite !foldl_app.
  assert (forall s, foldl (fun s ef => snd ef s) s (map plain_effect hs) =
    set_request (foldl (fun r e => add_header e r) (current_request_ s) hs) s) as ->.
  { induction hs as [|e hs IH]; intros s0; [by destruct s0|]. cbn [map foldl]. rewrite IH. done. }
  destruct (len body =? 0) eqn:Z; cbn [foldl snd host_effect length_effect keep_alive_effect];
    destruct s; cbn in *; subst; [to_prop; by rewrite Z|done].
Qed.

Lemma no_upgrade_entries r : Forall (fun e => lower (HeaderMap.name e) <> bs "upgrade") (Request.headers_ r) ->
  is_upgrade_attempt r = false.
Proof.
  intros H. unfold is_upgrade_attempt, Request.header.
  assert (HeaderMap.get (bs "upgrade") (Request.headers_ r) = None) as ->; [|done].
  rewrite HeaderMapSpec.get_abs. change (lower (bs "upgrade")) with (bs "upgrade").
  induction H as [|e es He _ IH]; [done|]. by rewrite HeaderMapSpec.abs_cons, bool_decide_false.
Qed.

Lemma received_headers host method path body hs peer : good_request host method path body hs ->
  Forall (fun e => lower (HeaderMap.name e) <> bs "upgrade")
    (Request.headers_ (received host method path body hs peer)).
Proof.
  intros H. assert (Request.headers_ (received host method path body hs peer) = client_entries host body hs) as ->.
  { unfold received, client_entries. destruct (len body =? 0); cbn; unfold HeaderMap.add;
      rewrite fold_headers; cbn; rewrite <- ?app_assoc; done. }
  unfold client_entries. constructor; [done|]. rewrite !Forall_app. split_and!.
  - eapply Forall_impl; [apply (gq_headers _ _ _ _ _ H)|]. intros e [_ N] E. apply N. rewrite E.
    unfold framing_names. repeat (first [by left|right]).
  - by destruct (len body =? 0); repeat constructor.
  - by repeat constructor.
Qed.

(** The head of the request, from the first header to the empty line. *)
Lemma headers_loop_client host method path body hs fuel s w o rest :
  good_request host method path body hs -> chunked_body_ s = false -> keep_alive_ s = true ->
  content_length_ s = 0 ->
  current_request_ s = Request.set_scheme (bs "https") (Request.set_path path
    (Request.set_method method (Request.set_peer_address (peer_address_ s) Request.init))) ->
  drop (parse_offset_ s) (buffer_ s) =
    lines (map header_text (client_entries host body hs)) ++ CRLF ++ rest ->
  (length (client_entries host body hs) < fuel)%nat ->
  exists off rq, headers_loop fuel (mkSt s w o) =
    (Fall, mkSt (set_state (if 0 <? len body then Body else Complete) (set_request rq
       (set_body_framing (len body) false (set_offset off s)))) w o) /\
    drop off (buffer_ s) = rest /\
    received host method path body hs (peer_address_ s) =
      (if len body =? 0 then rq else Request.mark_body_complete (Request.append_body body rq)).
Proof.
  intros G Hc Hk Hl Hr E Hf.
  destruct (headers_loop_effects (client_effects host body hs) (S (fuel - length (client_entries host body hs) - 1))
    s w o (CRLF ++ rest) (client_effects_ok _ _ _ _ _ G)) as (o1 & E1 & E2).
  { rewrite client_effects_entries. exact E. }
  assert (length (client_effects host body hs) = length (client_entries host body hs)) as LE
    by (by rewrite <- client_effects_entries, length_map).
  rewrite LE in E1. replace (length (client_entries host body hs) + S (fuel - length (client_entries host body hs) - 1))%nat
    with fuel in E1 by lia.
  rewrite E1, run_client_effects by done. ses_cbn.
  destruct (get_line_unread (buffer_ s) o1 [] rest (not_elem_of_nil _) E2) as [G1 G2].
  cbn [Http1.headers_loop]. ses_cbn. rewrite G1. change (len [] =? 0) with true. cbn iota.
  set (rq := add_header (connection_entry true) _).
  exists (o1 + 0 + 2)%nat, (Request.mark_headers_complete rq).
  assert (received host method path body hs (peer_address_ s) =
    (if len body =? 0 then Request.mark_headers_complete rq
     else Request.mark_body_complete (Request.append_body body (Request.mark_headers_complete rq)))) as Er.
  { unfold received, rq. rewrite Hr. by destruct (len body =? 0). }
  split; [|split; [exact G2|exact Er]].
  assert (is_upgrade_attempt (Request.mark_headers_complete rq) = false) as U.
  { apply no_upgrade_entries. pose proof (received_headers _ _ _ _ _ (peer_address_ s) G) as R.
    rewrite Er in R. by destruct (len body =? 0). }
  unfold Http1.headers_end. ses_cbn. rewrite U.
  destruct upgrade_handler_; unfold body_or_complete, on_ses; ses_cbn; by rewrite orb_false_r.
Qed.

(** One turn of the server's loop takes the request of a client. *)
Lemma turn_client host method path body hs s w o rest :
  good_request host method path body hs -> idle s -> keep_alive_ s = true ->
  drop (parse_offset_ s) (buffer_ s) = http1_request host method path body hs None ++ rest ->
  exists off,
    turn upgrade_handler_ encrypt validate (mkSt s w o) =
    (Again, mkSt (set_state Complete (set_request (received host method path body hs (peer_address_ s))
             (set_body_framing (len body) false (set_offset off s)))) w o) /\
    drop off (buffer_ s) = rest.
Proof.
  intros G [I1 I2 I3 I4 I5 I6] Hk E. rewrite (request_text _ _ _ _ _ G) in E.
  set (line := method ++ _) in E. rewrite <- !app_assoc in E.
  assert (Sse.LF ∉ line) as NL.
  { unfold line. destruct (gq_method _ _ _ _ _ G). pose proof (gq_path _ _ _ _ _ G).
    rewrite !not_elem_of_app. split_and!; done || by apply find_char_None. }
  destruct (get_line_unread _ _ _ _ NL E) as [G1 G2].
  unfold turn. ses_cbn. rewrite I1. change (bool_decide (RequestLine = RequestLine)) with true. cbn iota.
  unfold request_line. ses_cbn. rewrite G1.
  rewrite (proj2 (Z.eqb_neq (len line) 0)) by (unfold line; rewrite !len_app; change (len (bs " ")) with 1;
    pose proof (len_nonneg method); pose proof (len_nonneg path); pose proof (len_nonneg (bs " HTTP/1.1")); lia).
  unfold line at 1. rewrite parse_request_line_ok by apply G. unfold on_ses. ses_cbn.
  change (bool_decide (Headers = Headers)) with true. cbn iota. rewrite I2.
  set (s1 := set_state Headers _).
  destruct (headers_loop_client host method path body hs (S (length (buffer_ s))) s1 w o (body ++ rest) G)
    as (off & rq & -> & G3 & G4); [done|done|done|done|exact G2| |].
  { pose proof (f_equal length G2) as EL. rewrite !length_app, length_drop in EL.
    pose proof (lines_length (map header_text (client_entries host body hs))) as LL.
    rewrite length_map in LL. lia. }
  ses_cbn. unfold s1 at 1. ses_cbn. rewrite I5. change (peer_address_ s1) with (peer_address_ s) in G4.
  rewrite G4. pose proof (len_nonneg body) as Hn.
  destruct (0 <? len body) eqn:B; to_prop.
  - change (bool_decide (Body = Body)) with true. cbn iota.
    destruct (read_body_length (mkReq [] [] [] [] body) (set_state Body (set_request rq
      (set_body_framing (len body) false (set_offset off s1)))) rest) as (off' & -> & G5); [done|done|exact G3|].
    exists off'. split; [|exact G5]. rewrite (proj2 (Z.eqb_neq _ _)) by lia. done.
  - change (bool_decide (Complete = Body)) with false. cbn iota. exists off.
    assert (body = []) as -> by (destruct body; [done|len_lia]). split; [done|exact G3].
Qed.

(** A completed request of a client: the handler, the response, and back to idle. *)
Lemma complete_client rq n off s w o resp w1 e w2 : idle s ->
  handler_ rq w = (Some resp, w1) -> Response.sse_channel_ resp = None ->
  encrypt (serialize_response (keep_alive_ s) resp) w1 = (e, w2) ->
  complete handler_ encrypt (mkSt (set_state Complete (set_request rq
    (set_body_framing n false (set_offset off s)))) w o) =
  (Again, mkSt (set_offset off s) w2 (o ++ e)).
Proof.
  intros [I1 I2 I3 I4 I5 I6] Hh Hn He. unfold complete, emit. ses_cbn. rewrite Hh. ses_cbn. rewrite He, Hn.
  unfold on_ses, reset. ses_cbn. destruct s; cbn in *; by subst.
Qed.


End Exchange.

(** ** Witnesses *)

(** Check the clauses about concrete headers. *)
Ltac concrete_entry :=
  try (unfold printable; split_and!); try done; try (by apply find_char_None); try (by vm_compute);
  try (unfold framing_names; repeat (apply not_elem_of_cons; split; [done|]); by apply not_elem_of_nil).

Definition sample_response : Response.t :=
  Response.header (bs "X-Note") (bs "a: b") (Response.text (bs "hello") (Response.status 404 Response.init)).

Lemma sample_response_good : good_response sample_response.
Proof.
  split; [done|done| |intros []; by vm_compute].
  repeat (constructor; [split; [concrete_entry|split; done]|]). constructor.
Qed.

Lemma client_reads_response_witness :
  try_parse_http1_response 1 (serialize_response true sample_response ++ bs "HTTP") =
    (Parsed (mkClientResponse 404 (server_entries true sample_response) (bs "hello"))
       (len (serialize_response true sample_response)), bs "HTTP") /\
  HeaderMap.get (bs "x-note") (server_entries true sample_response) = Some (bs "a: b").
Proof.
  split; [|vm_compute; reflexivity].
  exact (proj1 (client_reads_response true sample_response 1 sample_response_good) (bs "HTTP")).
Defined.

Definition sample_headers : list HeaderMap.Entry := [HeaderMap.mkEntry (bs "X-A") (bs "b c")].

Lemma sample_request_good : good_request (bs "example.org") (bs "POST") (bs "/items?x=1") (bs "hello") sample_headers.
Proof.
  split; [split; by apply find_char_None|by apply find_char_None|concrete_entry| |by vm_compute].
  constructor; [|constructor]. split; concrete_entry.
Qed.


(** ** Responses on which the client misbehaves *)

Definition crlf_lines (ls : list string) : bytes := concat (map (fun l => bs l ++ CRLF) ls).

(** The end of the headers is searched after the status line and its line end:
    a response without header lines is never complete. *)
Lemma headerless_response_stalls fuel :
  parse_response fuel (crlf_lines ["HTTP/1.1 204 No Content"; ""]%string) = Incomplete.
Proof. reflexivity. Qed.

(** An interim response is taken for the final one. *)
Lemma interim_response_final : exists r n,
  parse_response 1 (crlf_lines ["HTTP/1.1 100 Continue"; "X: y"; ""; "HTTP/1.1 200 OK"; "Content-Length: 0"; ""]%string)
    = Parsed r n /\ status_code r = 100.
Proof. eexists _, _. split; [vm_compute; reflexivity|reflexivity]. Qed.

(** A Content-Length that is no number throws out of the callback. *)
Lemma bad_length_throws fuel :
  parse_response fuel (crlf_lines ["HTTP/1.1 200 OK"; "Content-Length: none"; ""]%string) = Throws.
Proof. reflexivity. Qed.

(** The sum with a large Content-Length wraps: the response is complete at
    once, and the end of its head stays in the buffer as if it were the start
    of the next response. *)
Lemma huge_length_wraps : exists r n,
  try_parse_http1_response 1
    (crlf_lines ["HTTP/1.1 200 OK"; "Content-Length: 18446744073709551615"; ""]%string) =
  (Parsed r n, [byte_of_Z 10]) /\ body r = [].
Proof. eexists _, _. split; [vm_compute; reflexivity|reflexivity]. Qed.

Definition looping_chunk : bytes :=
  crlf_lines ["HTTP/1.1 200 OK"; "Transfer-Encoding: chunked"; ""; "FFFFFFFFFFFFFFEC"]%string.

(** The sum with a large chunk size wraps too: the position comes back to the
    same size line, and the loop never ends. *)
Lemma huge_chunk_loops fuel : parse_response fuel looping_chunk = OutOfFuel.
Proof.
  assert (forall fuel hs body, chunks fuel looping_chunk 47 200 hs body = OutOfFuel) as H.
  { clear. induction fuel as [|fuel IH]; intros hs body; [done|].
    transitivity (chunks fuel looping_chunk 47 200 hs (body ++ [])); [reflexivity|apply IH]. }
  exact (H fuel _ []).
Qed.

(** A streamed body with a caller's Content-Length is still written in chunks. *)
Lemma stream_with_length_chunked :
  http1_request (bs "h") (bs "POST") (bs "/") [] [HeaderMap.mkEntry (bs "Content-Length") (bs "3")] (Some [bs "abc"]) =
  crlf_lines ["POST / HTTP/1.1"; "Host: h"; "Content-Length: 3"; "Connection: keep-alive"; ""; "3"; "abc"; "0"; ""]%string.
Proof. vm_compute. reflexivity. Qed.

(** A line end in a header value ends the header: a value of the caller adds
    headers of its own. *)
Lemma request_header_injection :
  http1_request (bs "h") (bs "GET") (bs "/") [] [HeaderMap.mkEntry (bs "X") (bs "1" ++ CRLF ++ bs "Y: 2")] None =
  http1_request (bs "h") (bs "GET") (bs "/") []
    [HeaderMap.mkEntry (bs "X") (bs "1"); HeaderMap.mkEntry (bs "Y") (bs "2")] None.
Proof. vm_compute. reflexivity. Qed.

End ClientHttp1Props.
