(* ===== verification/RestClient.v ===== *)
(** * The REST client: requests, retries, cancellation and reconnection

    [client/rest_client.*] over its three protocols.  A task is one call of
    the asynchronous API: the coroutine of [async_request_with_retry] with the
    [async_request] it awaits.  Suspended, it is known to the rest of the
    client only by the handle another structure holds; resumed, it runs at
    once, inside the function that resumed it.  What the network, TLS, nghttp2
    and QUIC answer while a request is submitted is a parameter.  While
    [wait_for_connection] runs the loop, the model delivers the events that
    complete the connection and no others. *)

From S2P Require Import Prelude CxxString HttpMessage Middleware BrowserAuth Observability Http1 ClientHttp1.

Module RestClient.
Import ClientHttp1.

Inductive Protocol := HTTP3 | HTTP2 | HTTP1_1.

#[export] Instance protocol_eq_dec : EqDecision Protocol.
Proof. solve_decision. Defined.

(** ** Configuration and calls *)

Record Config := mkConfig {
  host : bytes;
  protocol : Protocol;
  max_reconnect_attempts : Z;
  propagate_trace_context : bool;
  max_request_attempts : Z;
  (** [should_retry], when it is set. *)
  should_retry : option (bytes -> ClientResponse -> Z -> bool)
}.

(** What the caller passed; the token by its identity. *)
Record Call := mkCall {
  method : bytes;
  path : bytes;
  call_body : bytes;
  call_headers : list HeaderMap.Entry;
  token : option nat;
  body_stream : option (list bytes)
}.

(** How a call ends. *)
Inductive Outcome :=
| Returned (r : ClientResponse)
| RequestCancelled
| ClientError (what : bytes).

(** Where a coroutine is. *)
Inductive Stage :=
| Running
| OnTcp
| OnH2 (stream_id : Z)
| OnH3 (stream_id : Z)
| Done (o : Outcome).

Record Task := mkTask { call : Call; attempt : Z; stage : Stage }.

(** ** The client *)

Record H2PendingStream := mkH2 {
  h2_response : ClientResponse;
  h2_coroutine : option nat;
  complete : bool;
  h2_cancelled : bool
}.

Record H3PendingStream := mkH3 {
  h3_response : option ClientResponse;
  h3_coroutine : option nat;
  h3_cancelled : bool
}.

(** A request that was written, for the record: task, attempt, stream body. *)
Record Written := mkWritten {
  w_task : nat; w_attempt : Z; w_headers : list HeaderMap.Entry; w_stream : option (list bytes)
}.

Record Client := mkClient {
  tasks : gmap nat Task;
  cancelled_tokens : gset nat;
  (** TCP: the socket is open, connected, and through the handshake. *)
  tcp_fd_ : bool;
  tcp_connected_ : bool;
  tls_handshake_done_ : bool;
  (** The number of the TCP connection, and for every unsent piece of
      [tcp_write_buf_] the connection it was encrypted for. *)
  generation : Z;
  tcp_write_buf_ : list Z;
  http1_recv_buf_ : bytes;
  h2_session_ : bool;
  next_stream_id : Z;
  h2_pending_ : gmap Z H2PendingStream;
  pending_tcp_handle_ : option nat;
  tcp_response_ : option ClientResponse;
  (** QUIC: handshake complete, not closed and not draining. *)
  conn_ready : bool;
  pending_ : gmap Z H3PendingStream;
  reconnect_attempts_ : Z;
  reconnect_pending_ : bool;
  reconnect_timer_ : option Z;
  next_backoff_ : Z;
  (** The requests written so far and the number of submissions. *)
  written : list Written;
  submissions : nat;
  (** A handle was resumed that is not suspended, an iterator used after its
      element was erased, or an exception left a callback. *)
  broken : bool;
  out_of_fuel : bool
}.

Definition kMaxBackoff : Z := 30000.

Definition new_client : Client :=
  mkClient ∅ ∅ false false false 0 [] [] false 1 ∅ None None false ∅ 0 false None 100 [] 0 false false.

(** Field updates. *)
Definition set_tasks (t : gmap nat Task) (s : Client) : Client :=
  mkClient t (cancelled_tokens s) (tcp_fd_ s) (tcp_connected_ s) (tls_handshake_done_ s)
    (generation s) (tcp_write_buf_ s) (http1_recv_buf_ s) (h2_session_ s) (next_stream_id s)
    (h2_pending_ s) (pending_tcp_handle_ s) (tcp_response_ s) (conn_ready s) (pending_ s)
    (reconnect_attempts_ s) (reconnect_pending_ s) (reconnect_timer_ s) (next_backoff_ s)
    (written s) (submissions s) (broken s) (out_of_fuel s).
Definition set_tokens (t : gset nat) (s : Client) : Client :=
  mkClient (tasks s) t (tcp_fd_ s) (tcp_connected_ s) (tls_handshake_done_ s) (generation s)
    (tcp_write_buf_ s) (http1_recv_buf_ s) (h2_session_ s) (next_stream_id s) (h2_pending_ s)
    (pending_tcp_handle_ s) (tcp_response_ s) (conn_ready s) (pending_ s) (reconnect_attempts_ s)
    (reconnect_pending_ s) (reconnect_timer_ s) (next_backoff_ s) (written s) (submissions s)
    (broken s) (out_of_fuel s).
Definition set_tcp (fd : bool) (connected : bool) (tls : bool) (s : Client) : Client :=
  mkClient (tasks s) (cancelled_tokens s) fd connected tls (generation s) (tcp_write_buf_ s)
    (http1_recv_buf_ s) (h2_session_ s) (next_stream_id s) (h2_pending_ s) (pending_tcp_handle_ s)
    (tcp_response_ s) (conn_ready s) (pending_ s) (reconnect_attempts_ s) (reconnect_pending_ s)
    (reconnect_timer_ s) (next_backoff_ s) (written s) (submissions s) (broken s) (out_of_fuel s).
Definition set_generation (g : Z) (s : Client) : Client :=
  mkClient (tasks s) (cancelled_tokens s) (tcp_fd_ s) (tcp_connected_ s) (tls_handshake_done_ s) g
    (tcp_write_buf_ s) (http1_recv_buf_ s) (h2_session_ s) (next_stream_id s) (h2_pending_ s)
    (pending_tcp_handle_ s) (tcp_response_ s) (conn_ready s) (pending_ s) (reconnect_attempts_ s)
    (reconnect_pending_ s) (reconnect_timer_ s) (next_backoff_ s) (written s) (submissions s)
    (broken s) (out_of_fuel s).
Definition set_write_buf (b : list Z) (s : Client) : Client :=
  mkClient (tasks s) (cancelled_tokens s) (tcp_fd_ s) (tcp_connected_ s) (tls_handshake_done_ s)
    (generation s) b (http1_recv_buf_ s) (h2_session_ s) (next_stream_id s) (h2_pending_ s)
    (pending_tcp_handle_ s) (tcp_response_ s) (conn_ready s) (pending_ s) (reconnect_attempts_ s)
    (reconnect_pending_ s) (reconnect_timer_ s) (next_backoff_ s) (written s) (submissions s)
    (broken s) (out_of_fuel s).
Definition set_recv_buf (b : bytes) (s : Client) : Client :=
  mkClient (tasks s) (cancelled_tokens s) (tcp_fd_ s) (tcp_connected_ s) (tls_handshake_done_ s)
    (generation s) (tcp_write_buf_ s) b (h2_session_ s) (next_stream_id s) (h2_pending_ s)
    (pending_tcp_handle_ s) (tcp_response_ s) (conn_ready s) (pending_ s) (reconnect_attempts_ s)
    (reconnect_pending_ s) (reconnect_timer_ s) (next_backoff_ s) (written s) (submissions s)
    (broken s) (out_of_fuel s).
Definition set_session (b : bool) (s : Client) : Client :=
  mkClient (tasks s) (cancelled_tokens s) (tcp_fd_ s) (tcp_connected_ s) (tls_handshake_done_ s)
    (generation s) (tcp_write_buf_ s) (http1_recv_buf_ s) b (next_stream_id s) (h2_pending_ s)
    (pending_tcp_handle_ s) (tcp_response_ s) (conn_ready s) (pending_ s) (reconnect_attempts_ s)
    (reconnect_pending_ s) (reconnect_timer_ s) (next_backoff_ s) (written s) (submissions s)
    (broken s) (out_of_fuel s).
Definition set_next_stream (n : Z) (s : Client) : Client :=
  mkClient (tasks s) (cancelled_tokens s) (tcp_fd_ s) (tcp_connected_ s) (tls_handshake_done_ s)
    (generation s) (tcp_write_buf_ s) (http1_recv_buf_ s) (h2_session_ s) n (h2_pending_ s)
    (pending_tcp_handle_ s) (tcp_response_ s) (conn_ready s) (pending_ s) (reconnect_attempts_ s)
    (reconnect_pending_ s) (reconnect_timer_ s) (next_backoff_ s) (written s) (submissions s)
    (broken s) (out_of_fuel s).
Definition set_h2_pending (p : gmap Z H2PendingStream) (s : Client) : Client :=
  mkClient (tasks s) (cancelled_tokens s) (tcp_fd_ s) (tcp_connected_ s) (tls_handshake_done_ s)
    (generation s) (tcp_write_buf_ s) (http1_recv_buf_ s) (h2_session_ s) (next_stream_id s) p
    (pending_tcp_handle_ s) (tcp_response_ s) (conn_ready s) (pending_ s) (reconnect_attempts_ s)
    (reconnect_pending_ s) (reconnect_timer_ s) (next_backoff_ s) (written s) (submissions s)
    (broken s) (out_of_fuel s).
Definition set_tcp_waiter (h : option nat) (s : Client) : Client :=
  mkClient (tasks s) (cancelled_tokens s) (tcp_fd_ s) (tcp_connected_ s) (tls_handshake_done_ s)
    (generation s) (tcp_write_buf_ s) (http1_recv_buf_ s) (h2_session_ s) (next_stream_id s)
    (h2_pending_ s) h (tcp_response_ s) (conn_ready s) (pending_ s) (reconnect_attempts_ s)
    (reconnect_pending_ s) (reconnect_timer_ s) (next_backoff_ s) (written s) (submissions s)
    (broken s) (out_of_fuel s).
Definition set_tcp_response (r : option ClientResponse) (s : Client) : Client :=
  mkClient (tasks s) (cancelled_tokens s) (tcp_fd_ s) (tcp_connected_ s) (tls_handshake_done_ s)
    (generation s) (tcp_write_buf_ s) (http1_recv_buf_ s) (h2_session_ s) (next_stream_id s)
    (h2_pending_ s) (pending_tcp_handle_ s) r (conn_ready s) (pending_ s) (reconnect_attempts_ s)
    (reconnect_pending_ s) (reconnect_timer_ s) (next_backoff_ s) (written s) (submissions s)
    (broken s) (out_of_fuel s).
Definition set_conn (b : bool) (s : Client) : Client :=
  mkClient (tasks s) (cancelled_tokens s) (tcp_fd_ s) (tcp_connected_ s) (tls_handshake_done_ s)
    (generation s) (tcp_write_buf_ s) (http1_recv_buf_ s) (h2_session_ s) (next_stream_id s)
    (h2_pending_ s) (pending_tcp_handle_ s) (tcp_response_ s) b (pending_ s) (reconnect_attempts_ s)
    (reconnect_pending_ s) (reconnect_timer_ s) (next_backoff_ s) (written s) (submissions s)
    (broken s) (out_of_fuel s).
Definition set_pending (p : gmap Z H3PendingStream) (s : Client) : Client :=
  mkClient (tasks s) (cancelled_tokens s) (tcp_fd_ s) (tcp_connected_ s) (tls_handshake_done_ s)
    (generation s) (tcp_write_buf_ s) (http1_recv_buf_ s) (h2_session_ s) (next_stream_id s)
    (h2_pending_ s) (pending_tcp_handle_ s) (tcp_response_ s) (conn_ready s) p
    (reconnect_attempts_ s) (reconnect_pending_ s) (reconnect_timer_ s) (next_backoff_ s)
    (written s) (submissions s) (broken s) (out_of_fuel s).
Definition set_reconnect (a : Z) (p : bool) (t : option Z) (b : Z) (s : Client) : Client :=
  mkClient (tasks s) (cancelled_tokens s) (tcp_fd_ s) (tcp_connected_ s) (tls_handshake_done_ s)
    (generation s) (tcp_write_buf_ s) (http1_recv_buf_ s) (h2_session_ s) (next_stream_id s)
    (h2_pending_ s) (pending_tcp_handle_ s) (tcp_response_ s) (conn_ready s) (pending_ s) a p t b
    (written s) (submissions s) (broken s) (out_of_fuel s).
Definition set_written (w : list Written) (n : nat) (s : Client) : Client :=
  mkClient (tasks s) (cancelled_tokens s) (tcp_fd_ s) (tcp_connected_ s) (tls_handshake_done_ s)
    (generation s) (tcp_write_buf_ s) (http1_recv_buf_ s) (h2_session_ s) (next_stream_id s)
    (h2_pending_ s) (pending_tcp_handle_ s) (tcp_response_ s) (conn_ready s) (pending_ s)
    (reconnect_attempts_ s) (reconnect_pending_ s) (reconnect_timer_ s) (next_backoff_ s) w n
    (broken s) (out_of_fuel s).
Definition set_broken (b : bool) (s : Client) : Client :=
  mkClient (tasks s) (cancelled_tokens s) (tcp_fd_ s) (tcp_connected_ s) (tls_handshake_done_ s)
    (generation s) (tcp_write_buf_ s) (http1_recv_buf_ s) (h2_session_ s) (next_stream_id s)
    (h2_pending_ s) (pending_tcp_handle_ s) (tcp_response_ s) (conn_ready s) (pending_ s)
    (reconnect_attempts_ s) (reconnect_pending_ s) (reconnect_timer_ s) (next_backoff_ s)
    (written s) (submissions s) b (out_of_fuel s).
Definition set_out_of_fuel (b : bool) (s : Client) : Client :=
  mkClient (tasks s) (cancelled_tokens s) (tcp_fd_ s) (tcp_connected_ s) (tls_handshake_done_ s)
    (generation s) (tcp_write_buf_ s) (http1_recv_buf_ s) (h2_session_ s) (next_stream_id s)
    (h2_pending_ s) (pending_tcp_handle_ s) (tcp_response_ s) (conn_ready s) (pending_ s)
    (reconnect_attempts_ s) (reconnect_pending_ s) (reconnect_timer_ s) (next_backoff_ s)
    (written s) (submissions s) (broken s) b.

(** ** Environment *)

(** How [write_pending_tcp_data] ends. *)
Inductive Send := Flushed | Blocked | SendFailed.

(** What happens while one request is submitted: the connection comes up
    within the timeout, TLS encrypts, the stream is opened, the bytes go out. *)
Record Answers := mkAnswers { wait_ok : bool; encrypt_ok : bool; stream_ok : bool; send : Send }.

Section Client.
Context (cfg : Config).
Context (env : nat -> Answers).
(** The order in which a hash table is iterated. *)
Context (order : list nat -> list nat).

Definition is_tcp : bool := bool_decide (protocol cfg <> HTTP3).

Definition is_connected (s : Client) : bool :=
  if is_tcp then tcp_fd_ s && tcp_connected_ s && tls_handshake_done_ s else conn_ready s.

(** The handshake is over: [init_h2_session], or the HTTP/3 session, which
    resets the reconnection counters. *)
Definition connection_up (s : Client) : Client :=
  if is_tcp then
    let s := set_tcp true true true s in
    if bool_decide (protocol cfg = HTTP2) then set_next_stream 1 (set_session true s) else s
  else set_reconnect 0 (reconnect_pending_ s) (reconnect_timer_ s) 100 (set_next_stream 0 (set_conn true s)).

(** [wait_for_connection] throws when there is no connection to wait for. *)
Definition can_wait (a : Answers) (s : Client) : bool :=
  if is_tcp then tcp_fd_ s && wait_ok a else wait_ok a.

(** ** Tasks *)

Definition token_cancelled (c : Call) (s : Client) : bool :=
  match token c with Some k => bool_decide (k ∈ cancelled_tokens s) | None => false end.

Definition set_stage (t : nat) (g : Stage) (s : Client) : Client :=
  match tasks s !! t with
  | Some k => set_tasks (<[t := mkTask (call k) (attempt k) g]> (tasks s)) s
  | None => s
  end.

Definition finish (t : nat) (o : Outcome) (s : Client) : Client := set_stage t (Done o) s.

Definition max_attempts : Z := Z.max 1 (max_request_attempts cfg).

(** The decision after a response: [true] ends the loop. *)
Definition last_attempt (c : Call) (r : ClientResponse) (n : Z) : bool :=
  (n =? max_attempts) ||
  match should_retry cfg with
  | None => true
  | Some f => negb (f (method c) r n)
  end.

(** The body producer of an attempt. *)
Definition attempt_stream (k : Task) : option (list bytes) :=
  if attempt k =? 1 then body_stream (call k) else None.

Definition record_written (t : nat) (k : Task) (s : Client) : Client :=
  set_written (written s ++ [mkWritten t (attempt k) (call_headers (call k)) (attempt_stream k)])
    (submissions s) s.

Definition no_response : ClientResponse := mkClientResponse 0 [] [].
Definition new_h2 : H2PendingStream := mkH2 no_response None false false.
Definition new_h3 : H3PendingStream := mkH3 None None false.

(** ** Disconnection *)

Definition error_response (message : bytes) : ClientResponse := mkClientResponse 0 [] message.

(** The handles [complete_pending_with_error] collects. *)
Definition pending_handles (s : Client) : list nat :=
  order (omap (fun p => h3_coroutine (snd p)) (map_to_list (pending_ s))) ++
  order (omap (fun p => h2_coroutine (snd p)) (map_to_list (h2_pending_ s))) ++
  match pending_tcp_handle_ s with Some t => [t] | None => [] end.

Definition mark_pending (message : bytes) (s : Client) : Client :=
  let s := set_pending ((fun e => mkH3 (Some (error_response message)) (h3_coroutine e) (h3_cancelled e)) <$> pending_ s) s in
  let s := set_h2_pending ((fun e => mkH2 (error_response message) (h2_coroutine e) true (h2_cancelled e)) <$> h2_pending_ s) s in
  match pending_tcp_handle_ s with
  | Some _ => set_tcp_waiter None (set_tcp_response (Some (error_response message)) s)
  | None => s
  end.

(** [on_disconnect] after the pending requests: close, then plan a reconnect. *)
Definition close_connection (s : Client) : Client :=
  set_session false (set_recv_buf [] (set_tcp false false false s)).

Definition schedule_reconnect (s : Client) : Client :=
  if reconnect_pending_ s then s
  else if max_reconnect_attempts cfg <=? reconnect_attempts_ s
  then set_reconnect (reconnect_attempts_ s) true (reconnect_timer_ s) (next_backoff_ s) s
  else set_reconnect (reconnect_attempts_ s + 1) true (Some (next_backoff_ s))
         (Z.min (next_backoff_ s * 2) kMaxBackoff) s.

(** ** Requests, resumption and disconnection, which call each other *)

Inductive Op := Request (t : nat) | Resume (t : nat) | Disconnect.

(** Append to [tcp_write_buf_] and write. *)
Definition buffered (x : Send) (s : Client) : Client :=
  match x with
  | Flushed => set_write_buf [] s
  | _ => set_write_buf (tcp_write_buf_ s ++ [generation s]) s
  end.

Fixpoint exec (fuel : nat) (op : Op) (s : Client) : Client :=
  match fuel with
  | O => set_out_of_fuel true s
  | S fuel =>
      let write a s :=
        let s := buffered (send a) s in
        match send a with SendFailed => exec fuel Disconnect s | _ => s end in
      match op with
      | Request t =>
          match tasks s !! t with
          | None => set_broken true s
          | Some k =>
              if token_cancelled (call k) s then finish t RequestCancelled s
              else
                let a := env (submissions s) in
                let s := set_written (written s) (S (submissions s)) s in
                if negb (is_connected s) && negb (can_wait a s)
                then finish t (ClientError (bs "RestClient: failed to connect")) s
                else
                  let s := if is_connected s then s else connection_up s in
                  match protocol cfg with
                  | HTTP1_1 =>
                      if negb (encrypt_ok a)
                      then finish t (ClientError (bs "RestClient: failed to encrypt HTTP/1.1 request")) s
                      else
                        let s := write a (record_written t k s) in
                        set_stage t OnTcp (set_tcp_waiter (Some t) s)
                  | HTTP2 =>
                      if negb (h2_session_ s)
                      then finish t (ClientError (bs "RestClient: HTTP/2 session not ready")) s
                      else if negb (stream_ok a)
                      then finish t (ClientError (bs "RestClient: failed to submit H2 request")) s
                      else
                        let sid := next_stream_id s in
                        let s := write a (record_written t k (set_next_stream (sid + 2) s)) in
                        let e := default new_h2 (h2_pending_ s !! sid) in
                        set_stage t (OnH2 sid) (set_h2_pending
                          (<[sid := mkH2 (h2_response e) (Some t) (complete e) (h2_cancelled e)]> (h2_pending_ s)) s)
                  | HTTP3 =>
                      if negb (stream_ok a)
                      then finish t (ClientError (bs "RestClient: failed to submit")) s
                      else
                        let sid := next_stream_id s in
                        let s := record_written t k (set_next_stream (sid + 4) s) in
                        let e := default new_h3 (pending_ s !! sid) in
                        set_stage t (OnH3 sid) (set_pending
                          (<[sid := mkH3 (h3_response e) (Some t) (h3_cancelled e)]> (pending_ s)) s)
                  end
          end
      | Resume t =>
          match tasks s !! t with
          | None => set_broken true s
          | Some k =>
              let respond r s :=
                if token_cancelled (call k) s then finish t RequestCancelled s
                else if last_attempt (call k) r (attempt k) then finish t (Returned r) s
                else
                  exec fuel (Request t)
                    (set_tasks (<[t := mkTask (call k) (attempt k + 1) Running]> (tasks s)) s) in
              match stage k with
              | OnTcp =>
                  match tcp_response_ s with
                  | Some r => respond r (set_tcp_response None s)
                  | None => finish t (ClientError (bs "RestClient: request failed or connection lost")) s
                  end
              | OnH2 sid =>
                  match h2_pending_ s !! sid with
                  | Some e =>
                      if complete e then
                        let s := set_h2_pending (delete sid (h2_pending_ s)) s in
                        if h2_cancelled e then finish t RequestCancelled s else respond (h2_response e) s
                      else finish t (ClientError (bs "RestClient: HTTP/2 request failed or connection lost")) s
                  | None => finish t (ClientError (bs "RestClient: HTTP/2 request failed or connection lost")) s
                  end
              | OnH3 sid =>
                  match pending_ s !! sid with
                  | Some (mkH3 (Some r) _ c) =>
                      let s := set_pending (delete sid (pending_ s)) s in
                      if c : bool then finish t RequestCancelled s else respond r s
                  | _ => finish t (ClientError (bs "RestClient: response lost or connection dropped")) s
                  end
              | Running | Done _ => set_broken true s
              end
          end
      | Disconnect =>
          let handles := pending_handles s in
          let s := mark_pending (bs "Connection lost") s in
          let s := foldl (fun s t => exec fuel (Resume t) s) s handles in
          let s := set_h2_pending ∅ (set_pending ∅ s) in
          schedule_reconnect (close_connection s)
      end
  end.

(** ** Callbacks and calls *)

Section Events.
Context (fuel : nat).

Abbreviation run op s := (exec fuel op s) (only parsing).

Definition resume_opt (h : option nat) (s : Client) : Client :=
  match h with Some t => run (Resume t) s | None => s end.

Definition on_disconnect (s : Client) : Client := run Disconnect s.

(** [async_request_with_retry] up to its first suspension.  [span] is what
    [begin_client_span] drew for the call. *)
Definition async_request_with_retry (t : nat) (c : Call) (span : Context.TraceContext) (s : Client) : Client :=
  let headers := if propagate_trace_context cfg && negb (HeaderMap.has (bs "traceparent") (call_headers c))
                 then Trace.inject_headers span (call_headers c) else call_headers c in
  let c := mkCall (method c) (path c) (call_body c) headers (token c) (body_stream c) in
  run (Request t) (set_tasks (<[t := mkTask c 1 Running]> (tasks s)) s).

(** nghttp2's callbacks. *)
Definition h2_on_header_cb (sid : Z) (name value : bytes) (s : Client) : Client :=
  let e := default new_h2 (h2_pending_ s !! sid) in
  let put r := set_h2_pending (<[sid := mkH2 r (h2_coroutine e) (complete e) (h2_cancelled e)]> (h2_pending_ s)) s in
  let r := h2_response e in
  if bool_decide (name = bs ":status") then
    match stoi value with
    | inr code => put (mkClientResponse code (headers r) (body r))
    | inl _ => set_broken true (put r)
    end
  else put (mkClientResponse (status_code r) (HeaderMap.add name value (headers r)) (body r)).

Definition h2_on_data_chunk_recv_cb (sid : Z) (data : bytes) (s : Client) : Client :=
  match h2_pending_ s !! sid with
  | Some e =>
      let r := h2_response e in
      set_h2_pending (<[sid := mkH2 (mkClientResponse (status_code r) (headers r) (body r ++ data))
                                 (h2_coroutine e) (complete e) (h2_cancelled e)]> (h2_pending_ s)) s
  | None => s
  end.

Definition h2_on_stream_close_cb (sid : Z) (s : Client) : Client :=
  match h2_pending_ s !! sid with
  | Some e =>
      resume_opt (h2_coroutine e)
        (set_h2_pending (<[sid := mkH2 (h2_response e) (h2_coroutine e) true (h2_cancelled e)]> (h2_pending_ s)) s)
  | None => s
  end.

(** The response callback of the HTTP/3 session. *)
Definition h3_on_response (sid : Z) (resp : ClientResponse) (s : Client) : Client :=
  match pending_ s !! sid with
  | Some e =>
      resume_opt (h3_coroutine e)
        (set_pending (<[sid := mkH3 (Some resp) (h3_coroutine e) (h3_cancelled e)]> (pending_ s)) s)
  | None => s
  end.

(** [process_decrypted_tcp_data] for HTTP/1.1. *)
Definition http1_data (data : bytes) (s : Client) : Client :=
  let s := set_recv_buf (http1_recv_buf_ s ++ data) s in
  match try_parse_http1_response fuel (http1_recv_buf_ s) with
  | (Parsed r _, buf) =>
      let handle := pending_tcp_handle_ s in
      resume_opt handle (set_tcp_waiter None (set_tcp_response (Some r) (set_recv_buf buf s)))
  | (ClientHttp1.Disconnect, _) => on_disconnect s
  | (Throws, _) => set_broken true s
  | (Incomplete, _) => s
  | (OutOfFuel, _) => set_out_of_fuel true s
  end.

(** [cancel_h2_stream]: the iterator into the table is used after the write. *)
Definition cancel_h2_stream (sid : Z) (x : Send) (s : Client) : Client :=
  match h2_pending_ s !! sid with
  | None => s
  | Some e =>
      if complete e then s
      else
        let s := set_h2_pending (<[sid := mkH2 (h2_response e) (h2_coroutine e) true true]> (h2_pending_ s)) s in
        let s := buffered x s in
        match x with
        | SendFailed => set_broken true (on_disconnect s)
        | _ => resume_opt (h2_coroutine e) s
        end
  end.

Definition cancel_h3_stream (sid : Z) (s : Client) : Client :=
  match pending_ s !! sid with
  | None => s
  | Some e =>
      match h3_response e with
      | Some _ => s
      | None =>
          resume_opt (h3_coroutine e)
            (set_pending (<[sid := mkH3 (Some (mkClientResponse 0 [] (bs "cancelled")))
                                     (h3_coroutine e) true]> (pending_ s)) s)
      end
  end.

(** [CancellationSource::cancel]: what it posts to the loop runs later. *)
Definition cancel (k : nat) (s : Client) : Client := set_tokens ({[k]} ∪ cancelled_tokens s) s.

(** [do_reconnect]; [ok] is whether the new socket could be made. *)
Definition do_reconnect (ok : bool) (s : Client) : Client :=
  let s := if is_tcp
           then set_generation (generation s + 1) (set_session false (set_recv_buf [] (set_tcp ok false false s)))
           else set_conn false s in
  if ok then s else on_disconnect s.

(** The reconnection timer. *)
Definition on_reconnect_timer (ok : bool) (s : Client) : Client :=
  match reconnect_timer_ s with
  | None => s
  | Some _ => do_reconnect ok (set_reconnect (reconnect_attempts_ s) false None (next_backoff_ s) s)
  end.

(** The TLS or QUIC handshake completes on an open connection. *)
Definition on_handshake (s : Client) : Client :=
  if is_connected s then s
  else if is_tcp && negb (tcp_fd_ s) then s else connection_up s.

(** The transport reports the end of the connection. *)
Definition on_hangup (s : Client) : Client := on_disconnect (set_conn false s).

(** [sync_execute] gives up on a task, which is destroyed with its frame. *)
Definition on_timeout (t : nat) (s : Client) : Client :=
  let s := on_disconnect s in
  match tasks s !! t with
  | Some (mkTask c n (Done _)) => finish t (ClientError (bs "RestClient: request timed out")) s
  | _ => set_tasks (delete t (tasks s)) s
  end.

(** ** Runs *)

Inductive Event :=
| Call_ (t : nat) (c : Call) (span : Context.TraceContext)
| H2Header (sid : Z) (name value : bytes)
| H2Data (sid : Z) (data : bytes)
| H2Close (sid : Z)
| H3Response (sid : Z) (resp : ClientResponse)
| Http1Data (data : bytes)
| Cancel (k : nat)
| PostedCancelH1
| PostedCancelH2 (sid : Z) (x : Send)
| PostedCancelH3 (sid : Z)
| Hangup
| Timeout (t : nat)
| Timer (ok : bool)
| Handshake.

Definition handle (e : Event) (s : Client) : Client :=
  match e with
  | Call_ t c span => async_request_with_retry t c span s
  | H2Header sid n v => h2_on_header_cb sid n v s
  | H2Data sid d => h2_on_data_chunk_recv_cb sid d s
  | H2Close sid => h2_on_stream_close_cb sid s
  | H3Response sid r => h3_on_response sid r s
  | Http1Data d => http1_data d s
  | Cancel k => cancel k s
  | PostedCancelH1 => on_disconnect s
  | PostedCancelH2 sid x => cancel_h2_stream sid x s
  | PostedCancelH3 sid => cancel_h3_stream sid s
  | Hangup => on_hangup s
  | Timeout t => on_timeout t s
  | Timer ok => on_reconnect_timer ok s
  | Handshake => on_handshake s
  end.

Definition handle_all (es : list Event) (s : Client) : Client := foldl (fun s e => handle e s) s es.

(** [create]: the first connection attempt is under way. *)
Definition created : Client := if is_tcp then set_tcp true false false new_client else new_client.

End Events.
End Client.

End RestClient.
