(* ===== verification/RestClientProps.v ===== *)
(** * The REST client: retries, reconnection, and no call forgotten *)

From S2P Require Import Prelude CxxString HttpMessage Middleware BrowserAuth Observability Http1 ClientHttp1 RestClient.
Import RestClient.

(** ** Retries *)

Module RetryProps.

(** What a retry policy may depend on: the calls, their attempts and what was written. *)
Definition ledger (s : Client) : gmap nat (Call * Z) * list Written :=
  ((fun k => (call k, attempt k)) <$> tasks s, written s).

Section Retries.
Context (cfg : Config) (env : nat -> Answers) (order : list nat -> list nat).

(** Every written request is an attempt of its call within the bound, written
    once, with the headers of the call, and only the first one streams. *)
Record bounded (l : gmap nat (Call * Z) * list Written) : Prop := {
  b_range : forall w, w ∈ snd l -> 1 <= w_attempt w <= max_attempts cfg;
  b_stream : forall w, w ∈ snd l -> w_attempt w <> 1 -> w_stream w = None;
  b_once : NoDup (map (fun w => (w_task w, w_attempt w)) (snd l));
  b_task : forall t c n, fst l !! t = Some (c, n) -> 1 <= n <= max_attempts cfg;
  b_past : forall w c n, w ∈ snd l -> fst l !! w_task w = Some (c, n) ->
    w_attempt w <= n /\ w_headers w = call_headers c
}.

Lemma ledger_stage t g s : ledger (set_stage t g s) = ledger s.
Proof.
  unfold ledger, set_stage. destruct (tasks s !! t) as [k|] eqn:E; [|done]. cbn. f_equal.
  rewrite fmap_insert. cbn. apply insert_id. by rewrite lookup_fmap, E.
Qed.

Lemma ledger_finish t o s : ledger (finish t o s) = ledger s.
Proof. apply ledger_stage. Qed.

Lemma ledger_buffered x s : ledger (buffered x s) = ledger s.
Proof. by destruct x. Qed.

Lemma ledger_up s : ledger (connection_up cfg s) = ledger s.
Proof. unfold connection_up. by repeat case_match. Qed.

Lemma ledger_mark m s : ledger (mark_pending m s) = ledger s.
Proof. unfold mark_pending. by case_match. Qed.

Lemma ledger_schedule s : ledger (schedule_reconnect cfg s) = ledger s.
Proof. unfold schedule_reconnect. by repeat case_match. Qed.

Hint Rewrite ledger_stage ledger_finish ledger_buffered ledger_up ledger_mark ledger_schedule : ledger.

(** A task may write its next attempt. *)
Definition may_write (t : nat) (s : Client) : Prop :=
  exists k, tasks s !! t = Some k /\ forall w, w ∈ written s -> w_task w = t -> w_attempt w < attempt k.

Lemma bounded_write t k s : tasks s !! t = Some k -> may_write t s -> bounded (ledger s) ->
  bounded (ledger (record_written t k s)).
Proof.
  intros E (k' & E' & H) [B1 B2 B3 B4 B5]. rewrite E in E'. injection E' as <-.
  assert (fst (ledger s) !! t = Some (call k, attempt k)) as L by (cbn; by rewrite lookup_fmap, E).
  split; cbn -[max_attempts] in *.
  - intros w [Hw| ->%list_elem_of_singleton]%elem_of_app; [by apply B1|]. cbn. eapply B4, L.
  - intros w [Hw| ->%list_elem_of_singleton]%elem_of_app; [by apply B2|]. cbn. unfold attempt_stream.
    intros N. by rewrite (proj2 (Z.eqb_neq _ _)).
  - rewrite map_app. apply NoDup_app. split; [done|]. split; [|by repeat constructor; apply not_elem_of_nil].
    intros p (w & -> & Hw)%list_elem_of_fmap Hp. cbn in Hp. apply list_elem_of_singleton in Hp.
    injection Hp as H1 H2. specialize (H w Hw H1). lia.
  - done.
  - intros w c n [Hw| ->%list_elem_of_singleton]%elem_of_app; [by apply B5|]. cbn. rewrite L.
    intros [= <- <-]. split; [lia|done].
Qed.

(** The next attempt of a task whose response asks for one. *)
Lemma bounded_next t k s : tasks s !! t = Some k -> attempt k <> max_attempts cfg -> bounded (ledger s) ->
  let s' := set_tasks (<[t := mkTask (call k) (attempt k + 1) Running]> (tasks s)) s in
  bounded (ledger s') /\ may_write t s'.
Proof.
  intros E N [B1 B2 B3 B4 B5].
  assert (fst (ledger s) !! t = Some (call k, attempt k)) as L by (cbn; by rewrite lookup_fmap, E).
  pose proof (B4 _ _ _ L). cbv zeta. split.
  - split; cbn -[max_attempts] in *; [done|done|done|..].
    + intros t' c n. rewrite fmap_insert, lookup_insert_Some. intros [[_ [= <- <-]]|[_ Hn]]; [lia|by eapply B4].
    + intros w c n Hw. rewrite fmap_insert, lookup_insert_Some. intros [[Et [= <- <-]]|[_ Hn]].
      * rewrite Et in L. destruct (B5 _ _ _ Hw L). split; [lia|done].
      * by apply B5.
  - exists (mkTask (call k) (attempt k + 1) Running). cbn. split; [by rewrite lookup_insert_eq|].
    intros w Hw Et. rewrite <- Et in L. destruct (B5 _ _ _ Hw L). lia.
Qed.

Definition op_ready (op : Op) (s : Client) : Prop :=
  match op with Request t => may_write t s | _ => True end.

(** Tasks are never forgotten by the functions that call each other. *)
Lemma exec_bounded fuel op s : bounded (ledger s) -> op_ready op s ->
  bounded (ledger (exec cfg env order fuel op s)).
Proof.
  revert op s. induction fuel as [|fuel IH]; intros op s B R; [done|].
  assert (forall a s, bounded (ledger s) -> bounded (ledger (match send a with
    | SendFailed => exec cfg env order fuel Disconnect (buffered (send a) s)
    | _ => buffered (send a) s end))) as Hwrite.
  { intros a s0 B0. destruct (send a); rewrite ?ledger_buffered; [done..|]. by apply IH. }
  destruct op as [t|t|]; cbn [exec].
  - destruct (tasks s !! t) as [k|] eqn:E; [|done].
    destruct (token_cancelled _ _); [by rewrite ledger_finish|].
    set (a := env (submissions s)). set (s1 := set_written _ _ s).
    destruct (negb _ && negb _); [by rewrite ledger_finish|].
    set (s2 := if is_connected cfg s1 then s1 else connection_up cfg s1).
    assert (ledger s2 = ledger s) as L2 by (unfold s2; case_match; autorewrite with ledger; done).
    assert (tasks s2 = tasks s /\ written s2 = written s) as [T2 W2].
    { unfold s2, connection_up. repeat case_match; done. }
    assert (forall n, bounded (ledger (record_written t k (set_next_stream n s2)))) as B3.
    { intros n. apply bounded_write; [by rewrite <- T2 in E| |by rewrite <- L2 in B].
      unfold may_write. cbn. rewrite T2, W2. exact R. }
    assert (bounded (ledger (record_written t k s2))) as B3' by exact (B3 (next_stream_id s2)).
    destruct (protocol cfg).
    + destruct (negb (stream_ok a)); [by rewrite ledger_finish, L2|]. rewrite ledger_stage. apply B3.
    + destruct (negb (h2_session_ s2)); [by rewrite ledger_finish, L2|].
      destruct (negb (stream_ok a)); [by rewrite ledger_finish, L2|]. rewrite ledger_stage.
      apply Hwrite, B3.
    + destruct (negb (encrypt_ok a)); [by rewrite ledger_finish, L2|]. rewrite ledger_stage. by apply Hwrite.
  - destruct (tasks s !! t) as [k|] eqn:E; [|done].
    assert (forall r s', tasks s' = tasks s -> written s' = written s -> bounded (ledger
      (if token_cancelled (call k) s' then finish t RequestCancelled s'
       else if last_attempt cfg (call k) r (attempt k) then finish t (Returned r) s'
       else exec cfg env order fuel (Request t)
              (set_tasks (<[t := mkTask (call k) (attempt k + 1) Running]> (tasks s')) s')))) as Hrespond.
    { intros r s' T W. assert (ledger s' = ledger s) as L by (unfold ledger; by rewrite T, W).
      destruct (token_cancelled _ _); [by rewrite ledger_finish, L|].
      destruct (last_attempt _ _ _ _) eqn:LA; [by rewrite ledger_finish, L|].
      unfold last_attempt in LA. apply orb_false_iff in LA as [LA _]. to_prop.
      destruct (bounded_next t k s') as [B' M]; [by rewrite T|done|by rewrite L|]. by apply IH. }
    destruct (stage k) as [| |sid|sid|o]; try done.
    + destruct (tcp_response_ s); [by apply Hrespond|by rewrite ledger_finish].
    + destruct (h2_pending_ s !! sid) as [e|]; [|by rewrite ledger_finish].
      destruct (complete e); [|by rewrite ledger_finish].
      destruct (h2_cancelled e); [by rewrite ledger_finish|by apply Hrespond].
    + destruct (pending_ s !! sid) as [[[r|] h c]|]; [|by rewrite ledger_finish..].
      destruct c; [by rewrite ledger_finish|by apply Hrespond].
  - autorewrite with ledger.
    change (bounded (ledger (foldl (fun s t => exec cfg env order fuel (Resume t) s)
      (mark_pending (bs "Connection lost") s) (pending_handles order s)))).
    generalize (pending_handles order s). intros hs.
    assert (bounded (ledger (mark_pending (bs "Connection lost") s))) as B0 by (by rewrite ledger_mark).
    revert B0. generalize (mark_pending (bs "Connection lost") s).
    induction hs as [|h hs IHh]; intros s0 B0; [done|]. cbn. apply IHh. by apply IH.
Qed.

(** ** Runs of a client *)

(** A new call gets a new name. *)
Definition admissible (e : Event) (s : Client) : Prop :=
  match e with
  | Call_ t _ _ => tasks s !! t = None /\ forall w, w ∈ written s -> w_task w <> t
  | _ => True
  end.

Inductive reachable (fuel : nat) : Client -> Prop :=
| reach_created : reachable fuel (created cfg)
| reach_step e s : reachable fuel s -> admissible e s ->
    reachable fuel (handle cfg env order fuel e s).

Lemma ledger_resume_opt fuel h s : bounded (ledger s) -> bounded (ledger (resume_opt cfg env order fuel h s)).
Proof. intros B. destruct h; [|done]. by apply exec_bounded. Qed.

Lemma ledger_disconnect fuel s : bounded (ledger s) -> bounded (ledger (on_disconnect cfg env order fuel s)).
Proof. intros B. by apply exec_bounded. Qed.

Lemma bounded_forget t s : bounded (ledger s) -> bounded (ledger (set_tasks (delete t (tasks s)) s)).
Proof.
  intros [B1 B2 B3 B4 B5]. split; cbn -[max_attempts] in *; [done|done|done|..].
  - intros t' c n. rewrite fmap_delete. intros [_ H]%lookup_delete_Some. by eapply B4.
  - intros w c n Hw. rewrite fmap_delete. intros [_ H]%lookup_delete_Some. by eapply B5.
Qed.

Lemma bounded_call t c s : tasks s !! t = None -> (forall w, w ∈ written s -> w_task w <> t) ->
  bounded (ledger s) ->
  let s' := set_tasks (<[t := mkTask c 1 Running]> (tasks s)) s in
  bounded (ledger s') /\ may_write t s'.
Proof.
  intros E F [B1 B2 B3 B4 B5]. cbv zeta. split.
  - split; cbn -[max_attempts] in *; [done|done|done|..].
    + intros t' c' n. rewrite fmap_insert, lookup_insert_Some. intros [[_ [= <- <-]]|[_ Hn]]; [|by eapply B4].
      unfold max_attempts. lia.
    + intros w c' n Hw. rewrite fmap_insert, lookup_insert_Some. intros [[Et _]|[_ Hn]]; [|by apply B5].
      by destruct (F w Hw).
  - exists (mkTask c 1 Running). cbn. split; [by rewrite lookup_insert_eq|].
    intros w Hw Et. by destruct (F w Hw).
Qed.

Lemma handle_bounded fuel e s : bounded (ledger s) -> admissible e s ->
  bounded (ledger (handle cfg env order fuel e s)).
Proof.
  intros B A. destruct e; cbn [handle].
  - destruct A as [A1 A2]. unfold async_request_with_retry. cbv zeta.
    edestruct (bounded_call t) as [B' M]; [exact A1|exact A2|exact B|]. by apply exec_bounded.
  - unfold h2_on_header_cb. repeat case_match; done.
  - unfold h2_on_data_chunk_recv_cb. by case_match.
  - unfold h2_on_stream_close_cb. case_match; [|done]. by apply ledger_resume_opt.
  - unfold h3_on_response. case_match; [|done]. by apply ledger_resume_opt.
  - unfold http1_data. repeat case_match; try done; [by apply ledger_disconnect|by apply ledger_resume_opt].
  - done.
  - by apply ledger_disconnect.
  - unfold cancel_h2_stream. repeat case_match; try done; try by apply ledger_resume_opt.
    by apply ledger_disconnect.
  - unfold cancel_h3_stream. repeat case_match; try done. by apply ledger_resume_opt.
  - unfold on_hangup. by apply ledger_disconnect.
  - unfold on_timeout. pose proof (ledger_disconnect fuel s B) as B'.
    repeat case_match; rewrite ?ledger_finish; try done; by apply bounded_forget.
  - unfold on_reconnect_timer, do_reconnect. repeat case_match; try done; by apply ledger_disconnect.
  - unfold on_handshake. repeat case_match; rewrite ?ledger_up; done.
Qed.

(** How often a call was written. *)
Definition writes (t : nat) (s : Client) : list Written := List.filter (fun w => bool_decide (w_task w = t)) (written s).

Lemma writes_bounded t s : bounded (ledger s) -> len (writes t s) <= max_attempts cfg.
Proof.
  intros [B1 _ B3 _ _]. cbn in B1, B3.
  assert (NoDup (map w_attempt (writes t s))) as N.
  { unfold writes. induction (written s) as [|w ws IH]; [constructor|]. cbn in B3.
    apply NoDup_cons in B3 as [N1 N2]. cbn. case_bool_decide as E; [|apply IH; [|done]; set_solver].
    cbn. apply NoDup_cons. split; [|apply IH; [set_solver|done]].
    intros (w' & Ew & Hw)%list_elem_of_fmap. apply N1. apply list_elem_of_fmap. exists w'.
    apply list_elem_of_In, filter_In in Hw as [Hw Hd]. to_prop. split; [congruence|by apply list_elem_of_In]. }
  assert (forall n, n ∈ map w_attempt (writes t s) -> n ∈ seqZ 1 (max_attempts cfg)) as I.
  { intros n (w & -> & Hw)%list_elem_of_fmap. apply list_elem_of_In, filter_In in Hw as [Hw _].
    apply list_elem_of_In, B1 in Hw. apply elem_of_seqZ. lia. }
  apply (NoDup_submseteq _ _ N), submseteq_length in I. rewrite length_map, length_seqZ in I.
  unfold len, max_attempts in *. lia.
Qed.

(** [C28] The retry policy is kept whatever happens: at any time each call has been
    written at most as often as the configuration allows, once by default; the
    attempts of a call are distinct and carry the same headers, so the same
    trace; and only the first one takes chunks from the caller's producer. *)
Theorem retries_bounded fuel s (H : reachable fuel s) :
  (forall t, len (writes t s) <= Z.max 1 (max_request_attempts cfg)) /\
  NoDup (map (fun w => (w_task w, w_attempt w)) (written s)) /\
  (forall w, w ∈ written s -> w_attempt w <> 1 -> w_stream w = None) /\
  (forall w k, w ∈ written s -> tasks s !! w_task w = Some k -> w_headers w = call_headers (call k)).
Proof.
  assert (bounded (ledger s)) as B.
  { induction H as [|e s H IH A]; [|by apply handle_bounded].
    unfold created. case_match; split; cbn; set_solver by (constructor || done). }
  split; [intros t; by apply writes_bounded|]. destruct B as [B1 B2 B3 B4 B5]. cbn in *.
  split_and!; [done|done|]. intros w k Hw E. eapply B5; [done|]. by rewrite lookup_fmap, E.
Qed.

End Retries.
End RetryProps.

(** ** Reconnection *)

Module ReconnectProps.

Definition pace (s : Client) : Z * option Z * Z := (reconnect_attempts_ s, reconnect_timer_ s, next_backoff_ s).

Section Reconnection.
Context (cfg : Config) (env : nat -> Answers) (order : list nat -> list nat).

(** The counters stay in range, and every wait with them. *)
Definition paced (p : Z * option Z * Z) : Prop :=
  0 <= p.1.1 <= Z.max 0 (max_reconnect_attempts cfg) /\ 100 <= p.2 <= kMaxBackoff /\
  forall b, p.1.2 = Some b -> 100 <= b <= kMaxBackoff.

Lemma pace_stage t g s : pace (set_stage t g s) = pace s.
Proof. unfold set_stage. by case_match. Qed.

Lemma pace_buffered x s : pace (buffered x s) = pace s.
Proof. by destruct x. Qed.

Lemma pace_mark m s : pace (mark_pending m s) = pace s.
Proof. unfold mark_pending. by case_match. Qed.

Lemma paced_up s : paced (pace s) -> paced (pace (connection_up cfg s)).
Proof. intros (H1 & H2 & H3). unfold connection_up, paced, kMaxBackoff in *. repeat case_match; cbn in *; split_and!; try done; lia. Qed.

Lemma paced_schedule s : paced (pace s) -> paced (pace (schedule_reconnect cfg s)).
Proof.
  intros (H1 & H2 & H3). unfold schedule_reconnect, paced, kMaxBackoff in *. cbn in *. repeat case_match; to_prop; cbn in *;
    split_and!; try done; try lia. intros b [= <-]. lia.
Qed.

Lemma exec_paced fuel op s : paced (pace s) -> paced (pace (exec cfg env order fuel op s)).
Proof.
  revert op s. induction fuel as [|fuel IH]; intros op s B; [done|].
  assert (forall a s, paced (pace s) -> paced (pace (match send a with
    | SendFailed => exec cfg env order fuel Disconnect (buffered (send a) s)
    | _ => buffered (send a) s end))) as Hwrite.
  { intros a s0 B0. destruct (send a); rewrite ?pace_buffered; [done..|]. by apply IH. }
  destruct op as [t|t|]; cbn [exec]; [|unfold finish; repeat case_match; rewrite ?pace_stage; try done; by apply IH|].
  - destruct (tasks s !! t) as [k|]; [|done]. unfold finish. case_match; [by rewrite pace_stage|].
    set (s1 := set_written _ _ s). case_match; [by rewrite pace_stage|].
    set (s2 := if is_connected cfg s1 then s1 else connection_up cfg s1).
    assert (paced (pace s2)) as B2 by (unfold s2; case_match; [done|by apply paced_up]).
    destruct (protocol cfg); repeat (case_match; [by rewrite pace_stage|]); rewrite pace_stage; [done|by apply Hwrite..].
  - apply paced_schedule.
    change (paced (pace (foldl (fun s t => exec cfg env order fuel (Resume t) s)
      (mark_pending (bs "Connection lost") s) (pending_handles order s)))).
    generalize (pending_handles order s). intros hs.
    assert (paced (pace (mark_pending (bs "Connection lost") s))) as B0 by (by rewrite pace_mark).
    revert B0. generalize (mark_pending (bs "Connection lost") s).
    induction hs as [|h hs IHh]; intros s0 B0; [done|]. cbn. apply IHh. by apply IH.
Qed.

Lemma handle_paced fuel e s : paced (pace s) -> paced (pace (handle cfg env order fuel e s)).
Proof.
  assert (forall o s, paced (pace s) -> paced (pace (exec cfg env order fuel o s))) as X by (intros; by apply exec_paced).
  assert (forall h s, paced (pace s) -> paced (pace (resume_opt cfg env order fuel h s))) as R
    by (intros [h|] s0 B; [by apply X|done]).
  intros B. destruct e; cbn [handle].
  - by apply X.
  - unfold h2_on_header_cb. repeat case_match; done.
  - unfold h2_on_data_chunk_recv_cb. by case_match.
  - unfold h2_on_stream_close_cb. case_match; [|done]. by apply R.
  - unfold h3_on_response. case_match; [|done]. by apply R.
  - unfold http1_data. repeat case_match; try done; [by apply X|by apply R].
  - done.
  - by apply X.
  - unfold cancel_h2_stream. repeat case_match; try done; try by apply R. by apply X.
  - unfold cancel_h3_stream. repeat case_match; try done. by apply R.
  - by apply X.
  - unfold on_timeout, on_disconnect, finish. pose proof (X Disconnect s B). repeat case_match; rewrite ?pace_stage; done.
  - unfold on_reconnect_timer, do_reconnect. repeat case_match; try done; try apply X; by destruct B as (B1 & B2 & B3).
  - unfold on_handshake. repeat case_match; try done. by apply paced_up.
Qed.

(** The client never waits longer than the cap before it reconnects, nor less
    than the first delay, and never makes more attempts in a row than allowed. *)
Theorem backoff_bounded fuel (es : list Event) :
  let s := handle_all cfg env order fuel es (created cfg) in
  0 <= reconnect_attempts_ s <= Z.max 0 (max_reconnect_attempts cfg) /\
  100 <= next_backoff_ s <= 30000 /\
  forall b, reconnect_timer_ s = Some b -> 100 <= b <= 30000.
Proof.
  cbv zeta. change (paced (pace (handle_all cfg env order fuel es (created cfg)))).
  assert (paced (pace (created cfg))) as B.
  { unfold created, paced, kMaxBackoff. case_match; cbn; split_and!; try done; lia. }
  unfold handle_all. revert B. generalize (created cfg).
  induction es as [|e es IH]; intros s B; [done|]. cbn. by apply IH, handle_paced.
Qed.

End Reconnection.
End ReconnectProps.
