(* ===== verification/RestClientCalls.v ===== *)
(** * The REST client over HTTP/2: no call is lost or resumed twice

    Without a retry policy, and as long as the socket takes what is written, a
    suspended call always has its entry in the table of streams, so that the
    end of its stream, its cancellation or the end of the connection finishes
    it; and nothing else resumes it. *)

From S2P Require Import Prelude CxxString HttpMessage Middleware BrowserAuth Observability Http1 ClientHttp1 RestClient.
Import RestClient.

Module CallProps.
Import ClientHttp1.

(** The other fields are as before. *)
Definition framed (s s' : Client) : Prop :=
  tcp_fd_ s' = tcp_fd_ s /\ tcp_connected_ s' = tcp_connected_ s /\
  tls_handshake_done_ s' = tls_handshake_done_ s /\ h2_session_ s' = h2_session_ s /\
  next_stream_id s' = next_stream_id s /\ cancelled_tokens s' = cancelled_tokens s /\
  reconnect_timer_ s' = reconnect_timer_ s /\ pending_ s' = pending_ s /\
  pending_tcp_handle_ s' = pending_tcp_handle_ s /\
  broken s' = broken s /\ out_of_fuel s' = out_of_fuel s.

#[export] Instance framed_preorder : PreOrder framed.
Proof.
  split; [by intros s; unfold framed; split_and!|].
  intros s1 s2 s3 H1 H2. unfold framed in *. destruct_and!. split_and!; congruence.
Qed.

Lemma tasks_stage t g s k : tasks s !! t = Some k ->
  tasks (set_stage t g s) = <[t := mkTask (call k) (attempt k) g]> (tasks s).
Proof. intros E. unfold set_stage. by rewrite E. Qed.

Lemma framed_stage t g s : framed s (set_stage t g s) /\ h2_pending_ (set_stage t g s) = h2_pending_ s.
Proof. unfold set_stage. case_match; unfold framed; cbn; split_and!; done. Qed.

(** ** The invariant *)

(** A task and the entry that knows it. *)
Definition waits (s : Client) (t : nat) (k : Task) (sid : Z) : Prop :=
  tasks s !! t = Some k /\ stage k = OnH2 sid.

(** Every task but [except] is finished or known to an entry, still open, of the table. *)
Definition known (except : option nat) (s : Client) : Prop := forall t k,
  tasks s !! t = Some k -> Some t <> except ->
  match stage k with
  | OnH2 sid => exists e, h2_pending_ s !! sid = Some e /\ h2_coroutine e = Some t /\
      complete e = false /\ h2_cancelled e = false
  | Done _ => True
  | _ => False
  end.

Definition held (s : Client) : Prop := forall sid e t,
  h2_pending_ s !! sid = Some e -> h2_coroutine e = Some t -> exists k, waits s t k sid.

Record accounted_but (x : option nat) (s : Client) : Prop := {
  a_known : known x s;
  a_held : held s;
  a_streams : forall sid, is_Some (h2_pending_ s !! sid) -> sid < next_stream_id s;
  a_down : tcp_fd_ s && tcp_connected_ s && tls_handshake_done_ s = false -> h2_pending_ s = ∅;
  a_session : tcp_fd_ s && tcp_connected_ s && tls_handshake_done_ s = true -> h2_session_ s = true;
  a_timer : is_Some (reconnect_timer_ s) -> tcp_fd_ s = false;
  a_h3 : pending_ s = ∅;
  a_h1 : pending_tcp_handle_ s = None;
  a_safe : broken s = false;
  a_fuel : out_of_fuel s = false
}.

Abbreviation accounted := (accounted_but None).

(** Two states that agree on what the invariant is about. *)
Definition alike (s s' : Client) : Prop :=
  tasks s' = tasks s /\ h2_pending_ s' = h2_pending_ s /\ tcp_fd_ s' = tcp_fd_ s /\
  tcp_connected_ s' = tcp_connected_ s /\ tls_handshake_done_ s' = tls_handshake_done_ s /\
  h2_session_ s' = h2_session_ s /\ next_stream_id s <= next_stream_id s' /\
  reconnect_timer_ s' = reconnect_timer_ s /\ pending_ s' = pending_ s /\
  pending_tcp_handle_ s' = pending_tcp_handle_ s /\ broken s' = broken s /\ out_of_fuel s' = out_of_fuel s.

Lemma accounted_alike x s s' : alike s s' -> accounted_but x s -> accounted_but x s'.
Proof.
  intros (E1 & E2 & E3 & E4 & E5 & E6 & E7 & E8 & E9 & E10 & E11 & E12) A. destruct A.
  split; unfold known, held, waits in *; rewrite ?E1, ?E2, ?E3, ?E4, ?E5, ?E6, ?E8, ?E9, ?E10, ?E11, ?E12; try done.
  intros sid H. specialize (a_streams0 sid H). lia.
Qed.

Ltac alike := unfold alike; cbn; split_and!; (done || lia).

(** A task begins to run; it ends; it is suspended. *)
Lemma accounted_start t c n s : tasks s !! t = None -> accounted s ->
  accounted_but (Some t) (set_tasks (<[t := mkTask c n Running]> (tasks s)) s).
Proof.
  intros E A. pose proof A as []. split; cbn; try done.
  - intros t' k. cbn. intros [[<- _]|[Ne E']]%lookup_insert_Some; [done|]. intros _. by apply (a_known0 t' k).
  - intros sid e t' He Hc. destruct (a_held0 _ _ _ He Hc) as (k & E' & S). exists k. split; [|done]. cbn.
    rewrite lookup_insert_ne; [done|]. intros <-. congruence.
Qed.

Lemma accounted_finish t c n o s : tasks s !! t = Some (mkTask c n Running) -> accounted_but (Some t) s ->
  accounted (finish t o s).
Proof.
  intros E []. unfold finish, set_stage. rewrite E. split; cbn; try done.
  - intros t' k. cbn. intros [[<- <-]|[Ne E']]%lookup_insert_Some; [done|]. intros _.
    apply (a_known0 t' k E'). congruence.
  - intros sid e t' He Hc. destruct (a_held0 _ _ _ He Hc) as (k & E' & S). exists k. split; [|done]. cbn.
    rewrite lookup_insert_ne; [done|]. intros <-. rewrite E in E'. by injection E' as <-.
Qed.

Lemma accounted_suspend t c n sid r s : tasks s !! t = Some (mkTask c n Running) -> accounted_but (Some t) s ->
  h2_pending_ s !! sid = None -> sid < next_stream_id s ->
  tcp_fd_ s && tcp_connected_ s && tls_handshake_done_ s = true ->
  accounted (set_stage t (OnH2 sid) (set_h2_pending (<[sid := mkH2 r (Some t) false false]> (h2_pending_ s)) s)).
Proof.
  intros E [] N L C. unfold set_stage. cbn. rewrite E. split; cbn; try done.
  - intros t' k. cbn. intros [[<- <-]|[Ne E']]%lookup_insert_Some _; [eexists; by rewrite lookup_insert_eq|].
    specialize (a_known0 t' k E' ltac:(congruence)). destruct (stage k); try done.
    destruct a_known0 as (e & He & H). exists e. rewrite lookup_insert_ne; [done|]. congruence.
  - intros sid' e t'. cbn. intros [[<- <-]|[Ne He]]%lookup_insert_Some; cbn.
    + intros [= <-]. eexists. unfold waits. cbn. by rewrite lookup_insert_eq.
    + intros Hc. destruct (a_held0 _ _ _ He Hc) as (k & E' & S). exists k. split; [|done]. cbn.
      rewrite lookup_insert_ne; [done|]. intros <-. rewrite E in E'. by injection E' as <-.
  - intros sid' [e' [[<- _]|[_ He]]%lookup_insert_Some]; [done|]. by apply a_streams0.
  - congruence.
Qed.

(** An entry changes in what the invariant does not say. *)
Lemma accounted_entry sid e' s : accounted s ->
  tcp_fd_ s && tcp_connected_ s && tls_handshake_done_ s = true -> sid < next_stream_id s ->
  let e := default new_h2 (h2_pending_ s !! sid) in
  h2_coroutine e' = h2_coroutine e -> complete e' = complete e -> h2_cancelled e' = h2_cancelled e ->
  accounted (set_h2_pending (<[sid := e']> (h2_pending_ s)) s).
Proof.
  intros [] C L e Hc Hd Hx. split; cbn; try done.
  - intros t k E X. specialize (a_known0 t k E X). destruct (stage k) as [| |sid'|sid'|o] eqn:S; try done. cbn.
    destruct a_known0 as (e0 & He & H). destruct (decide (sid' = sid)) as [->|Ne].
    + exists e'. rewrite lookup_insert_eq. unfold e in *. rewrite He in *. cbn in *. destruct_and!. split_and!; congruence.
    + exists e0. by rewrite lookup_insert_ne.
  - intros sid' e0 t. cbn. intros [[<- <-]|[Ne He]]%lookup_insert_Some Ht; [|by apply (a_held0 _ _ _ He)].
    rewrite Hc in Ht. unfold e in Ht. destruct (h2_pending_ s !! sid) as [e1|] eqn:He; [|done]. by apply (a_held0 _ _ _ He).
  - intros sid' [e0 [[<- _]|[_ He]]%lookup_insert_Some]; [done|]. by apply a_streams0.
  - congruence.
Qed.

Section Http2.
Context (cfg : Config) (env : nat -> Answers) (order : list nat -> list nat).
Context (Hproto : protocol cfg = HTTP2) (Hretry : should_retry cfg = None).
Context (Hsend : forall n, send (env n) <> SendFailed).
Context (Horder : forall l, Permutation (order l) l).

Abbreviation exec := (exec cfg env order).

Lemma is_tcp_true : is_tcp cfg = true.
Proof using Hproto. unfold is_tcp. by rewrite Hproto. Qed.

(** How a call whose entry says it is over ends. *)
Definition outcome (k : Task) (r : ClientResponse) (cancelled : bool) (s : Client) : Outcome :=
  if cancelled || token_cancelled (call k) s then RequestCancelled else Returned r.

Definition settled (k : Task) (o : Outcome) : Task := mkTask (call k) (attempt k) (Done o).

Lemma resume_complete fuel s t k sid e : waits s t k sid -> h2_pending_ s !! sid = Some e -> complete e = true ->
  exec (S fuel) (Resume t) s =
  set_stage t (Done (outcome k (h2_response e) (h2_cancelled e) s)) (set_h2_pending (delete sid (h2_pending_ s)) s).
Proof using Hretry.
  intros [E S] He C. cbn. rewrite E, S, He, C. unfold outcome, last_attempt, finish. rewrite Hretry, orb_true_r.
  destruct (h2_cancelled e); [done|]. cbn. unfold token_cancelled. cbn. by case_match.
Qed.

(** What a resumption leaves. *)
Lemma resume_effect fuel s t k sid e : waits s t k sid -> h2_pending_ s !! sid = Some e -> complete e = true ->
  let s' := exec (S fuel) (Resume t) s in
  tasks s' = <[t := settled k (outcome k (h2_response e) (h2_cancelled e) s)]> (tasks s) /\
  h2_pending_ s' = delete sid (h2_pending_ s) /\ framed s s'.
Proof using Hretry.
  intros W He C s'. unfold s'. erewrite resume_complete by done. destruct W as [E S].
  set (s0 := set_h2_pending _ s). destruct (framed_stage t (Done (outcome k (h2_response e) (h2_cancelled e) s)) s0) as [F P].
  rewrite (tasks_stage _ _ s0 k) by done. split_and!; [done|by rewrite P|]. etransitivity; [|exact F].
  unfold framed, s0. cbn. split_and!; done.
Qed.

(** ** The end of the connection *)

(** Marked entries and the handles that are left to resume. *)
Record marked (m : bytes) (hs : list nat) (s : Client) : Prop := {
  m_nodup : NoDup hs;
  m_wait : forall t, t ∈ hs -> exists k sid e, waits s t k sid /\ h2_pending_ s !! sid = Some e /\
    h2_coroutine e = Some t /\ complete e = true /\ h2_cancelled e = false /\ h2_response e = error_response m;
  m_rest : forall t k, tasks s !! t = Some k -> t ∉ hs -> exists o, stage k = Done o
}.

Definition lost (m : bytes) (s : Client) (k : Task) : Task :=
  match stage k with
  | OnH2 _ => settled k (outcome k (error_response m) false s)
  | _ => k
  end.

Lemma lost_framed m s s' k : framed s s' -> lost m s' k = lost m s k.
Proof.
  intros (_ & _ & _ & _ & _ & E & _). unfold lost, outcome, token_cancelled. by rewrite E.
Qed.

Lemma resume_all fuel m hs s : marked m hs s ->
  let s' := foldl (fun s t => exec (S fuel) (Resume t) s) s hs in
  tasks s' = lost m s <$> tasks s /\ framed s s'.
Proof using Hretry.
  revert s. induction hs as [|h hs IH]; intros s [N W R]; cbn [foldl].
  - split; [|reflexivity]. symmetry. apply map_eq. intros t. rewrite lookup_fmap.
    destruct (tasks s !! t) as [k|] eqn:E; [|done]. destruct (R t k E) as [o Ho]; [apply not_elem_of_nil|].
    cbn. unfold lost. by rewrite Ho.
  - apply NoDup_cons in N as [Nh N]. destruct (W h) as (k & sid & e & Wh & He & Hc & C & X & Hr); [by left|].
    destruct (resume_effect fuel s h k sid e Wh He C) as (T & P & F). set (s1 := exec _ _ _) in *.
    destruct (IH s1) as [T' F'].
    { split; [done|..].
      - intros t Ht. destruct (W t) as (k' & sid' & e' & [E' S'] & He' & Hc' & ?); [by right|].
        assert (t <> h) by (by intros ->). assert (sid' <> sid) by (intros ->; congruence).
        exists k', sid', e'. split; [split; [by rewrite T, lookup_insert_ne by done|done]|].
        by rewrite P, lookup_delete_ne by done.
      - intros t k'. rewrite T. intros [[<- <-]|[Ne E]]%lookup_insert_Some Ht; [eexists; reflexivity|].
        apply (R t k' E). by intros [|]%elem_of_cons. }
    split; [|by transitivity s1]. rewrite T', T. destruct Wh as [E S]. apply map_eq. intros t.
    rewrite !lookup_fmap. destruct (decide (t = h)) as [->|Ne].
    + rewrite lookup_insert_eq, E. cbn. unfold lost at 1. cbn. unfold lost. by rewrite S, Hr, X.
    + rewrite lookup_insert_ne by done. destruct (tasks s !! t); cbn; [|done]. by rewrite (lost_framed _ _ _ _ F).
Qed.

Lemma pending_handles_h2 s : accounted s ->
  Permutation (pending_handles order s) (omap (fun p => h2_coroutine p.2) (map_to_list (h2_pending_ s))).
Proof using Horder.
  intros A. unfold pending_handles. rewrite (a_h3 _ _ A), (a_h1 _ _ A), map_to_list_empty, app_nil_r. cbn [omap list_omap].
  by rewrite !Horder.
Qed.

Lemma pending_handles_waiting s t : accounted s ->
  t ∈ pending_handles order s <-> exists k sid, waits s t k sid.
Proof using Horder.
  intros A. rewrite (pending_handles_h2 s A), list_elem_of_omap. split.
  - intros ([sid e] & Hp & Hc). apply elem_of_map_to_list in Hp. destruct (a_held _ _ A _ _ _ Hp Hc) as [k W]. by eauto.
  - intros (k & sid & E & S). pose proof (a_known _ _ A t k E ltac:(done)) as H. rewrite S in H.
    destruct H as (e & He & Hc & _). exists (sid, e). by rewrite elem_of_map_to_list.
Qed.

Lemma omap_handles_nodup (l : list (Z * H2PendingStream)) :
  NoDup l.*1 -> (forall p q t, p ∈ l -> q ∈ l -> h2_coroutine p.2 = Some t -> h2_coroutine q.2 = Some t -> p.1 = q.1) ->
  NoDup (omap (fun p => h2_coroutine p.2) l).
Proof using.
  induction l as [|p l IH]; intros N H; [constructor|]. cbn in *. apply NoDup_cons in N as [N1 N2].
  destruct (h2_coroutine p.2) as [t|] eqn:Ep; [|apply IH; [done|]; intros; eapply H; eauto; by right].
  apply NoDup_cons. split; [|apply IH; [done|]; intros; eapply H; eauto; by right].
  intros (q & Hq & Eq)%list_elem_of_omap. apply N1. rewrite (H p q t); [by apply list_elem_of_fmap_2|by left|by right|done|done].
Qed.

Lemma pending_handles_nodup s : accounted s -> NoDup (pending_handles order s).
Proof using Horder.
  intros A. rewrite (pending_handles_h2 s A). apply omap_handles_nodup.
  - apply NoDup_fst_map_to_list.
  - intros [sid e] [sid' e'] t Hp Hq Ep Eq. apply elem_of_map_to_list in Hp, Hq. cbn in *.
    destruct (a_held _ _ A _ _ _ Hp Ep) as (k & E & S), (a_held _ _ A _ _ _ Hq Eq) as (k' & E' & S'). congruence.
Qed.

Lemma accounted_marked m s : accounted s -> marked m (pending_handles order s) (mark_pending m s).
Proof using Horder.
  intros A. assert (tasks (mark_pending m s) = tasks s /\ h2_pending_ (mark_pending m s) =
    (fun e => mkH2 (error_response m) (h2_coroutine e) true (h2_cancelled e)) <$> h2_pending_ s) as [T P].
  { unfold mark_pending. by case_match. }
  split.
  - by apply pending_handles_nodup.
  - intros t (k & sid & E & S)%pending_handles_waiting; [|done].
    pose proof (a_known _ _ A t k E ltac:(done)) as H. rewrite S in H. destruct H as (e & He & Hc & _ & X).
    eexists k, sid, _. rewrite P, lookup_fmap, He. unfold waits. rewrite T. split_and!; done.
  - intros t k E Ht. rewrite T in E. pose proof (a_known _ _ A t k E ltac:(done)) as H.
    destruct (stage k) as [| |sid|sid|o] eqn:S; try done; [|by eauto].
    destruct Ht. apply pending_handles_waiting; [done|]. by exists k, sid.
Qed.

(** The end of the connection finishes every call and leaves the client ready
    to connect again. *)
Lemma disconnect_effect fuel s : accounted s ->
  let s' := exec (S (S fuel)) RestClient.Disconnect s in
  accounted s' /\ tasks s' = lost (bs "Connection lost") s <$> tasks s /\ tcp_fd_ s' = false.
Proof using Hretry Horder.
  intros A s'. set (m := bs "Connection lost"). pose proof (accounted_marked m s A) as M.
  assert (framed s (mark_pending m s)) as F0.
  { unfold framed, mark_pending. case_match eqn:H1; cbn in *; [by rewrite (a_h1 _ _ A) in H1|].
    rewrite (a_h3 _ _ A), fmap_empty. by split_and!. }
  assert (tasks (mark_pending m s) = tasks s) as T0 by (unfold mark_pending; by case_match).
  destruct (resume_all fuel m _ _ M) as [T F]. set (s1 := foldl _ _ _) in *.
  assert (s' = schedule_reconnect cfg (close_connection (set_h2_pending ∅ (set_pending ∅ s1)))) as -> by done.
  set (s2 := close_connection _).
  assert (tasks (schedule_reconnect cfg s2) = lost m s <$> tasks s) as T2.
  { transitivity (tasks s1); [unfold schedule_reconnect; by repeat case_match|]. rewrite T, T0.
    apply map_fmap_ext. intros t k _. by apply lost_framed. }
  assert (framed s s1) as (_ & _ & _ & _ & _ & _ & _ & _ & F1 & F2 & F3) by (by transitivity (mark_pending m s)).
  assert (h2_pending_ (schedule_reconnect cfg s2) = ∅ /\ tcp_fd_ (schedule_reconnect cfg s2) = false /\
    pending_ (schedule_reconnect cfg s2) = ∅ /\ pending_tcp_handle_ (schedule_reconnect cfg s2) = pending_tcp_handle_ s1 /\
    broken (schedule_reconnect cfg s2) = broken s1 /\ out_of_fuel (schedule_reconnect cfg s2) = out_of_fuel s1) as K.
  { unfold schedule_reconnect. repeat case_match; split_and!; done. }
  destruct K as (K1 & K2 & K3 & K4 & K5 & K6). split_and!; [|done|done]. split.
  - intros t k'. rewrite T2, lookup_fmap. intros (k & E & ->)%fmap_Some _. unfold lost.
    pose proof (a_known _ _ A t k E ltac:(done)) as H. by destruct (stage k) eqn:S; cbn; rewrite ?S.
  - intros sid e t. by rewrite K1, lookup_empty.
  - intros sid [e He]. by rewrite K1, lookup_empty in He.
  - done.
  - by rewrite K2.
  - by rewrite K2.
  - done.
  - by rewrite K4, F1, (a_h1 _ _ A).
  - by rewrite K5, F2, (a_safe _ _ A).
  - by rewrite K6, F3, (a_fuel _ _ A).
Qed.

(** ** Submission, the end of a stream, cancellation *)

Lemma accounted_up x s : accounted_but x s -> tcp_fd_ s && tcp_connected_ s && tls_handshake_done_ s = false ->
  tcp_fd_ s = true -> accounted_but x (connection_up cfg s).
Proof using Hproto.
  intros [] D F. unfold connection_up. rewrite is_tcp_true, Hproto, bool_decide_true by done. specialize (a_down0 D).
  split; cbn; try done.
  - intros sid [e He]. by rewrite a_down0, lookup_empty in He.
  - intros H. rewrite a_timer0 in F; done.
Qed.

Lemma accounted_request fuel t c n s : tasks s !! t = Some (mkTask c n Running) -> accounted_but (Some t) s ->
  accounted (exec (S fuel) (Request t) s).
Proof using Hproto Hsend.
  intros E A. cbn [RestClient.exec]. rewrite E. destruct (token_cancelled _ _); [by eapply accounted_finish|].
  set (a := env (submissions s)). set (s1 := set_written _ _ s).
  assert (accounted_but (Some t) s1) as A1 by (eapply accounted_alike; [|exact A]; alike).
  assert (is_connected cfg s1 = tcp_fd_ s1 && tcp_connected_ s1 && tls_handshake_done_ s1) as Ec.
  { unfold is_connected. by rewrite is_tcp_true. }
  destruct (negb _ && negb _) eqn:W; [by eapply accounted_finish|].
  set (s2 := if is_connected cfg s1 then s1 else connection_up cfg s1).
  assert (accounted_but (Some t) s2 /\ tcp_fd_ s2 && tcp_connected_ s2 && tls_handshake_done_ s2 = true /\ tasks s2 = tasks s)
    as (A2 & C2 & T2).
  { unfold s2. destruct (is_connected cfg s1) eqn:C; [by rewrite <- Ec|].
    unfold can_wait in W. rewrite is_tcp_true in W. cbn in W. apply negb_false_iff, andb_true_iff in W as [W _].
    split; [by apply accounted_up|]. unfold connection_up. by rewrite is_tcp_true, Hproto, bool_decide_true by done. }
  rewrite Hproto, (a_session _ _ A2 C2). cbn [negb]. rewrite <- T2 in E.
  destruct (negb (stream_ok a)); [by eapply accounted_finish|].
  set (s3 := buffered (send a) (record_written t _ (set_next_stream (next_stream_id s2 + 2) s2))).
  assert (alike s2 s3 /\ next_stream_id s3 = next_stream_id s2 + 2) as [L3 N3].
  { unfold s3. destruct (send a); split; (alike || done). }
  assert (match send a with SendFailed => exec fuel RestClient.Disconnect s3 | _ => s3 end = s3) as ->.
  { destruct (send a) eqn:X; [done|done|]. by destruct (Hsend (submissions s)). }
  pose proof (accounted_alike _ _ _ L3 A2) as A3. destruct L3 as (T3 & P3 & F1 & F2 & F3 & _).
  assert (h2_pending_ s3 !! next_stream_id s2 = None) as P.
  { rewrite P3. destruct (h2_pending_ s2 !! _) eqn:He; [|done]. pose proof (a_streams _ _ A2 (next_stream_id s2)) as H.
    rewrite He in H. specialize (H ltac:(done)). lia. }
  rewrite P. cbn [default]. eapply accounted_suspend; [by rewrite T3|done|done|lia|congruence].
Qed.

(** An entry is over: its call is resumed and ends. *)
Lemma settle_effect fuel sid e x s : accounted s -> h2_pending_ s !! sid = Some e ->
  let s0 := set_h2_pending (<[sid := mkH2 (h2_response e) (h2_coroutine e) true x]> (h2_pending_ s)) s in
  let s' := resume_opt cfg env order (S fuel) (h2_coroutine e) s0 in
  accounted s' /\
  (forall t k, tasks s !! t = Some k -> stage k = OnH2 sid -> tasks s' = <[t := settled k (outcome k (h2_response e) x s)]> (tasks s)).
Proof using Hretry.
  intros A He s0 s'. pose proof A as [].
  assert (tcp_fd_ s && tcp_connected_ s && tls_handshake_done_ s = true) as C.
  { destruct (tcp_fd_ s && _ && _); [done|]. by rewrite a_down0, lookup_empty in He. }
  destruct (h2_coroutine e) as [t|] eqn:Hc; unfold s', s0; cbn [resume_opt].
  - destruct (a_held0 _ _ _ He Hc) as (k & E & S).
    destruct (resume_effect fuel (set_h2_pending (<[sid := mkH2 (h2_response e) (Some t) true x]> (h2_pending_ s)) s)
      t k sid (mkH2 (h2_response e) (Some t) true x)) as (T & P & F); [done|by cbn; rewrite lookup_insert_eq|done|].
    set (s1 := exec _ _ _) in *. clearbody s1. cbn in T, P. rewrite delete_insert_eq in P.
    assert (forall t' k', tasks s !! t' = Some k' -> stage k' = OnH2 sid -> t' = t /\ k' = k) as U.
    { intros t' k' E' S'. specialize (a_known0 t' k' E' ltac:(done)). rewrite S' in a_known0.
      destruct a_known0 as (e' & He' & Hc' & _). assert (t' = t) as -> by congruence. split; congruence. }
    split; [|intros t' k' E' S'; by destruct (U t' k' E' S') as [-> ->]].
    unfold framed in F. cbn in F. destruct F as (F1 & F2 & F3 & F4 & F5 & F6 & F7 & F8 & F9 & F10 & F11).
    split; unfold known, held, waits; rewrite ?T, ?P, ?F1, ?F2, ?F3, ?F4, ?F5, ?F7, ?F8, ?F9, ?F10, ?F11; try done.
    + intros t' k'. intros [[<- <-]|[Ne E']]%lookup_insert_Some _; [done|]. specialize (a_known0 t' k' E' ltac:(done)).
      destruct (stage k') as [| |sid'|sid'|o] eqn:S'; try done. destruct a_known0 as (e' & He' & H).
      exists e'. rewrite lookup_delete_ne; [done|]. intros <-. by destruct (U t' k' E' S').
    + intros sid' e' t' [Ne He']%lookup_delete_Some Hc'. destruct (a_held0 _ _ _ He' Hc') as (k' & E' & S').
      exists k'. split; [|done]. rewrite lookup_insert_ne; [done|]. intros <-. congruence.
    + intros sid' [e' [_ He']%lookup_delete_Some]. by apply a_streams0.
    + intros D. congruence.
  - assert (forall t k, tasks s !! t = Some k -> stage k = OnH2 sid -> False) as U.
    { intros t' k' E' S'. specialize (a_known0 t' k' E' ltac:(done)). rewrite S' in a_known0.
      destruct a_known0 as (e' & He' & Hc' & _). congruence. }
    split; [|intros t k E S; by destruct (U t k E S)]. split; cbn; try done.
    + intros t k E X. specialize (a_known0 t k E X). destruct (stage k) as [| |sid'|sid'|o] eqn:S; try done. cbn.
      rewrite lookup_insert_ne; [done|]. intros <-. by destruct (U t k E S).
    + intros sid' e' t. cbn. intros [[<- <-]|[Ne He']]%lookup_insert_Some Ht; [done|]. by apply (a_held0 _ _ _ He').
    + intros sid' [e' [[<- _]|[_ He']]%lookup_insert_Some]; apply a_streams0; eauto.
    + congruence.
Qed.

(** ** Runs *)

(** What nghttp2 and the loop call: a new call has a new name; headers arrive
    on a connection, for a stream that was opened, with a numeric status; the
    reset of a cancelled stream can be written; the other protocols are silent. *)
Definition well_behaved (ev : Event) (s : Client) : Prop :=
  match ev with
  | Call_ t _ _ => tasks s !! t = None
  | H2Header sid name value => is_connected cfg s = true /\ sid < next_stream_id s /\
      (name = bs ":status" -> exists code, stoi value = inr code)
  | PostedCancelH2 _ x => x <> SendFailed
  | H3Response _ _ | Http1Data _ | PostedCancelH1 | PostedCancelH3 _ => False
  | _ => True
  end.

Inductive served (fuel : nat) : Client -> Prop :=
| served_created : served fuel (created cfg)
| served_step ev s : served fuel s -> well_behaved ev s -> served fuel (handle cfg env order fuel ev s).

Lemma created_accounted : accounted (created cfg).
Proof using Hproto.
  unfold created. rewrite is_tcp_true. split; try done.
  - intros sid [e He]. cbn in He. by rewrite lookup_empty in He.
  - by intros [? ?].
Qed.

Lemma on_disconnect_accounted fuel s : accounted s -> accounted (on_disconnect cfg env order (S (S fuel)) s).
Proof using Hretry Horder. intros A. by apply disconnect_effect. Qed.

Lemma reconnect_accounted fuel ok s : accounted s ->
  accounted (on_reconnect_timer cfg env order (S (S fuel)) ok s).
Proof using Hproto Hretry Horder.
  intros A. unfold on_reconnect_timer. destruct (reconnect_timer_ s) eqn:T; [|done].
  assert (tcp_fd_ s = false) as F by (apply (a_timer _ _ A); by rewrite T).
  assert (h2_pending_ s = ∅) as P by (apply (a_down _ _ A); by rewrite F).
  unfold do_reconnect. rewrite is_tcp_true. set (s1 := set_generation _ _).
  assert (accounted s1) as A1; [|destruct ok; [done|by apply on_disconnect_accounted]].
  destruct A. split; unfold s1; cbn; try done; by rewrite ?andb_false_r.
Qed.

Lemma timeout_accounted fuel t s : accounted s -> accounted (on_timeout cfg env order (S (S fuel)) t s).
Proof using Hretry Horder.
  intros A. unfold on_timeout. destruct (disconnect_effect fuel s A) as (A' & _ & F).
  unfold on_disconnect. set (s' := exec _ _ _) in *. clearbody s'.
  assert (h2_pending_ s' = ∅) as P by (apply (a_down _ _ A'); by rewrite F).
  assert (accounted (set_tasks (delete t (tasks s')) s')) as D.
  { destruct A'. split; cbn; try done.
    - intros t' k. cbn. intros [_ E]%lookup_delete_Some. by apply (a_known0 t' k).
    - intros sid e t'. cbn. by rewrite P, lookup_empty. }
  destruct (tasks s' !! t) as [[c n g]|] eqn:E; [|done]. destruct g; try done.
  destruct A'. unfold finish, set_stage. rewrite E. split; cbn; try done.
  - intros t' k. cbn. intros [[<- <-]|[Ne E']]%lookup_insert_Some; [done|]. by apply (a_known0 t' k).
  - intros sid e t'. cbn. by rewrite P, lookup_empty.
Qed.

Lemma header_accounted sid name value s : accounted s -> is_connected cfg s = true -> sid < next_stream_id s ->
  (name = bs ":status" -> exists code, stoi value = inr code) -> accounted (h2_on_header_cb sid name value s).
Proof using Hproto.
  intros A C L V. unfold is_connected in C. rewrite is_tcp_true in C. unfold h2_on_header_cb.
  case_bool_decide as N; [destruct (V N) as [code ->]|]; by apply accounted_entry.
Qed.

Lemma data_accounted sid data s : accounted s -> accounted (h2_on_data_chunk_recv_cb sid data s).
Proof using.
  intros A. unfold h2_on_data_chunk_recv_cb. destruct (h2_pending_ s !! sid) as [e|] eqn:He; [|done].
  apply accounted_entry; rewrite ?He; try done.
  - destruct (tcp_fd_ s && _ && _) eqn:D; [done|]. by rewrite (a_down _ _ A D), lookup_empty in He.
  - apply (a_streams _ _ A). by rewrite He.
Qed.

Lemma close_effect fuel sid s : accounted s ->
  let s' := h2_on_stream_close_cb cfg env order (S fuel) sid s in
  accounted s' /\
  forall t k e, waits s t k sid -> h2_pending_ s !! sid = Some e ->
    tasks s' = <[t := settled k (outcome k (h2_response e) false s)]> (tasks s).
Proof using Hretry.
  intros A. unfold h2_on_stream_close_cb. destruct (h2_pending_ s !! sid) as [e|] eqn:He; [|done].
  destruct (settle_effect fuel sid e (h2_cancelled e) s A He) as [A' T]. split; [done|].
  intros t k e' [E S] [= <-]. rewrite (T t k E S).
  pose proof (a_known _ _ A t k E ltac:(done)) as H. rewrite S in H. destruct H as (e' & He' & _ & _ & X).
  assert (e' = e) as -> by congruence. by rewrite X.
Qed.

Lemma cancel_effect fuel sid x s : accounted s -> x <> SendFailed ->
  let s' := cancel_h2_stream cfg env order (S fuel) sid x s in
  accounted s' /\ forall t k, waits s t k sid -> tasks s' = <[t := settled k RequestCancelled]> (tasks s).
Proof using Hretry.
  intros A Hx. unfold cancel_h2_stream. destruct (h2_pending_ s !! sid) as [e|] eqn:He.
  2:{ split; [done|]. intros t k [E S]. pose proof (a_known _ _ A t k E ltac:(done)) as H. rewrite S in H.
      destruct H as (e & He' & _). congruence. }
  destruct (complete e) eqn:Hd.
  { split; [done|]. intros t k [E S]. pose proof (a_known _ _ A t k E ltac:(done)) as H. rewrite S in H.
    destruct H as (e' & He' & _ & ? & _). congruence. }
  assert (accounted (buffered x s)) as A' by (eapply accounted_alike; [|exact A]; destruct x; alike).
  destruct (settle_effect fuel sid e true (buffered x s) A') as [A1 T]; [by destruct x|].
  destruct x; [..|done]; (split; [exact A1|intros t k [E S]; by apply (T t k)]).
Qed.

Lemma handle_accounted fuel ev s : accounted s -> well_behaved ev s ->
  accounted (handle cfg env order (S (S fuel)) ev s).
Proof using Hproto Hretry Hsend Horder.
  intros A W. destruct ev; cbn [handle] in *; try done.
  - unfold async_request_with_retry. eapply accounted_request; [by cbn; rewrite lookup_insert_eq|]. by apply accounted_start.
  - destruct W as (? & ? & ?). by apply header_accounted.
  - by apply data_accounted.
  - by apply close_effect.
  - eapply accounted_alike; [|exact A]. alike.
  - by apply cancel_effect.
  - apply on_disconnect_accounted. eapply accounted_alike; [|exact A]. alike.
  - by apply timeout_accounted.
  - by apply reconnect_accounted.
  - unfold on_handshake, is_connected. rewrite is_tcp_true.
    destruct (tcp_fd_ s && _ && _) eqn:C; [done|]. destruct (tcp_fd_ s) eqn:F; [|done].
    apply accounted_up; [done|by rewrite F|done].
Qed.

(** [C14] A client over HTTP/2 without a retry policy, whose writes to the socket do
    not fail, and whose peer sends headers only on streams that were opened and with
    a numeric status: in whatever order responses, stream ends, timers, disconnects,
    cancellations and new calls come, no call is lost and none is resumed twice.  At any time each call is finished or waits
    for a stream whose open entry names it.  The end of that stream finishes it
    with the response received so far, its cancellation as cancelled, and
    neither touches another call; the end of the connection finishes every
    waiting call with the error of a lost connection, or as cancelled when its
    token is. *)
Theorem calls_accounted fuel s (H : served (S (S fuel)) s) :
  broken s = false /\ out_of_fuel s = false /\
  (forall t k, tasks s !! t = Some k -> (exists o, stage k = Done o) \/
     exists sid e, stage k = OnH2 sid /\ h2_pending_ s !! sid = Some e /\ h2_coroutine e = Some t /\
       tasks (handle cfg env order (S (S fuel)) (H2Close sid) s) =
         <[t := settled k (outcome k (h2_response e) false s)]> (tasks s) /\
       forall x, x <> SendFailed -> tasks (handle cfg env order (S (S fuel)) (PostedCancelH2 sid x) s) =
         <[t := settled k RequestCancelled]> (tasks s)) /\
  tasks (handle cfg env order (S (S fuel)) Hangup s) = lost (bs "Connection lost") s <$> tasks s.
Proof using Hproto Hretry Hsend Horder.
  assert (accounted s) as A by (induction H; [apply created_accounted|by apply handle_accounted]).
  split_and!; [apply A|apply A|..].
  - intros t k E. pose proof (a_known _ _ A t k E ltac:(done)) as K. destruct (stage k) as [| |sid|sid|o] eqn:S; try done; [|by eauto].
    right. destruct K as (e & He & Hc & _). exists sid, e. split_and!; [done..| |].
    + by apply close_effect.
    + intros x Hx. by apply cancel_effect.
  - assert (accounted (set_conn false s)) as A' by (eapply accounted_alike; [|exact A]; alike).
    destruct (disconnect_effect fuel _ A') as (_ & T & _). exact T.
Qed.

End Http2.
End CallProps.

(** * Witnesses, and runs in which requests go wrong *)

From S2P Require Import RestClientProps.
Import RestClient.

Module ClientCases.
Import ClientHttp1.

(** ** Concrete clients *)

Definition policy (p : Protocol) (reconnects attempts : Z) (retry : bool) : Config :=
  mkConfig (bs "h") p reconnects false attempts (if retry then Some (fun _ _ _ => true) else None).

Definition willing : nat -> Answers := fun _ => mkAnswers true true true Flushed.

(** The [n]-th request is answered by [a]. *)
Definition answering (n : nat) (a : Answers) : nat -> Answers := fun m => if decide (m = n) then a else willing m.

Definition get (token : option nat) : Call := mkCall (bs "GET") (bs "/") [] [] token None.
Definition upload : Call := mkCall (bs "POST") (bs "/") [] [] None (Some [bs "data"]).
Definition ask (t : nat) (c : Call) : Event := Call_ t c (Context.mkTrace [] [] [] [] []).

Definition run (cfg : Config) (env : nat -> Answers) (es : list Event) : Client :=
  handle_all cfg env id 9 es (created cfg).

Definition stage_of (t : nat) (s : Client) : option Stage := stage <$> tasks s !! t.

(** ** Witnesses *)

Lemma retries_bounded_witness :
  let cfg := policy HTTP2 5 2 true in
  let s := handle cfg willing id 9 (H2Close 1) (handle cfg willing id 9 (ask 0 (get None)) (created cfg)) in
  len (RetryProps.writes 0 s) = 2 /\ len (RetryProps.writes 0 s) <= 2.
Proof.
  intros cfg s. split; [vm_compute; reflexivity|].
  apply (RetryProps.retries_bounded cfg willing id 9 s).
  apply RetryProps.reach_step; [|done]. apply RetryProps.reach_step; [apply RetryProps.reach_created|].
  split; [reflexivity|]. cbn. set_solver.
Defined.

Lemma calls_accounted_witness :
  let cfg := policy HTTP2 5 1 false in
  let s := handle cfg willing id 2 (H2Header 1 (bs ":status") (bs "200"))
             (handle cfg willing id 2 (ask 0 (get None)) (created cfg)) in
  stage_of 0 s = Some (OnH2 1) /\
  tasks (handle cfg willing id 2 Hangup s) = CallProps.lost (bs "Connection lost") s <$> tasks s.
Proof.
  intros cfg s. split; [vm_compute; reflexivity|].
  apply (CallProps.calls_accounted cfg willing id eq_refl eq_refl (fun n => ltac:(discriminate)) (fun l => Permutation_refl l) 0 s).
  apply CallProps.served_step; [apply CallProps.served_step; [apply CallProps.served_created|reflexivity]|].
  split_and!; [reflexivity|vm_compute; reflexivity|intros _; exists 200; reflexivity].
Defined.

(** ** Runs *)

(** Over TCP the count of attempts is never reset by a success: a client that
    may reconnect once and has done so does not reconnect again, and every
    later call fails. *)
Lemma tcp_attempts_never_reset :
  let cfg := policy HTTP2 1 1 false in
  let s := run cfg willing [Handshake; Hangup; Timer true; Handshake; ask 0 (get None); H2Close 1; Hangup; ask 1 (get None)] in
  stage_of 0 s = Some (Done (Returned no_response)) /\
  stage_of 1 s = Some (Done (ClientError (bs "RestClient: failed to connect"))) /\
  reconnect_timer_ s = None /\ reconnect_pending_ s = true.
Proof. vm_compute. done. Qed.

(** Over HTTP/2 a call retried because the connection was lost is submitted on
    the connection that is being closed, and its entry is then cleared: no
    event resumes it, the next end of the connection included. *)
Lemma retry_on_disconnect_lost :
  let s := run (policy HTTP2 5 2 true) willing [Handshake; ask 0 (get None); Hangup; Timer true; Handshake; Hangup] in
  stage_of 0 s = Some (OnH2 3) /\ h2_pending_ s = ∅ /\ len (written s) = 2.
Proof. vm_compute. done. Qed.

(** A write that fails while the request is submitted closes the connection
    before the call is entered in the table: the call waits for a stream of a
    connection that is gone, and takes the answer to the next one's. *)
Lemma send_failure_strands_request :
  let env := answering 0 (mkAnswers true true true SendFailed) in
  let s := run (policy HTTP2 5 1 false) env [Handshake; ask 0 (get None)] in
  stage_of 0 s = Some (OnH2 1) /\ tcp_fd_ s = false /\ is_Some (h2_pending_ s !! 1) /\
  let s' := run (policy HTTP2 5 1 false) env
              [Handshake; ask 0 (get None); Timer true; Handshake; ask 1 (get None); H2Close 1] in
  stage_of 0 s' = Some (OnH2 1) /\ stage_of 1 s' = Some (Done (Returned no_response)) /\ h2_pending_ s' = ∅.
Proof. vm_compute. split_and!; try done. by eexists. Qed.

(** Over HTTP/1.1 there is one place for a waiting call: a second call takes it,
    gets the answer to the first one, and the first is never resumed. *)
Lemma second_http1_request_overwrites :
  let s := run (policy HTTP1_1 5 1 false) willing [Handshake; ask 0 (get None); ask 1 (get None);
    Http1Data (bs "HTTP/1.1 200 OK" ++ Http1.CRLF ++ bs "Content-Length: 5" ++ Http1.CRLF ++ Http1.CRLF ++ bs "first"); Hangup] in
  stage_of 0 s = Some OnTcp /\ pending_tcp_handle_ s = None /\
  exists hs, stage_of 1 s = Some (Done (Returned (mkClientResponse 200 hs (bs "first")))).
Proof. vm_compute. split_and!; try done. by eexists. Qed.

(** Over HTTP/3 a request that times out leaves the connection in use; the
    calls made before the reconnection it planned lose their connection without
    an answer: no one resumes them, and the next call with their stream takes
    their entry. *)
Lemma h3_requests_lost_on_reconnect :
  let es := [Handshake; ask 0 (get None); Timeout 0; ask 1 (get None); Timer true; Handshake] in
  let s := run (policy HTTP3 5 1 false) willing es in
  stage_of 1 s = Some (OnH3 4) /\ conn_ready s = true /\
  let s' := run (policy HTTP3 5 1 false) willing (es ++ [ask 2 (get None); ask 3 (get None); H3Response 4 no_response; Hangup]) in
  stage_of 1 s' = Some (OnH3 4) /\ stage_of 3 s' = Some (Done (Returned no_response)) /\ pending_ s' = ∅.
Proof. vm_compute. done. Qed.

(** The reset of a cancelled stream that cannot be written ends the connection,
    which erases the entry the cancellation goes on to read. *)
Lemma cancel_after_failed_write_undefined :
  broken (run (policy HTTP2 5 1 false) willing [Handshake; ask 0 (get (Some 0%nat)); Cancel 0; PostedCancelH2 1 SendFailed]) = true.
Proof. vm_compute. done. Qed.

(** What was left in the write buffer of a lost connection is written to the
    next one, before its handshake. *)
Lemma stale_write_buffer :
  let env := answering 0 (mkAnswers true true true Blocked) in
  let s := run (policy HTTP1_1 5 1 false) env [Handshake; ask 0 (get None); Hangup; Timer true] in
  generation s = 1 /\ tcp_write_buf_ s = [0] /\ tcp_fd_ s = true.
Proof. vm_compute. done. Qed.

(** The retry of a streamed upload is sent without a body. *)
Lemma stream_retry_drops_body :
  let s := run (policy HTTP2 5 2 true) willing [Handshake; ask 0 upload; H2Close 1] in
  map (fun w => (w_attempt w, w_stream w)) (written s) = [(1, Some [bs "data"]); (2, None)].
Proof. vm_compute. done. Qed.

(** A cancellation that was posted while an HTTP/1.1 call waited runs after the
    call got its answer, ends the connection, and with it the call of another
    caller. *)
Lemma http1_cancel_hits_other_call :
  let s := run (policy HTTP1_1 5 1 false) willing [Handshake; ask 0 (get (Some 0%nat)); Cancel 0;
    Http1Data (bs "HTTP/1.1 200 OK" ++ Http1.CRLF ++ bs "Content-Length: 0" ++ Http1.CRLF ++ Http1.CRLF); ask 1 (get None); PostedCancelH1] in
  stage_of 1 s = Some (Done (Returned (error_response (bs "Connection lost")))).
Proof. vm_compute. done. Qed.

End ClientCases.
