(* ===== verification/Http2.v ===== *)
(** * The HTTP/2 session

    [http2/http2_session.*].  nghttp2 keeps the protocol state and calls the
    session back; the calls it makes are the events of a run, what the session
    submits to it is recorded in order, and whether it takes a submission is a
    parameter.  A stream is an element of [streams_]; references to it are its
    identifier.  The back-pressure object that a stream shares with the session
    of its WebSocket is kept in that session. *)

From S2P Require Import Prelude CxxString HttpMessage WebSocket WsHandshake Sse Http1.

Module Http2.
Import Http1.

(** [WebSocketConnectResult] *)
Record WebSocketConnectResult := mkConnect {
  matched : bool;
  accepted : bool;
  rejection_status : Z;
  rejection_body : bytes;
  handler : option Handler;
  principal : bytes;
  subprotocol : bytes
}.

Definition no_connect : WebSocketConnectResult := mkConnect false false 403 (bs "Forbidden") None [] [].
Definition accept (h : Handler) (principal subprotocol : bytes) : WebSocketConnectResult :=
  mkConnect true true 200 [] (Some h) principal subprotocol.
Definition reject (status : Z) (body : bytes) : WebSocketConnectResult :=
  mkConnect true false status body None [] [].

Record Http2Stream := mkStream {
  request : Request.t;
  response : Response.t;
  request_complete : bool;
  extended_websocket_connect : bool;
  websocket_active : bool;
  websocket : option Connection;
  websocket_outbound : list bytes;
  websocket_outbound_offset : nat;
  websocket_data_submission_active : bool;
  sse_channel : option Z;
  sse_current : bytes;
  sse_current_offset : nat
}.

Definition new_stream (peer : bytes) : Http2Stream :=
  mkStream (Request.set_peer_address peer Request.init) Response.init false false false None [] 0 false None [] 0.

(** Field updates. *)
Definition with_request (r : Request.t) (s : Http2Stream) : Http2Stream :=
  mkStream r (response s) (request_complete s) (extended_websocket_connect s) (websocket_active s) (websocket s)
    (websocket_outbound s) (websocket_outbound_offset s) (websocket_data_submission_active s)
    (sse_channel s) (sse_current s) (sse_current_offset s).
Definition with_response (r : Response.t) (s : Http2Stream) : Http2Stream :=
  mkStream (request s) r (request_complete s) (extended_websocket_connect s) (websocket_active s) (websocket s)
    (websocket_outbound s) (websocket_outbound_offset s) (websocket_data_submission_active s)
    (sse_channel s) (sse_current s) (sse_current_offset s).
Definition with_complete (s : Http2Stream) : Http2Stream :=
  mkStream (request s) (response s) true (extended_websocket_connect s) (websocket_active s) (websocket s)
    (websocket_outbound s) (websocket_outbound_offset s) (websocket_data_submission_active s)
    (sse_channel s) (sse_current s) (sse_current_offset s).
Definition with_extended (s : Http2Stream) : Http2Stream :=
  mkStream (request s) (response s) (request_complete s) true (websocket_active s) (websocket s)
    (websocket_outbound s) (websocket_outbound_offset s) (websocket_data_submission_active s)
    (sse_channel s) (sse_current s) (sse_current_offset s).
Definition with_websocket (active : bool) (c : option Connection) (s : Http2Stream) : Http2Stream :=
  mkStream (request s) (response s) (request_complete s) (extended_websocket_connect s) active c
    (websocket_outbound s) (websocket_outbound_offset s) (websocket_data_submission_active s)
    (sse_channel s) (sse_current s) (sse_current_offset s).
Definition with_outbound (q : list bytes) (offset : nat) (active : bool) (s : Http2Stream) : Http2Stream :=
  mkStream (request s) (response s) (request_complete s) (extended_websocket_connect s) (websocket_active s)
    (websocket s) q offset active (sse_channel s) (sse_current s) (sse_current_offset s).
Definition with_sse (c : option Z) (current : bytes) (offset : nat) (s : Http2Stream) : Http2Stream :=
  mkStream (request s) (response s) (request_complete s) (extended_websocket_connect s) (websocket_active s)
    (websocket s) (websocket_outbound s) (websocket_outbound_offset s) (websocket_data_submission_active s)
    c current offset.

Inductive FrameType := HEADERS | DATA | OTHER.

#[export] Instance frame_type_eq_dec : EqDecision FrameType.
Proof. solve_decision. Defined.

(** What is submitted to nghttp2. *)
Inductive Submission :=
| SubmitResponse (sid : Z) (fields : list (bytes * bytes))
| SubmitHeaders (sid : Z) (fields : list (bytes * bytes))
| SubmitData (sid : Z)
| ResumeData (sid : Z).

(** The header block of a response. *)
Definition quote : byte := byte_of_Z 34.
Definition alt_svc : bytes := bs "h3=" ++ [quote] ++ bs ":4433" ++ [quote] ++ bs "; ma=86400".

Definition response_fields (sse : bool) (r : Response.t) : list (bytes * bytes) :=
  (bs ":status", to_dec (Response.status_code_ r)) :: (bs "alt-svc", alt_svc) ::
  map (fun e => (HeaderMap.name e, HeaderMap.value e))
    (List.filter (fun e => negb (bool_decide (lower (HeaderMap.name e) = bs "alt-svc"))) (Response.headers_ r)) ++
  (if negb sse && negb (HeaderMap.has (bs "content-length") (Response.headers_ r))
   then [(bs "content-length", to_dec (Response.body_size r))] else []).

Section WithCallbacks.
Context {A : Type}.
Abbreviation World := (World (A:=A)).

(** The application; a request and a response are passed by reference. *)
Context (handler_ : Request.t -> Response.t -> World -> Request.t * Response.t * World).
Context (websocket_handler_ : option (Request.t -> World -> Request.t * WebSocketConnectResult * World)).
(** A wake-up is installed. *)
Context (websocket_wakeup_ : bool).
(** nghttp2's answer to a submission, given the earlier ones. *)
Context (takes : list (Submission * bool) -> Submission -> bool).
(** The order in which a hash table is iterated. *)
Context (order : list Z -> list Z).

Record St := mkSt {
  streams_ : gmap Z Http2Stream;
  peer_address_ : bytes;
  world : World;
  (** The process-wide counter of WebSocket sessions. *)
  next_session_id : Z;
  submissions : list (Submission * bool);
  (** For the record: every call of [handler_]. *)
  handled : list (Z * Request.t)
}.

Definition new_session (peer : bytes) (w : World) : St := mkSt ∅ peer w 1 [] [].

Definition put (sid : Z) (s : Http2Stream) (st : St) : St :=
  mkSt (<[sid := s]> (streams_ st)) (peer_address_ st) (world st) (next_session_id st) (submissions st) (handled st).
Definition set_world (w : World) (st : St) : St :=
  mkSt (streams_ st) (peer_address_ st) w (next_session_id st) (submissions st) (handled st).
Definition erase (sid : Z) (st : St) : St :=
  mkSt (delete sid (streams_ st)) (peer_address_ st) (world st) (next_session_id st) (submissions st) (handled st).
Definition next_id (st : St) : St :=
  mkSt (streams_ st) (peer_address_ st) (world st) (next_session_id st + 1) (submissions st) (handled st).
Definition call_handler (sid : Z) (r : Request.t) (st : St) : St :=
  mkSt (streams_ st) (peer_address_ st) (world st) (next_session_id st) (submissions st) (handled st ++ [(sid, r)]).
Definition submit (x : Submission) (st : St) : bool * St :=
  let ok := takes (submissions st) x in
  (ok, mkSt (streams_ st) (peer_address_ st) (world st) (next_session_id st) (submissions st ++ [(x, ok)]) (handled st)).

(** ** Responses *)

Definition handle_stream_request (sid : Z) (st : St) : St :=
  match streams_ st !! sid with
  | None => st
  | Some s =>
      let '(req, res, w) := handler_ (request s) (response s) (world st) in
      let st := set_world w (call_handler sid (request s) st) in
      let s := with_response res (with_request req s) in
      let '(s, st) :=
        match Response.sse_channel_ res with
        | Some c => (with_sse (Some c) (sse_current s) (sse_current_offset s) s,
                     set_world (with_channel (Some c) (Sse.set_wakeup websocket_wakeup_) w) st)
        | None => (s, st)
        end in
      let sse := match sse_channel s with Some _ => true | None => false end in
      snd (submit (SubmitResponse sid (response_fields sse res)) (put sid s st))
  end.

(** ** WebSocket data *)

Definition submit_websocket_data (sid : Z) (st : St) : St :=
  match streams_ st !! sid with
  | None => st
  | Some s =>
      if websocket_data_submission_active s || bool_decide (websocket_outbound s = []) then st
      else
        let '(ok, st) := submit (SubmitData sid) st in
        if ok then put sid (with_outbound (websocket_outbound s) (websocket_outbound_offset s) true s) st else st
  end.

Definition queue_websocket_outbound (sid : Z) (data : bytes) (st : St) : St :=
  match streams_ st !! sid with
  | None => st
  | Some s =>
      if (len data =? 0) || negb (websocket_active s) then st
      else submit_websocket_data sid
             (put sid (with_outbound (websocket_outbound s ++ [data]) (websocket_outbound_offset s)
                         (websocket_data_submission_active s) s) st)
  end.

(** Reject: the status and body are set, then the request is handled. *)
Definition reject_stream (sid status : Z) (body : bytes) (s : Http2Stream) (st : St) : St :=
  handle_stream_request sid (put sid (with_response (Response.body body (Response.status status (response s))) s) st).

Definition handle_websocket_connect (sid : Z) (st : St) : St :=
  match streams_ st !! sid with
  | None => st
  | Some s =>
      if negb (bool_decide (Request.method_ (request s) = bs "CONNECT"))
      then reject_stream sid 400 (bs "WebSocket extended CONNECT requires CONNECT") s st
      else
        let '(req, result, w) :=
          match websocket_handler_ with
          | Some f => f (request s) (world st)
          | None => (request s, no_connect, world st)
          end in
        let s := with_request req s in
        let st := put sid s (set_world w st) in
        if negb (matched result) then reject_stream sid 404 (bs "WebSocket endpoint not found") s st
        else
          match accepted result, handler result with
          | true, Some h =>
              let bp := mkBackpressure (max_pending_send_bytes (h_limits h)) 0 in
              let c := new_connection (next_session_id st) h (principal result) websocket_wakeup_ (Some bp) in
              let st := put sid (with_websocket true (Some c) s) (next_id st) in
              let fields := (bs ":status", bs "200") ::
                if bool_decide (subprotocol result = []) then []
                else [(bs "sec-websocket-protocol", subprotocol result)] in
              let '(ok, st) := submit (SubmitHeaders sid fields) st in
              if ok then
                let '(out, c) := connection_take_outbound c in
                queue_websocket_outbound sid out (put sid (with_websocket true (Some c) s) st)
              else put sid (with_websocket false None s) st
          | _, _ => reject_stream sid (rejection_status result) (rejection_body result) s st
          end
  end.

(** ** Callbacks *)

Definition on_begin_headers_cb (sid : Z) (is_request : bool) (st : St) : St :=
  if is_request then put sid (new_stream (peer_address_ st)) st else st.

(** One field of a request. *)
Definition request_field (name value : bytes) (s : Http2Stream) : Http2Stream :=
  let r := request s in
  if starts_with (bs ":") name then
    if bool_decide (name = bs ":method") then with_request (Request.set_method value r) s
    else if bool_decide (name = bs ":path") then with_request (Request.set_path value r) s
    else if bool_decide (name = bs ":scheme") then with_request (Request.set_scheme value r) s
    else if bool_decide (name = bs ":authority") then with_request (Request.set_authority value r) s
    else if bool_decide (name = bs ":protocol") && bool_decide (value = bs "websocket") then with_extended s
    else s
  else with_request (Request.set_headers (HeaderMap.add name value (Request.headers_ r)) r) s.

Definition on_header_cb (sid : Z) (is_request : bool) (name value : bytes) (st : St) : St :=
  match is_request, streams_ st !! sid with
  | true, Some s => put sid (request_field name value s) st
  | _, _ => st
  end.

Definition on_data_chunk_recv_cb (sid : Z) (data : bytes) (st : St) : St :=
  match streams_ st !! sid with
  | None => st
  | Some s =>
      match websocket_active s, websocket s with
      | true, Some c =>
          let '(_, c) := feed data c in
          let '(out, c) := connection_take_outbound c in
          queue_websocket_outbound sid out (put sid (with_websocket true (Some c) s) st)
      | _, _ => put sid (with_request (Request.append_body data (request s)) s) st
      end
  end.

Definition end_of_request (s : Http2Stream) : Http2Stream :=
  with_complete (with_request (Request.mark_body_complete (Request.mark_headers_complete (request s))) s).

Definition on_frame_recv_cb (sid : Z) (type : FrameType) (end_headers end_stream : bool) (st : St) : St :=
  match streams_ st !! sid with
  | None => st
  | Some s =>
      if bool_decide (type = HEADERS) && end_headers && extended_websocket_connect s then
        if end_stream
        then reject_stream sid 400 (bs "WebSocket CONNECT stream must remain open") s st
        else handle_websocket_connect sid st
      else if negb (bool_decide (type = OTHER)) && end_stream then
        if websocket_active s then st
        else handle_stream_request sid (put sid (end_of_request s) st)
      else st
  end.

Definition on_stream_close_cb (sid : Z) (st : St) : St :=
  match streams_ st !! sid with
  | None => st
  | Some s =>
      erase sid (set_world (with_channel (sse_channel s) (fun c => Sse.close (Sse.set_wakeup false c)) (world st)) st)
  end.

(** One stream of [drain_outbound]. *)
Definition drain_stream (sid : Z) (st : St) : St :=
  match streams_ st !! sid with
  | None => st
  | Some s =>
      let st :=
        match websocket_active s, websocket s with
        | true, Some c =>
            let '(out, c) := drain_external_outbound c in
            queue_websocket_outbound sid out (put sid (with_websocket true (Some c) s) st)
        | _, _ => st
        end in
      match sse_channel s with
      | Some _ => snd (submit (ResumeData sid) st)
      | None => st
      end
  end.

Definition drain_outbound (st : St) : St :=
  foldl (fun st sid => drain_stream sid st) st (order (map fst (map_to_list (streams_ st)))).

(** [~Http2Session] *)
Definition destroy_session (st : St) : World :=
  foldl (fun w p => with_channel (sse_channel (snd p)) (fun c => Sse.close (Sse.set_wakeup false c)) w)
    (world st) (map_to_list (streams_ st)).

(** ** Data sources *)

(** What a source answers; out of bounds, the size left wraps around. *)
Inductive ReadResult :=
| Deferred
| Read (data : bytes) (eof no_end_stream : bool)
| OutOfBounds.

(** The [while] loop over the events of a channel. *)
Fixpoint next_event (fuel : nat) (current : bytes) (offset : nat) (c : Sse.Channel) :
    option (bytes * nat) * Sse.Channel :=
  if (length current <=? offset)%nat then
    match fuel with
    | O => (None, c)
    | S fuel' =>
        match Sse.take_next c with
        | (None, c') => (None, c')
        | (Some ev, c') => next_event fuel' ev 0 c'
        end
    end
  else (Some (current, offset), c).

(** [h2_data_source_read_callback] *)
Definition h2_data_source_read_callback (sid : Z) (length_ : nat) (st : St) : ReadResult * St :=
  match streams_ st !! sid with
  | None => (Read [] true false, st)
  | Some s =>
      match sse_channel s with
      | Some i =>
          match channels (world st) !! i with
          | None => (Deferred, st)
          | Some ch =>
              let '(r, ch') := next_event (S (length (Sse.pending_ ch))) (sse_current s) (sse_current_offset s) ch in
              let st := set_world (mkWorld (app (world st)) (<[i := ch']> (channels (world st)))) st in
              match r with
              | None =>
                  let st := put sid (with_sse (Some i) [] 0 s) st in
                  if Sse.closed_ ch' then (Read [] true false, st) else (Deferred, st)
              | Some (current, offset) =>
                  let data := take length_ (drop offset current) in
                  (Read data false false, put sid (with_sse (Some i) current (offset + length data) s) st)
              end
          end
      | None =>
          let r := response s in
          let offset := Response.bytes_provided_ r in
          let data := take length_ (drop (Z.to_nat offset) (Response.body_ r)) in
          let r := Response.add_bytes_provided (len data) r in
          if Response.body_size r <? offset then (OutOfBounds, st)
          else (Read data (Response.body_size r <=? offset + len data) false, put sid (with_response r s) st)
      end
  end.

Definition release_transport (n : Z) (c : Connection) : Connection :=
  with_session (set_transport (release n <$> transport_backpressure_ (session_ c)) (session_ c)) c.

(** [websocket_data_source_read_callback] *)
Definition websocket_data_source_read_callback (sid : Z) (length_ : nat) (st : St) : ReadResult * St :=
  match streams_ st !! sid with
  | None => (Read [] true true, st)
  | Some s =>
      match websocket_outbound s with
      | [] => (Read [] true true, put sid (with_outbound [] (websocket_outbound_offset s) false s) st)
      | current :: rest =>
          let data := take length_ (drop (websocket_outbound_offset s) current) in
          let offset := (websocket_outbound_offset s + length data)%nat in
          let s := with_websocket (websocket_active s) (release_transport (len data) <$> websocket s) s in
          let '(q, offset) := if (offset =? length current)%nat then (rest, 0%nat) else (current :: rest, offset) in
          let last := bool_decide (q = []) in
          (Read data last last,
           put sid (with_outbound q offset (if last then false else websocket_data_submission_active s) s) st)
      end
  end.

(** ** Runs *)

Inductive Event :=
| BeginHeaders (sid : Z) (is_request : bool)
| Header (sid : Z) (is_request : bool) (name value : bytes)
| DataChunk (sid : Z) (data : bytes)
| FrameRecv (sid : Z) (type : FrameType) (end_headers end_stream : bool)
| StreamClose (sid : Z)
| Drain
| ReadBody (sid : Z) (length_ : nat)
| ReadWebSocket (sid : Z) (length_ : nat).

Definition step (st : St) (e : Event) : St :=
  match e with
  | BeginHeaders sid q => on_begin_headers_cb sid q st
  | Header sid q n v => on_header_cb sid q n v st
  | DataChunk sid d => on_data_chunk_recv_cb sid d st
  | FrameRecv sid t h f => on_frame_recv_cb sid t h f st
  | StreamClose sid => on_stream_close_cb sid st
  | Drain => drain_outbound st
  | ReadBody sid n => snd (h2_data_source_read_callback sid n st)
  | ReadWebSocket sid n => snd (websocket_data_source_read_callback sid n st)
  end.

Definition run (es : list Event) (st : St) : St := foldl step st es.

End WithCallbacks.
End Http2.
