(* ===== verification/Http2Props.v ===== *)
(** * The HTTP/2 session: requests assembled, bodies and WebSocket bytes delivered *)

From S2P Require Import Prelude CxxString HttpMessage WebSocket WsHandshake Sse Http1 Http2.
Import Http2.

Module Http2Props.
Import Http1 (World, mkWorld, app, channels, with_channel).

Section Assembly.
Context {A : Type}.
Abbreviation World := (World (A:=A)).
Context (handler_ : Request.t -> Response.t -> World -> Request.t * Response.t * World).
Context (websocket_handler_ : option (Request.t -> World -> Request.t * WebSocketConnectResult * World)).
Context (websocket_wakeup_ : bool).
Context (takes : list (Submission * bool) -> Submission -> bool).
Context (order : list Z -> list Z).

Abbreviation St := (St (A:=A)).
Abbreviation step := (step handler_ websocket_handler_ websocket_wakeup_ takes order).
Abbreviation run := (run handler_ websocket_handler_ websocket_wakeup_ takes order).

(** ** What concerns one stream *)

Section Stream.
Context (sid : Z).

Definition calls (st : St) : list (Z * Request.t) :=
  List.filter (fun p => bool_decide (fst p = sid)) (handled st).

Definition is_response (p : Submission * bool) : bool :=
  match fst p with SubmitResponse i _ => bool_decide (i = sid) | _ => false end.

Definition responses (st : St) : list (Submission * bool) := List.filter is_response (submissions st).

(** What the peer does to the stream. *)
Definition incoming (e : Event) : bool :=
  match e with
  | BeginHeaders i _ | Header i _ _ _ | DataChunk i _ | FrameRecv i _ _ _ | StreamClose i => bool_decide (i = sid)
  | _ => false
  end.

Definition restrict (es : list Event) : list Event := List.filter incoming es.

Definition outline (st : St) := (peer_address_ st, calls st, responses st).
Definition view (st : St) := (streams_ st !! sid, outline st).

(** Operations on another stream, and those that answer nothing on this one. *)
Lemma outline_put i s st : outline (put i s st) = outline st.
Proof. done. Qed.
Lemma outline_world w st : outline (set_world w st) = outline st.
Proof. done. Qed.
Lemma outline_erase i st : outline (erase i st) = outline st.
Proof. done. Qed.
Lemma outline_next_id st : outline (next_id st) = outline st.
Proof. done. Qed.

Lemma outline_call i r st : i <> sid -> outline (call_handler i r st) = outline st.
Proof. intros N. unfold outline, calls. cbn. rewrite List.filter_app. cbn. by rewrite bool_decide_false, app_nil_r. Qed.

Lemma outline_submit x st : is_response (x, true) = false -> outline (snd (submit takes x st)) = outline st.
Proof. intros N. unfold outline, responses. cbn. rewrite List.filter_app. cbn. unfold is_response in *. cbn in *. by rewrite N, app_nil_r. Qed.

Lemma view_of (st st' : St) : outline st' = outline st -> streams_ st' !! sid = streams_ st !! sid -> view st' = view st.
Proof. unfold view. by intros -> ->. Qed.

Lemma stream_put i s st : i <> sid -> streams_ (put (A:=A) i s st) !! sid = streams_ st !! sid.
Proof. intros N. cbn. by rewrite lookup_insert_ne. Qed.

Lemma view_put i s st : i <> sid -> view (put i s st) = view st.
Proof. intros N. apply view_of; [done|by apply stream_put]. Qed.

Lemma view_erase i st : i <> sid -> view (erase i st) = view st.
Proof. intros N. apply view_of; [done|]. cbn. by rewrite lookup_delete_ne. Qed.

Lemma view_submit x st : is_response (x, true) = false -> view (snd (submit takes x st)) = view st.
Proof. intros N. apply view_of; [by apply outline_submit|done]. Qed.

Lemma response_elsewhere i fs : i <> sid -> is_response (SubmitResponse i fs, true) = false.
Proof. intros N. unfold is_response. cbn. by rewrite bool_decide_false. Qed.

Lemma view_handle i st : i <> sid -> view (handle_stream_request handler_ websocket_wakeup_ takes i st) = view st.
Proof.
  intros N. unfold handle_stream_request. destruct (streams_ st !! i) as [s|]; [|done].
  destruct (handler_ _ _ _) as [[req res] w]. destruct (Response.sse_channel_ res);
    rewrite view_submit by (by apply response_elsewhere); rewrite view_put by done; (apply view_of; [by apply outline_call|done]).
Qed.

Lemma outline_submit_data i st : outline (submit_websocket_data takes i st) = outline st.
Proof.
  unfold submit_websocket_data. destruct (streams_ st !! i) as [s|]; [|done]. case_match; [done|].
  pose proof (outline_submit (SubmitData i) st eq_refl) as O. destruct (submit takes _ st) as [ok st']. by destruct ok.
Qed.

Lemma view_submit_data i st : i <> sid -> view (submit_websocket_data takes i st) = view st.
Proof.
  intros N. apply view_of; [apply outline_submit_data|]. unfold submit_websocket_data.
  destruct (streams_ st !! i) as [s|]; [|done]. case_match; [done|]. cbn. case_match; [|done]. cbn. by rewrite lookup_insert_ne.
Qed.

Lemma outline_queue i d st : outline (queue_websocket_outbound takes i d st) = outline st.
Proof.
  unfold queue_websocket_outbound. destruct (streams_ st !! i) as [s|]; [|done]. case_match; [done|]. by rewrite outline_submit_data.
Qed.

Lemma view_queue i d st : i <> sid -> view (queue_websocket_outbound takes i d st) = view st.
Proof.
  intros N. unfold queue_websocket_outbound. destruct (streams_ st !! i) as [s|]; [|done]. case_match; [done|].
  by rewrite view_submit_data, view_put.
Qed.

Lemma view_reject i c b s st : i <> sid -> view (reject_stream handler_ websocket_wakeup_ takes i c b s st) = view st.
Proof. intros N. unfold reject_stream. by rewrite view_handle, view_put. Qed.

Lemma view_connect i st : i <> sid ->
  view (handle_websocket_connect handler_ websocket_handler_ websocket_wakeup_ takes i st) = view st.
Proof.
  intros N. unfold handle_websocket_connect. destruct (streams_ st !! i) as [s|]; [|done].
  case_match; [by apply view_reject|]. destruct (match websocket_handler_ with Some f => _ | None => _ end) as [[req result] w].
  assert (forall s, view (put i s (set_world w st)) = view st) as E by (intros s'; by rewrite view_put).
  case_match; [by rewrite view_reject|]. case_match; [|by rewrite view_reject]. case_match; [|by rewrite view_reject].
  set (st1 := put _ _ (next_id _)). set (x := SubmitHeaders _ _).
  pose proof (view_submit x st1 eq_refl) as V. destruct (submit takes x st1) as [ok st2]. cbn [snd] in V.
  assert (view st1 = view st) as V1 by (unfold st1; rewrite view_put by done; apply (E (with_request req s))).
  destruct ok; [|by rewrite view_put, V]. destruct (connection_take_outbound _). by rewrite view_queue, view_put, V.
Qed.

(** ** Events of others *)

Definition other (e : Event) : Prop := incoming e = false.

(** A plain stream whose request is being received. *)
Definition receiving (peer : bytes) (r : Request.t) : Http2Stream := with_request r (new_stream peer).

Definition idle (s : option Http2Stream) : Prop := s = None \/ exists peer r, s = Some (receiving peer r).

Lemma drain_outline i st : outline (drain_stream takes i st) = outline st.
Proof.
  unfold drain_stream. destruct (streams_ st !! i) as [s|]; [|done].
  set (st1 := match websocket_active s with true => _ | false => _ end).
  assert (outline st1 = outline st) as O1.
  { unfold st1. repeat case_match; try done. by rewrite outline_queue. }
  case_match; [by rewrite outline_submit|done].
Qed.

Lemma drain_view i st : i <> sid -> view (drain_stream takes i st) = view st.
Proof.
  intros N. apply view_of; [apply drain_outline|]. unfold drain_stream. destruct (streams_ st !! i) as [s|]; [|done].
  set (st1 := match websocket_active s with true => _ | false => _ end).
  assert (view st1 = view st) as O1; [|injection O1 as O1 _ _ _; case_match; exact O1].
  unfold st1. repeat case_match; try done. by rewrite view_queue, view_put.
Qed.

Lemma drain_idle st : idle (streams_ st !! sid) -> view (drain_stream takes sid st) = view st.
Proof. intros [E|(peer & r & E)]; unfold drain_stream; by rewrite E. Qed.

Lemma drain_all st ids : outline (foldl (fun st i => drain_stream takes i st) st ids) = outline st /\
  (idle (streams_ st !! sid) -> view (foldl (fun st i => drain_stream takes i st) st ids) = view st).
Proof.
  revert st. induction ids as [|i ids IH]; intros st; cbn; [done|]. destruct (IH (drain_stream takes i st)) as [IH1 IH2].
  split; [by rewrite IH1, drain_outline|]. intros D.
  assert (view (drain_stream takes i st) = view st) as V.
  { destruct (decide (i = sid)) as [->|N]; [by apply drain_idle|by apply drain_view]. }
  rewrite IH2; [done|]. injection V as V _ _ _. by rewrite V.
Qed.

Lemma read_outline i n st : outline (snd (h2_data_source_read_callback i n st)) = outline st /\
  outline (snd (websocket_data_source_read_callback i n st)) = outline st.
Proof.
  unfold h2_data_source_read_callback, websocket_data_source_read_callback.
  split; repeat case_match; done.
Qed.

Lemma read_idle n st : idle (streams_ st !! sid) ->
  view (snd (h2_data_source_read_callback sid n st)) = view st /\
  view (snd (websocket_data_source_read_callback sid n st)) = view st.
Proof.
  unfold h2_data_source_read_callback, websocket_data_source_read_callback.
  intros [E|(peer & r & E)]; rewrite E; [done|]. cbn. rewrite drop_nil, take_nil. change (Response.add_bytes_provided (len []) Response.init) with Response.init. change (Response.body_size Response.init <? 0) with false. cbn.
  split; (apply view_of; [done|]); cbn; by rewrite lookup_insert_eq, E.
Qed.

Lemma read_view i n st : i <> sid -> view (snd (h2_data_source_read_callback i n st)) = view st /\
  view (snd (websocket_data_source_read_callback i n st)) = view st.
Proof.
  intros N. split; (apply view_of; [apply read_outline|]);
    unfold h2_data_source_read_callback, websocket_data_source_read_callback; repeat case_match; cbn; by rewrite ?lookup_insert_ne.
Qed.

Lemma frame_view i t h f st : i <> sid ->
  view (on_frame_recv_cb handler_ websocket_handler_ websocket_wakeup_ takes i t h f st) = view st.
Proof.
  intros N. unfold on_frame_recv_cb. destruct (streams_ st !! i) as [s|]; [|done].
  repeat case_match; try done; rewrite ?view_reject, ?view_connect, ?view_handle, ?view_put; done.
Qed.

Lemma data_view i d st : i <> sid -> view (on_data_chunk_recv_cb takes i d st) = view st.
Proof.
  intros N. unfold on_data_chunk_recv_cb. destruct (streams_ st !! i) as [s|]; [|done].
  repeat case_match; rewrite ?view_queue, ?view_put; done.
Qed.

(** The stream an event is about. *)
Definition elsewhere (e : Event) : Prop :=
  match e with
  | BeginHeaders i _ | Header i _ _ _ | DataChunk i _ | FrameRecv i _ _ _ | StreamClose i
  | ReadBody i _ | ReadWebSocket i _ => i <> sid
  | Drain => False
  end.

Lemma elsewhere_step st e : elsewhere e -> view (step st e) = view st.
Proof.
  intros N. destruct e; cbn [Http2.step elsewhere] in *; try done.
  - unfold on_begin_headers_cb. case_match; [by apply view_put|done].
  - unfold on_header_cb. repeat case_match; try done. by apply view_put.
  - by apply data_view.
  - by apply frame_view.
  - unfold on_stream_close_cb. case_match; [|done]. by rewrite view_erase.
  - by apply read_view.
  - by apply read_view.
Qed.

Lemma other_step st e : other e -> outline (step st e) = outline st /\
  (idle (streams_ st !! sid) -> view (step st e) = view st).
Proof.
  intros O. assert (elsewhere e -> outline (step st e) = outline st /\
    (idle (streams_ st !! sid) -> view (step st e) = view st)) as V.
  { intros E. pose proof (elsewhere_step st e E) as V. split; [|done]. exact (f_equal snd V). }
  unfold other, incoming in O. destruct e; to_prop; try (by apply V); cbn [Http2.step].
  - apply drain_all.
  - split; [apply read_outline|]. intros D. destruct (decide (sid0 = sid)) as [->|]; [by apply read_idle|by apply read_view].
  - split; [apply read_outline|]. intros D. destruct (decide (sid0 = sid)) as [->|]; [by apply read_idle|by apply read_view].
Qed.

(** ** Interleaving

    [leads P es Q]: from a state in [P], any run whose events for this stream
    are [es] ends in [Q], whatever happens elsewhere in between. *)

Definition stable (P : St -> Prop) : Prop := forall st e, other e -> P st -> P (step st e).

Definition leads (P : St -> Prop) (es : list Event) (Q : St -> Prop) : Prop :=
  forall all st, restrict all = es -> P st -> Q (run all st).

Lemma leads_nil P : stable P -> leads P [] P.
Proof.
  intros S all. induction all as [|e all IH]; intros st R H; [done|]. cbn in R.
  destruct (incoming e) eqn:E; [done|]. apply IH; [done|]. by apply S.
Qed.

Lemma leads_cons P e es Q R : stable P -> (forall st, P st -> Q (step st e)) -> leads Q es R -> leads P (e :: es) R.
Proof.
  intros S H L all. induction all as [|e' all IH]; intros st E HP; [done|]. cbn in E.
  destruct (incoming e') eqn:Ei.
  - injection E as -> E. by apply (L all), H.
  - apply IH; [done|]. by apply S.
Qed.

(** The stages of a request. *)
Context (peer : bytes).

Definition fresh (st : St) : Prop := peer_address_ st = peer /\ streams_ st !! sid = None /\ calls st = [] /\ responses st = [].

Definition assembling (r : Request.t) (st : St) : Prop :=
  peer_address_ st = peer /\ streams_ st !! sid = Some (receiving peer r) /\ calls st = [] /\ responses st = [].

(** The answer of the application to a request. *)
Definition answer (r : Request.t) (w : World) : list (bytes * bytes) :=
  let res := (handler_ r Response.init w).1.2 in
  response_fields (match Response.sse_channel_ res with Some _ => true | None => false end) res.

Definition answered (r : Request.t) (st : St) : Prop :=
  peer_address_ st = peer /\ calls st = [(sid, r)] /\
  exists w ok, responses st = [(SubmitResponse sid (answer r w), ok)].

Lemma view_split (st st' : St) : view st' = view st ->
  peer_address_ st' = peer_address_ st /\ streams_ st' !! sid = streams_ st !! sid /\
  calls st' = calls st /\ responses st' = responses st.
Proof. by intros [= -> -> -> ->]. Qed.

Lemma fresh_stable : stable fresh.
Proof.
  intros st e O (P & E & C & R). destruct (other_step st e O) as [_ V].
  destruct (view_split _ _ (V (or_introl E))) as (V1 & V2 & V3 & V4). split_and!; congruence.
Qed.

Lemma assembling_stable r : stable (assembling r).
Proof.
  intros st e O (P & E & C & R). destruct (other_step st e O) as [_ V].
  destruct (view_split _ _ (V (or_intror (ex_intro _ peer (ex_intro _ r E))))) as (V1 & V2 & V3 & V4). split_and!; congruence.
Qed.

Lemma answered_stable r : stable (answered r).
Proof.
  intros st e O (P & C & w & ok & R). destruct (other_step st e O) as [V _]. injection V as V1 V2 V3.
  split_and!; [congruence..|]. exists w, ok. congruence.
Qed.

(** ** The events of a request *)

Definition header_events (fields : list (bytes * bytes)) : list Event :=
  map (fun f => Header sid true (fst f) (snd f)) fields.

(** A DATA frame, its payload in any number of pieces. *)
Definition data_frame (last : bool) (chunks : list bytes) : list Event :=
  map (DataChunk sid) chunks ++ [FrameRecv sid DATA false last].

(** [body] is [None] for a request without DATA frames, or the frames and the last one. *)
Definition request_events (fields : list (bytes * bytes)) (body : option (list (list bytes) * list bytes)) : list Event :=
  BeginHeaders sid true :: header_events fields ++
  match body with
  | None => [FrameRecv sid HEADERS true true]
  | Some (frames, last) =>
      FrameRecv sid HEADERS true false :: concat (map (data_frame false) frames) ++ data_frame true last
  end.

(** The request they stand for. *)
Definition body_of (body : option (list (list bytes) * list bytes)) : bytes :=
  match body with None => [] | Some (frames, last) => concat (map (@concat byte) frames) ++ concat last end.

Fixpoint pseudo (n : bytes) (fields : list (bytes * bytes)) (v : bytes) : bytes :=
  match fields with
  | [] => v
  | (k, x) :: r => pseudo n r (if decide (k = n) then x else v)
  end.

Definition regular (f : bytes * bytes) : bool := negb (starts_with (bs ":") (fst f)).

Definition received (fields : list (bytes * bytes)) (body : bytes) (complete : bool) (r : Request.t) : Request.t :=
  Request.mk (pseudo (bs ":method") fields (Request.method_ r)) (pseudo (bs ":path") fields (Request.path_ r))
    (pseudo (bs ":scheme") fields (Request.scheme_ r)) (pseudo (bs ":authority") fields (Request.authority_ r))
    (Request.peer_address_ r) (Request.client_address_ r)
    (Request.headers_ r ++ map (fun f => HeaderMap.mkEntry (fst f) (snd f)) (List.filter regular fields))
    (Request.body_ r ++ body) (Request.path_params_ r) (complete || Request.headers_complete_ r) (complete || Request.body_complete_ r).

Definition base : Request.t := Request.set_peer_address peer Request.init.

(** Not an extended CONNECT for a WebSocket. *)
Definition plain (fields : list (bytes * bytes)) : Prop := (bs ":protocol", bs "websocket") ∉ fields.

Lemma received_nil r : received [] [] false r = r.
Proof. destruct r. unfold received. cbn. by rewrite !app_nil_r. Qed.

Lemma received_cons f fields r : received fields [] false (received [f] [] false r) = received (f :: fields) [] false r.
Proof. destruct r, f as [n v]. unfold received. cbn. destruct (regular (n, v)); cbn; by rewrite ?app_nil_r, <- ?app_assoc. Qed.

Lemma received_body b r : received [] b false r = Request.append_body b r.
Proof. destruct r. unfold received. cbn. by rewrite !app_nil_r. Qed.

Lemma field_received n v r : (n, v) <> (bs ":protocol", bs "websocket") ->
  request_field n v (receiving peer r) = receiving peer (received [(n, v)] [] false r).
Proof.
  intros N. unfold request_field, received, regular. cbn [pseudo List.filter fst snd].
  destruct (starts_with (bs ":") n) eqn:S; cbn [negb map].
  - rewrite !app_nil_r. repeat case_bool_decide; subst; try (destruct r; reflexivity);
      cbn [andb]; try (by destruct N); repeat (rewrite decide_False by done); by destruct r.
  - assert (forall p, starts_with (bs ":") p = true -> n <> p) as D by (intros p Hp ->; congruence).
    rewrite !decide_False by (by apply D). rewrite !app_nil_r. by destruct r.
Qed.

Lemma leads_headers fields r es Q : plain fields ->
  leads (assembling (received fields [] false r)) es Q ->
  leads (assembling r) (header_events fields ++ es) Q.
Proof.
  revert r. induction fields as [|[n v] fields IH]; intros r P L; cbn [header_events map app].
  - by rewrite received_nil in L.
  - apply not_elem_of_cons in P as [P1 P2].
    apply leads_cons with (Q := assembling (received [(n, v)] [] false r)); [apply assembling_stable|..].
    + intros st (E1 & E2 & E3 & E4). cbn. unfold on_header_cb. rewrite E2. unfold assembling. cbn [fst snd].
      split_and!; try done. cbn. rewrite lookup_insert_eq. f_equal. by apply field_received.
    + apply IH; [done|]. by rewrite received_cons.
Qed.

Lemma append_body_append a b r : Request.append_body b (Request.append_body a r) = Request.append_body (a ++ b) r.
Proof. unfold Request.append_body. cbn. by rewrite app_assoc. Qed.

Lemma leads_chunks chunks r es Q :
  leads (assembling (Request.append_body (concat chunks) r)) es Q ->
  leads (assembling r) (map (DataChunk sid) chunks ++ es) Q.
Proof.
  revert r. induction chunks as [|c chunks IH]; intros r L; cbn [map app concat] in *.
  - by rewrite <- received_body, received_nil in L.
  - apply leads_cons with (Q := assembling (Request.append_body c r)); [apply assembling_stable|..].
    + intros st (E1 & E2 & E3 & E4). cbn. unfold on_data_chunk_recv_cb. rewrite E2. cbn.
      split_and!; try done. cbn. by rewrite lookup_insert_eq.
    + apply IH. by rewrite append_body_append.
Qed.

(** A frame that does not end the stream changes nothing. *)
Lemma frame_ignored t h r st : assembling r st ->
  assembling r (step st (FrameRecv sid t h false)).
Proof.
  intros (E1 & E2 & E3 & E4). cbn. unfold on_frame_recv_cb. rewrite E2. cbn. rewrite !andb_false_r. by split_and!.
Qed.

Lemma leads_frames frames r es Q :
  leads (assembling (Request.append_body (concat (map (@concat byte) frames)) r)) es Q ->
  leads (assembling r) (concat (map (data_frame false) frames) ++ es) Q.
Proof.
  revert r. induction frames as [|cs frames IH]; intros r L; cbn [map app concat] in *.
  - by rewrite <- received_body, received_nil in L.
  - unfold data_frame at 1. rewrite <- !app_assoc. apply leads_chunks.
    eapply leads_cons; [apply assembling_stable|intros st; apply frame_ignored|].
    apply IH. by rewrite append_body_append.
Qed.

(** The end of the stream: the request is handled. *)
Lemma handled_answered t h r st : t <> OTHER -> assembling r st ->
  answered (Request.mark_body_complete (Request.mark_headers_complete r)) (step st (FrameRecv sid t h true)).
Proof.
  intros N (E1 & E2 & E3 & E4). cbn. unfold on_frame_recv_cb. rewrite E2. cbn. rewrite andb_false_r, bool_decide_false by done.
  cbn. unfold handle_stream_request. cbn. rewrite lookup_insert_eq. cbn. set (r' := Request.mark_body_complete _).
  destruct (handler_ r' Response.init (world st)) as [[req res] w] eqn:H.
  unfold calls in E3. unfold responses in E4.
  destruct (Response.sse_channel_ res) as [c|] eqn:S; cbn.
  all: split_and!; [done|unfold calls; cbn; rewrite List.filter_app, E3; cbn; by rewrite bool_decide_true|].
  all: eexists (world st), _; unfold responses; cbn; rewrite List.filter_app, E4; cbn; unfold is_response; cbn.
  all: rewrite bool_decide_true by done; unfold answer; rewrite H; cbn; by rewrite S.
Qed.

(** [assembled fields body] is the request of the handler. *)
Definition assembled (fields : list (bytes * bytes)) (body : bytes) : Request.t := received fields body true base.

Lemma assembled_eq fields b : Request.mark_body_complete (Request.mark_headers_complete
  (Request.append_body b (received fields [] false base))) = assembled fields b.
Proof. unfold assembled, received, Request.append_body. cbn. done. Qed.

(** The stream may have been closed by then. *)
Definition closing (closed : bool) : list Event := if closed then [StreamClose sid] else [].

Lemma leads_closing r closed : leads (answered r) (closing closed) (answered r).
Proof.
  destruct closed; [|apply leads_nil, answered_stable].
  eapply leads_cons; [apply answered_stable| |apply leads_nil, answered_stable].
  intros st H. cbn. unfold on_stream_close_cb. by case_match.
Qed.

Lemma leads_request fields body closed : plain fields ->
  leads fresh (request_events fields body ++ closing closed) (answered (assembled fields (body_of body))).
Proof.
  intros P. unfold request_events. rewrite <- app_comm_cons, <- app_assoc. apply leads_cons with (Q := assembling base); [apply fresh_stable|..].
  { intros st (E1 & E2 & E3 & E4). cbn. split_and!; try done. cbn. rewrite lookup_insert_eq, E1. done. }
  apply leads_headers; [done|]. destruct body as [[frames last]|].
  - rewrite <- app_comm_cons, <- app_assoc. eapply leads_cons; [apply assembling_stable|intros st; apply frame_ignored|]. apply leads_frames. unfold data_frame. rewrite <- app_assoc. apply leads_chunks. eapply leads_cons; [apply assembling_stable|intros st; by apply handled_answered|].
    rewrite append_body_append, assembled_eq. apply leads_closing.
  - eapply leads_cons; [apply assembling_stable|intros st; by apply handled_answered|].
    rewrite <- (received_nil (received fields [] false base)), (received_body [] (received fields [] false base)), assembled_eq.
    apply leads_closing.
Qed.

End Stream.

(** [C12] However the streams of a connection are interleaved, and whatever the
    application, the other streams, the timers and the writer do in between, a
    complete ordinary request (one header block, DATA frames up to the one that
    ends the stream, no trailers, not an extended CONNECT for a WebSocket) that its
    stream carries is handled exactly once, as the request that was sent: its
    pseudo-header fields, its other fields in order, the bytes of its DATA
    frames in order, the address of the peer.  And exactly one response is
    submitted on its stream, with the header block of what the application
    answered to it. *)
Theorem http2_requests_assembled sid peer w es fields body closed
    (Hes : restrict sid es = request_events sid fields body ++ closing sid closed) (Hplain : plain fields) :
  let st := run es (new_session peer w) in
  let r := assembled peer fields (body_of body) in
  calls sid st = [(sid, r)] /\
  exists w' ok, responses sid st = [(SubmitResponse sid (answer r w'), ok)].
Proof.
  destruct (leads_request sid peer fields body closed Hplain es (new_session peer w) Hes) as (_ & C & R); [|done].
  split_and!; done.
Qed.

End Assembly.
End Http2Props.
