(* ===== verification/Http2Streams.v ===== *)
(** * WebSockets, bodies and event streams over HTTP/2

    A WebSocket on an HTTP/2 stream is its connection and a byte pipe, however
    nghttp2 cuts what it reads; the source of a response body gives the body;
    then a concrete session and the runs in which it misbehaves. *)

From S2P Require Import Prelude CxxString HttpMessage WebSocket WsHandshake Sse Http1 Http2 Http2Props.
Import Http2 Http2Props.

Module Http2Streams.
Import Http1 (World, mkWorld, app, channels, with_channel).

(** ** The specification: a connection and the bytes not read yet *)

Record Pipe := mkPipe { conn : Connection; unread : bytes }.

(** One event and, for a read, the data and whether the source is empty. *)
Inductive pipe_step (sid : Z) : Pipe -> Event -> option (bytes * bool) -> Pipe -> Prop :=
| pipe_data c u d out c' : connection_take_outbound (snd (feed d c)) = (out, c') ->
    pipe_step sid (mkPipe c u) (DataChunk sid d) None (mkPipe c' (u ++ out))
| pipe_drain c u out c' : drain_external_outbound c = (out, c') ->
    pipe_step sid (mkPipe c u) Drain None (mkPipe c' (u ++ out))
| pipe_idle c n : pipe_step sid (mkPipe c []) (ReadWebSocket sid n) (Some ([], true)) (mkPipe c [])
| pipe_read c data rest n : (length data <= n)%nat -> (n <> 0%nat -> data <> []) ->
    data ++ rest <> [] ->
    pipe_step sid (mkPipe c (data ++ rest)) (ReadWebSocket sid n) (Some (data, bool_decide (rest = [])))
      (mkPipe (release_transport (len data) c) rest)
| pipe_skip p e : (forall d, e <> DataChunk sid d) -> e <> Drain -> (forall n, e <> ReadWebSocket sid n) ->
    pipe_step sid p e None p.

Inductive pipe_run (sid : Z) : Pipe -> list Event -> list (bytes * bool) -> Pipe -> Prop :=
| pipe_nil p : pipe_run sid p [] [] p
| pipe_cons p e o p1 es os p2 : pipe_step sid p e o p1 -> pipe_run sid p1 es os p2 ->
    pipe_run sid p (e :: es) (match o with Some x => x :: os | None => os end) p2.

(** ** The session *)

Section Pipes.
Context {A : Type}.
Abbreviation World := (World (A:=A)).
Context (handler_ : Request.t -> Response.t -> World -> Request.t * Response.t * World).
Context (websocket_handler_ : option (Request.t -> World -> Request.t * WebSocketConnectResult * World)).
Context (websocket_wakeup_ : bool).
Context (takes : list (Submission * bool) -> Submission -> bool).
Context (order : list Z -> list Z).
Context (Horder : forall l, Permutation (order l) l).
Context (sid : Z).
Context (Htakes : forall l, takes l (SubmitData sid) = true).

Abbreviation St := (St (A:=A)).
Abbreviation step := (step handler_ websocket_handler_ websocket_wakeup_ takes order).
Abbreviation run := (run handler_ websocket_handler_ websocket_wakeup_ takes order).

(** The queue of a stream. *)
Record queue_ok (s : Http2Stream) : Prop := {
  q_chunks : Forall (fun c => c <> []) (websocket_outbound s);
  q_offset : match websocket_outbound s with
             | [] => websocket_outbound_offset s = 0%nat
             | c :: _ => (websocket_outbound_offset s < length c)%nat
             end;
  q_active : websocket_data_submission_active s = bool_decide (websocket_outbound s <> [])
}.

Definition queued (s : Http2Stream) : bytes := drop (websocket_outbound_offset s) (concat (websocket_outbound s)).

Definition carries (c : Connection) (u : bytes) (s : Http2Stream) : Prop :=
  websocket_active s = true /\ websocket s = Some c /\ queued s = u /\ queue_ok s.

(** A stream implements the pipe. *)
Definition implements (st : St) (p : Pipe) : Prop :=
  exists s, streams_ st !! sid = Some s /\ carries (conn p) (unread p) s.

Lemma queued_empty s : queue_ok s -> queued s = [] <-> websocket_outbound s = [].
Proof using.
  intros [C O _]. unfold queued. destruct (websocket_outbound s) as [|c q]; [by cbn; rewrite drop_nil|]. split; [|done].
  cbn. intros E. apply (f_equal length) in E. rewrite length_drop, length_app in E. cbn in E. lia.
Qed.

Lemma carries_queue c u s data : carries c u s -> data <> [] ->
  carries c (u ++ data) (with_outbound (websocket_outbound s ++ [data]) (websocket_outbound_offset s) true s).
Proof using.
  intros (Ha & Hc & <- & [C O _]) N. split_and!; [done|done|..]; cbn.
  - unfold queued. cbn. rewrite concat_app. cbn. rewrite app_nil_r. destruct (websocket_outbound s) as [|c0 q]; cbn.
    + rewrite O, drop_nil. done.
    + rewrite drop_app_le; [done|]. rewrite length_app. lia.
  - split; cbn.
    + apply Forall_app. split; [done|by repeat constructor].
    + destruct (websocket_outbound s); cbn in *; [|done]. rewrite O. destruct data; [done|cbn; lia].
    + rewrite bool_decide_true; [done|]. by destruct (websocket_outbound s).
Qed.

Lemma carries_conn c c' u s : carries c u s -> carries c' u (with_websocket true (Some c') s).
Proof using. intros (Ha & Hc & Hq & [C O X]). by split_and!. Qed.

(** Queueing [data], given that its connection is the one of the pipe. *)
Lemma queue_implements data c u s st : streams_ st !! sid = Some s -> carries c u s ->
  implements (queue_websocket_outbound takes sid data st) (mkPipe c (u ++ data)).
Proof using Htakes.
  intros E H. pose proof H as (Ha & Hc & Hq & Q). unfold queue_websocket_outbound. rewrite E, Ha. cbn [negb]. rewrite orb_false_r.
  destruct (len data =? 0) eqn:L.
  { to_prop. destruct data; [|done]. rewrite app_nil_r. by exists s. }
  assert (data <> []) as N by (by intros ->). pose proof (carries_queue c u s data H N) as H'.
  unfold submit_websocket_data. cbn. rewrite lookup_insert_eq. cbn.
  destruct (websocket_data_submission_active s) eqn:X.
  - cbn. eexists. cbn. rewrite lookup_insert_eq. split; [done|exact H'].
  - rewrite bool_decide_false by (by destruct (websocket_outbound s)). cbn. rewrite Htakes. cbn.
    eexists. cbn. rewrite lookup_insert_eq. split; [done|exact H'].
Qed.

Lemma implements_view (st st' : St) p : view sid st' = view sid st -> implements st p -> implements st' p.
Proof using. intros V (s & E & H). exists s. split; [|done]. injection V as V _ _ _. by rewrite V. Qed.

(** ** Each event *)

Lemma data_implements d st c u out c' : implements st (mkPipe c u) -> connection_take_outbound (snd (feed d c)) = (out, c') ->
  implements (step st (DataChunk sid d)) (mkPipe c' (u ++ out)).
Proof using Htakes.
  intros (s & E & H) O. pose proof H as (Ha & Hc & _). cbn in Hc. cbn [Http2.step]. unfold on_data_chunk_recv_cb. rewrite E, Ha, Hc.
  destruct (feed d c) as [x c1]. cbn [snd] in O. rewrite O. eapply queue_implements; [by cbn; rewrite lookup_insert_eq|].
  by eapply carries_conn.
Qed.

Lemma drain_implements st c u out c' : implements st (mkPipe c u) -> drain_external_outbound c = (out, c') ->
  implements (drain_stream takes sid st) (mkPipe c' (u ++ out)).
Proof using Htakes.
  intros (s & E & H) O. pose proof H as (Ha & Hc & _). cbn in Hc. unfold drain_stream. rewrite E, Ha, Hc, O.
  assert (implements (queue_websocket_outbound takes sid out (put sid (with_websocket true (Some c') s) st)) (mkPipe c' (u ++ out))) as Q.
  { eapply queue_implements; [by cbn; rewrite lookup_insert_eq|]. by eapply carries_conn. }
  destruct (sse_channel s); [|done]. exact Q.
Qed.

Lemma drain_others ids st p : sid ∉ ids -> implements st p ->
  implements (foldl (fun st i => drain_stream takes i st) st ids) p.
Proof using.
  revert st. induction ids as [|i ids IH]; intros st N H; [done|]. apply not_elem_of_cons in N as [N1 N2]. cbn.
  apply IH; [done|]. eapply implements_view; [|exact H]. apply drain_view. congruence.
Qed.

Lemma drain_all_implements st c u out c' : implements st (mkPipe c u) -> drain_external_outbound c = (out, c') ->
  implements (step st Drain) (mkPipe c' (u ++ out)).
Proof using Htakes Horder.
  intros H O. cbn. unfold drain_outbound. set (ids := order _).
  assert (NoDup ids) as N by (unfold ids; rewrite (Horder _); apply NoDup_fst_map_to_list).
  assert (sid ∈ ids) as I.
  { unfold ids. rewrite (Horder _). destruct H as (s & E & _). apply list_elem_of_fmap. exists (sid, s).
    by rewrite elem_of_map_to_list. }
  apply list_elem_of_split in I as (l1 & l2 & E). rewrite E in *. apply NoDup_app in N as (_ & N1 & N2).
  apply NoDup_cons in N2 as [N2 _]. rewrite foldl_app. cbn. apply drain_others; [done|].
  eapply drain_implements; [|done]. apply drain_others; [|done]. intros I. apply (N1 sid I). by left.
Qed.

(** A read takes a prefix of what is queued, not empty if it asks for bytes. *)
Lemma read_implements n st p : implements st p -> exists x p',
  pipe_step sid p (ReadWebSocket sid n) (Some x) p' /\
  fst (websocket_data_source_read_callback sid n st) = Read (fst x) (snd x) (snd x) /\
  implements (step st (ReadWebSocket sid n)) p'.
Proof using.
  destruct p as [c u]. intros (s & E & Ha & Hc & Hq & Q). cbn in Hc, Hq. cbn [Http2.step].
  unfold websocket_data_source_read_callback. rewrite E.
  pose proof (queued_empty s Q) as QE. destruct Q as [C O X]. unfold queued in Hq.
  destruct (websocket_outbound s) as [|cur q] eqn:W.
  - cbn in Hq. rewrite drop_nil in Hq. subst u. exists ([], true), (mkPipe c []). split_and!; [constructor|done|].
    eexists. cbn. rewrite lookup_insert_eq. split; [done|]. rewrite O. by split_and!.
  - set (off := websocket_outbound_offset s) in *. set (data := take n (drop off cur)).
    assert (length data = Nat.min n (length cur - off)) as Ld by (unfold data; by rewrite length_take, length_drop).
    assert (u = data ++ drop (off + length data) cur ++ concat q) as Hu.
    { rewrite <- Hq. cbn [concat]. rewrite drop_app_le by lia. rewrite app_assoc. f_equal.
      unfold data at 1. rewrite <- (take_drop n (drop off cur)) at 1. f_equal. rewrite drop_drop.
      destruct (decide (n <= length cur - off)%nat); [f_equal; lia|]. rewrite !drop_ge; [done|lia|lia]. }
    apply Forall_cons in C as [C1 C2]. rewrite Hu.
    exists (data, bool_decide (drop (off + length data) cur ++ concat q = [])),
      (mkPipe (release_transport (len data) c) (drop (off + length data) cur ++ concat q)).
    split; [apply pipe_read|].
    + lia.
    + intros N D. rewrite D in Ld. cbn in Ld. lia.
    + rewrite <- Hu, <- Hq. intros D. apply (f_equal length) in D. cbn in D. rewrite length_drop, length_app in D. lia.
    + destruct (off + length data =? length cur)%nat eqn:L; to_prop.
      * rewrite L, drop_all. change ([] ++ concat q) with (concat q). cbn [fst snd].
        assert (bool_decide (concat q = []) = bool_decide (q = [])) as B.
        { apply bool_decide_ext. destruct q as [|c0 q]; [done|]. apply Forall_cons in C2 as [C2 _].
          cbn. split; [|done]. by intros [-> _]%app_eq_nil. }
        rewrite B. split; [done|]. eexists. cbn. rewrite lookup_insert_eq. split; [done|]. split_and!; cbn.
        -- done.
        -- by rewrite Hc.
        -- done.
        -- split; cbn; [done|by destruct q as [|c0 q]; [|apply Forall_cons in C2 as [C2 _]; destruct c0; cbn; [|lia]]|].
           rewrite X. by destruct q.
      * rewrite (bool_decide_false (cur :: q = [])) by done. rewrite bool_decide_false; [|intros [D _]%app_eq_nil; apply (f_equal length) in D; rewrite length_drop in D; cbn in D; lia].
        split; [done|]. eexists. cbn. rewrite lookup_insert_eq. split; [done|]. split_and!; cbn.
        -- done.
        -- by rewrite Hc.
        -- unfold queued. cbn. rewrite drop_app_le; [done|lia].
        -- split; cbn; [by constructor|lia|]. by rewrite X.
Qed.

(** ** Runs *)

(** What a peer may do to an open tunnel: data, and frames other than HEADERS. *)
Definition tunnel (e : Event) : Prop :=
  match e with
  | BeginHeaders i q | Header i q _ _ => i <> sid
  | FrameRecv i t _ _ => i = sid -> t <> HEADERS
  | StreamClose i => i <> sid
  | _ => True
  end.

(** What nghttp2 reads on the stream. *)
Fixpoint reads (es : list Event) (st : St) : list (bytes * bool) :=
  match es with
  | [] => []
  | e :: es' =>
      match e with
      | ReadWebSocket i n =>
          match decide (i = sid), fst (websocket_data_source_read_callback i n st) with
          | left _, Read data eof _ => (data, eof) :: reads es' (step st e)
          | _, _ => reads es' (step st e)
          end
      | _ => reads es' (step st e)
      end
  end.

Lemma body_implements n st p : implements st p -> implements (step st (ReadBody sid n)) p.
Proof using.
  intros (s & E & H). cbn. unfold h2_data_source_read_callback. rewrite E.
  repeat case_match; try (by exists s); eexists; cbn; rewrite lookup_insert_eq; (split; [done|]);
    destruct H as (Ha & Hc & Hq & [C O X]); by split_and!.
Qed.

Lemma step_implements e st p : implements st p -> tunnel e -> exists o p',
  pipe_step sid p e o p' /\ implements (step st e) p' /\
  forall es, reads (e :: es) st = match o with Some x => x :: reads es (step st e) | None => reads es (step st e) end.
Proof using Htakes Horder.
  intros H T.
  assert (elsewhere sid e -> exists o p', pipe_step sid p e o p' /\ implements (step st e) p' /\ forall es, reads (e :: es) st =
    match o with Some x => x :: reads es (step st e) | None => reads es (step st e) end) as V.
  { intros N. exists None, p. split_and!.
    - apply pipe_skip; [intros d ->; done|by intros ->|by intros n ->].
    - eapply implements_view; [by apply elsewhere_step|done].
    - destruct e; cbn [reads elsewhere] in *; try done. intros es. by destruct (decide _). }
  destruct e as [i q|i q n v|i d|i t h f|i| |i n|i n]; cbn [tunnel] in T; try (by apply V).
  - destruct (decide (i = sid)) as [->|N]; [|by apply V]. destruct p as [c u].
    destruct (connection_take_outbound (snd (feed d c))) as [out c'] eqn:O.
    exists None, (mkPipe c' (u ++ out)). split_and!; [by constructor|by eapply data_implements|done].
  - destruct (decide (i = sid)) as [->|N]; [|by apply V]. exists None, p. split_and!; [by apply pipe_skip| |done].
    cbn. unfold on_frame_recv_cb. pose proof H as (s & E & Ha & _). rewrite E, Ha, bool_decide_false by (by apply T).
    cbn. by case_match.
  - destruct p as [c u]. destruct (drain_external_outbound c) as [out c'] eqn:O.
    exists None, (mkPipe c' (u ++ out)). split_and!; [by constructor|by eapply drain_all_implements|done].
  - destruct (decide (i = sid)) as [->|N]; [|by apply V]. exists None, p. split_and!; [by apply pipe_skip|by apply body_implements|done].
  - destruct (decide (i = sid)) as [->|N]; [|by apply V].
    destruct (read_implements n st p H) as ([data eof] & p' & S & F & I). exists (Some (data, eof)), p'. split_and!; [done|done|].
    intros es. cbn [reads]. rewrite F. by destruct (decide _).
Qed.

Lemma run_implements es st p : implements st p -> Forall tunnel es -> exists p',
  pipe_run sid p es (reads es st) p' /\ implements (run es st) p'.
Proof using Htakes Horder.
  revert st p. induction es as [|e es IH]; intros st p H T; [by exists p; split; [constructor|]|].
  apply Forall_cons in T as [T1 T2]. destruct (step_implements e st p H T1) as (o & p1 & S & I & R).
  destruct (IH (step st e) p1 I T2) as (p2 & P & I2). exists p2. split; [|done]. rewrite R. by econstructor.
Qed.

(** The connection of an accepted tunnel. *)
Definition opened (st : St) (h : Handler) (principal : bytes) : Connection :=
  new_connection (next_session_id st) h principal websocket_wakeup_
    (Some (mkBackpressure (max_pending_send_bytes (h_limits h)) 0)).

Lemma connect_implements peer r f req h pr sub w st out c :
  streams_ st !! sid = Some (with_extended (receiving peer r)) -> Request.method_ r = bs "CONNECT" ->
  websocket_handler_ = Some f -> f r (world st) = (req, accept h pr sub, w) ->
  (forall l fs, takes l (SubmitHeaders sid fs) = true) ->
  connection_take_outbound (opened st h pr) = (out, c) ->
  implements (step st (FrameRecv sid HEADERS true false)) (mkPipe c out).
Proof using Htakes.
  intros E M F R T O. cbn [Http2.step]. unfold on_frame_recv_cb. rewrite E. cbn [extended_websocket_connect with_extended].
  rewrite bool_decide_true by done. cbn [andb]. unfold handle_websocket_connect. rewrite E. cbn [request with_extended receiving with_request].
  rewrite M, bool_decide_true, F, R by done. cbn [negb matched accepted handler accept principal].
  unfold submit. rewrite T. cbn [next_session_id put set_world next_id]. fold (opened st h pr). rewrite O.
  apply (queue_implements out c [] (with_websocket true (Some c) (with_request req (with_extended (receiving peer r))))).
  - cbn. by rewrite lookup_insert_eq.
  - by split_and!.
Qed.

(** [C13] A WebSocket on an HTTP/2 stream is a WebSocket.  When nghttp2 accepts the
    submissions of the stream, and as long as the client sends no further header
    block on it and does not close it: once a tunnel is accepted its connection gets the bytes of the DATA frames as they come and nothing
    else, and nghttp2 reads, in pieces of any size, exactly the bytes the
    connection produced, in order; each read that asks for bytes gets some
    while there are any, releases as many to the flow-control limit, and says
    when it has emptied the queue; and a read is pending exactly when bytes
    are queued. *)
Theorem websocket_over_http2 peer r f req h pr sub w st out c es
    (Hst : streams_ st !! sid = Some (with_extended (receiving peer r)))
    (Hmethod : Request.method_ r = bs "CONNECT")
    (Hhandler : websocket_handler_ = Some f) (Haccept : f r (world st) = (req, accept h pr sub, w))
    (Hheaders : forall l fs, takes l (SubmitHeaders sid fs) = true)
    (Hopen : connection_take_outbound (opened st h pr) = (out, c))
    (Hes : Forall tunnel es) :
  let st1 := step st (FrameRecv sid HEADERS true false) in
  exists p s, pipe_run sid (mkPipe c out) es (reads es st1) p /\
    streams_ (run es st1) !! sid = Some s /\ websocket s = Some (conn p) /\ queued s = unread p /\
    websocket_data_submission_active s = bool_decide (unread p <> []).
Proof using Htakes Horder.
  intros st1. destruct (run_implements es st1 (mkPipe c out)) as (p & P & s & E & Ha & Hc & Hq & Q); [|done|].
  { by eapply connect_implements. }
  exists p, s. split_and!; try done. rewrite (q_active _ Q). apply bool_decide_ext. rewrite <- Hq, (queued_empty s Q). done.
Qed.

End Pipes.

(** ** Response bodies and event streams *)

Section Sources.
Context {A : Type}.
Abbreviation St := (St (A:=A)).
Context (sid : Z).

(** Successive reads. *)
Fixpoint read_all (ns : list nat) (st : St) : list ReadResult :=
  match ns with
  | [] => []
  | n :: ns' => let '(r, st') := h2_data_source_read_callback sid n st in r :: read_all ns' st'
  end.

(** [body] cut into pieces; the end is announced with the last byte. *)
Fixpoint pieces (ns : list nat) (body : bytes) : list ReadResult :=
  match ns with
  | [] => []
  | n :: ns' => Read (take n body) (length body <=? n)%nat false :: pieces ns' (drop n body)
  end.

Lemma pieces_from ns s st : streams_ st !! sid = Some s -> sse_channel s = None ->
  0 <= Response.bytes_provided_ (response s) <= len (Response.body_ (response s)) ->
  len (Response.body_ (response s)) < 2 ^ 64 ->
  read_all ns st = pieces ns (drop (Z.to_nat (Response.bytes_provided_ (response s))) (Response.body_ (response s))).
Proof.
  revert s st. induction ns as [|n ns IH]; intros s st E C B L; [done|]. cbn [read_all pieces].
  unfold h2_data_source_read_callback. rewrite E, C. cbv zeta. set (off := Response.bytes_provided_ _) in *.
  set (b := Response.body_ (response s)) in *. set (data := take n (drop (Z.to_nat off) b)).
  assert (length data = Nat.min n (length b - Z.to_nat off)) as Ld by (unfold data; by rewrite length_take, length_drop).
  assert (len b = Z.of_nat (length b)) as Lb by done.
  assert (Response.body_size (Response.add_bytes_provided (len data) (response s)) = len b) as -> by done.
  rewrite (proj2 (Z.ltb_ge _ _)) by lia. f_equal.
  - f_equal. apply eq_bool_prop_intro. rewrite length_drop. unfold len. destruct (Z.leb_spec (Z.of_nat (length b)) (off + Z.of_nat (length data))),
      (Nat.leb_spec (length b - Z.to_nat off) n); try done; lia.
  - assert (wrap64 (off + len data) = off + len data) as Hw by (apply wrap64_small; unfold in_u64, len in *; lia).
    erewrite (IH _ (put sid _ st)); [|by cbn; rewrite lookup_insert_eq|done|cbn; fold off; rewrite Hw; fold b; unfold len in *; lia|done].
    cbn. fold off b. rewrite Hw, drop_drop. f_equal. unfold len. destruct (decide (n <= length b - Z.to_nat off)%nat).
    + f_equal. lia.
    + rewrite !drop_ge; [done|lia|lia].
Qed.

(** What is left of an event stream. *)
Definition left_over (s : Http2Stream) (ch : Sse.Channel) : bytes :=
  drop (sse_current_offset s) (sse_current s) ++ concat (Sse.pending_ ch).

Lemma next_event_spec fuel current offset c : (length (Sse.pending_ c) < fuel)%nat ->
  let '(r, c') := next_event fuel current offset c in
  Sse.closed_ c' = Sse.closed_ c /\
  match r with
  | None => drop offset current ++ concat (Sse.pending_ c) = [] /\ Sse.pending_ c' = []
  | Some (current', offset') => (offset' < length current')%nat /\
      drop offset' current' ++ concat (Sse.pending_ c') = drop offset current ++ concat (Sse.pending_ c)
  end.
Proof.
  revert current offset c. induction fuel as [|fuel IH]; intros current offset c L; [lia|]. cbn [next_event].
  destruct (Nat.leb_spec (length current) offset); [|by split_and!].
  rewrite drop_ge by done. unfold Sse.take_next. destruct (Sse.pending_ c) as [|ev rest] eqn:P; [by rewrite P|].
  set (c' := Sse.mkChannel _ _ _ _ _). specialize (IH ev 0%nat c'). cbn in L, IH.
  destruct (next_event fuel ev 0 c') as [r c2]. destruct IH as [IH1 IH2]; [lia|]. split; [done|].
  destruct r as [[cur' off']|]; [|done]. destruct IH2 as [O IH2]. split; [done|]. by rewrite IH2.
Qed.

(** An event stream is read in order: a read gives the next bytes of the events
    published, waits while there are none, and ends after the channel closed. *)
Lemma event_stream_read n s i ch (st : St) : (0 < n)%nat -> streams_ st !! sid = Some s -> sse_channel s = Some i ->
  channels (world st) !! i = Some ch ->
  exists s' ch', let '(r, st') := h2_data_source_read_callback sid n st in
  streams_ st' !! sid = Some s' /\ channels (world st') !! i = Some ch' /\ Sse.closed_ ch' = Sse.closed_ ch /\
  match r with
  | Read data false _ => data <> [] /\ data ++ left_over s' ch' = left_over s ch
  | Read data true _ => data = [] /\ left_over s ch = [] /\ Sse.closed_ ch = true
  | Deferred => left_over s ch = [] /\ Sse.closed_ ch = false
  | OutOfBounds => False
  end.
Proof.
  intros N E C W. unfold h2_data_source_read_callback. rewrite E, C, W.
  pose proof (next_event_spec (S (length (Sse.pending_ ch))) (sse_current s) (sse_current_offset s) ch ltac:(lia)) as H.
  destruct (next_event _ _ _ ch) as [r ch']. destruct H as [Hc H]. destruct r as [[cur off]|].
  - destruct H as [O H]. eexists _, ch'. cbn. rewrite !lookup_insert_eq. split_and!; [done..| |].
    + intros D. apply (f_equal length) in D. rewrite length_take, length_drop in D. cbn in D. lia.
    + unfold left_over at 1. cbn. rewrite app_assoc. unfold left_over. rewrite <- H. f_equal.
      rewrite <- (take_drop n (drop off cur)) at 3. f_equal. rewrite drop_drop, length_take, length_drop.
      destruct (decide (n <= length cur - off)%nat); [f_equal; lia|]. rewrite !drop_ge; [done|lia|lia].
  - destruct H as [H1 H2]. eexists _, ch'. rewrite Hc. destruct (Sse.closed_ ch) eqn:K; cbn; rewrite !lookup_insert_eq; split_and!; done.
Qed.

End Sources.
(** ** A concrete session *)

Definition app_handler (r : Request.t) (res : Response.t) (w : World (A:=nat)) : Request.t * Response.t * World (A:=nat) :=
  (r, Response.body (bs "hello") (Response.status 200 res), mkWorld (S (app w)) (channels w)).

Definition echo : Handler :=
  mkHandler None (Some (fun _ m => [CallSendText (msg_payload m)])) None false default_limits.

Definition connects (res : WebSocketConnectResult) (r : Request.t) (w : World (A:=nat)) :
    Request.t * WebSocketConnectResult * World (A:=nat) := (r, res, w).

Definition always (_ : list (Submission * bool)) (_ : Submission) : bool := true.

Definition start : St (A:=nat) := new_session (bs "peer") (mkWorld 0%nat ∅).

Definition session (res : WebSocketConnectResult) (es : list Event) : St (A:=nat) :=
  Http2.run app_handler (Some (connects res)) false always id es start.

Definition two_requests : list Event :=
  [BeginHeaders 1 true; BeginHeaders 3 true; Header 3 true (bs ":path") (bs "/b"); Header 1 true (bs ":path") (bs "/a");
   FrameRecv 3 HEADERS true true; FrameRecv 1 HEADERS true false; DataChunk 1 (bs "da"); Drain; ReadBody 3 100;
   DataChunk 1 (bs "ta"); StreamClose 3; FrameRecv 1 DATA false true].

Lemma http2_requests_assembled_witness :
  let body := Some ([], [bs "da"; bs "ta"]) in
  restrict 1 two_requests = request_events 1 [(bs ":path", bs "/a")] body ++ closing 1 false /\ body_of body = bs "data" /\
  calls 1 (Http2.run app_handler (Some (connects no_connect)) false always id two_requests (new_session (bs "peer") (mkWorld 0%nat ∅))) =
    [(1, assembled (bs "peer") [(bs ":path", bs "/a")] (body_of body))].
Proof.
  intros body. split; [reflexivity|]. split; [reflexivity|].
  assert (plain [(bs ":path", bs "/a")]) as P by (unfold plain; rewrite list_elem_of_singleton; discriminate).
  destruct (http2_requests_assembled app_handler (Some (connects no_connect)) false always id 1 (bs "peer") (mkWorld 0%nat ∅)
    two_requests [(bs ":path", bs "/a")] body false eq_refl P) as [H _]. exact H.
Defined.

Definition connect_fields : list Event :=
  [BeginHeaders 1 true; Header 1 true (bs ":method") (bs "CONNECT"); Header 1 true (bs ":protocol") (bs "websocket")].

Definition accepting : WebSocketConnectResult := accept echo [] [].

(** A masked text frame of the client. *)
Definition text_hi : bytes :=
  [byte_of_Z 129; byte_of_Z 130; byte_of_Z 0; byte_of_Z 0; byte_of_Z 0; byte_of_Z 0] ++ bs "hi".

Definition tunnel_events : list Event := [DataChunk 1 text_hi; ReadWebSocket 1 3; Drain; ReadWebSocket 1 3].

Definition echo_conn : Connection :=
  new_connection 1 echo [] false (Some (mkBackpressure (max_pending_send_bytes default_limits) 0)).

Lemma websocket_over_http2_witness :
  let st1 := Http2.step app_handler (Some (connects accepting)) false always id (session accepting connect_fields)
               (FrameRecv 1 HEADERS true false) in
  reads app_handler (Some (connects accepting)) false always id 1 tunnel_events st1 =
    [([byte_of_Z 129; byte_of_Z 2] ++ bs "h", false); (bs "i", true)] /\
  exists p s, pipe_run 1 (mkPipe (snd (connection_take_outbound echo_conn)) []) tunnel_events
      (reads app_handler (Some (connects accepting)) false always id 1 tunnel_events st1) p /\
    streams_ (Http2.run app_handler (Some (connects accepting)) false always id tunnel_events st1) !! 1 = Some s /\
    websocket s = Some (conn p) /\ queued s = unread p /\
    websocket_data_submission_active s = bool_decide (unread p <> []).
Proof.
  intros st1. split; [vm_compute; reflexivity|].
  apply (websocket_over_http2 app_handler (Some (connects accepting)) false always id (fun l => Permutation_refl l) 1
    (fun l => eq_refl) (bs "peer") (Request.set_method (bs "CONNECT") (Request.set_peer_address (bs "peer") Request.init))
    (connects accepting) (Request.set_method (bs "CONNECT") (Request.set_peer_address (bs "peer") Request.init))
    echo [] [] (mkWorld 0%nat ∅) (session accepting connect_fields)
    [] (snd (connection_take_outbound echo_conn)) tunnel_events);
    first [repeat constructor; fail | vm_compute; reflexivity].
Defined.

(** ** Runs that go wrong *)

Definition statuses (st : St (A:=nat)) : list (bytes * bytes) :=
  flat_map (fun p => match fst p with SubmitResponse _ (f :: _) => [f] | _ => [] end) (submissions st).

(** The rejection of a WebSocket is handed to the request handler, which runs
    and answers in its place. *)
Lemma rejected_connect_runs_handler :
  let st := session (reject 401 (bs "Unauthorized")) (connect_fields ++ [FrameRecv 1 HEADERS true false]) in
  statuses st = [(bs ":status", bs "200")] /\ app (world st) = 1%nat.
Proof. vm_compute. done. Qed.

(** When the client then ends the stream, the request is handled again and a
    second response submitted. *)
Lemma rejected_connect_handled_twice :
  let st := session (reject 401 (bs "Unauthorized"))
              (connect_fields ++ [FrameRecv 1 HEADERS true false; FrameRecv 1 DATA false true]) in
  len (calls 1 st) = 2 /\ len (responses 1 st) = 2.
Proof. vm_compute. done. Qed.

(** The end of the peer's side of a tunnel is ignored: the connection stays
    open and is not told, and nothing ends the stream. *)
Lemma tunnel_end_ignored :
  let open := session accepting (connect_fields ++ [FrameRecv 1 HEADERS true false]) in
  session accepting (connect_fields ++ [FrameRecv 1 HEADERS true false; FrameRecv 1 DATA false true]) = open /\
  ((fun s => (websocket_active s, closed_ <$> websocket s)) <$> streams_ open !! 1) = Some (true, Some false).
Proof. vm_compute. done. Qed.

(** A closed WebSocket never ends its stream either: the close frame is read
    without the end of the stream. *)
Definition close_frame : bytes :=
  [byte_of_Z 136; byte_of_Z 130; byte_of_Z 0; byte_of_Z 0; byte_of_Z 0; byte_of_Z 0; byte_of_Z 3; byte_of_Z 232].

Lemma closed_tunnel_never_ends :
  let st := session accepting (connect_fields ++ [FrameRecv 1 HEADERS true false; DataChunk 1 close_frame]) in
  fst (websocket_data_source_read_callback 1 100 st) = Read [byte_of_Z 136; byte_of_Z 2; byte_of_Z 3; byte_of_Z 232] true true /\
  ((fun s => closed_ <$> websocket s) <$> streams_ st !! 1) = Some (Some true).
Proof. vm_compute. done. Qed.

(** HEADERS that end the stream of an open tunnel run the request handler. *)
Lemma tunnel_trailers_run_handler :
  let st := session accepting (connect_fields ++ [FrameRecv 1 HEADERS true false; FrameRecv 1 HEADERS true true]) in
  len (calls 1 st) = 1 /\ len (responses 1 st) = 1.
Proof. vm_compute. done. Qed.

End Http2Streams.
