(* ===== verification/Http3.v ===== *)
(** * The HTTP/3 session of the server

    [http3/http3_session.*].  nghttp3 is a parameter: the callbacks it makes and
    the number it returns when it is given stream data, as a function of the
    data it was given before; and whether it takes a response.  The credit the
    session returns to QUIC's flow control is counted.

    [Http3Session] is the session as the QUIC connection uses it, over an
    nghttp3 with a state of its own that calls the session back on the way. *)

From S2P Require Import Prelude CxxString HttpMessage WebSocket WsHandshake Sse Http1.

Module Http3.
Import Http1 (World, mkWorld, app, channels, with_channel).

Record Http3Stream := mkStream {
  request_ : Request.t;
  response_ : Response.t;
  headers_received_ : bool;
  request_complete_ : bool;
  response_submitted_ : bool;
  sse_channel_ : option Z;
  sse_inflight_ : bytes;
  sse_inflight_ack_remaining_ : Z
}.

Definition with_request (r : Request.t) (s : Http3Stream) : Http3Stream :=
  mkStream r (response_ s) (headers_received_ s) (request_complete_ s) (response_submitted_ s)
    (sse_channel_ s) (sse_inflight_ s) (sse_inflight_ack_remaining_ s).
Definition with_response (r : Response.t) (s : Http3Stream) : Http3Stream :=
  mkStream (request_ s) r (headers_received_ s) (request_complete_ s) (response_submitted_ s)
    (sse_channel_ s) (sse_inflight_ s) (sse_inflight_ack_remaining_ s).
Definition mark_headers_received (s : Http3Stream) : Http3Stream :=
  mkStream (request_ s) (response_ s) true (request_complete_ s) (response_submitted_ s)
    (sse_channel_ s) (sse_inflight_ s) (sse_inflight_ack_remaining_ s).
Definition mark_request_complete (s : Http3Stream) : Http3Stream :=
  mkStream (request_ s) (response_ s) (headers_received_ s) true (response_submitted_ s)
    (sse_channel_ s) (sse_inflight_ s) (sse_inflight_ack_remaining_ s).
Definition mark_response_submitted (s : Http3Stream) : Http3Stream :=
  mkStream (request_ s) (response_ s) (headers_received_ s) (request_complete_ s) true
    (sse_channel_ s) (sse_inflight_ s) (sse_inflight_ack_remaining_ s).
Definition with_sse (c : option Z) (inflight : bytes) (remaining : Z) (s : Http3Stream) : Http3Stream :=
  mkStream (request_ s) (response_ s) (headers_received_ s) (request_complete_ s) (response_submitted_ s)
    c inflight remaining.

Definition new_stream (peer : bytes) : Http3Stream :=
  mkStream (Request.set_peer_address peer Request.init) Response.init false false false None [] 0.

(** A response given to nghttp3: the fields, whether there is a reader, and whether it was taken. *)
Record Submission := mkSubmission {
  sub_stream : Z; sub_fields : list (bytes * bytes); sub_reader : bool; sub_ok : bool
}.

Definition is_sse (r : Response.t) : bool := match Response.sse_channel_ r with Some _ => true | None => false end.

(** The content length is set when there is a body. *)
Definition with_content_length (r : Response.t) : Response.t :=
  if negb (is_sse r) && negb (HeaderMap.has (bs "content-length") (Response.headers_ r)) && (0 <? Response.body_size r)
  then Response.with_headers (HeaderMap.set (bs "content-length") (to_dec (Response.body_size r)) (Response.headers_ r)) r
  else r.

Definition response_fields (r : Response.t) : list (bytes * bytes) :=
  (bs ":status", to_dec (Response.status_code_ r)) ::
  map (fun e => (HeaderMap.name e, HeaderMap.value e)) (Response.headers_ r).

Definition has_reader (r : Response.t) : bool := (0 <? Response.body_size r) || is_sse r.

(** What nghttp3 calls while it reads. *)
Inductive Callback :=
| RecvHeader (sid : Z) (name value : bytes)
| EndHeaders (sid : Z)
| RecvData (sid : Z) (data : bytes)
| EndStream (sid : Z)
| DeferredConsume (sid n : Z)
| AckedData (sid n : Z).

(** Stream data given to nghttp3. *)
Record Fed := mkFed { fed_stream : Z; fed_data : bytes; fed_fin : bool }.

Section WithCallbacks.
Context {A : Type}.
Abbreviation World := (World (A:=A)).

Context (handler_ : option (Request.t -> Response.t -> World -> Request.t * Response.t * World)).
(** A wake-up is installed on every channel; whether it does anything is the QUIC connection's. *)
Context (takes : list Submission -> Z -> bool).
(** [nghttp3_conn_read_stream]: its callbacks and, unless it fails, its result. *)
Context (read_stream : list Fed -> Fed -> list Callback * option Z).

Record St := mkSt {
  streams_ : gmap Z Http3Stream;
  stream_read_offsets_ : gmap Z Z;
  peer_address_ : bytes;
  world : World;
  submissions : list Submission;
  handled : list (Z * Request.t);
  fed : list Fed;
  (** Credit returned, per stream and for the connection; streams resumed. *)
  stream_credit : gmap Z Z;
  connection_credit : Z;
  resumed : list Z
}.

Definition new_session (peer : bytes) (w : World) : St := mkSt ∅ ∅ peer w [] [] [] ∅ 0 [].

Definition put (sid : Z) (s : Http3Stream) (st : St) : St :=
  mkSt (<[sid := s]> (streams_ st)) (stream_read_offsets_ st) (peer_address_ st) (world st) (submissions st)
    (handled st) (fed st) (stream_credit st) (connection_credit st) (resumed st).
Definition erase (sid : Z) (st : St) : St :=
  mkSt (delete sid (streams_ st)) (delete sid (stream_read_offsets_ st)) (peer_address_ st) (world st)
    (submissions st) (handled st) (fed st) (stream_credit st) (connection_credit st) (resumed st).
Definition set_offset (sid o : Z) (st : St) : St :=
  mkSt (streams_ st) (<[sid := o]> (stream_read_offsets_ st)) (peer_address_ st) (world st) (submissions st)
    (handled st) (fed st) (stream_credit st) (connection_credit st) (resumed st).
Definition set_world (w : World) (st : St) : St :=
  mkSt (streams_ st) (stream_read_offsets_ st) (peer_address_ st) w (submissions st) (handled st) (fed st)
    (stream_credit st) (connection_credit st) (resumed st).
Definition add_submission (x : Submission) (st : St) : St :=
  mkSt (streams_ st) (stream_read_offsets_ st) (peer_address_ st) (world st) (submissions st ++ [x]) (handled st)
    (fed st) (stream_credit st) (connection_credit st) (resumed st).
Definition call_handler (sid : Z) (r : Request.t) (st : St) : St :=
  mkSt (streams_ st) (stream_read_offsets_ st) (peer_address_ st) (world st) (submissions st)
    (handled st ++ [(sid, r)]) (fed st) (stream_credit st) (connection_credit st) (resumed st).
Definition add_fed (f : Fed) (st : St) : St :=
  mkSt (streams_ st) (stream_read_offsets_ st) (peer_address_ st) (world st) (submissions st) (handled st)
    (fed st ++ [f]) (stream_credit st) (connection_credit st) (resumed st).
(** [ngtcp2_conn_extend_max_stream_offset] and [ngtcp2_conn_extend_max_offset] *)
Definition extend (sid n : Z) (st : St) : St :=
  mkSt (streams_ st) (stream_read_offsets_ st) (peer_address_ st) (world st) (submissions st) (handled st) (fed st)
    (<[sid := default 0 (stream_credit st !! sid) + n]> (stream_credit st)) (connection_credit st + n) (resumed st).
(** [nghttp3_conn_resume_stream] *)
Definition resume (sid : Z) (st : St) : St :=
  mkSt (streams_ st) (stream_read_offsets_ st) (peer_address_ st) (world st) (submissions st) (handled st) (fed st)
    (stream_credit st) (connection_credit st) (resumed st ++ [sid]).

(** ** Responses *)

Definition submit_response (sid : Z) (st : St) : St :=
  match streams_ st !! sid with
  | None => st
  | Some s =>
      if response_submitted_ s then st
      else
        let res := response_ s in
        let sse := Response.sse_channel_ res in
        let res := with_content_length res in
        let s := with_response res s in
        let ok := takes (submissions st) sid in
        let st := add_submission (mkSubmission sid (response_fields res) (has_reader res) ok) (put sid s st) in
        if negb ok then st
        else
          let s := mark_response_submitted s in
          match sse with
          | None => put sid s st
          | Some c =>
              put sid (with_sse (Some c) (sse_inflight_ s) (sse_inflight_ack_remaining_ s) s)
                (set_world (with_channel (Some c) (Sse.set_wakeup true) (world st)) st)
          end
  end.

(** ** nghttp3's callbacks *)

Definition get_or_create_stream (sid : Z) (st : St) : Http3Stream * St :=
  match streams_ st !! sid with
  | Some s => (s, st)
  | None => let s := new_stream (peer_address_ st) in (s, put sid s st)
  end.

Definition request_field (name value : bytes) (r : Request.t) : Request.t :=
  if starts_with (bs ":") name then
    if bool_decide (name = bs ":method") then Request.set_method value r
    else if bool_decide (name = bs ":path") then Request.set_path value r
    else if bool_decide (name = bs ":scheme") then Request.set_scheme value r
    else if bool_decide (name = bs ":authority") then Request.set_authority value r
    else r
  else Request.set_headers (HeaderMap.add name value (Request.headers_ r)) r.

Definition on_recv_header (sid : Z) (name value : bytes) (st : St) : St :=
  let '(s, st) := get_or_create_stream sid st in put sid (with_request (request_field name value (request_ s)) s) st.

Definition on_end_headers (sid : Z) (st : St) : St :=
  match streams_ st !! sid with
  | None => st
  | Some s => put sid (mark_headers_received (with_request (Request.mark_headers_complete (request_ s)) s)) st
  end.

Definition on_recv_data (sid : Z) (data : bytes) (st : St) : St :=
  match streams_ st !! sid with
  | None => st
  | Some s => put sid (with_request (Request.append_body data (request_ s)) s) st
  end.

Definition on_end_stream (sid : Z) (st : St) : St :=
  match streams_ st !! sid with
  | None => st
  | Some s =>
      let s := mark_request_complete (with_request (Request.mark_body_complete (request_ s)) s) in
      match handler_ with
      | None => put sid s st
      | Some f =>
          let '(req, res, w) := f (request_ s) (response_ s) (world st) in
          submit_response sid
            (put sid (with_response res (with_request req s)) (set_world w (call_handler sid (request_ s) st)))
      end
  end.

Definition resume_sse_stream (sid : Z) (st : St) : St :=
  match streams_ st !! sid with
  | Some s => match sse_channel_ s with Some _ => resume sid st | None => st end
  | None => st
  end.

Definition on_acked_stream_data_cb (sid datalen : Z) (st : St) : St :=
  match streams_ st !! sid with
  | None => st
  | Some s =>
      let s := with_response (Response.add_bytes_sent datalen (response_ s)) s in
      match sse_channel_ s with
      | Some c =>
          if 0 <? sse_inflight_ack_remaining_ s then
            let remaining := if sse_inflight_ack_remaining_ s <=? datalen then 0
                             else sse_inflight_ack_remaining_ s - datalen in
            if remaining =? 0 then resume_sse_stream sid (put sid (with_sse (Some c) [] 0 s) st)
            else put sid (with_sse (Some c) (sse_inflight_ s) remaining s) st
          else put sid s st
      | None => put sid s st
      end
  end.

Definition on_deferred_consume (sid n : Z) (st : St) : St := extend sid n st.

Definition callback (st : St) (c : Callback) : St :=
  match c with
  | RecvHeader sid n v => on_recv_header sid n v st
  | EndHeaders sid => on_end_headers sid st
  | RecvData sid d => on_recv_data sid d st
  | EndStream sid => on_end_stream sid st
  | DeferredConsume sid n => on_deferred_consume sid n st
  | AckedData sid n => on_acked_stream_data_cb sid n st
  end.

(** ** Stream data from QUIC *)

(** nghttp3 reads; [None] is an error, which leaves what the callbacks did. *)
Definition nghttp3_read (f : Fed) (st : St) : option Z * St :=
  let '(cbs, n) := read_stream (fed st) f in (n, foldl callback (add_fed f st) cbs).

(** The result, and the session.  [offset] and the length are 64-bit. *)
Definition on_stream_data (sid offset : Z) (data : bytes) (fin : bool) (st : St) : Z * St :=
  if (len data =? 0) && negb fin then (0, st)
  else
    let current := default 0 (stream_read_offsets_ st !! sid) in
    let st := set_offset sid current st in
    if wrap64 (offset + len data) <=? current then
      if fin then
        match nghttp3_read (mkFed sid [] true) st with
        | (None, st) => (-1, st)
        | (Some _, st) => (0, st)
        end
      else (0, st)
    else
      let skip := if offset <? current then current - offset else 0 in
      let data := drop (Z.to_nat skip) data in
      let offset := if offset <? current then current else offset in
      match nghttp3_read (mkFed sid data fin) st with
      | (None, st) => (-1, st)
      | (Some n, st) => (0, extend sid n (set_offset sid (wrap64 (offset + len data)) st))
      end.

(** [on_stream_close] once nghttp3 has closed the stream. *)
Definition on_stream_close (sid : Z) (st : St) : St :=
  let st := match streams_ st !! sid with
            | Some s => set_world (with_channel (sse_channel_ s) (fun c => Sse.close (Sse.set_wakeup false c)) (world st)) st
            | None => st
            end in
  erase sid st.

(** [~Http3Session] *)
Definition destroy_session (st : St) : World :=
  foldl (fun w p => with_channel (sse_channel_ (snd p)) (fun c => Sse.close (Sse.set_wakeup false c)) w)
    (world st) (map_to_list (streams_ st)).

(** ** Reading the response *)

Inductive ReadResult :=
| WouldBlock
| Chunk (base : bytes) (eof : bool)
| NoChunk (eof : bool)
| OutOfBounds.

(** [on_read_data]: the chunk stays where it is until it is acknowledged. *)
Definition on_read_data (sid : Z) (st : St) : ReadResult * St :=
  match streams_ st !! sid with
  | None => (NoChunk true, st)
  | Some s =>
      match sse_channel_ s with
      | Some i =>
          if 0 <? sse_inflight_ack_remaining_ s then (WouldBlock, st)
          else
            match channels (world st) !! i with
            | None => (WouldBlock, st)
            | Some ch =>
                match Sse.take_next ch with
                | (None, ch') => if Sse.closed_ ch' then (NoChunk true, st) else (WouldBlock, st)
                | (Some ev, ch') =>
                    (Chunk ev false,
                     put sid (with_sse (Some i) ev (len ev) s)
                       (set_world (mkWorld (app (world st)) (<[i := ch']> (channels (world st)))) st))
                end
            end
      | None =>
          let res := response_ s in
          let provided := Response.bytes_provided_ res in
          if Response.body_size res <? provided then (OutOfBounds, st)
          else
            let rest := drop (Z.to_nat provided) (Response.body_ res) in
            if 0 <? len rest
            then (Chunk rest true, put sid (with_response (Response.add_bytes_provided (len rest) res) s) st)
            else (NoChunk true, st)
      end
  end.

(** ** Runs of the callbacks *)

Inductive Event :=
| Cb (c : Callback)
| ReadData (sid : Z)
| StreamClose (sid : Z).

Definition step (st : St) (e : Event) : St :=
  match e with
  | Cb c => callback st c
  | ReadData sid => snd (on_read_data sid st)
  | StreamClose sid => on_stream_close sid st
  end.

Definition run (es : list Event) (st : St) : St := foldl step st es.

End WithCallbacks.
End Http3.

(** * The session over nghttp3 *)
Module Http3Session.
Import Http3.

(** A call into nghttp3, with a connection of type [B] and a result of type
    [R].  It calls the session, which may call nghttp3 from there, and it
    reads the body of a response. *)
Inductive Nested (B R : Type) :=
| Finished (r : R) (b : B)
| Calls (b : B) (c : Callback) (k : B -> Nested B R)
| Reads (sid : Z) (k : ReadResult -> Nested B R).
Arguments Finished {B R}.
Arguments Calls {B R}.
Arguments Reads {B R}.

Definition NGHTTP3_ERR_STREAM_NOT_FOUND : Z := -108.

Class Nghttp3 (N B : Type) := {
  (** [nghttp3_conn_server_new] with the control and QPACK streams bound *)
  conn_server_new : N -> option B;
  conn_read_stream : Z -> bytes -> bool -> B -> Nested B Z;
  conn_close_stream : Z -> Z -> B -> Nested B Z;
  conn_add_ack_offset : Z -> Z -> B -> Nested B Z;
  conn_unblock_stream : Z -> B -> Z * B;
  conn_resume_stream : Z -> B -> B;
  (** Whether a response is taken, and the connection that has it. *)
  conn_takes_response : Z -> B -> bool;
  conn_submit_response : Z -> list (bytes * bytes) -> bool -> B -> B;
  (** The stream, whether it ends and its data; [None]: negative. *)
  conn_writev_stream : B -> Nested B (option (Z * bool * bytes));
  conn_add_write_offset : Z -> Z -> B -> Z * B
}.

Section OverNghttp3.
Context {A N B : Type} `{!Nghttp3 N B}.
Abbreviation World := (Http1.World (A:=A)).
Abbreviation St := (Http3.St (A:=A)).
Context (handler_ : option (Request.t -> Response.t -> World -> Request.t * Response.t * World)).
(** What the application and its event producers did since the session was
    last entered; the address of the peer. *)
Context (elapse : World -> World) (peer : N -> bytes) (world0 : World).

(** nghttp3's connection, and the rest of the session. *)
Record t := mk { conn_ : B; session : St }.

(** The calls into nghttp3 that the session made: at most one in a callback. *)
Definition made (before after : St) (b : B) : B :=
  let b := foldl (fun b x => if sub_ok x then conn_submit_response (sub_stream x) (sub_fields x) (sub_reader x) b else b) b
    (drop (length (submissions before)) (submissions after)) in
  foldl (fun b sid => conn_resume_stream sid b) b (drop (length (resumed before)) (resumed after)).

Definition callback (c : Callback) (b : B) (st : St) : B * St :=
  let st' := Http3.callback handler_ (fun _ sid => conn_takes_response sid b) st c in (made st st' b, st').

(** A call into nghttp3 with the callbacks of the session. *)
Fixpoint nested {R} (call : Nested B R) (st : St) : R * t :=
  match call with
  | Finished r b => (r, mk b st)
  | Calls b c k => let '(b, st) := callback c b st in nested (k b) st
  | Reads sid k => let '(a, st) := on_read_data sid st in nested (k a) st
  end.

Definition entered (h : t) : t := mk (conn_ h) (set_world (elapse (world (session h))) (session h)).

(** The credit that was returned to QUIC, by stream. *)
Definition asked (before after : St) : list (Z * Z) :=
  omap (fun '(sid, n) => let n := n - default 0 (stream_credit before !! sid) in if n =? 0 then None else Some (sid, n))
    (map_to_list (stream_credit after)).

Definition create (n : N) : option t := (fun b => mk b (new_session (peer n) world0)) <$> conn_server_new n.

Definition read_stream (sid : Z) (data : bytes) (fin : bool) (h : t) : Z * t :=
  nested (conn_read_stream sid data fin (conn_ h)) (session h).

Definition on_session (f : St -> St) (h : t) : t := mk (conn_ h) (f (session h)).

Definition receive (sid offset : Z) (data : bytes) (fin : bool) (h : t) : Z * t :=
  if (len data =? 0) && negb fin then (0, h)
  else
    let current := default 0 (stream_read_offsets_ (session h) !! sid) in
    let h := on_session (set_offset sid current) h in
    if wrap64 (offset + len data) <=? current then
      if fin then let '(nread, h) := read_stream sid [] true h in ((if nread <? 0 then -1 else 0), h)
      else (0, h)
    else
      let skip := if offset <? current then current - offset else 0 in
      let data := drop (Z.to_nat skip) data in
      let offset := if offset <? current then current else offset in
      let '(nread, h) := read_stream sid data fin h in
      if nread <? 0 then (-1, h)
      else (0, on_session (fun st => extend sid nread (set_offset sid (wrap64 (offset + len data)) st)) h).

Definition on_stream_data (sid offset : Z) (data : bytes) (fin : bool) (h : t) : Z * list (Z * Z) * t :=
  let h := entered h in
  let '(rv, h') := receive sid offset data fin h in (rv, asked (session h) (session h'), h').

Definition on_stream_close (sid code : Z) (h : t) : Z * list (Z * Z) * t :=
  let h := entered h in
  let '(rv, h') := nested (conn_close_stream sid code (conn_ h)) (session h) in
  let rest := asked (session h) (session h') in
  if negb (rv =? 0) && negb (rv =? NGHTTP3_ERR_STREAM_NOT_FOUND) then (-1, rest, h')
  else (0, rest, on_session (Http3.on_stream_close sid) h').

Definition on_acked_stream_data (sid offset datalen : Z) (h : t) : Z * list (Z * Z) * t :=
  let h := entered h in
  let '(rv, h') := nested (conn_add_ack_offset sid datalen (conn_ h)) (session h) in
  ((if rv =? 0 then 0 else -1), asked (session h) (session h'), h').

Definition on_extend_max_stream_data (sid : Z) (h : t) : Z * list (Z * Z) * t :=
  let '(rv, b) := conn_unblock_stream sid (conn_ h) in
  ((if negb (rv =? 0) && negb (rv =? NGHTTP3_ERR_STREAM_NOT_FOUND) then -1 else 0), [], mk b (session h)).

Definition get_stream_data (h : t) : option (Z * bool * bytes) * t :=
  let h := entered h in nested (conn_writev_stream (conn_ h)) (session h).

Definition add_write_offset (sid datalen : Z) (h : t) : t :=
  mk (snd (conn_add_write_offset sid datalen (conn_ h))) (session h).

Definition resume_sse_stream (sid : Z) (h : t) : t :=
  let h := entered h in
  let st' := Http3.resume_sse_stream sid (session h) in mk (made (session h) st' (conn_ h)) st'.

End OverNghttp3.
End Http3Session.
