(* ===== verification/Http3Props.v ===== *)
(** * The HTTP/3 session: stream data once, requests assembled, events kept until acknowledged *)

From S2P Require Import Prelude CxxString HttpMessage WebSocket WsHandshake Sse Http1 Http3.
Import Http3.

Module Http3Props.
Import Http1 (World, mkWorld, app, channels, with_channel).

Section Session.
Context {A : Type}.
Abbreviation World := (World (A:=A)).
Abbreviation St := (St (A:=A)).
Context (handler_ : option (Request.t -> Response.t -> World -> Request.t * Response.t * World)).
Context (takes : list Submission -> Z -> bool).
Context (read_stream : list Fed -> Fed -> list Callback * option Z).

Abbreviation callback := (callback handler_ takes).
Abbreviation on_stream_data := (on_stream_data handler_ takes read_stream).

(** ** Stream data *)

(** What nghttp3 was given of a stream, and how far it is. *)
Definition given (sid : Z) (st : St) : bytes :=
  concat (map fed_data (List.filter (fun f => bool_decide (fed_stream f = sid)) (fed st))).
Definition reached (sid : Z) (st : St) : Z := default 0 (stream_read_offsets_ st !! sid).

(** The callbacks leave both alone. *)
Definition transport (st : St) := (fed st, stream_read_offsets_ st).

Lemma submit_transport sid st : transport (submit_response takes sid st) = transport st.
Proof. unfold submit_response. by repeat case_match. Qed.

Lemma callback_transport c st : transport (callback st c) = transport st.
Proof.
  destruct c; cbn [Http3.callback]; unfold on_recv_header, get_or_create_stream, on_end_headers, on_recv_data, on_end_stream,
    on_acked_stream_data_cb, resume_sse_stream; repeat case_match; simplify_eq; try done; by rewrite submit_transport.
Qed.

Lemma callbacks_transport cs st : transport (foldl callback st cs) = transport st.
Proof. revert st. induction cs as [|c cs IH]; intros st; [done|]. cbn. by rewrite IH, callback_transport. Qed.

Lemma read_transport f st : transport (snd (nghttp3_read handler_ takes read_stream f st)) = (fed st ++ [f], stream_read_offsets_ st).
Proof. unfold nghttp3_read. destruct (read_stream _ _). cbn [snd]. by rewrite callbacks_transport. Qed.

(** A piece of stream data from QUIC. *)
Record Piece := mkPiece { pc_stream : Z; pc_offset : Z; pc_data : bytes; pc_fin : bool }.

Definition deliver (st : St) (p : Piece) : St := snd (on_stream_data (pc_stream p) (pc_offset p) (pc_data p) (pc_fin p) st).

Context (sid : Z) (stream : bytes).

(** The pieces of the stream are parts of it and leave no gap; those of others are arbitrary. *)
Fixpoint in_order (at_ : Z) (ps : list Piece) : Prop :=
  match ps with
  | [] => True
  | p :: ps' =>
      if decide (pc_stream p = sid)
      then 0 <= pc_offset p <= at_ /\ pc_offset p + len (pc_data p) <= len stream /\
           pc_data p = take (length (pc_data p)) (drop (Z.to_nat (pc_offset p)) stream) /\
           in_order (Z.max at_ (pc_offset p + len (pc_data p))) ps'
      else in_order at_ ps'
  end.

Fixpoint extent (at_ : Z) (ps : list Piece) : Z :=
  match ps with
  | [] => at_
  | p :: ps' => extent (if decide (pc_stream p = sid) then Z.max at_ (pc_offset p + len (pc_data p)) else at_) ps'
  end.

Definition prefix_given (n : Z) (st : St) : Prop :=
  reached sid st = n /\ 0 <= n <= len stream /\ given sid st = take (Z.to_nat n) stream.

Lemma transport_split (st : St) f o : transport st = (f, o) -> fed st = f /\ stream_read_offsets_ st = o.
Proof. by intros [= -> ->]. Qed.

Lemma given_app st f : fed_stream f = sid -> concat (map fed_data (List.filter (fun f => bool_decide (fed_stream f = sid)) (fed st ++ [f]))) =
  given sid st ++ fed_data f.
Proof. intros E. unfold given. rewrite List.filter_app, map_app, concat_app. cbn. rewrite bool_decide_true by done. cbn. by rewrite app_nil_r. Qed.

Lemma given_other (st : St) f : fed_stream f <> sid ->
  List.filter (fun f => bool_decide (fed_stream f = sid)) (fed st ++ [f]) = List.filter (fun f => bool_decide (fed_stream f = sid)) (fed st).
Proof. intros N. rewrite List.filter_app. cbn. by rewrite bool_decide_false, app_nil_r. Qed.

Lemma deliver_other n p st : pc_stream p <> sid -> prefix_given n st -> prefix_given n (deliver st p).
Proof.
  intros N (R & B & G). unfold deliver, on_stream_data.
  assert (forall st' : St, stream_read_offsets_ st' !! sid = stream_read_offsets_ st !! sid ->
    List.filter (fun f => bool_decide (fed_stream f = sid)) (fed st') = List.filter (fun f => bool_decide (fed_stream f = sid)) (fed st) ->
    prefix_given n st') as K.
  { intros st' E1 E2. unfold prefix_given, reached, given in *. by rewrite E1, E2. }
  case_match; [done|]. cbv zeta. set (st0 := set_offset _ _ st).
  assert (stream_read_offsets_ st0 !! sid = stream_read_offsets_ st !! sid) as E0 by (cbn; by rewrite lookup_insert_ne).
  assert (forall f, fed_stream f = pc_stream p -> let st' := snd (nghttp3_read handler_ takes read_stream f st0) in
    stream_read_offsets_ st' !! sid = stream_read_offsets_ st !! sid /\
    List.filter (fun f => bool_decide (fed_stream f = sid)) (fed st') = List.filter (fun f => bool_decide (fed_stream f = sid)) (fed st)) as Rd.
  { intros f Ef. cbv zeta. destruct (transport_split _ _ _ (read_transport f st0)) as [-> ->]. split; [done|]. apply (given_other st). congruence. }
  case_match; [case_match; [|by apply K]|].
  - destruct (Rd (mkFed (pc_stream p) [] true) eq_refl). destruct (nghttp3_read _ _ _ _ st0) as [[?|] ?]; by apply K.
  - match goal with |- context [nghttp3_read _ _ _ ?f st0] => destruct (Rd f eq_refl) as [R1 R2]; destruct (nghttp3_read _ _ _ f st0) as [[?|] ?] end;
      cbn [snd] in *; apply K; cbn; rewrite ?lookup_insert_ne by done; done.
Qed.

(** nghttp3 does not fail. *)
Context (Hread : forall h f, snd (read_stream h f) <> None).

Lemma read_ok f st : exists n st', nghttp3_read handler_ takes read_stream f st = (Some n, st') /\
  fed st' = fed st ++ [f] /\ stream_read_offsets_ st' = stream_read_offsets_ st.
Proof using Hread.
  pose proof (read_transport f st) as T. apply transport_split in T as [T1 T2]. unfold nghttp3_read in *.
  specialize (Hread (fed st) f). destruct (read_stream (fed st) f) as [cbs [n|]]; [|done]. by eauto.
Qed.

Lemma deliver_same n p st : pc_stream p = sid -> len stream < 2 ^ 64 -> 0 <= pc_offset p <= n ->
  pc_offset p + len (pc_data p) <= len stream ->
  pc_data p = take (length (pc_data p)) (drop (Z.to_nat (pc_offset p)) stream) ->
  prefix_given n st -> prefix_given (Z.max n (pc_offset p + len (pc_data p))) (deliver st p).
Proof using Hread.
  intros E L O1 O2 D (R & B & G). unfold deliver, on_stream_data. rewrite E. set (d := pc_data p) in *. set (o := pc_offset p) in *.
  assert (0 <= len d) as Ld by (unfold len; lia).
  assert (wrap64 (o + len d) = o + len d) as Hw by (apply wrap64_small; unfold in_u64; lia).
  destruct ((len d =? 0) && negb (pc_fin p)) eqn:Z0.
  { to_prop. rewrite Z.max_l by lia. exact (conj R (conj B G)). }
  cbv zeta. fold (reached sid st). rewrite R, Hw. set (st0 := set_offset sid n st).
  assert (forall st' : St, stream_read_offsets_ st' = stream_read_offsets_ st0 -> given sid st' = given sid st -> o + len d <= n ->
    prefix_given (Z.max n (o + len d)) st') as K.
  { intros st' E1 E2 Hn. rewrite Z.max_l by lia. split_and!; [|lia|lia|congruence]. unfold reached. rewrite E1. cbn. by rewrite lookup_insert_eq. }
  destruct (Z.leb_spec (o + len d) n).
  { destruct (pc_fin p); [|by apply K]. destruct (read_ok (mkFed sid [] true) st0) as (k & st' & -> & F & Of). cbn [snd].
    apply K; [done| |done]. unfold given at 1. rewrite F, given_app by done. cbn. by rewrite app_nil_r. }
  rewrite Z.max_r by lia.
  assert (drop (Z.to_nat (if o <? n then n - o else 0)) d = take (Z.to_nat (o + len d - n)) (drop (Z.to_nat n) stream)) as Hd.
  { rewrite D at 1. rewrite skipn_firstn_comm, drop_drop. f_equal; [unfold len in *; destruct (Z.ltb_spec o n); lia|].
    f_equal. destruct (Z.ltb_spec o n); lia. }
  rewrite Hd. set (d' := take _ (drop (Z.to_nat n) stream)).
  assert (len d' = o + len d - n) as Ld' by (unfold d', len; rewrite length_take, length_drop; unfold len in *; lia).
  assert ((if o <? n then n else o) = n) as -> by (destruct (Z.ltb_spec o n); lia).
  destruct (read_ok (mkFed sid d' (pc_fin p)) st0) as (k & st' & -> & F & Of). cbn [snd].
  assert (n + len d' = o + len d) as Hs by lia. rewrite Hs, Hw.
  split_and!; [unfold reached; cbn; by rewrite lookup_insert_eq|lia|lia|].
  change (given sid st' = take (Z.to_nat (o + len d)) stream). unfold given. rewrite F, given_app by done. cbn [fed_data].
  change (given sid st0) with (given sid st). rewrite G. unfold d'.
  replace (Z.to_nat (o + len d)) with (Z.to_nat n + Z.to_nat (o + len d - n))%nat by lia.
  by rewrite take_take_drop.
Qed.

(** [C27] QUIC may deliver a stream in pieces that overlap or repeat what it has
    delivered, mixed with those of other streams: nghttp3 is given each byte of
    it once, in order, up to the furthest one. *)
Theorem http3_stream_data_once w peer ps (Hlen : len stream < 2 ^ 64) (Hps : in_order 0 ps) :
  let st := foldl deliver (new_session peer w) ps in
  given sid st = take (Z.to_nat (extent 0 ps)) stream /\ reached sid st = extent 0 ps.
Proof using Hread.
  assert (forall n st, prefix_given n st -> in_order n ps -> prefix_given (extent n ps) (foldl deliver st ps)) as I.
  { clear Hps. induction ps as [|p ps IH]; intros n st H O; [done|]. cbn in *. destruct (decide (pc_stream p = sid)) as [E|N].
    - destruct O as (O1 & O2 & D & O). apply IH; [|done]. by apply deliver_same.
    - apply IH; [by apply deliver_other|done]. }
  destruct (I 0 (new_session peer w)) as (R & _ & G); [|done|done].
  split_and!; try done. unfold len. lia.
Qed.

End Session.

(** ** Requests *)

Section Requests.
Context {A : Type}.
Abbreviation World := (World (A:=A)).
Abbreviation St := (St (A:=A)).
Context (handle : Request.t -> Response.t -> World -> Request.t * Response.t * World).
Context (takes : list Submission -> Z -> bool).
Abbreviation step := (step (Some handle) takes).
Abbreviation run := (run (Some handle) takes).

Section Stream.
Context (sid : Z).

Definition calls (st : St) : list (Z * Request.t) := List.filter (fun p => bool_decide (fst p = sid)) (handled st).
Definition responses (st : St) : list Submission := List.filter (fun x => bool_decide (sub_stream x = sid)) (submissions st).
Definition view (st : St) := (streams_ st !! sid, peer_address_ st, calls st, responses st).

Definition event_stream (e : Event) : Z :=
  match e with
  | Cb (RecvHeader i _ _) | Cb (EndHeaders i) | Cb (RecvData i _) | Cb (EndStream i)
  | Cb (DeferredConsume i _) | Cb (AckedData i _) | ReadData i | StreamClose i => i
  end.

Lemma h3_view_put i s st : i <> sid -> view (put i s st) = view st.
Proof. intros N. unfold view. cbn. by rewrite lookup_insert_ne. Qed.

Lemma view_submission x st : sub_stream x <> sid -> view (add_submission x st) = view st.
Proof. intros N. unfold view, responses. cbn. rewrite List.filter_app. cbn. by rewrite bool_decide_false, app_nil_r. Qed.

Lemma view_call i r st : i <> sid -> view (call_handler i r st) = view st.
Proof. intros N. unfold view, calls. cbn. rewrite List.filter_app. cbn. by rewrite bool_decide_false, app_nil_r. Qed.

Lemma view_world w st : view (set_world w st) = view st.
Proof. done. Qed.

Lemma view_resume i st : view (resume i st) = view st.
Proof. done. Qed.

Lemma h3_view_submit i st : i <> sid -> view (submit_response takes i st) = view st.
Proof.
  intros N. unfold submit_response. repeat case_match; try done; rewrite ?h3_view_put, ?view_world, view_submission, ?h3_view_put by done; done.
Qed.

Lemma h3_elsewhere_step st e : event_stream e <> sid -> view (step st e) = view st.
Proof.
  intros N. destruct e as [c|i|i]; cbn [Http3.step event_stream] in *.
  - destruct c; cbn [callback]; unfold on_recv_header, get_or_create_stream, on_end_headers, on_recv_data, on_end_stream,
      on_acked_stream_data_cb, resume_sse_stream, on_deferred_consume; repeat case_match; simplify_eq; try done;
      rewrite ?view_resume, ?h3_view_submit, ?h3_view_put, ?view_world, ?view_call, ?h3_view_put by done; done.
  - unfold on_read_data. repeat case_match; try done; cbn [snd]; by rewrite h3_view_put.
  - unfold on_stream_close. case_match; unfold view; cbn; by rewrite lookup_delete_ne.
Qed.

(** From a state in [P], a run whose events of this stream are [es] ends in [Q]. *)
Definition restrict (es : list Event) : list Event := List.filter (fun e => bool_decide (event_stream e = sid)) es.

Definition leads (P : St -> Prop) (es : list Event) (Q : St -> Prop) : Prop :=
  forall all st, restrict all = es -> P st -> Q (run all st).

Definition local (P : St -> Prop) : Prop := forall st st', view st' = view st -> P st -> P st'.

Lemma h3_leads_nil P : local P -> leads P [] P.
Proof.
  intros S all. induction all as [|e all IH]; intros st R H; [done|]. cbn in R. case_bool_decide as E; [done|].
  apply IH; [done|]. eapply S; [by apply h3_elsewhere_step|done].
Qed.

Lemma h3_leads_cons P e es Q R : local P -> (forall st, P st -> Q (step st e)) -> leads Q es R -> leads P (e :: es) R.
Proof.
  intros S H L all. induction all as [|e' all IH]; intros st E HP; [done|]. cbn in E. case_bool_decide as Ei.
  - injection E as -> E. by apply (L all), H.
  - apply IH; [done|]. eapply S; [by apply h3_elsewhere_step|done].
Qed.

Context (peer : bytes).

Definition fresh (st : St) : Prop := view st = (None, peer, [], []).
Definition assembling (s : Http3Stream) (st : St) : Prop := view st = (Some s, peer, [], []).

(** The answer of the application. *)
Definition answer (r : Request.t) (w : World) : Response.t := with_content_length (handle r Response.init w).1.2.

Definition answered (r : Request.t) (st : St) : Prop :=
  calls st = [(sid, r)] /\
  exists w ok, responses st = [mkSubmission sid (response_fields (answer r w)) (has_reader (answer r w)) ok].

Lemma fresh_local : local fresh.
Proof. unfold local, fresh. congruence. Qed.
Lemma assembling_local s : local (assembling s).
Proof. unfold local, assembling. congruence. Qed.
Lemma answered_local r : local (answered r).
Proof. intros st st' V (C & w & ok & R). injection V as _ _ V1 V2. split; [congruence|]. exists w, ok. congruence. Qed.

(** A request: its fields, at least one, and the pieces of its body. *)
Definition request_events (fields : list (bytes * bytes)) (chunks : list bytes) : list Event :=
  map (fun f => Cb (RecvHeader sid (fst f) (snd f))) fields ++ Cb (EndHeaders sid) ::
  map (fun d => Cb (RecvData sid d)) chunks ++ [Cb (EndStream sid)].

(** The request they stand for. *)
Definition assembled (fields : list (bytes * bytes)) (body : bytes) : Request.t :=
  let r := foldl (fun r f => request_field (fst f) (snd f) r) (Request.set_peer_address peer Request.init) fields in
  Request.mark_body_complete (Request.append_body body (Request.mark_headers_complete r)).

Definition receiving (r : Request.t) : Http3Stream := with_request r (new_stream peer).

Lemma put_assembling s s' st : assembling s st \/ fresh st -> assembling s' (put sid s' st).
Proof. intros [H|H]; injection H as _ H1 H2 H3; unfold assembling, view; cbn; rewrite lookup_insert_eq; unfold calls, responses in *; cbn; congruence. Qed.

Lemma assembling_stream s st : assembling s st -> streams_ st !! sid = Some s /\ peer_address_ st = peer.
Proof. intros H. by injection H as -> -> _ _. Qed.

Lemma leads_fields fields r es Q :
  leads (assembling (receiving (foldl (fun r f => request_field (fst f) (snd f) r) r fields))) es Q ->
  leads (assembling (receiving r)) (map (fun f => Cb (RecvHeader sid (fst f) (snd f))) fields ++ es) Q.
Proof.
  revert r. induction fields as [|[n v] fields IH]; intros r L; [done|]. cbn [map app].
  eapply h3_leads_cons; [apply assembling_local| |by apply (IH (request_field n v r))].
  intros st H. destruct (assembling_stream _ _ H) as [E _]. cbn. unfold on_recv_header, get_or_create_stream. rewrite E.
  eapply (put_assembling (receiving r)). by left.
Qed.

Lemma h3_leads_chunks chunks r es Q :
  leads (assembling (mark_headers_received (receiving (Request.append_body (concat chunks) r)))) es Q ->
  leads (assembling (mark_headers_received (receiving r))) (map (fun d => Cb (RecvData sid d)) chunks ++ es) Q.
Proof.
  revert r. induction chunks as [|c chunks IH]; intros r L; cbn [map app concat] in *.
  - unfold Request.append_body in L. rewrite app_nil_r in L. by destruct r.
  - eapply h3_leads_cons; [apply assembling_local| |apply (IH (Request.append_body c r))].
    + intros st H. destruct (assembling_stream _ _ H) as [E _]. cbn. unfold on_recv_data. rewrite E.
      eapply (put_assembling (mark_headers_received (receiving r))). by left.
    + unfold Request.append_body in *. cbn. by rewrite <- app_assoc.
Qed.

Lemma end_answered r st : assembling (mark_headers_received (receiving r)) st ->
  answered (Request.mark_body_complete r) (step st (Cb (EndStream sid))).
Proof.
  intros H. destruct (assembling_stream _ _ H) as [E _]. injection H as _ _ HC HR. unfold calls, responses in HC, HR.
  cbn. unfold on_end_stream. rewrite E. cbn. set (r' := Request.mark_body_complete r).
  destruct (handle r' Response.init (world st)) as [[req res] w] eqn:Hh. unfold submit_response. cbn. rewrite lookup_insert_eq. cbn.
  assert (with_content_length res = answer r' (world st)) as Ha by (unfold answer; by rewrite Hh).
  rewrite Ha. set (ok := takes _ _). 
  assert (forall st' : St, handled st' = handled st ++ [(sid, r')] -> submissions st' = submissions st ++
    [mkSubmission sid (response_fields (answer r' (world st))) (has_reader (answer r' (world st))) ok] -> answered r' st') as K.
  { intros st' E1 E2. unfold answered, calls, responses. rewrite E1, E2, !List.filter_app, HC, HR. cbn. rewrite !bool_decide_true by done. by eauto. }
  destruct ok eqn:Ho; cbn; [destruct (Response.sse_channel_ res)|]; by apply K.
Qed.

Lemma h3_leads_request fields chunks : fields <> [] ->
  leads fresh (request_events fields chunks) (answered (assembled fields (concat chunks))).
Proof.
  intros N. destruct fields as [|[n v] fields]; [done|]. unfold request_events. cbn [map app].
  eapply h3_leads_cons with (Q := assembling (receiving (request_field n v (Request.set_peer_address peer Request.init)))); [apply fresh_local|..].
  { intros st H. cbn. unfold on_recv_header, get_or_create_stream. pose proof H as [= -> -> _ _]. cbn.
    eapply (put_assembling (new_stream peer)). left. eapply (put_assembling (new_stream peer)). by right. }
  apply leads_fields. eapply h3_leads_cons; [apply assembling_local| |].
  { intros st H. destruct (assembling_stream _ _ H) as [E _]. cbn. unfold on_end_headers. rewrite E.
    eapply put_assembling. by left. }
  apply (h3_leads_chunks chunks (Request.mark_headers_complete _)). eapply h3_leads_cons; [apply assembling_local| |apply h3_leads_nil, answered_local].
  intros st. apply end_answered.
Qed.

(** Once answered, only the end of another request on the stream would be. *)
Lemma answered_stays r es st : answered r st -> Forall (fun e => e <> Cb (EndStream sid)) es -> answered r (run es st).
Proof.
  revert st. induction es as [|e es IH]; intros st H F; [done|]. apply Forall_cons in F as [F1 F2]. apply IH; [|done].
  destruct (decide (event_stream e = sid)) as [E|N]; [|eapply answered_local; [by apply h3_elsewhere_step|done]].
  assert (forall st' : St, handled st' = handled st -> submissions st' = submissions st -> answered r st') as K.
  { intros st' E1 E2. unfold answered, calls, responses in *. by rewrite E1, E2. }
  apply K; destruct e as [[| | | | |]|i|i]; cbn in E; subst; cbn [Http3.step callback]; unfold on_recv_header, get_or_create_stream,
    on_end_headers, on_recv_data, on_acked_stream_data_cb, resume_sse_stream, on_deferred_consume, on_read_data, on_stream_close;
    repeat case_match; simplify_eq; done.
Qed.

End Stream.

(** However the callbacks of the streams of a connection are interleaved, a
    request is handled exactly once, as the request that was received on its
    stream, and exactly one response is submitted for it, with the header block
    of what the application answered; nothing after it but another request on
    the stream changes that. *)
Theorem http3_requests_assembled sid peer w es es' fields chunks
    (Hes : restrict sid es = request_events sid fields chunks) (Hfields : fields <> [])
    (Hes' : Forall (fun e => e <> Cb (EndStream sid)) es') :
  let st := run (es ++ es') (new_session peer w) in
  let r := assembled peer fields (concat chunks) in
  calls sid st = [(sid, r)] /\
  exists w' ok, responses sid st = [mkSubmission sid (response_fields (answer r w')) (has_reader (answer r w')) ok].
Proof.
  cbv zeta. unfold Http3.run. rewrite foldl_app. apply (answered_stays sid (assembled peer fields (concat chunks))); [|done].
  by apply (h3_leads_request sid peer fields chunks Hfields es).
Qed.

(** ** Events in flight *)

Section Inflight.
Context (sid : Z).

Definition kept (ev : bytes) (remaining : Z) (st : St) : Prop :=
  exists s c, streams_ st !! sid = Some s /\ sse_channel_ s = Some c /\ sse_inflight_ s = ev /\
    sse_inflight_ack_remaining_ s = remaining /\ 0 < remaining.

(** What an event acknowledges of the stream. *)
Definition acked (e : Event) : Z :=
  match e with Cb (AckedData i n) => if decide (i = sid) then n else 0 | _ => 0 end.

Definition total_acked (es : list Event) : Z := foldr (fun e n => acked e + n) 0 es.

Lemma kept_put ev n s c st : sse_channel_ s = Some c -> sse_inflight_ s = ev -> sse_inflight_ack_remaining_ s = n -> 0 < n ->
  kept ev n (put sid s st).
Proof. intros. exists s, c. cbn. by rewrite lookup_insert_eq. Qed.

Lemma kept_submit ev n st : kept ev n st -> kept ev n (submit_response takes sid st).
Proof.
  intros K. pose proof K as (s & c & E & C & I & R & P). unfold submit_response. rewrite E.
  destruct (response_submitted_ s); [done|]. cbv zeta. set (ok := takes _ _). destruct ok; cbn [negb].
  - destruct (Response.sse_channel_ (response_ s)); by eapply kept_put.
  - exists (with_response (with_content_length (response_ s)) s), c. cbn. by rewrite lookup_insert_eq.
Qed.

Lemma kept_step ev n e st : kept ev n st -> e <> StreamClose sid -> 0 <= acked e < n ->
  kept ev (n - acked e) (step st e).
Proof.
  intros K N B. destruct (decide (event_stream e = sid)) as [Es|Ne].
  - pose proof K as (s & c & E & C & I & R & P). destruct e as [[i m v|i|i d|i|i m|i m]|i|i]; cbn in Es; subst i;
      cbn [acked] in *; rewrite ?Z.sub_0_r; cbn [Http3.step callback].
    + unfold on_recv_header, get_or_create_stream. rewrite E. by eapply kept_put.
    + unfold on_end_headers. rewrite E. by eapply kept_put.
    + unfold on_recv_data. rewrite E. by eapply kept_put.
    + unfold on_end_stream. rewrite E. cbn. destruct (handle _ _ _) as [[req res] w]. apply kept_submit. by eapply kept_put.
    + done.
    + rewrite decide_True in * by done. unfold on_acked_stream_data_cb. rewrite E. cbn. rewrite C, R, (proj2 (Z.ltb_lt _ _)) by done.
      rewrite (proj2 (Z.leb_gt _ _)) by lia. rewrite (proj2 (Z.eqb_neq _ _)) by lia. eapply kept_put; try done. lia.
    + unfold on_read_data. rewrite E, C, R, (proj2 (Z.ltb_lt _ _)) by done. done.
    + done.
  - assert (acked e = 0) as -> by (destruct e as [[]| |]; cbn in *; try done; by rewrite decide_False).
    rewrite Z.sub_0_r. pose proof (h3_elsewhere_step sid st e Ne) as V. injection V as V _ _ _.
    destruct K as (s & c & E & H). exists s, c. split; [congruence|done].
Qed.

Lemma kept_run ev n es st : kept ev n st -> Forall (fun e => e <> StreamClose sid /\ 0 <= acked e) es ->
  total_acked es < n -> kept ev (n - total_acked es) (run es st).
Proof.
  revert n st. induction es as [|e es IH]; intros n st K F L; cbn [total_acked foldr] in *; [by rewrite Z.sub_0_r|].
  fold (total_acked es) in *. apply Forall_cons in F as [[F1 F2] F].
  assert (0 <= total_acked es) as P.
  { clear -F. unfold total_acked. induction F as [|e es [_ H] F IH]; cbn; lia. }
  rewrite Z.sub_add_distr. apply IH; [|done|lia]. apply kept_step; [done|done|lia].
Qed.

End Inflight.

(** The event that nghttp3 was handed stays where it is, unchanged, until the
    peer has acknowledged all of it, whatever else happens on the connection
    while the stream is open; and until then no other event is handed out. *)
Theorem http3_event_kept sid st ev st' es (Hread : on_read_data sid st = (Chunk ev false, st'))
    (Hes : Forall (fun e => e <> StreamClose sid /\ 0 <= acked sid e) es) (Hacked : total_acked sid es < len ev) :
  (sse_inflight_ <$> streams_ (run es st') !! sid) = Some ev /\
  fst (on_read_data sid (run es st')) = WouldBlock.
Proof.
  assert (0 < len ev) as P.
  { assert (0 <= total_acked sid es); [|lia]. clear -Hes. unfold total_acked. induction Hes as [|e es [_ H] F IH]; cbn; lia. }
  assert (kept sid ev (len ev) st') as K.
  { unfold on_read_data in Hread. destruct (streams_ st !! sid) as [s|]; [|done].
    destruct (sse_channel_ s) as [i|]; [|repeat case_match; simplify_eq].
    case_match; [done|]. destruct (channels (world st) !! i) as [ch|]; [|done]. destruct (Sse.take_next ch) as [[e|] ch'];
      [|by case_match]. injection Hread as -> <-. by eapply kept_put. }
  destruct (kept_run sid ev (len ev) es st' K Hes Hacked) as (s & c & E & C & I & R & Q).
  rewrite E. cbn. split; [by f_equal|]. unfold on_read_data. by rewrite E, C, R, (proj2 (Z.ltb_lt _ _)).
Qed.

End Requests.

(** ** Witnesses and a run that goes wrong *)

Definition app_handler (r : Request.t) (res : Response.t) (w : World (A:=nat)) : Request.t * Response.t * World (A:=nat) :=
  (r, Response.body (bs "hello") res, w).
Definition events_handler (r : Request.t) (res : Response.t) (w : World (A:=nat)) : Request.t * Response.t * World (A:=nat) :=
  (r, Response.event_stream (Some 7) res, w).
Definition always (_ : list Submission) (_ : Z) : bool := true.

Definition silent (_ : list Fed) (f : Fed) : list Callback * option Z := ([], Some (len (fed_data f))).

Definition overlapping : list Piece :=
  [mkPiece 0 0 (bs "ab") false; mkPiece 4 0 (bs "zz") true; mkPiece 0 1 (bs "bcd") false; mkPiece 0 0 (bs "ab") false; mkPiece 0 4 [] true].

Lemma http3_stream_data_once_witness :
  in_order 0 (bs "abcd") 0 overlapping /\
  given 0 (foldl (deliver None always silent) (new_session (bs "peer") (mkWorld 0%nat ∅)) overlapping) =
    take (Z.to_nat (extent 0 0 overlapping)) (bs "abcd").
Proof.
  assert (in_order 0 (bs "abcd") 0 overlapping) as O by (cbn; repeat split; done).
  split; [exact O|].
  apply (http3_stream_data_once None always silent 0 (bs "abcd") (fun h f => ltac:(discriminate)) (mkWorld 0%nat ∅) (bs "peer") overlapping);
    [reflexivity|exact O].
Defined.

Definition interleaved : list Event :=
  [Cb (RecvHeader 0 (bs ":path") (bs "/a")); Cb (RecvHeader 4 (bs ":path") (bs "/b")); Cb (EndHeaders 4); Cb (EndStream 4);
   Cb (EndHeaders 0); Cb (RecvData 0 (bs "da")); ReadData 4; Cb (RecvData 0 (bs "ta")); Cb (EndStream 0)].

Lemma http3_requests_assembled_witness :
  calls 0 (Http3.run (Some app_handler) always (interleaved ++ [ReadData 0]) (new_session (bs "peer") (mkWorld 0%nat ∅))) =
    [(0, assembled (bs "peer") [(bs ":path", bs "/a")] (concat [bs "da"; bs "ta"]))].
Proof.
  destruct (http3_requests_assembled app_handler always 0 (bs "peer") (mkWorld 0%nat ∅) interleaved [ReadData 0]
    [(bs ":path", bs "/a")] [bs "da"; bs "ta"] eq_refl ltac:(discriminate) ltac:(repeat constructor; discriminate)) as [H _]. exact H.
Defined.

Definition event_channel : Sse.Channel := Sse.mkChannel Sse.default_limits [bs "data: 1"; bs "data: 2"] 14 false false.

Definition streaming : St (A:=nat) :=
  Http3.run (Some events_handler) always [Cb (RecvHeader 0 (bs ":path") (bs "/e")); Cb (EndHeaders 0); Cb (EndStream 0)]
    (new_session (bs "peer") (mkWorld 0%nat {[7 := event_channel]})).

Lemma http3_event_kept_witness :
  (sse_inflight_ <$> streams_ (Http3.run (Some events_handler) always [Cb (AckedData 0 3); ReadData 0] (snd (on_read_data 0 streaming))) !! 0) =
  Some (bs "data: 1").
Proof.
  apply (http3_event_kept events_handler always 0 streaming (bs "data: 1") (snd (on_read_data 0 streaming)) [Cb (AckedData 0 3); ReadData 0]).
  - vm_compute. reflexivity.
  - repeat constructor; vm_compute; discriminate.
  - vm_compute. reflexivity.
Defined.

(** nghttp3 counts the framing it consumed and not the payload of DATA frames,
    which its callback reports: the session returns credit for the former only. *)
Definition counting_framing (_ : list Fed) (f : Fed) : list Callback * option Z :=
  ([RecvData (fed_stream f) (drop 3 (fed_data f))], Some 3).

(** A window that was used for a body is never opened again: of each piece of
    an upload only the framing is returned to the peer. *)
Lemma upload_credit_lost :
  let deliver := deliver (Some app_handler) always counting_framing in
  let piece i := mkPiece 0 (1003 * i) (repeat "x"%char 1003) false in
  let st := foldl deliver (Http3.run (Some app_handler) always [Cb (RecvHeader 0 (bs ":method") (bs "POST")); Cb (EndHeaders 0)]
              (new_session (bs "peer") (mkWorld 0%nat ∅))) (map piece [0; 1; 2]) in
  (len ∘ Request.body_ ∘ request_ <$> streams_ st !! 0) = Some 3000 /\ connection_credit st = 9.
Proof. vm_compute. done. Qed.

End Http3Props.
