(* ===== verification/TcpConnection.v ===== *)
(** * TLS streams and TCP connections

    [net/tls_tcp_stream.*] over OpenSSL, which is an interface, and
    [TcpConnection] of [net/tcp_connection_manager.*], which puts a TLS stream
    in front of an HTTP/1.1 session, an HTTP/2 session or, after an upgrade, a
    WebSocket connection.  The state of TLS is threaded through the sessions
    with the world of the application. *)

From S2P Require Import Prelude CxxString HttpMessage WebSocket WsHandshake Sse Http1 Http2.

(** ** [TlsTcpStream] *)

Module Tls.

Inductive HandshakeResult := HsComplete | HsWant | HsError (e : Z).
Inductive ReadResult := ReadData (d : bytes) | ReadWant | ReadError (e : Z).

(** What is used of OpenSSL, on an [SSL] with its two memory BIOs. *)
Class OpenSSL (S : Type) := {
  bio_write : bytes -> S -> bool * S;
  ssl_do_handshake : S -> HandshakeResult * S;
  ssl_read : S -> ReadResult * S;
  ssl_write : bytes -> S -> option Z * S;   (** [None]: written *)
  bio_read_all : S -> bytes * S;            (** the loop of [get_pending_send_data] *)
  ssl_alpn : S -> bytes;
  (** What [SSL_read] can still give is finite. *)
  ssl_left : S -> nat;
  ssl_left_read : forall s d s', ssl_read s = (ReadData d, s') -> (ssl_left s' < ssl_left s)%nat
}.

Inductive HandshakeStatus := Handshaking | Complete | Failed.

#[export] Instance status_eq_dec : EqDecision HandshakeStatus.
Proof. solve_decision. Defined.

Section Stream.
Context {S : Type} `{OpenSSL S}.

Record Stream := mkStream { ssl_ : S; handshake_status_ : HandshakeStatus }.

Definition set_ssl (s : S) (t : Stream) : Stream := mkStream s (handshake_status_ t).

Definition get_pending_send_data (t : Stream) : bytes * Stream :=
  let '(d, s) := bio_read_all (ssl_ t) in (d, set_ssl s t).

(** The data to send is appended whatever the result is. *)
Definition do_handshake (t : Stream) : result Z HandshakeStatus * bytes * Stream :=
  let '(r, s) := ssl_do_handshake (ssl_ t) in
  let '(out, t) := get_pending_send_data (set_ssl s t) in
  match r with
  | HsComplete => (inr Complete, out, mkStream (ssl_ t) Complete)
  | HsWant => (inr Handshaking, out, mkStream (ssl_ t) Handshaking)
  | HsError e => (inl e, out, mkStream (ssl_ t) Failed)
  end.

(** The [while (true)] loop over [SSL_read]. *)
Fixpoint read_loop (fuel : nat) (acc : bytes) (s : S) : result Z bytes * S :=
  match fuel with
  | O => (inr acc, s)
  | Datatypes.S fuel' =>
      match ssl_read s with
      | (ReadData d, s') => read_loop fuel' (acc ++ d) s'
      | (ReadWant, s') => (inr acc, s')
      | (ReadError e, s') => (inl e, s')
      end
  end.

(** The handshake data to send and the decrypted application data. *)
Definition feed_network_data (data : bytes) (t : Stream) : result Z (bytes * bytes) * Stream :=
  if bool_decide (handshake_status_ t = Failed) then (inl (-1), t)
  else
    let '(ok, s) := if len data =? 0 then (true, ssl_ t) else bio_write data (ssl_ t) in
    let t := set_ssl s t in
    if negb ok then (inl (-2), t)
    else
      let '(r, out, t) :=
        if bool_decide (handshake_status_ t = Handshaking) then do_handshake t
        else (inr (handshake_status_ t), [], t) in
      match r with
      | inl e => (inl e, t)
      | inr _ =>
          if bool_decide (handshake_status_ t = Complete) then
            match read_loop (Datatypes.S (ssl_left (ssl_ t))) [] (ssl_ t) with
            | (inl e, s) => (inl e, set_ssl s t)
            | (inr d, s) => (inr (out, d), set_ssl s t)
            end
          else (inr (out, []), t)
      end.

Definition encrypt_app_data (data : bytes) (t : Stream) : result Z bytes * Stream :=
  if negb (bool_decide (handshake_status_ t = Complete)) then (inl (-1), t)
  else
    let '(e, s) := if len data =? 0 then (None, ssl_ t) else ssl_write data (ssl_ t) in
    let t := set_ssl s t in
    match e with
    | Some e => (inl e, t)
    | None => let '(d, t) := get_pending_send_data t in (inr d, t)
    end.

(** The callback given to the sessions: nothing when encryption fails. *)
Definition encrypt_cb (data : bytes) (t : Stream) : bytes * Stream :=
  let '(r, t) := encrypt_app_data data t in (match r with inr d => d | inl _ => [] end, t).

End Stream.
Arguments Stream S : clear implicits.
End Tls.

(** ** [TcpConnection] *)

Module TcpConnection.
Import Tls Http1.

Section Connection.
Context {S A : Type} `{OpenSSL S}.

(** The world of the sessions: the application and the SSL object of the
    connection; encryption does not change the status of its stream. *)
Abbreviation W := (World (A:=A)).
Abbreviation WT := (World (A:=A * S)).

Definition join (s : S) (w : W) : WT := mkWorld (app w, s) (channels w).
Definition world_of (w : WT) : W := mkWorld (fst (app w)) (channels w).
Definition ssl_of (w : WT) : S := snd (app w).

Definition encrypt (status : HandshakeStatus) (d : bytes) (w : WT) : bytes * WT :=
  let '(e, t) := encrypt_cb d (mkStream (ssl_of w) status) in (e, join (ssl_ t) (world_of w)).

(** The application. *)
Context (handler_ : Request.t -> Response.t -> W -> Request.t * Response.t * W).
Context (upgrade_handler_ : option (Request.t -> W -> UpgradeResult * W)).
Context (http2_websocket_handler_ : option (Request.t -> W -> Request.t * Http2.WebSocketConnectResult * W)).
Context (validate : Request.t -> option (result ProtocolError bytes)).
(** nghttp2: the callbacks it makes for received bytes, unless it fails; the
    frames it has to send, each with the reads it makes for it. *)
Context (takes : list (Http2.Submission * bool) -> Http2.Submission -> bool).
Context (order : list Z -> list Z).
Context (mem_recv : Http2.St (A:=A * S) -> bytes -> option (list Http2.Event)).
Context (mem_send : Http2.St (A:=A * S) -> list (list Http2.Event * bytes)).

(** The handler of the application returns; that of a shard does
    ([requests_survive]). *)
Definition h1_handler (r : Request.t) (w : WT) : option Response.t * WT :=
  let '(_, res, w') := handler_ r Response.init (world_of w) in (Some res, join (ssl_of w) w').
Definition h1_upgrade : option (Request.t -> WT -> UpgradeResult * WT) :=
  (fun f r w => let '(u, w') := f r (world_of w) in (u, join (ssl_of w) w')) <$> upgrade_handler_.
Definition h2_handler (r : Request.t) (res : Response.t) (w : WT) : Request.t * Response.t * WT :=
  let '(r, res, w') := handler_ r res (world_of w) in (r, res, join (ssl_of w) w').
Definition h2_websocket : option (Request.t -> WT -> Request.t * Http2.WebSocketConnectResult * WT) :=
  (fun f r w => let '(r, c, w') := f r (world_of w) in (r, c, join (ssl_of w) w')) <$> http2_websocket_handler_.

(** The variant [session_]. *)
Inductive SessionVariant :=
| Monostate
| OnHttp1 (s : Session)
| OnHttp2 (s : Http2.St (A:=A * S))
| OnWebSocket (c : Connection).

Record t := mk { tls_stream_ : Stream S; peer_address_ : bytes; session_ : SessionVariant; next_id : Z }.

Definition new (ssl : S) (peer : bytes) (id : Z) : t := mk (mkStream ssl Handshaking) peer Monostate id.

Definition set_session (s : SessionVariant) (c : t) : t := mk (tls_stream_ c) (peer_address_ c) s (next_id c).
Definition set_tls (s : Stream S) (c : t) : t := mk s (peer_address_ c) (session_ c) (next_id c).

Definition keep_alive (c : t) : bool :=
  match session_ c with
  | OnHttp1 s => keep_alive_ s
  | OnHttp2 _ => true
  | OnWebSocket c => negb (WebSocket.closed_ c)
  | Monostate => true
  end.

Definition initiate_handshake (c : t) : result Z bytes * t :=
  let '(r, out, s) := do_handshake (tls_stream_ c) in
  (match r with inl e => inl e | inr _ => inr out end, set_tls s c).

(** [send_pending_frames] *)
Definition send_pending_frames (status : HandshakeStatus) (st : Http2.St (A:=A * S)) : bytes * Http2.St :=
  foldl (fun '(out, st) '(reads, raw) =>
      let st := Http2.run h2_handler h2_websocket true takes order reads st in
      let '(e, w) := encrypt status raw (Http2.world st) in (out ++ e, Http2.set_world w st))
    ([], st) (mem_send st).

(** [Http2Session::feed_data] *)
Definition h2_feed_data (status : HandshakeStatus) (data : bytes) (st : Http2.St (A:=A * S)) : option bytes * Http2.St :=
  let '(r, st) :=
    if len data =? 0 then (true, st)
    else match mem_recv st data with
         | None => (false, st)
         | Some es => (true, Http2.run h2_handler h2_websocket true takes order es st)
         end in
  if r then let '(out, st) := send_pending_frames status st in (Some out, st) else (None, st).

(** The session is chosen when the handshake completes. *)
Definition choose_session (c : t) (w : W) : t :=
  match session_ c with
  | Monostate =>
      if bool_decide (handshake_status_ (tls_stream_ c) = Tls.Complete) then
        if bool_decide (ssl_alpn (ssl_ (tls_stream_ c)) = bs "h2")
        then set_session (OnHttp2 (Http2.new_session (peer_address_ c) (join (ssl_ (tls_stream_ c)) w))) c
        else set_session (OnHttp1 (set_peer_address (peer_address_ c) (new_session true))) c
      else c
  | _ => c
  end.

(** Encrypt what a WebSocket has to send, if anything. *)
Definition websocket_out (ws : Connection) (c : t) : bytes * t :=
  let '(out, ws) := connection_take_outbound ws in
  let '(e, s) := if len out =? 0 then ([], tls_stream_ c) else encrypt_cb out (tls_stream_ c) in
  (e, set_session (OnWebSocket ws) (set_tls s c)).

(** What follows an upgrade: the new connection, its first output, the bytes
    after the request. *)
Definition upgrade (s : Session) (c : t) : option bytes * t :=
  let '(h, s) := take_upgrade_handler s in
  let '(trailing, s) := take_remaining_data s in
  match h with
  | None => (None, set_session (OnHttp1 s) c)
  | Some a =>
      let ws := new_connection (next_id c) (au_handler a) (au_principal a) true None in
      let c := mk (tls_stream_ c) (peer_address_ c) (OnWebSocket ws) (next_id c + 1) in
      let '(out, c) := websocket_out ws c in
      if len trailing =? 0 then (Some out, c)
      else
        match session_ c with
        | OnWebSocket ws =>
            let '(out', c) := websocket_out (snd (feed trailing ws)) c in (Some (out ++ out'), c)
        | _ => (Some out, c)
        end
  end.

(** How [on_recv] ends; the models of the sessions may not return. *)
Inductive Received := Output (d : bytes) | RecvError | Stuck.

Definition on_decrypted (data : bytes) (c : t) (w : W) : Received * t * W :=
  let status := handshake_status_ (tls_stream_ c) in
  match session_ c with
  | Monostate => (Output [], c, w)
  | OnHttp1 s =>
      match Http1.feed_data h1_handler h1_upgrade (encrypt status) validate data s (join (ssl_ (tls_stream_ c)) w) with
      | (Sent out, s, w') =>
          let c := set_session (OnHttp1 s) (set_tls (set_ssl (ssl_of w') (tls_stream_ c)) c) in
          if upgraded_ s then
            match upgrade s c with
            | (None, c) => (RecvError, c, world_of w')
            | (Some out', c) => (Output (out ++ out'), c, world_of w')
            end
          else (Output out, c, world_of w')
      | (Http1.Failed _, s, w') => (RecvError, set_session (OnHttp1 s) (set_tls (set_ssl (ssl_of w') (tls_stream_ c)) c), world_of w')
      | (_, s, w') => (Stuck, set_session (OnHttp1 s) (set_tls (set_ssl (ssl_of w') (tls_stream_ c)) c), world_of w')
      end
  | OnHttp2 st =>
      let '(r, st) := h2_feed_data status data (Http2.set_world (join (ssl_ (tls_stream_ c)) w) st) in
      let w' := Http2.world st in
      let c := set_session (OnHttp2 st) (set_tls (set_ssl (ssl_of w') (tls_stream_ c)) c) in
      (match r with Some out => Output out | None => RecvError end, c, world_of w')
  | OnWebSocket ws =>
      let '(out, c) := websocket_out (snd (feed data ws)) c in (Output out, c, w)
  end.

Definition on_recv (network_data : bytes) (c : t) (w : W) : Received * t * W :=
  let '(r, s) := feed_network_data network_data (tls_stream_ c) in
  let c := set_tls s c in
  match r with
  | inl _ => (RecvError, c, w)
  | inr (hs, decrypted) =>
      let c := choose_session c w in
      let '(r, c, w) := if len decrypted =? 0 then (Output [], c, w) else on_decrypted decrypted c w in
      match r with
      | Output out =>
          let '(extra, s) := get_pending_send_data (tls_stream_ c) in
          (Output (hs ++ out ++ extra), set_tls s c, w)
      | other => (other, c, w)
      end
  end.

(** [TcpConnection::drain_websocket_outbound]; [None] is an error. *)
Definition drain (c : t) (w : W) : option bytes * t * W :=
  let status := handshake_status_ (tls_stream_ c) in
  match session_ c with
  | OnWebSocket ws =>
      let '(raw, ws) := drain_external_outbound ws in
      let c := set_session (OnWebSocket ws) c in
      if len raw =? 0 then (Some [], c, w)
      else let '(r, s) := encrypt_app_data raw (tls_stream_ c) in
           (match r with inr d => Some d | inl _ => None end, set_tls s c, w)
  | OnHttp1 s =>
      let '(e, s, w') := drain_sse_outbound (encrypt status) s (join (ssl_ (tls_stream_ c)) w) in
      (Some e, set_session (OnHttp1 s) (set_tls (set_ssl (ssl_of w') (tls_stream_ c)) c), world_of w')
  | OnHttp2 st =>
      let st := Http2.drain_outbound takes order (Http2.set_world (join (ssl_ (tls_stream_ c)) w) st) in
      let '(out, st) := send_pending_frames status st in
      let w' := Http2.world st in
      (Some out, set_session (OnHttp2 st) (set_tls (set_ssl (ssl_of w') (tls_stream_ c)) c), world_of w')
  | Monostate => (Some [], c, w)
  end.

End Connection.
Arguments t S A : clear implicits.
End TcpConnection.
