(* ===== verification/TcpManager.v ===== *)
(** * The TCP connection manager

    [TcpConnectionManager] of [net/tcp_connection_manager.*]: accepted sockets,
    their write buffers, and what the event loop is asked to watch.  It uses a
    connection through an interface, which [TcpConnection] implements.  What
    [send] does with what it is given is a parameter, by the number of the
    call. *)

From S2P Require Import Prelude CxxString HttpMessage WebSocket WsHandshake Sse Http1 Http2 TcpConnection.
Import TcpConnection (Received, Output, RecvError, Stuck).

(** What the manager uses of a connection and relies on. *)
Class TcpSession (C W : Type) := {
  ts_keep_alive : C -> bool;
  ts_handshake : C -> option bytes * C;
  ts_recv : bytes -> C -> W -> Received * C * W;
  ts_drain : C -> W -> option bytes * C * W;
  (** A connection that was just made, and what it keeps to from then on. *)
  ts_fresh : C -> Prop;
  ts_good : C -> Prop;
  ts_handshake_good : forall c, ts_fresh c ->
    ts_good (snd (ts_handshake c)) /\ ts_keep_alive (snd (ts_handshake c)) = true;
  ts_recv_good : forall d c w, ts_good c -> ts_good (snd (fst (ts_recv d c w)));
  ts_drain_good : forall c w, ts_good c -> ts_good (snd (fst (ts_drain c w)));
  (** A connection that ends while it is drained has something to send. *)
  ts_drain_quiet : forall c w, ts_good c -> default [] (fst (fst (ts_drain c w))) = [] ->
    ts_keep_alive (snd (fst (ts_drain c w))) = ts_keep_alive c
}.

Module TcpManager.

(** [send]: [SentMore k] is [k + 1] bytes, or all of them. *)
Inductive SendResult := SentMore (k : nat) | WouldBlock | SendError.

(** [recv] *)
Inductive RecvResult := RecvData (d : bytes) | RecvAgain | RecvFailed | RecvEof.

Section Manager.
Context {C W : Type} `{TcpSession C W}.
Context (net : nat -> SendResult).

Record t := mk {
  connections_ : gmap Z C;
  connection_buffers_ : gmap Z bytes;
  (** The descriptors the loop watches, always for reading, and whether for writing. *)
  watched : gmap Z bool;
  world : W;
  sends : nat;
  (** For the record: what each open connection produced and what was sent. *)
  produced : gmap Z bytes;
  sent : gmap Z bytes;
  stuck : bool
}.

Definition init (w : W) : t := mk ∅ ∅ ∅ w 0 ∅ ∅ false.

Definition set_conn (fd : Z) (c : C) (w : W) (m : t) : t :=
  mk (<[fd := c]> (connections_ m)) (connection_buffers_ m) (watched m) w (sends m) (produced m) (sent m) (stuck m).
Definition set_buffer (fd : Z) (b : bytes) (m : t) : t :=
  mk (connections_ m) (<[fd := b]> (connection_buffers_ m)) (watched m) (world m) (sends m) (produced m) (sent m) (stuck m).
Definition watch (fd : Z) (writable : bool) (m : t) : t :=
  mk (connections_ m) (connection_buffers_ m) (<[fd := writable]> (watched m)) (world m) (sends m) (produced m) (sent m) (stuck m).
Definition record_produced (fd : Z) (d : bytes) (m : t) : t :=
  mk (connections_ m) (connection_buffers_ m) (watched m) (world m) (sends m)
    (<[fd := default [] (produced m !! fd) ++ d]> (produced m)) (sent m) (stuck m).
(** A call of [send] that took [d]. *)
Definition record_sent (fd : Z) (d : bytes) (m : t) : t :=
  mk (connections_ m) (connection_buffers_ m) (watched m) (world m) (S (sends m)) (produced m)
    (<[fd := default [] (sent m !! fd) ++ d]> (sent m)) (stuck m).
Definition set_stuck (m : t) : t :=
  mk (connections_ m) (connection_buffers_ m) (watched m) (world m) (sends m) (produced m) (sent m) true.

Definition buffer (fd : Z) (m : t) : bytes := default [] (connection_buffers_ m !! fd).
Definition has_pending_writes (fd : Z) (m : t) : bool := negb (bool_decide (buffer fd m = [])).

(** ** [ConnectionBuffer] *)

(** [write_pending]: -1, 0 or 1. *)
Fixpoint write_pending (fuel : nat) (fd : Z) (m : t) : Z * t :=
  match fuel with
  | O => (1, m)
  | S fuel' =>
      match buffer fd m with
      | [] => (1, m)
      | b =>
          match net (sends m) with
          | SentMore k => write_pending fuel' fd (set_buffer fd (drop (S k) b) (record_sent fd (take (S k) b) m))
          | WouldBlock => (0, record_sent fd [] m)
          | SendError => (-1, record_sent fd [] m)
          end
      end
  end.

(** [send_data]; [false] is -1. *)
Definition send_data (fd : Z) (data : bytes) (m : t) : bool * t :=
  match buffer fd m with
  | [] =>
      match net (sends m) with
      | SentMore k => (true, set_buffer fd (drop (S k) data) (record_sent fd (take (S k) data) m))
      | WouldBlock => (true, set_buffer fd data (record_sent fd [] m))
      | SendError => (false, record_sent fd [] m)
      end
  | b => (true, set_buffer fd (b ++ data) m)
  end.

(** ** The manager *)

(** The descriptor is closed and its number free again. *)
Definition close_connection (fd : Z) (m : t) : t :=
  mk (delete fd (connections_ m)) (delete fd (connection_buffers_ m)) (delete fd (watched m)) (world m) (sends m)
    (delete fd (produced m)) (delete fd (sent m)) (stuck m).

Definition on_accept (fd : Z) (c : C) (m : t) : t :=
  match connections_ m !! fd with
  | Some _ => m
  | None =>
      let '(r, c) := ts_handshake c in
      let m := set_conn fd c (world m) m in
      let '(ok, m) :=
        match r with
        | Some (x :: d) => send_data fd (x :: d) (record_produced fd (x :: d) m)
        | _ => (true, m)
        end in
      if ok then watch fd (has_pending_writes fd m) (set_buffer fd (buffer fd m) m)
      else close_connection fd m
  end.

Definition on_recv (fd : Z) (data : bytes) (m : t) : t :=
  match connections_ m !! fd with
  | None => m
  | Some c =>
      let '(r, c, w) := ts_recv data c (world m) in
      let m := set_conn fd c w m in
      match r with
      | Stuck => set_stuck m
      | RecvError => close_connection fd m
      | Output out =>
          let '(ok, m) := if len out =? 0 then (true, m) else send_data fd out (record_produced fd out m) in
          if negb ok then close_connection fd m
          else
            let m := set_buffer fd (buffer fd m) m in
            let m := if has_pending_writes fd m then watch fd true m else m in
            if negb (ts_keep_alive c) && negb (has_pending_writes fd m) then close_connection fd m else m
      end
  end.

Definition on_writable (fd : Z) (m : t) : t :=
  match connections_ m !! fd with
  | None => m
  | Some c =>
      let m := set_buffer fd (buffer fd m) m in
      let '(status, m) := write_pending (S (length (buffer fd m))) fd m in
      if status <? 0 then close_connection fd m
      else if 0 <? status then
        if negb (ts_keep_alive c) then close_connection fd m else watch fd false m
      else m
  end.

Definition drain_websocket_outbound (fd : Z) (m : t) : t :=
  match connections_ m !! fd with
  | None => m
  | Some c =>
      let '(r, c, w) := ts_drain c (world m) in
      let m := set_conn fd c w m in
      match r with
      | Some (x :: out) =>
          let '(ok, m) := send_data fd (x :: out) (record_produced fd (x :: out) m) in
          if ok then watch fd true m else close_connection fd m
      | _ => m
      end
  end.

(** ** Events *)

Inductive Event :=
| Accept (fd : Z) (c : C)
(** A watched descriptor is ready: what [recv] gives when it is readable, else writable. *)
| ReadReady (fd : Z) (r : RecvResult)
| WriteReady (fd : Z)
| Drain (fd : Z).

Definition handle (m : t) (e : Event) : t :=
  match e with
  | Accept fd c => on_accept fd c m
  | ReadReady fd r =>
      match r with
      | RecvData d => on_recv fd d m
      | RecvAgain => m
      | RecvFailed | RecvEof => close_connection fd m
      end
  | WriteReady fd => on_writable fd m
  | Drain fd => drain_websocket_outbound fd m
  end.

Definition run (es : list Event) (m : t) : t := foldl handle m es.

End Manager.
Arguments t C W : clear implicits.
Arguments Event C : clear implicits.
End TcpManager.
