(* ===== verification/TcpManagerProps.v ===== *)
(** * The TCP connection manager: no byte lost, no connection stalled *)

From S2P Require Import Prelude CxxString HttpMessage WebSocket WsHandshake Sse Http1 Http2 TcpConnection TcpManager.
Import TcpManager.

Module TcpManagerProps.

Section Manager.
Context {C W : Type} `{TcpSession C W}.
Context (net : nat -> SendResult).
Abbreviation t := (t C W).

(** ** What the manager keeps of one descriptor *)

Record View := mkView {
  v_conn : option C; v_buffer : option bytes; v_watched : option bool; v_produced : option bytes; v_sent : option bytes
}.

Definition view (fd : Z) (m : t) : View :=
  mkView (connections_ m !! fd) (connection_buffers_ m !! fd) (watched m !! fd) (produced m !! fd) (sent m !! fd).

(** What was sent and what waits is what was produced. *)
Definition balanced (v : View) : Prop :=
  default [] (v_sent v) ++ default [] (v_buffer v) = default [] (v_produced v).

(** An open connection is watched, for writing when it has bytes to send or is to be closed. *)
Definition open_ok (c : C) (v : View) : Prop :=
  ts_good c /\ balanced v /\
  exists f, v_watched v = Some f /\ (default [] (v_buffer v) <> [] -> f = true) /\ (ts_keep_alive c = false -> f = true).

Definition closed_view : View := mkView None None None None None.

Definition ok (v : View) : Prop :=
  match v_conn v with
  | Some c => open_ok c v
  | None => v = closed_view
  end.

Definition invariant (m : t) : Prop := stuck m = false -> forall fd, ok (view fd m).

(** ** The operations on one descriptor *)

Section Descriptor.
Context (fd : Z).

(** Nothing of another descriptor changes. *)
Definition only (m m' : t) : Prop := forall fd', fd' <> fd -> view fd' m' = view fd' m.

#[export] Instance only_preorder : PreOrder only.
Proof. split; [by intros m fd'|]. intros m1 m2 m3 H1 H2 fd' N. by rewrite H2, H1. Qed.

Ltac solve_only := intros fd' N; unfold view; cbn; by rewrite ?lookup_insert_ne, ?lookup_delete_ne by done.

Lemma only_conn c w m : only m (set_conn fd c w m). Proof. solve_only. Qed.
Lemma only_buffer b m : only m (set_buffer fd b m). Proof. solve_only. Qed.
Lemma only_watch f m : only m (watch fd f m). Proof. solve_only. Qed.
Lemma only_produced d m : only m (record_produced fd d m). Proof. solve_only. Qed.
Lemma only_sent d m : only m (record_sent fd d m). Proof. solve_only. Qed.
Lemma only_close m : only m (close_connection fd m). Proof. solve_only. Qed.

Lemma only_send d m : only m (snd (send_data net fd d m)).
Proof.
  unfold send_data. destruct (buffer fd m); [|apply only_buffer].
  destruct (net (sends m)); cbn; [|..]; try apply only_sent; (etransitivity; [apply only_sent|apply only_buffer]).
Qed.

Lemma only_write fuel m : only m (snd (write_pending net fuel fd m)).
Proof.
  revert m. induction fuel as [|fuel IH]; intros m; cbn; [reflexivity|]. destruct (buffer fd m); [reflexivity|].
  destruct (net (sends m)); cbn; try apply only_sent. etransitivity; [|apply IH].
  etransitivity; [apply only_sent|apply only_buffer].
Qed.

(** Sending: what is sent now and what is kept add up. *)
Definition kept (m m' : t) (d : bytes) : Prop :=
  connections_ m' !! fd = connections_ m !! fd /\ watched m' !! fd = watched m !! fd /\
  produced m' !! fd = produced m !! fd /\ stuck m' = stuck m /\
  default [] (sent m' !! fd) ++ buffer fd m' = default [] (sent m !! fd) ++ buffer fd m ++ d.

Lemma send_kept d (m : t) m' : send_data net fd d m = (true, m') -> kept m m' d.
Proof.
  unfold send_data, kept. destruct (buffer fd m) as [|x b] eqn:B.
  - destruct (net (sends m)); intros [= <-]; cbn; unfold buffer; cbn; rewrite !lookup_insert_eq; cbn; split_and!; try done.
    + by rewrite <- app_assoc, take_drop.
    + by rewrite app_nil_r.
  - intros [= <-]. unfold buffer. cbn. by rewrite lookup_insert_eq.
Qed.

Lemma send_stuck d (m : t) : stuck (snd (send_data net fd d m)) = stuck m.
Proof. unfold send_data. by repeat case_match. Qed.

Lemma write_kept fuel (m : t) r m' : write_pending net fuel fd m = (r, m') -> (length (buffer fd m) < fuel)%nat ->
  kept m m' [] /\ (0 < r -> buffer fd m' = []) /\ (r = 0 -> buffer fd m <> []).
Proof.
  revert m. induction fuel as [|fuel IH]; intros m E L; [lia|]. cbn in E. destruct (buffer fd m) as [|x b] eqn:B.
  - injection E as <- <-. unfold kept. rewrite app_nil_r. by split_and!.
  - destruct (net (sends m)) as [k| |].
    + apply IH in E as [(K1 & K2 & K3 & K4 & K5) [R1 R2]].
      2:{ unfold buffer. cbn -[drop]. rewrite lookup_insert_eq. cbn -[drop]. rewrite length_drop. cbn in *. lia. }
      split; [|by split]. unfold kept in *. cbn in K1, K2, K3, K4. split_and!; [done..|]. rewrite K5. cbn. unfold buffer at 1.
      cbn. rewrite !lookup_insert_eq. cbn. rewrite !app_nil_r. rewrite <- !app_assoc. f_equal. rewrite B. cbn. by rewrite take_drop.
    + injection E as <- <-. unfold kept, buffer. cbn. rewrite lookup_insert_eq. cbn. rewrite !app_nil_r. split_and!; try done; lia.
    + injection E as <- <-. unfold kept, buffer. cbn. rewrite lookup_insert_eq. cbn. rewrite !app_nil_r. split_and!; try done; lia.
Qed.

Lemma write_stuck fuel (m : t) : stuck (snd (write_pending net fuel fd m)) = stuck m.
Proof.
  revert m. induction fuel as [|fuel IH]; intros m; cbn; [done|]. destruct (buffer fd m); [done|].
  destruct (net (sends m)); try done. by rewrite IH.
Qed.

Lemma close_ok (m : t) : ok (view fd (close_connection fd m)).
Proof. unfold ok, view. cbn. by rewrite !lookup_delete_eq. Qed.

(** An open descriptor, in terms of the state. *)
Lemma ok_open (m : t) c : connections_ m !! fd = Some c -> ok (view fd m) ->
  ts_good c /\ default [] (sent m !! fd) ++ buffer fd m = default [] (produced m !! fd) /\
  exists f, watched m !! fd = Some f /\ (buffer fd m <> [] -> f = true) /\ (ts_keep_alive c = false -> f = true).
Proof. unfold ok, view. cbn. intros ->. done. Qed.

Lemma open_intro (m : t) c : connections_ m !! fd = Some c -> ts_good c ->
  default [] (sent m !! fd) ++ buffer fd m = default [] (produced m !! fd) ->
  (exists f, watched m !! fd = Some f /\ (buffer fd m <> [] -> f = true) /\ (ts_keep_alive c = false -> f = true)) ->
  ok (view fd m).
Proof. unfold ok, view, open_ok, balanced. cbn. by intros -> G B F. Qed.

(** Output of the connection, sent from a balanced state. *)
Lemma output_kept d (m : t) m' : default [] (sent m !! fd) ++ buffer fd m = default [] (produced m !! fd) ->
  send_data net fd d (record_produced fd d m) = (true, m') ->
  connections_ m' !! fd = connections_ m !! fd /\ watched m' !! fd = watched m !! fd /\
  default [] (sent m' !! fd) ++ buffer fd m' = default [] (produced m' !! fd).
Proof.
  intros B E. apply send_kept in E as (K1 & K2 & K3 & _ & K5). cbn in K1, K2, K3. rewrite lookup_insert_eq in K3.
  split_and!; [done|done|]. rewrite K5, K3. cbn. unfold buffer. cbn. fold (buffer fd m). by rewrite app_assoc, B.
Qed.

Lemma buffer_same (m : t) : buffer fd (set_buffer fd (buffer fd m) m) = buffer fd m.
Proof. unfold buffer. cbn. by rewrite lookup_insert_eq. Qed.

Lemma pending_spec (m : t) : has_pending_writes fd m = true <-> buffer fd m <> [].
Proof. unfold has_pending_writes. rewrite negb_true_iff, bool_decide_eq_false. done. Qed.

End Descriptor.

(** ** Events *)

Lemma accept_step fd c (m : t) : stuck m = false -> ok (view fd m) -> ts_fresh c ->
  ok (view fd (on_accept net fd c m)) /\ only fd m (on_accept net fd c m).
Proof.
  intros St O G. unfold on_accept. destruct (connections_ m !! fd) as [c0|] eqn:E; [by split|].
  destruct (ts_handshake_good c G) as [G' A']. destruct (ts_handshake c) as [r c']. cbn [snd] in G', A'.
  unfold ok, view in O. cbn in O. rewrite E in O. injection O as OB OW OP OS.
  set (m1 := set_conn fd c' (world m) m).
  assert (default [] (sent m1 !! fd) ++ buffer fd m1 = default [] (produced m1 !! fd)) as B1.
  { unfold buffer. cbn. by rewrite OB, OP, OS. }
  assert (exists b m2, match r with Some (x :: d) => send_data net fd (x :: d) (record_produced fd (x :: d) m1) | _ => (true, m1) end = (b, m2) /\
    only fd m m2 /\ (b = true -> connections_ m2 !! fd = Some c' /\
      default [] (sent m2 !! fd) ++ buffer fd m2 = default [] (produced m2 !! fd))) as (b & m2 & -> & F & K).
  { destruct r as [[|x d]|]; [eexists _, _; split; [done|]; split; [apply only_conn|by cbn; rewrite lookup_insert_eq]| |
      eexists _, _; split; [done|]; split; [apply only_conn|by cbn; rewrite lookup_insert_eq]].
    destruct (send_data _ _ _ _) as [b m2] eqn:Es. exists b, m2. split; [done|]. split.
    - change m2 with (snd (b, m2)). rewrite <- Es. etransitivity; [apply only_conn|]. etransitivity; [apply only_produced|apply only_send].
    - intros ->. apply output_kept in Es as (K1 & _ & K3); [|done]. split; [|done]. rewrite K1. cbn. by rewrite lookup_insert_eq. }
  destruct b; [|split; [apply close_ok|etransitivity; [exact F|apply only_close]]].
  destruct (K eq_refl) as [K1 K2]. split; [|etransitivity; [exact F|]; etransitivity; [apply only_buffer|apply only_watch]].
  apply open_intro with (c := c'); [done|done|by cbn; unfold buffer at 1; cbn; rewrite lookup_insert_eq|].
  eexists. cbn. rewrite lookup_insert_eq. split; [done|]. rewrite A'. split; [|done]. unfold buffer at 1. cbn. rewrite lookup_insert_eq.
  by intros P%pending_spec.
Qed.

Lemma recv_step fd d (m : t) : stuck m = false -> ok (view fd m) ->
  (stuck (on_recv net fd d m) = false -> ok (view fd (on_recv net fd d m))) /\ only fd m (on_recv net fd d m).
Proof.
  intros St O. unfold on_recv. destruct (connections_ m !! fd) as [c|] eqn:E; [|by split].
  destruct (ok_open fd m c E O) as (G & B & f & Hf & Hb & Hk). pose proof (ts_recv_good d c (world m) G) as G'.
  destruct (ts_recv d c (world m)) as [[r c'] w]. cbn [fst snd] in G'. set (m1 := set_conn fd c' w m).
  destruct r as [out| |]; [|split; [intros _; apply close_ok|etransitivity; [apply only_conn|apply only_close]]|split; [done|apply only_conn]].
  assert (exists b m2, (if len out =? 0 then (true, m1) else send_data net fd out (record_produced fd out m1)) = (b, m2) /\
    only fd m m2 /\ (b = true -> connections_ m2 !! fd = Some c' /\ watched m2 !! fd = Some f /\
      default [] (sent m2 !! fd) ++ buffer fd m2 = default [] (produced m2 !! fd))) as (b & m2 & -> & F & K).
  { destruct (len out =? 0); [eexists _, _; split; [done|]; split; [apply only_conn|]; intros _; cbn; by rewrite lookup_insert_eq|].
    destruct (send_data _ _ _ _) as [b m2] eqn:Es. exists b, m2. split; [done|]. split.
    - change m2 with (snd (b, m2)). rewrite <- Es. etransitivity; [apply only_conn|]. etransitivity; [apply only_produced|apply only_send].
    - intros ->. apply output_kept in Es as (K1 & K2 & K3); [|exact B]. split_and!; [|by rewrite K2|done]. rewrite K1. cbn. by rewrite lookup_insert_eq. }
  destruct b; cbn [negb]; [|split; [intros _; apply close_ok|etransitivity; [exact F|apply only_close]]].
  destruct (K eq_refl) as (K1 & K2 & K3). set (m3 := set_buffer fd (buffer fd m2) m2).
  assert (has_pending_writes fd m3 = has_pending_writes fd m2) as Hp by (unfold has_pending_writes, m3; by rewrite buffer_same).
  set (m4 := if has_pending_writes fd m3 then watch fd true m3 else m3).
  assert (only fd m m4) as F4.
  { etransitivity; [exact F|]. unfold m4. case_match; [etransitivity; [apply only_buffer|apply only_watch]|apply only_buffer]. }
  assert (has_pending_writes fd m4 = has_pending_writes fd m2) as Hp4 by (rewrite <- Hp; unfold m4; by case_match).
  destruct (negb (ts_keep_alive c') && negb (has_pending_writes fd m4)) eqn:X; [split; [intros _; apply close_ok|etransitivity; [exact F4|apply only_close]]|].
  split; [intros _|done]. apply open_intro with (c := c').
  - unfold m4. case_match; done.
  - done.
  - assert (buffer fd m4 = buffer fd m2) as -> by (rewrite <- (buffer_same fd m2); unfold m4; by case_match).
    unfold m4. case_match; done.
  - destruct (has_pending_writes fd m2) eqn:P2.
    + exists true. split; [|done]. unfold m4. rewrite Hp. cbn. by rewrite lookup_insert_eq.
    + exists f. split; [unfold m4; by rewrite Hp|]. rewrite Hp4, andb_true_r in X.
      split; [intros N|intros N; by rewrite N in X]. exfalso.
      assert (buffer fd m4 = buffer fd m2) as Eb by (rewrite <- (buffer_same fd m2); unfold m4; by case_match).
      rewrite Eb in N. apply pending_spec in N. congruence.
Qed.

Lemma write_step fd (m : t) : stuck m = false -> ok (view fd m) ->
  ok (view fd (on_writable net fd m)) /\ only fd m (on_writable net fd m).
Proof.
  intros St O. unfold on_writable. destruct (connections_ m !! fd) as [c|] eqn:E; [|by split].
  destruct (ok_open fd m c E O) as (G & B & f & Hf & Hb & Hk). set (m1 := set_buffer fd (buffer fd m) m).
  destruct (write_pending _ _ _ _) as [r m2] eqn:Ew.
  assert (only fd m m2) as F.
  { change m2 with (snd (r, m2)). rewrite <- Ew. etransitivity; [apply only_buffer|apply only_write]. }
  apply write_kept in Ew as [(K1 & K2 & K3 & _ & K5) [R1 R2]]; [|lia]. unfold m1 in K5, R2. rewrite buffer_same in K5, R2. cbn in K1, K2, K3, K5.
  rewrite app_nil_r in K5. destruct (r <? 0) eqn:X1; [split; [apply close_ok|etransitivity; [exact F|apply only_close]]|].
  destruct (0 <? r) eqn:X2; to_prop.
  - destruct (ts_keep_alive c) eqn:A; cbn [negb]; [|split; [apply close_ok|etransitivity; [exact F|apply only_close]]].
    split; [|etransitivity; [exact F|apply only_watch]].
    apply open_intro with (c := c); [cbn; congruence|done|change (default [] (sent m2 !! fd) ++ buffer fd m2 = default [] (produced m2 !! fd)); congruence|].
    exists false. cbn. rewrite lookup_insert_eq, A. split_and!; [done| |done]. intros N. exfalso. apply N. by apply R1.
  - split; [|done]. apply open_intro with (c := c); [congruence|done|congruence|].
    exists f. split; [congruence|]. split; [|done]. intros _. apply Hb, R2. lia.
Qed.

Lemma drain_step fd (m : t) : stuck m = false -> ok (view fd m) ->
  ok (view fd (drain_websocket_outbound net fd m)) /\ only fd m (drain_websocket_outbound net fd m).
Proof.
  intros St O. unfold drain_websocket_outbound. destruct (connections_ m !! fd) as [c|] eqn:E; [|by split].
  destruct (ok_open fd m c E O) as (G & B & f & Hf & Hb & Hk). pose proof (ts_drain_good c (world m) G) as G'.
  pose proof (ts_drain_quiet c (world m) G) as Q. destruct (ts_drain c (world m)) as [[r c'] w]. cbn [fst snd] in G', Q.
  set (m1 := set_conn fd c' w m).
  assert (default [] r = [] -> ok (view fd m1)) as Quiet.
  { intros R. apply open_intro with (c := c'); [by cbn; rewrite lookup_insert_eq|done|done|]. exists f. rewrite (Q R). by split_and!. }
  destruct r as [[|x d]|]; [split; [by apply Quiet|apply only_conn]| |split; [by apply Quiet|apply only_conn]].
  destruct (send_data _ _ _ _) as [b m2] eqn:Es.
  assert (only fd m m2) as F.
  { change m2 with (snd (b, m2)). rewrite <- Es. etransitivity; [apply only_conn|]. etransitivity; [apply only_produced|apply only_send]. }
  destruct b; [|split; [apply close_ok|etransitivity; [exact F|apply only_close]]].
  apply output_kept in Es as (K1 & K2 & K3); [|exact B]. split; [|etransitivity; [exact F|apply only_watch]].
  apply open_intro with (c := c'); [cbn; rewrite K1; cbn; by rewrite lookup_insert_eq|done|exact K3|].
  exists true. cbn. by rewrite lookup_insert_eq.
Qed.

(** ** Runs *)

Definition legal (e : Event C) : Prop := match e with Accept _ c => ts_fresh c | _ => True end.

Lemma stuck_step (m : t) e : stuck m = true -> stuck (handle net m e) = true.
Proof.
  intros S. destruct e as [fd c|fd r|fd|fd]; cbn.
  - unfold on_accept. case_match; [done|]. destruct (ts_handshake c) as [[[|x d]|] c']; try done.
    pose proof (send_stuck fd (x :: d) (record_produced fd (x :: d) (set_conn fd c' (world m) m))) as K.
    destruct (send_data _ _ _ _) as [[] m2]; cbn in *; congruence.
  - destruct r; try done. unfold on_recv. case_match; [|done]. destruct (ts_recv _ _ _) as [[[out| |] c'] w]; try done.
    destruct (len out =? 0); [cbn; repeat case_match; done|].
    pose proof (send_stuck fd out (record_produced fd out (set_conn fd c' w m))) as K.
    destruct (send_data _ _ _ _) as [[] m2]; cbn in *; repeat case_match; cbn; congruence.
  - unfold on_writable. case_match; [|done]. destruct (write_pending _ _ _ _) as [r m2] eqn:E.
    pose proof (write_stuck fd (Datatypes.S (length (buffer fd (set_buffer fd (buffer fd m) m)))) (set_buffer fd (buffer fd m) m)) as K.
    rewrite E in K. cbn in K. repeat case_match; cbn; congruence.
  - unfold drain_websocket_outbound. case_match; [|done]. destruct (ts_drain _ _) as [[[[|x d]|] c'] w]; try done.
    pose proof (send_stuck fd (x :: d) (record_produced fd (x :: d) (set_conn fd c' w m))) as K.
    destruct (send_data _ _ _ _) as [[] m2]; cbn in *; congruence.
Qed.

Lemma handle_invariant m e : legal e -> invariant m -> invariant (handle net m e).
Proof.
  intros L I S. assert (stuck m = false) as Sm.
  { destruct (stuck m) eqn:E; [|done]. pose proof (stuck_step m e E). congruence. }
  specialize (I Sm).
  assert (forall fd m', ok (view fd m') -> only fd m m' -> forall fd', ok (view fd' m')) as K.
  { intros fd m' O F fd'. destruct (decide (fd' = fd)) as [->|N]; [done|]. by rewrite F. }
  destruct e as [fd c|fd r|fd|fd]; cbn in *.
  - destruct (accept_step fd c m Sm (I fd) L). by eapply K.
  - destruct r as [d| | |]; try (eapply K; [apply close_ok|apply only_close]); [|done].
    destruct (recv_step fd d m Sm (I fd)) as [O F]. eapply K; [by apply O|done].
  - destruct (write_step fd m Sm (I fd)). by eapply K.
  - destruct (drain_step fd m Sm (I fd)). by eapply K.
Qed.

Lemma run_invariant es (m : t) : Forall legal es -> invariant m -> invariant (run net es m).
Proof.
  revert m. induction es as [|e es IH]; intros m F I; [done|]. apply Forall_cons in F as [F1 F2].
  by apply IH, handle_invariant.
Qed.

(** A socket that takes what it is given empties the buffer. *)
Lemma write_flush fd fuel (m : t) : (forall n, (sends m <= n)%nat -> exists k, net n = SentMore k) ->
  (length (buffer fd m) < fuel)%nat -> fst (write_pending net fuel fd m) = 1.
Proof.
  revert m. induction fuel as [|fuel IH]; intros m N L; [lia|]. cbn. destruct (buffer fd m) as [|x b] eqn:B; [done|].
  destruct (N (sends m)) as [k ->]; [done|]. apply IH.
  - intros n Hn. apply N. cbn in Hn. lia.
  - unfold buffer. cbn -[drop]. rewrite lookup_insert_eq. cbn -[drop]. rewrite length_drop. cbn in *. lia.
Qed.


End Manager.
End TcpManagerProps.
