(* ===== verification/TcpService.v ===== *)
(** * TCP connections implement what their manager relies on

    [TcpConnection] as an instance of [TcpSession], a served HTTP/1.1 request
    and a WebSocket upgrade through the manager, and what goes wrong. *)

From S2P Require Import Prelude CxxString HttpMessage WebSocket WsHandshake Sse Http1 Http2 TcpConnection TcpManager TcpManagerProps.

Module TcpService.
Import Tls TcpConnection.

Section Service.
Context {S A : Type} `{OpenSSL S}.
Abbreviation W := (Http1.World (A:=A)).
Context (handler_ : Request.t -> Response.t -> W -> Request.t * Response.t * W).
Context (upgrade_handler_ : option (Request.t -> W -> Http1.UpgradeResult * W)).
Context (http2_websocket_handler_ : option (Request.t -> W -> Request.t * Http2.WebSocketConnectResult * W)).
Context (validate : Request.t -> option (result ProtocolError bytes)).
Context (takes : list (Http2.Submission * bool) -> Http2.Submission -> bool).
Context (order : list Z -> list Z).
Context (mem_recv : Http2.St (A:=A * S) -> bytes -> option (list Http2.Event)).
Context (mem_send : Http2.St (A:=A * S) -> list (list Http2.Event * bytes)).
(** On an established connection data is encrypted to at least one byte. *)
Context (Htls : forall d s, d <> [] -> exists s' e s'', ssl_write d s = (None, s') /\ bio_read_all s' = (e, s'') /\ e <> []).

Abbreviation on_recv := (TcpConnection.on_recv handler_ upgrade_handler_ http2_websocket_handler_ validate takes order mem_recv mem_send).
Abbreviation drain := (TcpConnection.drain handler_ http2_websocket_handler_ takes order mem_send).

(** A session is there only on an established connection. *)
Definition established (c : t S A) : Prop :=
  match session_ c with Monostate => True | _ => handshake_status_ (tls_stream_ c) = Tls.Complete end.

Lemma feed_status d (s : Stream S) : handshake_status_ s = Tls.Complete ->
  handshake_status_ (snd (feed_network_data d s)) = Tls.Complete.
Proof using.
  intros E. unfold feed_network_data. rewrite E, bool_decide_false by done.
  destruct (if len d =? 0 then _ else _) as [[] s']; cbn [negb]; [|done].
  unfold set_ssl. cbn -[read_loop]. rewrite ?E, bool_decide_false by done. cbn -[read_loop]. rewrite ?E, bool_decide_true by done.
  repeat case_match; simplify_eq; cbn; done.
Qed.

Lemma websocket_out_status ws (c : t S A) :
  handshake_status_ (tls_stream_ (snd (websocket_out ws c))) = handshake_status_ (tls_stream_ c) /\
  exists ws', session_ (snd (websocket_out ws c)) = OnWebSocket ws'.
Proof using.
  unfold websocket_out. destruct (connection_take_outbound ws) as [out ws'].
  assert (forall d (s : Stream S), handshake_status_ (snd (encrypt_cb d s)) = handshake_status_ s) as E.
  { intros d s. unfold encrypt_cb, encrypt_app_data, get_pending_send_data. repeat case_match; simplify_eq; done. }
  specialize (E out (tls_stream_ c)). destruct (len out =? 0); [by cbn; eauto|].
  destruct (encrypt_cb out (tls_stream_ c)) as [e s]. cbn in *. by eauto.
Qed.

Lemma upgrade_status s (c : t S A) r c' : upgrade s c = (r, c') ->
  handshake_status_ (tls_stream_ c') = handshake_status_ (tls_stream_ c).
Proof using.
  unfold upgrade. destruct (Http1.take_upgrade_handler s) as [h s1], (Http1.take_remaining_data s1) as [tr s2].
  destruct h as [a|]; [|by intros [= <- <-]]. set (ws := new_connection _ _ _ _ _). set (c1 := mk _ _ _ _).
  destruct (websocket_out_status ws c1) as [E1 (ws' & E2)]. destruct (websocket_out ws c1) as [out c2]. cbn [snd] in *.
  destruct (len tr =? 0); [by intros [= <- <-]|]. rewrite E2.
  destruct (websocket_out_status (snd (feed tr ws')) c2) as [E3 _]. destruct (websocket_out _ c2) as [out' c3]. cbn [snd] in *.
  intros [= <- <-]. by rewrite E3, E1.
Qed.

Lemma decrypted_status d (c : t S A) w :
  handshake_status_ (tls_stream_ (snd (fst (on_decrypted handler_ upgrade_handler_ http2_websocket_handler_ validate takes order mem_recv mem_send d c w))))
  = handshake_status_ (tls_stream_ c).
Proof using.
  unfold on_decrypted. destruct (session_ c) as [|s|st|ws] eqn:E; [done|..].
  - destruct (Http1.feed_data _ _ _ _ _ _ _) as [[[out|code| | |] s'] w']; try done.
    destruct (Http1.upgraded_ s'); [|done]. destruct (upgrade s' _) as [r c'] eqn:U. apply upgrade_status in U.
    destruct r; cbn in *; by rewrite U.
  - destruct (h2_feed_data _ _ _ _ _ _ _ _ _) as [r st']. by destruct r.
  - destruct (websocket_out_status (snd (feed d ws)) c) as [E1 _]. destruct (websocket_out _ c) as [out c']. by cbn in *.
Qed.

Lemma recv_established d (c : t S A) w : established c -> established (snd (fst (on_recv d c w))).
Proof using.
  intros G. unfold TcpConnection.on_recv. pose proof (feed_status d (tls_stream_ c)) as F.
  destruct (feed_network_data d (tls_stream_ c)) as [r s]. cbn [snd] in F.
  assert (established (set_tls s c)) as G1 by (unfold established in *; cbn; destruct (session_ c); auto).
  destruct r as [e|[hs data]]; [done|]. set (c1 := choose_session (set_tls s c) w).
  assert (established c1 /\ (handshake_status_ (tls_stream_ c1) = Tls.Complete \/ session_ c1 = Monostate)) as [G2 G2'].
  { unfold c1, choose_session. cbn. unfold established in *. cbn in *. destruct (session_ c) eqn:E; cbn; rewrite ?E; [|by auto..].
    case_bool_decide; [|cbn; rewrite E; by auto]. case_bool_decide; cbn; by auto. }
  assert (forall c2 : t S A, handshake_status_ (tls_stream_ c2) = handshake_status_ (tls_stream_ c1) ->
    (session_ c1 = Monostate -> session_ c2 = Monostate) -> established c2) as K.
  { intros c2 E M. unfold established. destruct G2' as [C|C]; [rewrite E, C; by destruct (session_ c2)|by rewrite (M C)]. }
  destruct (len data =? 0).
  { destruct (get_pending_send_data (tls_stream_ c1)) as [x s'] eqn:P. cbn. apply K; [|done].
    unfold get_pending_send_data in P. destruct (bio_read_all _). by injection P as <- <-. }
  pose proof (decrypted_status data c1 w) as D.
  assert (session_ c1 = Monostate -> session_ (snd (fst (on_decrypted handler_ upgrade_handler_ http2_websocket_handler_ validate takes order
    mem_recv mem_send data c1 w))) = Monostate) as M by (intros E; unfold on_decrypted; by rewrite E).
  destruct (on_decrypted _ _ _ _ _ _ _ _ _ _ _) as [[r c2] w2]. cbn [fst snd] in *.
  destruct r as [out| |]; [|by apply K..]. destruct (get_pending_send_data (tls_stream_ c2)) as [x s'] eqn:P. cbn.
  unfold get_pending_send_data in P. destruct (bio_read_all _). injection P as <- <-. by apply K.
Qed.

Lemma drain_established (c : t S A) w : established c -> established (snd (fst (drain c w))).
Proof using.
  intros G. unfold established, TcpConnection.drain in *. destruct (session_ c) as [|s|st|ws] eqn:E.
  - cbn. by rewrite E.
  - destruct (Http1.drain_sse_outbound _ _ _) as [[e s'] w']. done.
  - destruct (send_pending_frames _ _ _ _ _ _ _) as [out st']. done.
  - destruct (drain_external_outbound ws) as [raw ws']. destruct (len raw =? 0); [done|].
    destruct (encrypt_app_data raw _) as [r s] eqn:X. cbn.
    unfold encrypt_app_data, get_pending_send_data in X. cbn in X. repeat case_match; simplify_eq; done.
Qed.

Lemma encrypt_some d (s : Stream S) : handshake_status_ s = Tls.Complete -> d <> [] ->
  exists e s', encrypt_app_data d s = (inr e, s') /\ e <> [].
Proof using Htls.
  intros E N. unfold encrypt_app_data. rewrite E, bool_decide_true by done. cbn.
  assert (len d =? 0 = false) as -> by (destruct d; [done|reflexivity]).
  destruct (Htls d (ssl_ s) N) as (s' & e & s'' & -> & B & Ne). unfold get_pending_send_data. cbn. rewrite B. by eauto.
Qed.

Lemma drain_quiet (c : t S A) w : established c -> default [] (fst (fst (drain c w))) = [] ->
  keep_alive (snd (fst (drain c w))) = keep_alive c.
Proof using Htls.
  intros G. unfold established, TcpConnection.drain, keep_alive in *. destruct (session_ c) as [|s|st|ws] eqn:E.
  - cbn. by rewrite E.
  - unfold Http1.drain_sse_outbound. destruct (Http1.sse_active_ s); [|done]. destruct (Http1.sse_channel_ s) as [i|]; [|done].
    destruct (Http1.channels _ !! i) as [ch|]; [|done]. destruct (Http1.drain_events _ _ _) as [raw ch1].
    destruct (Sse.closed_ ch1 && negb (Http1.sse_terminal_sent_ s)); [|].
    + set (raw' := raw ++ bs "0" ++ Http1.CRLF ++ Http1.CRLF).
      assert (raw' <> []) as N by (unfold raw'; by destruct raw).
      assert (len raw' =? 0 = false) as -> by (destruct raw'; [done|reflexivity]).
      unfold encrypt, encrypt_cb. cbn [Tls.handshake_status_ Http1.app].
      match goal with |- context [encrypt_app_data raw' ?t] => destruct (encrypt_some raw' t G N) as (e & s' & -> & Ne) end.
      cbn. intros X. by destruct Ne.
    + destruct (len raw =? 0); [done|]. destruct (encrypt _ _ _) as [e w']. done.
  - destruct (send_pending_frames _ _ _ _ _ _ _) as [out st']. done.
  - unfold drain_external_outbound. destruct (shared_ (WebSocket.session_ ws)); [|done]. cbn. destruct (len _ =? 0); [done|].
    destruct (encrypt_app_data _ _) as [r s']. done.
Qed.

(** The handshake of a new connection; an error is an empty answer. *)
Definition handshake (c : t S A) : option bytes * t S A :=
  let '(r, c') := initiate_handshake c in (match r with inr d => Some d | inl _ => None end, c').

#[export] Instance tcp_session : TcpSession (t S A) W.
Proof using All.
  refine {|
    ts_keep_alive := keep_alive; ts_handshake := handshake; ts_recv := on_recv; ts_drain := drain;
    ts_fresh := fun c => session_ c = Monostate; ts_good := established
  |}.
  - intros c E. unfold handshake, initiate_handshake, established, keep_alive. destruct (do_handshake _) as [[r out] s]. cbn. by rewrite E.
  - exact recv_established.
  - exact drain_established.
  - exact drain_quiet.
Defined.

End Service.
(** ** A concrete service *)

(** TLS without encryption: records received, bytes to send. *)
Record Plain := mkPlain { records : list ReadResult; to_send : bytes }.

#[export] Instance plain_tls : OpenSSL Plain.
Proof.
  refine {|
    bio_write := fun d s => (true, mkPlain (records s ++ [ReadData d]) (to_send s));
    ssl_do_handshake := fun s => (HsComplete, s);
    ssl_read := fun s => match records s with [] => (ReadWant, s) | r :: rs => (r, mkPlain rs (to_send s)) end;
    ssl_write := fun d s => (None, mkPlain (records s) (to_send s ++ d));
    bio_read_all := fun s => (to_send s, mkPlain (records s) []);
    ssl_alpn := fun _ => bs "http/1.1";
    ssl_left := fun s => length (records s)
  |}.
  intros s d s'. destruct (records s) as [|r rs] eqn:E; [done|]. intros [= -> <-]. cbn. lia.
Defined.

Lemma plain_encrypts d (s : Plain) : d <> [] ->
  exists s' e s'', ssl_write d s = (None, s') /\ bio_read_all s' = (e, s'') /\ e <> [].
Proof. intros N. eexists _, _, _. cbn. split_and!; [done|done|]. by destruct (to_send s), d. Qed.

Definition hello (r : Request.t) (res : Response.t) (w : Http1.World (A:=nat)) : Request.t * Response.t * Http1.World (A:=nat) :=
  (r, Response.body (bs "hello") res, w).

Definition small : Limits := mkLimits 1024 100.
Definition chatty : Handler := mkHandler (Some (fun _ => [CallSendText (bs "welcome")])) None None false small.

(** Every GET of /ws is upgraded. *)
Definition upgrades (r : Request.t) (w : Http1.World (A:=nat)) : Http1.UpgradeResult * Http1.World (A:=nat) :=
  (if bool_decide (Request.path_ r = bs "/ws") then Http1.UpAccepted (Some chatty) [] [] else Http1.NotWebSocketRoute, w).

#[export] Instance service : TcpSession (t Plain nat) (Http1.World (A:=nat)) :=
  tcp_session hello (Some upgrades) None (fun _ => Some (inr (bs "key"))) (fun _ _ => true) id (fun _ _ => Some []) (fun _ => [])
    plain_encrypts.

Definition connection : t Plain nat := new (mkPlain [] []) (bs "peer") 1.
Definition get_hello : bytes := bs "GET /hello HTTP/1.1" ++ Http1.CRLF ++ bs "Host: h" ++ Http1.CRLF ++ Http1.CRLF.

(** The socket blocks at first. *)
Definition network (n : nat) : TcpManager.SendResult := match n with O => TcpManager.WouldBlock | _ => TcpManager.SentMore 3 end.

Definition request_events : list (TcpManager.Event (t Plain nat)) :=
  [TcpManager.Accept 5 connection; TcpManager.ReadReady 5 (TcpManager.RecvData get_hello)].


(** The response goes out in pieces once the socket takes it. *)
Example request_served_over_tcp :
  let m := TcpManager.run network (request_events ++ [TcpManager.WriteReady 5]) (TcpManager.init (Http1.mkWorld 0%nat ∅)) in
  TcpManager.stuck m = false /\ TcpManager.watched m !! 5 = Some false /\
  TcpManager.sent m !! 5 = Some (Http1.serialize_response true (Response.body (bs "hello") Response.init)).
Proof. vm_compute. done. Qed.

(** ** What goes wrong *)

(** A request that arrives together with the end of the TLS connection is read
    and dropped: the error of the next read replaces it. *)
Lemma data_before_close_lost :
  let s := mkStream (mkPlain [ReadData get_hello; ReadError 6] []) Tls.Complete in
  fst (feed_network_data [] s) = inl 6 /\ fst (feed_network_data [] (mkStream (mkPlain [ReadData get_hello] []) Tls.Complete)) = inr ([], get_hello).
Proof. vm_compute. done. Qed.

(** An open WebSocket with nothing to send and a message of another thread. *)
Definition slow : WebSocket.Connection :=
  let ws := snd (connection_take_outbound (new_connection 1 (mkHandler None None None false small) [] true None)) in
  with_session (set_shared (snd <$> (enqueue QText (repeat "x"%char 60) <$> shared_ (WebSocket.session_ ws))) (WebSocket.session_ ws)) ws.

Definition websocket_manager : TcpManager.t (t Plain nat) (Http1.World (A:=nat)) :=
  TcpManager.mk {[5 := mk (mkStream (mkPlain [] []) Tls.Complete) [] (OnWebSocket slow) 2]} ∅ {[5 := false]} (Http1.mkWorld 0%nat ∅) 0 ∅ ∅ false.

(** Another message of 60 bytes is queued on the shared session. *)
Definition send_more (m : TcpManager.t (t Plain nat) (Http1.World (A:=nat))) : TcpManager.t (t Plain nat) (Http1.World (A:=nat)) :=
  match TcpManager.connections_ m !! 5 with
  | Some c => match session_ c with
              | OnWebSocket ws => TcpManager.set_conn 5 (set_session (OnWebSocket
                  (with_session (set_shared (snd <$> (enqueue QText (repeat "x"%char 60) <$> shared_ (WebSocket.session_ ws))) (WebSocket.session_ ws)) ws)) c)
                  (TcpManager.world m) m
              | _ => m
              end
  | None => m
  end.

(** The limit on pending bytes, 100 here, does not see the buffer of the
    socket: with a peer that does not read, messages are accepted and buffered
    without end. *)
Lemma tcp_websocket_buffer_unbounded :
  let blocked := fun _ => TcpManager.WouldBlock in
  let drain m := TcpManager.handle blocked m (TcpManager.Drain 5) in
  let m := drain (send_more (drain (send_more (drain websocket_manager)))) in
  len (TcpManager.buffer 5 m) = 186 /\ (keep_alive <$> TcpManager.connections_ m !! 5) = Some true.
Proof. vm_compute. done. Qed.

End TcpService.
