(* ===== verification/Shard.v ===== *)
(** * Serving a request

    The handlers that [core/shard.cpp] gives to the protocol sessions: the
    middleware pipeline around routing, static resources and the report of
    exceptions ([core/error_response.h]), and the decision about WebSocket
    handshakes over HTTP/1.1 and HTTP/2.

    Route handlers, exception handlers, authorizers and the file system are
    parameters.  The write of [Router::match] to [lookup_method_] is left out
    here: the look-up of one request does not read an older one. *)

From S2P Require Import Prelude CxxString HttpMessage Router WebSocket WsHandshake Sse Http1 Http2 Middleware Jwt StaticResource.
Import Middleware.
Import Http1 (UpgradeResult, NotWebSocketRoute, UpAccepted, UpRejected).

(** ** [core/error_response.h] *)

Module ErrorResponse.

(** The characters are escaped as in the JWT issuer. *)
Definition json_escape (text : bytes) : bytes :=
  for_each (fun escaped ch => escaped ++ Jwt.json_escape_char ch) text [].

Definition write_unhandled_error (response : Response.t) (what : bytes) (expose_error_details : bool) : Response.t :=
  if expose_error_details then
    Response.json
      (js "{'error':'Internal Server Error','message':'" ++ json_escape what ++ js "'}")
      (Response.status 500 response)
  else Response.json (js "{'error':'Internal Server Error'}") (Response.status 500 response).

Definition write_unknown_error (response : Response.t) : Response.t :=
  Response.json (js "{'error':'Internal Server Error'}") (Response.status 500 response).

End ErrorResponse.

Module Shard.
Import ErrorResponse.

(** What a route handler can throw: [json::BindingException],
    [validation::ValidationException], another [std::exception], a value of
    another type; or its behaviour is undefined. *)
Inductive RouteExn (X : Type) :=
| BindingException (errors : list bytes)
| ValidationException (errors : list bytes)
| StandardException (ex : X)
| NonStandard
| UndefinedBehaviour.
Arguments BindingException {X}.
Arguments ValidationException {X}.
Arguments StandardException {X}.
Arguments NonStandard {X}.
Arguments UndefinedBehaviour {X}.

(** A WebSocket endpoint: its [Handler] with what decides the handshake. *)
Record Endpoint (W : Type) := mkEndpoint {
  endpoint_handler : Handler;
  authorize : option (Request.t -> W -> HandshakeDecision * W);
  subprotocols : list bytes;
  require_subprotocol : bool
}.
Arguments mkEndpoint {W}.
Arguments endpoint_handler {W}.
Arguments authorize {W}.
Arguments subprotocols {W}.
Arguments require_subprotocol {W}.

Record ShardConfig := mkConfig { static_resources_dir : bytes; expose_error_details : bool }.

Section Serve.
(** The standard exceptions and their text. *)
Context {X W : Type} (what : X -> bytes).

Definition RouteHandler : Type := Exchange W -> result (RouteExn X) () * Exchange W.

(** [handle] of an exception handler, which may itself throw. *)
Definition ExceptionHandler : Type :=
  X -> Response.t * Context.t * W -> result Exn bool * (Response.t * Context.t * W).

Context (fs : StaticResource.FileSystem) (config_ : ShardConfig).
Context (router_ : Router RouteHandler (Endpoint W)) (exception_handlers_ : list ExceptionHandler).
Context (middlewares_ : list (Middleware.t W)).

Definition with_response (f : Response.t -> Response.t) (x : Exchange W) : Exchange W :=
  mkEx (request x) (f (response x)) (context x) (world x).

Definition set_path_params (ps : gmap bytes bytes) (r : Request.t) : Request.t :=
  Request.mk (Request.method_ r) (Request.path_ r) (Request.scheme_ r) (Request.authority_ r)
    (Request.peer_address_ r) (Request.client_address_ r) (Request.headers_ r) (Request.body_ r) ps
    (Request.headers_complete_ r) (Request.body_complete_ r).

Definition with_params (ps : gmap bytes bytes) (x : Exchange W) : Exchange W :=
  mkEx (set_path_params ps (request x)) (response x) (context x) (world x).

Definition serve_static_file (rq : Request.t) (rs : Response.t) (head_only : bool) : bool * Response.t :=
  StaticResource.serve_static_resource fs (static_resources_dir config_) rq rs head_only.

(** The loop with the [first] flag. *)
Definition error_list (errors : list bytes) : bytes :=
  fst (for_each (fun '(err_json, first) err =>
         ((if first : bool then err_json else err_json ++ bs ",") ++ js "'" ++ json_escape err ++ js "'", false))
       errors ([], true)).

Definition bad_request (message : string) (errors : list bytes) (rs : Response.t) : Response.t :=
  Response.body
    (js "{'error':'Bad Request','message':'" ++ bs message ++ js "','errors':[" ++ error_list errors ++ bs "]}")
    (Response.header (bs "content-type") (bs "application/json") (Response.status 400 rs)).

(** A handler that throws ends the loop of [handle_exception] and leaves the
    catch clause: like one that takes the exception, with what it threw. *)
Definition guarded (h : ExceptionHandler) (ex : X) (s : option Exn * (Response.t * Context.t * W)) :
    bool * (option Exn * (Response.t * Context.t * W)) :=
  match h ex (snd s) with
  | (inr b, r) => (b, (None, r))
  | (inl e, r) => (true, (Some e, r))
  end.

(** The catch clauses around the route handler. *)
Definition catch_route (e : RouteExn X) (x : Exchange W) : result Exn () * Exchange W :=
  match e with
  | BindingException errors => (inr (), with_response (bad_request "Invalid JSON request body" errors) x)
  | ValidationException errors => (inr (), with_response (bad_request "Validation failed" errors) x)
  | StandardException ex =>
      match handle_exception (map guarded exception_handlers_) ex (None, (response x, context x, world x)) with
      | (true, (Some e, (rs, ctx, w))) => (inl e, mkEx (request x) rs ctx w)
      | (true, (None, (rs, ctx, w))) => (inr (), mkEx (request x) rs ctx w)
      | (false, (_, (rs, ctx, w))) =>
          (inr (), mkEx (request x) (write_unhandled_error rs (what ex) (expose_error_details config_)) ctx w)
      end
  | NonStandard => (inr (), with_response write_unknown_error x)
  | UndefinedBehaviour => (inl Undefined, x)
  end.

Definition not_found (rs : Response.t) : Response.t :=
  Response.body (bs "Not Found") (Response.header (bs "content-type") (bs "text/plain") (Response.status 404 rs)).

(** The last handler of the pipeline. *)
Definition final_handler : M W () := fun x =>
  let rq := request x in
  match fst (match_string (Request.method_ rq) (Request.path_ rq) router_) with
  | (None, _) =>
      let is_head := bool_decide (Request.method_ rq = bs "HEAD") in
      let '(served, rs) :=
        if bool_decide (Request.method_ rq = bs "GET") || is_head
        then serve_static_file rq (response x) is_head else (false, response x) in
      (inr (), mkEx rq (if served then rs else not_found rs) (context x) (world x))
  | (Some handler, params) =>
      match handler (with_params params x) with
      | (inr _, x) => (inr (), x)
      | (inl e, x) => catch_route e x
      end
  end.

(** The handler of HTTP/1.1 and HTTP/2; what leaves it as an exception is
    caught nowhere below and ends the thread. *)
Definition tcp_req_handler (req : Request.t) (res : Response.t) (w : W) : result Exn () * Exchange W :=
  execute middlewares_ final_handler (mkEx req res Context.empty w).

(** The one of HTTP/3; its last handler is the same text. *)
Definition on_request (req : Request.t) (res : Response.t) (w : W) : result Exn () * Exchange W :=
  execute middlewares_ final_handler (mkEx req res Context.empty w).

(** ** WebSocket handshakes *)

Definition websocket_upgrade_handler (rq : Request.t) (w : W) : Request.t * UpgradeResult * W :=
  match match_websocket (Request.path_ rq) router_ with
  | (None, _) => (rq, NotWebSocketRoute, w)
  | (Some handler, params) =>
      let rq := set_path_params params rq in
      let subprotocol := select_subprotocol rq (subprotocols handler) in
      if require_subprotocol handler && bool_decide (subprotocol = None) then
        (rq, UpRejected 400 (bs "Required WebSocket subprotocol was not offered"), w)
      else
        match authorize handler with
        | Some f =>
            match f rq w with
            | (Reject status body, w) => (rq, UpRejected status body, w)
            | (Allow principal, w) =>
                (rq, UpAccepted (Some (endpoint_handler handler)) principal (default [] subprotocol), w)
            end
        | None => (rq, UpAccepted (Some (endpoint_handler handler)) [] (default [] subprotocol), w)
        end
  end.

Definition http2_websocket_handler (rq : Request.t) (w : W) : Request.t * Http2.WebSocketConnectResult * W :=
  match match_websocket (Request.path_ rq) router_ with
  | (None, _) => (rq, Http2.no_connect, w)
  | (Some handler, params) =>
      let rq := set_path_params params rq in
      let subprotocol := select_subprotocol rq (subprotocols handler) in
      if require_subprotocol handler && bool_decide (subprotocol = None) then
        (rq, Http2.reject 400 (bs "Required WebSocket subprotocol was not offered"), w)
      else
        match authorize handler with
        | Some f =>
            match f rq w with
            | (Reject status body, w) => (rq, Http2.reject status body, w)
            | (Allow principal, w) =>
                (rq, Http2.accept (endpoint_handler handler) principal (default [] subprotocol), w)
            end
        | None => (rq, Http2.accept (endpoint_handler handler) [] (default [] subprotocol), w)
        end
  end.

End Serve.
End Shard.
