(* ===== verification/ShardProps.v ===== *)
(** * Serving a request: properties

    Every request is answered by the best route, a confined static file or a
    404; an exception of a route handler becomes a JSON document of its
    errors; and with middlewares that throw nothing of their own the thread
    survives every request.  WebSocket handshakes are decided alike over
    HTTP/1.1 and HTTP/2. *)

From S2P Require Import Prelude CxxString HttpMessage Router RouterSpec RouterProps WebSocket WsHandshake Sse Http1 Http2 Middleware Jwt JwtProps StaticResource StaticResourceProps EdgeMiddleware Shard.
Import Middleware Shard ErrorResponse.
Import JwtProps.Issuing (object_text, field_text, value_text, string_text, JString, JStrings, json_string_text, json_array_text).
Import Http1 (UpgradeResult, NotWebSocketRoute, UpAccepted, UpRejected).

Module ShardProps.

(** ** The documents *)

Lemma error_list_array errors : bs "[" ++ error_list errors ++ bs "]" = Jwt.json_string_array errors.
Proof. done. Qed.

Abbreviation field n text := (Jwt.json_string (bs n) ++ bs ":" ++ text).

Lemma field_of_text n v text : value_text v text -> field_text (bs n, v) (field n text).
Proof. intros T. exists (Jwt.json_string (bs n)), text. split_and!; [apply json_string_text|done|done]. Qed.

Lemma bad_request_document message errors :
  Jwt.json_string (bs message) = js "'" ++ bs message ++ js "'" ->
  object_text [(bs "error", JString (bs "Bad Request")); (bs "message", JString (bs message)); (bs "errors", JStrings errors)]
    (js "{'error':'Bad Request','message':'" ++ bs message ++ js "','errors':[" ++ error_list errors ++ bs "]}").
Proof.
  intros E. exists [field "error" (Jwt.json_string (bs "Bad Request")); field "message" (Jwt.json_string (bs message));
    field "errors" (Jwt.json_string_array errors)]. split.
  - repeat constructor; apply field_of_text; [apply json_string_text..|apply json_array_text].
  - rewrite <- error_list_array, E. cbn [join_with]. generalize (bs message) (error_list errors). intros m l.
    rewrite <- !app_assoc. vm_compute. reflexivity.
Qed.

Lemma message_document w :
  object_text [(bs "error", JString (bs "Internal Server Error")); (bs "message", JString w)]
    (js "{'error':'Internal Server Error','message':'" ++ json_escape w ++ js "'}").
Proof.
  exists [field "error" (Jwt.json_string (bs "Internal Server Error")); field "message" (Jwt.json_string w)]. split.
  - repeat constructor; apply field_of_text; apply json_string_text.
  - unfold Jwt.json_string at 4. change (Jwt.json_escape w) with (json_escape w).
    generalize (json_escape w). intros t. cbn [join_with]. rewrite <- !app_assoc. vm_compute. reflexivity.
Qed.

Lemma hidden_document : object_text [(bs "error", JString (bs "Internal Server Error"))] (js "{'error':'Internal Server Error'}").
Proof.
  exists [field "error" (Jwt.json_string (bs "Internal Server Error"))]. split; [|done].
  repeat constructor; apply field_of_text; apply json_string_text.
Qed.

Section Spec.
Context {X W : Type} (what : X -> bytes).
Abbreviation RouteHandler := (RouteHandler (X:=X) (W:=W)).
Abbreviation ExceptionHandler := (ExceptionHandler (X:=X) (W:=W)).
Abbreviation State := (Response.t * Context.t * W)%type.
Context (fs : StaticResource.FileSystem) (config_ : ShardConfig) (exception_handlers_ : list ExceptionHandler).

(** ** The report of an exception *)

(** Handlers that were asked in turn and did not take the exception. *)
Inductive declined (ex : X) : list ExceptionHandler -> State -> State -> Prop :=
| declined_nil s : declined ex [] s s
| declined_cons h hs s s1 s2 : h ex s = (inr false, s1) -> declined ex hs s1 s2 -> declined ex (h :: hs) s s2.

Definition put (s : State) (x : Exchange W) : Exchange W :=
  mkEx (request x) (fst (fst s)) (snd (fst s)) (snd s).
Definition state (x : Exchange W) : State := (response x, context x, world x).

(** [x] is the exchange as the route handler left it when it threw. *)
Inductive reported (x : Exchange W) : RouteExn X -> result Exn () * Exchange W -> Prop :=
| reported_bad_request e message errors document :
    (e = BindingException errors /\ message = bs "Invalid JSON request body" \/
     e = ValidationException errors /\ message = bs "Validation failed") ->
    object_text [(bs "error", JString (bs "Bad Request")); (bs "message", JString message); (bs "errors", JStrings errors)] document ->
    reported x e (inr (), with_response (fun r =>
      Response.body document (Response.header (bs "content-type") (bs "application/json") (Response.status 400 r))) x)
(** The first handler that does not decline takes it, or throws itself. *)
| reported_handled ex before h after s s' b :
    exception_handlers_ = before ++ h :: after -> declined ex before (state x) s ->
    h ex s = (b, s') -> b <> inr false ->
    reported x (StandardException ex) (match b with inl e => inl e | inr _ => inr () end, put s' x)
| reported_unhandled ex s document :
    declined ex exception_handlers_ (state x) s ->
    object_text ((bs "error", JString (bs "Internal Server Error")) ::
      if expose_error_details config_ then [(bs "message", JString (what ex))] else []) document ->
    reported x (StandardException ex)
      (inr (), with_response (fun r => Response.json document (Response.status 500 r)) (put s x))
| reported_unknown document :
    object_text [(bs "error", JString (bs "Internal Server Error"))] document ->
    reported x NonStandard (inr (), with_response (fun r => Response.json document (Response.status 500 r)) x)
| reported_undefined : reported x UndefinedBehaviour (inl Undefined, x).

Lemma handlers_asked hs ex s :
  let '(taken, (thrown, s')) := handle_exception (map guarded hs) ex (None, s) in
  if taken then exists before h after s1 b, hs = before ++ h :: after /\ declined ex before s s1 /\
      h ex s1 = (b, s') /\ b <> inr false /\ thrown = match b with inl e => Some e | inr _ => None end
  else thrown = None /\ declined ex hs s s'.
Proof.
  revert s. induction hs as [|h hs IH]; intros s; [by split; constructor|]. cbn. unfold guarded at 1. cbn.
  destruct (h ex s) as [[e|[]] s1] eqn:E.
  - exists [], h, hs, s, (inl e). split_and!; by try constructor.
  - exists [], h, hs, s, (inr true). split_and!; by try constructor.
  - specialize (IH s1). destruct (handle_exception _ _ _) as [[] [t s']].
    + destruct IH as (before & h' & after & s2 & b & -> & D & Hb & N & T).
      exists (h :: before), h', after, s2, b. split_and!; try done. by econstructor.
    + destruct IH as [-> D]. split; [done|]. by econstructor.
Qed.

Lemma catch_route_reported e x : reported x e (catch_route what config_ exception_handlers_ e x).
Proof.
  destruct e as [errors|errors|ex| |]; cbn.
  - eapply reported_bad_request; [by left|]. by apply bad_request_document.
  - eapply reported_bad_request; [by right|]. by apply bad_request_document.
  - pose proof (handlers_asked exception_handlers_ ex (state x)) as A. fold (state x).
    destruct (handle_exception _ _ _) as [[] [t [[rs ctx] w]]].
    + destruct A as (before & h & after & s1 & b & E & D & Hb & N & ->).
      pose proof (reported_handled x ex before h after s1 (rs, ctx, w) b E D Hb N) as R.
      destruct b; done.
    + destruct A as [-> D]. unfold write_unhandled_error.
      pose proof (reported_unhandled x ex (rs, ctx, w)) as R.
      destruct (expose_error_details config_); apply R; (done || apply message_document || apply hidden_document).
  - apply reported_unknown, hidden_document.
  - apply reported_undefined.
Qed.

(** ** Routing *)

(** The handler is that of the best registered route, if there is one. *)
Definition best_route (gs : list (Registration RouteHandler (Endpoint W))) (m : Method) (path : bytes)
    (o : option RouteHandler) : Prop :=
  match strip_query path with
  | "/"%char :: rest =>
      match o with
      | Some h => exists k, key_matches k (segments rest) = true /\ RouterProps.offers gs k m = Some h /\
          forall k', key_matches k' (segments rest) = true -> is_Some (RouterProps.offers gs k' m) -> key_le k k' = true
      | None => forall k, key_matches k (segments rest) = true -> RouterProps.offers gs k m = None
      end
  | _ => o = None
  end.

Lemma match_string_best gs r m path :
  register_all gs new_router = inr r ->
  best_route gs (method_from_string m) path (fst (fst (match_string m path r))).
Proof.
  intros Hr. unfold best_route, match_string. destruct (strip_query path) as [|c rest] eqn:P.
  - unfold match_route. by rewrite P.
  - destruct (decide (c = "/"%char)) as [->|N]; [by apply (match_route_best gs r _ path rest)|].
    unfold match_route. rewrite P. destruct c as [[] [] [] [] [] [] [] []]; done.
Qed.

Lemma unrouted gs r m path : register_all gs new_router = inr r ->
  fst (fst (match_string m path r)) = None -> best_route gs (method_from_string m) path None.
Proof. intros Hr E. rewrite <- E. by apply match_string_best. Qed.

(** ** Middlewares that throw nothing of their own *)

Definition returns (m : M W ()) : Prop := forall x, exists x', m x = (inr (), x').

Class Contained (mw : Middleware.t W) : Prop := contained : forall next, returns next -> returns (mw next).

Lemma execute_returns mws h : Forall Contained mws -> returns h -> returns (execute mws h).
Proof.
  intros F. induction F as [|mw mws C F IH]; intros R; [by rewrite execute_nil|].
  rewrite execute_cons. apply C, IH, R.
Qed.

#[export] Instance contained_body_size c : Contained (BodySize.handle c).
Proof. intros next R x. unfold BodySize.handle, bind, get_request. cbn. repeat case_match; [apply R|eauto|apply R]. Qed.

#[export] Instance contained_security_headers order c : Contained (SecurityHeaders.handle order c).
Proof.
  intros next R x. unfold SecurityHeaders.handle, bind. destruct (R x) as [x' ->]. by eexists.
Qed.

Lemma contained_cors c : Cors.allowed_origins c <> [] -> Contained (Cors.handle c).
Proof.
  intros N next R x. unfold Cors.handle, bind, get_request. cbn.
  destruct (Cors.origin_value c _) as [o|] eqn:E.
  - cbn. case_bool_decide; [by eexists|apply R].
  - exfalso. unfold Cors.origin_value in E. destruct (Cors.allowed_origins c); [done|]. repeat case_match; done.
Qed.

(** ** Requests *)

Context (router_ : Router RouteHandler (Endpoint W)) (middlewares_ : list (Middleware.t W)).
Abbreviation serve_static_file := (serve_static_file fs config_).
Abbreviation final_handler := (final_handler what fs config_ router_ exception_handlers_).

Definition reads (rq : Request.t) : Prop := Request.method_ rq = bs "GET" \/ Request.method_ rq = bs "HEAD".
Definition head_only (rq : Request.t) : bool := bool_decide (Request.method_ rq = bs "HEAD").

(** The answers to the exchange [x], for a table of registrations. *)
Inductive answered (gs : list (Registration RouteHandler (Endpoint W))) (x : Exchange W) :
    result Exn () * Exchange W -> Prop :=
| answered_by_route h params out :
    fst (match_string (Request.method_ (request x)) (Request.path_ (request x)) router_) = (Some h, params) ->
    best_route gs (method_from_string (Request.method_ (request x))) (Request.path_ (request x)) (Some h) ->
    match h (with_params params x) with
    | (inr _, x') => out = (inr (), x')
    | (inl e, x') => reported x' e out
    end ->
    answered gs x out
| answered_by_file target res :
    best_route gs (method_from_string (Request.method_ (request x))) (Request.path_ (request x)) None ->
    reads (request x) -> StaticSpec.confined fs (static_resources_dir config_) target ->
    StaticSpec.serves fs target (request x) (response x) (head_only (request x)) res ->
    answered gs x (inr (), with_response (fun _ => res) x)
| answered_not_found :
    best_route gs (method_from_string (Request.method_ (request x))) (Request.path_ (request x)) None ->
    (reads (request x) -> fst (serve_static_file (request x) (response x) (head_only (request x))) = false) ->
    answered gs x (inr (), with_response not_found x).

Lemma readsP rq : reflect (reads rq) (bool_decide (Request.method_ rq = bs "GET") || head_only rq).
Proof. apply iff_reflect. unfold reads, head_only. rewrite orb_true_iff, !bool_decide_eq_true. done. Qed.

Lemma final_answered `{!StaticSpec.FsLaws fs} gs x (Hr : register_all gs new_router = inr router_) :
  answered gs x (final_handler x).
Proof.
  unfold Shard.final_handler. pose proof (match_string_best gs router_ (Request.method_ (request x)) (Request.path_ (request x)) Hr) as B.
  destruct (fst (match_string _ _ _)) as [[h|] params] eqn:E; cbn [fst] in B.
  - apply (answered_by_route gs x h params); [done..|].
    destruct (h (with_params params x)) as [[e|u] x']; [apply catch_route_reported|done].
  - fold (head_only (request x)). destruct (readsP (request x)) as [G|G]; cycle 1.
    + apply (answered_not_found gs x); [done|]. intros ?. done.
    + destruct (serve_static_file _ _ _) as [served rs] eqn:S. pose proof (StaticSpec.serve_confined _ _ _ _ _ _ _ S) as C.
      destruct served.
      * destruct C as (target & C & V). by apply (answered_by_file gs x target).
      * subst rs. apply (answered_not_found gs x); [done|]. by rewrite S.
Qed.

(** [C11] Every request that reaches the end of the pipeline is answered as
    the table of registrations says: by the handler of the best route for its
    method and path; without one, a GET or HEAD by a file below the directory
    of static resources; and by 404 otherwise.  When the handler throws, the
    answer is a JSON document with exactly the errors of a failed binding or
    validation, what the first application exception handler that takes the
    exception makes of it, or a 500 that has the text of the exception only if
    the configuration exposes it. *)
Theorem requests_answered `{!StaticSpec.FsLaws fs} gs x (Hr : register_all gs new_router = inr router_) :
  answered gs x (final_handler x).
Proof. by apply final_answered. Qed.

(** ** The thread survives *)

Lemma routed_registered (gs : list (Registration RouteHandler (Endpoint W))) k m acc h :
  routed gs k m acc = Some h -> acc = Some h \/ exists m' p, RegRoute m' p h ∈ gs.
Proof.
  revert acc. induction gs as [|[m' p h'|p w] gs IH]; cbn; intros acc E; [by left|..].
  - apply IH in E as [E|(m2 & p2 & E)]; [|right; exists m2, p2; by right].
    case_bool_decide; [|by left]. simplify_eq. right. exists m', p. by left.
  - apply IH in E as [E|(m2 & p2 & E)]; [by left|right; exists m2, p2; by right].
Qed.

Lemma best_registered gs m path h : best_route gs m path (Some h) -> exists m' p, RegRoute m' p h ∈ gs.
Proof.
  unfold best_route. destruct (strip_query path) as [|c rest]; [done|].
  intros B. assert (exists k, RouterProps.offers gs k m = Some h) as [k E]
    by (destruct c as [[] [] [] [] [] [] [] []]; naive_solver).
  unfold RouterProps.offers in E. destruct (routed gs k m None) eqn:R; simplify_eq;
    [apply routed_registered in R as [|]|apply routed_registered in E as [|]]; naive_solver.
Qed.

Lemma reported_returns x e out :
  e <> UndefinedBehaviour -> Forall (fun h => forall ex s, exists b s', h ex s = (inr b, s')) exception_handlers_ ->
  reported x e out -> exists x', out = (inr (), x').
Proof.
  intros N F R. destruct R as [| ex before h after s s' b E D Hb Nb | | |]; [by eexists|..|by eexists|by eexists|done].
  subst. apply Forall_app in F as [_ F]. inversion F as [|? ? Hh _]; subst.
  destruct (Hh ex s) as (b' & s2 & E). rewrite E in Hb. simplify_eq. by eexists.
Qed.

(** [C25] An exception that leaves the pipeline ends the thread of the
    shard.  None does, over any protocol, when the middlewares throw nothing
    of their own, the exception handlers of the application return and the
    behaviour of its route handlers is defined: whatever those throw, the
    request is answered, and HTTP/3 answers like HTTP/1.1 and HTTP/2. *)
Theorem requests_survive `{!StaticSpec.FsLaws fs} gs req res w
    (Hr : register_all gs new_router = inr router_) (Hm : Forall Contained middlewares_)
    (He : Forall (fun h => forall ex s, exists b s', h ex s = (inr b, s')) exception_handlers_)
    (Hh : forall m p h, RegRoute m p h ∈ gs -> forall x, fst (h x) <> inl UndefinedBehaviour) :
  exists x',
    tcp_req_handler what fs config_ router_ exception_handlers_ middlewares_ req res w = (inr (), x') /\
    on_request what fs config_ router_ exception_handlers_ middlewares_ req res w = (inr (), x').
Proof.
  assert (returns final_handler) as R.
  { intros x. pose proof (final_answered gs x Hr) as A. inversion A as [h params out E B O| |]; [|by eexists..].
    apply best_registered in B as (m & p & B). specialize (Hh m p h B (with_params params x)).
    destruct (h (with_params params x)) as [[e|u] x']; [|by eexists].
    eapply reported_returns; [|done|done]. cbn in Hh. congruence. }
  destruct (execute_returns middlewares_ _ Hm R (mkEx req res Context.empty w)) as [x' E]. by exists x'.
Qed.

(** ** WebSocket handshakes *)

(** What HTTP/2 is told, in the terms of HTTP/1.1. *)
Definition connect_result (r : UpgradeResult) : Http2.WebSocketConnectResult :=
  match r with
  | NotWebSocketRoute => Http2.no_connect
  | UpRejected status body => Http2.reject status body
  | UpAccepted h principal subprotocol => Http2.mkConnect true true 200 [] h principal subprotocol
  end.

Definition best_endpoint (gs : list (Registration RouteHandler (Endpoint W))) (path : bytes) (o : option (Endpoint W)) : Prop :=
  match strip_query path with
  | "/"%char :: rest =>
      match o with
      | Some e => exists k, key_matches k (segments rest) = true /\ ws_routed gs k None = Some e /\
          forall k', key_matches k' (segments rest) = true -> is_Some (ws_routed gs k' None) -> key_le k k' = true
      | None => forall k, key_matches k (segments rest) = true -> ws_routed gs k None = None
      end
  | _ => o = None
  end.

Lemma match_websocket_best gs path :
  register_all gs new_router = inr router_ -> best_endpoint gs path (fst (match_websocket path router_)).
Proof.
  intros Hr. unfold best_endpoint. destruct (strip_query path) as [|c rest] eqn:P.
  - unfold match_websocket. by rewrite P.
  - destruct (decide (c = "/"%char)) as [->|N].
    + pose proof (match_websocket_correct gs router_ path rest Hr P) as C.
      destruct (match_websocket path router_) as [[e|] ps]; cbn; [apply C|apply C].
    + unfold match_websocket. rewrite P. destruct c as [[] [] [] [] [] [] [] []]; done.
Qed.

(** The selected protocol is one that the endpoint supports and the client offers. *)
Definition negotiated (rq : Request.t) (e : Endpoint W) (subprotocol : bytes) : Prop :=
  match select_subprotocol rq (subprotocols e) with
  | Some p => subprotocol = p /\ p ∈ subprotocols e /\
      exists h t, Request.header (bs "sec-websocket-protocol") rq = Some h /\ t ∈ tokens ","%char h /\ trim_loops blank t = p
  | None => subprotocol = [] /\ require_subprotocol e = false
  end.

(** [C26] A WebSocket handshake is decided by the best endpoint for its
    path, and the same way over HTTP/1.1 and HTTP/2.  It is accepted only with
    a protocol that the endpoint supports and the client offers, or none if
    none is required, and only with the principal that the authorizer of the
    endpoint allowed; it is refused only for a missing protocol, or by the
    authorizer, which is not asked before the protocol is settled. *)
Theorem websocket_handshakes_decided gs rq w (Hr : register_all gs new_router = inr router_) :
  let '(rq1, r, w1) := websocket_upgrade_handler router_ rq w in
  http2_websocket_handler router_ rq w = (rq1, connect_result r, w1) /\
  match r with
  | NotWebSocketRoute => best_endpoint gs (Request.path_ rq) None /\ rq1 = rq /\ w1 = w
  | UpAccepted h principal subprotocol => exists e,
      best_endpoint gs (Request.path_ rq) (Some e) /\ h = Some (endpoint_handler e) /\ negotiated rq e subprotocol /\
      match authorize e with
      | Some f => f rq1 w = (Allow principal, w1)
      | None => principal = [] /\ w1 = w
      end
  | UpRejected status body => exists e,
      best_endpoint gs (Request.path_ rq) (Some e) /\
      (status = 400 /\ require_subprotocol e = true /\ select_subprotocol rq (subprotocols e) = None /\ w1 = w \/
       exists f, authorize e = Some f /\ f rq1 w = (Reject status body, w1))
  end.
Proof.
  pose proof (match_websocket_best gs (Request.path_ rq) Hr) as B.
  unfold websocket_upgrade_handler, http2_websocket_handler.
  destruct (match_websocket _ _) as [[e|] params]; cbn [fst] in B; [|done].
  change (select_subprotocol (set_path_params params rq)) with (select_subprotocol rq).
  assert (require_subprotocol e && bool_decide (select_subprotocol rq (subprotocols e) = None) = false ->
    negotiated rq e (default [] (select_subprotocol rq (subprotocols e)))) as G.
  { unfold negotiated. pose proof (select_subprotocol_preference rq (subprotocols e)) as P.
    destruct (select_subprotocol rq (subprotocols e)) as [p|]; cbn.
    - intros _. destruct P as (h & before & after & H1 & H2 & (t & H3 & H4) & _). split_and!; [done| |eauto 10].
      rewrite H2. set_solver.
    - rewrite andb_true_r. done. }
  destruct (require_subprotocol e && _) eqn:Q.
  - apply andb_true_iff in Q as [Q1 Q2]. apply bool_decide_eq_true in Q2. split; [done|]. exists e. eauto 10.
  - specialize (G eq_refl). destruct (authorize e) as [f|] eqn:A.
    + destruct (f (set_path_params params rq) w) as [[p|status body] w'] eqn:F; (split; [done|]); exists e; rewrite ?A; eauto 10.
    + split; [done|]. exists e. by rewrite A.
Qed.

End Spec.

End ShardProps.

(** * A concrete application

    A small application with routes, a WebSocket endpoint, middlewares and
    static files, for the witnesses of [ShardProps]; the same application
    behind a TCP connection, from the bytes of a request to the bytes of its
    answer; and what goes wrong around exceptions. *)

From S2P Require Import TcpConnection TcpManager TcpManagerProps TcpService.
Import Middleware Shard ShardProps.
Import Http1 (UpgradeResult, NotWebSocketRoute, UpAccepted, UpRejected).

Module ShardCases.

Abbreviation W := (Http1.World (A:=nat)).
Abbreviation Route := (RouteHandler (X:=bytes) (W:=W)).
Abbreviation Observer := (ExceptionHandler (X:=bytes) (W:=W)).

(** Answers with the parameter [id]. *)
Definition show_user : Route := fun x =>
  (inr (), with_response (Response.text (default [] (Request.path_params_ (request x) !! bs "id"))) x).

(** Starts an answer of its own, then throws. *)
Definition throwing (e : RouteExn bytes) : Route := fun x =>
  (inl e, with_response (Response.header (bs "content-type") (bs "text/html")) x).

(** Allows everybody as bob. *)
Definition bob (rq : Request.t) (w : W) : HandshakeDecision * W := (Allow (bs "bob"), w).

Definition chat : Endpoint W := mkEndpoint TcpService.chatty (Some bob) [bs "v2"; bs "v1"] true.

Definition routes : list (Registration Route (Endpoint W)) :=
  [RegRoute GET (bs "/users/:id") show_user;
   RegRoute POST (bs "/users") (throwing (BindingException [bs "name: missing"; bs "age"]));
   RegRoute GET (bs "/fail") (throwing (StandardException (bs "password=x")));
   RegRoute GET (bs "/taken") (throwing (StandardException (bs "teapot")));
   RegWebSocket (bs "/chat") chat].

Definition router : Router Route (Endpoint W) := built routes.

Definition config : ShardConfig := mkConfig (bs "/srv/www") false.
Definition files : StaticResource.FileSystem := StaticResource.tree_fs StaticSpec.www.

(** One exception handler, for one exception. *)
Definition teapot : Observer := fun ex '(rs, ctx, w) =>
  if bool_decide (ex = bs "teapot") then (inr true, (Response.status 418 rs, ctx, w)) else (inr false, (rs, ctx, w)).

Definition limits : list (Middleware.t W) := [BodySize.handle (BodySize.mkConfig 64 [] 413 (bs "{}"))].

Definition ask (method path : string) : Request.t :=
  Request.set_path (bs path) (Request.set_method (bs method) Request.init).

Definition start (rq : Request.t) : Exchange W := mkEx rq Response.init Context.empty (Http1.mkWorld 0%nat ∅).

Definition served (rq : Request.t) : Z * bytes :=
  let x := snd (final_handler (fun e => e) files config router [teapot] (start rq)) in
  (Response.status_code_ (response x), Response.body_ (response x)).

Example application_answers :
  served (ask "GET" "/users/7?x") = (200, bs "7") /\ served (ask "GET" "/hello.txt") = (200, bs "hello static world") /\
  served (ask "POST" "/hello.txt") = (404, bs "Not Found") /\ served (ask "GET" "/../../etc/passwd") = (404, bs "Not Found") /\
  served (ask "POST" "/users") = (400, js "{'error':'Bad Request','message':'Invalid JSON request body','errors':['name: missing','age']}") /\
  served (ask "GET" "/fail") = (500, js "{'error':'Internal Server Error'}") /\ served (ask "GET" "/taken") = (418, []).
Proof. vm_compute. done. Qed.

Lemma requests_answered_witness :
  served (ask "POST" "/users") = (400, js "{'error':'Bad Request','message':'Invalid JSON request body','errors':['name: missing','age']}") /\
  answered (fun e => e) files config [teapot] router routes (start (ask "POST" "/users"))
    (final_handler (fun e => e) files config router [teapot] (start (ask "POST" "/users"))).
Proof. split; [vm_compute; reflexivity|]. apply requests_answered; [exact StaticSpec.www_laws|vm_compute; reflexivity]. Defined.

Lemma requests_survive_witness :
  exists x',
    tcp_req_handler (fun e => e) files config router [teapot] limits (ask "GET" "/fail") Response.init (Http1.mkWorld 0%nat ∅) = (inr (), x') /\
    on_request (fun e => e) files config router [teapot] limits (ask "GET" "/fail") Response.init (Http1.mkWorld 0%nat ∅) = (inr (), x').
Proof.
  unshelve eapply (requests_survive (fun e => e) files config [teapot] router limits routes).
  - exact StaticSpec.www_laws.
  - vm_compute. reflexivity.
  - repeat constructor. apply contained_body_size.
  - constructor; [|constructor]. intros ex [[rs ctx] w]. unfold teapot. case_bool_decide; eauto.
  - intros m p h E x. unfold routes in E. repeat (apply elem_of_cons in E as [E|E]; [by simplify_eq|]). by apply elem_of_nil in E.
Defined.

Definition handshake (protocols : string) : Request.t :=
  Request.set_headers [HeaderMap.mkEntry (bs "sec-websocket-protocol") (bs protocols)] (ask "GET" "/chat").

Lemma websocket_handshakes_decided_witness :
  snd (fst (websocket_upgrade_handler router (handshake "v0, v1") (Http1.mkWorld 0%nat ∅))) =
    UpAccepted (Some TcpService.chatty) (bs "bob") (bs "v1") /\
  snd (fst (websocket_upgrade_handler router (handshake "v0") (Http1.mkWorld 0%nat ∅))) =
    UpRejected 400 (bs "Required WebSocket subprotocol was not offered") /\
  let '(rq1, r, w1) := websocket_upgrade_handler router (handshake "v0, v1") (Http1.mkWorld 0%nat ∅) in
  http2_websocket_handler router (handshake "v0, v1") (Http1.mkWorld 0%nat ∅) = (rq1, connect_result r, w1).
Proof.
  split; [vm_compute; reflexivity|]. split; [vm_compute; reflexivity|].
  pose proof (websocket_handshakes_decided router routes (handshake "v0, v1") (Http1.mkWorld 0%nat ∅) eq_refl) as X.
  destruct (websocket_upgrade_handler _ _ _) as [[rq1 r] w1]. exact (proj1 X).
Defined.

(** ** From bytes to bytes *)

(** The handlers as the sessions of a TCP connection take them. *)
Definition handler (rq : Request.t) (res : Response.t) (w : W) : Request.t * Response.t * W :=
  let x := snd (tcp_req_handler (fun e => e) files config router [teapot] limits rq res w) in (request x, response x, world x).
Definition upgrades (rq : Request.t) (w : W) : UpgradeResult * W :=
  let '(_, r, w) := websocket_upgrade_handler router rq w in (r, w).

#[local] Instance application : TcpSession (TcpConnection.t TcpService.Plain nat) W :=
  TcpService.tcp_session handler (Some upgrades) (Some (http2_websocket_handler router)) (fun _ => Some (inr (bs "key")))
    (fun _ _ => true) id (fun _ _ => Some []) (fun _ => []) TcpService.plain_encrypts.

Definition get (path : string) : bytes :=
  bs "GET " ++ bs path ++ bs " HTTP/1.1" ++ Http1.CRLF ++ bs "Host: h" ++ Http1.CRLF ++ Http1.CRLF.

(** Two requests in one read, the first for a route and the second for a file. *)
Example application_over_tcp :
  let m := TcpManager.run TcpService.network
    [TcpManager.Accept 5 TcpService.connection; TcpManager.ReadReady 5 (TcpManager.RecvData (get "/users/7" ++ get "/nowhere"));
     TcpManager.WriteReady 5] (TcpManager.init (Http1.mkWorld 0%nat ∅)) in
  TcpManager.sent m !! 5 = Some
    (Http1.serialize_response true (Response.text (bs "7") Response.init) ++
     Http1.serialize_response true (not_found Response.init)).
Proof. vm_compute. reflexivity. Qed.

(** ** What goes wrong *)

(** The report of a failed binding or validation adds its content type to the
    headers of the handler instead of replacing it: the answer has two. *)
Lemma error_content_type_twice :
  let x := snd (final_handler (fun e => e) files config router [teapot] (start (ask "POST" "/users"))) in
  HeaderMap.get_all (bs "content-type") (Response.headers_ (response x)) = [bs "text/html"; bs "application/json"].
Proof. vm_compute. reflexivity. Qed.

(** A handler that opens an event stream and then throws is answered with a
    500 that is still an event stream: the document is not what is sent. *)
Lemma error_keeps_event_stream :
  let opens : Route := fun x => (inl NonStandard, with_response (Response.event_stream (Some 3)) x) in
  let x := snd (final_handler (fun e => e) files config (built [RegRoute GET (bs "/events") opens]) [] (start (ask "GET" "/events"))) in
  Response.status_code_ (response x) = 500 /\ Response.sse_channel_ (response x) = Some 3.
Proof. vm_compute. done. Qed.

End ShardCases.
