(* ===== verification/Quic.v ===== *)
(** * QUIC connections

    [quic/quic_connection.*] and [quic/connection_manager.*]: the connections
    of a shard behind the map from connection ids, their reading, writing and
    timers, with the part of [core/shard.cpp] that attaches HTTP/3 sessions,
    cleans up and resumes event streams.

    ngtcp2 is a parameter.  A call into it is a tree: it asks the callbacks of
    the connection, in turn and depending on their answers, and then returns.
    What an HTTP/3 session asks of ngtcp2 from inside a callback, and the
    packet of a connection that is closed there, are part of the answer.

    Connections are addresses in the list that owns them; the address of a
    deleted connection is not used again.  Using one is [Dangling]. *)

From S2P Require Import Prelude CxxString.

Module Quic.

(** ** ngtcp2 and the HTTP/3 session *)

Inductive Callback :=
| GetNewConnectionId (cidlen : Z)
| RemoveConnectionId (cid : bytes)
| HandshakeCompleted
| RecvStreamData (fin : bool) (stream_id offset : Z) (data : bytes)
| StreamClose (stream_id app_error_code : Z)
| AckedStreamData (stream_id offset datalen : Z)
| ExtendMaxStreamData (stream_id : Z).

(** [E]: what the HTTP/3 session asks of ngtcp2. *)
Inductive Answer (E : Type) :=
| Returned (rv : Z) (asked : list E)
| ConnectionId (cid token : bytes)
| ConnectionClosed.
Arguments Returned {E}.
Arguments ConnectionId {E}.
Arguments ConnectionClosed {E}.

(** A call into ngtcp2, with a connection of type [N] and a result of type [R]. *)
Inductive Call (E N R : Type) :=
| Done (r : R) (n : N)
| Ask (c : Callback) (k : Answer E -> Call E N R).
Arguments Done {E N R}.
Arguments Ask {E N R}.

(** [nwrite] of a call that writes, with [pdatalen]. *)
Inductive Written :=
| Packet (p : bytes) (pdatalen : Z)
| CongestionLimited
| WriteMore (pdatalen : Z)
| StreamNotFound
| WriteError (e : Z).

Class Ngtcp2 (E N : Type) := {
  pkt_decode_version_cid : bytes -> option bytes;       (** the destination id *)
  accept : bytes -> option bytes;                       (** that of an Initial packet *)
  conn_server_new : bytes -> bytes -> bytes -> option N;
  conn_read_pkt : bytes -> Z -> N -> Call E N Z;
  conn_writev_stream : bool -> Z -> bytes -> Z -> N -> Call E N Written;
  conn_write_pkt : Z -> N -> Call E N Written;
  conn_write_connection_close : Z -> Z -> N -> Call E N (option bytes);
  conn_handle_expiry : Z -> N -> Call E N Z;
  conn_get_expiry : N -> option Z;                      (** [None]: [UINT64_MAX] *)
  in_draining_period : N -> bool;
  in_closing_period : N -> bool;
  err_is_fatal : Z -> bool
}.

Class Session (E N H : Type) := {
  (** [Http3Session::create] *)
  create_session : N -> option H;
  on_stream_data : Z -> Z -> bytes -> bool -> H -> Z * list E * H;
  on_stream_close : Z -> Z -> H -> Z * list E * H;
  on_acked_stream_data : Z -> Z -> Z -> H -> Z * list E * H;
  on_extend_max_stream_data : Z -> H -> Z * list E * H;
  (** The stream, its data and whether they end it; [None]: negative. *)
  get_stream_data : H -> option (Z * bool * bytes) * H;
  add_write_offset : Z -> Z -> H -> H;
  resume_sse_stream : Z -> H -> H
}.

Definition NGTCP2_ERR_CALLBACK_FAILURE : Z := -502.
Definition NGTCP2_MIN_CIDLEN : Z := 8.
Definition NGTCP2_STATELESS_RESET_TOKENLEN : Z := 16.

Section Manager.
Context {E N H : Type} `{!Ngtcp2 E N} `{!Session E N H}.

(** ** State *)

Record QuicConnection := mkConn {
  conn_ : N;
  scid_ : bytes;
  http3_session_ : option H;
  remote_addr_ : bytes;
  expiry_timer_ : option Z;
  closed_ : bool;
  in_error_state_ : bool
}.

(** The manager with what it uses of the loop: the time, random bytes by the
    number of the draw, timers with their delay, posted tasks, packets sent. *)
Record t := mk {
  cid_map_ : gmap bytes Z;
  connections_ : list (Z * QuicConnection);
  next_address : Z;
  timers : gmap Z (Z * Z);
  next_timer : Z;
  posted : list (Z * Z);
  now : Z;
  draws : nat;
  sent : list (bytes * bytes);
  (** For the record: the bytes that ngtcp2 took of the session of a connection, by stream. *)
  carried : gmap (Z * Z) bytes
}.

Definition init (time : Z) : t := mk ∅ [] 1 ∅ 1 [] time 0 [] ∅.

Inductive Failure := Dangling | OutOfFuel.
Definition M (A : Type) : Type := t -> result Failure (A * t).

Definition ret {A} (a : A) : M A := fun m => inr (a, m).
Definition bind {A B} (f : M A) (g : A -> M B) : M B := fun m =>
  match f m with inl e => inl e | inr (a, m) => g a m end.
Definition fail {A} (e : Failure) : M A := fun _ => inl e.

End Manager.
Arguments QuicConnection N H : clear implicits.
Arguments t N H : clear implicits.

Declare Scope quic_scope.
Delimit Scope quic_scope with quic.
Notation "'do' x <- m ; k" := (bind m (fun x => k))
  (at level 100, x pattern, m at next level, k at level 200, right associativity) : quic_scope.
Notation "m ;; k" := (bind m (fun _ => k)) (at level 100, right associativity) : quic_scope.

Section Operations.
Context {E N H : Type} `{!Ngtcp2 E N} `{!Session E N H}.
(** [RAND_bytes]: the draw and how many bytes. *)
Context (random : nat -> Z -> bytes).
Open Scope quic_scope.

Abbreviation Conn := (QuicConnection N H).
Abbreviation St := (t N H).
Abbreviation M := (M (N:=N) (H:=H)).

Fixpoint find_connection (p : Z) (l : list (Z * Conn)) : option Conn :=
  match l with
  | [] => None
  | (q, c) :: l => if q =? p then Some c else find_connection p l
  end.

Definition set_connections (l : list (Z * Conn)) (m : St) : St :=
  mk (cid_map_ m) l (next_address m) (timers m) (next_timer m) (posted m) (now m) (draws m) (sent m) (carried m).
Definition set_cid_map (cs : gmap bytes Z) (m : St) : St :=
  mk cs (connections_ m) (next_address m) (timers m) (next_timer m) (posted m) (now m) (draws m) (sent m) (carried m).
Definition set_timers (ts : gmap Z (Z * Z)) (m : St) : St :=
  mk (cid_map_ m) (connections_ m) (next_address m) ts (next_timer m) (posted m) (now m) (draws m) (sent m) (carried m).

Definition modify (f : St -> St) : M () := fun m => inr ((), f m).
Definition get {A} (f : St -> A) : M A := fun m => inr (f m, m).

(** A use of the connection at [p]. *)
Definition deref (p : Z) : M Conn := fun m =>
  match find_connection p (connections_ m) with
  | Some c => inr (c, m)
  | None => inl Dangling
  end.

Definition update (p : Z) (f : Conn -> Conn) : M () :=
  modify (fun m => set_connections (map (fun '(q, c) => (q, if q =? p then f c else c)) (connections_ m)) m).

Definition set_conn (n : N) (c : Conn) : Conn :=
  mkConn n (scid_ c) (http3_session_ c) (remote_addr_ c) (expiry_timer_ c) (closed_ c) (in_error_state_ c).
Definition set_session (h : option H) (c : Conn) : Conn :=
  mkConn (conn_ c) (scid_ c) h (remote_addr_ c) (expiry_timer_ c) (closed_ c) (in_error_state_ c).
Definition set_timer (id : option Z) (c : Conn) : Conn :=
  mkConn (conn_ c) (scid_ c) (http3_session_ c) (remote_addr_ c) id (closed_ c) (in_error_state_ c).
Definition set_closed (c : Conn) : Conn :=
  mkConn (conn_ c) (scid_ c) (http3_session_ c) (remote_addr_ c) (expiry_timer_ c) true (in_error_state_ c).
Definition set_error (c : Conn) : Conn :=
  mkConn (conn_ c) (scid_ c) (http3_session_ c) (remote_addr_ c) (expiry_timer_ c) (closed_ c) true.

(** ** The loop *)

Definition generate_random (len : Z) : M bytes := fun m =>
  inr (random (draws m) len,
       mk (cid_map_ m) (connections_ m) (next_address m) (timers m) (next_timer m) (posted m) (now m) (S (draws m)) (sent m) (carried m)).

Definition cancel_timer (id : option Z) : M () :=
  match id with
  | Some id => modify (fun m => set_timers (delete id (timers m)) m)
  | None => ret ()
  end.

(** The callback of the timer is [handle_expiry] of [p]. *)
Definition add_timer (p delay : Z) : M Z := fun m =>
  inr (next_timer m,
       mk (cid_map_ m) (connections_ m) (next_address m) (<[next_timer m := (p, delay)]> (timers m)) (next_timer m + 1)
         (posted m) (now m) (draws m) (sent m) (carried m)).

Definition send_cb (remote packet : bytes) : M () :=
  modify (fun m => mk (cid_map_ m) (connections_ m) (next_address m) (timers m) (next_timer m) (posted m) (now m) (draws m)
    (sent m ++ [(remote, packet)]) (carried m)).

Definition record_carried (p stream_id : Z) (data : bytes) : M () :=
  modify (fun m => mk (cid_map_ m) (connections_ m) (next_address m) (timers m) (next_timer m) (posted m) (now m) (draws m)
    (sent m) (<[(p, stream_id) := default [] (carried m !! (p, stream_id)) ++ data]> (carried m))).

Definition forget_carried (p : Z) : M () :=
  modify (fun m => mk (cid_map_ m) (connections_ m) (next_address m) (timers m) (next_timer m) (posted m) (now m) (draws m)
    (sent m) (filter (fun '((q, _), _) => q <> p) (carried m))).

(** ** Connection ids *)

Definition find (cid : bytes) : M (option Z) := get (fun m => cid_map_ m !! cid).
Definition add_cid (cid : bytes) (p : Z) : M () := modify (fun m => set_cid_map (<[cid := p]> (cid_map_ m)) m).
Definition remove_cid (cid : bytes) : M () := modify (fun m => set_cid_map (delete cid (cid_map_ m)) m).

(** ** [QuicConnection] *)

Definition is_draining (c : Conn) : bool := in_draining_period (conn_ c).
Definition is_closed (c : Conn) : bool := closed_ c || in_closing_period (conn_ c).

(** The callbacks, with the session that the shard creates at the end of the
    handshake. *)
Definition with_session (p : Z) (f : H -> Z * list E * H) : M (Answer E) :=
  do c <- deref p;
  match http3_session_ c with
  | None => ret (Returned 0 [])
  | Some h => let '(rv, asked, h) := f h in update p (set_session (Some h)) ;; ret (Returned rv asked)
  end.

Definition handle_recv_stream_data (p : Z) (fin : bool) (stream_id offset : Z) (data : bytes) : M (Answer E) :=
  do c <- deref p;
  if in_error_state_ c then ret (Returned NGTCP2_ERR_CALLBACK_FAILURE [])
  else
    do a <- with_session p (on_stream_data stream_id offset data fin);
    match a with
    | Returned rv asked =>
        if rv =? 0 then ret (Returned 0 asked)
        else update p set_error ;; ret (Returned NGTCP2_ERR_CALLBACK_FAILURE asked)
    | a => ret a
    end.

(** [handle_handshake_completed] with the callback of the shard. *)
Definition handle_handshake_completed (p : Z) : M (Answer E) :=
  do c <- deref p;
  match create_session (conn_ c) with
  | None => update p set_closed ;; ret ConnectionClosed
  | Some h => update p (set_session (Some h)) ;; forget_carried p ;; ret (Returned 0 [])
  end.

Definition callback (p : Z) (q : Callback) : M (Answer E) :=
  match q with
  | GetNewConnectionId cidlen =>
      do cid <- generate_random cidlen;
      do token <- generate_random NGTCP2_STATELESS_RESET_TOKENLEN;
      add_cid cid p ;; ret (ConnectionId cid token)
  | RemoveConnectionId cid => remove_cid cid ;; ret (Returned 0 [])
  | HandshakeCompleted => handle_handshake_completed p
  | RecvStreamData fin stream_id offset data => handle_recv_stream_data p fin stream_id offset data
  | StreamClose stream_id code => with_session p (on_stream_close stream_id code)
  | AckedStreamData stream_id offset datalen => with_session p (on_acked_stream_data stream_id offset datalen)
  | ExtendMaxStreamData stream_id => with_session p (on_extend_max_stream_data stream_id)
  end.

(** A call into ngtcp2 for the connection at [p]. *)
Fixpoint run {R} (p : Z) (call : Call E N R) : M R :=
  match call with
  | Done r n => update p (set_conn n) ;; ret r
  | Ask q k => do a <- callback p q; run p (k a)
  end.

Definition call {R} (p : Z) (f : Z -> N -> Call E N R) : M R :=
  do c <- deref p; do time <- get now; run p (f time (conn_ c)).

Definition update_timer (p : Z) : M () :=
  do c <- deref p;
  cancel_timer (expiry_timer_ c) ;;
  match conn_get_expiry (conn_ c) with
  | None => ret ()
  | Some expiry =>
      do now_ts <- get now;
      do id <- add_timer p (if expiry <=? now_ts then 0 else expiry - now_ts);
      update p (set_timer (Some id))
  end.

(** For the record: what ngtcp2 took of the data it was given. *)
Definition note_taken (p stream_id : Z) (data : bytes) (w : Written) : M () :=
  match w with
  | Packet _ pdatalen | WriteMore pdatalen =>
      if (0 <=? stream_id) && (0 <=? pdatalen) then record_carried p stream_id (take (Z.to_nat pdatalen) data) else ret ()
  | _ => ret ()
  end.

Definition add_offset (p stream_id pdatalen : Z) : M () :=
  if (0 <=? stream_id) && (0 <=? pdatalen) then
    update p (fun c => set_session (add_write_offset stream_id pdatalen <$> http3_session_ c) c)
  else ret ().

(** The loop over the data of the session; [Some rv] is a return from [on_write]. *)
Fixpoint stream_loop (fuel : nat) (p : Z) : M (option Z) :=
  match fuel with
  | O => fail OutOfFuel
  | S fuel =>
      do c <- deref p;
      match http3_session_ c with
      | None => ret None
      | Some h =>
          let '(d, h) := get_stream_data h in
          update p (set_session (Some h)) ;;
          match d with
          | None => ret None
          | Some (stream_id, fin, data) =>
              do w <- call p (conn_writev_stream fin stream_id data);
              note_taken p stream_id data w ;;
              match w with
              | WriteMore pdatalen => add_offset p stream_id pdatalen ;; stream_loop fuel p
              | StreamNotFound => stream_loop fuel p
              | WriteError e => ret (Some e)
              | CongestionLimited => ret None
              | Packet out pdatalen =>
                  add_offset p stream_id pdatalen ;;
                  send_cb (remote_addr_ c) out ;;
                  stream_loop fuel p
              end
          end
      end
  end.

(** The loop over the other packets. *)
Fixpoint packet_loop (fuel : nat) (p : Z) : M (option Z) :=
  match fuel with
  | O => fail OutOfFuel
  | S fuel =>
      do c <- deref p;
      do w <- call p conn_write_pkt;
      match w with
      | Packet out _ => send_cb (remote_addr_ c) out ;; packet_loop fuel p
      | CongestionLimited => ret None
      | WriteMore _ | StreamNotFound => ret (Some (-1))
      | WriteError e => ret (Some e)
      end
  end.

Definition on_write (fuel : nat) (p : Z) : M Z :=
  do c <- deref p;
  if is_closed c || is_draining c then ret 0
  else
    do r <- (match http3_session_ c with Some _ => stream_loop fuel p | None => ret None end);
    match r with
    | Some rv => ret rv
    | None =>
        do r <- packet_loop fuel p;
        match r with
        | Some rv => ret rv
        | None => update_timer p ;; ret 0
        end
    end.

Definition on_read (fuel : nat) (p : Z) (packet : bytes) : M Z :=
  do rv <- call p (conn_read_pkt packet);
  if rv =? 0 then update_timer p ;; ret 0
  else (if err_is_fatal rv then ret 0 else on_write fuel p) ;; ret rv.

Definition handle_expiry (fuel : nat) (p : Z) : M Z :=
  do rv <- call p conn_handle_expiry;
  if rv =? 0 then on_write fuel p else ret rv.

Definition close (p app_error_code : Z) : M () :=
  do c <- deref p;
  if closed_ c then ret ()
  else
    (if in_closing_period (conn_ c) || in_draining_period (conn_ c) then ret ()
     else do out <- call p (conn_write_connection_close app_error_code);
          match out with Some packet => send_cb (remote_addr_ c) packet | None => ret () end) ;;
    update p set_closed.

(** ** [ConnectionManager] *)

(** [QuicConnection::create]; [None]: it throws. *)
Definition create (dcid remote : bytes) : M (option Conn) :=
  do scid <- generate_random NGTCP2_MIN_CIDLEN;
  do token <- generate_random NGTCP2_STATELESS_RESET_TOKENLEN;
  ret ((fun n => mkConn n scid None remote None false false) <$> conn_server_new dcid scid token).

(** An exception of [create] is caught and logged. *)
Definition accept_connection (packet remote : bytes) : M (option Z) :=
  match accept packet with
  | None => ret None
  | Some dcid =>
      do o <- create dcid remote;
      match o with
      | None => ret None
      | Some c =>
          do p <- get next_address;
          modify (fun m => mk (<[dcid := p]> (<[scid_ c := p]> (cid_map_ m))) (connections_ m ++ [(p, c)]) (p + 1)
            (timers m) (next_timer m) (posted m) (now m) (draws m) (sent m) (carried m)) ;;
          ret (Some p)
      end
  end.

Definition on_segment (fuel : nat) (packet remote : bytes) : M Z :=
  match pkt_decode_version_cid packet with
  | None => ret 0
  | Some dcid =>
      do o <- find dcid;
      match o with
      | Some p =>
          do c <- deref p;
          if is_draining c then ret 0
          else do rv <- on_read fuel p packet; on_write fuel p ;; ret rv
      | None =>
          do o <- accept_connection packet remote;
          match o with
          | None => ret 0
          | Some p =>
              do rv <- on_read fuel p packet;
              if rv =? 0 then on_write fuel p ;; ret 0 else ret rv
          end
      end
  end.

(** The [for] loop over the segments of a packet that the kernel coalesced:
    [offset] grows by [size] until the end; [steps] bounds its length. *)
Fixpoint segment_loop (fuel steps : nat) (packet remote : bytes) (size offset first_error : Z) : M Z :=
  match steps with
  | O => fail OutOfFuel
  | S steps =>
      if offset <? len packet then
        do rv <- on_segment fuel (take (Z.to_nat (Z.min size (len packet - offset))) (drop (Z.to_nat offset) packet)) remote;
        segment_loop fuel steps packet remote size (offset + size) (if first_error =? 0 then rv else first_error)
      else ret first_error
  end.

Definition on_packet (fuel : nat) (packet remote : bytes) (gro_segment_size : Z) : M Z :=
  if (0 <? gro_segment_size) && (gro_segment_size <? len packet)
  then segment_loop fuel (S (length packet)) packet remote gro_segment_size 0 0
  else on_segment fuel packet remote.

(** With the destructor of the connection, which cancels its timer. *)
Definition remove_connection (p : Z) : M () :=
  do c <- get (fun m => find_connection p (connections_ m));
  modify (fun m => set_cid_map (filter (fun '(_, q) => q <> p) (cid_map_ m)) m) ;;
  cancel_timer (c ≫= expiry_timer_) ;;
  modify (fun m => set_connections (filter (fun '(q, _) => q <> p) (connections_ m)) m).

Fixpoint remove_all (ps : list Z) : M () :=
  match ps with
  | [] => ret ()
  | p :: ps => deref p ;; remove_connection p ;; remove_all ps
  end.

Definition cleanup : M () :=
  do to_remove <- get (fun m => map fst (filter (fun '(_, c) => is_closed c || is_draining c = true) (connections_ m)));
  remove_all to_remove.

Fixpoint write_each (fuel : nat) (ps : list Z) : M () :=
  match ps with
  | [] => ret ()
  | p :: ps =>
      do c <- deref p;
      (if negb (is_closed c) && negb (is_draining c) then on_write fuel p ;; ret () else ret ()) ;;
      write_each fuel ps
  end.

Definition write_all (fuel : nat) : M () :=
  do ps <- get (fun m => map fst (connections_ m)); write_each fuel ps.

(** ** Events of the loop *)

(** An event stream of the connection has news, from any thread: a task is posted. *)
Definition wake (p stream_id : Z) : M () :=
  modify (fun m => mk (cid_map_ m) (connections_ m) (next_address m) (timers m) (next_timer m) (posted m ++ [(p, stream_id)])
    (now m) (draws m) (sent m) (carried m)).

(** The task: it holds a reference to the connection. *)
Definition resume (fuel : nat) (p stream_id : Z) : M () :=
  do c <- deref p;
  match http3_session_ c with
  | None => ret ()
  | Some h => update p (set_session (Some (resume_sse_stream stream_id h))) ;; on_write fuel p ;; ret ()
  end.

Definition run_posted (fuel : nat) : M () :=
  do tasks <- get posted;
  match tasks with
  | [] => ret ()
  | (p, stream_id) :: rest =>
      modify (fun m => mk (cid_map_ m) (connections_ m) (next_address m) (timers m) (next_timer m) rest
        (now m) (draws m) (sent m) (carried m)) ;;
      resume fuel p stream_id
  end.

(** A timer is one-shot. *)
Definition fire (fuel : nat) (id : Z) : M () :=
  do o <- get (fun m => timers m !! id);
  match o with
  | None => ret ()
  | Some (p, _) => modify (fun m => set_timers (delete id (timers m)) m) ;; handle_expiry fuel p ;; ret ()
  end.

Inductive Event :=
| Receive (packet remote : bytes) (gro_segment_size : Z)
| Timer (id : Z)
| Cleanup
| WriteAll
| Wake (p stream_id : Z)
| RunPosted
| Tick (time : Z).

Definition handle (fuel : nat) (e : Event) : M () :=
  match e with
  | Receive packet remote gro => on_packet fuel packet remote gro ;; ret ()
  | Timer id => fire fuel id
  | Cleanup => cleanup
  | WriteAll => write_all fuel
  | Wake p stream_id => wake p stream_id
  | RunPosted => run_posted fuel
  | Tick time => modify (fun m => mk (cid_map_ m) (connections_ m) (next_address m) (timers m) (next_timer m) (posted m)
      time (draws m) (sent m) (carried m))
  end.

Fixpoint run_events (fuel : nat) (es : list Event) : M () :=
  match es with
  | [] => ret ()
  | e :: es => handle fuel e ;; run_events fuel es
  end.

End Operations.
End Quic.
