(* ===== verification/QuicProps.v ===== *)
(** * QUIC connections: properties

    Connection ids, timers and posted tasks only ever lead to connections that
    exist; what one connection does leaves the others alone; coalesced packets
    are taken apart exactly; and every byte of a stream goes out once. *)

From S2P Require Import Prelude CxxString Quic.
Import Quic.
Open Scope quic_scope.

Module QuicProps.

Section Safety.
Context {E N H : Type} `{!Ngtcp2 E N} `{!Session E N H} (random : nat -> Z -> bytes).
Abbreviation St := (t N H).
Abbreviation M := (M (N:=N) (H:=H)).
Implicit Types m : St.

(** ** The invariant *)

Definition addresses m : list Z := map fst (connections_ m).
Definition live (p : Z) m : Prop := p ∈ addresses m.

Definition owns_timer m (id p : Z) : Prop :=
  exists c, find_connection p (connections_ m) = Some c /\ expiry_timer_ c = Some id.

Record ok m : Prop := {
  ok_distinct : NoDup (addresses m);
  ok_fresh : forall p, live p m -> p < next_address m;
  ok_cids : forall cid p, cid_map_ m !! cid = Some p -> live p m;
  ok_timers : forall id p d, timers m !! id = Some (p, d) -> owns_timer m id p;
  ok_handles : forall id p, owns_timer m id p -> id < next_timer m /\ forall q d, timers m !! id = Some (q, d) -> q = p
}.

Lemma find_live p (l : list (Z * QuicConnection N H)) : p ∈ map fst l <-> is_Some (find_connection p l).
Proof.
  induction l as [|[q c] l IH]; cbn; [split; [by intros ?%elem_of_nil|by intros []]|].
  rewrite elem_of_cons. destruct (Z.eqb_spec q p) as [->|]; [naive_solver|]. rewrite <- IH. naive_solver.
Qed.

Lemma live_find p m : live p m <-> is_Some (find_connection p (connections_ m)).
Proof. apply find_live. Qed.

(** What a connection may do while the others are not looking. *)
Record step (p : Z) m m' : Prop := {
  step_ok : ok m';
  step_addresses : addresses m' = addresses m;
  step_next : next_address m' = next_address m;
  step_posted : posted m' = posted m;
  step_others : forall q, q <> p -> find_connection q (connections_ m') = find_connection q (connections_ m);
  step_timers : forall id q d, q <> p -> timers m' !! id = Some (q, d) <-> timers m !! id = Some (q, d)
}.

Lemma step_refl p m : ok m -> step p m m.
Proof. intros. by split. Qed.

Lemma step_trans p m1 m2 m3 : step p m1 m2 -> step p m2 m3 -> step p m1 m3.
Proof.
  intros S1 S2. split; [apply S2|..].
  - by rewrite (step_addresses _ _ _ S2), (step_addresses _ _ _ S1).
  - by rewrite (step_next _ _ _ S2), (step_next _ _ _ S1).
  - by rewrite (step_posted _ _ _ S2), (step_posted _ _ _ S1).
  - intros q Q. by rewrite (step_others _ _ _ S2), (step_others _ _ _ S1).
  - intros id q d Q. by rewrite (step_timers _ _ _ S2), (step_timers _ _ _ S1).
Qed.

Definition within (p : Z) {A} (f : M A) : Prop := forall m, ok m -> live p m ->
  match f m with
  | inr (_, m') => step p m m'
  | inl Dangling => False
  | inl OutOfFuel => True
  end.

Lemma within_ret p {A} (a : A) : within p (ret a).
Proof. intros m O L. by apply step_refl. Qed.

Lemma within_fail p A : within p (@fail N H A OutOfFuel).
Proof. done. Qed.

Lemma within_bind p {A B} (f : M A) (g : A -> M B) :
  within p f -> (forall a, within p (g a)) -> within p (bind f g).
Proof.
  intros F G m O L. unfold bind. specialize (F m O L). destruct (f m) as [|[a m1]]; [done|].
  assert (live p m1) as L1 by (unfold live; by rewrite (step_addresses _ _ _ F)).
  specialize (G a m1 (step_ok _ _ _ F) L1). destruct (g a m1) as [|[b m2]]; [done|]. by eapply step_trans.
Qed.

Lemma within_deref p : within p (deref p).
Proof.
  intros m O L. unfold deref. apply live_find in L as [c ->]. by apply step_refl.
Qed.

Lemma within_get p {A} (f : St -> A) : within p (get f).
Proof. intros m O L. by apply step_refl. Qed.

(** ** Updates *)

Lemma find_update p q (f : QuicConnection N H -> QuicConnection N H) l :
  find_connection q (map (fun '(q, c) => (q, if q =? p then f c else c)) l) =
  (fun c => if q =? p then f c else c) <$> find_connection q l.
Proof.
  induction l as [|[r c] l IH]; cbn; [done|]. destruct (Z.eqb_spec r q) as [->|]; [done|apply IH].
Qed.

Lemma addresses_update p (f : QuicConnection N H -> QuicConnection N H) (l : list (Z * QuicConnection N H)) :
  map fst (map (fun '(q, c) => (q, if q =? p then f c else c)) l) = map fst l.
Proof. rewrite map_map. apply map_ext. by intros []. Qed.

Lemma within_update p f : (forall c, expiry_timer_ (f c) = expiry_timer_ c) -> within p (update p f).
Proof.
  intros F m O L. cbn. split; cbn; try done.
  - assert (forall id q, owns_timer (set_connections (map (fun '(q, c) => (q, if q =? p then f c else c)) (connections_ m)) m) id q <->
      owns_timer m id q) as W.
    { intros id q. unfold owns_timer. cbn. rewrite find_update. destruct (find_connection q _) as [c|]; cbn; [|naive_solver].
      split; intros (c' & [= <-] & X); eexists; (split; [done|]); destruct (q =? p); rewrite ?F in *; done. }
    destruct O as [O1 O2 O3 O4 O5]. split; unfold live, addresses in *; cbn; rewrite ?addresses_update; try done.
    + intros id q d T. apply W. eauto.
    + intros id q T%W. eauto.
  - unfold addresses. cbn. apply addresses_update.
  - intros q Q. rewrite find_update. destruct (Z.eqb_spec q p); [done|]. by destruct (find_connection _ _).
Qed.

(** An operation that touches neither connections nor timers. *)
Lemma within_modify p f :
  (forall m, ok m -> live p m -> ok (f m) /\ connections_ (f m) = connections_ m /\ next_address (f m) = next_address m /\
    timers (f m) = timers m /\ posted (f m) = posted m) ->
  within p (modify f).
Proof.
  intros F m O L. cbn. destruct (F m O L) as (O' & C & A & T & P). split; try done.
  - unfold addresses. by rewrite C.
  - intros q _. by rewrite C.
  - intros id q d _. by rewrite T.
Qed.

Lemma ok_frame m m' :
  connections_ m' = connections_ m -> next_address m' = next_address m -> timers m' = timers m ->
  next_timer m' = next_timer m -> (forall cid p, cid_map_ m' !! cid = Some p -> live p m) -> ok m -> ok m'.
Proof.
  intros C A T NT Cs [O1 O2 O3 O4 O5]. split; unfold live, addresses, owns_timer in *; rewrite ?C, ?A, ?T, ?NT; try done.
Qed.

Lemma within_add_cid p cid : within p (add_cid cid p).
Proof.
  apply within_modify. intros m O L. split_and!; try done. eapply ok_frame; [..|exact O]; try done.
  cbn. intros cid' q [[_ ->]|[_ X]]%lookup_insert_Some; [done|]. by eapply ok_cids.
Qed.

Lemma within_remove_cid p cid : within p (remove_cid cid).
Proof.
  apply within_modify. intros m O L. split_and!; try done. eapply ok_frame; [..|exact O]; try done.
  cbn. intros cid' q [_ X]%lookup_delete_Some. by eapply ok_cids.
Qed.

Lemma within_random p n : within p (generate_random random n).
Proof.
  intros m O L. cbn. split; try done. eapply ok_frame; [..|exact O]; try done. cbn. apply (ok_cids _ O).
Qed.

Lemma within_send p a b : within p (send_cb a b).
Proof.
  apply within_modify. intros m O L. split_and!; try done. eapply ok_frame; [..|exact O]; try done. cbn. apply (ok_cids _ O).
Qed.

Lemma within_forget p q : within p (forget_carried q).
Proof.
  apply within_modify. intros m O L. split_and!; try done. eapply ok_frame; [..|exact O]; try done. cbn. apply (ok_cids _ O).
Qed.

Lemma within_carried p q s d : within p (record_carried q s d).
Proof.
  apply within_modify. intros m O L. split_and!; try done. eapply ok_frame; [..|exact O]; try done. cbn. apply (ok_cids _ O).
Qed.

(** Cancelling its timer leaves [p] without one. *)
Lemma cancel_own p c m : ok m -> find_connection p (connections_ m) = Some c ->
  exists m', cancel_timer (expiry_timer_ c) m = inr ((), m') /\ step p m m' /\ connections_ m' = connections_ m /\
    (forall id d, timers m' !! id <> Some (p, d)).
Proof.
  intros O C. destruct (expiry_timer_ c) as [own|] eqn:X; cbn.
  - assert (owns_timer m own p) as W by (by exists c). destruct (ok_handles _ O _ _ W) as [_ U].
    eexists. split; [done|]. split_and!; [|done|].
    + split; try done; cbn.
      * destruct O as [O1 O2 O3 O4 O5]. split; try done; cbn.
        -- intros id q d [_ T]%lookup_delete_Some. by eapply O4.
        -- intros id q T. destruct (O5 id q T) as [T1 T2]. split; [done|]. intros q' d [_ T']%lookup_delete_Some. eauto.
      * intros id q d Q. rewrite lookup_delete_Some. split; [by intros []|]. intros T. split; [|done]. intros <-. by apply U in T.
    + cbn. intros id d [D T]%lookup_delete_Some. destruct (ok_timers _ O _ _ _ T) as (c' & C' & X'). congruence.
  - eexists. split; [done|]. split_and!; [by apply step_refl|done|]. cbn. intros id d T.
    destruct (ok_timers _ O _ _ _ T) as (c' & C' & X'). congruence.
Qed.

(** A new timer becomes the one of [p]. *)
Lemma add_own p delay m : ok m -> live p m -> (forall id d, timers m !! id <> Some (p, d)) ->
  exists m', bind (add_timer p delay) (fun id => update p (set_timer (Some id))) m = inr ((), m') /\ step p m m'.
Proof.
  intros O L F. eexists. split; [done|].
  assert (forall id q, owns_timer (snd (match update p (set_timer (Some (next_timer m))) m with inr r => r | inl _ => ((), m) end)) id q <->
    if decide (q = p) then id = next_timer m else owns_timer m id q) as W.
  { intros id q. unfold owns_timer. cbn. rewrite find_update. destruct (decide (q = p)) as [->|Q].
    - apply live_find in L as [c ->]. cbn. rewrite Z.eqb_refl. split; [by intros (c' & [= <-] & [= <-])|]. intros ->. by eexists.
    - rewrite (proj2 (Z.eqb_neq q p)) by done. by destruct (find_connection q _). }
  split; try done; cbn.
  - destruct O as [O1 O2 O3 O4 O5]. split; unfold live, addresses in *; cbn; rewrite ?addresses_update; try done.
    + intros id q d T. apply (W id q). apply lookup_insert_Some in T as [[<- [= <- <-]]|[I T]]; [by rewrite decide_True by done|].
      rewrite decide_False; [by eapply O4|]. intros ->. by eapply F.
    + intros id q T. apply (W id q) in T. destruct (decide (q = p)) as [->|Q].
      * subst id. split; [lia|]. intros q d. rewrite lookup_insert_Some. intros [[_ [= <- <-]]|[]]; done.
      * destruct (O5 id q T) as [I U]. split; [lia|]. intros q' d. rewrite lookup_insert_Some. intros [[<- _]|[_ X]]; [lia|eauto].
  - unfold addresses. cbn. apply addresses_update.
  - intros q Q. rewrite find_update. rewrite (proj2 (Z.eqb_neq q p)) by done. by destruct (find_connection q _).
  - intros id q d Q. rewrite lookup_insert_Some. split; [intros [[_ [=]]|[]]; done|]. intros T. right. split; [|done].
    intros <-. destruct (ok_timers _ O _ _ _ T) as (c & C). destruct (ok_handles _ O (next_timer m) q); [by exists c|lia].
Qed.

Lemma within_update_timer p : within p (update_timer p).
Proof.
  intros m O L. unfold update_timer. unfold bind at 1. unfold deref. destruct (proj1 (live_find p m) L) as [c C]. rewrite C.
  destruct (cancel_own p c m O C) as (m1 & E1 & S1 & C1 & F). unfold bind at 1. rewrite E1.
  destruct (conn_get_expiry _) as [expiry|]; [|done]. unfold bind at 1, get.
  destruct (add_own p (if expiry <=? now m1 then 0 else expiry - now m1) m1) as (m2 & E2 & S2);
    [apply S1|unfold live; by rewrite (step_addresses _ _ _ S1)|done|]. rewrite E2. by eapply step_trans.
Qed.

(** ** Everything a connection does *)

Create HintDb quic.
#[local] Hint Resolve within_ret within_fail within_deref within_get within_add_cid within_remove_cid within_random within_send
  within_forget within_carried within_update_timer : quic.
#[local] Hint Extern 1 (within _ (update _ _)) => apply within_update; intros; reflexivity : quic.
#[local] Hint Extern 2 (within _ (bind _ _)) => apply within_bind; [|intros] : quic.
Ltac within_step := match goal with
  | |- within _ (match ?x with _ => _ end) => destruct x
  | |- within _ (let '(_, _) := ?x in _) => destruct x
  end.
Ltac within_solve := repeat (eauto 3 with quic; first [apply within_bind; [|intros]|within_step]); eauto with quic.

Lemma within_session p f : within p (with_session (E:=E) (N:=N) p f).
Proof. unfold with_session. within_solve. Qed.
#[local] Hint Resolve within_session : quic.

Lemma within_callback p q : within p (callback random p q).
Proof. destruct q; cbn; unfold handle_handshake_completed, handle_recv_stream_data; within_solve. Qed.
#[local] Hint Resolve within_callback : quic.

Lemma within_run {R} p (c : Call E N R) : within p (run random p c).
Proof. induction c as [r n|q k IH]; cbn; within_solve. Qed.
#[local] Hint Resolve within_run : quic.

Lemma within_call {R} p (f : Z -> N -> Call E N R) : within p (call random p f).
Proof. unfold call. within_solve. Qed.
#[local] Hint Resolve within_call : quic.

Lemma within_offset p s k : within p (add_offset (E:=E) (N:=N) p s k).
Proof. unfold add_offset. within_solve. Qed.
Lemma within_taken p s d w : within p (note_taken p s d w).
Proof. unfold note_taken. within_solve. Qed.
#[local] Hint Resolve within_offset within_taken : quic.

Lemma within_stream_loop fuel p : within p (stream_loop random fuel p).
Proof. induction fuel as [|fuel IH]; cbn; within_solve. Qed.
#[local] Hint Resolve within_stream_loop : quic.

Lemma within_packet_loop fuel p : within p (packet_loop random fuel p).
Proof. induction fuel as [|fuel IH]; cbn; within_solve. Qed.
#[local] Hint Resolve within_packet_loop : quic.

Lemma within_on_write fuel p : within p (on_write random fuel p).
Proof. unfold on_write. within_solve. Qed.
#[local] Hint Resolve within_on_write : quic.

Lemma within_on_read fuel p packet : within p (on_read random fuel p packet).
Proof. unfold on_read. within_solve. Qed.
#[local] Hint Resolve within_on_read : quic.

Lemma within_handle_expiry fuel p : within p (handle_expiry random fuel p).
Proof. unfold handle_expiry. within_solve. Qed.

Lemma within_close p code : within p (close random p code).
Proof. unfold close. within_solve. Qed.
#[local] Hint Resolve within_handle_expiry within_close : quic.

(** ** Removing connections *)

Abbreviation Conns := (list (Z * QuicConnection N H)).

Lemma find_filter q (P : Z -> Prop) `{!forall x, Decision (P x)} (l : Conns) :
  find_connection q (filter (fun '(q, _) => P q) l) = if decide (P q) then find_connection q l else None.
Proof.
  induction l as [|[r c] l IH]; [by destruct (decide (P q))|]. rewrite filter_cons. cbn.
  destruct (decide (P r)) as [D|D]; cbn; rewrite IH.
  - destruct (Z.eqb_spec r q) as [->|]; [by rewrite decide_True by done|done].
  - destruct (Z.eqb_spec r q) as [->|]; [by rewrite !decide_False by done|done].
Qed.

Lemma addresses_filter (P : Z -> Prop) `{!forall x, Decision (P x)} (l : Conns) :
  map fst (filter (fun '(q, _) => P q) l) = filter P (map fst l).
Proof.
  induction l as [|[r c] l IH]; [done|]. rewrite filter_cons. cbn [map fst]. rewrite filter_cons. destruct (decide (P r)); cbn; by rewrite IH.
Qed.

(** [m'] is [m] without the connections whose address is not in [P]. *)
Record restricted (P : Z -> Prop) `{!forall x, Decision (P x)} m m' : Prop := {
  restricted_ok : ok m';
  restricted_connections : connections_ m' = filter (fun '(q, _) => P q) (connections_ m);
  restricted_cids : forall cid q, cid_map_ m' !! cid = Some q <-> cid_map_ m !! cid = Some q /\ P q;
  restricted_timers : forall id q d, timers m' !! id = Some (q, d) <-> timers m !! id = Some (q, d) /\ P q;
  restricted_posted : posted m' = posted m;
  restricted_next : next_address m' = next_address m;
  restricted_carried : carried m' = carried m
}.

Lemma remove_connection_restricts p m : ok m -> live p m ->
  exists m', remove_connection p m = inr ((), m') /\ restricted (fun q => q <> p) m m'.
Proof.
  intros O L. destruct (proj1 (live_find p m) L) as [c C]. unfold remove_connection, bind, get. rewrite C. cbn [mbind option_bind].
  pose (m1 := set_cid_map (filter (fun '(_, q) => q <> p) (cid_map_ m)) m).
  assert (ok m1) as O1.
  { eapply ok_frame; [..|exact O]; try done. cbn. intros cid q [X _]%map_lookup_filter_Some. by eapply ok_cids. }
  destruct (cancel_own p c m1 O1 C) as (m2 & E2 & S2 & C2 & F2).
  change (modify _ m) with (inr (A:=Failure) ((), m1)). cbn iota. rewrite E2. eexists. split; [done|].
  assert (cid_map_ m2 = cid_map_ m1) as D2 by (destruct (expiry_timer_ c); cbn in E2; by injection E2 as <-).
  assert (forall id q d, timers m2 !! id = Some (q, d) <-> timers m !! id = Some (q, d) /\ q <> p) as T2.
  { intros id q d. destruct (decide (q = p)) as [->|Q].
    - split; [by intros ?%F2|by intros []].
    - rewrite (step_timers _ _ _ S2) by done. naive_solver. }
  assert (forall cid q, cid_map_ m2 !! cid = Some q <-> cid_map_ m !! cid = Some q /\ q <> p) as K2.
  { intros cid q. rewrite D2. cbn. by rewrite map_lookup_filter_Some. }
  pose proof (step_ok _ _ _ S2) as [Q1 Q2 Q3 Q4 Q5].
  assert (forall q, q ∈ map fst (filter (fun '(q, _) => q <> p) (connections_ m2)) <-> live q m2 /\ q <> p) as A2.
  { intros q. rewrite addresses_filter, list_elem_of_filter. unfold live, addresses. naive_solver. }
  split; cbn.
  - split; unfold live, addresses, owns_timer; cbn.
    + rewrite addresses_filter. by apply NoDup_filter.
    + intros q [X _]%A2. by apply Q2.
    + intros cid q X. apply A2. pose proof X as X'. apply K2 in X as [_ X]. split; [by eapply Q3|done].
    + intros id q d T. pose proof (proj1 (T2 id q d) T) as [_ X]. rewrite find_filter, decide_True by done. by eapply Q4.
    + intros id q (c' & X & Y). rewrite find_filter in X. destruct (decide (q <> p)); [|done]. apply Q5. by exists c'.
  - by rewrite C2.
  - exact K2.
  - exact T2.
  - apply S2.
  - apply S2.
  - destruct (expiry_timer_ c); cbn in E2; by injection E2 as <-.
Qed.

Lemma restricted_trans (P Q : Z -> Prop) `{!forall x, Decision (P x)} `{!forall x, Decision (Q x)} m1 m2 m3 :
  restricted P m1 m2 -> restricted Q m2 m3 -> restricted (fun x => Q x /\ P x) m1 m3.
Proof.
  intros R1 R2. split; [apply R2|..].
  - rewrite (restricted_connections _ _ _ R2), (restricted_connections _ _ _ R1), list_filter_filter.
    apply list_filter_iff. by intros [].
  - intros. rewrite (restricted_cids _ _ _ R2), (restricted_cids _ _ _ R1). naive_solver.
  - intros. rewrite (restricted_timers _ _ _ R2), (restricted_timers _ _ _ R1). naive_solver.
  - by rewrite (restricted_posted _ _ _ R2), (restricted_posted _ _ _ R1).
  - by rewrite (restricted_next _ _ _ R2), (restricted_next _ _ _ R1).
  - by rewrite (restricted_carried _ _ _ R2), (restricted_carried _ _ _ R1).
Qed.

Lemma restricted_iff (P Q : Z -> Prop) `{!forall x, Decision (P x)} `{!forall x, Decision (Q x)} m m' :
  (forall x, live x m -> P x <-> Q x) -> ok m -> restricted P m m' -> restricted Q m m'.
Proof.
  intros I O R. split; [apply R|..].
  - rewrite (restricted_connections _ _ _ R). unfold live, addresses in I. clear -I. revert I.
    generalize (connections_ m). induction l as [|[q c] l IH]; intros I; [done|]. rewrite !filter_cons.
    rewrite IH by (intros x X; apply I; by right). specialize (I q). 
    destruct (decide (P q)), (decide (Q q)); try done; exfalso; cbn in I; rewrite elem_of_cons in I; tauto.
  - intros cid q. rewrite (restricted_cids _ _ _ R). split; intros [X Y]; (split; [done|]); apply I; try done; by eapply ok_cids.
  - intros id q d. rewrite (restricted_timers _ _ _ R).
    assert (timers m !! id = Some (q, d) -> live q m) as L.
    { intros X. destruct (ok_timers _ O _ _ _ X) as (c & C & _). apply live_find. by rewrite C. }
    split; intros [X Y]; (split; [done|]); by apply I; auto.
  - apply R.
  - apply R.
  - apply R.
Qed.

Lemma remove_all_restricts ps m : ok m -> NoDup ps -> (forall p, p ∈ ps -> live p m) ->
  exists m', remove_all ps m = inr ((), m') /\ restricted (fun q => q ∉ ps) m m'.
Proof.
  revert m. induction ps as [|p ps IH]; intros m O D L.
  - eexists. split; [done|]. split; try done; try (intros; split; [|naive_solver]; intros; split; [done|apply not_elem_of_nil]).
    induction (connections_ m) as [|[q c] l IHl]; [done|]. rewrite filter_cons, decide_True by apply not_elem_of_nil. by rewrite <- IHl.
  - apply NoDup_cons in D as [D1 D2]. cbn. unfold bind at 1, deref.
    destruct (proj1 (live_find p m)) as [c ->]; [apply L; by left|].
    destruct (remove_connection_restricts p m O) as (m1 & E1 & R1); [apply L; by left|]. unfold bind at 1. rewrite E1.
    destruct (IH m1) as (m2 & E2 & R2); [apply R1|done| |].
    + intros q Q. unfold live, addresses. rewrite (restricted_connections _ _ _ R1), addresses_filter, list_elem_of_filter.
      split; [set_solver|]. apply L. by right.
    + rewrite E2. eexists. split; [done|]. eapply restricted_iff; [|exact O|exact (restricted_trans _ _ _ _ _ R1 R2)].
      intros x _. set_solver.
Qed.

(** The connections to clean up. *)
Definition gone m (p : Z) : Prop :=
  p ∈ map fst (filter (fun '(_, c) => is_closed c || is_draining c = true) (connections_ m)).
#[export] Instance gone_dec m p : Decision (gone m p).
Proof. unfold gone. apply _. Defined.

Lemma cleanup_restricts m : ok m -> exists m', cleanup m = inr ((), m') /\ restricted (fun q => ~ gone m q) m m'.
Proof.
  intros O. unfold cleanup, bind, get.
  destruct (remove_all_restricts (map fst (filter (fun '(_, c) => is_closed c || is_draining c = true) (connections_ m))) m O) as (m' & E' & R').
  - eapply sublist_NoDup; [apply (ok_distinct _ O)|]. apply (fmap_sublist fst), sublist_filter.
  - intros p [[q c] [-> X]]%list_elem_of_fmap. apply list_elem_of_filter in X as [_ X]. unfold live, addresses. apply list_elem_of_fmap. by eexists (_, _).
  - by exists m'.
Qed.

(** ** Packets *)

Lemma find_app q (l1 l2 : Conns) :
  find_connection q (l1 ++ l2) = match find_connection q l1 with Some c => Some c | None => find_connection q l2 end.
Proof. induction l1 as [|[r c] l1 IH]; cbn; [done|]. by destruct (r =? q). Qed.

(** Only the connection at [p] changes, which may be a new one. *)
Record touches (p : Z) m m' : Prop := {
  touches_ok : ok m';
  touches_addresses : addresses m' = addresses m \/ addresses m' = addresses m ++ [p];
  touches_posted : posted m' = posted m;
  touches_others : forall q, q <> p -> find_connection q (connections_ m') = find_connection q (connections_ m);
  touches_timers : forall id q d, q <> p -> timers m' !! id = Some (q, d) <-> timers m !! id = Some (q, d)
}.

Lemma touches_step p m m1 m2 : touches p m m1 -> step p m1 m2 -> touches p m m2.
Proof.
  intros T S. split; [apply S|..].
  - rewrite (step_addresses _ _ _ S). apply T.
  - by rewrite (step_posted _ _ _ S), (touches_posted _ _ _ T).
  - intros q Q. by rewrite (step_others _ _ _ S), (touches_others _ _ _ T).
  - intros id q d Q. by rewrite (step_timers _ _ _ S), (touches_timers _ _ _ T).
Qed.

Lemma step_touches p m m' : step p m m' -> touches p m m'.
Proof. intros S. split; try apply S. left. apply S. Qed.

Lemma accept_touches packet remote m : ok m ->
  exists o m', accept_connection random packet remote m = inr (o, m') /\ touches (next_address m) m m' /\
    (forall p, o = Some p -> p = next_address m /\ live p m').
Proof.
  intros O. unfold accept_connection. destruct (accept packet) as [dcid|]; [|eexists _, _; split; [done|]; split; [by apply step_touches, step_refl|done]].
  unfold bind, create, generate_random. cbn. destruct (conn_server_new _ _ _) as [n|]; eexists _, _; (split; [done|]); split; [|by intros p [= <-]; split; [|unfold live, addresses; cbn; rewrite map_app; set_solver]| |done].
  2: { apply step_touches. split; try done. eapply ok_frame; [..|exact O]; try done. apply (ok_cids _ O). }
  pose proof O as [O1 O2 O3 O4 O5].
  assert (next_address m ∉ addresses m) as F by (intros X%O2; lia).
  assert (find_connection (next_address m) (connections_ m) = None) as F'.
  { apply eq_None_not_Some. intros X. apply F. by apply live_find. }
  split; cbn; [|right; unfold addresses; cbn; by rewrite map_app|done| |done].
  - split; unfold live, addresses, owns_timer in *; cbn; rewrite ?map_app; cbn.
    + apply NoDup_app. split_and!; [done|set_solver|apply NoDup_singleton].
    + intros p. rewrite elem_of_app, list_elem_of_singleton. intros [X%O2| ->]; lia.
    + intros cid p. rewrite elem_of_app, list_elem_of_singleton.
      intros [[_ <-]|[_ [[_ <-]|[_ X]]%lookup_insert_Some]]%lookup_insert_Some; eauto.
    + intros id p d T. rewrite find_app. destruct (O4 id p d T) as (c & -> & X). eauto.
    + intros id p (c & C & X). rewrite find_app in C. destruct (find_connection p (connections_ m)) as [c'|] eqn:C'.
      * apply O5. exists c'. naive_solver.
      * cbn in C. destruct (_ =? p); [|done]. by injection C as <-.
  - intros q Q. rewrite find_app. destruct (find_connection q (connections_ m)) as [c|]; [done|]. cbn.
    by rewrite (proj2 (Z.eqb_neq _ q)) by done.
Qed.

(** The connection a packet is for: the one of its id, or a new one. *)
Definition target (packet : bytes) m : Z :=
  default (next_address m) (pkt_decode_version_cid packet ≫= fun dcid => cid_map_ m !! dcid).

Definition only {A} (f : M A) (p : St -> Z) : Prop := forall m, ok m ->
  match f m with
  | inr (_, m') => touches (p m) m m'
  | inl Dangling => False
  | inl OutOfFuel => True
  end.

Lemma within_after p {A} (f : M A) m m1 : touches p m m1 -> live p m1 -> within p f ->
  match f m1 with
  | inr (_, m') => touches p m m'
  | inl Dangling => False
  | inl OutOfFuel => True
  end.
Proof.
  intros T L W. specialize (W m1 (touches_ok _ _ _ T) L). destruct (f m1) as [|[a m2]]; [done|]. by eapply touches_step.
Qed.

Lemma on_segment_only fuel packet remote : only (on_segment random fuel packet remote) (target packet).
Proof.
  intros m O. unfold on_segment, target. destruct (pkt_decode_version_cid packet) as [dcid|]; cbn; [|by apply step_touches, step_refl].
  unfold bind at 1, find, get. destruct (cid_map_ m !! dcid) as [p|] eqn:D; cbn [default].
  - assert (within p (do c <- deref p; if is_draining c then ret 0
      else do rv <- on_read random fuel p packet; on_write random fuel p ;; ret rv)) as W by within_solve.
    exact (within_after p _ m m (step_touches _ _ _ (step_refl p m O)) (ok_cids _ O _ _ D) W).
  - destruct (accept_touches packet remote m O) as (o & m1 & E1 & T1 & P1). unfold bind at 1. rewrite E1.
    destruct o as [p|]; [|done]. destruct (P1 p eq_refl) as [-> L].
    assert (within (next_address m) (do rv <- on_read random fuel (next_address m) packet;
      if rv =? 0 then on_write random fuel (next_address m) ;; ret 0 else ret rv)) as W by within_solve.
    exact (within_after _ _ m m1 T1 L W).
Qed.

(** ** Coalesced packets *)

Fixpoint chunks (fuel : nat) (size : Z) (data : bytes) : list bytes :=
  match fuel, data with
  | S fuel, _ :: _ => take (Z.to_nat size) data :: chunks fuel size (drop (Z.to_nat size) data)
  | _, _ => []
  end.

(** One packet after the other, with the first error. *)
Fixpoint each (fuel : nat) (remote : bytes) (packets : list bytes) (first_error : Z) : M Z :=
  match packets with
  | [] => ret first_error
  | p :: ps => do rv <- on_segment random fuel p remote; each fuel remote ps (if first_error =? 0 then rv else first_error)
  end.

Lemma chunks_cons fuel size data : data <> [] ->
  chunks (S fuel) size data = take (Z.to_nat size) data :: chunks fuel size (drop (Z.to_nat size) data).
Proof. by destruct data. Qed.

Lemma chunks_data fuel size data : 0 < size -> (length data <= fuel)%nat ->
  concat (chunks fuel size data) = data /\ Forall (fun c => 0 < len c <= size) (chunks fuel size data) /\
  Forall (fun c => len c = size) (removelast (chunks fuel size data)).
Proof.
  intros S. revert data. induction fuel as [|fuel IH]; intros data L; [by destruct data; cbn in *; [|lia]|].
  destruct (decide (data = [])) as [->|Nn]; [done|].
  assert (0 < len data) by (destruct data; [done|unfold len; cbn; lia]). rewrite chunks_cons by done.
  destruct (IH (drop (Z.to_nat size) data)) as (I1 & I2 & I3); [rewrite length_drop; unfold len in *; lia|].
  cbn [concat]. rewrite I1, take_drop. split_and!; [done|constructor; [rewrite len_take; lia|done]|].
  destruct (chunks fuel size (drop (Z.to_nat size) data)) as [|y r] eqn:C; [constructor|].
  cbn [removelast] in *. constructor; [|done]. rewrite len_take.
  destruct (Z.le_gt_cases (len data) size) as [G|G]; [|lia].
  rewrite drop_ge in C by (unfold len in G; lia). by destruct fuel.
Qed.

Lemma segment_loop_each fuel steps packet remote size offset e m :
  0 < size -> 0 <= offset -> (0 < steps)%nat -> (length packet < steps + Z.to_nat offset)%nat ->
  segment_loop random fuel steps packet remote size offset e m =
  each fuel remote (chunks (length packet) size (drop (Z.to_nat offset) packet)) e m.
Proof.
  intros S. assert (forall n steps offset e m, 0 <= offset -> (0 < steps)%nat -> (length packet < steps + Z.to_nat offset)%nat ->
    (length packet <= n + Z.to_nat offset)%nat ->
    segment_loop random fuel steps packet remote size offset e m =
    each fuel remote (chunks n size (drop (Z.to_nat offset) packet)) e m) as G; [|intros; apply G; lia].
  clear offset e m steps.
  induction n as [|n IH]; intros steps offset e m O P L K; (destruct steps as [|steps]; [lia|]); cbn [segment_loop].
  - rewrite (proj2 (Z.ltb_ge _ _)) by (unfold len; lia). done.
  - destruct (Z.ltb_spec offset (len packet)) as [B|B].
    + destruct (drop (Z.to_nat offset) packet) as [|x d] eqn:D.
      { apply (f_equal length) in D. rewrite length_drop in D. unfold len in B. cbn in D. lia. }
      cbn [chunks each]. rewrite <- D.
      replace (take (Z.to_nat (Z.min size (len packet - offset))) (drop (Z.to_nat offset) packet))
        with (take (Z.to_nat size) (drop (Z.to_nat offset) packet)).
      2: { destruct (Z.min_spec size (len packet - offset)) as [[_ ->]|[? ->]]; [done|].
           rewrite !take_ge; [done|rewrite length_drop; unfold len in *; lia..]. }
      unfold bind. destruct (on_segment _ _ _ _ m) as [|[rv m1]]; [done|].
      rewrite IH by (unfold len in B; lia). rewrite drop_drop. by rewrite <- Z2Nat.inj_add by lia.
    + rewrite drop_ge by (unfold len in B; lia). done.
Qed.

(** ** Events *)

Record good m : Prop := {
  good_ok : ok m;
  good_posted : forall p stream_id, (p, stream_id) ∈ posted m -> live p m
}.

Definition safe {A} (f : M A) : Prop := forall m, good m ->
  match f m with
  | inr (_, m') => good m'
  | inl Dangling => False
  | inl OutOfFuel => True
  end.

Lemma touches_good p m m' : touches p m m' -> good m -> good m'.
Proof.
  intros T [O P]. split; [apply T|]. intros q s. rewrite (touches_posted _ _ _ T). intros Q%P. unfold live in *.
  destruct (touches_addresses _ _ _ T) as [-> | ->]; [done|]. apply elem_of_app. by left.
Qed.

Lemma safe_then {A B} (f : M A) (g : A -> M B) : safe f -> (forall a, safe (g a)) -> safe (bind f g).
Proof.
  intros F G m D. unfold bind. specialize (F m D). destruct (f m) as [|[a m1]]; [done|]. by apply G.
Qed.

Lemma safe_return {A} (a : A) : safe (ret a).
Proof. by intros m D. Qed.

Lemma within_good p {A} (f : M A) m : within p f -> live p m -> good m ->
  match f m with
  | inr (_, m') => good m' /\ addresses m' = addresses m
  | inl Dangling => False
  | inl OutOfFuel => True
  end.
Proof.
  intros W L D. specialize (W m (good_ok _ D) L). destruct (f m) as [|[a m']]; [done|].
  split; [|apply W]. eapply touches_good; [by apply step_touches|done].
Qed.

Lemma safe_segment fuel packet remote : safe (on_segment random fuel packet remote).
Proof.
  intros m D. pose proof (on_segment_only fuel packet remote m (good_ok _ D)) as T.
  destruct (on_segment _ _ _ _ m) as [|[rv m']]; [done|]. by eapply touches_good.
Qed.

Lemma safe_each fuel remote packets e : safe (each fuel remote packets e).
Proof. revert e. induction packets as [|p ps IH]; intros e; cbn; [apply safe_return|]. apply safe_then; [apply safe_segment|intros; apply IH]. Qed.

Lemma on_packet_each fuel packet remote gro m : 0 < gro < len packet ->
  on_packet random fuel packet remote gro m = each fuel remote (chunks (length packet) gro packet) 0 m.
Proof.
  intros G. unfold on_packet. rewrite (proj2 (Z.ltb_lt _ _)), (proj2 (Z.ltb_lt _ _)) by lia. cbn [andb].
  by rewrite segment_loop_each by lia.
Qed.

Lemma safe_on_packet fuel packet remote gro : safe (on_packet random fuel packet remote gro).
Proof.
  destruct ((0 <? gro) && (gro <? len packet)) eqn:G.
  - intros m D. rewrite on_packet_each by lia. by apply safe_each.
  - unfold on_packet. rewrite G. apply safe_segment.
Qed.

Lemma ok_delete_timer id m : ok m -> ok (set_timers (delete id (timers m)) m).
Proof.
  intros [O1 O2 O3 O4 O5]. split; try done; cbn.
  - intros i q d [_ T]%lookup_delete_Some. by eapply O4.
  - intros i q T. destruct (O5 i q T) as [T1 T2]. split; [done|]. intros q' d [_ T']%lookup_delete_Some. eauto.
Qed.

Lemma safe_fire fuel id : safe (fire random fuel id).
Proof.
  intros m D. unfold fire, bind at 1, get. destruct (timers m !! id) as [[p d]|] eqn:T; [|done].
  assert (live p m) as L by (destruct (ok_timers _ (good_ok _ D) _ _ _ T) as (c & C & _); apply live_find; by rewrite C).
  unfold bind at 1. cbn. assert (within p (do _ <- handle_expiry random fuel p; ret ())) as W by within_solve.
  pose proof (within_good p _ (set_timers (delete id (timers m)) m) W L) as G.
  destruct (bind _ _ _) as [|[a m']]; [apply G|apply G]; (split; [by apply ok_delete_timer, D|apply D]).
Qed.

Lemma safe_run_posted fuel : safe (run_posted random fuel).
Proof.
  intros m D. unfold run_posted, bind at 1, get. destruct (posted m) as [|[p s] rest] eqn:P; [done|].
  unfold bind at 1. cbn. pose proof (good_posted _ D) as G. rewrite P in G.
  match goal with |- match resume _ _ _ _ ?m1 with _ => _ end => set (m1' := m1) end.
  assert (good m1') as D1.
  { split; [|intros q s' Q; apply (G q s'); by right]. eapply ok_frame; [..|exact (good_ok _ D)]; try done. apply (ok_cids _ (good_ok _ D)). }
  assert (within p (resume random fuel p s)) as W by (unfold resume; within_solve).
  pose proof (within_good p _ m1' W (G p s ltac:(by left)) D1) as K. destruct (resume _ _ _ _ _) as [|[a m']]; [done|]. apply K.
Qed.

Lemma safe_write_each fuel ps m : good m -> (forall p, p ∈ ps -> live p m) ->
  match write_each random fuel ps m with inr (_, m') => good m' | inl Dangling => False | inl OutOfFuel => True end.
Proof.
  revert m. induction ps as [|p ps IH]; intros m D L; [done|]. cbn [write_each].
  assert (within p (do c <- deref p; if negb (is_closed c) && negb (is_draining c) then on_write random fuel p ;; ret () else ret ())) as W by within_solve.
  pose proof (within_good p _ m W (L p ltac:(by left)) D) as K. unfold bind in *.
  destruct (deref p m) as [|[c m0]]; [done|].
  match type of K with match ?x with _ => _ end => destruct x as [|[u m1]] end; [done|]. destruct K as [D1 A1].
  apply IH; [done|]. intros q Q. unfold live. rewrite A1. apply L. by right.
Qed.

(** The events that the rest of the program gives rise to: sessions are woken
    while their connection exists, and nothing is posted when cleaning up. *)
Definition legal m (e : Event) : Prop :=
  match e with
  | Wake p _ => live p m
  | Cleanup => posted m = []
  | _ => True
  end.

Lemma handle_safe fuel e m : good m -> legal m e ->
  match handle random fuel e m with inr (_, m') => good m' | inl Dangling => False | inl OutOfFuel => True end.
Proof.
  intros D L. destruct e as [packet remote gro|id| | |p s| |time]; cbn [handle].
  - revert m D L. refine (fun m D _ => safe_then _ _ (safe_on_packet fuel packet remote gro) (fun _ => safe_return ()) m D).
  - by apply safe_fire.
  - destruct (cleanup_restricts m (good_ok _ D)) as (m' & -> & R). split; [apply R|].
    intros p s. rewrite (restricted_posted _ _ _ R). cbn in L. rewrite L. by intros ?%elem_of_nil.
  - unfold write_all, bind, get. by apply safe_write_each.
  - cbn. destruct D as [O P]. split; [eapply ok_frame; [..|exact O]; try done; apply (ok_cids _ O)|].
    cbn. intros q s'. rewrite elem_of_app, list_elem_of_singleton. intros [Q|[= -> ->]]; [by eapply P|done].
  - by apply safe_run_posted.
  - cbn. destruct D as [O P]. split; [eapply ok_frame; [..|exact O]; try done; apply (ok_cids _ O)|done].
Qed.

Inductive reachable (fuel : nat) : St -> Prop :=
| reachable_init (time : Z) : reachable fuel (init time)
| reachable_step m (e : Event) m' : reachable fuel m -> legal m e -> handle random fuel e m = inr ((), m') -> reachable fuel m'.

Lemma reachable_good fuel m : reachable fuel m -> good m.
Proof.
  induction 1 as [time|m e m' R IH L X].
  - split; [split|]; cbn; [apply NoDup_nil_2|by intros p ?%elem_of_nil|done|done|by intros id p (c & [=] & _)|by intros p s ?%elem_of_nil].
  - pose proof (handle_safe fuel e m IH L) as S. by rewrite X in S.
Qed.

(** A run of legal events. *)
Fixpoint legal_run (fuel : nat) (es : list Event) m : Prop :=
  match es with
  | [] => True
  | e :: es => legal m e /\ match handle random fuel e m with inr (_, m') => legal_run fuel es m' | inl _ => True end
  end.

Lemma reachable_run fuel es m m' :
  reachable fuel m -> legal_run fuel es m -> run_events random fuel es m = inr ((), m') -> reachable fuel m'.
Proof.
  revert m. induction es as [|e es IH]; intros m R L X; [by injection X as <-|]. destruct L as [L1 L2].
  cbn in X. unfold bind in X. destruct (handle random fuel e m) as [|[[] m1]] eqn:H1; [done|].
  eapply IH; [|exact L2|exact X]. by eapply reachable_step.
Qed.

(** [C31] Whatever peers, timers and applications do, the manager never uses
    a connection that is gone: connection ids and pending timers lead to
    connections that exist, a connection has at most one pending timer, and no
    event dereferences another address.  A clean-up removes exactly the closed
    and draining connections, with their ids and timers.  Posted tasks must
    have run before a clean-up. *)
Theorem quic_connections_safe fuel m e (Hm : reachable fuel m) (He : legal m e) :
  (forall cid p, cid_map_ m !! cid = Some p -> is_Some (find_connection p (connections_ m))) /\
  (forall id p d, timers m !! id = Some (p, d) ->
    exists c, find_connection p (connections_ m) = Some c /\ expiry_timer_ c = Some id) /\
  handle random fuel e m <> inl Dangling /\
  exists m', cleanup m = inr ((), m') /\ restricted (fun p => ~ gone m p) m m'.
Proof.
  apply reachable_good in Hm as D. split_and!.
  - intros cid p X. apply live_find. by eapply ok_cids; [apply D|].
  - intros id p d X. by eapply (ok_timers _ (good_ok _ D)).
  - pose proof (handle_safe fuel e m D He) as S. intros X. by rewrite X in S.
  - apply cleanup_restricts, D.
Qed.

(** A packet that the kernel coalesced is taken apart exactly: its
    segments, of the given size but for the last, are handled one after the
    other as if they had come alone.  And a packet changes only the connection
    that its id belongs to, or the one it opens: all others keep their state
    and their timers. *)
Theorem quic_packets_confined fuel m packet remote gro (Hm : reachable fuel m) :
  (0 < gro < len packet ->
    let segments := chunks (length packet) gro packet in
    concat segments = packet /\ Forall (fun s => 0 < len s <= gro) segments /\
    Forall (fun s => len s = gro) (removelast segments) /\
    on_packet random fuel packet remote gro m = each fuel remote segments 0 m) /\
  match on_segment random fuel packet remote m with
  | inr (_, m') => touches (target packet m) m m'
  | inl e => e = OutOfFuel
  end.
Proof.
  apply reachable_good in Hm as D. split.
  - intros G. destruct (chunks_data (length packet) gro packet) as (C1 & C2 & C3); [lia..|]. split_and!; [done..|]. by apply on_packet_each.
  - pose proof (on_segment_only fuel packet remote m (good_ok _ D)) as T. by destruct (on_segment _ _ _ _ m) as [[]|[rv m']].
Qed.

End Safety.
End QuicProps.
