(* ===== verification/QuicStreams.v ===== *)
(** * The bytes of QUIC streams

    What an HTTP/3 session has to send goes out once: the bytes that ngtcp2
    took of a stream are those that the session was told are written, in
    order.  Proved for any session that keeps the laws of [SessionLaws], which
    [Http3Session] does over any nghttp3 that keeps those of [Nghttp3Laws]. *)

From S2P Require Import Prelude CxxString HttpMessage Sse Http1 Http3 Quic QuicProps.
Import Quic QuicProps.
Open Scope quic_scope.

Module QuicStreams.

(** Every answer that a call can end with, and every question on the way. *)
Fixpoint every {E N R} (ask : Callback -> Prop) (done : R -> Prop) (c : Call E N R) : Prop :=
  match c with
  | Done r _ => done r
  | Ask q k => ask q /\ forall a, every ask done (k a)
  end.

(** ngtcp2 takes at most the data it is given, and completes no handshake
    while it writes. *)
Class Ngtcp2Laws (E N : Type) `{!Ngtcp2 E N} : Prop := {
  writev_law : forall fin stream_id data time n,
    every (fun q => q <> HandshakeCompleted)
      (fun w => match w with Packet _ k | WriteMore k => k <= len data | _ => True end)
      (conn_writev_stream fin stream_id data time n)
}.

(** The history of a session: what it had to send on a stream, and how much of
    that it was told is written. *)
Class SessionLaws (E N H : Type) `{!Session E N H} := {
  produced : Z -> H -> bytes;
  written : Z -> H -> Z;
  grows (h h' : H) : Prop := forall s, produced s h `prefix_of` produced s h' /\ written s h' = written s h;
  law_create : forall n h, create_session n = Some h -> forall s, written s h = 0;
  law_stream_data : forall s o d f h, grows h (snd (on_stream_data s o d f h));
  law_stream_close : forall s c h, grows h (snd (on_stream_close s c h));
  law_acked : forall s o l h, grows h (snd (on_acked_stream_data s o l h));
  law_extend : forall s h, grows h (snd (on_extend_max_stream_data s h));
  law_resume : forall s h, grows h (resume_sse_stream s h);
  law_get : forall h, grows h (snd (get_stream_data h)) /\
    forall s fin data, fst (get_stream_data h) = Some (s, fin, data) -> 0 <= s ->
      data `prefix_of` drop (Z.to_nat (written s h)) (produced s (snd (get_stream_data h)));
  law_offset : forall s k h s', 0 <= s -> 0 <= k ->
    produced s' (add_write_offset s k h) = produced s' h /\
    written s' (add_write_offset s k h) = if s' =? s then written s' h + k else written s' h
}.

Section Accounting.
Context {E N H : Type} `{!Ngtcp2 E N} `{!Session E N H} `{!Ngtcp2Laws E N} `{!SessionLaws E N H}.
Context (random : nat -> Z -> bytes).
Abbreviation St := (t N H).
Abbreviation M := (M (N:=N) (H:=H)).
Implicit Types m : St.

Definition session (p : Z) m : option H := find_connection p (connections_ m) ≫= http3_session_.

(** The account of the connection at [p]. *)
Definition balanced (p : Z) m : Prop := forall h s, session p m = Some h -> 0 <= s ->
  0 <= written s h <= len (produced s h) /\
  default [] (carried m !! (p, s)) = take (Z.to_nat (written s h)) (produced s h).

Lemma history_trans h1 h2 h3 : grows h1 h2 -> grows h2 h3 -> grows h1 h3.
Proof.
  intros G1 G2 s. destruct (G1 s) as [P1 W1], (G2 s) as [P2 W2]. split; [by etrans|congruence].
Qed.

Lemma history_refl h : grows h h.
Proof. by intros s. Qed.

(** A longer history gives the same account. *)
Lemma balanced_grows p m m' h h' :
  session p m = Some h -> session p m' = Some h' -> grows h h' ->
  (forall s, carried m' !! (p, s) = carried m !! (p, s)) -> balanced p m -> balanced p m'.
Proof.
  intros S S' G C B h2 s X P. rewrite S' in X. simplify_eq. destruct (B h s S P) as [B1 B2]. destruct (G s) as [[t T] W].
  rewrite C, B2, T, W. split; [unfold len in *; rewrite length_app; lia|].
  rewrite take_app_le; [done|unfold len in *; lia].
Qed.

Lemma balanced_same p m m' :
  session p m' = session p m -> (forall s, carried m' !! (p, s) = carried m !! (p, s)) -> balanced p m -> balanced p m'.
Proof. intros S C B h s. rewrite S, C. apply B. Qed.

(** [f] keeps the account of [p] and does not touch that of another. *)
Definition keeps (p : Z) {A} (f : M A) : Prop := forall m, ok m -> live p m -> balanced p m ->
  match f m with
  | inr (_, m') => balanced p m' /\ forall q s, q <> p -> carried m' !! (q, s) = carried m !! (q, s)
  | inl _ => True
  end.

Lemma keeps_bind p {A B} (f : M A) (g : A -> M B) :
  within p f -> keeps p f -> (forall a, keeps p (g a)) -> keeps p (bind f g).
Proof.
  intros W F G m O L Bm. specialize (W m O L). specialize (F m O L Bm). unfold bind.
  destruct (f m) as [|[a m1]]; [done|]. destruct F as [B1 C1].
  assert (live p m1) as L1 by (unfold live; by rewrite (step_addresses _ _ _ W)).
  specialize (G a m1 (step_ok _ _ _ W) L1 B1). destruct (g a m1) as [|[b m2]]; [done|]. destruct G as [B2 C2].
  split; [done|]. intros q s Q. by rewrite C2, C1.
Qed.

Lemma session_update p q f m m' : update p f m = inr ((), m') ->
  session q m' = find_connection q (connections_ m) ≫= (fun c => http3_session_ (if q =? p then f c else c)).
Proof. intros [= <-]. unfold session. cbn. rewrite find_update. by destruct (find_connection q _). Qed.

(** Nothing that matters for the account changes. *)
Lemma keeps_quiet p {A} (f : M A) :
  (forall m, match f m with inr (_, m') => session p m' = session p m /\ carried m' = carried m | inl _ => True end) -> keeps p f.
Proof.
  intros F m O L B. specialize (F m). destruct (f m) as [|[a m']]; [done|]. destruct F as [S C].
  split; [|by intros; rewrite C]. eapply balanced_same; [done| |done]. by rewrite C.
Qed.

Lemma keeps_ret p {A} (a : A) : keeps p (ret a).
Proof. by apply keeps_quiet. Qed.
Lemma keeps_fail p A e : keeps p (@fail N H A e).
Proof. by apply keeps_quiet. Qed.
Lemma keeps_get p {A} (f : St -> A) : keeps p (get f).
Proof. by apply keeps_quiet. Qed.
Lemma keeps_deref p q : keeps p (deref q).
Proof. apply keeps_quiet. intros m. unfold deref. by destruct (find_connection _ _). Qed.
Lemma keeps_random p n : keeps p (generate_random random n).
Proof. by apply keeps_quiet. Qed.
Lemma keeps_add_cid p c q : keeps p (add_cid c q).
Proof. by apply keeps_quiet. Qed.
Lemma keeps_remove_cid p c : keeps p (remove_cid c).
Proof. by apply keeps_quiet. Qed.
Lemma keeps_send p a b : keeps p (send_cb a b).
Proof. by apply keeps_quiet. Qed.

Lemma keeps_update p q f : (forall c, http3_session_ (f c) = http3_session_ c) -> keeps p (update q f).
Proof.
  intros F. apply keeps_quiet. intros m. split; [|done]. rewrite (session_update q p f m _ eq_refl). unfold session.
  destruct (find_connection p _); cbn; [|done]. destruct (p =? q); [apply F|done].
Qed.

Lemma keeps_update_timer p : keeps p (update_timer p).
Proof.
  apply keeps_quiet. intros m. unfold update_timer, bind, deref. destruct (find_connection p (connections_ m)) as [c|] eqn:C; [|done].
  destruct (expiry_timer_ c); cbn; (destruct (conn_get_expiry _); cbn; [|done]); unfold session; cbn; rewrite find_update, C; cbn; by rewrite Z.eqb_refl.
Qed.

(** ** Callbacks *)

(** What a call into ngtcp2 without a handshake does to the session. *)
Definition session_grows (p : Z) {A} (f : M A) : Prop := forall m h, session p m = Some h ->
  match f m with
  | inr (_, m') => (exists h', session p m' = Some h' /\ grows h h') /\ carried m' = carried m
  | inl _ => True
  end.

Lemma session_find p m h : session p m = Some h -> exists c, find_connection p (connections_ m) = Some c /\ http3_session_ c = Some h.
Proof. unfold session. destruct (find_connection p _) as [c|]; [|done]. eauto. Qed.

Lemma session_grows_bind p {A B} (f : M A) (g : A -> M B) :
  session_grows p f -> (forall a, session_grows p (g a)) -> session_grows p (bind f g).
Proof.
  intros F G m h S. specialize (F m h S). unfold bind. destruct (f m) as [|[a m1]]; [done|]. destruct F as [(h1 & S1 & G1) C1].
  specialize (G a m1 h1 S1). destruct (g a m1) as [|[b m2]]; [done|]. destruct G as [(h2 & S2 & G2) C2].
  split; [|congruence]. exists h2. split; [done|]. by eapply history_trans.
Qed.

Lemma session_grows_quiet p {A} (f : M A) :
  (forall m, match f m with inr (_, m') => session p m' = session p m /\ carried m' = carried m | inl _ => True end) -> session_grows p f.
Proof.
  intros F m h S. specialize (F m). destruct (f m) as [|[a m']]; [done|]. destruct F as [-> C].
  split; [|done]. exists h. split; [done|apply history_refl].
Qed.

Lemma session_grows_with p f : (forall h, grows h (snd (f h))) -> session_grows p (with_session (E:=E) (N:=N) p f).
Proof.
  intros F m h S. destruct (session_find p m h S) as (c & C & Hc). unfold with_session, bind, deref. rewrite C, Hc.
  specialize (F h). destruct (f h) as [[rv asked] h'] eqn:X. cbn. split; [|done]. exists h'. split; [|done].
  unfold session. cbn. rewrite find_update, C. cbn. by rewrite Z.eqb_refl.
Qed.

Lemma session_grows_callback p q : q <> HandshakeCompleted -> session_grows p (callback random p q).
Proof.
  intros Q. destruct q as [n|cid| |fin s o d|s c|s o l|s]; cbn; try done.
  - by apply session_grows_quiet.
  - by apply session_grows_quiet.
  - unfold handle_recv_stream_data. apply session_grows_bind.
    { apply session_grows_quiet. intros m. unfold deref. by destruct (find_connection _ _). }
    intros c. destruct (in_error_state_ c); [by apply session_grows_quiet|].
    apply session_grows_bind; [apply session_grows_with, law_stream_data|]. intros [rv asked| |]; try by apply session_grows_quiet.
    destruct (rv =? 0); [by apply session_grows_quiet|]. apply session_grows_bind; [|intros; by apply session_grows_quiet].
    apply session_grows_quiet. intros m. split; [|done]. rewrite (session_update p p _ m _ eq_refl). unfold session.
    destruct (find_connection p _); cbn; [|done]. by rewrite Z.eqb_refl.
  - apply session_grows_with. intros h. apply law_stream_close.
  - apply session_grows_with. intros h. apply law_acked.
  - apply session_grows_with. intros h. apply law_extend.
Qed.

Lemma keeps_with p f : (forall h, grows h (snd (f h))) -> keeps p (with_session (E:=E) (N:=N) p f).
Proof.
  intros F m O L B. destruct (session p m) as [h|] eqn:S.
  - pose proof (session_grows_with p f F m h S) as G. destruct (with_session p f m) as [|[a m']]; [done|].
    destruct G as [(h' & S' & G) C]. split; [|by intros; rewrite C]. eapply balanced_grows; [exact S|exact S'|done| |done]. by rewrite C.
  - unfold session in S. unfold with_session, bind, deref. destruct (find_connection p (connections_ m)) as [c|]; [|done].
    cbn in S. by rewrite S.
Qed.

Lemma keeps_handshake p : keeps p (handle_handshake_completed (E:=E) p).
Proof.
  intros m O L B. unfold handle_handshake_completed, bind, deref. destruct (find_connection p (connections_ m)) as [c|] eqn:C; [|done].
  destruct (create_session (conn_ c)) as [h|] eqn:X.
  - cbn. split.
    + intros h' s S P. unfold session in S. cbn in S. rewrite find_update, C in S. cbn in S. rewrite Z.eqb_refl in S. cbn in S.
      injection S as <-. rewrite (law_create _ _ X s). split; [unfold len; lia|]. cbn.
      rewrite (proj2 (map_lookup_filter_None _ _ _)); [done|]. right. intros d _. by intros K.
    + intros q s Q. apply option_eq. intros d. rewrite map_lookup_filter_Some. naive_solver.
  - cbn. split; [|done]. apply (balanced_same p m); [|done|exact B]. unfold session. cbn. rewrite find_update, C. cbn. by rewrite Z.eqb_refl.
Qed.

Lemma keeps_callback p q : keeps p (callback random p q).
Proof.
  destruct q as [n|cid| |fin s o d|s c|s o l|s]; cbn.
  - apply keeps_bind; [apply within_random|apply keeps_random|]. intros cid.
    apply keeps_bind; [apply within_random|apply keeps_random|]. intros token.
    apply keeps_bind; [apply within_add_cid|apply keeps_add_cid|]. intros. apply keeps_ret.
  - apply keeps_bind; [apply within_remove_cid|apply keeps_remove_cid|]. intros. apply keeps_ret.
  - apply keeps_handshake.
  - unfold handle_recv_stream_data. apply keeps_bind; [apply within_deref|apply keeps_deref|]. intros c.
    destruct (in_error_state_ c); [apply keeps_ret|].
    apply keeps_bind; [apply within_session|apply keeps_with, law_stream_data|]. intros [rv asked| |]; try apply keeps_ret.
    destruct (rv =? 0); [apply keeps_ret|].
    apply keeps_bind; [by apply within_update|by apply keeps_update|]. intros. apply keeps_ret.
  - apply keeps_with. intros h. apply law_stream_close.
  - apply keeps_with. intros h. apply law_acked.
  - apply keeps_with. intros h. apply law_extend.
Qed.

Lemma keeps_run {R} p (c : Call E N R) : keeps p (run random p c).
Proof.
  induction c as [r n|q k IH]; cbn.
  - apply keeps_bind; [by apply within_update|by apply keeps_update|]. intros. apply keeps_ret.
  - apply keeps_bind; [apply within_callback|apply keeps_callback|done].
Qed.

Lemma keeps_call {R} p (f : Z -> N -> Call E N R) : keeps p (call random p f).
Proof.
  apply keeps_bind; [apply within_deref|apply keeps_deref|]. intros c.
  apply keeps_bind; [apply within_get|apply keeps_get|]. intros time. apply keeps_run.
Qed.

(** ** Writing *)

(** A call that asks only what [ask] allows ends as it promises. *)
Lemma run_every {R} ask (done : R -> Prop) p (c : Call E N R) m :
  every ask done c -> match run random p c m with inr (r, _) => done r | inl _ => True end.
Proof.
  revert m. induction c as [r n|q k IH]; intros m Ev; [done|]. destruct Ev as [_ Ev]. cbn. unfold bind.
  destruct (callback random p q m) as [|[a m1]]; [done|]. by apply IH.
Qed.

Lemma run_session_grows {R} (done : R -> Prop) p (c : Call E N R) :
  every (fun q => q <> HandshakeCompleted) done c -> session_grows p (run random p c).
Proof.
  induction c as [r n|q k IH]; intros Ev; cbn.
  - apply session_grows_bind; [|intros; by apply session_grows_quiet]. apply session_grows_quiet. intros m. split; [|done].
    rewrite (session_update p p _ m _ eq_refl). unfold session. destruct (find_connection p _); cbn; [|done]. by rewrite Z.eqb_refl.
  - destruct Ev as [Q Ev]. apply session_grows_bind; [by apply session_grows_callback|]. intros a. by apply IH.
Qed.

(** [w] says that ngtcp2 took [k] bytes. *)
Definition takes_bytes (k : Z) (w : Written) : Prop :=
  match w with Packet _ k' | WriteMore k' => k' = k | _ => False end.

(** The session is told what ngtcp2 took. *)
Definition settle (p s k : Z) (data : bytes) (w : Written) : M () := note_taken p s data w ;; add_offset (E:=E) (N:=N) p s k.

Lemma keeps_offset p s k data w m h : takes_bytes k w -> ok m -> live p m -> balanced p m -> session p m = Some h -> k <= len data ->
  (0 <= s -> data `prefix_of` drop (Z.to_nat (written s h)) (produced s h)) ->
  match settle p s k data w m with
  | inr (_, m') => balanced p m' /\ forall q s, q <> p -> carried m' !! (q, s) = carried m !! (q, s)
  | inl _ => True
  end.
Proof.
  intros Kw O L B S K D. unfold settle. assert (note_taken p s data w = note_taken p s data (WriteMore k) :> M ()) as -> by (destruct w; simplify_eq/=; done).
  unfold note_taken, add_offset. clear Kw w.
  destruct (Z.leb_spec 0 s) as [Ps|]; [|done]. destruct (Z.leb_spec 0 k) as [Pk|]; [|done].
  cbn. destruct (session_find p m h S) as (c & C & Hc). split.
  - intros h' s' X P'. unfold session in X. cbn in X. rewrite find_update, C in X. cbn in X. rewrite Z.eqb_refl in X. cbn in X.
    rewrite Hc in X. cbn in X. injection X as <-. destruct (law_offset s k h s' Ps Pk) as [-> ->]. cbn.
    destruct (B h s' S P') as [B1 B2]. destruct (Z.eqb_spec s' s) as [->|Ns].
    + rewrite lookup_insert_eq. cbn. rewrite B2. destruct (D Ps) as [r R].
      assert (len (produced s h) = written s h + len data + len r) as Ln.
      { rewrite <- (take_drop (Z.to_nat (written s h)) (produced s h)), R. unfold len in *. rewrite !length_app, length_take. lia. }
      pose proof (Zle_0_nat (length r)). split; [unfold len in *; lia|].
      rewrite <- (take_drop (Z.to_nat (written s h)) (produced s h)) at 2. rewrite R.
      rewrite Z2Nat.inj_add by lia. rewrite take_app_add' by (rewrite length_take; unfold len in *; lia).
      f_equal. by rewrite take_app_le by (unfold len in *; lia).
    + rewrite lookup_insert_ne by congruence. done.
  - intros q s' Q. by rewrite lookup_insert_ne by congruence.
Qed.

Lemma bind_assoc {X Y Z} (f : M X) (g : X -> M Y) (k : Y -> M Z) m : bind (bind f g) k m = bind f (fun x => bind (g x) k) m.
Proof. unfold bind. by destruct (f m) as [|[x m1]]. Qed.

Definition result_keeps (p : Z) m {A} (r : result Failure (A * St)) : Prop :=
  match r with
  | inr (_, m') => balanced p m' /\ forall q s, q <> p -> carried m' !! (q, s) = carried m !! (q, s)
  | inl _ => True
  end.

Lemma result_keeps_then p m m1 {A} (f : M A) :
  (forall q s, q <> p -> carried m1 !! (q, s) = carried m !! (q, s)) -> keeps p f -> ok m1 -> live p m1 -> balanced p m1 ->
  result_keeps p m (f m1).
Proof.
  intros C K O L B. specialize (K m1 O L B). unfold result_keeps. destruct (f m1) as [|[a m2]]; [done|].
  destruct K as [K1 K2]. split; [done|]. intros q s Q. by rewrite K2, C.
Qed.

Lemma offset_then p s k data w m m1 h {A} (f : M A) : takes_bytes k w ->
  (forall q s, q <> p -> carried m1 !! (q, s) = carried m !! (q, s)) -> keeps p f -> ok m1 -> live p m1 -> balanced p m1 ->
  session p m1 = Some h -> k <= len data ->
  (0 <= s -> data `prefix_of` drop (Z.to_nat (written s h)) (produced s h)) ->
  result_keeps p m (bind (note_taken p s data w) (fun _ => bind (add_offset (E:=E) (N:=N) p s k) (fun _ => f)) m1).
Proof.
  intros Kw C K O L B S Kd D. pose proof (keeps_offset p s k data w m1 h Kw O L B S Kd D) as F.
  assert (within p (settle p s k data w)) as W0 by (apply within_bind; [apply within_taken|intros; apply within_offset]).
  pose proof (W0 m1 O L) as W. rewrite <- (bind_assoc (note_taken p s data w) (fun _ => add_offset p s k) (fun _ => f)).
  change (bind (note_taken p s data w) _) with (settle p s k data w). unfold bind at 1. destruct (settle p s k data w m1) as [|[u m2]]; [done|].
  destruct F as [B2 C2]. apply result_keeps_then; [|done|apply W| |done].
  - intros q s' Q. by rewrite C2, C.
  - unfold live. by rewrite (step_addresses _ _ _ W).
Qed.

(** The data that a session hands out can be taken. *)
Lemma stream_loop_step fuel p m c h :
  keeps p (stream_loop random fuel p) -> ok m -> live p m -> balanced p m ->
  find_connection p (connections_ m) = Some c -> http3_session_ c = Some h ->
  result_keeps p m (stream_loop random (S fuel) p m).
Proof.
  intros IH O L B C Hc. cbn [stream_loop]. unfold bind at 1, deref. rewrite C, Hc.
  destruct (law_get h) as [G D]. destruct (get_stream_data h) as [d h1]. cbn [fst snd] in *.
  unfold bind at 1. destruct (update p (set_session (Some h1)) m) as [|[[] m1]] eqn:U1; [done|].
  assert (step p m m1) as T1 by (pose proof (within_update p (set_session (Some h1)) ltac:(done) m O L) as W; by rewrite U1 in W).
  assert (session p m1 = Some h1) as S1 by (rewrite (session_update _ _ _ _ _ U1), C; cbn; by rewrite Z.eqb_refl).
  assert (carried m1 = carried m) as K1 by (by injection U1 as <-).
  assert (balanced p m1) as B1.
  { apply (balanced_grows p m m1 h h1); [unfold session; by rewrite C|done|done|by rewrite K1|done]. }
  assert (live p m1) as L1 by (unfold live; by rewrite (step_addresses _ _ _ T1)).
  destruct d as [[[s fin] data]|]; [|by split; [|intros; rewrite K1]]. specialize (D s fin data eq_refl).
  unfold bind at 1. pose proof (within_call random p (conn_writev_stream fin s data) m1 (step_ok _ _ _ T1) L1) as W2.
  pose proof (keeps_call p (conn_writev_stream fin s data) m1 (step_ok _ _ _ T1) L1 B1) as F2.
  destruct (call random p (conn_writev_stream fin s data) m1) as [|[w m2]] eqn:X2; [done|]. destruct F2 as [B2 C2].
  destruct (session_find _ _ _ S1) as (c1 & C1 & _). unfold call, bind, deref, get in X2. rewrite C1 in X2.
  pose proof (writev_law fin s data (now m1) (conn_ c1)) as Ev.
  pose proof (run_every _ _ p _ m1 Ev) as Q2. pose proof (run_session_grows _ p _ Ev m1 h1 S1) as G2. rewrite X2 in Q2, G2.
  destruct G2 as [(h2 & S2 & G2) _].
  assert (0 <= s -> data `prefix_of` drop (Z.to_nat (written s h2)) (produced s h2)) as D2.
  { intros Ps. destruct (G2 s) as [[t Pr] ->]. etrans; [by apply D|]. rewrite Pr. destruct (G s) as [_ ->].
    destruct (Z.le_gt_cases (written s h) (len (produced s h1))) as [Le|Gt].
    - rewrite drop_app_le by (unfold len in Le; lia). by apply prefix_app_r.
    - rewrite drop_ge by (unfold len in Gt; lia). apply prefix_nil. }
  assert (forall q s, q <> p -> carried m2 !! (q, s) = carried m !! (q, s)) as K2 by (intros; by rewrite C2, K1).
  assert (live p m2) as L2 by (unfold live; by rewrite (step_addresses _ _ _ W2)).
  destruct w as [out k| |k| |e]; [..|done].
  - eapply (offset_then p s k data (Packet out k)); [done|done| |apply W2|done|done|exact S2|done|done].
    apply keeps_bind; [apply within_send|apply keeps_send|done].
  - by split.
  - eapply (offset_then p s k data (WriteMore k)); [done|done|exact IH|apply W2|done|done|exact S2|done|done].
  - apply result_keeps_then; [done|done|apply W2|done|done].
Qed.

Lemma keeps_stream_loop fuel p : keeps p (stream_loop random fuel p).
Proof.
  induction fuel as [|fuel IH]; [apply keeps_fail|]. intros m O L B.
  destruct (find_connection p (connections_ m)) as [c|] eqn:C; [|cbn [stream_loop]; unfold bind at 1, deref; by rewrite C].
  destruct (http3_session_ c) as [h|] eqn:Hc; [by eapply stream_loop_step|].
  cbn [stream_loop]. unfold bind at 1, deref. by rewrite C, Hc.
Qed.

Lemma keeps_packet_loop fuel p : keeps p (packet_loop random fuel p).
Proof.
  induction fuel as [|fuel IH]; [apply keeps_fail|]. cbn [packet_loop].
  apply keeps_bind; [apply within_deref|apply keeps_deref|]. intros c.
  apply keeps_bind; [apply within_call|apply keeps_call|]. intros [out k| |k| |e]; try apply keeps_ret.
  apply keeps_bind; [apply within_send|apply keeps_send|done].
Qed.

Lemma keeps_on_write fuel p : keeps p (on_write random fuel p).
Proof.
  unfold on_write. apply keeps_bind; [apply within_deref|apply keeps_deref|]. intros c.
  destruct (_ || _); [apply keeps_ret|]. apply keeps_bind.
  - destruct (http3_session_ c); [apply within_stream_loop|apply within_ret].
  - destruct (http3_session_ c); [apply keeps_stream_loop|apply keeps_ret].
  - intros [rv|]; [apply keeps_ret|]. apply keeps_bind; [apply within_packet_loop|apply keeps_packet_loop|].
    intros [rv|]; [apply keeps_ret|]. apply keeps_bind; [apply within_update_timer|apply keeps_update_timer|]. intros. apply keeps_ret.
Qed.

Lemma keeps_on_read fuel p packet : keeps p (on_read random fuel p packet).
Proof.
  unfold on_read. apply keeps_bind; [apply within_call|apply keeps_call|]. intros rv. destruct (rv =? 0).
  - apply keeps_bind; [apply within_update_timer|apply keeps_update_timer|]. intros. apply keeps_ret.
  - apply keeps_bind; [..|intros; apply keeps_ret]; destruct (err_is_fatal rv);
      (apply within_ret || apply within_on_write || apply keeps_ret || apply keeps_on_write).
Qed.

Lemma keeps_handle_expiry fuel p : keeps p (handle_expiry random fuel p).
Proof.
  unfold handle_expiry. apply keeps_bind; [apply within_call|apply keeps_call|]. intros rv.
  destruct (rv =? 0); [apply keeps_on_write|apply keeps_ret].
Qed.

(** ** Events *)

Definition accounts m : Prop := forall p, balanced p m.

Definition result_accounts {A} (r : result Failure (A * St)) : Prop :=
  match r with inr (_, m') => accounts m' | inl _ => True end.

Lemma accounts_within p {A} (f : M A) m : within p f -> keeps p f -> ok m -> live p m -> accounts m -> result_accounts (f m).
Proof.
  intros W K O L B. specialize (W m O L). specialize (K m O L (B p)). unfold result_accounts. destruct (f m) as [|[a m']]; [done|].
  destruct K as [K C]. intros q. destruct (decide (q = p)) as [->|Q]; [done|].
  apply (balanced_same q m); [unfold session; by rewrite (step_others _ _ _ W)|intros s; by apply C|done].
Qed.

(** Nothing that matters for any account changes. *)
Lemma accounts_same m m' : (forall q, session q m' = session q m \/ session q m' = None) -> carried m' = carried m ->
  accounts m -> accounts m'.
Proof.
  intros S C B q h s X. destruct (S q) as [Y|Y]; rewrite Y in X; [|done]. rewrite C. by apply B.
Qed.

Lemma accounts_segment fuel packet remote m : ok m -> accounts m -> result_accounts (on_segment random fuel packet remote m).
Proof.
  intros O B. unfold on_segment. destruct (pkt_decode_version_cid packet) as [dcid|]; [|done].
  unfold bind at 1, find, get. destruct (cid_map_ m !! dcid) as [p|] eqn:D.
  - apply (accounts_within p); [| |done|by eapply ok_cids|done].
    + apply within_bind; [apply within_deref|]. intros c. destruct (is_draining c); [apply within_ret|].
      apply within_bind; [apply within_on_read|]. intros. apply within_bind; [apply within_on_write|]. intros. apply within_ret.
    + apply keeps_bind; [apply within_deref|apply keeps_deref|]. intros c. destruct (is_draining c); [apply keeps_ret|].
      apply keeps_bind; [apply within_on_read|apply keeps_on_read|]. intros.
      apply keeps_bind; [apply within_on_write|apply keeps_on_write|]. intros. apply keeps_ret.
  - destruct (accept_touches random packet remote m O) as (o & m1 & E1 & T1 & P1). unfold bind at 1. rewrite E1.
    assert (accounts m1) as B1.
    { revert E1. unfold accept_connection. destruct (accept packet); [|by intros [= <- <-]]. unfold bind, create, generate_random. cbn.
      destruct (conn_server_new _ _ _) as [n|]; intros [= <- <-]; [|done]. apply (accounts_same m); [|done|done]. intros q. unfold session. cbn.
      rewrite find_app. destruct (find_connection q (connections_ m)); [by left|]. right. cbn. by destruct (_ =? q). }
    destruct o as [p|]; [|done]. destruct (P1 p eq_refl) as [-> L].
    apply (accounts_within (next_address m)); [| |apply T1|done|done].
    + apply within_bind; [apply within_on_read|]. intros rv. destruct (rv =? 0); [|apply within_ret].
      apply within_bind; [apply within_on_write|]. intros. apply within_ret.
    + apply keeps_bind; [apply within_on_read|apply keeps_on_read|]. intros rv. destruct (rv =? 0); [|apply keeps_ret].
      apply keeps_bind; [apply within_on_write|apply keeps_on_write|]. intros. apply keeps_ret.
Qed.

Lemma accounts_each fuel remote packets e m : good m -> accounts m -> result_accounts (each random fuel remote packets e m).
Proof.
  revert e m. induction packets as [|p ps IH]; intros e m D B; cbn; [done|]. unfold bind.
  pose proof (accounts_segment fuel p remote m (good_ok _ D) B) as B1. pose proof (safe_segment random fuel p remote m D) as D1.
  destruct (on_segment _ _ _ _ m) as [|[rv m1]]; [done|]. by apply IH.
Qed.

Lemma accounts_on_packet fuel packet remote gro m : good m -> accounts m -> result_accounts (on_packet random fuel packet remote gro m).
Proof.
  intros D B. destruct ((0 <? gro) && (gro <? len packet)) eqn:G.
  - rewrite on_packet_each by lia. by apply accounts_each.
  - unfold on_packet. rewrite G. by apply accounts_segment; [apply D|].
Qed.

Lemma accounts_write_each fuel ps m : good m -> accounts m -> (forall p, p ∈ ps -> live p m) ->
  result_accounts (write_each random fuel ps m).
Proof.
  revert m. induction ps as [|p ps IH]; intros m D B L; [done|]. cbn [write_each].
  pose (f := (do c <- deref p; if negb (is_closed c) && negb (is_draining c) then on_write random fuel p ;; ret () else ret ()) : M ()).
  assert (within p f) as W.
  { apply within_bind; [apply within_deref|]. intros c. destruct (_ && _); [|apply within_ret].
    apply within_bind; [apply within_on_write|]. intros. apply within_ret. }
  assert (keeps p f) as K.
  { apply keeps_bind; [apply within_deref|apply keeps_deref|]. intros c. destruct (_ && _); [|apply keeps_ret].
    apply keeps_bind; [apply within_on_write|apply keeps_on_write|]. intros. apply keeps_ret. }
  pose proof (within_good p f m W (L p ltac:(by left)) D) as G.
  pose proof (accounts_within p f m W K (good_ok _ D) (L p ltac:(by left)) B) as A. unfold f, bind in *.
  destruct (deref p m) as [|[c m0]]; [done|].
  match type of G with match ?x with _ => _ end => destruct x as [|[u m1]] end; [done|]. destruct G as [D1 A1].
  apply IH; [done|done|]. intros q Q. unfold live. rewrite A1. apply L. by right.
Qed.

Lemma keeps_resume fuel p s : keeps p (resume random fuel p s).
Proof.
  intros m O L B. unfold resume. unfold bind at 1, deref. destruct (find_connection p (connections_ m)) as [c|] eqn:C; [|done].
  destruct (http3_session_ c) as [h|] eqn:Hc; [|done].
  set (f := update p _). assert (within p f) as W by (by apply within_update). specialize (W m O L).
  unfold bind at 1. destruct (f m) as [|[[] m1]] eqn:X; [done|].
  assert (session p m1 = Some (resume_sse_stream s h)) as S1 by (rewrite (session_update _ _ _ _ _ X), C; cbn; by rewrite Z.eqb_refl).
  assert (carried m1 = carried m) as C1 by (by injection X as <-).
  apply (result_keeps_then p m m1 (do _ <- on_write random fuel p; ret ())); [intros; by rewrite C1| |apply W| |].
  - apply keeps_bind; [apply within_on_write|apply keeps_on_write|]. intros. apply keeps_ret.
  - unfold live. by rewrite (step_addresses _ _ _ W).
  - apply (balanced_grows p m m1 h (resume_sse_stream s h)); [unfold session; by rewrite C|done|apply law_resume|by rewrite C1|done].
Qed.

Lemma accounts_run_posted fuel m : good m -> accounts m -> result_accounts (run_posted random fuel m).
Proof.
  intros D B. unfold run_posted, bind at 1, get. destruct (posted m) as [|[p s] rest] eqn:P; [done|].
  unfold bind at 1, modify. match goal with |- result_accounts (resume _ _ _ _ ?m1) => set (m1' := m1) end.
  assert (ok m1') as O1 by (eapply ok_frame; [..|exact (good_ok _ D)]; try done; apply (ok_cids _ (good_ok _ D))).
  apply (accounts_within p); [| |exact O1| |by apply (accounts_same m); [left|..]].
  - unfold resume. apply within_bind; [apply within_deref|]. intros c. destruct (http3_session_ c); [|apply within_ret].
    apply within_bind; [by apply within_update|]. intros. apply within_bind; [apply within_on_write|]. intros. apply within_ret.
  - apply keeps_resume.
  - eapply (good_posted _ D p s). rewrite P. by left.
Qed.

Lemma accounts_handle fuel e m : good m -> legal m e -> accounts m -> result_accounts (handle random fuel e m).
Proof.
  intros D L B. destruct e as [packet remote gro|id| | |p s| |time]; cbn [handle].
  - unfold bind. pose proof (accounts_on_packet fuel packet remote gro m D B) as A. by destruct (on_packet _ _ _ _ _ m) as [|[rv m1]].
  - unfold fire, bind at 1, get. destruct (timers m !! id) as [[p d]|] eqn:T; [|done]. unfold bind at 1, modify.
    apply (accounts_within p (do _ <- handle_expiry random fuel p; ret ())).
    + apply within_bind; [apply within_handle_expiry|]. intros. apply within_ret.
    + apply keeps_bind; [apply within_handle_expiry|apply keeps_handle_expiry|]. intros. apply keeps_ret.
    + by apply ok_delete_timer, D.
    + destruct (ok_timers _ (good_ok _ D) _ _ _ T) as (c & C & _). apply live_find. cbn. by rewrite C.
    + by apply (accounts_same m); [left|..].
  - destruct (cleanup_restricts m (good_ok _ D)) as (m' & -> & R). apply (accounts_same m); [|apply R|done].
    intros q. unfold session. rewrite (restricted_connections _ _ _ R), find_filter. destruct (decide _); [by left|by right].
  - unfold write_all, bind, get. by apply accounts_write_each.
  - by apply (accounts_same m); [left|..].
  - by apply accounts_run_posted.
  - by apply (accounts_same m); [left|..].
Qed.

Lemma stream_bytes_once fuel m p c h s (Hm : reachable random fuel m)
    (Hc : find_connection p (connections_ m) = Some c) (Hh : http3_session_ c = Some h) (Hs : 0 <= s) :
  0 <= written s h <= len (produced s h) /\
  default [] (carried m !! (p, s)) = take (Z.to_nat (written s h)) (produced s h).
Proof.
  assert (accounts m) as A; [|apply A; [unfold session; by rewrite Hc|done]]. clear c h Hc Hh.
  induction Hm as [time|m e m' R IH L X]; [by intros q h s'|].
  pose proof (accounts_handle fuel e m (reachable_good _ _ _ R) L IH) as A. by rewrite X in A.
Qed.

End Accounting.

(** ** The session over nghttp3 *)

(** Whatever the session answers, and as long as its own calls keep [rel], a
    call into nghttp3 keeps [rel] and ends as [post] says. *)
Fixpoint steady {B R} (rel : B -> B -> Prop) (post : R -> B -> Prop) (b : B) (call : Http3Session.Nested B R) : Prop :=
  match call with
  | Http3Session.Finished r b' => rel b b' /\ post r b'
  | Http3Session.Calls b1 _ k => rel b b1 /\ forall b2, rel b1 b2 -> steady rel post b2 (k b2)
  | Http3Session.Reads _ k => forall a, steady rel post b (k a)
  end.

(** nghttp3's documented account of what it sends.  [queued] is what a stream
    had to send since the connection began, [told] how much of it
    [nghttp3_conn_add_write_offset] reported as taken by QUIC: only that
    changes the latter, nothing takes queued bytes back, and what
    [nghttp3_conn_writev_stream] hands out continues where the report ends.
    That nghttp3 runs out of memory is left out. *)
Class Nghttp3Laws (N B : Type) `{!Http3Session.Nghttp3 N B} := {
  queued : Z -> B -> bytes;
  told : Z -> B -> Z;
  extends (b b' : B) : Prop := forall s, queued s b `prefix_of` queued s b' /\ told s b' = told s b;
  law_new : forall n b, Http3Session.conn_server_new n = Some b -> forall s, told s b = 0;
  law_read : forall s d f b, steady extends (fun _ _ => True) b (Http3Session.conn_read_stream s d f b);
  law_close : forall s c b, steady extends (fun _ _ => True) b (Http3Session.conn_close_stream s c b);
  law_ack : forall s l b, steady extends (fun _ _ => True) b (Http3Session.conn_add_ack_offset s l b);
  law_unblock : forall s b, extends b (snd (Http3Session.conn_unblock_stream s b));
  law_resume_stream : forall s b, extends b (Http3Session.conn_resume_stream s b);
  law_submit : forall s fields reader b, extends b (Http3Session.conn_submit_response s fields reader b);
  law_writev : forall b,
    steady extends (fun r b' => match r with
      | Some (s, _, data) => 0 <= s -> data `prefix_of` drop (Z.to_nat (told s b')) (queued s b')
      | None => True end) b (Http3Session.conn_writev_stream b);
  law_report : forall s k b s', 0 <= s -> 0 <= k ->
    let b' := snd (Http3Session.conn_add_write_offset s k b) in
    queued s' b' = queued s' b /\ told s' b' = if s' =? s then told s' b + k else told s' b
}.

Section Http3.
Context {A N B : Type} `{!Http3Session.Nghttp3 N B} `{!Nghttp3Laws N B}.
Context (handler_ : option (Request.t -> Response.t -> Http1.World (A:=A) -> Request.t * Response.t * Http1.World (A:=A))).
Context (elapse : Http1.World (A:=A) -> Http1.World (A:=A)) (peer : N -> bytes) (world0 : Http1.World (A:=A)).

(** The session that the connection uses. *)
#[export] Instance http3 : Session (Z * Z) N (Http3Session.t (A:=A) (B:=B)) := {|
  create_session := Http3Session.create peer world0;
  on_stream_data := Http3Session.on_stream_data (N:=N) handler_ elapse;
  on_stream_close := Http3Session.on_stream_close (N:=N) handler_ elapse;
  on_acked_stream_data := Http3Session.on_acked_stream_data (N:=N) handler_ elapse;
  on_extend_max_stream_data := Http3Session.on_extend_max_stream_data (N:=N);
  get_stream_data := Http3Session.get_stream_data (N:=N) handler_ elapse;
  add_write_offset := Http3Session.add_write_offset (N:=N);
  resume_sse_stream := Http3Session.resume_sse_stream (N:=N) elapse
|}.

Lemma extends_trans b1 b2 b3 : extends b1 b2 -> extends b2 b3 -> extends b1 b3.
Proof. intros E1 E2 s. destruct (E1 s) as [P1 T1], (E2 s) as [P2 T2]. split; [by etrans|congruence]. Qed.

Lemma extends_refl b : extends b b.
Proof. by intros s. Qed.

Lemma made_extends (st st' : Http3.St (A:=A)) b : extends b (Http3Session.made (N:=N) st st' b).
Proof.
  unfold Http3Session.made. generalize (drop (length (Http3.resumed st)) (Http3.resumed st')) as rs.
  generalize (drop (length (Http3.submissions st)) (Http3.submissions st')) as xs. intros xs rs.
  match goal with |- extends b (foldl ?f ?b0 rs) => apply (extends_trans b b0); [|generalize b0 as b1] end.
  - revert b. induction xs as [|x xs IH]; intros b; [apply extends_refl|]. cbn. eapply extends_trans; [|apply IH].
    destruct (Http3.sub_ok x); [apply law_submit|apply extends_refl].
  - induction rs as [|r rs IH]; intros b1; [apply extends_refl|]. cbn.
    eapply extends_trans; [apply law_resume_stream|apply IH].
Qed.

Lemma nested_steady {R} (post : R -> B -> Prop) (call : Http3Session.Nested B R) b st :
  steady extends post b call -> let '(r, h) := Http3Session.nested (N:=N) handler_ call st in
  extends b (Http3Session.conn_ h) /\ post r (Http3Session.conn_ h).
Proof.
  revert b st. induction call as [r b'|b' c k IH|sid k IH]; intros b st St; cbn.
  - done.
  - destruct St as [E1 St]. set (b2 := Http3Session.made _ _ _).
    assert (extends b' b2) as E2 by apply made_extends.
    match goal with |- context [Http3Session.nested _ (k b2) ?x] => specialize (IH b2 b2 x (St b2 E2)) end.
    destruct (Http3Session.nested _ _ _) as [r h]. destruct IH as [E3 P]. split; [|done].
    eapply extends_trans; [exact E1|]. by eapply extends_trans.
  - destruct (Http3.on_read_data sid st) as [a st']. by apply IH.
Qed.

Lemma receive_extends s o d f h :
  extends (Http3Session.conn_ h) (Http3Session.conn_ (snd (Http3Session.receive (A:=A) (N:=N) handler_ s o d f h))).
Proof.
  unfold Http3Session.receive, Http3Session.read_stream, Http3Session.on_session. destruct (_ && _); [apply extends_refl|]. cbn.
  destruct (_ <=? _); [destruct f; [|apply extends_refl]|].
  - match goal with |- context [Http3Session.nested _ (Http3Session.conn_read_stream ?s ?d ?f ?b) ?st] =>
      pose proof (nested_steady _ (Http3Session.conn_read_stream s d f b) b st (law_read s d f b)) as X end.
    destruct (Http3Session.nested _ _ _) as [r h']. apply X.
  - match goal with |- context [Http3Session.nested _ (Http3Session.conn_read_stream ?s ?d ?f ?b) ?st] =>
      pose proof (nested_steady _ (Http3Session.conn_read_stream s d f b) b st (law_read s d f b)) as X end.
    destruct (Http3Session.nested _ _ _) as [r h']. destruct (r <? 0); apply X.
Qed.

(** The session keeps the account of its nghttp3. *)
#[export] Instance http3_laws : SessionLaws (Z * Z) N (Http3Session.t (A:=A) (B:=B)).
Proof.
  refine {| produced := fun s h => queued s (Http3Session.conn_ h); written := fun s h => told s (Http3Session.conn_ h) |}; cbn.
  - intros n h X s. unfold Http3Session.create in X. apply fmap_Some in X as (b & Y & ->). by eapply law_new.
  - intros s o d f h. unfold Http3Session.on_stream_data.
    pose proof (receive_extends s o d f (Http3Session.entered elapse h)) as X. by destruct (Http3Session.receive _ _ _ _ _ _).
  - intros s c h. unfold Http3Session.on_stream_close.
    pose proof (nested_steady _ _ _ (Http3Session.session (Http3Session.entered elapse h)) (law_close s c (Http3Session.conn_ h))) as X.
    destruct (Http3Session.nested _ _ _) as [rv h']. destruct (_ && _); apply X.
  - intros s o l h. unfold Http3Session.on_acked_stream_data.
    pose proof (nested_steady _ _ _ (Http3Session.session (Http3Session.entered elapse h)) (law_ack s l (Http3Session.conn_ h))) as X.
    destruct (Http3Session.nested _ _ _) as [rv h']. apply X.
  - intros s h. unfold Http3Session.on_extend_max_stream_data.
    pose proof (law_unblock s (Http3Session.conn_ h)) as X. by destruct (Http3Session.conn_unblock_stream _ _).
  - intros s h. apply made_extends.
  - intros h. unfold Http3Session.get_stream_data.
    pose proof (nested_steady _ _ _ (Http3Session.session (Http3Session.entered elapse h)) (law_writev (Http3Session.conn_ h))) as X.
    destruct (Http3Session.nested _ _ _) as [r h']. destruct X as [X P]. split; [exact X|].
    intros s fin data Y Ps. cbn in Y. subst r. destruct (X s) as [_ <-]. by apply P.
  - intros s k h s' Ps Pk. by apply law_report.
Defined.

Context `{!Ngtcp2 (Z * Z) N} `{!Ngtcp2Laws (Z * Z) N} (random : nat -> Z -> bytes).

(** [C32] Every byte of a stream goes out once: in any reachable state,
    for a connection with an HTTP/3 session, the bytes that ngtcp2 took of a
    stream, packet by packet and part by part of a packet, are in order the
    first of those nghttp3 had to send there, exactly as many as the
    connection reported to it, so nghttp3 hands none of them out again and
    skips none.  For any handler and any event producers; nghttp3 and ngtcp2
    are those of [Nghttp3Laws] and [Ngtcp2Laws]. *)
Theorem quic_stream_bytes_once fuel m p c h s (Hm : reachable random fuel m)
    (Hc : find_connection p (connections_ m) = Some c) (Hh : http3_session_ c = Some h) (Hs : 0 <= s) :
  0 <= told s (Http3Session.conn_ h) <= len (queued s (Http3Session.conn_ h)) /\
  default [] (carried m !! (p, s)) = take (Z.to_nat (told s (Http3Session.conn_ h))) (queued s (Http3Session.conn_ h)).
Proof. exact (stream_bytes_once random fuel m p c h s Hm Hc Hh Hs). Qed.

End Http3.
End QuicStreams.

(** * A concrete peer, and what goes wrong

    A small ngtcp2 and an echoing session, which keep the laws of
    [QuicStreams], for the witnesses; and the defects of the connection: tasks
    that outlive it, connections that are never removed, and writing that
    stops or never ends. *)

Import Quic QuicProps QuicStreams.
Open Scope quic_scope.

Module QuicCases.

(** ** A peer *)

(** Packets that wait to be written besides stream data, what streams do, and
    whether the peer has left. *)
Inductive Streams := Open | Blocked | Missing.
Record Peer := mkPeer { acks : list bytes; streams : Streams; left : bool }.

Definition set_acks (l : list bytes) (n : Peer) : Peer := mkPeer l (streams n) (left n).

(** A packet starts with two bytes of connection id; the third is its kind. *)
Definition read_kind {E} (packet : bytes) (n : Peer) : Call E Peer Z :=
  let n' := set_acks (acks n ++ [bs "ack"]) n in
  match nth_error packet 2 with
  | Some "H"%char => Ask HandshakeCompleted (fun _ => Done 0 n')
  | Some "N"%char => Ask (GetNewConnectionId 2) (fun _ => Done 0 n')
  | Some "D"%char => Ask (RecvStreamData true 0 0 (drop 3 packet)) (fun _ => Done 0 n')
  | Some "L"%char => Done 0 (mkPeer (acks n) (streams n) true)
  | Some "B"%char => Done 0 (mkPeer (acks n) Blocked (left n))
  | Some "M"%char => Done 0 (mkPeer (acks n) Missing (left n))
  | _ => Done (-1) n
  end.

Definition any_peer E : Ngtcp2 E Peer := {|
  pkt_decode_version_cid := fun p => Some (take 2 p);
  accept := fun p => Some (take 2 p);
  conn_server_new := fun _ _ _ => Some (mkPeer [] Open false);
  conn_read_pkt := fun p _ n => read_kind p n;
  conn_writev_stream := fun _ s data _ n =>
    if s <? 0 then Done CongestionLimited n
    else match streams n with
         | Open => Done (Packet data (len data)) n
         | Blocked => Done (WriteError (-210)) n
         | Missing => Done StreamNotFound n
         end;
  conn_write_pkt := fun _ n => match acks n with [] => Done CongestionLimited n | a :: l => Done (Packet a (-1)) (set_acks l n) end;
  conn_write_connection_close := fun _ _ n => Done (Some (bs "bye")) (mkPeer (acks n) (streams n) true);
  conn_handle_expiry := fun time n => Done (if 100 <=? time then -2 else 0) n;
  conn_get_expiry := fun n => Some 100;
  in_draining_period := left;
  in_closing_period := fun _ => false;
  err_is_fatal := fun _ => false
|}.

Lemma any_peer_laws E : @Ngtcp2Laws E Peer (any_peer E).
Proof.
  split. intros fin s data time n. cbn. destruct (s <? 0); [done|]. destruct (streams n); cbn; [lia|done|done].
Qed.

#[export] Instance peer : Ngtcp2 () Peer := any_peer ().
#[export] Instance peer_laws : Ngtcp2Laws () Peer := any_peer_laws ().

(** Sends back what it receives. *)
Record Echo := mkEcho { out : Z -> bytes; off : Z -> Z }.

#[export] Instance echo : Session () Peer Echo := {|
  create_session := fun _ => Some (mkEcho (fun _ => []) (fun _ => 0));
  on_stream_data := fun s _ d _ h => (0, [], mkEcho (fun x => if x =? s then out h x ++ d else out h x) (off h));
  on_stream_close := fun _ _ h => (0, [], h);
  on_acked_stream_data := fun _ _ _ h => (0, [], h);
  on_extend_max_stream_data := fun _ h => (0, [], h);
  get_stream_data := fun h =>
    (Some (if off h 0 <? len (out h 0) then (0, false, take 3 (drop (Z.to_nat (off h 0)) (out h 0))) else (-1, false, [])), h);
  add_write_offset := fun s k h => mkEcho (out h) (fun x => if x =? s then off h x + k else off h x);
  resume_sse_stream := fun _ h => h
|}.

#[export] Instance echo_laws : SessionLaws () Peer Echo.
Proof.
  refine {| produced := fun s h => out h s; written := fun s h => off h s |}; cbn; try done.
  - intros n h [= <-] s. done.
  - intros s o d f h s'. cbn. split; [|done]. destruct (s' =? s); [by exists d|done].
  - intros h. split; [done|]. intros s fin data X P. destruct (off h 0 <? len (out h 0)); [|by injection X as <- <- <-].
    injection X as <- <- <-. eexists. symmetry. apply take_drop.
Defined.

(** The bytes drawn at random: the number of the draw. *)
Definition numbered (n : nat) (k : Z) : bytes := take (Z.to_nat k) (repeat (byte_of_Z (Z.of_nat n)) 16).

Definition after (es : list Event) : result Failure (() * t Peer Echo) := run_events numbered 20 es (init 0).
Definition state_after (es : list Event) : t Peer Echo := match after es with inr (_, m) => m | inl _ => init 0 end.

(** A handshake, then data and a new connection id in one coalesced packet. *)
Definition visit : list Event := [Receive (bs "abH") (bs "peer") 0; Receive (bs "abDhelloabNxxxxx") (bs "peer") 8].

Lemma visit_reachable : reachable numbered 20 (state_after visit).
Proof.
  apply (reachable_run numbered 20 visit (init 0)); [constructor|..].
  - cbn [legal_run visit]. split; [done|].
    match goal with |- match ?x with _ => _ end => destruct x as [|[? ?]]; [done|] end. split; [done|]. by destruct (handle _ _ _ _) as [|[]].
  - vm_compute. reflexivity.
Qed.

Lemma quic_connections_safe_witness :
  let m := state_after visit in
  size (cid_map_ m) = 3%nat /\
  (forall cid p, cid_map_ m !! cid = Some p -> is_Some (find_connection p (connections_ m))) /\
  (forall id p d, timers m !! id = Some (p, d) -> exists c, find_connection p (connections_ m) = Some c /\ expiry_timer_ c = Some id) /\
  handle numbered 20 Cleanup m <> inl Dangling /\
  exists m', cleanup m = inr ((), m') /\ restricted (fun p => ~ gone m p) m m'.
Proof.
  intros m. split; [vm_compute; reflexivity|].
  apply (quic_connections_safe numbered 20 m Cleanup visit_reachable). vm_compute. reflexivity.
Defined.

Definition coalesced : bytes := bs "abDyabDzz".

Lemma quic_packets_confined_witness :
  0 < 4 < len coalesced /\
  let segments := chunks (length coalesced) 4 coalesced in
  concat segments = coalesced /\ Forall (fun s => 0 < len s <= 4) segments /\ Forall (fun s => len s = 4) (removelast segments) /\
  on_packet numbered 20 coalesced (bs "peer") 4 (state_after visit) = each numbered 20 (bs "peer") segments 0 (state_after visit).
Proof.
  assert (0 < 4 < len coalesced) as G by (vm_compute; split; reflexivity). split; [exact G|].
  destruct (quic_packets_confined numbered 20 (state_after visit) coalesced (bs "peer") 4 visit_reachable) as [X _]. exact (X G).
Defined.

(** A small nghttp3: what streams have to send, how much is reported, and the
    responses whose body is to be read.  A request is one piece of data. *)
Record Framer := mkFramer { queue : Z -> bytes; reported : Z -> Z; readers : list Z }.

Definition enqueue (s : Z) (d : bytes) (b : Framer) : Framer :=
  mkFramer (fun x => if x =? s then queue b x ++ d else queue b x) (reported b) (readers b).
Definition set_readers (l : list Z) (b : Framer) : Framer := mkFramer (queue b) (reported b) l.

Definition hand_out (b : Framer) : option (Z * bool * bytes) :=
  Some (if reported b 0 <? len (queue b 0) then (0, false, take 3 (drop (Z.to_nat (reported b 0)) (queue b 0))) else (-1, false, [])).

Import Http3Session (Finished, Calls, Reads).

#[export] Instance framer : Http3Session.Nghttp3 Peer Framer := {|
  Http3Session.conn_server_new := fun _ => Some (mkFramer (fun _ => []) (fun _ => 0) []);
  Http3Session.conn_read_stream := fun s d f b =>
    Calls b (Http3.RecvHeader s (bs ":method") (bs "POST")) (fun b => Calls b (Http3.RecvData s d) (fun b =>
      if f then Calls b (Http3.EndStream s) (Finished (len d)) else Finished (len d) b));
  Http3Session.conn_close_stream := fun _ _ => Finished 0;
  Http3Session.conn_add_ack_offset := fun s n b => Calls b (Http3.AckedData s n) (Finished 0);
  Http3Session.conn_unblock_stream := fun _ b => (0, b);
  Http3Session.conn_resume_stream := fun s b => set_readers (readers b ++ [s]) b;
  Http3Session.conn_takes_response := fun _ _ => true;
  Http3Session.conn_submit_response := fun s _ reader b =>
    enqueue s (bs "HEADERS ") (if reader then set_readers (readers b ++ [s]) b else b);
  Http3Session.conn_writev_stream := fun b =>
    match readers b with
    | [] => Finished (hand_out b) b
    | s :: l => Reads s (fun a =>
        let b := set_readers l b in
        let b := match a with Http3.Chunk d _ => enqueue s d b | _ => b end in Finished (hand_out b) b)
    end;
  Http3Session.conn_add_write_offset := fun s k b =>
    (0, mkFramer (queue b) (fun x => if x =? s then reported b x + k else reported b x) (readers b))
|}.

Lemma hand_out_continues b s fin data : hand_out b = Some (s, fin, data) -> 0 <= s ->
  data `prefix_of` drop (Z.to_nat (reported b s)) (queue b s).
Proof.
  unfold hand_out. intros X P. destruct (_ <? _); injection X as <- <- <-; [|done]. eexists. symmetry. apply take_drop.
Qed.

Lemma enqueue_grows s d b x : queue b x `prefix_of` queue (enqueue s d b) x /\ reported (enqueue s d b) x = reported b x.
Proof. cbn. split; [|done]. destruct (x =? s); [by exists d|done]. Qed.

#[export] Instance framer_laws : Nghttp3Laws Peer Framer.
Proof.
  refine {| queued := fun s b => queue b s; told := fun s b => reported b s |}; cbn; try done.
  - by intros n b [= <-].
  - intros s d f b. split; [done|]. intros b1 E1. split; [done|]. intros b2 E2. destruct f; [|done]. split; [done|]. by intros b3 E3.
  - intros s f r b x. destruct r; apply (enqueue_grows s (bs "HEADERS ")).
  - intros b. destruct (readers b) as [|s l]; cbn [steady].
    + split; [done|]. destruct (hand_out b) as [[[s fin] data]|] eqn:X; [|done]. by eapply hand_out_continues.
    + intros a. split.
      * intros x. destruct a; try done. apply (enqueue_grows s base (set_readers l b) x).
      * match goal with |- context [hand_out ?b'] => destruct (hand_out b') as [[[s' fin] data]|] eqn:X end; [|done].
        by eapply hand_out_continues.
Defined.

(** An application that echoes, and what happens on its connections. *)
Definition echo_handler (req : Request.t) (res : Response.t) (w : Http1.World (A:=())) : Request.t * Response.t * Http1.World (A:=()) :=
  (req, Response.body (Request.body_ req) res, w).

Section Server.
#[local] Instance h3_peer : Ngtcp2 (Z * Z) Peer := any_peer (Z * Z).
#[local] Instance h3_peer_laws : Ngtcp2Laws (Z * Z) Peer := any_peer_laws (Z * Z).
#[local] Instance server : Session (Z * Z) Peer (Http3Session.t (A:=()) (B:=Framer)) :=
  http3 (Some echo_handler) id (fun _ => bs "peer") (Http1.mkWorld () ∅).

Definition served_after (es : list Event) : t Peer (Http3Session.t (A:=()) (B:=Framer)) :=
  match run_events numbered 20 es (init 0) with inr (_, m) => m | inl _ => init 0 end.

Lemma served_reachable : reachable numbered 20 (served_after visit).
Proof.
  apply (reachable_run numbered 20 visit (init 0)); [constructor|..].
  - cbn [legal_run visit]. split; [done|].
    match goal with |- match ?x with _ => _ end => destruct x as [|[? ?]]; [done|] end. split; [done|]. by destruct (handle _ _ _ _) as [|[]].
  - vm_compute. reflexivity.
Qed.

(** The response has gone out, and all of it is accounted for. *)
Lemma quic_stream_bytes_once_witness :
  exists c h, find_connection 1 (connections_ (served_after visit)) = Some c /\ http3_session_ c = Some h /\
  carried (served_after visit) !! (1, 0) = Some (bs "HEADERS hello") /\
  0 <= told 0 (Http3Session.conn_ h) <= len (queued 0 (Http3Session.conn_ h)) /\
  default [] (carried (served_after visit) !! (1, 0)) = take (Z.to_nat (told 0 (Http3Session.conn_ h))) (queued 0 (Http3Session.conn_ h)).
Proof.
  destruct (find_connection 1 (connections_ (served_after visit))) as [c|] eqn:C; [|by vm_compute in C].
  destruct (http3_session_ c) as [h|] eqn:Hc.
  - exists c, h. split; [done|]. split; [done|]. split; [vm_compute; reflexivity|].
    apply (quic_stream_bytes_once (Some echo_handler) id (fun _ => bs "peer") (Http1.mkWorld () ∅) numbered 20 (served_after visit) 1 c h 0 served_reachable C Hc). lia.
  - vm_compute in C. injection C as <-. vm_compute in Hc. discriminate.
Defined.

End Server.

(** ** What goes wrong *)

(** A task posted for an event stream holds a reference to its connection; if
    the connection is cleaned up before the task runs, the reference dangles. *)
Lemma resume_after_cleanup_dangles :
  after [Receive (bs "abH") (bs "peer") 0; Receive (bs "abL") (bs "peer") 0; Wake 1 0; Cleanup; RunPosted] = inl Dangling.
Proof. vm_compute. reflexivity. Qed.

(** A connection whose idle time has passed is neither closed nor draining and
    has no timer: it stays, with its ids, through every clean-up. *)
Lemma idle_connection_stays :
  let m := state_after [Receive (bs "abH") (bs "peer") 0; Tick 200; Timer 2; Cleanup; Tick 999; Cleanup] in
  timers m = ∅ /\ map fst (connections_ m) = [1] /\ cid_map_ m !! bs "ab" = Some 1.
Proof. vm_compute. done. Qed.

(** After a packet that ngtcp2 rejects, nothing that closes the connection is
    sent and it stays open. *)
Lemma read_error_keeps_connection :
  let m := state_after [Receive (bs "abH") (bs "peer") 0; Receive (bs "ab?") (bs "peer") 0; Cleanup] in
  map (fun '(p, c) => (p, is_closed c)) (connections_ m) = [(1, false)] /\ (bs "peer", bs "bye") ∉ sent m.
Proof. vm_compute. split; [reflexivity|]. intros X. by repeat (apply elem_of_cons in X as [X|X]; [discriminate|]); apply elem_of_nil in X. Qed.

(** When the flow control of the peer blocks one stream, [on_write] returns
    before it writes anything else: acknowledgements wait as long as the
    stream. *)
Lemma blocked_stream_stops_acks :
  let m := state_after [Receive (bs "abH") (bs "peer") 0; Receive (bs "abB") (bs "peer") 0; Receive (bs "abDhello") (bs "peer") 0; WriteAll] in
  map snd (sent m) = [bs "ack"] /\ (fun c => acks (conn_ c)) <$> find_connection 1 (connections_ m) = Some [bs "ack"].
Proof. vm_compute. done. Qed.

(** Data of a stream that ngtcp2 no longer has is offered again and again:
    [on_write] does not return. *)
Definition stuck_state : t Peer Echo :=
  mk ∅ [(1, mkConn (mkPeer [] Missing false) (bs "ab") (Some (mkEcho (fun _ => bs "x") (fun _ => 0))) (bs "peer") None false false)]
    2 ∅ 1 [] 0 0 [] ∅.

Lemma missing_stream_never_returns fuel : on_write numbered fuel 1 stuck_state = inl OutOfFuel.
Proof.
  assert (stream_loop numbered fuel 1 stuck_state = inl OutOfFuel) as L by (induction fuel as [|fuel IH]; [done|exact IH]).
  unfold on_write, bind. cbn. by rewrite L.
Qed.

End QuicCases.
