(* ===== verification/EventLoop.v ===== *)
(** * The event loop

    [core/io_uring_event_loop.*]: descriptors, timers, posted tasks and the
    contexts of packets being sent, over the submission and completion queues
    of io_uring.  The kernel is what comes in: completion entries, the results
    of submissions and the value of its clock.

    A callback is a script of the calls it makes on the loop; what it does
    elsewhere does not matter here. *)

From S2P Require Import Prelude CxxString.

Module EventLoop.

(** ** User data *)

Inductive OpType := Poll | Timer | Cancel | RecvMsg | SendMsg.

Definition op_code (op : OpType) : Z :=
  match op with Poll => 1 | Timer => 2 | Cancel => 3 | RecvMsg => 4 | SendMsg => 5 end.

Definition op_of_code (z : Z) : option OpType :=
  if z =? 1 then Some Poll else if z =? 2 then Some Timer else if z =? 3 then Some Cancel
  else if z =? 4 then Some RecvMsg else if z =? 5 then Some SendMsg else None.

Definition low56 : Z := 0x00FFFFFFFFFFFFFF.

Definition encode_user_data (op : OpType) (id : Z) : Z := Z.lor (Z.shiftl (op_code op) 56) (Z.land id low56).
Definition decode_user_data (ud : Z) : option OpType * Z := (op_of_code (Z.shiftr ud 56), Z.land ud low56).

(** [static_cast<int>] of an identifier. *)
Definition as_int (id : Z) : Z := let z := id mod 2 ^ 32 in if z <? 2 ^ 31 then z else z - 2 ^ 32.

(** ** Packets *)

Inductive Family := Inet | Inet6 | OtherFamily.
Record Address := mkAddress { family : Family; ip : bytes; port : Z }.

Record IncomingPacket := mkIncoming { i_data : bytes; i_remote : Address; i_local : Address; i_ecn : Z; gro_segment_size : Z }.
Record OutgoingPacket := mkOutgoing { o_data : bytes; o_remote : Address; o_local : Address; o_ecn : Z; gso_segment_size : Z }.

(** A control message. *)
Inductive Cmsg :=
| Pktinfo (addr : bytes)
| Pktinfo6 (addr : bytes)
| Tos (v : Z)
| Tclass (v : Z)
| UdpGro (v : Z)
| UdpSegment (v : Z)
| OtherCmsg.

(** ** Callbacks *)

Inductive Script :=
| Halt
| AddFd (fd events : Z) (cb : option (Z -> Script)) (k : Script)
| ModifyFd (fd events : Z) (k : Script)
| RemoveFd (fd : Z) (k : Script)
| AddTimer (delay : Z) (cb : option Script) (k : Z -> Script)
| CancelTimer (id : Z) (k : Script)
| PostTask (task : option Script) (k : Script)
| AsyncSend (fd : Z) (pkt : OutgoingPacket) (k : Script)
| StopLoop (k : Script)
| Throw.

(** The callback of the wake-up descriptor is the loop's own. *)
Inductive FdCallback := WakeUp | User (cb : option (Z -> Script)).

(** ** State *)

Record FdEntry := mkFd { events : Z; fd_callback : FdCallback; poll_active : bool; registered_index : Z }.
Record TimerEntry := mkTimer { timer_callback : option Script; cancelled : bool; tv_sec : Z; tv_nsec : Z }.
Record SendContext := mkSend { in_use : bool; notif_pending : bool; payload : bytes; s_remote : Address; control : list Cmsg }.
Record PacketRecvEntry := mkRecv { recv_callback : option (IncomingPacket -> Script); local_port : Z }.

Inductive Request :=
| PollMultishot (target : Z) (fixed : bool) (mask : Z)
| PollRemove (ud : Z)
| Timeout (sec nsec : Z)
| TimeoutRemove (ud : Z)
| RecvmsgMultishot (target : Z) (fixed : bool)
| Sendmsg (target : Z) (fixed : bool).
Record Sqe := mkSqe { request : Request; user_data : Z }.

(** The queue of prepared requests, those submitted, and how often it was tried. *)
Record Ring := mkRing { sq : list Sqe; submitted : list Sqe; submits : nat }.

(** For the record: what happened to timers. *)
Inductive Note := TimerAdded (id : Z) | TimerCancelled (id : Z) | TimerRan (id : Z).

Record t := mk {
  fd_entries_ : gmap Z FdEntry;
  registered_files_ : list Z;
  timer_entries_ : gmap Z TimerEntry;
  next_timer_id_ : Z;
  posted_tasks_ : list (option Script);
  wakeups : Z;                                  (** the counter of the eventfd *)
  accepting_tasks_ : bool;
  running_ : bool;
  send_contexts_ : gmap Z SendContext;
  free_send_indices_ : list Z;
  packet_recv_cbs_ : gmap Z PacketRecvEntry;
  buffers : list Z;                             (** recycled receive buffers *)
  ring_ : Ring;
  notes : list Note
}.

Definition kRingSize : Z := 512.
Definition kMaxRegisteredFiles : nat := 64.
Definition kSendContextsCount : nat := 128.

Definition set_fds (f : gmap Z FdEntry) (l : t) : t :=
  mk f (registered_files_ l) (timer_entries_ l) (next_timer_id_ l) (posted_tasks_ l) (wakeups l) (accepting_tasks_ l)
     (running_ l) (send_contexts_ l) (free_send_indices_ l) (packet_recv_cbs_ l) (buffers l) (ring_ l) (notes l).
Definition set_files (f : list Z) (l : t) : t :=
  mk (fd_entries_ l) f (timer_entries_ l) (next_timer_id_ l) (posted_tasks_ l) (wakeups l) (accepting_tasks_ l)
     (running_ l) (send_contexts_ l) (free_send_indices_ l) (packet_recv_cbs_ l) (buffers l) (ring_ l) (notes l).
Definition set_timers (f : gmap Z TimerEntry) (n : Z) (l : t) : t :=
  mk (fd_entries_ l) (registered_files_ l) f n (posted_tasks_ l) (wakeups l) (accepting_tasks_ l)
     (running_ l) (send_contexts_ l) (free_send_indices_ l) (packet_recv_cbs_ l) (buffers l) (ring_ l) (notes l).
Definition set_tasks (p : list (option Script)) (w : Z) (l : t) : t :=
  mk (fd_entries_ l) (registered_files_ l) (timer_entries_ l) (next_timer_id_ l) p w (accepting_tasks_ l)
     (running_ l) (send_contexts_ l) (free_send_indices_ l) (packet_recv_cbs_ l) (buffers l) (ring_ l) (notes l).
Definition set_running (b : bool) (l : t) : t :=
  mk (fd_entries_ l) (registered_files_ l) (timer_entries_ l) (next_timer_id_ l) (posted_tasks_ l) (wakeups l) (accepting_tasks_ l)
     b (send_contexts_ l) (free_send_indices_ l) (packet_recv_cbs_ l) (buffers l) (ring_ l) (notes l).
Definition set_sends (c : gmap Z SendContext) (f : list Z) (l : t) : t :=
  mk (fd_entries_ l) (registered_files_ l) (timer_entries_ l) (next_timer_id_ l) (posted_tasks_ l) (wakeups l) (accepting_tasks_ l)
     (running_ l) c f (packet_recv_cbs_ l) (buffers l) (ring_ l) (notes l).
Definition set_recvs (c : gmap Z PacketRecvEntry) (l : t) : t :=
  mk (fd_entries_ l) (registered_files_ l) (timer_entries_ l) (next_timer_id_ l) (posted_tasks_ l) (wakeups l) (accepting_tasks_ l)
     (running_ l) (send_contexts_ l) (free_send_indices_ l) c (buffers l) (ring_ l) (notes l).
Definition recycle (b : Z) (l : t) : t :=
  mk (fd_entries_ l) (registered_files_ l) (timer_entries_ l) (next_timer_id_ l) (posted_tasks_ l) (wakeups l) (accepting_tasks_ l)
     (running_ l) (send_contexts_ l) (free_send_indices_ l) (packet_recv_cbs_ l) (buffers l ++ [b]) (ring_ l) (notes l).
Definition set_ring (r : Ring) (l : t) : t :=
  mk (fd_entries_ l) (registered_files_ l) (timer_entries_ l) (next_timer_id_ l) (posted_tasks_ l) (wakeups l) (accepting_tasks_ l)
     (running_ l) (send_contexts_ l) (free_send_indices_ l) (packet_recv_cbs_ l) (buffers l) r (notes l).
Definition note (n : Note) (l : t) : t :=
  mk (fd_entries_ l) (registered_files_ l) (timer_entries_ l) (next_timer_id_ l) (posted_tasks_ l) (wakeups l) (accepting_tasks_ l)
     (running_ l) (send_contexts_ l) (free_send_indices_ l) (packet_recv_cbs_ l) (buffers l) (ring_ l) (notes l ++ [n]).

Inductive Failure := RuntimeError | SystemError (e : Z) | NullDereference.

Section Loop.
(** Whether a submission empties the queue, by its number. *)
Context (takes : nat -> bool).

Definition submit (r : Ring) : Ring :=
  if takes (submits r) then mkRing [] (submitted r ++ sq r) (S (submits r)) else mkRing (sq r) (submitted r) (S (submits r)).

(** [io_uring_get_sqe], with a submission when the queue is full. *)
Definition get_sqe (l : t) : bool * t :=
  if len (sq (ring_ l)) <? kRingSize then (true, l)
  else let r := submit (ring_ l) in (len (sq r) <? kRingSize, set_ring r l).

Definition prepare (r : Request) (ud : Z) (l : t) : t :=
  set_ring (mkRing (sq (ring_ l) ++ [mkSqe r ud]) (submitted (ring_ l)) (submits (ring_ l))) l.

(** ** Registered files *)

Fixpoint index_of (fd : Z) (files : list Z) : option nat :=
  match files with
  | [] => None
  | f :: files => if f =? fd then Some O else S <$> index_of fd files
  end.

Definition get_or_register_file (fd : Z) (l : t) : Z * t :=
  match index_of fd (registered_files_ l) with
  | Some i => (Z.of_nat i, l)
  | None =>
      match index_of (-1) (registered_files_ l) with
      | Some i => (Z.of_nat i, set_files (<[i := fd]> (registered_files_ l)) l)
      | None => (-1, l)
      end
  end.

Definition unregister_file (fd : Z) (l : t) : t :=
  match index_of fd (registered_files_ l) with
  | Some i => set_files (<[i := -1]> (registered_files_ l)) l
  | None => l
  end.

(** ** Descriptors *)

Definition set_active (b : bool) (e : FdEntry) : FdEntry := mkFd (events e) (fd_callback e) b (registered_index e).

Definition submit_poll (fd mask : Z) (l : t) : t :=
  let '(ok, l) := get_sqe l in
  if negb ok then l
  else
    let fd_val := match fd_entries_ l !! fd with
                  | Some e => if registered_index e =? -1 then fd else registered_index e
                  | None => fd
                  end in
    let l := prepare (PollMultishot fd_val (negb (fd_val =? fd)) mask) (encode_user_data Poll fd) l in
    set_fds (alter (set_active true) fd (fd_entries_ l)) l.

Definition cancel_poll (fd : Z) (l : t) : t :=
  let '(ok, l) := get_sqe l in
  if negb ok then l
  else
    let l := prepare (PollRemove (encode_user_data Poll fd)) (encode_user_data Cancel fd) l in
    set_fds (alter (set_active false) fd (fd_entries_ l)) l.

Definition add_fd (fd mask : Z) (cb : FdCallback) (l : t) : t :=
  let '(idx, l) := get_or_register_file fd l in
  submit_poll fd mask (set_fds (<[fd := mkFd mask cb false idx]> (fd_entries_ l)) l).

Definition modify_fd (fd mask : Z) (l : t) : result Failure t :=
  match fd_entries_ l !! fd with
  | None => inl RuntimeError
  | Some e =>
      let l := set_fds (<[fd := mkFd mask (fd_callback e) (poll_active e) (registered_index e)]> (fd_entries_ l)) l in
      inr (submit_poll fd mask (if poll_active e then cancel_poll fd l else l))
  end.

Definition remove_fd (fd : Z) (l : t) : t :=
  match fd_entries_ l !! fd with
  | None => l
  | Some e =>
      let l := if poll_active e then cancel_poll fd l else l in
      let l := unregister_file fd l in
      set_fds (delete fd (fd_entries_ l)) l
  end.

(** ** Timers *)

Definition submit_timer (timer_id delay : Z) (l : t) : t :=
  let '(ok, l) := get_sqe l in
  if negb ok then l
  else
    match timer_entries_ l !! timer_id with
    | None => l
    | Some e =>
        let ns := if delay <? 0 then 0 else delay in
        let sec := ns / 1000000000 in
        let nsec := ns mod 1000000000 in
        let l := set_timers (<[timer_id := mkTimer (timer_callback e) (cancelled e) sec nsec]> (timer_entries_ l)) (next_timer_id_ l) l in
        prepare (Timeout sec nsec) (encode_user_data Timer timer_id) l
    end.

Definition add_timer (delay : Z) (cb : option Script) (l : t) : Z * t :=
  let id := next_timer_id_ l in
  let l := note (TimerAdded id) (set_timers (<[id := mkTimer cb false 0 0]> (timer_entries_ l)) (wrap64 (id + 1)) l) in
  (id, submit_timer id delay l).

Definition add_timer_at (now when : Z) (cb : option Script) (l : t) : Z * t :=
  let delay := when - now in
  add_timer (if delay <? 0 then 0 else delay) cb l.

Definition cancel_timer (id : Z) (l : t) : t :=
  if id =? 0 then l
  else
    match timer_entries_ l !! id with
    | None => l
    | Some e =>
        let l := note (TimerCancelled id)
          (set_timers (<[id := mkTimer (timer_callback e) true (tv_sec e) (tv_nsec e)]> (timer_entries_ l)) (next_timer_id_ l) l) in
        let '(ok, l) := get_sqe l in
        if ok then prepare (TimeoutRemove (encode_user_data Timer id)) (encode_user_data Cancel id) l else l
    end.

(** ** Tasks *)

Definition post_push (task : option Script) (l : t) : t :=
  if accepting_tasks_ l then set_tasks (posted_tasks_ l ++ [task]) (wakeups l) l else l.
Definition post_write (l : t) : t :=
  if accepting_tasks_ l then set_tasks (posted_tasks_ l) (wakeups l + 1) l else l.
Definition post (task : option Script) (l : t) : t := post_write (post_push task l).

Definition stop (l : t) : t :=
  let l := set_running false l in set_tasks (posted_tasks_ l) (wakeups l + 1) l.

(** ** Sending packets *)

(** The control messages of a packet. *)
Definition local_message (a : Address) : list Cmsg :=
  match family a with Inet => [Pktinfo (ip a)] | Inet6 => [Pktinfo6 (ip a)] | OtherFamily => [] end.

(** The context keeps [msg_control] set from its construction on, so the next
    message is taken after the last one, of which there must be one. *)
Definition append_message (m : Cmsg) (ms : list Cmsg) : option (list Cmsg) :=
  match ms with [] => None | _ => Some (ms ++ [m]) end.

Definition control_messages (pkt : OutgoingPacket) : option (list Cmsg) :=
  let ms := local_message (o_local pkt) in
  ms ← (if 0 <? o_ecn pkt
        then append_message (match family (o_remote pkt) with Inet => Tos (o_ecn pkt) | _ => Tclass (o_ecn pkt) end) ms
        else Some ms);
  if 0 <? gso_segment_size pkt then append_message (UdpSegment (gso_segment_size pkt)) ms else Some ms.

Definition async_send (fd : Z) (pkt : OutgoingPacket) (l : t) : result Failure t :=
  match last (free_send_indices_ l) with
  | None => inr l     (* the packet is dropped *)
  | Some idx =>
      let free := removelast (free_send_indices_ l) in
      match control_messages pkt with
      | None => inl NullDereference
      | Some ms =>
          let l := set_sends (<[idx := mkSend true false (o_data pkt) (o_remote pkt) ms]> (send_contexts_ l)) free l in
          let '(ok, l) := get_sqe l in
          if negb ok then
            inr (set_sends (<[idx := mkSend false false (o_data pkt) (o_remote pkt) ms]> (send_contexts_ l)) (free ++ [idx]) l)
          else
            let '(fd_val, l) := get_or_register_file fd l in
            let sqe_fd := if fd_val =? -1 then fd else fd_val in
            inr (prepare (Sendmsg sqe_fd (negb (fd_val =? -1) && negb (fd_val =? fd))) (encode_user_data SendMsg idx) l)
      end
  end.

(** ** Scripts *)

Fixpoint exec (s : Script) (l : t) : result Failure t :=
  match s with
  | Halt => inr l
  | AddFd fd mask cb k => exec k (add_fd fd mask (User cb) l)
  | ModifyFd fd mask k => match modify_fd fd mask l with inl e => inl e | inr l => exec k l end
  | RemoveFd fd k => exec k (remove_fd fd l)
  | AddTimer delay cb k => let '(id, l) := add_timer delay cb l in exec (k id) l
  | CancelTimer id k => exec k (cancel_timer id l)
  | PostTask task k => exec k (post task l)
  | AsyncSend fd pkt k => match async_send fd pkt l with inl e => inl e | inr l => exec k l end
  | StopLoop k => exec k (stop l)
  | Throw => inl RuntimeError
  end.

Fixpoint run_tasks (pending : list (option Script)) (l : t) : result Failure t :=
  match pending with
  | [] => inr l
  | task :: pending =>
      match (match task with Some s => exec s l | None => inr l end) with
      | inl e => inl e
      | inr l => run_tasks pending l
      end
  end.

Definition run_posted_tasks (l : t) : result Failure t :=
  run_tasks (posted_tasks_ l) (set_tasks [] (wakeups l) l).

(** The callback of the wake-up descriptor: read until the counter is 0. *)
Definition on_wakeup (l : t) : result Failure t := run_posted_tasks (set_tasks (posted_tasks_ l) 0 l).

(** ** Completions *)

Record Cqe := mkCqe {
  c_user_data : Z;
  res : Z;
  more : bool;                   (** [IORING_CQE_F_MORE] *)
  notif : bool;                  (** [IORING_CQE_F_NOTIF] *)
  buf_id : Z;
  (** What [io_uring_recvmsg_validate] gives: name, payload and control messages. *)
  received : option (Address * bytes * list Cmsg)
}.

Definition run_callback (cb : FdCallback) (mask : Z) (l : t) : result Failure t :=
  match cb with
  | WakeUp => on_wakeup l
  | User (Some f) => exec (f mask) l
  | User None => inr l
  end.

Definition process_poll (fd : Z) (c : Cqe) (l : t) : result Failure t :=
  match (match fd_entries_ l !! fd with
         | Some e => if res c <? 0 then inr l else run_callback (fd_callback e) (res c) l
         | None => inr l
         end) with
  | inl e => inl e
  | inr l =>
      if more c then inr l
      else match fd_entries_ l !! fd with
           | None => inr l
           | Some e => inr (submit_poll fd (events e) (set_fds (alter (set_active false) fd (fd_entries_ l)) l))
           end
  end.

(** The source erases by the iterator it looked the entry up with.  That is
    the entry with this id, whatever the callback does: ids are not reused and
    only a completion erases an entry, unless timers that the callback adds
    make the table of the [unordered_map] grow, which invalidates iterators;
    when it grows is the library's, and the model does not say. *)
Definition process_timer (id : Z) (l : t) : result Failure t :=
  match timer_entries_ l !! id with
  | None => inr l
  | Some e =>
      let ran := if cancelled e then inr l
                 else let l := note (TimerRan id) l in
                      match timer_callback e with Some s => exec s l | None => inr l end in
      match ran with
      | inl e => inl e
      | inr l => inr (set_timers (delete id (timer_entries_ l)) (next_timer_id_ l) l)
      end
  end.

(** The packet that the control messages describe. *)
Definition with_message (local_port : Z) (p : IncomingPacket) (m : Cmsg) : IncomingPacket :=
  match m with
  | Pktinfo a => mkIncoming (i_data p) (i_remote p) (mkAddress Inet a local_port) (i_ecn p) (gro_segment_size p)
  | Pktinfo6 a => mkIncoming (i_data p) (i_remote p) (mkAddress Inet6 a local_port) (i_ecn p) (gro_segment_size p)
  | Tos v => mkIncoming (i_data p) (i_remote p) (i_local p) (Z.land v 3) (gro_segment_size p)
  | Tclass v => mkIncoming (i_data p) (i_remote p) (i_local p) (Z.land v 3) (gro_segment_size p)
  | UdpGro v => mkIncoming (i_data p) (i_remote p) (i_local p) (i_ecn p) v
  | UdpSegment _ | OtherCmsg => p
  end.

Definition no_address : Address := mkAddress OtherFamily [] 0.

Definition incoming (e : PacketRecvEntry) (remote : Address) (data : bytes) (ms : list Cmsg) : IncomingPacket :=
  foldl (with_message (local_port e)) (mkIncoming data remote (mkAddress OtherFamily [] (local_port e)) 0 0) ms.

(** The multishot request is submitted again. *)
Definition resubmit_recv (fd : Z) (l : t) : t :=
  let '(ok, l) := get_sqe l in
  if negb ok then l
  else
    match packet_recv_cbs_ l !! fd with
    | None => l
    | Some _ =>
        let '(fd_val, l) := get_or_register_file fd l in
        let sqe_fd := if fd_val =? -1 then fd else fd_val in
        prepare (RecvmsgMultishot sqe_fd (negb (fd_val =? -1) && negb (fd_val =? fd))) (encode_user_data RecvMsg fd) l
    end.

Definition process_recv (fd : Z) (c : Cqe) (l : t) : result Failure t :=
  let again l := if negb (more c) && running_ l then inr (resubmit_recv fd l) else inr l in
  if 0 <? res c then
    match packet_recv_cbs_ l !! fd with
    | None => inr (recycle (buf_id c) l)
    | Some e =>
        match received c with
        | None => inr (recycle (buf_id c) l)
        | Some (remote, data, ms) =>
            match (match recv_callback e with Some f => exec (f (incoming e remote data ms)) l | None => inr l end) with
            | inl e => inl e
            | inr l => again (recycle (buf_id c) l)
            end
        end
    end
  else again l.

Definition process_send (idx : Z) (c : Cqe) (l : t) : t :=
  match send_contexts_ l !! idx with
  | None => l
  | Some ctx =>
      let ctx := if notif c then mkSend (in_use ctx) false (payload ctx) (s_remote ctx) (control ctx)
                 else mkSend false (notif_pending ctx) (payload ctx) (s_remote ctx) (control ctx) in
      let free := if negb (in_use ctx) && negb (notif_pending ctx) then free_send_indices_ l ++ [idx] else free_send_indices_ l in
      set_sends (<[idx := ctx]> (send_contexts_ l)) free l
  end.

(** Ids of descriptors and of timers are not told apart. *)
Definition process_cancel (id : Z) (l : t) : t :=
  match timer_entries_ l !! id with
  | Some e => if cancelled e then set_timers (delete id (timer_entries_ l)) (next_timer_id_ l) l else l
  | None => l
  end.

Definition process_cqe (c : Cqe) (l : t) : result Failure t :=
  if c_user_data c =? 0 then inr l
  else
    let '(op, id) := decode_user_data (c_user_data c) in
    match op with
    | Some Poll => process_poll (as_int id) c l
    | Some Timer => process_timer id l
    | Some RecvMsg => process_recv (as_int id) c l
    | Some SendMsg => inr (process_send (as_int id) c l)
    | Some Cancel => inr (process_cancel id l)
    | None => inr l
    end.

Fixpoint process_all (cs : list Cqe) (l : t) : result Failure t :=
  match cs with
  | [] => inr l
  | c :: cs => match process_cqe c l with inl e => inl e | inr l => process_all cs l end
  end.

Definition EINTR : Z := 4.
Definition ETIME : Z := 62.

(** [rv] and the completions are what [io_uring_submit_and_wait] gives. *)
Definition run_once (rv : Z) (cs : list Cqe) (l : t) : result Failure t :=
  let l := set_ring (submit (ring_ l)) l in
  if rv <? 0 then
    if (rv =? - EINTR) || (rv =? - ETIME) then inr l else inl (SystemError (- rv))
  else process_all cs l.

(** [run], for the completions of each turn. *)
Fixpoint run_loop (turns : list (Z * list Cqe)) (l : t) : result Failure t :=
  if running_ l then
    match turns with
    | [] => inr l
    | (rv, cs) :: turns => match run_once rv cs l with inl e => inl e | inr l => run_loop turns l end
    end
  else inr l.

Definition run (turns : list (Z * list Cqe)) (l : t) : result Failure t := run_loop turns (set_running true l).

Definition start_packet_recv (fd : Z) (cb : option (IncomingPacket -> Script)) (local_port : Z) (l : t) : t :=
  let l := set_recvs (<[fd := mkRecv cb local_port]> (packet_recv_cbs_ l)) l in
  let '(fd_val, l) := get_or_register_file fd l in
  let sqe_fd := if fd_val =? -1 then fd else fd_val in
  let '(ok, l) := get_sqe l in
  if negb ok then l
  else
    let l := prepare (RecvmsgMultishot sqe_fd (negb (fd_val =? -1) && negb (fd_val =? fd))) (encode_user_data RecvMsg fd) l in
    set_ring (submit (ring_ l)) l.

(** What the loop sees: a turn, calls of its owner, and other threads, whose
    posts are two steps. *)
Inductive Event :=
| Turn (rv : Z) (cs : list Cqe)
| Calls (s : Script)
| PostPush (task : option Script)
| PostWrite
| Stopped
| StartRecv (fd : Z) (cb : option (IncomingPacket -> Script)) (local_port : Z).

Definition handle (e : Event) (l : t) : result Failure t :=
  match e with
  | Turn rv cs => run_once rv cs l
  | Calls s => exec s l
  | PostPush task => inr (post_push task l)
  | PostWrite => inr (post_write l)
  | Stopped => inr (stop l)
  | StartRecv fd cb local_port => inr (start_packet_recv fd cb local_port l)
  end.

Fixpoint handle_all (es : list Event) (l : t) : result Failure t :=
  match es with
  | [] => inr l
  | e :: es => match handle e l with inl e => inl e | inr l => handle_all es l end
  end.

(** The constructor, with the wake-up descriptor. *)
Definition new_loop (wakeup_fd : Z) : t :=
  let contexts := map Z.of_nat (seq 0 kSendContextsCount) in
  add_fd wakeup_fd 1 WakeUp
    (mk ∅ (replicate kMaxRegisteredFiles (-1)) ∅ 1 [] 0 true false
       (list_to_map (map (fun i => (i, mkSend false false [] no_address [])) contexts)) contexts ∅ [] (mkRing [] [] 0) []).

End Loop.
End EventLoop.
