(* ===== verification/EventLoopProps.v ===== *)
(** * The event loop: properties

    Timers fire once and not after they were cancelled, posted tasks run once
    and in order without a lost wake-up, the contexts of packets in flight are
    not reused; and what goes wrong. *)

From S2P Require Import Prelude CxxString EventLoop.
Import EventLoop.

Module EventLoopProps.

(** ** User data *)

Lemma decode_encode op id : 0 <= id < 2 ^ 56 -> decode_user_data (encode_user_data op id) = (Some op, id).
Proof.
  intros R. unfold decode_user_data, encode_user_data, low56. change 0x00FFFFFFFFFFFFFF with (Z.ones 56).
  rewrite (Z.land_ones id), (Z.mod_small id) by lia. f_equal.
  - rewrite Z.shiftr_lor, Z.shiftr_shiftl_l, (Z.shiftr_div_pow2 id), Z.div_small, Z.lor_0_r by lia. by destruct op.
  - rewrite Z.land_lor_distr_l, !Z.land_ones, Z.shiftl_mul_pow2, Z_mod_mult, Z.mod_small by lia. apply Z.lor_0_l.
Qed.

Section Timers.
Context (takes : nat -> bool).

(** ** What an operation leaves alone *)

(** Whether a timer has an entry, and whether that is cancelled. *)
Definition status (l : t) (id : Z) : option bool := cancelled <$> timer_entries_ l !! id.

(** What the kernel was or will be asked for. *)
Definition requests (l : t) : list Sqe := submitted (ring_ l) ++ sq (ring_ l).

Record same_timers (l l' : t) : Prop := {
  same_requests : forall q, q ∈ requests l -> q ∈ requests l';
  same_status : forall id, status l' id = status l id;
  same_next : next_timer_id_ l' = next_timer_id_ l;
  same_notes : notes l' = notes l
}.

#[export] Instance same_timers_preorder : PreOrder same_timers.
Proof.
  split; [by split|]. intros l1 l2 l3 [A0 A1 A2 A3] [B0 B1 B2 B3].
  split; [intros q X; by apply B0, A0|intros; by rewrite B1, A1|congruence..].
Qed.

Lemma same_submit l : same_timers l (set_ring (submit takes (ring_ l)) l).
Proof.
  split; try done. intros q X. unfold requests, submit in *. cbn. destruct (takes _); cbn; [|done]. by rewrite app_nil_r.
Qed.

Lemma same_sqe l : same_timers l (snd (get_sqe takes l)).
Proof. unfold get_sqe. destruct (_ <? _); [done|apply same_submit]. Qed.

Lemma same_prepare r ud l : same_timers l (prepare r ud l).
Proof. split; try done. intros q X. unfold requests in *. cbn. rewrite app_assoc. by apply elem_of_app; left. Qed.

(** What has no part in timers may change as well. *)
Lemma same_after l l' l'' : same_timers l l' -> ring_ l'' = ring_ l' -> timer_entries_ l'' = timer_entries_ l' ->
  next_timer_id_ l'' = next_timer_id_ l' -> notes l'' = notes l' -> same_timers l l''.
Proof.
  intros S R T N M. etrans; [exact S|]. split; try done; [unfold requests; by rewrite R|unfold status; by rewrite T].
Qed.

Lemma same_register fd l : same_timers l (snd (get_or_register_file fd l)).
Proof. unfold get_or_register_file. by repeat case_match. Qed.

Lemma same_unregister fd l : same_timers l (unregister_file fd l).
Proof. unfold unregister_file. by case_match. Qed.

Lemma same_submit_poll fd mask l : same_timers l (submit_poll takes fd mask l).
Proof.
  unfold submit_poll. pose proof (same_sqe l) as S. destruct (get_sqe takes l) as [[] l1]; [|exact S]. etrans; [exact S|]. eapply same_after; [apply same_prepare|done..].
Qed.

Lemma same_cancel_poll fd l : same_timers l (cancel_poll takes fd l).
Proof.
  unfold cancel_poll. pose proof (same_sqe l) as S. destruct (get_sqe takes l) as [[] l1]; [|exact S]. etrans; [exact S|]. eapply same_after; [apply same_prepare|done..].
Qed.

Lemma same_add_fd fd mask cb l : same_timers l (add_fd takes fd mask cb l).
Proof.
  unfold add_fd. pose proof (same_register fd l) as R. destruct (get_or_register_file fd l) as [i l1].
  etrans; [exact R|]. etrans; [|apply same_submit_poll]. done.
Qed.

Lemma same_modify_fd fd mask l l' : modify_fd takes fd mask l = inr l' -> same_timers l l'.
Proof.
  unfold modify_fd. destruct (fd_entries_ l !! fd) as [e|]; [|done]. intros [= <-]. etrans; [|apply same_submit_poll].
  destruct (poll_active e); [|done]. etrans; [|apply same_cancel_poll]. done.
Qed.

Lemma same_remove_fd fd l : same_timers l (remove_fd takes fd l).
Proof.
  unfold remove_fd. destruct (fd_entries_ l !! fd) as [e|]; [|done]. cbn zeta.
  transitivity (if poll_active e then cancel_poll takes fd l else l).
  - destruct (poll_active e); [apply same_cancel_poll|done].
  - eapply same_after; [apply same_unregister|done..].
Qed.

Lemma same_post task l : same_timers l (post task l).
Proof. unfold post, post_write, post_push. destruct (accepting_tasks_ l) eqn:A; cbn; by rewrite ?A. Qed.

Lemma same_async_send fd pkt l l' : async_send takes fd pkt l = inr l' -> same_timers l l'.
Proof.
  unfold async_send. destruct (last _) as [i|]; [|by intros [= <-]]. destruct (control_messages pkt) as [ms|]; [|done].
  match goal with |- context [get_sqe takes ?l0] => pose proof (same_sqe l0) as S; destruct (get_sqe takes l0) as [[] l1] end;
    cbn [negb snd] in *.
  - pose proof (same_register fd l1) as R. destruct (get_or_register_file fd l1) as [v l2]. intros [= <-].
    etrans; [|etrans; [exact S|etrans; [exact R|apply same_prepare]]]. done.
  - intros [= <-]. eapply (same_after _ l1); [|done..]. etrans; [|exact S]. done.
Qed.

Lemma same_submit_timer id delay l : same_timers l (submit_timer takes id delay l).
Proof.
  unfold submit_timer. pose proof (same_sqe l) as S. destruct (get_sqe takes l) as [[] l1]; [|done]. cbn [negb snd] in *.
  destruct (timer_entries_ l1 !! id) as [e|] eqn:E; [|exact S]. etrans; [exact S|]. etrans; [|apply same_prepare]. 
  split; [done| |done..]. intros i. unfold status. cbn.
  destruct (decide (i = id)) as [->|]; [by rewrite lookup_insert_eq, E|by rewrite lookup_insert_ne].
Qed.

(** ** The invariant *)

Definition added (n : Note) : bool := match n with TimerAdded _ => true | _ => false end.
#[export] Instance Note_eq_dec : EqDecision Note.
Proof. solve_decision. Defined.

Definition adds (ns : list Note) : Z := len (List.filter added ns).
Definition subject (n : Note) : Z := match n with TimerAdded id | TimerCancelled id | TimerRan id => id end.

Lemma adds_app a b : adds (a ++ b) = adds a + adds b.
Proof. unfold adds, len. rewrite List.filter_app, length_app. lia. Qed.

(** The notes about a timer are in this order: it was added, then it ran or was
    cancelled, and it did not run before. *)
Definition chronicle (ns : list Note) : Prop := forall i id, ns !! i = Some (TimerRan id) ->
  TimerAdded id ∈ take i ns /\ TimerCancelled id ∉ take i ns /\ TimerRan id ∉ take i ns.

(** [running] is the timer whose callback runs. *)
Record sound (running : option Z) (l : t) : Prop := {
  sound_next : next_timer_id_ l = 1 + adds (notes l);
  sound_fresh : forall n, n ∈ notes l -> 1 <= subject n < next_timer_id_ l;
  sound_entry : forall id c, status l id = Some c -> TimerAdded id ∈ notes l /\
    if c then TimerCancelled id ∈ notes l
    else TimerCancelled id ∉ notes l /\ (Some id <> running -> TimerRan id ∉ notes l);
  sound_pending : forall id, TimerAdded id ∈ notes l -> TimerRan id ∉ notes l -> TimerCancelled id ∉ notes l ->
    status l id = Some false;
  sound_running : forall id, running = Some id -> TimerRan id ∈ notes l;
  sound_chronicle : chronicle (notes l)
}.

(** As long as the identifiers have not run out. *)
Definition tame (running : option Z) (l : t) : Prop := adds (notes l) < 2 ^ 56 -> sound running l.

Lemma sound_same r l l' : same_timers l l' -> sound r l -> sound r l'.
Proof.
  intros [Q A B C] [S1 S2 S3 S4 S6 S5]. split; rewrite ?B, ?C; try done; intros id; rewrite A; [apply S3|apply S4].
Qed.

Lemma tame_same r l l' : same_timers l l' -> tame r l -> tame r l'.
Proof. intros S I X. rewrite (same_notes _ _ S) in X. by apply (sound_same r l), I. Qed.

(** Every timer was asked for, when the queue can be emptied. *)
Definition asked (l : t) : Prop := (forall n, takes n = true) -> forall id, TimerAdded id ∈ notes l ->
  exists sec nsec, mkSqe (Timeout sec nsec) (encode_user_data Timer id) ∈ requests l.

Lemma asked_grows l l' : (forall id, TimerAdded id ∈ notes l' -> TimerAdded id ∈ notes l) ->
  (forall q, q ∈ requests l -> q ∈ requests l') -> asked l -> asked l'.
Proof. intros N Q A T id X. destruct (A T id (N _ X)) as (s & n & Y). exists s, n. by apply Q. Qed.

Lemma asked_same l l' : same_timers l l' -> asked l -> asked l'.
Proof. intros S. apply asked_grows; [by rewrite (same_notes _ _ S)|apply (same_requests _ _ S)]. Qed.

Lemma asked_note n l : added n = false -> asked l -> asked (note n l).
Proof.
  intros N. apply asked_grows; [|done]. intros id. cbn. rewrite elem_of_app, list_elem_of_singleton. intros [|<-]; done.
Qed.

Lemma room l : (forall n, takes n = true) -> fst (get_sqe takes l) = true.
Proof.
  intros T. unfold get_sqe. destruct (_ <? _); [done|]. unfold submit. by rewrite T.
Qed.

(** The timer asked for has the delay that was given. *)
Lemma add_timer_asks delay cb l : (forall n, takes n = true) ->
  mkSqe (Timeout (Z.max 0 delay / 1000000000) (Z.max 0 delay mod 1000000000))
    (encode_user_data Timer (fst (add_timer takes delay cb l))) ∈ requests (snd (add_timer takes delay cb l)).
Proof.
  intros T. unfold add_timer, submit_timer. cbn [fst snd].
  match goal with |- context [get_sqe takes ?l0] => pose proof (room l0 T) as R; pose proof (same_sqe l0) as S;
    destruct (get_sqe takes l0) as [ok l1] end.
  cbn [fst snd] in *. rewrite R. cbn [negb]. pose proof (same_status _ _ S (next_timer_id_ l)) as St. unfold status in St. cbn in St.
  rewrite lookup_insert_eq in St. destruct (timer_entries_ l1 !! next_timer_id_ l) as [e|]; [|done].
  unfold requests. cbn. rewrite app_assoc. apply elem_of_app. right. apply list_elem_of_singleton.
  destruct (Z.ltb_spec delay 0); [by rewrite Z.max_l by lia|by rewrite Z.max_r by lia].
Qed.

Lemma asked_add delay cb l : asked l -> asked (snd (add_timer takes delay cb l)).
Proof.
  intros A T id X. pose proof (add_timer_asks delay cb l T) as Y.
  pose proof (same_submit_timer (next_timer_id_ l) delay (note (TimerAdded (next_timer_id_ l))
    (set_timers (<[next_timer_id_ l := mkTimer cb false 0 0]> (timer_entries_ l)) (wrap64 (next_timer_id_ l + 1)) l))) as S.
  unfold add_timer in *. cbn [fst snd] in *. rewrite (same_notes _ _ S) in X. cbn in X.
  rewrite elem_of_app, list_elem_of_singleton in X. destruct X as [X|[= ->]]; [|eauto].
  destruct (A T id X) as (s & n & Z). exists s, n. by apply (same_requests _ _ S).
Qed.

Lemma chronicle_app ns n : chronicle ns ->
  (forall id, n = TimerRan id -> TimerAdded id ∈ ns /\ TimerCancelled id ∉ ns /\ TimerRan id ∉ ns) -> chronicle (ns ++ [n]).
Proof.
  intros C N i id X. apply lookup_app_Some in X as [X|[L X]].
  - rewrite take_app_le by (apply lookup_lt_Some in X; lia). by apply C.
  - apply list_lookup_singleton_Some in X as [E ->]. replace i with (length ns) by lia. rewrite take_app_length. by apply N.
Qed.

Lemma status_insert id e (n : gmap Z TimerEntry) (l' : t) : timer_entries_ l' = <[id := e]> n -> forall i,
  status l' i = if decide (i = id) then Some (cancelled e) else cancelled <$> n !! i.
Proof.
  intros E i. unfold status. rewrite E. destruct (decide (i = id)) as [->|]; [by rewrite lookup_insert_eq|by rewrite lookup_insert_ne].
Qed.

Definition inv (running : option Z) (l : t) : Prop := tame running l /\ asked l.

Lemma inv_same r l l' : same_timers l l' -> inv r l -> inv r l'.
Proof. intros S [T A]. split; [by apply (tame_same r l)|by apply (asked_same l)]. Qed.

(** ** Operations on timers *)

Lemma tame_add r delay cb l : tame r l -> tame r (snd (add_timer takes delay cb l)).
Proof.
  intros I. unfold add_timer. cbn [snd]. eapply tame_same; [apply same_submit_timer|]. intros B. cbn in B. rewrite adds_app in B.
  change (adds [TimerAdded (next_timer_id_ l)]) with 1 in B. destruct I as [S1 S2 S3 S4 S6 S5]; [lia|].
  assert (0 <= adds (notes l)) by (unfold adds, len; lia).
  assert (forall n, subject n = next_timer_id_ l -> n ∉ notes l) as F by (intros n E X%S2; lia).
  assert (status l (next_timer_id_ l) = None) as F'.
  { destruct (status l (next_timer_id_ l)) as [c|] eqn:E; [|done]. apply S3 in E as [E _]. by apply F in E. }
  split; cbn.
  - rewrite adds_app, wrap64_small by (unfold in_u64; lia). change (adds [TimerAdded (next_timer_id_ l)]) with 1. lia.
  - intros n. rewrite wrap64_small by (unfold in_u64; lia). rewrite elem_of_app, list_elem_of_singleton.
    intros [X%S2| ->]; cbn; lia.
  - intros id c. erewrite status_insert by reflexivity. destruct (decide (id = next_timer_id_ l)) as [->|N].
    + intros [= <-]. cbn. rewrite !elem_of_app, !list_elem_of_singleton. split; [by right|].
      split; [|intros _]; (intros [X|X]; [by apply F in X|done]).
    + intros X. apply S3 in X as [X1 X2]. destruct c; rewrite !elem_of_app, !list_elem_of_singleton; split; [by left..|by left|].
      destruct X2 as [X2 X3].
      split; [intros [X|X]; done|]. intros R [X|X]; [by apply X3 in R|done].
  - intros id. erewrite status_insert by reflexivity. rewrite !elem_of_app, !list_elem_of_singleton.
    intros X R C. destruct (decide (id = next_timer_id_ l)) as [->|N]; [done|]. apply S4; [|tauto..].
    destruct X as [X|X]; [done|]. congruence.
  - intros i X. apply elem_of_app. left. by apply S6.
  - apply chronicle_app; [done|]. intros id [=].
Qed.

Lemma tame_cancel r id l : tame r l -> tame r (cancel_timer takes id l).
Proof.
  intros I. unfold cancel_timer. destruct (id =? 0); [done|]. destruct (timer_entries_ l !! id) as [e|] eqn:E; [|done].
  match goal with |- context [get_sqe takes ?l0] => assert (tame r l0) as I1 end; cycle 1.
  { match goal with |- context [get_sqe takes ?l0] => pose proof (same_sqe l0) as S; destruct (get_sqe takes l0) as [[] l1] end;
      pose proof (tame_same r _ _ S I1) as J; cbn [snd] in J; [|exact J]. eapply tame_same; [apply same_prepare|exact J]. }
  intros B. cbn in B. rewrite adds_app in B. change (adds [TimerCancelled id]) with 0 in B. destruct I as [S1 S2 S3 S4 S6 S5]; [lia|].
  assert (status l id = Some (cancelled e)) as St by (unfold status; by rewrite E).
  destruct (S3 id _ St) as [A _].
  split; cbn.
  - rewrite adds_app. change (adds [TimerCancelled id]) with 0. lia.
  - intros n. rewrite elem_of_app, list_elem_of_singleton. intros [X%S2| ->]; [done|]. by apply (S2 (TimerAdded id)).
  - intros i c. erewrite status_insert by reflexivity. destruct (decide (i = id)) as [->|N].
    + intros [= <-]. cbn. rewrite !elem_of_app, !list_elem_of_singleton. split; [by left|by right].
    + intros X. apply S3 in X as [X1 X2]. destruct c; rewrite !elem_of_app, !list_elem_of_singleton; split; [by left..|by left|].
      destruct X2 as [X2 X3].
      split; [intros [X|X]; [done|congruence]|]. intros R [X|X]; [by apply X3 in R|done].
  - intros i. erewrite status_insert by reflexivity. rewrite !elem_of_app, !list_elem_of_singleton.
    intros X R C. destruct (decide (i = id)) as [->|N]; [by destruct C; right|]. apply S4; [|tauto..]. by destruct X as [X|X].
  - intros i X. apply elem_of_app. left. by apply S6.
  - apply chronicle_app; [done|]. intros i [=].
Qed.

Lemma inv_add r delay cb l : inv r l -> inv r (snd (add_timer takes delay cb l)).
Proof. intros [T A]. split; [by apply tame_add|by apply asked_add]. Qed.

Lemma inv_cancel r id l : inv r l -> inv r (cancel_timer takes id l).
Proof.
  intros [T A]. split; [by apply tame_cancel|]. unfold cancel_timer. destruct (id =? 0); [done|].
  destruct (timer_entries_ l !! id) as [e|] eqn:E; [|done].
  match goal with |- context [get_sqe takes ?l0] => assert (asked l0) as J by (by apply asked_note);
    pose proof (same_sqe l0) as S; destruct (get_sqe takes l0) as [[] l1] end.
  - eapply asked_same; [|exact J]. etrans; [exact S|apply same_prepare].
  - eapply asked_same; [exact S|exact J].
Qed.

Lemma inv_exec r s l l' : exec takes s l = inr l' -> inv r l -> inv r l'.
Proof.
  revert l. induction s as [|fd mask cb k IH|fd mask k IH|fd k IH|delay cb k IH|id k IH|task k IH|fd pkt k IH|k IH|];
    intros l X I; cbn in X.
  - by injection X as <-.
  - eapply IH; [exact X|]. eapply inv_same; [apply same_add_fd|done].
  - destruct (modify_fd takes fd mask l) as [|l1] eqn:Y; [done|]. eapply IH; [exact X|]. eapply inv_same; [by eapply same_modify_fd|done].
  - eapply IH; [exact X|]. eapply inv_same; [apply same_remove_fd|done].
  - eapply IH; [exact X|]. exact (inv_add r delay cb l I).
  - eapply IH; [exact X|]. by apply inv_cancel.
  - eapply IH; [exact X|]. eapply inv_same; [apply same_post|done].
  - destruct (async_send takes fd pkt l) as [|l1] eqn:Y; [done|]. eapply IH; [exact X|]. eapply inv_same; [by eapply same_async_send|done].
  - eapply IH; [exact X|]. eapply inv_same; [|exact I]. done.
  - done.
Qed.

Lemma inv_run_tasks r pending l l' : run_tasks takes pending l = inr l' -> inv r l -> inv r l'.
Proof.
  revert l. induction pending as [|[s|] pending IH]; intros l X I; cbn in X; [by injection X as <-| |by eapply IH].
  destruct (exec takes s l) as [|l1] eqn:Y; [done|]. eapply IH; [exact X|]. by eapply inv_exec.
Qed.

(** ** Completions *)

(** A step keeps the invariant whenever it goes well. *)
Ltac step I := eapply inv_same; [|exact I].

Lemma inv_run_callback r cb mask l l' : run_callback takes cb mask l = inr l' -> inv r l -> inv r l'.
Proof.
  intros X I. destruct cb as [|[f|]]; cbn in X; [|by eapply inv_exec|by injection X as <-].
  eapply inv_run_tasks; [exact X|]. by step I.
Qed.

Lemma inv_poll r fd c l l' : process_poll takes fd c l = inr l' -> inv r l -> inv r l'.
Proof.
  intros X I. unfold process_poll in X. destruct (match _ with Some _ => _ | None => inr l end) as [|l1] eqn:Y; [done|].
  assert (inv r l1) as J.
  { destruct (fd_entries_ l !! fd) as [e|]; [|by injection Y as <-]. destruct (res c <? 0); [by injection Y as <-|].
    by eapply inv_run_callback. }
  destruct (more c); [by injection X as <-|]. destruct (fd_entries_ l1 !! fd) as [e|]; injection X as <-; [|done].
  step J. etrans; [|apply same_submit_poll]. done.
Qed.

Lemma tame_delete r id l : r = None \/ r = Some id -> tame r l ->
  (sound r l -> TimerRan id ∈ notes l \/ TimerCancelled id ∈ notes l) ->
  tame None (set_timers (delete id (timer_entries_ l)) (next_timer_id_ l) l).
Proof.
  intros R I E B. specialize (I B). specialize (E I). destruct I as [S1 S2 S3 S4 S6 S5].
  assert (forall i, status (set_timers (delete id (timer_entries_ l)) (next_timer_id_ l) l) i =
    if decide (i = id) then None else status l i) as D.
  { intros i. unfold status. cbn. destruct (decide (i = id)) as [->|]; [by rewrite lookup_delete_eq|by rewrite lookup_delete_ne]. }
  split; try done; intros i; rewrite D; destruct (decide (i = id)) as [->|N]; try done.
  - intros c X. apply S3 in X as [X1 X2]. split; [done|]. destruct c; [done|]. destruct X2 as [X2 X3]. split; [done|]. intros _.
    apply X3. destruct R as [-> | ->]; congruence.
  - cbn. tauto.
  - apply S4.
Qed.

Lemma tame_ran id l : status l id = Some false -> tame None l -> tame (Some id) (note (TimerRan id) l).
Proof.
  intros St I B. cbn in B. rewrite adds_app in B. change (adds [TimerRan id]) with 0 in B. destruct I as [S1 S2 S3 S4 S6 S5]; [lia|].
  destruct (S3 _ _ St) as [A [A1 A2]]. specialize (A2 ltac:(done)). split; cbn.
  - rewrite adds_app. change (adds [TimerRan id]) with 0. lia.
  - intros n. rewrite elem_of_app, list_elem_of_singleton. intros [X%S2| ->]; [done|]. by apply (S2 (TimerAdded id)).
  - intros i c X. apply S3 in X as [X1 X2]. destruct c; rewrite !elem_of_app, !list_elem_of_singleton; split; [by left..|by left|].
    destruct X2 as [X2 X3]. split; [intros [X|X]; done|]. intros R [X|X]; [by apply X3 in X|congruence].
  - intros i. rewrite !elem_of_app, !list_elem_of_singleton. intros X R C. apply S4; [|tauto..]. by destruct X as [X|X].
  - intros i [= <-]. apply elem_of_app. right. by apply list_elem_of_singleton.
  - apply chronicle_app; [done|]. intros i [= <-]. done.
Qed.

Lemma inv_delete r id l : r = None \/ r = Some id -> inv r l ->
  (sound r l -> TimerRan id ∈ notes l \/ TimerCancelled id ∈ notes l) ->
  inv None (set_timers (delete id (timer_entries_ l)) (next_timer_id_ l) l).
Proof. intros R [T A] E. split; [by apply (tame_delete r)|done]. Qed.

Lemma inv_ran id l : status l id = Some false -> inv None l -> inv (Some id) (note (TimerRan id) l).
Proof. intros St [T A]. split; [by apply tame_ran|by apply asked_note]. Qed.

Lemma inv_timer id l l' : process_timer takes id l = inr l' -> inv None l -> inv None l'.
Proof.
  unfold process_timer. destruct (timer_entries_ l !! id) as [e|] eqn:E; [|by intros [= <-]].
  assert (status l id = Some (cancelled e)) as St by (unfold status; by rewrite E).
  intros X I. destruct (cancelled e) eqn:Ca.
  { injection X as <-. apply (inv_delete None); [by left|done|]. intros S. right. by apply (sound_entry _ _ S) in St as [_ St]. }
  assert (inv (Some id) (note (TimerRan id) l)) as J by (by apply inv_ran).
  destruct (match timer_callback e with Some s => _ | None => _ end) as [|l1] eqn:Y; [done|]. injection X as <-.
  assert (inv (Some id) l1) as K.
  { destruct (timer_callback e) as [s|]; [by eapply inv_exec|by injection Y as <-]. }
  apply (inv_delete (Some id)); [by right|done|]. intros S. left. by apply (sound_running _ _ S).
Qed.

Lemma inv_cancelled id l : inv None l -> inv None (process_cancel id l).
Proof.
  intros I. unfold process_cancel. destruct (timer_entries_ l !! id) as [e|] eqn:E; [|done]. destruct (cancelled e) eqn:Ca; [|done].
  apply (inv_delete None); [by left|done|]. intros S. right.
  assert (status l id = Some true) as St by (unfold status; by rewrite E; cbn; rewrite Ca). by apply (sound_entry _ _ S) in St as [_ St].
Qed.

Lemma same_resubmit fd l : same_timers l (resubmit_recv takes fd l).
Proof.
  unfold resubmit_recv. pose proof (same_sqe l) as S. destruct (get_sqe takes l) as [[] l1]; [|done]. cbn [negb snd] in *.
  destruct (packet_recv_cbs_ l1 !! fd); [|done]. pose proof (same_register fd l1) as R.
  destruct (get_or_register_file fd l1) as [v l2]. etrans; [exact S|]. etrans; [exact R|apply same_prepare].
Qed.

Lemma inv_recv r fd c l l' : process_recv takes fd c l = inr l' -> inv r l -> inv r l'.
Proof.
  intros X I. unfold process_recv in X.
  assert (forall l1, inv r l1 -> (if negb (more c) && running_ l1 then inr (resubmit_recv takes fd l1) else inr l1) = @inr Failure _ l' ->
    inv r l') as A.
  { intros l1 J Y. destruct (negb (more c) && running_ l1); injection Y as <-; [|done]. step J. apply same_resubmit. }
  destruct (0 <? res c); [|by apply (A l)].
  destruct (packet_recv_cbs_ l !! fd) as [e|]; [|injection X as <-; by step I].
  destruct (received c) as [[[remote data] ms]|]; [|injection X as <-; by step I].
  destruct (match recv_callback e with Some _ => _ | None => _ end) as [|l1] eqn:Y; [done|].
  assert (inv r l1) as J by (destruct (recv_callback e); [by eapply inv_exec|by injection Y as <-]).
  apply (A (recycle (buf_id c) l1)); [by step J|done].
Qed.

Lemma inv_send r i c l : inv r l -> inv r (process_send i c l).
Proof. intros I. unfold process_send. destruct (send_contexts_ l !! i); [by step I|done]. Qed.

Lemma inv_cqe c l l' : process_cqe takes c l = inr l' -> inv None l -> inv None l'.
Proof.
  unfold process_cqe. destruct (_ =? 0); [by intros [= <-]|]. destruct (decode_user_data _) as [[[]|] id]; cbn.
  - apply inv_poll.
  - apply inv_timer.
  - intros [= <-]. apply inv_cancelled.
  - apply inv_recv.
  - intros [= <-]. apply inv_send.
  - by intros [= <-].
Qed.

Lemma inv_all cs l l' : process_all takes cs l = inr l' -> inv None l -> inv None l'.
Proof.
  revert l. induction cs as [|c cs IH]; intros l X I; cbn in X; [by injection X as <-|].
  destruct (process_cqe takes c l) as [|l1] eqn:Y; [done|]. eapply IH; [exact X|]. by eapply inv_cqe.
Qed.

Lemma inv_handle e l l' : handle takes e l = inr l' -> inv None l -> inv None l'.
Proof.
  intros X I. destruct e as [rv cs|s|task| | |fd cb p]; cbn in X.
  - unfold run_once in X. assert (inv None (set_ring (submit takes (ring_ l)) l)) as J by (step I; apply same_submit).
    destruct (rv <? 0); [|by eapply inv_all]. destruct (_ || _); [|done]. injection X as <-. done.
  - by eapply inv_exec.
  - injection X as <-. step I. unfold post_push. by destruct (accepting_tasks_ l).
  - injection X as <-. step I. unfold post_write. by destruct (accepting_tasks_ l).
  - injection X as <-. by step I.
  - injection X as <-. unfold start_packet_recv.
    match goal with |- context [get_or_register_file fd ?l0] => pose proof (same_register fd l0) as R;
      destruct (get_or_register_file fd l0) as [v l1] end.
    pose proof (same_sqe l1) as S. destruct (get_sqe takes l1) as [[] l2]; cbn [negb snd] in *;
      step I; (etrans; [|etrans; [exact R|]]); [done| |done|exact S].
    etrans; [exact S|]. etrans; [apply same_prepare|apply same_submit].
Qed.

Lemma inv_handle_all es l l' : handle_all takes es l = inr l' -> inv None l -> inv None l'.
Proof.
  revert l. induction es as [|e es IH]; intros l X I; cbn in X; [by injection X as <-|].
  destruct (handle takes e l) as [|l1] eqn:Y; [done|]. eapply IH; [exact X|]. by eapply inv_handle.
Qed.

Lemma inv_new fd : inv None (new_loop takes fd).
Proof.
  unfold new_loop. eapply inv_same; [apply same_add_fd|]. split; [|intros _ id X; by apply not_elem_of_nil in X].
  intros _. split; cbn; try done; intros x X; by apply not_elem_of_nil in X.
Qed.

(** ** Timers fire once *)

Lemma timer_dispatch c id l : 0 <= id < 2 ^ 56 -> c_user_data c = encode_user_data Timer id ->
  process_cqe takes c l = process_timer takes id l.
Proof.
  intros R E. unfold process_cqe. rewrite E, decode_encode by done.
  replace (encode_user_data Timer id =? 0) with false; [done|]. symmetry. apply Z.eqb_neq. intros X.
  pose proof (decode_encode Timer id R) as D. rewrite X in D. by vm_compute in D.
Qed.

(** What is left to happen to a timer, once its completion arrives: its callback
    runs when it is pending, and nothing when it ran or was cancelled. *)
Definition completes (c : Cqe) (id : Z) (l : t) : Prop :=
  if decide (TimerRan id ∈ notes l \/ TimerCancelled id ∈ notes l)
  then exists l', process_cqe takes c l = inr l' /\ notes l' = notes l
  else exists e, timer_entries_ l !! id = Some e /\
    process_cqe takes c l =
      match (match timer_callback e with
             | Some s => exec takes s (note (TimerRan id) l)
             | None => inr (note (TimerRan id) l)
             end) with
      | inl x => inl x
      | inr l1 => inr (set_timers (delete id (timer_entries_ l1)) (next_timer_id_ l1) l1)
      end.

Lemma sound_completes c id l : sound None l -> adds (notes l) < 2 ^ 56 -> TimerAdded id ∈ notes l ->
  c_user_data c = encode_user_data Timer id -> completes c id l.
Proof.
  intros S B A E. pose proof (sound_fresh _ _ S _ A) as F. cbn in F. rewrite (sound_next _ _ S) in F.
  unfold completes. rewrite (timer_dispatch c id l) by (done || lia). unfold process_timer.
  destruct (decide _) as [X|X].
  - destruct (timer_entries_ l !! id) as [e|] eqn:T; [|by exists l]. destruct (cancelled e) eqn:Ca; [by eexists|]. exfalso.
    assert (status l id = Some false) as St by (unfold status; rewrite T; cbn; by rewrite Ca).
    apply (sound_entry _ _ S) in St as [_ [St1 St2]]. destruct X as [X|X]; [|done]. by apply St2 in X.
  - assert (status l id = Some false) as St by (apply (sound_pending _ _ S); [done|tauto..]). unfold status in St.
    destruct (timer_entries_ l !! id) as [e|] eqn:T; [|done]. cbn in St. injection St as St. rewrite St. by exists e.
Qed.

(** [C34] Timers fire once.  Whatever the calls, completions, submissions and
    posts are, and with fewer than [2 ^ 56] timers: a timer that ran was added
    before, was not cancelled before and had not run before; the completion of
    a timer that neither ran nor was cancelled runs its callback and drops its
    entry, and that of any other runs nothing; and when submissions empty the
    queue every timer was asked for. *)
Theorem timers_fire_once es fd l : handle_all takes es (new_loop takes fd) = inr l -> adds (notes l) < 2 ^ 56 ->
  chronicle (notes l) /\
  (forall id c, TimerAdded id ∈ notes l -> c_user_data c = encode_user_data Timer id -> completes c id l) /\
  asked l.
Proof.
  intros X B. destruct (inv_handle_all es _ l X (inv_new fd)) as [T A]. specialize (T B).
  split; [apply (sound_chronicle _ _ T)|split; [|done]]. intros id c. by apply sound_completes.
Qed.

End Timers.
End EventLoopProps.
