(* ===== verification/EventLoopTasks.v ===== *)
(** * The event loop: posted tasks

    [post], [stop] and [run_posted_tasks] of [core/io_uring_event_loop.cpp] as
    steps of the threads that take part: a poster pushes its task under the
    lock and writes to the wake-up descriptor afterwards; the loop reads the
    descriptor, swaps the queue under the lock and runs the tasks. *)

From S2P Require Import Prelude CxxString EventLoop.
Import EventLoop.

Module EventLoopTasks.

Section Tasks.
Context (takes : nat -> bool).

(** ** What the calls of a callback do to the queue *)

Record same_tasks (l l' : t) : Prop := {
  same_posted : posted_tasks_ l' = posted_tasks_ l;
  same_wakeups : wakeups l' = wakeups l;
  same_accepting : accepting_tasks_ l' = accepting_tasks_ l;
  same_running : running_ l' = running_ l
}.

#[export] Instance same_tasks_preorder : PreOrder same_tasks.
Proof. split; [by split|]. intros l1 l2 l3 [] []. split; congruence. Qed.

Lemma tasks_sqe l ok l' : get_sqe takes l = (ok, l') -> same_tasks l l'.
Proof. unfold get_sqe. destruct (_ <? _); by intros [= <- <-]. Qed.

Lemma tasks_register fd l v l' : get_or_register_file fd l = (v, l') -> same_tasks l l'.
Proof. unfold get_or_register_file. intros X. repeat case_match; by injection X as <- <-. Qed.

Lemma tasks_submit_poll fd mask l : same_tasks l (submit_poll takes fd mask l).
Proof. unfold submit_poll. destruct (get_sqe takes l) as [ok l1] eqn:E. apply tasks_sqe in E. etrans; [exact E|]. by destruct ok. Qed.

Lemma tasks_cancel_poll fd l : same_tasks l (cancel_poll takes fd l).
Proof. unfold cancel_poll. destruct (get_sqe takes l) as [ok l1] eqn:E. apply tasks_sqe in E. etrans; [exact E|]. by destruct ok. Qed.

Lemma tasks_add_fd fd mask cb l : same_tasks l (add_fd takes fd mask cb l).
Proof.
  unfold add_fd. destruct (get_or_register_file fd l) as [v l1] eqn:E. apply tasks_register in E. etrans; [exact E|].
  etrans; [|apply tasks_submit_poll]. done.
Qed.

Lemma tasks_modify_fd fd mask l l' : modify_fd takes fd mask l = inr l' -> same_tasks l l'.
Proof.
  unfold modify_fd. destruct (fd_entries_ l !! fd) as [e|]; [|done]. intros [= <-]. etrans; [|apply tasks_submit_poll].
  destruct (poll_active e); [|done]. etrans; [|apply tasks_cancel_poll]. done.
Qed.

Lemma tasks_remove_fd fd l : same_tasks l (remove_fd takes fd l).
Proof.
  unfold remove_fd, unregister_file. destruct (fd_entries_ l !! fd) as [e|]; [|done]. cbn zeta.
  transitivity (if poll_active e then cancel_poll takes fd l else l); [destruct (poll_active e); [apply tasks_cancel_poll|done]|].
  by destruct (index_of _ _).
Qed.

Lemma tasks_add_timer delay cb l : same_tasks l (snd (add_timer takes delay cb l)).
Proof.
  unfold add_timer, submit_timer. cbn [snd]. destruct (get_sqe takes _) as [ok l1] eqn:E. apply tasks_sqe in E.
  etrans; [|etrans; [exact E|]]; [done|]. destruct ok; [|done]. cbn. by destruct (timer_entries_ l1 !! _).
Qed.

Lemma tasks_cancel_timer id l : same_tasks l (cancel_timer takes id l).
Proof.
  unfold cancel_timer. destruct (id =? 0); [done|]. destruct (timer_entries_ l !! id) as [e|]; [|done].
  destruct (get_sqe takes _) as [ok l1] eqn:E. apply tasks_sqe in E. etrans; [|etrans; [exact E|]]; [done|]. by destruct ok.
Qed.

Lemma tasks_async_send fd pkt l l' : async_send takes fd pkt l = inr l' -> same_tasks l l'.
Proof.
  unfold async_send. destruct (last _) as [i|]; [|by intros [= <-]]. destruct (control_messages pkt) as [ms|]; [|done].
  destruct (get_sqe takes _) as [ok l1] eqn:E. apply tasks_sqe in E. destruct ok; cbn [negb].
  - destruct (get_or_register_file fd l1) as [v l2] eqn:R. apply tasks_register in R. intros [= <-].
    transitivity l2; [|done]. etrans; [|etrans; [exact E|exact R]]. done.
  - intros [= <-]. transitivity l1; [|done]. etrans; [|exact E]. done.
Qed.

(** Tasks are appended, and the descriptor has been written when there are any. *)
Record posts (l l' : t) (new : list (option Script)) : Prop := {
  posts_queue : posted_tasks_ l' = posted_tasks_ l ++ new;
  posts_wakeups : wakeups l <= wakeups l';
  posts_wake : new <> [] -> wakeups l < wakeups l';
  posts_accepting : accepting_tasks_ l' = accepting_tasks_ l;
  posts_running : running_ l' = true -> running_ l = true
}.

Lemma posts_nil l l' : same_tasks l l' -> posts l l' [].
Proof. intros [A B C D]. split; [by rewrite app_nil_r|lia|done|done|by rewrite D]. Qed.

Lemma posts_trans l1 l2 l3 a b : posts l1 l2 a -> posts l2 l3 b -> posts l1 l3 (a ++ b).
Proof.
  intros [A1 A2 A3 A4 A5] [B1 B2 B3 B4 B5]. split; [by rewrite B1, A1, app_assoc|lia| |congruence|by auto].
  intros N. destruct a; [apply B3 in N; lia|]. specialize (A3 ltac:(done)). lia.
Qed.

Lemma posts_post task l : posts l (post task l) (if accepting_tasks_ l then [task] else []).
Proof.
  unfold post, post_push, post_write. destruct (accepting_tasks_ l) eqn:A; cbn; rewrite A; [|by apply posts_nil].
  split; cbn; [done|lia|lia|by rewrite A|done].
Qed.

(** First [l1], then the rest. *)
Lemma posts_then l l1 l2 : same_tasks l l1 -> (exists new, posts l1 l2 new) -> exists new, posts l l2 new.
Proof. intros S [new P]. exists new. exact (posts_trans _ _ _ [] new (posts_nil _ _ S) P). Qed.

Lemma exec_posts s l l' : exec takes s l = inr l' -> exists new, posts l l' new.
Proof.
  revert l. induction s as [|fd mask cb k IH|fd mask k IH|fd k IH|delay cb k IH|id k IH|task k IH|fd pkt k IH|k IH|];
    intros l X; cbn in X.
  - injection X as <-. exists []. by apply posts_nil.
  - eapply posts_then; [apply tasks_add_fd|by apply IH].
  - destruct (modify_fd takes fd mask l) as [|l1] eqn:Y; [done|]. eapply posts_then; [by eapply tasks_modify_fd|by apply IH].
  - eapply posts_then; [apply tasks_remove_fd|by apply IH].
  - eapply posts_then; [apply (tasks_add_timer delay cb)|by eapply IH].
  - eapply posts_then; [apply tasks_cancel_timer|by apply IH].
  - apply IH in X as [new P]. eexists. by eapply posts_trans; [apply posts_post|].
  - destruct (async_send takes fd pkt l) as [|l1] eqn:Y; [done|]. eapply posts_then; [by eapply tasks_async_send|by apply IH].
  - apply IH in X as [new P]. exists new. apply (posts_trans l (stop l) l' [] new); [|done].
    split; cbn; [by rewrite app_nil_r|lia|done|done|done].
  - done.
Qed.

(** ** The threads *)

(** What the thread of the loop is doing: it is not inside [run], it tests
    [running_], it waits in [run_once] for completions, it goes through them
    ([due]: with one of the wake-up descriptor still to come), it is about to
    take the queue, or it runs what it took. *)
Inductive Phase := Stopped | Top | Waiting | Idle (due : bool) | Drained | Running (pending : list (option Script)).

Record Sys := mkSys {
  loop : t;
  writers : nat;                       (** threads that have pushed and not yet written *)
  phase : Phase;
  posted : list (option Script);       (** every task that was accepted *)
  executed : list (option Script)
}.

Inductive Label :=
| Push (task : option Script)
| Write
| Stop
| Enter                                (** [run] is called *)
| Check
| Interrupted                          (** the wait fails with [EINTR] or [ETIME] *)
| Return                               (** the wait ends with completions *)
| Call (s : Script)                    (** another callback *)
| Wake                                 (** the descriptor is read until it is 0 *)
| Swap
| Run
| Finish
| EndTurn.

(** What a callback has posted. *)
Definition newly (l l' : t) : list (option Script) := drop (length (posted_tasks_ l)) (posted_tasks_ l').

Definition run_task (task : option Script) (l : t) : result Failure t :=
  match task with Some s => exec takes s l | None => inr l end.

(** When the wait ends and the descriptor is readable, its completion is among
    those that this turn goes through; it may also arrive during the turn, or
    once more for writes that were already read. *)
Definition step (a : Label) (s : Sys) : option Sys :=
  match a, phase s with
  | Push task, p =>
      if accepting_tasks_ (loop s)
      then Some (mkSys (post_push task (loop s)) (S (writers s)) p (posted s ++ [task]) (executed s)) else None
  | Write, p =>
      match writers s with O => None | S n => Some (mkSys (post_write (loop s)) n p (posted s) (executed s)) end
  | Stop, p => Some (mkSys (stop (loop s)) (writers s) p (posted s) (executed s))
  | Enter, Stopped => Some (mkSys (set_running true (loop s)) (writers s) Top (posted s) (executed s))
  | Check, Top => Some (mkSys (loop s) (writers s) (if running_ (loop s) then Waiting else Stopped) (posted s) (executed s))
  | Interrupted, Waiting => Some (mkSys (loop s) (writers s) Top (posted s) (executed s))
  | Return, Waiting => Some (mkSys (loop s) (writers s) (Idle (0 <? wakeups (loop s))) (posted s) (executed s))
  | Call c, Idle due =>
      match exec takes c (loop s) with
      | inl _ => None
      | inr l => Some (mkSys l (writers s) (Idle due) (posted s ++ newly (loop s) l) (executed s))
      end
  | Wake, Idle _ =>
      Some (mkSys (set_tasks (posted_tasks_ (loop s)) 0 (loop s)) (writers s) Drained (posted s) (executed s))
  | Swap, Drained =>
      Some (mkSys (set_tasks [] (wakeups (loop s)) (loop s)) (writers s) (Running (posted_tasks_ (loop s))) (posted s) (executed s))
  | Run, Running (task :: pending) =>
      match run_task task (loop s) with
      | inl _ => None
      | inr l => Some (mkSys l (writers s) (Running pending) (posted s ++ newly (loop s) l) (executed s ++ [task]))
      end
  | Finish, Running [] => Some (mkSys (loop s) (writers s) (Idle false) (posted s) (executed s))
  | EndTurn, Idle false => Some (mkSys (loop s) (writers s) Top (posted s) (executed s))
  | _, _ => None
  end.

Fixpoint steps (as_ : list Label) (s : Sys) : option Sys :=
  match as_ with [] => Some s | a :: as_ => s' ← step a s; steps as_ s' end.

Definition start (fd : Z) : Sys := mkSys (new_loop takes fd) 0 Stopped [] [].

(** ** Every task once and in order, and no wake-up is lost *)

Definition pending (p : Phase) : list (option Script) := match p with Running q => q | _ => [] end.

Record sound_tasks (s : Sys) : Prop := {
  sound_order : posted s = executed s ++ pending (phase s) ++ posted_tasks_ (loop s);
  sound_wake : posted_tasks_ (loop s) <> [] -> 0 < wakeups (loop s) \/ (0 < writers s)%nat \/ phase s = Drained;
  sound_stop : phase s = Waiting -> running_ (loop s) = false -> 0 < wakeups (loop s);
  sound_wakeups : 0 <= wakeups (loop s);
  sound_accepting : accepting_tasks_ (loop s) = true
}.

Lemma sound_start fd : sound_tasks (start fd).
Proof. destruct (tasks_add_fd fd 1 WakeUp (mk ∅ (replicate kMaxRegisteredFiles (-1)) ∅ 1 [] 0 true false
       (list_to_map (map (fun i => (i, mkSend false false [] no_address [])) (map Z.of_nat (seq 0 kSendContextsCount))))
       (map Z.of_nat (seq 0 kSendContextsCount)) ∅ [] (mkRing [] [] 0) [])) as [A B C D].
  split; unfold start, new_loop; cbn [loop posted executed phase pending app].
  - by rewrite A.
  - by rewrite A.
  - done.
  - by rewrite B.
  - by rewrite C.
Qed.

Lemma newly_posts l l' new : posts l l' new -> newly l l' = new.
Proof. intros P. unfold newly. by rewrite (posts_queue _ _ _ P), drop_app_length. Qed.

Lemma run_task_posts task l l' : run_task task l = inr l' -> exists new, posts l l' new.
Proof. destruct task as [s|]; cbn; [apply exec_posts|]. intros [= <-]. exists []. by apply posts_nil. Qed.

(** A callback keeps what is posted in order. *)
Lemma sound_call s l' p new : sound_tasks s -> posts (loop s) l' new ->
  forall e, executed s ++ pending (phase s) = e ++ pending p -> phase s <> Drained -> p <> Waiting ->
  sound_tasks (mkSys l' (writers s) p (posted s ++ newly (loop s) l') e).
Proof.
  intros [S1 S2 S3 S4 S5] P e E N Np. rewrite (newly_posts _ _ _ P). destruct P as [P1 P2 P3 P4 P5]. split; cbn.
  - by rewrite P1, S1, !app_assoc, E.
  - intros X. destruct new as [|n new].
    + rewrite app_nil_r in P1. rewrite P1 in X. destruct (S2 X) as [Y|[Y|Y]]; [left; lia|by right; left|done].
    + left. specialize (P3 ltac:(done)). lia.
  - done.
  - lia.
  - by rewrite P4.
Qed.

(** A step of the loop that calls nothing and does not take the queue. *)
Lemma sound_move s p r : sound_tasks s -> phase s <> Drained -> pending p = pending (phase s) ->
  (p = Waiting -> r = false -> 0 < wakeups (loop s)) ->
  sound_tasks (mkSys (set_running r (loop s)) (writers s) p (posted s) (executed s)).
Proof.
  intros [S1 S2 S3 S4 S5] N E W. split; cbn; [by rewrite E| |done|done|done].
  intros X. destruct (S2 X) as [Y|[Y|Y]]; [by left|by right; left|done].
Qed.

Lemma set_running_same l : set_running (running_ l) l = l.
Proof. by destruct l. Qed.

Ltac sound_moves s := match goal with S : sound_tasks s |- sound_tasks (mkSys _ _ ?p _ _) =>
  pose proof (sound_move s p (running_ (loop s)) S) as Mv; rewrite set_running_same in Mv; apply Mv end.

Lemma sound_step a s s' : step a s = Some s' -> sound_tasks s -> sound_tasks s'.
Proof.
  intros X S. pose proof S as [S1 S2 S3 S4 S5]. destruct a as [task| | | | | | |c| | | | |]; cbn in X.
  - unfold post_push in X. rewrite S5 in X. injection X as <-. split; cbn; [by rewrite S1, <- !app_assoc|lia|done|done|done].
  - destruct (writers s) as [|n]; [done|]. unfold post_write in X. rewrite S5 in X. injection X as <-.
    split; cbn; [done|lia|lia|lia|done].
  - injection X as <-. split; cbn; [done|lia|lia|lia|done].
  - destruct (phase s) eqn:Ph; try done. injection X as <-. by apply sound_move; rewrite ?Ph.
  - destruct (phase s) eqn:Ph; try done. injection X as <-.
    sound_moves s; rewrite ?Ph; [done|by destruct (running_ _)|by destruct (running_ _)].
  - destruct (phase s) eqn:Ph; try done. injection X as <-. by sound_moves s; rewrite ?Ph.
  - destruct (phase s) eqn:Ph; try done. injection X as <-. by sound_moves s; rewrite ?Ph.
  - destruct (phase s) eqn:Ph; try done. destruct (exec takes c (loop s)) as [|l] eqn:Y; [done|]. injection X as <-.
    apply exec_posts in Y as [new P]. eapply sound_call; [done|exact P|by rewrite Ph|by rewrite Ph|done].
  - destruct (phase s) eqn:Ph; try done. injection X as <-. split; cbn; [done|by right; right|done|done|done].
  - destruct (phase s) eqn:Ph; try done. injection X as <-. split; cbn; [by rewrite app_nil_r, S1|done..].
  - destruct (phase s) as [| | | | |[|task q]] eqn:Ph; try done. destruct (run_task task (loop s)) as [|l] eqn:Y; [done|]. injection X as <-.
    apply run_task_posts in Y as [new P]. eapply sound_call; [done|exact P|rewrite Ph; cbn; by rewrite <- app_assoc|by rewrite Ph|done].
  - destruct (phase s) as [| | | | |[|task q]] eqn:Ph; try done. injection X as <-. by sound_moves s; rewrite ?Ph.
  - destruct (phase s) as [| | |[]| |] eqn:Ph; try done. injection X as <-. by sound_moves s; rewrite ?Ph.
Qed.

Lemma sound_steps as_ s s' : steps as_ s = Some s' -> sound_tasks s -> sound_tasks s'.
Proof.
  revert s. induction as_ as [|a as_ IH]; intros s X S; cbn in X; [by injection X as <-|].
  apply bind_Some in X as (s1 & Y & X). eapply IH; [exact X|]. by eapply sound_step.
Qed.

Lemma steps_app a b s : steps (a ++ b) s = s' ← steps a s; steps b s'.
Proof. revert s. induction a as [|x a IH]; intros s; cbn; [done|]. destruct (step x s); cbn; [apply IH|done]. Qed.

Lemma step_grows a s s' : step a s = Some s' -> posted s `prefix_of` posted s'.
Proof.
  intros X. destruct a; cbn in X; repeat (case_match; try done); injection X as <-; cbn; (done || by apply prefix_app_r).
Qed.

(** ** A turn runs what was posted before it *)

(** [T] has been run, or the turn is still to take the queue that has it. *)
Definition ran (T : list (option Script)) (p : Phase) (done : list (option Script)) : Prop :=
  match p with
  | Idle true | Drained => True
  | Running q => T `prefix_of` done ++ q
  | _ => T `prefix_of` done
  end.
Definition covers (T : list (option Script)) (s : Sys) : Prop := T `prefix_of` posted s /\ ran T (phase s) (executed s).

Lemma covers_step T a s s' : step a s = Some s' -> sound_tasks s -> covers T s -> covers T s'.
Proof.
  intros X S [G C]. pose proof (step_grows _ _ _ X) as G'. split; [by etrans|]. clear G'. destruct (phase s) as [| | |due| |q] eqn:Ph;
    destruct a; cbn in X; rewrite Ph in X; cbn in X; repeat (case_match; try done); simplify_eq; cbn [phase executed]; rewrite ?Ph; try done; cbn [ran] in *.
  - by destruct (0 <? wakeups (loop s)).
  - pose proof (sound_order _ S) as E. rewrite Ph in E. cbn in E. by rewrite <- E.
  - by rewrite <- app_assoc.
  - by rewrite app_nil_r in C.
Qed.

Lemma covers_steps T as_ s s' : steps as_ s = Some s' -> sound_tasks s -> covers T s -> covers T s'.
Proof.
  revert s. induction as_ as [|a as_ IH]; intros s X S C; cbn in X; [by injection X as <-|].
  apply bind_Some in X as (s1 & Y & X). eapply IH; [exact X|by eapply sound_step|by eapply covers_step].
Qed.

Lemma turn_runs s bs s' : sound_tasks s -> phase s = Waiting -> writers s = O ->
  steps (Return :: bs ++ [EndTurn]) s = Some s' -> posted s `prefix_of` executed s'.
Proof.
  intros S Ph W X. cbn in X. rewrite Ph in X. cbn in X. rewrite steps_app in X. apply bind_Some in X as (s1 & X & Y).
  set (s0 := mkSys (loop s) (writers s) (Idle (0 <? wakeups (loop s))) (posted s) (executed s)) in X.
  assert (step Return s = Some s0) as R by (cbn; by rewrite Ph).
  assert (covers (posted s) s1) as [_ C].
  { eapply covers_steps; [exact X|by eapply sound_step|]. split; [done|]. cbn. destruct (Z.ltb_spec 0 (wakeups (loop s))); [done|].
    destruct S as [S1 S2 _ _ _]. destruct (decide (posted_tasks_ (loop s) = [])) as [E|N].
    - rewrite Ph, E in S1. cbn in S1. by rewrite app_nil_r in S1; rewrite S1.
    - destruct (S2 N) as [Z|[Z|Z]]; [lia|lia|by rewrite Ph in Z]. }
  cbn in Y. destruct (phase s1) as [| | |[]| |]; try done. by injection Y as <-.
Qed.

(** Outside [run] nothing runs. *)
Lemma stopped_runs_nothing bs s s' : phase s = Stopped -> Enter ∉ bs -> steps bs s = Some s' -> phase s' = Stopped /\ executed s' = executed s.
Proof.
  revert s. induction bs as [|b bs IH]; intros s Ph N X; cbn in X; [by injection X as <-|].
  apply bind_Some in X as (s1 & Y & X). apply not_elem_of_cons in N as [N1 N2].
  destruct b; cbn in Y; rewrite ?Ph in Y; try done; repeat (case_match; try done); injection Y as <-; by apply IH in X.
Qed.

(** ** The loop gets on *)

(** Steps that the loop and the threads that have pushed are about to take. *)
Definition owed (a : Label) (s : Sys) : bool :=
  match a with
  | Write | Check | Swap | Run | Finish | EndTurn => true
  | Return => 0 <? wakeups (loop s)
  | Wake => match phase s with Idle due => due | _ => false end
  | _ => false
  end.

(** [s'] is reached by owed steps. *)
Inductive leads : Sys -> Sys -> Prop :=
| leads_refl s : leads s s
| leads_more a s s1 s' : owed a s = true -> step a s = Some s1 -> leads s1 s' -> leads s s'.

#[export] Instance leads_preorder : PreOrder leads.
Proof.
  split; [intros s; constructor|]. intros s1 s2 s3 L1 L2. induction L1 as [s|a s s1 s' O X L IH]; [done|]. econstructor; eauto.
Qed.

Lemma leads_step a s s' : owed a s = true -> step a s = Some s' -> leads s s'.
Proof. intros O X. econstructor; [exact O|exact X|constructor]. Qed.

Lemma leads_sound s s' : leads s s' -> sound_tasks s -> sound_tasks s'.
Proof. induction 1 as [s|a s s1 s' O X L IH]; [done|]. intros S. by eapply IH, sound_step. Qed.

Lemma leads_grows s s' : leads s s' -> posted s `prefix_of` posted s'.
Proof. induction 1 as [s|a s s1 s' O X L IH]; [done|]. etrans; [by eapply step_grows|done]. Qed.

(** A task returns, and ([stays]) does not stop the loop. *)
Definition succeeds (stays : bool) (task : option Script) : Prop := forall l, exists l', run_task task l = inr l' /\
  (stays = true -> running_ l' = running_ l).

Lemma run_batch r q rest s : phase s = Running (q ++ rest) -> (forall task, task ∈ q -> succeeds r task) ->
  running_ (loop s) = r ->
  exists s', leads s s' /\ phase s' = Running rest /\ executed s' = executed s ++ q /\ running_ (loop s') = r.
Proof.
  revert s. induction q as [|task q IH]; intros s Ph O Rn; [exists s; by rewrite app_nil_r|].
  destruct (O task ltac:(left) (loop s)) as (l & R & K).
  assert (running_ l = r) as Rl.
  { destruct r; [by rewrite K|]. apply run_task_posts in R as [new P]. pose proof (posts_running _ _ _ P) as Q.
    destruct (running_ l); [|done]. by rewrite Q in Rn. }
  set (s1 := mkSys l (writers s) (Running (q ++ rest)) (posted s ++ newly (loop s) l) (executed s ++ [task])).
  assert (step Run s = Some s1) as X by (cbn; by rewrite Ph; cbn; rewrite R).
  destruct (IH s1) as (s' & L & P & E & Rs); [done|intros y Y; apply O; by right|done|]. exists s'.
  split; [etrans; [by apply (leads_step Run)|exact L]|]. split; [done|]. split; [|done]. rewrite E. cbn. by rewrite <- app_assoc.
Qed.

(** The queue is taken when the turn has the completion. *)
Lemma take_queue s : phase s = Idle true \/ phase s = Drained ->
  exists s', leads s s' /\ phase s' = Running (posted_tasks_ (loop s)) /\ executed s' = executed s /\ posted s' = posted s /\
    running_ (loop s') = running_ (loop s).
Proof.
  intros Ph. assert (exists s1, leads s s1 /\ phase s1 = Drained /\ posted_tasks_ (loop s1) = posted_tasks_ (loop s) /\
    executed s1 = executed s /\ posted s1 = posted s /\ running_ (loop s1) = running_ (loop s)) as (s1 & L & P & T & E & Po & R).
  { destruct Ph as [Ph|Ph]; [|by exists s].
    eexists. split; [apply (leads_step Wake); [cbn; by rewrite Ph|cbn; by rewrite Ph]|]. done. }
  eexists. split; [etrans; [exact L|apply (leads_step Swap); [done|cbn; by rewrite P]]|]. cbn. by rewrite T, E, Po, R.
Qed.

(** The loop ends its turn. *)
Lemma reach_top r s : sound_tasks s -> (forall task, task ∈ posted s -> succeeds r task) -> running_ (loop s) = r ->
  phase s <> Stopped -> phase s <> Waiting ->
  exists s', leads s s' /\ phase s' = Top /\ running_ (loop s') = r.
Proof.
  intros [S1 _ _ _ _] O R N1 N2.
  assert (forall s1, leads s s1 -> phase s1 = Idle false -> running_ (loop s1) = r ->
    exists s', leads s s' /\ phase s' = Top /\ running_ (loop s') = r) as Last.
  { intros s1 L P R1. eexists. split; [etrans; [exact L|apply (leads_step EndTurn); [done|cbn; by rewrite P]]|]. done. }
  assert (forall s1 q, leads s s1 -> phase s1 = Running q -> running_ (loop s1) = r -> (forall task, task ∈ q -> task ∈ posted s) ->
    exists s', leads s s' /\ phase s' = Top /\ running_ (loop s') = r) as Batch.
  { intros s1 q L P R1 Q. destruct (run_batch r q [] s1) as (s2 & L2 & P2 & _ & R2);
      [by rewrite app_nil_r|intros y Y; by apply O, Q|done|].
    eapply Last; [etrans; [exact L|etrans; [exact L2|apply (leads_step Finish); [done|cbn; by rewrite P2]]]|done|done]. }
  destruct (phase s) as [| | |[]| |q] eqn:Ph; try done.
  - by exists s.
  - destruct (take_queue s) as (s1 & L & P & _ & _ & R1); [by left|]. eapply Batch; [exact L|exact P|congruence|].
    intros y Y. rewrite S1, !elem_of_app. by right; right.
  - by eapply Last.
  - destruct (take_queue s) as (s1 & L & P & _ & _ & R1); [by right|]. eapply Batch; [exact L|exact P|congruence|].
    intros y Y. rewrite S1, !elem_of_app. by right; right.
  - eapply Batch; [done|done|done|]. intros y Y. rewrite S1, !elem_of_app. by right; left.
Qed.

(** A loop that waits is woken when tasks are queued. *)
Lemma waiting_takes s : sound_tasks s -> phase s = Waiting -> posted_tasks_ (loop s) <> [] ->
  exists s', leads s s' /\ phase s' = Running (posted_tasks_ (loop s)) /\ executed s' = executed s /\ running_ (loop s') = running_ (loop s).
Proof.
  intros [_ S2 _ S4 S5] Ph N.
  assert (exists s1, leads s s1 /\ phase s1 = Waiting /\ 0 < wakeups (loop s1) /\ posted_tasks_ (loop s1) = posted_tasks_ (loop s) /\
    executed s1 = executed s /\ running_ (loop s1) = running_ (loop s)) as (s1 & L & P & W & T & E & R).
  { destruct (S2 N) as [W|[W|W]]; [by exists s| |by rewrite Ph in W]. destruct (writers s) as [|n] eqn:Wr; [lia|].
    exists (mkSys (post_write (loop s)) n Waiting (posted s) (executed s)).
    split; [apply (leads_step Write); [done|]; cbn; by rewrite Wr, Ph|]. unfold post_write. rewrite S5. cbn. repeat split; lia. }
  set (s2 := mkSys (loop s1) (writers s1) (Idle true) (posted s1) (executed s1)).
  assert (leads s1 s2) as L1.
  { apply (leads_step Return); cbn; [by destruct (Z.ltb_spec 0 (wakeups (loop s1))); [|lia]|].
    rewrite P. by destruct (Z.ltb_spec 0 (wakeups (loop s1))); [|lia]. }
  destruct (take_queue s2) as (s3 & L3 & P3 & E3 & _ & R3); [by left|]. exists s3.
  split; [by rewrite L, L1|]. cbn in *. by rewrite P3, E3, R3, T, E, R.
Qed.

(** What was posted runs if the loop is not stopped. *)
Lemma accepted_run s : sound_tasks s -> phase s <> Stopped -> running_ (loop s) = true ->
  (forall task, task ∈ posted s -> succeeds true task) -> exists s', leads s s' /\ posted s `prefix_of` executed s'.
Proof.
  intros S Ns R O.
  assert (exists s1, leads s s1 /\ phase s1 = Waiting /\ running_ (loop s1) = true) as (s1 & L & P & R1).
  { assert (phase s = Waiting \/ phase s <> Waiting) as [W|W] by (destruct (phase s); auto); [by exists s|]. destruct (reach_top true s) as (s1 & L & P & R1); [done..|].
    eexists. split; [etrans; [exact L|apply (leads_step Check); [done|cbn; by rewrite P]]|]. cbn. by rewrite R1. }
  pose proof (leads_sound _ _ L S) as S1. pose proof (leads_grows _ _ L) as G. rewrite (sound_order _ S1), P in G. cbn in G.
  destruct (decide (posted_tasks_ (loop s1) = [])) as [E|N]; [exists s1; by rewrite E, app_nil_r in G|].
  destruct (waiting_takes s1 S1 P N) as (s2 & L2 & P2 & E2 & R2).
  destruct G as [k G]. apply app_eq_inv in G as [(m & G & _)|(m & G1 & G2)]; [exists s1; rewrite G; split; [done|by apply prefix_app_r]|].
  destruct (run_batch true m k s2) as (s3 & L3 & _ & E3 & _);
    [by rewrite P2, G2|intros y Y; apply O; rewrite G1, elem_of_app; by right|congruence|].
  exists s3. split; [by rewrite L, L2|]. by rewrite E3, E2, G1.
Qed.

(** [stop] ends [run]. *)
Lemma stop_ends s : sound_tasks s -> running_ (loop s) = false -> (forall task, task ∈ posted s -> succeeds false task) ->
  exists s', leads s s' /\ phase s' = Stopped.
Proof.
  intros S R O. assert (phase s = Stopped \/ phase s <> Stopped) as [Q|Q] by (destruct (phase s); auto); [by exists s|].
  assert (exists s1, leads s s1 /\ phase s1 <> Waiting /\ phase s1 <> Stopped /\ running_ (loop s1) = false /\ posted s1 = posted s) as
    (s1 & L & N1 & N2 & R1 & P1).
  { assert (phase s = Waiting \/ phase s <> Waiting) as [W|W] by (destruct (phase s); auto); [|by exists s].
    eexists. split; [apply (leads_step Return); [|cbn; by rewrite W]|done].
    pose proof (sound_stop _ S W R). cbn. by destruct (Z.ltb_spec 0 (wakeups (loop s))); [|lia]. }
  destruct (reach_top false s1) as (s2 & L2 & P2 & R2); [by eapply leads_sound|by rewrite P1|done..|].
  eexists. split; [etrans; [exact L|etrans; [exact L2|apply (leads_step Check); [done|cbn; by rewrite P2]]]|]. cbn. by rewrite R2.
Qed.

(** The callback of the wake-up descriptor is a sequence of these steps. *)
Lemma run_tasks_steps q s l' : phase s = Running q -> run_tasks takes q (loop s) = inr l' ->
  exists s', steps (replicate (length q) Run ++ [Finish]) s = Some s' /\
    loop s' = l' /\ phase s' = Idle false /\ executed s' = executed s ++ q.
Proof.
  revert s. induction q as [|task q IH]; intros s Ph X; cbn in *.
  - injection X as <-. eexists. rewrite Ph. cbn. by rewrite app_nil_r.
  - change (match task with Some s0 => exec takes s0 (loop s) | None => inr (loop s) end) with (run_task task (loop s)) in X.
    destruct (run_task task (loop s)) as [|l1] eqn:R; [done|].
    destruct (IH (mkSys l1 (writers s) (Running q) (posted s ++ newly (loop s) l1) (executed s ++ [task])) eq_refl X)
      as (s' & Y & A & B & C).
    exists s'. rewrite Ph. cbn in *. rewrite R. cbn. by rewrite <- app_assoc in C.
Qed.

Lemma on_wakeup_steps s due l' : phase s = Idle due -> on_wakeup takes (loop s) = inr l' ->
  exists s', steps (Wake :: Swap :: replicate (length (posted_tasks_ (loop s))) Run ++ [Finish]) s = Some s' /\
    loop s' = l' /\ phase s' = Idle false /\ executed s' = executed s ++ posted_tasks_ (loop s).
Proof.
  intros Ph X. cbn. rewrite Ph. cbn. by apply (run_tasks_steps _ (mkSys _ _ (Running (posted_tasks_ (loop s))) _ _)).
Qed.

(** [C35] Posted tasks run once, in the order they were posted, and no wake-up
    is lost.  However the posting threads, [stop], other callbacks and the loop
    interleave, as long as no callback throws: the tasks that ran, those being
    run and those queued are the ones accepted, in order; when tasks are
    queued the descriptor is readable, or a thread is about to write to it, or
    the loop is about to take the queue, and a waiting loop that was stopped
    has been woken.  A turn that starts when the posters have written ends
    only after everything they posted has run, whatever happens during it, a
    [stop] too.  While the loop is not stopped it gets there: the steps that
    it and the posters are about to take run all that was posted, if those
    tasks neither throw nor stop it.  After [stop] those steps end [run]; what
    was not taken by then stays queued, and nothing runs outside [run]. *)
Theorem posted_tasks_run as_ fd s : steps as_ (start fd) = Some s ->
  sound_tasks s /\
  (forall bs s', phase s = Waiting -> writers s = O -> steps (Return :: bs ++ [EndTurn]) s = Some s' -> posted s `prefix_of` executed s') /\
  (phase s <> Stopped -> running_ (loop s) = true -> (forall task, task ∈ posted s -> succeeds true task) ->
    exists s', leads s s' /\ posted s `prefix_of` executed s') /\
  (running_ (loop s) = false -> (forall task, task ∈ posted s -> succeeds false task) -> exists s', leads s s' /\ phase s' = Stopped) /\
  (forall bs s', phase s = Stopped -> Enter ∉ bs -> steps bs s = Some s' ->
    executed s' = executed s /\ posted s' = executed s ++ posted_tasks_ (loop s')).
Proof.
  intros X. assert (sound_tasks s) as S by (eapply sound_steps; [exact X|apply sound_start]). split_and!; [done|..].
  - intros bs s'. by apply turn_runs.
  - by apply accepted_run.
  - by apply stop_ends.
  - intros bs s' Ph N Y. destruct (stopped_runs_nothing bs s s' Ph N Y) as [Ph' E]. split; [done|].
    rewrite (sound_order _ (sound_steps _ _ _ Y S)), Ph', E. done.
Qed.

End Tasks.
End EventLoopTasks.

(** * Cases

    Runs on which the theorems apply, and what goes wrong. *)

From S2P Require Import EventLoopProps.
Import EventLoop EventLoopProps EventLoopTasks.

Module EventLoopCases.

(** Submissions empty the queue. *)
Definition willing (_ : nat) : bool := true.

(** ** Timers *)

(** Three timers, of which the second is cancelled, and the completions of two. *)
Definition three_timers : list Event :=
  [ Calls (AddTimer 5 (Some (PostTask None Halt)) (fun _ => AddTimer 2500000000 None (fun b => AddTimer (-1) None (fun _ => CancelTimer b Halt))));
    Turn 1 [mkCqe (encode_user_data Timer 1) (-62) false false 0 None; mkCqe (encode_user_data Cancel 2) 0 false false 0 None] ].

Lemma timers_fire_once_witness :
  match handle_all willing three_timers (new_loop willing 4) with
  | inr l =>
      notes l = [TimerAdded 1; TimerAdded 2; TimerAdded 3; TimerCancelled 2; TimerRan 1] /\
      chronicle (notes l) /\
      (forall id c, TimerAdded id ∈ notes l -> c_user_data c = encode_user_data Timer id -> completes willing c id l) /\
      asked willing l
  | inl _ => False
  end.
Proof.
  assert (match handle_all willing three_timers (new_loop willing 4) with inr l => notes l | inl _ => [] end =
    [TimerAdded 1; TimerAdded 2; TimerAdded 3; TimerCancelled 2; TimerRan 1]) as N by (vm_compute; reflexivity).
  destruct (handle_all willing three_timers (new_loop willing 4)) as [|l] eqn:E; [discriminate N|].
  split; [exact N|]. apply (timers_fire_once willing three_timers 4 l E). rewrite N. vm_compute. reflexivity.
Defined.

(** ** Tasks *)

(** The second task is posted while the loop is about to take the queue; the
    first one posts a third. *)
Definition two_posters : list Label :=
  [Enter; Check; Push (Some (PostTask None Halt)); Write; Return; Wake; Push (Some Halt); Swap; Run; Write].

Lemma posted_tasks_run_witness :
  match steps willing two_posters (start willing 4) with
  | Some s => (posted s, executed s, phase s) =
        ([Some (PostTask None Halt); Some Halt; None], [Some (PostTask None Halt)], Running [Some Halt]) /\
      sound_tasks s /\ exists s', leads willing s s' /\ posted s `prefix_of` executed s'
  | None => False
  end.
Proof.
  assert (match steps willing two_posters (start willing 4) with
          | Some s => (posted s, executed s, phase s, running_ (loop s)) | None => ([], [], Stopped, false) end =
    ([Some (PostTask None Halt); Some Halt; None], [Some (PostTask None Halt)], Running [Some Halt], true)) as N by (vm_compute; reflexivity).
  destruct (steps willing two_posters (start willing 4)) as [s|] eqn:E; [|discriminate N]. injection N as Np Ne Nph Nr.
  rewrite Np, Ne, Nph. split; [done|].
  destruct (posted_tasks_run willing two_posters 4 s E) as (So & _ & L & _). split; [exact So|]. rewrite <- Np.
  apply L; [by rewrite Nph|done|]. rewrite Np. intros task T l.
  repeat (apply elem_of_cons in T as [->|T]); [..|by apply elem_of_nil in T]; (eexists; split; [reflexivity|done]) || idtac.
  eexists. split; [reflexivity|]. intros _. unfold post, post_push, post_write. by destruct (accepting_tasks_ l) eqn:A; cbn; rewrite A.
Defined.

(** A task posted in good time before [stop] may not run: here the turn in
    which both happen has gone past the descriptor, so that the loop ends with
    the task in its queue. *)
Example stop_leaves_task_queued :
  match steps willing [Enter; Check; Return; Push (Some Halt); Write; Stop; EndTurn; Check] (start willing 4) with
  | Some s => (phase s, executed s, posted_tasks_ (loop s)) = (Stopped, [], [Some Halt])
  | None => False
  end.
Proof. vm_compute. reflexivity. Qed.

(** ** Defects *)

(** The requests for multishot polls of a descriptor, and the completions that
    end one: the difference is what the kernel holds. *)
Definition polls (fd : Z) (l : t) : nat :=
  length (List.filter (fun q => (user_data q =? encode_user_data Poll fd)) (requests l)).

Definition ECANCELED : Z := 125.

(** A change of events: the poll is removed, which ends it. *)
Definition modified (fd mask : Z) : list Event :=
  [ Calls (ModifyFd fd mask Halt);
    Turn 1 [mkCqe (encode_user_data Poll fd) (- ECANCELED) false false 0 None; mkCqe (encode_user_data Cancel fd) 0 false false 0 None] ].

(** The end of the removed poll is taken for the end of the new one, and the
    descriptor is polled once more: after three changes of events the kernel
    holds four polls of it (seven were asked for and three have ended), and a
    descriptor that gets ready has its callback run four times. *)
Example modify_fd_accumulates_polls :
  match handle_all willing ([Calls (AddFd 7 1 None Halt); Turn 0 []] ++ modified 7 5 ++ modified 7 1 ++ modified 7 5) (new_loop willing 4) with
  | inr l => polls 7 l = 7%nat
  | inl _ => False
  end.
Proof. vm_compute. reflexivity. Qed.

(** A timer that is cancelled before its request was submitted loses its entry
    to the completion of a cancelled poll of the descriptor with its number:
    the queued request has a pointer to the [timespec] in that entry. *)
Definition same_number : list Event :=
  [ Calls (AddFd 1 1 None (AddFd 8 1 (Some (fun _ => AddTimer 5 None (fun id => CancelTimer id Halt))) Halt)); Turn 0 [];
    Calls (RemoveFd 1 Halt);
    Turn 1 [mkCqe (encode_user_data Poll 8) 1 true false 0 None; mkCqe (encode_user_data Cancel 1) 0 false false 0 None] ].

Example cancel_frees_pending_timer :
  match handle_all willing same_number (new_loop willing 4) with
  | inr l => timer_entries_ l !! 1 = None /\ mkSqe (Timeout 0 5) (encode_user_data Timer 1) ∈ sq (ring_ l)
  | inl _ => False
  end.
Proof. vm_compute. split; [reflexivity|]. by left. Qed.

(** A packet with no local address but with a congestion mark or segments: the
    second control message is looked for after one that does not exist. *)
Lemma send_without_local_address takes fd pkt l i : last (free_send_indices_ l) = Some i ->
  family (o_local pkt) = OtherFamily -> 0 < o_ecn pkt \/ 0 < gso_segment_size pkt -> async_send takes fd pkt l = inl NullDereference.
Proof.
  intros L F N. unfold async_send, control_messages, local_message. rewrite L, F.
  destruct (Z.ltb_spec 0 (o_ecn pkt)); [done|]. cbn. destruct (Z.ltb_spec 0 (gso_segment_size pkt)); [done|lia].
Qed.

(** A loop stopped before [run] runs. *)
Lemma stop_before_run_lost takes turns l : run takes turns (stop l) = run_loop takes turns (set_running true (stop l)) /\
  running_ (set_running true (stop l)) = true.
Proof. done. Qed.

(** A task that throws takes those behind it with it. *)
Lemma throwing_task_drops_rest takes rest l : run_tasks takes (Some Throw :: rest) l = inl RuntimeError.
Proof. done. Qed.

End EventLoopCases.
