(* ===== verification/Drivers.v ===== *)
(** * Database drivers

    [db/uuid.h] ([Uuid]); the text forms of parameters and columns
    ([SqlValue]) and the connection, with its batches over libpq's pipeline, of
    [db/drivers/postgres] ([Postgres]); the connection of [db/drivers/sqlite]
    and its statements ([Sqlite]); and the connection pool that both data
    sources have ([Pool]).  libpq and SQLite are parameters; the time of the
    system clock and random bytes are arguments. *)

From Stdlib Require Import SpecFloat.
From S2P Require Import Prelude CxxString CxxDouble QueryBuilder.

(** [strtol] without its limits, which the two-character strings it is used on
    do not reach. *)
Definition strtol (base : Z) (s : bytes) : Z :=
  let '(neg, r) := strip_sign (drop_while isspace s) in
  let v := fst (digits_run base 0 (strip_0x base r)) in
  if neg : bool then - v else v.

(** [std::stoll]. *)
Definition stoll (s : bytes) : result number_error Z :=
  let '(neg, r) := strip_sign (drop_while isspace s) in
  match r with
  | d :: _ =>
      if isdigit d then
        let v := let v := fst (digits_run 10 0 r) in if neg : bool then - v else v in
        if (- 2 ^ 63 <=? v) && (v <? 2 ^ 63) then inr v else inl OutOfRange
      else inl NoDigits
  | [] => inl NoDigits
  end.

(** [ss << std::hex << std::setfill('0') << std::setw(2) << b] *)
Definition hex2 (b : byte) : bytes := [digit_char (Z.shiftr (byte_val b) 4); digit_char (Z.land (byte_val b) 15)].

(** ** UUIDs *)

Module Uuid.

(** The 16 bytes. *)
Definition t := bytes.

(** [entropy] is ten random bytes. *)
Definition generate (millis : Z) (entropy : bytes) : t :=
  let time := map (fun k => byte_of_Z (Z.shiftr millis k)) [40; 32; 24; 16; 8; 0] in
  let data := time ++ entropy in
  let data := alter (fun b => byte_of_Z (Z.lor (Z.land (byte_val b) 0x0F) 0x70)) 6%nat data in
  alter (fun b => byte_of_Z (Z.lor (Z.land (byte_val b) 0x3F) 0x80)) 8%nat data.

Definition is_nil (u : t) : bool := forallb (fun b => byte_val b =? 0) u.

Fixpoint to_string_from (i : nat) (u : t) : bytes :=
  match u with
  | [] => []
  | b :: u => hex2 b ++ (if bool_decide (i ∈ [3; 5; 7; 9]%nat) then bs "-" else []) ++ to_string_from (S i) u
  end.

Definition to_string (u : t) : bytes := to_string_from 0 u.

(** The loop, with [n] bytes left to fill. *)
Fixpoint digits_from (n : nat) (s : bytes) : bytes :=
  match n, s with
  | S n', x :: r =>
      if bool_decide (x = "-"%char) then digits_from n r
      else match r with
           | y :: r => byte_of_Z (strtol 16 [x; y]) :: digits_from n' r
           | [] => []
           end
  | _, _ => []
  end.

Definition from_string (s : bytes) : t :=
  let d := digits_from 16 s in d ++ replicate (16 - length d) (byte_of_Z 0).

(** [data < other.data] *)
Fixpoint lt (a b : t) : bool :=
  match a, b with
  | x :: a, y :: b => (byte_val x <? byte_val y) || ((byte_val x =? byte_val y) && lt a b)
  | [], _ :: _ => true
  | _, [] => false
  end.

End Uuid.

(** ** Points in time *)

Module SqlTime.

(** [std::chrono::system_clock::to_time_t] of nanoseconds. *)
Definition to_time_t (ns : Z) : Z := Z.quot ns 1000000000.
Definition from_time_t (s : Z) : Z := s * 1000000000.

Record tm := mkTm { year : Z; mon : Z; mday : Z; hour : Z; min : Z; sec : Z }.

(** The calendar, in years that begin in March. *)
Definition civil_from_days (z : Z) : Z * Z * Z :=
  let z := z + 719468 in
  let era := z / 146097 in
  let doe := z mod 146097 in
  let yoe := (doe - doe / 1460 + doe / 36524 - doe / 146096) / 365 in
  let doy := doe - (365 * yoe + yoe / 4 - yoe / 100) in
  let mp := (5 * doy + 2) / 153 in
  let d := doy - (153 * mp + 2) / 5 + 1 in
  let m := if mp <? 10 then mp + 3 else mp - 9 in
  (yoe + era * 400 + (if m <=? 2 then 1 else 0), m, d).

Definition days_from_civil (y m d : Z) : Z :=
  let y := if m <=? 2 then y - 1 else y in
  let era := y / 400 in
  let yoe := y mod 400 in
  let doy := (153 * (if 2 <? m then m - 3 else m + 9) + 2) / 5 + d - 1 in
  let doe := yoe * 365 + yoe / 4 - yoe / 100 + doy in
  era * 146097 + doe - 719468.

Definition gmtime (t : Z) : tm :=
  let '(y, m, d) := civil_from_days (t / 86400) in
  let s := t mod 86400 in
  mkTm y m d (s / 3600) (s / 60 mod 60) (s mod 60).

Definition timegm (x : tm) : Z := days_from_civil (year x) (mon x) (mday x) * 86400 + hour x * 3600 + min x * 60 + sec x.

Definition two (n : Z) : bytes := [digit_char (n / 10); digit_char (n mod 10)].

(** [std::put_time] with [%Y-%m-%d<sep>%H:%M:%S<last>] *)
Definition put_time (sep last : bytes) (x : tm) : bytes :=
  to_dec_signed (year x) ++ bs "-" ++ two (mon x) ++ bs "-" ++ two (mday x) ++ sep ++
  two (hour x) ++ bs ":" ++ two (min x) ++ bs ":" ++ two (sec x) ++ last.

(** A number of exactly [n] digits between [lo] and [hi]. *)
Fixpoint number (n : nat) (acc : Z) (s : bytes) : option (Z * bytes) :=
  match n, s with
  | O, _ => Some (acc, s)
  | S n, x :: s => if isdigit x then number n (acc * 10 + (byte_val x - 48)) s else None
  | S _, [] => None
  end.

Definition field (n : nat) (lo hi : Z) (s : bytes) : option (Z * bytes) :=
  '(v, s) ← number n 0 s; if (lo <=? v) && (v <=? hi) then Some (v, s) else None.

Definition literal (p s : bytes) : option bytes := if starts_with p s then Some (drop (length p) s) else None.

(** [std::get_time] with the format up to the seconds; [None] when the text does
    not have it, where the code goes on with what was read. *)
Definition get_time (sep s : bytes) : option tm :=
  '(y, s) ← field 4 0 9999 s; s ← literal (bs "-") s;
  '(m, s) ← field 2 1 12 s; s ← literal (bs "-") s;
  '(d, s) ← field 2 1 31 s; s ← literal sep s;
  '(h, s) ← field 2 0 23 s; s ← literal (bs ":") s;
  '(mi, s) ← field 2 0 59 s; s ← literal (bs ":") s;
  '(se, s) ← field 2 0 60 s;
  Some (mkTm y m d h mi se).

Definition time_to_string (sep last : bytes) (ns : Z) : bytes := put_time sep last (gmtime (to_time_t ns)).
Definition string_to_time (sep s : bytes) : option Z := from_time_t ∘ timegm <$> get_time sep s.

End SqlTime.

(** ** Parameters *)

Module SqlValue.

Inductive Param :=
| Null
| Int (v : Z)
| Double (v : double)
| Text (v : bytes)
| Blob (v : bytes)
| Bool (v : bool)
| UuidValue (v : Uuid.t)
| Time (ns : Z).

(** [n] rounded after division by [d], ties to even. *)
Definition div_even (n d : Z) : Z :=
  let q := n / d in
  let r := n mod d in
  if (2 * r <? d) || ((2 * r =? d) && Z.even q) then q else q + 1.

Definition pad6 (n : Z) : bytes := let s := to_dec n in replicate (6 - length s) "0"%char ++ s.

(** [std::to_string] of a double: ["%f"]. *)
Definition double_to_string (x : double) : bytes :=
  let sign (s : bool) := if s then bs "-" else [] in
  match x with
  | S754_zero s => sign s ++ bs "0.000000"
  | S754_infinity s => sign s ++ bs "inf"
  | S754_nan => bs "nan"
  | S754_finite s m e =>
      let n := if 0 <=? e then Z.pos m * 2 ^ e * 1000000 else div_even (Z.pos m * 1000000) (2 ^ (- e)) in
      sign s ++ to_dec (n / 1000000) ++ bs "." ++ pad6 (n mod 1000000)
  end.

(** The string a C function sees. *)
Definition c_str (s : bytes) : bytes := take_while (fun x => negb (byte_val x =? 0)) s.

End SqlValue.

(** ** PostgreSQL *)

Module Postgres.
Import SqlValue.

(** [time_to_string] and [string_to_time] *)
Definition time_text (ns : Z) : bytes := SqlTime.time_to_string (bs " ") [] ns.
Definition text_time (s : bytes) : option Z := SqlTime.string_to_time (bs " ") s.

Definition escape_bytea (b : bytes) : bytes := bs "\x" ++ flat_map hex2 b.

(** [PostgresConnection::convert_placeholders], the same loop as the dialect's. *)
Definition convert_placeholders (sql : bytes) : bytes := Dialect.number_placeholders 1 sql.

Definition serialize_param (p : Param) : bytes :=
  match p with
  | Null => []
  | Int v => to_dec_signed v
  | Double v => double_to_string v
  | Text v => v
  | Blob v => escape_bytea v
  | Bool v => if v then bs "true" else bs "false"
  | UuidValue v => Uuid.to_string v
  | Time ns => time_text ns
  end.

Definition serialize_params (ps : list Param) : list bytes := map serialize_param ps.

(** [param_values]: a null pointer for a null, C strings otherwise. *)
Definition param_values (ps : list Param) : list (option bytes) :=
  zip_with (fun p s => match p with Null => None | _ => Some (c_str s) end) ps (serialize_params ps).

(** ** Results *)

Inductive ExecStatus := PGRES_COMMAND_OK | PGRES_TUPLES_OK | PGRES_PIPELINE_SYNC | PGRES_PIPELINE_ABORTED | PGRES_OTHER.

Record PGresult := mkResult {
  status : ExecStatus;
  sqlstate : option bytes;
  error_text : bytes;
  cmd_tuples : bytes;
  tuples : list (list (option bytes))
}.

Record ResultSet := mkSet { rows : list (list (option bytes)); current_row : Z }.

Definition new_set (r : PGresult) : ResultSet := mkSet (tuples r) (-1).

Definition next (s : ResultSet) : bool * ResultSet :=
  if current_row s + 1 <? len (rows s) then (true, mkSet (rows s) (current_row s + 1)) else (false, s).

(** The column, or [None] where [is_null] says so. *)
Definition value (col : nat) (s : ResultSet) : option bytes :=
  if (current_row s <? 0) || (len (rows s) <=? current_row s) then None
  else row ← rows s !! Z.to_nat (current_row s); mjoin (row !! col).

Definition is_null (col : nat) (s : ResultSet) : bool := match value col s with None => true | Some _ => false end.

Definition get_int (col : nat) (s : ResultSet) : result number_error Z :=
  match value col s with None => inr 0 | Some v => stoll v end.
Definition get_string (col : nat) (s : ResultSet) : bytes := default [] (value col s).
Definition get_bool (col : nat) (s : ResultSet) : bool :=
  match value col s with
  | None => false
  | Some v => bool_decide (v = bs "t") || bool_decide (v = bs "true") || bool_decide (v = bs "1")
  end.

Fixpoint unhex (s : bytes) : bytes :=
  match s with
  | x :: y :: r => byte_of_Z (strtol 16 [x; y]) :: unhex r
  | [x] => [byte_of_Z (strtol 16 [x])]
  | [] => []
  end.

Definition get_blob (col : nat) (s : ResultSet) : bytes :=
  match value col s with
  | None => []
  | Some v => if starts_with (bs "\x") v then unhex (drop 2 v) else v
  end.
Definition get_uuid (col : nat) (s : ResultSet) : Uuid.t := Uuid.from_string (get_string col s).
Definition get_time (col : nat) (s : ResultSet) : option Z := text_time (get_string col s).

(** ** Errors *)

Inductive Exn :=
| UniqueConstraintViolation (message : bytes)
| ForeignKeyConstraintViolation (message : bytes)
| NotNullConstraintViolation (message : bytes)
| ConstraintViolation (message : bytes)
| RuntimeError (message : bytes)
| NumberError (e : number_error).

Definition postgres_error (state message prefix : bytes) : Exn :=
  let full := prefix ++ bs ": " ++ message in
  if bool_decide (state = bs "23505") then UniqueConstraintViolation full
  else if bool_decide (state = bs "23503") then ForeignKeyConstraintViolation full
  else if bool_decide (state = bs "23502") then NotNullConstraintViolation full
  else if starts_with (bs "23") state then ConstraintViolation full
  else RuntimeError full.

(** ** Connections *)

(** What the driver uses of libpq and of [poll] on its socket. *)
Class Libpq (C : Type) := {
  PQexecParams : bytes -> list (option bytes) -> C -> option PGresult * C;
  PQprepare : bytes -> C -> option PGresult * C;
  PQenterPipelineMode : C -> bool * C;
  PQexitPipelineMode : C -> bool * C;
  PQisnonblocking : C -> bool;
  PQsetnonblocking : bool -> C -> bool * C;            (** whether it went well *)
  PQsendQueryPrepared : list (option bytes) -> C -> bool * C;
  PQpipelineSync : C -> bool * C;
  PQflush : C -> Z * C;
  PQgetResult : C -> option PGresult * C;
  PQisBusy : C -> bool;
  PQconsumeInput : C -> bool * C;
  wait_for_socket : bool -> C -> bool * C;             (** [true]: for output *)
  PQerrorMessage : C -> bytes;
  PQstatus_ok : C -> bool
}.

Section Connection.
Context {C : Type} `{Libpq C}.

(** [capture_postgres_error] of a result. *)
Definition capture (r : PGresult) (c : C) : bytes * bytes :=
  (default [] (sqlstate r), if bool_decide (error_text r = []) then PQerrorMessage c else error_text r).

Definition succeeded (r : PGresult) : bool :=
  match status r with PGRES_COMMAND_OK | PGRES_TUPLES_OK => true | _ => false end.

(** The number in [PQcmdTuples], 0 if there is none. *)
Definition affected (r : PGresult) : Z :=
  if bool_decide (cmd_tuples r = []) then 0 else match stoll (cmd_tuples r) with inr v => v | inl _ => 0 end.

Definition execute (sql : bytes) (params : list Param) (c : C) : result Exn Z * C :=
  let '(res, c) := PQexecParams (convert_placeholders sql) (param_values params) c in
  match res with
  | None => (inl (RuntimeError (bs "Postgres execution failed: " ++ PQerrorMessage c)), c)
  | Some r =>
      if succeeded r then (inr (affected r), c)
      else let '(state, message) := capture r c in (inl (postgres_error state message (bs "Postgres execution failed")), c)
  end.

Definition query (sql : bytes) (params : list Param) (c : C) : result Exn ResultSet * C :=
  let '(res, c) := PQexecParams (convert_placeholders sql) (param_values params) c in
  match res with
  | None => (inl (RuntimeError (bs "Postgres query failed: " ++ PQerrorMessage c)), c)
  | Some r =>
      if succeeded r then (inr (new_set r), c)
      else let '(state, message) := capture r c in (inl (postgres_error state message (bs "Postgres query failed")), c)
  end.

Definition last_insert_id (c : C) : result Exn Z * C :=
  match query (bs "SELECT lastval();") [] c with
  | (inl e, c) => (inl e, c)
  | (inr s, c) =>
      let '(more, s) := next s in
      (if more then match get_int 0 s with inr v => inr v | inl e => inl (NumberError e) end else inr 0, c)
  end.

Definition ignore_result (r : result Exn Z * C) : result Exn unit * C :=
  (match fst r with inl e => inl e | inr _ => inr () end, snd r).

Definition begin_transaction (c : C) : result Exn unit * C := ignore_result (execute (bs "BEGIN;") [] c).
Definition commit (c : C) : result Exn unit * C := ignore_result (execute (bs "COMMIT;") [] c).
Definition rollback (c : C) : result Exn unit * C := ignore_result (execute (bs "ROLLBACK;") [] c).

(** ** Batches *)

(** The loop that sends: the error of the first set that is not taken. *)
Fixpoint send_all (sets : list (list Param)) (c : C) : option bytes * C :=
  match sets with
  | [] => (None, c)
  | ps :: sets =>
      let '(ok, c) := PQsendQueryPrepared (param_values ps) c in
      if ok then send_all sets c else (Some (PQerrorMessage c), c)
  end.

(** The variables of the second half. *)
Record Batch := mkBatch { affected_rows : list Z; failed : bool; state_ : bytes; error_message : bytes; saw_sync : bool }.

Definition fail (message : bytes) (b : Batch) : Batch := mkBatch (affected_rows b) true (state_ b) message (saw_sync b).

Definition consume_result (r : PGresult) (c : C) (b : Batch) : Batch :=
  if succeeded r then mkBatch (affected_rows b ++ [affected r]) (failed b) (state_ b) (error_message b) (saw_sync b)
  else
    match status r with
    | PGRES_PIPELINE_SYNC => mkBatch (affected_rows b) (failed b) (state_ b) (error_message b) true
    | st =>
        if failed b then b
        else
          let '(s, m) := capture r c in
          let m := match st with
                   | PGRES_PIPELINE_ABORTED =>
                       if bool_decide (m = []) then bs "Postgres batch command was aborted by an earlier pipeline error" else m
                   | _ => m
                   end in
          mkBatch (affected_rows b) true s m (saw_sync b)
    end.

(** The loops; [None] when the fuel is used up. *)
Fixpoint flush_loop (fuel : nat) (b : Batch) (c : C) : option (Batch * C) :=
  match fuel with
  | O => None
  | S fuel =>
      if failed b then Some (b, c)
      else
        let '(flushed, c) := PQflush c in
        if flushed =? 0 then Some (b, c)
        else if flushed <? 0 then Some (fail (PQerrorMessage c) b, c)
        else
          let '(ready, c) := wait_for_socket true c in
          if ready then flush_loop fuel b c else Some (fail (PQerrorMessage c) b, c)
  end.

Definition broken (c : C) (b : Batch) : Batch :=
  fail (if bool_decide (error_message b = []) then PQerrorMessage c else error_message b) b.

Fixpoint drain_loop (fuel : nat) (b : Batch) (c : C) : option (Batch * C) :=
  match fuel with
  | O => None
  | S fuel =>
      if saw_sync b then Some (b, c)
      else
        let '(res, c) := PQgetResult c in
        match res with
        | Some r => drain_loop fuel (consume_result r c b) c
        | None =>
            if PQisBusy c then
              let '(ready, c) := wait_for_socket false c in
              if ready then
                let '(ok, c) := PQconsumeInput c in
                if ok then drain_loop fuel b c else Some (broken c b, c)
              else Some (broken c b, c)
            else drain_loop fuel b c
        end
  end.

Definition restore (blocking : bool) (c : C) : C := if blocking then snd (PQsetnonblocking false c) else c.

(** After the results: leave pipeline mode, restore blocking mode, report. *)
Definition conclude (sets : nat) (restore_blocking_mode : bool) (b : Batch) (c : C) : result Exn (list Z) * C :=
  let '(exited, c) := if saw_sync b then PQexitPipelineMode c else (false, c) in
  let c := restore restore_blocking_mode c in
  let b := if negb exited && negb (failed b) then fail (PQerrorMessage c) b else b in
  if failed b then
    let m := if bool_decide (error_message b = []) then bs "Postgres batch pipeline failed" else error_message b in
    (inl (postgres_error (state_ b) m (bs "Postgres batch execution failed")), c)
  else if bool_decide (length (affected_rows b) = sets) then (inr (affected_rows b), c)
  else (inl (RuntimeError (bs "Postgres batch execution ended without a result for every parameter set")), c).

(** The sends, the synchronization point and the two loops. *)
Definition pipeline (fuel : nat) (sets : list (list Param)) (restore_blocking_mode : bool) (c : C) : option (result Exn (list Z) * C) :=
  let '(send_error, c) := send_all sets c in
  let '(synced, c) := PQpipelineSync c in
  let send_error := match send_error with None => if synced then None else Some (PQerrorMessage c) | e => e end in
  let b := mkBatch [] (match send_error with Some _ => true | None => false end) [] (default [] send_error) false in
  '(b, c) ← flush_loop fuel b c;
  '(b, c) ← drain_loop fuel b c;
  Some (conclude (length sets) restore_blocking_mode b c).

Definition execute_batch (fuel : nat) (sql : bytes) (sets : list (list Param)) (c : C) : option (result Exn (list Z) * C) :=
  match sets with
  | [] => Some (inr [], c)
  | _ =>
      let '(prepared, c) := PQprepare (convert_placeholders sql) c in
      match prepared with
      | None => Some (inl (RuntimeError (bs "Postgres batch prepare failed: " ++ PQerrorMessage c)), c)
      | Some r =>
          match status r with
          | PGRES_COMMAND_OK =>
              let '(entered, c) := PQenterPipelineMode c in
              if negb entered then Some (inl (RuntimeError (bs "Postgres batch pipeline setup failed: " ++ PQerrorMessage c)), c)
              else if PQisnonblocking c then pipeline fuel sets false c
              else
                let '(ok, c) := PQsetnonblocking true c in
                if ok then pipeline fuel sets true c
                else
                  let c := snd (PQexitPipelineMode c) in
                  Some (inl (RuntimeError (bs "Postgres batch could not enable non-blocking pipeline I/O: " ++ PQerrorMessage c)), c)
          | _ => let '(state, message) := capture r c in
                 Some (inl (postgres_error state message (bs "Postgres batch prepare failed")), c)
          end
      end
  end.

End Connection.

End Postgres.

(** ** SQLite *)

Module Sqlite.
Import SqlValue.

Inductive Code := SQLITE_OK | SQLITE_ROW | SQLITE_DONE | SQLITE_CONSTRAINT | SQLITE_CONSTRAINT_CHECK | SQLITE_CONSTRAINT_UNIQUE
| SQLITE_CONSTRAINT_PRIMARYKEY | SQLITE_CONSTRAINT_FOREIGNKEY | SQLITE_CONSTRAINT_NOTNULL | SQLITE_OTHER.
#[export] Instance Code_eq_dec : EqDecision Code.
Proof. solve_decision. Defined.

Inductive Exn :=
| UniqueConstraintViolation (message : bytes)
| ForeignKeyConstraintViolation (message : bytes)
| NotNullConstraintViolation (message : bytes)
| ConstraintViolation (message : bytes)
| RuntimeError (message : bytes).

Definition sqlite_error (extended_code : Code) (message prefix : bytes) : Exn :=
  let full := prefix ++ bs ": " ++ message in
  match extended_code with
  | SQLITE_CONSTRAINT_UNIQUE | SQLITE_CONSTRAINT_PRIMARYKEY => UniqueConstraintViolation full
  | SQLITE_CONSTRAINT_FOREIGNKEY => ForeignKeyConstraintViolation full
  | SQLITE_CONSTRAINT_NOTNULL => NotNullConstraintViolation full
  | SQLITE_CONSTRAINT | SQLITE_CONSTRAINT_CHECK => ConstraintViolation full
  | _ => RuntimeError full
  end.

(** What is bound: C strings are cut at a zero byte. *)
Inductive Binding := BindNull | BindInt64 (v : Z) | BindDouble (v : double) | BindText (v : bytes) | BindBlob (v : bytes) | BindInt (v : Z).

Definition time_text (ns : Z) : bytes := SqlTime.time_to_string (bs "T") (bs "Z") ns.
Definition text_time (s : bytes) : option Z := SqlTime.string_to_time (bs "T") s.

Definition bind (p : Param) : Binding :=
  match p with
  | Null => BindNull
  | Int v => BindInt64 v
  | Double v => BindDouble v
  | Text v => BindText (c_str v)
  | Blob v => BindBlob v
  | Bool v => BindInt (if v then 1 else 0)
  | UuidValue v => BindText (Uuid.to_string v)
  | Time ns => BindText (time_text ns)
  end.

(** SQLite: [D] is a database connection, statements are numbers. *)
Class Engine (D : Type) := {
  sqlite3_prepare_v2 : bytes -> D -> (Code * option nat) * D;
  sqlite3_clear_bindings : nat -> D -> D;
  sqlite3_bind : nat -> list Binding -> D -> D;
  sqlite3_step : nat -> D -> Code * D;
  sqlite3_reset : nat -> D -> Code * D;
  sqlite3_finalize : nat -> D -> D;
  sqlite3_close : D -> Code * D;
  sqlite3_extended_errcode : D -> Code;
  sqlite3_errmsg : D -> bytes;
  sqlite3_changes : D -> Z
}.

Section Connection.
Context {D : Type} `{Engine D}.

(** A statement without text has no handle; the calls on it do nothing. *)
Definition on (stmt : option nat) (f : nat -> D -> D) (d : D) : D := match stmt with Some s => f s d | None => d end.
Definition step (stmt : option nat) (d : D) : Code * D := match stmt with Some s => sqlite3_step s d | None => (SQLITE_OTHER, d) end.
Definition reset (stmt : option nat) (d : D) : Code * D := match stmt with Some s => sqlite3_reset s d | None => (SQLITE_OK, d) end.

Definition prepare (sql prefix : bytes) (d : D) : result Exn (option nat) * D :=
  let '((rc, stmt), d) := sqlite3_prepare_v2 sql d in
  if bool_decide (rc = SQLITE_OK) then (inr stmt, d)
  else (inl (sqlite_error (sqlite3_extended_errcode d) (sqlite3_errmsg d ++ bs " (Query: " ++ sql ++ bs ")") prefix), d).

Definition stepped (rc : Code) : bool := bool_decide (rc = SQLITE_DONE) || bool_decide (rc = SQLITE_ROW).

Definition execute (sql : bytes) (params : list Param) (d : D) : result Exn Z * D :=
  match prepare sql (bs "SQL prepare failed") d with
  | (inl e, d) => (inl e, d)
  | (inr stmt, d) =>
      let d := on stmt (fun s => sqlite3_bind s (map bind params)) d in
      let '(rc, d) := step stmt d in
      let code := sqlite3_extended_errcode d in
      let message := sqlite3_errmsg d in
      let d := on stmt sqlite3_finalize d in
      if stepped rc then (inr (sqlite3_changes d), d) else (inl (sqlite_error code message (bs "SQL execute failed")), d)
  end.

Fixpoint batch_loop (stmt : option nat) (sets : list (list Param)) (rows : list Z) (d : D) : result Exn (list Z) * D :=
  match sets with
  | [] => (inr rows, on stmt sqlite3_finalize d)
  | ps :: sets =>
      let d := on stmt sqlite3_clear_bindings d in
      let d := on stmt (fun s => sqlite3_bind s (map bind ps)) d in
      let '(rc, d) := step stmt d in
      let code := sqlite3_extended_errcode d in
      let message := sqlite3_errmsg d in
      if stepped rc then
        let rows := rows ++ [sqlite3_changes d] in
        let '(rc, d) := reset stmt d in
        if bool_decide (rc = SQLITE_OK) then batch_loop stmt sets rows d
        else
          let code := sqlite3_extended_errcode d in
          let message := sqlite3_errmsg d in
          (inl (sqlite_error code message (bs "SQL batch reset failed")), on stmt sqlite3_finalize d)
      else (inl (sqlite_error code message (bs "SQL batch execute failed")), on stmt sqlite3_finalize d)
  end.

Definition execute_batch (sql : bytes) (sets : list (list Param)) (d : D) : result Exn (list Z) * D :=
  match sets with
  | [] => (inr [], d)
  | _ =>
      match prepare sql (bs "SQL batch prepare failed") d with
      | (inl e, d) => (inl e, d)
      | (inr stmt, d) => batch_loop stmt sets [] d
      end
  end.

(** The result set keeps the statement. *)
Definition query (sql : bytes) (params : list Param) (d : D) : result Exn (option nat) * D :=
  match prepare sql (bs "SQL query prepare failed") d with
  | (inl e, d) => (inl e, d)
  | (inr stmt, d) => (inr stmt, on stmt (fun s => sqlite3_bind s (map bind params)) d)
  end.

Definition next (stmt : option nat) (d : D) : bool * D := let '(rc, d) := step stmt d in (bool_decide (rc = SQLITE_ROW), d).

(** [~SqliteResultSet] *)
Definition drop_result (stmt : option nat) (d : D) : D := snd (reset stmt d).

Definition begin_transaction (d : D) : result Exn Z * D := execute (bs "BEGIN TRANSACTION;") [] d.
Definition commit (d : D) : result Exn Z * D := execute (bs "COMMIT;") [] d.
Definition rollback (d : D) : result Exn Z * D := execute (bs "ROLLBACK;") [] d.

End Connection.

End Sqlite.

(** ** The pool *)

Module Pool.

(** Physical connections are numbers in the order in which they were opened.
    [leased] are those behind a [shared_ptr] that a caller holds, [finished] those
    that were closed, [lost] counts those given up when their replacement failed.
    [waiting] are the callers that sleep on the condition variable, [woken] those
    that were notified and have to get the mutex and look again. *)
Record t := mk {
  queue : list nat; closed : bool; leased : list nat; finished : list nat; opened : nat; lost : nat;
  waiting : list nat; woken : list nat
}.

Definition with_callers (ws ns : list nat) (p : t) : t :=
  mk (queue p) (closed p) (leased p) (finished p) (opened p) (lost p) ws ns.

Inductive Exn := InvalidArgument | ConnectionFailed | TimedOut | Closed.

(** The constructor: [opens n] is whether the [n]-th connection can be opened.
    A failure leaves with the connections opened so far. *)
Fixpoint fill (n : nat) (opens : nat -> bool) (p : t) : result (Exn * list nat) t :=
  match n with
  | O => inr p
  | S n =>
      if opens (opened p)
      then fill n opens (mk (queue p ++ [opened p]) (closed p) (leased p) (finished p) (S (opened p)) (lost p) (waiting p) (woken p))
      else inl (ConnectionFailed, queue p)
  end.

Definition construct (pool_size acquisition_timeout leak_warning_threshold : Z) (opens : nat -> bool) : result (Exn * list nat) t :=
  if (pool_size <=? 0) || (acquisition_timeout <=? 0) || (leak_warning_threshold <=? 0) then inl (InvalidArgument, [])
  else fill (Z.to_nat pool_size) opens (mk [] false [] [] 0 0 [] []).

(** ** The condition variable *)

Fixpoint remove_first (c : nat) (l : list nat) : list nat :=
  match l with [] => [] | x :: l => if Nat.eqb x c then l else x :: remove_first c l end.

(** Which of the sleeping callers is woken is not specified: [who] chooses. *)
Definition notify_one (who : nat) (p : t) : t :=
  match waiting p !! (who mod length (waiting p))%nat with
  | Some c => with_callers (remove_first c (waiting p)) (woken p ++ [c]) p
  | None => p
  end.

Definition notify_all (p : t) : t := with_callers [] (woken p ++ waiting p) p.

(** ** Leases *)

(** [get_connection] from the test of the condition on: [None] when it has to
    wait; [expired] is whether the time is up.  [alive h] is whether the status
    of the connection is good, which SQLite does not ask, and [opens] whether a
    new one can be opened in its place. *)
Definition get_connection (expired : bool) (alive : nat -> bool) (opens : nat -> bool) (p : t) : option (result Exn nat * t) :=
  if closed p then Some (inl Closed, p)
  else
    match queue p with
    | [] => if expired then Some (inl TimedOut, p) else None
    | h :: q =>
        if alive h then Some (inr h, mk q (closed p) (h :: leased p) (finished p) (opened p) (lost p) (waiting p) (woken p))
        else if opens (opened p)
        then Some (inr (opened p), mk q (closed p) (opened p :: leased p) (h :: finished p) (S (opened p)) (lost p) (waiting p) (woken p))
        else Some (inl ConnectionFailed,
          notify_all (mk q (closed p) (leased p) (h :: finished p) (opened p) (S (lost p)) (waiting p) (woken p)))
    end.

(** The pool of the SQLite driver is the same, but does not ask for the status. *)
Definition get_sqlite_connection (expired : bool) (p : t) : option (result Exn nat * t) :=
  get_connection expired (fun _ => true) (fun _ => false) p.

(** [wait_for]: a caller that has to wait goes to sleep. *)
Definition get_or_wait (c : nat) (expired : bool) (alive opens : nat -> bool) (p : t) : option (result Exn nat) * t :=
  match get_connection expired alive opens p with
  | Some (r, p) => (Some r, p)
  | None => (None, with_callers (waiting p ++ [c]) (woken p) p)
  end.

(** A caller that was notified, or whose time is up, looks again. *)
Definition resume (c : nat) (expired : bool) (alive opens : nat -> bool) (p : t) : option (result Exn nat) * t :=
  get_or_wait c expired alive opens
    (if bool_decide (c ∈ woken p) then with_callers (waiting p) (remove_first c (woken p)) p
     else with_callers (remove_first c (waiting p)) (woken p) p).

(** The deleter of a lease, which runs once. *)
Definition release (h who : nat) (p : t) : t :=
  let leased' := List.filter (fun x => negb (Nat.eqb x h)) (leased p) in
  if closed p then mk (queue p) (closed p) leased' (h :: finished p) (opened p) (lost p) (waiting p) (woken p)
  else notify_one who (mk (queue p ++ [h]) (closed p) leased' (finished p) (opened p) (lost p) (waiting p) (woken p)).

Definition close (p : t) : t :=
  if closed p then p else notify_all (mk [] true (leased p) (queue p ++ finished p) (opened p) (lost p) (waiting p) (woken p)).

(** What threads do, each under the mutex of the pool, and sleeping callers that
    wake up without a notification. *)
Inductive Action :=
| Get (c : nat) (alive opens : nat -> bool)
| Resume (c : nat) (expired : bool) (alive opens : nat -> bool)
| Spurious (c : nat)
| Release (h who : nat)
| Close.

(** Only a connection that is leased can be released; a caller makes one call
    at a time, and one that sleeps looks again when its time is up only. *)
Definition act (a : Action) (p : t) : t :=
  match a with
  | Get c alive opens =>
      if bool_decide (c ∈ waiting p \/ c ∈ woken p) then p else snd (get_or_wait c false alive opens p)
  | Resume c expired alive opens =>
      if bool_decide (c ∈ woken p) || bool_decide (c ∈ waiting p) && expired then snd (resume c expired alive opens p) else p
  | Spurious c =>
      if bool_decide (c ∈ waiting p) then with_callers (remove_first c (waiting p)) (woken p ++ [c]) p else p
  | Release h who => if bool_decide (h ∈ leased p) then release h who p else p
  | Close => close p
  end.

Definition acts (l : list Action) (p : t) : t := foldl (fun p a => act a p) p l.

End Pool.
