(* ===== verification/DriversProps.v ===== *)
(** * Database drivers: properties

    No connection of a pool is used twice, lost or closed early; what a
    parameter is sent as reads back; a batch returns the counts of its
    statements or the error of the first that failed; SQLite statements are
    finalized.  And what goes wrong. *)

From Stdlib Require Import SpecFloat.
From S2P Require Import Prelude CxxString CxxDouble QueryBuilder Drivers.

(** ** The pool *)

Module PoolProps.
Import Pool.

(** Every connection that was opened is in the queue, leased or closed, and in
    one of them only; and while callers sleep, there is a notified one for each
    connection in the queue, and the pool is open. *)
Record sound (size : nat) (p : t) : Prop := {
  sound_partition : queue p ++ leased p ++ finished p ≡ₚ seq 0 (opened p);
  sound_closed : closed p = true -> queue p = [];
  sound_size : if closed p then (length (leased p) + lost p <= size)%nat
               else (length (queue p) + length (leased p) + lost p = size)%nat;
  sound_waiting : waiting p <> [] -> closed p = false /\ (length (queue p) <= length (woken p))%nat
}.

#[local] Arguments seq : simpl never.

Lemma seq_snoc n : seq 0 (S n) = seq 0 n ++ [n].
Proof. exact (seq_S n 0). Qed.

Lemma fill_sound n opens p p' : fill n opens p = inr p' -> closed p = false -> leased p = [] -> finished p = [] -> lost p = 0%nat ->
  waiting p = [] -> sound (length (queue p)) p -> sound (n + length (queue p)) p'.
Proof.
  revert p. induction n as [|n IH]; intros p X Cl L F Lo W S; cbn in X; [by injection X as <-|].
  destruct (opens (opened p)); [|done]. apply IH in X; try done; cbn in *.
  - by rewrite length_app, Nat.add_1_r, Nat.add_succ_r in X.
  - destruct S as [S1 S2 S3 _]. rewrite L, F, !app_nil_r in S1. split; cbn; [|by rewrite Cl| |by rewrite W].
    + rewrite L, F, !app_nil_r, seq_snoc. by rewrite S1.
    + by rewrite Cl, L, Lo, length_app; cbn; rewrite !Nat.add_0_r.
Qed.

Lemma construct_sound size a b opens p : construct size a b opens = inr p -> sound (Z.to_nat size) p.
Proof.
  unfold construct. destruct (_ || _); [done|]. intros X. apply fill_sound in X; try done.
  by rewrite Nat.add_0_r in X.
Qed.

Lemma sound_nodup size p : sound size p -> NoDup (queue p ++ leased p ++ finished p).
Proof. intros S. rewrite (sound_partition _ _ S). apply NoDup_seq. Qed.

Lemma filter_other h (l : list nat) : NoDup l -> h ∈ l -> h :: List.filter (fun x => negb (Nat.eqb x h)) l ≡ₚ l.
Proof.
  induction l as [|x l IH]; intros N E; [by apply not_elem_of_nil in E|]. apply NoDup_cons in N as [N1 N2]. cbn.
  destruct (Nat.eqb_spec x h) as [->|D]; cbn.
  - apply perm_skip. rewrite List.forallb_filter_id; [done|]. apply forallb_forall. intros y Y. apply list_elem_of_In in Y.
    destruct (Nat.eqb_spec y h) as [->|]; done.
  - apply elem_of_cons in E as [->|E]; [done|]. by rewrite Permutation_swap, IH.
Qed.

(** ** Callers *)

Lemma remove_first_perm c l : c ∈ l -> c :: remove_first c l ≡ₚ l.
Proof.
  induction l as [|x l IH]; intros E; [by apply not_elem_of_nil in E|]. cbn. destruct (Nat.eqb_spec x c) as [->|D]; [done|].
  apply elem_of_cons in E as [->|E]; [done|]. by rewrite Permutation_swap, IH.
Qed.

Lemma remove_first_length c l : c ∈ l -> length l = S (length (remove_first c l)).
Proof. intros E. by rewrite <- (Permutation_length (remove_first_perm c l E)). Qed.

(** Callers that come and go: what is left of the invariant. *)
Lemma sound_callers size p ws ns : sound size p ->
  (ws <> [] -> closed p = false /\ (length (queue p) <= length ns)%nat) -> sound size (with_callers ws ns p).
Proof. by intros [S1 S2 S3 _] W. Qed.

(** [notify_one] wakes one of the callers that sleep, if there is one. *)
Lemma notify_one_wakes who p : waiting p <> [] ->
  exists c, c ∈ waiting p /\ notify_one who p = with_callers (remove_first c (waiting p)) (woken p ++ [c]) p.
Proof.
  intros N. unfold notify_one. destruct (waiting p !! (who mod length (waiting p))%nat) as [c|] eqn:L.
  - exists c. split; [by eapply list_elem_of_lookup_2|done].
  - apply lookup_ge_None in L. destruct (waiting p); [done|]. pose proof (Nat.mod_upper_bound who (length (n :: l)) ltac:(done)). lia.
Qed.

(** A caller that is not notified any more takes a connection or finds none. *)
Lemma get_or_wait_sound size c ex alive opens p ws ns : sound size p ->
  (ws <> [] -> closed p = false /\ (length (queue p) <= S (length ns))%nat) ->
  sound size (snd (get_or_wait c ex alive opens (with_callers ws ns p))).
Proof.
  intros S W. pose proof S as [S1 S2 S3 _]. unfold get_or_wait, get_connection. cbn [closed queue opened with_callers].
  destruct (closed p) eqn:Cl; [apply sound_callers; [done|]; intros N; by destruct (W N)|].
  destruct (queue p) as [|h q] eqn:Q.
  - destruct ex; cbn; (split; cbn; rewrite ?Q, ?Cl; [done|done|done|intros _; cbn; split; [done|lia]]).
  - destruct (alive h); [|destruct (opens (opened p))]; cbn; (split; cbn in *; [|done|lia|]).
    + rewrite <- S1. cbn. symmetry. by rewrite Permutation_middle.
    + intros N. destruct (W N). split; [done|lia].
    + rewrite seq_snoc, <- S1, (Permutation_app_comm _ [opened p]). cbn. by rewrite <- !Permutation_middle.
    + intros N. destruct (W N). split; [done|lia].
    + rewrite <- S1. cbn. by rewrite <- !Permutation_middle.
    + done.
Qed.

Lemma release_sound size h who p : sound size p -> h ∈ leased p -> sound size (release h who p).
Proof.
  intros S E. pose proof (sound_nodup _ _ S) as ND. pose proof S as [S1 S2 S3 S4].
  apply NoDup_app in ND as (_ & _ & ND). apply NoDup_app in ND as (ND & _ & _).
  pose proof (filter_other h (leased p) ND E) as F. pose proof (Permutation_length F) as FL. cbn in FL.
  unfold release. set (rest := List.filter _ _) in *. clearbody rest. destruct (closed p) eqn:Cl.
  - split; cbn; [rewrite <- S1, <- F; cbn; by rewrite <- !Permutation_middle|done|lia|]. intros N. by destruct (S4 N).
  - set (p1 := mk (queue p ++ [h]) _ rest _ _ _ _ _).
    assert (queue p1 ++ leased p1 ++ finished p1 ≡ₚ seq 0 (opened p1)) as P1 by (cbn; rewrite <- S1, <- F; cbn; by rewrite <- app_assoc).
    assert ((length (queue p1) + length (leased p1) + lost p1 = size)%nat) as L1 by (cbn; rewrite length_app; cbn; lia).
    destruct (decide (waiting p = [])) as [W|W].
    + assert (notify_one who p1 = p1) as -> by (unfold notify_one; cbn; by rewrite W). split; [done|done|exact L1|done].
    + destruct (notify_one_wakes who p1 W) as (c & Ec & ->). split; cbn; [done|done|exact L1|]. intros _. split; [done|].
      destruct (S4 W) as [_ Le]. rewrite !length_app. cbn. lia.
Qed.

Lemma act_sound size a p : sound size p -> sound size (act a p).
Proof.
  intros S. pose proof S as [S1 S2 S3 S4]. destruct a as [c alive opens|c ex alive opens|c|h who|]; cbn.
  - case_bool_decide; [done|]. pose proof (get_or_wait_sound size c false alive opens p (waiting p) (woken p) S) as G.
    destruct p. apply G. intros N. destruct (S4 N). split; [done|cbn in *; lia].
  - unfold resume. destruct (bool_decide_reflect (c ∈ woken p)) as [E|E]; cbn.
    + apply get_or_wait_sound; [done|]. intros N. destruct (S4 N). split; [done|]. by rewrite <- remove_first_length.
    + destruct (bool_decide_reflect (c ∈ waiting p)) as [Ew|]; [|done]. destruct ex; [|done]. cbn. apply get_or_wait_sound; [done|].
      intros N. destruct S4 as [? ?]; [by intros Z; rewrite Z in Ew; apply not_elem_of_nil in Ew|]. split; [done|lia].
  - destruct (bool_decide_reflect (c ∈ waiting p)) as [E|E]; [|done]. apply sound_callers; [done|]. intros _.
    destruct S4 as [? ?]; [by intros Z; rewrite Z in E; apply not_elem_of_nil in E|]. rewrite length_app. split; [done|lia].
  - destruct (bool_decide_reflect (h ∈ leased p)) as [E|E]; [by apply release_sound|done].
  - unfold close. destruct (closed p) eqn:Cl; [done|]. split; cbn; [|done|lia|done].
    rewrite <- S1, !app_assoc. apply Permutation_app_tail. apply Permutation_app_comm.
Qed.

Lemma acts_sound size l p : sound size p -> sound size (acts l p).
Proof. revert p. induction l as [|a l IH]; intros p S; cbn; [done|]. by apply IH, act_sound. Qed.

Lemma lease_fresh size ex alive opens p h p' : sound size p -> get_connection ex alive opens p = Some (inr h, p') ->
  (h ∉ leased p /\ h ∉ finished p) /\ (h ∉ queue p' /\ leased p' = h :: leased p) /\ (alive h = true \/ h = opened p).
Proof.
  intros S X. pose proof (sound_nodup _ _ S) as ND. pose proof (sound_partition _ _ S) as P.
  unfold get_connection in X. destruct (closed p); [done|]. destruct (queue p) as [|g q] eqn:Q; [by destruct ex|].
  cbn in ND. apply NoDup_cons in ND as [N1 N2]. rewrite !elem_of_app in N1.
  destruct (alive g) eqn:A; [|destruct (opens (opened p)); [|done]]; injection X as <- <-; cbn.
  - repeat split; [tauto..|by left].
  - assert (opened p ∉ g :: q ++ leased p ++ finished p) as F.
    { change (g :: q ++ leased p ++ finished p) with ((g :: q) ++ leased p ++ finished p). rewrite P. intros E%elem_of_seq. lia. }
    rewrite elem_of_cons, !elem_of_app in F. repeat split; [tauto..|by right].
Qed.

(** A return wakes a caller that sleeps, the close all of them. *)
Lemma release_wakes h who p : closed p = false -> waiting p <> [] ->
  exists c, c ∈ waiting p /\ woken (release h who p) = woken p ++ [c] /\ c :: waiting (release h who p) ≡ₚ waiting p.
Proof.
  intros Cl W. unfold release. rewrite Cl.
  match goal with |- context [notify_one who ?q] => destruct (notify_one_wakes who q W) as (c & E & ->) end.
  exists c. split; [done|]. split; [done|]. by apply remove_first_perm.
Qed.

(** A caller that looks again goes on when there is a connection, the pool is
    closed or its time is up, and otherwise sleeps. *)
Lemma resume_ends c ex alive opens p : queue p <> [] \/ closed p = true \/ ex = true -> fst (resume c ex alive opens p) <> None.
Proof.
  intros X. unfold resume, get_or_wait, get_connection.
  destruct (bool_decide (c ∈ woken p)); cbn [closed queue opened with_callers]; (destruct (closed p) eqn:Cl; [done|]);
    (destruct (queue p) as [|h q]; [destruct ex; [done|naive_solver]|]); destruct (alive h); try done; by destruct (opens (opened p)).
Qed.

(** [C36] The pool of connections is safe.  Whatever leases, returns, time-outs
    and a close come in what order, each connection that was opened is in the
    queue, leased to one caller or closed, and in one place only; before the
    close no other is missing than those whose replacement could not be opened,
    and after it they are all closed once the last lease is back.  A lease is of
    a connection that is good, or of a new one, and that nobody else has.  No
    notification of the condition variable is lost: while a caller sleeps the
    pool is open and has been notified as often as there are connections in the
    queue, so that with no notified caller left the queue is empty; a return
    wakes one of the callers that sleep and the close wakes all; and a caller
    that looks again goes on if there is a connection, the pool is closed or
    its time is up. *)
Theorem pool_connections_safe size a b opens p0 l : construct size a b opens = inr p0 -> let p := acts l p0 in
  queue p ++ leased p ++ finished p ≡ₚ seq 0 (opened p) /\
  (if closed p then queue p = [] /\ (leased p = [] -> finished p ≡ₚ seq 0 (opened p))
   else (length (queue p) + length (leased p) + lost p = Z.to_nat size)%nat) /\
  (forall ex alive opens' h p', get_connection ex alive opens' p = Some (inr h, p') ->
    (h ∉ leased p /\ h ∉ finished p) /\ (h ∉ queue p' /\ leased p' = h :: leased p) /\ (alive h = true \/ h = opened p)) /\
  (waiting p <> [] -> closed p = false /\ (length (queue p) <= length (woken p))%nat) /\
  (closed p = false -> waiting p <> [] -> forall h who,
    exists c, c ∈ waiting p /\ woken (release h who p) = woken p ++ [c] /\ c :: waiting (release h who p) ≡ₚ waiting p) /\
  (waiting (close p) = [] /\ forall c, c ∈ waiting p -> c ∈ woken (close p)) /\
  (forall c ex alive opens', queue p <> [] \/ closed p = true \/ ex = true -> fst (resume c ex alive opens' p) <> None).
Proof.
  intros X p. assert (sound (Z.to_nat size) p) as S by (apply acts_sound; by eapply construct_sound).
  split; [by apply sound_partition with (Z.to_nat size)|]. split_and!.
  - destruct S as [S1 S2 S3 _]. destruct (closed p) eqn:Cl; [|done]. specialize (S2 eq_refl). split; [done|]. intros L.
    by rewrite S2, L in S1.
  - intros ex alive opens' h p'. by apply lease_fresh with (Z.to_nat size).
  - apply S.
  - intros Cl W h who. by apply release_wakes.
  - unfold close. destruct (closed p) eqn:Cl; [|done]. destruct (decide (waiting p = [])) as [W|W]; [done|].
    by destruct (sound_waiting _ _ S W) as [Y _]; rewrite Cl in Y.
  - intros c W. unfold close. destruct (closed p) eqn:Cl; [|cbn; by apply elem_of_app; right].
    destruct (sound_waiting _ _ S) as [Y _]; [by intros Z; rewrite Z in W; apply not_elem_of_nil in W|]. by rewrite Cl in Y.
  - intros c ex alive opens'. by apply resume_ends.
Qed.

Definition always (_ : nat) : bool := true.
Definition never (_ : nat) : bool := false.

(** Two connections and four callers: both are leased and two callers sleep, of
    which one is woken by a return and leases a connection that replaces a dead
    one; the pool is closed, which wakes the other, and a lease comes back. *)
Definition busy_pool : list Action :=
  [Get 10 always always; Get 11 always always; Get 12 always always; Get 13 always always; Release 0 0;
   Resume 12 false never always; Close; Resume 13 false always always; Release 2 0].

Lemma pool_connections_safe_witness :
  match construct 2 1 1 always with
  | inr p0 => let p := acts busy_pool p0 in
      (leased p, finished p, waiting p, woken p) = ([1]%nat, [2; 0]%nat, [], []) /\
      queue p ++ leased p ++ finished p ≡ₚ seq 0 (opened p) /\
      (if closed p then queue p = [] /\ (leased p = [] -> finished p ≡ₚ seq 0 (opened p))
       else (length (queue p) + length (leased p) + lost p = Z.to_nat 2)%nat)
  | inl _ => False
  end.
Proof.
  destruct (construct 2 1 1 always) as [|p0] eqn:E; [discriminate E|]. split; [injection E as <-; reflexivity|].
  destruct (pool_connections_safe 2 1 1 always p0 busy_pool E) as (A & B & _). split; [exact A|exact B].
Defined.

(** A connection that cannot be replaced is not counted any more: when this has
    happened to each of them, the pool of a database that is back gives none. *)
Lemma failed_reconnect_shrinks_pool :
  match construct 2 1 1 always with
  | inr p0 => let p := acts [Get 0 never never; Get 0 never never] p0 in
      closed p = false /\ leased p = [] /\
      forall alive opens, get_connection false alive opens p = None /\ get_connection true alive opens p = Some (inl TimedOut, p)
  | inl _ => False
  end.
Proof. done. Qed.

(** When a connection cannot be opened the constructor leaves those before it open. *)
Lemma constructor_leaks : construct 3 1 1 (fun n => Nat.ltb n 2) = inl (ConnectionFailed, [0; 1]%nat).
Proof. done. Qed.

End PoolProps.

(** ** UUIDs *)

Module UuidProps.
Import Uuid.

Lemma strtol_hex2 b : strtol 16 (hex2 b) = byte_val b.
Proof.
  apply Z.eqb_eq. exact (byte_forall (fun b => strtol 16 (hex2 b) =? byte_val b) ltac:(by vm_compute) b).
Qed.

(** Neither digit is a dash. *)
Lemma hex2_shape b : exists x y, hex2 b = [x; y] /\ x <> "-"%char /\ y <> "-"%char.
Proof.
  eexists _, _. split; [reflexivity|].
  assert (bool_decide (digit_char (Z.shiftr (byte_val b) 4) <> "-"%char /\ digit_char (Z.land (byte_val b) 15) <> "-"%char) = true) as H.
  { exact (byte_forall (fun b => bool_decide (digit_char (Z.shiftr (byte_val b) 4) <> "-"%char /\ digit_char (Z.land (byte_val b) 15) <> "-"%char))
      ltac:(by vm_compute) b). }
  by apply bool_decide_eq_true in H.
Qed.

Lemma digits_from_print n i u : length u = n -> digits_from n (to_string_from i u) = u.
Proof.
  revert n i. induction u as [|b u IH]; intros n i L; cbn in L; subst n; [done|]. cbn [to_string_from].
  pose proof (strtol_hex2 b) as V. destruct (hex2_shape b) as (x & y & E & X & Y). rewrite E in V. rewrite E. cbn [app digits_from].
  rewrite bool_decide_eq_false_2 by done. rewrite V, byte_of_val. f_equal. case_bool_decide; cbn [app]; [|by apply IH].
  destruct u as [|c u]; [done|]. exact (IH (S (length u)) (S i) eq_refl).
Qed.

Lemma from_to_string u : length u = 16%nat -> from_string (to_string u) = u.
Proof.
  intros L. unfold from_string, to_string. rewrite (digits_from_print 16 0 u L), L. cbn. apply app_nil_r.
Qed.

(** ** Order *)

(** The big-endian bytes of a number. *)
Definition big_endian (ks : list Z) (m : Z) : bytes := map (fun k => byte_of_Z (Z.shiftr m k)) ks.

Lemma lt_same a x y : lt (a ++ x) (a ++ y) = lt x y.
Proof. induction a as [|c a IH]; [done|]. cbn. by rewrite Z.ltb_irrefl, Z.eqb_refl, IH. Qed.

(** Two numbers with the same higher bytes compare by the next one. *)
Lemma lt_big_endian (n : nat) m m' x y : 0 <= m < m' -> m' < 2 ^ (8 * Z.of_nat n) ->
  lt (big_endian (map (fun i => 8 * Z.of_nat i) (rev (seq 0 n))) m ++ x)
     (big_endian (map (fun i => 8 * Z.of_nat i) (rev (seq 0 n))) m' ++ y) = true.
Proof.
  revert m m'. induction n as [|n IH]; intros m m' R B; [change (2 ^ _) with 1 in B; lia|].
  rewrite seq_S, rev_app_distr. cbn [rev app map big_endian lt plus]. rewrite !val_of_byte, !Z.shiftr_div_pow2 by lia.
  set (k := 8 * Z.of_nat n) in *. assert (0 < 2 ^ k) as P by (apply Z.pow_pos_nonneg; lia).
  assert (2 ^ (8 * Z.of_nat (S n)) = 256 * 2 ^ k) as E by (replace (8 * Z.of_nat (S n)) with (8 + k) by lia; apply Z.pow_add_r; lia).
  rewrite E in B. assert (m / 2 ^ k <= m' / 2 ^ k < 256) as D by (split; [apply Z.div_le_mono; lia|apply Z.div_lt_upper_bound; lia]).
  assert (0 <= m / 2 ^ k) by (apply Z.div_pos; lia). rewrite !Z.mod_small by lia.
  destruct (Z.ltb_spec (m / 2 ^ k) (m' / 2 ^ k)) as [L|L]; [done|]. cbn. rewrite (proj2 (Z.eqb_eq _ _)) by lia. cbn.
  (* the lower bytes are those of the remainders *)
  assert (forall z, 0 <= z -> big_endian (map (fun i => 8 * Z.of_nat i) (rev (seq 0 n))) z =
    big_endian (map (fun i => 8 * Z.of_nat i) (rev (seq 0 n))) (z mod 2 ^ k)) as Low.
  { intros z Hz. unfold big_endian. rewrite !map_map. apply map_ext_in. intros i I. apply in_rev, in_seq in I.
    unfold byte_of_Z. do 2 f_equal. change 256 with (2 ^ 8). apply Z.bits_inj'. intros b Hb.
    rewrite !Z.testbit_mod_pow2, !Z.shiftr_spec, Z.testbit_mod_pow2 by lia.
    destruct (Z.ltb_spec b 8); [|done]. cbn. by rewrite (proj2 (Z.ltb_lt _ _)) by lia. }
  unfold big_endian in *. rewrite (Low m), (Low m') by lia. apply IH; [|apply Z.mod_pos_bound; lia].
  pose proof (Z.div_mod m (2 ^ k)). pose proof (Z.div_mod m' (2 ^ k)). pose proof (Z.mod_pos_bound m (2 ^ k)).
  replace (m / 2 ^ k) with (m' / 2 ^ k) in * by lia. lia.
Qed.

(** The bytes of the time stay in front. *)
Lemma generate_front millis e : length e = 10%nat -> exists r,
  generate millis e = big_endian (map (fun i => 8 * Z.of_nat i) (rev (seq 0 6))) millis ++ r /\ length r = 10%nat.
Proof.
  intros L. do 10 (destruct e as [|? e]; [done|]). destruct e; [|done]. eexists. split; [reflexivity|done].
Qed.

(** UUIDs have the version and the variant of RFC 9562, read back from their text
    and are ordered by the millisecond in which they were generated. *)
Theorem uuids_ordered m m' e e' : 0 <= m < m' -> m' < 2 ^ 48 -> length e = 10%nat -> length e' = 10%nat ->
  lt (generate m e) (generate m' e') = true /\
  from_string (to_string (generate m e)) = generate m e /\
  exists b6 b8, generate m e !! 6%nat = Some b6 /\ generate m e !! 8%nat = Some b8 /\
    Z.shiftr (byte_val b6) 4 = 7 /\ Z.shiftr (byte_val b8) 6 = 2.
Proof.
  intros R B L L'. destruct (generate_front m e L) as (r & E & Lr). destruct (generate_front m' e' L') as (r' & E' & _).
  split; [rewrite E, E'; apply (lt_big_endian 6); [done|exact B]|].
  split; [apply from_to_string; rewrite E, length_app, Lr; reflexivity|].
  clear - L. do 10 (destruct e as [|? e]; [done|]). eexists _, _. split; [reflexivity|]. split; [reflexivity|].
  split; apply Z.eqb_eq.
  - exact (byte_forall (fun b => Z.shiftr (byte_val (byte_of_Z (Z.lor (Z.land (byte_val b) 0x0F) 0x70))) 4 =? 7) ltac:(by vm_compute) _).
  - exact (byte_forall (fun b => Z.shiftr (byte_val (byte_of_Z (Z.lor (Z.land (byte_val b) 0x3F) 0x80))) 6 =? 2) ltac:(by vm_compute) _).
Qed.

(** Two of the same millisecond are in either order. *)
Lemma uuids_of_one_millisecond : exists m e e',
  lt (generate m e) (generate m e') = false /\ lt (generate m e') (generate m e) = true /\ length e = 10%nat /\ length e' = 10%nat.
Proof. exists 1, (replicate 10 "b"%char), (replicate 10 "a"%char). by vm_compute. Qed.

(** Text that is no UUID is taken for one. *)
Lemma malformed_uuid_accepted : is_nil (from_string (bs "nothing!")) = true.
Proof. by vm_compute. Qed.

End UuidProps.

(** ** Points in time *)

Module TimeProps.
Import SqlTime.

(** The steps of [civil_from_days] within an era of 400 years. *)
Lemma year_of_era doe : 0 <= doe < 146097 -> let yoe := (doe - doe / 1460 + doe / 36524 - doe / 146096) / 365 in
  0 <= yoe < 400 /\ 0 <= doe - (365 * yoe + yoe / 4 - yoe / 100) <= 365.
Proof. intros R. cbn zeta. split; dm_lia. Qed.

Lemma month_of_year doy : 0 <= doy <= 365 -> let mp := (5 * doy + 2) / 153 in
  0 <= mp < 12 /\ 1 <= doy - (153 * mp + 2) / 5 + 1 <= 31.
Proof. intros R. cbn zeta. split; dm_lia. Qed.

Lemma civil_round z : let '(y, m, d) := civil_from_days z in
  days_from_civil y m d = z /\ 1 <= m <= 12 /\ 1 <= d <= 31.
Proof.
  unfold civil_from_days, days_from_civil. cbn zeta.
  pose proof (year_of_era ((z + 719468) mod 146097) (Z.mod_pos_bound (z + 719468) 146097 eq_refl)) as [Y D]. cbn zeta in Y, D.
  pose proof (month_of_year _ D) as [M DD]. cbn zeta in M, DD.
  pose proof (Z.div_mod (z + 719468) 146097 ltac:(lia)) as DM.
  set (era := (z + 719468) / 146097) in *. set (doe := (z + 719468) mod 146097) in *. clearbody era doe.
  set (yoe := (doe - doe / 1460 + doe / 36524 - doe / 146096) / 365) in *. clearbody yoe.
  set (doy := doe - (365 * yoe + yoe / 4 - yoe / 100)) in *.
  set (mp := (5 * doy + 2) / 153) in *. clearbody mp.
  destruct (Z.ltb_spec mp 10) as [L|L].
  - rewrite (proj2 (Z.leb_gt (mp + 3) 2)), (proj2 (Z.ltb_lt 2 (mp + 3))) by lia. split; [|lia].
    rewrite (Z.add_0_r (yoe + era * 400)), Z.div_add, Z.mod_add, Z.div_small, (Z.mod_small yoe) by lia.
    replace (mp + 3 - 3) with mp by lia. lia.
  - rewrite (proj2 (Z.leb_le (mp - 9) 2)), (proj2 (Z.ltb_ge 2 (mp - 9))) by lia. split; [|lia].
    replace (yoe + era * 400 + 1 - 1) with (yoe + era * 400) by lia. rewrite Z.div_add, Z.mod_add, Z.div_small, (Z.mod_small yoe) by lia.
    replace (mp - 9 + 9) with mp by lia. lia.
Qed.

Lemma gmtime_round t : timegm (gmtime t) = t /\ 1 <= mon (gmtime t) <= 12 /\ 1 <= mday (gmtime t) <= 31 /\
  0 <= hour (gmtime t) <= 23 /\ 0 <= min (gmtime t) <= 59 /\ 0 <= sec (gmtime t) <= 59.
Proof.
  unfold timegm, gmtime. pose proof (civil_round (t / 86400)) as C. destruct (civil_from_days (t / 86400)) as [[y m] d].
  destruct C as (C & Hm & Hd). cbn. rewrite C. split; [dm_lia|]. split; [done|]. split; [done|]. dm_lia.
Qed.

(** ** Text *)

Lemma number_app n acc s v r : number n acc s = Some (v, []) -> number n acc (s ++ r) = Some (v, r).
Proof.
  revert acc s. induction n as [|n IH]; intros acc s X; cbn in X.
  - destruct s; [|done]. by injection X as ->.
  - destruct s as [|x s]; [done|]. cbn. destruct (isdigit x); [by apply IH|done].
Qed.

Lemma digit_char_number d : 0 <= d < 10 -> isdigit (digit_char d) = true /\ byte_val (digit_char d) = 48 + d.
Proof.
  intros R. unfold digit_char, isdigit. rewrite (proj2 (Z.ltb_lt d 10)) by lia. rewrite val_of_byte_small by lia.
  by rewrite (proj2 (Z.leb_le 48 _)), (proj2 (Z.leb_le _ 57)) by lia.
Qed.

Lemma number_two n : 0 <= n < 100 -> number 2 0 (two n) = Some (n, []).
Proof.
  intros R. unfold two. cbn [number]. destruct (digit_char_number (n / 10) ltac:(dm_lia)) as [-> ->].
  destruct (digit_char_number (n mod 10) ltac:(dm_lia)) as [-> ->]. do 2 f_equal. dm_lia.
Qed.

Lemma field_two n lo hi r : 0 <= n < 100 -> lo <= n <= hi -> field 2 lo hi (two n ++ r) = Some (n, r).
Proof.
  intros R B. unfold field. rewrite (number_app _ _ _ _ _ (number_two n R)). cbn.
  by rewrite (proj2 (Z.leb_le lo n)), (proj2 (Z.leb_le n hi)) by lia.
Qed.

Lemma literal_app p r : literal p (p ++ r) = Some r.
Proof. unfold literal. by rewrite starts_with_app, drop_app_length. Qed.

(** A number of four digits. *)
Lemma number_four n : 1000 <= n <= 9999 -> number 4 0 (to_dec_signed n) = Some (n, []).
Proof.
  intros R. unfold to_dec_signed, to_dec, digits_fuel. rewrite (proj2 (Z.ltb_ge n 0)) by lia.
  assert (9 <= Z.log2 n) as L by (change 9 with (Z.log2 512); apply Z.log2_le_mono; lia).
  replace (Z.to_nat (Z.log2 n)) with (S (S (S (Z.to_nat (Z.log2 n) - 3)))) by lia. cbn [digits_of].
  rewrite (proj2 (Z.ltb_ge n 10)), (proj2 (Z.ltb_ge (n / 10) 10)), (proj2 (Z.ltb_ge (n / 10 / 10) 10)),
    (proj2 (Z.ltb_lt (n / 10 / 10 / 10) 10)) by dm_lia.
  cbn [number].
  destruct (digit_char_number (n / 10 / 10 / 10 mod 10) ltac:(dm_lia)) as [-> ->].
  destruct (digit_char_number (n / 10 / 10 mod 10) ltac:(dm_lia)) as [-> ->].
  destruct (digit_char_number (n / 10 mod 10) ltac:(dm_lia)) as [-> ->].
  destruct (digit_char_number (n mod 10) ltac:(dm_lia)) as [-> ->]. do 2 f_equal. dm_lia.
Qed.

(** A point in time with a year of four digits reads back to the second. *)
Lemma time_roundtrip sep last ns : 1000 <= year (gmtime (to_time_t ns)) <= 9999 ->
  string_to_time sep (time_to_string sep last ns) = Some (Z.quot ns 1000000000 * 1000000000).
Proof.
  intros Y. unfold string_to_time, time_to_string, put_time, get_time.
  destruct (gmtime_round (to_time_t ns)) as (G & Mo & D & H & Mi & S). set (x := gmtime (to_time_t ns)) in *. clearbody x.
  assert (field 4 0 9999 (to_dec_signed (year x) ++ bs "-" ++ two (mon x) ++ bs "-" ++ two (mday x) ++ sep ++ two (hour x) ++
    bs ":" ++ two (min x) ++ bs ":" ++ two (sec x) ++ last) = Some (year x, bs "-" ++ two (mon x) ++ bs "-" ++ two (mday x) ++ sep ++
    two (hour x) ++ bs ":" ++ two (min x) ++ bs ":" ++ two (sec x) ++ last)) as ->.
  { unfold field. rewrite (number_app _ _ _ _ _ (number_four _ Y)). cbn -[Z.leb].
    by rewrite (proj2 (Z.leb_le 0 (year x))), (proj2 (Z.leb_le (year x) 9999)) by lia. }
  cbn [mbind option_bind].
  do 5 (rewrite literal_app; cbn [mbind option_bind]; rewrite field_two by lia; cbn [mbind option_bind]).
  cbn. unfold from_time_t, to_time_t in *. f_equal. f_equal. destruct x. exact G.
Qed.

End TimeProps.

(** ** Parameters *)

Module ParamProps.
Import SqlValue Postgres UuidProps TimeProps.

Lemma stoll_digits neg s v : s <> [] -> Forall (fun x => is_Some (digit_val 10 x)) s -> fst (digits_run 10 0 s) = v ->
  - 2 ^ 63 <= (if neg : bool then - v else v) < 2 ^ 63 ->
  stoll ((if neg then bs "-" else []) ++ s) = inr (if neg then - v else v).
Proof.
  intros N D V R. destruct s as [|x r]; [done|]. pose proof D as D'. apply Forall_cons in D' as [Dx _].
  assert (is_Some (digit_val 16 x)) as H16 by (by eapply digit_val_mono; [|exact Dx]).
  pose proof (hex_digit_plain x H16) as (P & _). pose proof (proj1 (digit_val_10 x) Dx) as Dg.
  unfold stoll. destruct neg; cbn [app bs list_ascii_of_string].
  - change (drop_while isspace ("-"%char :: x :: r)) with ("-"%char :: x :: r). cbn [strip_sign]. rewrite Dg, V.
    by rewrite (proj2 (Z.leb_le _ _)), (proj2 (Z.ltb_lt _ _)) by lia.
  - rewrite drop_while_id, strip_sign_digits by done. rewrite Dg, V. by rewrite (proj2 (Z.leb_le _ _)), (proj2 (Z.ltb_lt _ _)) by lia.
Qed.

Lemma stoll_to_dec v : - 2 ^ 63 <= v < 2 ^ 63 -> stoll (to_dec_signed v) = inr v.
Proof.
  intros R. unfold to_dec_signed. destruct (Z.ltb_spec v 0) as [L|L].
  - destruct (to_dec_spec (- v) ltac:(lia)) as (A & B & C). pose proof (stoll_digits true _ (- v) A B C ltac:(lia)) as H.
    by rewrite Z.opp_involutive in H.
  - destruct (to_dec_spec v L) as (A & B & C). exact (stoll_digits false _ v A B C ltac:(lia)).
Qed.

(** Text without a zero byte is not cut. *)
Definition plain (s : bytes) : Prop := Forall (fun x => byte_val x <> 0) s.

Lemma c_str_plain s : plain s -> c_str s = s.
Proof.
  induction s as [|x s IH]; intros P; [done|]. apply Forall_cons in P as [X P]. cbn. rewrite (proj2 (Z.eqb_neq _ _)) by done. cbn.
  f_equal. by apply IH.
Qed.

Lemma plain_digit d : 0 <= d < 16 -> byte_val (digit_char d) <> 0.
Proof. intros R. unfold digit_char. destruct (d <? 10) eqn:E; to_prop; rewrite val_of_byte_small by lia; lia. Qed.

Lemma plain_hex2 b : plain (hex2 b).
Proof.
  pose proof (byte_val_range b). repeat constructor; apply plain_digit.
  - rewrite Z.shiftr_div_pow2 by lia. change (2 ^ 4) with 16. dm_lia.
  - change 15 with (Z.ones 4). rewrite Z.land_ones by lia. apply Z.mod_pos_bound. lia.
Qed.

Lemma plain_dec n : plain (to_dec_signed n).
Proof.
  assert (forall m, 0 <= m -> plain (to_dec m)) as D.
  { intros m R. eapply Forall_impl; [by apply to_dec_isdigit|]. intros x X E. unfold isdigit in X. rewrite E in X. done. }
  unfold to_dec_signed. destruct (Z.ltb_spec n 0); [constructor; [done|apply D; lia]|by apply D].
Qed.

Lemma plain_flat (b : bytes) : plain (flat_map hex2 b).
Proof. induction b as [|x b IH]; [constructor|]. apply (Forall_app _ (hex2 x)). split; [apply plain_hex2|done]. Qed.

Lemma plain_uuid i u : plain (Uuid.to_string_from i u).
Proof.
  revert i. induction u as [|x u IH]; intros i; [constructor|]. apply (Forall_app _ (hex2 x)). split; [apply plain_hex2|].
  apply Forall_app. split; [|apply IH]. case_bool_decide; repeat constructor. done.
Qed.

Lemma plain_two n : 0 <= n < 100 -> plain (SqlTime.two n).
Proof. intros R. repeat constructor; apply plain_digit; dm_lia. Qed.

Lemma plain_time ns : plain (time_text ns).
Proof.
  unfold time_text, SqlTime.time_to_string, SqlTime.put_time. destruct (gmtime_round (SqlTime.to_time_t ns)) as (_ & A & B & C & D & E).
  repeat (apply Forall_app; split); try apply plain_dec; try (apply plain_two; lia); repeat constructor; done.
Qed.

(** Bytes in hexadecimal read back. *)
Lemma unhex_flat b : unhex (flat_map hex2 b) = b.
Proof.
  induction b as [|x b IH]; [done|]. change (flat_map hex2 (x :: b)) with (hex2 x ++ flat_map hex2 b). pose proof (strtol_hex2 x) as V.
  unfold hex2 in *. cbn [app unhex]. by rewrite V, byte_of_val, IH.
Qed.

(** ** What is sent reads back *)

#[local] Arguments c_str : simpl never.
#[local] Arguments time_text : simpl never.
#[local] Arguments Uuid.to_string : simpl never.
#[local] Arguments escape_bytea : simpl never.

(** Reading a column with the getter for the type of a parameter. *)
Definition read (p : Param) (col : nat) (s : ResultSet) : option Param :=
  match p with
  | Null => if is_null col s then Some Null else None
  | Int _ => match get_int col s with inr v => Some (Int v) | inl _ => None end
  | Double _ => None
  | Text _ => Some (Text (get_string col s))
  | Blob _ => Some (Blob (get_blob col s))
  | Bool _ => Some (Bool (get_bool col s))
  | UuidValue _ => Some (UuidValue (get_uuid col s))
  | Time _ => Time <$> get_time col s
  end.

Definition storable (p : Param) : Prop :=
  match p with
  | Int v => - 2 ^ 63 <= v < 2 ^ 63
  | Double _ => False
  | Text v => plain v
  | UuidValue v => length v = 16%nat
  | Time ns => 1000 <= SqlTime.year (SqlTime.gmtime (SqlTime.to_time_t ns)) <= 9999
  | Null | Blob _ | Bool _ => True
  end.

(** Fractions of a second are not sent. *)
Definition kept (p : Param) : Param := match p with Time ns => Time (Z.quot ns 1000000000 * 1000000000) | p => p end.

(** [C38] A parameter that PostgreSQL stores as the text it was sent as, reads back
    with the getter of its type: integers, text without zero bytes, blobs,
    booleans, UUIDs and null as they were, points in time to the second. *)
Theorem parameters_roundtrip p col s : storable p -> param_values [p] = [value col s] -> read p col s = Some (kept p).
Proof.
  intros S X. destruct p as [|v|v|v|v|v|v|ns]; cbn in X; injection X as X; cbn [read kept];
    unfold is_null, get_int, get_string, get_blob, get_bool, get_uuid, get_time, get_string; rewrite <- ?X; cbn [default id].
  - done.
  - by rewrite (c_str_plain _ (plain_dec v)), stoll_to_dec.
  - done.
  - by rewrite c_str_plain.
  - rewrite c_str_plain by (apply Forall_app; split; [repeat constructor; done|apply plain_flat]).
    unfold escape_bytea. rewrite starts_with_app. change 2%nat with (length (bs "\x")). by rewrite drop_app_length, unhex_flat.
  - by destruct v.
  - rewrite c_str_plain by apply plain_uuid. by rewrite from_to_string.
  - rewrite c_str_plain by apply plain_time. unfold text_time, time_text. by rewrite time_roundtrip.
Qed.

Lemma parameters_roundtrip_witness : let ns := 1700000000123456789 in
  read (Time ns) 0 (mkSet [[Some (time_text ns)]] 0) = Some (kept (Time ns)).
Proof. apply (parameters_roundtrip (Time 1700000000123456789) 0 (mkSet [[Some (time_text 1700000000123456789)]] 0)); vm_compute; [split; discriminate|reflexivity]. Defined.

(** A zero byte ends a text. *)
Lemma zero_byte_truncates : param_values [Text (bs "user" ++ [byte_of_Z 0] ++ bs "admin")] = [Some (bs "user")].
Proof. by vm_compute. Qed.

(** Six digits after the point are sent of a double. *)
Lemma small_double_is_zero : serialize_param (Double (ddiv (d_of_Z 1) (d_of_Z 10000000))) = bs "0.000000".
Proof. by vm_compute. Qed.

(** A question mark in a literal is numbered as well. *)
Lemma placeholder_in_literal : convert_placeholders (bs "SELECT '?' WHERE a = ?") = bs "SELECT '$1' WHERE a = $2".
Proof. by vm_compute. Qed.

End ParamProps.

(** ** Batches *)

Module BatchProps.
Import SqlValue Postgres.

Section Batch.
Context {C : Type} `{Libpq C}.

(** *** What libpq does when the server takes a batch and answers it *)

(** Every parameter set is taken. *)
Inductive sends : list (list Param) -> C -> C -> Prop :=
| sends_nil c : sends [] c c
| sends_cons ps sets c c1 c2 : PQsendQueryPrepared (param_values ps) c = (true, c1) -> sends sets c1 c2 -> sends (ps :: sets) c c2.

(** The output is written, waiting for the socket as often as it takes. *)
Inductive flushes : C -> C -> Prop :=
| flushes_done c c1 : PQflush c = (0, c1) -> flushes c c1
| flushes_wait c c1 c2 c3 k : PQflush c = (k, c1) -> 0 < k -> wait_for_socket true c1 = (true, c2) -> flushes c2 c3 -> flushes c c3.

(** The results arrive, with null results between them and waiting for input,
    and the synchronization point at the end. *)
Inductive delivers : C -> list PGresult -> C -> Prop :=
| delivers_sync c r c1 : PQgetResult c = (Some r, c1) -> status r = PGRES_PIPELINE_SYNC -> delivers c [] c1
| delivers_result c r c1 rs c2 :
    PQgetResult c = (Some r, c1) -> status r <> PGRES_PIPELINE_SYNC -> delivers c1 rs c2 -> delivers c (r :: rs) c2
| delivers_null c c1 rs c2 : PQgetResult c = (None, c1) -> PQisBusy c1 = false -> delivers c1 rs c2 -> delivers c rs c2
| delivers_wait c c1 c2 c3 rs c4 : PQgetResult c = (None, c1) -> PQisBusy c1 = true -> wait_for_socket false c1 = (true, c2) ->
    PQconsumeInput c2 = (true, c3) -> delivers c3 rs c4 -> delivers c rs c4.

Definition goes_nonblocking (c c1 : C) : Prop := if PQisnonblocking c then c1 = c else PQsetnonblocking true c = (true, c1).

(** The batch is answered by [rs], and the connection leaves pipeline mode as [c']. *)
Inductive answered (sql : bytes) (sets : list (list Param)) (c : C) (rs : list PGresult) (c' : C) : Prop :=
| answered_intro p c1 c2 c3 c4 c5 c6 c7 c8 :
    PQprepare (convert_placeholders sql) c = (Some p, c1) -> status p = PGRES_COMMAND_OK ->
    PQenterPipelineMode c1 = (true, c2) -> goes_nonblocking c2 c3 -> sends sets c3 c4 -> PQpipelineSync c4 = (true, c5) ->
    flushes c5 c6 -> delivers c6 rs c7 -> PQexitPipelineMode c7 = (true, c8) -> c' = restore (negb (PQisnonblocking c2)) c8 ->
    answered sql sets c rs c'.

(** *** The loops *)

Lemma send_all_sends sets c c' : sends sets c c' -> send_all sets c = (None, c').
Proof. induction 1 as [|ps sets c c1 c2 E S IH]; cbn; [done|]. by rewrite E. Qed.

Lemma flush_loop_flushes c c' b : flushes c c' -> failed b = false -> exists n, forall fuel, (n <= fuel)%nat -> flush_loop fuel b c = Some (b, c').
Proof.
  intros F B. induction F as [c c1 E|c c1 c2 c3 k E K W F [n IH]].
  - exists 1%nat. intros [|fuel] L; [lia|]. cbn. by rewrite B, E.
  - exists (S n). intros [|fuel] L; [lia|]. cbn. rewrite B, E, (proj2 (Z.eqb_neq k 0)), (proj2 (Z.ltb_ge k 0)), W by lia. apply IH. lia.
Qed.

Definition first_failure (rs : list PGresult) : option PGresult := head (List.filter (fun r => negb (succeeded r)) rs).

(** The variables after the results. *)
Record after (b : Batch) (rs : list PGresult) (b' : Batch) : Prop := {
  after_rows : affected_rows b' = affected_rows b ++ map affected (List.filter succeeded rs);
  after_sync : saw_sync b' = true;
  after_failed : failed b = false -> match first_failure rs with
    | None => failed b' = false
    | Some r => failed b' = true /\ (error_text r <> [] -> state_ b' = default [] (sqlstate r) /\ error_message b' = error_text r)
    end;
  after_kept : failed b = true -> (failed b', state_ b', error_message b') = (true, state_ b, error_message b)
}.

(** A result that is a failure changes nothing but the error, and only the first does. *)
Lemma consume_failure r c b : status r <> PGRES_PIPELINE_SYNC -> succeeded r = false ->
  let b' := consume_result r c b in
  affected_rows b' = affected_rows b /\ saw_sync b' = saw_sync b /\ failed b' = true /\
  (failed b = true -> b' = b) /\
  (failed b = false -> error_text r <> [] -> state_ b' = default [] (sqlstate r) /\ error_message b' = error_text r).
Proof.
  intros N S. unfold consume_result. rewrite S. cbn zeta.
  assert (error_text r <> [] -> capture r c = (default [] (sqlstate r), error_text r)) as Ca.
  { intros E. unfold capture. by rewrite bool_decide_eq_false_2. }
  destruct (failed b) eqn:F.
  - unfold succeeded in S. destruct (status r); by split_and!.
  - unfold succeeded in S. destruct (status r); try done; (split_and!; try by destruct (capture r c)); intros _ E;
      rewrite (Ca E); cbn; rewrite ?bool_decide_eq_false_2 by done; done.
Qed.

Lemma after_consume r c b rs b' : status r <> PGRES_PIPELINE_SYNC -> after (consume_result r c b) rs b' -> after b (r :: rs) b'.
Proof.
  intros N A. destruct (succeeded r) eqn:S.
  - unfold consume_result in A. rewrite S in A. destruct A as [A1 A2 A3 A4]. cbn in *.
    split; unfold first_failure; cbn; rewrite ?S; cbn; [by rewrite A1, <- app_assoc|done..].
  - destruct (consume_failure r c b N S) as (R & Sy & F & K & M). destruct A as [A1 A2 A3 A4]. specialize (A4 F).
    split; unfold first_failure; cbn; rewrite ?S; cbn; [by rewrite A1, R|done| |].
    + intros Fb. injection A4 as E1 E2 E3. split; [done|]. rewrite E2, E3. by apply M.
    + intros Fb. by rewrite A4, K.
Qed.

Lemma drain_delivers c rs c' : delivers c rs c' -> forall b, saw_sync b = false ->
  exists n b', after b rs b' /\ forall fuel, (n <= fuel)%nat -> drain_loop fuel b c = Some (b', c').
Proof.
  induction 1 as [c r c1 E St|c r c1 rs c2 E St D IH|c c1 rs c2 E B D IH|c c1 c2 c3 rs c4 E B W I D IH]; intros b Sy.
  - exists 2%nat, (mkBatch (affected_rows b) (failed b) (state_ b) (error_message b) true). split.
    + split; cbn; [by rewrite app_nil_r|done..|intros F; by rewrite F].
    + intros [|[|fuel]] L; [lia..|]. cbn. rewrite Sy, E. unfold consume_result, succeeded. by rewrite St.
  - destruct (IH (consume_result r c1 b)) as (n & b' & A & R).
    { destruct (succeeded r) eqn:S; [unfold consume_result; by rewrite S|]. by destruct (consume_failure r c1 b St S) as (_ & -> & _). }
    exists (S n), b'. split; [by eapply after_consume|]. intros [|fuel] L; [lia|]. cbn. rewrite Sy, E. apply R. lia.
  - destruct (IH b Sy) as (n & b' & A & R). exists (S n), b'. split; [done|]. intros [|fuel] L; [lia|]. cbn. rewrite Sy, E, B. apply R. lia.
  - destruct (IH b Sy) as (n & b' & A & R). exists (S n), b'. split; [done|]. intros [|fuel] L; [lia|]. cbn. rewrite Sy, E, B, W, I. apply R. lia.
Qed.

(** What the caller of a batch gets. *)
Definition outcome (rs : list PGresult) : result Exn (list Z) :=
  match first_failure rs with
  | None => inr (map affected rs)
  | Some r => inl (postgres_error (default [] (sqlstate r)) (error_text r) (bs "Postgres batch execution failed"))
  end.

Lemma no_failure rs : first_failure rs = None -> List.filter succeeded rs = rs.
Proof.
  induction rs as [|r rs IH]; [done|]. unfold first_failure. cbn. destruct (succeeded r); cbn; [|done]. intros X. f_equal. by apply IH.
Qed.

(** [C37] A batch that the server takes and answers terminates with the number of
    rows each statement affected, in the order of the parameter sets, when every
    statement succeeded, and otherwise with the exception for the first one that
    failed; either way all results are consumed, and the connection has left
    pipeline mode and is blocking again if it was. *)
Theorem batch_answered sql sets c rs c' : answered sql sets c rs c' -> sets <> [] -> length rs = length sets ->
  (forall r, first_failure rs = Some r -> error_text r <> []) ->
  exists n, forall fuel, (n <= fuel)%nat -> execute_batch fuel sql sets c = Some (outcome rs, c').
Proof.
  intros [p c1 c2 c3 c4 c5 c6 c7 c8 E1 E2 E3 NB Se E5 Fl De E8 ->] N L T.
  set (b := mkBatch [] false [] [] false). destruct (flush_loop_flushes _ _ b Fl eq_refl) as [n1 Hf].
  destruct (drain_delivers _ _ _ De b eq_refl) as (n2 & b' & [A1 A2 A3 _] & Hd). exists (n1 + n2)%nat. intros fuel Lf.
  assert (pipeline fuel sets (negb (PQisnonblocking c2)) c3 = Some (outcome rs, restore (negb (PQisnonblocking c2)) c8)) as P.
  { unfold pipeline. rewrite (send_all_sends _ _ _ Se), E5. cbn [default id]. fold b. rewrite Hf by lia. cbn [mbind option_bind].
    rewrite Hd by lia. cbn [mbind option_bind]. f_equal. unfold conclude. rewrite A2, E8. cbn [negb andb].
    specialize (A3 eq_refl). unfold outcome. destruct (first_failure rs) as [r|] eqn:F.
    - destruct A3 as [Fa M]. destruct (M (T r eq_refl)) as [M1 M2]. by rewrite Fa, M1, M2, bool_decide_eq_false_2 by (by apply T).
    - rewrite A3, A1, (no_failure rs F). cbn [app affected_rows b]. by rewrite bool_decide_eq_true_2 by (by rewrite length_map). }
  unfold execute_batch. destruct sets as [|ps sets]; [done|]. rewrite E1, E2, E3. cbn [negb].
  unfold goes_nonblocking in NB. destruct (PQisnonblocking c2); [by subst c3|]. by rewrite NB.
Qed.

(** A connection that has no results to give and is not busy is asked for ever. *)
Lemma lost_connection_spins c : PQgetResult c = (None, c) -> PQisBusy c = false ->
  forall fuel b, saw_sync b = false -> drain_loop fuel b c = None.
Proof. intros E B. induction fuel as [|fuel IH]; intros b Sy; [done|]. cbn. rewrite Sy, E, B. by apply IH. Qed.

End Batch.
End BatchProps.

(** *** A connection, and connections that fail *)

Module BatchCases.
Import SqlValue Postgres BatchProps.

(** Results are waiting in [inbox]; [busy] is whether more are expected, [alive]
    whether the socket is well. *)
Record Wire := mkWire { in_pipeline : bool; nonblock : bool; inbox : list (option PGresult); busy : bool; alive : bool; syncs : bool }.

Definition counted (n : Z) : PGresult := mkResult PGRES_COMMAND_OK None [] (to_dec n) [].
Definition refused (state text : bytes) : PGresult := mkResult PGRES_OTHER (Some state) text [] [].
Definition aborted : PGresult := mkResult PGRES_PIPELINE_ABORTED None [] [] [].
Definition sync : PGresult := mkResult PGRES_PIPELINE_SYNC None [] [] [].

Definition set_pipeline (b : bool) (c : Wire) : Wire := mkWire b (nonblock c) (inbox c) (busy c) (alive c) (syncs c).
Definition set_nonblock (b : bool) (c : Wire) : Wire := mkWire (in_pipeline c) b (inbox c) (busy c) (alive c) (syncs c).
Definition set_inbox (i : list (option PGresult)) (c : Wire) : Wire := mkWire (in_pipeline c) (nonblock c) i (busy c) (alive c) (syncs c).

#[export] Instance wire_libpq : Libpq Wire := {
  PQexecParams _ _ c := (if in_pipeline c then None else Some (counted 0), c);
  PQprepare _ c := (Some (counted 0), c);
  PQenterPipelineMode c := (true, set_pipeline true c);
  PQexitPipelineMode c := (true, set_pipeline false c);
  PQisnonblocking c := nonblock c;
  PQsetnonblocking b c := (true, set_nonblock b c);
  PQsendQueryPrepared _ c := (true, c);
  PQpipelineSync c := (syncs c, c);
  PQflush c := (0, c);
  PQgetResult c := match inbox c with [] => (None, c) | r :: i => (r, set_inbox i c) end;
  PQisBusy c := busy c;
  PQconsumeInput c := (alive c, c);
  wait_for_socket _ c := (alive c, c);
  PQerrorMessage _ := bs "no connection";
  PQstatus_ok _ := true
}.

(** Three statements, of which the second violates a constraint. *)
Definition violated : list (option PGresult) := [Some (counted 2); None; Some (refused (bs "23505") (bs "duplicate key")); None; Some aborted; None; Some sync].

Lemma batch_answered_witness : exists n, forall fuel, (n <= fuel)%nat ->
  execute_batch fuel (bs "INSERT INTO t VALUES (?)") [[Int 1]; [Int 2]; [Int 3]] (mkWire false false violated false true true) =
  Some (outcome [counted 2; refused (bs "23505") (bs "duplicate key"); aborted], mkWire false false [] false true true).
Proof.
  apply (batch_answered (bs "INSERT INTO t VALUES (?)") [[Int 1]; [Int 2]; [Int 3]] (mkWire false false violated false true true)
    [counted 2; refused (bs "23505") (bs "duplicate key"); aborted] (mkWire false false [] false true true)).
  - eapply answered_intro; try reflexivity.
    + do 3 (eapply sends_cons; [reflexivity|]). apply sends_nil.
    + reflexivity.
    + apply flushes_done. reflexivity.
    + eapply delivers_result; [reflexivity|done|]. eapply delivers_null; [reflexivity|done|].
      eapply delivers_result; [reflexivity|done|]. eapply delivers_null; [reflexivity|done|].
      eapply delivers_result; [reflexivity|done|]. eapply delivers_null; [reflexivity|done|].
      eapply delivers_sync; reflexivity.
    + reflexivity.
  - done.
  - reflexivity.
  - intros r. vm_compute. intros [= <-]. done.
Defined.

Example violated_outcome : outcome [counted 2; refused (bs "23505") (bs "duplicate key"); aborted] =
  inl (UniqueConstraintViolation (bs "Postgres batch execution failed: duplicate key")).
Proof. by vm_compute. Qed.

(** When the synchronization point cannot be queued, nothing is waiting and
    nothing is expected: [execute_batch] does not return. *)
Lemma batch_never_returns fuel sql : execute_batch fuel sql [[]] (mkWire false false [] false true false) = None.
Proof.
  unfold execute_batch. cbn. unfold pipeline. cbn. destruct fuel as [|fuel]; [done|]. cbn [flush_loop failed mbind option_bind].
  by rewrite (lost_connection_spins (mkWire true true [] false true false)).
Qed.

(** When waiting fails, the connection is given back in pipeline mode, with a good
    status: whoever leases it next cannot use it. *)
Lemma broken_pipeline_returned : match execute_batch 5 (bs "") [[]] (mkWire false false [] true false true) with
  | Some (inl _, c) => in_pipeline c = true /\ PQstatus_ok c = true /\ exists e, fst (execute (bs "SELECT 1") [] c) = inl e
  | _ => False
  end.
Proof. vm_compute. split; [done|]. split; [done|]. by eexists. Qed.

End BatchCases.

(** ** SQLite statements *)

Module SqliteProps.
Import SqlValue Sqlite.

(** The statements of a connection that are not finalized. *)
Class EngineLaws (D : Type) `{Engine D} := {
  live : D -> list nat;
  live_prepare : forall sql d rc stmt d', sqlite3_prepare_v2 sql d = ((rc, stmt), d') ->
    live d' = (if bool_decide (rc = SQLITE_OK) then option_list stmt else []) ++ live d;
  live_clear : forall s d, live (sqlite3_clear_bindings s d) = live d;
  live_bind : forall s b d, live (sqlite3_bind s b d) = live d;
  live_step : forall s d, live (snd (sqlite3_step s d)) = live d;
  live_reset : forall s d, live (snd (sqlite3_reset s d)) = live d;
  live_finalize : forall s d l, live d = s :: l -> live (sqlite3_finalize s d) = l;
  close_busy : forall d, live d <> [] -> fst (sqlite3_close d) <> SQLITE_OK
}.

Section Statements.
Context {D : Type} `{EngineLaws D}.

Lemma live_on stmt f d : (forall s d, live (f s d) = live d) -> live (on stmt f d) = live d.
Proof. intros F. by destruct stmt; cbn. Qed.

Lemma live_stepped stmt d : live (snd (step stmt d)) = live d.
Proof. destruct stmt as [s|]; [apply live_step|done]. Qed.

Lemma live_resetted stmt d : live (snd (reset stmt d)) = live d.
Proof. destruct stmt as [s|]; [apply live_reset|done]. Qed.

Lemma live_finalized stmt d l : live d = option_list stmt ++ l -> live (on stmt sqlite3_finalize d) = l.
Proof. destruct stmt as [s|]; cbn; [apply live_finalize|done]. Qed.

Lemma prepare_live sql prefix d : match prepare sql prefix d with
  | (inl _, d') => live d' = live d
  | (inr stmt, d') => live d' = option_list stmt ++ live d
  end.
Proof.
  unfold prepare. destruct (sqlite3_prepare_v2 sql d) as [[rc stmt] d'] eqn:E. apply live_prepare in E.
  destruct (bool_decide (rc = SQLITE_OK)); done.
Qed.

Lemma execute_finalizes sql params d : live (snd (execute sql params d)) = live d.
Proof.
  unfold execute. pose proof (prepare_live sql (bs "SQL prepare failed") d) as P.
  destruct (prepare sql _ d) as [[e|stmt] d1]; [done|].
  set (d2 := on stmt _ d1). assert (live d2 = live d1) as L2 by (apply live_on; intros; apply live_bind).
  pose proof (live_stepped stmt d2) as L3. destruct (step stmt d2) as [rc d3]. cbn in L3.
  destruct (stepped rc); cbn [snd]; apply live_finalized; congruence.
Qed.

Lemma batch_finalizes stmt sets rows d l : live d = option_list stmt ++ l -> live (snd (batch_loop stmt sets rows d)) = l.
Proof.
  revert rows d. induction sets as [|ps sets IH]; intros rows d L; cbn [batch_loop]; [by apply live_finalized|].
  set (d1 := on stmt sqlite3_clear_bindings d). assert (live d1 = live d) as L1 by (apply live_on; intros; apply live_clear).
  set (d2 := on stmt _ d1). assert (live d2 = live d1) as L2 by (apply live_on; intros; apply live_bind).
  pose proof (live_stepped stmt d2) as L3. destruct (step stmt d2) as [rc d3]. cbn in L3.
  destruct (stepped rc); [|apply live_finalized; congruence].
  pose proof (live_resetted stmt d3) as L4. destruct (reset stmt d3) as [rc' d4]. cbn in L4.
  destruct (bool_decide _); [apply IH; congruence|apply live_finalized; congruence].
Qed.

(** Every statement that [execute] and [execute_batch] prepare is finalized,
    however they end. *)
Theorem statements_finalized sql params sets d :
  live (snd (execute sql params d)) = live d /\ live (snd (execute_batch sql sets d)) = live d.
Proof.
  split; [apply execute_finalizes|]. unfold execute_batch. destruct sets as [|ps sets]; [done|].
  pose proof (prepare_live sql (bs "SQL batch prepare failed") d) as P. destruct (prepare sql _ d) as [[e|stmt] d1]; [done|].
  by apply batch_finalizes.
Qed.

(** The statement of a query is not, and its connection cannot be closed. *)
Lemma query_leaks_statement sql params d s d1 : query sql params d = (inr (Some s), d1) ->
  s ∈ live (drop_result (Some s) d1) /\ fst (sqlite3_close (drop_result (Some s) d1)) <> SQLITE_OK.
Proof.
  unfold query. pose proof (prepare_live sql (bs "SQL query prepare failed") d) as P.
  destruct (prepare sql _ d) as [[e|stmt] d2]; [done|]. intros X. injection X as -> <-.
  assert (live (drop_result (Some s) (on (Some s) (fun s => sqlite3_bind s (map bind params)) d2)) = s :: live d) as L.
  { unfold drop_result. rewrite live_resetted. cbn. by rewrite live_bind. }
  split; [rewrite L; by left|]. apply close_busy. by rewrite L.
Qed.

End Statements.
End SqliteProps.
