(* ===== verification/Cancellation.v ===== *)
(** * Cooperative cancellation: async/cancellation.h

    A [CancellationSource] with the registrations of its token.  Threads
    register callbacks, drop their registrations and cancel; what each does
    under the mutex is one step, and so is the exchange of the flag, which is
    not under it.  Callbacks are numbers. *)

From S2P Require Import Prelude.

Module Cancellation.

(** ** The shared state *)

Record State := mkState {
  cancelled : bool;
  callbacks : gmap nat nat;       (** by registration *)
  next_callback_id : nat
}.

Definition new_state : State := mkState false ∅ 1.

(** [on_cancel], under the mutex: the registration, 0 with the callback to be
    invoked when the token was cancelled before. *)
Definition on_cancel (cb : nat) (s : State) : nat * bool * State :=
  if cancelled s then (0%nat, true, s)
  else (next_callback_id s, false, mkState (cancelled s) (<[next_callback_id s := cb]> (callbacks s)) (S (next_callback_id s))).

(** [CancellationRegistration::reset] *)
Definition reset (id : nat) (s : State) : State :=
  if Nat.eqb id 0 then s else mkState (cancelled s) (delete id (callbacks s)) (next_callback_id s).

(** [cancel]: the exchange, and the swap under the mutex.  The callbacks come out
    in the order of the table. *)
Definition exchange (s : State) : bool * State := (cancelled s, mkState true (callbacks s) (next_callback_id s)).
Definition swap (s : State) : list (nat * nat) * State :=
  (map_to_list (callbacks s), mkState (cancelled s) ∅ (next_callback_id s)).

(** ** The threads *)

(** What a thread in [cancel] or at the end of [on_cancel] still has to do. *)
Inductive Thread :=
| Cancelling                          (** has exchanged the flag *)
| Running (pending : list (nat * nat)) (** has the callbacks, with their registrations *)
| Invoking (cb : nat).                (** [on_cancel] of a cancelled token *)

(** Of the callbacks given to [on_cancel] before the cancellation, [registered] are
    all, by registration, [dropped] those whose registration was reset while the
    table had them, [ran] those that ran.  [immediate] are those given to it later,
    [invoked] those of them that ran. *)
Record Sys := mkSys {
  state : State;
  threads : list Thread;
  registered : list (nat * nat);
  dropped : list (nat * nat);
  ran : list (nat * nat);
  immediate : list nat;
  invoked : list nat
}.

Definition start : Sys := mkSys new_state [] [] [] [] [] [].

Inductive Label :=
| Register (cb : nat)
| Reset (id : nat)
| Cancel
| Step (i : nat).                     (** thread [i] goes on *)

Definition set_threads (l : list Thread) (y : Sys) : Sys :=
  mkSys (state y) l (registered y) (dropped y) (ran y) (immediate y) (invoked y).
Definition set_state (s : State) (y : Sys) : Sys :=
  mkSys s (threads y) (registered y) (dropped y) (ran y) (immediate y) (invoked y).

Definition step (a : Label) (y : Sys) : option Sys :=
  match a with
  | Register cb =>
      let '(id, now, s) := on_cancel cb (state y) in
      Some (if now : bool
            then mkSys s (threads y ++ [Invoking cb]) (registered y) (dropped y) (ran y) (immediate y ++ [cb]) (invoked y)
            else mkSys s (threads y) (registered y ++ [(id, cb)]) (dropped y) (ran y) (immediate y) (invoked y))
  | Reset id =>
      let d := match callbacks (state y) !! id with Some cb => if Nat.eqb id 0 then [] else [(id, cb)] | None => [] end in
      Some (mkSys (reset id (state y)) (threads y) (registered y) (dropped y ++ d) (ran y) (immediate y) (invoked y))
  | Cancel =>
      let '(before, s) := exchange (state y) in
      Some (if before then set_state s y else set_threads (threads y ++ [Cancelling]) (set_state s y))
  | Step i =>
      match threads y !! i with
      | None => None
      | Some Cancelling =>
          let '(pending, s) := swap (state y) in Some (set_threads (<[i := Running pending]> (threads y)) (set_state s y))
      | Some (Running []) => Some (set_threads (delete i (threads y)) y)
      | Some (Running (e :: pending)) =>
          Some (mkSys (state y) (<[i := Running pending]> (threads y)) (registered y) (dropped y) (ran y ++ [e]) (immediate y) (invoked y))
      | Some (Invoking cb) =>
          Some (mkSys (state y) (delete i (threads y)) (registered y) (dropped y) (ran y) (immediate y) (invoked y ++ [cb]))
      end
  end.

Fixpoint steps (l : list Label) (y : Sys) : option Sys :=
  match l with [] => Some y | a :: l => y' ← step a y; steps l y' end.

(** ** Each callback once *)

Definition pending_of (t : Thread) : list (nat * nat) := match t with Running p => p | _ => [] end.
Definition cancelling_of (t : Thread) : list unit := match t with Cancelling => [()] | _ => [] end.
Definition invoking_of (t : Thread) : list nat := match t with Invoking cb => [cb] | _ => [] end.

(** Where the callbacks are, and what the flag says about the threads. *)
Record sound (y : Sys) : Prop := {
  sound_callbacks : registered y ≡ₚ map_to_list (callbacks (state y)) ++ dropped y ++ (threads y ≫= pending_of) ++ ran y;
  sound_immediate : immediate y ≡ₚ (threads y ≫= invoking_of) ++ invoked y;
  sound_ids : (registered y).*1 = seq 1 (next_callback_id (state y) - 1) /\ (1 <= next_callback_id (state y))%nat;
  sound_before : cancelled (state y) = false -> threads y = [] /\ ran y = [] /\ immediate y = [];
  sound_after : cancelled (state y) = true -> threads y ≫= cancelling_of = [] -> callbacks (state y) = ∅
}.

Lemma tokens_sound_start : sound start.
Proof. split; cbn; rewrite ?map_to_list_empty; done. Qed.

(** Replacing the entry of a thread. *)
Lemma bind_insert {A} (f : Thread -> list A) l i t t' : l !! i = Some t ->
  exists k, l ≫= f ≡ₚ f t ++ k /\ <[i := t']> l ≫= f ≡ₚ f t' ++ k /\ delete i l ≫= f ≡ₚ k.
Proof.
  intros E. exists ((take i l ≫= f) ++ (drop (S i) l ≫= f)). pose proof (take_drop_middle l i t E) as M. split_and!.
  - rewrite <- M at 1. rewrite bind_app, bind_cons. by rewrite Permutation_app_swap_app.
  - rewrite insert_take_drop by (by apply lookup_lt_Some in E). rewrite bind_app, bind_cons. by rewrite Permutation_app_swap_app.
  - by rewrite delete_take_drop, bind_app.
Qed.

Lemma sound_fresh y : sound y -> callbacks (state y) !! next_callback_id (state y) = None.
Proof.
  intros [S1 _ [S3 S4] _ _]. destruct (callbacks (state y) !! next_callback_id (state y)) as [cb|] eqn:E; [|done].
  apply elem_of_map_to_list in E. assert (next_callback_id (state y) ∈ (registered y).*1) as X.
  { apply list_elem_of_fmap. eexists. split; [|rewrite S1; apply elem_of_app; left; exact E]. done. }
  rewrite S3 in X. apply elem_of_seq in X. lia.
Qed.

Lemma sound_register cb y y' : step (Register cb) y = Some y' -> sound y -> sound y'.
Proof.
  intros X S. pose proof (sound_fresh y S) as Fr. destruct S as [S1 S2 [S3 S4] S5 S6]. unfold step, on_cancel in X.
  destruct (cancelled (state y)) eqn:Ca; injection X as <-.
  - split; cbn; rewrite ?bind_app; cbn; rewrite ?app_nil_r; try done; try congruence.
    + by rewrite S2, <- !app_assoc, (Permutation_app_comm [cb]).
    + intros _. by apply S6.
  - split; cbn; try done.
    + rewrite map_to_list_insert by done. rewrite S1. cbn. symmetry. apply Permutation_cons_append.
    + rewrite fmap_app, S3, Nat.sub_0_r. split; [|lia]. cbn. replace (next_callback_id (state y)) with (S (next_callback_id (state y) - 1)) at 3 by lia.
      rewrite seq_S. do 2 f_equal. lia.
Qed.

Lemma sound_reset id y y' : step (Reset id) y = Some y' -> sound y -> sound y'.
Proof.
  intros X [S1 S2 S3 S5 S6]. cbn in X. injection X as <-. unfold reset. destruct (Nat.eqb_spec id 0) as [->|N].
  - split; cbn; try done. destruct (callbacks (state y) !! 0%nat); by rewrite app_nil_r.
  - split; cbn; try done; [|intros A B; rewrite (S6 A B); apply delete_empty].
    destruct (callbacks (state y) !! id) as [cb|] eqn:E.
    + rewrite S1, <- (map_to_list_delete _ _ _ E). cbn. rewrite <- app_assoc. cbn. by rewrite <- !Permutation_middle.
    + by rewrite app_nil_r, delete_id.
Qed.

Lemma sound_cancel y y' : step Cancel y = Some y' -> sound y -> sound y'.
Proof.
  intros X [S1 S2 S3 S5 S6]. cbn in X. destruct (cancelled (state y)) eqn:Ca; injection X as <-.
  - split; cbn; done.
  - destruct (S5 eq_refl) as (T & R & I). rewrite T in *. split; cbn in *; try done.
Qed.

Lemma sound_thread i y y' : step (Step i) y = Some y' -> sound y -> sound y'.
Proof.
  intros X [S1 S2 S3 S5 S6]. cbn in X. destruct (threads y !! i) as [t|] eqn:E; [|done].
  assert (cancelled (state y) = true) as Ca by (destruct (cancelled (state y)); [done|]; destruct (S5 eq_refl) as (T & _); by rewrite T in E).
  destruct t as [|[|e p]|cb]; injection X as <-.
  - destruct (bind_insert pending_of _ _ _ (Running (map_to_list (callbacks (state y)))) E) as (k & P1 & P2 & _).
    destruct (bind_insert invoking_of _ _ _ (Running (map_to_list (callbacks (state y)))) E) as (k' & I1 & I2 & _).
    split; cbn; try done; [|by rewrite I2, <- I1|congruence].
    rewrite map_to_list_empty, P2, S1, P1. cbn. by rewrite !app_assoc, (Permutation_app_comm (map_to_list _)).
  - destruct (bind_insert pending_of _ _ _ Cancelling E) as (k & P1 & _ & P3).
    destruct (bind_insert invoking_of _ _ _ Cancelling E) as (k' & I1 & _ & I3).
    destruct (bind_insert cancelling_of _ _ _ Cancelling E) as (k'' & C1 & _ & C3).
    split; cbn; try done; [by rewrite P3, S1, P1|by rewrite I3, S2, I1|congruence|].
    intros A B. apply (S6 A), Permutation_nil_r. rewrite C1. cbn. by rewrite <- C3, B.
  - destruct (bind_insert pending_of _ _ _ (Running p) E) as (k & P1 & P2 & _).
    destruct (bind_insert invoking_of _ _ _ (Running p) E) as (k' & I1 & I2 & _).
    destruct (bind_insert cancelling_of _ _ _ (Running p) E) as (k'' & C1 & C2 & _).
    split; cbn; try done; [|by rewrite I2, S2, I1|congruence|].
    + rewrite S1, P1, P2. cbn. by rewrite !app_assoc, <- Permutation_cons_append, <- !app_assoc, <- !Permutation_middle.
    + intros A B. apply (S6 A), Permutation_nil_r. rewrite C1. cbn in *. by rewrite <- C2, B.
  - destruct (bind_insert pending_of _ _ _ Cancelling E) as (k & P1 & _ & P3).
    destruct (bind_insert invoking_of _ _ _ Cancelling E) as (k' & I1 & _ & I3).
    destruct (bind_insert cancelling_of _ _ _ Cancelling E) as (k'' & C1 & _ & C3).
    split; cbn; try done; [by rewrite P3, S1, P1| |congruence|].
    + rewrite S2, I1, I3. cbn. by rewrite app_assoc, <- Permutation_cons_append.
    + intros A B. apply (S6 A), Permutation_nil_r. rewrite C1. cbn. by rewrite <- C3, B.
Qed.

Lemma tokens_sound_step a y y' : step a y = Some y' -> sound y -> sound y'.
Proof. destruct a as [cb|id| |i]; [apply sound_register|apply sound_reset|apply sound_cancel|apply sound_thread]. Qed.

Lemma tokens_sound_steps l y y' : steps l y = Some y' -> sound y -> sound y'.
Proof.
  revert y. induction l as [|a l IH]; intros y X S; cbn in X; [by injection X as <-|].
  apply bind_Some in X as (y1 & Y & X). eapply IH; [exact X|]. by eapply tokens_sound_step.
Qed.

(** ** Every thread comes to an end *)

(** Threads go on, and what was registered and dropped stays. *)
Record goes (y y' : Sys) : Prop := {
  goes_steps : exists l, Forall (fun a => exists i, a = Step i) l /\ steps l y = Some y';
  goes_registered : registered y' = registered y;
  goes_dropped : dropped y' = dropped y;
  goes_immediate : immediate y' = immediate y;
  goes_cancelled : cancelled (state y') = cancelled (state y)
}.

Lemma labels_app a b y : steps (a ++ b) y = y' ← steps a y; steps b y'.
Proof. revert y. induction a as [|x a IH]; intros y; cbn; [done|]. destruct (step x y); cbn; [apply IH|done]. Qed.

#[export] Instance goes_preorder : PreOrder goes.
Proof.
  split; [intros y; split; try done; by exists []|]. intros y1 y2 y3 [(a & A & X) A1 A2 A3 A4] [(b & B & Y) B1 B2 B3 B4].
  split; [|congruence..]. exists (a ++ b). split; [by apply Forall_app|]. by rewrite labels_app, X.
Qed.

Lemma goes_step i y y' : step (Step i) y = Some y' -> goes y y'.
Proof.
  intros X. split; [exists [Step i]; split; [constructor; [by exists i|done]|cbn [steps]; by rewrite X]|..];
    cbn in X; destruct (threads y !! i) as [[|[|]|]|]; try done; by injection X as <-.
Qed.

Lemma finish_running p y ts : threads y = Running p :: ts -> exists y', goes y y' /\ threads y' = ts.
Proof.
  revert y. induction p as [|e p IH]; intros y T.
  - eexists. split; [apply (goes_step 0); cbn; by rewrite T|done].
  - set (y1 := mkSys (state y) (Running p :: ts) (registered y) (dropped y) (ran y ++ [e]) (immediate y) (invoked y)).
    assert (goes y y1) as G by (apply (goes_step 0); cbn; by rewrite T).
    destruct (IH y1 eq_refl) as (y' & G' & T'). exists y'. split; [by rewrite G|done].
Qed.

Lemma finish_head t y ts : threads y = t :: ts -> exists y', goes y y' /\ threads y' = ts.
Proof.
  intros T. destruct t as [|p|cb]; [|by eapply finish_running|].
  - set (y1 := set_threads (Running (map_to_list (callbacks (state y))) :: ts) (set_state (snd (swap (state y))) y)).
    assert (goes y y1) as G by (apply (goes_step 0); cbn; by rewrite T).
    destruct (finish_running _ y1 ts eq_refl) as (y' & G' & T'). exists y'. split; [by rewrite G|done].
  - eexists. split; [apply (goes_step 0); cbn; by rewrite T|done].
Qed.

Lemma finish_all y : exists y', goes y y' /\ threads y' = [].
Proof.
  remember (threads y) as ts eqn:T. revert y T. induction ts as [|t ts IH]; intros y T; [by exists y|].
  destruct (finish_head t y ts) as (y1 & G & T1); [done|]. destruct (IH y1) as (y2 & G2 & T2); [done|].
  exists y2. split; [by rewrite G|done].
Qed.

(** Callbacks run once.  However threads register callbacks, drop
    registrations and cancel, nothing runs before the cancellation; a callback
    registered before it runs at most once, and not if its registration was
    dropped while it was in the table; and once a token is cancelled, the steps
    that the threads in [cancel] and [on_cancel] still have to take run every
    other callback, also those given to [on_cancel] afterwards. *)
Theorem cancellation_once l y : steps l start = Some y ->
  NoDup ((dropped y ++ ran y).*1) /\
  (cancelled (state y) = false -> ran y = [] /\ invoked y = []) /\
  (cancelled (state y) = true -> exists y', goes y y' /\ threads y' = [] /\
    registered y ≡ₚ dropped y ++ ran y' /\ immediate y ≡ₚ invoked y').
Proof.
  intros X. assert (sound y) as S by (eapply tokens_sound_steps; [exact X|apply tokens_sound_start]). split_and!.
  - assert (NoDup ((registered y).*1)) as N by (rewrite (proj1 (sound_ids _ S)); apply NoDup_seq).
    rewrite (sound_callbacks _ S), !fmap_app in N. apply NoDup_app in N as (_ & _ & N). apply NoDup_app in N as (N1 & N2 & N3).
    apply NoDup_app in N3 as (_ & _ & N3). rewrite fmap_app. apply NoDup_app. split_and!; [done| |done].
    intros i A B. apply (N2 i A). apply elem_of_app. by right.
  - intros C. destruct (sound_before _ S C) as (T & R & I). split; [done|]. pose proof (sound_immediate _ S) as P.
    rewrite T, I in P. cbn in P. by apply Permutation_nil_l in P.
  - intros C. destruct (finish_all y) as (y' & G & T). exists y'. split; [done|]. split; [done|].
    destruct G as [(bs & _ & Y) G1 G2 G3 G4]. assert (sound y') as [S1 S2 _ _ S6] by (by eapply tokens_sound_steps).
    rewrite T in *. cbn in *. rewrite <- G1, <- G3, <- G2. split; [|done]. rewrite S1, (S6 ltac:(congruence) eq_refl).
    by rewrite map_to_list_empty.
Qed.

(** Two callbacks, one of which is dropped; one is registered during the cancellation. *)
Definition cancelled_run : list Label := [Register 7; Register 8; Reset 2; Cancel; Register 9; Step 0].

Lemma cancellation_once_witness :
  match steps cancelled_run start with
  | Some y =>
      (registered y, dropped y, immediate y) = ([(1, 7); (2, 8)]%nat, [(2, 8)]%nat, [9]%nat) /\
      NoDup ((dropped y ++ ran y).*1) /\
      (cancelled (state y) = false -> ran y = [] /\ invoked y = []) /\
      (cancelled (state y) = true -> exists y', goes y y' /\ threads y' = [] /\
        registered y ≡ₚ dropped y ++ ran y' /\ immediate y ≡ₚ invoked y')
  | None => False
  end.
Proof.
  assert (match steps cancelled_run start with Some y => (registered y, dropped y, immediate y) | None => ([], [], []) end =
    ([(1, 7); (2, 8)]%nat, [(2, 8)]%nat, [9]%nat)) as N by (vm_compute; reflexivity).
  destruct (steps cancelled_run start) as [y|] eqn:E; [|discriminate N]. split; [exact N|]. exact (cancellation_once cancelled_run y E).
Defined.

(** A registration that is dropped while [cancel] runs does not hold its callback
    back: it runs after [reset], and after whatever it refers to is gone. *)
Lemma callback_after_reset : match steps [Register 7; Cancel; Step 0; Reset 1; Step 0] start with
  | Some y => ran y = [(1, 7)]%nat /\ dropped y = []
  | None => False
  end.
Proof. by vm_compute. Qed.

End Cancellation.
