(* ===== verification/Repository.v ===== *)
(** * Entities and repositories

    [db/orm_reflection.h] and [db/lazy.h] ([Orm]): the columns of an entity, its
    parameters, and rows mapped to entities with their references and
    collections; [db/repository.h] ([Repository]): inserts, updates with
    optimistic locking, cascades, orphan removal and deletion.

    A reflected class is a [Class]: its members with their annotations and the
    values their initializers give.  An object is the list of the values of its
    members, so an entity is a finite tree, as it is in C++.  The database, the
    connections and the getters of a result are the class [Database].  The
    shared state of copies of a lazy collection is not modelled, nor are members
    of type [float] and [@Json] members that are not strings. *)

From Stdlib Require Import SpecFloat.
From S2P Require Import Prelude CxxString CxxDouble QueryBuilder Drivers.
Import SqlValue.

Module Orm.

(** ** Reflected classes *)

Inductive GenerationType := AutoIncrement | UUID.
Inductive EnumType := Ordinal | StringEnum.
Inductive TemporalType := DateOnly | TimeOnly | Timestamp.
Inductive FetchType := LazyFetch | Eager.
Inductive CascadeType := Persist | Merge | Remove | All.

#[export] Instance GenerationType_eq : EqDecision GenerationType.
Proof. solve_decision. Defined.
#[export] Instance FetchType_eq : EqDecision FetchType.
Proof. solve_decision. Defined.
#[export] Instance CascadeType_eq : EqDecision CascadeType.
Proof. solve_decision. Defined.

(** [int], [std::int64_t], and the other integral types by width and sign. *)
Inductive IntKind := Int32 | Int64 | OtherInt (bits : Z) (signed : bool).

(** The type of a data member; entities are named by a number. *)
Inductive FieldType :=
| TIntegral (k : IntKind)
| TDouble
| TString
| TBool
| TBlob
| TUuid
| TTime
| TEnum (enumerators : list (bytes * Z))
| TRef (target : nat)
| TOptional (target : nat)
| TLazy (target : nat)
| TVector (child : nat)
| TLazyCollection (child : nat).

(** The value of a data member.  A [Lazy] without value or identity is the
    default-constructed one, which has no loader; a [LazyCollection] has one
    when it knows its parent's identity. *)
Inductive Value :=
| VInt (z : Z)
| VDouble (x : double)
| VString (s : bytes)
| VBool (b : bool)
| VBlob (b : bytes)
| VUuid (u : Uuid.t)
| VTime (ns : Z)
| VEnum (z : Z)
| VRef (o : list Value)
| VOptional (o : option (list Value))
| VLazy (value_ : option (list Value)) (id_ : option Param)
| VVector (os : list (list Value))
| VLazyCollection (values : option (list (list Value))) (parent : option Param).

Abbreviation Object := (list Value).

Record Column := mkColumn { col_name : bytes; insertable : bool; updatable : bool }.
Record OneToMany := mkOneToMany { otm_fetch : FetchType; otm_cascade : CascadeType; orphan_removal : bool; mapped_by : bytes }.
Record JoinTable := mkJoinTable { jt_name : bytes; join_column : bytes; inverse_join_column : bytes }.
Record ManyToMany := mkManyToMany { mtm_fetch : FetchType; mtm_cascade : CascadeType; join_table : JoinTable }.

(** A data member with its annotations. *)
Record Member := mkMember {
  m_name : bytes;
  m_type : FieldType;
  m_init : Value;
  a_id : bool;
  a_generated : option GenerationType;
  a_column : option Column;
  a_transient : bool;
  a_version : bool;
  a_temporal : option TemporalType;
  a_enumerated : option EnumType;
  a_many_to_one : option FetchType;
  a_one_to_many : option OneToMany;
  a_many_to_many : option ManyToMany;
  a_one_to_one : bool;
  a_join_column : option bytes
}.

Inductive Hook := PrePersist | PostPersist | PreUpdate | PostUpdate | PostLoad.

(** A class: its name, [@Table] (schema and name), [@Entity] (name), its data
    members and its member functions annotated as hooks. *)
Record Class_ := mkClass {
  c_name : bytes;
  c_table : option (bytes * bytes);
  c_entity : option bytes;
  members : list Member;
  hooks : Hook -> list (Object -> Object)
}.

Definition default_object (c : Class_) : Object := map m_init (members c).

(** [entity.[:m:] = v] for the member at an index. *)
Definition set_member (i : nat) (v : Value) (o : Object) : Object := <[i := v]> o.

(** ** Names *)

Definition isupper (b : byte) : bool := (65 <=? byte_val b) && (byte_val b <=? 90).

Fixpoint snake_from (prev : option byte) (s : bytes) : bytes :=
  match s with
  | [] => []
  | c :: s' =>
      (if isupper c then
         (if match prev with None => false | Some p => negb (bool_decide (p = "_"%char)) end then bs "_" else []) ++ [tolower c]
       else [c]) ++ snake_from (Some c) s'
  end.

Definition to_snake_case (s : bytes) : bytes := snake_from None s.

(** [ColumnInfo]: at most 63 characters. *)
Definition column_info (s : bytes) : bytes := take 63 s.

Definition get_member_column_name (m : Member) : bytes :=
  let column := match a_column m with
                | Some col => if bool_decide (col_name col = []) then m_name m else col_name col
                | None => m_name m
                end in
  column_info (match a_join_column m with
               | Some join => if bool_decide (join = []) then column else join
               | None => column
               end).

Definition is_persisted_entity_member (m : Member) : bool :=
  negb (a_transient m || bool_decide (is_Some (a_one_to_many m)) || bool_decide (is_Some (a_many_to_many m)) || a_one_to_one m).

(** A list separated by commas, extended the way the loops do it. *)
Definition comma (acc s : bytes) : bytes := (if bool_decide (acc = []) then [] else acc ++ bs ", ") ++ s.

Definition get_select_column_list (qualifier : bytes) (c : Class_) : bytes :=
  foldl (fun columns m =>
    if is_persisted_entity_member m
    then comma columns ((if bool_decide (qualifier = []) then [] else qualifier ++ bs ".") ++ get_member_column_name m)
    else columns) [] (members c).

Definition get_select_column_list_with_aliases (c : Class_) (qualifier alias_prefix : bytes) : bytes :=
  foldl (fun columns m =>
    if is_persisted_entity_member m
    then comma columns ((if bool_decide (qualifier = []) then [] else qualifier ++ bs ".") ++ get_member_column_name m ++
                        bs " AS " ++ alias_prefix ++ get_member_column_name m)
    else columns) [] (members c).

Definition is_persisted_column (c : Class_) (column_name : bytes) : bool :=
  existsb (fun m => is_persisted_entity_member m && bool_decide (column_name = get_member_column_name m)) (members c).

Definition entity_table_name (c : Class_) : bytes :=
  let entity := match c_entity c with
                | Some n => if bool_decide (n = []) then to_snake_case (c_name c) ++ bs "s" else n
                | None => to_snake_case (c_name c) ++ bs "s"
                end in
  match c_table c with
  | Some (schema, n) =>
      if bool_decide (n = []) then entity
      else if bool_decide (schema = []) then n else schema ++ bs "." ++ n
  | None => entity
  end.

(** ** Errors and effects *)

Inductive Exn :=
| OptimisticLockException (table : bytes)
| InvalidArgument (message : bytes)
| NoLoader
| DatabaseError (message : bytes).

Definition no_id : Exn := InvalidArgument (bs "Relationship target has no @Id field").
Definition no_mapped_by : Exn := InvalidArgument (bs "@OneToMany mapped_by does not name a @ManyToOne field").

Definition entity_primary_key_column (c : Class_) : result Exn bytes :=
  match List.find a_id (members c) with Some m => Ok (get_member_column_name m) | None => Err no_id end.

Definition child_join_column_for_mapped_by (c : Class_) (mapped : bytes) : result Exn bytes :=
  match List.find (fun m => bool_decide (is_Some (a_many_to_one m)) && bool_decide (m_name m = mapped)) (members c) with
  | Some m => Ok (get_member_column_name m)
  | None => Err no_mapped_by
  end.

(** What an operation returns: a value or an exception, with the database as it
    then is, or nothing when the fuel is used up. *)
Inductive Out (D A : Type) : Type :=
| Done (a : A) (d : D)
| Thrown (e : Exn) (d : D)
| Unfinished.
Arguments Done {D A}.
Arguments Thrown {D A}.
Arguments Unfinished {D A}.

Definition M (D A : Type) : Type := D -> Out D A.

Definition ret {D A} (a : A) : M D A := fun d => Done a d.
Definition throw {D A} (e : Exn) : M D A := fun d => Thrown e d.
Definition bind {D A B} (m : M D A) (f : A -> M D B) : M D B := fun d =>
  match m d with
  | Done a d' => f a d'
  | Thrown e d' => Thrown e d'
  | Unfinished => Unfinished
  end.
Definition lift {D A} (r : result Exn A) : M D A := match r with inl e => throw e | inr a => ret a end.

Declare Scope orm_scope.
Delimit Scope orm_scope with orm.
Notation "'do' x <- m ; k" := (bind m (fun x => k))
  (at level 100, x pattern, m at next level, k at level 200, right associativity) : orm_scope.
Notation "m ;; k" := (bind m (fun _ => k)) (at level 100, right associativity) : orm_scope.
#[local] Open Scope orm_scope.

(** A range-for loop that keeps what its body returns. *)
Fixpoint each {D A B} (f : A -> M D B) (l : list A) : M D (list B) :=
  match l with
  | [] => ret []
  | x :: l => do b <- f x; do rest <- each f l; ret (b :: rest)
  end.

(** The data source with its connections and the transaction of the calling
    thread, the statements of a connection, and the getters of a column of a
    result's current row.  [garbled_time] is the time [temporal_from_string] makes
    of a text that does not have its format. *)
Class Database (D Cell : Type) := {
  dialect : Dialect.SqlDialect;
  get_connection : D -> result Exn nat * D;
  release : nat -> D -> D;
  current_connection : D -> option nat;
  execute : nat -> bytes -> list Param -> D -> result Exn Z * D;
  query : nat -> bytes -> list Param -> D -> result Exn (list bytes * list (list Cell)) * D;
  last_insert_id : nat -> D -> result Exn Z * D;
  generate_uuid : D -> Uuid.t * D;
  is_null : Cell -> bool;
  get_int : Cell -> result Exn Z;
  get_double : Cell -> result Exn double;
  get_string : Cell -> bytes;
  get_bool : Cell -> bool;
  get_blob : Cell -> bytes;
  get_uuid : Cell -> Uuid.t;
  get_time : Cell -> Z;
  garbled_time : TemporalType -> bytes -> Z
}.

Definition of_call {D A} (f : D -> result Exn A * D) : M D A := fun d =>
  match f d with (inl e, d') => Thrown e d' | (inr a, d') => Done a d' end.

(** ** Parameters *)

(** [static_cast] of an integer to the member's type. *)
Definition cast_int (k : IntKind) (z : Z) : Z :=
  let signed w := (z + 2 ^ (w - 1)) mod 2 ^ w - 2 ^ (w - 1) in
  match k with
  | Int32 => signed 32
  | Int64 => signed 64
  | OtherInt bits true => signed bits
  | OtherInt bits false => z mod 2 ^ bits
  end.

(** [Parameter(v)] for the types it has an alternative for. *)
Definition parameter (v : Value) : Param :=
  match v with
  | VInt z => Int (cast_int Int64 z)
  | VDouble x => Double x
  | VString s => Text s
  | VBool b => Bool b
  | VBlob b => Blob b
  | VUuid u => UuidValue u
  | VTime ns => Time ns
  | VEnum z => Int (cast_int Int64 z)
  | VRef _ | VOptional _ | VLazy _ _ | VVector _ | VLazyCollection _ _ => Null
  end.

Definition format_parameter (p : Param) : bytes :=
  match p with
  | Null => bs "NULL"
  | Int v => to_dec_signed v
  | Double v => double_to_string v
  | Text v => bs "'" ++ v ++ bs "'"
  | Blob v => bs "<blob of " ++ to_dec (len v) ++ bs " bytes>"
  | Bool v => if v then bs "true" else bs "false"
  | UuidValue v => bs "'" ++ Uuid.to_string v ++ bs "'"
  | SqlValue.Time ns => bs "'" ++ SqlTime.time_to_string (bs "T") (bs "Z") ns ++ bs "'"
  end.

(** The value of the first [@Id] member. *)
Definition id_value (c : Class_) (o : Object) : option Value :=
  snd <$> List.find (fun mv => a_id (fst mv)) (combine (members c) o).

Definition entity_id_parameter (c : Class_) (o : Object) : result Exn Param :=
  match id_value c o with Some v => Ok (parameter v) | None => Err no_id end.

(** The overloads for references: a lazy one answers with its identity before
    its value, an empty optional is null. *)
Definition reference_parameter (c : Class_) (v : Value) : result Exn Param :=
  match v with
  | VRef o => entity_id_parameter c o
  | VOptional None => Ok Null
  | VOptional (Some o) => entity_id_parameter c o
  | VLazy _ (Some p) => Ok p
  | VLazy (Some o) None => entity_id_parameter c o
  | VLazy None None => Err NoLoader
  | _ => Err no_id
  end.

Definition temporal_to_string (ns : Z) (t : TemporalType) : bytes :=
  let x := SqlTime.gmtime (SqlTime.to_time_t ns) in
  let date := to_dec_signed (SqlTime.year x) ++ bs "-" ++ SqlTime.two (SqlTime.mon x) ++ bs "-" ++ SqlTime.two (SqlTime.mday x) in
  let time := SqlTime.two (SqlTime.hour x) ++ bs ":" ++ SqlTime.two (SqlTime.min x) ++ bs ":" ++ SqlTime.two (SqlTime.sec x) in
  match t with
  | DateOnly => date
  | TimeOnly => time
  | Timestamp => date ++ bs " " ++ time
  end.

(** [std::get_time] with the date or the time alone; [None] when the text does
    not have the format, where the code goes on with what was read. *)
Definition get_date (s : bytes) : option (Z * Z * Z) :=
  '(y, s) ← SqlTime.field 4 0 9999 s; s ← SqlTime.literal (bs "-") s;
  '(m, s) ← SqlTime.field 2 1 12 s; s ← SqlTime.literal (bs "-") s;
  '(d, s) ← SqlTime.field 2 1 31 s; Some (y, m, d).

Definition get_clock (s : bytes) : option (Z * Z * Z) :=
  '(h, s) ← SqlTime.field 2 0 23 s; s ← SqlTime.literal (bs ":") s;
  '(mi, s) ← SqlTime.field 2 0 59 s; s ← SqlTime.literal (bs ":") s;
  '(se, s) ← SqlTime.field 2 0 60 s; Some (h, mi, se).

Definition temporal_from_string (s : bytes) (t : TemporalType) : option Z :=
  match t with
  | DateOnly => '(y, m, d) ← get_date s; Some (SqlTime.from_time_t (SqlTime.timegm (SqlTime.mkTm y m d 0 0 0)))
  | TimeOnly => '(h, mi, se) ← get_clock s; Some (SqlTime.from_time_t (SqlTime.timegm (SqlTime.mkTm 1970 1 1 h mi se)))
  | Timestamp => SqlTime.string_to_time (if bool_decide ("T"%char ∈ s) then bs "T" else bs " ") s
  end.

(** The name of an enumerator, the last one of that value; empty without one. *)
Definition enumerator_name (es : list (bytes * Z)) (z : Z) : bytes :=
  foldl (fun name e => if snd e =? z then fst e else name) [] es.

(** The parameter [save] stores for a member. *)
Definition member_parameter (class_of : nat -> Class_) (m : Member) (v : Value) : result Exn Param :=
  match m_type m, v with
  | (TRef t | TOptional t | TLazy t), _ =>
      match a_many_to_one m with
      | Some _ => reference_parameter (class_of t) v
      | None => Ok (parameter v)
      end
  | TTime, VTime ns =>
      match a_temporal m with
      | Some t => Ok (Text (temporal_to_string ns t))
      | None => Ok (Time ns)
      end
  | TEnum es, VEnum z =>
      match a_enumerated m with
      | Some StringEnum => Ok (Text (enumerator_name es z))
      | Some Ordinal | None => Ok (Int (cast_int Int64 z))
      end
  | _, _ => Ok (parameter v)
  end.

(** ** Rows *)

Section Rows.
Context {D Cell : Type} `{Database D Cell}.
Variable class_of : nat -> Class_.

(** [EntityLoadContext].  [loading] is restored whenever a load returns or
    throws, so it is passed down and not back. *)
Record EntityLoadContext := mkContext {
  connection : nat;
  loading : list bytes;
  fetch_members : list bytes;
  joined_fetch_prefixes : list (bytes * bytes);
  column_prefix : bytes;
  retain_connection_for_lazy : bool
}.

Definition enter (key : bytes) (c : EntityLoadContext) : EntityLoadContext :=
  mkContext (connection c) (key :: loading c) (fetch_members c) (joined_fetch_prefixes c) (column_prefix c)
    (retain_connection_for_lazy c).

Definition joined_context (prefix : bytes) (c : EntityLoadContext) : EntityLoadContext :=
  mkContext (connection c) (loading c) [] [] prefix (retain_connection_for_lazy c).

Definition find_column_index (columns : list bytes) (column_name : bytes) : option nat :=
  fst <$> list_find (fun n => n = column_name) columns.

Definition prefixed_column_name (context : option EntityLoadContext) (column_name : bytes) : bytes :=
  match context with Some c => column_prefix c ++ column_name | None => column_name end.

Definition should_fetch_member (context : option EntityLoadContext) (m : bytes) : bool :=
  match context with Some c => bool_decide (m ∈ fetch_members c) | None => false end.

Definition joined_fetch_prefix (context : option EntityLoadContext) (m : bytes) : option bytes :=
  c ← context; snd <$> List.find (fun p => bool_decide (fst p = m)) (joined_fetch_prefixes c).

(** The branches for an identifier. *)
Definition read_id (t : FieldType) (init : Value) (cell : Cell) : result Exn Value :=
  match t with
  | TIntegral (Int32 as k) | TIntegral (Int64 as k) => let! z := get_int cell in Ok (VInt (cast_int k z))
  | TDouble => let! x := get_double cell in Ok (VDouble x)
  | TString => Ok (VString (get_string cell))
  | TUuid => Ok (VUuid (get_uuid cell))
  | _ => Ok init
  end%result.

Fixpoint with_id (cell : Cell) (ms : list Member) : result Exn Object :=
  match ms with
  | [] => Ok []
  | m :: ms =>
      (let! v := (if a_id m then read_id (m_type m) (m_init m) cell else Ok (m_init m)) in
       let! vs := with_id cell ms in Ok (v :: vs))%result
  end.

Definition entity_with_id (c : Class_) (cell : Cell) : result Exn Object := with_id cell (members c).

(** The branches of [map_row_to_entity] for members that are not references;
    an enumeration's underlying type is [int]. *)
Definition read_scalar (m : Member) (init : Value) (cell : Cell) : result Exn Value :=
  match m_type m with
  | TTime =>
      match a_temporal m with
      | Some t => Ok (VTime (default (garbled_time t (get_string cell)) (temporal_from_string (get_string cell) t)))
      | None => Ok (VTime (get_time cell))
      end
  | TEnum es =>
      match a_enumerated m with
      | Some StringEnum =>
          Ok (foldl (fun v e => if bool_decide (fst e = get_string cell) then VEnum (snd e) else v) init es)
      | Some Ordinal | None => (let! z := get_int cell in Ok (VEnum (cast_int Int32 z)))%result
      end
  | TIntegral (Int32 as k) | TIntegral (Int64 as k) => (let! z := get_int cell in Ok (VInt (cast_int k z)))%result
  | TDouble => (let! x := get_double cell in Ok (VDouble x))%result
  | TString => Ok (VString (get_string cell))
  | TBool => Ok (VBool (get_bool cell))
  | TBlob => Ok (VBlob (get_blob cell))
  | TUuid => Ok (VUuid (get_uuid cell))
  | _ => Ok init
  end.

Definition select_by_key (c : Class_) (pk : bytes) : bytes :=
  bs "SELECT " ++ get_select_column_list [] c ++ bs " FROM " ++ entity_table_name c ++ bs " WHERE " ++ pk ++ bs " = ?".

Definition send_query (conn : nat) (sql : bytes) (ps : list Param) : M D (list bytes * list (list Cell)) :=
  of_call (query conn (Dialect.convert_placeholders dialect sql) ps).

Definition send (conn : nat) (sql : bytes) (ps : list Param) : M D Z :=
  of_call (execute conn (Dialect.convert_placeholders dialect sql) ps).

Definition entity_key (c : Class_) (p : Param) : bytes := entity_table_name c ++ bs ":" ++ format_parameter p.

Section Step.
(** [map_row_to_entity] of a class, for the nested rows. *)
Variable map_row : nat -> option EntityLoadContext -> list bytes -> list Cell -> M D Object.

Definition eager_load_many_to_one (t : nat) (cell : Cell) (context : option EntityLoadContext) : M D Object :=
  do identity <- lift (entity_with_id (class_of t) cell);
  match context with
  | None => ret identity
  | Some c =>
      do id <- lift (entity_id_parameter (class_of t) identity);
      let key := entity_key (class_of t) id in
      if bool_decide (key ∈ loading c) then ret identity
      else
        do pk <- lift (entity_primary_key_column (class_of t));
        do (columns, rows) <- send_query (connection c) (select_by_key (class_of t) pk) [id];
        match rows with
        | row :: _ => map_row t (Some (enter key c)) columns row
        | [] => ret identity
        end
  end.

(** [lazy_load_many_to_one]: the identity, and the entity when it is fetched. *)
Definition lazy_load_many_to_one (t : nat) (cell : Cell) (context : option EntityLoadContext) : M D Value :=
  do identity <- lift (entity_with_id (class_of t) cell);
  do id <- lift (entity_id_parameter (class_of t) identity);
  match context with
  | None => ret (VLazy (Some identity) (Some id))
  | Some _ => ret (VLazy None (Some id))
  end.

Definition eager_load_one_to_many (parent_class child : nat) (parent : Object) (mapped : bytes)
    (context : option EntityLoadContext) : M D (list Object) :=
  match context with
  | None => ret []
  | Some c =>
      do id <- lift (entity_id_parameter (class_of parent_class) parent);
      let key := entity_key (class_of parent_class) id in
      if bool_decide (key ∈ loading c) then ret []
      else
        do column <- lift (child_join_column_for_mapped_by (class_of child) mapped);
        do (columns, rows) <- send_query (connection c)
             (bs "SELECT " ++ get_select_column_list [] (class_of child) ++ bs " FROM " ++ entity_table_name (class_of child) ++
              bs " WHERE " ++ column ++ bs " = ?") [id];
        each (map_row child (Some (enter key c)) columns) rows
  end.

Definition eager_load_many_to_many (parent_class child : nat) (parent : Object) (j : JoinTable)
    (context : option EntityLoadContext) : M D (list Object) :=
  match context with
  | None => ret []
  | Some c =>
      do id <- lift (entity_id_parameter (class_of parent_class) parent);
      let key := jt_name j ++ bs ":" ++ entity_key (class_of parent_class) id in
      if bool_decide (key ∈ loading c) then ret []
      else
        do pk <- lift (entity_primary_key_column (class_of child));
        do (columns, rows) <- send_query (connection c)
             (bs "SELECT " ++ get_select_column_list (bs "c") (class_of child) ++ bs " FROM " ++ entity_table_name (class_of child) ++
              bs " c JOIN " ++ jt_name j ++ bs " jt ON c." ++ pk ++ bs " = jt." ++ inverse_join_column j ++
              bs " WHERE jt." ++ join_column j ++ bs " = ?") [id];
        each (map_row child (Some (enter key c)) columns) rows
  end.

(** A reference that the query asked for: from the joined columns, or loaded. *)
Definition fetch_reference (m : Member) (context : option EntityLoadContext) (columns : list bytes) (row : list Cell) (cell : Cell)
    (t : nat) : M D Object :=
  match context, joined_fetch_prefix context (m_name m) with
  | Some c, Some prefix => map_row t (Some (joined_context prefix c)) columns row
  | _, _ => eager_load_many_to_one t cell context
  end.

(** The branches for [@ManyToOne] members. *)
Definition read_reference (m : Member) (fetch : FetchType) (context : option EntityLoadContext)
    (columns : list bytes) (row : list Cell) (cell : Cell) : M D Value :=
  let fetched := fetch_reference m context columns row cell in
  match m_type m with
  | TLazy t =>
      if should_fetch_member context (m_name m) then
        do related <- fetched t;
        do id <- lift (entity_id_parameter (class_of t) related);
        ret (VLazy (Some related) (Some id))
      else lazy_load_many_to_one t cell context
  | TOptional t =>
      if should_fetch_member context (m_name m) then do o <- fetched t; ret (VOptional (Some o))
      else if bool_decide (fetch = LazyFetch) then do o <- lift (entity_with_id (class_of t) cell); ret (VOptional (Some o))
      else do o <- eager_load_many_to_one t cell context; ret (VOptional (Some o))
  | TRef t =>
      if bool_decide (fetch = LazyFetch) then
        if should_fetch_member context (m_name m) then do o <- fetched t; ret (VRef o)
        else do o <- lift (entity_with_id (class_of t) cell); ret (VRef o)
      else do o <- eager_load_many_to_one t cell context; ret (VRef o)
  | _ => ret (m_init m)
  end.

(** One turn of the first loop of [map_row_to_entity]. *)
Definition read_member (context : option EntityLoadContext) (columns : list bytes) (row : list Cell) (m : Member) : M D Value :=
  if is_persisted_entity_member m then
    match find_column_index columns (prefixed_column_name context (get_member_column_name m)) ≫= (row !!.) with
    | Some cell =>
        if is_null cell then ret (m_init m)
        else match a_many_to_one m with
             | Some fetch => read_reference m fetch context columns row cell
             | None => lift (read_scalar m (m_init m) cell)
             end
    | None => ret (m_init m)
    end
  else ret (m_init m).

(** One turn of the second loop, for a member and the value it has. *)
Definition load_collection (c : nat) (context : option EntityLoadContext) (entity : Object) (m : Member) (v : Value) : M D Value :=
  let place (eager : bool) (load : nat -> M D (list Object)) :=
    match m_type m with
    | TLazyCollection child =>
        if eager then do os <- load child; ret (VLazyCollection (Some os) None)
        else match context with
             | None => ret (VLazyCollection None None)
             | Some _ => do p <- lift (entity_id_parameter (class_of c) entity); ret (VLazyCollection None (Some p))
             end
    | TVector child => if eager then do os <- load child; ret (VVector os) else ret v
    | _ => ret v
    end in
  match a_one_to_many m, a_many_to_many m with
  | Some otm, _ =>
      place (bool_decide (otm_fetch otm = Eager) || should_fetch_member context (m_name m))
        (fun child => eager_load_one_to_many c child entity (mapped_by otm) context)
  | None, Some mtm =>
      place (bool_decide (mtm_fetch mtm = Eager) || should_fetch_member context (m_name m))
        (fun child => eager_load_many_to_many c child entity (join_table mtm) context)
  | None, None => ret v
  end.

(** The second loop, with the members before and after the current one. *)
Fixpoint load_collections (c : nat) (context : option EntityLoadContext) (ms : list Member) (before after : Object) : M D Object :=
  match ms, after with
  | m :: ms, v :: after =>
      do v' <- load_collection c context (before ++ v :: after) m v;
      load_collections c context ms (before ++ [v']) after
  | _, _ => ret (before ++ after)
  end.

End Step.

Definition invoke_lifecycle (h : Hook) (c : Class_) (o : Object) : Object := foldl (fun o f => f o) o (hooks c h).

Fixpoint map_row_to_entity (fuel : nat) (c : nat) (context : option EntityLoadContext) (columns : list bytes) (row : list Cell)
    : M D Object :=
  match fuel with
  | O => fun _ => Unfinished
  | S fuel =>
      let nested := map_row_to_entity fuel in
      do entity <- each (read_member nested context columns row) (members (class_of c));
      do entity <- load_collections nested c context (members (class_of c)) [] entity;
      ret (invoke_lifecycle PostLoad (class_of c) entity)
  end.

End Rows.

End Orm.

(** ** Repositories *)

Module Repository.
Import Orm.
#[local] Open Scope orm_scope.

Definition cascades_persist (c : CascadeType) : bool := bool_decide (c = Persist \/ c = All).
Definition cascades_merge (c : CascadeType) : bool := bool_decide (c = Merge \/ c = All).
Definition cascades_remove (c : CascadeType) : bool := bool_decide (c = Remove \/ c = All).

(** [extract_metadata]: the table, and the column of the last [@Id] member. *)
Definition table_name_ (c : Class_) : bytes :=
  let named := match c_table c with
               | Some (schema, n) =>
                   if bool_decide (n = []) then []
                   else if bool_decide (schema = []) then n else schema ++ bs "." ++ n
               | None => []
               end in
  if bool_decide (named = []) then
    match c_entity c with
    | Some n => if bool_decide (n = []) then to_snake_case (c_name c) ++ bs "s" else n
    | None => to_snake_case (c_name c) ++ bs "s"
    end
  else named.

Definition pk_col_name_ (c : Class_) : bytes :=
  foldl (fun pk m => if a_id m then get_member_column_name m else pk) (bs "id") (members c).

(** Whether a collection holds its values, and the values. *)
Definition collection_loaded (v : Value) : bool :=
  match v with VLazyCollection None _ => false | _ => true end.

Definition collection_values (v : Value) : list Object :=
  match v with
  | VVector os => os
  | VLazyCollection (Some os) _ => os
  | _ => []
  end.

Definition with_values (v : Value) (os : list Object) : Value :=
  match v with
  | VVector _ => VVector os
  | VLazyCollection (Some _) p => VLazyCollection (Some os) p
  | v => v
  end.

Definition child_class (t : FieldType) : nat := match t with TVector c | TLazyCollection c => c | _ => 0%nat end.

(** [set_many_to_one_reference]: every member of that name is set. *)
Fixpoint set_references (parent : Object) (parent_id : result Exn Param) (mapped : bytes) (ms : list Member) (child : Object)
    : result Exn (bool * Object) :=
  match ms, child with
  | m :: ms, v :: child =>
      (if bool_decide (is_Some (a_many_to_one m)) && bool_decide (m_name m = mapped) then
         let! v' := match m_type m with
                    | TLazy _ => let! id := parent_id in Ok (VLazy (Some parent) (Some id))
                    | TOptional _ => Ok (VOptional (Some parent))
                    | _ => Ok (VRef parent)
                    end in
         let! r := set_references parent parent_id mapped ms child in
         Ok (true, v' :: snd r)
       else
         let! r := set_references parent parent_id mapped ms child in
         Ok (fst r, v :: snd r))%result
  | _, child => Ok (false, child)
  end.

Definition set_many_to_one_reference (parent_class child_class : Class_) (child : Object) (mapped : bytes) (parent : Object)
    : result Exn Object :=
  (let! r := set_references parent (entity_id_parameter parent_class parent) mapped (members child_class) child in
   if fst r : bool then Ok (snd r) else Err no_mapped_by)%result.

(** [entity_id != 0], [!entity_id.is_nil()] or [!entity_id.empty()] *)
Definition id_given (v : Value) : bool :=
  match v with
  | VInt z => negb (z =? 0)
  | VDouble x => negb (match x with S754_zero _ => true | _ => false end)
  | VUuid u => negb (Uuid.is_nil u)
  | VString s => negb (bool_decide (s = []))
  | _ => false
  end.

(** ** Statements *)

(** What the loops of [save] collect: column texts, placeholders, parameters. *)
Record Columns := mkColumns { cols : bytes; placeholders : bytes; params : list Param }.

Definition is_auto_increment (m : Member) : bool := a_id m && bool_decide (a_generated m = Some AutoIncrement).
Definition is_insertable (m : Member) : bool := match a_column m with Some c => insertable c | None => true end.
Definition is_updatable (m : Member) : bool := match a_column m with Some c => updatable c | None => true end.

Definition set_version (m : Member) (n : Z) (v : Value) : Value :=
  if a_version m then match m_type m with TIntegral k => VInt (cast_int k n) | _ => v end else v.

Definition to_insert (m : Member) : bool := is_persisted_entity_member m && negb (is_auto_increment m) && is_insertable m.
Definition to_update (m : Member) : bool := is_persisted_entity_member m && negb (a_id m) && is_updatable m.

Section Save.
Context {D Cell : Type} `{Database D Cell}.
Variable class_of : nat -> Class_.

(** The loop over the members of an INSERT. *)
Fixpoint insert_columns (ms : list Member) (o : Object) (acc : Columns) : result Exn (Object * Columns) :=
  match ms, o with
  | m :: ms, v :: o =>
      (if to_insert m then
         let v := set_version m 1 v in
         let! p := member_parameter class_of m v in
         let first := bool_decide (cols acc = []) in
         let acc := mkColumns ((if first then cols acc else cols acc ++ bs ", ") ++ get_member_column_name m)
                      ((if first then placeholders acc else placeholders acc ++ bs ", ") ++ bs "?") (params acc ++ [p]) in
         let! r := insert_columns ms o acc in
         Ok (v :: fst r, snd r)
       else
         let! r := insert_columns ms o acc in
         Ok (v :: fst r, snd r))%result
  | _, o => Ok (o, acc)
  end.

(** The loop over the members of an UPDATE. *)
Fixpoint update_columns (current_version : Z) (ms : list Member) (o : Object) (acc : Columns) : result Exn (Object * Columns) :=
  match ms, o with
  | m :: ms, v :: o =>
      (if to_update m then
         let v := set_version m (current_version + 1) v in
         let! p := member_parameter class_of m v in
         let acc := mkColumns ((if bool_decide (cols acc = []) then cols acc else cols acc ++ bs ", ") ++
                               get_member_column_name m ++ bs " = ?") [] (params acc ++ [p]) in
         let! r := update_columns current_version ms o acc in
         Ok (v :: fst r, snd r)
       else
         let! r := update_columns current_version ms o acc in
         Ok (v :: fst r, snd r))%result
  | _, o => Ok (o, acc)
  end.

Definition no_columns : Columns := mkColumns [] [] [].

Definition insert_sql (c : Class_) (acc : Columns) : bytes :=
  bs "INSERT INTO " ++ table_name_ c ++ bs " (" ++ cols acc ++ bs ") VALUES (" ++ placeholders acc ++ bs ")".

Definition update_sql (c : Class_) (acc : Columns) (version_col : option bytes) : bytes :=
  bs "UPDATE " ++ table_name_ c ++ bs " SET " ++ cols acc ++ bs " WHERE " ++ pk_col_name_ c ++ bs " = ?" ++
  (match version_col with Some col => bs " AND " ++ col ++ bs " = ?" | None => [] end).

(** The version and its column, of the last [@Version] member; -1 without one. *)
Definition current_version (c : Class_) (o : Object) : Z * bytes :=
  foldl (fun acc mv => if a_version (fst mv)
                       then (match snd mv with VInt z => cast_int Int64 z | _ => 0 end, get_member_column_name (fst mv))
                       else acc) (-1, []) (combine (members c) o).

(** ** Connections *)

(** [acquire_connection], for the scope of the handle it returns: the
    repository's own, the transaction's, or one of the pool, given back when
    the scope is left. *)
Definition with_connection {A} (connection_ : option nat) (f : nat -> M D A) : M D A := fun d =>
  match connection_ with
  | Some c => f c d
  | None =>
      match current_connection d with
      | Some c => f c d
      | None =>
          match get_connection d with
          | (inl e, d) => Thrown e d
          | (inr c, d) =>
              match f c d with
              | Done a d => Done a (release c d)
              | Thrown e d => Thrown e (release c d)
              | Unfinished => Unfinished
              end
          end
      end
  end.

Definition exists_by_id (connection_ : option nat) (c : Class_) (id : Value) : M D bool :=
  with_connection connection_ (fun conn =>
    do (_, rows) <- send_query conn (bs "SELECT COUNT(1) FROM " ++ table_name_ c ++ bs " WHERE " ++ pk_col_name_ c ++ bs " = ?")
                      [parameter id];
    match rows with
    | (cell :: _) :: _ => do n <- lift (get_int cell); ret (0 <? n)
    | _ => ret false
    end).

(** ** Deletion *)

(** The identifiers in the first column of a result. *)
Definition read_ids (c : Class_) (rows : list (list Cell)) : result Exn (list Value) :=
  let t := match List.find a_id (members c) with Some m => m_type m | None => TString end in
  (fix go rows := match rows with
                  | [] => Ok []
                  | row :: rows =>
                      (let! v := match row with cell :: _ => read_id t (VInt 0) cell | [] => Ok (VInt 0) end in
                       let! vs := go rows in Ok (v :: vs))%result
                  end) rows.

Section Deletion.
(** [delete_by_id] of the repository of a class over a connection. *)
Variable delete_child : nat -> nat -> Value -> M D ().

Definition delete_ids (child conn : nat) (ids : list Value) : M D () :=
  do _ <- each (delete_child child conn) ids; ret ().

Definition delete_one_to_many_association (m : Member) (otm : OneToMany) (id : Value) (conn : nat) : M D () :=
  if cascades_remove (otm_cascade otm) then
    let child := child_class (m_type m) in
    do child_pk <- lift (entity_primary_key_column (class_of child));
    do column <- lift (child_join_column_for_mapped_by (class_of child) (mapped_by otm));
    do (_, rows) <- send_query conn (bs "SELECT " ++ child_pk ++ bs " FROM " ++ entity_table_name (class_of child) ++
                                      bs " WHERE " ++ column ++ bs " = ?") [parameter id];
    do ids <- lift (read_ids (class_of child) rows);
    delete_ids child conn ids
  else ret ().

Definition delete_join_rows (j : JoinTable) (id : Param) (conn : nat) : M D () :=
  do _ <- send conn (bs "DELETE FROM " ++ jt_name j ++ bs " WHERE " ++ join_column j ++ bs " = ?") [id]; ret ().

Definition delete_associations_by_id (c : nat) (id : Value) (conn : nat) : M D () :=
  do _ <- each (fun m =>
    match a_one_to_many m, a_many_to_many m with
    | Some otm, _ => delete_one_to_many_association m otm id conn
    | None, Some mtm => delete_join_rows (join_table mtm) (parameter id) conn
    | None, None => ret ()
    end) (members (class_of c));
  ret ().

Definition delete_row (c : nat) (conn : nat) (id : Value) : M D () :=
  delete_associations_by_id c id conn ;;
  do _ <- send conn (bs "DELETE FROM " ++ table_name_ (class_of c) ++ bs " WHERE " ++ pk_col_name_ (class_of c) ++ bs " = ?")
            [parameter id];
  ret ().

(** [remove_one_to_many_orphans] *)
Fixpoint child_ids (child : nat) (os : list Object) (placeholders : bytes) (params : list Param) : result Exn (bytes * list Param) :=
  match os with
  | [] => Ok (placeholders, params)
  | o :: os =>
      (let! p := entity_id_parameter (class_of child) o in
       child_ids child os (comma placeholders (bs "?")) (params ++ [p]))%result
  end.

Definition remove_one_to_many_orphans (c : nat) (m : Member) (otm : OneToMany) (entity : Object) (v : Value) (conn : nat) : M D () :=
  if collection_loaded v then
    let child := child_class (m_type m) in
    do id <- lift (entity_id_parameter (class_of c) entity);
    do (placeholders, params) <- lift (child_ids child (collection_values v) [] [id]);
    do child_pk <- lift (entity_primary_key_column (class_of child));
    do column <- lift (child_join_column_for_mapped_by (class_of child) (mapped_by otm));
    let sql := bs "SELECT " ++ child_pk ++ bs " FROM " ++ entity_table_name (class_of child) ++ bs " WHERE " ++ column ++ bs " = ?" ++
               (if bool_decide (placeholders = []) then [] else bs " AND " ++ child_pk ++ bs " NOT IN (" ++ placeholders ++ bs ")") in
    do (_, rows) <- send_query conn sql params;
    do ids <- lift (read_ids (class_of child) rows);
    delete_ids child conn ids
  else ret ().

End Deletion.

Fixpoint delete_by_id (fuel : nat) (connection_ : option nat) (c : nat) (id : Value) : M D () :=
  match fuel with
  | O => fun _ => Unfinished
  | S fuel =>
      with_connection connection_ (fun conn => delete_row (fun child conn => delete_by_id fuel (Some conn) child) c conn id)
  end.

(** The identifier [delete_entity] reads: of the last [@Id] member. *)
Definition last_id (c : Class_) (o : Object) : Value :=
  foldl (fun id mv => if a_id (fst mv) then snd mv else id) (VInt 0) (combine (members c) o).

Definition delete_entity (fuel : nat) (connection_ : option nat) (c : nat) (o : Object) : M D () :=
  delete_by_id fuel connection_ c (last_id (class_of c) o).

(** ** Associations of a saved entity *)

Section Associations.
(** [save] and [delete_by_id] of the repository of a class over a connection. *)
Variable save_child : nat -> nat -> Object -> M D Object.
Variable delete_child : nat -> nat -> Value -> M D ().

Definition cascades_now (cascade : CascadeType) (parent_is_new : bool) : bool :=
  (parent_is_new && cascades_persist cascade) || (negb parent_is_new && cascades_merge cascade).

(** The children are saved in turn, each with a reference to the parent as it
    then is. *)
Fixpoint save_children (c child conn : nat) (mapped : bytes) (entity : list Object -> Object) (saved rest : list Object)
    : M D (list Object) :=
  match rest with
  | [] => ret saved
  | o :: rest =>
      do o <- lift (set_many_to_one_reference (class_of c) (class_of child) o mapped (entity (saved ++ o :: rest)));
      do o <- save_child child conn o;
      save_children c child conn mapped entity (saved ++ [o]) rest
  end.

(** The new value of the member at [i]. *)
Definition save_one_to_many_association (c : nat) (i : nat) (m : Member) (otm : OneToMany) (parent_is_new : bool) (conn : nat)
    (entity : Object) : M D Object :=
  let v := default (m_init m) (entity !! i) in
  do entity <-
    (if collection_loaded v && cascades_now (otm_cascade otm) parent_is_new then
       do os <- save_children c (child_class (m_type m)) conn (mapped_by otm) (fun os => set_member i (with_values v os) entity)
                  [] (collection_values v);
       ret (set_member i (with_values v os) entity)
     else ret entity);
  (if orphan_removal otm
   then remove_one_to_many_orphans delete_child c m otm entity (default (m_init m) (entity !! i)) conn
   else ret ()) ;;
  ret entity.

(** The rows of the join table, one for each distinct identifier. *)
Fixpoint link_all (child : nat) (j : JoinTable) (id : Param) (conn : nat) (linked : list bytes) (os : list Object) : M D () :=
  match os with
  | [] => ret ()
  | o :: os =>
      do related <- lift (entity_id_parameter (class_of child) o);
      let key := format_parameter related in
      if bool_decide (key ∈ linked) then link_all child j id conn linked os
      else
        do _ <- send conn (bs "INSERT INTO " ++ jt_name j ++ bs " (" ++ join_column j ++ bs ", " ++ inverse_join_column j ++
                           bs ") VALUES (?, ?)") [id; related];
        link_all child j id conn (key :: linked) os
  end.

Definition save_many_to_many_association (c : nat) (i : nat) (m : Member) (mtm : ManyToMany) (parent_is_new : bool) (conn : nat)
    (entity : Object) : M D Object :=
  let v := default (m_init m) (entity !! i) in
  let child := child_class (m_type m) in
  if collection_loaded v then
    do os <- (if cascades_now (mtm_cascade mtm) parent_is_new then each (save_child child conn) (collection_values v)
              else ret (collection_values v));
    let entity := set_member i (with_values v os) entity in
    do id <- lift (entity_id_parameter (class_of c) entity);
    delete_join_rows (join_table mtm) id conn ;;
    link_all child (join_table mtm) id conn [] os ;;
    ret entity
  else ret entity.

Fixpoint save_associations (c : nat) (i : nat) (ms : list Member) (conn : nat) (parent_is_new : bool) (entity : Object) : M D Object :=
  match ms with
  | [] => ret entity
  | m :: ms =>
      do entity <- match a_one_to_many m, a_many_to_many m with
                   | Some otm, _ => save_one_to_many_association c i m otm parent_is_new conn entity
                   | None, Some mtm => save_many_to_many_association c i m mtm parent_is_new conn entity
                   | None, None => ret entity
                   end;
      save_associations c (S i) ms conn parent_is_new entity
  end.

(** ** Saving *)

(** Step 1, over the members: the entity with a generated identifier, whether
    it is new, and its identifier. *)
Definition identify_member (connection_ : option nat) (c : Class_) (i : nat) (m : Member) (st : Object * bool * Value)
    : M D (Object * bool * Value) :=
  let '(entity, is_new, id) := st in
  if a_id m then
    let v := default (m_init m) (entity !! i) in
    let known := (if id_given v then
                    do e <- exists_by_id connection_ c v;
                    ret (entity, (if e : bool then false else is_new), v)
                  else ret (entity, is_new, v)) in
    match a_generated m with
    | Some UUID =>
        match v with
        | VUuid u => if Uuid.is_nil u then
                       fun d => let '(u, d) := generate_uuid d in Done (set_member i (VUuid u) entity, true, VUuid u) d
                     else known
        | VString [] => fun d => let '(u, d) := generate_uuid d in
                                 Done (set_member i (VString (Uuid.to_string u)) entity, true, VString (Uuid.to_string u)) d
        | _ => known
        end
    | Some AutoIncrement => ret (entity, (if id_given v then false else is_new), v)
    | None => known
    end
  else ret st.

Fixpoint identify (connection_ : option nat) (c : Class_) (i : nat) (ms : list Member) (st : Object * bool * Value)
    : M D (Object * bool * Value) :=
  match ms with
  | [] => ret st
  | m :: ms => do st <- identify_member connection_ c i m st; identify connection_ c (S i) ms st
  end.

(** The identifier the database gave, in every [AutoIncrement] member. *)
Definition read_back (c : Class_) (last_id : Z) (o : Object) : Object :=
  zip_with (fun m v => if is_auto_increment m
                       then match m_type m with TIntegral k => VInt (cast_int k last_id) | _ => v end
                       else v) (members c) o.

Definition insert (connection_ : option nat) (c : nat) (entity : Object) : M D Object :=
  let cl := class_of c in
  let entity := invoke_lifecycle PrePersist cl entity in
  with_connection connection_ (fun conn =>
    do (entity, acc) <- lift (insert_columns (members cl) entity no_columns);
    do _ <- send conn (insert_sql cl acc) (params acc);
    do entity <- (if existsb is_auto_increment (members cl)
                  then do id <- of_call (last_insert_id conn); ret (read_back cl id entity)
                  else ret entity);
    do entity <- save_associations c 0 (members cl) conn true entity;
    ret (invoke_lifecycle PostPersist cl entity)).

Definition update (connection_ : option nat) (c : nat) (entity : Object) (id : Value) : M D Object :=
  let cl := class_of c in
  let entity := invoke_lifecycle PreUpdate cl entity in
  do entity <- with_connection connection_ (fun conn =>
    let '(version, version_col) := current_version cl entity in
    do (entity, acc) <- lift (update_columns version (members cl) entity no_columns);
    let locked := 0 <=? version in
    do affected <- (if bool_decide (cols acc = []) then ret 1
                    else send conn (update_sql cl acc (if locked then Some version_col else None))
                           (params acc ++ [parameter id] ++ (if locked then [Int version] else [])));
    if locked && (affected =? 0) then throw (OptimisticLockException (table_name_ cl))
    else save_associations c 0 (members cl) conn false entity);
  ret (invoke_lifecycle PostUpdate cl entity).

Definition save_entity (connection_ : option nat) (c : nat) (entity : Object) : M D Object :=
  do (entity, is_new, id) <- identify connection_ (class_of c) 0 (members (class_of c)) (entity, true, VInt 0);
  if is_new : bool then insert connection_ c entity else update connection_ c entity id.

End Associations.

Fixpoint save (fuel : nat) (connection_ : option nat) (c : nat) (entity : Object) : M D Object :=
  match fuel with
  | O => fun _ => Unfinished
  | S fuel =>
      save_entity (fun child conn => save fuel (Some conn) child) (fun child conn => delete_by_id fuel (Some conn) child)
        connection_ c entity
  end.

Definition save_all (fuel : nat) (connection_ : option nat) (c : nat) (entities : list Object) : M D (list Object) :=
  each (save fuel connection_ c) entities.

(** ** Finding *)

Definition load_context (conn : nat) (connection_ : option nat) : EntityLoadContext :=
  mkContext conn [] [] [] [] (bool_decide (is_Some connection_)).

Definition find_by_id (fuel : nat) (connection_ : option nat) (c : nat) (id : Value) : M D (option Object) :=
  let cl := class_of c in
  with_connection connection_ (fun conn =>
    do (columns, rows) <- send_query conn (bs "SELECT " ++ get_select_column_list [] cl ++ bs " FROM " ++ table_name_ cl ++
                                           bs " WHERE " ++ pk_col_name_ cl ++ bs " = ?") [parameter id];
    match rows with
    | row :: _ => do o <- map_row_to_entity class_of fuel c (Some (load_context conn connection_)) columns row; ret (Some o)
    | [] => ret None
    end).

Definition find_all_by_id (fuel : nat) (connection_ : option nat) (c : nat) (ids : list Value) : M D (list Object) :=
  let cl := class_of c in
  match ids with
  | [] => ret []
  | _ =>
      with_connection connection_ (fun conn =>
        do (columns, rows) <- send_query conn (bs "SELECT " ++ get_select_column_list [] cl ++ bs " FROM " ++ table_name_ cl ++
                                               bs " WHERE " ++ pk_col_name_ cl ++ bs " IN (" ++
                                               foldl (fun acc _ => comma acc (bs "?")) [] ids ++ bs ")") (map parameter ids);
        each (map_row_to_entity class_of fuel c (Some (load_context conn connection_)) columns) rows)
  end.

Definition count (connection_ : option nat) (c : nat) : M D Z :=
  with_connection connection_ (fun conn =>
    do (_, rows) <- send_query conn (bs "SELECT COUNT(1) FROM " ++ table_name_ (class_of c)) [];
    match rows with
    | (cell :: _) :: _ => lift (get_int cell)
    | _ => ret 0
    end).

(** What the query builder knows of the class. *)
Definition builder_entity (c : Class_) : QueryBuilder.Entity :=
  QueryBuilder.mkEntity (get_select_column_list [] c) (fun alias => get_select_column_list alias c)
    (map get_member_column_name (filter (fun m => is_persisted_entity_member m = true) (members c)))
    (omap (fun m => match a_many_to_one m, m_type m with
                    | Some _, (TRef t | TOptional t | TLazy t) =>
                        Some (QueryBuilder.mkToOne (m_name m) (get_member_column_name m) (entity_table_name (class_of t))
                                (match entity_primary_key_column (class_of t) with inr pk => pk | inl _ => [] end)
                                (get_select_column_list_with_aliases (class_of t)))
                    | _, _ => None
                    end) (members c)).

(** [QueryBuilder::list], for a builder that fetches no collections: with the
    repository's connection or the transaction's, or one of the pool. *)
Definition list_entities (fuel : nat) (connection_ : option nat) (c : nat) (b : QueryBuilder.Builder (V := Param)) : M D (list Object) :=
  let cl := class_of c in
  with_connection connection_ (fun conn d =>
    let '(sql, ps) := QueryBuilder.list_query (builder_entity cl) dialect b in
    (do (columns, rows) <- of_call (query conn sql ps);
     let fetched := QueryBuilder.fetch_to_one_members_ b in
     let prefixes := omap (fun m => if bool_decide (is_Some (a_many_to_one m)) && bool_decide (m_name m ∈ fetched)
                                    then Some (m_name m, QueryBuilder.join_fetch_prefix (m_name m)) else None) (members cl) in
     let retain := bool_decide (is_Some connection_) || bool_decide (is_Some (current_connection d)) in
     each (map_row_to_entity class_of fuel c (Some (mkContext conn [] fetched prefixes [] retain)) columns) rows) d).

Definition find_all (fuel : nat) (connection_ : option nat) (c : nat) : M D (list Object) :=
  list_entities fuel connection_ c (QueryBuilder.builder_new (table_name_ (class_of c))).

Definition delete_all (fuel : nat) (connection_ : option nat) (c : nat) : M D () :=
  do os <- find_all fuel connection_ c;
  do _ <- each (delete_entity fuel connection_ c) os;
  ret ().

(** [find_all_by] and [delete_by], for the column of a member. *)
Definition find_all_by (fuel : nat) (connection_ : option nat) (c : nat) (column : bytes) (v : Param) : M D (list Object) :=
  list_entities fuel connection_ c
    (QueryBuilder.where_ column QueryBuilder.Equal v (QueryBuilder.builder_new (table_name_ (class_of c)))).

Definition find_one_by (fuel : nat) (connection_ : option nat) (c : nat) (column : bytes) (v : Param) : M D (option Object) :=
  do os <- list_entities fuel connection_ c
    (QueryBuilder.limit 1 (QueryBuilder.where_ column QueryBuilder.Equal v (QueryBuilder.builder_new (table_name_ (class_of c)))));
  ret (head os).

Definition delete_by (fuel : nat) (connection_ : option nat) (c : nat) (column : bytes) (v : Param) : M D Z :=
  do matches <- find_all_by fuel connection_ c column v;
  do _ <- each (delete_entity fuel connection_ c) matches;
  ret (len matches).

(** A count or a probe of a builder. *)
Definition count_rows (connection_ : option nat) (c : nat) (b : QueryBuilder.Builder (V := Param)) : M D Z :=
  with_connection connection_ (fun conn =>
    let '(sql, ps) := QueryBuilder.count_query dialect b in
    do (_, rows) <- of_call (query conn sql ps);
    match rows with
    | (cell :: _) :: _ => lift (get_int cell)
    | _ => ret 0
    end).

Definition count_by (connection_ : option nat) (c : nat) (column : bytes) (v : Param) : M D Z :=
  count_rows connection_ c
    (QueryBuilder.where_ column QueryBuilder.Equal v (QueryBuilder.builder_new (table_name_ (class_of c)))).

Definition exists_by (connection_ : option nat) (c : nat) (column : bytes) (v : Param) : M D bool :=
  with_connection connection_ (fun conn =>
    let '(sql, ps) := QueryBuilder.exists_query dialect
      (QueryBuilder.where_ column QueryBuilder.Equal v (QueryBuilder.builder_new (table_name_ (class_of c)))) in
    do (_, rows) <- of_call (query conn sql ps);
    ret (negb (bool_decide (rows = [])))).

(** A page is counted before it is listed; [None] when its offset overflows. *)
Definition find_page (fuel : nat) (connection_ : option nat) (c : nat) (p : QueryBuilder.Pageable)
    : option (M D (QueryBuilder.Page (E := Object))) :=
  let b := QueryBuilder.builder_new (table_name_ (class_of c)) in
  match QueryBuilder.page_builder (builder_entity (class_of c)) p b with
  | None => None
  | Some (inl (QueryBuilder.InvalidArgument message)) => Some (throw (InvalidArgument message))
  | Some (inr paged) =>
      Some (do total <- count_rows connection_ c b;
            do content <- list_entities fuel connection_ c paged;
            ret (QueryBuilder.mkPage content (QueryBuilder.p_page p) (QueryBuilder.p_size p) total))
  end.

(** [flush]: the drivers' [Connection::flush] does nothing. *)
Definition flush (connection_ : option nat) : M D () := with_connection connection_ (fun _ => ret ()).

End Save.
End Repository.
