(* ===== verification/RepositoryProps.v ===== *)
(** * Properties of entities and repositories

    The statements [save] writes; that versioned saves of a row are serialized,
    against a law for SQL's UPDATE; that connections are given back; that what
    was stored reads back; that eager loading ends; and where the code does not
    do what it means to. *)

From Stdlib Require Import SpecFloat.
From S2P Require Import Prelude CxxString CxxDouble QueryBuilder Drivers Repository.
Import SqlValue Orm.

Module RepositoryProps.
Import Repository.

(** ** Names *)

(** The repository and the loaders of relations agree on the table. *)
Lemma table_names_agree c : table_name_ c = entity_table_name c.
Proof.
  unfold table_name_, entity_table_name. destruct (c_table c) as [[schema n]|]; [|done].
  destruct n as [|x n]; [done|]. rewrite !(bool_decide_false (x :: n = [])) by done.
  destruct schema as [|y schema]; done.
Qed.

(** They agree on the key of a class with one [@Id] member. *)
Lemma key_names_agree c ms1 m ms2 : members c = ms1 ++ m :: ms2 -> a_id m = true ->
  Forall (fun m => a_id m = false) (ms1 ++ ms2) ->
  pk_col_name_ c = get_member_column_name m /\ entity_primary_key_column c = inr (get_member_column_name m).
Proof.
  intros E I F. apply Forall_app in F as [F1 F2]. unfold pk_col_name_, entity_primary_key_column. rewrite E. split.
  - rewrite foldl_app. cbn [foldl]. rewrite I. clear -F2. generalize (get_member_column_name m) as n.
    induction F2 as [|x l H F IH]; intros n; [done|]. cbn [foldl]. rewrite H. apply IH.
  - clear -F1 I. induction F1 as [|x l H F IH]; cbn [List.find app]; [by rewrite I|by rewrite H].
Qed.

(** ** The statement of an update *)

(** The columns an UPDATE sets, with their values. *)
Fixpoint assignments (class_of : nat -> Class_) (version : Z) (ms : list Member) (o : Object) : result Exn (list (bytes * Param)) :=
  match ms, o with
  | m :: ms, v :: o =>
      if to_update m then
        (let! p := member_parameter class_of m (set_version m (version + 1) v) in
         let! l := assignments class_of version ms o in Ok ((get_member_column_name m, p) :: l))%result
      else assignments class_of version ms o
  | _, _ => Ok []
  end.

(** The entity with its version counted up. *)
Definition bumped (version : Z) (ms : list Member) (o : Object) : Object :=
  zip_with (fun m v => if to_update m then set_version m (version + 1) v else v) ms o.

(** [a = ?, b = ?] and [a = ? AND b = ?] *)
Definition set_text (names : list bytes) : bytes := join_with (bs ", ") (map (fun n => n ++ bs " = ?") names).
Definition where_text (names : list bytes) : bytes := join_with (bs " AND ") (map (fun n => n ++ bs " = ?") names).

Definition extend_set (acc : bytes) (names : list bytes) : bytes :=
  foldl (fun acc n => (if bool_decide (acc = []) then acc else acc ++ bs ", ") ++ n ++ bs " = ?") acc names.

Lemma extend_set_nonempty acc names : acc <> [] ->
  extend_set acc names = acc ++ match names with [] => [] | _ => bs ", " ++ set_text names end.
Proof.
  unfold set_text. revert acc. induction names as [|n names IH]; intros acc A; [by rewrite app_nil_r|].
  unfold extend_set in *. cbn [foldl map]. rewrite bool_decide_false by done.
  rewrite IH by (intros X; apply app_eq_nil in X as [X _]; by apply app_eq_nil in X as [X _]).
  rewrite join_with_cons, <- !app_assoc. by destruct names.
Qed.

Lemma extend_set_text names : extend_set [] names = set_text names.
Proof.
  destruct names as [|n names]; [done|]. unfold set_text. cbn [map]. rewrite join_with_cons.
  change (extend_set [] (n :: names)) with (extend_set (n ++ bs " = ?") names).
  rewrite extend_set_nonempty by (by destruct n). by destruct names.
Qed.

Lemma update_columns_spec class_of version ms o acc : length o = length ms -> placeholders acc = [] ->
  update_columns class_of version ms o acc =
    match assignments class_of version ms o with
    | inl e => inl e
    | inr l => inr (bumped version ms o, mkColumns (extend_set (cols acc) (map fst l)) [] (params acc ++ map snd l))
    end.
Proof.
  revert o acc. induction ms as [|m ms IH]; intros [|v o] acc L P; try discriminate L.
  - destruct acc as [a b c]. cbn in P. subst b. cbn. by rewrite app_nil_r.
  - injection L as L. cbn [update_columns assignments bumped zip_with]. destruct (to_update m) eqn:U.
    + destruct (member_parameter class_of m _) as [e|p]; [done|]. cbn [result_bind]. rewrite IH by done.
      destruct (assignments class_of version ms o) as [e|l]; [done|]. cbn [result_bind fst snd cols params placeholders map].
      by rewrite <- app_assoc.
    + rewrite IH by done. by destruct (assignments class_of version ms o).
Qed.

(** ** The statement of an insert *)

(** The columns an INSERT gives, with their values. *)
Fixpoint insertions (class_of : nat -> Class_) (ms : list Member) (o : Object) : result Exn (list (bytes * Param)) :=
  match ms, o with
  | m :: ms, v :: o =>
      if to_insert m then
        (let! p := member_parameter class_of m (set_version m 1 v) in
         let! l := insertions class_of ms o in Ok ((get_member_column_name m, p) :: l))%result
      else insertions class_of ms o
  | _, _ => Ok []
  end.

(** The entity at its first version. *)
Definition first_version (ms : list Member) (o : Object) : Object :=
  zip_with (fun m v => if to_insert m then set_version m 1 v else v) ms o.

Lemma join_with_nonempty sep ps : Forall (fun p => p <> []) ps -> ps <> [] -> join_with sep ps <> [].
Proof. intros F E. destruct F as [|p ps P F]; [done|]. rewrite join_with_cons. by destruct p. Qed.

Lemma insert_columns_from class_of ms o l acc k :
  Forall (fun m => get_member_column_name m <> []) ms -> length o = length ms -> insertions class_of ms o = inr l ->
  Forall (fun x => fst x <> []) k ->
  acc = mkColumns (join_with (bs ", ") (map fst k)) (join_with (bs ", ") (map (fun _ => bs "?") k)) (map snd k) ->
  insert_columns class_of ms o acc = inr (first_version ms o,
    mkColumns (join_with (bs ", ") (map fst (k ++ l))) (join_with (bs ", ") (map (fun _ => bs "?") (k ++ l))) (map snd (k ++ l))).
Proof.
  revert o l acc k. induction ms as [|m ms IH]; intros [|v o] l acc k N L E K A; try discriminate L.
  - injection E as <-. rewrite app_nil_r. by subst.
  - injection L as L. apply Forall_cons in N as [Nm N]. cbn [insertions insert_columns first_version zip_with] in *.
    destruct (to_insert m); [|by rewrite (IH o l acc k)].
    destruct (member_parameter class_of m _) as [e|p]; [done|]. cbn [result_bind] in *.
    destruct (insertions class_of ms o) as [e|l'] eqn:E'; [done|]. injection E as <-.
    rewrite (IH o l' _ (k ++ [(get_member_column_name m, p)])); [by rewrite <- app_assoc|done..| |].
    + apply Forall_app. by split; [|constructor].
    + subst acc. cbn [cols placeholders params]. rewrite !map_app. cbn [map fst snd]. rewrite !join_with_snoc.
      destruct k as [|x k]; [done|]. rewrite !(bool_decide_false (map _ (x :: k) = [])) by done.
      rewrite bool_decide_false; [done|]. apply join_with_nonempty; [|done]. by apply Forall_map.
Qed.

(** The statement of an INSERT has a placeholder for each column, and its
    parameters are the members' in the same order. *)
Lemma insert_columns_spec class_of ms o l : Forall (fun m => get_member_column_name m <> []) ms -> length o = length ms ->
  insertions class_of ms o = inr l ->
  insert_columns class_of ms o no_columns = inr (first_version ms o,
    mkColumns (join_with (bs ", ") (map fst l)) (join_with (bs ", ") (map (fun _ => bs "?") l)) (map snd l)).
Proof. intros N L E. by apply (insert_columns_from class_of ms o l no_columns []). Qed.

(** ** Tables *)

#[export] Instance double_eq_dec : EqDecision double.
Proof. solve_decision. Defined.
#[export] Instance Param_eq_dec : EqDecision Param.
Proof. solve_decision. Defined.

(** A row: the values of its columns. *)
Definition name_eq : EqDecision bytes := _.
Definition name_countable : Countable bytes := _.
Abbreviation Row := (@gmap bytes name_eq name_countable Param).

(** The row has these values; null is equal to nothing. *)
Definition selected (keys : list (bytes * Param)) (r : Row) : Prop :=
  Forall (fun k => snd k <> Null /\ r !! fst k = Some (snd k)) keys.

#[export] Instance selected_dec keys r : Decision (selected keys r).
Proof. unfold selected. apply Forall_dec. intros k. apply _. Defined.

Definition assign (l : list (bytes * Param)) (r : Row) : Row := list_to_map l ∪ r.

Definition updated (keys l : list (bytes * Param)) (r : Row) : Row := if decide (selected keys r) then assign l r else r.

(** A name as SQL reads it without quotes. *)
Definition name_char (b : byte) : bool := isalnum b || bool_decide (b = "_"%char) || bool_decide (b = "."%char).
Definition is_name (s : bytes) : Prop := s <> [] /\ forallb name_char s = true.

(** What SQL's [UPDATE t SET a = ?, ... WHERE k = ? AND ...] does: it fails
    with an error of the database and changes nothing, or it assigns the columns
    of the selected rows and counts them.  Leasing and returning connections
    leaves the tables alone. *)
Class SqlUpdates (D Cell : Type) `{Database D Cell} := {
  rows : D -> bytes -> list Row;
  lease_rows d : rows (snd (get_connection d)) = rows d;
  lease_error d e : fst (get_connection d) = inl e -> exists m, e = DatabaseError m;
  release_rows c d : rows (release c d) = rows d;
  update_rows conn t l keys d : is_name t -> Forall is_name (map fst l) -> Forall is_name (map fst keys) ->
    l <> [] -> keys <> [] -> NoDup (map fst l) ->
    match execute conn (Dialect.convert_placeholders dialect
            (bs "UPDATE " ++ t ++ bs " SET " ++ set_text (map fst l) ++ bs " WHERE " ++ where_text (map fst keys)))
            (map snd l ++ map snd keys) d with
    | (inl e, d') => (exists m, e = DatabaseError m) /\ rows d' = rows d
    | (inr n, d') => n = len (filter (selected keys) (rows d t)) /\ rows d' t = map (updated keys l) (rows d t) /\
                     forall t', t' <> t -> rows d' t' = rows d t'
    end
}.

Lemma filter_map_keep (P : Row -> Prop) `{forall r, Decision (P r)} (f : Row -> Row) l :
  (forall r, P (f r) <-> P r) -> filter P (map f l) = map f (filter P l).
Proof.
  intros K. induction l as [|r l IH]; [done|]. cbn [map]. rewrite !filter_cons.
  destruct (decide (P r)) as [p|p].
  - rewrite decide_True by (by apply K). cbn [map]. by rewrite IH.
  - rewrite decide_False by (by rewrite K). exact IH.
Qed.

Lemma selected_cons k keys r : selected (k :: keys) r <-> selected [k] r /\ selected keys r.
Proof. unfold selected. rewrite !Forall_cons. naive_solver. Qed.

Lemma filter_selected_cons (k : bytes * Param) (keys : list (bytes * Param)) (l : list Row) :
  filter (selected (k :: keys)) l = filter (selected keys) (filter (selected [k]) l).
Proof.
  induction l as [|r l IH]; [done|]. rewrite !filter_cons. pose proof (selected_cons k keys r).
  destruct (decide (selected [k] r)) as [F|F].
  - rewrite filter_cons. destruct (decide (selected keys r)) as [G|G].
    + rewrite decide_True by tauto. by rewrite IH.
    + rewrite decide_False by tauto. exact IH.
  - rewrite decide_False by tauto. exact IH.
Qed.

(** Assignments that leave a column alone leave a selection by it alone. *)
Lemma selected_updated pk id keys l r : pk ∉ map fst l -> selected [(pk, id)] (updated keys l r) <-> selected [(pk, id)] r.
Proof.
  intros N. unfold updated. destruct (decide (selected keys r)); [|done]. unfold selected, assign. rewrite !Forall_singleton. cbn.
  rewrite lookup_union_r; [done|]. by apply not_elem_of_list_to_map_1.
Qed.

(** ** Identified entities *)

(** A class whose identifiers the database generates. *)
Definition auto_ids (c : Class_) : Prop := Forall (fun m => a_id m = true -> a_generated m = Some AutoIncrement) (members c).

Definition has_id (c : Class_) (o : Object) : bool := existsb (fun mv => a_id (fst mv) && id_given (snd mv)) (combine (members c) o).

(** No collections. *)
Definition flat (c : Class_) : Prop := Forall (fun m => a_one_to_many m = None /\ a_many_to_many m = None) (members c).

Section Identify.
Context {D Cell : Type} `{Database D Cell}.

Lemma identify_auto conn c ms before after is_new id d :
  Forall (fun m => a_id m = true -> a_generated m = Some AutoIncrement) ms -> length after = length ms ->
  identify conn c (length before) ms (before ++ after, is_new, id) d =
    Done (before ++ after, is_new && negb (existsb (fun mv => a_id (fst mv) && id_given (snd mv)) (combine ms after)),
          foldl (fun id mv => if a_id (fst mv) then snd mv else id) id (combine ms after)) d.
Proof.
  intros F. revert before after is_new id. induction F as [|m ms A F IH]; intros before [|v after] is_new id L; try discriminate L.
  - cbn. by rewrite andb_true_r.
  - injection L as L. cbn [identify combine existsb foldl fst snd]. unfold bind.
    assert (X : (before ++ v :: after) !! length before = Some v) by (by rewrite lookup_app_r, Nat.sub_diag by lia).
    specialize (IH (before ++ [v]) after). rewrite length_app, <- app_assoc in IH. cbn [length app] in IH.
    rewrite Nat.add_1_r in IH. unfold identify_member, bind. destruct (a_id m); [rewrite A by done|].
    + rewrite X. cbn. rewrite IH by done.
      cbn [andb]. destruct (id_given v); cbn [negb orb]; by rewrite ?andb_false_r.
    + cbn [ret andb orb]. by rewrite IH by done.
Qed.

Lemma save_associations_flat save_child delete_child class_of c i ms conn is_new o (d : D) :
  Forall (fun m => a_one_to_many m = None /\ a_many_to_many m = None) ms ->
  save_associations class_of save_child delete_child c i ms conn is_new o d = Done o d.
Proof.
  intros F. revert i o. induction F as [|m ms [A B] F IH]; intros i o; [done|]. cbn [save_associations]. unfold bind.
  rewrite A, B. cbn [ret]. apply IH.
Qed.

End Identify.

(** ** Versioned entities *)

Definition update_names (ms : list Member) : list bytes := map get_member_column_name (filter (fun m => to_update m = true) ms).

(** A class without collections whose identifier the database generates, with
    one integer [@Version] member that updates write; [ms1] are the members
    before it. *)
Record versioned (c : Class_) (ms1 : list Member) (vm : Member) (ms2 : list Member) : Prop := {
  v_members : members c = ms1 ++ vm :: ms2;
  v_version : a_version vm = true;
  v_only : Forall (fun m => a_version m = false) (ms1 ++ ms2);
  v_updated : to_update vm = true;
  v_integer : m_type vm = TIntegral Int32 \/ m_type vm = TIntegral Int64;
  v_names : NoDup (update_names (members c));
  v_key : pk_col_name_ c ∉ update_names (members c);
  v_table_name : is_name (table_name_ c);
  v_key_name : is_name (pk_col_name_ c);
  v_column_names : Forall is_name (update_names (members c));
  v_auto : auto_ids c;
  v_flat : flat c
}.

Lemma version_column c ms1 vm ms2 : versioned c ms1 vm ms2 -> get_member_column_name vm ∈ update_names (members c).
Proof.
  intros V. unfold update_names. apply list_elem_of_In, in_map, list_elem_of_In, list_elem_of_filter.
  split; [apply V|]. rewrite (v_members _ _ _ _ V). set_solver.
Qed.

Lemma assignments_names class_of version ms o l : length o = length ms -> assignments class_of version ms o = inr l ->
  map fst l = update_names ms.
Proof.
  unfold update_names. revert o l. induction ms as [|m ms IH]; intros [|v o] l L E; try discriminate L; [by injection E as <-|].
  injection L as L. cbn [assignments] in E. rewrite filter_cons. destruct (to_update m).
  - rewrite decide_True by done. destruct (member_parameter _ _ _) as [e|p]; [done|]. cbn [result_bind] in E.
    destruct (assignments class_of version ms o) as [e|l'] eqn:E'; [done|]. injection E as <-. cbn [map fst].
    by rewrite (IH _ _ L E').
  - rewrite decide_False by done. by apply IH with o.
Qed.

Lemma assignments_member class_of version ms1 m ms2 o1 v o2 l : length o1 = length ms1 -> to_update m = true ->
  assignments class_of version (ms1 ++ m :: ms2) (o1 ++ v :: o2) = inr l ->
  exists p, member_parameter class_of m (set_version m (version + 1) v) = inr p /\ (get_member_column_name m, p) ∈ l.
Proof.
  intros L U. revert ms1 L l. induction o1 as [|v1 o1 IH]; intros [|m1 ms1] L l E; try discriminate L; cbn [app assignments] in E.
  - rewrite U in E. destruct (member_parameter _ _ _) as [e|p]; [done|]. cbn [result_bind] in E.
    destruct (assignments class_of version ms2 o2) as [e|l']; [done|]. injection E as <-. exists p. split; [done|left].
  - injection L as L. destruct (to_update m1); [|by apply IH with ms1].
    destruct (member_parameter _ m1 _) as [e|p1]; [done|]. cbn [result_bind] in E.
    destruct (assignments class_of version (ms1 ++ m :: ms2) (o1 ++ v :: o2)) as [e|l'] eqn:E'; [done|]. injection E as <-.
    destruct (IH ms1 L l' E') as (p & P & I). exists p. split; [done|by right].
Qed.

Lemma cast_small k z : k = Int32 \/ k = Int64 -> 0 <= z < 2 ^ 31 -> cast_int k z = z.
Proof. intros [-> | ->] R; cbn [cast_int]; rewrite Z.mod_small; lia. Qed.

Lemma current_version_at c ms1 vm ms2 o1 z o2 : versioned c ms1 vm ms2 -> length o1 = length ms1 ->
  0 <= z < 2 ^ 31 -> current_version c (o1 ++ VInt z :: o2) = (z, get_member_column_name vm).
Proof.
  intros V L R. unfold current_version. rewrite (v_members _ _ _ _ V). pose proof (v_only _ _ _ _ V) as O.
  pose proof (v_version _ _ _ _ V) as W. clear V. apply Forall_app in O as [O1 O2]. generalize (-1, @nil ascii) as acc. revert o1 L. induction O1 as [|m ms N O1 IH].
  - intros [|? ?] L acc; [|discriminate L]. cbn [app combine foldl fst snd]. rewrite W.
    rewrite cast_small by auto.
    generalize (z, get_member_column_name vm) as acc'. revert o2. induction O2 as [|m ms N O2 IH]; intros o2 acc'; [done|].
    destruct o2 as [|v o2]; [done|]. cbn [combine foldl fst]. rewrite N. apply IH.
  - intros [|v o1] L acc; [discriminate L|]. injection L as L. cbn [app combine foldl fst]. rewrite N. by apply IH.
Qed.

(** The version a save writes is the next one. *)
Lemma next_version class_of c ms1 vm ms2 o z l : versioned c ms1 vm ms2 -> length o = length (members c) ->
  o !! length ms1 = Some (VInt z) -> 0 <= z < 2 ^ 31 - 1 -> assignments class_of z (members c) o = inr l ->
  list_to_map (M := Row) l !! get_member_column_name vm = Some (Int (z + 1)).
Proof.
  intros V L E R A. apply list_elem_of_split_length in E as (o1 & o2 & -> & L1).
  assert (N : NoDup (map fst l)) by (rewrite (assignments_names _ _ _ _ _ L A); apply V).
  rewrite (v_members _ _ _ _ V) in A.
  destruct (assignments_member _ _ _ _ _ _ _ _ _ (eq_sym L1) (v_updated _ _ _ _ V) A) as (p & P & I).
  apply elem_of_list_to_map; [done|]. replace (Int (z + 1)) with p; [done|].
  unfold member_parameter, set_version in P. rewrite (v_version _ _ _ _ V) in P.
  destruct (v_integer _ _ _ _ V) as [T|T]; rewrite T in P; apply (inj inr) in P as <-; unfold parameter;
    by rewrite !cast_small by (auto; rewrite ?cast_small by (auto; lia); lia).
Qed.

Lemma assignments_error class_of version ms o e : assignments class_of version ms o = inl e -> e = no_id \/ e = NoLoader.
Proof.
  revert o. induction ms as [|m ms IH]; intros [|v o] E; try discriminate E. cbn [assignments] in E.
  destruct (to_update m); [|by apply IH in E]. destruct (member_parameter class_of m _) as [e'|p] eqn:P.
  - injection E as <-. clear -P. unfold member_parameter, reference_parameter, entity_id_parameter in P.
    repeat (case_hyp P; simplify_eq/=; auto).
  - cbn [result_bind] in E. destruct (assignments class_of version ms o) eqn:A; [|discriminate E]. injection E as <-. by apply IH in A.
Qed.

(** The rows of the entity. *)
Abbreviation keyed c id := (filter (selected [(pk_col_name_ c, parameter id)])).

(** An entity to save: its identifier, and its version after the hooks. *)
Record to_save (c : Class_) (ms1 : list Member) (o : Object) (id : Value) (z : Z) : Prop := {
  s_length : length o = length (members c);
  s_has_id : has_id c o = true;
  s_id : last_id c o = id;
  s_key : parameter id <> Null;
  s_hooked : length (invoke_lifecycle PreUpdate c o) = length (members c);
  s_version : invoke_lifecycle PreUpdate c o !! length ms1 = Some (VInt z);
  s_range : 0 <= z < 2 ^ 31 - 1
}.

Section Serial.
Context {D Cell : Type} `{SqlUpdates D Cell}.
Variable class_of : nat -> Class_.

(** What holds of the tables when an operation returns or throws. *)
Definition ends {A} (P : A -> (bytes -> list Row) -> Prop) (E : Exn -> (bytes -> list Row) -> Prop) (out : Out D A) : Prop :=
  match out with
  | Done a d => P a (rows d)
  | Thrown e d => E e (rows d)
  | Unfinished => False
  end.

Lemma with_connection_ends {A} (conn : option nat) (f : nat -> M D A) (P : A -> (bytes -> list Row) -> Prop)
    (E : Exn -> (bytes -> list Row) -> Prop) (d : D) :
  (forall (c : nat) (d' : D), rows d' = rows d -> ends P E (f c d')) -> (forall m, E (DatabaseError m) (rows d)) ->
  ends P E (with_connection conn f d).
Proof.
  intros F G. unfold with_connection. destruct conn as [c|]; [by apply F|]. destruct (current_connection d) as [c|]; [by apply F|].
  pose proof (lease_rows d) as L. pose proof (lease_error d) as X. destruct (get_connection d) as [[e|c] d1]; cbn [fst snd] in *.
  - destruct (X e eq_refl) as [m ->]. cbn. rewrite L. apply G.
  - specialize (F c d1 L). destruct (f c d1) as [a d2|e d2|]; cbn in *; by rewrite ?release_rows.
Qed.

Lemma where_two a b : where_text [a; b] = a ++ bs " = ?" ++ bs " AND " ++ b ++ bs " = ?".
Proof. unfold where_text. cbn [map join_with]. by rewrite <- !app_assoc. Qed.

Lemma count_version (pk col : bytes) (p : Param) (z v : Z) (l : list Row) (r : Row) :
  filter (selected [(pk, p)]) l = [r] -> r !! col = Some (Int v) ->
  len (filter (selected [(pk, p); (col, Int z)]) l) = if z =? v then 1 else 0.
Proof.
  intros E R. rewrite filter_selected_cons, E, filter_cons. unfold selected at 1. destruct (Z.eqb_spec z v) as [->|N].
  - rewrite decide_True; [done|]. by repeat constructor.
  - rewrite decide_False; [done|]. intros X. apply Forall_cons in X as [[_ X] _]. cbn in X. congruence.
Qed.

Lemma updated_none (keys l : list (bytes * Param)) (rs : list Row) : filter (selected keys) rs = [] -> map (updated keys l) rs = rs.
Proof.
  induction rs as [|r rs IH]; [done|]. rewrite filter_cons. cbn [map]. unfold updated at 1.
  destruct (decide (selected keys r)); [done|]. intros E. by rewrite IH.
Qed.

Lemma keyed_updated (pk : bytes) (p : Param) (keys l : list (bytes * Param)) (rs : list Row) (r : Row) : pk ∉ map fst l -> filter (selected [(pk, p)]) rs = [r] -> selected keys r ->
  filter (selected [(pk, p)]) (map (updated keys l) rs) = [assign l r].
Proof.
  intros N E S. rewrite filter_map_keep by (intros; by apply selected_updated). rewrite E. cbn [map]. unfold updated.
  by rewrite decide_True.
Qed.

(** The statement sent for a versioned row: it is counted, and changed, exactly
    when it has the version. *)
Lemma update_sent (k : nat) (cl : Class_) (ms1 : list Member) (vm : Member) (ms2 : list Member) (id : Value) (z : Z) (d d1 : D)
    (r : Row) (v : Z) (l : list (bytes * Param)) : let t := table_name_ cl in
  versioned cl ms1 vm ms2 -> rows d1 = rows d -> map fst l = update_names (members cl) -> l <> [] ->
  keyed cl id (rows d t) = [r] -> r !! get_member_column_name vm = Some (Int v) ->
  ends (fun n rs => n = (if z =? v then 1 else 0) /\ (z = v -> keyed cl id (rs t) = [assign l r]) /\
                    (z <> v -> forall t, rs t = rows d t))
       (fun e rs => (exists m, e = DatabaseError m) /\ rs = rows d)
       (send k (update_sql cl (mkColumns (set_text (map fst l)) [] (map snd l)) (Some (get_member_column_name vm)))
          (map snd l ++ [parameter id] ++ [Int z]) d1).
Proof.
  intros t V D1 N Nl K R. set (keys := [(pk_col_name_ cl, parameter id); (get_member_column_name vm, Int z)]).
  assert (T : update_sql cl (mkColumns (set_text (map fst l)) [] (map snd l)) (Some (get_member_column_name vm)) =
    bs "UPDATE " ++ t ++ bs " SET " ++ set_text (map fst l) ++ bs " WHERE " ++ where_text (map fst keys)).
  { unfold update_sql, keys. cbn [map fst cols]. rewrite where_two. by rewrite <- ?app_assoc. }
  rewrite T. change ([parameter id] ++ [Int z]) with (map snd keys). unfold send, of_call.
  assert (NK : Forall is_name (map fst keys)).
  { repeat apply Forall_cons_2; [apply V| |constructor]. eapply Forall_forall; [apply (v_column_names _ _ _ _ V)|].
    eapply version_column, V. }
  pose proof (update_rows k t l keys d1 (v_table_name _ _ _ _ V) ltac:(rewrite N; apply V) NK Nl ltac:(done)
    ltac:(rewrite N; apply V)) as U.
  destruct (execute k _ _ d1) as [[e|n] d2]; [destruct U as [X U]; cbn; split; [done|congruence]|].
  destruct U as (Un & Ur & Uo). rewrite D1 in Un, Ur.
  pose proof (count_version _ (get_member_column_name vm) _ z v _ r K R) as Cv. fold keys in Cv. rewrite Cv in Un.
  split; [done|]. split.
  - intros ->. rewrite Ur. apply keyed_updated; [rewrite N; apply V|done|].
    assert (Sr : r ∈ keyed cl id (rows d t)) by (rewrite K; left). apply list_elem_of_filter in Sr as [Sr _].
    apply selected_cons. split; [done|]. by repeat constructor.
  - intros NE t'. destruct (decide (t' = t)) as [->|NT]; [|by rewrite Uo, D1]. rewrite Ur. apply updated_none, length_zero_iff_nil.
    rewrite (proj2 (Z.eqb_neq z v) NE) in Cv. unfold len in Cv. lia.
Qed.

(** A save of a row is a compare-and-swap on its version. *)
Lemma save_swaps (fuel : nat) (conn : option nat) (c : nat) (ms1 : list Member) (vm : Member) (ms2 : list Member) (o : Object)
    (id : Value) (z : Z) (d : D) (r : Row) (v : Z) : let cl := class_of c in let t := table_name_ cl in
  versioned cl ms1 vm ms2 -> to_save cl ms1 o id z ->
  keyed cl id (rows d t) = [r] -> r !! get_member_column_name vm = Some (Int v) ->
  ends (fun _ rs => z = v /\ exists l, assignments class_of z (members cl) (invoke_lifecycle PreUpdate cl o) = inr l /\
          keyed cl id (rs t) = [assign l r])
       (fun e rs => (forall t, rs t = rows d t) /\ ((exists t, e = OptimisticLockException t) -> z <> v))
       (save class_of (S fuel) conn c o d).
Proof.
  intros cl t V S K R. cbn [save]. unfold save_entity, bind at 1.
  pose proof (identify_auto conn cl (members cl) [] o true (VInt 0) d (v_auto _ _ _ _ V) (s_length _ _ _ _ _ S)) as I.
  cbn [app length] in I. fold cl. rewrite I. fold (has_id cl o). fold (last_id cl o).
  rewrite (s_has_id _ _ _ _ _ S), (s_id _ _ _ _ _ S). cbn [negb andb]. unfold update. fold cl.
  set (o1 := invoke_lifecycle PreUpdate cl o). unfold bind at 1.
  match goal with |- ends _ _ (match ?w with _ => _ end) => assert (X : ends (fun _ rs => z = v /\
    exists l, assignments class_of z (members cl) o1 = inr l /\ keyed cl id (rs t) = [assign l r])
    (fun e rs => (forall t, rs t = rows d t) /\ ((exists t, e = OptimisticLockException t) -> z <> v)) w) end.
  2: { destruct (with_connection _ _ _) as [a d2|e d2|]; [exact X|exact X|exact X]. }
  apply with_connection_ends; [|intros m; split; [done|intros [? ?]; done]]. intros k d1 D1.
  pose proof (s_version _ _ _ _ _ S) as E. fold o1 in E. pose proof (s_hooked _ _ _ _ _ S) as L. fold o1 in L.
  pose proof (s_range _ _ _ _ _ S) as Z.
  assert (C : current_version cl o1 = (z, get_member_column_name vm)).
  { apply list_elem_of_split_length in E as (o2 & o3 & -> & L1). eapply current_version_at; [exact V|done|lia]. }
  rewrite C, update_columns_spec by done. unfold bind at 1.
  destruct (assignments class_of z (members cl) o1) as [e|l] eqn:A; cbn [lift throw ret no_columns cols params app].
  { split; [intros; by rewrite D1|]. intros [? ->]. by destruct (assignments_error _ _ _ _ _ A). }
  replace (0 <=? z) with true by (symmetry; apply Z.leb_le; lia). rewrite extend_set_text.
  pose proof (assignments_names _ _ _ _ _ L A) as N. pose proof (next_version _ _ _ _ _ _ _ _ V L E Z A) as W.
  assert (Nl : l <> []) by (intros ->; discriminate W).
  rewrite bool_decide_false by (intros Y; destruct l as [|[n p] l]; [done|]; unfold set_text in Y; cbn [map fst] in Y;
    rewrite join_with_cons in Y; apply app_eq_nil in Y as [Y _]; by apply app_eq_nil in Y as [_ Y]).
  pose proof (update_sent k cl ms1 vm ms2 id z d d1 r v l V D1 N Nl K R) as U. unfold bind at 1.
  change (params (mkColumns _ _ _)) with (map snd l). destruct (send k _ _ d1) as [n d2|e d2|]; cbn [ends] in U; [| |done].
  - destruct U as (-> & Us & Uf). destruct (Z.eqb_spec z v) as [->|NE]; cbn [andb Z.eqb throw].
    + rewrite save_associations_flat by apply V. split; [done|]. exists l. by split; [|apply Us].
    + split; [by apply Uf|done].
  - destruct U as [[m ->] U]. split; [intros; by rewrite U|intros [? ?]; done].
Qed.

(** What came of saves made one after the other, by whichever clients: the
    entities that were saved, and those refused with the number saved before. *)
Record History := mkHistory { saved : list Object; refused : list (Object * nat) }.

Fixpoint saves (fuel : nat) (conn : option nat) (c : nat) (os : list Object) (h : History) (d : D) : option (History * D) :=
  match os with
  | [] => Some (h, d)
  | o :: os =>
      match save class_of fuel conn c o d with
      | Done _ d => saves fuel conn c os (mkHistory (saved h ++ [o]) (refused h)) d
      | Thrown (OptimisticLockException _) d => saves fuel conn c os (mkHistory (saved h) (refused h ++ [(o, length (saved h))])) d
      | Thrown _ d => saves fuel conn c os h d
      | Unfinished => None
      end
  end.

(** The version an entity is saved from, and the columns its save writes. *)
Definition version_of (c : Class_) (ms1 : list Member) (o : Object) : Z :=
  match invoke_lifecycle PreUpdate c o !! length ms1 with Some (VInt z) => z | _ => 0 end.

Definition written (c : Class_) (ms1 : list Member) (o : Object) : list (bytes * Param) :=
  match assignments class_of (version_of c ms1 o) (members c) (invoke_lifecycle PreUpdate c o) with inr l => l | inl _ => [] end.

(** The history of a row that began as [r0] at version [v0] and is now [r]. *)
Record serialized (c : Class_) (ms1 : list Member) (vm : Member) (r0 : Row) (v0 : Z) (h : History) (r : Row) : Prop := {
  h_versions : map (version_of c ms1) (saved h) = seqZ v0 (len (saved h));
  h_row : r = foldl (fun r o => assign (written c ms1 o) r) r0 (saved h);
  h_version : r !! get_member_column_name vm = Some (Int (v0 + len (saved h)));
  h_refused : Forall (fun x => version_of c ms1 (fst x) <> v0 + Z.of_nat (snd x)) (refused h)
}.

Lemma saves_serialized fuel conn c ms1 vm ms2 id os (h : History) (d : D) (r0 r : Row) (v0 : Z) :
  let cl := class_of c in
  versioned cl ms1 vm ms2 -> Forall (fun o => to_save cl ms1 o id (version_of cl ms1 o)) os ->
  keyed cl id (rows d (table_name_ cl)) = [r] -> serialized cl ms1 vm r0 v0 h r ->
  exists h' d' r', saves (S fuel) conn c os h d = Some (h', d') /\ keyed cl id (rows d' (table_name_ cl)) = [r'] /\
    serialized cl ms1 vm r0 v0 h' r'.
Proof.
  intros cl V F. revert h d r. induction F as [|o os T F IH]; intros h d r K S; [by exists h, d, r|]. cbn [saves].
  pose proof (save_swaps fuel conn c ms1 vm ms2 o id _ d r _ V T K (h_version _ _ _ _ _ _ _ S)) as X.
  destruct (save class_of (Datatypes.S fuel) conn c o d) as [o' d'|e d'|]; cbn [ends] in X; [| |done].
  - destruct X as (Z & l & A & K'). apply (IH _ _ (assign l r) K'). destruct S as [S1 S2 S3 S4].
    assert (W : written cl ms1 o = l) by (unfold written; fold cl in A; by rewrite A).
    split; cbn [saved refused].
    + rewrite map_app, S1, len_app. cbn [map]. rewrite Z. change (len [o]) with 1.
      rewrite seqZ_app by (unfold len; lia). by rewrite Z.add_comm.
    + by rewrite foldl_app, <- S2, <- W.
    + rewrite len_app. change (len [o]) with 1. rewrite Z.add_assoc, <- Z. unfold assign. apply lookup_union_Some_l.
      eapply (next_version _ _ _ _ _ _ _ _ V); [apply (s_hooked _ _ _ _ _ T)|apply (s_version _ _ _ _ _ T)|apply T|exact A].
    + done.
  - destruct X as [R X]. assert (K' : keyed cl id (rows d' (table_name_ cl)) = [r]) by (by rewrite R).
    destruct e; try (by apply (IH _ _ r)). apply (IH _ _ r K'). destruct S as [S1 S2 S3 S4]. split; [done..|]. cbn [refused].
    apply Forall_app. split; [done|]. constructor; [|done]. cbn [fst snd]. apply X. by eexists.
Qed.

End Serial.

(** [C15] Saves of a versioned row, one after the other, lose no update.  The class has
    a generated id, distinct plain column names, one integer version member and no
    collections; the entities carry
    the id of the row and versions from 0 to 2^31 - 2, and the database carries out
    the UPDATE statements as SQL says.  Whichever such entities are saved in whatever
    order, those that succeed were read at consecutive
    versions starting with the row's, so no two of them at the same one; the row
    ends as their columns written in that order, at its first version plus
    their number; and an entity is refused with [OptimisticLockException] only
    when the row is no longer at its version, leaving the row as it was. *)
Theorem no_lost_updates {D Cell} `{SqlUpdates D Cell} class_of fuel conn c ms1 vm ms2 id os (d : D) r v :
  let cl := class_of c in
  versioned cl ms1 vm ms2 -> Forall (fun o => to_save cl ms1 o id (version_of cl ms1 o)) os ->
  keyed cl id (rows d (table_name_ cl)) = [r] -> r !! get_member_column_name vm = Some (Int v) ->
  exists h d' r', saves class_of (S fuel) conn c os (mkHistory [] []) d = Some (h, d') /\
    keyed cl id (rows d' (table_name_ cl)) = [r'] /\ serialized class_of cl ms1 vm r v h r'.
Proof.
  intros cl V F K R. apply (saves_serialized class_of fuel conn c ms1 vm ms2 id os (mkHistory [] []) d r r v V F K).
  split; [done|done| |constructor]. by rewrite Z.add_0_r.
Qed.

(** ** Connections are given back *)

(** The connections of the pool that are out. *)
Class Leases (D Cell : Type) `{Database D Cell} := {
  leases : D -> list nat;
  lease_taken d c d' : get_connection d = (inr c, d') -> leases d' ≡ₚ c :: leases d;
  lease_refused d e d' : get_connection d = (inl e, d') -> leases d' ≡ₚ leases d;
  lease_returned d c l : leases d ≡ₚ c :: l -> leases (release c d) ≡ₚ l;
  execute_leases conn sql ps d : leases (snd (execute conn sql ps d)) ≡ₚ leases d;
  query_leases conn sql ps d : leases (snd (query conn sql ps d)) ≡ₚ leases d;
  last_insert_id_leases conn d : leases (snd (last_insert_id conn d)) ≡ₚ leases d;
  generate_uuid_leases d : leases (snd (generate_uuid d)) ≡ₚ leases d
}.

Section Leasing.
Context {D Cell : Type} `{Leases D Cell}.
Variable class_of : nat -> Class_.

(** As many connections are out after the operation as before, whether it
    returns or throws. *)
Definition balanced {A} (m : M D A) : Prop := forall d,
  match m d with
  | Done _ d' | Thrown _ d' => leases d' ≡ₚ leases d
  | Unfinished => True
  end.

Lemma balanced_ret {A} (a : A) : balanced (ret a).
Proof. intros d. apply Permutation_refl. Qed.

Lemma balanced_throw {A} e : balanced (A := A) (throw e).
Proof. intros d. apply Permutation_refl. Qed.

Lemma balanced_lift {A} (r : result Exn A) : balanced (lift r).
Proof. destruct r; [apply balanced_throw|apply balanced_ret]. Qed.

Lemma balanced_unfinished {A} : balanced (A := A) (fun _ => Unfinished).
Proof. by intros d. Qed.

Lemma balanced_bind {A B} (m : M D A) (f : A -> M D B) : balanced m -> (forall a, balanced (f a)) -> balanced (bind m f).
Proof.
  intros X Y d. unfold bind. specialize (X d). destruct (m d) as [a d1|e d1|]; [|done|done].
  specialize (Y a d1). destruct (f a d1); [etrans; eassumption..|done].
Qed.

Lemma balanced_call {A} (f : D -> result Exn A * D) : (forall d, leases (snd (f d)) ≡ₚ leases d) -> balanced (of_call f).
Proof. intros X d. unfold of_call. specialize (X d). by destruct (f d) as [[e|a] d']. Qed.

Lemma balanced_query conn sql ps : balanced (send_query conn sql ps).
Proof. apply balanced_call. intros d. apply query_leases. Qed.

Lemma balanced_send conn sql ps : balanced (send conn sql ps).
Proof. apply balanced_call. intros d. apply execute_leases. Qed.

Lemma balanced_with_connection {A} conn (f : nat -> M D A) : (forall c, balanced (f c)) -> balanced (with_connection conn f).
Proof.
  intros X d. unfold with_connection. destruct conn as [c|]; [apply X|]. destruct (current_connection d) as [c|]; [apply X|].
  destruct (get_connection d) as [[e|c] d1] eqn:G; [by apply lease_refused in G|]. apply lease_taken in G. specialize (X c d1).
  destruct (f c d1) as [a d2|e d2|]; [| |done]; (apply lease_returned; by rewrite X).
Qed.

Lemma balanced_each {A B} (f : A -> M D B) l : (forall a, balanced (f a)) -> balanced (each f l).
Proof. intros X. induction l as [|a l IH]; [apply balanced_ret|]. apply balanced_bind; [apply X|]. intros b. apply balanced_bind; [done|]. intros bl. apply balanced_ret. Qed.

End Leasing.

Create HintDb leases.
#[export] Hint Resolve balanced_ret balanced_throw balanced_lift balanced_unfinished balanced_query balanced_send : leases.

(** Through the binds and the cases of an operation. *)
Ltac balance :=
  repeat match goal with
  | |- balanced (bind _ _) => apply balanced_bind; [|intros ?]
  | |- balanced (with_connection _ _) => apply balanced_with_connection; intros ?
  | |- balanced (each _ _) => apply balanced_each; intros ?
  | |- balanced (of_call (query _ _ _)) => apply balanced_call; intros ?; apply query_leases
  | |- balanced (of_call (last_insert_id _)) => apply balanced_call; intros ?; apply last_insert_id_leases
  | |- balanced (match ?x with _ => _ end) => destruct x
  | |- balanced _ => solve [auto with leases]
  end.

Section Operations.
Context {D Cell : Type} `{Leases D Cell}.
Variable class_of : nat -> Class_.

Lemma balanced_map_row fuel c context columns row : balanced (map_row_to_entity class_of fuel c context columns row).
Proof.
  revert c context columns row. induction fuel as [|fuel IH]; intros; [apply balanced_unfinished|]. cbn [map_row_to_entity].
  assert (L : forall ms before after, balanced (load_collections class_of (map_row_to_entity class_of fuel) c context ms before after)).
  { induction ms as [|m ms IHm]; intros before [|v after]; cbn [load_collections]; balance; try apply IHm.
    unfold load_collection, eager_load_one_to_many, eager_load_many_to_many. balance; apply IH. }
  balance; try apply L.
  unfold read_member, read_reference, fetch_reference, eager_load_many_to_one, lazy_load_many_to_one. balance; apply IH.
Qed.

Lemma balanced_delete fuel conn c id : balanced (delete_by_id class_of fuel conn c id).
Proof.
  revert conn c id. induction fuel as [|fuel IH]; intros; [apply balanced_unfinished|]. cbn [delete_by_id].
  unfold delete_row, delete_associations_by_id, delete_one_to_many_association, delete_join_rows, delete_ids. balance; apply IH.
Qed.

Lemma balanced_uuid {A} (f : Uuid.t -> A) : balanced (fun d => let '(u, d) := generate_uuid d in Done (f u) d).
Proof. intros d. pose proof (generate_uuid_leases d). by destruct (generate_uuid d). Qed.

Lemma balanced_identify conn c i ms st : balanced (identify conn c i ms st).
Proof.
  revert i st. induction ms as [|m ms IH]; intros; cbn [identify]; balance; try apply IH.
  unfold identify_member, exists_by_id. balance; apply balanced_uuid.
Qed.

Section Children.
Context (save_child : nat -> nat -> Object -> M D Object) (delete_child : nat -> nat -> Value -> M D ()).
Hypothesis balanced_save_child : forall child conn o, balanced (save_child child conn o).
Hypothesis balanced_delete_child : forall child conn id, balanced (delete_child child conn id).

Lemma balanced_save_children c child conn mapped entity done_ rest :
  balanced (save_children class_of save_child c child conn mapped entity done_ rest).
Proof. revert done_. induction rest as [|o rest IH]; intros; cbn [save_children]; balance; auto. Qed.

Lemma balanced_link child j id conn linked os : balanced (link_all class_of child j id conn linked os).
Proof. revert linked. induction os as [|o os IH]; intros; cbn [link_all]; balance; apply IH. Qed.

#[local] Hint Resolve balanced_save_children balanced_link : leases.

Lemma balanced_associations c i ms conn is_new o :
  balanced (save_associations class_of save_child delete_child c i ms conn is_new o).
Proof.
  revert i o. induction ms as [|m ms IH]; intros; cbn [save_associations]; balance; try apply IH.
  - unfold save_one_to_many_association, remove_one_to_many_orphans, delete_ids. balance; auto.
  - unfold save_many_to_many_association, delete_join_rows. balance; auto.
Qed.

Lemma balanced_save_entity conn c o : balanced (save_entity class_of save_child delete_child conn c o).
Proof.
  unfold save_entity, insert, update. balance; try apply balanced_identify; try apply balanced_associations.
  all: destruct a as [? ?]; balance; try apply balanced_associations.
Qed.

End Children.

Lemma balanced_save fuel conn c o : balanced (save class_of fuel conn c o).
Proof.
  revert conn c o. induction fuel as [|fuel IH]; intros; [apply balanced_unfinished|]. cbn [save].
  apply balanced_save_entity; intros; [apply IH|apply balanced_delete].
Qed.

Lemma balanced_list fuel conn c b : balanced (list_entities class_of fuel conn c b).
Proof.
  unfold list_entities. balance. intros d. apply (balanced_bind (of_call _)); [balance|]. intros [columns rs]. balance.
  apply balanced_map_row.
Qed.

End Operations.

#[export] Hint Resolve balanced_save balanced_list balanced_map_row balanced_delete : leases.

(** Whatever a repository is asked to do, and whether it returns or throws, it
    has given back the connections it took from the pool. *)
Theorem connections_returned {D Cell} `{Leases D Cell} class_of fuel conn c :
  (forall o, balanced (save class_of fuel conn c o)) /\
  (forall os, balanced (save_all class_of fuel conn c os)) /\
  (forall id, balanced (delete_by_id class_of fuel conn c id)) /\
  balanced (delete_all class_of fuel conn c) /\
  (forall column v, balanced (delete_by class_of fuel conn c column v)) /\
  (forall id, balanced (find_by_id class_of fuel conn c id)) /\
  (forall ids, balanced (find_all_by_id class_of fuel conn c ids)) /\
  (forall b, balanced (list_entities class_of fuel conn c b)) /\
  (forall id, balanced (exists_by_id conn (class_of c) id)) /\ balanced (count class_of conn c) /\
  (forall column v, balanced (exists_by class_of conn c column v)) /\
  (forall column v, balanced (count_by class_of conn c column v)) /\
  (forall p m, find_page class_of fuel conn c p = Some m -> balanced m).
Proof.
  unfold save_all, delete_all, delete_by, delete_entity, find_all, find_all_by, find_by_id, find_all_by_id, exists_by_id, count,
    exists_by, count_by, count_rows.
  repeat split; intros; balance. unfold find_page, count_rows in *.
  destruct (QueryBuilder.page_builder _ _ _) as [[[message]|paged]|]; simplify_eq; balance.
Qed.

(** ** Eager loading ends *)

Section Loading.
Context {D Cell : Type} `{Database D Cell}.
Variable class_of : nat -> Class_.
Variable keys : list bytes.
Variable good : D -> Prop.
Variable stored : Cell -> Prop.

(** The keys an entity can be loaded under: its own and those of its join tables. *)
Definition keys_of (c : nat) (id : Param) : Prop :=
  entity_key (class_of c) id ∈ keys /\
  forall m mtm, m ∈ members (class_of c) -> a_many_to_many m = Some mtm ->
    jt_name (join_table mtm) ++ bs ":" ++ entity_key (class_of c) id ∈ keys.

(** The database holds finitely many identities: [stored] are the cells its
    results are made of while it is [good], and [keys] has the keys of all that
    they, and the initial values of identifiers, name. *)
Record finite_identities : Prop := {
  f_query conn sql ps d : good d ->
    match query conn sql ps d with
    | (inr (_, rs), d') => good d' /\ Forall (Forall stored) rs
    | (inl _, d') => good d'
    end;
  f_lease d : good d -> good (snd (get_connection d));
  f_release c d : good d -> good (release c d);
  f_reference c cell o id : stored cell -> entity_with_id (class_of c) cell = inr o ->
    entity_id_parameter (class_of c) o = inr id -> entity_key (class_of c) id ∈ keys;
  f_member c m : m ∈ members (class_of c) -> a_id m = true ->
    a_many_to_one m = None /\ a_one_to_many m = None /\ a_many_to_many m = None /\ keys_of c (parameter (m_init m)) /\
    forall cell v, stored cell -> read_scalar m (m_init m) cell = inr v -> keys_of c (parameter v)
}.

Hypothesis finite : finite_identities.

(** The operation returns or throws, and its result has a property. *)
Definition finishes {A} (m : M D A) (Q : A -> Prop) : Prop := forall d, good d ->
  match m d with
  | Done a d' => good d' /\ Q a
  | Thrown _ d' => good d'
  | Unfinished => False
  end.

Lemma finishes_ret {A} (a : A) (Q : A -> Prop) : Q a -> finishes (ret a) Q.
Proof. by intros q d G. Qed.

Lemma finishes_lift {A} (r : result Exn A) : finishes (lift r) (fun a => r = inr a).
Proof. intros d G. by destruct r. Qed.

Lemma finishes_bind {A B} (m : M D A) (f : A -> M D B) P Q :
  finishes m P -> (forall a, P a -> finishes (f a) Q) -> finishes (bind m f) Q.
Proof.
  intros X Y d G. unfold bind. specialize (X d G). destruct (m d) as [a d'|e d'|]; [|done|done].
  destruct X as [G' Pa]. by apply Y.
Qed.

Lemma finishes_weaken {A} (m : M D A) (P Q : A -> Prop) : finishes m P -> (forall a, P a -> Q a) -> finishes m Q.
Proof. intros X Y d G. specialize (X d G). destruct (m d); naive_solver. Qed.

Lemma finishes_query conn sql ps : finishes (send_query conn sql ps) (fun cr => Forall (Forall stored) (snd cr)).
Proof.
  intros d G. unfold send_query, of_call. pose proof (f_query finite conn (Dialect.convert_placeholders dialect sql) ps d G) as X.
  by destruct (query _ _ _ d) as [[e|[columns rs]] d'].
Qed.

Lemma finishes_each {A B} (f : A -> M D B) l : (forall a, a ∈ l -> finishes (f a) (fun _ => True)) -> finishes (each f l) (fun _ => True).
Proof.
  induction l as [|a l IH]; intros X; [by apply finishes_ret|]. eapply finishes_bind; [apply X; left|]. intros b _.
  eapply finishes_bind; [apply IH; intros; apply X; by right|]. intros bl _. by apply finishes_ret.
Qed.

(** How much deeper loading can go: by one key at a time, and through one
    fetch join. *)
Definition room (context : option EntityLoadContext) : nat :=
  match context with
  | None => 0
  | Some c => length (filter (.∉ loading c) keys) + (if bool_decide (joined_fetch_prefixes c = []) then 0 else 1)
  end.

Lemma room_enter key c : key ∈ keys -> key ∉ loading c -> (room (Some (enter key c)) < room (Some c))%nat.
Proof.
  intros I N. cbn [room enter loading joined_fetch_prefixes]. apply Nat.add_lt_mono_r.
  induction keys as [|k ks IH]; [by apply not_elem_of_nil in I|]. rewrite !filter_cons.
  assert (L : (length (filter (.∉ key :: loading c) ks) <= length (filter (.∉ loading c) ks))%nat).
  { clear. induction ks as [|k ks IH]; [done|]. rewrite !filter_cons. repeat case_decide; cbn [length]; try lia. set_solver. }
  destruct (decide (key ∈ ks)) as [K|K]; [specialize (IH K)|]; repeat case_decide; cbn [length]; try lia; set_solver.
Qed.

Lemma room_joined prefix c m : joined_fetch_prefix (Some c) m = Some prefix -> (room (Some (joined_context prefix c)) < room (Some c))%nat.
Proof.
  intros J. cbn [room joined_context loading joined_fetch_prefixes]. rewrite bool_decide_true by done.
  rewrite bool_decide_false; [lia|]. intros E. unfold joined_fetch_prefix in J. cbn in J. by rewrite E in J.
Qed.

(** The identifier of an entity as its members were read. *)
Definition member_ok (c : nat) (m : Member) (v : Value) : Prop := a_id m = true -> keys_of c (parameter v).

Lemma entity_keys c o id : Forall2 (member_ok c) (members (class_of c)) o -> entity_id_parameter (class_of c) o = inr id -> keys_of c id.
Proof.
  unfold entity_id_parameter, id_value. induction 1 as [|m v ms o X F IH]; [done|]. cbn [combine List.find fst].
  destruct (a_id m) eqn:A; [|done]. cbn. intros E. injection E as <-. by apply X.
Qed.

Section Step.
Variable n : nat.
Variable nested : nat -> option EntityLoadContext -> list bytes -> list Cell -> M D Object.
Hypothesis nested_finishes : forall c context columns row, Forall stored row -> (room context < n)%nat ->
  finishes (nested c context columns row) (fun _ => True).
Variable context : option EntityLoadContext.
Hypothesis context_room : (room context <= n)%nat.

Lemma finishes_to_one t cell : stored cell -> finishes (eager_load_many_to_one class_of nested t cell context) (fun _ => True).
Proof.
  intros C. unfold eager_load_many_to_one. eapply finishes_bind; [apply finishes_lift|].
  intros o O. destruct context as [k|]; [|by apply finishes_ret].
  eapply finishes_bind; [apply finishes_lift|]. intros id I.
  case_bool_decide as L; [by apply finishes_ret|]. eapply finishes_bind; [apply finishes_lift|]. intros pk _.
  eapply finishes_bind; [apply finishes_query|]. intros [columns rs] R. destruct rs as [|row rs]; [by apply finishes_ret|].
  apply nested_finishes; [by inversion R|]. eapply Nat.lt_le_trans; [|exact context_room]. apply room_enter; [|done].
  exact (f_reference finite t cell o id C O I).
Qed.

Lemma finishes_rows k key child columns rs : (room (Some k) <= n)%nat -> key ∈ keys -> key ∉ loading k -> Forall (Forall stored) rs ->
  finishes (each (nested child (Some (enter key k)) columns) rs) (fun _ => True).
Proof.
  intros E K N R. apply finishes_each. intros row I. apply nested_finishes; [rewrite Forall_forall in R; by apply R|].
  eapply Nat.lt_le_trans; [by apply room_enter|done].
Qed.

Lemma finishes_one_to_many c child o mapped : Forall2 (member_ok c) (members (class_of c)) o ->
  finishes (eager_load_one_to_many class_of nested c child o mapped context) (fun _ => True).
Proof.
  intros F. unfold eager_load_one_to_many. destruct context as [k|]; [|by apply finishes_ret].
  eapply finishes_bind; [apply finishes_lift|]. intros id I.
  case_bool_decide as L; [by apply finishes_ret|]. eapply finishes_bind; [apply finishes_lift|]. intros col _.
  eapply finishes_bind; [apply finishes_query|]. intros [columns rs] R. apply finishes_rows; [done| |done|done].
  by apply (entity_keys _ _ _ F).
Qed.

Lemma finishes_many_to_many c m mtm child o : Forall2 (member_ok c) (members (class_of c)) o ->
  m ∈ members (class_of c) -> a_many_to_many m = Some mtm ->
  finishes (eager_load_many_to_many class_of nested c child o (join_table mtm) context) (fun _ => True).
Proof.
  intros F M A. unfold eager_load_many_to_many. destruct context as [k|]; [|by apply finishes_ret].
  eapply finishes_bind; [apply finishes_lift|]. intros id I.
  case_bool_decide as L; [by apply finishes_ret|]. eapply finishes_bind; [apply finishes_lift|]. intros pk _.
  eapply finishes_bind; [apply finishes_query|]. intros [columns rs] R. apply finishes_rows; [done| |done|done].
  by apply (proj2 (entity_keys _ _ _ F I) m).
Qed.

Lemma finishes_reference m fetch columns row cell : stored cell -> Forall stored row ->
  finishes (read_reference class_of nested m fetch context columns row cell) (fun _ => True).
Proof.
  intros C R. pose proof (fun t => finishes_to_one t cell C) as T. unfold read_reference.
  assert (F : forall t, finishes (fetch_reference class_of nested m context columns row cell t) (fun _ => True)).
  { intros t. unfold fetch_reference. specialize (T t). destruct context as [k|]; [|exact T].
    destruct (joined_fetch_prefix (Some k) (m_name m)) as [prefix|] eqn:J; [|exact T].
    apply nested_finishes; [done|]. eapply Nat.lt_le_trans; [by eapply room_joined|done]. }
  destruct (m_type m) as [| | | | | | | |t|t|t| |]; try (by apply finishes_ret).
  - repeat case_match; eapply finishes_bind; try apply F; try apply T; try apply finishes_lift; intros; by apply finishes_ret.
  - repeat case_match; eapply finishes_bind; try apply F; try apply T; try apply finishes_lift; intros; by apply finishes_ret.
  - case_match.
    + eapply finishes_bind; [apply F|]. intros o _. eapply finishes_bind; [apply finishes_lift|]. intros id _. by apply finishes_ret.
    + unfold lazy_load_many_to_one. do 2 (eapply finishes_bind; [apply finishes_lift|]; intros). case_match; by apply finishes_ret.
Qed.

Lemma finishes_member c m columns row : m ∈ members (class_of c) -> Forall stored row ->
  finishes (read_member class_of nested context columns row m) (member_ok c m).
Proof.
  intros I R. assert (Init : member_ok c m (m_init m)) by (intros A; apply (f_member finite c m I A)).
  unfold read_member. destruct (is_persisted_entity_member m); [|by apply finishes_ret].
  destruct (find_column_index _ _ ≫= _) as [cell|] eqn:E; [|by apply finishes_ret].
  assert (C : stored cell).
  { apply bind_Some in E as (i & _ & E). rewrite Forall_forall in R. by eapply R, list_elem_of_lookup_2. }
  destruct (is_null cell); [by apply finishes_ret|]. destruct (a_many_to_one m) as [fetch|] eqn:A.
  - eapply finishes_weaken; [by apply finishes_reference|]. intros v _ X. destruct (f_member finite c m I X) as [Y _]. congruence.
  - eapply finishes_weaken; [apply finishes_lift|]. intros v V X. destruct (f_member finite c m I X) as (_ & _ & _ & _ & Y). by eapply Y.
Qed.

Lemma finishes_collection c m v o : m ∈ members (class_of c) -> Forall2 (member_ok c) (members (class_of c)) o -> member_ok c m v ->
  finishes (load_collection class_of nested c context o m v) (member_ok c m).
Proof.
  intros I F V. unfold load_collection. destruct (a_id m) eqn:A.
  { destruct (f_member finite c m I A) as (_ & -> & -> & _). by apply finishes_ret. }
  apply (finishes_weaken _ (fun _ => True)); [|by unfold member_ok; rewrite A].
  assert (P : forall eager load, (forall child, finishes (load child) (fun _ => True)) ->
    finishes (match m_type m with
      | TVector child => if eager : bool then bind (load child) (fun os => ret (VVector os)) else ret v
      | TLazyCollection child => if eager then bind (load child) (fun os => ret (VLazyCollection (Some os) None))
          else match context with
               | None => ret (VLazyCollection None None)
               | Some _ => bind (lift (entity_id_parameter (class_of c) o)) (fun p => ret (VLazyCollection None (Some p)))
               end
      | _ => ret v
      end) (fun _ => True)).
  { intros eager load L. destruct (m_type m); try (by apply finishes_ret).
    - destruct eager; [|by apply finishes_ret]. eapply finishes_bind; [apply L|]. intros. by apply finishes_ret.
    - destruct eager; [eapply finishes_bind; [apply L|]; intros; by apply finishes_ret|].
      destruct context; [|by apply finishes_ret]. eapply finishes_bind; [apply finishes_lift|]. intros. by apply finishes_ret. }
  destruct (a_one_to_many m) as [otm|]; [apply P; intros; by apply finishes_one_to_many|].
  destruct (a_many_to_many m) as [mtm|] eqn:B; [apply P; intros; by eapply finishes_many_to_many|by apply finishes_ret].
Qed.

Lemma finishes_collections c ms0 ms before after : members (class_of c) = ms0 ++ ms -> Forall2 (member_ok c) ms0 before ->
  Forall2 (member_ok c) ms after -> finishes (load_collections class_of nested c context ms before after) (fun _ => True).
Proof.
  intros E B A. revert ms0 before E B. induction A as [|m v ms after V A IH]; intros ms0 before E B; [by apply finishes_ret|].
  cbn [load_collections]. eapply finishes_bind.
  - apply finishes_collection; [rewrite E; set_solver| |exact V]. rewrite E. apply Forall2_app; [done|]. by constructor.
  - intros v' V'. apply (IH (ms0 ++ [m])); [by rewrite <- app_assoc|]. apply Forall2_app; [done|]. by apply Forall2_cons.
Qed.

End Step.

Lemma finishes_each_of {A B} (f : A -> M D B) (P : A -> B -> Prop) l : (forall a, a ∈ l -> finishes (f a) (P a)) -> finishes (each f l) (Forall2 P l).
Proof.
  induction l as [|a l IH]; intros X; [by apply finishes_ret|]. eapply finishes_bind; [apply X; left|]. intros b Pb.
  eapply finishes_bind; [apply IH; intros; apply X; by right|]. intros bl Pl. apply finishes_ret. by constructor.
Qed.

Lemma finishes_map_row fuel c context columns row : Forall stored row -> (room context < fuel)%nat ->
  finishes (map_row_to_entity class_of fuel c context columns row) (fun _ => True).
Proof.
  revert c context columns row. induction fuel as [|fuel IH]; intros c context columns row R N; [lia|]. cbn [map_row_to_entity].
  eapply finishes_bind; [|intros o F].
  - apply (finishes_each_of _ (member_ok c)). intros m I. apply (finishes_member fuel); [done|lia|done|done].
  - eapply finishes_bind; [apply (finishes_collections fuel) with (ms0 := []); [done|lia|done|constructor|done]|].
    intros o' _. by apply finishes_ret.
Qed.

Lemma finishes_with_connection {A} conn (f : nat -> M D A) : (forall c, finishes (f c) (fun _ => True)) ->
  finishes (with_connection conn f) (fun _ => True).
Proof.
  intros X d G. unfold with_connection. destruct conn as [c|]; [by apply X|]. destruct (current_connection d) as [c|]; [by apply X|].
  pose proof (f_lease finite d G) as L. destruct (get_connection d) as [[e|c] d']; [done|]. specialize (X c d' L).
  destruct (f c d') as [a d2|e d2|]; [|by apply (f_release finite)|done]. split; [|done]. by apply (f_release finite), X.
Qed.

Lemma room_bound conn fetched prefixes prefix retain : (room (Some (mkContext conn [] fetched prefixes prefix retain)) <= S (length keys))%nat.
Proof. cbn [room loading joined_fetch_prefixes]. pose proof (length_filter (.∉ []) keys). case_bool_decide; lia. Qed.

End Loading.

(** [C40] Loading an entity, and listing entities with fetch joins, ends whatever
    cycles the references and eager collections make: with fuel two above the
    number of [keys] the call returns or throws.  [keys] has one key for each
    entity, a class with an identifier, that the cells of the database or the
    initial values of identifiers name, and one more for each join table of
    its class. *)
Theorem eager_loading_ends {D Cell} `{Database D Cell} (class_of : nat -> Class_) (keys : list bytes) (good : D -> Prop)
    (stored : Cell -> Prop) (conn : option nat) (c : nat) (d : D) :
  finite_identities class_of keys good stored -> good d ->
  (forall id, find_by_id class_of (length keys + 2) conn c id d <> Unfinished) /\
  (forall b, list_entities class_of (length keys + 2) conn c b d <> Unfinished).
Proof.
  intros F G. split.
  - intros id. assert (X : finishes good (find_by_id class_of (length keys + 2) conn c id) (fun _ => True)).
    { apply (finishes_with_connection _ _ _ _ F). intros k. eapply finishes_bind; [by apply (finishes_query _ _ _ _ F)|].
      intros [columns rs] R. destruct rs as [|row rs]; [by apply finishes_ret|]. eapply finishes_bind; [|intros; by apply finishes_ret].
      apply (finishes_map_row _ _ _ _ F); [by inversion R|]. unfold load_context.
      eapply Nat.le_lt_trans; [apply room_bound|lia]. }
    specialize (X d G). by destruct (find_by_id _ _ _ _ _ d).
  - intros b. assert (X : finishes good (list_entities class_of (length keys + 2) conn c b) (fun _ => True)).
    { apply (finishes_with_connection _ _ _ _ F). intros k d1 G1. destruct (QueryBuilder.list_query _ _ _) as [sql ps].
      pose proof (f_query _ _ _ _ F k sql ps d1 G1) as Q. unfold bind, of_call.
      destruct (query k sql ps d1) as [[e|[columns rs]] d2]; [done|]. destruct Q as [G2 R].
      refine (finishes_each _ _ _ _ _ G2). intros row I. apply (finishes_map_row _ _ _ _ F); [rewrite Forall_forall in R; by apply R|].
      eapply Nat.le_lt_trans; [apply room_bound|lia]. }
    specialize (X d G). by destruct (list_entities _ _ _ _ _ d).
Qed.

(** ** What was stored reads back *)

Section ReadBack.
Context {D Cell : Type} `{Database D Cell}.
Variable class_of : nat -> Class_.

(** The cell reads as the parameter that was stored, with its getter. *)
Definition reads (cell : Cell) (p : Param) : Prop :=
  match p with
  | Null => is_null cell = true
  | Int z => is_null cell = false /\ get_int cell = inr z
  | Double x => is_null cell = false /\ get_double cell = inr x
  | Text s => is_null cell = false /\ get_string cell = s
  | Bool b => is_null cell = false /\ get_bool cell = b
  | Blob b => is_null cell = false /\ get_blob cell = b
  | UuidValue u => is_null cell = false /\ get_uuid cell = u
  | SqlValue.Time ns => is_null cell = false /\ get_time cell = ns
  end.

(** A member of a type that [map_row_to_entity] reads, with a value of it; an
    enumeration stored by name has enumerators of different names. *)
Definition readable (m : Member) (v : Value) : Prop :=
  a_many_to_one m = None /\ a_temporal m = None /\
  match m_type m, v with
  | TIntegral Int32, VInt z => - 2 ^ 31 <= z < 2 ^ 31
  | TIntegral Int64, VInt z => - 2 ^ 63 <= z < 2 ^ 63
  | TDouble, VDouble _ | TString, VString _ | TBool, VBool _ | TBlob, VBlob _ | TUuid, VUuid _ | TTime, VTime _ => True
  | TEnum es, VEnum z => - 2 ^ 31 <= z < 2 ^ 31 /\ (a_enumerated m = Some StringEnum -> NoDup (map fst es) /\ z ∈ map snd es)
  | _, _ => False
  end.

Lemma cast_int64 z : - 2 ^ 63 <= z < 2 ^ 63 -> cast_int Int64 z = z.
Proof. intros R. cbn [cast_int]. rewrite Z.mod_small; lia. Qed.

Lemma cast_int32 z : - 2 ^ 31 <= z < 2 ^ 31 -> cast_int Int32 z = z.
Proof. intros R. cbn [cast_int]. rewrite Z.mod_small; lia. Qed.

Lemma enumerator_name_in es z : z ∈ map snd es -> (enumerator_name es z, z) ∈ es.
Proof.
  unfold enumerator_name. induction es as [|e es IH] using rev_ind; [by intros X; apply not_elem_of_nil in X|].
  intros X. rewrite foldl_app. cbn [foldl]. destruct (Z.eqb_spec (snd e) z) as [E|E]; [destruct e; cbn in *; subst; set_solver|].
  apply elem_of_app. left. apply IH. rewrite map_app in X. cbn in X. set_solver.
Qed.

Lemma enumerator_found (es : list (bytes * Z)) (n : bytes) (z : Z) (init : Value) : NoDup (map fst es) -> (n, z) ∈ es ->
  foldl (fun v e => if bool_decide (fst e = n) then VEnum (snd e) else v) init es = VEnum z.
Proof.
  induction es as [|e es IH] using rev_ind; [by intros _ X; apply not_elem_of_nil in X|]. intros N X. rewrite map_app in N.
  apply NoDup_app in N as (N & Dj & _). rewrite foldl_app. cbn [foldl]. apply elem_of_app in X as [X|X].
  - rewrite bool_decide_false; [by apply IH|]. intros E. apply (Dj n); [|rewrite <- E; cbn; set_solver].
    apply list_elem_of_In, in_map_iff. exists (n, z). split; [done|]. by apply list_elem_of_In.
  - apply list_elem_of_singleton in X as <-. by rewrite bool_decide_true.
Qed.

(** A member's stored parameter reads as its value. *)
Lemma scalar_reads_back m v p cell init : readable m v -> member_parameter class_of m v = inr p -> reads cell p ->
  is_null cell = false /\ read_scalar m init cell = inr v.
Proof.
  intros (A & T & V) P R. unfold member_parameter in P. unfold read_scalar. rewrite T in *.
  destruct (m_type m) as [k| | | | | | |es| | | | |]; destruct v; try done; try (destruct k; done);
    try (apply (inj inr) in P as <-; destruct R as [N R]; split; [done|]; by rewrite R).
  - apply (inj inr) in P as <-. unfold parameter in R. destruct R as [N R]. split; [done|]. destruct k as [| |]; [| |done].
    + rewrite R. cbn [result_bind]. by rewrite cast_int64, cast_int32 by lia.
    + rewrite R. cbn [result_bind]. by rewrite !cast_int64 by (try rewrite cast_int64; lia).
  - destruct V as [Z E]. destruct (a_enumerated m) as [[|]|].
    + apply (inj inr) in P as <-. destruct R as [N R]. split; [done|]. rewrite R. cbn [result_bind]. by rewrite cast_int64, cast_int32 by lia.
    + destruct (E eq_refl) as [ND I]. injection P as <-. destruct R as [N R]. split; [done|]. rewrite R. f_equal.
      apply enumerator_found; [done|]. by apply enumerator_name_in.
    + apply (inj inr) in P as <-. destruct R as [N R]. split; [done|]. rewrite R. cbn [result_bind]. by rewrite cast_int64, cast_int32 by lia.
Qed.

(** The row has, under the member's column and wherever that is, a cell that
    reads as the parameter [save] stores for the value; a member that is not
    persisted has its initial value. *)
Definition row_holds (columns : list bytes) (row : list Cell) (m : Member) (v : Value) : Prop :=
  if is_persisted_entity_member m then
    readable m v /\ exists cell p,
      find_column_index columns (get_member_column_name m) ≫= (row !!.) = Some cell /\
      member_parameter class_of m v = inr p /\ reads cell p
  else v = m_init m.

Lemma member_reads_back nested context columns row m v (d : D) : prefixed_column_name context [] = [] -> row_holds columns row m v ->
  read_member class_of nested context columns row m d = Done v d.
Proof.
  intros X R. unfold read_member, row_holds in *. destruct (is_persisted_entity_member m); [|by rewrite R].
  assert (prefixed_column_name context (get_member_column_name m) = get_member_column_name m) as ->.
  { destruct context as [k|]; [|done]. cbn in *. rewrite app_nil_r in X. by rewrite X. }
  destruct R as (V & cell & p & -> & P & C). destruct (scalar_reads_back m v p cell (m_init m) V P C) as [-> E].
  destruct V as [-> _]. by rewrite E.
Qed.

Lemma load_collections_flat nested c context ms before after (d : D) :
  Forall (fun m => a_one_to_many m = None /\ a_many_to_many m = None) ms ->
  load_collections class_of nested c context ms before after d = Done (before ++ after) d.
Proof.
  intros F. revert before after. induction F as [|m ms [A B] F IH]; intros before [|v after]; try done.
  cbn [load_collections]. unfold bind, load_collection. rewrite A, B. cbn [ret]. rewrite IH. by rewrite <- app_assoc.
Qed.

End ReadBack.

(** An entity without references and collections reads back as it was stored,
    whatever the order of the columns in the result. *)
Theorem entity_reads_back {D Cell} `{Database D Cell} class_of fuel c context columns row o (d : D) :
  flat (class_of c) -> prefixed_column_name context [] = [] -> Forall2 (row_holds class_of columns row) (members (class_of c)) o ->
  map_row_to_entity class_of (S fuel) c context columns row d = Done (invoke_lifecycle PostLoad (class_of c) o) d.
Proof.
  intros F X R. cbn [map_row_to_entity]. unfold bind at 1.
  assert (E : each (read_member class_of (map_row_to_entity class_of fuel) context columns row) (members (class_of c)) d = Done o d).
  { induction R as [|m v ms o V R IH]; [done|]. cbn [each]. unfold bind. rewrite (member_reads_back class_of _ _ _ _ _ v) by done.
    by rewrite IH. }
  rewrite E. unfold bind. by rewrite load_collections_flat.
Qed.

(** ** A store of tables

    A database for the statements above, that reads their text. *)

Module Store.

Inductive Token := W (s : bytes) | Y (b : byte).

#[export] Instance Token_eq : EqDecision Token.
Proof. solve_decision. Defined.

Definition flush (word : bytes) (ts : list Token) : list Token := match word with [] => ts | _ => W word :: ts end.

Fixpoint scan (word s : bytes) : list Token :=
  match s with
  | [] => flush word []
  | b :: s => if name_char b then scan (word ++ [b]) s
              else flush word ((if bool_decide (b = " "%char) then [] else [Y b]) ++ scan [] s)
  end.

(** [a = ?] separated by [sep]; the columns and what follows. *)
Fixpoint equations (sep : Token) (ts : list Token) : option (list bytes * list Token) :=
  match ts with
  | W n :: Y e :: Y q :: ts =>
      if bool_decide (e = "="%char /\ q = "?"%char) then
        match ts with
        | t :: ts' => if bool_decide (t = sep) then '(ns, rest) ← equations sep ts'; Some (n :: ns, rest) else Some ([n], ts)
        | [] => Some ([n], [])
        end
      else None
  | _ => None
  end.

(** Names separated by commas. *)
Fixpoint names (ts : list Token) : list bytes * list Token :=
  match ts with
  | W n :: Y c :: ts' => if bool_decide (c = ","%char) then let '(ns, rest) := names ts' in (n :: ns, rest) else ([n], Y c :: ts')
  | W n :: ts' => ([n], ts')
  | _ => ([], ts)
  end.

Record t := mk { tables : gmap bytes (list Row); next_id : Z; leased : list nat; ambient : option nat }.

Definition table (d : t) (n : bytes) : list Row := default [] (tables d !! n).
Definition set_table (n : bytes) (l : list Row) (d : t) : t := mk (<[n := l]> (tables d)) (next_id d) (leased d) (ambient d).

Definition syntax_error {A} : result Exn A := inl (DatabaseError (bs "syntax error")).

Definition update (ts : list Token) (ps : list Param) (d : t) : result Exn Z * t :=
  match ts with
  | W n :: W _ :: ts =>
      match equations (Y ","%char) ts with
      | Some (cols, W _ :: ts) =>
          match equations (W (bs "AND")) ts with
          | Some (keys, []) =>
              let l := zip cols (take (length cols) ps) in
              let k := zip keys (drop (length cols) ps) in
              (inr (len (filter (selected k) (table d n))), set_table n (map (updated k l) (table d n)) d)
          | _ => (syntax_error, d)
          end
      | _ => (syntax_error, d)
      end
  | _ => (syntax_error, d)
  end.

(** The column [id] is the next number when it is not given. *)
Definition insert (ts : list Token) (ps : list Param) (d : t) : result Exn Z * t :=
  match ts with
  | W n :: Y _ :: ts =>
      let row := assign (zip (fst (names ts)) ps) {[ bs "id" := Int (next_id d) ]} in
      (inr 1, mk (<[n := table d n ++ [row]]> (tables d)) (next_id d + 1) (leased d) (ambient d))
  | _ => (syntax_error, d)
  end.

Definition delete (ts : list Token) (ps : list Param) (d : t) : result Exn Z * t :=
  match ts with
  | W n :: W _ :: ts =>
      match equations (W (bs "AND")) ts with
      | Some (keys, []) =>
          (inr (len (filter (selected (zip keys ps)) (table d n))),
           set_table n (filter (fun r => ~ selected (zip keys ps) r) (table d n)) d)
      | _ => (syntax_error, d)
      end
  | _ => (syntax_error, d)
  end.

Definition execute_text (sql : bytes) (ps : list Param) (d : t) : result Exn Z * t :=
  match scan [] sql with
  | W w :: ts =>
      if bool_decide (w = bs "UPDATE") then update ts ps d
      else match ts with
           | _ :: ts => if bool_decide (w = bs "INSERT") then insert ts ps d else delete ts ps d
           | [] => (syntax_error, d)
           end
  | _ => (syntax_error, d)
  end.

(** The rows of a SELECT: [FROM t], [WHERE a = ?], [AND b NOT IN (...)]. *)
Definition where_rows (ts : list Token) (ps : list Param) (d : t) : list Row :=
  match ts with
  | _ :: W n :: ts =>
      match ts with
      | _ :: W k :: _ :: _ :: ts =>
          let hit := filter (selected (zip [k] ps)) (table d n) in
          match ts with
          | _ :: W b :: _ => filter (fun r : Row => default Null (r !! b) ∉ tail ps) hit
          | _ => hit
          end
      | _ => table d n
      end
  | _ => []
  end.

Definition listed (ts : list Token) (ps : list Param) (d : t) : list bytes * list (list Param) :=
  (fst (names ts), map (fun r : Row => map (fun c => default Null (r !! c)) (fst (names ts))) (where_rows (snd (names ts)) ps d)).

Definition query_text (sql : bytes) (ps : list Param) (d : t) : list bytes * list (list Param) :=
  match scan [] sql with
  | _ :: W c :: Y p :: _ :: _ :: ts =>
      if bool_decide (p = "("%char) then ([c], [[Int (len (where_rows ts ps d))]]) else listed (tail (scan [] sql)) ps d
  | _ :: ts => listed ts ps d
  | [] => ([], [])
  end.

Fixpoint remove_one (c : nat) (l : list nat) : list nat :=
  match l with
  | [] => []
  | x :: l => if (x =? c)%nat then l else x :: remove_one c l
  end.

#[global] Instance store : Database t Param := {|
  dialect := Dialect.SqliteDialect;
  get_connection d := (inr (S (length (leased d))), mk (tables d) (next_id d) (S (length (leased d)) :: leased d) (ambient d));
  release c d := mk (tables d) (next_id d) (remove_one c (leased d)) (ambient d);
  current_connection := ambient;
  execute _ := execute_text;
  query _ sql ps d := (inr (query_text sql ps d), d);
  last_insert_id _ d := (inr (next_id d - 1), d);
  generate_uuid d := (repeat (byte_of_Z 1) 16, d);
  is_null p := bool_decide (p = Null);
  get_int p := match p with Int z => inr z | _ => inl (DatabaseError (bs "stoll")) end;
  get_double p := match p with Double x => inr x | _ => inl (DatabaseError (bs "stod")) end;
  get_string p := match p with Text s => s | _ => [] end;
  get_bool p := match p with Bool b => b | _ => false end;
  get_blob p := match p with Blob b => b | _ => [] end;
  get_uuid p := match p with UuidValue u => u | _ => [] end;
  get_time p := match p with Time z => z | _ => 0 end;
  garbled_time _ _ := 0
|}.

(** ** The store obeys the law *)

Lemma scan_name n word s : forallb name_char n = true -> scan word (n ++ s) = scan (word ++ n) s.
Proof.
  revert word. induction n as [|b n IH]; intros word N; [by rewrite app_nil_r|]. cbn [forallb] in N.
  apply andb_true_iff in N as [B N]. cbn [app scan]. rewrite B, IH by done. by rewrite <- app_assoc.
Qed.

(** A word followed by a character that is not part of it. *)
Lemma scan_word n b s : is_name n -> name_char b = false ->
  scan [] (n ++ b :: s) = W n :: (if bool_decide (b = " "%char) then [] else [Y b]) ++ scan [] s.
Proof. intros [E N] B. rewrite scan_name by done. cbn [app scan]. rewrite B. unfold flush. by destruct n. Qed.

Definition equation (n : bytes) : list Token := [W n; Y "="%char; Y "?"%char].

Fixpoint separated (sep : Token) (ns : list bytes) : list Token :=
  match ns with
  | [] => []
  | [n] => equation n
  | n :: ns => equation n ++ sep :: separated sep ns
  end.

Lemma scan_equation n s : is_name n -> scan [] (n ++ bs " = ?" ++ s) = equation n ++ scan [] s.
Proof. intros N. change (bs " = ?" ++ s) with (" "%char :: bs "= ?" ++ s). by rewrite scan_word. Qed.

Lemma scan_set ns s : Forall is_name ns -> scan [] (set_text ns ++ s) = separated (Y ","%char) ns ++ scan [] s.
Proof.
  unfold set_text. induction 1 as [|n ns N F IH]; [done|]. cbn [map]. rewrite join_with_cons. destruct ns as [|n' ns].
  - cbn [map]. rewrite app_nil_r, <- app_assoc. by rewrite scan_equation.
  - change (map _ (n' :: ns)) with ((n' ++ bs " = ?") :: map (fun n => n ++ bs " = ?") ns) at 1.
    rewrite <- !app_assoc, scan_equation by done. change (separated _ (n :: n' :: ns)) with
      (equation n ++ Y ","%char :: separated (Y ","%char) (n' :: ns)). rewrite <- app_assoc. cbn [app]. rewrite <- IH. done.
Qed.

Lemma scan_where ns : Forall is_name ns -> scan [] (where_text ns) = separated (W (bs "AND")) ns.
Proof.
  unfold where_text. induction 1 as [|n ns N F IH]; [done|]. cbn [map]. rewrite join_with_cons. destruct ns as [|n' ns].
  - cbn [map]. rewrite app_nil_r. rewrite <- (app_nil_r (n ++ _)), <- app_assoc. by rewrite scan_equation.
  - change (map _ (n' :: ns)) with ((n' ++ bs " = ?") :: map (fun n => n ++ bs " = ?") ns) at 1.
    rewrite <- !app_assoc, scan_equation by done. change (separated _ (n :: n' :: ns)) with
      (equation n ++ W (bs "AND") :: separated (W (bs "AND")) (n' :: ns)). rewrite <- IH. done.
Qed.

Lemma equations_separated sep ns rest : ns <> [] -> head rest <> Some sep ->
  equations sep (separated sep ns ++ rest) = Some (ns, rest).
Proof.
  intros E R. induction ns as [|n ns IH]; [done|]. destruct ns as [|n' ns].
  - cbn. destruct rest as [|t rest]; [done|]. rewrite (bool_decide_false (t = sep)); [done|]. intros ->. by apply R.
  - change (separated sep (n :: n' :: ns)) with (equation n ++ sep :: separated sep (n' :: ns)). rewrite <- app_assoc.
    cbn [app equation equations]. rewrite !bool_decide_true by done. cbn [app]. by rewrite IH.
Qed.

Lemma update_executed n l keys d : is_name n -> Forall is_name (map fst l) -> Forall is_name (map fst keys) -> l <> [] -> keys <> [] ->
  execute_text (bs "UPDATE " ++ n ++ bs " SET " ++ set_text (map fst l) ++ bs " WHERE " ++ where_text (map fst keys))
    (map snd l ++ map snd keys) d =
    (inr (len (filter (selected keys) (table d n))), set_table n (map (updated keys l) (table d n)) d).
Proof.
  intros N L K El Ek.
  assert (Y : scan [] (bs "UPDATE " ++ n ++ bs " SET " ++ set_text (map fst l) ++ bs " WHERE " ++ where_text (map fst keys)) =
    W (bs "UPDATE") :: W n :: W (bs "SET") :: separated (Y ","%char) (map fst l) ++ W (bs "WHERE") ::
      separated (W (bs "AND")) (map fst keys)).
  { set (w := where_text (map fst keys)). change (bs "UPDATE " ++ n ++ bs " SET " ++ set_text (map fst l) ++ bs " WHERE " ++ w) with
      (bs "UPDATE" ++ " "%char :: n ++ " "%char :: bs "SET" ++ " "%char :: set_text (map fst l) ++ " "%char :: bs "WHERE" ++ " "%char :: w).
    rewrite !scan_word by done. cbn [app]. rewrite scan_set by done. change (scan [] (" "%char :: ?x)) with (scan [] x).
    rewrite scan_word by done. cbn [app]. unfold w. by rewrite scan_where. }
  unfold execute_text. rewrite Y. rewrite bool_decide_true by done. unfold update.
  rewrite equations_separated by (by destruct l). rewrite <- (app_nil_r (separated _ (map fst keys))).
  rewrite equations_separated by (by destruct keys). rewrite length_map, <- (length_map snd l), take_app_length, drop_app_length.
  by rewrite !zip_fst_snd.
Qed.

Lemma store_update conn n l keys d : is_name n -> Forall is_name (map fst l) -> Forall is_name (map fst keys) ->
  l <> [] -> keys <> [] -> NoDup (map fst l) ->
  match execute conn (Dialect.convert_placeholders dialect
          (bs "UPDATE " ++ n ++ bs " SET " ++ set_text (map fst l) ++ bs " WHERE " ++ where_text (map fst keys)))
          (map snd l ++ map snd keys) d with
  | (inl e, d') => (exists m, e = DatabaseError m) /\ table d' = table d
  | (inr k, d') => k = len (filter (selected keys) (table d n)) /\ table d' n = map (updated keys l) (table d n) /\
                   forall n', n' <> n -> table d' n' = table d n'
  end.
Proof.
  intros N L K El Ek _. cbn [execute dialect store]. unfold Dialect.convert_placeholders. rewrite update_executed by done.
  split; [done|]. unfold table, set_table. cbn. split; [by rewrite lookup_insert_eq|]. intros n' NE. by rewrite lookup_insert_ne.
Qed.

Lemma store_lease d e : fst (get_connection (D := t) d) = inl e -> exists m, e = DatabaseError m.
Proof. done. Qed.

#[global] Instance store_updates : SqlUpdates t Param := {|
  rows := table;
  lease_rows _ := eq_refl;
  lease_error := store_lease;
  release_rows _ _ := eq_refl;
  update_rows := store_update
|}.

Lemma remove_one_perm c l k : l ≡ₚ c :: k -> remove_one c l ≡ₚ k.
Proof.
  intros P. assert (I : c ∈ l) by (rewrite P; left). apply (Permutation_cons_inv (a := c)). rewrite <- P. clear -I.
  induction l as [|x l IH]; [by apply not_elem_of_nil in I|]. cbn [remove_one]. destruct (Nat.eqb_spec x c) as [->|N]; [done|].
  apply elem_of_cons in I as [->|I]; [done|]. rewrite Permutation_swap. by rewrite (IH I).
Qed.

Lemma store_execute_leased sql ps d : leased (snd (execute_text sql ps d)) = leased d.
Proof. unfold execute_text, update, insert, delete. by repeat case_goal. Qed.

#[global] Instance store_leases : Leases t Param.
Proof.
  refine {| leases := leased |}; try done.
  - intros d c d' E. by injection E as <- <-.
  - intros d c l P. by apply remove_one_perm.
  - intros conn sql ps d. cbn. by rewrite store_execute_leased.
Qed.

End Store.

(** ** Accounts *)

Module Cases.

(** A data member without annotations, an identifier and a version. *)
Definition plain (n : string) (t : FieldType) (v : Value) : Member :=
  mkMember (bs n) t v false None None false false None None None None None false None.
Definition auto_id : Member :=
  mkMember (bs "id") (TIntegral Int64) (VInt 0) true (Some AutoIncrement) None false false None None None None None false None.
Definition version_member (k : IntKind) : Member :=
  mkMember (bs "version") (TIntegral k) (VInt 0) false None None false true None None None None None false None.
Definition entity_class (n : string) (ms : list Member) : Class_ := mkClass (bs n) None None ms (fun _ => []).

(** [struct BankAccount { id; version; owner; }] *)
Definition account : Class_ := entity_class "BankAccount" [auto_id; version_member Int32; plain "owner" TString (VString [])].

Definition account_row (id version : Z) (owner : string) : Row :=
  list_to_map [(bs "id", Int id); (bs "version", Int version); (bs "owner", Text (bs owner))].

Definition account_of (id version : Z) (owner : string) : Object := [VInt id; VInt version; VString (bs owner)].

Definition accounts : Store.t := Store.mk {[ bs "bank_accounts" := [account_row 7 3 "ann"; account_row 8 1 "eve"] ]} 9 [] None.

Lemma account_versioned : versioned account [auto_id] (version_member Int32) [plain "owner" TString (VString [])].
Proof. split; try done; try (by left); try (by apply (bool_decide_unpack _); vm_compute); by repeat constructor. Qed.

Definition three_saves : list Object := [account_of 7 3 "bob"; account_of 7 3 "joe"; account_of 7 4 "kim"].

Lemma account_to_save id version owner : 0 < id -> 0 <= version < 2 ^ 31 - 1 ->
  to_save account [auto_id] (account_of id version owner) (VInt id) version.
Proof. intros I R. split; try done. unfold has_id. cbn. by rewrite (proj2 (Z.eqb_neq id 0)) by lia. Qed.

Lemma no_lost_updates_witness :
  (exists d, saves (fun _ => account) 1 None 0 three_saves (mkHistory [] []) accounts =
    Some (mkHistory [account_of 7 3 "bob"; account_of 7 4 "kim"] [(account_of 7 3 "joe", 1%nat)], d) /\
    map (fun r : Row => (r !! bs "owner", r !! bs "version")) (rows d (bs "bank_accounts")) =
      [(Some (Text (bs "kim")), Some (Int 5)); (Some (Text (bs "eve")), Some (Int 1))]) /\
  exists h d' r', saves (fun _ => account) 1 None 0 three_saves (mkHistory [] []) accounts = Some (h, d') /\
    keyed account (VInt 7) (rows d' (table_name_ account)) = [r'] /\
    serialized (fun _ => account) account [auto_id] (version_member Int32) (account_row 7 3 "ann") 3 h r'.
Proof.
  split; [eexists; split; [vm_compute; reflexivity|vm_compute; reflexivity]|].
  apply (no_lost_updates (fun _ => account) 0 None 0 [auto_id] (version_member Int32) [plain "owner" TString (VString [])] (VInt 7)
    three_saves accounts (account_row 7 3 "ann") 3).
  - exact account_versioned.
  - repeat apply Forall_cons_2; [| | |constructor].
    + exact (account_to_save 7 3 "bob" ltac:(lia) ltac:(lia)).
    + exact (account_to_save 7 3 "joe" ltac:(lia) ltac:(lia)).
    + exact (account_to_save 7 4 "kim" ltac:(lia) ltac:(lia)).
  - apply (bool_decide_unpack _). vm_compute. exact I.
  - vm_compute. reflexivity.
Defined.

(** An account read from a result with its columns in another order. *)
Lemma entity_reads_back_witness :
  map_row_to_entity (fun _ => account) 1 0 None [bs "owner"; bs "id"; bs "version"] [Text (bs "ann"); Int 7; Int 3] accounts =
    Done (account_of 7 3 "ann") accounts.
Proof.
  apply (entity_reads_back (fun _ => account) 0 0 None _ _ (account_of 7 3 "ann") accounts); [by repeat constructor|done|].
  cbn [members account entity_class account_of]. unfold account_of.
  apply List.Forall2_cons; [|apply List.Forall2_cons; [|apply List.Forall2_cons; [|constructor]]].
  - split; [split; [reflexivity|split; [reflexivity|cbn; lia]]|]. exists (Int 7), (Int 7). repeat split; reflexivity.
  - split; [split; [reflexivity|split; [reflexivity|cbn; lia]]|]. exists (Int 3), (Int 3). repeat split; reflexivity.
  - split; [split; [reflexivity|split; [reflexivity|exact I]]|]. exists (Text (bs "ann")), (Text (bs "ann")). repeat split; reflexivity.
Defined.

(** The conflict of a save, with the pool as it was. *)
Lemma connections_returned_witness :
  balanced (save (fun _ => account) 1 None 0 (account_of 7 2 "joe")) /\
  save (fun _ => account) 1 None 0 (account_of 7 2 "joe") accounts = Thrown (OptimisticLockException (bs "bank_accounts")) accounts.
Proof. split; [apply (connections_returned (fun _ => account) 1 None 0)|vm_compute; reflexivity]. Defined.

(** ** Where the code does not do what it means to *)

Definition with_table (n : string) (rs : list (list (string * Param))) : bytes * list Row :=
  (bs n, map (fun r => list_to_map (map (fun cp => (bs (fst cp), snd cp)) r)) rs).
Definition database (ts : list (bytes * list Row)) : Store.t := Store.mk (list_to_map ts) 100 [] None.

(** A column of a table. *)
Definition column (d : Store.t) (t c : string) : list (option Param) := map (fun r : Row => r !! bs c) (Store.table d (bs t)).

Definition to_one (n : string) (t : FieldType) (v : Value) (fetch : FetchType) (col : string) : Member :=
  mkMember (bs n) t v false None None false false None None (Some fetch) None None false (Some (bs col)).
Definition to_many (n : string) (t : FieldType) (v : Value) (otm : OneToMany) : Member :=
  mkMember (bs n) t v false None None false false None None None (Some otm) None false None.

(** The documented [Project] with [OneToMany("project", CascadeType::All, true)]
    articles, which are a vector fetched lazily. *)
Definition project : Class_ := entity_class "Project"
  [auto_id; plain "title" TString (VString []);
   to_many "articles" (TVector 1) (VVector []) (mkOneToMany LazyFetch All true (bs "project"))].
Definition article : Class_ := entity_class "Article"
  [auto_id; to_one "project" (TRef 0) (VRef [VInt 0; VString []; VVector []]) Eager "project_id"].
Definition publishing (c : nat) : Class_ := match c with 0%nat => project | _ => article end.

Definition library : Store.t := database
  [with_table "projects" [[("id", Int 1); ("title", Text (bs "old"))]];
   with_table "articles" [[("id", Int 10); ("project_id", Int 1)]; [("id", Int 11); ("project_id", Int 1)]]]%string.

(** A project that was found and saved with a new title has lost its articles:
    the collection that was not fetched counts as loaded and empty. *)
Lemma unfetched_children_deleted : exists o o' d,
  find_by_id publishing 5 None 0 (VInt 1) library = Done (Some o) library /\
  save publishing 5 None 0 (set_member 1 (VString (bs "new")) o) library = Done o' d /\
  column library "articles" "id" = [Some (Int 10); Some (Int 11)] /\ column d "articles" "id" = [].
Proof. eexists _, _, _. split; [vm_compute; reflexivity|]. split; [vm_compute; reflexivity|]. split; [vm_compute; reflexivity|vm_compute; reflexivity]. Qed.

(** With the articles fetched eagerly, an article's project comes without them:
    the key that marks the project as being loaded also marks its collection. *)
Definition eager_project : Class_ := entity_class "Project"
  [auto_id; plain "title" TString (VString []);
   to_many "articles" (TVector 1) (VVector []) (mkOneToMany Eager All true (bs "project"))].
Definition eager_publishing (c : nat) : Class_ := match c with 0%nat => eager_project | _ => article end.

Lemma parent_collection_empty : exists p,
  find_by_id eager_publishing 9 None 1 (VInt 10) library =
    Done (Some [VInt 10; VRef [VInt 1; VString (bs "old"); VVector []]]) library /\
  find_by_id eager_publishing 9 None 0 (VInt 1) library = Done (Some [VInt 1; VString (bs "old"); p]) library /\
  length (collection_values p) = 2%nat.
Proof. eexists. split; [vm_compute; reflexivity|]. split; [vm_compute; reflexivity|vm_compute; reflexivity]. Qed.

(** Loading the library ends, though projects and articles refer to each other:
    its cells, the counts of its rows among them, and the keys they make. *)
Definition cells : list Param := [Null; Int 0; Int 1; Int 2; Int 10; Int 11; Text (bs "old")].
Definition library_keys : list bytes :=
  flat_map (fun n => [bs "projects:" ++ to_dec_signed n; bs "articles:" ++ to_dec_signed n]) [0; 1; 2; 10; 11].

Definition made_of (T : gmap bytes (list Row)) : Prop :=
  map_Forall (fun _ rs => (length rs <= 2)%nat /\ Forall (fun r : Row => map_Forall (fun _ p => p ∈ cells) r) rs) T.

Lemma library_made_of : made_of (Store.tables library).
Proof. apply (bool_decide_unpack _). vm_compute. exact I. Qed.

Lemma table_made_of d n : made_of (Store.tables d) ->
  (length (Store.table d n) <= 2)%nat /\ Forall (fun r : Row => map_Forall (fun _ p => p ∈ cells) r) (Store.table d n).
Proof. intros M. unfold Store.table. destruct (Store.tables d !! n) as [rs|] eqn:E; [by apply (M n)|]. cbn. split; [lia|constructor]. Qed.

Lemma filter_made (P : Row -> Prop) `{forall r, Decision (P r)} (Q : Row -> Prop) l :
  (length l <= 2)%nat /\ Forall Q l -> (length (filter P l) <= 2)%nat /\ Forall Q (filter P l).
Proof.
  intros [L F]. split; [etrans; [apply length_filter|done]|]. rewrite Forall_forall in *. intros r R.
  apply list_elem_of_filter in R as [_ R]. by apply F.
Qed.

Lemma where_made_of ts ps d : made_of (Store.tables d) ->
  (length (Store.where_rows ts ps d) <= 2)%nat /\ Forall (fun r : Row => map_Forall (fun _ p => p ∈ cells) r) (Store.where_rows ts ps d).
Proof.
  intros M. unfold Store.where_rows. repeat case_match; cbv zeta; repeat apply filter_made; try (by apply table_made_of);
    (split; [cbn; lia|constructor]).
Qed.

Lemma query_made_of sql ps d : made_of (Store.tables d) -> Forall (Forall (.∈ cells)) (snd (Store.query_text sql ps d)).
Proof.
  intros M. assert (X : forall ts, Forall (Forall (.∈ cells)) (snd (Store.listed ts ps d))).
  { intros ts. unfold Store.listed. cbn [snd]. generalize (fst (Store.names ts)) as cols. intros cols.
    destruct (where_made_of (snd (Store.names ts)) ps d M) as [_ F]. induction F as [|r rs Hr F IH]; constructor; [|done].
    clear -Hr. induction cols as [|c cols IH]; constructor; [|done]. destruct (r !! c) as [p|] eqn:E; [by apply (Hr c)|left]. }
  assert (N : forall ts, Int (len (Store.where_rows ts ps d)) ∈ cells).
  { intros ts. destruct (where_made_of ts ps d M) as [L _]. unfold len.
    destruct (length (Store.where_rows ts ps d)) as [|[|[|k]]]; [by apply (bool_decide_unpack _); vm_compute..|lia]. }
  unfold Store.query_text. repeat case_match; try apply X; try constructor; [|done]. constructor; [apply N|done].
Qed.

Lemma library_identities :
  finite_identities eager_publishing library_keys (fun d => Store.tables d = Store.tables library) (fun p => p ∈ cells).
Proof.
  split.
  - intros conn sql ps d G. cbn [query Store.store]. pose proof (query_made_of sql ps d) as Q. rewrite G in Q.
    specialize (Q library_made_of). by destruct (Store.query_text sql ps d).
  - done.
  - done.
  - intros c cell o id S O I. destruct c as [|c]; cbn [eager_publishing] in *;
      repeat (apply elem_of_cons in S as [->|S]; [vm_compute in O; simplify_eq; vm_compute in I; simplify_eq;
        by apply (bool_decide_unpack _); vm_compute|]); by apply not_elem_of_nil in S.
  - intros c m I A. assert (m = auto_id) as ->.
    { destruct c as [|c]; cbn in I; repeat (apply elem_of_cons in I as [->|I]; [done|]); by apply not_elem_of_nil in I. }
    assert (K : forall n, n ∈ [0; 1; 2; 10; 11] -> keys_of eager_publishing library_keys c (Int n)).
    { intros n N. split; [|by intros m mtm J E; destruct c as [|c]; cbn in J;
        repeat (apply elem_of_cons in J as [->|J]; [done|]); apply not_elem_of_nil in J].
      destruct c as [|c]; repeat (apply elem_of_cons in N as [->|N]; [by apply (bool_decide_unpack _); vm_compute|]);
        by apply not_elem_of_nil in N. }
    repeat (split; [done|]). split; [apply K; left|]. intros cell v S V.
    repeat (apply elem_of_cons in S as [->|S]; [vm_compute in V; simplify_eq; apply K; by apply (bool_decide_unpack _); vm_compute|]);
      by apply not_elem_of_nil in S.
Qed.

Lemma eager_loading_ends_witness :
  find_by_id eager_publishing (length library_keys + 2) None 1 (VInt 10) library <> Unfinished /\
  length library_keys = 10%nat.
Proof.
  split; [|reflexivity]. apply (eager_loading_ends eager_publishing library_keys _ _ None 1 library library_identities eq_refl).
Defined.

(** Integers other than [int] and [std::int64_t] are written and not read. *)
Definition player : Class_ := entity_class "Player" [auto_id; plain "level" (TIntegral (OtherInt 16 true)) (VInt 0)].

Lemma short_not_read : exists d,
  save (fun _ => player) 1 None 0 [VInt 0; VInt 5] (database []) = Done [VInt 100; VInt 5] d /\
  column d "players" "level" = [Some (Int 5)] /\
  find_by_id (fun _ => player) 1 None 0 (VInt 100) d = Done (Some [VInt 100; VInt 0]) d.
Proof. eexists. split; [vm_compute; reflexivity|]. split; [vm_compute; reflexivity|vm_compute; reflexivity]. Qed.

(** An [int] version that reaches its maximum wraps to a negative one, with
    which there is no lock: two saves from one version both succeed. *)
Lemma version_wraps : exists d1 d2 d3,
  let worn := Store.mk {[ bs "bank_accounts" := [account_row 7 (2 ^ 31 - 1) "ann"] ]} 9 [] None in
  save (fun _ => account) 1 None 0 (account_of 7 (2 ^ 31 - 1) "bob") worn = Done (account_of 7 (- 2 ^ 31) "bob") d1 /\
  save (fun _ => account) 1 None 0 (account_of 7 (- 2 ^ 31) "joe") d1 = Done (account_of 7 (1 - 2 ^ 31) "joe") d2 /\
  save (fun _ => account) 1 None 0 (account_of 7 (- 2 ^ 31) "kim") d2 = Done (account_of 7 (1 - 2 ^ 31) "kim") d3 /\
  column d3 "bank_accounts" "owner" = [Some (Text (bs "kim"))].
Proof. eexists _, _, _. split; [vm_compute; reflexivity|]. split; [vm_compute; reflexivity|]. split; [vm_compute; reflexivity|vm_compute; reflexivity]. Qed.

(** Without a version, saving an entity whose row is gone reports success. *)
Definition note : Class_ := entity_class "Note" [auto_id; plain "text" TString (VString [])].

Lemma missing_row_saved : exists d,
  save (fun _ => note) 1 None 0 [VInt 4; VString (bs "hi")] (database []) = Done [VInt 4; VString (bs "hi")] d /\
  column d "notes" "id" = [].
Proof. eexists. split; [vm_compute; reflexivity|vm_compute; reflexivity]. Qed.

(** With an identifier the application assigns, saving a versioned entity whose
    row was deleted inserts it again. *)
Definition assigned_id : Member :=
  mkMember (bs "id") TString (VString []) true None None false false None None None None None false None.
Definition document : Class_ := entity_class "Document" [assigned_id; version_member Int64].

Lemma deleted_row_returns : exists d1 d2,
  let stored := database [with_table "documents" [[("id", Text (bs "a")); ("version", Int 3)]]]%string in
  delete_by_id (fun _ => document) 1 None 0 (VString (bs "a")) stored = Done () d1 /\
  save (fun _ => document) 1 None 0 [VString (bs "a"); VInt 3] d1 = Done [VString (bs "a"); VInt 1] d2 /\
  column d1 "documents" "id" = [] /\ column d2 "documents" "id" = [Some (Text (bs "a"))].
Proof. eexists _, _. split; [vm_compute; reflexivity|]. split; [vm_compute; reflexivity|]. split; [vm_compute; reflexivity|vm_compute; reflexivity]. Qed.

(** A fetch join reads a project's columns under a prefix, and the prefix stays
    for what the project loads itself: its owner comes empty. *)
Definition owned_project : Class_ := entity_class "Project" [auto_id; to_one "owner" (TRef 2) (VRef [VInt 0; VString []]) Eager "owner_id"].
Definition owner : Class_ := entity_class "Owner" [auto_id; plain "name" TString (VString [])].
Definition lazy_article : Class_ := entity_class "Article" [auto_id; to_one "project" (TLazy 0) (VLazy None None) LazyFetch "project_id"].
Definition owned_publishing (c : nat) : Class_ := match c with 0%nat => owned_project | 1%nat => lazy_article | _ => owner end.

Definition owned_library : Store.t := database
  [with_table "projects" [[("id", Int 1); ("owner_id", Int 5)]];
   with_table "owners" [[("id", Int 5); ("name", Text (bs "ann"))]]]%string.

Lemma joined_prefix_stays :
  let prefix := QueryBuilder.join_fetch_prefix (bs "project") in
  let columns := [bs "id"; bs "project_id"; prefix ++ bs "id"; prefix ++ bs "owner_id"] in
  let fetching := mkContext 1 [] [bs "project"] [(bs "project", prefix)] [] false in
  map_row_to_entity owned_publishing 5 1 (Some fetching) columns [Int 10; Int 1; Int 1; Int 5] owned_library =
    Done [VInt 10; VLazy (Some [VInt 1; VRef [VInt 0; VString []]]) (Some (Int 1))] owned_library /\
  find_by_id owned_publishing 5 None 0 (VInt 1) owned_library =
    Done (Some [VInt 1; VRef [VInt 5; VString (bs "ann")]]) owned_library.
Proof. split; [vm_compute; reflexivity|vm_compute; reflexivity]. Qed.

(** Deleting a row that is its own parent, with its children, never returns. *)
Definition node : Class_ := entity_class "Node"
  [auto_id; to_one "parent" (TOptional 0) (VOptional None) LazyFetch "parent_id";
   to_many "children" (TVector 0) (VVector []) (mkOneToMany LazyFetch All false (bs "parent"))].
Definition loop : Store.t := database [with_table "nodes" [[("id", Int 1); ("parent_id", Int 1)]]]%string.

Lemma children_unfinished f m otm : m_type m = TVector 0 -> otm_cascade otm = All -> mapped_by otm = bs "parent" ->
  f 0%nat 1%nat (VInt 1) loop = Unfinished ->
  delete_one_to_many_association (fun _ => node) f m otm (VInt 1) 1 loop = Unfinished.
Proof.
  intros T C B U. unfold delete_one_to_many_association. rewrite T, C, B. change (cascades_remove All) with true. cbn [child_class].
  change (entity_primary_key_column node) with (@inr Exn _ (bs "id")).
  change (child_join_column_for_mapped_by node (bs "parent")) with (@inr Exn _ (bs "parent_id")).
  unfold bind, lift, ret. match goal with |- context [send_query ?c ?s ?p loop] =>
    assert (Q : send_query c s p loop = Done ([bs "id"], [[Int 1]]) loop) by (vm_compute; reflexivity); rewrite Q end.
  change (read_ids node [[Int 1]]) with (@inr Exn _ [VInt 1]). unfold delete_ids, bind. cbn [each]. unfold bind. by rewrite U.
Qed.

Lemma cyclic_delete_never_returns fuel : delete_by_id (fun _ => node) fuel (Some 1%nat) 0 (VInt 1) loop = Unfinished.
Proof.
  induction fuel as [|fuel IH]; [done|]. cbn [delete_by_id with_connection]. unfold delete_row, delete_associations_by_id, bind.
  cbn [members node entity_class each]. unfold bind. cbn [to_many auto_id to_one a_one_to_many a_many_to_many ret].
  by rewrite children_unfinished.
Qed.

End Cases.

End RepositoryProps.
